(* ===== verification/_CoqProject ===== *)
-Q . S2P
Prelude.v
PagedKv.v
PagedKvPool.v
PagedKvInv.v
PagedKvOps.v
PagedKvPrefix.v
PagedKvSpec.v
PagedKvUnshared.v
ContinuousBatch.v
ContinuousBatchInv.v
ContinuousBatchSchedule.v
ContinuousBatchLoop.v
ContinuousBatchOps.v
ContinuousBatchVerify.v
ContinuousBatchCalls.v
PagedContents.v
PagedMapped.v
ContinuousBatchModes.v
ContinuousBatchSpec.v
ContinuousBatchExamples.v
GenerationControl.v
Generation.v
GenerationSession.v
GenerationRecord.v
GenerationExamples.v
Float.v
Sampling.v
SamplingSpec.v
SamplingDraw.v
Speculative.v
SpeculativeSpec.v
SpeculativeGreedy.v
SpeculativeExamples.v
Runtime.v
RuntimeSpec.v
Worker.v
WorkerSpec.v
Numerics.v
BatchSampling.v
FencedBatch.v
DeviceBatch.v
BatchDecoding.v
BatchSamplingSpec.v
PlainScheduler.v
FencedBatchSpec.v
DeviceBatchSpec.v
BatchExamples.v
DeviceExamples.v
TieredPrefix.v
TieredPrefixSpec.v
TieredPrefixExamples.v
TrainData.v
TrainDataSpec.v
TrainLoaderSpec.v
TrainDataExamples.v
TrainDisk.v
Safetensors.v
SafetensorsSpec.v
Trainer.v
TrainerSpec.v
TrainerResume.v
TrainerAtomic.v
TrainerProgress.v
TrainerExamples.v
PrefixTransfer.v
PrefixReshard.v
Rope.v
RopeSpec.v
PagedRotary.v
PagedRotarySpec.v
RotaryExamples.v
PagedEngine.v
PagedEngineSpec.v
PagedRunner.v
PagedRunnerSpec.v
PagedRunnerExamples.v
