(* ===== verification/Prelude.v ===== *)
(** * ruLLM: a verification library for the host-side core

    ruLLM (src/) runs large language models.  Its tensor programs are calls into
    compute libraries outside the repository; what the repository itself decides
    is on the host: which KV pages a request owns, which requests run together,
    which token is chosen and when a generation stops.  This library models that
    part, function by function, and proves what it guarantees.

    ** Layers and files

    Each layer calls only the ones above it, through the operations named here.

    - This file: machine integers, results with panics ([res]), the state and
      error monad [M] with its weakest preconditions ([wp], [wp_step]), ordered
      maps and sets, invariants that go through a method step by step
      ([keeping]).  Every [&mut self] method is a computation of [M] over the
      record that models [self]; [Err] keeps the state reached, as in Rust; a
      panic names the construct that raised it.
    - Paged KV cache, src/src/paged_kv.rs.  [PagedKv]: the manager, every method.
      [PagedKvPool]: the invariant of physical pages (reference counts, free set,
      cached blocks, eviction queue).  [PagedKvInv], [PagedKvOps],
      [PagedKvPrefix]: the invariant [kv_wf] of the reserve/commit protocol and its
      preservation by each method.  [PagedKvSpec]: the reachable states and the
      properties.
    - Continuous batching, src/src/continuous_batch.rs and
      continuous_batch/lifecycle.rs.  [ContinuousBatch]: the scheduler, every
      method, calling the cache through [kv].  [ContinuousBatchInv]: its invariant
      [sched_wf].  [ContinuousBatchSchedule], [ContinuousBatchLoop] (building
      batches, preemption, admission), [ContinuousBatchOps] (completion, failure),
      [ContinuousBatchVerify] (verification of drafts), [ContinuousBatchCalls] (the
      other calls; the reachable states).  [ContinuousBatchSpec]: the properties,
      ending in the refinement of plain greedy decoding.
      [ContinuousBatchExamples]: concrete runs.
    - Generation, src/src/generation.rs and generation/.  [GenerationControl]:
      control.rs, the stop-sequence automaton.  [Generation]: validation and the
      one-shot loop, over the interface [CausalModel] (what the loop uses of a model
      and its cache).  [GenerationSession], [GenerationRecord]:
      session.rs, session/record.rs and the prefilled prompts of prefix_cache.rs.
      [GenerationExamples]: a small model.
    - Sampling, generation/sampling.rs, sampling/distribution.rs, sampling/state.rs.
      [Float]: IEEE 754 data ([SpecFloat]) with the operations used.  [Sampling]:
      the filters, penalties, draws and samplers.  [SamplingSpec], [SamplingDraw]:
      what they compute.
    - Speculation, generation/speculative.rs.  [Speculative]: the entry point and
      its loops over two [CausalModel]s with the interface [SpeculativeModel].
      [SpeculativeSpec]: output, statistics, termination.  [SpeculativeGreedy]: the
      equivalence with ordinary greedy generation.  [SpeculativeExamples].
    - Runtime, src/src/runtime/.  [Runtime], [RuntimeSpec]: error.rs, shape.rs,
      capabilities.rs, memory.rs.  [Worker], [WorkerSpec]: worker.rs as a step
      relation of one thread and its clients, every access to shared data one step.
    - Host numerics, runtime/numerics.rs.  [Numerics]: the strict argmax, the
      reference softmax and RMS normalization, the tolerance comparison.
    - Sampled and fenced batches, continuous_batch/sampling.rs and
      continuous_batch/fenced.rs.  [BatchSampling]: the selection of a batch's
      tokens on copies of the requests' samplers and its commit.
      [BatchDecoding]: decoding one request alone ([decode]), and the invariant
      that ties a scheduler to it.  [BatchSamplingSpec]: what is selected and
      committed.  [FencedBatch]: the gate that holds a scheduler back until a
      fence is done; a poll's answer is in the state of the fence, so successive
      polls see the device progress, fail or panic.  [ContinuousBatchModes]: a
      scheduler without speculation builds no verification batch, one without
      preemption only grows what is stored, and no sampled request is drafted for.
      [FencedBatchSpec]: the states of a gate and its properties.
      [BatchExamples]: concrete runs.
    - The device batch executor, continuous_batch/device.rs.  [PlainScheduler]:
      schedulers that never speculate, which the gate and the executor share.
      [PagedKvUnshared]: without prefix caching no page has two places.
      [DeviceBatch]: the trait DeviceBatchModel as a class and the executor's
      methods.  [DeviceBatchSpec]: the contract [BatchModelLaws] of
      a model, and what the executor then guarantees.  [DeviceExamples]: a device
      that follows a script of failures.
    - The tiered prefix cache, prefix_cache.rs.  [TieredPrefix]: the device, host
      and disk tiers over a directory whose calls may fail, with the serialization
      [PrefixStorage] as a parameter.  [TieredPrefixSpec]: its counters and budgets,
      its reachable states and the properties.  [TieredPrefixExamples].
    - The training data pipeline, training/data.rs, with the chat template of
      huggingface.rs.  [TrainData]: records, labels, micro-batches and the loader,
      SplitMix64 on wrapping 64-bit words.  [TrainDataSpec]: examples and batches.
      [TrainLoaderSpec]: the order of an epoch, positions and shards.
      [TrainDataExamples]: a tokenizer by characters.
    - The trainer, training/trainer.rs, with training/export.rs.  [TrainDisk]:
      a directory of files whose every call may fail, a failing write leaving a part
      behind, and the calls when none fails.  [Safetensors]: the files
      of a module's parameters, written and read.  [SafetensorsSpec]: the round trip.
      [Trainer]: optimizer steps over micro-batches, checkpoints, the training loop.
      [TrainerSpec]: what steps, saves and loads do.  [TrainerResume]: resumption.
      [TrainerAtomic]: saving while calls fail.  [TrainerProgress]: the loop ends.
      [TrainerExamples]: a model of one byte, trained, interrupted and resumed.
    - Prefix tensors between shards, prefix_transfer.rs.  [PrefixTransfer]: named
      tensors of which every rank holds some heads, their host records and device
      manifests, the contract [TransferLaws] of tensors, and what a cut gives.
      [PrefixReshard]: merged prefixes, the heads of a rank, all ranks together, the
      properties.
    - Rotary histories, llama/rope.rs and paged_engine/rotary.rs.  [Rope]: the
      lengths tokens were rotated with, run-length encoded, and the states that
      continue them.  [RopeSpec]: a history is a list of lengths; histories among
      the scalars of a prefix.  [PagedRotary]: the contexts of paged
      batches, per request and per physical slot.  [PagedRotarySpec]: they are those
      of contiguous caches.  [RotaryExamples]: tensors of bytes, and rotary runs.
    - Paged engine and runner, paged_engine.rs, with the upload of paged_attention.rs
      and the assertions of llama.rs.  [PagedContents]: what the slots
      of physical pages hold, and what every method of the cache keeps of it.
      [PagedMapped]: the same for the scheduler's calls; a forward writes only slots
      nothing else relies on.  [BatchSamplingSpec] also says what completing a batch
      from a model's logits does.
      [PagedEngine]: the engine over the class [PagedModel].  [PagedEngineSpec]: the
      laws of the kernels, [PagedModelLaws], and what one forward does.
      [PagedRunner], [PagedRunnerSpec]: the runner, its reachable states and its
      properties.  [PagedRunnerExamples]: a model whose pools remember their tokens.

    ** Groups of theorems

    - Safety: no [expect], index or slice of a public call is out of its domain in
      any reachable state, and calls keep the invariants, those that fail included
      ([kv_calls_are_safe], [scheduler_calls_are_safe], which states its two
      exceptions, [worker_is_safe]).
      The only panic left possible is the overflow of a 64-bit counter ([benign]).
    - Functional behaviour of operations, on every branch: the [_exact] theorems.
    - Equivalence and refinement: batching, speculation, sessions and restored or
      prefix-reusing sessions produce the tokens of the plain loop.
    - Conservation: pages are never lost or shared for writing
      ([kv_pages_conserved], [append_target_pages_are_exclusive],
      [idle_scheduler_owns_no_pages], [written_exclusive]).
    - Liveness and termination: [accepted_jobs_complete], [speculation_terminates].
    - Refinement through all layers: behind the fence, whatever the order of
      launches, failures, rollbacks, polls and cancellations, a request gets the
      tokens its own sampler would draw alone
      ([fenced_batching_equals_single_decoding]); nothing is committed before the
      fence is done and a quarantined gate is never used again
      ([fence_completion_exact], [fence_gate_is_safe]).
    - The executor and the device stay in step: a batch handed to the model always
      continues what its cache holds, in pages of its own; a batch is rolled back only
      once its synchronizations have answered, and stays in flight when one failed
      ([device_executor_in_step]), and a request gets the
      tokens that decoding it alone gives ([device_batching_equals_single_decoding]).
    - The prefix tiers are transparent: a prefill through them is a prefill without
      them ([tiered_prefill_is_prefill]); a lookup gives the longest kept prefix that
      can still be read and drops only those that cannot ([tiered_cache_is_safe]); an
      exported prefix is imported as it was
      ([prefix_export_import]).
    - Training data is what the records say: exactly the assistants' words are
      labels ([chat_labels_exact]), every example can be trained on
      ([jsonl_examples_trainable]), a batch is its examples padded
      ([collate_exact]); an epoch is the dataset ([epoch_covers_dataset]), ranks split
      it ([shards_split_stream]), and a saved position resumes it
      ([restored_loader_resumes]).
    - Training survives its process: the parameters of a module come back from their
      file ([trainable_roundtrip]), a checkpoint is whole or absent whatever calls
      fail ([checkpoint_is_atomic]), a resumed training is the training that was
      interrupted ([resumed_training_is_training]), and it ends, or fails after counting
      the steps it took ([training_ends]).
    - A prefix is independent of the ranks that hold it: exported by any number of
      them it serves any other ([resharded_prefix_exact]), also after a trip through
      a host record ([host_prefix_roundtrip]).
    - Tokens keep the rotation they were cached with, on pages, through partial
      acceptance, recomputation and shared prefixes, in the requests' histories and in
      the physical slots ([paged_rotary_is_contiguous]),
      and in another process ([rotary_histories_roundtrip]).
    - From the submission to physical memory and back: a request of the paged runner
      gets the tokens that decoding it alone gives, through shared pages, preemption,
      chunked prefill, the prefix cache and rejected drafts
      ([paged_runner_equals_decoding]) if the model's rotary frequencies are static
      ([law_static]) and no two histories share a chain hash; for any model a batch that
      fails is undone in the scheduler and in the engine ([failed_run_is_rolled_back]).

    ** Conventions, bounds and fuel

    [usize] values that count elements are [nat], other unsigned integers are [N],
    both with their overflow checks written out; tokens ([i32]) are [Z].  The
    theorems assume configured lengths fit in [usize] (64 bits), which they do.
    [HashMap]s and [BTreeMap]s are [gmap]s; where the order of a [BTreeMap] shows,
    [btree_iter] sorts the keys.

    Loops that are not structural take fuel and panic with [OutOfFuel] without it;
    the safety theorems exclude that panic, so the fuel is enough.  [schedule]
    gives its loop the number of active requests plus two: each turn but the last
    empties one request that holds pages.  [promote_pending] takes the length of the
    queue plus one, each turn admitting a request.  The automaton falls back at most
    once per symbol matched.  A speculation takes [max_new_tokens] rounds, each
    emitting a token.  A tiered prefix cache gives its eviction, spilling and lookup
    loops the number of entries plus one, the search for a free file name the number
    of files plus one, a prefill the number of tokens plus one.  The training loop
    takes the steps still to go, each turn counting one.  A worker's thread needs at most seven steps per queued job
    and six for the job in hand.

    What lies outside src/ is a parameter: models, caches and devices
    ([CausalModel], [SpeculativeModel], [PagedModel]), the hasher of the prefix index
    ([DefaultHasher]), random generators ([Randomness]), [f64::exp] and [ln]
    ([Exponential]), cache records and their codecs; for the trainer tensors,
    gradients, optimizers and their records ([Autodiff], [Trained], [SftModel]), JSON
    ([CheckpointData]), [f64::cos] and the clock.  What the code relies on is
    stated as hypotheses next to the theorems that need it, and every such theorem
    has an instance on a concrete model.

    ** Not modelled

    - The tensor programs (llama, qwen3, qwen35, deepseek2, the kernels of
      paged_attention, batch_kv, gpu_inference and their directories), the packed
      models, LoRA and post-training of training/, and ruCCL's part of the trainer:
      compositions of operations of libraries that are not under src/.
    - Checkpoint loading (huggingface), HTTP serving (serving, openai_server, bin)
      and disaggregated prefill: files, sockets, JSON and templates of external
      crates.
    - The executors of continuous_batch/ that drive a device with prefix transfer
      and swapping (prefix_device.rs, active_swap.rs).
    - [Debug] output, tests, examples and the text of formatted panics.
    - Memory ordering: a shared access is one atomic step ([Worker]); allocation
      failure is not modelled. *)

From stdpp Require Export base tactics decidable numbers list gmap sorting strings pretty.

(** ** Machine integers

    [u32], [u64] and Rust's ids are [N]; [usize] values that count elements of
    vectors are [nat] (lists are their vectors) and everything else is [N].
    The code is compiled for 64-bit targets, so [usize::MAX] is [2^64 - 1].
    A checked operation returns an option.  An unchecked one that overflows
    panics when overflow checks are on; the operations below say so
    explicitly, and no theorem of the development relies on a wrapped value. *)
Definition u32_max : N := (2 ^ 32 - 1)%N.
Definition u64_max : N := (2 ^ 64 - 1)%N.
Definition i32_max : Z := (2 ^ 31 - 1)%Z.
Definition usize_max : N := (2 ^ 64 - 1)%N.

Definition checked_add (mx a b : N) : option N :=
  if decide (a + b ≤ mx)%N then Some (a + b)%N else None.
Definition checked_mul (mx a b : N) : option N :=
  if decide (a * b ≤ mx)%N then Some (a * b)%N else None.
Definition checked_sub (a b : N) : option N :=
  if decide (b ≤ a)%N then Some (a - b)%N else None.

(** [usize::checked_add] and friends on element counts. *)
Definition usize_add (a b : nat) : option nat :=
  if decide (N.of_nat a + N.of_nat b ≤ usize_max)%N then Some (a + b) else None.
Definition usize_mul (a b : nat) : option nat :=
  if decide (N.of_nat a * N.of_nat b ≤ usize_max)%N then Some (a * b) else None.
Definition usize_sub (a b : nat) : option nat :=
  if decide (b ≤ a) then Some (a - b) else None.

(** [usize::div_ceil]: quotient, plus one when the remainder is positive. *)
Definition div_ceil (a b : nat) : nat :=
  a / b + (if decide (a mod b = 0) then 0 else 1).

Lemma checked_add_Some mx a b c :
  checked_add mx a b = Some c ↔ c = (a + b)%N ∧ (a + b ≤ mx)%N.
Proof. unfold checked_add. case_decide; split; intros; destruct_and?; simplify_eq; auto; lia. Qed.

Lemma checked_mul_Some mx a b c :
  checked_mul mx a b = Some c ↔ c = (a * b)%N ∧ (a * b ≤ mx)%N.
Proof. unfold checked_mul. case_decide; split; intros; destruct_and?; simplify_eq; auto; lia. Qed.

Lemma checked_mul_None mx a b :
  checked_mul mx a b = None ↔ (mx < a * b)%N.
Proof. unfold checked_mul. case_decide; split; intros; try done; lia. Qed.

Lemma checked_add_None mx a b :
  checked_add mx a b = None ↔ (mx < a + b)%N.
Proof. unfold checked_add. case_decide; split; intros; try done; lia. Qed.

Lemma checked_sub_Some a b c :
  checked_sub a b = Some c ↔ c = (a - b)%N ∧ (b ≤ a)%N.
Proof. unfold checked_sub. case_decide; split; intros; destruct_and?; simplify_eq; auto; lia. Qed.

Lemma usize_add_Some a b c :
  usize_add a b = Some c ↔ c = a + b ∧ (N.of_nat (a + b) ≤ usize_max)%N.
Proof. unfold usize_add. case_decide; split; intros; simplify_eq; lia || (destruct_and?; f_equal; lia). Qed.

Lemma usize_mul_Some a b c : usize_mul a b = Some c ↔ c = a * b ∧ (N.of_nat (a * b) ≤ usize_max)%N.
Proof. unfold usize_mul. case_decide; split; intros; simplify_eq; lia || (destruct_and?; f_equal; lia). Qed.

(** The Galois connection that characterises [div_ceil]. *)
Lemma div_ceil_le a b n : 0 < b → div_ceil a b ≤ n ↔ a ≤ n * b.
Proof.
  intros Hb. unfold div_ceil.
  pose proof (Nat.div_mod_eq a b) as Hdm.
  pose proof (Nat.mod_upper_bound a b ltac:(lia)) as Hm.
  case_decide as Hz; split; intros H; nia.
Qed.

Lemma div_ceil_lt a b n : 0 < b → n < div_ceil a b ↔ n * b < a.
Proof. intros Hb. pose proof (div_ceil_le a b n Hb). lia. Qed.

Lemma div_ceil_mul n b : 0 < b → div_ceil (n * b) b = n.
Proof.
  intros Hb. apply Nat.le_antisymm.
  - apply div_ceil_le; lia.
  - pose proof (proj1 (div_ceil_le (n * b) b (div_ceil (n * b) b) Hb) ltac:(lia)). nia.
Qed.

Lemma div_ceil_mono a a' b : 0 < b → a ≤ a' → div_ceil a b ≤ div_ceil a' b.
Proof.
  intros Hb Ha. apply div_ceil_le; [done|].
  pose proof (proj1 (div_ceil_le a' b (div_ceil a' b) Hb) ltac:(lia)). lia.
Qed.

Lemma div_ceil_bound a b : 0 < b → a ≤ div_ceil a b * b.
Proof. intros Hb. by apply div_ceil_le. Qed.

Lemma div_le_div_ceil a b : a / b ≤ div_ceil a b.
Proof. unfold div_ceil. lia. Qed.

(** ** Results

    A fallible Rust call has three outcomes: [Ok], [Err] and a panic.  A panic
    records which construct raised it, so that a theorem can say that no
    [expect], no index and no slice of the code is ever out of its domain. *)
Inductive panic : Set :=
| Overflow      (** unchecked machine arithmetic *)
| Expect        (** [Option::expect], [Option::unwrap], [Result::expect] *)
| OutOfBounds   (** slice and vector indexing, map indexing *)
| DivByZero
| Foreign       (** raised by a closure the caller passed *)
| OutOfFuel.      (** not a Rust panic: a loop of the model ran out of fuel *)

#[export] Instance panic_eq_dec : EqDecision panic.
Proof. solve_decision. Defined.

Inductive res (E A : Type) : Type :=
| Ok (a : A)
| Err (e : E)
| Panic (p : panic).
Arguments Ok {E A} a.
Arguments Err {E A} e.
Arguments Panic {E A} p.

#[export] Instance res_eq_dec `{EqDecision E, EqDecision A} : EqDecision (res E A).
Proof. solve_decision. Defined.

Definition res_is_ok {E A} (r : res E A) : bool := match r with Ok _ => true | _ => false end.

Definition res_bind {E A B} (m : res E A) (k : A → res E B) : res E B :=
  match m with Ok a => k a | Err e => Err e | Panic p => Panic p end.

Lemma res_bind_Ok {E A B} (m : res E A) (k : A → res E B) b :
  res_bind m k = Ok b ↔ ∃ a, m = Ok a ∧ k a = Ok b.
Proof. destruct m as [a|e|p]; simpl; split; [eauto|by intros (? & [= ->] & ?)|done|by intros (? & ? & _)|done|by intros (? & ? & _)]. Qed.

(** [Option::ok_or_else] *)
Definition ok_or {E A} (o : option A) (e : E) : res E A :=
  match o with Some a => Ok a | None => Err e end.

(** [Option::expect], indexing and the arithmetic that panics. *)
Definition expect {E A} (p : panic) (o : option A) : res E A :=
  match o with Some a => Ok a | None => Panic p end.

(** [Result::map_err] *)
Definition map_err {E E' A} (f : E → E') (m : res E A) : res E' A :=
  match m with Ok a => Ok a | Err e => Err (f e) | Panic p => Panic p end.

(** The only panic the theorems leave possible is the overflow of a counter. *)
Definition benign (p : panic) : Prop := p = Overflow.

(** ** State and error

    A [&mut self] method that returns a [Result] keeps the state it reached
    when it returns [Err], hence a state monad over [res]. *)
Definition M (S E A : Type) : Type := S → res E A * S.

Section Monad.
Context {S E : Type}.

Definition mret {A} (a : A) : M S E A := λ s, (Ok a, s).
Definition mthrow {A} (e : E) : M S E A := λ s, (Err e, s).
Definition mpanic {A} (p : panic) : M S E A := λ s, (Panic p, s).
Definition mget : M S E S := λ s, (Ok s, s).
Definition mmodify (f : S → S) : M S E unit := λ s, (Ok tt, f s).
Definition mbind' {A B} (m : M S E A) (k : A → M S E B) : M S E B := λ s,
  match m s with
  | (Ok a, s') => k a s'
  | (Err e, s') => (Err e, s')
  | (Panic p, s') => (Panic p, s')
  end.

(** [expr?] on a value that is already a [Result]. *)
Definition mlift {A} (r : res E A) : M S E A := λ s, (r, s).
(** [Option::expect] and the panicking accesses. *)
Definition mexpect {A} (p : panic) (o : option A) : M S E A :=
  match o with Some a => mret a | None => mpanic p end.
Definition mok_or {A} (o : option A) (e : E) : M S E A :=
  match o with Some a => mret a | None => mthrow e end.

(** A call whose error the caller handles: [match m { Err(e) => ..., ok => ok }]. *)
Definition mcatch {A} (m : M S E A) (handler : E → M S E A) : M S E A := λ s,
  match m s with
  | (Err e, s') => handler e s'
  | other => other
  end.

(** [for x in l { body }], and a loop that pushes one result per element. *)
Fixpoint mfor {A} (l : list A) (body : A → M S E unit) : M S E unit :=
  match l with
  | [] => mret tt
  | x :: l' => mbind' (body x) (λ _, mfor l' body)
  end.
Fixpoint mmap {A B} (l : list A) (body : A → M S E B) : M S E (list B) :=
  match l with
  | [] => mret []
  | x :: l' => mbind' (body x) (λ b, mbind' (mmap l' body) (λ bs, mret (b :: bs)))
  end.

(** Running a call whose result is known. *)
Lemma bind_ok {A B} (m : M S E A) (k : A → M S E B) s a s' :
  m s = (Ok a, s') → mbind' m k s = k a s'.
Proof. unfold mbind'. by intros ->. Qed.

Lemma bind_cong {A B} (m : M S E A) (k : A → M S E B) s s' :
  m s = m s' → mbind' m k s = mbind' m k s'.
Proof. unfold mbind'. by intros ->. Qed.

Lemma bind_err {A B} (m : M S E A) (k : A → M S E B) s e s' :
  m s = (Err e, s') → mbind' m k s = (Err e, s').
Proof. unfold mbind'. by intros ->. Qed.
End Monad.

Declare Scope m_scope.
Delimit Scope m_scope with m.
Notation "'let!' x := m 'in' k" := (mbind' m (λ x, k))
  (at level 10, x binder, m at level 100, k at level 200) : m_scope.
Notation "m ;;; k" := (mbind' m (λ _, k))
  (at level 199, right associativity) : m_scope.
Notation "'do?' x := m 'in' k" := (res_bind m (λ x, k))
  (at level 10, x binder, m at level 100, k at level 200) : m_scope.

(** ** Weakest preconditions

    [wp m Q s]: running [m] from [s] ends with a result and a state that
    satisfy [Q].  [post] is the usual shape of [Q]: what holds of a success,
    what holds of an error, and panics restricted to counter overflow. *)
Definition wp {S E A} (m : M S E A) (Q : res E A → S → Prop) (s : S) : Prop :=
  Q (m s).1 (m s).2.

Definition post {S E A} (QOk : A → S → Prop) (QErr : E → S → Prop) : res E A → S → Prop :=
  λ r s, match r with Ok a => QOk a s | Err e => QErr e s | Panic p => benign p end.

Section WP.
Context {S E : Type}.

Lemma wp_ret {A} (a : A) (Q : res E A → S → Prop) s : Q (Ok a) s → wp (mret a) Q s.
Proof. done. Qed.

Lemma wp_throw {A} e (Q : res E A → S → Prop) s : Q (Err e) s → wp (mthrow e) Q s.
Proof. done. Qed.

Lemma wp_panic {A} p (Q : res E A → S → Prop) s : Q (Panic p) s → wp (mpanic p) Q s.
Proof. done. Qed.

Lemma wp_get (Q : res E S → S → Prop) s : Q (Ok s) s → wp mget Q s.
Proof. done. Qed.

Lemma wp_modify f (Q : res E unit → S → Prop) s : Q (Ok tt) (f s) → wp (mmodify f) Q s.
Proof. done. Qed.

Lemma wp_lift {A} (r : res E A) (Q : res E A → S → Prop) s : Q r s → wp (mlift r) Q s.
Proof. done. Qed.

Lemma wp_bind {A B} (m : M S E A) (k : A → M S E B) Q s :
  wp m (λ r s', match r with
                | Ok a => wp (k a) Q s'
                | Err e => Q (Err e) s'
                | Panic p => Q (Panic p) s'
                end) s →
  wp (mbind' m k) Q s.
Proof. unfold wp, mbind'. by destruct (m s) as [[a|e|p] s']. Qed.

(** Two steps taken together. *)
Lemma wp_assoc {A B C} (m : M S E A) (k : A → M S E B) (h : B → M S E C) Q s :
  wp (mbind' (mbind' m k) h) Q s → wp (mbind' m (λ a, mbind' (k a) h)) Q s.
Proof. unfold wp, mbind'. by destruct (m s) as [[a|e|p] s']. Qed.

Lemma wp_mono {A} (m : M S E A) (Q Q' : res E A → S → Prop) s :
  wp m Q s → (∀ r s', Q r s' → Q' r s') → wp m Q' s.
Proof. unfold wp. auto. Qed.

(** Sequencing under a [post]. *)
Lemma wp_bind_post {A B} (m : M S E A) (k : A → M S E B) QOk QErr QOk' QErr' s :
  wp m (post QOk QErr) s →
  (∀ a s', QOk a s' → wp (k a) (post QOk' QErr') s') →
  (∀ e s', QErr e s' → QErr' e s') →
  wp (mbind' m k) (post QOk' QErr') s.
Proof.
  intros Hm Hk He. apply wp_bind. eapply wp_mono; [exact Hm|].
  intros [a|e|p] s' H; simpl in *; auto.
Qed.

Lemma wp_catch {A} (m : M S E A) handler Q s :
  wp m (λ r s', match r with Err e => wp (handler e) Q s' | other => Q other s' end) s →
  wp (mcatch m handler) Q s.
Proof. unfold wp, mcatch. by destruct (m s) as [[a|e|p] s']. Qed.

Lemma wp_post_mono {A} (m : M S E A) QOk QErr QOk' QErr' s :
  wp m (post QOk QErr) s →
  (∀ a s', QOk a s' → QOk' a s') → (∀ e s', QErr e s' → QErr' e s') →
  wp m (post QOk' QErr') s.
Proof. intros Hm HO HE. eapply wp_mono; [exact Hm|]. intros [a|e|p] s'; simpl; auto. Qed.

(** A loop keeps an invariant that depends on the elements still to visit. *)
Lemma wp_mfor {A} (I : list A → S → Prop) QErr (l : list A) (body : A → M S E unit) s :
  I l s →
  (∀ x l' s', I (x :: l') s' → wp (body x) (post (λ _, I l') QErr) s') →
  wp (mfor l body) (post (λ _, I []) QErr) s.
Proof.
  intros HI Hb. revert s HI. induction l as [|x l0 IH]; intros s HI; simpl.
  - by apply wp_ret.
  - eapply wp_bind_post; [by apply Hb| |done]. intros [] s'. apply IH.
Qed.

Lemma wp_mmap {A B} (I : list B → list A → S → Prop) QErr (l : list A) (body : A → M S E B) s :
  I [] l s →
  (∀ x l' bs s', I bs (x :: l') s' → wp (body x) (post (λ b, I (bs ++ [b]) l') QErr) s') →
  wp (mmap l body) (post (λ bs, I bs []) QErr) s.
Proof.
  intros HI Hb.
  enough (∀ bs s', I bs l s' → wp (mmap l body) (post (λ bs', I (bs ++ bs') []) QErr) s')
    as H by (by apply (H [])).
  clear HI. induction l as [|x l0 IH]; intros bs s' HI; simpl.
  - apply wp_ret. simpl. by rewrite app_nil_r.
  - eapply wp_bind_post; [by apply Hb| |done]. intros b s'' HI'. simpl in HI'.
    eapply wp_bind_post; [by apply IH| |done]. intros bs' s''' HI''.
    apply wp_ret. simpl in *. by rewrite <- app_assoc in HI''.
Qed.
End WP.

(** Run the next primitive of a [wp] goal. *)
Ltac wp_step :=
  match goal with
  | |- wp (mbind' _ _) _ _ => apply wp_bind
  | |- wp (mret _) _ _ => apply wp_ret
  | |- wp (mthrow _) _ _ => apply wp_throw
  | |- wp (mpanic _) _ _ => apply wp_panic
  | |- wp mget _ _ => apply wp_get
  | |- wp (mmodify _) _ _ => apply wp_modify
  | |- wp (mlift _) _ _ => apply wp_lift
  | |- wp (mcatch _ _) _ _ => apply wp_catch
  end; cbn beta iota.
Ltac wp_steps := repeat wp_step.

(** ** Ordered collections

    [BTreeMap] and [BTreeSet] are [gmap] and [gset]; iteration visits the keys
    in increasing order, and [pop_first] removes the least. *)
Definition key_le {V} : relation (N * V) := λ a b, (a.1 ≤ b.1)%N.
#[export] Instance key_le_dec {V} : RelDecision (@key_le V).
Proof. intros a b. unfold key_le. apply _. Defined.
#[export] Instance key_le_total {V} : Total (@key_le V).
Proof. intros a b. unfold key_le. lia. Qed.
#[export] Instance key_le_trans {V} : Transitive (@key_le V).
Proof. intros a b c. unfold key_le. lia. Qed.

Definition btree_iter {V} (m : gmap N V) : list (N * V) :=
  merge_sort key_le (map_to_list m).

Definition btree_keys {V} (m : gmap N V) : list N := (btree_iter m).*1.

Definition btree_pop_first {V} (m : gmap N V) : option (N * V * gmap N V) :=
  match btree_iter m with
  | [] => None
  | (k, v) :: _ => Some (k, v, delete k m)
  end.

Definition bset_iter (X : gset N) : list N := merge_sort N.le (elements X).

Definition bset_pop_first (X : gset N) : option (N * gset N) :=
  match bset_iter X with
  | [] => None
  | x :: _ => Some (x, X ∖ {[x]})
  end.

Section Ordered.
Context {V : Type}.
Implicit Types m : gmap N V.

Lemma btree_iter_perm m : btree_iter m ≡ₚ map_to_list m.
Proof. apply merge_sort_Permutation. Qed.

Lemma elem_of_btree_iter m k v : (k, v) ∈ btree_iter m ↔ m !! k = Some v.
Proof. rewrite (btree_iter_perm m). apply elem_of_map_to_list. Qed.

Lemma btree_iter_sorted m : StronglySorted key_le (btree_iter m).
Proof. apply StronglySorted_merge_sort; apply _. Qed.

Lemma NoDup_btree_keys m : NoDup (btree_iter m).*1.
Proof. rewrite (btree_iter_perm m). apply NoDup_fst_map_to_list. Qed.

Lemma length_btree_iter m : length (btree_iter m) = size m.
Proof. rewrite (btree_iter_perm m). apply length_map_to_list. Qed.

Lemma btree_pop_first_Some m k v m' :
  btree_pop_first m = Some (k, v, m') →
  m !! k = Some v ∧ m' = delete k m ∧ ∀ k' v', m !! k' = Some v' → (k ≤ k')%N.
Proof.
  unfold btree_pop_first. pose proof (btree_iter_sorted m) as Hs.
  destruct (btree_iter m) as [|[k0 v0] l] eqn:El; intros; simplify_eq.
  split; [by apply elem_of_btree_iter; rewrite El; left|]. split; [done|].
  intros k' v' Hk'%elem_of_btree_iter. rewrite El in Hk'.
  apply StronglySorted_inv in Hs as [_ Hs].
  apply elem_of_cons in Hk' as [|Hk']; [simplify_eq; lia|].
  rewrite Forall_forall in Hs. by apply (Hs (k', v')).
Qed.

Lemma btree_pop_first_None m : btree_pop_first m = None ↔ m = ∅.
Proof.
  unfold btree_pop_first. pose proof (length_btree_iter m) as Hl. split.
  - destruct (btree_iter m) as [|[] ?]; [|done]. intros _. by apply map_size_empty_inv.
  - intros ->. destruct (btree_iter ∅) as [|[]]; [done|]. by rewrite map_size_empty in Hl.
Qed.
End Ordered.

Lemma elem_of_bset_iter (X : gset N) x : x ∈ bset_iter X ↔ x ∈ X.
Proof. unfold bset_iter. rewrite merge_sort_Permutation. apply elem_of_elements. Qed.

Lemma bset_pop_first_Some (X : gset N) x X' :
  bset_pop_first X = Some (x, X') →
  x ∈ X ∧ X' = X ∖ {[x]} ∧ ∀ y, y ∈ X → (x ≤ y)%N.
Proof.
  unfold bset_pop_first.
  assert (StronglySorted N.le (bset_iter X)) as Hs
    by (apply StronglySorted_merge_sort; [apply _|intros a b; lia]).
  destruct (bset_iter X) as [|x0 l] eqn:El; intros; simplify_eq.
  split; [by apply elem_of_bset_iter; rewrite El; left|]. split; [done|].
  intros y Hy%elem_of_bset_iter. rewrite El in Hy.
  apply StronglySorted_inv in Hs as [_ Hs].
  apply elem_of_cons in Hy as [->|Hy]; [lia|]. by rewrite Forall_forall in Hs; apply Hs.
Qed.

Lemma bset_pop_first_None (X : gset N) : bset_pop_first X = None ↔ X = ∅.
Proof.
  unfold bset_pop_first. split.
  - destruct (bset_iter X) as [|x l] eqn:El; [|done]. intros _.
    apply set_eq. intros x. rewrite <- elem_of_bset_iter, El. set_solver.
  - intros ->. destruct (bset_iter ∅) as [|x l] eqn:El; [done|].
    assert (x ∈ (∅ : gset N)); [|set_solver]. apply elem_of_bset_iter. rewrite El. by left.
Qed.

Lemma omap_ext_elem {A B} (f g : A → option B) (l : list A) :
  (∀ x, x ∈ l → f x = g x) → omap f l = omap g l.
Proof.
  induction l as [|x l IH]; intros Hfg; [done|]. simpl. rewrite (Hfg x) by (by left).
  unfold omap in IH. rewrite IH; [done|]. intros y Hy. apply Hfg. by right.
Qed.

(** [Iterator::max_by]: the last of the greatest elements. *)
Definition max_by {A} (cmp : A → A → comparison) (l : list A) : option A :=
  match l with
  | [] => None
  | x :: l' => Some (fold_left (λ best y, match cmp best y with Gt => best | _ => y end) l' x)
  end.

Lemma max_by_elem {A} (cmp : A → A → comparison) l x : max_by cmp l = Some x → x ∈ l.
Proof.
  destruct l as [|y l]; [done|]. simpl. intros [= <-]. revert y.
  induction l as [|z l IH]; intros y; simpl; [by left|].
  destruct (cmp y z); specialize (IH y) as IHy; specialize (IH z);
    rewrite !elem_of_cons in *; tauto.
Qed.

Lemma max_by_None {A} (cmp : A → A → comparison) l : max_by cmp l = None ↔ l = [].
Proof. by destruct l. Qed.

(** [slice::sort_by_key]: stable. *)
Fixpoint insert_by (key : nat → nat) (i : nat) (order : list nat) : list nat :=
  match order with
  | [] => [i]
  | k :: rest => if decide (key i ≤ key k) then i :: order else k :: insert_by key i rest
  end.
Definition sort_by_key (key : nat → nat) (l : list nat) : list nat := foldr (insert_by key) [] l.

Lemma insert_by_perm key i l : insert_by key i l ≡ₚ i :: l.
Proof.
  induction l as [|k l IH]; simpl; [done|]. case_decide; [done|]. rewrite IH. apply Permutation_swap.
Qed.

Lemma sort_by_key_perm key l : sort_by_key key l ≡ₚ l.
Proof. induction l as [|i l IH]; simpl; [done|]. by rewrite insert_by_perm, IH. Qed.

Lemma insert_by_sorted key i l : StronglySorted (λ a b, key a ≤ key b) l →
  StronglySorted (λ a b, key a ≤ key b) (insert_by key i l).
Proof.
  induction 1 as [|k l Hs IH Hf]; simpl; [by repeat constructor|]. case_decide.
  - constructor; [by constructor|]. constructor; [done|]. eapply Forall_impl; [exact Hf|]. simpl. lia.
  - constructor; [done|]. rewrite insert_by_perm. constructor; [lia|done].
Qed.

Lemma sort_by_key_sorted key l : StronglySorted (λ a b, key a ≤ key b) (sort_by_key key l).
Proof. induction l as [|i l IH]; simpl; [constructor|]. by apply insert_by_sorted. Qed.

(** ** Automation *)
Create HintDb rullm.
#[export] Hint Rewrite checked_add_Some checked_mul_Some checked_sub_Some usize_add_Some : rullm.
#[export] Hint Resolve div_ceil_bound div_le_div_ceil : rullm.

(** Split on the conditionals and matches of an executable definition. *)
Ltac split_match :=
  repeat match goal with
  | H : context [decide ?P] |- _ => destruct (decide P)
  | |- context [decide ?P] => destruct (decide P)
  | H : context [match ?x with _ => _ end] |- _ => destruct x eqn:?
  | |- context [match ?x with _ => _ end] => destruct x eqn:?
  end.

(** Rows of one length, flattened. *)
Lemma length_concat_rows {A} n (rows : list (list A)) : Forall (λ r, length r = n) rows → length (concat rows) = length rows * n.
Proof. induction 1 as [|r rows Hr Hall IH]; simpl; [done|]. rewrite length_app. lia. Qed.

Lemma rows_lookup {A} n (rows : list (list A)) i row : Forall (λ r, length r = n) rows → rows !! i = Some row →
  take n (drop (i * n) (concat rows)) = row ∧ (i + 1) * n ≤ length (concat rows).
Proof.
  intros Hall Hi. split.
  - revert i Hi. induction Hall as [|r rows Hr Hall IH]; intros [|i] Hi; [done|done| |].
    + injection Hi as ->. simpl. by rewrite drop_0, take_app_length' by lia.
    + simpl. rewrite drop_app_ge by lia. replace (n + i * n - length r) with (i * n) by lia. by apply IH.
  - rewrite (length_concat_rows n) by done. apply lookup_lt_Some in Hi. nia.
Qed.

(** ** What every step of a method keeps

    [keeping I R m]: from a state with [I], a run of [m] that does not panic ends
    in one with [I], related by [R] to the first.  It composes along the monad
    without looking at what a method computes; the tactic [keep] goes through a
    method and leaves its primitive steps. *)
Open Scope m_scope.

Section Keeping.
Context {S E : Type} (I : S → Prop) (R : S → S → Prop) `{!PreOrder R}.

Definition keeping {A} (m : M S E A) : Prop := ∀ s, I s →
  match m s with
  | (Panic _, _) => True
  | (_, s') => I s' ∧ R s s'
  end.

Lemma keeping_ret {A} (a : A) : keeping (mret a).
Proof. intros s Hs. by split. Qed.
Lemma keeping_throw {A} e : keeping (mthrow e : M S E A).
Proof. intros s Hs. by split. Qed.
Lemma keeping_panic {A} p : keeping (mpanic p : M S E A).
Proof. by intros s Hs. Qed.
Lemma keeping_get : keeping (mget : M S E S).
Proof. intros s Hs. by split. Qed.
Lemma keeping_modify f : (∀ s, I s → I (f s) ∧ R s (f s)) → keeping (mmodify f : M S E unit).
Proof. intros Hf s Hs. by apply Hf. Qed.
Lemma keeping_lift {A} (r : res E A) : keeping (mlift r : M S E A).
Proof. intros s Hs. by destruct r. Qed.
Lemma keeping_expect {A} p (o : option A) : keeping (mexpect p o : M S E A).
Proof. intros s Hs. by destruct o. Qed.
Lemma keeping_ok_or {A} (o : option A) e : keeping (mok_or o e : M S E A).
Proof. intros s Hs. by destruct o. Qed.

Lemma keeping_bind {A B} (m : M S E A) (k : A → M S E B) :
  keeping m → (∀ a, keeping (k a)) → keeping (mbind' m k).
Proof.
  intros Hm Hk s Hs. unfold mbind'. specialize (Hm s Hs).
  destruct (m s) as [[a|e|p] s1]; [|done|done]. destruct Hm as [Hs1 HR]. specialize (Hk a s1 Hs1).
  destruct (k a s1) as [[b|e|p] s2]; [..|done]; (destruct Hk as [? ?]; split; [done|by etrans]).
Qed.

(** A reading of the state: the rest runs from it. *)
Lemma keeping_read {A} (k : S → M S E A) : (∀ s, I s → keeping (k s)) → keeping (mbind' mget k).
Proof. intros Hk s Hs. by apply Hk. Qed.

Lemma keeping_catch {A} (m : M S E A) h : keeping m → (∀ e, keeping (h e)) → keeping (mcatch m h).
Proof.
  intros Hm Hh s Hs. unfold mcatch. specialize (Hm s Hs).
  destruct (m s) as [[a|e|p] s1]; [done| |done]. destruct Hm as [Hs1 HR]. specialize (Hh e s1 Hs1).
  destruct (h e s1) as [[b|e'|p] s2]; [..|done]; (destruct Hh as [? ?]; split; [done|by etrans]).
Qed.

Lemma keeping_for {A} (l : list A) (body : A → M S E unit) :
  (∀ x, keeping (body x)) → keeping (mfor l body).
Proof. intros Hb. induction l; simpl; [apply keeping_ret|]. by apply keeping_bind. Qed.

Lemma keeping_map {A B} (l : list A) (body : A → M S E B) :
  (∀ x, keeping (body x)) → keeping (mmap l body).
Proof.
  intros Hb. induction l; simpl; [apply keeping_ret|]. apply keeping_bind; [done|]. intros b.
  apply keeping_bind; [done|]. intros bs. apply keeping_ret.
Qed.

Lemma keeping_wp {A} (m : M S E A) :
  (∀ s, I s → wp m (post (λ _ s', I s' ∧ R s s') (λ _ s', I s' ∧ R s s')) s) → keeping m.
Proof. intros Hm s Hs. specialize (Hm s Hs). unfold wp in Hm. by destruct (m s) as [[a|e|p] s']. Qed.

(** With what is known of a run. *)
Lemma keeping_post {A} (m : M S E A) s (QOk : A → S → Prop) (QErr : E → S → Prop) :
  keeping m → I s → wp m (post QOk QErr) s →
  wp m (post (λ a s', QOk a s' ∧ I s' ∧ R s s') (λ e s', QErr e s' ∧ I s' ∧ R s s')) s.
Proof. intros Hm Hs Hw. specialize (Hm s Hs). unfold wp in *. by destruct (m s) as [[a|e|p] s']. Qed.

Lemma keeping_run {A} (m : M S E A) s r s' : keeping m → I s → m s = (r, s') →
  (∀ p, r ≠ Panic p) → I s' ∧ R s s'.
Proof. intros Hm Hs Hrun Hp. specialize (Hm s Hs). rewrite Hrun in Hm. destruct r; [done|done|by destruct (Hp p)]. Qed.
End Keeping.

Create HintDb keep.
#[export] Hint Resolve keeping_throw keeping_panic keeping_get keeping_lift keeping_expect keeping_ok_or
  keeping_ret keeping_for keeping_map : keep.
#[export] Hint Extern 0 (PreOrder _) => typeclasses eauto : keep.

(** When only the invariant matters. *)
Definition unrelated {A : Type} (_ _ : A) : Prop := True.
#[export] Instance unrelated_preorder {A : Type} : PreOrder (@unrelated A).
Proof. by split. Qed.

(** Go through a method: its binds, its branches, its calls from the database. *)
Ltac keep :=
  intros;
  repeat match goal with
  | |- keeping _ _ (mbind' mget _) => refine (keeping_read _ _ _ _); intros ? ?
  | |- keeping _ _ (mbind' _ _) => refine (keeping_bind _ _ _ _ _ _); [first [solve [eauto 3 with keep]|idtac]|intros ?]; cbn beta
  | |- keeping _ _ (mcatch _ _) => refine (keeping_catch _ _ _ _ _ _); [first [solve [eauto 3 with keep]|idtac]|intros ?]
  | |- keeping _ _ (match ?x with _ => _ end) => destruct x eqn:?
  | |- keeping _ _ (let _ := _ in _) => cbv zeta
  | |- keeping _ _ _ => progress (eauto 3 with keep)
  end.
