(* ===== verification/PagedKv.v ===== *)
(** * Paged KV cache: physical pages, reference counts, prefix cache

    Models src/src/paged_kv.rs.  [PagedKvCacheManager] is the state of every
    method; a [&mut self] method is a computation of the monad [M] over it.
    Errors carry the code's message.  Request, page and reservation ids, hashes
    and ticks are [N]; token counts and positions are [nat] (they are lengths
    and indices of vectors); tokens are [Z]. *)
From S2P Require Import Prelude.
Open Scope string_scope.
Open Scope list_scope.
Open Scope nat_scope.
Open Scope m_scope.

Notation RequestId := N (only parsing).
Notation KvPageId := N (only parsing).
Notation KvReservationId := N (only parsing).

Definition PagedKvError : Type := string.

Record PagedKvCacheConfig := mk_config {
  block_size : nat;
  num_pages : nat;
  max_sequence_length : nat
}.

Definition validate_config (c : PagedKvCacheConfig) : res PagedKvError unit :=
  if decide (block_size c = 0 ∨ num_pages c = 0 ∨ max_sequence_length c = 0) then
    Err "paged KV block_size, num_pages, and max_sequence_length must be non-zero"
  else if decide (u32_max < N.of_nat (num_pages c))%N then
    Err "paged KV physical page count exceeds u32 page-table capacity"
  else Ok tt.

Record PagedKvAppendReservation := mk_append {
  ar_id : KvReservationId;
  ar_request_id : RequestId;
  ar_start_position : nat;
  ar_token_count : nat;
  ar_context_length : nat;
  ar_newly_allocated_pages : list KvPageId;
  ar_block_table : list KvPageId
}.

Record PagedKvSequenceSnapshot := mk_sequence_snapshot {
  ss_request_id : RequestId;
  ss_committed_tokens : nat;
  ss_block_table : list KvPageId;
  ss_pending_reservation : option KvReservationId
}.

Record PagedKvCacheSnapshot := mk_cache_snapshot {
  cs_block_size : nat;
  cs_total_pages : nat;
  cs_free_pages : nat;
  cs_sequences : list PagedKvSequenceSnapshot
}.

Record SequenceState := mk_sequence {
  committed_tokens : nat;
  pages : list KvPageId;
  pending : option KvReservationId;
  registered_blocks : nat;
  chain_hash : N
}.

Record ReservationState := mk_reservation {
  request_id : RequestId;
  previous_page_count : nat;
  start_position : nat;
  token_count : nat
}.

Notation BlockKey := (N * list Z)%type.

Record CachedBlock := mk_block {
  block_key : BlockKey;
  lru_tick : option N
}.
#[export] Instance CachedBlock_eq_dec : EqDecision CachedBlock.
Proof. solve_decision. Defined.

Record PagedKvCacheManager := mk_manager {
  config : PagedKvCacheConfig;
  free_pages : gset N;
  page_refs : list N;
  page_blocks : list (option CachedBlock);
  block_index : gmap BlockKey N;
  evictable : gmap N N;
  next_tick : N;
  prefix_caching : bool;
  reused_tokens : N;
  sequences : gmap N SequenceState;
  reservations : gmap N ReservationState;
  next_reservation : N
}.

(** Field updates. *)
Definition set_config (x : PagedKvCacheConfig) (m : PagedKvCacheManager) : PagedKvCacheManager :=
  mk_manager x (m.(free_pages)) (m.(page_refs)) (m.(page_blocks)) (m.(block_index)) (m.(evictable)) (m.(next_tick)) (m.(prefix_caching)) (m.(reused_tokens)) (m.(sequences)) (m.(reservations)) (m.(next_reservation)).
Definition set_free_pages (x : gset N) (m : PagedKvCacheManager) : PagedKvCacheManager :=
  mk_manager (m.(config)) x (m.(page_refs)) (m.(page_blocks)) (m.(block_index)) (m.(evictable)) (m.(next_tick)) (m.(prefix_caching)) (m.(reused_tokens)) (m.(sequences)) (m.(reservations)) (m.(next_reservation)).
Definition set_page_refs (x : list N) (m : PagedKvCacheManager) : PagedKvCacheManager :=
  mk_manager (m.(config)) (m.(free_pages)) x (m.(page_blocks)) (m.(block_index)) (m.(evictable)) (m.(next_tick)) (m.(prefix_caching)) (m.(reused_tokens)) (m.(sequences)) (m.(reservations)) (m.(next_reservation)).
Definition set_page_blocks (x : list (option CachedBlock)) (m : PagedKvCacheManager) : PagedKvCacheManager :=
  mk_manager (m.(config)) (m.(free_pages)) (m.(page_refs)) x (m.(block_index)) (m.(evictable)) (m.(next_tick)) (m.(prefix_caching)) (m.(reused_tokens)) (m.(sequences)) (m.(reservations)) (m.(next_reservation)).
Definition set_block_index (x : gmap BlockKey N) (m : PagedKvCacheManager) : PagedKvCacheManager :=
  mk_manager (m.(config)) (m.(free_pages)) (m.(page_refs)) (m.(page_blocks)) x (m.(evictable)) (m.(next_tick)) (m.(prefix_caching)) (m.(reused_tokens)) (m.(sequences)) (m.(reservations)) (m.(next_reservation)).
Definition set_evictable (x : gmap N N) (m : PagedKvCacheManager) : PagedKvCacheManager :=
  mk_manager (m.(config)) (m.(free_pages)) (m.(page_refs)) (m.(page_blocks)) (m.(block_index)) x (m.(next_tick)) (m.(prefix_caching)) (m.(reused_tokens)) (m.(sequences)) (m.(reservations)) (m.(next_reservation)).
Definition set_next_tick (x : N) (m : PagedKvCacheManager) : PagedKvCacheManager :=
  mk_manager (m.(config)) (m.(free_pages)) (m.(page_refs)) (m.(page_blocks)) (m.(block_index)) (m.(evictable)) x (m.(prefix_caching)) (m.(reused_tokens)) (m.(sequences)) (m.(reservations)) (m.(next_reservation)).
Definition set_prefix_caching (x : bool) (m : PagedKvCacheManager) : PagedKvCacheManager :=
  mk_manager (m.(config)) (m.(free_pages)) (m.(page_refs)) (m.(page_blocks)) (m.(block_index)) (m.(evictable)) (m.(next_tick)) x (m.(reused_tokens)) (m.(sequences)) (m.(reservations)) (m.(next_reservation)).
Definition set_reused_tokens (x : N) (m : PagedKvCacheManager) : PagedKvCacheManager :=
  mk_manager (m.(config)) (m.(free_pages)) (m.(page_refs)) (m.(page_blocks)) (m.(block_index)) (m.(evictable)) (m.(next_tick)) (m.(prefix_caching)) x (m.(sequences)) (m.(reservations)) (m.(next_reservation)).
Definition set_sequences (x : gmap N SequenceState) (m : PagedKvCacheManager) : PagedKvCacheManager :=
  mk_manager (m.(config)) (m.(free_pages)) (m.(page_refs)) (m.(page_blocks)) (m.(block_index)) (m.(evictable)) (m.(next_tick)) (m.(prefix_caching)) (m.(reused_tokens)) x (m.(reservations)) (m.(next_reservation)).
Definition set_reservations (x : gmap N ReservationState) (m : PagedKvCacheManager) : PagedKvCacheManager :=
  mk_manager (m.(config)) (m.(free_pages)) (m.(page_refs)) (m.(page_blocks)) (m.(block_index)) (m.(evictable)) (m.(next_tick)) (m.(prefix_caching)) (m.(reused_tokens)) (m.(sequences)) x (m.(next_reservation)).
Definition set_next_reservation (x : N) (m : PagedKvCacheManager) : PagedKvCacheManager :=
  mk_manager (m.(config)) (m.(free_pages)) (m.(page_refs)) (m.(page_blocks)) (m.(block_index)) (m.(evictable)) (m.(next_tick)) (m.(prefix_caching)) (m.(reused_tokens)) (m.(sequences)) (m.(reservations)) x.

Definition set_pages (x : list KvPageId) (q : SequenceState) : SequenceState :=
  mk_sequence (committed_tokens q) x (pending q) (registered_blocks q) (chain_hash q).
Definition set_pending (x : option KvReservationId) (q : SequenceState) : SequenceState :=
  mk_sequence (committed_tokens q) (pages q) x (registered_blocks q) (chain_hash q).
Definition set_committed (x : nat) (q : SequenceState) : SequenceState :=
  mk_sequence x (pages q) (pending q) (registered_blocks q) (chain_hash q).

Definition CHAIN_ROOT : N := 0x527564614B560001%N.

(** [std::collections::hash_map::DefaultHasher]: the standard library leaves
    its algorithm unspecified, so it is an interface. *)
Class DefaultHasher := {
  hasher : Type;
  hasher_new : hasher;
  hash_u64 : hasher → N → hasher;
  hash_i32_slice : hasher → list Z → hasher;
  hasher_finish : hasher → N
}.

Definition chain `{DefaultHasher} (parent : N) (tokens : list Z) : N :=
  hasher_finish (hash_i32_slice (hash_u64 hasher_new parent) tokens).

(** [&tokens[a..b]] *)
Definition slice {A} (a b : nat) (l : list A) : option (list A) :=
  if decide (a ≤ b ≤ length l) then Some (take (b - a) (drop a l)) else None.

Notation KvM := (M PagedKvCacheManager PagedKvError).

Definition new (c : PagedKvCacheConfig) : res PagedKvError PagedKvCacheManager :=
  do? _ := validate_config c in
  Ok {| config := c;
        free_pages := list_to_set (map (λ page, (N.of_nat page mod 2 ^ 32)%N) (seq 0 (num_pages c)));
        page_refs := replicate (num_pages c) 0%N;
        page_blocks := replicate (num_pages c) None;
        block_index := ∅;
        evictable := ∅;
        next_tick := 0;
        prefix_caching := false;
        reused_tokens := 0;
        sequences := ∅;
        reservations := ∅;
        next_reservation := 1 |}.

Definition available_pages (m : PagedKvCacheManager) : nat :=
  size (free_pages m) + size (evictable m).
Definition free_page_count (m : PagedKvCacheManager) : nat := available_pages m.
Definition allocated_page_count (m : PagedKvCacheManager) : nat :=
  num_pages (config m) - available_pages m.
Definition cached_page_count (m : PagedKvCacheManager) : nat := size (evictable m).
Definition sequence_count (m : PagedKvCacheManager) : nat := size (sequences m).
Definition reservation_count (m : PagedKvCacheManager) : nat := size (reservations m).

(** [debug_assert!] *)
Definition debug_assert (b : bool) : KvM unit := if b then mret tt else mpanic Expect.

Definition read_ref (page : KvPageId) : KvM N :=
  let! m := mget in mexpect OutOfBounds (page_refs m !! N.to_nat page).
Definition write_ref (page : KvPageId) (n : N) : KvM unit :=
  let! _ := read_ref page in
  mmodify (λ m, set_page_refs (<[N.to_nat page := n]> (page_refs m)) m).
Definition read_block (page : KvPageId) : KvM (option CachedBlock) :=
  let! m := mget in mexpect OutOfBounds (page_blocks m !! N.to_nat page).
Definition write_block (page : KvPageId) (b : option CachedBlock) : KvM unit :=
  let! _ := read_block page in
  mmodify (λ m, set_page_blocks (<[N.to_nat page := b]> (page_blocks m)) m).

Definition drop_cached_block (page : KvPageId) : KvM unit :=
  let! block := read_block page in
  write_block page None ;;;
  match block with
  | None => mret tt
  | Some b =>
      let! m := mget in
      if decide (block_index m !! block_key b = Some page) then
        mmodify (λ m, set_block_index (delete (block_key b) (block_index m)) m)
      else mret tt
  end.

Definition allocate_page : KvM KvPageId :=
  let! m := mget in
  let! page :=
    match bset_pop_first (free_pages m) with
    | Some (page, rest) => mmodify (set_free_pages rest) ;;; mret page
    | None =>
        let! e := mexpect Expect (btree_pop_first (evictable m)) in
        mmodify (set_evictable e.2) ;;;
        drop_cached_block e.1.2 ;;;
        mret e.1.2
    end in
  let! r := read_ref page in
  debug_assert (bool_decide (r = 0%N)) ;;;
  write_ref page 1 ;;;
  mret page.

Definition acquire_cached (page : KvPageId) : KvM unit :=
  let! r := read_ref page in
  (if decide (r = 0%N) then
     let! block := read_block page in
     let! b := mexpect Expect block in
     match lru_tick b with
     | Some tick =>
         write_block page (Some (mk_block (block_key b) None)) ;;;
         mmodify (λ m, set_evictable (delete tick (evictable m)) m)
     | None => mret tt
     end
   else mret tt) ;;;
  let! r' := mexpect Overflow (checked_add u32_max r 1) in
  write_ref page r'.

Definition release_page (page : KvPageId) : KvM unit :=
  let! r := read_ref page in
  debug_assert (bool_decide (0 < r)%N) ;;;
  let! r' := mexpect Overflow (checked_sub r 1) in
  write_ref page r' ;;;
  if decide (r' ≠ 0%N) then mret tt
  else
    let! m := mget in
    let! block := read_block page in
    match prefix_caching m, block with
    | true, Some b =>
        let tick := next_tick m in
        let! tick' := mexpect Overflow (checked_add u64_max tick 1) in
        mmodify (set_next_tick tick') ;;;
        write_block page (Some (mk_block (block_key b) (Some tick))) ;;;
        mmodify (λ m, set_evictable (<[tick := page]> (evictable m)) m)
    | _, _ =>
        drop_cached_block page ;;;
        let! m := mget in
        mmodify (set_free_pages ({[page]} ∪ free_pages m)) ;;;
        debug_assert (bool_decide (page ∉ free_pages m))
    end.

Definition set_prefix_caching_enabled (enabled : bool) : KvM unit :=
  mmodify (set_prefix_caching enabled) ;;;
  if enabled then mret tt
  else
    let! m := mget in
    mmodify (set_evictable ∅) ;;;
    mfor (btree_iter (evictable m)).*2 (λ page,
      drop_cached_block page ;;;
      mmodify (λ m, set_free_pages ({[page]} ∪ free_pages m) m)).

(** [self.sequence(id)] *)
Definition sequence (id : RequestId) : KvM SequenceState :=
  let! m := mget in
  mok_or (sequences m !! id) ("paged KV sequence " +:+ pretty id +:+ " does not exist").

(** [self.sequences.get_mut(&id)] followed by an assignment. *)
Definition put_sequence (id : RequestId) (q : SequenceState) : KvM unit :=
  mmodify (λ m, set_sequences (<[id := q]> (sequences m)) m).

Definition create_sequence (id : RequestId) : KvM unit :=
  let! m := mget in
  if decide (is_Some (sequences m !! id)) then
    mthrow ("paged KV sequence " +:+ pretty id +:+ " already exists")
  else put_sequence id (mk_sequence 0 [] None 0 CHAIN_ROOT).

Section Prefix.
Context `{DefaultHasher}.

(** The loop of [create_sequence_with_prefix] from block [block] on:
    [n] blocks are left, [parent] is the chain hash so far. *)
Fixpoint match_blocks (tokens : list Z) (bs : nat) (n block : nat) (parent : N)
    (acc : list KvPageId) : KvM (list KvPageId * N) :=
  match n with
  | O => mret (acc, parent)
  | S n' =>
      let! block_tokens :=
        mexpect OutOfBounds (slice (block * bs) ((block + 1) * bs) tokens) in
      let! m := mget in
      match block_index m !! (parent, block_tokens) with
      | None => mret (acc, parent)
      | Some page =>
          acquire_cached page ;;;
          match_blocks tokens bs n' (block + 1) (chain parent block_tokens) (acc ++ [page])
      end
  end.

Definition create_sequence_with_prefix (id : RequestId) (tokens : list Z) : KvM nat :=
  create_sequence id ;;;
  let! m := mget in
  if decide (prefix_caching m = false ∨ length tokens ≤ 1) then mret 0
  else
    let bs := block_size (config m) in
    let usable_blocks := (length tokens - 1) / bs in
    let! r := match_blocks tokens bs usable_blocks 0 CHAIN_ROOT [] in
    let matched := length r.1 * bs in
    let! m := mget in
    let! q := mexpect Expect (sequences m !! id) in
    put_sequence id (mk_sequence matched r.1 (pending q) (length r.1) r.2) ;;;
    let! m := mget in
    let! total := mexpect Overflow (checked_add u64_max (reused_tokens m) (N.of_nat matched)) in
    mmodify (set_reused_tokens total) ;;;
    mret matched.

(** The loop of [register_prefix] from [block] up, [n] blocks left. *)
Fixpoint register_blocks (tokens : list Z) (bs : nat) (pgs : list KvPageId)
    (n block : nat) (parent : N) : KvM N :=
  match n with
  | O => mret parent
  | S n' =>
      let! block_tokens :=
        mexpect OutOfBounds (slice (block * bs) ((block + 1) * bs) tokens) in
      let key := (parent, block_tokens) in
      let! page := mexpect OutOfBounds (pgs !! block) in
      let! m := mget in
      (if decide (block_index m !! key = None) then
         let! old := read_block page in
         if decide (old = None) then
           mmodify (λ m, set_block_index (<[key := page]> (block_index m)) m) ;;;
           write_block page (Some (mk_block key None))
         else mret tt
       else mret tt) ;;;
      register_blocks tokens bs pgs n' (block + 1) (chain parent block_tokens)
  end.

Definition register_prefix (id : RequestId) (tokens : list Z) : KvM unit :=
  let! m := mget in
  if prefix_caching m then
    let bs := block_size (config m) in
    let! q := sequence id in
    let committed := Nat.min (committed_tokens q) (length tokens) in
    let complete := committed / bs in
    let block := registered_blocks q in
    let! parent :=
      register_blocks tokens bs (pages q) (complete - block) block (chain_hash q) in
    let! m := mget in
    let! q' := mexpect Expect (sequences m !! id) in
    put_sequence id
      (mk_sequence (committed_tokens q') (pages q') (pending q') (Nat.max block complete) parent)
  else mret tt.
End Prefix.

Definition contains_sequence (m : PagedKvCacheManager) (id : RequestId) : bool :=
  bool_decide (is_Some (sequences m !! id)).

Definition committed_tokens_of (id : RequestId) : KvM nat :=
  let! q := sequence id in mret (committed_tokens q).
Definition block_table (id : RequestId) : KvM (list KvPageId) :=
  let! q := sequence id in mret (pages q).

Definition can_append (id : RequestId) (n : nat) : KvM bool :=
  if decide (n = 0) then mret false
  else
    let! q := sequence id in
    if decide (is_Some (pending q)) then mret false
    else
      let! m := mget in
      match usize_add (committed_tokens q) n with
      | None => mret false
      | Some ending =>
          if decide (max_sequence_length (config m) < ending) then mret false
          else
            let required_pages := div_ceil ending (block_size (config m)) in
            mret (bool_decide (required_pages - length (pages q) ≤ available_pages m))
      end.

Definition begin_append (id : RequestId) (n : nat) : KvM PagedKvAppendReservation :=
  if decide (n = 0) then
    mthrow "paged KV append reservation must contain at least one token"
  else
  let! q := sequence id in
  match pending q with
  | Some r =>
      mthrow ("paged KV sequence " +:+ pretty id +:+ " already has pending reservation "
              +:+ pretty r)
  | None =>
  let! m := mget in
  let start := committed_tokens q in
  let! context_length := mok_or (usize_add start n) "paged KV sequence length overflow" in
  if decide (max_sequence_length (config m) < context_length) then
    mthrow ("paged KV sequence " +:+ pretty id +:+ " would grow to " +:+
            pretty (N.of_nat context_length) +:+ ", above capacity " +:+
            pretty (N.of_nat (max_sequence_length (config m))))
  else
  let previous := length (pages q) in
  let required_pages := div_ceil context_length (block_size (config m)) in
  let additional := required_pages - previous in
  if decide (available_pages m < additional) then
    mthrow ("paged KV append needs " +:+ pretty (N.of_nat additional) +:+
            " new pages but only " +:+ pretty (N.of_nat (available_pages m)) +:+ " are free")
  else
  let rid := next_reservation m in
  let! next := mok_or (checked_add u64_max rid 1) "paged KV reservation id overflow" in
  mmodify (set_next_reservation next) ;;;
  let! fresh := mmap (seq 0 additional) (λ _, allocate_page) in
  let! m := mget in
  let! q := mexpect Expect (sequences m !! id) in
  let table := pages q ++ fresh in
  put_sequence id (set_pending (Some rid) (set_pages table q)) ;;;
  mmodify (λ m, set_reservations
    (<[rid := mk_reservation id previous start n]> (reservations m)) m) ;;;
  mret (mk_append rid id start n context_length fresh table)
  end.

Definition validate_reservation (rid : KvReservationId) : KvM unit :=
  let! m := mget in
  let! r := mok_or (reservations m !! rid)
              ("paged KV reservation " +:+ pretty rid +:+ " does not exist") in
  let! q := sequence (request_id r) in
  if decide (pending q ≠ Some rid ∨ committed_tokens q ≠ start_position r
             ∨ length (pages q) < previous_page_count r) then
    mthrow ("reservation " +:+ pretty rid +:+ " does not own a consistent sequence state")
  else
    let! _ := mok_or (usize_add (start_position r) (token_count r))
                "paged KV committed length overflow" in
    mret tt.

Fixpoint validate_reservations_from (seen : gset N) (ids : list KvReservationId) : KvM unit :=
  match ids with
  | [] => mret tt
  | id :: ids' =>
      if decide (id ∈ seen) then mthrow ("duplicate reservation " +:+ pretty id)
      else
        validate_reservation id ;;;
        validate_reservations_from ({[id]} ∪ seen) ids'
  end.
Definition validate_reservations (ids : list KvReservationId) : KvM unit :=
  validate_reservations_from ∅ ids.

Definition take_reservation (rid : KvReservationId) : KvM ReservationState :=
  let! m := mget in
  let! r := mok_or (reservations m !! rid)
              ("paged KV reservation " +:+ pretty rid +:+ " does not exist") in
  mmodify (λ m, set_reservations (delete rid (reservations m)) m) ;;;
  mret r.

Definition commit_append (rid : KvReservationId) : KvM nat :=
  validate_reservation rid ;;;
  let! r := take_reservation rid in
  let! m := mget in
  let! q := mok_or (sequences m !! request_id r) "reservation references a removed sequence" in
  if decide (pending q ≠ Some rid) then
    mthrow ("reservation " +:+ pretty rid +:+ " does not own sequence " +:+
            pretty (request_id r) +:+ " pending state")
  else
    let! context_length := mok_or (usize_add (start_position r) (token_count r))
                             "paged KV committed length overflow" in
    put_sequence (request_id r) (set_pending None (set_committed context_length q)) ;;;
    mret context_length.

Definition extend_append (rid : KvReservationId) (extra : nat) : KvM PagedKvAppendReservation :=
  validate_reservation rid ;;;
  let! m := mget in
  let! r := mexpect OutOfBounds (reservations m !! rid) in
  let! count := mok_or (usize_add (token_count r) extra) "lookahead token count overflow" in
  let! ending := mok_or (usize_add (start_position r) count) "lookahead context overflow" in
  if decide (max_sequence_length (config m) < ending) then
    mthrow "lookahead exceeds sequence capacity"
  else
  let! q := mexpect OutOfBounds (sequences m !! request_id r) in
  let additional := div_ceil ending (block_size (config m)) - length (pages q) in
  if decide (available_pages m < additional) then mthrow "insufficient lookahead pages"
  else
  let! fresh := mmap (seq 0 additional) (λ _, allocate_page) in
  let! m := mget in
  let! q := mexpect Expect (sequences m !! request_id r) in
  let table := pages q ++ fresh in
  put_sequence (request_id r) (set_pages table q) ;;;
  let! m := mget in
  let! r' := mexpect Expect (reservations m !! rid) in
  mmodify (λ m, set_reservations
    (<[rid := mk_reservation (request_id r') (previous_page_count r') (start_position r') count]>
       (reservations m)) m) ;;;
  mret (mk_append rid (request_id r) (start_position r) count ending fresh table).

(** [Vec::split_off] *)
Definition split_off {A} (n : nat) (l : list A) : KvM (list A * list A) :=
  if decide (n ≤ length l) then mret (take n l, drop n l) else mpanic OutOfBounds.

Definition commit_prefix_row (row : KvReservationId * nat) : KvM nat :=
  let! m := mget in
  let! r := mexpect Expect (reservations m !! row.1) in
  mmodify (λ m, set_reservations (delete row.1 (reservations m)) m) ;;;
  let! m := mget in
  let! q := mexpect Expect (sequences m !! request_id r) in
  let! position := mexpect Overflow (usize_add (start_position r) row.2) in
  let! parts := split_off (div_ceil position (block_size (config m))) (pages q) in
  put_sequence (request_id r) (set_pending None (set_committed position (set_pages parts.1 q))) ;;;
  mfor parts.2 release_page ;;;
  mret position.

Definition check_prefix_row (row : KvReservationId * nat) : KvM unit :=
  if decide (row.2 = 0) then mthrow "invalid consumed lookahead prefix"
  else
    let! m := mget in
    let! r := mexpect OutOfBounds (reservations m !! row.1) in
    if decide (token_count r < row.2) then mthrow "invalid consumed lookahead prefix"
    else mret tt.

Definition commit_append_prefixes (rows : list (KvReservationId * nat)) : KvM (list nat) :=
  validate_reservations rows.*1 ;;;
  mfor rows check_prefix_row ;;;
  mmap rows commit_prefix_row.

Definition commit_append_partial (rid : KvReservationId) (n : nat) : KvM nat :=
  let! m := mget in
  let! r := mok_or (reservations m !! rid)
              ("paged KV reservation " +:+ pretty rid +:+ " does not exist") in
  if decide (n = 0 ∨ token_count r < n) then
    mthrow ("partial commit of " +:+ pretty (N.of_nat n) +:+ " tokens is outside 1..="
            +:+ pretty (N.of_nat (token_count r)))
  else
  let! context_length := mexpect Overflow (usize_add (start_position r) n) in
  let needed := div_ceil context_length (block_size (config m)) in
  let! committed := commit_append rid in
  let! m := mget in
  let! q := mexpect Expect (sequences m !! request_id r) in
  debug_assert (bool_decide (context_length ≤ committed)) ;;;
  let released := if decide (needed < length (pages q)) then drop needed (pages q) else [] in
  let kept := if decide (needed < length (pages q)) then take needed (pages q) else pages q in
  put_sequence (request_id r) (set_committed context_length (set_pages kept q)) ;;;
  mfor released release_page ;;;
  mret context_length.

Definition cancel_append (rid : KvReservationId) : KvM unit :=
  validate_reservation rid ;;;
  let! r := take_reservation rid in
  let! m := mget in
  let! q := mok_or (sequences m !! request_id r) "reservation references a removed sequence" in
  if decide (pending q ≠ Some rid) then
    mthrow ("reservation " +:+ pretty rid +:+ " does not own sequence " +:+
            pretty (request_id r) +:+ " pending state")
  else
    let! parts := split_off (previous_page_count r) (pages q) in
    put_sequence (request_id r) (set_pending None (set_pages parts.1 q)) ;;;
    mfor parts.2 release_page.

(** [Result::expect] on the result of a method: an error becomes a panic. *)
Definition expect_ok {A} (m : KvM A) : KvM A := λ s,
  match m s with
  | (Err _, s') => (Panic Expect, s')
  | other => other
  end.

Definition commit_appends (ids : list KvReservationId) : KvM (list nat) :=
  validate_reservations ids ;;;
  mmap ids (λ id, expect_ok (commit_append id)).

Definition cancel_appends (ids : list KvReservationId) : KvM unit :=
  validate_reservations ids ;;;
  mfor ids (λ id, expect_ok (cancel_append id)).

Definition remove_sequence (id : RequestId) : KvM unit :=
  let! q := sequence id in
  match pending q with
  | Some r =>
      mthrow ("cannot remove sequence " +:+ pretty id +:+ " while reservation " +:+
              pretty r +:+ " is pending")
  | None =>
      let! m := mget in
      let! q := mexpect Expect (sequences m !! id) in
      mmodify (λ m, set_sequences (delete id (sequences m)) m) ;;;
      mfor (reverse (pages q)) release_page
  end.

Definition snapshot (m : PagedKvCacheManager) : PagedKvCacheSnapshot :=
  mk_cache_snapshot (block_size (config m)) (num_pages (config m)) (available_pages m)
    (map (λ e, mk_sequence_snapshot e.1 (committed_tokens e.2) (pages e.2) (pending e.2))
         (btree_iter (sequences m))).
