(* ===== verification/PagedKvPool.v ===== *)
(** * The physical page pool of the paged KV cache

    The invariant that ties reference counts, the free set, the cached blocks,
    the prefix index and the eviction queue together, and its preservation by
    the private methods [allocate_page], [acquire_cached], [release_page] and
    [drop_cached_block] of src/src/paged_kv.rs.  None of them can panic on a
    pool that satisfies it, counters aside. *)
From S2P Require Import Prelude PagedKv.
Open Scope nat_scope.
Open Scope m_scope.

(** ** Occurrences of a page in a list *)
Fixpoint occ (p : N) (l : list N) : nat :=
  match l with
  | [] => 0
  | x :: l' => (if decide (x = p) then 1 else 0) + occ p l'
  end.

Lemma occ_app p l1 l2 : occ p (l1 ++ l2) = occ p l1 + occ p l2.
Proof. induction l1; simpl; lia. Qed.

Lemma occ_perm p l1 l2 : l1 ≡ₚ l2 → occ p l1 = occ p l2.
Proof. induction 1; simpl; lia. Qed.

#[export] Instance occ_proper p : Proper ((≡ₚ) ==> (=)) (occ p).
Proof. intros l1 l2. apply occ_perm. Qed.

Lemma occ_pos p l : 0 < occ p l ↔ p ∈ l.
Proof.
  induction l as [|x l IH]; simpl; [split; [lia|by intros ?%elem_of_nil]|].
  rewrite elem_of_cons. case_decide; subst; split; intros; try lia; auto.
  - right. apply IH. lia.
  - destruct H0; [congruence|]. apply IH in H0. lia.
Qed.

Lemma occ_zero p l : occ p l = 0 ↔ p ∉ l.
Proof. rewrite <- occ_pos. lia. Qed.

Lemma occ_cons_eq p l : occ p (p :: l) = S (occ p l).
Proof. simpl. by rewrite decide_True. Qed.
Lemma occ_cons_ne p q l : q ≠ p → occ p (q :: l) = occ p l.
Proof. intros. simpl. by rewrite decide_False. Qed.

(** ** Pages held by the live sequences, with multiplicity *)
Definition held (seqs : gmap N SequenceState) : list N :=
  concat (map (λ e, pages e.2) (map_to_list seqs)).

Lemma held_empty : held ∅ = [].
Proof. unfold held. by rewrite map_to_list_empty. Qed.

Lemma held_insert_fresh seqs i q :
  seqs !! i = None → held (<[i := q]> seqs) ≡ₚ pages q ++ held seqs.
Proof.
  intros Hi. unfold held.
  assert (∀ l1 l2 : list (N * SequenceState), l1 ≡ₚ l2 →
    concat (map (λ e, pages e.2) l1) ≡ₚ concat (map (λ e, pages e.2) l2)) as Hp.
  { intros l1 l2. induction 1; simpl; [done|by f_equiv| |by etrans].
    rewrite !app_assoc. f_equiv. apply Permutation_app_comm. }
  rewrite (Hp _ _ (map_to_list_insert seqs i q Hi)). done.
Qed.

Lemma held_delete seqs i q :
  seqs !! i = Some q → held seqs ≡ₚ pages q ++ held (delete i seqs).
Proof.
  intros Hi. rewrite <- (insert_delete_id seqs i q Hi) at 1.
  apply held_insert_fresh. apply lookup_delete_eq.
Qed.

Lemma held_insert seqs i q q' :
  seqs !! i = Some q → held (<[i := q']> seqs) ≡ₚ pages q' ++ held (delete i seqs).
Proof.
  intros Hi. rewrite <- insert_delete_eq. apply held_insert_fresh. apply lookup_delete_eq.
Qed.

Lemma elem_of_held seqs p : p ∈ held seqs ↔ ∃ i q, seqs !! i = Some q ∧ p ∈ pages q.
Proof.
  unfold held. rewrite list_elem_of_In, in_concat. setoid_rewrite <- list_elem_of_In. split.
  - intros (l & Hl & Hp). apply list_elem_of_In, in_map_iff in Hl as ([i q] & <- & Hin).
    apply list_elem_of_In, elem_of_map_to_list in Hin. eauto.
  - intros (i & q & Hi & Hp). exists (pages q). split; [|done].
    apply list_elem_of_In, in_map_iff. exists (i, q). split; [done|].
    by apply list_elem_of_In, elem_of_map_to_list.
Qed.

(** ** The pool invariant

    [ex] lists the references that a method holds in local variables. *)
Definition rf (m : PagedKvCacheManager) (p : N) : option N := page_refs m !! N.to_nat p.
Definition bl (m : PagedKvCacheManager) (p : N) : option (option CachedBlock) :=
  page_blocks m !! N.to_nat p.

Record pool_wf (ex : list N) (m : PagedKvCacheManager) : Prop := {
  pw_refs_len : length (page_refs m) = num_pages (config m);
  pw_blocks_len : length (page_blocks m) = num_pages (config m);
  pw_refs : ∀ p r, rf m p = Some r → N.to_nat r = occ p (held (sequences m) ++ ex);
  pw_range : ∀ p, p ∈ held (sequences m) ++ ex → N.to_nat p < num_pages (config m);
  pw_free : ∀ p, p ∈ free_pages m ↔ rf m p = Some 0%N ∧ bl m p = Some None;
  pw_evict : ∀ t p, evictable m !! t = Some p ↔ ∃ k, bl m p = Some (Some (mk_block k (Some t)));
  pw_tick : ∀ p b, bl m p = Some (Some b) → is_Some (lru_tick b) ↔ rf m p = Some 0%N;
  pw_index : ∀ k p, block_index m !! k = Some p ↔ ∃ t, bl m p = Some (Some (mk_block k t));
  pw_next : ∀ t p, evictable m !! t = Some p → (t < next_tick m)%N
}.

(** A page that only its owner can reach: one reference, not published. *)
Definition exclusive (m : PagedKvCacheManager) (p : N) : Prop :=
  rf m p = Some 1%N ∧ bl m p = Some None.

(** The fields a page primitive leaves alone. *)
Definition same_book (m m' : PagedKvCacheManager) : Prop :=
  config m' = config m ∧ sequences m' = sequences m ∧ reservations m' = reservations m ∧
  next_reservation m' = next_reservation m ∧ prefix_caching m' = prefix_caching m ∧
  reused_tokens m' = reused_tokens m.

#[export] Instance same_book_refl : Reflexive same_book.
Proof. intros m. unfold same_book. done. Qed.
#[export] Instance same_book_trans : Transitive same_book.
Proof. unfold same_book. intros ???; intuition congruence. Qed.

Lemma rf_write m p n q :
  N.to_nat p < length (page_refs m) →
  rf (set_page_refs (<[N.to_nat p := n]> (page_refs m)) m) q =
    if decide (q = p) then Some n else rf m q.
Proof.
  intros Hp. unfold rf. simpl. case_decide as Hq.
  - subst. by apply list_lookup_insert_eq.
  - apply list_lookup_insert_ne. lia.
Qed.

Lemma bl_write m p b q :
  N.to_nat p < length (page_blocks m) →
  bl (set_page_blocks (<[N.to_nat p := b]> (page_blocks m)) m) q =
    if decide (q = p) then Some b else bl m q.
Proof.
  intros Hp. unfold bl. simpl. case_decide as Hq.
  - subst. by apply list_lookup_insert_eq.
  - apply list_lookup_insert_ne. lia.
Qed.

Lemma read_ref_ok m p r : rf m p = Some r → read_ref p m = (Ok r, m).
Proof. unfold rf, read_ref, mbind', mget, mexpect, mret. by intros ->. Qed.
Lemma read_block_ok m p b : bl m p = Some b → read_block p m = (Ok b, m).
Proof. unfold bl, read_block, mbind', mget, mexpect, mret. by intros ->. Qed.
Lemma write_ref_ok m p r n : rf m p = Some r →
  write_ref p n m = (Ok tt, set_page_refs (<[N.to_nat p := n]> (page_refs m)) m).
Proof. intros H. unfold write_ref, mbind'. by rewrite (read_ref_ok _ _ _ H). Qed.
Lemma write_block_ok m p b n : bl m p = Some b →
  write_block p n m = (Ok tt, set_page_blocks (<[N.to_nat p := n]> (page_blocks m)) m).
Proof. intros H. unfold write_block, mbind'. by rewrite (read_block_ok _ _ _ H). Qed.

(** The result of [drop_cached_block]: the page loses its block, and the index
    its entry when that entry names this page. *)
Definition dropped (p : N) (m : PagedKvCacheManager) : PagedKvCacheManager :=
  let m' := set_page_blocks (<[N.to_nat p := None]> (page_blocks m)) m in
  match bl m p with
  | Some (Some b) =>
      if decide (block_index m !! block_key b = Some p) then
        set_block_index (delete (block_key b) (block_index m)) m'
      else m'
  | _ => m'
  end.

Lemma drop_cached_block_ok m p b :
  bl m p = Some b → drop_cached_block p m = (Ok tt, dropped p m).
Proof.
  intros H. unfold drop_cached_block, dropped, mbind'.
  rewrite (read_block_ok _ _ _ H), (write_block_ok _ _ _ _ H), H.
  destruct b as [b|]; [|done]. simpl. by case_decide.
Qed.

Section Pool.
Context (ex : list N) (m : PagedKvCacheManager) (Hwf : pool_wf ex m).

Lemma pool_rf_range p r : rf m p = Some r → N.to_nat p < num_pages (config m).
Proof. intros H%lookup_lt_Some. by rewrite <- (pw_refs_len _ _ Hwf). Qed.

Lemma pool_rf_some p : N.to_nat p < num_pages (config m) → ∃ r, rf m p = Some r.
Proof. intros H. apply lookup_lt_is_Some. by rewrite (pw_refs_len _ _ Hwf). Qed.

Lemma pool_bl_some p : N.to_nat p < num_pages (config m) → ∃ b, bl m p = Some b.
Proof. intros H. apply lookup_lt_is_Some. by rewrite (pw_blocks_len _ _ Hwf). Qed.

Lemma pool_bl_range p b : bl m p = Some b → N.to_nat p < num_pages (config m).
Proof. intros H%lookup_lt_Some. by rewrite <- (pw_blocks_len _ _ Hwf). Qed.

Lemma pool_unused p : rf m p = Some 0%N ↔
  N.to_nat p < num_pages (config m) ∧ p ∉ held (sequences m) ++ ex.
Proof.
  rewrite <- occ_zero. split.
  - intros H. pose proof (pw_refs _ _ Hwf _ _ H). split; [by eapply pool_rf_range|lia].
  - intros [Hr Ho]. destruct (pool_rf_some p Hr) as [r Hrf].
    pose proof (pw_refs _ _ Hwf _ _ Hrf). rewrite Hrf. f_equal. lia.
Qed.

Lemma pool_used p : p ∈ held (sequences m) ++ ex →
  ∃ r b, rf m p = Some r ∧ (0 < r)%N ∧ bl m p = Some b.
Proof.
  intros Hin. pose proof (pw_range _ _ Hwf _ Hin) as Hr.
  destruct (pool_rf_some p Hr) as [r Hrf]. destruct (pool_bl_some p Hr) as [b Hb].
  exists r, b. split_and!; [done| |done].
  pose proof (pw_refs _ _ Hwf _ _ Hrf). apply occ_pos in Hin. lia.
Qed.

(** Every page is in use, free or evictable, and these exclude each other. *)
Lemma pool_idle p : rf m p = Some 0%N ↔
  p ∈ free_pages m ∨ ∃ t, evictable m !! t = Some p.
Proof.
  split.
  - intros H. destruct (pool_bl_some p (pool_rf_range _ _ H)) as [[b|] Hb].
    + right. destruct (proj2 (pw_tick _ _ Hwf _ _ Hb) H) as [t Ht].
      exists t. apply (pw_evict _ _ Hwf). exists (block_key b). by destruct b; simpl in *; subst.
    + left. by apply (pw_free _ _ Hwf).
  - intros [H|[t H]].
    + by apply (pw_free _ _ Hwf).
    + apply (pw_evict _ _ Hwf) in H as [k H]. by apply (pw_tick _ _ Hwf _ _ H).
Qed.

Lemma pool_evict_inj t t' p :
  evictable m !! t = Some p → evictable m !! t' = Some p → t = t'.
Proof. intros [k H]%(pw_evict _ _ Hwf) [k' H']%(pw_evict _ _ Hwf). by simplify_eq. Qed.

Lemma pool_index_sync p b : bl m p = Some (Some b) → block_index m !! block_key b = Some p.
Proof. intros H. apply (pw_index _ _ Hwf). exists (lru_tick b). by destruct b. Qed.

Lemma pool_key_inj p p' b b' :
  bl m p = Some (Some b) → bl m p' = Some (Some b') → block_key b = block_key b' → p = p'.
Proof.
  intros H%pool_index_sync H'%pool_index_sync Hk. rewrite Hk in H. congruence.
Qed.
End Pool.

(** ** One page changes

    Every primitive changes the cell of one page [p]; the indexes follow it. *)
Record page_update (m m' : PagedKvCacheManager) (p r' : N) (b' : option CachedBlock) : Prop := {
  pu_config : config m' = config m;
  pu_seqs : sequences m' = sequences m;
  pu_refs_len : length (page_refs m') = length (page_refs m);
  pu_blocks_len : length (page_blocks m') = length (page_blocks m);
  pu_rf : ∀ q, rf m' q = if decide (q = p) then Some r' else rf m q;
  pu_bl : ∀ q, bl m' q = if decide (q = p) then Some b' else bl m q;
  pu_free : ∀ q, q ∈ free_pages m' ↔
    if decide (q = p) then r' = 0%N ∧ b' = None else q ∈ free_pages m;
  pu_evict : ∀ t q, evictable m' !! t = Some q ↔
    if decide (q = p) then ∃ k, b' = Some (mk_block k (Some t)) else evictable m !! t = Some q;
  pu_index : ∀ k q, block_index m' !! k = Some q ↔
    if decide (q = p) then ∃ t, b' = Some (mk_block k t) else block_index m !! k = Some q;
  pu_tick : ∀ b, b' = Some b → is_Some (lru_tick b) ↔ r' = 0%N;
  pu_next : (next_tick m ≤ next_tick m')%N;
  pu_fresh : ∀ t k, b' = Some (mk_block k (Some t)) → (t < next_tick m')%N
}.

Lemma pool_update ex ex' m m' p r' b' :
  pool_wf ex m → page_update m m' p r' b' → N.to_nat p < num_pages (config m) →
  (∀ q, occ q (held (sequences m) ++ ex') =
     if decide (q = p) then N.to_nat r' else occ q (held (sequences m) ++ ex)) →
  pool_wf ex' m'.
Proof.
  intros Hwf U Hp Hocc. destruct U.
  split; rewrite ?pu_config0, ?pu_seqs0.
  - by rewrite pu_refs_len0, (pw_refs_len _ _ Hwf).
  - by rewrite pu_blocks_len0, (pw_blocks_len _ _ Hwf).
  - intros q r. rewrite pu_rf0, Hocc. case_decide; [naive_solver|]. apply (pw_refs _ _ Hwf).
  - intros q Hq. apply occ_pos in Hq. rewrite Hocc in Hq. case_decide; subst; [done|].
    apply (pw_range _ _ Hwf). by apply occ_pos.
  - intros q. rewrite pu_free0, pu_rf0, pu_bl0. case_decide.
    + split; [by intros [-> ->]|]. by intros [[= ->] [= ->]].
    + apply (pw_free _ _ Hwf).
  - intros t q. rewrite pu_evict0, pu_bl0. case_decide.
    + split; intros [k H']; exists k; congruence.
    + apply (pw_evict _ _ Hwf).
  - intros q b. rewrite pu_rf0, pu_bl0. case_decide.
    + intros [= ->]. rewrite (pu_tick0 b) by done. split; [by intros ->|by intros [= ->]].
    + apply (pw_tick _ _ Hwf).
  - intros k q. rewrite pu_index0, pu_bl0. case_decide.
    + split; intros [t H']; exists t; congruence.
    + apply (pw_index _ _ Hwf).
  - intros t q. rewrite pu_evict0. case_decide.
    + intros [k ->]. by eapply pu_fresh0.
    + intros H'%(pw_next _ _ Hwf). lia.
Qed.

Lemma update_exclusive m m' p r' b' q :
  page_update m m' p r' b' → exclusive m q → q ≠ p → exclusive m' q.
Proof.
  intros U [Hr Hb] Hne. split.
  - by rewrite (pu_rf _ _ _ _ _ U), decide_False.
  - by rewrite (pu_bl _ _ _ _ _ U), decide_False.
Qed.

(** [dropped] as a page update, whatever the eviction queue lost before. *)
Lemma dropped_fields p m :
  config (dropped p m) = config m ∧ sequences (dropped p m) = sequences m ∧
  page_refs (dropped p m) = page_refs m ∧ free_pages (dropped p m) = free_pages m ∧
  evictable (dropped p m) = evictable m ∧ next_tick (dropped p m) = next_tick m ∧
  page_blocks (dropped p m) = <[N.to_nat p := None]> (page_blocks m) ∧
  same_book m (dropped p m).
Proof.
  unfold dropped. destruct (bl m p) as [[b|]|]; [case_decide| |]; simpl; split_and!; done.
Qed.

Lemma dropped_index ex m m0 p b k q :
  pool_wf ex m → block_index m0 = block_index m → bl m0 p = bl m p → bl m p = Some b →
  block_index (dropped p m0) !! k = Some q ↔ block_index m !! k = Some q ∧ q ≠ p.
Proof.
  intros Hwf Hi Hb0 Hb. unfold dropped. rewrite Hb0, Hb. destruct b as [b|]; simpl.
  - rewrite Hi. pose proof (pool_index_sync _ _ Hwf _ _ Hb) as Hs.
    rewrite decide_True by done. simpl.
    rewrite lookup_delete_Some. split.
    + intros [Hk Hq]. split; [done|]. intros ->.
      apply (pw_index _ _ Hwf) in Hq as [t Ht]. rewrite Hb in Ht. naive_solver.
    + intros [Hq Hne]. split; [|done]. intros <-. congruence.
  - rewrite Hi. split; [|naive_solver]. intros H. split; [done|]. intros ->.
    apply (pw_index _ _ Hwf) in H as [t Ht]. congruence.
Qed.

(** ** [allocate_page] *)
Lemma take_page_update ex m m1 m' p b :
  pool_wf ex m → rf m p = Some 0%N → bl m p = Some b →
  config m1 = config m → sequences m1 = sequences m → page_refs m1 = page_refs m →
  page_blocks m1 = <[N.to_nat p := None]> (page_blocks m) →
  (∀ q, q ∈ free_pages m1 ↔ q ∈ free_pages m ∧ q ≠ p) →
  (∀ t q, evictable m1 !! t = Some q ↔ evictable m !! t = Some q ∧ q ≠ p) →
  (∀ k q, block_index m1 !! k = Some q ↔ block_index m !! k = Some q ∧ q ≠ p) →
  next_tick m1 = next_tick m →
  m' = set_page_refs (<[N.to_nat p := 1%N]> (page_refs m1)) m1 →
  page_update m m' p 1 None.
Proof.
  intros Hwf Hr Hb Hc Hs Hrefs Hblocks Hf He Hi Hn ->.
  assert (N.to_nat p < length (page_refs m)) by (by apply lookup_lt_Some in Hr).
  assert (N.to_nat p < length (page_blocks m)) by (by apply lookup_lt_Some in Hb).
  split; simpl; try done; try lia.
  - by rewrite length_insert, Hrefs.
  - by rewrite Hblocks, length_insert.
  - intros q. rewrite rf_write by (by rewrite Hrefs). unfold rf. by rewrite Hrefs.
  - intros q. unfold bl at 1. simpl. rewrite Hblocks. by apply (bl_write m p None q).
  - intros q. rewrite Hf. case_decide; naive_solver.
  - intros t q. rewrite He. case_decide; naive_solver.
  - intros k q. rewrite Hi. case_decide; naive_solver.
Qed.

Lemma occ_take ex m p q : pool_wf ex m → rf m p = Some 0%N →
  occ q (held (sequences m) ++ p :: ex) =
    if decide (q = p) then 1 else occ q (held (sequences m) ++ ex).
Proof.
  intros Hwf Hr. pose proof (pw_refs _ _ Hwf _ _ Hr) as Ho. rewrite !occ_app in *.
  case_decide; subst; [rewrite occ_cons_eq; lia|]. by rewrite occ_cons_ne.
Qed.

Lemma available_zero m : available_pages m = 0 ↔ free_pages m = ∅ ∧ evictable m = ∅.
Proof.
  unfold available_pages. split.
  - intros H. split; [apply leibniz_equiv, size_empty_inv|apply map_size_empty_inv]; lia.
  - intros [-> ->]. by rewrite size_empty, map_size_empty.
Qed.

(** What a pool operation that succeeds on page [p] guarantees. *)
Record taken (ex : list N) (m m' : PagedKvCacheManager) (p : N) : Prop := {
  tk_pool : pool_wf (p :: ex) m';
  tk_book : same_book m m';
  tk_exclusive : ∀ q, exclusive m q → exclusive m' q
}.

Lemma allocate_page_ok ex m : pool_wf ex m → 0 < available_pages m →
  ∃ p m', allocate_page m = (Ok p, m') ∧ taken ex m m' p ∧ exclusive m' p ∧
    available_pages m = S (available_pages m').
Proof.
  intros Hwf Hav.
  assert (∀ p m1 b, rf m p = Some 0%N → bl m p = Some b → same_book m m1 →
    (let m' := set_page_refs (<[N.to_nat p := 1%N]> (page_refs m1)) m1 in
     page_update m m' p 1 None → taken ex m m' p ∧ exclusive m' p)) as Hfin.
  { intros p m1 b Hr Hb Hsb m' U. split.
    - split; [|done|].
      + eapply pool_update; [done|done|by eapply pool_rf_range|].
        intros q. by rewrite occ_take.
      + intros q Hq. eapply update_exclusive; [done..|]. intros ->.
        destruct Hq as [Hq _]. congruence.
    - split.
      + by rewrite (pu_rf _ _ _ _ _ U), decide_True.
      + by rewrite (pu_bl _ _ _ _ _ U), decide_True. }
  unfold allocate_page, mbind', mget.
  destruct (bset_pop_first (free_pages m)) as [[p rest]|] eqn:Epop.
  - apply bset_pop_first_Some in Epop as (Hin & -> & _).
    apply (pw_free _ _ Hwf) in Hin as Hpf. destruct Hpf as [Hr Hb].
    simpl. rewrite (read_ref_ok (set_free_pages _ m) p 0%N) by done.
    unfold debug_assert. rewrite bool_decide_eq_true_2 by done. simpl.
    rewrite (write_ref_ok (set_free_pages _ m) p 0%N) by done.
    eexists p, _. split; [done|].
    destruct (Hfin p (set_free_pages (free_pages m ∖ {[p]}) m) None) as [Ht He]; [done..| |].
    { eapply (take_page_update ex m (set_free_pages (free_pages m ∖ {[p]}) m)); try done; simpl.
      - by rewrite list_insert_id.
      - set_solver.
      - intros t q. split; [|naive_solver]. intros H. split; [done|]. intros ->.
        apply (pw_evict _ _ Hwf) in H as [k H]. congruence.
      - intros k q. split; [|naive_solver]. intros H. split; [done|]. intros ->.
        apply (pw_index _ _ Hwf) in H as [t H]. congruence. }
    split; [done|]. split; [done|]. unfold available_pages. simpl.
    rewrite size_difference by set_solver. rewrite size_singleton.
    assert (size (free_pages m) ≠ 0); [|lia]. intros H%size_empty_inv. set_solver.
  - apply bset_pop_first_None in Epop as Hfe.
    destruct (btree_pop_first (evictable m)) as [[[t p] ev]|] eqn:Eev.
    2:{ apply btree_pop_first_None in Eev. assert (available_pages m = 0); [|lia].
        by apply available_zero. }
    apply btree_pop_first_Some in Eev as (Ht & -> & _).
    apply (pw_evict _ _ Hwf) in Ht as Hb. destruct Hb as [k Hb].
    assert (rf m p = Some 0%N) as Hr by (by apply (pw_tick _ _ Hwf _ _ Hb)).
    simpl. set (m0 := set_evictable (delete t (evictable m)) m).
    rewrite (drop_cached_block_ok m0 p _ Hb).
    destruct (dropped_fields p m0) as (Dc & Ds & Dr & Df & De & Dn & Db & Dbook). simpl.
    rewrite (read_ref_ok (dropped p m0) p 0%N) by (unfold rf; rewrite Dr; done).
    unfold debug_assert. rewrite bool_decide_eq_true_2 by done. simpl.
    rewrite (write_ref_ok (dropped p m0) p 0%N) by (unfold rf; rewrite Dr; done).
    eexists p, _. split; [done|].
    destruct (Hfin p (dropped p m0) (Some (mk_block k (Some t)))) as [Htk He]; [done..| |].
    { eapply (take_page_update ex m (dropped p m0)); try done; simpl.
      - rewrite Df. simpl. rewrite Hfe. set_solver.
      - intros t' q. rewrite De. simpl. rewrite lookup_delete_Some. split.
        + intros [Hne Hq]. split; [done|]. intros ->. apply Hne. by eapply pool_evict_inj.
        + intros [Hq Hne]. split; [|done]. intros <-. congruence.
      - intros k' q. by eapply dropped_index. }
    split; [done|]. split; [done|]. unfold available_pages. simpl. rewrite Df, De. simpl.
    rewrite Hfe, size_empty, map_size_delete, Ht.
    assert (size (evictable m) ≠ 0); [|lia].
    intros Hz%map_size_empty_inv. rewrite Hz in Ht. done.
Qed.

Lemma occ_cons_split ex seqs p q :
  occ q (held seqs ++ p :: ex) = (if decide (q = p) then 1 else 0) + occ q (held seqs ++ ex).
Proof.
  rewrite !occ_app. case_decide; subst; [rewrite occ_cons_eq; lia|]. by rewrite occ_cons_ne.
Qed.

(** ** [acquire_cached]: a published page gains a reference. *)
Lemma acquire_cached_update ex m m' p r k t :
  pool_wf ex m → rf m p = Some r → bl m p = Some (Some (mk_block k t)) →
  config m' = config m → sequences m' = sequences m →
  page_refs m' = <[N.to_nat p := (r + 1)%N]> (page_refs m) →
  page_blocks m' = <[N.to_nat p := Some (mk_block k None)]> (page_blocks m) →
  free_pages m' = free_pages m → block_index m' = block_index m → next_tick m' = next_tick m →
  (∀ t' q, evictable m' !! t' = Some q ↔ evictable m !! t' = Some q ∧ q ≠ p) →
  page_update m m' p (r + 1) (Some (mk_block k None)).
Proof.
  intros Hwf Hr Hb Hc Hs Hrefs Hbl Hf Hi Hn He.
  assert (N.to_nat p < length (page_refs m)) by (by apply lookup_lt_Some in Hr).
  assert (N.to_nat p < length (page_blocks m)) by (by apply lookup_lt_Some in Hb).
  split; try done; try lia.
  - by rewrite Hrefs, length_insert.
  - by rewrite Hbl, length_insert.
  - intros q. unfold rf at 1. rewrite Hrefs. by apply (rf_write m p _ q).
  - intros q. unfold bl at 1. rewrite Hbl. by apply (bl_write m p _ q).
  - intros q. rewrite Hf. case_decide; [subst|done]. split; [|lia || (intros []; lia)].
    intros Hq%(pw_free _ _ Hwf). destruct Hq. congruence.
  - intros t' q. rewrite He. case_decide; subst; [naive_solver|]. naive_solver.
  - intros k' q. rewrite Hi. case_decide; subst; [|done].
    rewrite (pw_index _ _ Hwf), Hb. naive_solver.
  - intros b [= <-]. simpl. split; [by intros []|lia].
Qed.

Lemma acquire_cached_ok ex m k p : pool_wf ex m → block_index m !! k = Some p →
  wp (acquire_cached p)
    (post (λ _ m', taken ex m m' p ∧ block_index m' = block_index m) (λ _ _, False)) m.
Proof.
  intros Hwf Hk. apply (pw_index _ _ Hwf) in Hk as [t Hb].
  destruct (pool_rf_some _ _ Hwf p) as [r Hr]; [by eapply pool_bl_range|].
  assert (∀ m', page_update m m' p (r + 1) (Some (mk_block k None)) → same_book m m' →
    taken ex m m' p) as Hfin.
  { intros m' U Hsb. split; [|done|].
    - eapply pool_update; [done|done|by eapply pool_rf_range|].
      intros q. rewrite occ_cons_split. pose proof (pw_refs _ _ Hwf _ _ Hr).
      case_decide; subst; lia.
    - intros q Hq. eapply update_exclusive; [done..|]. intros ->. destruct Hq; congruence. }
  unfold acquire_cached. apply wp_bind. unfold wp at 1. rewrite (read_ref_ok _ _ _ Hr). simpl.
  case_decide as Hz.
  - subst r. destruct (proj2 (pw_tick _ _ Hwf _ _ Hb) Hr) as [tk Htk]. simpl in Htk. subst t.
    apply wp_bind, wp_bind. unfold wp at 1. rewrite (read_block_ok _ _ _ Hb). simpl.
    apply wp_bind. unfold wp at 1. simpl. apply wp_bind. unfold wp at 1.
    rewrite (write_block_ok _ _ _ _ Hb). simpl. wp_step. simpl.
    wp_steps. unfold wp. rewrite (write_ref_ok _ _ 0%N) by done. simpl.
    split; [|done]. apply Hfin; [|done]. eapply acquire_cached_update; try done. simpl.
    intros t' q. rewrite lookup_delete_Some. split.
    + intros [Hne Hq]. split; [done|]. intros ->. apply Hne.
      eapply (pool_evict_inj _ _ Hwf); [|done]. apply (pw_evict _ _ Hwf). eauto.
    + intros [Hq Hne]. split; [|done]. intros <-.
      apply (pw_evict _ _ Hwf) in Hq as [k' Hq].
      assert (evictable m !! tk = Some p) by (apply (pw_evict _ _ Hwf); eauto).
      assert (evictable m !! tk = Some q) by (apply (pw_evict _ _ Hwf); eauto). congruence.
  - assert (t = None) as ->.
    { destruct t as [tk|]; [|done]. destruct Hz.
      assert (rf m p = Some 0%N); [|congruence]. apply (pw_tick _ _ Hwf _ _ Hb). by eexists. }
    wp_step. wp_step. wp_step. destruct (checked_add u32_max r 1) as [r'|] eqn:Ec.
    2:{ by apply wp_panic. }
    apply checked_add_Some in Ec as [-> _]. apply wp_ret.
    unfold wp. rewrite (write_ref_ok _ _ r) by done. simpl. split; [|done].
    apply Hfin; [|done]. eapply acquire_cached_update; try done; simpl.
    + by rewrite list_insert_id.
    + intros t' q. split; [|naive_solver]. intros Hq. split; [done|]. intros ->.
      apply (pw_evict _ _ Hwf) in Hq as [k' Hq]. congruence.
Qed.

(** ** [release_page] *)
Record released (p : N) (ex : list N) (m m' : PagedKvCacheManager) : Prop := {
  rl_pool : pool_wf ex m';
  rl_book : same_book m m';
  rl_exclusive : ∀ q, exclusive m q → q ≠ p → exclusive m' q
}.

Lemma release_done p ex m m' r b' :
  pool_wf (p :: ex) m → rf m p = Some r → page_update m m' p (r - 1) b' → same_book m m' →
  released p ex m m'.
Proof.
  intros Hwf Hr U Hsb. pose proof (pw_refs _ _ Hwf _ _ Hr) as Ho.
  rewrite occ_cons_split, decide_True in Ho by done. split; [|done|].
  - eapply pool_update; [done|done|by eapply pool_rf_range|].
    intros q. rewrite occ_cons_split. case_decide; subst; lia.
  - intros q Hq Hne. by eapply update_exclusive.
Qed.

Lemma write_ref_update ex m p r r' b :
  pool_wf ex m → rf m p = Some r → bl m p = Some b → r ≠ 0%N → r' ≠ 0%N →
  page_update m (set_page_refs (<[N.to_nat p := r']> (page_refs m)) m) p r' b.
Proof.
  intros Hwf Hr Hb Hr0 Hr'.
  assert (N.to_nat p < length (page_refs m)) by (by apply lookup_lt_Some in Hr).
  split; try done; simpl; try lia.
  - by rewrite length_insert.
  - intros q. by apply rf_write.
  - intros q. case_decide; by subst.
  - intros q. case_decide; [subst|done]. rewrite (pw_free _ _ Hwf).
    split; [intros []; congruence|naive_solver].
  - intros t q. case_decide; [subst|done]. rewrite (pw_evict _ _ Hwf), Hb. naive_solver.
  - intros k q. case_decide; [subst|done]. rewrite (pw_index _ _ Hwf), Hb. naive_solver.
  - intros b0 ->. rewrite (pw_tick _ _ Hwf _ _ Hb), Hr. naive_solver.
  - intros t k ->. eapply (pw_next _ _ Hwf _ p). apply (pw_evict _ _ Hwf). eauto.
Qed.

(** The last reference goes and the page stays published: it becomes evictable. *)
Lemma park_update ex m p k t :
  pool_wf ex m → rf m p = Some 1%N → bl m p = Some (Some (mk_block k t)) →
  page_update m
    (set_evictable (<[next_tick m := p]> (evictable m))
      (set_page_blocks (<[N.to_nat p := Some (mk_block k (Some (next_tick m)))]> (page_blocks m))
        (set_next_tick (next_tick m + 1)
          (set_page_refs (<[N.to_nat p := 0%N]> (page_refs m)) m))))
    p 0 (Some (mk_block k (Some (next_tick m)))).
Proof.
  intros Hwf Hr Hb.
  assert (N.to_nat p < length (page_refs m)) by (by apply lookup_lt_Some in Hr).
  assert (N.to_nat p < length (page_blocks m)) by (by apply lookup_lt_Some in Hb).
  assert (t = None) as ->.
  { destruct t as [tk|]; [|done].
    assert (rf m p = Some 0%N); [|congruence]. apply (pw_tick _ _ Hwf _ _ Hb). by eexists. }
  split; try done; simpl; try lia.
  - by rewrite length_insert.
  - by rewrite length_insert.
  - intros q. by apply rf_write.
  - intros q. by apply (bl_write m p _ q).
  - intros q. case_decide; [subst|done]. rewrite (pw_free _ _ Hwf), Hr. naive_solver.
  - intros t q. rewrite lookup_insert. case_decide as Ht; case_decide as Hq; subst.
    + split; [eauto|done].
    + split; [congruence|]. intros H'%(pw_next _ _ Hwf). lia.
    + split; [intros [k' H']%(pw_evict _ _ Hwf); congruence|naive_solver].
    + done.
  - intros k' q. case_decide; [subst|done]. rewrite (pw_index _ _ Hwf), Hb. naive_solver.
  - intros b0 [= <-]. simpl. split; [done|eauto].
  - intros t k' [= -> <-]. lia.
Qed.

(** The last reference goes and the page is forgotten: it becomes free. *)
Lemma free_update ex m p b m0 :
  pool_wf ex m → rf m p = Some 1%N → bl m p = Some b →
  m0 = set_page_refs (<[N.to_nat p := 0%N]> (page_refs m)) m →
  page_update m (set_free_pages ({[p]} ∪ free_pages (dropped p m0)) (dropped p m0)) p 0 None.
Proof.
  intros Hwf Hr Hb ->.
  assert (N.to_nat p < length (page_refs m)) by (by apply lookup_lt_Some in Hr).
  assert (N.to_nat p < length (page_blocks m)) by (by apply lookup_lt_Some in Hb).
  set (m0 := set_page_refs (<[N.to_nat p := 0%N]> (page_refs m)) m).
  destruct (dropped_fields p m0) as (Dc & Ds & Dr & Df & De & Dn & Db & _).
  split; try done; simpl.
  - by rewrite Dr; simpl; rewrite length_insert.
  - by rewrite Db, length_insert.
  - intros q. unfold rf at 1. simpl. rewrite Dr. by apply rf_write.
  - intros q. unfold bl at 1. simpl. rewrite Db. by apply (bl_write m p _ q).
  - intros q. rewrite Df. simpl. case_decide; set_solver.
  - intros t q. rewrite De. simpl. case_decide; [subst|done].
    split; [|naive_solver]. intros [k H']%(pw_evict _ _ Hwf).
    assert (rf m p = Some 0%N); [|congruence]. apply (pw_tick _ _ Hwf _ _ H'). by eexists.
  - intros k q. rewrite (dropped_index _ _ m0 _ _ _ _ Hwf eq_refl eq_refl Hb).
    case_decide; naive_solver.
  - rewrite Dn. simpl. lia.
Qed.

Lemma release_page_ok p ex m : pool_wf (p :: ex) m →
  wp (release_page p) (post (λ _ m', released p ex m m') (λ _ _, False)) m.
Proof.
  intros Hwf. destruct (pool_used _ _ Hwf p) as (r & b & Hr & Hpos & Hb); [set_solver|].
  unfold release_page. apply wp_bind. unfold wp at 1. rewrite (read_ref_ok _ _ _ Hr). simpl.
  unfold debug_assert. rewrite bool_decide_eq_true_2 by done. wp_step. wp_step.
  unfold checked_sub at 1. rewrite decide_True by lia. simpl. wp_step. wp_step. wp_step.
  unfold wp at 1. rewrite (write_ref_ok _ _ _ _ Hr). simpl.
  case_decide as Hz.
  - apply wp_ret. simpl. eapply release_done; [done..| |done].
    eapply write_ref_update; [done..|lia|done].
  - assert (r = 1%N) as -> by lia. wp_step. wp_step. wp_step.
    unfold wp at 1. rewrite (read_block_ok (set_page_refs _ m) p b) by done. simpl.
    assert (∀ m0, m0 = set_page_refs (<[N.to_nat p := 0%N]> (page_refs m)) m →
      wp (drop_cached_block p ;;;
          let! m := mget in
          mmodify (set_free_pages ({[p]} ∪ free_pages m)) ;;;
          debug_assert (bool_decide (p ∉ free_pages m)))
        (post (λ _ m', released p ex m m') (λ _ _, False)) m0) as Hdrop.
    { intros m0 Hm0. apply wp_bind. unfold wp at 1.
      rewrite (drop_cached_block_ok m0 p b) by (by subst). simpl. wp_steps.
      destruct (dropped_fields p m0) as (_ & _ & _ & Df & _).
      unfold debug_assert. rewrite bool_decide_eq_true_2.
      - apply wp_ret. simpl. eapply release_done; [done..|by eapply free_update|].
        destruct (dropped_fields p m0) as (_ & _ & _ & _ & _ & _ & _ & Hsb). by subst.
      - rewrite Df. subst. simpl. intros Hin%(pw_free _ _ Hwf). naive_solver. }
    destruct (prefix_caching m), b as [[k t]|]; simpl; try by apply Hdrop.
    apply wp_bind. unfold checked_add. case_decide; [|by apply wp_panic].
    apply wp_ret. wp_step. wp_step. wp_step. unfold wp at 1.
    rewrite (write_block_ok _ _ (Some (mk_block k t))) by done. simpl. wp_step. simpl.
    eapply release_done; [done..|by eapply park_update|done].
Qed.
