(* ===== verification/PagedKvInv.v ===== *)
(** * The invariant of the paged KV cache manager

    [kv_wf] joins the pool invariant with the reserve/commit protocol: which
    sequence owns which pending reservation, how many pages a sequence has, and
    that every page an append may write belongs to that sequence alone.  Each
    public method of src/src/paged_kv.rs keeps it; a method that returns an
    error leaves the manager exactly as it was. *)
From S2P Require Import Prelude PagedKv PagedKvPool.
Open Scope nat_scope.
Open Scope m_scope.

(** ** The reservation protocol *)
Definition res_ok (bs mx : nat) (rid : N) (r : ReservationState) (q : SequenceState) : Prop :=
  pending q = Some rid ∧ committed_tokens q = start_position r ∧
  previous_page_count r = div_ceil (start_position r) bs ∧
  0 < token_count r ∧ start_position r + token_count r ≤ mx ∧
  length (pages q) = div_ceil (start_position r + token_count r) bs.

Definition idle_ok (bs : nat) (q : SequenceState) : Prop :=
  pending q = None ∧ length (pages q) = div_ceil (committed_tokens q) bs.

(** Sequences and reservations refer to each other, one to one. *)
Record linked (bs mx : nat) (seqs : gmap N SequenceState) (ress : gmap N ReservationState)
    (next : N) : Prop := {
  lk_seq : ∀ id q, seqs !! id = Some q →
    idle_ok bs q ∨ ∃ rid r, pending q = Some rid ∧ ress !! rid = Some r ∧ request_id r = id;
  lk_res : ∀ rid r, ress !! rid = Some r →
    (rid < next)%N ∧ ∃ q, seqs !! request_id r = Some q ∧ res_ok bs mx rid r q
}.

Section Linked.
Context (bs mx : nat) (seqs : gmap N SequenceState) (ress : gmap N ReservationState) (next : N).
Context (L : linked bs mx seqs ress next).

Lemma linked_open id q q' r :
  seqs !! id = Some q → pending q = None → request_id r = id → res_ok bs mx next r q' →
  linked bs mx (<[id := q']> seqs) (<[next := r]> ress) (next + 1).
Proof.
  intros Hq Hp Hid Hr. split.
  - intros id0 q0. rewrite lookup_insert. case_decide; subst.
    + intros [= <-]. right. exists next, r. rewrite lookup_insert_eq. by destruct Hr.
    + intros H0. destruct (lk_seq _ _ _ _ _ L _ _ H0) as [?|(rid & r0 & ? & Hr0 & ?)]; [by left|].
      right. exists rid, r0. rewrite lookup_insert_ne; [done|].
      intros <-. apply (lk_res _ _ _ _ _ L) in Hr0 as [? _]. lia.
  - intros rid r0. rewrite lookup_insert. case_decide; subst.
    + intros [= <-]. split; [lia|]. exists q'. by rewrite lookup_insert_eq.
    + intros H0. destruct (lk_res _ _ _ _ _ L _ _ H0) as (? & q0 & Hq0 & Hok).
      split; [lia|]. exists q0. rewrite lookup_insert_ne; [done|].
      intros Heq. rewrite Heq, Hq0 in Hq. destruct Hok. congruence.
Qed.

Lemma linked_close rid r q q' :
  ress !! rid = Some r → seqs !! request_id r = Some q → idle_ok bs q' →
  linked bs mx (<[request_id r := q']> seqs) (delete rid ress) next.
Proof.
  intros Hr Hq Hq'.
  destruct (lk_res _ _ _ _ _ L _ _ Hr) as (_ & q1 & Hq1 & Hok). rewrite Hq in Hq1. simplify_eq.
  split.
  - intros id0 q0. rewrite lookup_insert. case_decide; subst; [intros [= <-]; by left|].
    intros H0. destruct (lk_seq _ _ _ _ _ L _ _ H0) as [?|(rid0 & r0 & ? & Hr0 & ?)]; [by left|].
    right. exists rid0, r0. rewrite lookup_delete_ne; [done|]. intros <-. congruence.
  - intros rid0 r0. rewrite lookup_delete_Some. intros [Hne H0].
    destruct (lk_res _ _ _ _ _ L _ _ H0) as (? & q0 & Hq0 & Hok0). split; [done|].
    exists q0. rewrite lookup_insert_ne; [done|]. intros Heq. rewrite Heq, Hq0 in Hq.
    destruct Hok, Hok0. congruence.
Qed.

Lemma linked_extend rid r r' q q' :
  ress !! rid = Some r → seqs !! request_id r = Some q → request_id r' = request_id r →
  res_ok bs mx rid r' q' →
  linked bs mx (<[request_id r := q']> seqs) (<[rid := r']> ress) next.
Proof.
  intros Hr Hq Hid Hok'.
  destruct (lk_res _ _ _ _ _ L _ _ Hr) as (Hlt & q1 & Hq1 & Hok). rewrite Hq in Hq1. simplify_eq.
  split.
  - intros id0 q0. rewrite lookup_insert. case_decide; subst.
    + intros [= <-]. right. exists rid, r'. rewrite lookup_insert_eq. by destruct Hok'.
    + intros H0. destruct (lk_seq _ _ _ _ _ L _ _ H0) as [?|(rid0 & r0 & ? & Hr0 & ?)]; [by left|].
      right. exists rid0, r0. rewrite lookup_insert_ne; [done|]. intros <-. congruence.
  - intros rid0 r0. rewrite lookup_insert. case_decide; subst.
    + intros [= <-]. split; [done|]. exists q'. by rewrite Hid, lookup_insert_eq.
    + intros H0. destruct (lk_res _ _ _ _ _ L _ _ H0) as (? & q0 & Hq0 & Hok0). split; [done|].
      exists q0. rewrite lookup_insert_ne; [done|]. intros Heq. rewrite Heq, Hq0 in Hq.
      destruct Hok, Hok0. congruence.
Qed.

Lemma linked_create id q :
  seqs !! id = None → idle_ok bs q → linked bs mx (<[id := q]> seqs) ress next.
Proof.
  intros Hn Hq. split.
  - intros id0 q0. rewrite lookup_insert. case_decide; subst; [intros [= <-]; by left|].
    apply (lk_seq _ _ _ _ _ L).
  - intros rid r H0. destruct (lk_res _ _ _ _ _ L _ _ H0) as (? & q0 & ? & ?). split; [done|].
    exists q0. rewrite lookup_insert_ne; [done|]. congruence.
Qed.

Lemma linked_touch id q q' :
  seqs !! id = Some q → committed_tokens q' = committed_tokens q → pages q' = pages q →
  pending q' = pending q → linked bs mx (<[id := q']> seqs) ress next.
Proof.
  intros Hq Hc Hpg Hpd. split.
  - intros id0 q0. rewrite lookup_insert. case_decide; subst; [|apply (lk_seq _ _ _ _ _ L)].
    intros [= <-]. unfold idle_ok. rewrite Hc, Hpg, Hpd. by apply (lk_seq _ _ _ _ _ L).
  - intros rid r H0. destruct (lk_res _ _ _ _ _ L _ _ H0) as (? & q0 & Hq0 & ?). split; [done|].
    rewrite lookup_insert. case_decide; subst; [|by exists q0].
    exists q'. split; [done|]. rewrite Hq0 in Hq. simplify_eq. unfold res_ok.
    by rewrite Hc, Hpg, Hpd.
Qed.

Lemma linked_remove id q :
  seqs !! id = Some q → pending q = None → linked bs mx (delete id seqs) ress next.
Proof.
  intros Hq Hp. split.
  - intros id0 q0 [_ H0]%lookup_delete_Some. by apply (lk_seq _ _ _ _ _ L).
  - intros rid r H0. destruct (lk_res _ _ _ _ _ L _ _ H0) as (? & q0 & Hq0 & Hok). split; [done|].
    exists q0. rewrite lookup_delete_ne; [done|]. intros Heq. rewrite Heq, Hq0 in Hq.
    destruct Hok. congruence.
Qed.
End Linked.

(** ** The manager invariant *)

(** Pages past the committed full blocks of a sequence are its own. *)
Definition tail_ok (m : PagedKvCacheManager) (q : SequenceState) : Prop :=
  ∀ i p, committed_tokens q / block_size (config m) ≤ i → pages q !! i = Some p → exclusive m p.

Record book_wf (m : PagedKvCacheManager) : Prop := {
  bw_bs : 0 < block_size (config m);
  bw_max : (N.of_nat (max_sequence_length (config m)) ≤ usize_max)%N;
  bw_tail : ∀ id q, sequences m !! id = Some q → tail_ok m q;
  bw_link : linked (block_size (config m)) (max_sequence_length (config m))
    (sequences m) (reservations m) (next_reservation m)
}.

Definition kv_wf_ex (ex : list N) (m : PagedKvCacheManager) : Prop := pool_wf ex m ∧ book_wf m.
Definition kv_wf (m : PagedKvCacheManager) : Prop := kv_wf_ex [] m.

(** Equal page data, possibly different sequences and reservations. *)
Definition same_pool (m m' : PagedKvCacheManager) : Prop :=
  config m' = config m ∧ page_refs m' = page_refs m ∧ page_blocks m' = page_blocks m ∧
  free_pages m' = free_pages m ∧ block_index m' = block_index m ∧ evictable m' = evictable m ∧
  next_tick m' = next_tick m.

Lemma same_pool_exclusive m m' p : same_pool m m' → exclusive m p → exclusive m' p.
Proof. intros (_ & Hr & Hb & _) [H1 H2]. unfold exclusive, rf, bl in *. by rewrite Hr, Hb. Qed.

Lemma same_pool_wf ex ex' m m' :
  pool_wf ex m → same_pool m m' →
  held (sequences m') ++ ex' ≡ₚ held (sequences m) ++ ex → pool_wf ex' m'.
Proof.
  intros [] (Hc & Hr & Hb & Hf & Hi & He & Hn) Hp.
  split; unfold rf, bl in *; rewrite ?Hc, ?Hr, ?Hb, ?Hf, ?Hi, ?He, ?Hn; try done.
  - intros p r H. rewrite (occ_perm p _ _ Hp). auto.
  - intros p. rewrite Hp. auto.
Qed.

(** Replace the sequence of [id], moving pages between it and local variables. *)
Lemma kv_put ex ex' m m' id q q' :
  pool_wf ex m → book_wf m → sequences m !! id = Some q →
  same_pool m m' → sequences m' = <[id := q']> (sequences m) →
  pages q' ++ ex' ≡ₚ pages q ++ ex → tail_ok m q' →
  linked (block_size (config m)) (max_sequence_length (config m))
    (sequences m') (reservations m') (next_reservation m') →
  kv_wf_ex ex' m'.
Proof.
  intros Hwf Hb Hq Hsp Hs Hperm Ht Hl. destruct Hsp as (Hc & Hsp'). split.
  - eapply same_pool_wf; [done|by split|]. rewrite Hs, (held_insert _ _ _ q' Hq).
    rewrite (held_delete _ _ _ Hq). rewrite (Permutation_app_comm (pages q')).
    rewrite <- !app_assoc, Hperm, !app_assoc. f_equiv. apply Permutation_app_comm.
  - destruct Hb. split; rewrite ?Hc; try done.
    intros id0 q0 H0 i p Hi Hp. eapply same_pool_exclusive; [by split|].
    rewrite Hc in Hi. rewrite Hs, lookup_insert in H0. case_decide; simplify_eq.
    + by eapply Ht.
    + by eapply bw_tail0.
Qed.

(** A page primitive keeps the bookkeeping. *)
Lemma book_frame m m' :
  book_wf m → same_book m m' →
  (∀ id q p, sequences m !! id = Some q → p ∈ pages q → exclusive m p → exclusive m' p) →
  book_wf m'.
Proof.
  intros [] (Hc & Hs & Hr & Hn & _) He. split; rewrite ?Hc, ?Hs, ?Hr, ?Hn; try done.
  intros id q Hq i p Hi Hp. rewrite Hc in Hi. eapply He; [done| |by eapply bw_tail0].
  by eapply list_elem_of_lookup_2.
Qed.

Lemma allocate_page_wf ex m : kv_wf_ex ex m → 0 < available_pages m →
  wp allocate_page (post (λ p m', kv_wf_ex (p :: ex) m' ∧ same_book m m' ∧ exclusive m' p ∧
      (∀ q, exclusive m q → exclusive m' q) ∧ available_pages m = S (available_pages m'))
    (λ _ _, False)) m.
Proof.
  intros [Hp Hb] Hav. destruct (allocate_page_ok _ _ Hp Hav) as (p & m' & Heq & [] & He & Ha).
  unfold wp. rewrite Heq. simpl. split_and!; try done.
  split; [done|]. eapply book_frame; eauto.
Qed.

Lemma allocate_pages_wf n m : kv_wf m → n ≤ available_pages m →
  wp (mmap (seq 0 n) (λ _, allocate_page)) (post (λ ps m', kv_wf_ex ps m' ∧ same_book m m' ∧
      length ps = n ∧ Forall (exclusive m') ps ∧
      (∀ q, exclusive m q → exclusive m' q))
    (λ _ _, False)) m.
Proof.
  intros Hwf Hn.
  eapply wp_post_mono; [eapply (wp_mmap (λ ps l m', kv_wf_ex ps m' ∧ same_book m m' ∧
    length ps + length l = n ∧ Forall (exclusive m') ps ∧
    (∀ q, exclusive m q → exclusive m' q) ∧ length l ≤ available_pages m'))| |].
  - rewrite length_seq. by split_and!.
  - intros x l ps s (Hs & Hsb & Hlen & Hex & Hmono & Hav). simpl in *.
    eapply wp_post_mono; [apply allocate_page_wf; [done|lia]| |done].
    intros p m' ([Hp Hb] & Hsb' & He & Hmono' & Ha). split_and!.
    + split; [|done]. eapply same_pool_wf; [done|done|]. f_equiv.
      by rewrite Permutation_app_comm.
    + by etrans.
    + rewrite length_app. simpl. lia.
    + apply Forall_app. split; [|by apply Forall_singleton]. eapply Forall_impl; [done|]. auto.
    + auto.
    + lia.
  - intros ps s (Hs & Hsb & Hlen & Hex & Hmono & _). simpl in *. split_and!; auto with lia.
  - done.
Qed.

Lemma release_pages_wf ps ex m : kv_wf_ex (ps ++ ex) m →
  wp (mfor ps release_page) (post (λ _ m', kv_wf_ex ex m' ∧ same_book m m') (λ _ _, False)) m.
Proof.
  intros Hwf.
  eapply wp_post_mono; [eapply (wp_mfor (λ l m', kv_wf_ex (l ++ ex) m' ∧ same_book m m'))| |].
  - done.
  - intros p l s ([Hp Hb] & Hsb).
    eapply wp_post_mono; [by apply release_page_ok| |done].
    intros _ m' []. split; [|by etrans]. split; [done|]. eapply book_frame; [done..|].
    intros id q p' Hq Hin He. apply rl_exclusive; [done|]. intros ->.
    destruct He as [He _]. apply (pw_refs _ _ Hp) in He. simpl in He.
    rewrite occ_app, occ_cons_eq in He.
    assert (0 < occ p (held (sequences s))); [|lia]. apply occ_pos, elem_of_held. eauto.
  - intros [] s. done.
  - done.
Qed.

(** ** Public methods *)

Lemma sequence_wp id m (Q : res PagedKvError SequenceState → PagedKvCacheManager → Prop) :
  (∀ q, sequences m !! id = Some q → Q (Ok q) m) →
  (sequences m !! id = None → ∀ e, Q (Err e) m) →
  wp (sequence id) Q m.
Proof.
  intros H1 H2. unfold sequence. wp_steps. unfold mok_or.
  destruct (sequences m !! id) eqn:E; [apply wp_ret|apply wp_throw]; auto.
Qed.

(** [validate_reservation]: on success the reservation and its sequence fit;
    it never changes the state. *)
Lemma validate_reservation_wp rid m :
  book_wf m →
  wp (validate_reservation rid) (post (λ _ m', m' = m ∧ ∃ r q,
      reservations m !! rid = Some r ∧ sequences m !! request_id r = Some q ∧
      res_ok (block_size (config m)) (max_sequence_length (config m)) rid r q)
    (λ _ m', m' = m ∧ reservations m !! rid = None)) m.
Proof.
  intros Hb. unfold validate_reservation. wp_steps. unfold mok_or.
  destruct (reservations m !! rid) as [r|] eqn:Er; [apply wp_ret|by apply wp_throw].
  destruct (lk_res _ _ _ _ _ (bw_link _ Hb) _ _ Er) as (_ & q & Hq & Hok).
  pose proof Hok as (Hp & Hc & Hpv & Hn & Hm & Hl).
  wp_step. apply sequence_wp; [|congruence]. intros q' Hq'. simplify_eq.
  rewrite decide_False.
  2:{ intros [?|[?|Hlt]]; [done..|]. rewrite Hl, Hpv in Hlt.
      pose proof (div_ceil_mono (start_position r) (start_position r + token_count r) _
        (bw_bs _ Hb)). lia. }
  unfold usize_add. rewrite decide_True; [|pose proof (bw_max _ Hb); lia].
  wp_steps. simpl. eauto 10.
Qed.

(** A group of reservations is accepted exactly when it has no duplicate and
    all of them exist. *)
Definition all_reserved (m : PagedKvCacheManager) (ids : list KvReservationId) : Prop :=
  NoDup ids ∧ ∀ rid, rid ∈ ids → is_Some (reservations m !! rid).

Lemma validate_reservations_wp ids seen m :
  book_wf m →
  wp (validate_reservations_from seen ids) (post (λ _ m', m' = m ∧ all_reserved m ids ∧
      (∀ id, id ∈ ids → id ∉ seen))
    (λ _ m', m' = m ∧ ¬ (all_reserved m ids ∧ ∀ id, id ∈ ids → id ∉ seen))) m.
Proof.
  intros Hb. revert seen. induction ids as [|rid ids IH]; intros seen; simpl.
  - apply wp_ret. simpl. split_and!; [done|split; [constructor|]|]; by intros ? ?%elem_of_nil.
  - case_decide as Hin.
    { apply wp_throw. split; [done|]. intros [_ Hs]. by apply (Hs rid); [left|]. }
    eapply wp_bind_post; [by apply validate_reservation_wp| |].
    + intros [] m' (-> & r & q & Hr & _). eapply wp_post_mono; [apply IH| |].
      * intros [] m' (-> & [Hnd Hres] & Hseen). split_and!; [done|split|].
        -- constructor; [|done]. intros Hi. apply Hseen in Hi. set_solver.
        -- intros id [->|Hi]%elem_of_cons; eauto.
        -- intros id [->|Hi]%elem_of_cons; [done|]. apply Hseen in Hi. set_solver.
      * intros e m' [-> Hno]. split; [done|]. intros [[Hnd Hres] Hseen]. apply Hno.
        apply NoDup_cons in Hnd as [Hni Hnd]. split; [split; [done|]|].
        -- intros id Hi. apply Hres. by right.
        -- intros id Hi. specialize (Hseen id). set_solver.
    + intros e m' [-> Hn]. split; [done|]. intros [[_ Hres] _].
      destruct (Hres rid) as [? ?]; [by left|congruence].
Qed.

Lemma create_sequence_wf id m : kv_wf m →
  wp (create_sequence id) (post (λ _ m', kv_wf m' ∧ sequences m !! id = None ∧
      m' = set_sequences (<[id := mk_sequence 0 [] None 0 CHAIN_ROOT]> (sequences m)) m)
    (λ _ m', m' = m ∧ is_Some (sequences m !! id))) m.
Proof.
  intros [Hp Hb]. unfold create_sequence. wp_steps. case_decide as Hd; [by apply wp_throw|].
  unfold put_sequence. wp_step. simpl.
  assert (sequences m !! id = None) as Hn by (by apply eq_None_not_Some).
  split_and!; try done. split.
  - eapply same_pool_wf; [done|done|]. simpl. by rewrite (held_insert_fresh _ _ _ Hn).
  - destruct Hb. split; simpl; try done.
    + intros id0 q0. rewrite lookup_insert. case_decide; subst; [|apply bw_tail0].
      intros [= <-] i p _. simpl. by rewrite lookup_nil.
    + apply linked_create; [done|done|]. split; [done|]. by apply (eq_sym (div_ceil_mul 0 _ bw_bs0)).
Qed.

Lemma begin_append_wf id n m : kv_wf m →
  wp (begin_append id n) (post (λ a m', kv_wf m' ∧ ∃ q,
      sequences m !! id = Some q ∧ pending q = None ∧ 0 < n ∧
      committed_tokens q + n ≤ max_sequence_length (config m) ∧
      let bs := block_size (config m) in
      let table := pages q ++ ar_newly_allocated_pages a in
      a = mk_append (next_reservation m) id (committed_tokens q) n (committed_tokens q + n)
            (ar_newly_allocated_pages a) table ∧
      length table = div_ceil (committed_tokens q + n) bs ∧
      config m' = config m ∧
      sequences m' = <[id := set_pending (Some (next_reservation m)) (set_pages table q)]>
                       (sequences m) ∧
      reservations m' = <[next_reservation m := mk_reservation id (length (pages q))
                            (committed_tokens q) n]> (reservations m))
    (λ _ m', m' = m)) m.
Proof.
  intros [Hp Hb]. unfold begin_append.
  case_decide as Hn; [by apply wp_throw|].
  wp_step. apply sequence_wp; [|done]. intros q Hq.
  destruct (pending q) eqn:Epend; [by apply wp_throw|].
  wp_steps. unfold mok_or at 1. destruct (usize_add _ _) as [ctx|] eqn:Eadd; [|by apply wp_throw].
  apply usize_add_Some in Eadd as [-> Hfit]. wp_step.
  case_decide as Hmax; [by apply wp_throw|].
  case_decide as Hav; [by apply wp_throw|].
  wp_step. unfold mok_or. destruct (checked_add _ _ _) as [next|] eqn:Enext; [|by apply wp_throw].
  apply checked_add_Some in Enext as [-> _]. wp_step. wp_step. wp_step.
  set (m1 := set_next_reservation _ m).
  set (add := div_ceil _ _ - _) in *.
  assert (idle_ok (block_size (config m)) q) as [_ Hlen].
  { destruct (lk_seq _ _ _ _ _ (bw_link _ Hb) _ _ Hq) as [?|(? & ? & ? & _)]; [done|congruence]. }
  pose proof (div_ceil_mono (committed_tokens q) (committed_tokens q + n) _ (bw_bs _ Hb)
    ltac:(lia)) as Hmono.
  assert (kv_wf m1) as Hwf1.
  { split; [by eapply same_pool_wf|]. destruct Hb as [? ? ? []]. split; try done. simpl.
    split; [done|]. intros rid r Hr. destruct (lk_res0 _ _ Hr). split; [lia|done]. }
  eapply wp_bind_post; [apply allocate_pages_wf; [done|]| |done].
  { unfold available_pages in *. simpl. lia. }
  intros fresh m2 ([Hp2 Hb2] & (Hc & Hs & Hr & Hnr & _) & Hlf & Hex & Hmx). simpl in *.
  wp_step. wp_step. wp_step. rewrite Hs, Hq. simpl. unfold put_sequence. wp_steps. simpl.
  assert (length (pages q ++ fresh) = div_ceil (committed_tokens q + n) (block_size (config m)))
    as Hlt by (rewrite length_app, Hlf; unfold add; lia).
  rewrite Hs, Hr. split; [|exists q; split_and!; try done; lia].
  eapply (kv_put _ _ m2 _ id q (set_pending (Some (next_reservation m)) (set_pages (pages q ++ fresh) q)));
    try done; simpl; rewrite ?Hs; try done.
  - by rewrite app_nil_r.
  - intros i p Hi. simpl. rewrite lookup_app. destruct (pages q !! i) eqn:Ei.
    + intros [= <-]. eapply (bw_tail _ Hb2 id q); [by rewrite Hs| |done]. done.
    + intros Hf. rewrite Forall_forall in Hex. apply Hex. by eapply list_elem_of_lookup_2.
  - rewrite Hc, Hnr. simpl.
    eapply (linked_open _ _ _ _ _ (bw_link _ Hb)); [done..|]. split_and!; simpl; try done; lia.
Qed.

(** ** Closing a reservation

    Committing a prefix of [n] tokens (all of them, or none for a cancellation)
    truncates the page list to what the sequence needs. *)
Definition close_seq (bs c : nat) (q : SequenceState) : SequenceState :=
  mk_sequence c (take (div_ceil c bs) (pages q)) None (registered_blocks q) (chain_hash q).

Record closes (rid : N) (n : nat) (pos : nat) (m m' : PagedKvCacheManager) : Prop := {
  cl_config : config m' = config m;
  cl_next : next_reservation m' = next_reservation m;
  cl_caching : prefix_caching m' = prefix_caching m;
  cl_reused : reused_tokens m' = reused_tokens m;
  cl_effect : ∃ r q, reservations m !! rid = Some r ∧ sequences m !! request_id r = Some q ∧
    pos = start_position r + n ∧ n ≤ token_count r ∧
    reservations m' = delete rid (reservations m) ∧
    sequences m' = <[request_id r := close_seq (block_size (config m)) pos q]> (sequences m)
}.

Lemma closes_frame rid n pos m m' m'' :
  closes rid n pos m m' → same_book m' m'' → closes rid n pos m m''.
Proof.
  intros [? ? ? ? (r & q & ?)] (Hc & Hs & Hr & Hn & Hp & Hu).
  split; [congruence..|]. exists r, q. by rewrite Hs, Hr.
Qed.

(** Closing at [c], with the pages past the new end still to be released. *)
Lemma close_wf m rid r q c :
  kv_wf m → reservations m !! rid = Some r → sequences m !! request_id r = Some q →
  start_position r ≤ c ≤ start_position r + token_count r →
  let bs := block_size (config m) in
  let m' := set_sequences (<[request_id r := close_seq bs c q]> (sequences m))
              (set_reservations (delete rid (reservations m)) m) in
  kv_wf_ex (drop (div_ceil c bs) (pages q)) m' ∧ closes rid (c - start_position r) c m m'.
Proof.
  intros [Hp Hb] Hr Hq Hc bs m'.
  destruct (lk_res _ _ _ _ _ (bw_link _ Hb) _ _ Hr) as (_ & q1 & Hq1 & Hok).
  rewrite Hq in Hq1. simplify_eq. destruct Hok as (Hpd & Hcm & Hpv & Hn & Hm & Hl).
  split.
  - eapply (kv_put _ _ m _ _ q1); try done; simpl.
    + by rewrite take_drop, app_nil_r.
    + intros i p Hi Hpi. simpl in *. apply lookup_take_Some in Hpi as [Hpi _].
      eapply (bw_tail _ Hb); [done| |done]. rewrite Hcm. etrans; [|exact Hi].
      apply Nat.Div0.div_le_mono. lia.
    + eapply linked_close; [by apply (bw_link _ Hb)|done..|]. split; [done|]. simpl.
      rewrite length_take, Hl. apply Nat.min_l. apply div_ceil_mono; [by apply (bw_bs _ Hb)|lia].
  - split; simpl; try done. exists r, q1. split_and!; try done; lia.
Qed.

Lemma released_close rid n pos m m1 ps :
  kv_wf_ex ps m1 → closes rid n pos m m1 →
  wp (mfor ps release_page) (post (λ _ m', kv_wf m' ∧ closes rid n pos m m') (λ _ _, False)) m1.
Proof.
  intros Hwf Hcl. eapply wp_post_mono; [apply release_pages_wf; by rewrite app_nil_r| |done].
  intros [] m' [? ?]. split; [done|]. by eapply closes_frame.
Qed.

Lemma close_seq_pages bs c q : length (pages q) = div_ceil c bs → pages (close_seq bs c q) = pages q.
Proof. intros Hl. unfold close_seq. simpl. by rewrite <- Hl, firstn_all. Qed.

(** The conditional [split_off] of [commit_append_partial]. *)
Lemma truncate_take {A} n (l : list A) : (if decide (n < length l) then take n l else l) = take n l.
Proof. case_decide; [done|]. by rewrite take_ge by lia. Qed.
Lemma truncate_drop {A} n (l : list A) : (if decide (n < length l) then drop n l else []) = drop n l.
Proof. case_decide; [done|]. by rewrite drop_ge by lia. Qed.

Lemma commit_append_wf rid m : kv_wf m →
  wp (commit_append rid) (post (λ pos m', kv_wf m' ∧ ∃ r, reservations m !! rid = Some r ∧
      closes rid (token_count r) pos m m' ∧
      m' = set_sequences (sequences m') (set_reservations (reservations m') m))
    (λ _ m', m' = m ∧ reservations m !! rid = None)) m.
Proof.
  intros Hwf. pose proof Hwf as [Hp Hb]. unfold commit_append.
  eapply wp_bind_post; [by apply validate_reservation_wp| |done].
  intros [] m' (-> & r & q & Hr & Hq & Hok). pose proof Hok as (Hpd & Hcm & Hpv & Hn & Hm & Hl).
  unfold take_reservation. wp_steps. rewrite Hr. simpl. wp_steps. simpl. rewrite Hq. simpl. wp_step.
  rewrite decide_False by (intros Hx; by apply Hx). unfold usize_add.
  rewrite decide_True by (pose proof (bw_max _ Hb); lia). simpl. wp_steps.
  unfold put_sequence. wp_steps. simpl.
  destruct (close_wf m rid r q (start_position r + token_count r)) as [Hw Hcl]; [done..|lia|].
  rewrite <- Hl, drop_all in Hw. unfold close_seq in Hw, Hcl. rewrite <- Hl, firstn_all in Hw, Hcl.
  unfold set_pending, set_committed. simpl. split; [exact Hw|].
  exists r. split; [done|]. split; [|done].
  by replace (start_position r + token_count r - start_position r) with (token_count r) in Hcl by lia.
Qed.

Lemma cancel_append_wf rid m : kv_wf m →
  wp (cancel_append rid) (post (λ _ m', kv_wf m' ∧ ∃ r, reservations m !! rid = Some r ∧
      closes rid 0 (start_position r) m m')
    (λ _ m', m' = m ∧ reservations m !! rid = None)) m.
Proof.
  intros Hwf. pose proof Hwf as [Hp Hb]. unfold cancel_append.
  eapply wp_bind_post; [by apply validate_reservation_wp| |done].
  intros [] m' (-> & r & q & Hr & Hq & Hok). pose proof Hok as (Hpd & Hcm & Hpv & Hn & Hm & Hl).
  unfold take_reservation. wp_steps. rewrite Hr. simpl. wp_steps. simpl. rewrite Hq. simpl. wp_step.
  rewrite decide_False by (intros Hx; by apply Hx). unfold split_off. rewrite decide_True.
  2:{ rewrite Hl, Hpv. apply div_ceil_mono; [by apply (bw_bs _ Hb)|lia]. }
  wp_steps. unfold put_sequence. wp_steps. simpl.
  destruct (close_wf m rid r q (start_position r)) as [Hw Hcl]; [done..|lia|].
  rewrite Nat.sub_diag in Hcl. unfold set_pending, set_pages. simpl. rewrite Hpv.
  unfold close_seq in *. rewrite <- Hcm in *.
  eapply wp_post_mono; [by eapply released_close| |done]. intros _ m' [? ?]. split; [done|].
  exists r. split; [done|]. by rewrite <- Hcm.
Qed.

Lemma commit_append_partial_wf rid n m : kv_wf m →
  wp (commit_append_partial rid n) (post (λ pos m', kv_wf m' ∧ 0 < n ∧ closes rid n pos m m')
    (λ _ m', m' = m ∧ ¬ ∃ r, reservations m !! rid = Some r ∧ 0 < n ≤ token_count r)) m.
Proof.
  intros Hwf. pose proof Hwf as [Hp Hb]. unfold commit_append_partial. wp_steps. unfold mok_or at 1.
  destruct (reservations m !! rid) as [r|] eqn:Er; [|apply wp_throw; naive_solver]. wp_step.
  case_decide as Hn; [apply wp_throw; split; [done|]; intros (r' & Hr' & ?); simplify_eq; lia|].
  destruct (lk_res _ _ _ _ _ (bw_link _ Hb) _ _ Er) as (_ & q & Hq & Hok).
  destruct Hok as (Hpd & Hcm & Hpv & Hn' & Hm & Hl).
  unfold usize_add. rewrite decide_True by (pose proof (bw_max _ Hb); lia). simpl. wp_steps.
  eapply wp_mono; [by apply commit_append_wf|].
  intros [pos|e|pn] m'; simpl; [|intros [_ ?]; congruence|done].
  intros (Hwf' & r' & Hr' & [Hc ? ? ? (r0 & q0 & ? & ? & ? & ? & Hdel & Hs)] & Heq). simplify_eq.
  wp_steps. rewrite Hs, lookup_insert_eq. simpl. wp_step. unfold debug_assert.
  rewrite bool_decide_eq_true_2 by lia. wp_step. wp_step. wp_step. unfold put_sequence. wp_step.
  destruct (close_wf m rid r q (start_position r + n)) as [Hw Hcl]; [done..|lia|].
  replace (start_position r + n - start_position r) with n in Hcl by lia.
  rewrite truncate_take, truncate_drop, (close_seq_pages _ _ _ Hl).
  match goal with |- wp _ _ ?s => assert (s = set_sequences
    (<[request_id r := close_seq (block_size (config m)) (start_position r + n) q]> (sequences m))
    (set_reservations (delete rid (reservations m)) m)) as -> end.
  { rewrite Heq at 1 2. simpl. by rewrite Hdel, Hs, insert_insert_eq. }
  eapply wp_bind_post; [by eapply released_close| |done].
  intros [] m'' [? ?]. wp_step. simpl. split_and!; [done|lia|done].
Qed.
