(* ===== verification/PagedKvOps.v ===== *)
(** * Group operations, prefix reuse and removal of the paged KV cache

    The remaining public methods of src/src/paged_kv.rs: atomic groups of
    commits and cancellations, lookahead extension, removal, prefix matching
    and publication, and the prefix-caching switch. *)
From S2P Require Import Prelude PagedKv PagedKvPool PagedKvInv.
Open Scope nat_scope.
Open Scope m_scope.

(** ** Sequences of closings *)
Inductive closes_all : list (N * nat) → list nat → PagedKvCacheManager → PagedKvCacheManager → Prop :=
| closes_nil m : closes_all [] [] m m
| closes_cons rid n pos rows ps m m1 m' :
    closes rid n pos m m1 → closes_all rows ps m1 m' →
    closes_all ((rid, n) :: rows) (pos :: ps) m m'.

Definition row_valid (m : PagedKvCacheManager) (row : N * nat) : Prop :=
  ∃ r, reservations m !! row.1 = Some r ∧ row.2 ≤ token_count r.

Lemma closes_row_valid rid n pos m m' row :
  closes rid n pos m m' → row.1 ≠ rid → row_valid m row → row_valid m' row.
Proof.
  intros [_ _ _ _ (r & q & _ & _ & _ & _ & Hr & _)] Hne (r' & Hr' & Hle).
  exists r'. by rewrite Hr, lookup_delete_ne by done.
Qed.

Section Loops.
Context (body : N * nat → M PagedKvCacheManager PagedKvError nat).
Context (Hbody : ∀ row m, kv_wf m → row_valid m row →
  wp (body row) (post (λ pos m', kv_wf m' ∧ closes row.1 row.2 pos m m') (λ _ _, False)) m).

Lemma closing_loop rows m :
  kv_wf m → NoDup rows.*1 → (∀ row, row ∈ rows → row_valid m row) →
  wp (mmap rows body) (post (λ ps m', kv_wf m' ∧ closes_all rows ps m m') (λ _ _, False)) m.
Proof.
  revert m. induction rows as [|[rid n] rows IH]; intros m Hwf Hnd Hv; simpl.
  - apply wp_ret. split; [done|constructor].
  - apply NoDup_cons in Hnd as [Hni Hnd].
    eapply wp_bind_post; [apply Hbody; [done|apply Hv; by left]| |done].
    intros pos m1 [Hwf1 Hcl]. simpl in *.
    eapply wp_bind_post; [apply IH; [done..|]| |done].
    + intros row Hrow. eapply closes_row_valid; [done| |apply Hv; by right].
      intros Heq. apply Hni. rewrite <- Heq. by apply list_elem_of_fmap_2.
    + intros ps m' [Hwf' Hall]. apply wp_ret. split; [done|]. by econstructor.
Qed.
End Loops.

(** What a sequence of closings does to the bookkeeping. *)
Lemma closes_all_frame rows ps m m' :
  closes_all rows ps m m' →
  config m' = config m ∧ next_reservation m' = next_reservation m ∧
  prefix_caching m' = prefix_caching m ∧ reused_tokens m' = reused_tokens m.
Proof.
  induction 1 as [|rid n pos rows ps m m1 m' [] _ IH]; [done|].
  destruct IH as (-> & -> & -> & ->). done.
Qed.

Lemma closes_all_reservations rows ps m m' rid :
  closes_all rows ps m m' →
  reservations m' !! rid = if decide (rid ∈ rows.*1) then None else reservations m !! rid.
Proof.
  induction 1 as [|rid0 n pos rows ps m m1 m' Hc _ IH].
  - rewrite decide_False; [done|]. by intros ?%elem_of_nil.
  - rewrite IH. destruct Hc as [_ _ _ _ (r & q & _ & _ & _ & _ & -> & _)].
    destruct (decide (rid ∈ rows.*1)).
    + rewrite decide_True; [done|]. by right.
    + rewrite lookup_delete. case_decide; subst.
      * rewrite decide_True; [done|]. by left.
      * rewrite decide_False; [done|]. simpl. rewrite elem_of_cons. naive_solver.
Qed.

Lemma closes_all_others rows ps m m' id :
  closes_all rows ps m m' →
  (∀ rid r, rid ∈ rows.*1 → reservations m !! rid = Some r → request_id r ≠ id) →
  sequences m' !! id = sequences m !! id.
Proof.
  induction 1 as [|rid0 n pos rows ps m m1 m' Hc _ IH]; [done|]. intros Hne.
  destruct Hc as [_ _ _ _ (r & q & Hr & Hq & _ & _ & Hdel & Hs)].
  rewrite IH, Hs.
  - apply lookup_insert_ne. apply (Hne rid0); [by left|done].
  - intros rid r' Hin Hr'. rewrite Hdel, lookup_delete_Some in Hr'.
    apply (Hne rid); [by right|naive_solver].
Qed.

Definition closed_row (m m' : PagedKvCacheManager) (row : N * nat) (pos : nat) : Prop :=
  ∃ r q, reservations m !! row.1 = Some r ∧ sequences m !! request_id r = Some q ∧
    pos = start_position r + row.2 ∧ row.2 ≤ token_count r ∧
    sequences m' !! request_id r = Some (close_seq (block_size (config m)) pos q).

(** Distinct reservations belong to distinct sequences. *)
Lemma reservation_owner_inj m rid rid' r r' :
  book_wf m → reservations m !! rid = Some r → reservations m !! rid' = Some r' →
  request_id r = request_id r' → rid = rid'.
Proof.
  intros Hb Hr Hr' He.
  destruct (lk_res _ _ _ _ _ (bw_link _ Hb) _ _ Hr) as (_ & q & Hq & Hok).
  destruct (lk_res _ _ _ _ _ (bw_link _ Hb) _ _ Hr') as (_ & q' & Hq' & Hok').
  rewrite He, Hq' in Hq. destruct Hok, Hok'. congruence.
Qed.

Lemma closes_all_rows rows ps m m' :
  book_wf m → NoDup rows.*1 → closes_all rows ps m m' → Forall2 (closed_row m m') rows ps.
Proof.
  intros Hb Hnd Hall.
  assert (∀ rid rid' r r', reservations m !! rid = Some r → reservations m !! rid' = Some r' →
    request_id r = request_id r' → rid = rid') as Hinj by eauto using reservation_owner_inj.
  clear Hb.
  induction Hall as [|rid n pos rows ps m m1 m' Hc Hall IH]; [done|].
  apply NoDup_cons in Hnd as [Hni Hnd].
  destruct Hc as [Hcf _ _ _ (r & q & Hr & Hq & Hpos & Hn & Hdel & Hs)].
  constructor.
  - exists r, q. split_and!; try done. simpl.
    rewrite (closes_all_others _ _ _ _ _ Hall).
    + by rewrite Hs, lookup_insert_eq.
    + intros rid' r' Hin Hr' Heq. rewrite Hdel, lookup_delete_Some in Hr'.
      destruct Hr' as [Hne Hr']. apply Hne. by eapply Hinj.
  - assert (Forall2 (closed_row m1 m') rows ps) as HF.
    { apply IH; [done|]. intros rid1 rid2 r1 r2. rewrite Hdel, !lookup_delete_Some.
      intros [_ ?] [_ ?]. by eapply Hinj. }
    eapply Forall2_impl; [exact HF|]. intros row p (r' & q' & Hr' & Hq' & Hp & Hle & Hs').
    rewrite Hdel, lookup_delete_Some in Hr'. destruct Hr' as [Hne Hr'].
    exists r', q'. rewrite Hcf in Hs'. split_and!; try done.
    rewrite Hs, lookup_insert_ne in Hq'; [done|]. intros Heq. apply Hne. by eapply Hinj.
Qed.

(** ** [commit_append_prefixes] *)
Lemma commit_prefix_row_wf row m : kv_wf m → row_valid m row →
  wp (commit_prefix_row row)
    (post (λ pos m', kv_wf m' ∧ closes row.1 row.2 pos m m') (λ _ _, False)) m.
Proof.
  intros Hwf (r & Hr & Hle). pose proof Hwf as [Hp Hb].
  destruct (lk_res _ _ _ _ _ (bw_link _ Hb) _ _ Hr) as (_ & q & Hq & Hok).
  destruct Hok as (Hpd & Hcm & Hpv & Hn' & Hm & Hl).
  unfold commit_prefix_row. wp_steps. rewrite Hr. simpl. wp_steps. simpl. rewrite Hq. simpl. wp_steps.
  unfold usize_add. rewrite decide_True by (pose proof (bw_max _ Hb); lia). simpl. wp_steps.
  unfold split_off. rewrite decide_True.
  2:{ rewrite Hl. apply div_ceil_mono; [by apply (bw_bs _ Hb)|lia]. }
  wp_steps. unfold put_sequence. wp_steps. unfold set_pending, set_committed, set_pages. simpl.
  destruct (close_wf m row.1 r q (start_position r + row.2)) as [Hw Hcl]; [done..|lia|].
  replace (start_position r + row.2 - start_position r) with row.2 in Hcl by lia.
  eapply wp_mono; [by eapply released_close|]. intros [[]|e|p] m'; simpl; [|done..].
  intros ?. by apply wp_ret.
Qed.

Lemma check_prefix_rows_wp rows m :
  (∀ row, row ∈ rows → is_Some (reservations m !! row.1)) →
  wp (mfor rows check_prefix_row) (post (λ _ m', m' = m ∧
      ∀ row, row ∈ rows → 0 < row.2 ∧ row_valid m row)
    (λ _ m', m' = m ∧ ¬ ∀ row, row ∈ rows → 0 < row.2 ∧ row_valid m row)) m.
Proof.
  induction rows as [|row rows IH]; intros Hr; simpl.
  - apply wp_ret. split; [done|]. by intros ? ?%elem_of_nil.
  - destruct (Hr row) as [r Hrow]; [by left|].
    eapply (wp_bind_post _ _ (λ _ m', m' = m ∧ 0 < row.2 ∧ row_valid m row)
      (λ _ m', m' = m ∧ ¬ (0 < row.2 ∧ row_valid m row))).
    + unfold check_prefix_row. case_decide; [apply wp_throw; split; [done|lia]|].
      wp_steps. rewrite Hrow. simpl. wp_step. case_decide.
      * apply wp_throw. split; [done|]. intros (_ & r' & Hr' & ?). simplify_eq. lia.
      * apply wp_ret. split_and!; [done|lia|]. exists r. split; [done|lia].
    + intros [] m' (-> & Hpos & Hv). eapply wp_post_mono; [apply IH| |].
      * intros row' Hin. apply Hr. by right.
      * intros [] m' [-> Hall]. split; [done|]. intros row' [->|Hin]%elem_of_cons; auto.
      * intros e m' [-> Hno]. split; [done|]. intros Hall. apply Hno. intros row' Hin.
        apply Hall. by right.
    + intros e m' [-> Hno]. split; [done|]. intros Hall. apply Hno. apply Hall. by left.
Qed.

Lemma commit_append_prefixes_wf rows m : kv_wf m →
  wp (commit_append_prefixes rows) (post (λ ps m', kv_wf m' ∧ NoDup rows.*1 ∧
      (∀ row, row ∈ rows → 0 < row.2) ∧ closes_all rows ps m m')
    (λ _ m', m' = m ∧ ¬ (NoDup rows.*1 ∧ ∀ row, row ∈ rows → 0 < row.2 ∧ row_valid m row))) m.
Proof.
  intros Hwf. unfold commit_append_prefixes, validate_reservations.
  eapply wp_bind_post; [by apply validate_reservations_wp; destruct Hwf| |].
  2:{ intros e m' [-> Hno]. split; [done|]. intros [Hnd Hv]. apply Hno.
      split; [|set_solver]. split; [done|].
      intros rid (row & -> & Hin)%list_elem_of_fmap. destruct (Hv row Hin) as (_ & r & Hr & _). eauto. }
  intros [] m' (-> & [Hnd Hres] & _).
  eapply wp_bind_post; [apply check_prefix_rows_wp| |].
  { intros row Hin. apply Hres. by apply list_elem_of_fmap_2. }
  2:{ intros e m' [-> Hno]. split; [done|]. by intros [_ Hv]. }
  intros [] m' (-> & Hrows).
  eapply wp_post_mono; [apply closing_loop; [by apply commit_prefix_row_wf|done..|]| |done].
  - intros row Hin. by apply Hrows.
  - intros ps m' [? ?]. split_and!; try done. intros row Hin. by apply Hrows.
Qed.

(** ** [commit_appends] and [cancel_appends] *)
Lemma expect_ok_wp {A} (m : M PagedKvCacheManager PagedKvError A) QOk (QErr : PagedKvError → _ → Prop) s :
  wp m (post QOk QErr) s → (∀ e s', ¬ QErr e s') →
  wp (expect_ok m) (post QOk (λ _ _, False)) s.
Proof.
  unfold wp, expect_ok. destruct (m s) as [[a|e|p] s']; simpl; try done. intros H Hn. by apply Hn in H.
Qed.

Definition full_rows (m : PagedKvCacheManager) (rows : list (N * nat)) : Prop :=
  ∀ row r, row ∈ rows → reservations m !! row.1 = Some r → row.2 = token_count r.

Lemma commit_appends_wf ids m : kv_wf m →
  wp (commit_appends ids) (post (λ ps m', kv_wf m' ∧ NoDup ids ∧ ∃ rows,
      rows.*1 = ids ∧ full_rows m rows ∧ closes_all rows ps m m')
    (λ _ m', m' = m)) m.
Proof.
  intros Hwf. unfold commit_appends, validate_reservations.
  eapply wp_bind_post; [by apply validate_reservations_wp; destruct Hwf| |by intros ?? [-> _]].
  intros [] m' (-> & [Hnd Hres] & _).
  eapply (wp_post_mono _ (λ ps m', kv_wf m' ∧ ∃ rows, rows.*1 = ids ∧ full_rows m rows ∧
    closes_all rows ps m m') (λ _ _, False)); [|naive_solver|done].
  revert m Hwf Hres. induction ids as [|rid ids IH]; intros m Hwf Hres; simpl.
  - apply wp_ret. split; [done|]. exists []. split_and!; [done| |constructor].
    by intros ? ? ?%elem_of_nil.
  - apply NoDup_cons in Hnd as [Hni Hnd]. destruct (Hres rid) as [r0 Hr0]; [by left|].
    eapply wp_bind_post; [eapply expect_ok_wp; [by apply commit_append_wf|]| |done].
    { intros e s' [-> ?]. congruence. }
    intros pos m1 (Hwf1 & r & Hr & Hcl & _).
    assert (reservations m1 = delete rid (reservations m)) as Hdel
      by (by destruct Hcl as [_ _ _ _ (? & ? & _ & _ & _ & _ & ? & _)]).
    eapply wp_bind_post; [apply IH; [done..|]| |done].
    + intros rid' Hin. rewrite Hdel, lookup_delete_ne by set_solver. apply Hres. by right.
    + intros ps m' (Hwf' & rows & <- & Hfull & Hall). apply wp_ret. split; [done|].
      exists ((rid, token_count r) :: rows). split_and!; [done| |by econstructor].
      intros row r' [->|Hin]%elem_of_cons Hr'; simpl in *; [congruence|].
      apply (Hfull row); [done|]. rewrite Hdel. rewrite lookup_delete_ne; [done|].
      intros ->. apply Hni. by apply list_elem_of_fmap_2.
Qed.

Lemma cancel_appends_wf ids m : kv_wf m →
  wp (cancel_appends ids) (post (λ _ m', kv_wf m' ∧ NoDup ids ∧ ∃ ps,
      closes_all (map (λ id, (id, 0)) ids) ps m m')
    (λ _ m', m' = m ∧ ¬ all_reserved m ids)) m.
Proof.
  intros Hwf. unfold cancel_appends, validate_reservations.
  eapply wp_bind_post; [by apply validate_reservations_wp; destruct Hwf| |].
  2:{ intros e m' [-> Hno]. split; [done|]. intros Ha. apply Hno. split; [done|set_solver]. }
  intros [] m' (-> & [Hnd Hres] & _).
  eapply (wp_post_mono _ (λ _ m', kv_wf m' ∧ ∃ ps,
    closes_all (map (λ id, (id, 0)) ids) ps m m') (λ _ _, False)); [|naive_solver|done].
  revert m Hwf Hres. induction ids as [|rid ids IH]; intros m Hwf Hres; simpl.
  - apply wp_ret. split; [done|]. exists []. constructor.
  - apply NoDup_cons in Hnd as [Hni Hnd]. destruct (Hres rid) as [r0 Hr0]; [by left|].
    eapply wp_bind_post; [eapply expect_ok_wp; [by apply cancel_append_wf|]| |done].
    { intros e s' [-> ?]. congruence. }
    intros [] m1 (Hwf1 & r & Hr & Hcl).
    assert (reservations m1 = delete rid (reservations m)) as Hdel
      by (by destruct Hcl as [_ _ _ _ (? & ? & _ & _ & _ & _ & ? & _)]).
    eapply wp_post_mono; [apply IH; [done..|]| |done].
    + intros rid' Hin. rewrite Hdel, lookup_delete_ne by set_solver. apply Hres. by right.
    + intros [] m' (Hwf' & ps & Hall). split; [done|].
      exists (start_position r :: ps). by econstructor.
Qed.

(** Cancelling puts every sequence back exactly as it was before the append. *)
Lemma cancel_appends_kind ids ps m m' :
  closes_all (map (λ id, (id, 0)) ids) ps m m' → (map (λ id, (id, 0)) ids).*1 = ids.
Proof. intros _. rewrite <- list_fmap_compose. by apply list_fmap_id. Qed.

(** ** [extend_append] *)
Lemma extend_append_wf rid extra m : kv_wf m →
  wp (extend_append rid extra) (post (λ a m', kv_wf m' ∧ ∃ r q,
      reservations m !! rid = Some r ∧ sequences m !! request_id r = Some q ∧
      let count := token_count r + extra in
      let table := pages q ++ ar_newly_allocated_pages a in
      a = mk_append rid (request_id r) (start_position r) count (start_position r + count)
            (ar_newly_allocated_pages a) table ∧
      start_position r + count ≤ max_sequence_length (config m) ∧
      length table = div_ceil (start_position r + count) (block_size (config m)) ∧
      config m' = config m ∧ next_reservation m' = next_reservation m ∧
      sequences m' = <[request_id r := set_pages table q]> (sequences m) ∧
      reservations m' = <[rid := mk_reservation (request_id r) (previous_page_count r)
                                   (start_position r) count]> (reservations m))
    (λ _ m', m' = m)) m.
Proof.
  intros Hwf. pose proof Hwf as [Hp Hb]. unfold extend_append.
  eapply wp_bind_post; [by apply validate_reservation_wp| |by intros ?? [-> _]].
  intros [] m' (-> & r & q & Hr & Hq & Hok). pose proof Hok as (Hpd & Hcm & Hpv & Hn & Hm & Hl).
  wp_steps. rewrite Hr. simpl. wp_steps.
  destruct (usize_add (token_count r) extra) as [count|] eqn:Ec; [|by apply wp_throw].
  apply usize_add_Some in Ec as [-> _]. simpl. wp_steps.
  destruct (usize_add (start_position r) _) as [ending|] eqn:Ee; [|by apply wp_throw].
  apply usize_add_Some in Ee as [-> _]. simpl. wp_steps.
  case_decide as Hmax; [by apply wp_throw|]. rewrite Hq. simpl. wp_steps.
  case_decide as Hav; [by apply wp_throw|].
  set (count := token_count r + extra) in *. set (add := div_ceil _ _ - _) in *.
  pose proof (div_ceil_mono (start_position r + token_count r) (start_position r + count) _
    (bw_bs _ Hb) ltac:(lia)) as Hmono.
  eapply wp_bind_post; [apply allocate_pages_wf; [done|lia]| |done].
  intros fresh m2 ([Hp2 Hb2] & (Hc & Hs & Hrs & Hnr & _) & Hlf & Hex & Hmx).
  wp_step. wp_step. wp_step. rewrite Hs, Hq. simpl. unfold put_sequence. wp_steps. simpl.
  rewrite Hrs, Hr. simpl. wp_steps. simpl.
  assert (length (pages q ++ fresh) = div_ceil (start_position r + count) (block_size (config m)))
    as Hlt by (rewrite length_app, Hlf; unfold add; lia).
  rewrite Hs, Hrs. split; [|exists r, q; split_and!; try done; lia].
  eapply (kv_put _ _ m2 _ (request_id r) q (set_pages (pages q ++ fresh) q));
    try done; simpl; rewrite ?Hs; try done.
  - by rewrite app_nil_r.
  - intros i p Hi. simpl. rewrite lookup_app. destruct (pages q !! i) eqn:Ei.
    + intros [= <-]. eapply (bw_tail _ Hb2 _ q); [by rewrite Hs| |done]. done.
    + intros Hf. rewrite Forall_forall in Hex. apply Hex. by eapply list_elem_of_lookup_2.
  - rewrite Hc, Hnr. eapply (linked_extend _ _ _ _ _ (bw_link _ Hb)); [done..|].
    split_and!; simpl; try done; lia.
Qed.

(** ** [remove_sequence] *)
Lemma remove_sequence_wf id m : kv_wf m →
  wp (remove_sequence id) (post (λ _ m', kv_wf m' ∧ ∃ q,
      sequences m !! id = Some q ∧ pending q = None ∧
      config m' = config m ∧ sequences m' = delete id (sequences m) ∧
      reservations m' = reservations m ∧ next_reservation m' = next_reservation m ∧
      reused_tokens m' = reused_tokens m)
    (λ _ m', m' = m ∧ ∀ q, sequences m !! id = Some q → pending q ≠ None)) m.
Proof.
  intros [Hp Hb]. unfold remove_sequence. wp_step. apply sequence_wp; [|naive_solver].
  intros q Hq. destruct (pending q) eqn:Epend; [apply wp_throw; naive_solver|].
  wp_steps. rewrite Hq. simpl. wp_steps.
  eapply wp_post_mono; [apply (release_pages_wf _ [])| |done].
  - split.
    + eapply same_pool_wf; [done|done|]. simpl. rewrite !app_nil_r.
      rewrite reverse_Permutation, (held_delete _ _ _ Hq). apply Permutation_app_comm.
    + destruct Hb as [Hbs Hmx Htl Hlk]. split; simpl; try done.
      * intros id0 q0 [_ H0]%lookup_delete_Some. by apply (Htl id0).
      * by eapply linked_remove.
  - intros [] m' (Hwf & Hc & Hs & Hr & Hn & _ & Hu). simpl in *. split; [done|]. exists q.
    by split_and!.
Qed.

(** ** [create_sequence_with_prefix] *)
Section Prefix.
Context `{DefaultHasher}.

(** The longest chain of published blocks that starts [tokens]: what the
    matching loop computes, without its effects. *)
Fixpoint cached_chain (idx : gmap (N * list Z) N) (tokens : list Z) (bs n block : nat)
    (parent : N) : list N * N :=
  match n with
  | O => ([], parent)
  | S n' =>
      let t := take bs (drop (block * bs) tokens) in
      match idx !! (parent, t) with
      | None => ([], parent)
      | Some page =>
          let r := cached_chain idx tokens bs n' (block + 1) (chain parent t) in
          (page :: r.1, r.2)
      end
  end.

Lemma cached_chain_length idx tokens bs n block parent :
  length (cached_chain idx tokens bs n block parent).1 ≤ n.
Proof.
  revert block parent. induction n as [|n IH]; intros block parent; simpl; [lia|].
  case_match; simpl; [|lia]. specialize (IH (block + 1) (chain parent (take bs (drop (block * bs) tokens)))). lia.
Qed.

Lemma slice_block bs block (tokens : list Z) :
  (block + 1) * bs ≤ length tokens →
  slice (block * bs) ((block + 1) * bs) tokens = Some (take bs (drop (block * bs) tokens)).
Proof.
  intros Hl. unfold slice. rewrite decide_True by lia. do 2 f_equal. lia.
Qed.

Lemma match_blocks_wf tokens bs n block parent acc m :
  kv_wf_ex acc m → (block + n) * bs ≤ length tokens →
  let r := cached_chain (block_index m) tokens bs n block parent in
  wp (match_blocks tokens bs n block parent acc)
    (post (λ a m', kv_wf_ex a.1 m' ∧ same_book m m' ∧ a = (acc ++ r.1, r.2)) (λ _ _, False)) m.
Proof.
  revert block parent acc m. induction n as [|n IH]; intros block parent acc m Hwf Hlen; simpl.
  - apply wp_ret. simpl. by rewrite app_nil_r.
  - rewrite slice_block by lia. simpl. wp_steps.
    destruct (block_index m !! _) as [page|] eqn:Ei.
    2:{ apply wp_ret. simpl. by rewrite app_nil_r. }
    destruct Hwf as [Hp Hb].
    eapply wp_bind_post; [by eapply acquire_cached_ok| |done].
    intros [] m1 [[Hp1 Hsb He] Hidx].
    assert (kv_wf_ex (acc ++ [page]) m1) as Hwf1.
    { split; [|eapply book_frame; eauto]. eapply same_pool_wf; [done|done|]. f_equiv.
      by rewrite Permutation_app_comm. }
    eapply wp_post_mono; [apply IH; [done|lia]| |done].
    intros a m' (Hwf' & Hsb' & ->). rewrite Hidx. simpl. rewrite <- app_assoc.
    split_and!; [by rewrite Hidx, <- app_assoc in Hwf'|by etrans|done].
Qed.

(** What the cache holds for a prompt when its sequence is created. *)
Definition reusable (m : PagedKvCacheManager) (tokens : list Z) : list N * N :=
  if decide (prefix_caching m = false ∨ length tokens ≤ 1) then ([], CHAIN_ROOT)
  else
    let bs := block_size (config m) in
    cached_chain (block_index m) tokens bs ((length tokens - 1) / bs) 0 CHAIN_ROOT.

Lemma create_with_prefix_wf id tokens m : kv_wf m →
  wp (create_sequence_with_prefix id tokens) (post (λ matched m', kv_wf m' ∧
      sequences m !! id = None ∧
      matched = length (reusable m tokens).1 * block_size (config m) ∧
      config m' = config m ∧ reservations m' = reservations m ∧
      next_reservation m' = next_reservation m ∧
      sequences m' = <[id := mk_sequence matched (reusable m tokens).1 None
        (length (reusable m tokens).1) (reusable m tokens).2]> (sequences m))
    (λ _ m', m' = m ∧ is_Some (sequences m !! id))) m.
Proof.
  intros Hwf. unfold create_sequence_with_prefix.
  eapply wp_bind_post; [by apply create_sequence_wf| |done].
  intros [] m1 (Hwf1 & Hfresh & Hm1). wp_steps. unfold reusable.
  assert (prefix_caching m1 = prefix_caching m ∧ config m1 = config m ∧
    block_index m1 = block_index m) as (-> & Hc & Hidx) by (by subst m1).
  case_decide as Hd; [by apply wp_ret; subst m1; simpl; split_and!|].
  pose proof (bw_bs _ (proj2 Hwf1)) as Hbs. rewrite Hc in *.
  set (bs := block_size (config m)) in *.
  eapply wp_bind_post; [apply match_blocks_wf; [done|]| |done].
  { simpl. pose proof (Nat.Div0.mul_div_le (length tokens - 1) bs). lia. }
  rewrite Hidx. intros [ps h] m2 ([Hp2 Hb2] & (Hc2 & Hs2 & Hr2 & Hn2 & _) & Heq). simpl in *.
  injection Heq as Hps Hh. rewrite <- Hps, <- Hh in *.
  wp_steps. rewrite Hs2, Hm1. simpl. rewrite lookup_insert_eq. simpl. wp_steps.
  unfold put_sequence. wp_steps.
  destruct (checked_add u64_max _ _) as [total|]; simpl; [|by apply wp_panic]. wp_steps. simpl.
  rewrite Hs2, Hc2, Hr2, Hn2, Hm1. simpl. rewrite insert_insert_eq. split_and!; try done.
  eapply (kv_put _ _ m2); [done|done|by rewrite Hs2, Hm1; simpl; rewrite lookup_insert_eq|done| | | |];
    simpl.
  - by rewrite Hs2, Hm1; simpl; rewrite insert_insert_eq.
  - by rewrite app_nil_r.
  - intros i p Hi Hpi%lookup_lt_Some. simpl in *. rewrite Hc2, Hc in Hi.
    rewrite Nat.div_mul in Hi by (unfold bs in *; lia). lia.
  - rewrite Hc2, Hr2, Hn2, Hc, Hm1. simpl. apply linked_create; [|done|].
    + by destruct Hwf as [_ []].
    + split; [done|]. simpl. by rewrite div_ceil_mul.
Qed.
End Prefix.
