(* ===== verification/PagedKvPrefix.v ===== *)
(** * Publication of full blocks, and the prefix-caching switch

    [register_prefix] and [set_prefix_caching] of src/src/paged_kv.rs. *)
From S2P Require Import Prelude PagedKv PagedKvPool PagedKvInv.
Open Scope nat_scope.
Open Scope m_scope.

(** A page that occurs at two places has two references. *)
Lemma occ_two (p : N) (l : list N) i j :
  i < j → l !! i = Some p → l !! j = Some p → 2 ≤ occ p l.
Proof.
  revert i j. induction l as [|x l IH]; intros i j Hij Hi Hj; [done|].
  destruct j as [|j]; [lia|]. simpl in Hj. destruct i as [|i]; simpl in *.
  - simplify_eq. rewrite decide_True by done.
    assert (0 < occ p l); [|lia]. apply occ_pos. by eapply list_elem_of_lookup_2.
  - assert (2 ≤ occ p l); [|lia]. apply (IH i j); [lia|done..].
Qed.

Lemma exclusive_unique ex m p id q i id' q' i' :
  pool_wf ex m → exclusive m p →
  sequences m !! id = Some q → pages q !! i = Some p →
  sequences m !! id' = Some q' → pages q' !! i' = Some p → id = id' ∧ i = i'.
Proof.
  intros Hp [Hr _] Hq Hi Hq' Hi'. apply (pw_refs _ _ Hp) in Hr. rewrite occ_app in Hr.
  rewrite (held_delete _ _ _ Hq), occ_app in Hr.
  assert (0 < occ p (pages q)) by (apply occ_pos; by eapply list_elem_of_lookup_2).
  destruct (decide (id = id')) as [<-|Hne].
  - simplify_eq. split; [done|]. destruct (Nat.lt_total i i') as [Hlt|[?|Hlt]]; [|done|].
    + pose proof (occ_two _ _ _ _ Hlt Hi Hi'). lia.
    + pose proof (occ_two _ _ _ _ Hlt Hi' Hi). lia.
  - assert (0 < occ p (held (delete id (sequences m)))); [|lia]. apply occ_pos, elem_of_held.
    exists id', q'. rewrite lookup_delete_ne by done. split; [done|].
    by eapply list_elem_of_lookup_2.
Qed.

(** Publishing a held, unpublished page under a fresh key. *)
Definition published (key : N * list Z) (page : N) (m : PagedKvCacheManager) : PagedKvCacheManager :=
  set_page_blocks (<[N.to_nat page := Some (mk_block key None)]> (page_blocks m))
    (set_block_index (<[key := page]> (block_index m)) m).

Lemma publish_update ex m key page r :
  pool_wf ex m → block_index m !! key = None → bl m page = Some None →
  rf m page = Some r → r ≠ 0%N →
  page_update m (published key page m) page r (Some (mk_block key None)).
Proof.
  intros Hp Hk Hb Hr Hr0.
  assert (N.to_nat page < length (page_blocks m)) by (by apply lookup_lt_Some in Hb).
  split; simpl; try done; try lia.
  - by rewrite length_insert.
  - intros q. unfold published, rf. simpl. case_decide; by subst.
  - intros q. by apply (bl_write m page _ q).
  - intros q. case_decide; [subst|done]. rewrite (pw_free _ _ Hp), Hr. naive_solver.
  - intros t q. case_decide; [subst|done]. rewrite (pw_evict _ _ Hp), Hb. naive_solver.
  - intros k q. rewrite lookup_insert. case_decide as Hkey; case_decide as Hq; subst.
    + split; [eauto|done].
    + split; [congruence|]. intros H'. congruence.
    + rewrite (pw_index _ _ Hp), Hb. split; [naive_solver|]. intros [t [= <- _]]. congruence.
    + done.
  - intros b [= <-]. simpl. split; [by intros []|done].
Qed.

Section Prefix.
Context `{DefaultHasher}.

Lemma publish_wf m id q block page key :
  kv_wf m → sequences m !! id = Some q → pages q !! block = Some page →
  block < committed_tokens q / block_size (config m) →
  block_index m !! key = None → bl m page = Some None →
  kv_wf (published key page m).
Proof.
  intros [Hp Hb] Hq Hpg Hlt Hk Hbl.
  destruct (pool_used _ _ Hp page) as (r & b & Hr & Hpos & Hb').
  { apply elem_of_app. left. apply elem_of_held. exists id, q. split; [done|].
    by eapply list_elem_of_lookup_2. }
  assert (page_update m (published key page m) page r (Some (mk_block key None))) as U
    by (eapply publish_update; [done..|lia]).
  split.
  - eapply pool_update; [done|done|by eapply pool_rf_range|].
    intros p. case_decide; subst; [|done]. by rewrite (pw_refs _ _ Hp _ _ Hr).
  - destruct Hb as [Hbs Hmx Htl Hlk]. split; try done.
    intros id' q' Hq' i p Hi Hip. simpl in *.
    assert (exclusive m p) as He by (by eapply Htl).
    eapply update_exclusive; [done..|]. intros ->.
    destruct (exclusive_unique _ _ _ _ _ _ _ _ _ Hp He Hq Hpg Hq' Hip) as [<- <-].
    simplify_eq. lia.
Qed.

Lemma register_blocks_wf tokens id q bs n block parent m :
  kv_wf m → sequences m !! id = Some q → bs = block_size (config m) →
  (0 < n → (block + n) * bs ≤ length tokens ∧ block + n ≤ committed_tokens q / bs) →
  wp (register_blocks tokens bs (pages q) n block parent)
    (post (λ _ m', kv_wf m' ∧ same_book m m') (λ _ _, False)) m.
Proof.
  revert block parent m. induction n as [|n IH]; intros block parent m Hwf Hq Hbs Hc; simpl.
  - by apply wp_ret.
  - destruct Hc as [Hlen Hc]; [lia|].
    unfold slice. rewrite decide_True by nia. simpl. wp_steps.
    set (t := take _ _).
    assert (block < length (pages q)) as Hblk.
    { destruct Hwf as [_ [Hbs' _ _ Hlk]]. rewrite <- Hbs in Hlk, Hbs'. eapply Nat.lt_le_trans with (committed_tokens q / bs); [lia|].
      destruct (lk_seq _ _ _ _ _ Hlk _ _ Hq) as [[_ ->]|(rid & r & Hpd & Hr & <-)].
      - apply div_le_div_ceil.
      - destruct (lk_res _ _ _ _ _ Hlk _ _ Hr) as (_ & q' & Hq' & Hok).
        rewrite Hq' in Hq. injection Hq as ->. destruct Hok as (_ & -> & _ & _ & _ & ->).
        etrans; [apply div_le_div_ceil|]. apply div_ceil_mono; [done|lia]. }
    destruct (lookup_lt_is_Some_2 (pages q) block Hblk) as [page Hpg]. rewrite Hpg. simpl. wp_steps.
    assert (N.to_nat page < num_pages (config m)) as Hrange.
    { destruct Hwf as [Hp _]. apply (pw_range _ _ Hp). apply elem_of_app. left.
      apply elem_of_held. exists id, q. split; [done|]. by eapply list_elem_of_lookup_2. }
    assert (∀ m1, kv_wf m1 → same_book m m1 →
      wp (register_blocks tokens bs (pages q) n (block + 1) (chain parent t))
        (post (λ _ m', kv_wf m' ∧ same_book m m') (λ _ _, False)) m1) as Hrest.
    { intros m1 Hwf1 Hsb. pose proof Hsb as (Hc1 & Hs1 & _).
      eapply wp_post_mono; [apply IH; [done|by rewrite Hs1|by rewrite Hc1|intros ?; lia]| |done].
      intros h m2 [? ?]. split; [done|]. by etrans. }
    case_decide as Hk; [|by apply wp_ret, Hrest].
    destruct (pool_bl_some _ _ (proj1 Hwf) page Hrange) as [ob Hbl].
    wp_step. unfold wp at 1. rewrite (read_block_ok _ _ _ Hbl). simpl.
    case_decide as Ho; [subst ob|by apply wp_ret, Hrest].
    wp_steps. unfold wp at 1.
    rewrite (write_block_ok (set_block_index _ m) _ None) by done. simpl.
    apply Hrest; [|done]. eapply publish_wf; try done. rewrite <- Hbs. lia.
Qed.

Lemma register_prefix_wf id tokens m : kv_wf m →
  wp (register_prefix id tokens) (post (λ _ m', kv_wf m' ∧ config m' = config m ∧
      reservations m' = reservations m ∧ next_reservation m' = next_reservation m ∧
      ∀ id', (λ q, (committed_tokens q, pages q, pending q)) <$> (sequences m' !! id') =
             (λ q, (committed_tokens q, pages q, pending q)) <$> (sequences m !! id'))
    (λ _ m', m' = m ∧ sequences m !! id = None)) m.
Proof.
  intros Hwf. unfold register_prefix. wp_steps.
  destruct (prefix_caching m); [|by apply wp_ret].
  wp_step. apply sequence_wp; [|done]. intros q Hq.
  set (complete := _ / _). set (bs := block_size (config m)) in *.
  pose proof (bw_bs _ (proj2 Hwf)) as Hbs. fold bs in Hbs.
  assert (complete * bs ≤ Nat.min (committed_tokens q) (length tokens)) as Hcb.
  { unfold complete. rewrite Nat.mul_comm. apply Nat.Div0.mul_div_le. }
  assert (complete ≤ committed_tokens q / bs) as Hcd by (apply Nat.Div0.div_le_mono; lia).
  eapply wp_bind_post; [by eapply (register_blocks_wf tokens id q); [..|intros ?; nia]| |done].
  - intros parent m1 (Hwf1 & Hc & Hs & Hr & Hn & _ & _).
    wp_steps. rewrite Hs, Hq. simpl. unfold put_sequence. wp_steps. simpl.
    rewrite Hs, Hc, Hr, Hn. split_and!; try done.
    + destruct Hwf1 as [Hp1 Hb1].
      eapply (kv_put [] [] m1 _ id q (mk_sequence (committed_tokens q) (pages q) (pending q)
        (Nat.max (registered_blocks q) complete) parent)); try done; simpl; rewrite ?Hs; try done.
      * intros i p. simpl. apply (bw_tail _ Hb1 id q). by rewrite Hs.
      * pose proof (bw_link _ Hb1) as Hlk. rewrite Hs in Hlk. by eapply linked_touch.
    + intros id'. rewrite lookup_insert. case_decide; subst; [|done]. by rewrite Hq.
Qed.
End Prefix.

(** ** [set_prefix_caching] *)

(** The pages still to be forgotten are the range of [ev], the part of the
    queue not yet processed. *)
Lemma forget_update ev t p m :
  pool_wf [] (set_evictable ev m) → ev !! t = Some p →
  page_update (set_evictable ev m)
    (set_evictable (delete t ev)
      (set_free_pages ({[p]} ∪ free_pages (dropped p m)) (dropped p m))) p 0 None.
Proof.
  intros Hp Ht. pose proof (proj1 (pw_evict _ _ Hp t p) Ht) as [k Hb].
  assert (rf m p = Some 0%N) as Hr by (by apply (pw_tick _ _ Hp p _ Hb)).
  assert (N.to_nat p < length (page_refs m)) by (by apply lookup_lt_Some in Hr).
  assert (N.to_nat p < length (page_blocks m)) by (by apply lookup_lt_Some in Hb).
  destruct (dropped_fields p m) as (Dc & Ds & Dr & Df & De & Dn & Db & _).
  split; try done; simpl.
  - by rewrite Dr.
  - by rewrite Db, length_insert.
  - intros q. unfold rf at 1. simpl. rewrite Dr. case_decide; by subst.
  - intros q. unfold bl at 1. simpl. rewrite Db. by apply (bl_write m p _ q).
  - intros q. rewrite Df. case_decide; set_solver.
  - intros t' q. rewrite lookup_delete_Some. case_decide; [subst|].
    + split; [|naive_solver]. intros [Hne Hq]. destruct Hne.
      by eapply (pool_evict_inj [] (set_evictable ev m)).
    + split; [naive_solver|]. intros Hq. split; [|done]. intros <-. simpl in *. congruence.
  - intros k' q. rewrite (dropped_index _ _ m _ _ _ _ Hp eq_refl eq_refl Hb).
    case_decide; naive_solver.
  - rewrite Dn. simpl. lia.
Qed.

(** The loop state: [ev] is the unprocessed part of the eviction queue. *)
Record forgetting (m0 : PagedKvCacheManager) (n : nat) (l : list N) (s : PagedKvCacheManager) : Prop := {
  fg_evict : evictable s = ∅;
  fg_book : book_wf s;
  fg_same : same_book m0 s;
  fg_nodup : NoDup l;
  fg_queue : ∃ ev, pool_wf [] (set_evictable ev s) ∧ (∀ p, p ∈ l ↔ ∃ t, ev !! t = Some p) ∧
    size (free_pages s) + size ev = n
}.

Lemma forget_step m0 n p l s :
  forgetting m0 n (p :: l) s →
  wp (drop_cached_block p ;;; mmodify (λ m, set_free_pages ({[p]} ∪ free_pages m) m))
    (post (λ _, forgetting m0 n l) (λ _ _, False)) s.
Proof.
  intros [He Hb Hsb Hnd (ev & Hp & Hl & Hsz)].
  destruct (proj1 (Hl p) ltac:(by left)) as [t Ht].
  pose proof (proj1 (pw_evict _ _ Hp t p) Ht) as [k Hbl].
  assert (rf s p = Some 0%N) as Hr by (by apply (pw_tick _ _ Hp p _ Hbl)).
  apply wp_bind. unfold wp at 1. rewrite (drop_cached_block_ok s p _ Hbl). simpl. wp_step. simpl.
  destruct (dropped_fields p s) as (Dc & Ds & Dr & Df & De & Dn & Db & Dbook).
  pose proof (forget_update ev t p s Hp Ht) as U. apply NoDup_cons in Hnd as [Hni Hnd].
  split; simpl; [by rewrite De| |etrans; [done|exact Dbook]|done|].
  - eapply book_frame; [done|exact Dbook|]. intros id q p' _ _ Hx.
    apply (update_exclusive _ _ _ _ _ p' U Hx). intros ->. destruct Hx. congruence.
  - exists (delete t ev). split_and!.
    + eapply pool_update; [done|exact U|by eapply (pool_rf_range _ _ Hp)|].
      intros q. case_decide; [subst|done]. by rewrite <- (pw_refs _ _ Hp p _ Hr).
    + intros q. split.
      * intros Hq. destruct (proj1 (Hl q) ltac:(by right)) as [t' Ht']. exists t'.
        apply lookup_delete_Some. split; [|done]. intros <-. congruence.
      * intros [t' [Hne Ht']%lookup_delete_Some].
        pose proof (proj2 (Hl q) ltac:(eauto)) as [->|?]%elem_of_cons; [|done].
        destruct Hne. by eapply (pool_evict_inj [] (set_evictable ev s)).
    + rewrite Df, size_union, size_singleton, map_size_delete, Ht.
      * assert (size ev ≠ 0); [|lia]. intros Hz%map_size_empty_inv. by rewrite Hz in Ht.
      * apply disjoint_singleton_l. intros Hin%(pw_free _ _ Hp). destruct Hin as [_ Hin]. congruence.
Qed.

Lemma set_prefix_caching_wf enabled m : kv_wf m →
  wp (set_prefix_caching_enabled enabled) (post (λ _ m', kv_wf m' ∧
      prefix_caching m' = enabled ∧ config m' = config m ∧ sequences m' = sequences m ∧
      reservations m' = reservations m ∧ next_reservation m' = next_reservation m ∧
      (enabled = false → evictable m' = ∅) ∧
      available_pages m' = available_pages m)
    (λ _ _, False)) m.
Proof.
  intros Hwf. unfold set_prefix_caching_enabled. wp_steps. destruct enabled.
  { apply wp_ret. simpl. split_and!; try done. by destruct Hwf as [[] []]; split; split. }
  wp_steps. simpl. destruct Hwf as [Hp Hb].
  set (m0 := set_prefix_caching false m).
  eapply wp_post_mono; [apply (wp_mfor (forgetting m0 (available_pages m)))| |].
  - split; [done|by destruct Hb|done| |].
    + apply NoDup_fmap_2_strong; [|by eapply NoDup_fmap_1, NoDup_btree_keys].
      intros [t p] [t' p'] Hin Hin' Heq. simpl in Heq. subst p'.
      apply elem_of_btree_iter in Hin, Hin'. f_equal. by eapply pool_evict_inj.
    + exists (evictable m). split_and!; [by destruct Hp; split| |done].
      intros p. rewrite list_elem_of_fmap. split.
      * intros ([t p'] & -> & Hin). exists t. by apply elem_of_btree_iter.
      * intros [t Ht]. exists (t, p). split; [done|]. by apply elem_of_btree_iter.
  - intros p l s. apply forget_step.
  - intros [] s [He Hbs (Hc & Hs & Hr & Hn & Hpc & _) _ (ev & Hps & Hl & Hav)].
    assert (ev = ∅) as ->.
    { apply map_empty. intros t. destruct (ev !! t) as [p|] eqn:E; [|done].
      exfalso. assert (p ∈ []) as Hin by (apply Hl; eauto). by apply elem_of_nil in Hin. }
    assert (set_evictable ∅ s = s) as Heq by (destruct s; simpl in *; by subst).
    rewrite Heq in Hps. rewrite map_size_empty in Hav.
    split_and!; try done. unfold available_pages at 1. by rewrite He, map_size_empty.
  - done.
Qed.
