(* ===== verification/PagedKvSpec.v ===== *)
(** * What the paged KV cache manager guarantees

    The public methods of src/src/paged_kv.rs as one step relation, and the
    properties of every state they can reach: safety, conservation of physical
    pages, exclusive ownership of every page an append may write, atomic
    errors, and the functional behaviour of the reserve/commit protocol. *)
From S2P Require Import Prelude PagedKv PagedKvPool PagedKvInv PagedKvOps PagedKvPrefix.
Open Scope nat_scope.
Open Scope m_scope.

(** ** The initial state *)
Lemma new_wf c m :
  (N.of_nat (max_sequence_length c) ≤ usize_max)%N → new c = Ok m → kv_wf m ∧ config m = c.
Proof.
  unfold new, validate_config. intros Hmax. case_decide as Hz; [done|]. case_decide as Hu; [done|].
  simpl. intros [= <-]. split; [|done].
  assert (∀ p : N, p ∈ (list_to_set (map (λ page, (N.of_nat page mod 2 ^ 32)%N)
      (seq 0 (num_pages c))) : gset N) ↔ N.to_nat p < num_pages c) as Hfree.
  { intros p. rewrite elem_of_list_to_set, list_elem_of_fmap. unfold u32_max in Hu. split.
    - intros (i & -> & Hi%elem_of_seq). rewrite N.mod_small by lia. lia.
    - intros Hp. exists (N.to_nat p). rewrite N.mod_small by lia. split; [lia|].
      apply elem_of_seq. lia. }
  split.
  - split; simpl.
    + apply length_replicate.
    + apply length_replicate.
    + intros p r [-> _]%lookup_replicate_1. by rewrite held_empty.
    + rewrite held_empty. by intros p ?%elem_of_nil.
    + intros p. rewrite Hfree. unfold rf, bl. simpl. rewrite !lookup_replicate. naive_solver.
    + intros t p. rewrite lookup_empty. split; [done|]. unfold bl. simpl.
      intros [k Hk]. apply lookup_replicate_1 in Hk as [? _]. done.
    + unfold bl. simpl. intros p b [? _]%lookup_replicate_1. done.
    + intros k p. rewrite lookup_empty. split; [done|]. unfold bl. simpl.
      intros [t Hk]. apply lookup_replicate_1 in Hk as [? _]. done.
    + by intros t p ?%lookup_empty_Some.
  - split; simpl; [lia|done| |].
    + by intros id q ?%lookup_empty_Some.
    + split; [by intros id q ?%lookup_empty_Some|by intros rid r ?%lookup_empty_Some].
Qed.

Section Spec.
Context `{DefaultHasher}.

(** ** The public interface as a step relation *)
Inductive kv_op : Type :=
| CreateSequence (id : N)
| CreateSequenceWithPrefix (id : N) (tokens : list Z)
| RegisterPrefix (id : N) (tokens : list Z)
| CanAppend (id : N) (n : nat)
| BeginAppend (id : N) (n : nat)
| ExtendAppend (rid : N) (extra : nat)
| CommitAppend (rid : N)
| CommitAppendPrefixes (rows : list (N * nat))
| CommitAppendPartial (rid : N) (n : nat)
| CancelAppend (rid : N)
| CommitAppends (ids : list N)
| CancelAppends (ids : list N)
| RemoveSequence (id : N)
| SetPrefixCaching (enabled : bool).

Definition void {A} (m : M PagedKvCacheManager PagedKvError A) :
  M PagedKvCacheManager PagedKvError unit := let! _ := m in mret tt.

Definition kv_exec (op : kv_op) : M PagedKvCacheManager PagedKvError unit :=
  match op with
  | CreateSequence id => create_sequence id
  | CreateSequenceWithPrefix id tokens => void (create_sequence_with_prefix id tokens)
  | RegisterPrefix id tokens => register_prefix id tokens
  | CanAppend id n => void (can_append id n)
  | BeginAppend id n => void (begin_append id n)
  | ExtendAppend rid extra => void (extend_append rid extra)
  | CommitAppend rid => void (commit_append rid)
  | CommitAppendPrefixes rows => void (commit_append_prefixes rows)
  | CommitAppendPartial rid n => void (commit_append_partial rid n)
  | CancelAppend rid => cancel_append rid
  | CommitAppends ids => void (commit_appends ids)
  | CancelAppends ids => cancel_appends ids
  | RemoveSequence id => remove_sequence id
  | SetPrefixCaching enabled => set_prefix_caching_enabled enabled
  end.

Lemma void_wp {A} (m : M PagedKvCacheManager PagedKvError A) QOk QErr s :
  wp m (post (λ _, QOk) QErr) s → wp (void m) (post (λ _, QOk) QErr) s.
Proof. intros Hm. eapply wp_bind_post; [exact Hm| |done]. intros a s' ?. by apply wp_ret. Qed.

Lemma can_append_pure id n m :
  ∃ r, can_append id n m = (r, m) ∧ ∀ p, r ≠ Panic p.
Proof.
  unfold can_append, sequence, mbind', mget, mok_or, mret, mthrow.
  repeat (case_decide || case_match); simplify_eq; eauto.
Qed.

(** One call keeps the invariant, changes nothing when it fails, and can only
    panic on the exhaustion of a counter. *)
Lemma kv_exec_wf op m : kv_wf m →
  wp (kv_exec op) (post (λ _ m', kv_wf m' ∧ config m' = config m) (λ _ m', m' = m)) m.
Proof.
  intros Hwf. destruct op; simpl; try apply void_wp.
  - eapply wp_post_mono; [by apply create_sequence_wf|by intros [] ? (? & _ & ->)|naive_solver].
  - eapply wp_post_mono; [by apply create_with_prefix_wf|naive_solver|naive_solver].
  - eapply wp_post_mono; [by apply register_prefix_wf|naive_solver|naive_solver].
  - destruct (can_append_pure id n m) as (r & Heq & Hnp). unfold wp. rewrite Heq.
    destruct r; simpl; [done|done|]. by destruct (Hnp p).
  - eapply wp_post_mono; [by apply begin_append_wf|naive_solver|done].
  - eapply wp_post_mono; [by apply extend_append_wf|naive_solver|done].
  - eapply wp_post_mono; [by apply commit_append_wf| |naive_solver].
    intros ? ? (? & ? & _ & [] & _). done.
  - eapply wp_post_mono; [by apply commit_append_prefixes_wf| |naive_solver].
    intros ? ? (? & _ & _ & (? & _)%closes_all_frame). done.
  - eapply wp_post_mono; [by apply commit_append_partial_wf| |naive_solver].
    intros ? ? (? & _ & []). done.
  - eapply wp_post_mono; [by apply cancel_append_wf| |naive_solver].
    intros ? ? (? & ? & _ & []). done.
  - eapply wp_post_mono; [by apply commit_appends_wf| |done].
    intros ? ? (? & _ & ? & _ & _ & (? & _)%closes_all_frame). done.
  - eapply wp_post_mono; [by apply cancel_appends_wf| |naive_solver].
    intros ? ? (? & _ & ? & (? & _)%closes_all_frame). done.
  - eapply wp_post_mono; [by apply remove_sequence_wf|naive_solver|naive_solver].
  - eapply wp_post_mono; [by apply set_prefix_caching_wf|naive_solver|done].
Qed.

Inductive kv_reachable (c : PagedKvCacheConfig) : PagedKvCacheManager → Prop :=
| kv_start m : new c = Ok m → kv_reachable c m
| kv_step m op r m' : kv_reachable c m → kv_exec op m = (r, m') →
    (∀ p, r ≠ Panic p) → kv_reachable c m'.

Lemma kv_reachable_wf c m : (N.of_nat (max_sequence_length c) ≤ usize_max)%N →
  kv_reachable c m → kv_wf m ∧ config m = c.
Proof.
  intros Hmax. induction 1 as [m Hnew|m op r m' _ [IH <-] Hex Hnp]; [by apply new_wf|].
  pose proof (kv_exec_wf op m IH) as Hw. unfold wp in Hw. rewrite Hex in Hw. simpl in Hw.
  destruct r; simpl in Hw; [done|by subst|]. by destruct (Hnp p).
Qed.

(** Claim C8.  From a configuration accepted by [new], whatever the public
    methods called and in whatever order, no call ever fails an [expect],
    an index, a slice or a debug assertion: the only panic left is the
    overflow of a counter.  A call that returns an error leaves the whole
    manager as it was, and every state reached satisfies the invariant. *)
Theorem kv_calls_are_safe c m op :
  (N.of_nat (max_sequence_length c) ≤ usize_max)%N → kv_reachable c m →
  match kv_exec op m with
  | (Ok _, m') => kv_wf m'
  | (Err _, m') => m' = m
  | (Panic p, _) => p = Overflow
  end.
Proof.
  intros Hmax [Hwf _]%kv_reachable_wf; [|done].
  pose proof (kv_exec_wf op m Hwf) as Hw. unfold wp in Hw.
  destruct (kv_exec op m) as [[]]; simpl in Hw; naive_solver.
Qed.
End Spec.

(** ** Conservation of physical pages *)

Definition pages_in_use (m : PagedKvCacheManager) : gset N := list_to_set (held (sequences m)).

Lemma kv_pages_partition m : kv_wf m →
  size (pages_in_use m) + available_pages m = num_pages (config m).
Proof.
  intros [Hp _]. unfold available_pages.
  set (cached := map_img (evictable m) : gset N).
  assert (size (evictable m) = size cached) as ->.
  { unfold cached. clear -Hp. assert (∀ t t' p, evictable m !! t = Some p →
      evictable m !! t' = Some p → t = t') as Hinj by eauto using pool_evict_inj.
    revert Hinj. induction (evictable m) as [|t p ev Hn IH] using map_ind; intros Hinj.
    - by rewrite map_size_empty, map_img_empty_L, size_empty.
    - rewrite map_size_insert_None by done. rewrite map_img_insert_notin_L by done.
      rewrite IH.
      + rewrite size_union, size_singleton; [lia|]. apply disjoint_singleton_l.
        intros [t' Ht']%elem_of_map_img. assert (t = t'); [|congruence].
        apply (Hinj _ _ p); [by rewrite lookup_insert_eq|].
        rewrite lookup_insert_ne; [done|]. intros ->. congruence.
      + intros t1 t2 q H1 H2. apply (Hinj t1 t2 q); rewrite lookup_insert_ne; congruence. }
  assert (pages_in_use m ∪ (free_pages m ∪ cached) =
    list_to_set (map N.of_nat (seq 0 (num_pages (config m))))) as Hall.
  { apply set_eq. intros p. unfold cached, pages_in_use.
    rewrite !elem_of_union, elem_of_map_img, !elem_of_list_to_set, list_elem_of_fmap.
    rewrite <- (pool_idle _ _ Hp), (pool_unused _ _ Hp), app_nil_r. split.
    - intros Hor. exists (N.to_nat p). split; [lia|]. apply elem_of_seq.
      destruct Hor as [Hh|[? _]]; [|lia].
      pose proof (pw_range _ _ Hp p) as Hrg. rewrite app_nil_r in Hrg. specialize (Hrg Hh). lia.
    - intros (i & -> & Hi%elem_of_seq). destruct (decide (N.of_nat i ∈ held (sequences m))); [by left|].
      right. split; [lia|done]. }
  assert (size (list_to_set (map N.of_nat (seq 0 (num_pages (config m)))) : gset N) =
    num_pages (config m)) as Hsz.
  { rewrite size_list_to_set; [by rewrite length_map, length_seq|].
    apply NoDup_fmap_2; [apply _|]. apply NoDup_seq. }
  rewrite <- Hsz, <- Hall, !size_union; [lia| |].
  - unfold cached. intros p Hf [t Ht]%elem_of_map_img.
    apply (pw_free _ _ Hp) in Hf as [_ Hb]. apply (pw_evict _ _ Hp) in Ht as [k Hb']. congruence.
  - intros p Hu%elem_of_list_to_set Hi. rewrite elem_of_union in Hi. unfold cached in Hi.
    rewrite elem_of_map_img in Hi. apply (pool_idle _ _ Hp) in Hi.
    apply (pool_unused _ _ Hp) in Hi as [_ Hi]. by rewrite app_nil_r in Hi.
Qed.

(** In every reachable state the distinct pages mapped by live
    sequences and the pages an allocation can obtain add up to the pool:
    [allocated_page_count] counts exactly the pages in use, and a manager
    without sequences has every page available, so no page is ever leaked. *)
Theorem kv_pages_conserved `{DefaultHasher} c m :
  (N.of_nat (max_sequence_length c) ≤ usize_max)%N → kv_reachable c m →
  allocated_page_count m = size (pages_in_use m) ∧
  free_page_count m + size (pages_in_use m) = num_pages c ∧
  (sequences m = ∅ → free_page_count m = num_pages c).
Proof.
  intros Hmax Hr. destruct (kv_reachable_wf c m Hmax Hr) as [Hwf Hc].
  pose proof (kv_pages_partition m Hwf) as Hp. rewrite Hc in Hp.
  unfold allocated_page_count, free_page_count. rewrite Hc. split_and!; [lia..|].
  intros Hs. assert (pages_in_use m = ∅) as Hu by (unfold pages_in_use; by rewrite Hs, held_empty).
  rewrite Hu, size_empty in Hp. lia.
Qed.

(** ** Ownership of the pages an append writes *)
Lemma tail_exclusive ex m id q i p :
  pool_wf ex m → book_wf m → sequences m !! id = Some q →
  committed_tokens q / block_size (config m) ≤ i → pages q !! i = Some p →
  (∀ k, block_index m !! k ≠ Some p) ∧
  ∀ id' q' i', sequences m !! id' = Some q' → pages q' !! i' = Some p → id' = id ∧ i' = i.
Proof.
  intros Hp Hb Hq Hi Hpi. pose proof (bw_tail _ Hb _ _ Hq _ _ Hi Hpi) as He. split.
  - intros k [t Ht]%(pw_index _ _ Hp). destruct He. congruence.
  - intros id' q' i' Hq' Hi'. by eapply exclusive_unique.
Qed.

(** The pages that hold the token positions of a fresh append
    reservation exist in its block table, are mapped at no other place of this
    or any other live sequence and are not published in the prefix cache: a
    shared page is never written. *)
Theorem append_target_pages_are_exclusive `{DefaultHasher} c m id n a m' :
  (N.of_nat (max_sequence_length c) ≤ usize_max)%N → kv_reachable c m →
  begin_append id n m = (Ok a, m') →
  ∀ position, ar_start_position a ≤ position < ar_context_length a →
  ∃ p, ar_block_table a !! (position / block_size c) = Some p ∧
    (∀ k, block_index m' !! k ≠ Some p) ∧
    ∀ id' q' i', sequences m' !! id' = Some q' → pages q' !! i' = Some p →
      id' = id ∧ i' = position / block_size c.
Proof.
  intros Hmax Hr Heq position Hpos. destruct (kv_reachable_wf c m Hmax Hr) as [Hwf <-].
  pose proof (begin_append_wf id n m Hwf) as Hw. unfold wp in Hw. rewrite Heq in Hw. simpl in Hw.
  destruct Hw as ([Hp Hb] & q & Hq & Hpd & Hn & Hm & Ha & Hlen & Hc & Hs & Hrs).
  pose proof (bw_bs _ Hb) as Hbs. rewrite Hc in Hbs.
  set (bs := block_size (config m)) in *. rewrite Ha in Hpos |- *. simpl in *.
  destruct (lookup_lt_is_Some_2 (pages q ++ ar_newly_allocated_pages a) (position / bs)) as [p Hpi].
  { rewrite Hlen. apply div_ceil_lt; [done|].
    pose proof (Nat.Div0.mul_div_le position bs). lia. }
  exists p. split; [done|]. eapply tail_exclusive; [done|done| | |].
  - rewrite Hs. apply lookup_insert_eq.
  - simpl. rewrite Hc. apply Nat.Div0.div_le_mono. lia.
  - done.
Qed.

(** ** [can_append] and [begin_append] *)
Lemma allocate_pages_ok n m : kv_wf m → n ≤ available_pages m →
  ∃ ps m', mmap (seq 0 n) (λ _, allocate_page) m = (Ok (E := PagedKvError) ps, m').
Proof.
  intros [Hp _]. revert Hp. generalize ([] : list N) at 1. generalize 0 at 1.
  revert m. induction n as [|n IH]; intros m i ex Hp Hn; simpl; [by eexists _, _|].
  destruct (allocate_page_ok ex m Hp) as (p & m1 & Heq & [] & _ & Ha); [lia|].
  destruct (IH m1 (S i) (p :: ex)) as (ps & m2 & Heq2); [done|lia|].
  unfold mbind'. rewrite Heq, Heq2. by eexists _, _.
Qed.

Lemma begin_append_succeeds id n m q :
  kv_wf m → sequences m !! id = Some q → pending q = None → 0 < n →
  committed_tokens q + n ≤ max_sequence_length (config m) →
  div_ceil (committed_tokens q + n) (block_size (config m)) - length (pages q) ≤ available_pages m →
  (next_reservation m < u64_max)%N →
  ∃ a m', begin_append id n m = (Ok a, m').
Proof.
  intros Hwf Hq Hpd Hn Hm Hav Hnr. pose proof (bw_max _ (proj2 Hwf)) as Hmax.
  set (m1 := set_next_reservation (next_reservation m + 1) m).
  assert (kv_wf m1) as Hwf1.
  { destruct Hwf as [Hp [? ? ? []]]. split; [by eapply same_pool_wf|]. split; try done. simpl.
    split; [done|]. intros rid r Hr. destruct (lk_res _ _ Hr). split; [lia|done]. }
  destruct (allocate_pages_ok _ m1 Hwf1 Hav) as (ps & m2 & Heq).
  pose proof (allocate_pages_wf _ m1 Hwf1 Hav) as Hw. unfold wp in Hw. rewrite Heq in Hw.
  destruct Hw as (_ & (_ & Hs2 & _) & _). simpl in Hs2.
  unfold begin_append. rewrite decide_False by lia. unfold sequence, mbind' at 1.
  unfold mbind' at 1, mget at 1. rewrite Hq. simpl. rewrite Hpd.
  unfold mbind' at 1, mget at 1. unfold usize_add. rewrite decide_True by lia. simpl.
  unfold mbind' at 1, mret at 1. rewrite decide_False by lia.
  rewrite decide_False by lia. unfold checked_add. rewrite decide_True by lia. simpl.
  unfold mbind' at 1, mret at 1. unfold mbind' at 1, mmodify at 1. fold m1.
  unfold mbind' at 1. rewrite Heq. unfold mbind' at 1, mget at 1. rewrite Hs2, Hq.
  by eexists _, _.
Qed.

(** The guards that [can_append] and [begin_append] share. *)
Definition append_fits (m : PagedKvCacheManager) (q : SequenceState) (n : nat) : Prop :=
  pending q = None ∧ (N.of_nat (committed_tokens q + n) ≤ usize_max)%N ∧
  committed_tokens q + n ≤ max_sequence_length (config m) ∧
  div_ceil (committed_tokens q + n) (block_size (config m)) - length (pages q) ≤ available_pages m.

Lemma can_append_spec id n m b m' : can_append id n m = (Ok b, m') →
  m' = m ∧ (n = 0 ∧ b = false ∨
    n ≠ 0 ∧ ∃ q, sequences m !! id = Some q ∧ (b = true ↔ append_fits m q n)).
Proof.
  unfold can_append. case_decide; [intros [= <- <-]; naive_solver|].
  unfold sequence, mbind', mget, mok_or, mret, mthrow. unfold append_fits.
  destruct (sequences m !! id) as [q|] eqn:Hq; [|done].
  case_decide as Hp; [intros [= <- <-]; split; [done|]; right; split; [done|]; exists q|].
  { split; [done|]. split; [done|]. intros [Hn _]. rewrite Hn in Hp. by destruct Hp. }
  apply eq_None_not_Some in Hp. intros Hr. unfold usize_add in Hr. case_decide as Hu.
  2:{ injection Hr as <- <-. split; [done|]. right. split; [done|]. exists q. split; [done|].
      split; [done|]. intros (_ & ? & _). lia. }
  case_decide as Hm; injection Hr as <- <-; split; try done; right; (split; [done|]); exists q;
    (split; [done|]).
  - split; [done|]. lia.
  - rewrite bool_decide_eq_true. split; [intros ?; split_and!; [done|lia|lia|done]|naive_solver].
Qed.

Lemma begin_append_refuses id n m q :
  sequences m !! id = Some q → ¬ append_fits m q n → ∃ e, begin_append id n m = (Err e, m).
Proof.
  intros Hq Hf. unfold begin_append. case_decide; [by eexists|].
  unfold sequence, mbind' at 1 2, mget at 1. rewrite Hq. simpl.
  destruct (pending q) as [r|] eqn:Hp; [by eexists|].
  unfold mbind' at 1, mget at 1. unfold usize_add. unfold append_fits in Hf.
  case_decide as Hu; simpl; [|by eexists].
  unfold mbind' at 1, mret at 1. case_decide as Hm; [by eexists|].
  case_decide as Hav; [by eexists|]. destruct Hf. split_and!; [done|lia|lia|lia].
Qed.

(** [can_append] decides [begin_append]: unless the reservation
    counter is exhausted, it answers [true] exactly when the append succeeds,
    and neither the answer nor a refused append changes the manager. *)
Theorem can_append_decides_begin_append `{DefaultHasher} c m id n b m' :
  (N.of_nat (max_sequence_length c) ≤ usize_max)%N → kv_reachable c m →
  (next_reservation m < u64_max)%N → can_append id n m = (Ok b, m') →
  m' = m ∧
  if b then ∃ a m'', begin_append id n m = (Ok a, m'')
  else ∃ e, begin_append id n m = (Err e, m).
Proof.
  intros Hmax Hr Hnr [-> Hcan]%can_append_spec. destruct (kv_reachable_wf c m Hmax Hr) as [Hwf _].
  split; [done|]. destruct Hcan as [[-> ->]|(Hn & q & Hq & Hb)]; [by eexists|].
  destruct b.
  - destruct (proj1 Hb eq_refl) as (? & ? & ? & ?). eapply begin_append_succeeds; eauto with lia.
  - eapply begin_append_refuses; [done|]. intros ?%Hb. done.
Qed.

(** Cancelling a fresh reservation undoes the append: every sequence
    and reservation is back to what it was, and so is the number of pages an
    allocation can obtain (the eviction clock may run out first). *)
Theorem cancel_undoes_begin `{DefaultHasher} c m id n a m1 :
  (N.of_nat (max_sequence_length c) ≤ usize_max)%N → kv_reachable c m →
  begin_append id n m = (Ok a, m1) →
  match cancel_append (ar_id a) m1 with
  | (Ok _, m2) => sequences m2 = sequences m ∧ reservations m2 = reservations m ∧
                  available_pages m2 = available_pages m
  | (Err _, _) => False
  | (Panic p, _) => p = Overflow
  end.
Proof.
  intros Hmax Hr Heq. destruct (kv_reachable_wf c m Hmax Hr) as [Hwf _].
  pose proof (begin_append_wf id n m Hwf) as Hw. unfold wp in Hw. rewrite Heq in Hw. simpl in Hw.
  destruct Hw as (Hwf1 & q & Hq & Hpd & Hn & Hm & Ha & Hlen & Hc & Hs & Hrs).
  rewrite Ha. simpl. set (rid := next_reservation m) in *.
  pose proof (cancel_append_wf rid m1 Hwf1) as Hw. unfold wp in Hw.
  destruct (cancel_append rid m1) as [[u|e|p] m2]; simpl in Hw; [|destruct Hw as [_ Hw]; by rewrite Hrs, lookup_insert_eq in Hw|done].
  destruct Hw as (Hwf2 & r & Hr1 & [Hc2 _ _ _ (r' & q' & Hr' & Hq' & Hpos & _ & Hrs2 & Hs2)]).
  rewrite Hrs, lookup_insert_eq in Hr', Hr1. simplify_eq. simpl in *.
  rewrite Hs, lookup_insert_eq in Hq'. simplify_eq.
  assert (idle_ok (block_size (config m)) q) as [_ Hlq].
  { destruct Hwf as [_ Hb].
    destruct (lk_seq _ _ _ _ _ (bw_link _ Hb) _ _ Hq) as [?|(? & ? & ? & _)]; [done|congruence]. }
  assert (sequences m2 = sequences m) as Hs2'.
  { rewrite Hs2, Hs, insert_insert_eq. apply insert_id. rewrite Hq. f_equal.
    unfold close_seq. simpl. rewrite Hc, <- Hlq, take_app_length. destruct q; simpl in *. by subst. }
  split_and!; [done| |].
  - rewrite Hrs2, Hrs. apply delete_insert_id. destruct (reservations m !! rid) as [r0|] eqn:E; [|done].
    destruct (lk_res _ _ _ _ _ (bw_link _ (proj2 Hwf)) _ _ E) as [? _]. unfold rid in *. lia.
  - pose proof (kv_pages_partition _ Hwf) as P1. pose proof (kv_pages_partition _ Hwf2) as P2.
    unfold pages_in_use in *. rewrite Hs2', Hc2, Hc in P2. lia.
Qed.

(** [commit_append_prefixes] is atomic and exact: the
    whole group is refused without any change exactly when a reservation is
    repeated, unknown, or asked for no token or more than it reserved; otherwise the rows are distinct, every row
    commits exactly its consumed tokens, ends its reservation and keeps exactly
    the pages those tokens need, and no other sequence or reservation moves. *)
Theorem commit_append_prefixes_exact `{DefaultHasher} c m rows :
  (N.of_nat (max_sequence_length c) ≤ usize_max)%N → kv_reachable c m →
  match commit_append_prefixes rows m with
  | (Ok positions, m') =>
      NoDup rows.*1 ∧
      Forall2 (λ row position, ∃ r q, reservations m !! row.1 = Some r ∧
        sequences m !! request_id r = Some q ∧ 0 < row.2 ≤ token_count r ∧
        position = start_position r + row.2 ∧
        sequences m' !! request_id r = Some (mk_sequence position
          (take (div_ceil position (block_size c)) (pages q)) None
          (registered_blocks q) (chain_hash q))) rows positions ∧
      (∀ rid, reservations m' !! rid =
         if decide (rid ∈ rows.*1) then None else reservations m !! rid) ∧
      (∀ id, (∀ rid r, rid ∈ rows.*1 → reservations m !! rid = Some r → request_id r ≠ id) →
         sequences m' !! id = sequences m !! id)
  | (Err _, m') => m' = m ∧
      ¬ (NoDup rows.*1 ∧ ∀ row, row ∈ rows → 0 < row.2 ∧
           ∃ r, reservations m !! row.1 = Some r ∧ row.2 ≤ token_count r)
  | (Panic p, _) => p = Overflow
  end.
Proof.
  intros Hmax Hr. destruct (kv_reachable_wf c m Hmax Hr) as [Hwf <-].
  pose proof (commit_append_prefixes_wf rows m Hwf) as Hw. unfold wp in Hw.
  destruct (commit_append_prefixes rows m) as [[ps|e|p] m']; simpl in Hw; [|exact Hw|done].
  destruct Hw as (Hwf' & Hnd & Hpos & Hall). split; [done|]. split; [|split].
  - pose proof (closes_all_rows _ _ _ _ (proj2 Hwf) Hnd Hall) as HF.
    apply Forall2_same_length_lookup_2; [by eapply Forall2_length, HF|].
    intros i row pos Hrow Hp. destruct (Forall2_lookup_lr _ _ _ _ _ _ HF Hrow Hp)
      as (r & q & Hr' & Hq & Hpp & Hle & Hs).
    exists r, q. split_and!; try done. apply Hpos. by eapply list_elem_of_lookup_2.
  - intros rid. by eapply closes_all_reservations.
  - intros id. by eapply closes_all_others.
Qed.

(** Claim C37.  A sequence created with a prompt maps exactly the longest chain
    of published full blocks that starts the prompt: the reused length is a
    multiple of the block size, it leaves at least one token to compute, and
    each mapped page is the one published under the chain hash so far and the
    exact tokens of its block. *)
Theorem prefix_reuse_is_longest_cached_chain `{DefaultHasher} c m id tokens matched m' :
  (N.of_nat (max_sequence_length c) ≤ usize_max)%N → kv_reachable c m →
  tokens ≠ [] → create_sequence_with_prefix id tokens m = (Ok matched, m') →
  sequences m' = <[id := mk_sequence matched (reusable m tokens).1 None
    (length (reusable m tokens).1) (reusable m tokens).2]> (sequences m) ∧
  matched = length (reusable m tokens).1 * block_size c ∧ matched < length tokens ∧
  kv_wf m'.
Proof.
  intros Hmax Hr Hne Heq. destruct (kv_reachable_wf c m Hmax Hr) as [Hwf <-].
  pose proof (create_with_prefix_wf id tokens m Hwf) as Hw. unfold wp in Hw. rewrite Heq in Hw.
  destruct Hw as (Hwf' & _ & Hm & _ & _ & _ & Hs). split_and!; try done. rewrite Hm.
  assert (0 < length tokens) by (destruct tokens; [done|simpl; lia]).
  unfold reusable. case_decide; [simpl; lia|].
  pose proof (cached_chain_length (block_index m) tokens (block_size (config m))
    ((length tokens - 1) / block_size (config m)) 0 CHAIN_ROOT) as Hl.
  pose proof (Nat.Div0.mul_div_le (length tokens - 1) (block_size (config m))). nia.
Qed.

(** ** A concrete run

    Two sequences that share a published block, one of them with an append in
    flight.  The hasher is a stand-in: any function will do. *)
Definition demo_hasher : DefaultHasher := {|
  hasher := N;
  hasher_new := 7%N;
  hash_u64 h n := (h * 31 + n)%N;
  hash_i32_slice h l := fold_left (λ a t, (a * 31 + Z.to_N t)%N) l h;
  hasher_finish h := h
|}.

Definition demo_config : PagedKvCacheConfig := mk_config 2 6 16.

Definition demo_ops : list kv_op :=
  [SetPrefixCaching true; CreateSequenceWithPrefix 1 [5; 6; 7]%Z; BeginAppend 1 3;
   CommitAppend 1; RegisterPrefix 1 [5; 6; 7]%Z; CreateSequenceWithPrefix 2 [5; 6; 9; 9]%Z;
   BeginAppend 2 2].

Fixpoint kv_run `{DefaultHasher} (ops : list kv_op) (m : PagedKvCacheManager) :
    option PagedKvCacheManager :=
  match ops with
  | [] => Some m
  | op :: ops' =>
      match kv_exec op m with
      | (Panic _, _) => None
      | (_, m') => kv_run ops' m'
      end
  end.

Lemma kv_run_reachable `{DefaultHasher} c ops m m' :
  kv_reachable c m → kv_run ops m = Some m' → kv_reachable c m'.
Proof.
  revert m. induction ops as [|op ops IH]; simpl; intros m Hr Heq; [by simplify_eq|].
  destruct (kv_exec op m) as [r m1] eqn:E. destruct r as [u|e|p]; [| |done].
  - eapply IH; [|done]. by eapply kv_step.
  - eapply IH; [|done]. by eapply kv_step.
Qed.

Definition run_demo (ops : list kv_op) : option PagedKvCacheManager :=
  match new demo_config with
  | Ok m => kv_run (H := demo_hasher) ops m
  | _ => None
  end.

Lemma run_demo_reachable ops m :
  run_demo ops = Some m → kv_reachable (H := demo_hasher) demo_config m.
Proof.
  unfold run_demo. destruct (new demo_config) as [m0|e|p] eqn:E; [|done..].
  apply kv_run_reachable. by constructor.
Qed.

Definition demo : PagedKvCacheManager :=
  match run_demo demo_ops with Some m => m | None => mk_manager demo_config ∅ [] [] ∅ ∅ 0 false 0 ∅ ∅ 0 end.

Lemma demo_reachable : kv_reachable (H := demo_hasher) demo_config demo.
Proof. apply (run_demo_reachable demo_ops). vm_compute. reflexivity. Qed.

Lemma demo_fits : (N.of_nat (max_sequence_length demo_config) ≤ usize_max)%N.
Proof. vm_compute. discriminate. Qed.

Example demo_shares_the_block :
  (pages <$> sequences demo !! 1%N, pages <$> sequences demo !! 2%N) = (Some [0; 1]%N, Some [0; 2]%N).
Proof. vm_compute. reflexivity. Qed.

#[local] Opaque demo.

Lemma kv_calls_are_safe_witness :
  match kv_exec (H := demo_hasher) (CommitAppendPartial 2 1) demo with
  | (Ok _, m') => kv_wf m'
  | (Err _, m') => m' = demo
  | (Panic p, _) => p = Overflow
  end.
Proof. apply (kv_calls_are_safe (H := demo_hasher) demo_config demo (CommitAppendPartial 2 1) demo_fits demo_reachable). Defined.

Lemma kv_pages_conserved_witness :
  allocated_page_count demo = size (pages_in_use demo) ∧
  free_page_count demo + size (pages_in_use demo) = num_pages demo_config ∧
  (sequences demo = ∅ → free_page_count demo = num_pages demo_config).
Proof. exact (kv_pages_conserved (H := demo_hasher) demo_config demo demo_fits demo_reachable). Defined.

(** The state in which sequence 2 has no append in flight. *)
Definition demo_idle : PagedKvCacheManager :=
  match run_demo (take 6 demo_ops) with Some m => m | None => demo end.
Lemma demo_idle_reachable : kv_reachable (H := demo_hasher) demo_config demo_idle.
Proof. apply (run_demo_reachable (take 6 demo_ops)). vm_compute. reflexivity. Qed.

Definition demo_append : PagedKvAppendReservation := mk_append 2 2 2 2 4 [2%N] [0; 2]%N.
Lemma demo_begin : begin_append 2 2 demo_idle = (Ok demo_append, demo).
Proof. vm_compute. reflexivity. Qed.

#[local] Opaque demo_idle.

Lemma append_target_pages_are_exclusive_witness :
  ∃ p, ar_block_table demo_append !! (2 / block_size demo_config) = Some p ∧
    (∀ k, block_index demo !! k ≠ Some p) ∧
    ∀ id' q' i', sequences demo !! id' = Some q' → pages q' !! i' = Some p →
      id' = 2%N ∧ i' = 2 / block_size demo_config.
Proof.
  apply (append_target_pages_are_exclusive (H := demo_hasher) demo_config demo_idle 2 2 demo_append
    demo demo_fits demo_idle_reachable demo_begin 2). simpl. lia.
Defined.

Lemma can_append_decides_begin_append_witness :
  demo_idle = demo_idle ∧ ∃ a m'', begin_append 2 2 demo_idle = (Ok a, m'').
Proof.
  apply (can_append_decides_begin_append (H := demo_hasher) demo_config demo_idle 2 2 true demo_idle
    demo_fits demo_idle_reachable); [vm_compute|vm_compute]; reflexivity.
Defined.

Lemma cancel_undoes_begin_witness :
  match cancel_append 2 demo with
  | (Ok _, m2) => sequences m2 = sequences demo_idle ∧ reservations m2 = reservations demo_idle ∧
                  available_pages m2 = available_pages demo_idle
  | (Err _, _) => False
  | (Panic p, _) => p = Overflow
  end.
Proof.
  exact (cancel_undoes_begin (H := demo_hasher) demo_config demo_idle 2 2 demo_append demo
    demo_fits demo_idle_reachable demo_begin).
Defined.

Lemma commit_append_prefixes_exact_witness :
  match commit_append_prefixes [(2%N, 1)] demo with
  | (Ok positions, m') =>
      NoDup [(2%N, 1)].*1 ∧
      Forall2 (λ row position, ∃ r q, reservations demo !! row.1 = Some r ∧
        sequences demo !! request_id r = Some q ∧ 0 < row.2 ≤ token_count r ∧
        position = start_position r + row.2 ∧
        sequences m' !! request_id r = Some (mk_sequence position
          (take (div_ceil position (block_size demo_config)) (pages q)) None
          (registered_blocks q) (chain_hash q))) [(2%N, 1)] positions ∧
      (∀ rid, reservations m' !! rid =
         if decide (rid ∈ [(2%N, 1)].*1) then None else reservations demo !! rid) ∧
      (∀ id, (∀ rid r, rid ∈ [(2%N, 1)].*1 → reservations demo !! rid = Some r → request_id r ≠ id) →
         sequences m' !! id = sequences demo !! id)
  | (Err _, m') => m' = demo
  | (Panic p, _) => p = Overflow
  end.
Proof.
  exact (commit_append_prefixes_exact (H := demo_hasher) demo_config demo [(2%N, 1)]
    demo_fits demo_reachable).
Defined.

(** The state before the second prompt arrives: its first block is published. *)
Definition demo_published : PagedKvCacheManager :=
  match run_demo (take 5 demo_ops) with Some m => m | None => demo end.
Lemma demo_published_reachable : kv_reachable (H := demo_hasher) demo_config demo_published.
Proof. apply (run_demo_reachable (take 5 demo_ops)). vm_compute. reflexivity. Qed.

#[local] Opaque demo_published.

Lemma prefix_reuse_is_longest_cached_chain_witness :
  let r := reusable (H := demo_hasher) demo_published [5; 6; 9; 9]%Z in
  sequences demo_idle = <[2%N := mk_sequence 2 r.1 None (length r.1) r.2]> (sequences demo_published) ∧
  2 = length r.1 * block_size demo_config ∧ 2 < length [5; 6; 9; 9]%Z ∧ kv_wf demo_idle.
Proof.
  apply (prefix_reuse_is_longest_cached_chain (H := demo_hasher) demo_config demo_published 2
    [5; 6; 9; 9]%Z 2 demo_idle demo_fits demo_published_reachable); [done|].
  vm_compute. reflexivity.
Defined.
