(* ===== verification/PagedKvUnshared.v ===== *)
(** * A KV cache without prefix caching

    While prefix caching is off no page is ever in two places: [unshared].  The
    calls of the scheduler keep that, and what they leave of the committed part of
    each sequence is [grows]. *)
From S2P Require Import Prelude PagedKv PagedKvPool PagedKvInv PagedKvOps PagedKvPrefix PagedKvSpec.
Open Scope nat_scope.
Open Scope m_scope.

Notation KvM := (M PagedKvCacheManager PagedKvError).
Implicit Types m : PagedKvCacheManager.

(** ** The switch *)
Section Switch.
Context (b : bool).
Definition switched m : Prop := prefix_caching m = b.
Notation same := (keeping switched unrelated).

Lemma same_modify f : (∀ m, prefix_caching (f m) = prefix_caching m) → same (mmodify f : KvM unit).
Proof. intros Hf. apply keeping_modify. intros m Hm. unfold switched. by rewrite Hf. Qed.

#[local] Hint Extern 0 (keeping switched _ (mmodify _)) => apply same_modify; intros []; reflexivity : keep.

Lemma same_read_ref page : same (read_ref page).
Proof. unfold read_ref. keep. Qed.
Lemma same_read_block page : same (read_block page).
Proof. unfold read_block. keep. Qed.
#[local] Hint Resolve same_read_ref same_read_block : keep.
Lemma same_write_ref page n : same (write_ref page n).
Proof. unfold write_ref. keep. Qed.
Lemma same_write_block page x : same (write_block page x).
Proof. unfold write_block. keep. Qed.
Lemma same_assert x : same (debug_assert x).
Proof. unfold debug_assert. keep. Qed.
Lemma same_sequence id : same (sequence id).
Proof. unfold sequence. keep. Qed.
Lemma same_put id q : same (put_sequence id q).
Proof. unfold put_sequence. keep. Qed.
#[local] Hint Resolve same_write_ref same_write_block same_assert same_sequence same_put : keep.
Lemma same_drop page : same (drop_cached_block page).
Proof. unfold drop_cached_block. keep. Qed.
#[local] Hint Resolve same_drop : keep.
Lemma same_allocate : same allocate_page.
Proof. unfold allocate_page. keep. Qed.
Lemma same_release page : same (release_page page).
Proof. unfold release_page. keep. Qed.
#[local] Hint Resolve same_allocate same_release : keep.
Lemma same_validate rid : same (validate_reservation rid).
Proof. unfold validate_reservation. keep. Qed.
#[local] Hint Resolve same_validate : keep.
Lemma same_validates ids : same (validate_reservations ids).
Proof.
  unfold validate_reservations. generalize (∅ : gset N). induction ids as [|id ids IH]; intros seen; simpl; keep.
Qed.
Lemma same_take rid : same (take_reservation rid).
Proof. unfold take_reservation. keep. Qed.
#[local] Hint Resolve same_validates same_take : keep.

Lemma same_expect {A} (op : KvM A) : same op → same (expect_ok op).
Proof. intros Hop m Hm. specialize (Hop m Hm). unfold expect_ok. by destruct (op m) as [[] ?]. Qed.

Lemma same_create id : same (create_sequence id).
Proof. unfold create_sequence. keep. Qed.
Lemma same_can_append id n : same (can_append id n).
Proof. unfold can_append. keep. Qed.
Lemma same_begin id n : same (begin_append id n).
Proof. unfold begin_append. keep. Qed.
Lemma same_extend rid n : same (extend_append rid n).
Proof. unfold extend_append. keep. Qed.
Lemma same_commit rid : same (commit_append rid).
Proof. unfold commit_append. keep. Qed.
Lemma same_split {A} n (l : list A) : same (split_off n l).
Proof. unfold split_off. keep. Qed.
#[local] Hint Resolve same_commit same_split : keep.
Lemma same_cancel rid : same (cancel_append rid).
Proof. unfold cancel_append. keep. Qed.
Lemma same_commits ids : same (commit_appends ids).
Proof. unfold commit_appends. keep. apply keeping_map; [apply _|]. intros. by apply same_expect, same_commit. Qed.
Lemma same_cancels ids : same (cancel_appends ids).
Proof. unfold cancel_appends. keep. apply keeping_for; [apply _|]. intros. by apply same_expect, same_cancel. Qed.
Lemma same_commit_row row : same (commit_prefix_row row).
Proof. unfold commit_prefix_row. keep. Qed.
Lemma same_check_row row : same (check_prefix_row row).
Proof. unfold check_prefix_row. keep. Qed.
#[local] Hint Resolve same_commit_row same_check_row : keep.
Lemma same_prefixes rows : same (commit_append_prefixes rows).
Proof. unfold commit_append_prefixes. keep. Qed.
Lemma same_remove id : same (remove_sequence id).
Proof. unfold remove_sequence. keep. Qed.
Lemma same_committed id : same (committed_tokens_of id).
Proof. unfold committed_tokens_of. keep. Qed.
Lemma same_table id : same (block_table id).
Proof. unfold block_table. keep. Qed.
End Switch.

(** ** Pages in one place *)
Definition placed m (id : RequestId) (i : nat) (p : N) : Prop :=
  ∃ q, sequences m !! id = Some q ∧ pages q !! i = Some p.

Definition apart m : Prop := ∀ id i id' i' p, placed m id i p → placed m id' i' p → id = id' ∧ i = i'.

Record unshared m : Prop := {
  us_wf : kv_wf m;
  us_off : prefix_caching m = false;
  us_apart : apart m
}.

(** The committed tokens of a sequence and the pages that hold them. *)
Definition stored m (id : RequestId) : option (nat * list N) :=
  (λ q, (committed_tokens q, take (div_ceil (committed_tokens q) (block_size (config m))) (pages q)))
    <$> sequences m !! id.

(** What is stored stays; new sequences are empty. *)
Definition grows m m' : Prop := config m' = config m ∧
  ∀ id, stored m' id = stored m id ∨ stored m id = None ∧ stored m' id = Some (0, []).

#[export] Instance grows_preorder : PreOrder grows.
Proof.
  split; [intros m; split; [done|by left]|]. intros m1 m2 m3 [Hc1 H1] [Hc2 H2].
  split; [congruence|]. intros id. destruct (H1 id) as [E1|[E1 E2]], (H2 id) as [E3|[E3 E4]];
    [left|right; split|right; split|]; congruence.
Qed.

Lemma apart_shrink m m' :
  (∀ id q', sequences m' !! id = Some q' → pages q' = [] ∨
     ∃ q, sequences m !! id = Some q ∧ pages q' `prefix_of` pages q) →
  apart m → apart m'.
Proof.
  intros Hs Ha. assert (∀ id i p, placed m' id i p → placed m id i p) as Hp.
  { intros id i p (q' & Hq' & Hi). destruct (Hs id q' Hq') as [Hn|(q & Hq & Hpre)];
      [by rewrite Hn in Hi|]. exists q. split; [done|]. by eapply prefix_lookup_Some. }
  intros id i id' i' p H1 H2. by eapply Ha; apply Hp.
Qed.

(** New pages of an append belong to its sequence alone. *)
Lemma apart_grow m m' id q q' fresh :
  kv_wf m' → sequences m !! id = Some q → sequences m' = <[id := q']> (sequences m) →
  pages q' = pages q ++ fresh → committed_tokens q' / block_size (config m') ≤ length (pages q) →
  apart m → apart m'.
Proof.
  intros [Hp Hb] Hq Hs Hpg Hle Ha.
  assert (∀ j i p, placed m' j i p → placed m j i p ∨
    j = id ∧ length (pages q) ≤ i ∧ exclusive m' p) as Hsplit.
  { intros j i p (q1 & Hq1 & Hi). rewrite Hs, lookup_insert in Hq1. case_decide as Hj.
    - simplify_eq. destruct (decide (i < length (pages q))) as [Hlt|Hge].
      + left. exists q. rewrite Hpg, lookup_app_l in Hi by done. done.
      + right. split; [done|]. split; [lia|]. refine (bw_tail _ Hb j q1 _ i p _ Hi); [|lia].
        by rewrite Hs, lookup_insert_eq.
    - left. by exists q1. }
  intros j i j' i' p H1 H2.
  destruct (Hsplit j i p H1) as [O1|(-> & _ & He)].
  - destruct (Hsplit j' i' p H2) as [O2|(-> & _ & He)]; [by eapply Ha|].
    destruct H1 as (q1 & ? & ?), H2 as (q2 & ? & ?). by eapply exclusive_unique.
  - destruct H1 as (q1 & ? & ?), H2 as (q2 & ? & ?). by eapply exclusive_unique.
Qed.

(** ** The calls of the scheduler *)
Notation quiet := (keeping unshared grows).

Lemma quiet_intro {A} R `{!PreOrder R} (op : KvM A) :
  (∀ b, keeping (switched b) unrelated op) →
  (∀ m, kv_wf m → prefix_caching m = false →
     wp op (post (λ _ m', kv_wf m' ∧ (apart m → apart m') ∧ R m m')
                 (λ _ m', kv_wf m' ∧ (apart m → apart m') ∧ R m m')) m) →
  keeping unshared R op.
Proof.
  intros Hsame Hw m [Hwf Hoff Ha]. specialize (Hsame false m Hoff). specialize (Hw m Hwf Hoff).
  unfold wp in Hw. destruct (op m) as [[a|e|p] m']; [..|done]; simpl in Hw;
    destruct Hsame as [Hs _], Hw as (? & Hx & ?); (split; [split; [done|done|by apply Hx]|done]).
Qed.

(** Calls that only read. *)
Section Readers.
Context (I : PagedKvCacheManager → Prop) (R : PagedKvCacheManager → PagedKvCacheManager → Prop) `{!PreOrder R}.
Notation reads := (keeping I R).

Lemma reads_sequence id : reads (sequence id).
Proof. unfold sequence. keep. Qed.
#[local] Hint Resolve reads_sequence : keep.
Lemma reads_committed id : reads (committed_tokens_of id).
Proof. unfold committed_tokens_of. keep. Qed.
Lemma reads_table id : reads (block_table id).
Proof. unfold block_table. keep. Qed.
Lemma reads_can_append id n : reads (can_append id n).
Proof. unfold can_append. keep. Qed.
Lemma reads_validate rid : reads (validate_reservation rid).
Proof. unfold validate_reservation. keep. Qed.
#[local] Hint Resolve reads_validate : keep.
Lemma reads_validates ids : reads (validate_reservations ids).
Proof.
  unfold validate_reservations. generalize (∅ : gset N). induction ids as [|id ids IH]; intros seen; simpl; keep.
Qed.
End Readers.

(** Growing a sequence keeps what is stored. *)
Lemma grows_insert m m' id q q' :
  config m' = config m → sequences m !! id = Some q → sequences m' = <[id := q']> (sequences m) →
  committed_tokens q' = committed_tokens q →
  take (div_ceil (committed_tokens q) (block_size (config m))) (pages q') =
  take (div_ceil (committed_tokens q) (block_size (config m))) (pages q) → grows m m'.
Proof.
  intros Hc Hq Hs Hcm Hpg. split; [done|]. intros j. left. unfold stored. rewrite Hs, Hc, lookup_insert.
  case_decide; [|done]. subst. by rewrite Hq; simpl; rewrite Hcm, Hpg.
Qed.

Lemma take_app_stored c bs mx m id q fresh : linked bs mx (sequences m) (reservations m) c →
  0 < bs → sequences m !! id = Some q →
  div_ceil (committed_tokens q) bs ≤ length (pages q) ∧
  take (div_ceil (committed_tokens q) bs) (pages q ++ fresh) =
  take (div_ceil (committed_tokens q) bs) (pages q).
Proof.
  intros HL Hbs Hq. assert (div_ceil (committed_tokens q) bs ≤ length (pages q)) as Hle.
  { destruct (lk_seq _ _ _ _ _ HL _ _ Hq) as [[_ ->]|(rid & r & _ & Hr & Hid)]; [done|].
    destruct (lk_res _ _ _ _ _ HL _ _ Hr) as (_ & q' & Hq' & _ & Hcm & _ & _ & _ & Hl).
    rewrite Hid in Hq'. simplify_eq. rewrite Hl, Hcm. apply div_ceil_mono; [done|lia]. }
  split; [done|]. by rewrite take_app_le.
Qed.

Lemma quiet_begin id n : quiet (begin_append id n).
Proof.
  apply quiet_intro; [apply _|intros; apply same_begin|]. intros m Hwf Hoff.
  eapply wp_post_mono; [by apply begin_append_wf|..].
  - intros a m' (Hwf' & q & Hq & Hpd & Hn & _ & _ & _ & Hc & Hs & _).
    pose proof (bw_bs _ (proj2 Hwf)) as Hbs.
    destruct (take_app_stored _ _ _ _ _ _ (ar_newly_allocated_pages a) (bw_link _ (proj2 Hwf)) Hbs Hq) as [Hle Htk].
    split; [done|]. split.
    + eapply apart_grow; [done|done|exact Hs|done|]. simpl. rewrite Hc.
      etrans; [apply div_le_div_ceil|done].
    + eapply grows_insert; [done|done|exact Hs|done|done].
  - intros e m' ->. split_and!; done.
Qed.

Lemma quiet_extend rid n : quiet (extend_append rid n).
Proof.
  apply quiet_intro; [apply _|intros; apply same_extend|]. intros m Hwf Hoff.
  eapply wp_post_mono; [by apply extend_append_wf|..].
  - intros a m' (Hwf' & r & q & Hr & Hq & _ & _ & _ & Hc & _ & Hs & _).
    pose proof (bw_bs _ (proj2 Hwf)) as Hbs.
    destruct (take_app_stored _ _ _ _ _ _ (ar_newly_allocated_pages a) (bw_link _ (proj2 Hwf)) Hbs Hq) as [Hle Htk].
    split; [done|]. split.
    + eapply apart_grow; [done|done|exact Hs|done|]. simpl. rewrite Hc.
      etrans; [apply div_le_div_ceil|done].
    + eapply grows_insert; [done|done|exact Hs|done|done].
  - intros e m' ->. split_and!; done.
Qed.

(** Closings only drop pages. *)
Lemma closes_apart rid n pos m m' : closes rid n pos m m' → apart m → apart m'.
Proof.
  intros [_ _ _ _ (r & q & _ & Hq & _ & _ & _ & Hs)]. apply apart_shrink. intros id q'.
  rewrite Hs, lookup_insert. case_decide; [|intros Hq'; right; by exists q'].
  intros [= <-]. right. subst. exists q. split; [done|]. simpl. apply prefix_take.
Qed.

Lemma closes_all_apart rows ps m m' : closes_all rows ps m m' → apart m → apart m'.
Proof. induction 1 as [|rid n pos rows ps m m1 m' Hc _ IH]; [done|]. intros Ha. by eapply IH, closes_apart. Qed.

(** Closing without a token. *)
Lemma closes_grows rid pos m m' : kv_wf m → closes rid 0 pos m m' → grows m m'.
Proof.
  intros Hwf [Hc _ _ _ (r & q & Hr & Hq & -> & _ & _ & Hs)].
  destruct (lk_res _ _ _ _ _ (bw_link _ (proj2 Hwf)) _ _ Hr) as (_ & q' & Hq' & _ & Hcm & _). simplify_eq.
  eapply grows_insert; [done|exact Hq|exact Hs|simpl; lia|]. simpl. rewrite take_take, Hcm, Nat.add_0_r.
  f_equal. lia.
Qed.

Lemma quiet_cancel rid : quiet (cancel_append rid).
Proof.
  apply quiet_intro; [apply _|intros; apply same_cancel|]. intros m Hwf Hoff.
  eapply wp_post_mono; [by apply cancel_append_wf|..].
  - intros [] m' (Hwf' & r & Hr & Hc). split; [done|]. split; [by eapply closes_apart|by eapply closes_grows].
  - intros e m' [-> _]. split_and!; done.
Qed.

Lemma keeping_expect_ok {A} (I : PagedKvCacheManager → Prop) R (op : KvM A) :
  keeping I R op → keeping I R (expect_ok op).
Proof. intros Hop m Hm. specialize (Hop m Hm). unfold expect_ok. by destruct (op m) as [[] ?]. Qed.

Lemma quiet_cancels ids : quiet (cancel_appends ids).
Proof.
  unfold cancel_appends. refine (keeping_bind _ _ _ _ _ _); [apply reads_validates; apply _|intros _].
  apply keeping_for; [apply _|]. intros. apply keeping_expect_ok, quiet_cancel.
Qed.

Section Hashed.
Context `{DefaultHasher}.

Lemma quiet_create id tokens : quiet (create_sequence_with_prefix id tokens).
Proof.
  intros m [Hwf Hoff Ha]. pose proof (create_sequence_wf id m Hwf) as Hw. unfold wp in Hw.
  unfold create_sequence_with_prefix, mbind', mget.
  destruct (create_sequence id m) as [[[]|e|p] m1]; simpl in *; [| |done].
  - destruct Hw as (Hwf1 & Hn & ->). simpl. rewrite decide_True by (by left). simpl.
    split; [split; [done|done|]|split; [done|]].
    + eapply apart_shrink; [|done]. intros j q'. simpl. rewrite lookup_insert.
      case_decide; [by intros [= <-]; left|]. intros Hq'. right. by exists q'.
    + intros j. unfold stored. simpl. rewrite lookup_insert. case_decide as Hj; [|by left].
      subst. right. rewrite Hn. simpl. by rewrite take_nil.
  - destruct Hw as [-> _]. split; [by split|done].
Qed.
End Hashed.

(** ** The calls that complete or remove *)

(** No sequence is created, none gets a page. *)
Definition shrinks m m' : Prop := config m' = config m ∧
  ∀ id q', sequences m' !! id = Some q' → ∃ q, sequences m !! id = Some q ∧ pages q' `prefix_of` pages q.

#[export] Instance shrinks_preorder : PreOrder shrinks.
Proof.
  split; [intros m; split; [done|]; intros id q Hq; by exists q|]. intros m1 m2 m3 [Hc1 H1] [Hc2 H2].
  split; [congruence|]. intros id q3 H3. destruct (H2 _ _ H3) as (q2 & Hq2 & ?).
  destruct (H1 _ _ Hq2) as (q1 & Hq1 & ?). exists q1. split; [done|]. by etrans.
Qed.

Lemma shrinks_apart m m' : shrinks m m' → apart m → apart m'.
Proof. intros [_ Hs]. apply apart_shrink. intros id q' Hq'. right. by apply Hs. Qed.

Lemma closes_shrinks rid n pos m m' : closes rid n pos m m' → shrinks m m'.
Proof.
  intros [Hc _ _ _ (r & q & _ & Hq & _ & _ & _ & Hs)]. split; [done|]. intros id q'.
  rewrite Hs, lookup_insert. case_decide; [|intros Hq'; by exists q'].
  intros [= <-]. subst. exists q. split; [done|]. simpl. apply prefix_take.
Qed.

Lemma closes_all_shrinks rows ps m m' : closes_all rows ps m m' → shrinks m m'.
Proof. induction 1 as [|rid n pos rows ps m m1 m' Hc _ IH]; [done|]. etrans; [by eapply closes_shrinks|done]. Qed.

Notation holds := (keeping unshared shrinks).

Lemma holds_intro {A} (op : KvM A) :
  (∀ b, keeping (switched b) unrelated op) →
  (∀ m, kv_wf m → wp op (post (λ _ m', kv_wf m' ∧ shrinks m m') (λ _ m', kv_wf m' ∧ shrinks m m')) m) →
  holds op.
Proof.
  intros Hsame Hw. apply quiet_intro; [apply _|done|]. intros m Hwf _.
  eapply wp_post_mono; [by apply Hw|..]; intros x m' [? ?]; (split; [done|]; split; [by apply shrinks_apart|done]).
Qed.

Lemma holds_remove id : holds (remove_sequence id).
Proof.
  apply holds_intro; [intros; apply same_remove|]. intros m Hwf.
  eapply wp_post_mono; [by apply remove_sequence_wf|..].
  - intros [] m' (Hwf' & q & _ & _ & Hc & Hs & _). split; [done|]. split; [done|].
    intros j q'. rewrite Hs, lookup_delete_Some. intros [_ Hq']. by exists q'.
  - intros e m' [-> _]. by split.
Qed.

Lemma holds_prefixes rows : holds (commit_append_prefixes rows).
Proof.
  apply holds_intro; [intros; apply same_prefixes|]. intros m Hwf.
  eapply wp_post_mono; [by apply commit_append_prefixes_wf|..].
  - intros ps m' (Hwf' & _ & _ & Hall). split; [done|]. by eapply closes_all_shrinks.
  - intros e m' [-> _]. by split.
Qed.

(** Publishing does nothing. *)
Lemma holds_register `{DefaultHasher} id tokens : holds (register_prefix id tokens).
Proof.
  intros m [Hwf Hoff Ha]. unfold register_prefix, mbind', mget. rewrite Hoff. simpl. split; [by split|done].
Qed.
