(* ===== verification/ContinuousBatch.v ===== *)
(** * Continuous batching scheduler

    Models src/src/continuous_batch.rs and src/src/continuous_batch/lifecycle.rs.
    [ContinuousBatchScheduler] is the state of every method; a [&mut self]
    method is a computation of [M] over it, and the methods of the paged KV
    cache it owns run through [kv].  [ContinuousBatchError] is its message, as
    is the [PagedKvError] that [From] converts into it. *)
From S2P Require Import Prelude PagedKv.
Open Scope string_scope.
Open Scope list_scope.
Open Scope nat_scope.
Open Scope m_scope.

(** src/src/generation.rs *)
Record GreedyGenerationConfig := mk_generation {
  max_new_tokens : nat;
  eos_token_ids : list Z
}.

Definition ContinuousBatchError : Type := string.

Record ContinuousBatchConfig := mk_batch_config {
  max_active_sequences : nat;
  max_batch_tokens : nat
}.

Definition validate_batch_config (c : ContinuousBatchConfig) : res ContinuousBatchError unit :=
  if decide (max_active_sequences c = 0 ∨ max_batch_tokens c = 0) then
    Err "continuous batch limits must be non-zero"
  else Ok tt.

Inductive ScheduledBatchKind := Prefill | Decode | Verify.
#[export] Instance ScheduledBatchKind_eq_dec : EqDecision ScheduledBatchKind.
Proof. solve_decision. Defined.

Record SpeculativeConfig := mk_speculative { draft_tokens : nat; ngram : nat }.

Record ScheduledSequence := mk_row {
  row_request_id : RequestId;
  row_token_ids : list Z;
  row_start_position : nat;
  row_context_length : nat;
  row_block_table : list KvPageId;
  row_reservation_id : KvReservationId
}.

Record ScheduledBatch := mk_batch {
  batch_id : N;
  batch_kind : ScheduledBatchKind;
  batch_sequences : list ScheduledSequence
}.

Definition batch_size (b : ScheduledBatch) : nat := length (batch_sequences b).

Definition next_n (b : ScheduledBatch) : nat :=
  match batch_sequences b with [] => 0 | row :: _ => length (row_token_ids row) end.

Definition token_matrix (b : ScheduledBatch) : list Z :=
  concat (map row_token_ids (batch_sequences b)).

(** The inner loop of [context_lengths]: one length per token of a row. *)
Fixpoint row_lengths (start : nat) (offsets : list nat) : res ContinuousBatchError (list N) :=
  match offsets with
  | [] => Ok []
  | offset :: rest =>
      do? length :=
        ok_or (position ← usize_add start offset; usize_add position 1) "context length overflow" in
      if decide (N.of_nat length ≤ u32_max)%N then
        do? lengths := row_lengths start rest in
        Ok (N.of_nat length :: lengths)
      else Err "context length exceeds DeepGEMM u32 ABI"
  end.

Fixpoint rows_lengths (rows : list ScheduledSequence) : res ContinuousBatchError (list N) :=
  match rows with
  | [] => Ok []
  | row :: rest =>
      do? here := row_lengths (row_start_position row) (seq 0 (length (row_token_ids row))) in
      do? there := rows_lengths rest in
      Ok (here ++ there)
  end.

Definition context_lengths (b : ScheduledBatch) : res ContinuousBatchError (list N) :=
  rows_lengths (batch_sequences b).

(** The nested loops of [flattened_block_table]: write [pages] from column
    [column] of the row that starts at [base]. *)
Fixpoint write_row (table : list N) (base column : nat) (pages : list KvPageId) : option (list N) :=
  match pages with
  | [] => Some table
  | page :: rest =>
      if decide (base + column < length table) then
        write_row (<[base + column := page]> table) base (column + 1) rest
      else None
  end.

Fixpoint write_rows (table : list N) (stride row : nat) (rows : list ScheduledSequence) :
    option (list N) :=
  match rows with
  | [] => Some table
  | r :: rest =>
      table' ← write_row table (row * stride) 0 (row_block_table r);
      write_rows table' stride (row + 1) rest
  end.

(** [try_reserve_exact] is the allocator's: [alloc_ok] says whether it grants
    the requested length. *)
Definition flattened_block_table (alloc_ok : nat → bool) (b : ScheduledBatch) :
    res ContinuousBatchError (list N * nat) :=
  let stride := max_list (map (λ row, length (row_block_table row)) (batch_sequences b)) in
  if decide (stride = 0 ∧ batch_sequences b ≠ []) then
    Err "scheduled sequence has no physical KV page"
  else
    do? length := ok_or (usize_mul (batch_size b) stride) "block table size overflow" in
    if alloc_ok length then
      match write_rows (replicate length 0%N) stride 0 (batch_sequences b) with
      | Some table => Ok (table, stride)
      | None => Panic OutOfBounds
      end
    else Err "cannot allocate block table".

Record FinishedGeneration := mk_finished {
  fg_request_id : RequestId;
  fg_prompt_token_ids : list Z;
  fg_generated_token_ids : list Z;
  fg_stopped_on_eos : bool
}.

Record ContinuousBatchSnapshot := mk_batch_snapshot {
  bs_pending_requests : nat;
  bs_active_requests : nat;
  bs_has_in_flight_batch : bool;
  bs_finished_requests : nat;
  bs_free_kv_pages : nat;
  bs_total_kv_pages : nat
}.

Record PagedBatchSnapshot := mk_paged_snapshot {
  ps_batch : ContinuousBatchSnapshot;
  ps_preemptions : N;
  ps_prefix_cached_tokens : N;
  ps_drafted_tokens : N;
  ps_accepted_draft_tokens : N
}.

Inductive RequestPhase :=
| NeedsPrefill
| AwaitingDecode (token : Z)
| InFlight (batch : N).
#[export] Instance RequestPhase_eq_dec : EqDecision RequestPhase.
Proof. solve_decision. Defined.

(** src/src/continuous_batch/lifecycle.rs *)
Inductive KvAdmissionPolicy := OnDemand | ReserveSequenceCapacity.
#[export] Instance KvAdmissionPolicy_eq_dec : EqDecision KvAdmissionPolicy.
Proof. solve_decision. Defined.

Record ContinuousBatchOptions := mk_options {
  max_pending_requests : option nat;
  kv_admission : KvAdmissionPolicy
}.
Definition default_options : ContinuousBatchOptions := mk_options None OnDemand.

Definition validate_options (o : ContinuousBatchOptions) : res ContinuousBatchError unit :=
  if decide (max_pending_requests o = Some 0) then
    Err "max_pending_requests must be positive when set"
  else Ok tt.

Record CancelledGeneration := mk_cancelled {
  cg_request_id : RequestId;
  cg_prompt_token_ids : list Z;
  cg_generated_token_ids : list Z
}.

(** No overflow: [submit] has checked the sum with [checked_add]. *)
Definition request_page_budget (prompt_length : nat) (generation : GreedyGenerationConfig)
    (bs : nat) : nat :=
  div_ceil (prompt_length + (max_new_tokens generation - 1)) bs.

(** [&history[from..to]] starting with the last [n] tokens of [history]: the
    inner loop of [ngram_draft], [starts] in decreasing order. *)
Fixpoint ngram_scan (history pattern : list Z) (n draft : nat) (starts : list nat) :
    option (list Z) :=
  match starts with
  | [] => None
  | start :: rest =>
      if decide (take n (drop start history) = pattern) then
        let from := start + n in
        let to := Nat.min (from + draft) (length history) in
        if decide (from < to) then Some (take (to - from) (drop from history))
        else ngram_scan history pattern n draft rest
      else ngram_scan history pattern n draft rest
  end.

Fixpoint ngram_search (history : list Z) (draft : nat) (ns : list nat) : list Z :=
  match ns with
  | [] => []
  | n :: rest =>
      let pattern := drop (length history - n) history in
      match ngram_scan history pattern n draft (reverse (seq 0 (length history - n))) with
      | Some tokens => tokens
      | None => ngram_search history draft rest
      end
  end.

Definition ngram_draft (history : list Z) (ngram draft_tokens : nat) : list Z :=
  ngram_search history draft_tokens
    (reverse (seq 1 (Nat.min ngram (length history - 1)))).

(** The sampler of a request is opaque to the scheduler. *)
Section Scheduler.
Context {TokenSampler : Type}.

Record PendingRequest := mk_pending {
  pr_id : RequestId;
  pr_prompt_token_ids : list Z;
  pr_generation : GreedyGenerationConfig;
  pr_sampler : option TokenSampler
}.

Record ActiveRequest := mk_active {
  rq_prompt_token_ids : list Z;
  rq_generation : GreedyGenerationConfig;
  rq_sampler : option TokenSampler;
  rq_eos : gset Z;
  rq_generated_token_ids : list Z;
  rq_history : list Z;
  rq_admitted : N;
  rq_phase : RequestPhase
}.

Record ContinuousBatchScheduler := mk_scheduler {
  batch_config : ContinuousBatchConfig;
  options : ContinuousBatchOptions;
  kv_cache : PagedKvCacheManager;
  pending_requests : list PendingRequest;
  deferred_prefill : gset N;
  active : gmap N ActiveRequest;
  finished : list FinishedGeneration;
  in_flight : option ScheduledBatch;
  prefer_prefill : bool;
  next_request : N;
  next_batch : N;
  prefill_chunk_tokens : option nat;
  admission_ceiling : option RequestId;
  recompute_preemption : bool;
  next_admission : N;
  preemptions : N;
  speculative : option SpeculativeConfig;
  speculative_turn : bool;
  drafted_tokens : N;
  accepted_draft_tokens : N
}.

(** Field updates. *)
Definition set_batch_config (x : ContinuousBatchConfig) (m : ContinuousBatchScheduler) : ContinuousBatchScheduler :=
  mk_scheduler x (m.(options)) (m.(kv_cache)) (m.(pending_requests)) (m.(deferred_prefill)) (m.(active)) (m.(finished)) (m.(in_flight)) (m.(prefer_prefill)) (m.(next_request)) (m.(next_batch)) (m.(prefill_chunk_tokens)) (m.(admission_ceiling)) (m.(recompute_preemption)) (m.(next_admission)) (m.(preemptions)) (m.(speculative)) (m.(speculative_turn)) (m.(drafted_tokens)) (m.(accepted_draft_tokens)).
Definition set_kv_cache (x : PagedKvCacheManager) (m : ContinuousBatchScheduler) : ContinuousBatchScheduler :=
  mk_scheduler (m.(batch_config)) (m.(options)) x (m.(pending_requests)) (m.(deferred_prefill)) (m.(active)) (m.(finished)) (m.(in_flight)) (m.(prefer_prefill)) (m.(next_request)) (m.(next_batch)) (m.(prefill_chunk_tokens)) (m.(admission_ceiling)) (m.(recompute_preemption)) (m.(next_admission)) (m.(preemptions)) (m.(speculative)) (m.(speculative_turn)) (m.(drafted_tokens)) (m.(accepted_draft_tokens)).
Definition set_pending_requests (x : list PendingRequest) (m : ContinuousBatchScheduler) : ContinuousBatchScheduler :=
  mk_scheduler (m.(batch_config)) (m.(options)) (m.(kv_cache)) x (m.(deferred_prefill)) (m.(active)) (m.(finished)) (m.(in_flight)) (m.(prefer_prefill)) (m.(next_request)) (m.(next_batch)) (m.(prefill_chunk_tokens)) (m.(admission_ceiling)) (m.(recompute_preemption)) (m.(next_admission)) (m.(preemptions)) (m.(speculative)) (m.(speculative_turn)) (m.(drafted_tokens)) (m.(accepted_draft_tokens)).
Definition set_deferred_prefill (x : gset N) (m : ContinuousBatchScheduler) : ContinuousBatchScheduler :=
  mk_scheduler (m.(batch_config)) (m.(options)) (m.(kv_cache)) (m.(pending_requests)) x (m.(active)) (m.(finished)) (m.(in_flight)) (m.(prefer_prefill)) (m.(next_request)) (m.(next_batch)) (m.(prefill_chunk_tokens)) (m.(admission_ceiling)) (m.(recompute_preemption)) (m.(next_admission)) (m.(preemptions)) (m.(speculative)) (m.(speculative_turn)) (m.(drafted_tokens)) (m.(accepted_draft_tokens)).
Definition set_active (x : gmap N ActiveRequest) (m : ContinuousBatchScheduler) : ContinuousBatchScheduler :=
  mk_scheduler (m.(batch_config)) (m.(options)) (m.(kv_cache)) (m.(pending_requests)) (m.(deferred_prefill)) x (m.(finished)) (m.(in_flight)) (m.(prefer_prefill)) (m.(next_request)) (m.(next_batch)) (m.(prefill_chunk_tokens)) (m.(admission_ceiling)) (m.(recompute_preemption)) (m.(next_admission)) (m.(preemptions)) (m.(speculative)) (m.(speculative_turn)) (m.(drafted_tokens)) (m.(accepted_draft_tokens)).
Definition set_finished (x : list FinishedGeneration) (m : ContinuousBatchScheduler) : ContinuousBatchScheduler :=
  mk_scheduler (m.(batch_config)) (m.(options)) (m.(kv_cache)) (m.(pending_requests)) (m.(deferred_prefill)) (m.(active)) x (m.(in_flight)) (m.(prefer_prefill)) (m.(next_request)) (m.(next_batch)) (m.(prefill_chunk_tokens)) (m.(admission_ceiling)) (m.(recompute_preemption)) (m.(next_admission)) (m.(preemptions)) (m.(speculative)) (m.(speculative_turn)) (m.(drafted_tokens)) (m.(accepted_draft_tokens)).
Definition set_in_flight (x : option ScheduledBatch) (m : ContinuousBatchScheduler) : ContinuousBatchScheduler :=
  mk_scheduler (m.(batch_config)) (m.(options)) (m.(kv_cache)) (m.(pending_requests)) (m.(deferred_prefill)) (m.(active)) (m.(finished)) x (m.(prefer_prefill)) (m.(next_request)) (m.(next_batch)) (m.(prefill_chunk_tokens)) (m.(admission_ceiling)) (m.(recompute_preemption)) (m.(next_admission)) (m.(preemptions)) (m.(speculative)) (m.(speculative_turn)) (m.(drafted_tokens)) (m.(accepted_draft_tokens)).
Definition set_prefer_prefill (x : bool) (m : ContinuousBatchScheduler) : ContinuousBatchScheduler :=
  mk_scheduler (m.(batch_config)) (m.(options)) (m.(kv_cache)) (m.(pending_requests)) (m.(deferred_prefill)) (m.(active)) (m.(finished)) (m.(in_flight)) x (m.(next_request)) (m.(next_batch)) (m.(prefill_chunk_tokens)) (m.(admission_ceiling)) (m.(recompute_preemption)) (m.(next_admission)) (m.(preemptions)) (m.(speculative)) (m.(speculative_turn)) (m.(drafted_tokens)) (m.(accepted_draft_tokens)).
Definition set_next_request (x : N) (m : ContinuousBatchScheduler) : ContinuousBatchScheduler :=
  mk_scheduler (m.(batch_config)) (m.(options)) (m.(kv_cache)) (m.(pending_requests)) (m.(deferred_prefill)) (m.(active)) (m.(finished)) (m.(in_flight)) (m.(prefer_prefill)) x (m.(next_batch)) (m.(prefill_chunk_tokens)) (m.(admission_ceiling)) (m.(recompute_preemption)) (m.(next_admission)) (m.(preemptions)) (m.(speculative)) (m.(speculative_turn)) (m.(drafted_tokens)) (m.(accepted_draft_tokens)).
Definition set_next_batch (x : N) (m : ContinuousBatchScheduler) : ContinuousBatchScheduler :=
  mk_scheduler (m.(batch_config)) (m.(options)) (m.(kv_cache)) (m.(pending_requests)) (m.(deferred_prefill)) (m.(active)) (m.(finished)) (m.(in_flight)) (m.(prefer_prefill)) (m.(next_request)) x (m.(prefill_chunk_tokens)) (m.(admission_ceiling)) (m.(recompute_preemption)) (m.(next_admission)) (m.(preemptions)) (m.(speculative)) (m.(speculative_turn)) (m.(drafted_tokens)) (m.(accepted_draft_tokens)).
Definition set_prefill_chunk_tokens (x : option nat) (m : ContinuousBatchScheduler) : ContinuousBatchScheduler :=
  mk_scheduler (m.(batch_config)) (m.(options)) (m.(kv_cache)) (m.(pending_requests)) (m.(deferred_prefill)) (m.(active)) (m.(finished)) (m.(in_flight)) (m.(prefer_prefill)) (m.(next_request)) (m.(next_batch)) x (m.(admission_ceiling)) (m.(recompute_preemption)) (m.(next_admission)) (m.(preemptions)) (m.(speculative)) (m.(speculative_turn)) (m.(drafted_tokens)) (m.(accepted_draft_tokens)).
Definition set_admission_ceiling (x : option RequestId) (m : ContinuousBatchScheduler) : ContinuousBatchScheduler :=
  mk_scheduler (m.(batch_config)) (m.(options)) (m.(kv_cache)) (m.(pending_requests)) (m.(deferred_prefill)) (m.(active)) (m.(finished)) (m.(in_flight)) (m.(prefer_prefill)) (m.(next_request)) (m.(next_batch)) (m.(prefill_chunk_tokens)) x (m.(recompute_preemption)) (m.(next_admission)) (m.(preemptions)) (m.(speculative)) (m.(speculative_turn)) (m.(drafted_tokens)) (m.(accepted_draft_tokens)).
Definition set_recompute_preemption (x : bool) (m : ContinuousBatchScheduler) : ContinuousBatchScheduler :=
  mk_scheduler (m.(batch_config)) (m.(options)) (m.(kv_cache)) (m.(pending_requests)) (m.(deferred_prefill)) (m.(active)) (m.(finished)) (m.(in_flight)) (m.(prefer_prefill)) (m.(next_request)) (m.(next_batch)) (m.(prefill_chunk_tokens)) (m.(admission_ceiling)) x (m.(next_admission)) (m.(preemptions)) (m.(speculative)) (m.(speculative_turn)) (m.(drafted_tokens)) (m.(accepted_draft_tokens)).
Definition set_next_admission (x : N) (m : ContinuousBatchScheduler) : ContinuousBatchScheduler :=
  mk_scheduler (m.(batch_config)) (m.(options)) (m.(kv_cache)) (m.(pending_requests)) (m.(deferred_prefill)) (m.(active)) (m.(finished)) (m.(in_flight)) (m.(prefer_prefill)) (m.(next_request)) (m.(next_batch)) (m.(prefill_chunk_tokens)) (m.(admission_ceiling)) (m.(recompute_preemption)) x (m.(preemptions)) (m.(speculative)) (m.(speculative_turn)) (m.(drafted_tokens)) (m.(accepted_draft_tokens)).
Definition set_preemptions (x : N) (m : ContinuousBatchScheduler) : ContinuousBatchScheduler :=
  mk_scheduler (m.(batch_config)) (m.(options)) (m.(kv_cache)) (m.(pending_requests)) (m.(deferred_prefill)) (m.(active)) (m.(finished)) (m.(in_flight)) (m.(prefer_prefill)) (m.(next_request)) (m.(next_batch)) (m.(prefill_chunk_tokens)) (m.(admission_ceiling)) (m.(recompute_preemption)) (m.(next_admission)) x (m.(speculative)) (m.(speculative_turn)) (m.(drafted_tokens)) (m.(accepted_draft_tokens)).
Definition set_speculative_config (x : option SpeculativeConfig) (m : ContinuousBatchScheduler) : ContinuousBatchScheduler :=
  mk_scheduler (m.(batch_config)) (m.(options)) (m.(kv_cache)) (m.(pending_requests)) (m.(deferred_prefill)) (m.(active)) (m.(finished)) (m.(in_flight)) (m.(prefer_prefill)) (m.(next_request)) (m.(next_batch)) (m.(prefill_chunk_tokens)) (m.(admission_ceiling)) (m.(recompute_preemption)) (m.(next_admission)) (m.(preemptions)) x (m.(speculative_turn)) (m.(drafted_tokens)) (m.(accepted_draft_tokens)).
Definition set_speculative_turn (x : bool) (m : ContinuousBatchScheduler) : ContinuousBatchScheduler :=
  mk_scheduler (m.(batch_config)) (m.(options)) (m.(kv_cache)) (m.(pending_requests)) (m.(deferred_prefill)) (m.(active)) (m.(finished)) (m.(in_flight)) (m.(prefer_prefill)) (m.(next_request)) (m.(next_batch)) (m.(prefill_chunk_tokens)) (m.(admission_ceiling)) (m.(recompute_preemption)) (m.(next_admission)) (m.(preemptions)) (m.(speculative)) x (m.(drafted_tokens)) (m.(accepted_draft_tokens)).
Definition set_drafted_tokens (x : N) (m : ContinuousBatchScheduler) : ContinuousBatchScheduler :=
  mk_scheduler (m.(batch_config)) (m.(options)) (m.(kv_cache)) (m.(pending_requests)) (m.(deferred_prefill)) (m.(active)) (m.(finished)) (m.(in_flight)) (m.(prefer_prefill)) (m.(next_request)) (m.(next_batch)) (m.(prefill_chunk_tokens)) (m.(admission_ceiling)) (m.(recompute_preemption)) (m.(next_admission)) (m.(preemptions)) (m.(speculative)) (m.(speculative_turn)) x (m.(accepted_draft_tokens)).
Definition set_accepted_draft_tokens (x : N) (m : ContinuousBatchScheduler) : ContinuousBatchScheduler :=
  mk_scheduler (m.(batch_config)) (m.(options)) (m.(kv_cache)) (m.(pending_requests)) (m.(deferred_prefill)) (m.(active)) (m.(finished)) (m.(in_flight)) (m.(prefer_prefill)) (m.(next_request)) (m.(next_batch)) (m.(prefill_chunk_tokens)) (m.(admission_ceiling)) (m.(recompute_preemption)) (m.(next_admission)) (m.(preemptions)) (m.(speculative)) (m.(speculative_turn)) (m.(drafted_tokens)) x.

Definition set_phase (x : RequestPhase) (r : ActiveRequest) : ActiveRequest :=
  mk_active (rq_prompt_token_ids r) (rq_generation r) (rq_sampler r) (rq_eos r)
    (rq_generated_token_ids r) (rq_history r) (rq_admitted r) x.
(** [request.generated_token_ids.extend(ts); request.history.extend(ts)] *)
Definition append_tokens (ts : list Z) (r : ActiveRequest) : ActiveRequest :=
  mk_active (rq_prompt_token_ids r) (rq_generation r) (rq_sampler r) (rq_eos r)
    (rq_generated_token_ids r ++ ts) (rq_history r ++ ts) (rq_admitted r) (rq_phase r).
Definition set_sampler (x : option TokenSampler) (r : ActiveRequest) : ActiveRequest :=
  mk_active (rq_prompt_token_ids r) (rq_generation r) x (rq_eos r)
    (rq_generated_token_ids r) (rq_history r) (rq_admitted r) (rq_phase r).

Notation SM := (M ContinuousBatchScheduler ContinuousBatchError) (only parsing).

(** A method of [self.kv_cache], with [?] converting its error. *)
Definition kv {A} (m : M PagedKvCacheManager PagedKvError A) : SM A := λ s,
  ((m (kv_cache s)).1, set_kv_cache (m (kv_cache s)).2 s).

Definition put_active (id : RequestId) (r : ActiveRequest) : SM unit :=
  mmodify (λ s, set_active (<[id := r]> (active s)) s).

Definition with_options (c : ContinuousBatchConfig) (kv_config : PagedKvCacheConfig)
    (o : ContinuousBatchOptions) : res ContinuousBatchError ContinuousBatchScheduler :=
  do? _ := validate_batch_config c in
  do? _ := validate_options o in
  do? cache := new kv_config in
  Ok {| batch_config := c; options := o; kv_cache := cache; pending_requests := [];
        deferred_prefill := ∅; active := ∅; finished := []; in_flight := None;
        prefer_prefill := true; next_request := 1; next_batch := 1;
        prefill_chunk_tokens := None; admission_ceiling := None;
        recompute_preemption := false; next_admission := 0; preemptions := 0;
        speculative := None; speculative_turn := false; drafted_tokens := 0;
        accepted_draft_tokens := 0 |}.

Definition new_scheduler (c : ContinuousBatchConfig) (kv_config : PagedKvCacheConfig) :
    res ContinuousBatchError ContinuousBatchScheduler :=
  with_options c kv_config default_options.

Definition new_paged (c : ContinuousBatchConfig) (kv_config : PagedKvCacheConfig) :
    res ContinuousBatchError ContinuousBatchScheduler :=
  do? s := new_scheduler c kv_config in
  Ok (set_recompute_preemption true (set_prefill_chunk_tokens (Some (max_batch_tokens c)) s)).

Definition scheduler_set_prefix_caching (enabled : bool) : SM unit :=
  kv (set_prefix_caching_enabled enabled).

Definition set_speculative_decoding (c : option SpeculativeConfig) : SM unit :=
  match c with
  | Some c' =>
      if decide (draft_tokens c' = 0 ∨ ngram c' = 0) then
        mthrow "speculative draft_tokens and ngram must be non-zero"
      else mmodify (set_speculative_config c)
  | None => mmodify (set_speculative_config c)
  end.

Definition submit_with_sampler (prompt : list Z) (generation : GreedyGenerationConfig)
    (sampler : option TokenSampler) : SM RequestId :=
  if decide (prompt = []) then mthrow "continuous generation prompt must not be empty" else
  let! s := mget in
  if decide (prefill_chunk_tokens s = None ∧ max_batch_tokens (batch_config s) < length prompt) then
    mthrow ("prompt has " +:+ pretty (N.of_nat (length prompt)) +:+
            " tokens, above max_batch_tokens " +:+
            pretty (N.of_nat (max_batch_tokens (batch_config s))))
  else
  let! total_length := mok_or (usize_add (length prompt) (max_new_tokens generation))
                         "request sequence length overflow" in
  let cache := config (kv_cache s) in
  if decide (max_sequence_length cache < total_length) then
    mthrow ("request length " +:+ pretty (N.of_nat total_length) +:+
            " exceeds paged KV capacity " +:+ pretty (N.of_nat (max_sequence_length cache)))
  else if existsb (λ id, bool_decide (id < 0)%Z) (prompt ++ eos_token_ids generation) then
    mthrow "prompt and EOS token IDs must be non-negative"
  else
  let required_pages :=
    match kv_admission (options s) with
    | OnDemand => div_ceil (length prompt) (block_size cache)
    | ReserveSequenceCapacity =>
        request_page_budget (length prompt) generation (block_size cache)
    end in
  if decide (0 < max_new_tokens generation ∧ num_pages cache < required_pages) then
    mthrow ("request needs " +:+ pretty (N.of_nat required_pages) +:+
            " KV pages under the admission policy, but the pool has " +:+
            pretty (N.of_nat (num_pages cache)))
  else if bool_decide (0 < max_new_tokens generation) &&
          match max_pending_requests (options s) with
          | Some limit => bool_decide (limit ≤ length (pending_requests s))
          | None => false
          end then
    mthrow "pending request queue is full"
  else
  let id := next_request s in
  let! next := mok_or (checked_add u64_max id 1) "request id overflow" in
  mmodify (set_next_request next) ;;;
  (if decide (max_new_tokens generation = 0) then
     mmodify (λ s, set_finished (finished s ++ [mk_finished id prompt [] false]) s)
   else
     mmodify (λ s, set_pending_requests
       (pending_requests s ++ [mk_pending id prompt generation sampler]) s)) ;;;
  mret id.

Definition submit (prompt : list Z) (generation : GreedyGenerationConfig) : SM RequestId :=
  submit_with_sampler prompt generation None.

Definition scheduled_sequence (a : PagedKvAppendReservation) (token_ids : list Z) :
    ScheduledSequence :=
  mk_row (ar_request_id a) token_ids (ar_start_position a) (ar_context_length a)
    (ar_block_table a) (ar_id a).

Definition rollback_scheduled_rows (rows : list ScheduledSequence) : SM unit :=
  kv (cancel_appends (map row_reservation_id rows)).

(** The loop of [finish_schedule] over the rows. *)
Definition mark_in_flight (id : N) (row : ScheduledSequence) : SM unit :=
  let! s := mget in
  let! r := mok_or (active s !! row_request_id row)
              ("scheduled request " +:+ pretty (row_request_id row) +:+ " disappeared") in
  put_active (row_request_id row) (set_phase (InFlight id) r).

Definition finish_schedule (kind : ScheduledBatchKind) (rows : list ScheduledSequence) :
    SM (option ScheduledBatch) :=
  if decide (rows = []) then mret None else
  let! s := mget in
  let id := next_batch s in
  match checked_add u64_max id 1 with
  | None => rollback_scheduled_rows rows ;;; mthrow "batch id overflow"
  | Some next =>
      if existsb (λ row, bool_decide (active s !! row_request_id row = None)) rows then
        rollback_scheduled_rows rows ;;; mthrow "scheduled request disappeared"
      else
        mmodify (set_next_batch next) ;;;
        mfor rows (mark_in_flight id) ;;;
        mret (Some (mk_batch id kind rows))
  end.

(** [begin_append], rolling the rows back when it fails. *)
Definition begin_or_rollback (rows : list ScheduledSequence) (id : RequestId) (n : nat) :
    SM PagedKvAppendReservation :=
  mcatch (kv (begin_append id n)) (λ e, rollback_scheduled_rows rows ;;; mthrow e).

Definition prefill_chunk (id : RequestId) (r : ActiveRequest) : SM (nat * nat * bool) :=
  let! s := mget in
  let! committed := kv (committed_tokens_of id) in
  let remaining := length (rq_history r) - committed in
  let chunk := Nat.min (Nat.min remaining (default remaining (prefill_chunk_tokens s)))
                 (max_batch_tokens (batch_config s)) in
  mret (committed, chunk, bool_decide (committed + chunk = length (rq_history r))).

(** [BTreeMap<(usize, bool), Vec<RequestId>>], as its sorted association list. *)
Notation Buckets := (list ((nat * bool) * list RequestId)) (only parsing).

Definition bucket_le (a b : nat * bool) : bool :=
  bool_decide (a.1 < b.1) || (bool_decide (a.1 = b.1) && implb a.2 b.2).

(** [buckets.entry(key).or_default().push(id)] *)
Fixpoint bucket_push (key : nat * bool) (id : RequestId) (l : Buckets) : Buckets :=
  match l with
  | [] => [(key, [id])]
  | (k, ids) :: rest =>
      if decide (k = key) then (k, ids ++ [id]) :: rest
      else if bucket_le key k then (key, [id]) :: (k, ids) :: rest
      else (k, ids) :: bucket_push key id rest
  end.

Fixpoint fill_buckets (requests : list (N * ActiveRequest)) (acc : Buckets) : SM Buckets :=
  match requests with
  | [] => mret acc
  | (id, r) :: rest =>
      let! chunk := prefill_chunk id r in
      let! s := mget in
      if decide (rq_phase r = NeedsPrefill ∧ id ∉ deferred_prefill s ∧ 0 < chunk.1.2) then
        let! fits := kv (can_append id chunk.1.2) in
        fill_buckets rest
          (if fits : bool then bucket_push (chunk.1.2, bool_decide (chunk.1.1 ≠ 0)) id acc else acc)
      else fill_buckets rest acc
  end.

(** The comparison of [max_by].  A bucket is created by a push and its key is
    a positive chunk length, so neither the division nor [right[0]] fails. *)
Definition bucket_fill (limit : nat) (b : (nat * bool) * list RequestId) : nat :=
  Nat.min (length b.2) (limit / b.1.1) * b.1.1.
Definition bucket_cmp (limit : nat) (l r : (nat * bool) * list RequestId) : comparison :=
  match Nat.compare (bucket_fill limit l) (bucket_fill limit r) with
  | Eq => N.compare (hd 0%N r.2) (hd 0%N l.2)
  | c => c
  end.

Fixpoint prefill_rows (candidates : list RequestId) (n max_rows : nat)
    (rows : list ScheduledSequence) : SM (list ScheduledSequence) :=
  match candidates with
  | [] => mret rows
  | id :: rest =>
      if decide (max_rows ≤ length rows) then mret rows else
      let! fits := kv (can_append id n) in
      if fits : bool then
        let! s := mget in
        let! r := mexpect OutOfBounds (active s !! id) in
        let! chunk := prefill_chunk id r in
        (if decide (chunk.1.2 = n) then mret tt else mpanic Expect) ;;;
        let! tokens := mexpect OutOfBounds
          (slice chunk.1.1 (chunk.1.1 + chunk.1.2) (rq_history r)) in
        let! reservation := begin_or_rollback rows id n in
        prefill_rows rest n max_rows (rows ++ [scheduled_sequence reservation tokens])
      else prefill_rows rest n max_rows rows
  end.

Definition schedule_prefill : SM (option ScheduledBatch) :=
  let! s := mget in
  let! buckets := fill_buckets (btree_iter (active s)) [] in
  match max_by (bucket_cmp (max_batch_tokens (batch_config s))) buckets with
  | None => mret None
  | Some (key, candidates) =>
      let max_rows := max_batch_tokens (batch_config s) / key.1 in
      let! rows := prefill_rows candidates key.1 max_rows [] in
      finish_schedule Prefill rows
  end.

(** [(id, token)] of the requests that await a decode step, in id order. *)
Definition awaiting (l : list (N * ActiveRequest)) : list (RequestId * Z) :=
  omap (λ e, match rq_phase e.2 with AwaitingDecode token => Some (e.1, token) | _ => None end) l.

Fixpoint decode_rows (candidates : list (RequestId * Z)) (rows : list ScheduledSequence) :
    SM (list ScheduledSequence) :=
  match candidates with
  | [] => mret rows
  | (id, token) :: rest =>
      let! s := mget in
      if decide (max_batch_tokens (batch_config s) ≤ length rows) then mret rows else
      let! fits := kv (can_append id 1) in
      if fits : bool then
        let! reservation := begin_or_rollback rows id 1 in
        decode_rows rest (rows ++ [scheduled_sequence reservation [token]])
      else decode_rows rest rows
  end.

Definition schedule_decode : SM (option ScheduledBatch) :=
  let! s := mget in
  let! rows := decode_rows (awaiting (btree_iter (active s))) [] in
  finish_schedule Decode rows.

(** Requests with a draft, in id order: [(id, last token, draft)]. *)
Fixpoint verify_candidates (c : SpeculativeConfig) (width : nat)
    (requests : list (N * ActiveRequest)) : SM (list (RequestId * Z * list Z)) :=
  match requests with
  | [] => mret []
  | (id, r) :: rest =>
      match rq_phase r with
      | AwaitingDecode token =>
          let! remaining := mexpect Overflow
            (usize_sub (max_new_tokens (rq_generation r)) (length (rq_generated_token_ids r))) in
          if decide (is_Some (rq_sampler r) ∨ remaining < 2) then verify_candidates c width rest else
          let draft := ngram_draft (rq_history r) (ngram c) (draft_tokens c) in
          if decide (draft = []) then verify_candidates c width rest else
          let! fits := kv (can_append id width) in
          let! more := verify_candidates c width rest in
          mret (if fits : bool then (id, token, draft) :: more else more)
      | _ => verify_candidates c width rest
      end
  end.

(** [draft.resize(n, pad)] *)
Definition resize (n : nat) (pad : Z) (l : list Z) : list Z :=
  take n l ++ replicate (n - length l) pad.

Fixpoint verify_rows (c : SpeculativeConfig) (width max_rows : nat)
    (candidates : list (RequestId * Z * list Z)) (rows : list ScheduledSequence) :
    SM (list ScheduledSequence) :=
  match candidates with
  | [] => mret rows
  | (id, token, draft) :: rest =>
      if decide (max_rows ≤ length rows) then mret rows else
      let! fits := kv (can_append id width) in
      if fits : bool then
        let! pad := mexpect Expect (last draft) in
        let tokens := token :: resize (draft_tokens c) pad draft in
        let! reservation := kv (begin_append id width) in
        verify_rows c width max_rows rest (rows ++ [scheduled_sequence reservation tokens])
      else verify_rows c width max_rows rest rows
  end.

Definition schedule_verify : SM (option ScheduledBatch) :=
  let! s := mget in
  match speculative s with
  | None => mret None
  | Some c =>
      let! width := mexpect Overflow (usize_add (draft_tokens c) 1) in
      let max_rows := max_batch_tokens (batch_config s) / width in
      if decide (max_rows = 0) then mret None else
      let! candidates := verify_candidates c width (btree_iter (active s)) in
      let! rows := verify_rows c width max_rows candidates [] in
      finish_schedule Verify rows
  end.

Definition try_schedule : SM (option ScheduledBatch) :=
  let! s := mget in
  let! first := (if prefer_prefill s then schedule_prefill else mret None) in
  match first with
  | Some batch => mmodify (set_prefer_prefill false) ;;; mret (Some batch)
  | None =>
  mmodify (λ s, set_speculative_turn (negb (speculative_turn s)) s) ;;;
  let! s := mget in
  let! second := (if speculative_turn s then schedule_verify else mret None) in
  match second with
  | Some batch => mmodify (set_prefer_prefill true) ;;; mret (Some batch)
  | None =>
  let! third := schedule_decode in
  match third with
  | Some batch => mmodify (set_prefer_prefill true) ;;; mret (Some batch)
  | None =>
  let! fourth := schedule_prefill in
  match fourth with
  | Some batch => mmodify (set_prefer_prefill false) ;;; mret (Some batch)
  | None => mret None
  end end end end.

(** The requests that hold pages, as [(admitted, id)]. *)
Fixpoint page_holders (requests : list (N * ActiveRequest)) : SM (list (N * RequestId)) :=
  match requests with
  | [] => mret []
  | (id, r) :: rest =>
      match rq_phase r with
      | InFlight _ => page_holders rest
      | _ =>
          let! table := kv (block_table id) in
          let! more := page_holders rest in
          mret (if decide (table = []) then more else (rq_admitted r, id) :: more)
      end
  end.

(** [Ord] on [(u64, RequestId)]. *)
Definition holder_cmp (a b : N * RequestId) : comparison :=
  match N.compare a.1 b.1 with Eq => N.compare a.2 b.2 | c => c end.

Definition preempt_newest : SM bool :=
  let! s := mget in
  let! holders := page_holders (btree_iter (active s)) in
  if decide (length holders ≤ 1) then mret false else
  let! newest := mexpect Expect (max_by holder_cmp holders) in
  let victim := newest.2 in
  kv (remove_sequence victim) ;;;
  kv (create_sequence victim) ;;;
  let! s := mget in
  let! r := mexpect Expect (active s !! victim) in
  put_active victim (set_phase NeedsPrefill r) ;;;
  let! s := mget in
  let! count := mexpect Overflow (checked_add u64_max (preemptions s) 1) in
  mmodify (set_preemptions count) ;;;
  mmodify (set_prefer_prefill false) ;;;
  mret true.

(** The [loop] of [schedule]; each turn but the last preempts a request. *)
Fixpoint schedule_loop (fuel : nat) : SM (option ScheduledBatch) :=
  match fuel with
  | O => mpanic OutOfFuel
  | S fuel' =>
      let! attempt := try_schedule in
      match attempt with
      | Some batch => mmodify (set_in_flight (Some batch)) ;;; mret (Some batch)
      | None =>
          let! s := mget in
          let! preempted := (if recompute_preemption s then preempt_newest else mret false) in
          if preempted : bool then schedule_loop fuel' else mret None
      end
  end.

Definition take_batch (id : N) : SM ScheduledBatch :=
  let! s := mget in
  mmodify (set_in_flight None) ;;;
  let! batch := mok_or (in_flight s) ("batch " +:+ pretty id +:+ " is not in flight") in
  if decide (batch_id batch ≠ id) then
    mmodify (set_in_flight (Some batch)) ;;;
    mthrow ("batch " +:+ pretty id +:+ " cannot complete while batch " +:+
            pretty (batch_id batch) +:+ " is in flight")
  else mret batch.

Definition samples_token (s : ContinuousBatchScheduler) (row : ScheduledSequence) : bool :=
  match active s !! row_request_id row with
  | Some r => bool_decide (length (rq_history r) ≤ row_context_length row)
  | None => false
  end.

(** [self.in_flight = Some(batch); return Err(error)] *)
Definition put_back {A} (batch : ScheduledBatch) (error : ContinuousBatchError) : SM A :=
  mmodify (set_in_flight (Some batch)) ;;; mthrow error.

(** The [find_map] of [complete_batch]. *)
Fixpoint ownership_error (s : ContinuousBatchScheduler) (id : N) (rows : list ScheduledSequence) :
    option ContinuousBatchError :=
  match rows with
  | [] => None
  | row :: rest =>
      match active s !! row_request_id row with
      | None => Some ("batch references missing request " +:+ pretty (row_request_id row))
      | Some r =>
          if decide (rq_phase r ≠ InFlight id) then
            Some ("request " +:+ pretty (row_request_id row) +:+ " is not owned by batch " +:+
                  pretty id)
          else ownership_error s id rest
      end
  end.

(** A finished request leaves the active set and the KV cache. *)
Definition finish_request (id : RequestId) (stopped_on_eos : bool) : SM unit :=
  let! s := mget in
  let! r := mexpect Expect (active s !! id) in
  mmodify (λ s, set_active (delete id (active s)) s) ;;;
  kv (remove_sequence id) ;;;
  mmodify (λ s, set_finished (finished s ++
    [mk_finished id (rq_prompt_token_ids r) (rq_generated_token_ids r) stopped_on_eos]) s).

(** One iteration of the last loop of [complete_batch]. *)
Definition complete_row (entry : ScheduledSequence * Z) : SM unit :=
  let id := row_request_id entry.1 in
  let token := entry.2 in
  let! s := mget in
  let! r := mexpect Expect (active s !! id) in
  if decide (row_context_length entry.1 < length (rq_history r)) then
    put_active id (set_phase NeedsPrefill r)
  else
    let r' := append_tokens [token] r in
    put_active id r' ;;;
    let stopped_on_eos := bool_decide (token ∈ rq_eos r') in
    if stopped_on_eos || bool_decide (max_new_tokens (rq_generation r') ≤
                                      length (rq_generated_token_ids r')) then
      finish_request id stopped_on_eos
    else put_active id (set_phase (AwaitingDecode token) r').

(** One iteration of the last loop of [fail_batch]. *)
Definition fail_row (kind : ScheduledBatchKind) (row : ScheduledSequence) : SM unit :=
  let! s := mget in
  let! r := mexpect Expect (active s !! row_request_id row) in
  let! phase :=
    match kind with
    | Prefill => mret NeedsPrefill
    | Decode | Verify =>
        let! token := mexpect OutOfBounds (row_token_ids row !! 0) in
        mret (AwaitingDecode token)
    end in
  put_active (row_request_id row) (set_phase phase r).

Definition fail_batch (id : N) : SM unit :=
  let! batch := take_batch id in
  let! s := mget in
  if existsb (λ row, negb (bool_decide (rq_phase <$> active s !! row_request_id row
                                        = Some (InFlight id)))) (batch_sequences batch) then
    put_back batch "failed batch does not own every request"
  else
    mcatch (kv (cancel_appends (map row_reservation_id (batch_sequences batch))))
      (put_back batch) ;;;
    mfor (batch_sequences batch) (fail_row (batch_kind batch)).

Definition pop_finished : SM (option FinishedGeneration) :=
  let! s := mget in
  match finished s with
  | [] => mret None
  | f :: rest => mmodify (set_finished rest) ;;; mret (Some f)
  end.

Definition batch_snapshot (s : ContinuousBatchScheduler) : ContinuousBatchSnapshot :=
  mk_batch_snapshot (length (pending_requests s)) (size (active s))
    (bool_decide (is_Some (in_flight s))) (length (finished s))
    (free_page_count (kv_cache s)) (num_pages (config (kv_cache s))).

Definition paged_snapshot (s : ContinuousBatchScheduler) : PagedBatchSnapshot :=
  mk_paged_snapshot (batch_snapshot s) (preemptions s) (reused_tokens (kv_cache s))
    (drafted_tokens s) (accepted_draft_tokens s).

Definition generated_tokens (s : ContinuousBatchScheduler) (id : RequestId) : option (list Z) :=
  rq_generated_token_ids <$> active s !! id.

Definition is_idle (s : ContinuousBatchScheduler) : bool :=
  bool_decide (pending_requests s = []) && bool_decide (active s = ∅) &&
  bool_decide (in_flight s = None).

(** [position] of the first queued request that matches, with the request. *)
Definition find_pending (ready : PendingRequest → bool) (l : list PendingRequest) :
    option (nat * PendingRequest) :=
  list_find (λ r, ready r = true) l.

Definition cancel (id : RequestId) : SM (option CancelledGeneration) :=
  let! s := mget in
  match find_pending (λ r, bool_decide (pr_id r = id)) (pending_requests s) with
  | Some (position, r) =>
      mmodify (λ s, set_pending_requests (delete position (pending_requests s)) s) ;;;
      mmodify (λ s, set_deferred_prefill (deferred_prefill s ∖ {[id]}) s) ;;;
      mret (Some (mk_cancelled id (pr_prompt_token_ids r) []))
  | None =>
      match active s !! id with
      | None => mret None
      | Some r =>
          match rq_phase r with
          | InFlight batch =>
              mthrow ("request " +:+ pretty id +:+ " belongs to in-flight batch " +:+
                      pretty batch +:+ "; finish device work before cancelling")
          | _ =>
              kv (remove_sequence id) ;;;
              let! s := mget in
              let! r := mexpect Expect (active s !! id) in
              mmodify (λ s, set_active (delete id (active s)) s) ;;;
              mmodify (λ s, set_deferred_prefill (deferred_prefill s ∖ {[id]}) s) ;;;
              mret (Some (mk_cancelled id (rq_prompt_token_ids r) (rq_generated_token_ids r)))
          end
      end
  end.

Definition minimum_batch_token_limit (s : ContinuousBatchScheduler) : nat :=
  match prefill_chunk_tokens s with
  | Some _ => 1
  | None =>
      let queued := map (λ r, length (pr_prompt_token_ids r)) (pending_requests s) in
      let waiting := map (λ e, length (rq_prompt_token_ids e.2))
        (filter (λ e, rq_phase e.2 = NeedsPrefill) (btree_iter (active s))) in
      match queued ++ waiting with
      | [] => Nat.max 1 1
      | lengths => Nat.max (max_list lengths) 1
      end
  end.

Definition set_batch_token_limit (limit : nat) : SM unit :=
  let! s := mget in
  if decide (is_Some (in_flight s)) then
    mthrow "cannot change token limit while a batch is in flight"
  else
    let minimum := minimum_batch_token_limit s in
    if decide (limit < minimum) then
      mthrow ("token limit " +:+ pretty (N.of_nat limit) +:+
              " would strand a prompt requiring " +:+ pretty (N.of_nat minimum) +:+ " tokens")
    else
      mmodify (λ s, set_batch_config
        (mk_batch_config (max_active_sequences (batch_config s)) limit) s).

(** [complete_verify_batch]: the tokens a row produces.  [predictions] are the
    ones from [position] on, [produced] those before. *)
Fixpoint accept_draft (width remaining : nat) (eos : gset Z) (row : list Z)
    (predictions : list Z) (position : nat) (produced : list Z) :
    res ContinuousBatchError (list Z) :=
  match predictions with
  | [] => Ok produced
  | prediction :: rest =>
      let produced := produced ++ [prediction] in
      if decide (length produced = remaining ∨ prediction ∈ eos) then Ok produced else
      if decide (width ≤ position + 1) then Ok produced else
      match row !! (position + 1) with
      | None => Panic OutOfBounds
      | Some draft =>
          if decide (draft ≠ prediction) then Ok produced
          else accept_draft width remaining eos row rest (position + 1) produced
      end
  end.

(** The body of [reserve_lookahead]'s loop. *)
Fixpoint lookahead_rows (wanted : nat) (rows : list ScheduledSequence) (budget : nat)
    (reserved : gmap N PagedKvAppendReservation) :
    SM (gmap N PagedKvAppendReservation) :=
  match rows with
  | [] => mret reserved
  | row :: rest =>
      let! s := mget in
      let! r := mexpect OutOfBounds (active s !! row_request_id row) in
      let remaining := max_new_tokens (rq_generation r) - length (rq_generated_token_ids r) in
      let cache := config (kv_cache s) in
      let! room := mexpect Overflow
        (usize_sub (max_sequence_length cache) (row_context_length row)) in
      let extra := Nat.min (Nat.min (Nat.min wanted budget) (remaining - 1)) room in
      let new_pages :=
        div_ceil (row_context_length row + extra) (block_size cache) - length (row_block_table row) in
      if decide (0 < extra ∧ new_pages ≤ free_page_count (kv_cache s)) then
        let! reservation := kv (extend_append (row_reservation_id row) extra) in
        lookahead_rows wanted rest (budget - extra)
          (<[row_request_id row := reservation]> reserved)
      else lookahead_rows wanted rest budget reserved
  end.

Definition reserve_lookahead (batch : ScheduledBatch) (wanted : nat) :
    SM (gmap N PagedKvAppendReservation) :=
  if decide (wanted = 0 ∨ batch_kind batch ≠ Decode) then mret ∅ else
  let! s := mget in
  lookahead_rows wanted (batch_sequences batch)
    (max_batch_tokens (batch_config s) - batch_size batch) ∅.

Section Hashed.
Context `{DefaultHasher}.

Definition ready_pending (s : ContinuousBatchScheduler) (r : PendingRequest) : bool :=
  bool_decide (pr_id r ∉ deferred_prefill s) &&
  match admission_ceiling s with
  | None => true
  | Some ceiling => bool_decide (pr_id r < ceiling)%N
  end.

(** [request_page_budget] of an active request. *)
Definition active_budget (bs : nat) (r : ActiveRequest) : nat :=
  request_page_budget (length (rq_prompt_token_ids r)) (rq_generation r) bs.

(** The pages not budgeted to active requests, [None] when they exceed the pool. *)
Fixpoint unreserved_pages (bs available : nat) (l : list (N * ActiveRequest)) : option nat :=
  match l with
  | [] => Some available
  | e :: rest =>
      left ← usize_sub available (active_budget bs e.2);
      unreserved_pages bs left rest
  end.

Definition admit_request (r : PendingRequest) : SM unit :=
  let! _ := kv (create_sequence_with_prefix (pr_id r) (pr_prompt_token_ids r)) in
  let! s := mget in
  let admitted := next_admission s in
  let! next := mexpect Overflow (checked_add u64_max admitted 1) in
  mmodify (set_next_admission next) ;;;
  put_active (pr_id r)
    (mk_active (pr_prompt_token_ids r) (pr_generation r) (pr_sampler r)
       (list_to_set (eos_token_ids (pr_generation r))) [] (pr_prompt_token_ids r) admitted
       NeedsPrefill).

(** The [while] loop of [promote_pending]; each turn admits a queued request. *)
Fixpoint promote_loop (fuel available : nat) : SM unit :=
  match fuel with
  | O => mpanic OutOfFuel
  | S fuel' =>
      let! s := mget in
      if decide (max_active_sequences (batch_config s) ≤ size (active s)) then mret tt else
      match find_pending (ready_pending s) (pending_requests s) with
      | None => mret tt
      | Some (position, r) =>
          let reserve := bool_decide (kv_admission (options s) = ReserveSequenceCapacity) in
          let budget := request_page_budget (length (pr_prompt_token_ids r)) (pr_generation r)
                          (block_size (config (kv_cache s))) in
          if reserve && bool_decide (available < budget) then mret tt else
          mmodify (λ s, set_pending_requests (delete position (pending_requests s)) s) ;;;
          admit_request r ;;;
          promote_loop fuel' (if reserve then available - budget else available)
      end
  end.

Definition promote_pending : SM unit :=
  let! s := mget in
  let cache := config (kv_cache s) in
  let! available :=
    match kv_admission (options s) with
    | OnDemand => mret (num_pages cache)
    | ReserveSequenceCapacity =>
        mok_or (unreserved_pages (block_size cache) (num_pages cache) (btree_iter (active s)))
          "active KV page budgets exceed the pool"
    end in
  promote_loop (S (length (pending_requests s))) available.

Definition schedule : SM (option ScheduledBatch) :=
  let! s := mget in
  match in_flight s with
  | Some batch => mthrow ("batch " +:+ pretty (batch_id batch) +:+ " is still in flight")
  | None =>
      if decide (next_batch s = u64_max) then mthrow "batch id overflow" else
      promote_pending ;;;
      let! s := mget in
      schedule_loop (S (S (size (active s))))
  end.

(** The publication loop of [complete_batch]. *)
Definition publish_row (row : ScheduledSequence) : SM unit :=
  let! s := mget in
  let! r := mexpect OutOfBounds (active s !! row_request_id row) in
  kv (register_prefix (row_request_id row) (rq_history r)).

Definition complete_batch (id : N) (tokens : list Z) : SM unit :=
  let! batch := take_batch id in
  let rows := batch_sequences batch in
  let! s := mget in
  if decide (length tokens ≠ length rows) then
    put_back batch ("batch " +:+ pretty id +:+ " has " +:+ pretty (N.of_nat (length rows)) +:+
                    " rows but " +:+ pretty (N.of_nat (length tokens)) +:+
                    " generated tokens were supplied")
  else if existsb (λ e, samples_token s e.1 && bool_decide (e.2 < 0)%Z) (zip rows tokens) then
    put_back batch "generated token IDs must be non-negative"
  else
  match ownership_error s id rows with
  | Some error => put_back batch error
  | None =>
      let! _ := mcatch (kv (commit_append_prefixes
                  (map (λ row, (row_reservation_id row, length (row_token_ids row))) rows)))
                  (put_back batch) in
      mfor rows publish_row ;;;
      mfor (zip rows tokens) complete_row
  end.

(** One row of [complete_verify_batch]. *)
Definition verify_row (width : nat) (argmax : list Z) (entry : nat * ScheduledSequence) :
    SM (RequestId * list Z) :=
  let sequence := entry.2 in
  let id := row_request_id sequence in
  let! predictions := mexpect OutOfBounds (slice (entry.1 * width) ((entry.1 + 1) * width) argmax) in
  let! s := mget in
  let! r := mok_or (active s !! id) ("batch references missing request " +:+ pretty id) in
  let! remaining := mexpect Overflow
    (usize_sub (max_new_tokens (rq_generation r)) (length (rq_generated_token_ids r))) in
  let! produced :=
    mlift (accept_draft width remaining (rq_eos r) (row_token_ids sequence) predictions 0 []) in
  let! drafts := mexpect Overflow (usize_sub width 1) in
  let! drafted := mexpect Overflow (checked_add u64_max (drafted_tokens s) (N.of_nat drafts)) in
  mmodify (set_drafted_tokens drafted) ;;;
  let! good := mexpect Overflow (usize_sub (length produced) 1) in
  let! accepted := mexpect Overflow
    (checked_add u64_max (accepted_draft_tokens s) (N.of_nat good)) in
  mmodify (set_accepted_draft_tokens accepted) ;;;
  let! _ := kv (commit_append_partial (row_reservation_id sequence) (length produced)) in
  let! s := mget in
  let! r := mexpect Expect (active s !! id) in
  let r' := append_tokens produced r in
  put_active id r' ;;;
  let! final := mexpect Expect (last produced) in
  let stopped_on_eos := bool_decide (final ∈ rq_eos r') in
  kv (register_prefix id (rq_history r')) ;;;
  (if stopped_on_eos || bool_decide (max_new_tokens (rq_generation r') ≤
                                     length (rq_generated_token_ids r')) then
     finish_request id stopped_on_eos
   else put_active id (set_phase (AwaitingDecode final) r')) ;;;
  mret (id, produced).

Definition complete_verify_batch (id : N) (argmax : list Z) :
    SM (list (RequestId * list Z)) :=
  let! batch := take_batch id in
  let width := next_n batch in
  if decide (batch_kind batch ≠ Verify ∨ length argmax ≠ batch_size batch * width) then
    put_back batch "verification argmax does not match the in-flight batch"
  else
    mmap (imap pair (batch_sequences batch)) (verify_row width argmax).
End Hashed.
End Scheduler.
