(* ===== verification/ContinuousBatchInv.v ===== *)
(** * The invariant of the continuous batching scheduler

    [sched_wf] ties the phase of every request to the state of its KV sequence:
    a request that is not in flight has no append pending and knows how much of
    its history is committed; a request in flight is a row of the one batch in
    flight, whose reservation covers exactly the tokens the row feeds.  The
    states between the steps of a method have predicates of their own
    ([reserved], [resting_all]). *)
From S2P Require Import Prelude PagedKv PagedKvPool PagedKvInv PagedKvOps PagedKvPrefix.
From S2P Require Import PagedKvSpec ContinuousBatch.
Open Scope nat_scope.
Open Scope m_scope.

(** What the scheduler observes of a sequence: committed tokens and pending
    reservation. *)
Definition seq_view (m : PagedKvCacheManager) (id : RequestId) : option (nat * option N) :=
  (λ q, (committed_tokens q, pending q)) <$> sequences m !! id.

Section Inv.
Context {TokenSampler : Type}.
Notation Request := (@ActiveRequest TokenSampler).
Notation Sched := (@ContinuousBatchScheduler TokenSampler).
Notation SM := (M Sched ContinuousBatchError).
Implicit Types s : Sched.
Implicit Types r : Request.

Record request_wf (c : PagedKvCacheConfig) (r : Request) : Prop := {
  rw_prompt : rq_prompt_token_ids r ≠ [];
  rw_history : rq_history r = rq_prompt_token_ids r ++ rq_generated_token_ids r;
  rw_eos : rq_eos r = list_to_set (eos_token_ids (rq_generation r));
  rw_generated : length (rq_generated_token_ids r) < max_new_tokens (rq_generation r);
  rw_capacity : length (rq_prompt_token_ids r) + max_new_tokens (rq_generation r)
                ≤ max_sequence_length c
}.

Record pending_wf (c : PagedKvCacheConfig) (p : @PendingRequest TokenSampler) : Prop := {
  pw_prompt : pr_prompt_token_ids p ≠ [];
  pw_new : 0 < max_new_tokens (pr_generation p);
  pw_capacity : length (pr_prompt_token_ids p) + max_new_tokens (pr_generation p)
                ≤ max_sequence_length c
}.

(** The part of the invariant that does not look at phases. *)
Record static_wf (s : Sched) : Prop := {
  st_kv : kv_wf (kv_cache s);
  st_dom : ∀ id, is_Some (active s !! id) ↔ is_Some (sequences (kv_cache s) !! id);
  st_request : ∀ id r, active s !! id = Some r →
    request_wf (config (kv_cache s)) r ∧ (id < next_request s)%N;
  st_pending : ∀ p, p ∈ pending_requests s →
    pending_wf (config (kv_cache s)) p ∧ (pr_id p < next_request s)%N ∧ active s !! pr_id p = None;
  st_queue : NoDup (map pr_id (pending_requests s));
  st_limit : 0 < max_batch_tokens (batch_config s)
}.

(** A request out of flight: nothing pending, and the committed length its
    phase promises. *)
Definition resting (v : option (nat * option N)) (r : Request) : Prop :=
  match rq_phase r with
  | NeedsPrefill => ∃ k, v = Some (k, None) ∧ k < length (rq_history r)
  | AwaitingDecode token =>
      ∃ k, v = Some (k, None) ∧ S k = length (rq_history r) ∧ last (rq_history r) = Some token
  | InFlight _ => False
  end.

Definition resting_all (s : Sched) : Prop :=
  ∀ id r, active s !! id = Some r → resting (seq_view (kv_cache s) id) r.

(** The tokens of a row continue the history of its request. *)
Definition row_fits (kind : ScheduledBatchKind) (history : list Z) (row : ScheduledSequence) : Prop :=
  row_token_ids row ≠ [] ∧
  match kind with
  | Prefill =>
      slice (row_start_position row) (row_context_length row) history = Some (row_token_ids row)
  | Decode =>
      S (row_start_position row) = length history ∧
      ∃ token, row_token_ids row = [token] ∧ last history = Some token
  | Verify =>
      S (row_start_position row) = length history ∧
      ∃ token drafts, row_token_ids row = token :: drafts ∧ last history = Some token
  end.

(** The phase a request has before its row is in flight. *)
Definition phase_before (kind : ScheduledBatchKind) (row : ScheduledSequence) : RequestPhase :=
  match kind with
  | Prefill => NeedsPrefill
  | Decode | Verify => AwaitingDecode (hd 0%Z (row_token_ids row))
  end.

(** The reservation of a row covers its tokens, its block table the context. *)
Definition row_reserved (m : PagedKvCacheManager) (row : ScheduledSequence) : Prop :=
  ∃ rs q, reservations m !! row_reservation_id row = Some rs ∧
    request_id rs = row_request_id row ∧ start_position rs = row_start_position row ∧
    length (row_token_ids row) ≤ token_count rs ∧
    row_context_length row = row_start_position row + length (row_token_ids row) ∧
    sequences m !! row_request_id row = Some q ∧
    row_block_table row `prefix_of` pages q ∧
    length (row_block_table row) = div_ceil (row_context_length row) (block_size (config m)).

Record rows_wf (phase_of : ScheduledSequence → RequestPhase) (kind : ScheduledBatchKind)
    (n : nat) (rows : list ScheduledSequence) (s : Sched) : Prop := {
  rs_nodup : NoDup (map row_request_id rows);
  rs_width : ∀ row, row ∈ rows → length (row_token_ids row) = n;
  rs_bound : length rows * n ≤ max_batch_tokens (batch_config s);
  rs_row : ∀ row, row ∈ rows → row_reserved (kv_cache s) row ∧
    ∃ r, active s !! row_request_id row = Some r ∧ rq_phase r = phase_of row ∧
         row_fits kind (rq_history r) row;
  rs_rest : ∀ id r, active s !! id = Some r → id ∉ map row_request_id rows →
    resting (seq_view (kv_cache s) id) r
}.

(** While a batch is being built: its rows are reserved, phases unchanged. *)
Definition reserved (kind : ScheduledBatchKind) n rows s : Prop :=
  static_wf s ∧ rows_wf (phase_before kind) kind n rows s.

Definition flight_wf (b : ScheduledBatch) (s : Sched) : Prop :=
  rows_wf (λ _, InFlight (batch_id b)) (batch_kind b) (next_n b) (batch_sequences b) s ∧
  batch_sequences b ≠ [] ∧ (batch_id b < next_batch s)%N.

Record sched_wf (s : Sched) : Prop := {
  sw_static : static_wf s;
  sw_flight : match in_flight s with
              | None => resting_all s
              | Some b => flight_wf b s
              end
}.

(** ** Lifting the KV cache's lemmas *)
Lemma wp_kv {A} (m : M PagedKvCacheManager PagedKvError A) Q s :
  wp m (λ x k, Q x (set_kv_cache k s)) (kv_cache s) → wp (kv m) Q s.
Proof. done. Qed.

Lemma set_kv_cache_id s : set_kv_cache (kv_cache s) s = s.
Proof. by destruct s. Qed.

Lemma static_kv s k :
  static_wf s → kv_wf k → config k = config (kv_cache s) →
  (∀ id, is_Some (seq_view k id) ↔ is_Some (seq_view (kv_cache s) id)) →
  static_wf (set_kv_cache k s).
Proof.
  intros [? Hd ? ? ? ?] Hk Hc Hv. unfold seq_view in Hv. split; simpl; try rewrite Hc; try done.
  intros id. rewrite Hd. specialize (Hv id). by rewrite !fmap_is_Some in Hv.
Qed.

Lemma static_active s act :
  static_wf s → (∀ id, is_Some (act !! id) ↔ is_Some (active s !! id)) →
  (∀ id r, act !! id = Some r → request_wf (config (kv_cache s)) r) →
  static_wf (set_active act s).
Proof.
  intros [Hk Hd Hr Hp Hq Hl] Hdom Hwf. split; simpl; try done.
  - intros id. by rewrite Hdom, Hd.
  - intros id r Hid. split; [by eapply Hwf|]. destruct (proj1 (Hdom id)) as [r0 Hr0]; [by eexists|].
    by apply (Hr _ _ Hr0).
  - intros p Hin. destruct (Hp p Hin) as (? & ? & Hn). split_and!; try done.
    apply eq_None_not_Some. rewrite Hdom, Hn. by intros [].
Qed.

Lemma static_put s id r r' :
  static_wf s → active s !! id = Some r → request_wf (config (kv_cache s)) r' →
  static_wf (set_active (<[id := r']> (active s)) s).
Proof.
  intros Hst Hid Hwf. apply static_active; [done|..].
  - intros id'. rewrite lookup_insert. case_decide; [|done]. subst. rewrite Hid. split; by eexists.
  - intros id' r0. rewrite lookup_insert. case_decide; [by intros [= <-]|].
    intros H0. by apply (st_request _ Hst _ _ H0).
Qed.

Lemma request_wf_phase c p r : request_wf c r → request_wf c (set_phase p r).
Proof. intros []. by split. Qed.

Lemma static_phase s id r p :
  static_wf s → active s !! id = Some r →
  static_wf (set_active (<[id := set_phase p r]> (active s)) s).
Proof.
  intros Hst Hid. eapply static_put; [done|done|].
  apply request_wf_phase. by apply (st_request _ Hst _ _ Hid).
Qed.

(** What a pure reader of the cache returns. *)
Lemma can_append_error id n m e m' :
  can_append id n m = (Err e, m') → sequences m !! id = None.
Proof.
  unfold can_append, sequence, mbind', mget, mok_or, mret, mthrow.
  destruct (sequences m !! id) eqn:E; [|done].
  repeat (case_decide || case_match); intros; by simplify_eq.
Qed.

Lemma can_append_wp id n s (Q : res ContinuousBatchError bool → Sched → Prop) :
  (∀ b, (b = true ↔ n ≠ 0 ∧ ∃ q, sequences (kv_cache s) !! id = Some q ∧
                                 append_fits (kv_cache s) q n) → Q (Ok b) s) →
  (sequences (kv_cache s) !! id = None → ∀ e, Q (Err e) s) →
  wp (kv (can_append id n)) Q s.
Proof.
  intros HOk HErr. apply wp_kv. destruct (can_append_pure id n (kv_cache s)) as (x & Heq & Hnp).
  unfold wp. rewrite Heq. simpl. rewrite set_kv_cache_id. destruct x as [b|e|p].
  - apply HOk. apply can_append_spec in Heq as [_ [[-> ->]|(? & q & Hq & ->)]]; [naive_solver|].
    split; [naive_solver|]. intros (_ & q' & Hq' & ?). congruence.
  - apply HErr. by eapply can_append_error.
  - by destruct (Hnp p).
Qed.

Lemma committed_wp id s (Q : res ContinuousBatchError nat → Sched → Prop) :
  (∀ k p, seq_view (kv_cache s) id = Some (k, p) → Q (Ok k) s) →
  (sequences (kv_cache s) !! id = None → ∀ e, Q (Err e) s) →
  wp (kv (committed_tokens_of id)) Q s.
Proof.
  intros HOk HErr. apply wp_kv. unfold committed_tokens_of. wp_step. apply sequence_wp.
  - intros q Hq. apply wp_ret. rewrite set_kv_cache_id. eapply HOk. unfold seq_view. by rewrite Hq.
  - intros Hn e. rewrite set_kv_cache_id. by apply HErr.
Qed.

Lemma static_sequence s id r :
  static_wf s → active s !! id = Some r → ∃ q, sequences (kv_cache s) !! id = Some q.
Proof. intros Hst Hid. apply (st_dom _ Hst id). by rewrite Hid. Qed.

(** ** Cancelling the reservations of rows *)
Lemma row_reserved_view m row : kv_wf m → row_reserved m row →
  seq_view m (row_request_id row) = Some (row_start_position row, Some (row_reservation_id row)).
Proof.
  intros [_ Hb] (rs & q & Hrs & Hid & Hst & _ & _ & Hq & _).
  destruct (lk_res _ _ _ _ _ (bw_link _ Hb) _ _ Hrs) as (_ & q' & Hq' & Hok).
  rewrite Hid, Hq in Hq'. simplify_eq. destruct Hok as (Hp & Hc & _).
  unfold seq_view. rewrite Hq. simpl. by rewrite Hp, Hc, Hst.
Qed.

(** Two rows with the same reservation belong to the same request. *)
Lemma rows_reservations_nodup m rows :
  (∀ row, row ∈ rows → row_reserved m row) → NoDup (map row_request_id rows) →
  NoDup (map row_reservation_id rows).
Proof.
  intros Hr Hnd. induction rows as [|row rows IH]; simpl; [constructor|].
  apply NoDup_cons in Hnd as [Hni Hnd]. constructor.
  - intros (row' & Heq & Hin)%list_elem_of_fmap. apply Hni. apply list_elem_of_fmap.
    exists row'. split; [|done].
    destruct (Hr row) as (rs & q & Hrs & <- & _); [by left|].
    destruct (Hr row') as (rs' & q' & Hrs' & <- & _); [by right|]. rewrite Heq in Hrs. congruence.
  - apply IH; [|done]. intros row' Hin. apply Hr. by right.
Qed.

(** A group of closings, seen through the rows: each row's sequence ends at its
    closing position, every other one is untouched. *)
Lemma closes_all_view m m' rows (count : ScheduledSequence → nat) ps :
  kv_wf m → (∀ row, row ∈ rows → row_reserved m row) → NoDup (map row_request_id rows) →
  closes_all (map (λ row, (row_reservation_id row, count row)) rows) ps m m' →
  (∀ row, row ∈ rows →
     seq_view m' (row_request_id row) = Some (row_start_position row + count row, None)) ∧
  ∀ id, id ∉ map row_request_id rows → seq_view m' id = seq_view m id.
Proof.
  intros [Hp Hb] Hr Hnd Hall.
  assert ((map (λ row, (row_reservation_id row, count row)) rows).*1 = map row_reservation_id rows)
    as Hfst by (rewrite <- list_fmap_compose; done).
  pose proof (rows_reservations_nodup m rows Hr Hnd) as Hnd'. split.
  - intros row Hin.
    pose proof (closes_all_rows _ _ _ _ Hb ltac:(by rewrite Hfst) Hall) as HF.
    assert ((row_reservation_id row, count row) ∈
      map (λ row, (row_reservation_id row, count row)) rows) as Hin'
      by (apply list_elem_of_fmap; by exists row).
    apply list_elem_of_lookup in Hin' as [i Hi].
    destruct (Forall2_lookup_l _ _ _ _ _ HF Hi) as (pos & _ & (rs & q & Hrs & Hq & -> & _ & Hs)).
    simpl in *. destruct (Hr row Hin) as (rs' & q' & Hrs' & Hid & Hst & _). simplify_eq.
    unfold seq_view. rewrite <- Hid, Hs. simpl. by rewrite Hst.
  - intros id Hni. unfold seq_view. rewrite (closes_all_others _ _ _ _ _ Hall); [done|].
    intros rid rs Hrid Hrs Heq. rewrite Hfst in Hrid.
    apply list_elem_of_fmap in Hrid as (row & -> & Hin).
    destruct (Hr row Hin) as (rs' & q' & Hrs' & Hid & _). simplify_eq.
    apply Hni. apply list_elem_of_fmap. by exists row.
Qed.
End Inv.
