(* ===== verification/ContinuousBatchSchedule.v ===== *)
(** * Building a batch keeps the scheduler's invariant

    Row reservation, rollback, the three ways of building a batch, preemption
    and the loop of [schedule] (src/src/continuous_batch.rs). *)
From S2P Require Import Prelude PagedKv PagedKvPool PagedKvInv PagedKvOps PagedKvPrefix.
From S2P Require Import PagedKvSpec ContinuousBatch ContinuousBatchInv.
Open Scope nat_scope.
Open Scope m_scope.

Section Schedule.
Context {TokenSampler : Type}.
Notation Request := (@ActiveRequest TokenSampler).
Notation Sched := (@ContinuousBatchScheduler TokenSampler).
Implicit Types s : Sched.
Implicit Types r : Request.

(** The reservation ids are used up: the only way an append the cache has
    room for can still fail. *)
Definition exhausted (s : Sched) : Prop := (u64_max ≤ next_reservation (kv_cache s))%N.

(** Reservation ids ran out on the way: the phases may be out of step. *)
Definition worn_out (s : Sched) : Prop := static_wf s ∧ exhausted s.

(** A state that differs from [s] in the cache only. *)
Definition cache_only (s s' : Sched) : Prop :=
  s' = set_kv_cache (kv_cache s') s ∧ config (kv_cache s') = config (kv_cache s).

Lemma cache_only_refl s : cache_only s s.
Proof. by destruct s. Qed.
Lemma cache_only_kv s k : config k = config (kv_cache s) → cache_only s (set_kv_cache k s).
Proof. by destruct s. Qed.

Lemma cache_only_active s s' : cache_only s s' → active s' = active s.
Proof. by intros [-> _]. Qed.

Lemma resting_before kind row r :
  row_fits kind (rq_history r) row → rq_phase r = phase_before kind row →
  row_context_length row = row_start_position row + length (row_token_ids row) →
  resting (Some (row_start_position row, None)) r.
Proof.
  intros [Hne Hfit] Hph Hctx. unfold resting. rewrite Hph.
  destruct kind; simpl.
  - exists (row_start_position row). split; [done|]. revert Hfit. unfold slice. case_decide; [|done].
    intros _. destruct (row_token_ids row); [done|]. simpl in *. lia.
  - destruct Hfit as (Hlen & t & -> & Hl). exists (row_start_position row). by rewrite Hl.
  - destruct Hfit as (Hlen & t & ds & -> & Hl). exists (row_start_position row). by rewrite Hl.
Qed.

Lemma row_reserved_context m row : row_reserved m row →
  row_context_length row = row_start_position row + length (row_token_ids row).
Proof. by intros (? & ? & _ & _ & _ & _ & ? & _). Qed.

(** Cancelling the reservations of all rows succeeds, and leaves every
    sequence at the position its row started from. *)
Lemma cancel_rows_wp rows s :
  static_wf s → (∀ row, row ∈ rows → row_reserved (kv_cache s) row) →
  NoDup (map row_request_id rows) →
  wp (kv (cancel_appends (map row_reservation_id rows)))
    (post (λ _ s', cache_only s s' ∧ static_wf s' ∧
       next_reservation (kv_cache s') = next_reservation (kv_cache s) ∧
       (∀ row, row ∈ rows →
          seq_view (kv_cache s') (row_request_id row) = Some (row_start_position row, None)) ∧
       ∀ id, id ∉ map row_request_id rows → seq_view (kv_cache s') id = seq_view (kv_cache s) id)
     (λ _ _, False)) s.
Proof.
  intros Hst Hrows Hnd. pose proof (st_kv _ Hst) as Hk. apply wp_kv.
  eapply wp_mono; [by apply cancel_appends_wf|]. intros [[]|e|p] k; simpl; [|..|done].
  - intros (Hk' & _ & ps & Hall).
    rewrite map_map in Hall.
    destruct (closes_all_view _ _ rows (λ _, 0) ps Hk Hrows Hnd Hall) as [Hin Hout].
    pose proof (closes_all_frame _ _ _ _ Hall) as (Hc & Hnr & _).
    assert (∀ row, row ∈ rows → seq_view k (row_request_id row) = Some (row_start_position row, None))
      as Hin' by (intros row Hr; rewrite Hin by done; by rewrite Nat.add_0_r).
    split_and!; [by apply cache_only_kv| |done|done|done].
    apply static_kv; [done..|]. intros id.
    destruct (decide (id ∈ map row_request_id rows)) as [Hi|Hi]; [|by rewrite Hout].
    apply list_elem_of_fmap in Hi as (row & -> & Hi). rewrite Hin' by done.
    rewrite (row_reserved_view _ _ Hk (Hrows _ Hi)). split; by eexists.
  - intros [_ Hno]. apply Hno. split; [by eapply rows_reservations_nodup|].
    intros rid (row & -> & Hi)%list_elem_of_fmap.
    destruct (Hrows _ Hi) as (rs & q & Hrs & _). by eexists.
Qed.

(** Rolling back a batch under construction brings every request to rest. *)
Lemma rollback_wp kind n rows s :
  reserved kind n rows s →
  wp (rollback_scheduled_rows rows)
    (post (λ _ s', cache_only s s' ∧ static_wf s' ∧ resting_all s' ∧
       next_reservation (kv_cache s') = next_reservation (kv_cache s)) (λ _ _, False)) s.
Proof.
  intros [Hst [Hnd Hw Hb Hrow Hrest]]. unfold rollback_scheduled_rows.
  eapply wp_post_mono; [apply cancel_rows_wp; [done|by intros; apply Hrow|done]| |done].
  intros [] s' (Hc & Hst' & Hnr & Hin & Hout). split_and!; try done.
  intros id r Hid.
  assert (active s !! id = Some r) as Hid' by (by rewrite (cache_only_active _ _ Hc) in Hid).
  destruct (decide (id ∈ map row_request_id rows)) as [Hi|Hi].
  - apply list_elem_of_fmap in Hi as (row & -> & Hi). rewrite Hin by done.
    destruct (Hrow row Hi) as [Hres (r0 & Hr0 & Hph & Hfit)]. simplify_eq.
    eapply resting_before; [done|done|]. by eapply row_reserved_context.
  - rewrite Hout by done. by apply Hrest.
Qed.

(** ** Adding a row *)
Lemma seq_view_insert m m' id q q0 :
  sequences m' = <[id := q]> (sequences m) → sequences m !! id = Some q0 →
  (∀ id', is_Some (seq_view m' id') ↔ is_Some (seq_view m id')) ∧
  ∀ id', id' ≠ id → seq_view m' id' = seq_view m id'.
Proof.
  intros Hs Hq. unfold seq_view. rewrite Hs. split; intros id'.
  - rewrite !fmap_is_Some, lookup_insert. case_decide; [|done]. subst. rewrite Hq.
    split; by eexists.
  - intros Hne. by rewrite lookup_insert_ne.
Qed.

(** The other rows do not notice that a sequence at rest begins an append. *)
Lemma row_reserved_begin m m' id q q' rid rs row :
  kv_wf m → row_reserved m row → sequences m !! id = Some q → pending q = None →
  config m' = config m → sequences m' = <[id := q']> (sequences m) →
  reservations m' = <[rid := rs]> (reservations m) → reservations m !! rid = None →
  row_reserved m' row.
Proof.
  intros Hk Hr Hq Hp Hc Hs Hrs Hfresh.
  pose proof (row_reserved_view _ _ Hk Hr) as Hv.
  destruct Hr as (rs0 & q0 & Hrs0 & Hid & Hst & Hlen & Hctx & Hq0 & Hpre & Hbt).
  exists rs0, q0. rewrite Hc, Hs, Hrs, !lookup_insert_ne; [done|..].
  - intros Heq; subst id. unfold seq_view in Hv. rewrite Hq in Hv. simpl in Hv. congruence.
  - intros Heq; subst rid. congruence.
Qed.

Lemma fresh_reservation m : kv_wf m → reservations m !! next_reservation m = None.
Proof.
  intros [_ Hb]. apply eq_None_not_Some. intros [rs Hrs].
  destruct (lk_res _ _ _ _ _ (bw_link _ Hb) _ _ Hrs) as [? _]. lia.
Qed.

(** A resting request gets its row: the new state has one row more. *)
Lemma begin_row_wp kind n rows s id r tokens :
  reserved kind n rows s → active s !! id = Some r → id ∉ map row_request_id rows →
  length tokens = n → 0 < n → S (length rows) * n ≤ max_batch_tokens (batch_config s) →
  (∀ a, ar_request_id a = id → ar_start_position a = default 0 (fst <$> seq_view (kv_cache s) id) →
     ar_context_length a = ar_start_position a + n →
     rq_phase r = phase_before kind (scheduled_sequence a tokens) ∧
     row_fits kind (rq_history r) (scheduled_sequence a tokens)) →
  wp (kv (begin_append id n)) (post (λ a s', cache_only s s' ∧
      reserved kind n (rows ++ [scheduled_sequence a tokens]) s' ∧
      ar_request_id a = id ∧
      ∀ id', id' ≠ id → seq_view (kv_cache s') id' = seq_view (kv_cache s) id')
    (λ _ s', s' = s)) s.
Proof.
  intros [Hst [Hnd Hw Hb Hrow Hrest]] Hid Hni Hlen Hn Hbound Hfit.
  pose proof (st_kv _ Hst) as Hk. apply wp_kv.
  eapply wp_mono; [by apply begin_append_wf|]. intros [a|e|p] k; simpl; [|..|done].
  2:{ intros ->. by destruct s. }
  intros (Hk' & q & Hq & Hp & _ & Hm & Ha & Hlt & Hc & Hs & Hrs).
  set (rid := next_reservation (kv_cache s)) in *.
  destruct (seq_view_insert _ _ _ _ _ Hs Hq) as [Hdom Hother].
  split; [by apply cache_only_kv|].
  split; [|by rewrite Ha]. split; [by apply static_kv|].
  assert (ar_request_id a = id ∧ ar_start_position a = committed_tokens q ∧
    ar_context_length a = committed_tokens q + n ∧ ar_id a = rid ∧
    ar_block_table a = pages q ++ ar_newly_allocated_pages a) as (Hai & Has & Hac & Har & Hat)
    by (rewrite Ha; done).
  destruct (Hfit a) as [Hph Hf]; [done| |by rewrite Has, Hac|].
  { rewrite Has. unfold seq_view. by rewrite Hq. }
  assert (∀ row, row ∈ rows → row_reserved k row) as Hold.
  { intros row Hi. destruct (Hrow row Hi) as [Hr0 _].
    eapply (row_reserved_begin (kv_cache s)); [done..|by apply fresh_reservation]. }
  assert (row_reserved k (scheduled_sequence a tokens)) as Hnew.
  { exists (mk_reservation id (length (pages q)) (committed_tokens q) n),
      (set_pending (Some rid) (set_pages (pages q ++ ar_newly_allocated_pages a) q)).
    simpl. rewrite Hai, Has, Hac, Har, Hs, Hrs, !lookup_insert_eq, Hat, Hc, Hlen. simpl.
    by split_and!. }
  split.
  - rewrite map_app. simpl. apply NoDup_app. split_and!; [done| |by apply NoDup_singleton].
    rewrite Hai. set_solver.
  - intros row [Hi| ->%list_elem_of_singleton]%elem_of_app; [by apply Hw|done].
  - rewrite length_app. simpl. by rewrite Nat.add_1_r.
  - intros row [Hi| ->%list_elem_of_singleton]%elem_of_app.
    + split; [by apply Hold|]. by apply Hrow.
    + split; [done|]. exists r. simpl. by rewrite Hai.
  - intros id' r' Hr'. rewrite map_app, not_elem_of_app. simpl. rewrite Hai.
    intros [Hni' Hne%not_elem_of_cons]. destruct Hne as [Hne _].
    rewrite Hother by done. by apply Hrest.
Qed.
(** Only the cache moved, and every request is at rest again. *)
Definition rested (s s' : Sched) : Prop := cache_only s s' ∧ static_wf s' ∧ resting_all s'.

Lemma cache_only_trans s1 s2 s3 : cache_only s1 s2 → cache_only s2 s3 → cache_only s1 s3.
Proof. intros [H1 H2] [H3 H4]. split; [|congruence]. rewrite H3, H1. by destruct s1. Qed.

Lemma begin_or_rollback_wp kind n rows s id r tokens :
  reserved kind n rows s → active s !! id = Some r → id ∉ map row_request_id rows →
  length tokens = n → 0 < n → S (length rows) * n ≤ max_batch_tokens (batch_config s) →
  (∀ a, ar_request_id a = id → ar_start_position a = default 0 (fst <$> seq_view (kv_cache s) id) →
     ar_context_length a = ar_start_position a + n →
     rq_phase r = phase_before kind (scheduled_sequence a tokens) ∧
     row_fits kind (rq_history r) (scheduled_sequence a tokens)) →
  wp (begin_or_rollback rows id n) (post (λ a s', cache_only s s' ∧
      reserved kind n (rows ++ [scheduled_sequence a tokens]) s' ∧
      ar_request_id a = id ∧
      ∀ id', id' ≠ id → seq_view (kv_cache s') id' = seq_view (kv_cache s) id')
    (λ _ s', rested s s')) s.
Proof.
  intros Hres Hid Hni Hlen Hn Hb Hfit. apply wp_catch.
  eapply wp_mono; [by eapply begin_row_wp|]. intros [a|e|p] s'; simpl; [done| |done].
  intros ->. eapply wp_bind_post; [by eapply rollback_wp| |done].
  intros [] s' (? & ? & ? & _). by apply wp_throw.
Qed.

(** The outcome of a loop that adds rows to [rows]. *)
Definition grown kind n rows s (rows' : list ScheduledSequence) (s' : Sched) : Prop :=
  cache_only s s' ∧ reserved kind n rows' s' ∧ rows `prefix_of` rows' ∧ (rows' = [] → s' = s).

Lemma grown_refl kind n rows s : reserved kind n rows s → grown kind n rows s rows s.
Proof. intros. split_and!; [apply cache_only_refl|done..]. Qed.

Lemma grown_step kind n rows row s s1 rows' s' :
  cache_only s s1 → grown kind n (rows ++ [row]) s1 rows' s' → grown kind n rows s rows' s'.
Proof.
  intros Hc (Hc' & Hres & Hpre & _). split_and!; [by eapply cache_only_trans|done|..].
  - etransitivity; [|done]. by apply prefix_app_r.
  - intros ->. apply prefix_nil_inv in Hpre. by destruct rows.
Qed.

(** ** Prefill *)
Definition chunk_len (s : Sched) (k : nat) (r : Request) : nat :=
  let remaining := length (rq_history r) - k in
  Nat.min (Nat.min remaining (default remaining (prefill_chunk_tokens s)))
    (max_batch_tokens (batch_config s)).

Lemma prefill_chunk_wp id r s (Q : res ContinuousBatchError (nat * nat * bool) → Sched → Prop) :
  is_Some (sequences (kv_cache s) !! id) →
  (∀ k p b, seq_view (kv_cache s) id = Some (k, p) → Q (Ok (k, chunk_len s k r, b)) s) →
  wp (prefill_chunk id r) Q s.
Proof.
  intros [q Hq] HQ. unfold prefill_chunk. wp_step. wp_step. wp_step.
  apply committed_wp; [|congruence]. intros k p Hv. apply wp_ret. by eapply HQ.
Qed.

(** A request that may join a prefill batch of rows of [n] tokens. *)
Definition prefill_candidate (s : Sched) (n : nat) (id : RequestId) : Prop :=
  ∃ r k, active s !! id = Some r ∧ rq_phase r = NeedsPrefill ∧
    seq_view (kv_cache s) id = Some (k, None) ∧ chunk_len s k r = n.

Lemma prefill_candidate_frame s s' n id :
  cache_only s s' → seq_view (kv_cache s') id = seq_view (kv_cache s) id →
  prefill_candidate s n id → prefill_candidate s' n id.
Proof.
  intros Hc Hv (r & k & Hid & Hph & Hk & Hn). exists r, k. rewrite Hv.
  unfold chunk_len in *. rewrite (proj1 Hc). by split_and!.
Qed.

Lemma prefill_rows_wp candidates n max_rows rows s :
  reserved Prefill n rows s → NoDup candidates →
  (∀ id, id ∈ candidates → id ∉ map row_request_id rows ∧ prefill_candidate s n id) →
  0 < n → max_rows * n ≤ max_batch_tokens (batch_config s) →
  wp (prefill_rows candidates n max_rows rows)
    (post (grown Prefill n rows s) (λ _ s', rested s s')) s.
Proof.
  revert rows s. induction candidates as [|id rest IH]; intros rows s Hres Hnd Hc Hn Hmax; simpl.
  { apply wp_ret. by apply grown_refl. }
  case_decide as Hfull; [apply wp_ret; by apply grown_refl|].
  apply NoDup_cons in Hnd as [Hni Hnd].
  destruct (Hc id) as (Hrow & r & k & Hid & Hph & Hv & Hk); [by left|].
  destruct (static_sequence _ _ _ (proj1 Hres) Hid) as [q Hq].
  wp_step. apply can_append_wp; [intros b _|congruence]. destruct b.
  2:{ apply IH; try done. intros id' Hi. apply Hc. by right. }
  do 2 wp_step. rewrite Hid. simpl. do 2 wp_step.
  wp_step. apply prefill_chunk_wp; [by eexists|]. intros k' p b Hv'. simplify_eq. simpl.
  rewrite decide_True by done. wp_step. wp_step.
  assert (k + chunk_len s k r ≤ length (rq_history r)) as Hle by (unfold chunk_len in *; lia).
  unfold slice. rewrite decide_True by lia. simpl. wp_step. wp_step.
  replace (k + chunk_len s k r - k) with (chunk_len s k r) by lia.
  assert (max_rows ≥ S (length rows)) by lia.
  set (tokens := take _ _).
  assert (length tokens = chunk_len s k r) as Hlen
    by (unfold tokens; rewrite length_take, length_drop; lia).
  eapply wp_bind_post; [eapply (begin_or_rollback_wp Prefill _ _ _ _ r tokens); try done| |done].
  - transitivity (max_rows * chunk_len s k r); [|done]. by apply Nat.mul_le_mono_r.
  - intros a _ Hst Hctx. rewrite Hv in Hst. simpl in Hst. split; [done|].
    split; [simpl; intros Hx; rewrite Hx in Hlen; simpl in Hlen; lia|].
    simpl. rewrite Hctx, Hst. unfold slice. rewrite decide_True by lia.
    f_equal. unfold tokens. f_equal. lia.
  - intros a s' (Hco & Hres' & Hai & Hother).
    eapply wp_mono; [apply IH; [done|done| |done|by rewrite (proj1 Hco)]|].
    + intros id' Hi. destruct (Hc id') as [Hni' Hcand]; [by right|]. split.
      * rewrite map_app, not_elem_of_app. split; [done|]. simpl. rewrite Hai. set_solver.
      * eapply prefill_candidate_frame; [done| |done]. apply Hother. by intros ->.
    + intros [rows'|e|p'] s''; simpl; [|..|done]; [by apply grown_step|].
      intros (? & ? & ?). split; [by eapply cache_only_trans|done].
Qed.

(** Every bucket holds distinct candidates for rows of its length. *)
Definition bucket_ok (s : Sched) (todo : list N) (b : (nat * bool) * list RequestId) : Prop :=
  0 < b.1.1 ∧ NoDup b.2 ∧ ∀ id, id ∈ b.2 → id ∉ todo ∧ prefill_candidate s b.1.1 id.

Lemma bucket_push_elem key id l b : b ∈ bucket_push key id l →
  b ∈ l ∨ b = (key, [id]) ∨ ∃ ids, (key, ids) ∈ l ∧ b = (key, ids ++ [id]).
Proof.
  induction l as [|[k ids] l IH]; simpl; [rewrite list_elem_of_singleton; naive_solver|].
  repeat case_decide; subst; [|case_match];
    rewrite ?elem_of_cons; try naive_solver.
  - intros [->|?]; [|naive_solver]. right. right. exists ids. rewrite elem_of_cons. naive_solver.
  - intros [->|Hb]; [naive_solver|]. destruct (IH Hb) as [?|[?|(ids' & ? & ?)]]; [naive_solver..|].
    right. right. exists ids'. rewrite elem_of_cons. naive_solver.
Qed.

Lemma bucket_push_ok s key id todo l :
  Forall (bucket_ok s (id :: todo)) l → id ∉ todo → 0 < key.1 → prefill_candidate s key.1 id →
  Forall (bucket_ok s todo) (bucket_push key id l).
Proof.
  intros Hl Hni Hk Hc. rewrite Forall_forall in *. intros b [Hb|[->|(ids & Hb & ->)]]%bucket_push_elem.
  - destruct (Hl b Hb) as (? & ? & Hi). split_and!; try done. intros id' Hid'.
    destruct (Hi id' Hid'). set_solver.
  - split_and!; simpl; [done|by apply NoDup_singleton|]. by intros id' ->%list_elem_of_singleton.
  - destruct (Hl _ Hb) as (? & ? & Hi). simpl in *. split_and!; [done|..].
    + apply NoDup_app. split_and!; [done| |by apply NoDup_singleton].
      intros id' Hid'. destruct (Hi id' Hid'). set_solver.
    + intros id' [Hid'| ->%list_elem_of_singleton]%elem_of_app; [|done].
      destruct (Hi id' Hid'). set_solver.
Qed.

Lemma fill_buckets_wp requests acc s :
  static_wf s → resting_all s →
  (∀ id r, (id, r) ∈ requests → active s !! id = Some r) → NoDup requests.*1 →
  Forall (bucket_ok s requests.*1) acc →
  wp (fill_buckets requests acc)
    (post (λ buckets s', s' = s ∧ Forall (bucket_ok s []) buckets) (λ _ _, False)) s.
Proof.
  intros Hst Hrest. revert acc. induction requests as [|[id r] requests IH]; intros acc Hact Hnd Hacc; simpl.
  { by apply wp_ret. }
  apply NoDup_cons in Hnd as [Hni Hnd]. simpl in *.
  assert (active s !! id = Some r) as Hid by (apply Hact; by left).
  destruct (static_sequence _ _ _ Hst Hid) as [q Hq].
  assert (Forall (bucket_ok s requests.*1) acc) as Hacc'.
  { eapply Forall_impl; [exact Hacc|]. intros b (? & ? & Hi). split_and!; try done.
    intros id' Hid'. destruct (Hi id' Hid'). set_solver. }
  wp_step. apply prefill_chunk_wp; [by eexists|]. intros k p b Hv. do 2 wp_step. simpl.
  case_decide as Hcond; [|by apply IH; [intros; apply Hact; right| |]].
  destruct Hcond as (Hph & _ & Hpos).
  wp_step. apply can_append_wp; [intros fits _|congruence].
  apply IH; [intros; apply Hact; by right|done|]. destruct fits; [|done].
  apply bucket_push_ok; [done..|]. simpl. exists r, k. split_and!; try done.
  pose proof (Hrest id r Hid) as Hr. unfold resting in Hr. rewrite Hph in Hr.
  destruct Hr as (k' & Hk' & _). congruence.
Qed.

(** ** Finishing *)

(** What building a batch leaves alone: everything but the cache, the phases
    and the scheduling counters. *)
Record frame (s s' : Sched) : Prop := {
  fr_batch : batch_config s' = batch_config s;
  fr_options : options s' = options s;
  fr_pending : pending_requests s' = pending_requests s;
  fr_deferred : deferred_prefill s' = deferred_prefill s;
  fr_finished : finished s' = finished s;
  fr_in_flight : in_flight s' = in_flight s;
  fr_next_request : next_request s' = next_request s;
  fr_chunk : prefill_chunk_tokens s' = prefill_chunk_tokens s;
  fr_recompute : recompute_preemption s' = recompute_preemption s;
  fr_cache : config (kv_cache s') = config (kv_cache s);
  fr_requests : ∀ id, set_phase NeedsPrefill <$> active s' !! id =
                      set_phase NeedsPrefill <$> active s !! id
}.

#[export] Instance frame_preorder : PreOrder frame.
Proof. split; [by split|]. intros s1 s2 s3 [] []. split; congruence. Qed.

Lemma cache_only_frame s s' : cache_only s s' → frame s s'.
Proof. intros [-> Hc]. by split. Qed.

(** A batch of the given kind is ready to leave; it is not recorded yet. *)
Definition launched (s : Sched) (b : ScheduledBatch) (s' : Sched) : Prop :=
  static_wf s' ∧ flight_wf b s' ∧ frame s s'.

Lemma mark_loop_wp id rows s :
  (∀ row, row ∈ rows → is_Some (active s !! row_request_id row)) →
  wp (mfor rows (mark_in_flight id)) (post (λ _ s', ∃ act, s' = set_active act s ∧
      ∀ i, act !! i = if decide (i ∈ map row_request_id rows)
                      then set_phase (InFlight id) <$> active s !! i else active s !! i)
    (λ _ _, False)) s.
Proof.
  revert s. induction rows as [|row rows IH]; intros s Hact; simpl.
  - apply wp_ret. exists (active s). split; [by destruct s|]. intros i.
    done.
  - destruct (Hact row) as [r Hr]; [by left|].
    unfold mark_in_flight at 1. do 2 wp_step. wp_step. rewrite Hr. simpl. do 2 wp_step.
    unfold put_active. wp_step. eapply wp_post_mono; [apply IH| |done].
    + intros row' Hi. simpl. rewrite lookup_insert. case_decide; [by eexists|]. apply Hact. by right.
    + intros [] s' (act & -> & Hl). exists act. split; [by destruct s|]. intros i. rewrite Hl. simpl.
      rewrite lookup_insert. destruct (decide (row_request_id row = i)) as [<-|Hne].
      * rewrite (decide_True (P := _ ∈ _ :: _)) by (by left). rewrite Hr. by case_decide.
      * destruct (decide (i ∈ map row_request_id rows)) as [Hi|Hi].
        -- rewrite decide_True by (by right). done.
        -- rewrite decide_False; [done|]. set_solver.
Qed.

Lemma launched_mark kind n rows s next act :
  reserved kind n rows s → rows ≠ [] → (next_batch s < next)%N →
  (∀ i, act !! i = if decide (i ∈ map row_request_id rows)
                   then set_phase (InFlight (next_batch s)) <$> active s !! i else active s !! i) →
  launched s (mk_batch (next_batch s) kind rows) (set_active act (set_next_batch next s)).
Proof.
  intros [Hst [Hnd Hw Hb Hrow Hrest]] Hne Hnext Hl.
  assert (next_n (mk_batch (next_batch s) kind rows) = n) as Hn.
  { unfold next_n. simpl. destruct rows as [|row rows]; [done|]. apply Hw. by left. }
  split; [|split].
  - apply static_active; simpl; [by destruct Hst; split|..].
    + intros id. rewrite Hl. case_decide; [by rewrite fmap_is_Some|done].
    + intros id r. rewrite Hl. case_decide.
      * intros (r0 & Hr0 & ->)%fmap_Some. apply request_wf_phase. by apply (st_request _ Hst _ _ Hr0).
      * intros Hr0. by apply (st_request _ Hst _ _ Hr0).
  - split; [|by split]. rewrite Hn. split; simpl; try done.
    + intros row Hi. destruct (Hrow row Hi) as [? (r & Hr & Hph & Hf)]. split; [done|].
      exists (set_phase (InFlight (next_batch s)) r). rewrite Hl, decide_True, Hr; [done|].
      by apply list_elem_of_fmap_2.
    + intros id r. rewrite Hl. case_decide; [done|]. by auto.
  - split; try done. intros id. simpl. rewrite Hl. case_decide; [|done].
    by destruct (active s !! id) as [[]|].
Qed.

Lemma finish_schedule_wp kind n rows s :
  reserved kind n rows s →
  wp (finish_schedule kind rows) (post (λ ob s',
      match ob with
      | None => rows = [] ∧ s' = s
      | Some b => batch_kind b = kind ∧ launched s b s'
      end) (λ _ s', rested s s')) s.
Proof.
  intros Hres. pose proof Hres as [Hst [Hnd Hw Hb Hrow Hrest]]. unfold finish_schedule.
  case_decide as Hne.
  { by apply wp_ret. }
  do 2 wp_step. destruct (checked_add _ _ _) as [next|] eqn:Enext.
  2:{ eapply wp_bind_post; [by eapply rollback_wp| |done]. intros [] s' (? & ? & ? & _).
      by apply wp_throw. }
  apply checked_add_Some in Enext as [-> _].
  destruct (existsb _ rows) eqn:Ee.
  { eapply wp_bind_post; [by eapply rollback_wp| |done]. intros [] s' (? & ? & ? & _).
    by apply wp_throw. }
  do 2 wp_step. eapply wp_bind_post; [apply mark_loop_wp| |done].
  - intros row Hi. destruct (Hrow row Hi) as [_ (r & Hr & _)]. by exists r.
  - intros [] s' (act & -> & Hl). apply wp_ret. split; [done|].
    eapply launched_mark; [done|done|lia|done].
Qed.

Lemma rested_trans s s1 s' : cache_only s s1 → rested s1 s' → rested s s'.
Proof. intros Hc (? & ? & ?). split; [by eapply cache_only_trans|done]. Qed.

Lemma launched_trans s s1 s' b : frame s s1 → launched s1 b s' → launched s b s'.
Proof. intros Hc (? & ? & ?). split_and!; try done. by etransitivity. Qed.

(** A state out of flight is a batch under construction without rows. *)
Lemma reserved_nil kind n s : static_wf s → resting_all s → reserved kind n [] s.
Proof.
  intros Hst Hr. split; [done|]. split; simpl; try by intros ? ?%elem_of_nil.
  - constructor.
  - lia.
  - intros id r Hid _. by apply Hr.
Qed.

(** The outcome of one way of building a batch. *)
Definition attempt (kind : ScheduledBatchKind) s (ob : option ScheduledBatch) s' : Prop :=
  match ob with
  | None => s' = s
  | Some b => batch_kind b = kind ∧ launched s b s'
  end.

Lemma finish_grown_wp kind n rows s s' :
  grown kind n [] s rows s' →
  wp (finish_schedule kind rows) (post (attempt kind s) (λ _ s'', rested s s'')) s'.
Proof.
  intros (Hc & Hres & _ & Hnil). eapply wp_post_mono; [by eapply finish_schedule_wp|..].
  - intros [b|] s''; simpl; [|naive_solver]. intros [? ?]. split; [done|].
    eapply launched_trans; [by apply cache_only_frame|done].
  - intros e s'' Hr. by eapply rested_trans.
Qed.

Lemma schedule_prefill_wp s :
  static_wf s → resting_all s →
  wp schedule_prefill (post (attempt Prefill s) (λ _ s', rested s s')) s.
Proof.
  intros Hst Hrest. unfold schedule_prefill. do 2 wp_step.
  eapply wp_bind_post; [apply fill_buckets_wp; [done|done| | |constructor]| |done].
  - intros id r Hin. by apply elem_of_btree_iter in Hin.
  - apply NoDup_btree_keys.
  - intros buckets s' [-> Hb]. destruct (max_by _ _) as [[key ids]|] eqn:Em; [|by apply wp_ret].
    apply max_by_elem in Em. rewrite Forall_forall in Hb. destruct (Hb _ Em) as (Hk & Hnd & Hi).
    simpl in *. eapply wp_bind_post; [apply (prefill_rows_wp _ _ _ [])| |done]; try done.
    + by apply reserved_nil.
    + rewrite Nat.mul_comm. apply Nat.Div0.mul_div_le.
    + intros rows s' Hg. by eapply finish_grown_wp.
Qed.

(** ** Decode *)
Lemma elem_of_awaiting (l : list (N * Request)) id token :
  (id, token) ∈ awaiting l ↔ ∃ r, (id, r) ∈ l ∧ rq_phase r = AwaitingDecode token.
Proof.
  unfold awaiting. rewrite list_elem_of_omap. split.
  - intros ([id' r] & Hin & Heq). simpl in Heq. destruct (rq_phase r) eqn:E; simplify_eq. eauto.
  - intros (r & Hin & Hph). exists (id, r). simpl. by rewrite Hph.
Qed.

Lemma awaiting_nodup (l : list (N * Request)) : NoDup l.*1 → NoDup (awaiting l).*1.
Proof.
  induction l as [|[id r] l IH]; simpl; [constructor|]. intros [Hni Hnd]%NoDup_cons. unfold awaiting.
  simpl. destruct (rq_phase r); simpl; [by apply IH| |by apply IH].
  constructor; [|by apply IH]. intros ([id' t] & -> & Hin)%list_elem_of_fmap.
  apply elem_of_awaiting in Hin as (r' & Hin & _). apply Hni. simpl.
  apply list_elem_of_fmap. by exists (id', r').
Qed.

(** A request that waits for a decode step, and where it stands. *)
Definition waits (s : Sched) (id : RequestId) (token : Z) : Prop :=
  ∃ r k, active s !! id = Some r ∧ rq_phase r = AwaitingDecode token ∧
    seq_view (kv_cache s) id = Some (k, None) ∧ S k = length (rq_history r) ∧
    last (rq_history r) = Some token.

Lemma waits_frame s s' id token :
  cache_only s s' → seq_view (kv_cache s') id = seq_view (kv_cache s) id →
  waits s id token → waits s' id token.
Proof.
  intros Hc Hv (r & k & Hid & ?). exists r, k. by rewrite Hv, (cache_only_active _ _ Hc).
Qed.

Lemma resting_waits s id r token :
  resting_all s → active s !! id = Some r → rq_phase r = AwaitingDecode token → waits s id token.
Proof.
  intros Hr Hid Hph. pose proof (Hr id r Hid) as Hw. unfold resting in Hw. rewrite Hph in Hw.
  destruct Hw as (k & ? & ? & ?). by exists r, k.
Qed.

Lemma decode_rows_wp candidates rows s :
  reserved Decode 1 rows s → NoDup candidates.*1 →
  (∀ id token, (id, token) ∈ candidates → id ∉ map row_request_id rows ∧ waits s id token) →
  wp (decode_rows candidates rows) (post (grown Decode 1 rows s) (λ _ s', rested s s')) s.
Proof.
  revert rows s. induction candidates as [|[id token] rest IH]; intros rows s Hres Hnd Hc; simpl.
  { apply wp_ret. by apply grown_refl. }
  do 2 wp_step. case_decide as Hfull; [apply wp_ret; by apply grown_refl|].
  apply NoDup_cons in Hnd as [Hni Hnd]. simpl in *.
  destruct (Hc id token) as (Hrow & r & k & Hid & Hph & Hv & Hk & Hl); [by left|].
  destruct (static_sequence _ _ _ (proj1 Hres) Hid) as [q Hq].
  wp_step. apply can_append_wp; [intros b _|congruence]. destruct b.
  2:{ apply IH; try done. intros id' t' Hi. apply Hc. by right. }
  eapply wp_bind_post; [eapply (begin_or_rollback_wp Decode _ _ _ _ r [token]); try done; lia || idtac| |done].
  - intros a _ Hst Hctx. rewrite Hv in Hst. simpl in Hst. split; [done|]. split; [done|].
    simpl. rewrite Hst. split; [done|]. by exists token.
  - intros a s' (Hco & Hres' & Hai & Hother).
    eapply wp_mono; [apply IH; [done|done|]|].
    + intros id' t' Hi. destruct (Hc id' t') as [Hni' Hcand]; [by right|].
      assert (id' ≠ id).
      { intros ->. apply Hni. apply list_elem_of_fmap. by exists (id, t'). }
      split.
      * rewrite map_app, not_elem_of_app. split; [done|]. simpl. rewrite Hai. set_solver.
      * eapply waits_frame; [done| |done]. by apply Hother.
    + intros [rows'|e|p'] s''; simpl; [|..|done]; [by apply grown_step|]. by apply rested_trans.
Qed.

Lemma schedule_decode_wp s :
  static_wf s → resting_all s →
  wp schedule_decode (post (attempt Decode s) (λ _ s', rested s s')) s.
Proof.
  intros Hst Hrest. unfold schedule_decode. do 2 wp_step.
  eapply wp_bind_post; [apply (decode_rows_wp _ [])| |done].
  - by apply reserved_nil.
  - apply awaiting_nodup, NoDup_btree_keys.
  - intros id token (r & Hin & Hph)%elem_of_awaiting. apply elem_of_btree_iter in Hin.
    split; [by intros ?%elem_of_nil|]. by eapply resting_waits.
  - intros rows s' Hg. by eapply finish_grown_wp.
Qed.

(** ** Verify *)
Lemma verify_candidates_wp c width requests s :
  static_wf s → resting_all s →
  (∀ id r, (id, r) ∈ requests → active s !! id = Some r) → NoDup requests.*1 →
  wp (verify_candidates c width requests)
    (post (λ l s', s' = s ∧ NoDup l.*1.*1 ∧ ∀ id token draft, (id, token, draft) ∈ l →
       id ∈ requests.*1 ∧ draft ≠ [] ∧ waits s id token) (λ _ _, False)) s.
Proof.
  intros Hst Hrest. induction requests as [|[id r] requests IH]; intros Hact Hnd; simpl.
  { apply wp_ret. split_and!; [done|constructor|]. by intros ? ? ? ?%elem_of_nil. }
  apply NoDup_cons in Hnd as [Hni Hnd]. simpl in Hni.
  assert (active s !! id = Some r) as Hid by (apply Hact; by left).
  destruct (static_sequence _ _ _ Hst Hid) as [q Hq].
  assert (wp (verify_candidates c width requests)
    (post (λ l s', s' = s ∧ NoDup l.*1.*1 ∧ ∀ id token draft, (id, token, draft) ∈ l →
       id ∈ requests.*1 ∧ draft ≠ [] ∧ waits s id token) (λ _ _, False)) s) as IH'
    by (apply IH; [intros; apply Hact; by right|done]).
  clear IH. eapply (wp_post_mono _ _ _ (λ l s', s' = s ∧ NoDup l.*1.*1 ∧
    ∀ id' token draft, (id', token, draft) ∈ l →
      id' ∈ (id :: requests.*1) ∧ draft ≠ [] ∧ waits s id' token)) in IH' as IH;
    [|intros l s' (? & ? & Hl); split_and!; try done; intros i t d Hin;
      destruct (Hl i t d Hin) as (? & ? & ?); split; [by right|done]|intros e s' Hx; exact Hx].
  destruct (rq_phase r) as [|token|b] eqn:Eph; [exact IH| |exact IH].
  wp_step. destruct (usize_sub _ _) as [remaining|]; simpl; [|by apply wp_panic]. wp_step.
  case_decide; [exact IH|]. set (draft := ngram_draft _ _ _). case_decide as Hd; [exact IH|].
  wp_step. apply can_append_wp; [intros fits _|congruence].
  eapply wp_bind_post; [exact IH'| |done]. intros l s' (-> & Hnl & Hl). apply wp_ret.
  destruct fits.
  - split_and!; [done| |].
    + simpl. constructor; [|done]. intros ([i t] & Hi & Hin)%list_elem_of_fmap.
      simpl in Hi. subst. apply list_elem_of_fmap in Hin as ([[i' t'] d'] & Heq & Hin).
      simpl in Heq. injection Heq as -> ->. apply Hni. by apply (Hl _ _ _ Hin).
    + intros i t d [[= -> -> ->]|Hin]%elem_of_cons.
      * split; [by left|]. split; [done|]. by eapply resting_waits.
      * destruct (Hl i t d Hin) as (? & ? & ?). split; [by right|done].
  - split_and!; [done..|]. intros i t d Hin. destruct (Hl i t d Hin) as (? & ? & ?).
    split; [by right|done].
Qed.

Lemma resize_length n pad l : length (resize n pad l) = n.
Proof. unfold resize. rewrite length_app, length_take, length_replicate. lia. Qed.

(** With room and ids left, an append begins. *)
Lemma begin_fits s id n q :
  static_wf s → sequences (kv_cache s) !! id = Some q → n ≠ 0 → append_fits (kv_cache s) q n →
  ¬ exhausted s → ∃ a k, begin_append id n (kv_cache s) = (Ok a, k).
Proof.
  intros Hst Hq Hn (Hp & _ & Hm & Hav) Hex. unfold exhausted in Hex.
  eapply begin_append_succeeds; [apply (st_kv _ Hst)|done|done|lia|done|done|lia].
Qed.

Lemma verify_rows_wp c max_rows candidates rows s :
  let width := draft_tokens c + 1 in
  reserved Verify width rows s → NoDup candidates.*1.*1 →
  (∀ id token draft, (id, token, draft) ∈ candidates →
     id ∉ map row_request_id rows ∧ draft ≠ [] ∧ waits s id token) →
  max_rows * width ≤ max_batch_tokens (batch_config s) →
  wp (verify_rows c width max_rows candidates rows)
    (post (grown Verify width rows s) (λ _ s', worn_out s')) s.
Proof.
  intros width. revert rows s.
  induction candidates as [|[[id token] draft] rest IH]; intros rows s Hres Hnd Hc Hmax; simpl.
  { apply wp_ret. by apply grown_refl. }
  case_decide as Hfull; [apply wp_ret; by apply grown_refl|].
  simpl in Hnd. apply NoDup_cons in Hnd as [Hni Hnd]. simpl in Hni.
  destruct (Hc id token draft) as (Hrow & Hd & r & k & Hid & Hph & Hv & Hk & Hl); [by left|].
  destruct (static_sequence _ _ _ (proj1 Hres) Hid) as [q Hq].
  wp_step. apply can_append_wp; [intros b Hb|congruence]. destruct b.
  2:{ apply IH; try done. intros id' t' d' Hi. apply (Hc id' t' d'). by right. }
  destruct (proj1 Hb eq_refl) as (Hw & q' & Hq' & Hfits). clear Hb. simplify_eq.
  destruct (last draft) as [pad|] eqn:El; [|by apply last_None in El].
  wp_step. simpl. wp_step.
  set (tokens := token :: resize (draft_tokens c) pad draft).
  assert (length tokens = width) as Hlen by (unfold tokens, width; simpl; rewrite resize_length; lia).
  assert (wp (kv (begin_append id width)) (post (λ a s', cache_only s s' ∧
      reserved Verify width (rows ++ [scheduled_sequence a tokens]) s' ∧
      ar_request_id a = id ∧
      ∀ id', id' ≠ id → seq_view (kv_cache s') id' = seq_view (kv_cache s) id')
    (λ _ s', worn_out s')) s) as Hbegin.
  { assert (wp (kv (begin_append id width)) (post (λ a s', cache_only s s' ∧
      reserved Verify width (rows ++ [scheduled_sequence a tokens]) s' ∧
      ar_request_id a = id ∧
      ∀ id', id' ≠ id → seq_view (kv_cache s') id' = seq_view (kv_cache s) id')
      (λ _ s', s' = s)) s) as Hw'.
    { eapply (begin_row_wp Verify _ _ _ _ r tokens); try done; try lia.
      - transitivity (max_rows * width); [|done]. apply Nat.mul_le_mono_r. lia.
      - intros a _ Hst Hctx. rewrite Hv in Hst. simpl in Hst. split; [done|]. split; [done|].
        simpl. rewrite Hst. split; [done|]. by eexists _, _. }
    destruct (decide (exhausted s)) as [Hex|Hex].
    - eapply wp_post_mono; [exact Hw'|done|]. intros e s' ->. by split; [apply Hres|].
    - destruct (begin_fits _ _ _ _ (proj1 Hres) Hq Hw Hfits Hex) as (a & m' & Heq).
      unfold wp, kv in Hw' |- *. rewrite Heq in Hw' |- *. exact Hw'. }
  eapply wp_bind_post; [exact Hbegin| |done]. intros a s' (Hco & Hres' & Hai & Hother).
  eapply wp_post_mono; [apply IH; [done|done| |by rewrite (proj1 Hco)]| |done].
  - intros id' t' d' Hi. destruct (Hc id' t' d') as (Hni' & Hd' & Hcand); [by right|].
    assert (id' ≠ id).
    { intros ->. apply Hni. apply list_elem_of_fmap. exists (id, t'). split; [done|].
      apply list_elem_of_fmap. by exists (id, t', d'). }
    split_and!; [|done|].
    + rewrite map_app, not_elem_of_app. split; [done|]. simpl. rewrite Hai. set_solver.
    + eapply waits_frame; [done| |done]. by apply Hother.
  - intros rows' s''. by apply grown_step.
Qed.

Lemma schedule_verify_wp s :
  static_wf s → resting_all s →
  wp schedule_verify (post (attempt Verify s) (λ _ s', rested s s' ∨ worn_out s')) s.
Proof.
  intros Hst Hrest. unfold schedule_verify. do 2 wp_step.
  destruct (speculative s) as [c|]; [|by apply wp_ret].
  wp_step. destruct (usize_add _ _) as [width|] eqn:Ew; simpl; [|by apply wp_panic].
  apply usize_add_Some in Ew as [-> _]. wp_step.
  case_decide; [by apply wp_ret|].
  eapply wp_bind_post; [apply verify_candidates_wp; [done|done| |]| |done].
  - intros id r Hin. by apply elem_of_btree_iter in Hin.
  - apply NoDup_btree_keys.
  - intros l s' (-> & Hnd & Hl).
    eapply wp_bind_post; [apply (verify_rows_wp _ _ _ []); [by apply reserved_nil|done| |]| |].
    + intros id t d Hin. destruct (Hl id t d Hin) as (_ & ? & ?). split_and!; [|done..].
      by intros ?%elem_of_nil.
    + rewrite Nat.mul_comm. apply Nat.Div0.mul_div_le.
    + intros rows s' Hg. eapply wp_post_mono; [by eapply finish_grown_wp|done|by left].
    + by right.
Qed.
End Schedule.
