(* ===== verification/ContinuousBatchLoop.v ===== *)
(** * Preemption, admission and the loop of [schedule]

    [schedule] always ends: each turn of its loop but the last takes the pages
    of one more request away.  It leaves the scheduler in its invariant with
    the batch it returns in flight. *)
From S2P Require Import Prelude PagedKv PagedKvPool PagedKvInv PagedKvOps PagedKvPrefix.
From S2P Require Import PagedKvSpec ContinuousBatch ContinuousBatchInv ContinuousBatchSchedule.
Open Scope nat_scope.
Open Scope m_scope.

Section Loop.
Context {TokenSampler : Type}.
Notation Request := (@ActiveRequest TokenSampler).
Notation Sched := (@ContinuousBatchScheduler TokenSampler).
Implicit Types s : Sched.
Implicit Types r : Request.

(** ** One attempt *)

(** An error that leaves every request at rest, unless reservation ids ran out. *)
Definition failed (s s' : Sched) : Prop :=
  (static_wf s' ∧ resting_all s' ∧ frame s s') ∨ worn_out s'.

Lemma rested_failed s s' : rested s s' → failed s s'.
Proof. intros (? & ? & ?). left. split_and!; try done. by apply cache_only_frame. Qed.

Lemma failed_trans s s1 s' : frame s s1 → failed s1 s' → failed s s'.
Proof. intros Hf [(? & ? & ?)|?]; [left|by right]. split_and!; try done. by etransitivity. Qed.

(** Setting one of the scheduling flags. *)
Lemma launched_prefer s b s' p : launched s b s' → launched s b (set_prefer_prefill p s').
Proof.
  intros ([] & [[] [Hne Hlt]] & []). split; [by split|]. split; [|by split].
  split; [by split|]. by split.
Qed.

Lemma frame_turn s t : frame s (set_speculative_turn t s).
Proof. by split. Qed.

Lemma static_turn s t : static_wf s → static_wf (set_speculative_turn t s).
Proof. intros []. by split. Qed.

Definition tried (s : Sched) (ob : option ScheduledBatch) (s' : Sched) : Prop :=
  match ob with
  | None => ∃ t, s' = set_speculative_turn t s
  | Some b => launched s b s'
  end.

Lemma tried_step kind s s1 ob s' :
  frame s s1 → attempt kind s1 ob s' →
  match ob with None => s' = s1 | Some b => launched s b s' end.
Proof. intros Hf. destruct ob; simpl; [|done]. intros [_ ?]. by eapply launched_trans. Qed.

(** One attempt failed to build a batch: go on to the next. *)
Ltac next_attempt :=
  intros [b|] s';
    [intros Hl; do 2 wp_step; apply wp_ret; simpl; by apply launched_prefer|intros ->].

Lemma try_schedule_wp s :
  static_wf s → resting_all s →
  wp try_schedule (post (tried s) (λ _ s', failed s s')) s.
Proof.
  intros Hst Hrest. unfold try_schedule. do 2 wp_step.
  eapply (wp_bind_post _ _ (λ ob s', match ob with None => s' = s | Some b => launched s b s' end)
    (λ _ s', failed s s')); [| |done].
  { destruct (prefer_prefill s); [|by apply wp_ret].
    eapply wp_post_mono; [by apply schedule_prefill_wp|..].
    - intros ob s'. by apply tried_step.
    - intros e s'. apply rested_failed. }
  next_attempt.
  do 2 wp_step. set (s1 := set_speculative_turn _ s). do 2 wp_step.
  pose proof (frame_turn s (negb (speculative_turn s))) as Hf. fold s1 in Hf.
  assert (static_wf s1) as Hst1 by by apply static_turn.
  assert (resting_all s1) as Hrest1 by done.
  eapply (wp_bind_post _ _ (λ ob s', match ob with None => s' = s1 | Some b => launched s b s' end)
    (λ _ s', failed s s')); [| |done].
  { destruct (speculative_turn s1); [|by apply wp_ret].
    eapply wp_post_mono; [by apply schedule_verify_wp|..].
    - intros ob s'. by apply tried_step.
    - intros e s' Hr. eapply failed_trans; [exact Hf|].
      destruct Hr as [?|?]; [by apply rested_failed|by right]. }
  next_attempt.
  eapply (wp_bind_post _ _ (λ ob s', match ob with None => s' = s1 | Some b => launched s b s' end)
    (λ _ s', failed s s')); [| |done].
  { eapply wp_post_mono; [by apply schedule_decode_wp|..].
    - intros ob s'. by apply tried_step.
    - intros e s' Hr. eapply failed_trans; [exact Hf|]. by apply rested_failed. }
  next_attempt.
  eapply (wp_bind_post _ _ (λ ob s', match ob with None => s' = s1 | Some b => launched s b s' end)
    (λ _ s', failed s s')); [| |done].
  { eapply wp_post_mono; [by apply schedule_prefill_wp|..].
    - intros ob s'. by apply tried_step.
    - intros e s' Hr. eapply failed_trans; [exact Hf|]. by apply rested_failed. }
  next_attempt.
  apply wp_ret. by eexists.
Qed.

(** ** Preemption *)

(** The sequences that hold pages: what each preemption has one less of. *)
Definition holding (s : Sched) : nat :=
  size (filter (λ e : N * SequenceState, pages e.2 ≠ []) (sequences (kv_cache s))).

Lemma page_holders_wp requests s :
  (∀ id r, (id, r) ∈ requests → is_Some (sequences (kv_cache s) !! id)) →
  wp (page_holders requests) (post (λ l s', s' = s ∧ ∀ a id, (a, id) ∈ l →
      ∃ r q, (id, r) ∈ requests ∧ sequences (kv_cache s) !! id = Some q ∧ pages q ≠ [])
    (λ _ _, False)) s.
Proof.
  induction requests as [|[id r] requests IH]; intros Hs; simpl.
  { apply wp_ret. split; [done|]. by intros ? ? ?%elem_of_nil. }
  assert (wp (page_holders requests) (post (λ l s', s' = s ∧ ∀ a i, (a, i) ∈ l →
      ∃ r' q, (i, r') ∈ (id, r) :: requests ∧ sequences (kv_cache s) !! i = Some q ∧ pages q ≠ [])
    (λ _ _, False)) s) as IH'.
  { eapply wp_post_mono; [apply IH; intros i r' Hin; apply (Hs i r'); by right| |done].
    intros l s' [-> Hl]. split; [done|]. intros a i Hin.
    destruct (Hl a i Hin) as (r' & q & ? & ?). exists r', q. split; [by right|done]. }
  clear IH. destruct (Hs id r) as [q Hq]; [by left|].
  assert (wp (let! table := kv (block_table id) in
              let! more := page_holders requests in
              mret (if decide (table = []) then more else (rq_admitted r, id) :: more))
    (post (λ l s', s' = s ∧ ∀ a i, (a, i) ∈ l →
      ∃ r' q, (i, r') ∈ (id, r) :: requests ∧ sequences (kv_cache s) !! i = Some q ∧ pages q ≠ [])
    (λ _ _, False)) s) as Hgoal.
  { wp_step. apply wp_kv. unfold block_table. wp_step. apply sequence_wp; [|congruence].
    intros q' Hq'. simplify_eq. wp_step. rewrite set_kv_cache_id.
    eapply wp_bind_post; [exact IH'| |done]. intros l s' [-> Hl]. apply wp_ret. split; [done|].
    case_decide; [done|]. intros a i [[= -> ->]|Hin]%elem_of_cons; [|by apply (Hl a)].
    exists r, q. split; [by left|done]. }
  destruct (rq_phase r); [exact Hgoal|exact Hgoal|exact IH'].
Qed.

Definition vacated (m m' : PagedKvCacheManager) (victim : RequestId) : Prop :=
  sequences m' = <[victim := mk_sequence 0 [] None 0 CHAIN_ROOT]> (sequences m) ∧
  config m' = config m ∧ kv_wf m'.

(** Dropping a sequence at rest and creating it again. *)
Lemma vacate_wp victim q s :
  static_wf s → sequences (kv_cache s) !! victim = Some q → pending q = None →
  ∀ (k : M Sched ContinuousBatchError bool) Q,
  (∀ m, vacated (kv_cache s) m victim → wp k Q (set_kv_cache m s)) →
  (∀ p m, benign p → Q (Panic p) (set_kv_cache m s)) →
  wp (kv (remove_sequence victim) ;;; kv (create_sequence victim) ;;; k) Q s.
Proof.
  intros Hst Hq Hp k Q Hk Hpanic. wp_step. apply wp_kv.
  eapply wp_mono; [by apply remove_sequence_wf, st_kv|]. intros [[]|e|p] m1; simpl.
  - intros (Hwf1 & q' & _ & _ & Hc1 & Hs1 & _). wp_step. apply wp_kv.
    eapply wp_mono; [by apply create_sequence_wf|]. simpl. intros [[]|e|p] m2; simpl.
    + intros (Hwf2 & _ & ->). replace (set_kv_cache _ (set_kv_cache m1 s)) with
        (set_kv_cache (set_sequences (<[victim := mk_sequence 0 [] None 0 CHAIN_ROOT]> (sequences m1)) m1) s)
        by (by destruct s).
      apply Hk. split; [|done]. simpl. rewrite Hs1. apply insert_delete_eq.
    + intros [-> Hin]. rewrite Hs1 in Hin. rewrite lookup_delete_eq in Hin. by destruct Hin.
    + intros Hb. replace (set_kv_cache m2 (set_kv_cache m1 s)) with (set_kv_cache m2 s)
        by (by destruct s). by apply Hpanic.
  - intros [-> Hn]. by destruct (Hn q).
  - intros Hb. by apply Hpanic.
Qed.

Lemma vacated_facts s m victim r q :
  static_wf s → resting_all s → active s !! victim = Some r →
  sequences (kv_cache s) !! victim = Some q → pages q ≠ [] → vacated (kv_cache s) m victim →
  let s' := set_active (<[victim := set_phase NeedsPrefill r]> (active s)) (set_kv_cache m s) in
  static_wf s' ∧ resting_all s' ∧ frame s s' ∧ holding s' < holding s.
Proof.
  intros Hst Hrest Hr Hq Hpg (Hs & Hc & Hwf) s'.
  destruct (seq_view_insert _ _ _ _ _ Hs Hq) as [Hdom Hother].
  pose proof (proj1 (st_request _ Hst _ _ Hr)) as Hrw.
  split_and!.
  - apply (static_put (set_kv_cache m s) victim r); [by apply static_kv|done|].
    simpl. rewrite Hc. by apply request_wf_phase.
  - intros id r'. unfold s'. simpl. rewrite lookup_insert. case_decide.
    + subst. intros [= <-]. unfold resting. simpl. exists 0. unfold seq_view. rewrite Hs, lookup_insert_eq.
      split; [done|]. rewrite (rw_history _ _ Hrw), length_app. pose proof (rw_prompt _ _ Hrw).
      destruct (rq_prompt_token_ids r); [done|simpl; lia].
    + intros Hid. rewrite Hother by done. by apply Hrest.
  - split; try done. intros id. unfold s'. simpl. rewrite lookup_insert. case_decide; [|done].
    subst. by rewrite Hr.
  - unfold holding, s'. simpl. rewrite Hs.
    rewrite map_filter_insert_False by (simpl; intros Hx; by apply Hx).
    rewrite map_filter_delete.
    assert (filter (λ e : N * SequenceState, pages e.2 ≠ []) (sequences (kv_cache s)) !! victim = Some q)
      as Hin by (by apply map_lookup_filter_Some).
    rewrite map_size_delete_Some by (by eexists).
    enough (0 < size (filter (λ e : N * SequenceState, pages e.2 ≠ []) (sequences (kv_cache s)))) by lia.
    apply Nat.neq_0_lt_0. intros H0%map_size_empty_inv. by rewrite H0, lookup_empty in Hin.
Qed.

Definition preempted (s : Sched) (done : bool) (s' : Sched) : Prop :=
  if done then static_wf s' ∧ resting_all s' ∧ frame s s' ∧ holding s' < holding s else s' = s.

Lemma preempt_newest_wp s :
  static_wf s → resting_all s →
  wp preempt_newest (post (preempted s) (λ _ _, False)) s.
Proof.
  intros Hst Hrest. unfold preempt_newest. do 2 wp_step.
  eapply wp_bind_post; [apply page_holders_wp| |done].
  { intros id r Hin%elem_of_btree_iter. destruct (static_sequence _ _ _ Hst Hin) as [q ->]. by eexists. }
  intros l s' [-> Hl]. case_decide; [by apply wp_ret|].
  destruct (max_by holder_cmp l) as [[a victim]|] eqn:Em;
    [|apply max_by_None in Em; subst; simpl in *; lia].
  wp_step. simpl. wp_step. simpl. apply max_by_elem in Em.
  destruct (Hl _ _ Em) as (r & q & Hr%elem_of_btree_iter & Hq & Hpg).
  pose proof (Hrest victim r Hr) as Hv. unfold resting in Hv.
  assert (pending q = None) as Hp.
  { unfold seq_view in Hv. rewrite Hq in Hv. simpl in Hv.
    destruct (rq_phase r); [destruct Hv as (k & ? & _)|destruct Hv as (k & ? & _)|done]; congruence. }
  eapply vacate_wp; [done|done|done| |by intros]. intros m Hvac.
  destruct (vacated_facts s m victim r q) as (Hst' & Hrest' & Hf & Hh); [done..|].
  do 2 wp_step. wp_step. simpl. rewrite Hr. simpl. wp_step. unfold put_active.
  do 2 wp_step. simpl. wp_step. wp_step. wp_step.
  destruct (checked_add _ _ _) as [n|]; simpl; [|by apply wp_panic]. wp_step.
  do 2 wp_step. do 2 wp_step. apply wp_ret. unfold preempted.
  split_and!; [by destruct Hst'; split|done|by destruct Hf; split|done].
Qed.

(** ** The loop of [schedule] *)
Lemma schedule_loop_wp fuel s :
  static_wf s → resting_all s → holding s < fuel →
  wp (schedule_loop fuel) (post (λ ob s', match ob with
      | None => static_wf s' ∧ resting_all s' ∧ frame s s'
      | Some b => ∃ s1, launched s b s1 ∧ s' = set_in_flight (Some b) s1
      end) (λ _ s', failed s s')) s.
Proof.
  revert s. induction fuel as [|fuel IH]; intros s Hst Hrest Hf; [lia|]. simpl.
  eapply wp_bind_post; [by apply try_schedule_wp| |done]. intros [b|] s1.
  - intros Hl. do 2 wp_step. apply wp_ret. by exists s1.
  - intros [t ->]. do 2 wp_step. set (s1 := set_speculative_turn t s).
    assert (static_wf s1) as Hst1 by by apply static_turn.
    assert (frame s s1) as Hf1 by apply frame_turn.
    eapply (wp_bind_post _ _ (preempted s1) (λ _ _, False)); [| |done].
    { destruct (recompute_preemption s1); [by apply preempt_newest_wp|by apply wp_ret]. }
    intros [|] s2; simpl.
    + intros (Hst2 & Hrest2 & Hf2 & Hh).
      assert (frame s s2) as Hf02 by (by etransitivity).
      assert (holding s1 = holding s) by done.
      eapply wp_post_mono; [apply IH; [done|done|lia]|..].
      * intros [b|] s3; simpl.
        -- intros (s4 & Hl & ->). exists s4. split; [|done]. by eapply launched_trans.
        -- intros (? & ? & ?). split_and!; try done. by etransitivity.
      * intros e s3. by apply failed_trans.
    + intros ->. by apply wp_ret.
Qed.

Lemma holding_bound s : static_wf s → holding s ≤ size (active s).
Proof.
  intros Hst. unfold holding. transitivity (size (sequences (kv_cache s))).
  - apply map_subseteq_size, map_filter_subseteq.
  - rewrite <- !size_dom. apply subseteq_size. intros id. rewrite !elem_of_dom.
    apply (st_dom _ Hst).
Qed.

(** ** Admission *)
Section Hashed.
Context `{DefaultHasher}.

(** What no method changes after construction, and what admission leaves. *)
Record settled (s s' : Sched) : Prop := {
  se_batch : batch_config s' = batch_config s;
  se_options : options s' = options s;
  se_chunk : prefill_chunk_tokens s' = prefill_chunk_tokens s;
  se_finished : finished s' = finished s;
  se_in_flight : in_flight s' = in_flight s;
  se_next_request : next_request s' = next_request s;
  se_cache : config (kv_cache s') = config (kv_cache s)
}.

#[export] Instance settled_preorder : PreOrder settled.
Proof. split; [by split|]. intros s1 s2 s3 [] []. split; congruence. Qed.

Lemma frame_settled s s' : frame s s' → settled s s'.
Proof. intros []. by split. Qed.

(** The request a queued submission becomes when it is admitted. *)
Definition admitted (id : RequestId) (p : @PendingRequest TokenSampler) (r : Request) : Prop :=
  pr_id p = id ∧ rq_prompt_token_ids r = pr_prompt_token_ids p ∧ rq_generation r = pr_generation p ∧
  rq_sampler r = pr_sampler p ∧ rq_generated_token_ids r = [] ∧ rq_history r = rq_prompt_token_ids r.

(** Requests move from the queue to the active set and otherwise keep all but
    their phase; no id is given out. *)
Record kept (s s' : Sched) : Prop := {
  kp_next : next_request s' = next_request s;
  kp_queue : ∀ p, p ∈ pending_requests s' → p ∈ pending_requests s;
  kp_active : ∀ id r', active s' !! id = Some r' →
    (∃ p, p ∈ pending_requests s ∧ admitted id p r') ∨
    ∃ r, active s !! id = Some r ∧ set_phase NeedsPrefill r' = set_phase NeedsPrefill r
}.

Lemma admitted_phase id p r r' :
  set_phase NeedsPrefill r' = set_phase NeedsPrefill r → admitted id p r → admitted id p r'.
Proof.
  destruct r, r'. unfold set_phase, admitted. simpl. intros [= -> -> -> -> -> -> ->]. done.
Qed.

#[export] Instance kept_preorder : PreOrder kept.
Proof.
  split; [intros s; split; [done|done|intros id r Hr; right; by exists r]|].
  intros s1 s2 s3 [Hn12 Hq12 H12] [Hn23 Hq23 H23]. split; [congruence|auto|].
  intros id r3 H3. destruct (H23 id r3 H3) as [(p & Hp & ?)|(r2 & H2 & He)];
    [left; exists p; split; [by apply Hq12|done]|].
  destruct (H12 id r2 H2) as [(p & Hp & Ha)|(r1 & H1 & He')].
  - left. exists p. split; [done|]. by eapply admitted_phase.
  - right. exists r1. split; [done|congruence].
Qed.

Lemma frame_kept s s' : frame s s' → kept s s'.
Proof.
  intros Hf. split; [apply (fr_next_request _ _ Hf)|by rewrite (fr_pending _ _ Hf)|].
  intros id r' Hr'. right. pose proof (fr_requests _ _ Hf id) as He. rewrite Hr' in He.
  destruct (active s !! id) as [r|]; [|done]. exists r. split; [done|]. simpl in He. congruence.
Qed.

(** The prefix taken from the cache leaves at least one token to compute. *)
Lemma reusable_bound m tokens : tokens ≠ [] →
  length (reusable m tokens).1 * block_size (config m) < length tokens.
Proof.
  intros Hne. assert (0 < length tokens) by (destruct tokens; [done|simpl; lia]).
  unfold reusable. case_decide; [simpl; lia|].
  pose proof (cached_chain_length (block_index m) tokens (block_size (config m))
    ((length tokens - 1) / block_size (config m)) 0 CHAIN_ROOT).
  pose proof (Nat.Div0.mul_div_le (length tokens - 1) (block_size (config m))). nia.
Qed.

Lemma admit_wp p s :
  static_wf s → resting_all s → pending_wf (config (kv_cache s)) p →
  (pr_id p < next_request s)%N → active s !! pr_id p = None →
  (∀ p', p' ∈ pending_requests s → pr_id p' ≠ pr_id p) →
  wp (admit_request p) (post (λ _ s', static_wf s' ∧ resting_all s' ∧ settled s s' ∧
      pending_requests s' = pending_requests s ∧
      ∀ id r, active s' !! id = Some r → admitted id p r ∨ active s !! id = Some r)
    (λ _ _, False)) s.
Proof.
  intros Hst Hrest Hp Hlt Hnone Hq. unfold admit_request. wp_step. apply wp_kv.
  assert (sequences (kv_cache s) !! pr_id p = None) as Hseq.
  { apply eq_None_not_Some. rewrite <- (st_dom _ Hst), Hnone. by intros []. }
  eapply wp_mono; [by apply create_with_prefix_wf, st_kv|]. intros [matched|e|x] m; simpl; [|by intros [_ []]; congruence|done].
  intros (Hwf & _ & -> & Hc & Hrs & Hnr & Hs). do 2 wp_step. simpl.
  wp_step. destruct (checked_add _ _ _) as [next|]; simpl; [|by apply wp_panic]. wp_step.
  do 2 wp_step. unfold put_active. wp_step. simpl.
  set (r := mk_active _ _ _ _ _ _ _ _).
  assert (∀ id, id ≠ pr_id p → seq_view m id = seq_view (kv_cache s) id) as Hother
    by (intros id Hne; unfold seq_view; by rewrite Hs, lookup_insert_ne).
  split_and!.
  - destruct Hst as [Hk Hd Hr Hpd Hnd Hl]. split; simpl; try done.
    + intros id. rewrite Hs, !lookup_insert. case_decide; [split; by eexists|apply Hd].
    + intros id r0. rewrite lookup_insert. case_decide.
      * subst. intros [= <-]. split; [|done]. rewrite Hc. destruct Hp. split; simpl; try done.
        by rewrite app_nil_r.
      * rewrite Hc. apply Hr.
    + intros p' Hin. rewrite Hc. destruct (Hpd p' Hin) as (? & ? & ?). split_and!; try done.
      rewrite lookup_insert_ne; [done|]. intros Heq. by apply (Hq p').
  - intros id r0. simpl. rewrite lookup_insert. case_decide.
    + subst. intros [= <-]. unfold resting. simpl. eexists. unfold seq_view.
      rewrite Hs, lookup_insert_eq. simpl. split; [done|]. apply reusable_bound, (pw_prompt _ _ Hp).
    + intros Hid. rewrite Hother by done. by apply Hrest.
  - by split.
  - done.
  - intros id r0. simpl. rewrite lookup_insert. case_decide; [subst; intros [= <-]; by left|by right].
Qed.

Lemma delete_pending l i (p : @PendingRequest TokenSampler) :
  l !! i = Some p → NoDup (map pr_id l) →
  NoDup (map pr_id (delete i l)) ∧ (∀ p', p' ∈ delete i l → p' ∈ l ∧ pr_id p' ≠ pr_id p) ∧
  S (length (delete i l)) = length l.
Proof.
  intros Hi Hnd. pose proof (lookup_lt_Some _ _ _ Hi) as Hlen.
  apply delete_Permutation in Hi as Hperm. rewrite Hperm in Hnd. simpl in Hnd.
  apply NoDup_cons in Hnd as [Hni Hnd]. split_and!; [done| |].
  - intros p' Hin. split; [rewrite Hperm; by right|]. intros Heq. apply Hni. rewrite <- Heq.
    by apply list_elem_of_fmap_2.
  - rewrite length_delete; [lia|]. by eexists.
Qed.

Lemma static_dequeue s i (p : @PendingRequest TokenSampler) :
  static_wf s → pending_requests s !! i = Some p →
  static_wf (set_pending_requests (delete i (pending_requests s)) s).
Proof.
  intros [? ? ? Hp Hnd ?] Hi. destruct (delete_pending _ _ _ Hi Hnd) as (Hnd' & Hin & _).
  split; simpl; try done. intros p' Hp'. by apply Hp, Hin.
Qed.

Lemma promote_loop_wp fuel available s :
  static_wf s → resting_all s → length (pending_requests s) < fuel →
  wp (promote_loop fuel available) (post (λ _ s', static_wf s' ∧ resting_all s' ∧ settled s s' ∧
    kept s s') (λ _ _, False)) s.
Proof.
  revert available s. induction fuel as [|fuel IH]; intros available s Hst Hrest Hf; [lia|]. simpl.
  do 2 wp_step. case_decide; [by apply wp_ret|].
  destruct (find_pending _ _) as [[i p]|] eqn:Ef; [|by apply wp_ret].
  apply list_find_Some in Ef as (Hi & _ & _). case_match; [by apply wp_ret|].
  do 2 wp_step. set (s1 := set_pending_requests _ s).
  destruct (delete_pending _ _ _ Hi (st_queue _ Hst)) as (_ & Hin & Hlen).
  destruct (st_pending _ Hst p) as (Hp & Hlt & Hnone); [by eapply list_elem_of_lookup_2|].
  eapply wp_bind_post; [apply (admit_wp p s1)| |done]; try done.
  - by eapply static_dequeue.
  - intros p' Hp'. by apply Hin.
  - intros [] s2 (Hst2 & Hrest2 & Hse & Hpd & Hkept).
    eapply wp_post_mono; [apply IH; [done|done|]| |done].
    + rewrite Hpd. simpl. lia.
    + intros [] s3 (? & ? & ? & ?). split_and!; try done.
      * etransitivity; [|done]. etransitivity; [|done]. by split.
      * transitivity s2; [|done]. split; [apply (se_next_request _ _ Hse)|..].
        -- intros p' Hp'. rewrite Hpd in Hp'. by apply Hin.
        -- intros id r Hr. destruct (Hkept id r Hr) as [?|?]; [left|right; by exists r].
           exists p. split; [by eapply list_elem_of_lookup_2|done].
Qed.

Lemma promote_pending_wp s :
  static_wf s → resting_all s →
  wp promote_pending (post (λ _ s', static_wf s' ∧ resting_all s' ∧ settled s s' ∧ kept s s')
    (λ _ s', s' = s)) s.
Proof.
  intros Hst Hrest. unfold promote_pending. do 2 wp_step.
  eapply (wp_bind_post _ _ (λ _ s', s' = s) (λ _ s', s' = s)); [| |done].
  - destruct (kv_admission (options s)); [by apply wp_ret|].
    unfold mok_or. destruct (unreserved_pages _ _ _); [by apply wp_ret|by apply wp_throw].
  - intros available s' ->. eapply wp_post_mono; [apply promote_loop_wp; [done|done|lia]|done|done].
Qed.

(** ** [schedule] *)
Lemma resting_sched s : static_wf s → resting_all s → in_flight s = None → sched_wf s.
Proof. intros ? ? Hf. split; [done|]. by rewrite Hf. Qed.

Lemma sched_idle s : sched_wf s → in_flight s = None → static_wf s ∧ resting_all s.
Proof. intros [? Hf] He. by rewrite He in Hf. Qed.

Lemma schedule_wp s :
  sched_wf s →
  wp schedule (post (λ ob s', sched_wf s' ∧ in_flight s' = ob ∧ in_flight s = None ∧
      kept s s' ∧ batch_config s' = batch_config s ∧ options s' = options s ∧
      config (kv_cache s') = config (kv_cache s) ∧ finished s' = finished s)
    (λ _ s', (sched_wf s' ∧ kept s s' ∧ finished s' = finished s ∧ in_flight s' = in_flight s) ∨
             worn_out s')) s.
Proof.
  intros Hwf. unfold schedule. do 2 wp_step. destruct (in_flight s) eqn:Ef; [apply wp_throw; by left|].
  destruct (sched_idle s Hwf Ef) as [Hst Hrest].
  case_decide; [apply wp_throw; by left|].
  eapply wp_bind_post; [by apply promote_pending_wp| |].
  2:{ intros e s' ->. by left. }
  intros [] s1 (Hst1 & Hrest1 & Hse & Hkept). do 2 wp_step.
  pose proof (holding_bound _ Hst1).
  eapply wp_post_mono; [apply schedule_loop_wp; [done|done|lia]|..].
  - intros [b|] s2; simpl.
    + intros (s3 & (Hst3 & Hfl & Hfr) & ->).
      assert (kept s (set_in_flight (Some b) s3)) as Hk by (transitivity s1;
        [done|by destruct (frame_kept s1 s3 Hfr); split]).
      apply frame_settled in Hfr. destruct Hse, Hfr. split; [|simpl; split_and!; (done || congruence)].
      split; [by destruct Hst3; split|]. simpl. destruct Hfl as [[] ?]. by split.
    + intros (Hst2 & Hrest2 & Hfr).
      assert (kept s s2) as Hk by (transitivity s1; [done|by apply frame_kept]).
      apply frame_settled in Hfr. destruct Hse, Hfr.
      split; [apply resting_sched; [done|done|congruence]|split_and!; (done || congruence)].
  - intros e s2 [(Hst2 & Hrest2 & Hfr)|Hex]; [left|by right].
    assert (kept s s2) as Hk by (transitivity s1; [done|by apply frame_kept]).
    apply frame_settled in Hfr. destruct Hse, Hfr.
    split; [apply resting_sched; [done|done|congruence]|split_and!; [done|congruence|congruence]].
Qed.
End Hashed.
End Loop.
