(* ===== verification/ContinuousBatchOps.v ===== *)
(** * Completing, failing and cancelling keep the scheduler's invariant

    The methods of src/src/continuous_batch.rs and of
    src/src/continuous_batch/lifecycle.rs that end a batch or a request. *)
From S2P Require Import Prelude PagedKv PagedKvPool PagedKvInv PagedKvOps PagedKvPrefix.
From S2P Require Import PagedKvSpec ContinuousBatch ContinuousBatchInv ContinuousBatchSchedule.
From S2P Require Import ContinuousBatchLoop.
Open Scope nat_scope.
Open Scope m_scope.

Section Ops.
Context {TokenSampler : Type}.
Notation Request := (@ActiveRequest TokenSampler).
Notation Sched := (@ContinuousBatchScheduler TokenSampler).
Implicit Types s : Sched.
Implicit Types r : Request.

(** ** Taking the batch *)
Lemma set_in_flight_back s b : in_flight s = b → set_in_flight b (set_in_flight None s) = s.
Proof. intros <-. by destruct s. Qed.

(** [take_batch] either refuses and leaves everything, or hands out the batch
    in flight. *)
Lemma take_batch_wp id s (Q : res ContinuousBatchError ScheduledBatch → Sched → Prop) :
  (∀ e, (∀ b, in_flight s = Some b → batch_id b ≠ id) → Q (Err e) s) →
  (∀ b, in_flight s = Some b → batch_id b = id → Q (Ok b) (set_in_flight None s)) →
  wp (take_batch id) Q s.
Proof.
  intros He HOk. unfold take_batch. do 2 wp_step. do 2 wp_step. wp_step. unfold mok_or.
  destruct (in_flight s) as [b|] eqn:Ef.
  - wp_step. case_decide as Hid.
    + do 2 wp_step. apply wp_throw. rewrite (set_in_flight_back _ _ Ef). apply He. intros b' [= <-]. done.
    + apply wp_ret. apply HOk; [done|]. destruct (decide (batch_id b = id)); [done|by destruct Hid].
  - apply wp_throw. replace (set_in_flight None s) with s by (destruct s; simpl in *; by subst).
    apply He. by intros b.
Qed.

Lemma put_back_wp {A} b e s (Q : res ContinuousBatchError A → Sched → Prop) :
  Q (Err e) (set_in_flight (Some b) s) → wp (put_back b e) Q s.
Proof. intros HQ. unfold put_back. do 2 wp_step. by apply wp_throw. Qed.

Lemma static_flight s o : static_wf s → static_wf (set_in_flight o s).
Proof. intros []. by split. Qed.

(** A request leaves: its sequence and its entry disappear together. *)
Lemma static_remove s id m :
  static_wf s → kv_wf m → config m = config (kv_cache s) →
  sequences m = delete id (sequences (kv_cache s)) →
  static_wf (set_kv_cache m (set_active (delete id (active s)) s)).
Proof.
  intros [Hk Hd Hr Hp Hq Hl] Hm Hc Hs. split; simpl; try done.
  - intros i. rewrite Hs, !lookup_delete. case_decide; [split; by intros []|apply Hd].
  - intros i r [_ Hi]%lookup_delete_Some. rewrite Hc. by apply Hr.
  - intros p Hin. rewrite Hc. destruct (Hp p Hin) as (? & ? & ?). split_and!; try done.
    rewrite lookup_delete. by case_decide.
Qed.

(** ** [fail_batch] *)
Lemma fail_rows_wp kind id rows s :
  static_wf s → NoDup (map row_request_id rows) →
  (∀ row, row ∈ rows → ∃ r, active s !! row_request_id row = Some r ∧
     rq_phase r = InFlight id ∧ row_fits kind (rq_history r) row ∧
     resting (seq_view (kv_cache s) (row_request_id row)) (set_phase (phase_before kind row) r)) →
  (∀ i r, active s !! i = Some r → i ∉ map row_request_id rows →
     resting (seq_view (kv_cache s) i) r) →
  wp (mfor rows (fail_row kind)) (post (λ _ s', ∃ act, s' = set_active act s ∧
      static_wf s' ∧ resting_all s' ∧
      (∀ row, row ∈ rows → act !! row_request_id row =
         set_phase (phase_before kind row) <$> active s !! row_request_id row) ∧
      ∀ i, i ∉ map row_request_id rows → act !! i = active s !! i) (λ _ _, False)) s.
Proof.
  revert s. induction rows as [|row rows IH]; intros s Hst Hnd Hrow Hrest; simpl.
  { apply wp_ret. exists (active s). split_and!; [by destruct s|done| |by intros ? ?%elem_of_nil|done].
    intros i r Hi. apply Hrest; [done|]. by intros ?%elem_of_nil. }
  simpl in Hnd. apply NoDup_cons in Hnd as [Hni Hnd].
  destruct (Hrow row) as (r & Hr & Hph & Hfit & Hresting); [by left|].
  unfold fail_row at 1. wp_step. do 2 wp_step. wp_step. rewrite Hr. simpl. wp_step.
  wp_step.
  assert (wp (match kind with
    | Prefill => mret NeedsPrefill
    | _ => let! token := mexpect OutOfBounds (row_token_ids row !! 0) in mret (AwaitingDecode token)
    end) (λ (x : res ContinuousBatchError _) s', x = Ok (phase_before kind row) ∧ s' = s) s) as Hphase.
  { destruct Hfit as [Hne _]. destruct kind; [by apply wp_ret|..];
      (destruct (row_token_ids row) as [|t ts] eqn:Et; [done|]); simpl;
      do 2 wp_step; apply wp_ret; unfold phase_before; by rewrite Et. }
  eapply wp_mono; [exact Hphase|]. intros x s' [-> ->]. simpl. unfold put_active. wp_step.
  set (r' := set_phase _ r). set (s1 := set_active _ s).
  eapply wp_mono; [apply (IH s1)|].
  - by apply static_phase.
  - done.
  - intros row' Hin. destruct (Hrow row') as (r0 & Hr0 & ?); [by right|]. exists r0.
    unfold s1. simpl. rewrite lookup_insert_ne; [done|]. intros Heq. apply Hni.
    rewrite Heq. by apply list_elem_of_fmap_2.
  - intros i r0. unfold s1. simpl. rewrite lookup_insert. case_decide as Heq.
    + intros [= <-] _. by rewrite <- Heq.
    + intros Hi Hn. apply Hrest; [done|]. apply not_elem_of_cons. split; [by intros ->|done].
  - intros [[]|e|p] s'; simpl; [|done..]. intros (act & -> & ? & ? & Hin & Hout).
    exists act. split; [by destruct s|]. split_and!; try done.
    + intros row' [->|Hi]%elem_of_cons.
      * rewrite Hout by done. unfold s1. simpl. rewrite lookup_insert_eq. by rewrite Hr.
      * rewrite Hin by done. unfold s1. simpl. rewrite lookup_insert_ne; [done|].
        intros Heq. apply Hni. rewrite Heq. by apply list_elem_of_fmap_2.
    + intros i [Hne Hi]%not_elem_of_cons. rewrite Hout by done. unfold s1. simpl.
      by rewrite lookup_insert_ne.
Qed.

(** What a failed batch leaves: every row's sequence and phase as before. *)
Definition failed_batch (s : Sched) (b : ScheduledBatch) (s' : Sched) : Prop :=
  in_flight s' = None ∧ settled (set_in_flight None s) s' ∧
  pending_requests s' = pending_requests s ∧
  (∀ row, row ∈ batch_sequences b →
     seq_view (kv_cache s') (row_request_id row) = Some (row_start_position row, None) ∧
     active s' !! row_request_id row =
       set_phase (phase_before (batch_kind b) row) <$> active s !! row_request_id row) ∧
  ∀ id, id ∉ map row_request_id (batch_sequences b) →
     seq_view (kv_cache s') id = seq_view (kv_cache s) id ∧ active s' !! id = active s !! id.

Lemma fail_batch_wp id s : sched_wf s →
  wp (fail_batch id) (post (λ _ s', sched_wf s' ∧ ∃ b, in_flight s = Some b ∧ batch_id b = id ∧
      failed_batch s b s')
    (λ _ s', s' = s ∧ ∀ b, in_flight s = Some b → batch_id b ≠ id)) s.
Proof.
  intros Hwf. unfold fail_batch. wp_step. apply take_batch_wp; [done|]. intros b Hb Hid.
  destruct Hwf as [Hst Hfl]. rewrite Hb in Hfl. destruct Hfl as ([Hnd Hw Hbd Hrow Hrest] & _ & _).
  set (s1 := set_in_flight None s).
  do 2 wp_step. destruct (existsb _ _) eqn:Eown.
  { apply existsb_exists in Eown as (row & Hin%list_elem_of_In & Hph).
    destruct (Hrow row Hin) as [_ (r & Hr & Hph' & _)]. unfold s1 in Hph. simpl in Hph.
    rewrite Hr in Hph. simpl in Hph. rewrite Hph', Hid, bool_decide_eq_true_2 in Hph; done. }
  do 2 wp_step. eapply wp_mono.
  { apply (cancel_rows_wp (batch_sequences b) s1); [by apply static_flight|by intros; apply Hrow|done]. }
  intros [[]|e|p] s2; simpl; [|done..]. intros (Hc & Hst2 & _ & Hin & Hout).
  pose proof (cache_only_active _ _ Hc) as Hact. simpl in Hact.
  eapply wp_post_mono; [apply (fail_rows_wp (batch_kind b) id)| |done]; [done|done|..].
  - intros row Hi. destruct (Hrow row Hi) as [Hres (r & Hr & Hph & Hfit)].
    exists r. rewrite Hact, Hph, Hid. split_and!; try done. rewrite Hin by done.
    eapply (resting_before (batch_kind b) row); [done|done|]. by eapply row_reserved_context.
  - intros i r Hi Hn. rewrite Hout by done. rewrite Hact in Hi. by apply Hrest.
  - intros [] s3 (act & -> & Hst3 & Hrest3 & Hin3 & Hout3).
    assert (in_flight (set_active act s2) = None) as Hf by (by rewrite (proj1 Hc)).
    split; [by apply resting_sched|]. exists b. split_and!; try done.
    split_and!; [done| |by rewrite (proj1 Hc)|..].
    + apply cache_only_frame, frame_settled in Hc. destruct Hc. by split.
    + intros row Hi. simpl. rewrite Hin, Hin3 by done. by rewrite Hact.
    + intros i Hi. simpl. rewrite Hout, Hout3 by done. by rewrite Hact.
Qed.

(** ** [complete_batch] *)

(** Rows whose tokens are committed, before their requests hear of it. *)
Record landed (kind : ScheduledBatchKind) (rows : list ScheduledSequence) (s : Sched) : Prop := {
  ld_static : static_wf s;
  ld_nodup : NoDup (map row_request_id rows);
  ld_row : ∀ row, row ∈ rows → ∃ r, active s !! row_request_id row = Some r ∧
    row_fits kind (rq_history r) row ∧
    row_context_length row = row_start_position row + length (row_token_ids row) ∧
    seq_view (kv_cache s) (row_request_id row) = Some (row_context_length row, None);
  ld_rest : ∀ id r, active s !! id = Some r → id ∉ map row_request_id rows →
    resting (seq_view (kv_cache s) id) r
}.

(** What becomes of a request that is given the tokens it generated, and the
    result it hands over when they end it. *)
Definition landing (r : Request) (id : RequestId) (tokens : list Z) :
    option Request * option FinishedGeneration :=
  let r' := append_tokens tokens r in
  let final := default 0%Z (last tokens) in
  let eos := bool_decide (final ∈ list_to_set (C := gset Z) (eos_token_ids (rq_generation r))) in
  if eos || bool_decide (max_new_tokens (rq_generation r) ≤ length (rq_generated_token_ids r')) then
    (None, Some (mk_finished id (rq_prompt_token_ids r) (rq_generated_token_ids r') eos))
  else (Some (set_phase (AwaitingDecode final) r'), None).

(** The same for a row of a prefill or decode batch and its token, which the
    row of a non-final prefill chunk ignores. *)
Definition outcome (r : Request) (row : ScheduledSequence) (token : Z) :
    option Request * option FinishedGeneration :=
  if decide (row_context_length row < length (rq_history r)) then
    (Some (set_phase NeedsPrefill r), None)
  else landing r (row_request_id row) [token].

Lemma fits_context kind history row :
  row_fits kind history row → kind ≠ Verify →
  row_context_length row = row_start_position row + length (row_token_ids row) →
  row_context_length row ≤ length history.
Proof.
  intros [_ Hf] Hk Hc. destruct kind; [| |done].
  - unfold slice in Hf. by case_decide; [lia|].
  - destruct Hf as (Hlen & t & Ht & _). rewrite Ht in Hc. simpl in Hc. lia.
Qed.

(** [finish_request] succeeds on a request whose sequence is at rest. *)
Lemma finish_request_wp id r k eos s :
  kv_wf (kv_cache s) → active s !! id = Some r → seq_view (kv_cache s) id = Some (k, None) →
  wp (finish_request id eos) (post (λ _ s', ∃ m,
      kv_wf m ∧ config m = config (kv_cache s) ∧ reservations m = reservations (kv_cache s) ∧
      sequences m = delete id (sequences (kv_cache s)) ∧
      s' = set_finished (finished s ++ [mk_finished id (rq_prompt_token_ids r)
                                          (rq_generated_token_ids r) eos])
             (set_kv_cache m (set_active (delete id (active s)) s)))
    (λ _ _, False)) s.
Proof.
  intros Hst Hr Hv. unfold finish_request. do 2 wp_step. wp_step. rewrite Hr. simpl. wp_step.
  do 2 wp_step. wp_step. apply wp_kv. simpl.
  eapply wp_mono; [by apply remove_sequence_wf|]. intros [[]|e|p] m; simpl; [|..|done].
  - intros (Hm & q & _ & _ & Hc & Hs & Hrs & _ & _). wp_step. simpl. exists m. by destruct s.
  - intros [_ Hn]. unfold seq_view in Hv. destruct (sequences (kv_cache s) !! id) as [q|] eqn:Eq; [|done].
    simpl in Hv. destruct (Hn q eq_refl). congruence.
Qed.

Lemma append_wf c ts r :
  request_wf c r → length (rq_generated_token_ids r ++ ts) < max_new_tokens (rq_generation r) →
  request_wf c (append_tokens ts r).
Proof. intros [? Hh ? ? ?] Hlt. split; simpl; try done. by rewrite Hh, app_assoc. Qed.

Lemma row_ids_ne row rows : row_request_id row ∉ map row_request_id rows →
  ∀ row', row' ∈ rows → row_request_id row' ≠ row_request_id row.
Proof. intros Hni row' Hin Heq. apply Hni. rewrite <- Heq. by apply list_elem_of_fmap_2. Qed.

(** The first row's request is brought to rest. *)
Lemma landed_put kind row rows s r r' :
  landed kind (row :: rows) s → active s !! row_request_id row = Some r →
  request_wf (config (kv_cache s)) r' → resting (seq_view (kv_cache s) (row_request_id row)) r' →
  landed kind rows (set_active (<[row_request_id row := r']> (active s)) s).
Proof.
  intros [Hst Hnd Hrow Hrest] Hr Hwf Hres. simpl in Hnd. apply NoDup_cons in Hnd as [Hni Hnd].
  split; simpl; [by eapply static_put|done|..].
  - intros row' Hin. destruct (Hrow row') as (r0 & Hr0 & ?); [by right|]. exists r0.
    rewrite lookup_insert_ne; [done|]. apply not_eq_sym. by eapply row_ids_ne.
  - intros i r0. rewrite lookup_insert. case_decide as Heq; [intros [= <-] _; by rewrite <- Heq|].
    intros Hi Hn. apply Hrest; [done|]. apply not_elem_of_cons. split; [by intros ->|done].
Qed.

(** The first row's request leaves. *)
Lemma landed_finish kind row rows s m :
  landed kind (row :: rows) s → kv_wf m → config m = config (kv_cache s) →
  sequences m = delete (row_request_id row) (sequences (kv_cache s)) →
  landed kind rows (set_kv_cache m (set_active (delete (row_request_id row) (active s)) s)).
Proof.
  intros [Hst Hnd Hrow Hrest] Hm Hc Hs. simpl in Hnd. apply NoDup_cons in Hnd as [Hni Hnd].
  assert (∀ i, i ≠ row_request_id row → seq_view m i = seq_view (kv_cache s) i) as Hv
    by (intros i Hi; unfold seq_view; by rewrite Hs, lookup_delete_ne).
  split; simpl; [by apply static_remove|done|..].
  - intros row' Hin. destruct (Hrow row') as (r0 & Hr0 & ?); [by right|]. exists r0.
    pose proof (row_ids_ne _ _ Hni row' Hin). by rewrite lookup_delete_ne, Hv.
  - intros i r0 [Hne Hi]%lookup_delete_Some Hn. rewrite Hv by done. apply Hrest; [done|].
    apply not_elem_of_cons. by split.
Qed.

(** A request that goes on has its row committed. *)
Definition lands_at (s : Sched) (row : ScheduledSequence) : Prop := ∀ r,
  active s !! row_request_id row = Some r →
  seq_view (kv_cache s) (row_request_id row) = Some (row_context_length row, None).

(** One row lands: its request moves to its outcome. *)
Lemma complete_row_wp kind row rows token s :
  kind ≠ Verify → landed kind (row :: rows) s →
  ∀ r, active s !! row_request_id row = Some r →
  wp (complete_row (row, token)) (post (λ _ s', landed kind rows s' ∧
      settled (set_finished (finished s') s) s' ∧ pending_requests s' = pending_requests s ∧
      finished s' = finished s ++ option_list (outcome r row token).2 ∧
      active s' !! row_request_id row = (outcome r row token).1 ∧
      (∀ i, i ≠ row_request_id row → active s' !! i = active s !! i ∧
                                     seq_view (kv_cache s') i = seq_view (kv_cache s) i) ∧
      lands_at s' row)
    (λ _ _, False)) s.
Proof.
  intros Hkind Hland r Hr. pose proof Hland as [Hst Hnd Hrow Hrest].
  destruct (Hrow row) as (r0 & Hr0 & Hfit & Hctx & Hv); [by left|]. simplify_eq.
  pose proof (fits_context _ _ _ Hfit Hkind Hctx) as Hle.
  pose proof (proj1 (st_request _ Hst _ _ Hr)) as Hrw.
  set (id := row_request_id row) in *.
  unfold complete_row. do 2 wp_step. simpl. fold id. wp_step. rewrite Hr. simpl. wp_step.
  unfold outcome, landing. fold id. case_decide as Hlt.
  - unfold put_active. wp_step. split_and!; simpl.
    + eapply landed_put; [done|done|by apply request_wf_phase|]. unfold resting. simpl. by eexists.
    + by split.
    + done.
    + by rewrite app_nil_r.
    + by rewrite lookup_insert_eq.
    + intros i Hi. by rewrite lookup_insert_ne.
    + by intros r' _.
  - wp_step. unfold put_active at 1. wp_step. simpl. rewrite (rw_eos _ _ Hrw).
    set (eos := bool_decide (token ∈ _)). set (s1 := set_active _ s).
    destruct (eos || _) eqn:Edone.
    + eapply wp_mono.
      { apply (finish_request_wp id (append_tokens [token] r) (row_context_length row) eos s1);
          [by apply (st_kv _ Hst)|apply lookup_insert_eq|done]. }
      intros [[]|e|p] s'; simpl; [|done..]. intros (m & Hm & Hc & Hrs & Hs & ->). simpl.
      rewrite delete_insert_eq. split_and!; simpl.
      * apply (landed_finish kind row rows s m) in Hs as Hld; [|done..].
        destruct Hld as [[] ? ? ?]. by split.
      * by split.
      * done.
      * done.
      * by rewrite lookup_delete_eq.
      * intros i Hi. rewrite lookup_delete_ne by done. split; [done|].
        unfold seq_view. by rewrite Hs, lookup_delete_ne.
      * intros r'. simpl. by rewrite lookup_delete_eq.
    + unfold put_active. wp_step. simpl. rewrite insert_insert_eq. split_and!; simpl.
      * refine (landed_put kind row rows s r _ Hland Hr _ _).
        -- apply request_wf_phase, append_wf; [done|]. apply orb_false_iff in Edone as [_ Ed].
           apply bool_decide_eq_false in Ed. simpl in Ed. lia.
        -- unfold resting. simpl. exists (row_context_length row). fold id. split; [done|].
           rewrite length_app, last_snoc. simpl. split; [lia|done].
      * by split.
      * done.
      * by rewrite app_nil_r.
      * by rewrite lookup_insert_eq.
      * intros i Hi. by rewrite lookup_insert_ne.
      * by intros r' _.
Qed.

(** The effect of a completed batch, row by row. *)
Record completed (s : Sched) (rows : list ScheduledSequence) (tokens : list Z) (s' : Sched) :
    Prop := {
  cp_settled : settled (set_finished (finished s') s) s';
  cp_pending : pending_requests s' = pending_requests s;
  cp_row : ∀ i row token r, rows !! i = Some row → tokens !! i = Some token →
    active s !! row_request_id row = Some r →
    active s' !! row_request_id row = (outcome r row token).1;
  cp_rest : ∀ id, id ∉ map row_request_id rows →
    active s' !! id = active s !! id ∧ seq_view (kv_cache s') id = seq_view (kv_cache s) id;
  cp_finished : finished s' = finished s ++
    omap (λ e, r ← active s !! row_request_id e.1; (outcome r e.1 e.2).2) (zip rows tokens);
  cp_view : ∀ row, row ∈ rows → lands_at s' row
}.

Lemma completed_nil s : completed s [] [] s.
Proof.
  split; [by split|done|by intros [|i]|done|by rewrite app_nil_r|by intros ? ?%elem_of_nil].
Qed.

Lemma completed_cons s row rows token tokens s1 s' r :
  NoDup (map row_request_id (row :: rows)) → active s !! row_request_id row = Some r →
  settled (set_finished (finished s1) s) s1 → pending_requests s1 = pending_requests s →
  finished s1 = finished s ++ option_list (outcome r row token).2 →
  active s1 !! row_request_id row = (outcome r row token).1 →
  (∀ i, i ≠ row_request_id row → active s1 !! i = active s !! i ∧
                                 seq_view (kv_cache s1) i = seq_view (kv_cache s) i) →
  lands_at s1 row → completed s1 rows tokens s' → completed s (row :: rows) (token :: tokens) s'.
Proof.
  intros Hnd Hr Hse Hpd Hfin Hact Hother Hhead [Hse' Hpd' Hrow Hrest Hfin' Hview].
  simpl in Hnd. apply NoDup_cons in Hnd as [Hni Hnd].
  assert (∀ row', row' ∈ rows → active s1 !! row_request_id row' = active s !! row_request_id row')
    as Hsame by (intros row' Hin; apply Hother; by eapply row_ids_ne).
  split.
  - destruct Hse, Hse'. split; simpl in *; congruence.
  - congruence.
  - intros [|i] row' t r' Hi Ht Hr'; simpl in *; simplify_eq.
    + rewrite (proj1 (Hrest _ Hni)). done.
    + eapply Hrow; [done..|]. rewrite Hsame; [done|]. by eapply list_elem_of_lookup_2.
  - intros i [Hne Hi]%not_elem_of_cons. destruct (Hrest i Hi) as [-> ->]. by apply Hother.
  - rewrite Hfin', Hfin, <- app_assoc. f_equal. simpl. rewrite Hr. simpl.
    assert (omap (λ e, r ← active s1 !! row_request_id e.1; (outcome r e.1 e.2).2) (zip rows tokens) =
            omap (λ e, r ← active s !! row_request_id e.1; (outcome r e.1 e.2).2) (zip rows tokens))
      as ->.
    { apply omap_ext_elem. intros [row' t] Hin%elem_of_zip_l. by rewrite Hsame. }
    by destruct (outcome r row token).2.
  - intros row' [->|Hin]%elem_of_cons; [|by apply Hview]. intros r'.
    destruct (Hrest _ Hni) as [-> ->]. apply Hhead.
Qed.

Lemma complete_rows_wp kind rows tokens s :
  kind ≠ Verify → landed kind rows s → length tokens = length rows →
  wp (mfor (zip rows tokens) complete_row) (post (λ _ s', static_wf s' ∧ resting_all s' ∧
      completed s rows tokens s') (λ _ _, False)) s.
Proof.
  intros Hk. revert tokens s. induction rows as [|row rows IH]; intros tokens s Hland Hlen; simpl.
  { destruct tokens; [|done]. apply wp_ret. split_and!; [by destruct Hland| |apply completed_nil].
    intros id r Hid. apply (ld_rest _ _ _ Hland); [done|]. by intros ?%elem_of_nil. }
  destruct tokens as [|token tokens]; [done|]. simpl in *.
  destruct (ld_row _ _ _ Hland row) as (r & Hr & _); [by left|].
  eapply wp_bind_post; [by eapply complete_row_wp| |done].
  intros [] s1 (Hland1 & Hse & Hpd & Hfin & Hact & Hother & Hhead).
  eapply wp_post_mono; [apply IH; [done|lia]| |done].
  intros [] s' (? & ? & ?). split_and!; try done.
  eapply completed_cons; try done. apply (ld_nodup _ _ _ Hland).
Qed.

(** Publishing does not move any sequence's view. *)
Lemma landed_view kind rows s m :
  landed kind rows s → kv_wf m → config m = config (kv_cache s) →
  (∀ id, seq_view m id = seq_view (kv_cache s) id) → landed kind rows (set_kv_cache m s).
Proof.
  intros [Hst Hnd Hrow Hrest] Hm Hc Hv. split; simpl; [|done|..].
  - apply static_kv; [done..|]. intros id. by rewrite Hv.
  - intros row Hin. rewrite Hv. by apply Hrow.
  - intros id r Hid Hn. rewrite Hv. by apply Hrest.
Qed.

Definition view_only (s s' : Sched) : Prop :=
  cache_only s s' ∧ ∀ id, seq_view (kv_cache s') id = seq_view (kv_cache s) id.

Section Hashed.
Context `{DefaultHasher}.

Lemma register_wp id tokens s (Q : res ContinuousBatchError unit → Sched → Prop) :
  kv_wf (kv_cache s) → is_Some (sequences (kv_cache s) !! id) →
  (∀ m, kv_wf m → config m = config (kv_cache s) → reservations m = reservations (kv_cache s) →
    (∀ i, (λ q, (committed_tokens q, pages q, pending q)) <$> (sequences m !! i) =
          (λ q, (committed_tokens q, pages q, pending q)) <$> (sequences (kv_cache s) !! i)) →
    (∀ i, seq_view m i = seq_view (kv_cache s) i) →
    Q (Ok tt) (set_kv_cache m s)) →
  (∀ p s', benign p → Q (Panic p) s') →
  wp (kv (register_prefix id tokens)) Q s.
Proof.
  intros Hk [q Hq] HOk Hp. apply wp_kv. eapply wp_mono; [by apply register_prefix_wf|].
  intros [[]|e|p] m; simpl; [|intros [_ ?]; congruence|by apply Hp].
  intros (Hm & Hc & Hrs & _ & Hv). apply HOk; try done. intros i. specialize (Hv i).
  unfold seq_view. destruct (sequences m !! i), (sequences (kv_cache s) !! i); simplify_eq/=; congruence.
Qed.

Lemma publish_rows_wp kind rows todo s :
  landed kind rows s → (∀ row, row ∈ todo → row ∈ rows) →
  wp (mfor todo publish_row) (post (λ _ s', landed kind rows s' ∧ view_only s s') (λ _ _, False)) s.
Proof.
  revert s. induction todo as [|row todo IH]; intros s Hland Hin; simpl.
  { apply wp_ret. split; [done|]. split; [apply cache_only_refl|done]. }
  destruct (ld_row _ _ _ Hland row) as (r & Hr & _); [by apply Hin; left|].
  unfold publish_row at 1. wp_step. do 2 wp_step. wp_step. rewrite Hr. simpl. wp_step.
  apply register_wp; [apply (st_kv _ (ld_static _ _ _ Hland))|..].
  - destruct (static_sequence _ _ _ (ld_static _ _ _ Hland) Hr) as [q ->]. by eexists.
  - intros m Hm Hc _ _ Hv. eapply wp_post_mono; [apply IH| |done].
    + by apply landed_view.
    + intros row' Hi. apply Hin. by right.
    + intros [] s' (? & Ho & Hv'). split; [done|]. split; [|by intros id; rewrite Hv', <- Hv].
      eapply cache_only_trans; [by apply cache_only_kv|done].
  - done.
Qed.

(** Committing the rows of the batch in flight. *)
Lemma commit_rows_wp kind id n rows s :
  static_wf s → rows_wf (λ _, InFlight id) kind n rows s →
  wp (kv (commit_append_prefixes (map (λ row, (row_reservation_id row, length (row_token_ids row))) rows)))
    (post (λ _ s', cache_only s s' ∧ landed kind rows s' ∧
       ∀ i, i ∉ map row_request_id rows → seq_view (kv_cache s') i = seq_view (kv_cache s) i)
     (λ _ _, False)) s.
Proof.
  intros Hst [Hnd Hw Hb Hrow Hrest]. pose proof (st_kv _ Hst) as Hk. apply wp_kv.
  eapply wp_mono; [by apply commit_append_prefixes_wf|]. intros [ps|e|p] m; simpl; [| |done].
  2:{ intros [_ Hno]. apply Hno. split.
      - rewrite <- list_fmap_compose. simpl. eapply (rows_reservations_nodup (kv_cache s)); [|done].
        intros; by apply Hrow.
      - intros x (row & -> & Hin)%list_elem_of_fmap. simpl.
        destruct (Hrow row Hin) as [(rs & q & Hrs & _ & _ & Hlen & _) (r & _ & _ & [Hne _])].
        split; [destruct (row_token_ids row); [done|simpl; lia]|]. by exists rs. }
  intros (Hm & _ & _ & Hall).
  assert (∀ row, row ∈ rows → row_reserved (kv_cache s) row) as Hres by (intros; by apply Hrow).
  destruct (closes_all_view _ _ rows (λ row, length (row_token_ids row)) ps Hk Hres Hnd Hall)
    as [Hin Hout].
  pose proof (closes_all_frame _ _ _ _ Hall) as (Hc & _).
  split; [by apply cache_only_kv|]. split; [|done]. split; simpl; [|done|..].
  - apply static_kv; [done..|]. intros i.
    destruct (decide (i ∈ map row_request_id rows)) as [Hi|Hi]; [|by rewrite Hout].
    apply list_elem_of_fmap in Hi as (row & -> & Hi). rewrite Hin by done.
    rewrite (row_reserved_view _ _ Hk (Hres _ Hi)). split; by eexists.
  - intros row Hi. destruct (Hrow row Hi) as [Hr (r & Hact & _ & Hfit)]. exists r.
    pose proof (row_reserved_context _ _ Hr) as Hctx. split_and!; try done.
    by rewrite Hin, Hctx.
  - intros i r Hi Hn. rewrite Hout by done. by apply Hrest.
Qed.

Lemma completed_from s s0 rows tokens s' :
  active s0 = active s → finished s0 = finished s → settled (set_in_flight None s) s0 →
  pending_requests s0 = pending_requests s →
  (∀ i, i ∉ map row_request_id rows → seq_view (kv_cache s0) i = seq_view (kv_cache s) i) →
  completed s0 rows tokens s' → completed (set_in_flight None s) rows tokens s'.
Proof.
  intros Ha Hf Hse Hp Hv [Hse' Hpd Hrow Hrest Hfin Hview]. split; simpl.
  - destruct Hse, Hse'. split; simpl in *; congruence.
  - congruence.
  - intros. rewrite <- Ha in *. by eapply Hrow.
  - intros i Hi. destruct (Hrest i Hi) as [-> ->]. rewrite Ha. split; [done|]. by apply Hv.
  - by rewrite Hfin, Ha, Hf.
  - done.
Qed.

Lemma ownership_ok s id rows :
  (∀ row, row ∈ rows → ∃ r, active s !! row_request_id row = Some r ∧ rq_phase r = InFlight id) →
  ownership_error s id rows = None.
Proof.
  induction rows as [|row rows IH]; intros Hown; [done|]. simpl.
  destruct (Hown row) as (r & -> & Hph); [by left|]. rewrite decide_False by (by intros ?).
  apply IH. intros row' Hin. apply Hown. by right.
Qed.

(** The tokens a caller may hand over for the batch in flight. *)
Definition acceptable (s : Sched) (id : N) (tokens : list Z) : Prop :=
  ∃ b, in_flight s = Some b ∧ batch_id b = id ∧ length tokens = length (batch_sequences b) ∧
    ∀ row token, (row, token) ∈ zip (batch_sequences b) tokens → samples_token s row = true →
      (0 ≤ token)%Z.

Lemma complete_batch_wp id tokens s : sched_wf s →
  (∀ b, in_flight s = Some b → batch_kind b ≠ Verify) →
  wp (complete_batch id tokens) (post (λ _ s', sched_wf s' ∧ ∃ b, in_flight s = Some b ∧
      acceptable s id tokens ∧
      completed (set_in_flight None s) (batch_sequences b) tokens s')
    (λ _ s', s' = s ∧ ¬ acceptable s id tokens)) s.
Proof.
  intros Hwf Hkind. unfold complete_batch. wp_step. apply take_batch_wp.
  { intros e Hno. split; [done|]. intros (b & Hb & Hid & _). by apply (Hno b). }
  intros b Hb Hid.
  specialize (Hkind b Hb). destruct Hwf as [Hst Hfl]. rewrite Hb in Hfl. destruct Hfl as (Hrows & _ & _).
  set (s1 := set_in_flight None s). set (rows := batch_sequences b) in *.
  pose proof (set_in_flight_back s _ Hb) as Hback. fold s1 in Hback.
  do 2 wp_step. case_decide as Hlen.
  { apply put_back_wp. split; [done|]. intros (b' & Hb' & _ & ? & _). by simplify_eq. }
  destruct (existsb _ _) eqn:Eneg.
  { apply put_back_wp. split; [done|]. intros (b' & Hb' & _ & _ & Hpos). simplify_eq.
    apply existsb_exists in Eneg as ([row token] & Hin%list_elem_of_In & Hneg). simpl in Hneg.
    apply andb_true_iff in Hneg as [Hs Hlt%bool_decide_eq_true].
    specialize (Hpos row token Hin Hs). lia. }
  rewrite ownership_ok.
  2:{ intros row Hin. destruct (rs_row _ _ _ _ _ Hrows row Hin) as [_ (r & Hr & Hph & _)].
      exists r. by rewrite Hph, Hid. }
  assert (length tokens = length rows) as Hlen' by lia. clear Hlen.
  wp_step. wp_step. eapply wp_mono.
  { apply (commit_rows_wp (batch_kind b) (batch_id b) (next_n b) rows s1); [by apply static_flight|].
    destruct Hrows. by split. }
  intros [ps|e|p] s2; simpl; [|done..].
  intros (Hc2 & Hland & Hout).
  eapply wp_bind_post; [by eapply publish_rows_wp| |done]. intros [] s3 (Hland3 & Hc3 & Hv3).
  eapply wp_post_mono; [by eapply complete_rows_wp| |done].
  intros [] s4 (Hst4 & Hrest4 & Hcp).
  assert (cache_only s1 s3) as Hc13 by (by eapply cache_only_trans).
  assert (in_flight s4 = None) as Hf4.
  { destruct (cp_settled _ _ _ _ Hcp). rewrite (proj1 Hc13) in *. done. }
  split; [by apply resting_sched|]. exists b. split; [done|]. split.
  { exists b. split_and!; try done. intros row token Hin Hs.
    destruct (decide (0 ≤ token)%Z) as [|Hlt]; [done|]. exfalso. apply not_true_iff_false in Eneg.
    apply Eneg, existsb_exists. exists (row, token). split; [by apply list_elem_of_In|]. simpl.
    apply andb_true_iff. split; [done|]. apply bool_decide_eq_true. lia. }
  eapply (completed_from s s3); [by rewrite (proj1 Hc13)..| |by rewrite (proj1 Hc13)| |done].
  - by apply cache_only_frame, frame_settled in Hc13.
  - intros i Hi. rewrite Hv3. by apply Hout.
Qed.

(** ** [complete_batch] on any batch in flight

    It does not look at the kind of the batch, so it may be given a verification batch.
    Its requests are then out of step with what is committed of them, but nothing else
    is lost: the pages, the requests and the queue are as they should be. *)
Record afloat (rows : list ScheduledSequence) (s : Sched) : Prop := {
  af_static : static_wf s;
  af_nodup : NoDup (map row_request_id rows);
  af_row : ∀ row, row ∈ rows → is_Some (active s !! row_request_id row) ∧
    seq_view (kv_cache s) (row_request_id row) = Some (row_context_length row, None)
}.

Lemma landed_afloat kind rows s : landed kind rows s → afloat rows s.
Proof.
  intros [Hst Hnd Hrow _]. split; [done..|]. intros row Hin.
  destruct (Hrow row Hin) as (r & Hr & _ & _ & Hv). split; [by exists r|done].
Qed.

(** The first row's request has been dealt with. *)
Lemma afloat_next row rows s act m :
  afloat (row :: rows) s → static_wf (set_kv_cache m (set_active act s)) →
  (∀ i, i ≠ row_request_id row → act !! i = active s !! i ∧ seq_view m i = seq_view (kv_cache s) i) →
  afloat rows (set_kv_cache m (set_active act s)).
Proof.
  intros [_ Hnd Hrow] Hst Hother. simpl in Hnd. apply NoDup_cons in Hnd as [Hni Hnd]. split; [done..|].
  intros row' Hin. simpl. pose proof (row_ids_ne _ _ Hni row' Hin) as Hne.
  destruct (Hother _ Hne) as [-> ->]. apply Hrow. by right.
Qed.

Lemma afloat_put row rows s r r' : afloat (row :: rows) s → active s !! row_request_id row = Some r →
  request_wf (config (kv_cache s)) r' →
  afloat rows (set_active (<[row_request_id row := r']> (active s)) s).
Proof.
  intros Ha Hr Hwf.
  assert (set_active (<[row_request_id row := r']> (active s)) s =
    set_kv_cache (kv_cache s) (set_active (<[row_request_id row := r']> (active s)) s)) as Heq by (by destruct s).
  rewrite Heq. eapply afloat_next; [done| |].
  - rewrite <- Heq. eapply static_put; [apply (af_static _ _ Ha)|done|done].
  - intros i Hi. by rewrite lookup_insert_ne.
Qed.

Lemma complete_row_any_wp row rows token s : afloat (row :: rows) s →
  wp (complete_row (row, token)) (post (λ _ s', afloat rows s') (λ _ _, False)) s.
Proof.
  intros Ha. pose proof Ha as [Hst _ Hrow]. destruct (Hrow row) as [[r Hr] Hv]; [by left|].
  pose proof (proj1 (st_request _ Hst _ _ Hr)) as Hrw.
  unfold complete_row. do 2 wp_step. simpl. wp_step. rewrite Hr. simpl. wp_step. case_decide.
  { unfold put_active. wp_step. by eapply afloat_put, request_wf_phase. }
  wp_step. unfold put_active at 1. wp_step. simpl. set (s1 := set_active _ s).
  destruct (bool_decide _ || _) eqn:Edone.
  - eapply wp_mono; [apply (finish_request_wp (row_request_id row) (append_tokens [token] r)
      (row_context_length row) _ s1); [by apply (st_kv _ Hst)|apply lookup_insert_eq|done]|].
    intros [[]|e|p] s'; simpl; [|done..]. intros (m & Hm & Hc & Hrs & Hs & ->). rewrite delete_insert_eq.
    assert (afloat rows (set_kv_cache m (set_active (delete (row_request_id row) (active s)) s))) as [[] ? ?]
      by (eapply afloat_next; [done|by apply static_remove|]; intros i Hi; rewrite lookup_delete_ne by done;
          split; [done|]; unfold seq_view; by rewrite Hs, lookup_delete_ne).
    split; [by split|done..].
  - unfold put_active. wp_step. simpl. rewrite insert_insert_eq. refine (afloat_put row rows s r _ Ha Hr _).
    apply request_wf_phase, append_wf; [done|]. apply orb_false_iff in Edone as [_ Ed].
    apply bool_decide_eq_false in Ed. simpl in Ed. lia.
Qed.

Lemma complete_rows_any_wp rows tokens s : afloat rows s → length tokens = length rows →
  wp (mfor (zip rows tokens) complete_row) (post (λ _ s', static_wf s') (λ _ _, False)) s.
Proof.
  revert tokens s. induction rows as [|row rows IH]; intros [|token tokens] s Ha Hlen; try done; simpl.
  { apply wp_ret. apply Ha. }
  eapply wp_bind_post; [by apply complete_row_any_wp| |done]. intros [] s1 Ha1. apply IH; [done|simpl in *; lia].
Qed.

Lemma complete_batch_any_wp id tokens s : sched_wf s →
  wp (complete_batch id tokens) (post (λ _ s', static_wf s') (λ _ s', s' = s)) s.
Proof.
  intros [Hst Hfl]. unfold complete_batch. wp_step. apply take_batch_wp; [done|]. intros b Hb Hid.
  rewrite Hb in Hfl. destruct Hfl as (Hrows & _ & _).
  pose proof (set_in_flight_back s _ Hb) as Hback.
  do 2 wp_step. case_decide as Hlen; [by apply put_back_wp|].
  destruct (existsb _ _); [by apply put_back_wp|].
  destruct (ownership_error _ _ _); [by apply put_back_wp|].
  wp_step. wp_step. eapply wp_mono.
  { apply (commit_rows_wp (batch_kind b) (batch_id b) (next_n b) (batch_sequences b) (set_in_flight None s));
      [by apply static_flight|]. destruct Hrows. by split. }
  intros [ps|e|p] s2; simpl; [|done..]. intros (_ & Hland & _).
  eapply wp_bind_post; [by eapply publish_rows_wp| |done]. intros [] s3 (Hland3 & _).
  eapply wp_post_mono; [eapply complete_rows_any_wp; [by eapply landed_afloat|lia]|done|done].
Qed.
End Hashed.
End Ops.
