(* ===== verification/ContinuousBatchVerify.v ===== *)
(** * Speculative verification

    [accept_draft] and [complete_verify_batch] of src/src/continuous_batch.rs:
    how many drafted tokens a row keeps, and that completing a verification
    batch keeps the scheduler's invariant. *)
From S2P Require Import Prelude PagedKv PagedKvPool PagedKvInv PagedKvOps PagedKvPrefix.
From S2P Require Import PagedKvSpec ContinuousBatch ContinuousBatchInv ContinuousBatchSchedule.
From S2P Require Import ContinuousBatchLoop ContinuousBatchOps.
Open Scope nat_scope.
Open Scope m_scope.

(** The accepted tokens are a non-empty prefix of the predictions.  Every one
    but the last was drafted and is not an EOS token, and the prefix ends
    because the request may take no more, at an EOS token, at the end of the
    row, or where the draft and the prediction part. *)
Lemma accept_draft_spec width remaining eos row preds pos produced :
  length row = width → pos + length preds = width → length produced = pos → pos < remaining →
  preds ≠ [] →
  ∃ k, accept_draft width remaining eos row preds pos produced = Ok (produced ++ take k preds) ∧
    0 < k ≤ length preds ∧ pos + k ≤ remaining ∧
    (∀ j p, S j < k → preds !! j = Some p → p ∉ eos ∧ row !! (pos + j + 1) = Some p) ∧
    (∀ p, preds !! (k - 1) = Some p →
       pos + k = remaining ∨ p ∈ eos ∨ pos + k = width ∨ row !! (pos + k) ≠ Some p).
Proof.
  intros Hrow. revert pos produced. induction preds as [|p preds IH]; intros pos produced Hw Hp Hrem Hne;
    [done|]. simpl in *. rewrite length_app. simpl.
  assert (∀ k, k ≤ 0 → ∀ j q, S j < S k → (p :: preds) !! j = Some q →
    q ∉ eos ∧ row !! (pos + j + 1) = Some q) as Hnone by (intros; lia).
  case_decide as Hstop; [|case_decide as Hend].
  - exists 1. simpl. split_and!; [done|lia|lia|lia|apply (Hnone 0); lia|].
    intros q [= ->]. destruct Hstop; [left; lia|by right; left].
  - exists 1. simpl. split_and!; [done|lia|lia|lia|apply (Hnone 0); lia|].
    intros q [= ->]. right. right. left. lia.
  - assert (length produced + 1 ≠ remaining ∧ p ∉ eos) as [Hr He] by tauto.
    destruct (lookup_lt_is_Some_2 row (pos + 1)) as [d Hd]; [lia|]. rewrite Hd.
    case_decide as Hdp.
    { exists 1. simpl. split_and!; [done|lia|lia|lia|apply (Hnone 0); lia|].
      intros q [= <-]. right. right. right. rewrite Hd. congruence. }
    assert (d = p) as -> by (destruct (decide (d = p)); [done|by destruct Hdp]).
    destruct (IH (pos + 1) (produced ++ [p])) as (k & -> & Hk & Hkr & Hacc & Hlast).
    + lia.
    + rewrite length_app. simpl. lia.
    + lia.
    + destruct preds; [simpl in *; lia|done].
    + exists (S k). simpl. rewrite <- app_assoc. split_and!; [done|lia|lia|lia|..].
      * intros [|j] q Hj Hq; simpl in Hq.
        -- injection Hq as <-. split; [done|]. by rewrite Nat.add_0_r.
        -- destruct (Hacc j q) as [? Hrowj]; [lia|done|]. split; [done|]. rewrite <- Hrowj. f_equal. lia.
      * intros q Hq. destruct k as [|k]; [lia|]. simpl in Hq. specialize (Hlast q).
        replace (S k - 1) with k in Hlast by lia.
        replace (pos + S (S k)) with (pos + 1 + S k) by lia. by apply Hlast.
Qed.

Section Verify.
Context {TokenSampler : Type}.
Notation Request := (@ActiveRequest TokenSampler).
Notation Sched := (@ContinuousBatchScheduler TokenSampler).
Implicit Types s : Sched.
Implicit Types r : Request.
Context `{DefaultHasher}.

Lemma row_reserved_frame m m' row :
  config m' = config m →
  reservations m' !! row_reservation_id row = reservations m !! row_reservation_id row →
  pages <$> sequences m' !! row_request_id row = pages <$> sequences m !! row_request_id row →
  row_reserved m row → row_reserved m' row.
Proof.
  intros Hc Hr Hp (rs & q & Hrs & Hid & Hst & Hlen & Hctx & Hq & Hpre & Hbt).
  rewrite Hq in Hp. destruct (sequences m' !! row_request_id row) as [q'|] eqn:Eq; [|done].
  simpl in Hp. injection Hp as Hp. exists rs, q'. rewrite Hr, Hc, Hp. by split_and!.
Qed.

(** What else a batch completion keeps for the rows still to come. *)
Lemma rows_wf_tail id n row rows s s' :
  rows_wf (λ _, InFlight id) Verify n (row :: rows) s →
  batch_config s' = batch_config s → config (kv_cache s') = config (kv_cache s) →
  (∀ i, i ≠ row_request_id row → active s' !! i = active s !! i ∧
     (λ q, (committed_tokens q, pages q, pending q)) <$> (sequences (kv_cache s') !! i) =
     (λ q, (committed_tokens q, pages q, pending q)) <$> (sequences (kv_cache s) !! i)) →
  (∀ row', row' ∈ rows → reservations (kv_cache s') !! row_reservation_id row' =
                          reservations (kv_cache s) !! row_reservation_id row') →
  (∀ r, active s' !! row_request_id row = Some r →
     resting (seq_view (kv_cache s') (row_request_id row)) r) →
  rows_wf (λ _, InFlight id) Verify n rows s'.
Proof.
  intros [Hnd Hw Hb Hrow Hrest] Hbc Hc Hother Hres Hid.
  simpl in Hnd. apply NoDup_cons in Hnd as [Hni Hnd].
  assert (∀ i, i ≠ row_request_id row → seq_view (kv_cache s') i = seq_view (kv_cache s) i) as Hv.
  { intros i Hi. destruct (Hother i Hi) as [_ Hs]. unfold seq_view.
    destruct (sequences (kv_cache s') !! i), (sequences (kv_cache s) !! i); simplify_eq/=; congruence. }
  split; [done|..].
  - intros row' Hin. apply Hw. by right.
  - rewrite Hbc. simpl in Hb. lia.
  - intros row' Hin. pose proof (row_ids_ne _ _ Hni row' Hin) as Hne.
    destruct (Hother _ Hne) as [Ha Hs]. destruct (Hrow row') as [Hr (r & Hr' & ?)]; [by right|].
    split; [|exists r; by rewrite Ha]. eapply (row_reserved_frame (kv_cache s)); [done|by apply Hres| |done].
    destruct (sequences (kv_cache s') !! _), (sequences (kv_cache s) !! _); simplify_eq/=; congruence.
  - intros i r Hi Hn. destruct (decide (i = row_request_id row)) as [->|Hne]; [by apply Hid|].
    rewrite Hv by done. apply Hrest; [|by apply not_elem_of_cons]. by rewrite <- (proj1 (Hother i Hne)).
Qed.

(** The effect of one verified row. *)
Record verified (s : Sched) (row : ScheduledSequence) (tokens : list Z) (s' : Sched) : Prop := {
  vf_settled : settled (set_finished (finished s') s) s';
  vf_pending : pending_requests s' = pending_requests s;
  vf_row : ∀ r, active s !! row_request_id row = Some r →
    active s' !! row_request_id row = (landing r (row_request_id row) tokens).1 ∧
    finished s' = finished s ++ option_list (landing r (row_request_id row) tokens).2;
  vf_rest : ∀ i, i ≠ row_request_id row →
    active s' !! i = active s !! i ∧ seq_view (kv_cache s') i = seq_view (kv_cache s) i
}.

(** The tokens the row of request [r] produces from its predictions. *)
Definition produces (width : nat) (r : Request) (row : ScheduledSequence) (preds tokens : list Z) :
    Prop :=
  accept_draft width (max_new_tokens (rq_generation r) - length (rq_generated_token_ids r))
    (rq_eos r) (row_token_ids row) preds 0 [] = Ok tokens.

Lemma produces_facts c width r row preds tokens :
  request_wf c r → length (row_token_ids row) = width → length preds = width → 0 < width →
  produces width r row preds tokens →
  0 < length tokens ≤ width ∧
  length (rq_generated_token_ids r ++ tokens) ≤ max_new_tokens (rq_generation r).
Proof.
  intros Hr Hrow Hp Hw Hacc. pose proof (rw_generated _ _ Hr).
  destruct (accept_draft_spec width
    (max_new_tokens (rq_generation r) - length (rq_generated_token_ids r)) (rq_eos r)
    (row_token_ids row) preds 0 []) as (k & Heq & Hk & Hkr & _); [done|done|done|lia| |].
  { destruct preds; [simpl in *; lia|done]. }
  unfold produces in Hacc. rewrite Heq in Hacc. injection Hacc as <-. simpl.
  rewrite length_app, length_take. lia.
Qed.

(** Committing the accepted prefix of the first row. *)
Lemma commit_partial_wp id n row rows k s (Q : res ContinuousBatchError nat → Sched → Prop) :
  static_wf s → rows_wf (λ _, InFlight id) Verify n (row :: rows) s → 0 < k ≤ n →
  (∀ x m, kv_wf m → config m = config (kv_cache s) →
     seq_view m (row_request_id row) = Some (row_start_position row + k, None) →
     (∀ i, i ≠ row_request_id row → sequences m !! i = sequences (kv_cache s) !! i) →
     (∀ row', row' ∈ rows → reservations m !! row_reservation_id row' =
                             reservations (kv_cache s) !! row_reservation_id row') →
     Q (Ok x) (set_kv_cache m s)) →
  (∀ p s', benign p → Q (Panic p) s') →
  wp (kv (commit_append_partial (row_reservation_id row) k)) Q s.
Proof.
  intros Hst [Hnd Hw Hb Hrow Hrest] Hk HOk Hp. pose proof (st_kv _ Hst) as Hkv. apply wp_kv.
  assert (∀ row', row' ∈ row :: rows → row_reserved (kv_cache s) row') as Hres
    by (intros; by apply Hrow).
  pose proof (rows_reservations_nodup _ _ Hres Hnd) as Hndr. simpl in Hndr.
  apply NoDup_cons in Hndr as [Hnir _].
  assert (row ∈ row :: rows) as Hin by by left.
  destruct (Hres row Hin) as (rs & q & Hrs & Hid & Hst' & Hlen & _).
  rewrite (Hw row Hin) in Hlen.
  eapply wp_mono; [by apply commit_append_partial_wf|]. intros [x|e|p] m; simpl; [| |by apply Hp].
  - intros (Hm & _ & [Hc _ _ _ (rs' & q' & Hrs' & Hq' & -> & _ & Hdel & Hs)]). simplify_eq.
    rewrite Hid in Hs. apply HOk; try done.
    + unfold seq_view. rewrite Hs, lookup_insert_eq. simpl. by rewrite Hst'.
    + intros i Hi. by rewrite Hs, lookup_insert_ne.
    + intros row' Hin'. rewrite Hdel, lookup_delete_ne; [done|]. intros Heq. apply Hnir.
      rewrite Heq. by apply list_elem_of_fmap_2.
  - intros [_ Hno]. destruct Hno. exists rs. split; [done|lia].
Qed.

(** The end of a row: from [sb], where everything but the request's own entry
    is in place. *)
Lemma conclude_wp row r tokens k sb :
  static_wf sb → active sb !! row_request_id row = Some r → tokens ≠ [] →
  seq_view (kv_cache sb) (row_request_id row) = Some (k, None) →
  S k = length (rq_history r ++ tokens) →
  let id := row_request_id row in
  let r' := append_tokens tokens r in
  let final := default 0%Z (last tokens) in
  let eos := bool_decide (final ∈ rq_eos r') in
  wp (if eos || bool_decide (max_new_tokens (rq_generation r') ≤ length (rq_generated_token_ids r'))
      then finish_request id eos else put_active id (set_phase (AwaitingDecode final) r'))
    (post (λ _ s', static_wf s' ∧ verified sb row tokens s' ∧
        reservations (kv_cache s') = reservations (kv_cache sb) ∧
        (∀ i, i ≠ id → sequences (kv_cache s') !! i = sequences (kv_cache sb) !! i) ∧
        ∀ r0, active s' !! id = Some r0 → resting (seq_view (kv_cache s') id) r0) (λ _ _, False))
    (set_active (<[id := r']> (active sb)) sb).
Proof.
  intros Hst Hr Hne Hv Hk id r' final eos. pose proof (proj1 (st_request _ Hst _ _ Hr)) as Hrw.
  assert (landing r id tokens = if eos || bool_decide (max_new_tokens (rq_generation r) ≤
      length (rq_generated_token_ids r ++ tokens))
    then (None, Some (mk_finished id (rq_prompt_token_ids r) (rq_generated_token_ids r ++ tokens) eos))
    else (Some (set_phase (AwaitingDecode final) r'), None)) as Hland
    by (unfold landing, eos, r'; simpl; by rewrite (rw_eos _ _ Hrw)).
  change (rq_generation r') with (rq_generation r).
  change (rq_generated_token_ids r') with (rq_generated_token_ids r ++ tokens) in *.
  destruct (eos || _) eqn:Edone.
  - eapply wp_mono.
    { apply (finish_request_wp id r' k eos (set_active (<[id := r']> (active sb)) sb));
        [by apply (st_kv _ Hst)|apply lookup_insert_eq|done]. }
    intros [[]|e|p] s'; simpl; [|done..]. intros (m & Hm & Hc & Hrs & Hs & ->). simpl.
    rewrite delete_insert_eq. split_and!; simpl.
    + pose proof (static_remove sb id m Hst Hm Hc Hs) as []. by split.
    + split; simpl; [by split|done|..].
      * intros r0 Hr0. simplify_eq. fold id. rewrite Hland. simpl. by rewrite lookup_delete_eq.
      * intros i Hi. rewrite lookup_delete_ne by done. split; [done|].
        unfold seq_view. by rewrite Hs, lookup_delete_ne.
    + done.
    + intros i Hi. by rewrite Hs, lookup_delete_ne.
    + intros r0. by rewrite lookup_delete_eq.
  - apply orb_false_iff in Edone as [_ Ed]. apply bool_decide_eq_false in Ed.
    unfold put_active. wp_step. simpl. rewrite insert_insert_eq. split_and!; simpl.
    + refine (static_put sb id r _ Hst Hr _). apply request_wf_phase, append_wf; [done|lia].
    + split; simpl; [by split|done|..].
      * intros r0 Hr0. simplify_eq. fold id. rewrite Hland. simpl.
        by rewrite lookup_insert_eq, app_nil_r.
      * intros i Hi. by rewrite lookup_insert_ne.
    + done.
    + done.
    + intros r0. rewrite lookup_insert_eq. intros [= <-]. unfold resting. simpl. exists k.
      split_and!; [done|done|]. rewrite last_app. unfold final.
      destruct (last tokens) eqn:El; [done|]. by apply last_None in El.
Qed.

Lemma verify_row_wp id n i row rows argmax preds s :
  static_wf s → rows_wf (λ _, InFlight id) Verify n (row :: rows) s → 0 < n →
  slice (i * n) ((i + 1) * n) argmax = Some preds → length preds = n →
  wp (verify_row n argmax (i, row)) (post (λ out s', static_wf s' ∧
      rows_wf (λ _, InFlight id) Verify n rows s' ∧ ∃ r tokens,
      active s !! row_request_id row = Some r ∧ produces n r row preds tokens ∧
      out = (row_request_id row, tokens) ∧ verified s row tokens s') (λ _ _, False)) s.
Proof.
  intros Hst Hrows Hn Hsl Hpl. unfold verify_row. wp_step. cbn [fst snd]. rewrite Hsl. simpl. wp_step.
  do 2 wp_step. destruct (rs_row _ _ _ _ _ Hrows row) as [Hrsv (r & Hr & Hph & Hfit)]; [by left|].
  wp_step. rewrite Hr. simpl. wp_step.
  pose proof (proj1 (st_request _ Hst _ _ Hr)) as Hrw. pose proof (rw_generated _ _ Hrw) as Hgen.
  wp_step. unfold usize_sub at 1. rewrite decide_True by lia. simpl. wp_step.
  assert (length (row_token_ids row) = n) as Hlen by (apply (rs_width _ _ _ _ _ Hrows); by left).
  destruct (accept_draft_spec n
    (max_new_tokens (rq_generation r) - length (rq_generated_token_ids r)) (rq_eos r)
    (row_token_ids row) preds 0 []) as (k & Hacc & _); [done|done|done|lia| |].
  { destruct preds; [simpl in *; lia|done]. }
  simpl in Hacc. set (tokens := take k preds) in *.
  destruct (produces_facts _ _ _ _ _ _ Hrw Hlen Hpl Hn Hacc) as [Hk Hmax].
  wp_step. apply wp_lift. rewrite Hacc.
  wp_step. destruct (usize_sub n 1); simpl; [|by apply wp_panic]. wp_step.
  wp_step. destruct (checked_add _ (drafted_tokens s) _) as [drafted|]; simpl; [|by apply wp_panic].
  wp_step. do 2 wp_step. wp_step. destruct (usize_sub (length tokens) 1); simpl; [|by apply wp_panic].
  wp_step. wp_step. destruct (checked_add _ (accepted_draft_tokens s) _) as [accepted|]; simpl;
    [|by apply wp_panic].
  wp_step. do 2 wp_step.
  set (s0 := set_accepted_draft_tokens accepted (set_drafted_tokens drafted s)).
  assert (static_wf s0) as Hst0 by (destruct Hst; by split).
  assert (rows_wf (λ _, InFlight id) Verify n (row :: rows) s0) as Hrows0 by (destruct Hrows; by split).
  wp_step. eapply commit_partial_wp; [done|done|done| |by intros].
  intros x m1 Hm1 Hc1 Hv1 Hs1 Hrs1. do 2 wp_step. wp_step. simpl. rewrite Hr. simpl. wp_step.
  unfold put_active at 1. do 2 wp_step. wp_step.
  destruct (last tokens) as [final|] eqn:El.
  2:{ apply last_None in El. rewrite El in Hk. simpl in Hk. lia. }
  simpl. wp_step. wp_step. apply register_wp; [done| | |by intros].
  { simpl. unfold seq_view in Hv1. destruct (sequences m1 !! row_request_id row); [by eexists|done]. }
  simpl. intros m2 Hm2 Hc2 Hrs2 Hq2 Hv2.
  set (sb := set_kv_cache m2 s0).
  assert (∀ i, is_Some (seq_view m2 i) ↔ is_Some (seq_view (kv_cache s) i)) as Hdom.
  { intros j. rewrite Hv2. destruct (decide (j = row_request_id row)) as [->|Hj].
    - rewrite Hv1, (row_reserved_view _ _ (st_kv _ Hst) Hrsv). split; by eexists.
    - unfold seq_view. by rewrite Hs1. }
  assert (static_wf sb) as Hstb by (apply static_kv; [done|done|by rewrite Hc2|done]).
  pose proof Hfit as [_ [Hstart _]].
  pose proof (conclude_wp row r tokens (row_start_position row + length tokens) sb Hstb Hr) as Hend.
  cbv zeta in Hend. rewrite El in Hend. simpl in Hend.
  wp_step. eapply wp_mono; [apply Hend|].
  - intros Hx. by rewrite Hx in El.
  - by rewrite Hv2.
  - rewrite length_app. lia.
  - intros [[]|e|p] s'; simpl; [|done..]. intros (Hst' & Hvf & Hrs' & Hs' & Hrest').
    apply wp_ret. simpl. split; [done|]. pose proof Hvf as [[] _ _ Hvr]. split.
    + eapply rows_wf_tail; [exact Hrows|done|simpl in *; congruence| | |done].
      * intros j Hj. split; [by apply Hvr|]. rewrite Hs' by done. simpl. rewrite Hq2.
        by rewrite Hs1.
      * intros row' Hin. rewrite Hrs'. simpl. rewrite Hrs2. by apply Hrs1.
    + exists r, tokens. split_and!; try done. destruct Hvf as [_ ? ? _].
      split; [split; simpl in *; congruence|done|done|].
      intros j Hj. destruct (Hvr j Hj) as [-> ->]. split; [done|]. simpl. rewrite Hv2.
      unfold seq_view. by rewrite Hs1.
Qed.

(** The effect of all rows, the first one being row [i0] of the batch. *)
Record verified_all (n : nat) (argmax : list Z) (i0 : nat) (s : Sched)
    (rows : list ScheduledSequence) (outs : list (RequestId * list Z)) (s' : Sched) : Prop := {
  va_settled : settled (set_finished (finished s') s) s';
  va_pending : pending_requests s' = pending_requests s;
  va_length : length outs = length rows;
  va_row : ∀ i row, rows !! i = Some row → ∃ r preds tokens,
    active s !! row_request_id row = Some r ∧
    slice ((i0 + i) * n) ((i0 + i + 1) * n) argmax = Some preds ∧ produces n r row preds tokens ∧
    outs !! i = Some (row_request_id row, tokens) ∧
    active s' !! row_request_id row = (landing r (row_request_id row) tokens).1;
  va_rest : ∀ id, id ∉ map row_request_id rows →
    active s' !! id = active s !! id ∧ seq_view (kv_cache s') id = seq_view (kv_cache s) id;
  va_finished : finished s' = finished s ++
    omap (λ o, r ← active s !! o.1; (landing r o.1 o.2).2) outs
}.

Lemma verified_cons n argmax i0 s row rows tokens outs s1 s' r preds :
  NoDup (map row_request_id (row :: rows)) → active s !! row_request_id row = Some r →
  slice (i0 * n) ((i0 + 1) * n) argmax = Some preds → produces n r row preds tokens →
  verified s row tokens s1 → verified_all n argmax (S i0) s1 rows outs s' →
  verified_all n argmax i0 s (row :: rows) ((row_request_id row, tokens) :: outs) s'.
Proof.
  intros Hnd Hr Hsl Hprod [Hse Hpd Hone Hother] [Hse' Hpd' Hlen Hrow Hrest Hfin'].
  simpl in Hnd. apply NoDup_cons in Hnd as [Hni Hnd]. destruct (Hone r Hr) as [Hact Hfin].
  assert (∀ row', row' ∈ rows → active s1 !! row_request_id row' = active s !! row_request_id row')
    as Hsame by (intros row' Hin; apply Hother; by eapply row_ids_ne).
  split.
  - destruct Hse, Hse'. split; simpl in *; congruence.
  - congruence.
  - simpl. by rewrite Hlen.
  - intros [|i] row' Hi; simpl in Hi.
    + injection Hi as <-. exists r, preds, tokens. rewrite Nat.add_0_r. split_and!; try done.
      by rewrite (proj1 (Hrest _ Hni)).
    + destruct (Hrow i row' Hi) as (r' & preds' & tokens' & Hr' & ? & ? & ? & ?).
      exists r', preds', tokens'. rewrite <- Hsame by (by eapply list_elem_of_lookup_2).
      replace (i0 + S i) with (S i0 + i) by lia. by split_and!.
  - intros i [Hne Hi]%not_elem_of_cons. destruct (Hrest i Hi) as [-> ->]. by apply Hother.
  - rewrite Hfin', Hfin, <- app_assoc. f_equal. simpl. rewrite Hr. simpl.
    assert (∀ o, o ∈ outs → active s1 !! o.1 = active s !! o.1) as Hsame'.
    { intros o [i Hi]%list_elem_of_lookup. destruct (lookup_lt_is_Some_2 rows i) as [row' Hrow'].
      { rewrite <- Hlen. by eapply lookup_lt_Some. }
      destruct (Hrow i row' Hrow') as (? & ? & ? & _ & _ & _ & Ho & _). rewrite Hi in Ho.
      injection Ho as ->. simpl. apply Hsame. by eapply list_elem_of_lookup_2. }
    assert (omap (λ o, r ← active s1 !! o.1; (landing r o.1 o.2).2) outs =
            omap (λ o, r ← active s !! o.1; (landing r o.1 o.2).2) outs) as ->.
    { apply omap_ext_elem. intros o Hin. by rewrite Hsame'. }
    by destruct (landing r (row_request_id row) tokens).2.
Qed.

Lemma verify_loop_wp id n argmax rows i0 s :
  static_wf s → rows_wf (λ _, InFlight id) Verify n rows s → 0 < n →
  (i0 + length rows) * n ≤ length argmax →
  wp (mmap (imap (λ i, pair (i0 + i)) rows) (verify_row n argmax))
    (post (λ outs s', static_wf s' ∧ resting_all s' ∧ verified_all n argmax i0 s rows outs s')
      (λ _ _, False)) s.
Proof.
  revert i0 s. induction rows as [|row rows IH]; intros i0 s Hst Hrows Hn Hlen; simpl.
  { apply wp_ret. split_and!; [done| |].
    - intros i r Hi. apply (rs_rest _ _ _ _ _ Hrows); [done|]. by intros ?%elem_of_nil.
    - split; [by split|done|done|by intros [|i]|done|by rewrite app_nil_r]. }
  simpl in Hlen. rewrite Nat.add_0_r.
  assert (∃ preds, slice (i0 * n) ((i0 + 1) * n) argmax = Some preds ∧ length preds = n)
    as (preds & Hsl & Hpl).
  { unfold slice. rewrite decide_True by nia. eexists. split; [done|].
    rewrite length_take, length_drop. nia. }
  eapply wp_bind_post; [by eapply verify_row_wp| |done].
  intros out s1 (Hst1 & Hrows1 & r & tokens & Hr & Hprod & -> & Hvf).
  rewrite (imap_ext _ (λ i, pair (S i0 + i))) by (intros; simpl; f_equal; lia).
  eapply wp_bind_post; [apply IH; [done|done|done|nia]| |done].
  intros outs s' (? & ? & Hall). apply wp_ret. split_and!; try done.
  eapply verified_cons; try done. apply (rs_nodup _ _ _ _ _ Hrows).
Qed.

Lemma complete_verify_batch_wp id argmax s : sched_wf s →
  wp (complete_verify_batch id argmax) (post (λ outs s', sched_wf s' ∧ ∃ b, in_flight s = Some b ∧
      batch_id b = id ∧ batch_kind b = Verify ∧ length argmax = batch_size b * next_n b ∧
      verified_all (next_n b) argmax 0 (set_in_flight None s) (batch_sequences b) outs s')
    (λ _ s', s' = s ∧ ¬ ∃ b, in_flight s = Some b ∧ batch_id b = id ∧ batch_kind b = Verify ∧
       length argmax = batch_size b * next_n b)) s.
Proof.
  intros [Hst Hfl]. unfold complete_verify_batch. wp_step. apply take_batch_wp.
  { intros e Hno. split; [done|]. intros (b & Hb & Hid & _). by apply (Hno b). }
  intros b Hb Hid. rewrite Hb in Hfl. destruct Hfl as (Hrows & Hne & _).
  case_decide as Hguard.
  { apply put_back_wp. split; [by apply set_in_flight_back|].
    intros (b' & Hb' & _ & Hk & Hl). simplify_eq. by destruct Hguard. }
  apply Decidable.not_or in Hguard as [Hk Hlen].
  assert (batch_kind b = Verify) as Hk' by (destruct (batch_kind b); try done; by destruct Hk).
  assert (length argmax = batch_size b * next_n b) as Hlen' by lia.
  rewrite Hk' in Hrows. set (s1 := set_in_flight None s).
  assert (0 < next_n b) as Hn.
  { unfold next_n. destruct (batch_sequences b) as [|row rows] eqn:Er; [done|].
    destruct (rs_row _ _ _ _ _ Hrows row) as [_ (r & _ & _ & [Ht _])]; [by left|].
    destruct (row_token_ids row); [done|simpl; lia]. }
  eapply wp_post_mono; [apply (verify_loop_wp (batch_id b) (next_n b) argmax (batch_sequences b) 0 s1)| |done].
  - by apply static_flight.
  - destruct Hrows. by split.
  - done.
  - simpl. unfold batch_size in Hlen'. lia.
  - intros outs s' (Hst' & Hrest' & Hall). split.
    + apply resting_sched; [done|done|]. by destruct (va_settled _ _ _ _ _ _ _ Hall).
    + by exists b.
Qed.
End Verify.
