(* ===== verification/ContinuousBatchCalls.v ===== *)
(** * The other public calls of the scheduler, and its reachable states

    Submission, cancellation, limits, lookahead
    (src/src/continuous_batch.rs, src/src/continuous_batch/lifecycle.rs), and
    [sched_reachable]: the states the public calls lead to. *)
From S2P Require Import Prelude PagedKv PagedKvPool PagedKvInv PagedKvOps PagedKvPrefix.
From S2P Require Import PagedKvSpec ContinuousBatch ContinuousBatchInv ContinuousBatchSchedule.
From S2P Require Import ContinuousBatchLoop ContinuousBatchOps ContinuousBatchVerify.
Open Scope nat_scope.
Open Scope m_scope.

Section Calls.
Context {TokenSampler : Type}.
Notation Request := (@ActiveRequest TokenSampler).
Notation Sched := (@ContinuousBatchScheduler TokenSampler).
Implicit Types s : Sched.
Implicit Types r : Request.

(** Fields the invariant of the requests does not read. *)
Lemma sched_wf_fields s s' :
  batch_config s' = batch_config s → kv_cache s' = kv_cache s → active s' = active s →
  in_flight s' = in_flight s → next_batch s' = next_batch s → static_wf s' → sched_wf s → sched_wf s'.
Proof.
  intros Hb Hk Ha Hf Hn Hst' [Hst Hfl]. split; [done|]. rewrite Hf.
  destruct (in_flight s) as [b|].
  - destruct Hfl as ([Hnd Hw Hbd Hrow Hrest] & Hne & Hlt). split; [|by rewrite Hn].
    by split; rewrite ?Hb, ?Hk, ?Ha.
  - intros i r. rewrite Ha, Hk. apply Hfl.
Qed.

(** ** [submit] *)
Lemma submit_wp prompt g sampler s : sched_wf s →
  wp (submit_with_sampler prompt g sampler) (post (λ id s', sched_wf s' ∧ id = next_request s ∧
      in_flight s' = in_flight s ∧ active s' = active s ∧ kv_cache s' = kv_cache s ∧
      next_request s' = (next_request s + 1)%N ∧ batch_config s' = batch_config s ∧ options s' = options s ∧
      if decide (max_new_tokens g = 0)
      then finished s' = finished s ++ [mk_finished id prompt [] false] ∧
           pending_requests s' = pending_requests s
      else finished s' = finished s ∧
           pending_requests s' = pending_requests s ++ [mk_pending id prompt g sampler])
    (λ _ s', s' = s)) s.
Proof.
  intros Hwf. unfold submit_with_sampler. case_decide as Hp; [by apply wp_throw|]. do 2 wp_step.
  case_decide; [by apply wp_throw|]. wp_step. unfold mok_or at 1.
  destruct (usize_add _ _) as [total|] eqn:Et; [|by apply wp_throw].
  apply usize_add_Some in Et as [-> _]. wp_step.
  case_decide as Hcap; [by apply wp_throw|]. destruct (existsb _ _); [by apply wp_throw|].
  cbv zeta. case_decide; [by apply wp_throw|]. destruct (_ && _); [by apply wp_throw|].
  wp_step. unfold mok_or. destruct (checked_add _ _ _) as [next|] eqn:En; [|by apply wp_throw].
  apply checked_add_Some in En as [-> _]. wp_step. do 2 wp_step. wp_step.
  pose proof (sw_static _ Hwf) as [Hk Hd Hr Hpd Hq Hl].
  assert (static_wf (set_next_request (next_request s + 1) s)) as Hst1.
  { split; simpl; try done.
    - intros i r Hi. destruct (Hr i r Hi). split; [done|lia].
    - intros p Hin. destruct (Hpd p Hin) as (? & ? & ?). split_and!; try done. lia. }
  case_decide as Hz; wp_step; apply wp_ret; simpl.
  - split; [|done]. apply (sched_wf_fields s); [done..| |done]. destruct Hst1. by split.
  - split; [|done]. apply (sched_wf_fields s); [done..| |done]. destruct Hst1 as [? ? ? Hpd1 ? ?].
    split; simpl; try done.
    + intros p [Hin| ->%list_elem_of_singleton]%elem_of_app; [by apply Hpd1|]. simpl.
      split_and!; [split; simpl; [done|lia|lia]|lia|].
      apply eq_None_not_Some. intros [r Hi]. destruct (Hr _ _ Hi). lia.
    + rewrite map_app. simpl. apply NoDup_app. split_and!; [done| |by apply NoDup_singleton].
      intros i (p & -> & Hin)%list_elem_of_fmap. destruct (Hpd p Hin) as (_ & Hlt & _).
      rewrite list_elem_of_singleton. lia.
Qed.

(** ** Calls that only set a field *)
Lemma set_speculative_wp c s : sched_wf s →
  wp (set_speculative_decoding c) (post (λ _ s', sched_wf s' ∧ ∃ c', s' = set_speculative_config c' s)
    (λ _ s', s' = s)) s.
Proof.
  intros Hwf. assert (∀ c', sched_wf (set_speculative_config c' s)) as Hset.
  { intros c'. apply (sched_wf_fields s); [done..| |done]. destruct Hwf as [[] _]. by split. }
  unfold set_speculative_decoding. destruct c; [case_decide; [by apply wp_throw|]|]; wp_step;
    (split; [by apply Hset|by eexists]).
Qed.

Lemma pop_finished_wp s : sched_wf s →
  wp pop_finished (post (λ f s', sched_wf s' ∧ finished s = option_list f ++ finished s' ∧
      s' = set_finished (finished s') s) (λ _ _, False)) s.
Proof.
  intros Hwf. unfold pop_finished. do 2 wp_step. destruct (finished s) as [|f rest] eqn:Ef.
  - apply wp_ret. simpl. rewrite Ef. split_and!; [done|done|by destruct s; simpl in *; subst].
  - do 2 wp_step. apply wp_ret. simpl. split_and!; try done.
    apply (sched_wf_fields s); [done..| |done]. destruct Hwf as [[] _]. by split.
Qed.

Lemma set_limit_wp limit s : sched_wf s →
  wp (set_batch_token_limit limit) (post (λ _ s', sched_wf s' ∧ in_flight s = None ∧
      minimum_batch_token_limit s ≤ limit ∧
      s' = set_batch_config (mk_batch_config (max_active_sequences (batch_config s)) limit) s)
    (λ _ s', s' = s)) s.
Proof.
  intros Hwf. unfold set_batch_token_limit. do 2 wp_step. case_decide as Hf; [by apply wp_throw|].
  apply eq_None_not_Some in Hf. case_decide as Hm; [by apply wp_throw|]. wp_step.
  split_and!; [|done|lia|done]. destruct (sched_idle s Hwf Hf) as [[] Hrest].
  apply resting_sched; [|done|done]. split; try done. simpl.
  enough (1 ≤ minimum_batch_token_limit s) by lia. unfold minimum_batch_token_limit.
  destruct (prefill_chunk_tokens s); [done|]. destruct (_ ++ _); lia.
Qed.

(** ** Cache moves that no row notices *)
Lemma rows_wf_kv phase_of kind n rows s m :
  rows_wf phase_of kind n rows s → config m = config (kv_cache s) →
  (∀ row, row ∈ rows → reservations m !! row_reservation_id row =
                        reservations (kv_cache s) !! row_reservation_id row) →
  (∀ i, (λ q, (committed_tokens q, pages q, pending q)) <$> (sequences m !! i) =
        (λ q, (committed_tokens q, pages q, pending q)) <$> (sequences (kv_cache s) !! i)) →
  rows_wf phase_of kind n rows (set_kv_cache m s).
Proof.
  intros [Hnd Hw Hb Hrow Hrest] Hc Hrs Hq. split; simpl; try done.
  - intros row Hin. destruct (Hrow row Hin) as [Hr ?]. split; [|done].
    eapply (row_reserved_frame (kv_cache s)); [done|by apply Hrs| |done].
    specialize (Hq (row_request_id row)).
    destruct (sequences m !! _), (sequences (kv_cache s) !! _); simplify_eq/=; congruence.
  - intros i r Hi Hn. specialize (Hrest i r Hi Hn). unfold seq_view in *. specialize (Hq i).
    destruct (sequences m !! i), (sequences (kv_cache s) !! i); simplify_eq/=; try done.
    by replace (committed_tokens s0, pending s0) with (committed_tokens s1, pending s1) by congruence.
Qed.

Lemma set_caching_wp enabled s : sched_wf s →
  wp (scheduler_set_prefix_caching enabled) (post (λ _ s', sched_wf s' ∧ cache_only s s' ∧
      sequences (kv_cache s') = sequences (kv_cache s) ∧
      reservations (kv_cache s') = reservations (kv_cache s)) (λ _ _, False)) s.
Proof.
  intros Hwf. pose proof (sw_static _ Hwf) as Hst. apply wp_kv.
  eapply wp_mono; [apply set_prefix_caching_wf, (st_kv _ Hst)|].
  intros [[]|e|p] m; simpl; [|done..]. intros (Hm & _ & Hc & Hs & Hrs & _).
  split; [|by split_and!; [apply cache_only_kv|..]].
  assert (∀ i, seq_view m i = seq_view (kv_cache s) i) as Hv by (intros i; unfold seq_view; by rewrite Hs).
  split.
  - apply static_kv; [done..|]. intros i. by rewrite Hv.
  - simpl. pose proof (sw_flight _ Hwf) as Hfl. destruct (in_flight s) as [b|].
    + destruct Hfl as (Hrows & ? & ?). split; [|done]. apply rows_wf_kv; [done|done|..].
      * intros. by rewrite Hrs.
      * intros. by rewrite Hs.
    + intros i r. simpl. rewrite Hv. apply Hfl.
Qed.

(** ** [cancel] *)

(** The request at rest leaves; nobody else notices. *)
Lemma sched_wf_remove s id m r d :
  sched_wf s → active s !! id = Some r → (∀ b, rq_phase r ≠ InFlight b) → kv_wf m →
  config m = config (kv_cache s) → reservations m = reservations (kv_cache s) →
  sequences m = delete id (sequences (kv_cache s)) →
  sched_wf (set_deferred_prefill d (set_kv_cache m (set_active (delete id (active s)) s))).
Proof.
  intros [Hst Hfl] Hr Hph Hm Hc Hrs Hs.
  assert (∀ i, i ≠ id → seq_view m i = seq_view (kv_cache s) i) as Hv
    by (intros i Hi; unfold seq_view; by rewrite Hs, lookup_delete_ne).
  split; [pose proof (static_remove s id m Hst Hm Hc Hs) as []; by split|]. simpl.
  destruct (in_flight s) as [b|].
  - destruct Hfl as ([Hnd Hw Hb Hrow Hrest] & Hne & Hlt). split; [|done].
    split; simpl; try done.
    + intros row Hin. destruct (Hrow row Hin) as [Hres (r' & Hr' & Hph' & ?)].
      assert (row_request_id row ≠ id) as Hd.
      { intros Heq. rewrite Heq, Hr in Hr'. injection Hr' as <-. by apply (Hph (batch_id b)). }
      split; [|exists r'; by rewrite lookup_delete_ne].
      eapply (row_reserved_frame (kv_cache s)); [done|by rewrite Hrs| |done].
      by rewrite Hs, lookup_delete_ne.
    + intros i r' [Hi Hr']%lookup_delete_Some Hn. rewrite Hv by done. by apply Hrest.
  - intros i r'. simpl. intros [Hi Hr']%lookup_delete_Some. rewrite Hv by done. by apply Hfl.
Qed.

(** What [cancel] leaves: the request is gone, everything else is as before. *)
Record cancelled (s : Sched) (id : RequestId) (c : option CancelledGeneration) (s' : Sched) : Prop := {
  cn_wf : sched_wf s';
  cn_in_flight : in_flight s' = in_flight s;
  cn_finished : finished s' = finished s;
  cn_next : next_request s' = next_request s;
  cn_limits : batch_config s' = batch_config s ∧ options s' = options s ∧
              config (kv_cache s') = config (kv_cache s);
  cn_gone : active s' !! id = None ∧ sequences (kv_cache s') !! id = None;
  cn_rest : ∀ i, i ≠ id → active s' !! i = active s !! i ∧
                          seq_view (kv_cache s') i = seq_view (kv_cache s) i;
  cn_queue : ∀ p, p ∈ pending_requests s' ↔ p ∈ pending_requests s ∧ pr_id p ≠ id;
  cn_active : ∀ r, active s !! id = Some r →
    c = Some (mk_cancelled id (rq_prompt_token_ids r) (rq_generated_token_ids r));
  cn_queued : ∀ p, p ∈ pending_requests s → pr_id p = id →
    c = Some (mk_cancelled id (pr_prompt_token_ids p) [])
}.

Lemma queue_unique (l : list (@PendingRequest TokenSampler)) i p p' :
  NoDup (map pr_id l) → l !! i = Some p → p' ∈ l → pr_id p' = pr_id p → p' = p.
Proof.
  intros Hnd Hi [j Hj]%list_elem_of_lookup Hp'. assert (j = i) as ->; [|congruence].
  eapply NoDup_lookup; [exact Hnd|..]; rewrite list_lookup_fmap, ?Hi, ?Hj; simpl; by rewrite ?Hp'.
Qed.

(** Cancelling a queued request. *)
Lemma cancel_queued s i p d : sched_wf s → pending_requests s !! i = Some p →
  cancelled s (pr_id p) (Some (mk_cancelled (pr_id p) (pr_prompt_token_ids p) []))
    (set_deferred_prefill d (set_pending_requests (delete i (pending_requests s)) s)).
Proof.
  intros Hwf Hi. pose proof (sw_static _ Hwf) as Hst.
  destruct (delete_pending _ _ _ Hi (st_queue _ Hst)) as (_ & Hin & _).
  destruct (st_pending _ Hst p) as (_ & _ & Hnone); [by eapply list_elem_of_lookup_2|].
  split; simpl; try done.
  - apply (sched_wf_fields s); [done..| |done]. pose proof (static_dequeue s i p Hst Hi) as []. by split.
  - split; [done|]. apply eq_None_not_Some. rewrite <- (st_dom _ Hst), Hnone. by intros [].
  - intros p'. split; [apply Hin|]. intros [Hp' Hne].
    apply delete_Permutation in Hi as Hperm. rewrite Hperm in Hp'.
    by apply elem_of_cons in Hp' as [->|?].
  - intros r Hr. congruence.
  - intros p' Hp' Heq. by rewrite (queue_unique _ i p p' (st_queue _ Hst)).
Qed.

Lemma resting_view v r : resting v r → ∃ k, v = Some (k, None).
Proof. unfold resting. destruct (rq_phase r); [intros (k & ? & _)..|done]; eauto. Qed.

(** A request whose phase is not in flight is at rest. *)
Lemma at_rest s id r : sched_wf s → active s !! id = Some r → (∀ b, rq_phase r ≠ InFlight b) →
  ∃ k, seq_view (kv_cache s) id = Some (k, None).
Proof.
  intros [_ Hfl] Hr Hph. apply (resting_view _ r). destruct (in_flight s) as [b|]; [|by apply Hfl].
  destruct Hfl as ([Hnd Hw Hbd Hrow Hrest] & _). apply Hrest; [done|].
  intros (row & -> & Hin)%list_elem_of_fmap. destruct (Hrow row Hin) as [_ (r' & ? & ? & _)].
  simplify_eq. by apply (Hph (batch_id b)).
Qed.

(** Cancelling an active request that is at rest. *)
Lemma cancel_active_wp s id r : sched_wf s → active s !! id = Some r →
  (∀ b, rq_phase r ≠ InFlight b) → (∀ p, p ∈ pending_requests s → pr_id p ≠ id) →
  wp (kv (remove_sequence id) ;;;
      let! s := mget in
      let! r := mexpect Expect (active s !! id) in
      mmodify (λ s, set_active (delete id (active s)) s) ;;;
      mmodify (λ s, set_deferred_prefill (deferred_prefill s ∖ {[id]}) s) ;;;
      mret (Some (mk_cancelled id (rq_prompt_token_ids r) (rq_generated_token_ids r))))
    (post (cancelled s id) (λ _ _, False)) s.
Proof.
  intros Hwf Hr Hph Hq. pose proof (sw_static _ Hwf) as Hst.
  destruct (at_rest s id r Hwf Hr Hph) as [k Hv].
  wp_step. apply wp_kv. eapply wp_mono; [apply remove_sequence_wf, (st_kv _ Hst)|].
  intros [[]|e|x] m; simpl; [|..|done].
  - intros (Hm & q & _ & _ & Hc & Hs & Hrs & _ & _). do 2 wp_step. simpl. wp_step. rewrite Hr.
    simpl. wp_step. do 2 wp_step. do 2 wp_step. apply wp_ret. split; simpl; try done.
    + exact (sched_wf_remove s id m r (deferred_prefill s ∖ {[id]}) Hwf Hr Hph Hm Hc Hrs Hs).
    + rewrite Hs. by rewrite !lookup_delete_eq.
    + intros i Hi. unfold seq_view. by rewrite Hs, !lookup_delete_ne.
    + intros p. naive_solver.
    + intros r' Hr'. congruence.
    + intros p Hp Hpid. by destruct (Hq p).
  - intros [_ Hn]. unfold seq_view in Hv.
    destruct (sequences (kv_cache s) !! id) as [q|] eqn:Eq; [|done].
    simpl in Hv. destruct (Hn q eq_refl). congruence.
Qed.

Lemma cancel_wp id s : sched_wf s →
  wp (cancel id) (post (cancelled s id)
    (λ _ s', s' = s ∧ ∃ r b, active s !! id = Some r ∧ rq_phase r = InFlight b)) s.
Proof.
  intros Hwf. pose proof (sw_static _ Hwf) as Hst. unfold cancel. do 2 wp_step.
  destruct (find_pending _ _) as [[i p]|] eqn:Ef.
  - apply list_find_Some in Ef as (Hi & <-%bool_decide_eq_true & _).
    do 2 wp_step. do 2 wp_step. apply wp_ret. by apply cancel_queued.
  - assert (∀ p, p ∈ pending_requests s → pr_id p ≠ id) as Hq.
    { intros p Hp Hpid. apply list_find_None in Ef. rewrite Forall_forall in Ef.
      apply (Ef p Hp). by apply bool_decide_eq_true. }
    destruct (active s !! id) as [r|] eqn:Hr.
    2:{ apply wp_ret. split; try done.
        - split; [done|]. apply eq_None_not_Some. rewrite <- (st_dom _ Hst), Hr. by intros [].
        - intros p. naive_solver.
        - intros r. congruence.
        - intros p Hp Hpid. by destruct (Hq p). }
    destruct (rq_phase r) as [| |b] eqn:Eph; [| |apply wp_throw; split; [done|by exists r, b]].
    all: eapply wp_post_mono; [apply (cancel_active_wp s id r); try done; by rewrite Eph|done|done].
Qed.

(** ** [reserve_lookahead] *)

(** Extending the reservation of a row in flight. *)
Lemma extend_row_wf s b row extra a m :
  sched_wf s → in_flight s = Some b → row ∈ batch_sequences b →
  kv_wf m → (∃ rs q, reservations (kv_cache s) !! row_reservation_id row = Some rs ∧
    sequences (kv_cache s) !! request_id rs = Some q ∧
    let count := token_count rs + extra in
    let table := pages q ++ ar_newly_allocated_pages a in
    config m = config (kv_cache s) ∧
    sequences m = <[request_id rs := set_pages table q]> (sequences (kv_cache s)) ∧
    reservations m = <[row_reservation_id row := mk_reservation (request_id rs)
      (previous_page_count rs) (start_position rs) count]> (reservations (kv_cache s))) →
  sched_wf (set_kv_cache m s).
Proof.
  intros [Hst Hfl] Hb Hin Hm (rs & q & Hrs & Hq & Hc & Hs & Hr). rewrite Hb in Hfl.
  destruct Hfl as ([Hnd Hw Hbd Hrow Hrest] & Hne & Hlt).
  assert (∀ i, seq_view m i = seq_view (kv_cache s) i) as Hv.
  { intros i. unfold seq_view. rewrite Hs, lookup_insert. case_decide; [|done]. subst. by rewrite Hq. }
  assert (∀ row', row' ∈ batch_sequences b → row_reserved (kv_cache s) row') as Hres
    by (intros; by apply Hrow).
  pose proof (rows_reservations_nodup _ _ Hres Hnd) as Hndr.
  split; [apply static_kv; [done..|]; intros i; by rewrite Hv|]. simpl. rewrite Hb.
  split; [|done]. split; simpl; try done.
  - intros row' Hin'. split; [|by apply Hrow].
    destruct (Hres row' Hin') as (rs' & q' & Hrs' & Hid & Hst' & Hlen & Hctx & Hq' & Hpre & Hbt).
    destruct (decide (row_reservation_id row' = row_reservation_id row)) as [He|He].
    + rewrite He in Hrs'. simplify_eq. rewrite Hid in *. simplify_eq.
      exists (mk_reservation (row_request_id row') (previous_page_count rs) (start_position rs)
                (token_count rs + extra)), (set_pages (pages q ++ ar_newly_allocated_pages a) q).
      rewrite He, Hr, Hs, Hc, !lookup_insert_eq. simpl.
      split_and!; [done..|lia|done|done|by apply prefix_app_r|done].
    + exists rs', q'. rewrite Hr, Hs, Hc, lookup_insert_ne by done. split_and!; try done.
      rewrite lookup_insert_ne; [done|]. intros Heq. apply He. symmetry.
      eapply (reservation_owner_inj (kv_cache s)); [apply (st_kv _ Hst)|done|done|congruence].
  - intros i r Hi Hn. rewrite Hv. by apply Hrest.
Qed.

Lemma lookahead_rows_wp wanted b rows budget reserved s :
  sched_wf s → in_flight s = Some b → (∀ row, row ∈ rows → row ∈ batch_sequences b) →
  wp (lookahead_rows wanted rows budget reserved)
    (post (λ _ s', sched_wf s' ∧ cache_only s s') (λ _ s', sched_wf s' ∧ cache_only s s')) s.
Proof.
  revert budget reserved s. induction rows as [|row rows IH]; intros budget reserved s Hwf Hb Hin; simpl.
  { apply wp_ret. split; [done|apply cache_only_refl]. }
  assert (∀ budget reserved, wp (lookahead_rows wanted rows budget reserved)
    (post (λ _ s', sched_wf s' ∧ cache_only s s') (λ _ s', sched_wf s' ∧ cache_only s s')) s) as IH'
    by (intros; apply IH; [done..|]; intros; apply Hin; by right).
  pose proof Hwf as [Hst Hfl]. rewrite Hb in Hfl. destruct Hfl as (Hrows & _).
  destruct (rs_row _ _ _ _ _ Hrows row) as [_ (r & Hr & _)]; [apply Hin; by left|].
  do 2 wp_step. wp_step. rewrite Hr. simpl. wp_step. wp_step.
  destruct (usize_sub _ _) as [room|]; simpl; [|by apply wp_panic]. wp_step.
  case_decide; [|by apply IH'].
  wp_step. apply wp_kv. eapply wp_mono; [apply extend_append_wf, (st_kv _ Hst)|].
  intros [a|e|p] m; simpl; [| |done].
  2:{ intros ->. rewrite set_kv_cache_id. split; [done|apply cache_only_refl]. }
  intros (Hm & rs & q & Hrs & Hq & _ & _ & _ & Hc & _ & Hs & Hrr).
  assert (sched_wf (set_kv_cache m s)) as Hwf1.
  { eapply (extend_row_wf s b row _ a); [done|done|apply Hin; by left|done|].
    exists rs, q. split; [exact Hrs|]. split; [exact Hq|]. cbv zeta. by split_and!. }
  eapply wp_post_mono; [apply IH; [done|done|]|..].
  - intros row' Hi. apply Hin. by right.
  - intros x s' [? ?]. split; [done|]. eapply cache_only_trans; [by apply cache_only_kv|done].
  - intros x s' [? ?]. split; [done|]. eapply cache_only_trans; [by apply cache_only_kv|done].
Qed.

Lemma reserve_lookahead_wp b wanted s :
  sched_wf s → in_flight s = Some b →
  wp (reserve_lookahead b wanted)
    (post (λ _ s', sched_wf s' ∧ cache_only s s') (λ _ s', sched_wf s' ∧ cache_only s s')) s.
Proof.
  intros Hwf Hb. unfold reserve_lookahead.
  case_decide; [apply wp_ret; split; [done|apply cache_only_refl]|].
  do 2 wp_step. by eapply lookahead_rows_wp.
Qed.
End Calls.

(** ** Reachable states *)
Section Reachable.
Context {TokenSampler : Type} `{DefaultHasher}.
Notation Sched := (@ContinuousBatchScheduler TokenSampler).
Implicit Types s : Sched.

Inductive sched_op : Type :=
| Submit (prompt : list Z) (g : GreedyGenerationConfig) (sampler : option TokenSampler)
| Schedule
| CompleteBatch (id : N) (tokens : list Z)
| CompleteVerifyBatch (id : N) (argmax : list Z)
| FailBatch (id : N)
| ReserveLookahead (wanted : nat)
| Cancel (id : RequestId)
| PopFinished
| SetSpeculative (c : option SpeculativeConfig)
| SetCaching (enabled : bool)
| SetLimit (limit : nat).

Definition void_s {A} (m : M Sched ContinuousBatchError A) : M Sched ContinuousBatchError unit :=
  let! _ := m in mret tt.

(** [reserve_lookahead] is called with the batch in flight. *)
Definition sched_exec (op : sched_op) : M Sched ContinuousBatchError unit :=
  match op with
  | Submit prompt g sampler => void_s (submit_with_sampler prompt g sampler)
  | Schedule => void_s schedule
  | CompleteBatch id tokens => complete_batch id tokens
  | CompleteVerifyBatch id argmax => void_s (complete_verify_batch id argmax)
  | FailBatch id => fail_batch id
  | ReserveLookahead wanted =>
      let! s := mget in
      match in_flight s with
      | Some b => void_s (reserve_lookahead b wanted)
      | None => mret tt
      end
  | Cancel id => void_s (cancel id)
  | PopFinished => void_s pop_finished
  | SetSpeculative c => set_speculative_decoding c
  | SetCaching enabled => scheduler_set_prefix_caching enabled
  | SetLimit limit => set_batch_token_limit limit
  end.

(** A verification batch is completed by [complete_verify_batch]: the plain
    [complete_batch] does not look at the kind of the batch. *)
Definition proper (s : Sched) (op : sched_op) : Prop :=
  match op with
  | CompleteBatch _ _ => ∀ b, in_flight s = Some b → batch_kind b ≠ Verify
  | _ => True
  end.

Lemma void_s_wp {A} (m : M Sched ContinuousBatchError A) QOk QErr s :
  wp m (post (λ _, QOk) QErr) s → wp (void_s m) (post (λ _, QOk) QErr) s.
Proof. intros Hm. eapply wp_bind_post; [exact Hm| |done]. intros a s' ?. by apply wp_ret. Qed.

Lemma sched_exec_wf op s : sched_wf s → proper s op →
  wp (sched_exec op) (post (λ _ s', sched_wf s') (λ _ s', sched_wf s' ∨ op = Schedule ∧ worn_out s')) s.
Proof.
  intros Hwf Hop. destruct op; simpl; try apply void_s_wp.
  - eapply wp_post_mono; [by apply submit_wp|naive_solver|intros ? ? ->; by left].
  - eapply wp_post_mono; [by apply schedule_wp|naive_solver|naive_solver].
  - eapply wp_post_mono; [by apply complete_batch_wp|naive_solver|intros ? ? [-> _]; by left].
  - eapply wp_post_mono; [by apply complete_verify_batch_wp|naive_solver|intros ? ? [-> _]; by left].
  - eapply wp_post_mono; [by apply fail_batch_wp|naive_solver|intros ? ? [-> _]; by left].
  - do 2 wp_step. destruct (in_flight s) as [b|] eqn:Eb; [|by apply wp_ret]. apply void_s_wp.
    eapply wp_post_mono; [by apply reserve_lookahead_wp|naive_solver|naive_solver].
  - eapply wp_post_mono; [by apply cancel_wp|by intros ? ? []|intros ? ? [-> _]; by left].
  - eapply wp_post_mono; [by apply pop_finished_wp|naive_solver|done].
  - eapply wp_post_mono; [by apply set_speculative_wp|naive_solver|intros ? ? ->; by left].
  - eapply wp_post_mono; [by apply set_caching_wp|naive_solver|done].
  - eapply wp_post_mono; [by apply set_limit_wp|naive_solver|intros ? ? ->; by left].
Qed.

Lemma proper_dec s op : proper s op ∨ ∃ id tokens, op = CompleteBatch id tokens.
Proof. destruct op; simpl; eauto. Qed.

(** Whatever the call. *)
Lemma sched_exec_static op s : sched_wf s →
  wp (sched_exec op) (post (λ _ s', static_wf s') (λ _ s', sched_wf s' ∨ op = Schedule ∧ worn_out s')) s.
Proof.
  intros Hwf. destruct (proper_dec s op) as [Hop|(id & tokens & ->)].
  - eapply wp_post_mono; [by apply sched_exec_wf|by intros _ s' []|done].
  - simpl. eapply wp_post_mono; [by apply complete_batch_any_wp|done|intros ? ? ->; by left].
Qed.

(** A fresh scheduler, plain or paged. *)
Inductive fresh (c : ContinuousBatchConfig) (k : PagedKvCacheConfig) : Sched → Prop :=
| fresh_plain o s : with_options c k o = Ok s → fresh c k s
| fresh_paged s : new_paged c k = Ok s → fresh c k s.

(** States reached by public calls, as long as reservation ids last. *)
Inductive sched_reachable (c : ContinuousBatchConfig) (k : PagedKvCacheConfig) : Sched → Prop :=
| sched_start s : fresh c k s → sched_reachable c k s
| sched_step s op x s' : sched_reachable c k s → proper s op → sched_exec op s = (x, s') →
    (∀ p, x ≠ Panic p) → ¬ exhausted s' → sched_reachable c k s'.

Lemma with_options_wf c k o s : (N.of_nat (max_sequence_length k) ≤ usize_max)%N →
  with_options c k o = Ok s → sched_wf s ∧ in_flight s = None.
Proof.
  intros Hmax. unfold with_options, validate_batch_config, validate_options.
  case_decide as Hc; [done|]. simpl. case_decide; [done|]. simpl.
  destruct (new k) as [m|e|p] eqn:En; [|done..]. simpl. intros [= <-]. split; [|done].
  destruct (new_wf k m Hmax En) as [Hm Hk].
  assert (sequences m = ∅) as Hs.
  { unfold new in En. destruct (validate_config k) as [[]|e|p]; simpl in En; [|done..].
    by injection En as <-. }
  apply resting_sched; [|by intros ? ?|done]. split; simpl; try done.
  - intros id. rewrite Hs, !lookup_empty. split; by intros [].
  - by intros ? ?%elem_of_nil.
  - constructor.
  - lia.
Qed.

Lemma fresh_wf c k s : (N.of_nat (max_sequence_length k) ≤ usize_max)%N →
  fresh c k s → sched_wf s.
Proof.
  intros Hmax [o s0 Hs|s0 Hs]; [by eapply with_options_wf|].
  unfold new_paged, new_scheduler in Hs. destruct (with_options _ _ _) as [s1|e|p] eqn:E; [|done..].
  injection Hs as <-. destruct (with_options_wf _ _ _ _ Hmax E) as [Hwf Hf].
  apply (sched_wf_fields s1); try done. destruct Hwf as [[] _]. by split.
Qed.

(** A fresh scheduler is empty. *)
Lemma fresh_empty c k s : fresh c k s →
  pending_requests s = [] ∧ active s = ∅ ∧ finished s = [] ∧ in_flight s = None ∧ speculative s = None.
Proof.
  intros [o s0 Hs|s0 Hs]; [|unfold new_paged, new_scheduler in Hs;
    destruct (with_options _ _ _) as [s1|e|p] eqn:Hs1; [|done..]; injection Hs as <-; revert Hs1;
    generalize default_options; intros o Hs].
  all: revert Hs; unfold with_options; destruct (validate_batch_config c); simpl; [|done..].
  all: destruct (validate_options o); simpl; [|done..]. all: destruct (new k); simpl; [|done..].
  all: by intros [= <-].
Qed.

Lemma sched_reachable_wf c k s : (N.of_nat (max_sequence_length k) ≤ usize_max)%N →
  sched_reachable c k s → sched_wf s.
Proof.
  intros Hmax. induction 1 as [s Hf|s op x s' _ IH Hop Hex Hnp Hnx]; [by eapply fresh_wf|].
  pose proof (sched_exec_wf op s IH Hop) as Hw. unfold wp in Hw. rewrite Hex in Hw. simpl in Hw.
  destruct x; simpl in Hw; [done| |by destruct (Hnp p)]. by destruct Hw as [?|[_ [_ ?]]].
Qed.
End Reachable.
