(* ===== verification/PagedContents.v ===== *)
(** * What the pages of a paged KV cache hold

    The manager of src/src/paged_kv.rs only does bookkeeping; the keys and values are
    in device memory.  Here a slot of a page is said to hold a token after the tokens
    before it, and [filled] relates the bookkeeping to the memory: every committed
    token of a sequence is in its slot, every published block holds the tokens of its
    key after a prefix whose chain hash is the key's parent.  Every call the scheduler
    makes keeps it, so pages that are shared, evicted and reused never mix prefixes. *)
From S2P Require Import Prelude PagedKv PagedKvPool PagedKvInv PagedKvOps PagedKvPrefix PagedKvUnshared.
Open Scope nat_scope.
Open Scope m_scope.

(** ** Published blocks come from published blocks *)

(** No block is published, and none changes its key. *)
Definition inherits (m m' : PagedKvCacheManager) : Prop :=
  ∀ p b', bl m' p = Some (Some b') → ∃ b, bl m p = Some (Some b) ∧ block_key b = block_key b'.

#[export] Instance inherits_preorder : PreOrder inherits.
Proof.
  split; [by intros m p b Hb; exists b|]. intros m1 m2 m3 H1 H2 p b3 H3.
  destruct (H2 _ _ H3) as (b2 & Hb2 & <-). destruct (H1 _ _ Hb2) as (b1 & Hb1 & <-). by exists b1.
Qed.

Definition any_cache (m : PagedKvCacheManager) : Prop := True.
Notation inheriting := (keeping any_cache inherits).

Lemma inherits_blocks m m' : page_blocks m' = page_blocks m → inherits m m'.
Proof. intros Hb p b. unfold bl. rewrite Hb. by exists b. Qed.

Lemma inheriting_modify f : (∀ m, page_blocks (f m) = page_blocks m) → inheriting (mmodify f : KvM unit).
Proof. intros Hf. apply keeping_modify. intros m _. split; [done|]. by apply inherits_blocks. Qed.

#[local] Hint Extern 0 (keeping any_cache inherits (mmodify _)) => apply inheriting_modify; intros []; reflexivity : keep.

Lemma inherits_write m page b : (b = None ∨ ∃ b0 t, bl m page = Some (Some b0) ∧ b = Some (mk_block (block_key b0) t)) →
  inherits m (set_page_blocks (<[N.to_nat page := b]> (page_blocks m)) m).
Proof.
  intros Hb p b'. unfold bl in *. simpl. destruct (decide (N.to_nat p = N.to_nat page)) as [He|Hne].
  - rewrite He. destruct (decide (N.to_nat page < length (page_blocks m))).
    + rewrite list_lookup_insert_eq by done. destruct Hb as [->|(b0 & t & Hb0 & ->)]; [done|]. intros [= <-]. by exists b0.
    + rewrite lookup_ge_None_2 by (rewrite length_insert; lia). done.
  - rewrite list_lookup_insert_ne by done. by exists b'.
Qed.

Lemma inheriting_read_ref page : inheriting (read_ref page).
Proof. unfold read_ref. keep. Qed.
Lemma inheriting_assert x : inheriting (debug_assert x).
Proof. unfold debug_assert. keep. Qed.
Lemma inheriting_sequence id : inheriting (sequence id).
Proof. unfold sequence. keep. Qed.
Lemma inheriting_put id q : inheriting (put_sequence id q).
Proof. unfold put_sequence. keep. Qed.
#[local] Hint Resolve inheriting_read_ref inheriting_assert inheriting_sequence inheriting_put : keep.
Lemma inheriting_write_ref page n : inheriting (write_ref page n).
Proof. unfold write_ref. keep. Qed.
#[local] Hint Resolve inheriting_write_ref : keep.

(** Reading a block and going on with it. *)
Lemma inheriting_with_block {A} page (k : option CachedBlock → KvM A) :
  (∀ m b, bl m page = Some b → match k b m with (Panic _, _) => True | (_, m') => inherits m m' end) →
  inheriting (let! b := read_block page in k b).
Proof.
  intros Hk m _. unfold read_block, mbind', mget, mexpect. specialize (Hk m). unfold bl in Hk.
  destruct (page_blocks m !! N.to_nat page) as [b|]; simpl; [|done]. specialize (Hk b eq_refl). unfold mret.
  by destruct (k b m) as [[] ?].
Qed.

Lemma inheriting_from {A} (op : KvM A) m : inheriting op → match op m with (Panic _, _) => True | (_, m') => inherits m m' end.
Proof. intros Hop. specialize (Hop m I). destruct (op m) as [[] ?]; tauto. Qed.

Lemma inheriting_write_None page : inheriting (write_block page None).
Proof.
  unfold write_block. apply (inheriting_with_block page (λ _, mmodify (λ m, set_page_blocks (<[N.to_nat page := None]> (page_blocks m)) m))).
  intros m b _. simpl. apply inherits_write. by left.
Qed.
#[local] Hint Resolve inheriting_write_None : keep.

(** Writing a block back with another tick. *)
Lemma write_retick m page b t {A} (k : KvM A) : bl m page = Some (Some b) → inheriting k →
  match (write_block page (Some (mk_block (block_key b) t)) ;;; k) m with (Panic _, _) => True | (_, m') => inherits m m' end.
Proof.
  intros Hb Hk. unfold mbind'. rewrite (write_block_ok m page (Some b)) by done. simpl. set (m1 := set_page_blocks _ m).
  assert (inherits m m1) as H1 by (apply inherits_write; right; by exists b, t).
  pose proof (inheriting_from k m1 Hk). destruct (k m1) as [[] ?]; [..|done]; by etrans.
Qed.

Lemma inheriting_drop page : inheriting (drop_cached_block page).
Proof.
  unfold drop_cached_block. apply inheriting_with_block. intros m b _. apply inheriting_from. keep.
Qed.
#[local] Hint Resolve inheriting_drop : keep.
Lemma inheriting_allocate : inheriting allocate_page.
Proof. unfold allocate_page. keep. Qed.
#[local] Hint Resolve inheriting_allocate : keep.

Lemma inheriting_release page : inheriting (release_page page).
Proof.
  unfold release_page. do 3 (refine (keeping_bind _ _ _ _ _ _); [by eauto with keep|intros ?]).
  refine (keeping_bind _ _ _ _ _ _); [by eauto with keep|intros _].
  case_decide; [by eauto with keep|]. refine (keeping_read _ _ _ _). intros m _.
  apply inheriting_with_block. intros m0 [b|] Hb; [|apply inheriting_from; destruct (prefix_caching m); keep].
  destruct (prefix_caching m); [|apply inheriting_from; keep].
  unfold mexpect. destruct (checked_add _ _ _) as [tick|]; simpl; [|done].
  apply (write_retick (set_next_tick tick m0)); [done|]. keep.
Qed.

Lemma inheriting_acquire page : inheriting (acquire_cached page).
Proof.
  unfold acquire_cached. refine (keeping_bind _ _ _ _ _ _); [by eauto with keep|intros r].
  refine (keeping_bind _ _ _ _ _ _); [|intros _; keep]. case_decide; [|keep].
  apply inheriting_with_block. intros m [b|] Hb; [|done]. unfold mbind' at 1. simpl.
  destruct (lru_tick b) as [tick|]; [|simpl; reflexivity]. apply write_retick; [done|]. keep.
Qed.
#[local] Hint Resolve inheriting_release inheriting_acquire : keep.

(** The methods of the scheduler. *)
Lemma inheriting_validate rid : inheriting (validate_reservation rid).
Proof. unfold validate_reservation. keep. Qed.
#[local] Hint Resolve inheriting_validate : keep.
Lemma inheriting_validates ids : inheriting (validate_reservations ids).
Proof.
  unfold validate_reservations. generalize (∅ : gset N). induction ids as [|id ids IH]; intros seen; simpl; keep.
Qed.
Lemma inheriting_take rid : inheriting (take_reservation rid).
Proof. unfold take_reservation. keep. Qed.
Lemma inheriting_split {A} n (l : list A) : inheriting (split_off n l).
Proof. unfold split_off. keep. Qed.
Lemma inheriting_create id : inheriting (create_sequence id).
Proof. unfold create_sequence. keep. Qed.
#[local] Hint Resolve inheriting_validates inheriting_take inheriting_split inheriting_create : keep.
Lemma inheriting_begin id n : inheriting (begin_append id n).
Proof. unfold begin_append. keep. Qed.
Lemma inheriting_cancel rid : inheriting (cancel_append rid).
Proof. unfold cancel_append. keep. Qed.
Lemma inheriting_commit rid : inheriting (commit_append rid).
Proof. unfold commit_append. keep. Qed.
#[local] Hint Resolve inheriting_cancel inheriting_commit : keep.
Lemma inheriting_partial rid n : inheriting (commit_append_partial rid n).
Proof. unfold commit_append_partial. keep. Qed.
Lemma inheriting_cancels ids : inheriting (cancel_appends ids).
Proof.
  unfold cancel_appends. refine (keeping_bind _ _ _ _ _ _); [by eauto with keep|intros _].
  apply keeping_for; [apply _|]. intros. apply keeping_expect_ok. eauto with keep.
Qed.
Lemma inheriting_commit_row row : inheriting (commit_prefix_row row).
Proof. unfold commit_prefix_row. keep. Qed.
Lemma inheriting_check_row row : inheriting (check_prefix_row row).
Proof. unfold check_prefix_row. keep. Qed.
#[local] Hint Resolve inheriting_commit_row inheriting_check_row : keep.
Lemma inheriting_prefixes rows : inheriting (commit_append_prefixes rows).
Proof. unfold commit_append_prefixes. keep. Qed.
Lemma inheriting_remove id : inheriting (remove_sequence id).
Proof. unfold remove_sequence. keep. Qed.
Lemma inheriting_caching enabled : inheriting (set_prefix_caching_enabled enabled).
Proof.
  unfold set_prefix_caching_enabled. refine (keeping_bind _ _ _ _ _ _); [by eauto with keep|intros _].
  destruct enabled; [by eauto with keep|]. refine (keeping_read _ _ _ _). intros m _.
  refine (keeping_bind _ _ _ _ _ _); [by eauto with keep|intros _]. apply keeping_for; [apply _|]. intros. keep.
Qed.

Section Hashed.
Context `{DefaultHasher}.
Lemma inheriting_match tokens bs n block parent acc : inheriting (match_blocks tokens bs n block parent acc).
Proof. revert block parent acc. induction n as [|n IH]; intros block parent acc; simpl; keep. Qed.
#[local] Hint Resolve inheriting_match : keep.
Lemma inheriting_create_prefix id tokens : inheriting (create_sequence_with_prefix id tokens).
Proof. unfold create_sequence_with_prefix. keep. Qed.
End Hashed.

(** ** Slots *)

(** The token a slot of a page holds, after the tokens it was computed after. *)
Notation Slots := (N → nat → option (list Z)) (only parsing).

(** The first [n] tokens of [h] are in the slots of [table]. *)
Definition in_pages (bs : nat) (mem : Slots) (table : list N) (h : list Z) (n : nat) : Prop :=
  ∀ j, j < n → ∃ p, table !! (j / bs) = Some p ∧ mem p (j mod bs) = Some (take (S j) h).

Lemma in_pages_weaken bs mem table h n n' : n' ≤ n → in_pages bs mem table h n → in_pages bs mem table h n'.
Proof. intros Hn Hi j Hj. apply Hi. lia. Qed.

Lemma in_pages_table bs mem table table' h n : 0 < bs → (∀ i, i < div_ceil n bs → table' !! i = table !! i) →
  in_pages bs mem table h n → in_pages bs mem table' h n.
Proof.
  intros Hbs Ht Hi j Hj. destruct (Hi j Hj) as (p & Hp & Hm). exists p. split; [|done]. rewrite Ht; [done|].
  apply div_ceil_lt; [done|]. pose proof (Nat.div_mod_eq j bs). nia.
Qed.

Lemma in_pages_history bs mem table h h' n : n ≤ length h → h `prefix_of` h' →
  in_pages bs mem table h n ↔ in_pages bs mem table h' n.
Proof.
  intros Hn [l ->]. split; intros Hi j Hj; destruct (Hi j Hj) as (p & Hp & Hm); exists p;
    (split; [done|]); rewrite Hm, take_app_le by lia; done.
Qed.

(** ** Chain hashes *)
Section Chained.
Context `{DefaultHasher} (bs : nat).

(** A list of whole blocks has this chain hash. *)
Inductive chained : list Z → N → Prop :=
| chained_root : chained [] CHAIN_ROOT
| chained_block pre parent t : chained pre parent → length t = bs → chained (pre ++ t) (chain parent t).

(** No two of the token lists that occur have the same chain hash. *)
Record collision_free (U : list Z → Prop) : Prop := {
  cf_nil : U [];
  cf_prefix : ∀ l l', l `prefix_of` l' → U l' → U l;
  cf_distinct : ∀ pre pre' hash, U pre → U pre' → chained pre hash → chained pre' hash → pre = pre'
}.

Lemma chained_length pre hash : chained pre hash → ∃ n, length pre = n * bs.
Proof.
  induction 1 as [|pre parent t _ [n Hn] Ht]; [by exists 0|]. exists (S n). rewrite length_app, Hn, Ht. lia.
Qed.

Lemma chained_next h n hash t : chained (take (n * bs) h) hash → t = take bs (drop (n * bs) h) →
  (n + 1) * bs ≤ length h → chained (take ((n + 1) * bs) h) (chain hash t) ∧
  take ((n + 1) * bs) h = take (n * bs) h ++ t.
Proof.
  intros Hc -> Hl. assert (take ((n + 1) * bs) h = take (n * bs) h ++ take bs (drop (n * bs) h)) as ->.
  { rewrite take_take_drop. f_equal. lia. }
  split; [|done]. constructor; [done|]. rewrite length_take, length_drop. lia.
Qed.
End Chained.

(** ** The bookkeeping matches the memory

    [filled] is the invariant between a paged KV cache manager and the slots of its
    pages; the methods of src/src/paged_kv.rs that the scheduler calls keep it. *)

Section Filled.
Context `{DefaultHasher} (bs : nat) (U : list Z → Prop) (HU : collision_free bs U).
(** The memory, the tokens of each sequence, and the tokens of each reservation that
    are already in their slots. *)
Context (mem : N → nat → option (list Z)) (h : RequestId → list Z) (Hh : ∀ id, U (h id)) (W : KvReservationId → nat).
Implicit Types m : PagedKvCacheManager.

Record sequence_filled (id : RequestId) (q : SequenceState) : Prop := {
  sf_length : committed_tokens q ≤ length (h id);
  sf_pages : in_pages bs mem (pages q) (h id) (committed_tokens q);
  sf_registered : registered_blocks q * bs ≤ committed_tokens q;
  sf_hash : chained bs (take (registered_blocks q * bs) (h id)) (chain_hash q)
}.

Definition written (r : ReservationState) (q : SequenceState) (n : nat) : Prop :=
  start_position r + n ≤ length (h (request_id r)) ∧
  in_pages bs mem (pages q) (h (request_id r)) (start_position r + n).

(** A published block holds the tokens of its key after a prefix with its parent's hash. *)
Definition block_filled (p : N) (key : N * list Z) : Prop :=
  ∃ pre, chained bs pre key.1 ∧ U (pre ++ key.2) ∧ length key.2 = bs ∧
    ∀ o, o < bs → mem p o = Some (pre ++ take (S o) key.2).

Record sequences_filled m : Prop := {
  fi_size : block_size (config m) = bs;
  fi_sequence : ∀ id q, sequences m !! id = Some q → sequence_filled id q;
  fi_written : ∀ rid r q, reservations m !! rid = Some r → sequences m !! request_id r = Some q →
    written r q (W rid)
}.
Definition blocks_filled m : Prop := ∀ p b, bl m p = Some (Some b) → block_filled p (block_key b).
Definition filled m : Prop := sequences_filled m ∧ blocks_filled m.
Definition sound m : Prop := kv_wf m ∧ filled m.
Notation safe := (keeping sound unrelated).

Lemma inherits_filled m m' : inherits m m' → blocks_filled m → blocks_filled m'.
Proof. intros Hi Hb p b' Hp. destruct (Hi p b' Hp) as (b & Hb' & <-). by apply Hb. Qed.

(** A method that publishes nothing: what it does to the sequences is enough. *)
Lemma safe_intro {A} (op : KvM A) : inheriting op →
  (∀ m, kv_wf m → filled m → wp op (post (λ _ m', kv_wf m' ∧ sequences_filled m') (λ _ m', kv_wf m' ∧ sequences_filled m')) m) →
  safe op.
Proof.
  intros Hinh Hw m [Hwf Hf]. specialize (Hw m Hwf Hf). pose proof (inheriting_from op m Hinh) as Hi. destruct Hf as [_ Hb].
  unfold wp in Hw. destruct (op m) as [[a|e|p] m']; simpl in Hw; [..|done];
    destruct Hw as [? ?]; (split; [split; [done|split; [done|by eapply inherits_filled]]|done]).
Qed.

(** *** Reservations and their sequences *)
Definition owns m : Prop := ∀ rid r, reservations m !! rid = Some r → ∃ q,
  sequences m !! request_id r = Some q ∧ pending q = Some rid ∧ committed_tokens q = start_position r.

Lemma kv_owns m : kv_wf m → owns m.
Proof.
  intros [_ Hb] rid r Hr. destruct (lk_res _ _ _ _ _ (bw_link _ Hb) _ _ Hr) as (_ & q & Hq & Hp & Hc & _). by exists q.
Qed.

Lemma close_filled id q c : 0 < bs → c ≤ length (h id) → committed_tokens q ≤ c → in_pages bs mem (pages q) (h id) c →
  sequence_filled id q → sequence_filled id (close_seq bs c q).
Proof.
  intros Hbs Hl Hc Hp [_ _ Hr Hch]. split; simpl; [done| |lia|done].
  eapply in_pages_table; [done| |done]. intros i Hi. by rewrite lookup_take_lt.
Qed.

Lemma closes_filled rid n pos m m' : 0 < bs → owns m → closes rid n pos m m' → n ≤ W rid →
  sequences_filled m → sequences_filled m' ∧ owns m'.
Proof.
  intros Hbs Ho [Hc _ _ _ (r & q & Hr & Hq & -> & _ & Hdel & Hs)] Hn [Hsz Hseq Hw].
  destruct (Ho _ _ Hr) as (q0 & Hq0 & Hpd & Hcm). simplify_eq.
  destruct (Hw _ _ _ Hr Hq) as [Hlen Hin].
  assert (∀ rid' r', reservations m' !! rid' = Some r' → rid' ≠ rid ∧ request_id r' ≠ request_id r ∧ reservations m !! rid' = Some r') as Hoth.
  { intros rid' r'. rewrite Hdel, lookup_delete_Some. intros [Hne Hr']. split; [done|]. split; [|done].
    intros He. destruct (Ho _ _ Hr') as (q' & Hq' & Hp' & _). rewrite He in Hq'. congruence. }
  split; [split|].
  - congruence.
  - intros id q'. rewrite Hs, lookup_insert. case_decide; [|apply Hseq]. subst id. intros [= <-]. rewrite Hsz.
    apply close_filled; [done|lia|lia| |by apply Hseq]. eapply in_pages_weaken; [|exact Hin]. lia.
  - intros rid' r' q' Hr' Hq'. destruct (Hoth _ _ Hr') as (_ & Hne & Hr0). rewrite Hs, lookup_insert_ne in Hq' by done. by eapply Hw.
  - intros rid' r' Hr'. destruct (Hoth _ _ Hr') as (_ & Hne & Hr0). rewrite Hs, lookup_insert_ne by done. by apply Ho.
Qed.

Lemma closes_all_filled rows ps m m' : 0 < bs → owns m → closes_all rows ps m m' →
  (∀ row, row ∈ rows → row.2 ≤ W row.1) → sequences_filled m → sequences_filled m'.
Proof.
  intros Hbs Ho Hall. induction Hall as [|rid n pos rows ps m m1 m' Hc _ IH]; intros Hn Hf; [done|].
  destruct (closes_filled _ _ _ _ _ Hbs Ho Hc) as [Hf1 Ho1]; [apply (Hn (rid, n)); by left|done|].
  apply IH; [done| |done]. intros row Hin. apply Hn. by right.
Qed.

(** *** The methods *)
Lemma block_size_pos m : kv_wf m → filled m → 0 < bs.
Proof. intros [_ Hb] [[<- _ _] _]. apply (bw_bs _ Hb). Qed.

Lemma safe_begin id n : (∀ rid, W rid = 0) → safe (begin_append id n).
Proof.
  intros HW. apply safe_intro; [apply inheriting_begin|]. intros m Hwf Hf. pose proof (block_size_pos _ Hwf Hf) as Hbs.
  eapply wp_post_mono; [by apply begin_append_wf|..]; [|intros e m' ->; split; [done|by destruct Hf]].
  intros a m' (Hwf' & q & Hq & Hpd & Hn & _ & _ & _ & Hc & Hs & Hr). split; [done|].
  destruct Hf as [[Hsz Hseq Hw] _].
  destruct (take_app_stored _ _ _ _ _ _ (ar_newly_allocated_pages a) (bw_link _ (proj2 Hwf)) ltac:(by rewrite Hsz) Hq) as [Hle _].
  rewrite Hsz in Hle. destruct (Hseq _ _ Hq) as [Hl Hp Hreg Hch].
  assert (in_pages bs mem (pages q ++ ar_newly_allocated_pages a) (h id) (committed_tokens q)) as Hp'.
  { eapply in_pages_table; [done| |done]. intros i Hi. rewrite lookup_app_l by lia. done. }
  split; [congruence|..].
  - intros id' q'. rewrite Hs, lookup_insert. case_decide; [|apply Hseq]. subst id'. intros [= <-]. by split.
  - intros rid r q'. rewrite Hr, lookup_insert. case_decide as Hrid.
    + intros [= <-]. simpl. rewrite Hs, lookup_insert_eq. intros [= <-]. unfold written. simpl.
      rewrite HW, Nat.add_0_r. by split.
    + intros Hr'. rewrite Hs, lookup_insert. case_decide as He; [|by apply Hw]. intros [= <-].
      destruct (kv_owns _ Hwf _ _ Hr') as (q1 & Hq1 & Hpd1 & _). rewrite <- He in Hq1. congruence.
Qed.

Lemma safe_cancels ids : safe (cancel_appends ids).
Proof.
  apply safe_intro; [apply inheriting_cancels|]. intros m Hwf Hf. pose proof (block_size_pos _ Hwf Hf) as Hbs.
  eapply wp_post_mono; [by apply cancel_appends_wf|..]; [|intros e m' [-> _]; split; [done|by destruct Hf]].
  intros [] m' (Hwf' & _ & ps & Hall). split; [done|]. destruct Hf as [Hf _].
  eapply (closes_all_filled _ _ m); [done|by apply kv_owns|exact Hall| |done].
  intros row (id & -> & _)%list_elem_of_fmap. simpl. lia.
Qed.

Lemma safe_prefixes rows : (∀ row, row ∈ rows → row.2 ≤ W row.1) → safe (commit_append_prefixes rows).
Proof.
  intros Hn. apply safe_intro; [apply inheriting_prefixes|]. intros m Hwf Hf. pose proof (block_size_pos _ Hwf Hf) as Hbs.
  eapply wp_post_mono; [by apply commit_append_prefixes_wf|..]; [|intros e m' [-> _]; split; [done|by destruct Hf]].
  intros ps m' (Hwf' & _ & _ & Hall). split; [done|]. destruct Hf as [Hf _].
  by eapply (closes_all_filled _ _ m); [|apply kv_owns|..].
Qed.

Lemma safe_partial rid n : n ≤ W rid → safe (commit_append_partial rid n).
Proof.
  intros Hn. apply safe_intro; [apply inheriting_partial|]. intros m Hwf Hf. pose proof (block_size_pos _ Hwf Hf) as Hbs.
  eapply wp_post_mono; [by apply commit_append_partial_wf|..]; [|intros e m' [-> _]; split; [done|by destruct Hf]].
  intros pos m' (Hwf' & _ & Hc). split; [done|]. destruct Hf as [Hf _].
  by eapply (closes_filled rid n pos m); [|apply kv_owns|..].
Qed.

Lemma safe_remove id : safe (remove_sequence id).
Proof.
  apply safe_intro; [apply inheriting_remove|]. intros m Hwf Hf.
  eapply wp_post_mono; [by apply remove_sequence_wf|..]; [|intros e m' [-> _]; split; [done|by destruct Hf]].
  intros [] m' (Hwf' & q & _ & _ & Hc & Hs & Hr & _). split; [done|]. destruct Hf as [[Hsz Hseq Hw] _].
  split; [congruence|..].
  - intros id' q'. rewrite Hs, lookup_delete_Some. intros [_ ?]. by apply Hseq.
  - intros rid r q'. rewrite Hs, Hr, lookup_delete_Some. intros Hr' [_ ?]. by eapply Hw.
Qed.

Lemma fresh_filled id q m m' : kv_wf m → sequences_filled m → sequences m !! id = None → config m' = config m →
  sequences m' = <[id := q]> (sequences m) → reservations m' = reservations m → sequence_filled id q → sequences_filled m'.
Proof.
  intros Hwf [Hsz Hseq Hw] Hn Hc Hs Hr Hq. split; [congruence|..].
  - intros id' q'. rewrite Hs, lookup_insert. case_decide; [|apply Hseq]. subst. by intros [= <-].
  - intros rid r q'. rewrite Hs, Hr, lookup_insert. intros Hr'. case_decide as He; [|by apply Hw].
    destruct (kv_owns _ Hwf _ _ Hr') as (q1 & Hq1 & _). congruence.
Qed.

Lemma safe_create id : safe (create_sequence id).
Proof.
  apply safe_intro; [apply inheriting_create|]. intros m Hwf Hf.
  eapply wp_post_mono; [by apply create_sequence_wf|..]; [|intros e m' [-> _]; split; [done|by destruct Hf]].
  intros [] m' (Hwf' & Hn & Hm). split; [done|]. subst m'.
  eapply (fresh_filled id (mk_sequence 0 [] None 0 CHAIN_ROOT) m); [done|by destruct Hf|done..|].
  split; simpl; [lia|by intros ? ?%Nat.nlt_0_r|lia|]. constructor.
Qed.

(** The switch frees pages of published blocks that no sequence has. *)
Lemma safe_caching enabled : safe (set_prefix_caching_enabled enabled).
Proof.
  apply safe_intro; [apply inheriting_caching|]. intros m Hwf [[Hsz Hseq Hw] _].
  eapply wp_post_mono; [by apply set_prefix_caching_wf|..]; [|done].
  intros [] m' (Hwf' & _ & Hc & Hs & Hr & _). split; [done|]. split; [congruence|by rewrite Hs|by rewrite Hs, Hr].
Qed.

(** *** Reusing published blocks *)
Lemma chain_filled m tokens n block parent : 0 < bs → kv_wf m → blocks_filled m → U tokens →
  chained bs (take (block * bs) tokens) parent → (block + n) * bs ≤ length tokens →
  let r := cached_chain (block_index m) tokens bs n block parent in
  chained bs (take ((block + length r.1) * bs) tokens) r.2 ∧
  ∀ i, i < length r.1 → ∃ p, r.1 !! i = Some p ∧ ∀ o, o < bs → mem p o = Some (take (S ((block + i) * bs + o)) tokens).
Proof.
  intros Hbs Hwf Hb Hu. revert block parent. induction n as [|n IH]; intros block parent Hch Hl; cbn zeta; cbn [cached_chain].
  { simpl. rewrite Nat.add_0_r. split; [done|]. intros i Hi. lia. }
  set (t := take bs (drop (block * bs) tokens)).
  destruct (block_index m !! (parent, t)) as [page|] eqn:Ei; simpl.
  2:{ rewrite Nat.add_0_r. split; [done|]. intros i Hi. lia. }
  destruct (chained_next bs tokens block parent t Hch eq_refl) as [Hch' Happ]; [nia|].
  destruct (IH (block + 1) (chain parent t) Hch') as [Hc Hp]; [nia|].
  apply (pw_index _ _ (proj1 Hwf)) in Ei as [tick Hpage].
  destruct (Hb _ _ Hpage) as (pre & Hpre & Hup & Hlt & Hslots). simpl in *.
  assert (pre = take (block * bs) tokens) as ->.
  { eapply (cf_distinct _ _ HU); [| |exact Hpre|exact Hch].
    - eapply (cf_prefix _ _ HU); [|exact Hup]. by eexists.
    - eapply (cf_prefix _ _ HU); [|exact Hu]. apply prefix_take. }
  split.
  - replace (block + S _) with (block + 1 + length (cached_chain (block_index m) tokens bs n (block + 1) (chain parent t)).1) by lia. done.
  - intros [|i] Hi; simpl.
    + exists page. split; [done|]. intros o Ho. rewrite Nat.add_0_r, Hslots by done. f_equal.
      unfold t. rewrite take_take, Nat.min_l by lia. rewrite take_take_drop. f_equal. lia.
    + destruct (Hp i) as (p & Hi' & Hm); [lia|]. exists p. split; [done|]. intros o Ho. rewrite Hm by done. do 3 f_equal. lia.
Qed.

Lemma safe_create_prefix id tokens : h id = tokens → safe (create_sequence_with_prefix id tokens).
Proof.
  intros Hid. assert (U tokens) as Hu by (rewrite <- Hid; apply Hh). apply safe_intro; [apply inheriting_create_prefix|]. intros m Hwf Hf. pose proof (block_size_pos _ Hwf Hf) as Hbs.
  eapply wp_post_mono; [by apply create_with_prefix_wf|..]; [|intros e m' [-> _]; split; [done|by destruct Hf]].
  intros matched m' (Hwf' & Hn & Hm & Hc & Hr & _ & Hs). split; [done|].
  eapply (fresh_filled id _ m); [done|by destruct Hf|exact Hn|done|exact Hs|done|].
  assert (chained bs (take (length (reusable m tokens).1 * bs) tokens) (reusable m tokens).2 ∧
    length (reusable m tokens).1 * bs ≤ length tokens ∧
    ∀ i, i < length (reusable m tokens).1 → ∃ p, (reusable m tokens).1 !! i = Some p ∧
      ∀ o, o < bs → mem p o = Some (take (S (i * bs + o)) tokens)) as (Hch & Hlen & Hpg).
  { unfold reusable. destruct (decide _) as [Hd|Hd]; simpl; [split; [constructor|split; [lia|intros i Hi; lia]]|].
    destruct Hf as [[Hsz _ _] Hb]. rewrite Hsz.
    pose proof (Nat.Div0.mul_div_le (length tokens - 1) bs) as Hdiv.
    destruct (chain_filled m tokens ((length tokens - 1) / bs) 0 CHAIN_ROOT Hbs Hwf Hb Hu) as [H1 H2]; [constructor|simpl; nia|].
    split; [done|]. split; [|done].
    pose proof (cached_chain_length (block_index m) tokens bs ((length tokens - 1) / bs) 0 CHAIN_ROOT). nia. }
  assert (block_size (config m) = bs) as Hsz by apply (fi_size _ (proj1 Hf)). rewrite Hsz in Hm. subst matched.
  split; simpl; rewrite ?Hid; try done.
  intros j Hj. destruct (Hpg (j / bs)) as (p & Hp & Hm); [apply Nat.Div0.div_lt_upper_bound; lia|].
  exists p. split; [done|]. rewrite Hm by (apply Nat.mod_upper_bound; lia). do 3 f_equal.
  pose proof (Nat.div_mod_eq j bs). lia.
Qed.

(** *** Publishing *)
Lemma publish_filled m id q block key page : sequence_filled id q → (block + 1) * bs ≤ committed_tokens q →
  pages q !! block = Some page → key.2 = take bs (drop (block * bs) (h id)) → chained bs (take (block * bs) (h id)) key.1 →
  bl m page = Some None → blocks_filled m → blocks_filled (published key page m).
Proof.
  intros [Hl Hin _ _] Hc Hpg Hkey Hch Hbl Hb p b Hp.
  unfold bl, published in Hp. simpl in Hp. destruct (decide (N.to_nat p = N.to_nat page)) as [He|Hne].
  2:{ rewrite list_lookup_insert_ne in Hp by done. by apply Hb. }
  assert (p = page) as -> by lia. rewrite list_lookup_insert_eq in Hp by (by apply lookup_lt_Some in Hbl).
  injection Hp as <-. simpl. exists (take (block * bs) (h id)). split; [done|]. rewrite Hkey. split_and!.
  - eapply (cf_prefix _ _ HU); [|apply (Hh id)]. rewrite take_take_drop. apply prefix_take.
  - rewrite length_take, length_drop. lia.
  - intros o Ho. destruct (Hin (block * bs + o)) as (p' & Hp' & Hm); [nia|].
    rewrite Nat.div_add_l, (Nat.div_small o), Nat.add_0_r in Hp' by lia. simplify_eq.
    rewrite Nat.add_comm, Nat.Div0.mod_add, Nat.mod_small in Hm by done. rewrite Hm.
    rewrite take_take, Nat.min_l by lia. rewrite take_take_drop. do 2 f_equal. lia.
Qed.

Definition register_goal (id : RequestId) (end_block : nat) m (r : res PagedKvError N) m' : Prop :=
  match r with
  | Ok parent => chained bs (take (end_block * bs) (h id)) parent ∧ blocks_filled m' ∧ same_book m m'
  | Err _ => False
  | Panic _ => True
  end.

Lemma register_blocks_filled tokens id q n block parent m : h id `prefix_of` tokens → sequence_filled id q →
  (block + n) * bs ≤ committed_tokens q → chained bs (take (block * bs) (h id)) parent → blocks_filled m →
  wp (register_blocks tokens bs (pages q) n block parent) (register_goal id (block + n) m) m.
Proof.
  intros Hpre Hq. revert block parent m. induction n as [|n IH]; intros block parent m Hc Hch Hb; simpl.
  { apply wp_ret. simpl. by rewrite Nat.add_0_r. }
  pose proof (sf_length _ _ Hq) as Hl. pose proof (prefix_length _ _ Hpre) as Hlt.
  rewrite slice_block by nia. simpl. wp_steps.
  assert (take bs (drop (block * bs) tokens) = take bs (drop (block * bs) (h id))) as ->.
  { destruct Hpre as [l ->]. rewrite drop_app_le by nia. apply take_app_le. rewrite length_drop. nia. }
  set (t := take bs (drop (block * bs) (h id))).
  destruct (chained_next bs (h id) block parent t Hch eq_refl) as [Hch' _]; [nia|].
  destruct (pages q !! block) as [page|] eqn:Hpg; simpl; [|by apply wp_panic]. wp_steps.
  assert (∀ m1, blocks_filled m1 → same_book m m1 →
    wp (register_blocks tokens bs (pages q) n (block + 1) (chain parent t)) (register_goal id (block + S n) m) m1) as Hrest.
  { intros m1 Hb1 Hsb. eapply wp_mono; [apply (IH (block + 1)); [nia|done|done]|].
    intros [x|e|p] m2; simpl; [|done|done]. replace (block + S n) with (block + 1 + n) by lia.
    intros (? & ? & ?). split_and!; [done|done|by etrans]. }
  case_decide as Hk; [|by apply wp_ret, Hrest].
  wp_step. unfold read_block at 1. unfold wp at 1, mbind', mget, mexpect.
  destruct (page_blocks m !! N.to_nat page) as [ob|] eqn:Hbl; simpl; [|done].
  case_decide as Ho; [subst ob|by apply Hrest].
  unfold wp at 1. rewrite (write_block_ok (set_block_index _ m) _ None) by done. apply Hrest; [|done].
  eapply (publish_filled m id q block (parent, t)); try done. simpl. nia.
Qed.

Lemma safe_register id tokens : h id `prefix_of` tokens → safe (register_prefix id tokens).
Proof.
  intros Hpre m [Hwf [Hs Hb]]. pose proof (register_prefix_wf id tokens m Hwf) as Hw0.
  unfold wp in Hw0. destruct (register_prefix id tokens m) as [r m'] eqn:Er. pose proof Er as Er0. revert Er0.
  unfold register_prefix, mbind', mget. destruct (prefix_caching m).
  2:{ intros [= <- <-]. split; [|done]. split; [by destruct Hw0|by split]. }
  unfold sequence, mbind', mget, mok_or. destruct (sequences m !! id) as [q|] eqn:Hq; simpl.
  2:{ intros [= <- <-]. split; [by split|done]. }
  pose proof (fi_sequence _ Hs _ _ Hq) as Hqf. pose proof Hqf as [Hl Hin Hreg Hch0].
  pose proof (fi_size _ Hs) as Hsz. rewrite Hsz. pose proof (bw_bs _ (proj2 Hwf)) as Hbs. rewrite Hsz in Hbs.
  pose proof (prefix_length _ _ Hpre) as Hlt. rewrite Nat.min_l by lia.
  set (complete := committed_tokens q / bs). set (block := registered_blocks q) in *.
  assert (block ≤ complete) as Hle by (apply Nat.div_le_lower_bound; lia).
  assert ((block + (complete - block)) * bs ≤ committed_tokens q) as Hend.
  { replace (block + (complete - block)) with complete by lia. unfold complete. rewrite Nat.mul_comm. apply Nat.Div0.mul_div_le. }
  pose proof (register_blocks_filled tokens id q (complete - block) block (chain_hash q) m Hpre Hqf Hend Hch0 Hb) as Hw.
  unfold wp in Hw. destruct (register_blocks _ _ _ _ _ _ m) as [[parent|e|p] m1]; simpl in Hw; [|done|].
  2:{ intros [= <- <-]. done. }
  destruct Hw as (Hch & Hb1 & (Hc1 & Hs1 & Hr1 & _)). replace (block + (complete - block)) with complete in Hch by lia.
  unfold mexpect. rewrite Hs1, Hq. simpl. unfold put_sequence, mmodify. intros [= <- <-]. simpl in *.
  destruct Hw0 as (Hwf' & _). split; [|done]. split; [done|]. split; [|done]. split; simpl.
  - congruence.
  - intros id' q'. rewrite Hs1, lookup_insert. case_decide; [|apply (fi_sequence _ Hs)]. subst id'. intros [= <-].
    split; simpl; try done; rewrite Nat.max_r by lia; [|done].
    by replace (block + (complete - block)) with complete in Hend by lia.
  - intros rid r0 q' Hr0. rewrite Hs1, lookup_insert. rewrite Hr1 in Hr0. case_decide as He; [|by apply (fi_written _ Hs)].
    intros [= <-]. unfold written. simpl. subst. by apply (fi_written _ Hs rid r0 q).
Qed.
End Filled.
