(* ===== verification/PagedMapped.v ===== *)
(** * Scheduling over filled pages

    The calls of the scheduler of src/src/continuous_batch.rs, with what the pages
    hold: a call that schedules, rolls back, cancels or admits keeps every committed
    token in its slot, and completing a batch commits only tokens that were written. *)
From S2P Require Import Prelude PagedKv PagedKvPool PagedKvInv PagedKvOps PagedKvPrefix PagedKvUnshared.
From S2P Require Import PagedContents ContinuousBatch ContinuousBatchInv ContinuousBatchSchedule.
From S2P Require Import ContinuousBatchLoop ContinuousBatchOps ContinuousBatchVerify ContinuousBatchCalls.
Open Scope nat_scope.
Open Scope m_scope.

Section Flow.
Context {TokenSampler : Type} `{DefaultHasher}.
Context (bs : nat) (U : list Z → Prop) (HU : collision_free bs U).
Notation Sched := (@ContinuousBatchScheduler TokenSampler).
Notation SM := (M Sched ContinuousBatchError).
Implicit Types s : Sched.

Section Fixed.
Context (mem : N → nat → option (list Z)) (h : RequestId → list Z) (Hh : ∀ id, U (h id)) (W : KvReservationId → nat).

(** The cache is sound, and a queued request will start with its prompt. *)
Definition planned s : Prop :=
  sound bs U mem h W (kv_cache s) ∧ ∀ p, p ∈ pending_requests s → h (pr_id p) = pr_prompt_token_ids p.
Notation steady := (keeping planned unrelated).

Lemma steady_kv {A} (op : M PagedKvCacheManager PagedKvError A) : keeping (sound bs U mem h W) unrelated op → steady (kv op : SM A).
Proof.
  intros Hop s [Hs Hp]. specialize (Hop _ Hs). unfold kv, planned. destruct (op (kv_cache s)) as [[a|e|p] m]; simpl in *; tauto.
Qed.

Lemma steady_modify f : (∀ s, kv_cache (f s) = kv_cache s ∧ ∀ p, p ∈ pending_requests (f s) → p ∈ pending_requests s) →
  steady (mmodify f : SM unit).
Proof.
  intros Hf. apply keeping_modify. intros s [Hs Hp]. destruct (Hf s) as [Hk Hq]. split; [|done]. unfold planned. rewrite Hk.
  split; [done|]. intros p Hin. by apply Hp, Hq.
Qed.

#[local] Hint Extern 0 (keeping planned unrelated (mmodify _)) => apply steady_modify; intros []; split; [reflexivity|auto] : keep.
#[local] Hint Extern 0 (keeping planned unrelated (put_active _ _)) => apply steady_modify; intros []; split; [reflexivity|auto] : keep.
#[local] Hint Extern 1 (keeping planned unrelated (kv _)) =>
  apply steady_kv; first [apply safe_cancels; assumption|apply safe_remove; assumption|apply safe_create; assumption
    |apply safe_caching; assumption
    |apply reads_committed; apply _|apply reads_table; apply _|apply reads_can_append; apply _] : keep.

Lemma steady_rollback rows : steady (rollback_scheduled_rows rows : SM unit).
Proof. unfold rollback_scheduled_rows. keep. Qed.
Lemma steady_mark id row : steady (mark_in_flight id row : SM unit).
Proof. unfold mark_in_flight. keep. Qed.
#[local] Hint Resolve steady_rollback steady_mark : keep.
Lemma steady_finish kind rows : steady (finish_schedule kind rows : SM _).
Proof. unfold finish_schedule. keep. Qed.
Lemma steady_chunk id r : steady (prefill_chunk id r : SM _).
Proof. unfold prefill_chunk. keep. Qed.
Lemma steady_take id : steady (take_batch id : SM _).
Proof. unfold take_batch. keep. Qed.
Lemma steady_put_back {A} b e : steady (put_back b e : SM A).
Proof. unfold put_back. keep. Qed.
#[local] Hint Resolve steady_finish steady_chunk steady_take steady_put_back : keep.
Lemma steady_buckets requests acc : steady (fill_buckets requests acc : SM _).
Proof. revert acc. induction requests as [|[id r] requests IH]; intros acc; simpl; keep. Qed.
Lemma steady_candidates c width requests : steady (verify_candidates c width requests : SM _).
Proof. induction requests as [|[id r] requests IH]; simpl; keep. Qed.
Lemma steady_holders requests : steady (page_holders requests : SM _).
Proof. induction requests as [|[id r] requests IH]; simpl; keep. Qed.
#[local] Hint Resolve steady_buckets steady_candidates steady_holders : keep.
Lemma steady_preempt : steady (preempt_newest : SM _).
Proof. unfold preempt_newest. keep. Qed.
#[local] Hint Resolve steady_preempt : keep.

Lemma steady_fail_row kind row : steady (fail_row kind row : SM unit).
Proof. unfold fail_row. keep. Qed.
#[local] Hint Resolve steady_fail_row : keep.
Lemma steady_fail id : steady (fail_batch id : SM unit).
Proof. unfold fail_batch. keep. Qed.
Lemma steady_pop : steady (pop_finished : SM _).
Proof. unfold pop_finished. keep. Qed.
Lemma steady_caching enabled : steady (scheduler_set_prefix_caching enabled : SM _).
Proof. unfold scheduler_set_prefix_caching. keep. Qed.
Lemma steady_speculative c : steady (set_speculative_decoding c : SM _).
Proof. unfold set_speculative_decoding. keep. Qed.

Lemma steady_dequeue position : steady (mmodify (λ s, set_pending_requests (delete position (pending_requests s)) s) : SM unit).
Proof.
  apply steady_modify. intros s. split; [done|]. simpl. intros p. rewrite delete_take_drop, elem_of_app.
  intros [[i [Hi _]%lookup_take_Some]%list_elem_of_lookup|[i Hi]%list_elem_of_lookup]; [|rewrite lookup_drop in Hi];
    by eapply list_elem_of_lookup_2.
Qed.
#[local] Hint Resolve steady_dequeue : keep.

Lemma steady_cancel id : steady (cancel id : SM _).
Proof. unfold cancel. keep. Qed.

(** ** Scheduling *)
Section Scheduling.
Context (HW : ∀ rid, W rid = 0).

Lemma steady_begin rows id n : steady (begin_or_rollback rows id n : SM _).
Proof.
  unfold begin_or_rollback. refine (keeping_catch _ _ _ _ _ _); [|keep]. by apply steady_kv, safe_begin.
Qed.
#[local] Hint Resolve steady_begin : keep.
Lemma steady_decode_rows candidates rows : steady (decode_rows candidates rows : SM _).
Proof. revert rows. induction candidates as [|[id token] candidates IH]; intros rows; simpl; keep. Qed.
Lemma steady_prefill_rows candidates n max_rows rows : steady (prefill_rows candidates n max_rows rows : SM _).
Proof. revert rows. induction candidates as [|id candidates IH]; intros rows; simpl; keep. Qed.
Lemma steady_verify_rows c width max_rows candidates rows : steady (verify_rows c width max_rows candidates rows : SM _).
Proof.
  revert rows. induction candidates as [|[[id token] draft] candidates IH]; intros rows; simpl; keep.
  by apply steady_kv, safe_begin.
Qed.
#[local] Hint Resolve steady_decode_rows steady_prefill_rows steady_verify_rows : keep.
Lemma steady_decode : steady (schedule_decode : SM _).
Proof. unfold schedule_decode. keep. Qed.
Lemma steady_prefill : steady (schedule_prefill : SM _).
Proof. unfold schedule_prefill. keep. Qed.
Lemma steady_verify : steady (schedule_verify : SM _).
Proof. unfold schedule_verify. keep. Qed.
#[local] Hint Resolve steady_decode steady_prefill steady_verify : keep.
Lemma steady_try : steady (try_schedule : SM _).
Proof. unfold try_schedule. keep. Qed.
#[local] Hint Resolve steady_try : keep.
Lemma steady_loop fuel : steady (schedule_loop fuel : SM _).
Proof. induction fuel as [|fuel IH]; simpl; keep. Qed.
#[local] Hint Resolve steady_loop : keep.

Lemma steady_admit r : h (pr_id r) = pr_prompt_token_ids r → steady (admit_request r : SM _).
Proof.
  intros Hr. unfold admit_request. refine (keeping_bind _ _ _ _ _ _); [by apply steady_kv, safe_create_prefix|]. keep.
Qed.

Lemma steady_promote fuel available : steady (promote_loop fuel available : SM _).
Proof.
  revert available. induction fuel as [|fuel IH]; intros available; simpl; [keep|].
  refine (keeping_read _ _ _ _). intros s [_ Hp]. case_decide; [keep|].
  destruct (find_pending _ _) as [[position r]|] eqn:Ef; [|keep].
  apply list_find_Some in Ef as (Hi & _). assert (steady (admit_request r : SM _)) as Hr.
  { apply steady_admit, Hp. by eapply list_elem_of_lookup_2. }
  destruct (_ && _); [keep|]. do 2 (refine (keeping_bind _ _ _ _ _ _); [by eauto with keep|intros _]). apply IH.
Qed.
#[local] Hint Resolve steady_promote : keep.
Lemma steady_promote_pending : steady (promote_pending : SM _).
Proof. unfold promote_pending. keep. Qed.
#[local] Hint Resolve steady_promote_pending : keep.
Lemma steady_schedule : steady (schedule : SM _).
Proof. unfold schedule. keep. Qed.
End Scheduling.
End Fixed.
End Flow.

(** ** The scheduler's requests and the memory

    [mapped] relates a scheduler to the memory its pages are in: what is committed of
    every request is the start of the request's history.  A forward of the batch in
    flight writes the slots of its rows and no other slot that anything relies on, and
    completing the batch commits them. *)

Section Mapped.
Context {TokenSampler : Type} `{DefaultHasher}.
Context (bs : nat) (U : list Z → Prop) (HU : collision_free bs U).
Notation Request := (@ActiveRequest TokenSampler).
Notation Sched := (@ContinuousBatchScheduler TokenSampler).
Notation SM := (M Sched ContinuousBatchError).
Notation Slots := (N → nat → option (list Z)).
Implicit Types s : Sched.

(** The histories of the requests are among [U]. *)
Record histories_in s : Prop := {
  wi_active : ∀ id r, active s !! id = Some r → U (rq_history r);
  wi_pending : ∀ p, p ∈ pending_requests s → U (pr_prompt_token_ids p);
  wi_finished : ∀ f, f ∈ finished s → U (fg_prompt_token_ids f ++ fg_generated_token_ids f)
}.

Record mapped (mem : Slots) (h : RequestId → list Z) s : Prop := {
  mp_known : ∀ id, U (h id);
  mp_sound : sound bs U mem h (λ _, 0) (kv_cache s);
  mp_active : ∀ id r, active s !! id = Some r → h id = rq_history r;
  mp_pending : ∀ p, p ∈ pending_requests s → h (pr_id p) = pr_prompt_token_ids p
}.

(** *** Longer histories *)
Lemma sequence_regrow mem h h' id q : h id `prefix_of` h' id → sequence_filled bs mem h id q → sequence_filled bs mem h' id q.
Proof.
  intros Hp [Hl Hin Hr Hc]. pose proof (prefix_length _ _ Hp). split; [lia|by apply (in_pages_history _ _ _ (h id))|done|].
  destruct Hp as [l ->]. by rewrite take_app_le by lia.
Qed.

(** With [P id] more tokens of each sequence in their slots. *)
Definition progress (m : PagedKvCacheManager) (P : RequestId → nat) (rid : KvReservationId) : nat :=
  match reservations m !! rid with Some r => P (request_id r) | None => 0 end.

Lemma sound_progress mem h h' W P m :
  (∀ id q, sequences m !! id = Some q → h id `prefix_of` h' id ∧ committed_tokens q + P id ≤ length (h' id) ∧
     in_pages bs mem (pages q) (h' id) (committed_tokens q + P id)) →
  sound bs U mem h W m → sound bs U mem h' (progress m P) m.
Proof.
  intros Hp [Hwf [[Hsz Hseq Hw] Hb]]. split; [done|]. split; [|done]. split; [done|..].
  - intros id q Hq. eapply sequence_regrow; [by eapply Hp|by apply Hseq].
  - intros rid r q Hr Hq. unfold progress. rewrite Hr. destruct (kv_owns _ Hwf _ _ Hr) as (q' & Hq' & _ & Hc).
    assert (q' = q) as -> by congruence. unfold written. rewrite <- Hc. by apply Hp.
Qed.

Lemma sound_regrow mem h h' W m : (∀ id, is_Some (sequences m !! id) → h id `prefix_of` h' id) →
  sound bs U mem h W m → sound bs U mem h' (λ _, 0) m.
Proof.
  intros Hp Hs. pose proof Hs as [Hwf [[Hsz Hseq Hw] Hb]]. split; [done|]. split; [|done]. split; [done|..].
  - intros id q Hq. eapply sequence_regrow; [apply Hp; by eexists|by apply Hseq].
  - intros rid r q Hr Hq. destruct (kv_owns _ Hwf _ _ Hr) as (q' & Hq' & _ & Hc).
    assert (q' = q) as -> by congruence. destruct (sequence_regrow mem h h' (request_id r) q) as [Hl Hin _ _]; [apply Hp; by eexists|by apply Hseq|].
    unfold written. by rewrite <- Hc, Nat.add_0_r.
Qed.

(** From another state's histories. *)
Definition histories (h : RequestId → list Z) s (id : RequestId) : list Z :=
  match active s !! id with Some r => rq_history r | None => h id end.

Lemma mapped_after mem h W s : static_wf s → histories_in s → (∀ id, U (h id)) → sound bs U mem h W (kv_cache s) →
  (∀ id r, active s !! id = Some r → h id `prefix_of` rq_history r) →
  (∀ p, p ∈ pending_requests s → h (pr_id p) = pr_prompt_token_ids p) → mapped mem (histories h s) s.
Proof.
  intros Hst Hw Hh Hs Ha Hp. split.
  - intros id. unfold histories. destruct (active s !! id) as [r|] eqn:E; [by eapply (wi_active _ Hw)|done].
  - eapply sound_regrow; [|done]. intros id Hid. apply (st_dom _ Hst) in Hid as [r Hr].
    unfold histories. rewrite Hr. by apply Ha.
  - intros id r Hr. unfold histories. by rewrite Hr.
  - intros p Hin. destruct (st_pending _ Hst p Hin) as (_ & _ & Hn). unfold histories. rewrite Hn. by apply Hp.
Qed.

(** Calls that neither submit nor complete. *)
Lemma mapped_steady {A} (op : SM A) mem h s r s' :
  keeping (planned bs U mem h (λ _, 0)) unrelated op → op s = (r, s') → (∀ p, r ≠ Panic p) → kept s s' →
  mapped mem h s → mapped mem h s'.
Proof.
  intros Hop Heq Hnp [_ Hq Ha] [Hk Hs Hact Hp].
  destruct (keeping_run _ _ _ _ _ _ Hop (conj Hs Hp) Heq Hnp) as [[Hs' Hp'] _]. split; [done|done| |done].
  intros id r' Hr'. destruct (Ha id r' Hr') as [(p & Hin & <- & Hpr & _ & _ & _ & Hh)|(r0 & Hr0 & He)].
  - rewrite Hh, Hpr. by apply Hp.
  - rewrite (Hact _ _ Hr0). destruct r0, r'. unfold set_phase in He. simpl in *. congruence.
Qed.

Lemma mapped_submit mem h s prompt g sampler x s' : sched_wf s → histories_in s' →
  submit_with_sampler prompt g sampler s = (Ok x, s') → mapped mem h s → ∃ h', mapped mem h' s'.
Proof.
  intros Hwf Hw Heq [Hk Hs Ha Hp]. pose proof (submit_wp prompt g sampler s Hwf) as Hsub. unfold wp in Hsub.
  rewrite Heq in Hsub. simpl in Hsub. destruct Hsub as (Hwf' & -> & _ & Hact & Hkv & _ & _ & _ & Hz).
  case_decide as Hz0; destruct Hz as [_ Hz].
  - exists h. split; [done|by rewrite Hkv|by rewrite Hact|by rewrite Hz].
  - set (id := next_request s) in *. set (h' := λ i, if decide (i = id) then prompt else h i).
    assert (active s !! id = None) as Hn.
    { apply eq_None_not_Some. intros [r Hr]. apply (st_request _ (sw_static _ Hwf)) in Hr as [_ ?]. unfold id in *. lia. }
    assert (∀ i, i ≠ id → h' i = h i) as Hold by (intros i Hi; unfold h'; by rewrite decide_False).
    exists h'. split.
    + intros i. unfold h'. case_decide; [|done].
      assert (mk_pending id prompt g sampler ∈ pending_requests s') as Hin by (rewrite Hz; apply elem_of_app; right; by left).
      by apply (wi_pending _ Hw) in Hin.
    + rewrite Hkv. eapply sound_regrow; [|done]. intros i Hi. rewrite Hold; [done|]. intros ->.
      apply (st_dom _ (sw_static _ Hwf)) in Hi. rewrite Hn in Hi. by destruct Hi.
    + intros i r. rewrite Hact. intros Hr. rewrite Hold by congruence. by apply Ha.
    + intros p. rewrite Hz. intros [Hin| ->%list_elem_of_singleton]%elem_of_app.
      * rewrite Hold; [by apply Hp|]. destruct (st_pending _ (sw_static _ Hwf) p Hin) as (_ & ? & _). unfold id. lia.
      * simpl. unfold h'. by rewrite decide_True.
Qed.

(** *** A forward *)

(** The slots of the new tokens of the rows hold them after their histories, and no
    other slot changed. *)
Definition row_slot (row : ScheduledSequence) (n : nat) (p : N) (o j : nat) : Prop :=
  j < n ∧ row_block_table row !! ((row_start_position row + j) / bs) = Some p ∧ (row_start_position row + j) mod bs = o.

Record forwarded (mem mem' : Slots) (h : RequestId → list Z) (n : nat) (rows : list ScheduledSequence) : Prop := {
  fw_written : ∀ row p o j, row ∈ rows → row_slot row n p o j →
    mem' p o = Some (take (row_start_position row) (h (row_request_id row)) ++ take (S j) (row_token_ids row));
  fw_frame : ∀ p o, (∀ row j, row ∈ rows → ¬ row_slot row n p o j) → mem' p o = mem p o
}.

(** What is known of a row in flight. *)
Record row_in_flight s (b : ScheduledBatch) (row : ScheduledSequence) (r : Request) (q : SequenceState) : Prop := {
  ri_active : active s !! row_request_id row = Some r;
  ri_sequence : sequences (kv_cache s) !! row_request_id row = Some q;
  ri_committed : committed_tokens q = row_start_position row;
  ri_table : row_block_table row `prefix_of` pages q;
  ri_pages : length (row_block_table row) = div_ceil (row_start_position row + next_n b) (block_size (config (kv_cache s)));
  ri_context : row_context_length row = row_start_position row + next_n b;
  ri_width : length (row_token_ids row) = next_n b;
  ri_some : 0 < next_n b;
  ri_fits : row_fits (batch_kind b) (rq_history r) row;
  ri_capacity : row_start_position row + next_n b ≤ max_sequence_length (config (kv_cache s));
  ri_reserved : ∃ rs, reservations (kv_cache s) !! row_reservation_id row = Some rs ∧ request_id rs = row_request_id row
}.

Lemma flight_row s b row : sched_wf s → in_flight s = Some b → row ∈ batch_sequences b → ∃ r q, row_in_flight s b row r q.
Proof.
  intros [Hst Hfl] Hb Hin. rewrite Hb in Hfl. destruct Hfl as ([_ Hw _ Hrow _] & _).
  destruct (Hrow row Hin) as [(rs & q & Hrs & Hid & Hstart & Hlen & Hctx & Hq & Hpre & Htab) (r & Hr & _ & Hfit)].
  exists r, q. pose proof (Hw row Hin) as Hwid.
  destruct (lk_res _ _ _ _ _ (bw_link _ (proj2 (st_kv _ Hst))) _ _ Hrs) as (_ & q1 & Hq1 & _ & Hc & _ & _ & Hmx & _).
  rewrite Hid in Hq1. assert (q1 = q) as -> by congruence. rewrite Hwid in *.
  assert (row_token_ids row ≠ []) as Hne by (by destruct Hfit).
  split; try done; try congruence; try lia.
  - destruct (row_token_ids row); [done|simpl in *; lia].
  - by exists rs.
Qed.

(** A prefill or decode row is the next piece of its request's history, a verification
    row its last token and a draft. *)
Lemma row_continues s b row r q : row_in_flight s b row r q → batch_kind b ≠ Verify →
  row_start_position row + next_n b ≤ length (rq_history r) ∧
  take (row_start_position row) (rq_history r) ++ row_token_ids row = take (row_start_position row + next_n b) (rq_history r).
Proof.
  intros [_ _ _ _ _ Hctx Hwid _ [_ Hfit] _ _] Hk. destruct (batch_kind b); [| |done].
  - unfold slice in Hfit. case_decide as Hd; [|done]. injection Hfit as Htok. rewrite Hctx in *. split; [lia|].
    rewrite <- Htok, take_take_drop. f_equal. lia.
  - destruct Hfit as (Hl1 & token & Htok & [l Hl]%last_Some). rewrite <- Hwid, Htok. rewrite Hl in *. rewrite length_app in *. simpl in *.
    split; [lia|]. rewrite take_app_length' by lia. by rewrite take_ge by (rewrite length_app; simpl; lia).
Qed.

Lemma row_verifies s b row r q j : row_in_flight s b row r q → batch_kind b = Verify →
  take (row_start_position row) (rq_history r) ++ take (S j) (row_token_ids row) = rq_history r ++ take j (tail (row_token_ids row)).
Proof.
  intros [_ _ _ _ _ _ _ _ Hfit _ _] Hk. rewrite Hk in Hfit. destruct Hfit as (_ & Hstart & token & drafts & -> & [l Hl]%last_Some).
  rewrite Hl in *. rewrite length_app in Hstart. simpl in *. rewrite take_app_length' by lia. by rewrite <- app_assoc.
Qed.

Section Forward.
Context (mem mem' : Slots) (h : RequestId → list Z) (s : Sched) (b : ScheduledBatch).
Context (Hwf : sched_wf s) (Hflight : in_flight s = Some b) (Hm : mapped mem h s).
Notation rows := (batch_sequences b).
Notation n := (next_n b).
Notation m := (kv_cache s).

Lemma size_bs : block_size (config m) = bs.
Proof. apply (fi_size _ _ _ _ _ (proj1 (proj2 (mp_sound _ _ _ Hm)))). Qed.
Lemma bs_pos : 0 < bs.
Proof. rewrite <- size_bs. apply (bw_bs _ (proj2 (st_kv _ (sw_static _ Hwf)))). Qed.

(** A slot to be written is on a page of its own, past what is committed. *)
Lemma written_exclusive row p o j : row ∈ rows → row_slot row n p o j → exclusive m p ∧
  ∀ id q a, sequences m !! id = Some q → pages q !! a = Some p →
    id = row_request_id row ∧ a = (row_start_position row + j) / bs.
Proof.
  intros Hin (Hj & Hp & Ho). destruct (flight_row s b row Hwf Hflight Hin) as (r & q & [_ Hq Hc Hpre _ _ _ _ _ _ _]).
  assert (pages q !! ((row_start_position row + j) / bs) = Some p) as Hpg by (by eapply prefix_lookup_Some).
  assert (exclusive m p) as He.
  { eapply (bw_tail _ (proj2 (st_kv _ (sw_static _ Hwf)))); [exact Hq| |exact Hpg].
    rewrite size_bs, Hc. apply Nat.Div0.div_le_mono. lia. }
  split; [done|]. intros id q' a Hq' Ha.
  destruct (exclusive_unique [] m p id q' a _ q _ (proj1 (st_kv _ (sw_static _ Hwf))) He Hq' Ha Hq Hpg) as [-> ->]. done.
Qed.

(** Different tokens are written to different slots. *)
Lemma written_once row row' p o j j' : row ∈ rows → row' ∈ rows → row_slot row n p o j → row_slot row' n p o j' →
  row = row' ∧ j = j'.
Proof.
  intros Hin Hin' Hs Hs'. pose proof Hs' as (Hj' & Hp' & Ho').
  destruct (flight_row s b row' Hwf Hflight Hin') as (r' & q' & [_ Hq' _ Hpre' _ _ _ _ _ _ _]).
  destruct (written_exclusive row p o j Hin Hs) as [_ Hx].
  destruct (Hx _ q' _ Hq' ltac:(by eapply prefix_lookup_Some)) as [Hid Ha].
  assert (row = row') as <-.
  { destruct Hwf as [_ Hfl]. rewrite Hflight in Hfl. destruct Hfl as ([Hnd _ _ _ _] & _).
    apply list_elem_of_lookup in Hin as [i Hi]. apply list_elem_of_lookup in Hin' as [i' Hi'].
    assert (i = i') as ->; [|congruence]. eapply (NoDup_lookup (map row_request_id rows) i i' (row_request_id row)); [done|..];
      rewrite list_lookup_fmap; [rewrite Hi|rewrite Hi']; simpl; congruence. }
  split; [done|]. destruct Hs as (_ & _ & Ho). pose proof bs_pos.
  pose proof (Nat.div_mod_eq (row_start_position row + j) bs). pose proof (Nat.div_mod_eq (row_start_position row + j') bs).
  rewrite Ha in *. nia.
Qed.

(** Nothing committed or published is written. *)
Lemma committed_untouched id q j p row i : sequences m !! id = Some q → j < committed_tokens q → pages q !! (j / bs) = Some p →
  row ∈ rows → ¬ row_slot row n p (j mod bs) i.
Proof.
  intros Hq Hj Hp Hin Hs. destruct (written_exclusive row p _ i Hin Hs) as [_ Hx]. destruct (Hx _ _ _ Hq Hp) as [-> Ha].
  destruct (flight_row s b row Hwf Hflight Hin) as (r & q' & [_ Hq' Hc _ _ _ _ _ _ _ _]).
  assert (q' = q) as -> by congruence. destruct Hs as (_ & _ & Ho). pose proof bs_pos.
  pose proof (Nat.div_mod_eq (row_start_position row + i) bs). pose proof (Nat.div_mod_eq j bs). rewrite Ho, <- Ha in *. lia.
Qed.

Context (Hfw : forwarded mem mem' h n rows).

Lemma in_pages_after id q k : sequences m !! id = Some q → k ≤ committed_tokens q → in_pages bs mem (pages q) (h id) k →
  in_pages bs mem' (pages q) (h id) k.
Proof.
  intros Hq Hk Hi j Hj. destruct (Hi j Hj) as (p & Hp & Hslot). exists p. split; [done|].
  rewrite (fw_frame _ _ _ _ _ Hfw); [done|]. intros row i Hin. eapply committed_untouched; [exact Hq|lia|done..].
Qed.

Lemma mapped_forward : mapped mem' h s.
Proof.
  destruct Hm as [Hk Hs Ha Hp]. split; [done| |done|done].
  destruct Hs as [Hkv [[Hsz Hseq Hw] Hb]]. split; [done|]. split; [split; [done|..]|].
  - intros id q Hq. destruct (Hseq _ _ Hq) as [Hl Hi Hr Hc]. split; [done| |done|done]. by eapply in_pages_after.
  - intros rid r q Hr Hq. destruct (Hw _ _ _ Hr Hq) as [Hl Hi]. split; [done|]. eapply in_pages_after; [done| |done].
    destruct (kv_owns _ Hkv _ _ Hr) as (q' & Hq' & _ & Hc). assert (q' = q) as -> by congruence. lia.
  - intros p bk Hbl. destruct (Hb _ _ Hbl) as (pre & Hpre & Hup & Hlen & Hslot). exists pre. split_and!; [done..|].
    intros o Ho. rewrite (fw_frame _ _ _ _ _ Hfw); [by apply Hslot|]. intros row j Hin Hs.
    destruct (written_exclusive row p o j Hin Hs) as [[_ He] _]. congruence.
Qed.

(** The slots of a row, committed and new. *)
Lemma row_pages row r q : row ∈ rows → row_in_flight s b row r q →
  in_pages bs mem' (pages q) (take (row_start_position row) (rq_history r) ++ row_token_ids row) (row_start_position row + n).
Proof.
  intros Hin [Hr Hq Hc Hpre Htab _ Hw _ _ _ _]. pose proof mapped_forward as [_ [_ [[_ Hseq _] _]] Hact _].
  destruct (Hseq _ _ Hq) as [Hl Hi _ _]. rewrite (Hact _ _ Hr), Hc in *. set (start := row_start_position row) in *.
  intros j Hj. destruct (decide (j < start)) as [Hlt|Hge].
  - destruct (Hi j Hlt) as (p & Hp & Hslot). exists p. split; [done|]. rewrite Hslot. f_equal.
    rewrite take_app_le by (rewrite length_take; lia). rewrite take_take. f_equal. lia.
  - pose proof bs_pos. destruct (lookup_lt_is_Some_2 (row_block_table row) (j / bs)) as [p Hp].
    { rewrite Htab, size_bs. apply div_ceil_lt; [done|]. pose proof (Nat.div_mod_eq j bs). nia. }
    exists p. split; [by eapply prefix_lookup_Some|].
    rewrite (fw_written _ _ _ _ _ Hfw row p (j mod bs) (j - start) Hin).
    + f_equal. rewrite (mp_active _ _ _ Hm _ _ Hr). fold start.
      rewrite take_app_ge by (rewrite length_take; lia). rewrite length_take, Nat.min_l by lia. do 2 f_equal. lia.
    + split; [lia|]. fold start. by replace (start + (j - start)) with j by lia.
Qed.
End Forward.

(** *** Completing a batch *)
Section Completing.
Context (mem : Slots) (h : RequestId → list Z) (Hh : ∀ id, U (h id)) (W : KvReservationId → nat).

(** The histories have at least what the pages are filled with. *)
Definition committing s : Prop :=
  sound bs U mem h W (kv_cache s) ∧ ∀ id r, active s !! id = Some r → h id `prefix_of` rq_history r.
Notation commits := (keeping committing unrelated).

Lemma commits_kv {A} (op : M PagedKvCacheManager PagedKvError A) : keeping (sound bs U mem h W) unrelated op → commits (kv op : SM A).
Proof.
  intros Hop s [Hs Hp]. specialize (Hop _ Hs). unfold kv, committing. destruct (op (kv_cache s)) as [[a|e|p] m]; simpl in *; tauto.
Qed.

Lemma commits_modify f : (∀ s, kv_cache (f s) = kv_cache s ∧ ∀ id r, active (f s) !! id = Some r → active s !! id = Some r) →
  commits (mmodify f : SM unit).
Proof.
  intros Hf. apply keeping_modify. intros s [Hs Hp]. destruct (Hf s) as [Hk Ha]. split; [|done]. unfold committing. rewrite Hk.
  split; [done|]. intros id r Hr. by apply Hp, Ha.
Qed.

Lemma commits_put id r : h id `prefix_of` rq_history r → commits (put_active id r : SM unit).
Proof.
  intros Hr. apply keeping_modify. intros s [Hs Hp]. split; [|done]. split; [done|]. intros i r'. simpl.
  rewrite lookup_insert. case_decide; [subst; by intros [= <-]|apply Hp].
Qed.

(** Going on with an active request. *)
Lemma commits_with {A} id p (k : Request → SM A) : (∀ r, h id `prefix_of` rq_history r → commits (k r)) →
  commits (let! s := mget in let! r := mexpect p (active s !! id) in k r).
Proof.
  intros Hk. refine (keeping_read _ _ _ _). intros s [Hs Hp] s1 Hs1. unfold mbind', mexpect.
  destruct (active s !! id) as [r|] eqn:Hr; [|done]. simpl. by apply (Hk r (Hp id r Hr)).
Qed.

#[local] Hint Extern 0 (keeping committing unrelated (mmodify _)) => apply commits_modify; intros []; split; [reflexivity|auto] : keep.

Lemma commits_finish id eos : commits (finish_request id eos : SM unit).
Proof.
  unfold finish_request. apply commits_with. intros r Hr. refine (keeping_bind _ _ _ _ _ _).
  - apply commits_modify. intros s. split; [done|]. simpl. intros i r'. rewrite lookup_delete_Some. tauto.
  - intros _. refine (keeping_bind _ _ _ _ _ _); [apply commits_kv; by apply safe_remove|intros _]. keep.
Qed.

Lemma commits_complete_row e : commits (complete_row e : SM unit).
Proof.
  unfold complete_row. apply commits_with. intros r Hr. case_decide; [by apply commits_put|].
  refine (keeping_bind _ _ _ _ _ _); [apply commits_put; simpl; by apply prefix_app_r|intros _].
  destruct (_ || _); [apply commits_finish|]. apply commits_put. simpl. by apply prefix_app_r.
Qed.

Lemma commits_publish row : commits (publish_row row : SM unit).
Proof.
  unfold publish_row. apply commits_with. intros r Hr. apply commits_kv. by apply safe_register.
Qed.

Lemma commits_complete id tokens s b r s' : in_flight s = Some b →
  (∀ row, row ∈ batch_sequences b → length (row_token_ids row) ≤ W (row_reservation_id row)) → committing s →
  complete_batch id tokens s = (r, s') → (∀ p, r ≠ Panic p) → committing s'.
Proof.
  intros Hb HW Hs Heq Hnp. unfold complete_batch in Heq.
  assert (take_batch id s = (Ok b, set_in_flight None s) ∨ ∃ e, take_batch id s = (Err e, s)) as [Ht|[e Ht]].
  { unfold take_batch, mbind', mget, mmodify, mok_or. rewrite Hb. simpl. case_decide; [right|by left].
    eexists. unfold mthrow. simpl. f_equal. by destruct s; simpl in *; subst. }
  2:{ unfold mbind' in Heq. rewrite Ht in Heq. by injection Heq as <- <-. }
  rewrite (bind_ok _ _ _ _ _ Ht) in Heq. revert Heq.
  match goal with |- ?op ?st = _ → _ => assert (commits op) as Hk; [|intros Heq; eapply (keeping_run committing unrelated op st);
    [exact Hk|exact Hs|exact Heq|exact Hnp]] end.
  refine (keeping_read _ _ _ _). intros s1 Hs1. case_decide; [unfold put_back; keep|].
  destruct (existsb _ _); [unfold put_back; keep|]. destruct (ownership_error _ _ _); [unfold put_back; keep|].
  refine (keeping_bind _ _ _ _ _ _).
  - refine (keeping_catch _ _ _ _ _ _); [|unfold put_back; keep]. apply commits_kv. apply safe_prefixes; [done|].
    intros x (row & -> & Hin)%list_elem_of_fmap. by apply HW.
  - intros _. refine (keeping_bind _ _ _ _ _ _).
    + apply keeping_for; [apply _|]. intros. apply commits_publish.
    + intros _. apply keeping_for; [apply _|]. intros. apply commits_complete_row.
Qed.
End Completing.

(** What a row's forward leaves, in terms of any longer history. *)
Lemma row_progress mem mem' h s b P h' : sched_wf s → in_flight s = Some b → mapped mem h s →
  forwarded mem mem' h (next_n b) (batch_sequences b) → (∀ id, h id `prefix_of` h' id) →
  (∀ id, id ∉ map row_request_id (batch_sequences b) → P id = 0) →
  (∀ row r, row ∈ batch_sequences b → active s !! row_request_id row = Some r →
     P (row_request_id row) ≤ next_n b ∧ row_start_position row + P (row_request_id row) ≤ length (h' (row_request_id row)) ∧
     take (row_start_position row + P (row_request_id row)) (take (row_start_position row) (rq_history r) ++ row_token_ids row) =
     take (row_start_position row + P (row_request_id row)) (h' (row_request_id row))) →
  sound bs U mem' h' (progress (kv_cache s) P) (kv_cache s).
Proof.
  intros Hwf Hb Hm Hfw Hh' HP Hrow. pose proof (mapped_forward _ _ _ _ _ Hwf Hb Hm Hfw) as Hm'.
  pose proof (mp_sound _ _ _ Hm') as Hs. eapply sound_progress; [|exact Hs]. intros id q Hq. split; [done|].
  destruct Hs as [_ [[_ Hseq _] _]]. destruct (sequence_regrow mem' h h' id q (Hh' id) (Hseq _ _ Hq)) as [Hl Hi _ _].
  destruct (decide (id ∈ map row_request_id (batch_sequences b))) as [Hin|Hin].
  2:{ rewrite (HP id Hin), Nat.add_0_r. by split. }
  apply list_elem_of_fmap in Hin as (row & -> & Hin). destruct (flight_row s b row Hwf Hb Hin) as (r & q' & Hri).
  pose proof (row_pages _ _ _ _ _ Hwf Hb Hm Hfw row r q' Hin Hri) as Hpg. destruct Hri as [Hr Hq' Hc _ _ _ _ _ _ _ _].
  assert (q' = q) as -> by congruence. rewrite Hc. destruct (Hrow row r Hin Hr) as (Hle & Hlen & Htk). split; [done|].
  intros j Hj. destruct (Hpg j) as (p & Hp & Hslot); [lia|]. exists p. split; [done|]. rewrite Hslot. f_equal.
  apply (f_equal (take (S j))) in Htk. rewrite !take_take, !Nat.min_l in Htk by lia. done.
Qed.

(** Completing a prefill or decode batch. *)
Lemma mapped_complete mem mem' h s b tokens s1 s' : sched_wf s → in_flight s = Some b → batch_kind b ≠ Verify →
  mapped mem h s → forwarded mem mem' h (next_n b) (batch_sequences b) →
  complete_batch (batch_id b) tokens s = (Ok tt, s1) → sched_wf s' → histories_in s' →
  kv_cache s' = kv_cache s1 → pending_requests s' = pending_requests s1 →
  (∀ id r, active s' !! id = Some r → ∃ r1, active s1 !! id = Some r1 ∧ rq_history r = rq_history r1) →
  ∃ h', mapped mem' h' s'.
Proof.
  intros Hwf Hb Hk Hm Hfw Heq Hwf' Hw Hkv Hpd Hact.
  set (P := λ id, if decide (id ∈ map row_request_id (batch_sequences b)) then next_n b else 0).
  assert (sound bs U mem' h (progress (kv_cache s) P) (kv_cache s)) as Hs.
  { eapply row_progress; [done..| |]; [intros id Hid; unfold P; by rewrite decide_False|].
    intros row r Hin Hr. unfold P. rewrite decide_True by (by apply list_elem_of_fmap_2). split; [lia|].
    destruct (flight_row s b row Hwf Hb Hin) as (r' & q & Hri). pose proof (ri_active _ _ _ _ _ Hri).
    assert (r' = r) as -> by congruence. rewrite (mp_active _ _ _ Hm _ _ Hr). destruct (row_continues _ _ _ _ _ Hri Hk) as [Hle Htk].
    split; [done|]. by rewrite Htk, take_take, Nat.min_id. }
  assert (committing mem' h (progress (kv_cache s) P) s1) as [Hs1 Hp1].
  { eapply commits_complete; [apply (mp_known _ _ _ Hm)|exact Hb| | |exact Heq|done].
    - intros row Hin. destruct (flight_row s b row Hwf Hb Hin) as (r & q & [_ _ _ _ _ _ Hwid _ _ _ (rs & Hrs & Hid)]).
      unfold progress. rewrite Hrs, Hid, Hwid. unfold P. by rewrite decide_True by (by apply list_elem_of_fmap_2).
    - split; [exact Hs|]. intros id r Hr. by rewrite (mp_active _ _ _ Hm _ _ Hr). }
  pose proof (complete_batch_wp (batch_id b) tokens s Hwf ltac:(intros b' Hb'; congruence)) as Hcp. unfold wp in Hcp.
  rewrite Heq in Hcp. simpl in Hcp. destruct Hcp as (_ & b' & _ & _ & [_ Hpend _ _ _ _]). simpl in Hpend.
  exists (histories h s'). eapply mapped_after; [by destruct Hwf'|done|apply (mp_known _ _ _ Hm)|by rewrite Hkv| |].
  - intros id r Hr. destruct (Hact _ _ Hr) as (r1 & Hr1 & ->). by apply Hp1.
  - rewrite Hpd, Hpend. apply (mp_pending _ _ _ Hm).
Qed.

(** *** Verification *)
Lemma take_flight s b : in_flight s = Some b → take_batch (batch_id b) s = (Ok b, set_in_flight None s).
Proof.
  intros Hb. unfold take_batch, mbind', mget, mmodify, mok_or. rewrite Hb. simpl. by rewrite decide_False by (by intros Hx).
Qed.

(** A verified row: as many tokens as it produced are committed. *)
Lemma verify_row_sound mem h W width argmax i row preds produced r s out s' : (∀ id, U (h id)) →
  active s !! row_request_id row = Some r → slice (i * width) ((i + 1) * width) argmax = Some preds →
  produces width r row preds produced → length produced ≤ W (row_reservation_id row) →
  h (row_request_id row) = rq_history r ++ produced → sound bs U mem h W (kv_cache s) →
  length (rq_generated_token_ids r) ≤ max_new_tokens (rq_generation r) →
  verify_row width argmax (i, row) s = (Ok out, s') → sound bs U mem h W (kv_cache s').
Proof.
  intros Hh Hr Hsl Hprod HW Hhist Hs Hmax Heq.
  enough (wp (verify_row width argmax (i, row)) (λ x s', match x with Ok _ => sound bs U mem h W (kv_cache s') | _ => True end) s) as Hw
    by (unfold wp in Hw; by rewrite Heq in Hw).
  assert (∀ {A} (op : M PagedKvCacheManager PagedKvError A) (Q : res ContinuousBatchError A → Sched → Prop) s,
    keeping (sound bs U mem h W) unrelated op → sound bs U mem h W (kv_cache s) →
    (∀ a m, sound bs U mem h W m → Q (Ok a) (set_kv_cache m s)) → (∀ e m, Q (Err e) m) → (∀ p m, Q (Panic p) m) → wp (kv op) Q s) as Hkeep.
  { intros A op Q s0 Hop Hm HOk HErr Hp. apply wp_kv. unfold wp. specialize (Hop (kv_cache s0) Hm).
    destruct (op (kv_cache s0)) as [[a|e|p] m]; simpl in *; [apply HOk; tauto|done|done]. }
  unfold verify_row. wp_step. cbn [fst snd]. rewrite Hsl. simpl. wp_step. do 3 wp_step. rewrite Hr. simpl. wp_step.
  wp_step. unfold usize_sub at 1. rewrite decide_True by lia. simpl. wp_step.
  wp_step. apply wp_lift. rewrite Hprod.
  wp_step. destruct (usize_sub width 1); simpl; [|by apply wp_panic]. wp_step.
  wp_step. destruct (checked_add _ (drafted_tokens s) _) as [drafted|]; simpl; [|by apply wp_panic].
  wp_step. do 2 wp_step. wp_step. destruct (usize_sub (length produced) 1); simpl; [|by apply wp_panic].
  wp_step. wp_step. destruct (checked_add _ (accepted_draft_tokens s) _) as [accepted|]; simpl; [|by apply wp_panic].
  wp_step. do 2 wp_step. wp_step. apply Hkeep; [by apply safe_partial|done| |done|done].
  intros x m1 Hm1. do 2 wp_step. wp_step. simpl. rewrite Hr. simpl. wp_step. unfold put_active at 1. do 2 wp_step. wp_step.
  destruct (last produced) as [final|]; simpl; [|by apply wp_panic]. wp_step.
  wp_step. apply Hkeep; [apply safe_register; [done|done|by rewrite Hhist]|done| |done|done].
  intros [] m2 Hm2. wp_step. destruct (_ || _).
  - unfold finish_request. do 2 wp_step. wp_step. simpl. rewrite lookup_insert_eq. simpl. wp_step. do 2 wp_step.
    wp_step. apply Hkeep; [by apply safe_remove|done| |done|done]. intros [] m3 Hm3. wp_step. by apply wp_ret.
  - unfold put_active. wp_step. by apply wp_ret.
Qed.

Lemma verify_loop_sound mem h W id n argmax rows i0 s outs s' : (∀ id, U (h id)) →
  static_wf s → rows_wf (λ _, InFlight id) Verify n rows s → 0 < n → (i0 + length rows) * n ≤ length argmax →
  sound bs U mem h W (kv_cache s) →
  (∀ i row r tokens, rows !! i = Some row → active s !! row_request_id row = Some r →
     outs !! i = Some (row_request_id row, tokens) →
     length tokens ≤ W (row_reservation_id row) ∧ h (row_request_id row) = rq_history r ++ tokens) →
  mmap (imap (λ i, pair (i0 + i)) rows) (verify_row n argmax) s = (Ok outs, s') → sound bs U mem h W (kv_cache s').
Proof.
  intros Hh. revert i0 s outs. induction rows as [|row rows IH]; intros i0 s outs Hst Hrows Hn Hlen Hs Hout; simpl.
  { by intros [= <- <-]. }
  rewrite Nat.add_0_r. simpl in Hlen.
  assert (∃ preds, slice (i0 * n) ((i0 + 1) * n) argmax = Some preds ∧ length preds = n) as (preds & Hsl & Hpl).
  { unfold slice. rewrite decide_True by nia. eexists. split; [done|]. rewrite length_take, length_drop. nia. }
  pose proof (verify_row_wp id n i0 row rows argmax preds s Hst Hrows Hn Hsl Hpl) as Hw. unfold wp in Hw.
  unfold mbind' at 1. destruct (verify_row n argmax (i0, row) s) as [[out|e|p] s1] eqn:Erow; simpl in Hw; [|done|discriminate].
  destruct Hw as (Hst1 & Hrows1 & r & tokens & Hr & Hprod & -> & Hvf).
  rewrite (imap_ext _ (λ i, pair (S i0 + i))) by (intros; simpl; f_equal; lia).
  unfold mbind'. destruct (mmap _ _ s1) as [[more|e|p] s2] eqn:Emore; [|discriminate..]. unfold mret. intros [= <- <-].
  destruct (Hout 0 row r tokens eq_refl Hr eq_refl) as [HW Hhist].
  pose proof (proj1 (st_request _ Hst _ _ Hr)) as Hrw. pose proof (rw_generated _ _ Hrw).
  eapply (IH (S i0) s1 more); [done|done|done|simpl; lia| | |exact Emore].
  - eapply verify_row_sound; [done|exact Hr|exact Hsl|exact Hprod|exact HW|done|done|lia|exact Erow].
  - intros i row' r' tokens' Hi Hr' Ho. apply (Hout (S i) row'); [done| |done].
    rewrite <- Hr'. symmetry. apply (vf_rest _ _ _ _ Hvf).
    pose proof (rs_nodup _ _ _ _ _ Hrows) as Hnd. simpl in Hnd. apply NoDup_cons in Hnd as [Hni _].
    intros He. apply Hni. rewrite <- He. apply list_elem_of_fmap_2. by eapply list_elem_of_lookup_2.
Qed.

(** The accepted drafts are the predictions before them. *)
Lemma produced_slots c width (r : Request) row preds tokens : request_wf c r → length (row_token_ids row) = width → length preds = width →
  0 < width → row_fits Verify (rq_history r) row → produces width r row preds tokens →
  take (row_start_position row + length tokens) (take (row_start_position row) (rq_history r) ++ row_token_ids row) =
  take (row_start_position row + length tokens) (rq_history r ++ tokens).
Proof.
  intros Hrw Hwid Hpl Hpos (_ & Hstart & token & drafts & Htok & [l Hl]%last_Some) Hprod. pose proof (rw_generated _ _ Hrw).
  destruct (accept_draft_spec width (max_new_tokens (rq_generation r) - length (rq_generated_token_ids r)) (rq_eos r)
    (row_token_ids row) preds 0 []) as (k & Heq & Hk & _ & Hacc & _); [done|done|done|lia|destruct preds; [simpl in *; lia|done]|].
  unfold produces in Hprod. rewrite Heq in Hprod. injection Hprod as <-. simpl.
  rewrite length_take, Nat.min_l by lia. rewrite Htok in *. rewrite Hl in *. rewrite length_app in Hstart. simpl in *.
  rewrite (take_app_length' l) by lia. rewrite <- app_assoc. simpl. rewrite !take_app_ge by lia.
  replace (row_start_position row + k - length l) with (S (k - 1)) by lia. simpl. do 2 f_equal.
  apply list_eq. intros i. destruct (decide (i < k - 1)) as [Hi|Hi].
  2:{ rewrite !lookup_ge_None_2; [done|..]; rewrite ?length_take; lia. }
  rewrite !lookup_take_lt by lia. destruct (lookup_lt_is_Some_2 preds i) as [p Hp]; [lia|].
  rewrite Hp. destruct (Hacc i p) as [_ Hrow]; [lia|done|]. by rewrite Nat.add_1_r in Hrow.
Qed.

Section Verified.
Context (s s' : Sched) (b : ScheduledBatch) (argmax : list Z) (outs : list (RequestId * list Z)).
Context (Hwf : sched_wf s) (Hb : in_flight s = Some b) (Hk : batch_kind b = Verify) (Hlen : length argmax = batch_size b * next_n b).
Context (Hall : verified_all (next_n b) argmax 0 (set_in_flight None s) (batch_sequences b) outs s').
Notation rows := (batch_sequences b).

(** The tokens of a request in the batch; none for the others. *)
Definition verified_tokens (id : RequestId) : list Z := default [] ((list_to_map outs : gmap N (list Z)) !! id).

Lemma verified_ids : outs.*1 = map row_request_id rows.
Proof.
  destruct Hall as [_ _ Hlo Hrow _ _]. apply list_eq. intros i. rewrite !list_lookup_fmap.
  destruct (rows !! i) as [row|] eqn:Hi; simpl.
  - destruct (Hrow i row Hi) as (r & preds & tokens & _ & _ & _ & -> & _). done.
  - rewrite lookup_ge_None_2; [done|]. rewrite Hlo. by apply lookup_ge_None_1.
Qed.

Lemma flight_nodup : NoDup (map row_request_id rows).
Proof. pose proof (sw_flight _ Hwf) as Hfl. rewrite Hb in Hfl. by destruct Hfl as ([Hnd _ _ _ _] & _). Qed.

Lemma verified_tokens_row i row tokens : outs !! i = Some (row_request_id row, tokens) → verified_tokens (row_request_id row) = tokens.
Proof.
  intros Ho. unfold verified_tokens. rewrite (elem_of_list_to_map_1 outs (row_request_id row) tokens); [done| |].
  - rewrite verified_ids. apply flight_nodup.
  - by eapply list_elem_of_lookup_2.
Qed.

Lemma verified_tokens_other id : id ∉ map row_request_id rows → verified_tokens id = [].
Proof. intros Hid. unfold verified_tokens. by rewrite not_elem_of_list_to_map_1 by (by rewrite verified_ids). Qed.

Lemma verified_request row r : row ∈ rows → active s !! row_request_id row = Some r → ∃ i preds,
  rows !! i = Some row ∧ length preds = next_n b ∧ slice (i * next_n b) ((i + 1) * next_n b) argmax = Some preds ∧
  produces (next_n b) r row preds (verified_tokens (row_request_id row)) ∧
  active s' !! row_request_id row = (landing r (row_request_id row) (verified_tokens (row_request_id row))).1 ∧
  ∀ f, (landing r (row_request_id row) (verified_tokens (row_request_id row))).2 = Some f → f ∈ finished s'.
Proof.
  destruct Hall as [_ _ _ Hrow _ Hfin]. intros [i Hi]%list_elem_of_lookup Hr.
  destruct (Hrow i row Hi) as (r' & preds & tokens & Hr' & Hsl & Hp & Ho & Ha). simpl in Hr'.
  assert (r' = r) as -> by congruence. exists i, preds. rewrite (verified_tokens_row i row tokens Ho). split_and!; [done| |done|done|done|].
  - unfold slice in Hsl. case_decide; [|done]. injection Hsl as <-. rewrite length_take, length_drop. lia.
  - intros f Hf. rewrite Hfin. apply elem_of_app. right. apply list_elem_of_omap. exists (row_request_id row, tokens).
    split; [by eapply list_elem_of_lookup_2|]. simpl. by rewrite Hr.
Qed.

Section Memory.
Context (mem mem' : Slots) (h : RequestId → list Z) (Hm : mapped mem h s) (Hw : histories_in s').
Definition longer (id : RequestId) : list Z := h id ++ verified_tokens id.

Lemma longer_known id : U (longer id).
Proof.
  unfold longer. destruct (decide (id ∈ map row_request_id rows)) as [Hin|Hin].
  2:{ rewrite (verified_tokens_other id Hin), app_nil_r. apply (mp_known _ _ _ Hm). }
  apply list_elem_of_fmap in Hin as (row & -> & Hin). destruct (flight_row s b row Hwf Hb Hin) as (r & q & [Hr _ _ _ _ _ _ _ _ _ _]).
  rewrite (mp_active _ _ _ Hm _ _ Hr). destruct (verified_request row r Hin Hr) as (i & preds & _ & _ & _ & _ & Ha & Hf).
  unfold landing in Ha, Hf. destruct (_ || _); simpl in *.
  - pose proof (wi_finished _ Hw _ (Hf _ eq_refl)) as Hu. simpl in Hu.
    by rewrite (rw_history _ _ (proj1 (st_request _ (sw_static _ Hwf) _ _ Hr))), <- app_assoc.
  - by pose proof (wi_active _ Hw _ _ Ha).
Qed.

Lemma longer_progress : forwarded mem mem' h (next_n b) rows →
  sound bs U mem' longer (progress (kv_cache s) (λ id, length (verified_tokens id))) (kv_cache s).
Proof.
  intros Hfw. eapply row_progress; [done..|by intros id; exists (verified_tokens id)|intros id Hid; by rewrite verified_tokens_other|].
  intros row r Hin Hr. destruct (flight_row s b row Hwf Hb Hin) as (r' & q & [Hr' _ _ _ _ _ Hwid Hpos Hfit _ _]).
  assert (r' = r) as -> by congruence. destruct (verified_request row r Hin Hr) as (i & preds & _ & Hpl & _ & Hp & _).
  pose proof (proj1 (st_request _ (sw_static _ Hwf) _ _ Hr)) as Hrw. rewrite Hk in Hfit.
  destruct (produces_facts _ _ _ _ _ _ Hrw Hwid Hpl Hpos Hp) as [Hle _]. unfold longer. rewrite (mp_active _ _ _ Hm _ _ Hr).
  split; [lia|]. split; [destruct Hfit as (_ & Hstart & _); rewrite length_app; lia|].
  by eapply produced_slots.
Qed.

Lemma verified_sound : complete_verify_batch (batch_id b) argmax s = (Ok outs, s') →
  sound bs U mem' longer (progress (kv_cache s) (λ id, length (verified_tokens id))) (kv_cache s) →
  sound bs U mem' longer (progress (kv_cache s) (λ id, length (verified_tokens id))) (kv_cache s').
Proof.
  intros Heq Hs. revert Heq. unfold complete_verify_batch. rewrite (bind_ok _ _ _ _ _ (take_flight s b Hb)).
  rewrite decide_False by (by intros [?|?]). pose proof (sw_flight _ Hwf) as Hfl. rewrite Hb in Hfl.
  destruct Hfl as (Hrows & Hne & _). rewrite Hk in Hrows.
  assert (0 < next_n b) as Hpos.
  { destruct rows as [|row rest] eqn:Er; [done|]. destruct (flight_row s b row Hwf Hb) as (r & q & Hri); [rewrite Er; by left|].
    apply (ri_some _ _ _ _ _ Hri). }
  apply (verify_loop_sound mem' longer _ (batch_id b) (next_n b) argmax rows 0 (set_in_flight None s)); try done.
  - apply longer_known.
  - by apply static_flight, Hwf.
  - destruct Hrows. by split.
  - simpl. unfold batch_size in Hlen. lia.
  - intros i row r tokens Hi Hr Ho. simpl in Hr. pose proof (list_elem_of_lookup_2 _ _ _ Hi) as Hin.
    destruct (flight_row s b row Hwf Hb Hin) as (r' & q & [_ _ _ _ _ _ _ _ _ _ (rs & Hrs & Hid)]).
    unfold progress. rewrite Hrs, Hid. unfold longer. rewrite (verified_tokens_row i row tokens Ho), (mp_active _ _ _ Hm _ _ Hr). split; done.
Qed.

Lemma longer_active id r : active s' !! id = Some r → longer id `prefix_of` rq_history r.
Proof.
  destruct Hall as [_ _ _ _ Hrest _]. intros Hr'. unfold longer. destruct (decide (id ∈ map row_request_id rows)) as [Hin|Hin].
  - apply list_elem_of_fmap in Hin as (row & -> & Hin). destruct (flight_row s b row Hwf Hb Hin) as (r0 & q & [Hr _ _ _ _ _ _ _ _ _ _]).
    destruct (verified_request row r0 Hin Hr) as (i & preds & _ & _ & _ & _ & Ha & _). rewrite (mp_active _ _ _ Hm _ _ Hr).
    unfold landing in Ha. rewrite Ha in Hr'. destruct (_ || _); [done|]. by injection Hr' as <-.
  - rewrite (verified_tokens_other id Hin), app_nil_r. rewrite (proj1 (Hrest id Hin)) in Hr'. simpl in Hr'. by rewrite (mp_active _ _ _ Hm _ _ Hr').
Qed.

Lemma longer_pending p : p ∈ pending_requests s' → longer (pr_id p) = pr_prompt_token_ids p.
Proof.
  destruct Hall as [_ Hpd _ _ _ _]. simpl in Hpd. rewrite Hpd. intros Hp. unfold longer. rewrite verified_tokens_other, app_nil_r; [by apply (mp_pending _ _ _ Hm)|].
  intros Hin. apply list_elem_of_fmap in Hin as (row & Hid & Hin). destruct (flight_row s b row Hwf Hb Hin) as (r & q & [Hr _ _ _ _ _ _ _ _ _ _]).
  destruct (st_pending _ (sw_static _ Hwf) p Hp) as (_ & _ & Hn). congruence.
Qed.
End Memory.
End Verified.

Lemma mapped_verify mem mem' h s b argmax outs s' : sched_wf s → in_flight s = Some b →
  mapped mem h s → forwarded mem mem' h (next_n b) (batch_sequences b) →
  complete_verify_batch (batch_id b) argmax s = (Ok outs, s') → histories_in s' → ∃ h', mapped mem' h' s'.
Proof.
  intros Hwf Hb Hm Hfw Heq Hw. pose proof (complete_verify_batch_wp (batch_id b) argmax s Hwf) as Hcv. unfold wp in Hcv.
  rewrite Heq in Hcv. simpl in Hcv. destruct Hcv as (Hwf' & b' & Hb' & _ & Hk & Hlen & Hall).
  assert (b' = b) as -> by congruence. exists (histories (longer outs h) s'). eapply mapped_after; [by destruct Hwf'|done|..].
  - intros id. eapply (longer_known s s'); eauto.
  - eapply (verified_sound s s'); eauto. eapply (longer_progress s s'); eauto.
  - intros id r. eapply (longer_active s s'); eauto.
  - intros p. eapply (longer_pending s s'); eauto.
Qed.
End Mapped.
