(* ===== verification/ContinuousBatchModes.v ===== *)
(** * Modes of the scheduler

    What stays off stays off: a scheduler without speculation, a scheduler without
    preemption and prefix caching, and speculation for greedy requests only.

    While [set_speculative_decoding] has not been called, no method turns
    speculation on and [schedule] never builds a verification batch.  [plainly Q m]
    says so of a method [m] whose results satisfy [Q]; it composes along the monad. *)
From S2P Require Import Prelude PagedKv ContinuousBatch ContinuousBatchCalls PagedKvInv PagedKvUnshared.
Open Scope nat_scope.
Open Scope m_scope.

Section Plain.
Context {TokenSampler : Type}.
Notation Sched := (@ContinuousBatchScheduler TokenSampler).
Notation SM := (M Sched ContinuousBatchError).

Definition plainly {A} (Q : A → Prop) (m : SM A) : Prop := ∀ s, speculative s = None →
  speculative (m s).2 = None ∧ match (m s).1 with Ok a => Q a | _ => True end.

Notation anything := (λ _, True).

Lemma plainly_ret {A} (Q : A → Prop) a : Q a → plainly Q (mret a).
Proof. by intros ? s. Qed.
Lemma plainly_throw {A} (Q : A → Prop) e : plainly Q (mthrow e).
Proof. by intros s. Qed.
Lemma plainly_panic {A} (Q : A → Prop) p : plainly Q (mpanic p).
Proof. by intros s. Qed.
Lemma plainly_get : plainly (λ s, speculative s = None) mget.
Proof. by intros s. Qed.
Lemma plainly_modify f : (∀ s, speculative (f s) = speculative s) → plainly anything (mmodify f).
Proof. intros Hf s Hs. simpl. by rewrite Hf. Qed.
Lemma plainly_lift {A} (r : res ContinuousBatchError A) : plainly anything (mlift r).
Proof. intros s Hs. simpl. by destruct r. Qed.
Lemma plainly_expect {A} p (o : option A) : plainly anything (mexpect p o).
Proof. intros s Hs. by destruct o. Qed.
Lemma plainly_ok_or {A} (o : option A) e : plainly anything (mok_or o e).
Proof. intros s Hs. by destruct o. Qed.
Lemma plainly_kv {A} (m : M PagedKvCacheManager PagedKvError A) : plainly anything (kv m).
Proof. intros s Hs. simpl. by destruct (m (kv_cache s)) as [[] ?]. Qed.

Lemma plainly_bind {A B} (Q : A → Prop) (Q' : B → Prop) (m : SM A) (k : A → SM B) :
  plainly Q m → (∀ a, Q a → plainly Q' (k a)) → plainly Q' (mbind' m k).
Proof.
  intros Hm Hk s Hs. unfold mbind'. destruct (Hm s Hs) as [Hs' HQ]. destruct (m s) as [[a|e|p] s']; simpl in *.
  - by apply Hk.
  - done.
  - done.
Qed.

Lemma plainly_catch {A} (Q : A → Prop) (m : SM A) h :
  plainly Q m → (∀ e, plainly Q (h e)) → plainly Q (mcatch m h).
Proof.
  intros Hm Hh s Hs. unfold mcatch. destruct (Hm s Hs) as [Hs' HQ]. destruct (m s) as [[a|e|p] s']; simpl in *; [done| |done].
  by apply Hh.
Qed.

Lemma plainly_any {A} (Q : A → Prop) (m : SM A) : plainly Q m → plainly anything m.
Proof. intros Hm s Hs. destruct (Hm s Hs). split; [done|]. by destruct (m s).1. Qed.

Lemma plainly_for {A} (l : list A) (body : A → SM unit) :
  (∀ x, plainly anything (body x)) → plainly anything (mfor l body).
Proof.
  intros Hb. induction l; simpl; [by apply plainly_ret|]. by eapply plainly_bind; [apply Hb|].
Qed.

Lemma plainly_map {A B} (l : list A) (body : A → SM B) :
  (∀ x, plainly anything (body x)) → plainly anything (mmap l body).
Proof.
  intros Hb. induction l; simpl; [by apply plainly_ret|]. eapply plainly_bind; [apply Hb|].
  intros b _. eapply plainly_bind; [done|]. intros bs _. by apply plainly_ret.
Qed.
End Plain.
Notation anything := (λ _, True).

Create HintDb plain.
#[export] Hint Resolve plainly_throw plainly_panic plainly_get plainly_lift plainly_expect plainly_ok_or
  plainly_kv plainly_for plainly_map : plain.
#[export] Hint Extern 0 (plainly _ (mmodify _)) => apply plainly_modify; intros []; reflexivity : plain.
#[export] Hint Extern 1 (plainly _ (put_active _ _)) => apply plainly_modify; intros []; reflexivity : plain.

(** Go through a method: its binds, its branches, its calls from the database. *)
Ltac plain :=
  intros;
  repeat match goal with
  | |- plainly _ (mbind' mget _) => eapply plainly_bind; [apply plainly_get|]; intros ? ?
  | |- plainly _ (mbind' _ _) => eapply plainly_bind; [first [solve [eauto 3 with plain]|idtac]|intros ? ?]; cbn beta
  | |- plainly _ (mcatch _ _) => apply plainly_catch; [first [solve [eauto 3 with plain]|idtac]|intros ?]
  | |- plainly _ (match ?x with _ => _ end) => destruct x
  | |- plainly _ (let _ := _ in _) => cbv zeta
  | |- plainly anything (mret _) => apply plainly_ret; exact I
  | |- plainly _ _ => first [progress (eauto 3 with plain)|assumption]
  end.

Section Methods.
Context {TokenSampler : Type} `{DefaultHasher}.
Notation Sched := (@ContinuousBatchScheduler TokenSampler).
Notation SM := (M Sched ContinuousBatchError).

(** The batch of an attempt, if any, is not a verification batch. *)
Definition not_verify (o : option ScheduledBatch) : Prop := ∀ b, o = Some b → batch_kind b ≠ Verify.

Lemma plain_rollback rows : plainly anything (rollback_scheduled_rows rows : SM unit).
Proof. unfold rollback_scheduled_rows. plain. Qed.
#[local] Hint Resolve plain_rollback : plain.

Lemma plain_mark id row : plainly anything (mark_in_flight id row : SM unit).
Proof. unfold mark_in_flight. plain. Qed.
#[local] Hint Resolve plain_mark : plain.

Lemma plain_finish kind rows : kind ≠ Verify → plainly not_verify (finish_schedule kind rows : SM _).
Proof.
  intros Hk. unfold finish_schedule. case_decide; [by apply plainly_ret|]. plain.
  all: try (apply plainly_ret; by intros b [= <-]).
Qed.

Lemma plain_begin rows id n : plainly anything (begin_or_rollback rows id n : SM _).
Proof. unfold begin_or_rollback. plain. Qed.
#[local] Hint Resolve plain_begin : plain.

Lemma plain_decode_rows candidates rows : plainly anything (decode_rows candidates rows : SM _).
Proof.
  revert rows. induction candidates as [|[id token] candidates IH]; intros rows; simpl; plain.
Qed.

Lemma plain_chunk id r : plainly anything (prefill_chunk id r : SM _).
Proof. unfold prefill_chunk. plain. Qed.
#[local] Hint Resolve plain_chunk : plain.

Lemma plain_buckets requests acc : plainly anything (fill_buckets requests acc : SM _).
Proof. revert acc. induction requests as [|[id r] requests IH]; intros acc; simpl; plain. Qed.

Lemma plain_prefill_rows candidates n max_rows rows : plainly anything (prefill_rows candidates n max_rows rows : SM _).
Proof. revert rows. induction candidates as [|id candidates IH]; intros rows; simpl; plain. Qed.
#[local] Hint Resolve plain_decode_rows plain_buckets plain_prefill_rows : plain.

Lemma plain_schedule_decode : plainly not_verify (schedule_decode : SM _).
Proof. unfold schedule_decode. plain. by apply plain_finish. Qed.

Lemma plain_schedule_prefill : plainly not_verify (schedule_prefill : SM _).
Proof.
  unfold schedule_prefill. plain; first [by apply plain_finish|by apply plainly_ret].
Qed.

Lemma plain_schedule_verify : plainly not_verify (schedule_verify : SM _).
Proof.
  intros s Hs. unfold schedule_verify, mbind', mget. rewrite Hs. by split.
Qed.

Lemma plain_try : plainly not_verify (try_schedule : SM _).
Proof.
  unfold try_schedule. eapply plainly_bind; [apply plainly_get|]. intros s _.
  eapply (plainly_bind not_verify); [destruct (prefer_prefill s); [apply plain_schedule_prefill|by apply plainly_ret]|].
  intros [b|] Hb; [eapply plainly_bind; [eauto with plain|intros; by apply plainly_ret]|].
  eapply plainly_bind; [eauto with plain|intros _ _].
  eapply plainly_bind; [apply plainly_get|]. intros s1 _.
  eapply (plainly_bind not_verify); [destruct (speculative_turn s1); [apply plain_schedule_verify|by apply plainly_ret]|].
  intros [b|] Hb2; [eapply plainly_bind; [eauto with plain|intros; by apply plainly_ret]|].
  eapply plainly_bind; [apply plain_schedule_decode|].
  intros [b|] Hb3; [eapply plainly_bind; [eauto with plain|intros; by apply plainly_ret]|].
  eapply plainly_bind; [apply plain_schedule_prefill|].
  intros [b|] Hb4; [eapply plainly_bind; [eauto with plain|intros; by apply plainly_ret]|by apply plainly_ret].
Qed.

Lemma plain_holders requests : plainly anything (page_holders requests : SM _).
Proof. induction requests as [|[id r] requests IH]; simpl; plain. Qed.
#[local] Hint Resolve plain_holders : plain.

Lemma plain_preempt : plainly anything (preempt_newest : SM _).
Proof. unfold preempt_newest. plain. Qed.
#[local] Hint Resolve plain_preempt : plain.

Lemma plain_loop fuel : plainly not_verify (schedule_loop fuel : SM _).
Proof.
  induction fuel as [|fuel IH]; simpl; [apply plainly_panic|].
  eapply plainly_bind; [apply plain_try|]. intros [b|] Hb.
  - eapply plainly_bind; [eauto with plain|]. intros. by apply plainly_ret.
  - eapply plainly_bind; [apply plainly_get|]. intros s _.
    eapply (plainly_bind anything); [destruct (recompute_preemption s); [eauto with plain|by apply plainly_ret]|].
    intros [] _; [done|by apply plainly_ret].
Qed.

Lemma plain_admit r : plainly anything (admit_request r : SM _).
Proof. unfold admit_request. plain. Qed.
#[local] Hint Resolve plain_admit : plain.

Lemma plain_promote fuel available : plainly anything (promote_loop fuel available : SM _).
Proof. revert available. induction fuel as [|fuel IH]; intros available; simpl; plain. Qed.
#[local] Hint Resolve plain_promote : plain.

Lemma plain_promote_pending : plainly anything (promote_pending : SM _).
Proof. unfold promote_pending. plain. Qed.

(** [schedule] never builds a verification batch. *)
Lemma plain_schedule : plainly not_verify (schedule : SM _).
Proof.
  unfold schedule. eapply plainly_bind; [apply plainly_get|]. intros s _.
  destruct (in_flight s); [apply plainly_throw|]. case_decide; [apply plainly_throw|].
  eapply plainly_bind; [apply plain_promote_pending|]. intros _ _.
  eapply plainly_bind; [apply plainly_get|]. intros s1 _. apply plain_loop.
Qed.

Lemma plain_take id : plainly anything (take_batch id : SM _).
Proof. unfold take_batch. plain. Qed.
Lemma plain_put_back {A} b e : plainly anything (put_back b e : SM A).
Proof. unfold put_back. plain. Qed.
#[local] Hint Resolve plain_take plain_put_back : plain.

Lemma plain_finish_request id eos : plainly anything (finish_request id eos : SM _).
Proof. unfold finish_request. plain. Qed.
#[local] Hint Resolve plain_finish_request : plain.

Lemma plain_complete_row e : plainly anything (complete_row e : SM _).
Proof. unfold complete_row. plain. Qed.
Lemma plain_publish_row row : plainly anything (publish_row row : SM _).
Proof. unfold publish_row. plain. Qed.
Lemma plain_fail_row kind row : plainly anything (fail_row kind row : SM _).
Proof. unfold fail_row. plain. Qed.
#[local] Hint Resolve plain_complete_row plain_publish_row plain_fail_row : plain.

Lemma plain_complete id tokens : plainly anything (complete_batch id tokens : SM _).
Proof. unfold complete_batch. plain. Qed.
Lemma plain_fail id : plainly anything (fail_batch id : SM _).
Proof. unfold fail_batch. plain. Qed.
Lemma plain_cancel id : plainly anything (cancel id : SM _).
Proof. unfold cancel. plain. Qed.
Lemma plain_pop : plainly anything (pop_finished : SM _).
Proof. unfold pop_finished. plain. Qed.
Lemma plain_limit limit : plainly anything (set_batch_token_limit limit : SM _).
Proof. unfold set_batch_token_limit. plain. Qed.
Lemma plain_submit prompt g sampler : plainly anything (submit_with_sampler prompt g sampler : SM _).
Proof. unfold submit_with_sampler. plain. Qed.
Lemma plain_lookahead_rows wanted rows budget reserved :
  plainly anything (lookahead_rows wanted rows budget reserved : SM _).
Proof. revert budget reserved. induction rows as [|row rows IH]; intros budget reserved; simpl; plain. Qed.
#[local] Hint Resolve plain_lookahead_rows : plain.
Lemma plain_lookahead b wanted : plainly anything (reserve_lookahead b wanted : SM _).
Proof. unfold reserve_lookahead. plain. Qed.
End Methods.
#[export] Hint Resolve plain_schedule plain_complete plain_fail plain_cancel plain_pop plain_limit plain_submit
  plain_lookahead : plain.

(** ** A scheduler without preemption and without prefix caching

    Neither is switched on by [with_options].  While both are off, no call gives up
    pages of a request that goes on: [schedule] and [reserve_lookahead] leave what is
    stored of every request as it is, and no call ever puts a page in two tables. *)

Section Calm.
Context {TokenSampler : Type} `{DefaultHasher}.
Notation Sched := (@ContinuousBatchScheduler TokenSampler).
Notation SM := (M Sched ContinuousBatchError).
Implicit Types s : Sched.

Definition calm s : Prop := recompute_preemption s = false ∧ unshared (kv_cache s).

Definition cache_grows s s' : Prop := grows (kv_cache s) (kv_cache s').
#[export] Instance cache_grows_preorder : PreOrder cache_grows.
Proof. unfold cache_grows. split; [intros s; reflexivity|]. intros s1 s2 s3 H1 H2. by etrans. Qed.

(** *** Calls that only grow the cache *)
Notation gentle := (keeping calm cache_grows).

Lemma gentle_kv {A} (op : M PagedKvCacheManager PagedKvError A) :
  keeping unshared grows op → gentle (kv op : SM A).
Proof.
  intros Hop s [Hs Hu]. specialize (Hop _ Hu). unfold kv. unfold calm, cache_grows. destruct (op (kv_cache s)) as [[a|e|p] m]; simpl in *; tauto.
Qed.

Lemma gentle_modify f : (∀ s, recompute_preemption (f s) = recompute_preemption s ∧ kv_cache (f s) = kv_cache s) →
  gentle (mmodify f : SM unit).
Proof.
  intros Hf. apply keeping_modify. intros s [Hs Hu]. destruct (Hf s) as [Hr Hk]. unfold calm, cache_grows.
  by rewrite Hr, Hk.
Qed.

#[local] Hint Extern 0 (keeping calm cache_grows (mmodify _)) => apply gentle_modify; intros []; split; reflexivity : keep.
#[local] Hint Extern 0 (keeping calm cache_grows (put_active _ _)) => apply gentle_modify; intros []; split; reflexivity : keep.
#[local] Hint Extern 1 (keeping calm cache_grows (kv _)) =>
  apply gentle_kv; first [apply quiet_begin|apply quiet_extend|apply quiet_cancels|apply quiet_create
    |apply reads_committed; apply _|apply reads_table; apply _|apply reads_can_append; apply _] : keep.

Lemma gentle_rollback rows : gentle (rollback_scheduled_rows rows : SM unit).
Proof. unfold rollback_scheduled_rows. keep. Qed.
Lemma gentle_mark id row : gentle (mark_in_flight id row : SM unit).
Proof. unfold mark_in_flight. keep. Qed.
#[local] Hint Resolve gentle_rollback gentle_mark : keep.
Lemma gentle_finish kind rows : gentle (finish_schedule kind rows : SM _).
Proof. unfold finish_schedule. keep. Qed.
Lemma gentle_begin rows id n : gentle (begin_or_rollback rows id n : SM _).
Proof. unfold begin_or_rollback. keep. Qed.
Lemma gentle_chunk id r : gentle (prefill_chunk id r : SM _).
Proof. unfold prefill_chunk. keep. Qed.
#[local] Hint Resolve gentle_finish gentle_begin gentle_chunk : keep.
Lemma gentle_decode_rows candidates rows : gentle (decode_rows candidates rows : SM _).
Proof. revert rows. induction candidates as [|[id token] candidates IH]; intros rows; simpl; keep. Qed.
Lemma gentle_buckets requests acc : gentle (fill_buckets requests acc : SM _).
Proof. revert acc. induction requests as [|[id r] requests IH]; intros acc; simpl; keep. Qed.
Lemma gentle_prefill_rows candidates n max_rows rows : gentle (prefill_rows candidates n max_rows rows : SM _).
Proof. revert rows. induction candidates as [|id candidates IH]; intros rows; simpl; keep. Qed.
#[local] Hint Resolve gentle_decode_rows gentle_buckets gentle_prefill_rows : keep.
Lemma gentle_decode : gentle (schedule_decode : SM _).
Proof. unfold schedule_decode. keep. Qed.
Lemma gentle_prefill : gentle (schedule_prefill : SM _).
Proof. unfold schedule_prefill. keep. Qed.
Lemma gentle_candidates c width requests : gentle (verify_candidates c width requests : SM _).
Proof. induction requests as [|[id r] requests IH]; simpl; keep. Qed.
Lemma gentle_verify_rows c width max_rows candidates rows : gentle (verify_rows c width max_rows candidates rows : SM _).
Proof. revert rows. induction candidates as [|[[id token] draft] candidates IH]; intros rows; simpl; keep. Qed.
#[local] Hint Resolve gentle_decode gentle_prefill gentle_candidates gentle_verify_rows : keep.
Lemma gentle_verify : gentle (schedule_verify : SM _).
Proof. unfold schedule_verify. keep. Qed.
#[local] Hint Resolve gentle_verify : keep.
Lemma gentle_try : gentle (try_schedule : SM _).
Proof. unfold try_schedule. keep. Qed.
#[local] Hint Resolve gentle_try : keep.

Lemma gentle_loop fuel : gentle (schedule_loop fuel : SM _).
Proof.
  destruct fuel as [|fuel]; simpl; [apply keeping_panic|].
  refine (keeping_bind _ _ _ _ _ _); [apply gentle_try|]. intros [b|]; [keep|].
  refine (keeping_read _ _ _ _). intros s [Hs _]. rewrite Hs. exact (keeping_ret _ _ None).
Qed.

Lemma gentle_admit r : gentle (admit_request r : SM _).
Proof. unfold admit_request. keep. Qed.
#[local] Hint Resolve gentle_loop gentle_admit : keep.
Lemma gentle_promote fuel available : gentle (promote_loop fuel available : SM _).
Proof. revert available. induction fuel as [|fuel IH]; intros available; simpl; keep. Qed.
#[local] Hint Resolve gentle_promote : keep.
Lemma gentle_promote_pending : gentle (promote_pending : SM _).
Proof. unfold promote_pending. keep. Qed.
#[local] Hint Resolve gentle_promote_pending : keep.

Lemma gentle_schedule : gentle (schedule : SM _).
Proof. unfold schedule. keep. Qed.

Lemma gentle_lookahead_rows wanted rows budget reserved : gentle (lookahead_rows wanted rows budget reserved : SM _).
Proof. revert budget reserved. induction rows as [|row rows IH]; intros budget reserved; simpl; keep. Qed.
#[local] Hint Resolve gentle_lookahead_rows : keep.
Lemma gentle_lookahead b wanted : gentle (reserve_lookahead b wanted : SM _).
Proof. unfold reserve_lookahead. keep. Qed.

Lemma gentle_take id : gentle (take_batch id : SM _).
Proof. unfold take_batch. keep. Qed.
Lemma gentle_put_back {A} b e : gentle (put_back b e : SM A).
Proof. unfold put_back. keep. Qed.
Lemma gentle_fail_row kind row : gentle (fail_row kind row : SM _).
Proof. unfold fail_row. keep. Qed.
#[local] Hint Resolve gentle_take gentle_put_back gentle_fail_row : keep.
Lemma gentle_fail id : gentle (fail_batch id : SM _).
Proof. unfold fail_batch. keep. Qed.
Lemma gentle_pop : gentle (pop_finished : SM _).
Proof. unfold pop_finished. keep. Qed.
Lemma gentle_submit prompt g sampler : gentle (submit_with_sampler prompt g sampler : SM _).
Proof. unfold submit_with_sampler. keep. Qed.

(** *** Calls that complete or remove *)
Definition cache_shrinks s s' : Prop := shrinks (kv_cache s) (kv_cache s').
#[export] Instance cache_shrinks_preorder : PreOrder cache_shrinks.
Proof. unfold cache_shrinks. split; [intros s; reflexivity|]. intros s1 s2 s3 H1 H2. by etrans. Qed.
Notation sparing := (keeping calm cache_shrinks).

Lemma sparing_kv {A} (op : M PagedKvCacheManager PagedKvError A) :
  keeping unshared shrinks op → sparing (kv op : SM A).
Proof.
  intros Hop s [Hs Hu]. specialize (Hop _ Hu). unfold kv, calm, cache_shrinks.
  destruct (op (kv_cache s)) as [[a|e|p] m]; simpl in *; tauto.
Qed.

Lemma sparing_modify f : (∀ s, recompute_preemption (f s) = recompute_preemption s ∧ kv_cache (f s) = kv_cache s) →
  sparing (mmodify f : SM unit).
Proof.
  intros Hf. apply keeping_modify. intros s [Hs Hu]. destruct (Hf s) as [Hr Hk]. unfold calm, cache_shrinks.
  by rewrite Hr, Hk.
Qed.

#[local] Hint Extern 0 (keeping calm cache_shrinks (mmodify _)) => apply sparing_modify; intros []; split; reflexivity : keep.
#[local] Hint Extern 0 (keeping calm cache_shrinks (put_active _ _)) => apply sparing_modify; intros []; split; reflexivity : keep.
#[local] Hint Extern 1 (keeping calm cache_shrinks (kv _)) =>
  apply sparing_kv; first [apply holds_remove|apply holds_prefixes|apply holds_register] : keep.

Lemma sparing_take id : sparing (take_batch id : SM _).
Proof. unfold take_batch. keep. Qed.
Lemma sparing_put_back {A} b e : sparing (put_back b e : SM A).
Proof. unfold put_back. keep. Qed.
Lemma sparing_finish_request id eos : sparing (finish_request id eos : SM _).
Proof. unfold finish_request. keep. Qed.
#[local] Hint Resolve sparing_take sparing_put_back sparing_finish_request : keep.
Lemma sparing_complete_row e : sparing (complete_row e : SM _).
Proof. unfold complete_row. keep. Qed.
Lemma sparing_publish row : sparing (publish_row row : SM _).
Proof. unfold publish_row. keep. Qed.
#[local] Hint Resolve sparing_complete_row sparing_publish : keep.
Lemma sparing_complete id tokens : sparing (complete_batch id tokens : SM _).
Proof. unfold complete_batch. keep. Qed.
Lemma sparing_cancel id : sparing (cancel id : SM _).
Proof. unfold cancel. keep. Qed.
End Calm.

(** ** Speculation and samplers

    [schedule] of src/src/continuous_batch.rs drafts for greedy requests only: no row
    of a verification batch belongs to a request with a sampler. *)

(** *** What a method returns

    From a state with [I], a success leaves [I] and a result with [Q]. *)
Section Yielding.
Context {S E : Type} (I : S → Prop).

Definition yielding {A} (Q : A → Prop) (m : M S E A) : Prop := ∀ s, I s →
  match m s with (Ok a, s') => I s' ∧ Q a | _ => True end.

Lemma yielding_ret {A} (Q : A → Prop) a : Q a → yielding Q (mret a).
Proof. intros HQ s Hs. by split. Qed.
Lemma yielding_throw {A} (Q : A → Prop) e : yielding Q (mthrow e).
Proof. by intros s Hs. Qed.
Lemma yielding_panic {A} (Q : A → Prop) p : yielding Q (mpanic p).
Proof. by intros s Hs. Qed.
Lemma yielding_bind {A B} (P : A → Prop) (Q : B → Prop) (m : M S E A) k :
  yielding P m → (∀ a, P a → yielding Q (k a)) → yielding Q (mbind' m k).
Proof.
  intros Hm Hk s Hs. unfold mbind'. specialize (Hm s Hs). destruct (m s) as [[a|e|p] s1]; [|done..].
  destruct Hm as [Hs1 Ha]. by apply (Hk a).
Qed.
Lemma yielding_read {A} (Q : A → Prop) (k : S → M S E A) : (∀ s, I s → yielding Q (k s)) → yielding Q (mbind' mget k).
Proof. intros Hk s Hs. by apply Hk. Qed.
Lemma keeping_trivial {A} (m : M S E A) : (∀ s, I s) → keeping I unrelated m.
Proof. intros HI s Hs. by destruct (m s) as [[a|e|p] s1]. Qed.

(** A part whose result does not matter. *)
Lemma yielding_after {A B} (Q : B → Prop) (m : M S E A) k :
  keeping I unrelated m → (∀ a, yielding Q (k a)) → yielding Q (mbind' m k).
Proof.
  intros Hm Hk s Hs. unfold mbind'. specialize (Hm s Hs). destruct (m s) as [[a|e|p] s1]; [|done..].
  destruct Hm as [Hs1 _]. by apply (Hk a).
Qed.
Lemma yielding_mono {A} (P Q : A → Prop) (m : M S E A) : yielding P m → (∀ a, P a → Q a) → yielding Q m.
Proof. intros Hm HQ s Hs. specialize (Hm s Hs). destruct (m s) as [[a|e|p] s1]; naive_solver. Qed.
End Yielding.

Section Samplers.
Context {TokenSampler : Type} `{DefaultHasher}.
Notation Sched := (@ContinuousBatchScheduler TokenSampler).
Notation SM := (M Sched ContinuousBatchError).
Implicit Types s : Sched.
Context (sampler : RequestId → option TokenSampler).

Definition sampled_by s : Prop := ∀ id r, active s !! id = Some r → rq_sampler r = sampler id.
Notation same := (keeping sampled_by unrelated).

Lemma keep_samplers_kv {A} (op : M PagedKvCacheManager PagedKvError A) : same (kv op : SM A).
Proof. intros s Hs. unfold kv. by destruct (op (kv_cache s)) as [[a|e|p] m]. Qed.
Lemma keep_samplers_modify f : (∀ s, active (f s) = active s) → same (mmodify f : SM unit).
Proof. intros Hf. apply keeping_modify. intros s Hs. split; [|done]. intros id r. rewrite Hf. apply Hs. Qed.
Lemma keep_samplers_put id r : rq_sampler r = sampler id → same (put_active id r : SM unit).
Proof.
  intros Hr. apply keeping_modify. intros s Hs. split; [|done]. intros i r'. simpl. rewrite lookup_insert.
  case_decide as Hi; [subst; by intros [= <-]|apply Hs].
Qed.
#[local] Hint Extern 0 (keeping sampled_by unrelated (mmodify _)) => apply keep_samplers_modify; reflexivity : keep.
#[local] Hint Extern 1 (keeping sampled_by unrelated (kv _)) => apply keep_samplers_kv : keep.

(** Going on with an active request. *)
Lemma keep_samplers_with {A} id (o : option _ → SM _) (k : _ → SM A) : (∀ x, o x = mexpect Expect x ∨ ∃ e, o x = mok_or x e) →
  (∀ r, rq_sampler r = sampler id → same (k r)) → same (let! s := mget in let! r := o (active s !! id) in k r).
Proof.
  intros Ho Hk. refine (keeping_read _ _ _ _). intros s Hs s1 Hs1. unfold mbind'.
  destruct (Ho (active s !! id)) as [->|[e ->]]; (destruct (active s !! id) as [r|] eqn:Hr; [|done]); simpl; by apply (Hk r (Hs _ _ Hr)).
Qed.

Lemma keep_samplers_rollback rows : same (rollback_scheduled_rows rows : SM unit).
Proof. unfold rollback_scheduled_rows. keep. Qed.
Lemma keep_samplers_mark id row : same (mark_in_flight id row : SM unit).
Proof.
  unfold mark_in_flight. apply (keep_samplers_with _ (λ x, mok_or x _)); [right; by eexists|]. intros r Hr. by apply keep_samplers_put.
Qed.
#[local] Hint Resolve keep_samplers_rollback keep_samplers_mark : keep.
Lemma keep_samplers_begin rows id n : same (begin_or_rollback rows id n : SM _).
Proof. unfold begin_or_rollback. keep. Qed.
Lemma keep_samplers_finish kind rows : same (finish_schedule kind rows : SM _).
Proof. unfold finish_schedule. keep. Qed.
Lemma keep_samplers_chunk id r : same (prefill_chunk id r : SM _).
Proof. unfold prefill_chunk. keep. Qed.
#[local] Hint Resolve keep_samplers_begin keep_samplers_finish keep_samplers_chunk : keep.
Lemma keep_samplers_buckets requests acc : same (fill_buckets requests acc : SM _).
Proof. revert acc. induction requests as [|[id r] requests IH]; intros acc; simpl; keep. Qed.
Lemma keep_samplers_holders requests : same (page_holders requests : SM _).
Proof. induction requests as [|[id r] requests IH]; simpl; keep. Qed.
Lemma keep_samplers_decode_rows candidates rows : same (decode_rows candidates rows : SM _).
Proof. revert rows. induction candidates as [|[id token] candidates IH]; intros rows; simpl; keep. Qed.
Lemma keep_samplers_prefill_rows candidates n max_rows rows : same (prefill_rows candidates n max_rows rows : SM _).
Proof. revert rows. induction candidates as [|id candidates IH]; intros rows; simpl; keep. Qed.
#[local] Hint Resolve keep_samplers_buckets keep_samplers_holders keep_samplers_decode_rows keep_samplers_prefill_rows : keep.

Lemma keep_samplers_preempt : same (preempt_newest : SM _).
Proof.
  unfold preempt_newest. refine (keeping_read _ _ _ _). intros s _.
  refine (keeping_bind _ _ _ _ _ _); [apply keep_samplers_holders|]. intros holders. case_decide; [keep|].
  refine (keeping_bind _ _ _ _ _ _); [keep|]. intros newest. cbv zeta.
  do 2 (refine (keeping_bind _ _ _ _ _ _); [apply keep_samplers_kv|intros _]).
  apply (keep_samplers_with _ (mexpect Expect)); [by left|]. intros r Hr.
  refine (keeping_bind _ _ _ _ _ _); [by apply keep_samplers_put|]. keep.
Qed.
#[local] Hint Resolve keep_samplers_preempt : keep.

(** *** What a batch is made of *)

(** A verification row belongs to a request without a sampler. *)
Definition drafted_rows (rows : list ScheduledSequence) : Prop := ∀ row, row ∈ rows → sampler (row_request_id row) = None.
Definition drafts (o : option ScheduledBatch) : Prop :=
  ∀ b, o = Some b → batch_kind b = Verify → drafted_rows (batch_sequences b).
Notation yields := (yielding sampled_by).

Lemma yields_candidates c width requests : (∀ id r, (id, r) ∈ requests → rq_sampler r = sampler id) →
  yields (λ l, ∀ id token draft, (id, token, draft) ∈ l → sampler id = None) (verify_candidates c width requests : SM _).
Proof.
  induction requests as [|[id r] requests IH]; intros Hreq; simpl; [apply yielding_ret; by intros ? ? ? ?%elem_of_nil|].
  pose proof (Hreq id r ltac:(by left)) as Hid. specialize (IH ltac:(intros; apply Hreq; by right)).
  destruct (rq_phase r) as [|token|b]; [exact IH| |exact IH].
  apply yielding_after; [keep|]. intros remaining. case_decide as Hs; [exact IH|]. case_decide; [exact IH|].
  apply yielding_after; [keep|]. intros fits. eapply yielding_bind; [exact IH|]. intros more Hmore. apply yielding_ret.
  destruct fits; [|exact Hmore]. intros i t d [[= -> -> ->]|Hin]%elem_of_cons; [|by eapply Hmore].
  rewrite <- Hid. destruct (rq_sampler r); [|done]. destruct Hs. left. by eexists.
Qed.

Lemma yields_begin id n : yielding (λ _, True) (λ a, ar_request_id a = id) (begin_append id n).
Proof.
  unfold begin_append. case_decide; [apply yielding_throw|]. apply yielding_after; [by apply keeping_trivial|]. intros q.
  destruct (pending q); [apply yielding_throw|]. apply yielding_read. intros m _. cbv zeta.
  apply yielding_after; [by apply keeping_trivial|]. intros context. case_decide; [apply yielding_throw|].
  case_decide; [apply yielding_throw|]. repeat (apply yielding_after; [by apply keeping_trivial|intros ?]). by apply yielding_ret.
Qed.

Lemma yields_kv {A} (Q : A → Prop) (op : M PagedKvCacheManager PagedKvError A) :
  yielding (λ _, True) Q op → yields Q (kv op : SM A).
Proof. intros Hop s Hs. unfold kv. specialize (Hop (kv_cache s) I). by destruct (op (kv_cache s)) as [[a|e|p] m]; [split; [|apply Hop]|..]. Qed.

Lemma yields_rows c width max_rows candidates rows : drafted_rows rows →
  (∀ id token draft, (id, token, draft) ∈ candidates → sampler id = None) →
  yields drafted_rows (verify_rows c width max_rows candidates rows : SM _).
Proof.
  revert rows. induction candidates as [|[[id token] draft] candidates IH]; intros rows Hrows Hc; simpl; [by apply yielding_ret|].
  case_decide; [by apply yielding_ret|]. apply yielding_after; [keep|]. intros [|]; [|apply IH; [done|intros; eapply Hc; by right]].
  apply yielding_after; [keep|]. intros pad. cbv zeta. eapply yielding_bind; [apply yields_kv, yields_begin|].
  intros a Ha. apply IH; [|intros; eapply Hc; by right]. intros row [Hin| ->%list_elem_of_singleton]%elem_of_app; [by apply Hrows|].
  simpl. rewrite Ha. eapply Hc. by left.
Qed.

Lemma yields_finish kind rows : (kind = Verify → drafted_rows rows) → yields drafts (finish_schedule kind rows : SM _).
Proof.
  intros Hrows. unfold finish_schedule. case_decide; [by apply yielding_ret|]. apply yielding_read. intros s _. cbv zeta.
  destruct (checked_add _ _ _); [|apply yielding_after; [keep|intros; apply yielding_throw]].
  destruct (existsb _ _); [apply yielding_after; [keep|intros; apply yielding_throw]|].
  do 2 (apply yielding_after; [keep|intros _]). apply yielding_ret. intros b [= <-]. exact Hrows.
Qed.

Lemma yields_prefill : yields drafts (schedule_prefill : SM _).
Proof.
  unfold schedule_prefill. apply yielding_read. intros s _. apply yielding_after; [keep|]. intros buckets.
  destruct (max_by _ _) as [[key candidates]|]; [|by apply yielding_ret]. cbv zeta. apply yielding_after; [keep|]. intros rows. by apply yields_finish.
Qed.

Lemma yields_decode : yields drafts (schedule_decode : SM _).
Proof. unfold schedule_decode. apply yielding_read. intros s _. apply yielding_after; [keep|]. intros rows. by apply yields_finish. Qed.

Lemma yields_verify : yields drafts (schedule_verify : SM _).
Proof.
  unfold schedule_verify. apply yielding_read. intros s Hs. destruct (speculative s) as [c|]; [|by apply yielding_ret].
  apply yielding_after; [keep|]. intros width. cbv zeta. case_decide; [by apply yielding_ret|].
  eapply yielding_bind; [apply yields_candidates|].
  { intros id r Hin. apply Hs. by apply elem_of_btree_iter. }
  intros candidates Hc. eapply yielding_bind; [apply yields_rows; [by intros ? ?%elem_of_nil|exact Hc]|].
  intros rows Hrows. by apply yields_finish.
Qed.

Lemma yields_try : yields drafts (try_schedule : SM _).
Proof.
  unfold try_schedule. apply yielding_read. intros s _.
  assert (yields drafts (mret None : SM (option ScheduledBatch))) as Hnone by (by apply yielding_ret).
  eapply yielding_bind; [destruct (prefer_prefill s); [apply yields_prefill|exact Hnone]|].
  intros [b|] Hb; [apply yielding_after; [keep|intros _; by apply yielding_ret]|]. clear Hb.
  apply yielding_after; [keep|intros _]. apply yielding_read. intros s1 _.
  eapply yielding_bind; [destruct (speculative_turn s1); [apply yields_verify|exact Hnone]|].
  intros [b|] Hb; [apply yielding_after; [keep|intros _; by apply yielding_ret]|]. clear Hb.
  eapply yielding_bind; [apply yields_decode|].
  intros [b|] Hb; [apply yielding_after; [keep|intros _; by apply yielding_ret]|]. clear Hb.
  eapply yielding_bind; [apply yields_prefill|].
  intros [b|] Hb; [apply yielding_after; [keep|intros _; by apply yielding_ret]|exact Hnone].
Qed.

Lemma yields_loop fuel : yields drafts (schedule_loop fuel : SM _).
Proof.
  induction fuel as [|fuel IH]; simpl; [apply yielding_panic|]. eapply yielding_bind; [apply yields_try|].
  intros [b|] Hb; [apply yielding_after; [keep|intros _; by apply yielding_ret]|].
  apply yielding_read. intros s _. apply yielding_after; [destruct (recompute_preemption s); keep|].
  intros [|]; [exact IH|by apply yielding_ret].
Qed.
End Samplers.

(** The requests of a verification batch have no sampler. *)
Lemma verified_plain `{DefaultHasher} {TokenSampler : Type} (s s' : @ContinuousBatchScheduler TokenSampler) b row r :
  schedule s = (Ok (Some b), s') → batch_kind b = Verify → row ∈ batch_sequences b →
  active s' !! row_request_id row = Some r → rq_sampler r = None.
Proof.
  unfold schedule. unfold mbind' at 1, mget at 1. destruct (in_flight s); [done|]. case_decide; [done|].
  unfold mbind' at 1. destruct (promote_pending s) as [[[]|e|p] s1]; [|done..]. unfold mbind' at 1, mget at 1.
  intros Heq Hk Hin Hr. set (sampler := λ id, active s1 !! id ≫= rq_sampler).
  assert (sampled_by sampler s1) as H1 by (intros id r1 Hr1; unfold sampler; by rewrite Hr1).
  pose proof (yields_loop sampler (S (S (size (active s1)))) s1 H1) as Hy. rewrite Heq in Hy. destruct Hy as [Hs Hd].
  rewrite (Hs _ _ Hr). by apply (Hd b eq_refl Hk).
Qed.
