(* ===== verification/ContinuousBatchSpec.v ===== *)
(** * What the continuous batching scheduler guarantees

    The properties of src/src/continuous_batch.rs in every reachable state,
    and the end-to-end one: with a deterministic model behind it, the scheduler
    returns for every request exactly the tokens of plain greedy decoding,
    whatever it batches, preempts, chunks, reuses or speculates. *)
From S2P Require Import Prelude PagedKv PagedKvPool PagedKvInv PagedKvOps PagedKvPrefix.
From S2P Require Import PagedKvSpec ContinuousBatch ContinuousBatchInv ContinuousBatchSchedule.
From S2P Require Import ContinuousBatchLoop ContinuousBatchOps ContinuousBatchVerify.
From S2P Require Import ContinuousBatchCalls.
Open Scope nat_scope.
Open Scope m_scope.

(** ** Greedy decoding, the reference *)
Fixpoint greedy_decode (model : list Z → Z) (eos : gset Z) (remaining : nat) (history : list Z) :
    list Z :=
  match remaining with
  | O => []
  | S n =>
      let token := model history in
      if decide (token ∈ eos) then [token]
      else token :: greedy_decode model eos n (history ++ [token])
  end.

(** Feeding the tokens of a run that has not stopped continues the run. *)
Lemma greedy_decode_app model eos n history tokens :
  (∀ j t, tokens !! j = Some t → t ∉ eos ∧ t = model (history ++ take j tokens)) →
  length tokens ≤ n →
  greedy_decode model eos n history =
  tokens ++ greedy_decode model eos (n - length tokens) (history ++ tokens).
Proof.
  revert n history. induction tokens as [|t tokens IH]; intros n history Ht Hlen; simpl.
  { by rewrite Nat.sub_0_r, app_nil_r. }
  destruct n as [|n]; simpl in *; [lia|].
  destruct (Ht 0 t eq_refl) as [Hne Heq]. simpl in Heq. rewrite app_nil_r in Heq. rewrite <- Heq.
  rewrite decide_False by done. f_equal. rewrite IH; [|..|lia].
  - by rewrite <- app_assoc.
  - intros j t' Hj. destruct (Ht (S j) t' Hj) as [? Hm]. split; [done|]. simpl in Hm.
    by rewrite <- app_assoc.
Qed.

(** ** Drafting *)

(** The last [n] tokens of the history occur at [start], before its end. *)
Definition occurs (history : list Z) (ngram n start : nat) : Prop :=
  1 ≤ n ≤ ngram ∧ start + n < length history ∧
  take n (drop start history) = drop (length history - n) history.

Lemma ngram_scan_exact history n draft k :
  0 < draft → k + n ≤ length history →
  match ngram_scan history (drop (length history - n) history) n draft (reverse (seq 0 k)) with
  | Some d => ∃ start, start < k ∧
      take n (drop start history) = drop (length history - n) history ∧
      d = take draft (drop (start + n) history) ∧ ∀ start', start < start' < k →
        take n (drop start' history) ≠ drop (length history - n) history
  | None => ∀ start, start < k → take n (drop start history) ≠ drop (length history - n) history
  end.
Proof.
  intros Hd. induction k as [|k IH]; intros Hk; [simpl; lia|].
  rewrite seq_S, reverse_snoc. cbn [Nat.add ngram_scan]. case_decide as Hm.
  - rewrite decide_True by lia. exists k. split_and!; [lia|done| |lia].
    destruct (decide (k + n + draft ≤ length history)).
    + f_equal. lia.
    + rewrite !take_ge by (rewrite length_drop; lia). done.
  - specialize (IH ltac:(lia)). destruct (ngram_scan _ _ _ _ _) as [d|].
    + destruct IH as (start & ? & ? & ? & Hl). exists start. split_and!; [lia|done..|].
      intros start' ?. destruct (decide (start' = k)) as [->|]; [done|]. apply Hl. lia.
    + intros start ?. destruct (decide (start = k)) as [->|]; [done|]. apply IH. lia.
Qed.

Lemma ngram_search_exact history draft k : 0 < draft → k < length history →
  let d := ngram_search history draft (reverse (seq 1 k)) in
  (d = [] ∧ ∀ n start, ¬ occurs history k n start) ∨
  ∃ n start, occurs history k n start ∧ d = take draft (drop (start + n) history) ∧ d ≠ [] ∧
    ∀ n' start', occurs history k n' start' → n' < n ∨ n' = n ∧ start' ≤ start.
Proof.
  intros Hd. induction k as [|k IH]; intros Hk; [left; split; [done|]; intros n start [? _]; lia|].
  rewrite seq_S, reverse_snoc. cbn [Nat.add ngram_search].
  pose proof (ngram_scan_exact history (S k) draft (length history - S k) Hd ltac:(lia)) as Hscan.
  destruct (ngram_scan _ _ _ _ _) as [d|]; simpl.
  - right. destruct Hscan as (start & Hs & Hm & -> & Hl). exists (S k), start. split_and!.
    + split_and!; [lia..|done].
    + done.
    + intros Hx%(f_equal length). rewrite length_take, length_drop in Hx. simpl in Hx. lia.
    + intros n' start' (Hn & Hlt & Hm'). destruct (decide (n' = S k)) as [->|]; [right|left; lia].
      split; [done|]. destruct (decide (start' ≤ start)); [done|].
      destruct (Hl start'); [lia|done].
  - assert (∀ n start, occurs history (S k) n start ↔ occurs history k n start) as Ho.
    { intros n start. split; intros (Hn & Hlt & Hm); (split_and!; [lia|lia| |lia|done]) ||
        (split_and!; [lia| |lia|done]); [|lia].
      destruct (decide (n = S k)) as [->|]; [|lia]. by destruct (Hscan start); [lia|]. }
    destruct (IH ltac:(lia)) as [[? Hn]|(n & start & Hoc & ? & ? & Hl)]; [left|right].
    + split; [done|]. intros n start. rewrite Ho. apply Hn.
    + exists n, start. rewrite Ho. split_and!; try done. intros n' start'. rewrite Ho. apply Hl.
Qed.

(** Prompt-lookup drafting: the draft continues the longest suffix
    of the history, up to [ngram] tokens, that occurred before, at its most
    recent earlier occurrence, cut at [draft_tokens] and at the end of the
    history; it is empty exactly when no suffix occurred before. *)
Theorem ngram_draft_exact history ngram draft_tokens : 0 < draft_tokens →
  let d := ngram_draft history ngram draft_tokens in
  (d = [] ∧ ∀ n start, ¬ occurs history ngram n start) ∨
  ∃ n start, occurs history ngram n start ∧ d = take draft_tokens (drop (start + n) history) ∧
    d ≠ [] ∧ ∀ n' start', occurs history ngram n' start' → n' < n ∨ n' = n ∧ start' ≤ start.
Proof.
  intros Hd. unfold ngram_draft. destruct (decide (history = [])) as [->|Hne].
  { left. rewrite Nat.min_r by (simpl; lia). split; [done|]. intros n start (_ & Hlt & _). simpl in Hlt. lia. }
  assert (0 < length history) by (destruct history; [done|simpl; lia]).
  destruct (ngram_search_exact history draft_tokens (Nat.min ngram (length history - 1)) Hd ltac:(lia))
    as [[? Hn]|(n & start & (? & ? & ?) & ? & ? & Hl)]; [left|right].
  - split; [done|]. intros n start (? & ? & ?). apply (Hn n start). split_and!; [lia..|done].
  - exists n, start. split; [split_and!; [lia..|done]|]. split_and!; [done..|].
    intros n' start' (? & ? & ?). apply Hl. split_and!; [lia..|done].
Qed.

Example ngram_draft_exact_witness :
  0 < 3 ∧ ngram_draft [1; 2; 3; 9; 1; 2; 4; 1; 2]%Z 2 3 = [4; 1; 2]%Z ∧
  let d := ngram_draft [1; 2; 3; 9; 1; 2; 4; 1; 2]%Z 2 3 in
  (d = [] ∧ ∀ n start, ¬ occurs [1; 2; 3; 9; 1; 2; 4; 1; 2]%Z 2 n start) ∨
  ∃ n start, occurs [1; 2; 3; 9; 1; 2; 4; 1; 2]%Z 2 n start ∧
    d = take 3 (drop (start + n) [1; 2; 3; 9; 1; 2; 4; 1; 2]%Z) ∧
    d ≠ [] ∧ ∀ n' start', occurs [1; 2; 3; 9; 1; 2; 4; 1; 2]%Z 2 n' start' →
      n' < n ∨ n' = n ∧ start' ≤ start.
Proof.
  split; [lia|]. split; [reflexivity|].
  exact (ngram_draft_exact [1; 2; 3; 9; 1; 2; 4; 1; 2]%Z 2 3 ltac:(lia)).
Defined.

(** What was submitted under each id that [submit] returned. *)
Notation Log := (gmap RequestId (list Z * GreedyGenerationConfig)).

Section Spec.
Context {TokenSampler : Type} `{DefaultHasher}.
Notation Request := (@ActiveRequest TokenSampler).
Notation Sched := (@ContinuousBatchScheduler TokenSampler).
Implicit Types s : Sched.
Implicit Types r : Request.

(** ** Safety *)

(** Claim C6.  In every state reached by calls that complete verification batches with
    [complete_verify_batch], whatever the next public call, [complete_batch] on a
    verification batch included, no [expect], index, slice, debug assertion or division
    of the scheduler or of its KV cache fails and the scheduling loop ends: the only
    panic left is the overflow of a counter.  A call that succeeds leaves the whole
    invariant; of a verification batch given to [complete_batch] it leaves all but the
    part that ties phases to committed lengths.  A call that fails leaves the whole
    invariant, but for [schedule] once the 64-bit reservation ids have run out, which
    also leaves all but that part. *)
Theorem scheduler_calls_are_safe c k s op :
  (N.of_nat (max_sequence_length k) ≤ usize_max)%N → sched_reachable c k s →
  match sched_exec op s with
  | (Ok _, s') => static_wf s' ∧ (proper s op → sched_wf s')
  | (Err _, s') => sched_wf s' ∨ op = Schedule ∧ static_wf s' ∧ exhausted s'
  | (Panic p, _) => p = Overflow
  end.
Proof.
  intros Hmax Hr. pose proof (sched_reachable_wf c k s Hmax Hr) as Hwf.
  pose proof (sched_exec_static op s Hwf) as Hs. pose proof (sched_exec_wf op s Hwf) as Hw.
  unfold wp in Hs, Hw. destruct (sched_exec op s) as [[a|e|p] s']; simpl in *; [|done..]. by split.
Qed.

(** ** Submission *)

(** The pages a prompt must find room for under the admission policy. *)
Definition pages_required (s : Sched) (prompt : list Z) (g : GreedyGenerationConfig) : nat :=
  match kv_admission (options s) with
  | OnDemand => div_ceil (length prompt) (block_size (config (kv_cache s)))
  | ReserveSequenceCapacity =>
      request_page_budget (length prompt) g (block_size (config (kv_cache s)))
  end.

Definition admissible (s : Sched) (prompt : list Z) (g : GreedyGenerationConfig) : Prop :=
  prompt ≠ [] ∧
  (prefill_chunk_tokens s = None → length prompt ≤ max_batch_tokens (batch_config s)) ∧
  length prompt + max_new_tokens g ≤ max_sequence_length (config (kv_cache s)) ∧
  (∀ t, t ∈ prompt ++ eos_token_ids g → (0 ≤ t)%Z) ∧
  (0 < max_new_tokens g → pages_required s prompt g ≤ num_pages (config (kv_cache s)) ∧
     ∀ limit, max_pending_requests (options s) = Some limit → length (pending_requests s) < limit) ∧
  (next_request s < u64_max)%N.

Lemma negative_ids (l : list Z) :
  match existsb (λ id, bool_decide (id < 0)%Z) l with
  | true => ¬ ∀ t, t ∈ l → (0 ≤ t)%Z
  | false => ∀ t, t ∈ l → (0 ≤ t)%Z
  end.
Proof.
  destruct (existsb _ l) eqn:E.
  - apply existsb_exists in E as (t & Hin%list_elem_of_In & Ht%bool_decide_eq_true).
    intros Hx. specialize (Hx t Hin). lia.
  - intros t Hin. destruct (decide (t < 0)%Z) as [Hn|]; [|lia]. exfalso.
    apply not_true_iff_false in E. apply E, existsb_exists. exists t.
    split; [by apply list_elem_of_In|by apply bool_decide_eq_true].
Qed.

Lemma queue_full s :
  match max_pending_requests (options s) with
  | Some limit => bool_decide (limit ≤ length (pending_requests s))
  | None => false
  end = true ↔ ∃ limit, max_pending_requests (options s) = Some limit ∧
                        limit ≤ length (pending_requests s).
Proof.
  destruct (max_pending_requests (options s)); [rewrite bool_decide_eq_true|]; naive_solver.
Qed.

(** Claim C38.  [submit] accepts exactly the admissible requests: a non-empty
    prompt of token ids that fits the token limit (unless prompts are chunked),
    the sequence length and the pool, with room in the queue and ids left.  A refused request
    changes nothing; an accepted one gets the next id, and is queued behind the
    others or, when it asks for no token, finished at once with none. *)
Theorem submit_exact s prompt g sampler :
  (N.of_nat (max_sequence_length (config (kv_cache s))) ≤ usize_max)%N →
  match submit_with_sampler prompt g sampler s with
  | (Ok id, s') => admissible s prompt g ∧ id = next_request s ∧
      s' = if decide (max_new_tokens g = 0)
           then set_finished (finished s ++ [mk_finished id prompt [] false])
                  (set_next_request (id + 1) s)
           else set_pending_requests (pending_requests s ++ [mk_pending id prompt g sampler])
                  (set_next_request (id + 1) s)
  | (Err _, s') => s' = s ∧ ¬ admissible s prompt g
  | (Panic _, _) => False
  end.
Proof.
  intros Hmax.
  enough (wp (submit_with_sampler prompt g sampler) (λ x s', match x with
    | Ok id => admissible s prompt g ∧ id = next_request s ∧
      s' = if decide (max_new_tokens g = 0)
           then set_finished (finished s ++ [mk_finished id prompt [] false])
                  (set_next_request (id + 1) s)
           else set_pending_requests (pending_requests s ++ [mk_pending id prompt g sampler])
                  (set_next_request (id + 1) s)
    | Err _ => s' = s ∧ ¬ admissible s prompt g
    | Panic _ => False
    end) s) as Hw by (unfold wp in Hw; by destruct (submit_with_sampler prompt g sampler s) as [[]]).
  unfold submit_with_sampler, admissible. case_decide as Hp; [apply wp_throw; tauto|]. do 2 wp_step.
  case_decide as Hc; [apply wp_throw; split; [done|]; intros (_ & Hx & _); destruct Hc as [Hc ?];
    specialize (Hx Hc); lia|].
  wp_step. unfold mok_or at 1. destruct (usize_add _ _) as [total|] eqn:Et.
  2:{ apply wp_throw. split; [done|]. intros (_ & _ & Hx & _). unfold usize_add in Et.
      case_decide; [done|lia]. }
  apply usize_add_Some in Et as [-> _]. wp_step.
  case_decide as Hcap; [apply wp_throw; split; [done|]; intros (_ & _ & Hx & _); lia|].
  pose proof (negative_ids (prompt ++ eos_token_ids g)) as Hneg.
  destruct (existsb _ _); [apply wp_throw; tauto|]. cbv zeta. fold (pages_required s prompt g).
  case_decide as Hpg; [apply wp_throw; split; [done|]; intros (_ & _ & _ & _ & Hx & _);
    destruct Hx; lia|].
  pose proof (queue_full s) as Hq.
  destruct (bool_decide _ && _) eqn:Ef; [apply wp_throw; split; [done|];
    intros (_ & _ & _ & _ & Hx & _); apply andb_true_iff in Ef as [?%bool_decide_eq_true Ef];
    apply Hq in Ef as (limit & ? & ?); destruct Hx as [_ Hx]; [done|]; specialize (Hx limit ltac:(done)); lia|].
  wp_step. unfold mok_or. destruct (checked_add _ _ _) as [next|] eqn:En.
  2:{ apply checked_add_None in En. apply wp_throw. split; [done|].
      intros (_ & _ & _ & _ & _ & Hx). lia. }
  apply checked_add_Some in En as [-> Hn]. wp_step. do 2 wp_step. wp_step.
  assert (prompt ≠ [] ∧ (prefill_chunk_tokens s = None → length prompt ≤ max_batch_tokens (batch_config s)) ∧
    length prompt + max_new_tokens g ≤ max_sequence_length (config (kv_cache s)) ∧
    (∀ t, t ∈ prompt ++ eos_token_ids g → (0 ≤ t)%Z) ∧
    (0 < max_new_tokens g → pages_required s prompt g ≤ num_pages (config (kv_cache s)) ∧
     ∀ limit, max_pending_requests (options s) = Some limit → length (pending_requests s) < limit) ∧
    (next_request s < u64_max)%N) as Hadm.
  { split_and!; [done|intros; destruct (decide (length prompt ≤ max_batch_tokens (batch_config s)));
      [done|destruct Hc; split; [done|lia]]|lia|by apply Hneg| |lia].
    intros Hpos. split; [lia|]. intros limit Hl. apply andb_false_iff in Ef as [?%bool_decide_eq_false|Ef]; [lia|].
    destruct (decide (length (pending_requests s) < limit)); [done|].
    rewrite (proj2 Hq) in Ef; [done|]. exists limit. split; [done|lia]. }
  destruct (decide (max_new_tokens g = 0)); wp_step; apply wp_ret; (split; [done|]); (split; [done|]); by destruct s.
Qed.

(** ** Batches *)

(** Claim C35.  A batch that [schedule] returns is rectangular, within the token
    limit and never mixes two rows of one request.  Every row continues its
    request exactly where its KV sequence ends: a prefill row is the next
    uncommitted piece of the history, a decode row is the last token of the
    history, a verification row starts with it; the row's block table has a
    physical page for every position of its context. *)
Theorem scheduled_batch_is_sound c k s b s' :
  (N.of_nat (max_sequence_length k) ≤ usize_max)%N → sched_reachable c k s →
  schedule s = (Ok (Some b), s') →
  batch_sequences b ≠ [] ∧ NoDup (map row_request_id (batch_sequences b)) ∧
  batch_size b * next_n b ≤ max_batch_tokens (batch_config s) ∧
  ∀ row, row ∈ batch_sequences b →
    length (row_token_ids row) = next_n b ∧
    row_context_length row = row_start_position row + next_n b ∧
    length (row_block_table row) =
      div_ceil (row_context_length row) (block_size (config (kv_cache s))) ∧
    ∃ r, active s' !! row_request_id row = Some r ∧ rq_phase r = InFlight (batch_id b) ∧
      fst <$> seq_view (kv_cache s') (row_request_id row) = Some (row_start_position row) ∧
      match batch_kind b with
      | Prefill => slice (row_start_position row) (row_context_length row) (rq_history r) =
                   Some (row_token_ids row)
      | Decode => S (row_start_position row) = length (rq_history r) ∧
                  ∃ token, row_token_ids row = [token] ∧ last (rq_history r) = Some token
      | Verify => S (row_start_position row) = length (rq_history r) ∧
                  ∃ token drafts, row_token_ids row = token :: drafts ∧
                                  last (rq_history r) = Some token
      end.
Proof.
  intros Hmax Hr Heq. pose proof (schedule_wp s (sched_reachable_wf c k s Hmax Hr)) as Hw.
  unfold wp in Hw. rewrite Heq in Hw. simpl in Hw. destruct Hw as (Hwf & Hf & _ & _ & Hbc & _ & Hc & _).
  destruct Hwf as [Hst Hfl]. rewrite Hf in Hfl. destruct Hfl as ([Hnd Hw Hb Hrow _] & Hne & _).
  split_and!; [done|done|by rewrite <- Hbc|]. intros row Hin.
  destruct (Hrow row Hin) as [Hres (r & Hr' & Hph & [_ Hfit])].
  pose proof (row_reserved_view _ _ (st_kv _ Hst) Hres) as Hv.
  destruct Hres as (rs & q & _ & _ & _ & _ & Hctx & _ & _ & Hbt).
  rewrite (Hw row Hin) in *. rewrite <- Hc. split_and!; try done.
  exists r. split_and!; try done. by rewrite Hv.
Qed.

(** [fail_batch] undoes the launch: it is refused, without any
    change, exactly when the id is not the batch in flight; otherwise every
    row's sequence is back at the position the row started from with nothing
    pending, its request is back in the phase it was scheduled from, and no
    other request or sequence has moved. *)
Theorem fail_batch_undoes_launch c k s id :
  (N.of_nat (max_sequence_length k) ≤ usize_max)%N → sched_reachable c k s →
  match fail_batch id s with
  | (Ok _, s') => ∃ b, in_flight s = Some b ∧ batch_id b = id ∧ in_flight s' = None ∧
      pending_requests s' = pending_requests s ∧ finished s' = finished s ∧
      (∀ row, row ∈ batch_sequences b →
         seq_view (kv_cache s') (row_request_id row) = Some (row_start_position row, None) ∧
         active s' !! row_request_id row =
           set_phase (match batch_kind b with
                      | Prefill => NeedsPrefill
                      | Decode | Verify => AwaitingDecode (hd 0%Z (row_token_ids row))
                      end) <$> active s !! row_request_id row) ∧
      ∀ i, i ∉ map row_request_id (batch_sequences b) →
         seq_view (kv_cache s') i = seq_view (kv_cache s) i ∧ active s' !! i = active s !! i
  | (Err _, s') => s' = s ∧ ∀ b, in_flight s = Some b → batch_id b ≠ id
  | (Panic p, _) => p = Overflow
  end.
Proof.
  intros Hmax Hr. pose proof (fail_batch_wp id s (sched_reachable_wf c k s Hmax Hr)) as Hw.
  unfold wp in Hw. destruct (fail_batch id s) as [[[]|e|p] s']; simpl in Hw; [|done|done].
  destruct Hw as (_ & b & Hb & Hid & Hf & Hse & Hp & Hrow & Hrest).
  exists b. split_and!; try done. by destruct Hse.
Qed.

Lemma outcome_row r row token : rq_eos r = list_to_set (eos_token_ids (rq_generation r)) →
  outcome r row token =
  if decide (row_context_length row < length (rq_history r)) then
    (Some (set_phase NeedsPrefill r), None)
  else if decide (token ∈ rq_eos r ∨ max_new_tokens (rq_generation r) ≤
                                     S (length (rq_generated_token_ids r))) then
    (None, Some (mk_finished (row_request_id row) (rq_prompt_token_ids r)
                   (rq_generated_token_ids r ++ [token]) (bool_decide (token ∈ rq_eos r))))
  else (Some (set_phase (AwaitingDecode token) (append_tokens [token] r)), None).
Proof.
  intros He. unfold outcome, landing. simpl. rewrite <- He, length_app, Nat.add_1_r. case_decide; [done|].
  destruct (decide (token ∈ rq_eos r ∨ _)) as [Hd|Hd]; destruct (_ || _) eqn:Eo; try done; exfalso.
  - apply orb_false_iff in Eo. rewrite !bool_decide_eq_false in Eo. tauto.
  - apply orb_true_iff in Eo. rewrite !bool_decide_eq_true in Eo. tauto.
Qed.

(** [complete_batch] on a prefill or decode batch: refused without
    any change exactly when the id is not in flight, the number of tokens is
    not the number of rows, or a sampling row gets a negative token.  Otherwise
    every row of a non-final prefill chunk ignores its token and waits for the
    next chunk; every other row appends its token and finishes exactly on EOS
    or at its token budget, in row order, leaving the active set and the KV
    cache; nothing else moves. *)
Theorem complete_batch_exact c k s id tokens :
  (N.of_nat (max_sequence_length k) ≤ usize_max)%N → sched_reachable c k s →
  (∀ b, in_flight s = Some b → batch_kind b ≠ Verify) →
  match complete_batch id tokens s with
  | (Ok _, s') => acceptable s id tokens ∧ ∃ b, in_flight s = Some b ∧ in_flight s' = None ∧
      (∀ i row token r, batch_sequences b !! i = Some row → tokens !! i = Some token →
         active s !! row_request_id row = Some r →
         active s' !! row_request_id row =
         if decide (row_context_length row < length (rq_history r)) then
           Some (set_phase NeedsPrefill r)
         else if decide (token ∈ rq_eos r ∨ max_new_tokens (rq_generation r) ≤
                                            S (length (rq_generated_token_ids r))) then None
         else Some (set_phase (AwaitingDecode token) (append_tokens [token] r))) ∧
      finished s' = finished s ++ omap (λ e, r ← active s !! row_request_id e.1;
        if decide (row_context_length e.1 < length (rq_history r)) then None
        else if decide (e.2 ∈ rq_eos r ∨ max_new_tokens (rq_generation r) ≤
                                         S (length (rq_generated_token_ids r))) then
          Some (mk_finished (row_request_id e.1) (rq_prompt_token_ids r)
                  (rq_generated_token_ids r ++ [e.2]) (bool_decide (e.2 ∈ rq_eos r)))
        else None) (zip (batch_sequences b) tokens) ∧
      ∀ i, i ∉ map row_request_id (batch_sequences b) →
        active s' !! i = active s !! i ∧ seq_view (kv_cache s') i = seq_view (kv_cache s) i
  | (Err _, s') => s' = s ∧ ¬ acceptable s id tokens
  | (Panic p, _) => p = Overflow
  end.
Proof.
  intros Hmax Hr Hk. pose proof (sched_reachable_wf c k s Hmax Hr) as Hwf.
  pose proof (complete_batch_wp id tokens s Hwf Hk) as Hw.
  unfold wp in Hw. destruct (complete_batch id tokens s) as [[[]|e|p] s']; simpl in Hw; [|done|done].
  destruct Hw as (_ & b & Hb & Hacc & [Hse Hpd Hrow Hrest Hfin]). split; [done|].
  exists b. split_and!; [done|by destruct Hse| | |done].
  - intros i row token r Hi Ht Hr'. rewrite (Hrow i row token r Hi Ht Hr').
    rewrite outcome_row by (by apply (st_request _ (sw_static _ Hwf) _ _ Hr')). by repeat case_decide.
  - rewrite Hfin. f_equal. apply omap_ext_elem. intros [row t] _. simpl.
    destruct (active s !! row_request_id row) as [r|] eqn:Hr'; [|done]. simpl.
    rewrite outcome_row by (by apply (st_request _ (sw_static _ Hwf) _ _ Hr')). by repeat case_decide.
Qed.

(** How many predictions a verified row keeps: as long as each is the token
    that was drafted and neither ends the request. *)
Definition keeps (r : Request) (row preds : list Z) (n : nat) : Prop :=
  0 < n ≤ length preds ∧
  length (rq_generated_token_ids r) + n ≤ max_new_tokens (rq_generation r) ∧
  (∀ j p, S j < n → preds !! j = Some p → p ∉ rq_eos r ∧ row !! S j = Some p) ∧
  ∀ p, preds !! (n - 1) = Some p →
    length (rq_generated_token_ids r) + n = max_new_tokens (rq_generation r) ∨
    p ∈ rq_eos r ∨ n = length preds ∨ row !! n ≠ Some p.

Lemma produces_keeps c width r row preds tokens :
  request_wf c r → length (row_token_ids row) = width → length preds = width → 0 < width →
  produces width r row preds tokens →
  ∃ n, tokens = take n preds ∧ keeps r (row_token_ids row) preds n.
Proof.
  intros Hr Hrow Hp Hw Hprod. pose proof (rw_generated _ _ Hr).
  destruct (accept_draft_spec width
    (max_new_tokens (rq_generation r) - length (rq_generated_token_ids r)) (rq_eos r)
    (row_token_ids row) preds 0 []) as (n & Heq & Hn & Hrem & Hacc & Hlast); [done|done|done|lia| |].
  { destruct preds; [simpl in *; lia|done]. }
  unfold produces in Hprod. rewrite Heq in Hprod. injection Hprod as <-. exists n. split; [done|].
  split_and!; [lia|lia|lia|..].
  - intros j p Hj Hpj. destruct (Hacc j p Hj Hpj) as [? Hd]. split; [done|].
    simpl in Hd. by rewrite Nat.add_1_r in Hd.
  - intros p Hpn. destruct (Hlast p Hpn) as [|[|[|]]]; [left; lia|by right; left| |by do 3 right].
    do 2 right. left. lia.
Qed.

Lemma landing_active r id tokens r' :
  (landing r id tokens).1 = Some r' →
  rq_phase r' = AwaitingDecode (default 0%Z (last tokens)) ∧ rq_history r' = rq_history r ++ tokens ∧
  rq_generated_token_ids r' = rq_generated_token_ids r ++ tokens.
Proof. unfold landing. simpl. by destruct (_ || _); intros [= <-]. Qed.

(** [complete_verify_batch] is refused, without any change, exactly
    when the batch in flight is not the verification batch named or the number
    of predictions is wrong.  Otherwise every row produces the predictions up to
    the first one that was not drafted, that is an EOS token or that exhausts
    the token budget, and no more than the row has; a row that goes on commits
    exactly the fed tokens whose successors it produced; rejected drafts leave
    no trace in the history or the KV cache. *)
Theorem complete_verify_batch_exact c k s id argmax :
  (N.of_nat (max_sequence_length k) ≤ usize_max)%N → sched_reachable c k s →
  match complete_verify_batch id argmax s with
  | (Ok outs, s') => ∃ b, in_flight s = Some b ∧ batch_id b = id ∧ batch_kind b = Verify ∧
      in_flight s' = None ∧ length outs = length (batch_sequences b) ∧
      (∀ i row r, batch_sequences b !! i = Some row → active s !! row_request_id row = Some r →
         ∃ preds n, slice (i * next_n b) ((i + 1) * next_n b) argmax = Some preds ∧
           keeps r (row_token_ids row) preds n ∧
           outs !! i = Some (row_request_id row, take n preds) ∧
           ∀ r', active s' !! row_request_id row = Some r' →
             rq_history r' = rq_history r ++ take n preds ∧
             rq_generated_token_ids r' = rq_generated_token_ids r ++ take n preds ∧
             seq_view (kv_cache s') (row_request_id row) = Some (row_start_position row + n, None)) ∧
      ∀ i, i ∉ map row_request_id (batch_sequences b) →
        active s' !! i = active s !! i ∧ seq_view (kv_cache s') i = seq_view (kv_cache s) i
  | (Err _, s') => s' = s ∧ ¬ ∃ b, in_flight s = Some b ∧ batch_id b = id ∧ batch_kind b = Verify ∧
                                   length argmax = batch_size b * next_n b
  | (Panic p, _) => p = Overflow
  end.
Proof.
  intros Hmax Hr. pose proof (sched_reachable_wf c k s Hmax Hr) as Hwf.
  pose proof (sw_static _ Hwf) as Hst. pose proof (complete_verify_batch_wp id argmax s Hwf) as Hw.
  unfold wp in Hw. destruct (complete_verify_batch id argmax s) as [[outs|e|p] s']; simpl in Hw; [|done|done].
  destruct Hw as (Hwf' & b & Hb & Hid & Hk & Hlen & [Hse _ Hlo Hrow Hrest _]).
  exists b. split_and!; [done..|by apply (se_in_flight _ _ Hse)|done| |done].
  intros i row r Hi Hr'. destruct (Hrow i row Hi) as (r0 & preds & ts & Hr0 & Hsl & Hprod & Ho & Ha).
  simpl in Hr0. simplify_eq. pose proof (proj1 (st_request _ Hst _ _ Hr')) as Hrw.
  pose proof (sw_flight _ Hwf) as Hfl. rewrite Hb in Hfl. destruct Hfl as (Hrows & _).
  assert (row ∈ batch_sequences b) as Hin by by eapply list_elem_of_lookup_2.
  pose proof (rs_width _ _ _ _ _ Hrows row Hin) as Hwd.
  destruct (rs_row _ _ _ _ _ Hrows row Hin) as [_ (r0 & Hr0' & _ & Hfit)]. simplify_eq.
  rewrite Hk in Hfit. destruct Hfit as (Hne & Hstart & _).
  assert (length preds = next_n b) as Hpl.
  { unfold slice in Hsl. case_decide; [|done]. injection Hsl as <-.
    rewrite length_take, length_drop. lia. }
  assert (0 < next_n b) as Hpos by (rewrite <- Hwd; destruct (row_token_ids row); [done|simpl; lia]).
  destruct (produces_keeps _ _ _ _ _ _ Hrw Hwd Hpl Hpos Hprod) as (n & -> & Hkeep).
  exists preds, n. split_and!; [done..|]. intros r' Hr1. rewrite Hr1 in Ha. symmetry in Ha.
  destruct (landing_active _ _ _ _ Ha) as (Hph & Hh & Hg). split_and!; [done..|].
  pose proof (sw_flight _ Hwf') as Hfl'. rewrite (se_in_flight _ _ Hse) in Hfl'. simpl in Hfl'.
  specialize (Hfl' _ _ Hr1). unfold resting in Hfl'. rewrite Hph in Hfl'.
  destruct Hfl' as (k0 & -> & Hk0 & _). rewrite Hh, length_app, length_take in Hk0.
  destruct Hkeep as (? & _). do 2 f_equal. lia.
Qed.

(** When no request is queued, active or in flight every physical
    page can be allocated again: no request, however it ended, leaks a page. *)
Theorem idle_scheduler_owns_no_pages c k s :
  (N.of_nat (max_sequence_length k) ≤ usize_max)%N → sched_reachable c k s → is_idle s = true →
  free_page_count (kv_cache s) = num_pages (config (kv_cache s)).
Proof.
  intros Hmax Hr Hidle. pose proof (sw_static _ (sched_reachable_wf c k s Hmax Hr)) as Hst.
  unfold is_idle in Hidle. rewrite !andb_true_iff, !bool_decide_eq_true in Hidle.
  destruct Hidle as [[_ Ha] _].
  assert (sequences (kv_cache s) = ∅) as Hs.
  { apply map_empty. intros id. apply eq_None_not_Some. rewrite <- (st_dom _ Hst), Ha, lookup_empty.
    by intros []. }
  pose proof (kv_pages_partition _ (st_kv _ Hst)) as Hp. unfold pages_in_use in Hp.
  rewrite Hs, held_empty in Hp.
  change (size (∅ : gset N) + available_pages (kv_cache s) = num_pages (config (kv_cache s))) in Hp.
  rewrite size_empty in Hp. unfold free_page_count. lia.
Qed.

(** [cancel] refuses, without any change, exactly a request of the
    batch in flight.  Otherwise the request is in no queue, not active and
    without a KV sequence afterwards, its prompt and the tokens it generated
    are handed out, and every other request, sequence, result and the batch in
    flight are untouched. *)
Theorem cancel_exact c k s id :
  (N.of_nat (max_sequence_length k) ≤ usize_max)%N → sched_reachable c k s →
  match cancel id s with
  | (Ok out, s') =>
      (∀ r b, active s !! id = Some r → rq_phase r ≠ InFlight b) ∧
      active s' !! id = None ∧ sequences (kv_cache s') !! id = None ∧
      (∀ p, p ∈ pending_requests s' ↔ p ∈ pending_requests s ∧ pr_id p ≠ id) ∧
      (∀ i, i ≠ id → active s' !! i = active s !! i ∧
                      seq_view (kv_cache s') i = seq_view (kv_cache s) i) ∧
      in_flight s' = in_flight s ∧ finished s' = finished s ∧
      (∀ r, active s !! id = Some r →
         out = Some (mk_cancelled id (rq_prompt_token_ids r) (rq_generated_token_ids r))) ∧
      (∀ p, p ∈ pending_requests s → pr_id p = id →
         out = Some (mk_cancelled id (pr_prompt_token_ids p) []))
  | (Err _, s') => s' = s ∧ ∃ r b, active s !! id = Some r ∧ rq_phase r = InFlight b
  | (Panic p, _) => p = Overflow
  end.
Proof.
  intros Hmax Hr. pose proof (sched_reachable_wf c k s Hmax Hr) as Hwf.
  pose proof (cancel_wp id s Hwf) as Hw. unfold wp in Hw.
  destruct (cancel id s) as [[out|e|p] s'] eqn:Ec; simpl in Hw; [|done|done].
  destruct Hw as [_ Hf Hfin _ _ [Hg1 Hg2] Hrest Hq Ha Hp]. split_and!; try done.
  intros r b Hr' Hph. unfold cancel, mbind' at 1, mget at 1 in Ec.
  destruct (find_pending _ _) as [[i p]|] eqn:Ef.
  - apply list_find_Some in Ef as (Hi & <-%bool_decide_eq_true & _).
    destruct (st_pending _ (sw_static _ Hwf) p) as (_ & _ & ?); [by eapply list_elem_of_lookup_2|].
    congruence.
  - rewrite Hr', Hph in Ec. discriminate.
Qed.

(** ** The end-to-end theorem *)
Section Greedy.
Context (model : list Z → Z).

(** What is left of a request's greedy run completes the run of its prompt. *)
Definition on_track (r : Request) : Prop :=
  rq_generated_token_ids r ++
    greedy_decode model (rq_eos r)
      (max_new_tokens (rq_generation r) - length (rq_generated_token_ids r)) (rq_history r) =
  greedy_decode model (rq_eos r) (max_new_tokens (rq_generation r)) (rq_prompt_token_ids r).

(** The device runs [model]: a sampling row is given the model's token for the
    history of its request, a verification row the model's token at each of its
    positions. *)
Definition faithful (s : Sched) (op : @sched_op TokenSampler) : Prop :=
  match op with
  | CompleteBatch id tokens => ∀ b i row token r, in_flight s = Some b →
      batch_sequences b !! i = Some row → tokens !! i = Some token →
      active s !! row_request_id row = Some r → length (rq_history r) ≤ row_context_length row →
      token = model (rq_history r)
  | CompleteVerifyBatch id argmax => ∀ b i row r j, in_flight s = Some b →
      batch_sequences b !! i = Some row → active s !! row_request_id row = Some r →
      j < next_n b →
      argmax !! (i * next_n b + j) = Some (model (rq_history r ++ take j (tail (row_token_ids row))))
  | _ => True
  end.

Definition logged (s : Sched) (op : @sched_op TokenSampler)
    (x : res ContinuousBatchError unit) (log : Log) : Log :=
  match op, x with
  | Submit prompt g _, Ok _ => <[next_request s := (prompt, g)]> log
  | _, _ => log
  end.

(** The states public calls lead to when the device runs [model], with what was
    submitted on the way. *)
Inductive greedy_reachable (c : ContinuousBatchConfig) (k : PagedKvCacheConfig) :
    Log → Sched → Prop :=
| greedy_start s : fresh c k s → greedy_reachable c k ∅ s
| greedy_step log s op x s' : greedy_reachable c k log s → proper s op → faithful s op →
    sched_exec op s = (x, s') → (∀ p, x ≠ Panic p) → ¬ exhausted s' →
    greedy_reachable c k (logged s op x log) s'.

Lemma greedy_is_reachable c k log s : greedy_reachable c k log s → sched_reachable c k s.
Proof. induction 1; [by constructor|by eapply sched_step]. Qed.

Definition all_on_track (s : Sched) : Prop := ∀ id r, active s !! id = Some r → on_track r.

Lemma on_track_phase p r : on_track (set_phase p r) ↔ on_track r.
Proof. done. Qed.

Lemma on_track_admitted id p r : admitted id p r → on_track r.
Proof. intros (_ & _ & _ & _ & Hg & Hh). unfold on_track. rewrite Hg, Hh. simpl. by rewrite Nat.sub_0_r. Qed.

(** Tokens that follow the model move a request along its run; when it lands
    without ending it stays on track, when it ends it has the whole run. *)
Lemma landing_on_track c r id tokens :
  request_wf c r → on_track r → tokens ≠ [] →
  length (rq_generated_token_ids r ++ tokens) ≤ max_new_tokens (rq_generation r) →
  (∀ j t, tokens !! j = Some t → t = model (rq_history r ++ take j tokens) ∧
     (S j < length tokens → t ∉ rq_eos r)) →
  (∀ r', (landing r id tokens).1 = Some r' → on_track r') ∧
  ∀ f, (landing r id tokens).2 = Some f →
    fg_request_id f = id ∧ fg_prompt_token_ids f = rq_prompt_token_ids r ∧
    fg_generated_token_ids f =
      greedy_decode model (rq_eos r) (max_new_tokens (rq_generation r)) (rq_prompt_token_ids r).
Proof.
  intros Hr Ht Hne Hlen Hmodel. unfold landing. simpl. rewrite <- (rw_eos _ _ Hr).
  destruct (exists_last Hne) as (front & final & Heq). subst tokens.
  rewrite last_snoc. simpl. rewrite !length_app in Hlen. simpl in Hlen.
  set (left := max_new_tokens (rq_generation r) - length (rq_generated_token_ids r)).
  assert (greedy_decode model (rq_eos r) left (rq_history r) = front ++
    greedy_decode model (rq_eos r) (left - length front) (rq_history r ++ front)) as Hfront.
  { apply greedy_decode_app; [|unfold left; lia]. intros j t Hj.
    pose proof (lookup_lt_Some _ _ _ Hj) as Hlt.
    destruct (Hmodel j t) as [Hm He]; [by rewrite lookup_app_l|].
    split; [apply He; rewrite length_app; simpl; lia|].
    by rewrite take_app_le in Hm by lia. }
  assert (final = model (rq_history r ++ front)) as Hfinal.
  { destruct (Hmodel (length front) final) as [Hm _].
    - rewrite lookup_app_r, Nat.sub_diag by lia. done.
    - rewrite take_app_length in Hm. done. }
  assert (∃ n, left - length front = S n) as [n Hn] by (exists (left - length front - 1); unfold left in *; lia).
  unfold on_track in Ht. fold left in Ht. rewrite Hfront, Hn in Ht. simpl in Ht.
  rewrite <- Hfinal in Ht. destruct (_ || _) eqn:Edone; split; intros x; [done| |intros [= <-]|done].
  - intros [= <-]. simpl. split_and!; [done|done|]. rewrite <- Ht, app_assoc, <- !app_assoc. f_equal. f_equal.
    case_decide as He; [done|]. destruct n as [|n]; [done|]. exfalso.
    apply orb_true_iff in Edone as [Hd|Hd]; apply bool_decide_eq_true in Hd; [done|].
    rewrite !length_app in Hd. simpl in Hd. unfold left in Hn. lia.
  - apply orb_false_iff in Edone as [He _]. apply bool_decide_eq_false in He.
    rewrite decide_False in Ht by done. unfold on_track. simpl. rewrite <- Ht.
    rewrite !length_app. simpl. rewrite <- !app_assoc. simpl.
    replace (max_new_tokens (rq_generation r) - _) with n by (unfold left in Hn; lia). done.
Qed.

(** The tokens a request generates are the greedy run of its submission. *)
Definition whole_run (r : Request) (f : FinishedGeneration) : Prop :=
  fg_prompt_token_ids f = rq_prompt_token_ids r ∧ fg_generated_token_ids f =
    greedy_decode model (rq_eos r) (max_new_tokens (rq_generation r)) (rq_prompt_token_ids r).

Definition same_submission (r r' : Request) : Prop :=
  rq_prompt_token_ids r' = rq_prompt_token_ids r ∧ rq_generation r' = rq_generation r.

(** One step of the scheduler, seen from the requests' runs. *)
Record advances (s s' : Sched) : Prop := {
  ad_next : next_request s' = next_request s;
  ad_queue : ∀ p, p ∈ pending_requests s' → p ∈ pending_requests s;
  ad_active : ∀ id r', active s' !! id = Some r' → on_track r' ∧
    ((∃ p, p ∈ pending_requests s ∧ admitted id p r') ∨
     ∃ r, active s !! id = Some r ∧ same_submission r r');
  ad_finished : ∀ f, f ∈ finished s' → f ∈ finished s ∨
    ∃ r, active s !! fg_request_id f = Some r ∧ whole_run r f
}.

Lemma landing_same r id tokens r' : (landing r id tokens).1 = Some r' → same_submission r r'.
Proof. unfold landing. simpl. by destruct (_ || _); intros [= <-]. Qed.

Lemma kept_advances s s' : all_on_track s → kept s s' → finished s' = finished s → advances s s'.
Proof.
  intros Ht [Hn Hq Ha] Hf. split; [done|done| |rewrite Hf; by left].
  intros id r' Hr'. destruct (Ha id r' Hr') as [(p & Hp & Had)|(r & Hr & He)].
  - split; [by eapply on_track_admitted|left; by exists p].
  - split.
    + rewrite <- (on_track_phase NeedsPrefill r'), He, on_track_phase. by apply (Ht id).
    + right. exists r. split; [done|]. destruct r, r'. unfold set_phase in He. simpl in He.
      by injection He as -> -> -> -> -> -> ->.
Qed.

Lemma wp_ok {A} (m : M Sched ContinuousBatchError A) QOk QErr s a s' :
  wp m (post QOk QErr) s → m s = (Ok a, s') → QOk a s'.
Proof. unfold wp. intros Hw Heq. by rewrite Heq in Hw. Qed.

Lemma void_s_ok {A} (m : M Sched ContinuousBatchError A) s s' :
  void_s m s = (Ok tt, s') → ∃ a, m s = (Ok a, s').
Proof.
  unfold void_s, mbind'. destruct (m s) as [[a|e|p] s1]; [|discriminate..].
  intros [= <-]. by exists a.
Qed.

(** The tokens a verified row produces follow the model. *)
Lemma produces_model c width r row preds tokens :
  request_wf c r → length (row_token_ids row) = width → length preds = width → 0 < width →
  (∀ j, j < width → preds !! j = Some (model (rq_history r ++ take j (tail (row_token_ids row))))) →
  produces width r row preds tokens →
  tokens ≠ [] ∧ ∀ j t, tokens !! j = Some t →
    t = model (rq_history r ++ take j tokens) ∧ (S j < length tokens → t ∉ rq_eos r).
Proof.
  intros Hr Hrow Hp Hw Hm Hprod. pose proof (rw_generated _ _ Hr).
  destruct (accept_draft_spec width
    (max_new_tokens (rq_generation r) - length (rq_generated_token_ids r)) (rq_eos r)
    (row_token_ids row) preds 0 []) as (n & Heq & Hn & _ & Hacc & _); [done|done|done|lia| |].
  { destruct preds; [simpl in *; lia|done]. }
  unfold produces in Hprod. rewrite Heq in Hprod. injection Hprod as <-. simpl.
  split; [intros Hx; apply (f_equal length) in Hx; rewrite length_take in Hx; simpl in Hx; lia|].
  intros j t Hj. rewrite length_take.
  assert (j < n) as Hjn by (apply lookup_lt_Some in Hj; rewrite length_take in Hj; lia).
  rewrite lookup_take_lt in Hj by done. split.
  - rewrite Hm in Hj by lia. injection Hj as <-. f_equal. f_equal.
    apply list_eq. intros i. rewrite take_take.
    destruct (decide (i < j)) as [Hi|Hi].
    + rewrite !lookup_take_lt by lia. destruct (lookup_lt_is_Some_2 preds i) as [p Hpi]; [lia|].
      destruct (Hacc i p) as [_ Hrowi]; [lia|done|]. rewrite Hpi.
      simpl in Hrowi. rewrite Nat.add_1_r in Hrowi. by destruct (row_token_ids row).
    + rewrite !lookup_ge_None_2; [done|..]; rewrite length_take; lia.
  - intros Hlt. by apply (Hacc j t); [lia|].
Qed.

Lemma complete_batch_advances id tokens s s' :
  sched_wf s → all_on_track s → proper s (CompleteBatch id tokens) →
  faithful s (CompleteBatch id tokens) → complete_batch id tokens s = (Ok tt, s') → advances s s'.
Proof.
  intros Hwf Ht Hop Hfaith Heq. pose proof (sw_static _ Hwf) as Hst.
  destruct (wp_ok _ _ _ _ _ _ (complete_batch_wp id tokens s Hwf Hop) Heq)
    as (_ & b & Hb & (b' & Hb' & _ & Hlen & _) & [Hse Hpd Hrow Hrest Hfin]). simplify_eq.
  assert (∀ i row token r, batch_sequences b !! i = Some row → tokens !! i = Some token →
    active s !! row_request_id row = Some r →
    (∀ r', (outcome r row token).1 = Some r' → on_track r' ∧ same_submission r r') ∧
    ∀ f, (outcome r row token).2 = Some f →
      fg_request_id f = row_request_id row ∧ whole_run r f) as Hland.
  { intros i row token r Hi Hti Hr. unfold outcome. case_decide as Hc.
    { split; intros x; [|done]. simpl. intros [= <-]. split; [by apply (Ht _ _ Hr)|done]. }
    destruct (st_request _ Hst _ _ Hr) as [Hrw _]. pose proof (rw_generated _ _ Hrw).
    destruct (landing_on_track _ r (row_request_id row) [token] Hrw) as [Hl Hf].
    - by apply (Ht _ _ Hr).
    - done.
    - rewrite length_app; simpl; lia.
    - intros [|j] t Hj; [|done]. injection Hj as <-. simpl. rewrite app_nil_r. split; [|lia].
      eapply Hfaith; [done..|lia].
    - split; [intros r' Hr'; split; [by apply Hl|by eapply landing_same]|done]. }
  split; [apply (se_next_request _ _ Hse)|simpl in Hpd; by rewrite Hpd|..].
  - intros i r' Hr'. destruct (decide (i ∈ map row_request_id (batch_sequences b))) as [Hi|Hi].
    + apply list_elem_of_fmap in Hi as (row & -> & [j Hj]%list_elem_of_lookup).
      destruct (lookup_lt_is_Some_2 tokens j) as [token Htok];
        [rewrite Hlen; by eapply lookup_lt_Some|].
      pose proof (sw_flight _ Hwf) as Hfl. rewrite Hb in Hfl. destruct Hfl as (Hrows & _).
      destruct (rs_row _ _ _ _ _ Hrows row) as [_ (r & Hr & _)]; [by eapply list_elem_of_lookup_2|].
      rewrite (Hrow j row token r Hj Htok Hr) in Hr'.
      destruct (proj1 (Hland j row token r Hj Htok Hr) r' Hr'). split; [done|]. right. by exists r.
    + rewrite (proj1 (Hrest i Hi)) in Hr'. split; [by apply (Ht i)|]. right. by exists r'.
  - intros f Hf. rewrite Hfin in Hf. apply elem_of_app in Hf as [Hf|Hf]; [by left|right].
    apply list_elem_of_omap in Hf as ([row token] & Hin & Hx). simpl in Hx.
    destruct (active s !! row_request_id row) as [r|] eqn:Hr; [|done]. simpl in Hx.
    apply list_elem_of_lookup in Hin as [j Hj]. apply lookup_zip_Some in Hj as [Hj Htok].
    destruct (proj2 (Hland j row token r Hj Htok Hr) f Hx) as [Hid ?]. exists r. by rewrite Hid.
Qed.

Lemma slice_lookup {A} a b (l l' : list A) j : slice a b l = Some l' → j < b - a →
  l' !! j = l !! (a + j).
Proof.
  unfold slice. case_decide; [|done]. intros [= <-] Hj. by rewrite lookup_take_lt, lookup_drop.
Qed.

Lemma slice_length {A} a b (l l' : list A) : slice a b l = Some l' → length l' = b - a.
Proof. unfold slice. case_decide; [|done]. intros [= <-]. rewrite length_take, length_drop. lia. Qed.

Lemma verify_batch_advances id argmax s outs s' :
  sched_wf s → all_on_track s → faithful s (CompleteVerifyBatch id argmax) →
  complete_verify_batch id argmax s = (Ok outs, s') → advances s s'.
Proof.
  intros Hwf Ht Hfaith Heq. pose proof (sw_static _ Hwf) as Hst.
  destruct (wp_ok _ _ _ _ _ _ (complete_verify_batch_wp id argmax s Hwf) Heq)
    as (_ & b & Hb & _ & Hk & Hlen & [Hse Hpd Hlo Hrow Hrest Hfin]).
  pose proof (sw_flight _ Hwf) as Hfl. rewrite Hb in Hfl. destruct Hfl as (Hrows & _).
  assert (∀ i row r tokens, batch_sequences b !! i = Some row → active s !! row_request_id row = Some r →
    outs !! i = Some (row_request_id row, tokens) →
    (∀ r', (landing r (row_request_id row) tokens).1 = Some r' → on_track r' ∧ same_submission r r') ∧
    ∀ f, (landing r (row_request_id row) tokens).2 = Some f →
      fg_request_id f = row_request_id row ∧ whole_run r f) as Hland.
  { intros i row r tokens Hi Hr Ho. destruct (Hrow i row Hi) as (r0 & preds & ts & Hr0 & Hsl & Hprod & Ho' & _).
    simpl in Hr0. simplify_eq. destruct (st_request _ Hst _ _ Hr) as [Hrw _].
    assert (row ∈ batch_sequences b) as Hin by by eapply list_elem_of_lookup_2.
    pose proof (rs_width _ _ _ _ _ Hrows row Hin) as Hw.
    assert (length preds = next_n b) as Hpl by (rewrite (slice_length _ _ _ _ Hsl); lia).
    assert (0 < next_n b) as Hpos.
    { destruct (rs_row _ _ _ _ _ Hrows row Hin) as [_ (? & _ & _ & [Hne _])]. rewrite <- Hw.
      destruct (row_token_ids row); [done|simpl; lia]. }
    assert (∀ j, j < next_n b → preds !! j =
      Some (model (rq_history r ++ take j (tail (row_token_ids row))))) as Hpreds.
    { intros j Hj. rewrite (slice_lookup _ _ _ _ j Hsl) by lia. by apply (Hfaith b i row r j). }
    destruct (produces_model _ _ _ _ _ _ Hrw Hw Hpl Hpos Hpreds Hprod) as [Hne Hmodel].
    destruct (produces_facts _ _ _ _ _ _ Hrw Hw Hpl Hpos Hprod) as [_ Hmax].
    destruct (landing_on_track _ r (row_request_id row) tokens Hrw) as [Hl Hf];
      [by apply (Ht _ _ Hr)|done..|].
    split; [intros r' Hr'; split; [by apply Hl|by eapply landing_same]|done]. }
  split; [apply (se_next_request _ _ Hse)|simpl in Hpd; by rewrite Hpd|..].
  - intros i r' Hr'. destruct (decide (i ∈ map row_request_id (batch_sequences b))) as [Hi|Hi].
    + apply list_elem_of_fmap in Hi as (row & -> & [j Hj]%list_elem_of_lookup).
      destruct (Hrow j row Hj) as (r & preds & tokens & Hr & _ & _ & Ho & Ha). rewrite Ha in Hr'.
      destruct (proj1 (Hland j row r tokens Hj Hr Ho) r' Hr'). split; [done|]. right. by exists r.
    + rewrite (proj1 (Hrest i Hi)) in Hr'. split; [by apply (Ht i)|]. right. by exists r'.
  - intros f Hf. rewrite Hfin in Hf. apply elem_of_app in Hf as [Hf|Hf]; [by left|right].
    apply list_elem_of_omap in Hf as ([i tokens] & [j Hj]%list_elem_of_lookup & Hx). simpl in Hx.
    destruct (lookup_lt_is_Some_2 (batch_sequences b) j) as [row Hrowj];
      [rewrite <- Hlo; by eapply lookup_lt_Some|].
    destruct (Hrow j row Hrowj) as (r & preds & ts & Hr & _ & _ & Ho & _).
    rewrite Hj in Ho. injection Ho as -> ->. simpl in Hr. rewrite Hr in Hx. simpl in Hx.
    destruct (proj2 (Hland j row r ts Hrowj Hr Hj) f Hx) as [Hid ?]. exists r. by rewrite Hid.
Qed.

Lemma advances_refl s : all_on_track s → advances s s.
Proof. intros Ht. by apply kept_advances. Qed.

(** Calls that touch neither the queue nor the requests nor the results. *)
Lemma fields_advance s s' :
  all_on_track s → next_request s' = next_request s → pending_requests s' = pending_requests s →
  active s' = active s → finished s' = finished s → advances s s'.
Proof.
  intros Ht Hn Hp Ha Hf. apply kept_advances; [done| |done].
  split; [done|by rewrite Hp|]. intros id r. rewrite Ha. right. by exists r.
Qed.

Lemma cache_only_advances s s' : all_on_track s → cache_only s s' → advances s s'.
Proof. intros Ht [-> _]. by apply fields_advance. Qed.

Lemma fail_batch_advances s b s' :
  all_on_track s → failed_batch s b s' → advances s s'.
Proof.
  intros Ht (_ & Hse & Hpd & Hrow & Hrest).
  split; [apply (se_next_request _ _ Hse)|by rewrite Hpd| |rewrite (se_finished _ _ Hse); by left].
  intros i r' Hr'. destruct (decide (i ∈ map row_request_id (batch_sequences b))) as [Hi|Hi].
  - apply list_elem_of_fmap in Hi as (row & -> & Hin). destruct (Hrow row Hin) as [_ Ha].
    rewrite Ha in Hr'. destruct (active s !! row_request_id row) as [r|] eqn:Hr; [|done].
    injection Hr' as <-. split; [by apply (Ht _ _ Hr)|]. right. by exists r.
  - rewrite (proj2 (Hrest i Hi)) in Hr'. split; [by apply (Ht i)|]. right. by exists r'.
Qed.

Lemma cancelled_advances s id c s' : all_on_track s → cancelled s id c s' → advances s s'.
Proof.
  intros Ht [_ _ Hf Hn _ [Hg _] Hrest Hq _ _].
  split; [done|by intros p [Hp _]%Hq| |rewrite Hf; by left].
  intros i r' Hr'. destruct (decide (i = id)) as [->|Hi]; [congruence|].
  rewrite (proj1 (Hrest i Hi)) in Hr'. split; [by apply (Ht i)|]. right. by exists r'.
Qed.

(** A [wp] whose success is described by another lemma. *)
Lemma wp_refine {A} (m : M Sched ContinuousBatchError A) QOk QErr (QOk' : Sched → Prop)
    (QErr' : ContinuousBatchError → Sched → Prop) s :
  wp m (post QOk QErr) s → (∀ a s', m s = (Ok a, s') → QOk' s') → (∀ e s', QErr e s' → QErr' e s') →
  wp m (post (λ _ s', QOk' s') QErr') s.
Proof. unfold wp. destruct (m s) as [[a|e|p] s'] eqn:E; simpl; eauto. Qed.

(** Every call but a submission moves the requests along their runs. *)
Lemma sched_exec_advances op s :
  sched_wf s → all_on_track s → proper s op → faithful s op →
  wp (sched_exec op)
    (post (λ _ s', match op with Submit _ _ _ => True | _ => advances s s' end)
          (λ _ s', advances s s' ∨ exhausted s')) s.
Proof.
  intros Hwf Ht Hop Hfa.
  assert (∀ s', s' = s → advances s s' ∨ exhausted s') as Hsame
    by (intros s' ->; left; by apply advances_refl).
  assert (∀ s', cache_only s s' → advances s s') as Hcache by (intros; by apply cache_only_advances).
  destruct op; simpl in *; try apply void_s_wp.
  - eapply wp_post_mono; [by apply submit_wp|done|intros e; apply Hsame].
  - eapply wp_post_mono; [by apply schedule_wp|..].
    + intros ob s' (_ & _ & _ & ? & _ & _ & _ & ?). by apply kept_advances.
    + intros e s' [(_ & ? & ? & _)|[_ ?]]; [left; by apply kept_advances|by right].
  - eapply wp_refine; [by apply complete_batch_wp| |intros e s' [? _]; by apply Hsame].
    intros [] s'. by apply complete_batch_advances.
  - eapply wp_refine; [by apply complete_verify_batch_wp| |intros e s' [? _]; by apply Hsame].
    intros outs s'. by apply verify_batch_advances.
  - eapply wp_post_mono; [by apply fail_batch_wp| |intros e s' [? _]; by apply Hsame].
    intros [] s' (_ & b & _ & _ & ?). by eapply fail_batch_advances.
  - do 2 wp_step. destruct (in_flight s) as [b|] eqn:Eb; [|apply wp_ret; by apply advances_refl].
    apply void_s_wp. eapply wp_post_mono; [by apply reserve_lookahead_wp|..];
      intros ? s' [_ ?]; [|left]; by apply Hcache.
  - eapply wp_post_mono; [by apply cancel_wp| |intros e s' [? _]; by apply Hsame].
    intros c s'. by apply cancelled_advances.
  - eapply wp_post_mono; [by apply pop_finished_wp| |done]. intros o s' (_ & Ho & ->).
    split; [done|by simpl|intros i r Hr; split; [by apply (Ht i)|right; by exists r]|].
    simpl in *. intros f Hf. left. rewrite Ho. apply elem_of_app. by right.
  - eapply wp_post_mono; [by apply set_speculative_wp| |intros e; apply Hsame].
    intros [] s' [_ [? ->]]. by apply fields_advance.
  - eapply wp_post_mono; [by apply set_caching_wp| |done]. intros [] s' (_ & ? & _). by apply Hcache.
  - eapply wp_post_mono; [by apply set_limit_wp| |intros e; apply Hsame].
    intros [] s' (_ & _ & _ & ->). by apply fields_advance.
Qed.

(** ** The log *)

(** Every request is what was submitted under its id, and is on track. *)
Record told (log : Log) (s : Sched) : Prop := {
  td_fresh : ∀ id e, log !! id = Some e → (id < next_request s)%N;
  td_queue : ∀ p, p ∈ pending_requests s →
    log !! pr_id p = Some (pr_prompt_token_ids p, pr_generation p);
  td_active : ∀ id r, active s !! id = Some r → on_track r ∧
    log !! id = Some (rq_prompt_token_ids r, rq_generation r);
  td_finished : ∀ f, f ∈ finished s → ∃ g,
    log !! fg_request_id f = Some (fg_prompt_token_ids f, g) ∧
    fg_generated_token_ids f =
      greedy_decode model (list_to_set (eos_token_ids g)) (max_new_tokens g) (fg_prompt_token_ids f)
}.

Lemma told_advances log s s' : sched_wf s → told log s → advances s s' → told log s'.
Proof.
  intros Hwf [Hf Hq Ha Hfin] [Hn Hqs Has Hfins]. split.
  - intros id e He. rewrite Hn. by eapply Hf.
  - auto.
  - intros id r' Hr'. destruct (Has id r' Hr') as [Ht [(p & Hp & <- & -> & -> & _)|(r & Hr & -> & ->)]];
      (split; [done|]); [by apply Hq|by apply Ha].
  - intros f Hfs. destruct (Hfins f Hfs) as [?|(r & Hr & -> & ->)]; [auto|].
    exists (rq_generation r). split; [by apply Ha|].
    by rewrite (rw_eos _ _ (proj1 (st_request _ (sw_static _ Hwf) _ _ Hr))).
Qed.

Lemma told_submit log s s' prompt g sampler x :
  sched_wf s → told log s → submit_with_sampler prompt g sampler s = (Ok x, s') →
  told (<[next_request s := (prompt, g)]> log) s'.
Proof.
  intros Hwf [Hf Hq Ha Hfin] Heq. pose proof (sw_static _ Hwf) as Hst.
  destruct (wp_ok _ _ _ _ _ _ (submit_wp prompt g sampler s Hwf) Heq)
    as (_ & -> & _ & Hact & _ & Hn & _ & _ & Hz).
  assert (∀ id e, log !! id = Some e → <[next_request s := (prompt, g)]> log !! id = Some e) as Hold.
  { intros id e He. rewrite lookup_insert_ne; [done|]. intros <-. specialize (Hf _ _ He). lia. }
  split.
  - intros id e. rewrite Hn, lookup_insert. destruct (decide (next_request s = id)); [intros _; lia|]. intros He. specialize (Hf _ _ He). lia.
  - intros p Hp. case_decide; destruct Hz as [_ Hz]; rewrite Hz in Hp; [by apply Hold, Hq|].
    apply elem_of_app in Hp as [Hp| ->%list_elem_of_singleton]; [by apply Hold, Hq|].
    by rewrite lookup_insert_eq.
  - intros id r. rewrite Hact. intros Hr. split; [by eapply Ha|]. by apply Hold, Ha.
  - intros f Hfs. case_decide as Hz0; destruct Hz as [Hz _]; rewrite Hz in Hfs.
    + apply elem_of_app in Hfs as [Hfs| ->%list_elem_of_singleton].
      * destruct (Hfin f Hfs) as (g' & ? & ?). exists g'. split; [by apply Hold|done].
      * exists g. simpl. rewrite lookup_insert_eq, Hz0. done.
    + destruct (Hfin f Hfs) as (g' & ? & ?). exists g'. split; [by apply Hold|done].
Qed.

Lemma fresh_told c k s : fresh c k s → told ∅ s.
Proof.
  intros Hs. destruct (fresh_empty c k s Hs) as (Hp & Ha & Hf & _).
  split; rewrite ?Hp, ?Ha, ?Hf.
  - by intros ? ? ?%lookup_empty_Some.
  - by intros ? ?%elem_of_nil.
  - by intros ? ? ?%lookup_empty_Some.
  - by intros ? ?%elem_of_nil.
Qed.

Lemma greedy_reachable_told c k log s :
  (N.of_nat (max_sequence_length k) ≤ usize_max)%N → greedy_reachable c k log s → told log s.
Proof.
  intros Hmax. induction 1 as [s Hs|log s op x s' Hr IH Hop Hfa Hex Hnp Hnx]; [by eapply fresh_told|].
  pose proof (sched_reachable_wf c k s Hmax (greedy_is_reachable _ _ _ _ Hr)) as Hwf.
  assert (all_on_track s) as Ht by (intros id r Hi; by apply (td_active _ _ IH id r Hi)).
  pose proof (sched_exec_advances op s Hwf Ht Hop Hfa) as Hw. unfold wp in Hw. rewrite Hex in Hw.
  destruct x as [[]|e|p]; simpl in Hw; [|by (destruct Hw; [destruct op; by eapply told_advances|])|by destruct (Hnp p)].
  destruct op; simpl; try by eapply told_advances.
  simpl in Hex. apply void_s_ok in Hex as [a Hex]. by eapply told_submit.
Qed.

(** Claim C1.  Continuous batching is invisible: when the device answers every
    row with the model's greedy token, every generation the scheduler finishes
    has the prompt submitted under its id and exactly the tokens that decoding
    that prompt alone, one token at a time, would give -- whatever was batched
    with it, split in chunks, evicted and recomputed, taken from the prefix
    cache or drafted speculatively on the way. *)
Theorem continuous_batching_equals_greedy_decoding c k log s f :
  (N.of_nat (max_sequence_length k) ≤ usize_max)%N → greedy_reachable c k log s → f ∈ finished s →
  ∃ g, log !! fg_request_id f = Some (fg_prompt_token_ids f, g) ∧
    fg_generated_token_ids f =
      greedy_decode model (list_to_set (eos_token_ids g)) (max_new_tokens g) (fg_prompt_token_ids f).
Proof. intros Hmax Hr Hf. by apply (td_finished _ _ (greedy_reachable_told c k log s Hmax Hr)). Qed.
End Greedy.
End Spec.
