(* ===== verification/ContinuousBatchExamples.v ===== *)
(** * Concrete runs of the scheduler

    A driver that answers every batch the way a deterministic model would, the
    states it reaches, and the instances of the scheduler's theorems there. *)
From S2P Require Import Prelude PagedKv PagedKvPool PagedKvInv PagedKvOps PagedKvPrefix.
From S2P Require Import PagedKvSpec ContinuousBatch ContinuousBatchInv ContinuousBatchSchedule.
From S2P Require Import ContinuousBatchLoop ContinuousBatchOps ContinuousBatchVerify.
From S2P Require Import ContinuousBatchCalls ContinuousBatchSpec.
Open Scope nat_scope.
Open Scope m_scope.

Section Driver.
Context {TokenSampler : Type} `{DefaultHasher} (model : list Z → Z).
Notation Sched := (@ContinuousBatchScheduler TokenSampler).
Implicit Types s : Sched.

(** The model's answers to a batch. *)
Definition history_of (s : Sched) (row : ScheduledSequence) : list Z :=
  from_option rq_history [] (active s !! row_request_id row).

Definition greedy_tokens (s : Sched) (b : ScheduledBatch) : list Z :=
  map (λ row, model (history_of s row)) (batch_sequences b).

Definition greedy_argmax (s : Sched) (b : ScheduledBatch) : list Z :=
  mjoin (map (λ row, map (λ j, model (history_of s row ++ take j (tail (row_token_ids row))))
                         (seq 0 (next_n b))) (batch_sequences b)).

(** Complete the batch in flight, or schedule the next one. *)
Definition turn (s : Sched) : @sched_op TokenSampler :=
  match in_flight s with
  | None => Schedule
  | Some b => match batch_kind b with
              | Verify => CompleteVerifyBatch (batch_id b) (greedy_argmax s b)
              | _ => CompleteBatch (batch_id b) (greedy_tokens s b)
              end
  end.

Lemma turn_proper s : proper s (turn s).
Proof.
  unfold turn. destruct (in_flight s) as [b|] eqn:E; [|done].
  destruct (batch_kind b) eqn:Ek; simpl; [..|done]; intros b' ?; simplify_eq; by rewrite Ek.
Qed.

Lemma turn_faithful s : faithful model s (turn s).
Proof.
  unfold turn. destruct (in_flight s) as [b|] eqn:E; [|done].
  destruct (batch_kind b) eqn:Ek; simpl.
  1,2: intros b' i row token r ? Hi Ht Hr _; simplify_eq; unfold greedy_tokens in Ht;
    rewrite list_lookup_fmap, Hi in Ht; simpl in Ht; injection Ht as <-;
    unfold history_of; by rewrite Hr.
  intros b' i row r j ? Hi Hr Hj. simplify_eq. unfold greedy_argmax.
  apply join_lookup_Some_same_length with (n := next_n b).
  { apply Forall_forall. intros l (row' & -> & _)%list_elem_of_fmap. by rewrite length_map, length_seq. }
  eexists i, _, j. rewrite list_lookup_fmap, Hi. split_and!; [done| |done].
  rewrite list_lookup_fmap, lookup_seq_lt by done. simpl. unfold history_of. by rewrite Hr.
Qed.

(** Public calls other than completions, and turns. *)
Inductive event := Call (op : @sched_op TokenSampler) | Turn.

Definition op_of (s : Sched) (e : event) : @sched_op TokenSampler :=
  match e with
  | Call (CompleteBatch _ _) | Call (CompleteVerifyBatch _ _) | Turn => turn s
  | Call op => op
  end.

Lemma op_of_good s e : proper s (op_of s e) ∧ faithful model s (op_of s e).
Proof. destruct e as [[]|]; simpl; try done; split; apply turn_proper || apply turn_faithful. Qed.

Fixpoint drive (events : list event) (st : Log * Sched) : option (Log * Sched) :=
  match events with
  | [] => Some st
  | e :: rest =>
      match sched_exec (op_of st.2 e) st.2 with
      | (Panic _, _) => None
      | (x, s') =>
          if decide (u64_max ≤ next_reservation (kv_cache s'))%N then None
          else drive rest (logged st.2 (op_of st.2 e) x st.1, s')
      end
  end.

Lemma drive_reachable c k events st st' :
  greedy_reachable model c k st.1 st.2 → drive events st = Some st' →
  greedy_reachable model c k st'.1 st'.2.
Proof.
  revert st. induction events as [|e rest IH]; intros st Hr Heq; simpl in Heq; [by simplify_eq|].
  destruct (sched_exec (op_of st.2 e) st.2) as [x s1] eqn:Ex.
  destruct (op_of_good st.2 e) as [Hop Hfa].
  destruct x as [u|err|p]; [..|done]; case_decide; try done; eapply IH in Heq; try done;
    by eapply greedy_step.
Qed.

Definition start (c : ContinuousBatchConfig) (k : PagedKvCacheConfig) (events : list event) :
    option (Log * Sched) :=
  match new_paged c k with Ok s => drive events (∅, s) | _ => None end.

Lemma start_reachable c k events st :
  start c k events = Some st → greedy_reachable model c k st.1 st.2.
Proof.
  unfold start. destruct (new_paged c k) as [s|e|p] eqn:E; [|done..]. intros Heq.
  apply (drive_reachable c k events (∅, s)); [|done]. apply greedy_start. by eapply fresh_paged.
Qed.
End Driver.

(** ** A run of two requests with a repetitive model, drafts and a small pool *)
Definition cycle (history : list Z) : Z :=
  match last history with Some t => if (t =? 7)%Z then 5%Z else (t + 1)%Z | None => 0%Z end.

Definition demo_batch_config : ContinuousBatchConfig := mk_batch_config 2 8.
Definition demo_pool : PagedKvCacheConfig := mk_config 2 8 16.

Definition submit_demo (prompt : list Z) (n : nat) (eos : list Z) : @event unit :=
  Call (Submit prompt (mk_generation n eos) None).

Definition demo_calls : list (@event unit) :=
  [submit_demo [5; 6; 7; 5; 6]%Z 5 []; submit_demo [1; 2]%Z 4 [5%Z];
   Call (SetSpeculative (Some (mk_speculative 2 2)))].

Definition run_to (n : nat) : option (Log * @ContinuousBatchScheduler unit) :=
  start (H := demo_hasher) cycle demo_batch_config demo_pool (demo_calls ++ replicate n Turn).

Definition state_at (n : nat) : Log * @ContinuousBatchScheduler unit :=
  match run_to n with
  | Some st => st
  | None => (∅, mk_scheduler (mk_batch_config 1 1) default_options demo [] ∅ ∅ [] None true 1 1
                  None None false 0 0 None false 0 0)
  end.

Lemma state_at_reachable n : run_to n = Some (state_at n) →
  greedy_reachable (H := demo_hasher) cycle demo_batch_config demo_pool (state_at n).1 (state_at n).2.
Proof. apply start_reachable. Qed.

(** A verification batch in flight; a decode batch in flight; everything done. *)
Definition verifying := (state_at 3).2.
Definition decoding := (state_at 7).2.
Definition done := state_at 10.

Lemma verifying_reachable :
  sched_reachable (H := demo_hasher) demo_batch_config demo_pool verifying.
Proof.
  eapply (greedy_is_reachable (H := demo_hasher)). apply (state_at_reachable 3).
  vm_compute. reflexivity.
Qed.

Lemma decoding_reachable :
  sched_reachable (H := demo_hasher) demo_batch_config demo_pool decoding.
Proof.
  eapply (greedy_is_reachable (H := demo_hasher)). apply (state_at_reachable 7).
  vm_compute. reflexivity.
Qed.

Lemma done_reachable :
  greedy_reachable (H := demo_hasher) cycle demo_batch_config demo_pool done.1 done.2.
Proof. apply (state_at_reachable 10). vm_compute. reflexivity. Qed.

Lemma demo_pool_fits : (N.of_nat (max_sequence_length demo_pool) ≤ usize_max)%N.
Proof. vm_compute. discriminate. Qed.

Example verifying_rows :
  map row_token_ids (default [] (batch_sequences <$> in_flight verifying)) = [[7; 5; 6]]%Z.
Proof. vm_compute. reflexivity. Qed.

Example decoding_rows :
  map row_token_ids (default [] (batch_sequences <$> in_flight decoding)) = [[7]; [3]]%Z.
Proof. vm_compute. reflexivity. Qed.

Definition first_result : FinishedGeneration :=
  mk_finished 1 [5; 6; 7; 5; 6]%Z [7; 5; 6; 7; 5]%Z false.

Lemma first_result_finished : first_result ∈ finished done.2.
Proof. apply list_elem_of_lookup. exists 0. vm_compute. reflexivity. Qed.

(** [complete_batch] does not look at the kind of the batch in
    flight: completing a verification batch with it commits the
    drafts unverified: the cache ends up past the history of the request. *)
Theorem complete_batch_commits_drafts_unverified :
  match complete_batch (H := demo_hasher) 2 [5]%Z verifying with
  | (Ok _, s') => seq_view (kv_cache s') 1 = Some (8, None) ∧
                  (length ∘ rq_history) <$> active s' !! 1%N = Some 7
  | _ => False
  end.
Proof. vm_compute. split; reflexivity. Qed.

(** The state before the decode batch, and the batch [schedule] builds there. *)
Definition planning := (state_at 6).2.
Definition decode_batch : ScheduledBatch :=
  match in_flight decoding with Some b => b | None => mk_batch 0 Prefill [] end.

Lemma planning_reachable :
  sched_reachable (H := demo_hasher) demo_batch_config demo_pool planning.
Proof.
  eapply (greedy_is_reachable (H := demo_hasher)). apply (state_at_reachable 6).
  vm_compute. reflexivity.
Qed.

Lemma planning_schedules :
  schedule (H := demo_hasher) planning = (Ok (Some decode_batch), decoding).
Proof. vm_compute. reflexivity. Qed.

Lemma decoding_not_verify b : in_flight decoding = Some b → batch_kind b ≠ Verify.
Proof. vm_compute. intros [= <-]. discriminate. Qed.

Lemma done_idle : is_idle done.2 = true.
Proof. vm_compute. reflexivity. Qed.

#[local] Opaque verifying decoding planning done decode_batch demo_hasher.

Example continuous_batching_equals_greedy_decoding_witness :
  ∃ g, done.1 !! fg_request_id first_result = Some (fg_prompt_token_ids first_result, g) ∧
    fg_generated_token_ids first_result =
      greedy_decode cycle (list_to_set (eos_token_ids g)) (max_new_tokens g)
        (fg_prompt_token_ids first_result).
Proof.
  exact (continuous_batching_equals_greedy_decoding (H := demo_hasher) cycle demo_batch_config
    demo_pool done.1 done.2 first_result demo_pool_fits done_reachable first_result_finished).
Defined.

Example scheduler_calls_are_safe_witness :
  match sched_exec (H := demo_hasher) (FailBatch 4) decoding with
  | (Ok _, s') => static_wf s' ∧ (proper decoding (FailBatch 4) → sched_wf s')
  | (Err _, s') => sched_wf s' ∨ @FailBatch unit 4 = Schedule ∧ static_wf s' ∧ exhausted s'
  | (Panic p, _) => p = Overflow
  end.
Proof.
  exact (scheduler_calls_are_safe (H := demo_hasher) demo_batch_config demo_pool decoding (FailBatch 4)
    demo_pool_fits decoding_reachable).
Defined.

Example scheduled_batch_is_sound_witness :
  batch_sequences decode_batch ≠ [] ∧
  batch_size decode_batch * next_n decode_batch ≤ max_batch_tokens (batch_config planning).
Proof.
  destruct (scheduled_batch_is_sound (H := demo_hasher) demo_batch_config demo_pool planning
    decode_batch decoding demo_pool_fits planning_reachable planning_schedules) as (? & _ & ? & _).
  split; assumption.
Defined.

Example fail_batch_undoes_launch_witness :
  match fail_batch 4 decoding with
  | (Ok _, s') => in_flight s' = None
  | (Err _, s') => s' = decoding
  | (Panic p, _) => p = Overflow
  end.
Proof.
  generalize (fail_batch_undoes_launch (H := demo_hasher) demo_batch_config demo_pool decoding 4
    demo_pool_fits decoding_reachable).
  destruct (fail_batch 4 decoding) as [[[]|e|p] s']; [|tauto|tauto].
  intros (b & _ & _ & Hf & _). exact Hf.
Defined.

Example complete_batch_exact_witness :
  match complete_batch (H := demo_hasher) 4 [5; 4]%Z decoding with
  | (Ok _, s') => acceptable decoding 4 [5; 4]%Z
  | (Err _, s') => s' = decoding
  | (Panic p, _) => p = Overflow
  end.
Proof.
  generalize (complete_batch_exact (H := demo_hasher) demo_batch_config demo_pool decoding 4 [5; 4]%Z
    demo_pool_fits decoding_reachable decoding_not_verify).
  destruct (complete_batch 4 [5; 4]%Z decoding) as [[[]|e|p] s']; tauto.
Defined.

Example complete_verify_batch_exact_witness :
  match complete_verify_batch (H := demo_hasher) 2 [5; 6; 7]%Z verifying with
  | (Ok _, s') => in_flight s' = None
  | (Err _, s') => s' = verifying
  | (Panic p, _) => p = Overflow
  end.
Proof.
  generalize (complete_verify_batch_exact (H := demo_hasher) demo_batch_config demo_pool verifying 2
    [5; 6; 7]%Z demo_pool_fits verifying_reachable).
  destruct (complete_verify_batch 2 [5; 6; 7]%Z verifying) as [[outs|e|p] s']; [|tauto|tauto].
  intros (b & _ & _ & _ & Hf & _). exact Hf.
Defined.

Example idle_scheduler_owns_no_pages_witness :
  free_page_count (kv_cache done.2) = num_pages (config (kv_cache done.2)).
Proof.
  exact (idle_scheduler_owns_no_pages (H := demo_hasher) demo_batch_config demo_pool done.2
    demo_pool_fits (greedy_is_reachable (H := demo_hasher) _ _ _ _ _ done_reachable) done_idle).
Defined.

Example cancel_exact_witness :
  match cancel 1 decoding with
  | (Ok _, s') => active s' !! 1%N = None
  | (Err _, s') => s' = decoding
  | (Panic p, _) => p = Overflow
  end.
Proof.
  generalize (cancel_exact (H := demo_hasher) demo_batch_config demo_pool decoding 1
    demo_pool_fits decoding_reachable).
  destruct (cancel 1 decoding) as [[c|e|p] s']; tauto.
Defined.

Example submit_exact_witness :
  match submit_with_sampler [3; 4]%Z (mk_generation 2 []) None (done.2) with
  | (Ok id, _) => admissible done.2 [3; 4]%Z (mk_generation 2 [])
  | (Err _, s') => s' = done.2
  | (Panic _, _) => False
  end.
Proof.
  assert ((N.of_nat (max_sequence_length (config (kv_cache done.2))) ≤ usize_max)%N) as Hmax
    by (vm_compute; discriminate).
  generalize (submit_exact done.2 [3; 4]%Z (mk_generation 2 []) None Hmax).
  destruct (submit_with_sampler [3; 4]%Z (mk_generation 2 []) None done.2) as [[id|e|p] s']; tauto.
Defined.
