(* ===== verification/GenerationControl.v ===== *)
(** * Request controls: stop sequences and cancellation

    src/src/generation/control.rs.  The stop-sequence matcher keeps one
    prefix-function automaton per pattern; the theorem of this file says that it
    reports exactly the first pattern that ends the generated tokens, the way
    comparing every suffix would. *)
From S2P Require Import Prelude.
Open Scope nat_scope.
Open Scope m_scope.

(** [GenerationError(pub String)] *)
Definition GenerationError : Type := string.
Notation Gen := (res GenerationError).

(** A call outside this development returns a value or an error; its panics are
    not modelled. *)
Notation Fallible A := (GenerationError + A)%type.
Definition lift {A} (x : Fallible A) : Gen A :=
  match x with inl e => Err e | inr a => Ok a end.

(** The flag of a request, as its observers see it: the value of the n-th
    [load] of the atomic.  [cancel] only ever sets it. *)
Definition GenerationCancellation : Type := nat → bool.
Definition one_shot (c : GenerationCancellation) : Prop := ∀ i j, i ≤ j → c i = true → c j = true.

Record GenerationControl := mk_control {
  stop_token_sequences : list (list Z);
  cancellation : option GenerationCancellation
}.

(** The observation numbered [clock]. *)
Definition is_cancelled (control : GenerationControl) (clock : nat) : bool :=
  match cancellation control with Some c => c clock | None => false end.

Definition one_shot_control (control : GenerationControl) : Prop :=
  ∀ c, cancellation control = Some c → one_shot c.

(** [token < 0 || token as usize >= vocab_size] *)
Definition outside (vocab_size : nat) (token : Z) : bool :=
  bool_decide (token < 0)%Z || bool_decide (Z.of_nat vocab_size ≤ token)%Z.

Fixpoint validate_pattern (vocab_size index : nat) (pattern : list Z) : Gen unit :=
  match pattern with
  | [] => Ok tt
  | token :: rest =>
      if outside vocab_size token then
        Err ("stop sequence " +:+ pretty (N.of_nat index) +:+ " token " +:+ pretty token +:+
             " is outside vocabulary [0, " +:+ pretty (N.of_nat vocab_size) +:+ ")")
      else validate_pattern vocab_size index rest
  end.

Fixpoint validate_patterns (vocab_size index : nat) (patterns : list (list Z)) : Gen unit :=
  match patterns with
  | [] => Ok tt
  | pattern :: rest =>
      if decide (pattern = []) then
        Err ("stop sequence " +:+ pretty (N.of_nat index) +:+ " must not be empty")
      else
        do? _ := validate_pattern vocab_size index pattern in
        validate_patterns vocab_size (S index) rest
  end.

Definition validate_control (control : GenerationControl) (vocab_size : nat) : Gen unit :=
  validate_patterns vocab_size 0 (stop_token_sequences control).

Inductive GenerationFinishReason : Set :=
| MaxNewTokens
| EosToken (token : Z)
| StopSequence (index : nat)
| Cancelled.

#[export] Instance GenerationFinishReason_eq_dec : EqDecision GenerationFinishReason.
Proof. solve_decision. Defined.

Record GenerationEvent := mk_event {
  event_token_id : Z;
  event_generated_token_ids : list Z;
  event_finish_reason : option GenerationFinishReason
}.

(** ** The matcher *)
Record StopSequenceMatcher := mk_matcher {
  patterns : list (list Z);
  prefixes : list (list nat);
  matched : list nat
}.

(** [while length > 0 && pattern[length] != token { length = prefix[length - 1] }] *)
Fixpoint fall_back (fuel : nat) (pattern : list Z) (prefix : list nat) (token : Z) (length : nat) :
    Gen nat :=
  match fuel with
  | O => Panic OutOfFuel
  | S fuel' =>
      if decide (0 < length) then
        do? expected := match pattern !! length with Some p => Ok p | None => Panic OutOfBounds end in
        if decide (expected ≠ token) then
          do? shorter := match prefix !! (length - 1) with Some l => Ok l | None => Panic OutOfBounds end in
          fall_back fuel' pattern prefix token shorter
        else Ok length
      else Ok length
  end.

(** The loop, then [if pattern[length] == token { length += 1 }]. *)
Definition advance (pattern : list Z) (prefix : list nat) (token : Z) (length : nat) : Gen nat :=
  do? length := fall_back (S length) pattern prefix token length in
  match pattern !! length with
  | None => Panic OutOfBounds
  | Some expected => Ok (if decide (expected = token) then length + 1 else length)
  end.

(** One turn of the loop of [new] and the loop itself. *)
Definition prefix_step (pattern : list Z) (prefix : list nat) (index : nat) : Gen (list nat) :=
  do? length := match prefix !! (index - 1) with Some l => Ok l | None => Panic OutOfBounds end in
  do? token := match pattern !! index with Some t => Ok t | None => Panic OutOfBounds end in
  do? length := advance pattern prefix token length in
  Ok (<[index := length]> prefix).

Fixpoint prefix_loop (pattern : list Z) (prefix : list nat) (indices : list nat) : Gen (list nat) :=
  match indices with
  | [] => Ok prefix
  | index :: rest =>
      do? prefix := prefix_step pattern prefix index in
      prefix_loop pattern prefix rest
  end.

Definition prefix_function (pattern : list Z) : Gen (list nat) :=
  prefix_loop pattern (replicate (length pattern) 0) (seq 1 (length pattern - 1)).

Fixpoint prefix_functions (patterns : list (list Z)) : Gen (list (list nat)) :=
  match patterns with
  | [] => Ok []
  | pattern :: rest =>
      do? prefix := prefix_function pattern in
      do? more := prefix_functions rest in
      Ok (prefix :: more)
  end.

Definition new_matcher (patterns : list (list Z)) : Gen StopSequenceMatcher :=
  do? prefixes := prefix_functions patterns in
  Ok (mk_matcher patterns prefixes (replicate (length patterns) 0)).

(** The state of one pattern after a token, and whether the pattern is complete. *)
Definition push_pattern (pattern : list Z) (prefix : list nat) (token : Z) (length : nat) :
    Gen (nat * bool) :=
  do? length := advance pattern prefix token length in
  if decide (length = List.length pattern) then
    match prefix !! (length - 1) with Some l => Ok (l, true) | None => Panic OutOfBounds end
  else Ok (length, false).

Fixpoint push_loop (index : nat) (patterns : list (list Z)) (prefixes : list (list nat))
    (matched : list nat) (token : Z) (first_match : option nat) : Gen (list nat * option nat) :=
  match patterns, prefixes, matched with
  | [], _, _ => Ok ([], first_match)
  | pattern :: patterns, prefix :: prefixes, length :: matched =>
      do? step := push_pattern pattern prefix token length in
      let first_match :=
        if (step : nat * bool).2 then Some (default index first_match) else first_match in
      do? rest := push_loop (S index) patterns prefixes matched token first_match in
      Ok (step.1 :: rest.1, rest.2)
  | _, _, _ => Panic OutOfBounds
  end.

Definition push (m : StopSequenceMatcher) (token : Z) : Gen (option nat * StopSequenceMatcher) :=
  do? out := push_loop 0 (patterns m) (prefixes m) (matched m) token None in
  Ok (out.2, mk_matcher (patterns m) (prefixes m) out.1).

(** ** Validation *)
Definition in_vocabulary (vocab_size : nat) (token : Z) : Prop := (0 ≤ token < Z.of_nat vocab_size)%Z.

Lemma outside_spec vocab_size token : outside vocab_size token = false ↔ in_vocabulary vocab_size token.
Proof.
  unfold outside, in_vocabulary. rewrite orb_false_iff, !bool_decide_eq_false. lia.
Qed.

Lemma outside_true vocab_size token : outside vocab_size token = true ↔ ¬ in_vocabulary vocab_size token.
Proof. rewrite <- outside_spec. by destruct (outside vocab_size token). Qed.

Lemma validate_pattern_spec vocab_size index pattern :
  match validate_pattern vocab_size index pattern with
  | Ok _ => ∀ t, t ∈ pattern → in_vocabulary vocab_size t
  | Err _ => ¬ ∀ t, t ∈ pattern → in_vocabulary vocab_size t
  | Panic _ => False
  end.
Proof.
  induction pattern as [|t pattern IH]; simpl; [by intros ? ?%elem_of_nil|].
  destruct (outside vocab_size t) eqn:E.
  - apply outside_true in E. intros Hx. apply E, Hx. by left.
  - apply outside_spec in E. destruct (validate_pattern vocab_size index pattern);
      [|intros Hx; apply IH; intros t' ?; apply Hx; by right|done].
    intros t' [->|?]%elem_of_cons; auto.
Qed.

Definition valid_patterns (vocab_size : nat) (ps : list (list Z)) : Prop :=
  ∀ p, p ∈ ps → p ≠ [] ∧ ∀ t, t ∈ p → in_vocabulary vocab_size t.

Lemma validate_patterns_spec vocab_size index ps :
  match validate_patterns vocab_size index ps with
  | Ok _ => valid_patterns vocab_size ps
  | Err _ => ¬ valid_patterns vocab_size ps
  | Panic _ => False
  end.
Proof.
  unfold valid_patterns. revert index. induction ps as [|p ps IH]; intros index; simpl;
    [by intros ? ?%elem_of_nil|].
  case_decide as Hp; [intros Hx; by destruct (Hx p) as [? _]; [left|]|].
  pose proof (validate_pattern_spec vocab_size index p) as Hpat.
  destruct (validate_pattern vocab_size index p); simpl; [|intros Hx; apply Hpat; apply (Hx p); by left|done].
  specialize (IH (S index)). destruct (validate_patterns vocab_size (S index) ps);
    [|intros Hx; apply IH; intros p' ?; apply Hx; by right|done].
  intros p' [->|?]%elem_of_cons; auto.
Qed.

(** ** The automaton of one pattern *)

(** [l] is the longest prefix of [pattern], of fewer than [bound] tokens, that
    ends [history]. *)
Record longest (pattern : list Z) (bound : nat) (history : list Z) (l : nat) : Prop := {
  lg_bound : l < bound;
  lg_suffix : take l pattern `suffix_of` history;
  lg_max : ∀ k, k < bound → take k pattern `suffix_of` history → k ≤ l
}.

(** The first [n] entries of the prefix function: the longest proper border. *)
Definition borders (pattern : list Z) (prefix : list nat) (n : nat) : Prop :=
  length prefix = length pattern ∧ n ≤ length pattern ∧
  ∀ i, i < n → ∃ l, prefix !! i = Some l ∧ l ≤ i ∧
    longest pattern (length pattern) (drop 1 (take (S i) pattern)) l.

Lemma suffix_shorter {A} (a b h : list A) :
  a `suffix_of` h → b `suffix_of` h → length a ≤ length b → a `suffix_of` b.
Proof.
  intros Ha Hb Hl. destruct (suffix_weak_total _ _ _ Ha Hb) as [?|Hba]; [done|].
  by rewrite (suffix_length_eq _ _ Hba Hl).
Qed.

(** A shorter suffix of the same history ends the part without its first token. *)
Lemma border_of (pattern h : list Z) k l :
  take k pattern `suffix_of` h → take (S l) pattern `suffix_of` h → k ≤ l → S l ≤ length pattern →
  take k pattern `suffix_of` drop 1 (take (S l) pattern).
Proof.
  intros Hk Hl Hle Hlen. apply (suffix_shorter _ _ h); [done|..].
  - etransitivity; [|exact Hl]. apply suffix_drop.
  - rewrite length_drop, !length_take. lia.
Qed.

Lemma suffix_snoc_inv (a h : list Z) x y : a ++ [x] `suffix_of` h ++ [y] → x = y ∧ a `suffix_of` h.
Proof. intros [z Hz]. rewrite app_assoc in Hz. apply app_inj_tail in Hz as [-> ->]. split; [done|by exists z]. Qed.

(** What falling back from [l] finds: the longest prefix that [token] extends. *)
Definition extends (pattern h : list Z) (token : Z) (k : nat) : Prop :=
  take k pattern `suffix_of` h ∧ pattern !! k = Some token.

Lemma fall_back_spec pattern prefix token h n l fuel :
  borders pattern prefix n → l ≤ n → l < length pattern → l < fuel →
  take l pattern `suffix_of` h → (∀ k, extends pattern h token k → k ≤ l) →
  ∃ l', fall_back fuel pattern prefix token l = Ok l' ∧ l' ≤ l ∧ take l' pattern `suffix_of` h ∧
    (∀ k, extends pattern h token k → k ≤ l') ∧ (0 < l' → pattern !! l' = Some token).
Proof.
  intros (Hlp & Hn & Hb). revert l. induction fuel as [|fuel IH]; intros l Hln Hl Hf Hs Hmax; [lia|].
  simpl. case_decide as Hpos; [|exists l; split_and!; [done..|lia]].
  destruct (lookup_lt_is_Some_2 pattern l Hl) as [p Hp]. rewrite Hp. simpl.
  case_decide as Hne; [|exists l; rewrite Hp; split_and!; [done..|]; intros _; f_equal;
    destruct (decide (p = token)); [done|by destruct Hne]].
  destruct (Hb (l - 1)) as (b & Hbl & Hble & [Hbb Hbs Hbmax]); [lia|]. rewrite Hbl. simpl.
  replace (S (l - 1)) with l in * by lia.
  destruct (IH b) as (l' & -> & ? & ? & ? & ?); [lia|lia|lia|..].
  - etransitivity; [exact Hbs|]. etransitivity; [apply suffix_drop|done].
  - intros k Hk. pose proof (Hmax k Hk) as Hkl. destruct Hk as [Hks Hkt].
    destruct (decide (k = l)) as [->|]; [congruence|]. apply Hbmax; [lia|].
    replace l with (S (l - 1)) by lia. apply (border_of _ h); [done| |lia|lia].
    by replace (S (l - 1)) with l by lia.
  - exists l'. split_and!; [done|lia|done..].
Qed.

Lemma advance_spec pattern prefix token h n l :
  borders pattern prefix n → l ≤ n → longest pattern (length pattern) h l →
  ∃ l', advance pattern prefix token l = Ok l' ∧ l' ≤ S l ∧
    longest pattern (S (length pattern)) (h ++ [token]) l'.
Proof.
  intros Hb Hln [Hl Hs Hmax].
  destruct (fall_back_spec pattern prefix token h n l (S l) Hb Hln Hl ltac:(lia) Hs)
    as (l1 & Hfall & Hle & Hs1 & Hmax1 & Htok).
  { intros k [Hk Hkt]. apply Hmax; [by eapply lookup_lt_Some|done]. }
  unfold advance. rewrite Hfall. simpl.
  destruct (lookup_lt_is_Some_2 pattern l1) as [p Hp]; [lia|]. rewrite Hp.
  assert (∀ k, k < S (length pattern) → take k pattern `suffix_of` h ++ [token] →
    k = 0 ∨ ∃ k', k = S k' ∧ extends pattern h token k') as Hinv.
  { intros [|k] Hk Hsuf; [by left|right]. exists k. split; [done|].
    destruct (lookup_lt_is_Some_2 pattern k) as [q Hq]; [lia|].
    rewrite (take_S_r _ _ _ Hq) in Hsuf. apply suffix_snoc_inv in Hsuf as [-> ?]. done. }
  case_decide as He; eexists; (split; [done|]); (split; [lia|]).
  - subst p. rewrite Nat.add_1_r. split; [lia| |].
    + rewrite (take_S_r _ _ _ Hp). destruct Hs1 as [z ->]. exists z. by rewrite app_assoc.
    + intros k Hk Hsuf. destruct (Hinv k Hk Hsuf) as [->|(k' & -> & Hx)]; [lia|].
      apply Hmax1 in Hx. lia.
  - assert (l1 = 0) as ->.
    { destruct (decide (0 < l1)) as [Hpos|]; [|lia]. specialize (Htok Hpos). congruence. }
    split; [lia| |].
    + simpl. apply suffix_nil.
    + intros k Hk Hsuf. destruct (Hinv k Hk Hsuf) as [->|(k' & -> & Hx)]; [lia|].
      pose proof (Hmax1 _ Hx). destruct Hx as [_ Hx]. assert (k' = 0) as -> by lia. congruence.
Qed.

(** ** The prefix function *)
Lemma longest_start pattern : pattern ≠ [] → longest pattern (length pattern) [] 0.
Proof.
  intros Hne. split; [destruct pattern; [done|simpl; lia]|done|].
  intros k Hk Hs%suffix_length. rewrite length_take in Hs. simpl in Hs. lia.
Qed.

Lemma prefix_step_spec pattern prefix i :
  borders pattern prefix (S i) → S i < length pattern →
  ∃ prefix', prefix_step pattern prefix (S i) = Ok prefix' ∧ borders pattern prefix' (S (S i)).
Proof.
  intros Hb Hi. pose proof Hb as (Hlp & Hn & Hl). unfold prefix_step.
  replace (S i - 1) with i by lia. destruct (Hl i) as (l & Hpl & Hle & Hlong); [lia|].
  rewrite Hpl. simpl. destruct (lookup_lt_is_Some_2 pattern (S i) Hi) as [t Ht]. rewrite Ht. simpl.
  destruct (advance_spec pattern prefix t _ (S i) l Hb ltac:(lia) Hlong) as (l' & -> & Hle' & Hlong').
  simpl. eexists. split; [done|]. split_and!; [by rewrite length_insert|lia|].
  intros j Hj. destruct (decide (j = S i)) as [->|Hne].
  - exists l'. rewrite list_lookup_insert_eq by lia. split_and!; [done|lia|].
    assert (drop 1 (take (S (S i)) pattern) = drop 1 (take (S i) pattern) ++ [t]) as Heq.
    { rewrite (take_S_r _ _ _ Ht), drop_app_le; [done|]. rewrite length_take. lia. }
    rewrite Heq. destruct Hlong' as [_ Hs Hmax]. split; [lia|done|]. intros k Hk. apply Hmax. lia.
  - rewrite list_lookup_insert_ne by done. apply Hl. lia.
Qed.

Lemma prefix_loop_spec pattern prefix i :
  borders pattern prefix (S i) → i < length pattern →
  ∃ prefix', prefix_loop pattern prefix (seq (S i) (length pattern - S i)) = Ok prefix' ∧
    borders pattern prefix' (length pattern).
Proof.
  remember (length pattern - S i) as m eqn:Em. revert prefix i Em.
  induction m as [|m IH]; intros prefix i Em Hb Hi; simpl.
  - exists prefix. split; [done|]. by replace (length pattern) with (S i) by lia.
  - destruct (prefix_step_spec pattern prefix i Hb) as (prefix' & -> & Hb'); [lia|]. simpl.
    apply IH; [lia|done|lia].
Qed.

Lemma prefix_function_spec pattern : pattern ≠ [] →
  ∃ prefix, prefix_function pattern = Ok prefix ∧ borders pattern prefix (length pattern).
Proof.
  intros Hne. assert (0 < length pattern) by (destruct pattern; [done|simpl; lia]).
  apply (prefix_loop_spec pattern _ 0); [|done]. split_and!; [by rewrite length_replicate|lia|].
  intros i Hi. assert (i = 0) as -> by lia. exists 0. rewrite lookup_replicate_2 by lia.
  split_and!; [done|done|]. destruct pattern as [|t pattern]; [done|]. simpl. by apply longest_start.
Qed.

(** ** The matcher *)
Definition pattern_state (history : list Z) (pattern : list Z) (prefix : list nat) (l : nat) : Prop :=
  pattern ≠ [] ∧ borders pattern prefix (length pattern) ∧ longest pattern (length pattern) history l.

(** After [history] was pushed. *)
Definition matcher_state (history : list Z) (m : StopSequenceMatcher) : Prop :=
  Forall3 (pattern_state history) (patterns m) (prefixes m) (matched m).

Lemma push_pattern_spec pattern prefix token history l :
  pattern_state history pattern prefix l →
  ∃ l', push_pattern pattern prefix token l =
      Ok (l', bool_decide (pattern `suffix_of` history ++ [token])) ∧
    pattern_state (history ++ [token]) pattern prefix l'.
Proof.
  intros (Hne & Hb & Hl). assert (0 < length pattern) by (destruct pattern; [done|simpl; lia]).
  destruct (advance_spec pattern prefix token history (length pattern) l Hb) as (l' & Ha & _ & [Hbd Hs Hmax]);
    [destruct Hl; lia|done|].
  unfold push_pattern. rewrite Ha. simpl. case_decide as Hfull.
  - subst l'. rewrite take_ge in Hs by done. pose proof Hb as (Hlp & _ & Hp).
    destruct (Hp (length pattern - 1)) as (b & Hbl & Hble & [Hbb Hbs Hbmax]); [lia|].
    replace (S (length pattern - 1)) with (length pattern) in * by lia.
    rewrite (take_ge pattern (length pattern)) in * by done.
    rewrite Hbl. exists b. rewrite bool_decide_eq_true_2 by done. split; [done|]. split_and!; [done..|].
    split; [done|..].
    + etransitivity; [exact Hbs|]. etransitivity; [apply suffix_drop|done].
    + intros k Hk Hsuf. apply Hbmax; [done|].
      pose proof (border_of pattern (history ++ [token]) k (length pattern - 1)) as Hbo.
      replace (S (length pattern - 1)) with (length pattern) in Hbo by lia.
      rewrite (take_ge pattern (length pattern)) in Hbo by done. apply Hbo; [done|done|lia|lia].
  - exists l'. rewrite bool_decide_eq_false_2.
    + split; [done|]. split_and!; [done..|]. split; [lia|done|]. intros k Hk. apply Hmax. lia.
    + intros Hsuf. apply Hfull. apply Nat.le_antisymm; [lia|]. apply Hmax; [lia|].
      by rewrite take_ge.
Qed.

(** The index of the first pattern that ends [history], as a plain search finds it. *)
Definition first_suffix (history : list Z) (patterns : list (list Z)) : option nat :=
  fst <$> list_find (λ pattern, pattern `suffix_of` history) patterns.

Lemma push_loop_spec index ps prefs ls token history first_match :
  Forall3 (pattern_state history) ps prefs ls →
  ∃ ls', push_loop index ps prefs ls token first_match =
      Ok (ls', match first_match with
               | Some i => Some i
               | None => Nat.add index <$> first_suffix (history ++ [token]) ps
               end) ∧
    Forall3 (pattern_state (history ++ [token])) ps prefs ls'.
Proof.
  intros HF. revert index first_match.
  induction HF as [|p pf l ps prefs ls Hp HF IH]; intros index first_match; simpl.
  { exists []. split; [by destruct first_match|constructor]. }
  destruct (push_pattern_spec p pf token history l Hp) as (l' & -> & Hl'). simpl.
  destruct (IH (S index) (if bool_decide (p `suffix_of` history ++ [token])
                          then Some (default index first_match) else first_match)) as (ls' & -> & HF').
  exists (l' :: ls'). split; [|by constructor]. simpl. do 2 f_equal.
  unfold first_suffix. simpl. case_bool_decide as Hd; [rewrite decide_True by done|rewrite decide_False by done].
  - destruct first_match; simpl; [done|]. by rewrite Nat.add_0_r.
  - destruct first_match as [i|]; [done|]. destruct (list_find _ ps) as [[]|]; simpl; [f_equal; lia|done].
Qed.

Lemma push_spec m token history : matcher_state history m →
  ∃ m', push m token = Ok (first_suffix (history ++ [token]) (patterns m), m') ∧
    patterns m' = patterns m ∧ matcher_state (history ++ [token]) m'.
Proof.
  intros Hm. unfold push.
  destruct (push_loop_spec 0 _ _ _ token history None Hm) as (ls' & -> & Hls). simpl.
  exists (mk_matcher (patterns m) (prefixes m) ls'). split; [|done]. by destruct (first_suffix _ _).
Qed.

Lemma prefix_functions_spec ps : Forall (λ p, p ≠ []) ps →
  ∃ prefs, prefix_functions ps = Ok prefs ∧
    Forall3 (pattern_state []) ps prefs (replicate (length ps) 0).
Proof.
  induction 1 as [|p ps Hp _ (prefs & Heq & HF)]; simpl; [exists []; split; [done|constructor]|].
  destruct (prefix_function_spec p Hp) as (pf & -> & Hb). simpl. rewrite Heq. simpl.
  exists (pf :: prefs). split; [done|]. constructor; [|done]. split_and!; [done..|by apply longest_start].
Qed.

Lemma new_matcher_spec ps : Forall (λ p, p ≠ []) ps →
  ∃ m, new_matcher ps = Ok m ∧ patterns m = ps ∧ matcher_state [] m.
Proof.
  intros Hne. destruct (prefix_functions_spec ps Hne) as (prefs & Heq & HF). unfold new_matcher.
  rewrite Heq. simpl. by eexists.
Qed.

(** Pushing the tokens of a generation one by one. *)
Fixpoint push_all (m : StopSequenceMatcher) (tokens : list Z) : Gen (list (option nat)) :=
  match tokens with
  | [] => Ok []
  | token :: rest =>
      do? step := push m token in
      do? more := push_all (step : option nat * StopSequenceMatcher).2 rest in
      Ok (step.1 :: more)
  end.

Definition run_matcher (ps : list (list Z)) (tokens : list Z) : Gen (list (option nat)) :=
  do? m := new_matcher ps in push_all m tokens.

Lemma push_all_spec m tokens history : matcher_state history m →
  push_all m tokens =
  Ok (map (λ n, first_suffix (history ++ take n tokens) (patterns m)) (seq 1 (length tokens))).
Proof.
  revert m history. induction tokens as [|t tokens IH]; intros m history Hm; simpl; [done|].
  destruct (push_spec m t history Hm) as (m' & -> & Hp & Hm'). simpl.
  rewrite (IH m' _ Hm'). simpl. do 2 f_equal. rewrite <- (seq_shift _ 1), map_map, Hp.
  apply map_ext. intros n. by rewrite <- app_assoc.
Qed.

(** Claim C34.  The stop-sequence matcher is a naive suffix search: for any
    non-empty patterns, building the matcher and pushing the generated tokens one
    by one never indexes out of range and every loop ends; after each token it
    reports exactly the first pattern, in the caller's order, that is a suffix of
    the tokens pushed so far, overlapping matches included. *)
Theorem stop_matcher_is_naive_suffix_search ps tokens : Forall (λ p, p ≠ []) ps →
  run_matcher ps tokens =
  Ok (map (λ n, first_suffix (take n tokens) ps) (seq 1 (length tokens))).
Proof.
  intros Hne. unfold run_matcher. destruct (new_matcher_spec ps Hne) as (m & -> & <- & Hm). simpl.
  by rewrite (push_all_spec m tokens []).
Qed.

Example stop_matcher_is_naive_suffix_search_witness :
  run_matcher [[1; 2; 1; 2; 3]; [2; 1]]%Z [1; 2; 1; 2; 1; 2; 3]%Z =
    Ok [None; None; Some 1; None; Some 1; None; Some 0] ∧
  run_matcher [[1; 2; 1; 2; 3]; [2; 1]]%Z [1; 2; 1; 2; 1; 2; 3]%Z =
    Ok (map (λ n, first_suffix (take n [1; 2; 1; 2; 1; 2; 3]%Z) [[1; 2; 1; 2; 3]; [2; 1]]%Z) (seq 1 7)).
Proof.
  split; [reflexivity|].
  apply (stop_matcher_is_naive_suffix_search [[1; 2; 1; 2; 3]; [2; 1]]%Z [1; 2; 1; 2; 1; 2; 3]%Z).
  repeat constructor; discriminate.
Defined.
