(* ===== verification/Generation.v ===== *)
(** * Cached autoregressive generation

    [validate_generation] and [generate_with_selector_stream] of
    src/src/generation.rs, with the greedy and the sampled entry points.  The
    model's tensors live on a device outside this development: [CausalModel] is
    the interface the loop uses. *)
From S2P Require Import Prelude ContinuousBatch GenerationControl.
Open Scope nat_scope.
Open Scope m_scope.

Record CausalModelLimits := mk_limits {
  vocab_size : nat;
  max_model_length : nat
}.

#[export] Instance CausalModelLimits_eq_dec : EqDecision CausalModelLimits.
Proof. solve_decision. Defined.

(** [TokenGenerationOutput] and [ControlledGenerationOutput]. *)
Record TokenGenerationOutput := mk_output {
  token_ids : list Z;
  generated_token_ids : list Z;
  stopped_on_eos : bool
}.

Record ControlledGenerationOutput := mk_controlled {
  output : TokenGenerationOutput;
  finish_reason : GenerationFinishReason
}.

(** [trait CausalModel] with the tensor operations its callers use: the shape of
    the logits, whether they are on the caller's device, reading back the last
    row, and waiting for the device. *)
Class CausalModel := {
  Cache : Type;
  Logits : Type;
  Row : Type;
  new_cache : Cache;
  try_forward_cached_last : list Z → Cache → Fallible Logits * Cache;
  dims : Logits → nat * nat * nat;
  on_device : Logits → bool;
  greedy_token : Logits → Fallible Z;
  read_last_logits : Logits → Fallible Row;
  device_sync : Cache → Fallible unit
}.

Definition invalid_token (what : string) (token : Z) (vocab : nat) : GenerationError :=
  what +:+ pretty token +:+ " is outside vocabulary [0, " +:+ pretty (N.of_nat vocab) +:+ ")".

Fixpoint validate_prompt (vocab : nat) (prompt : list Z) : Gen unit :=
  match prompt with
  | [] => Ok tt
  | token :: rest =>
      if outside vocab token then Err (invalid_token "prompt token " token vocab)
      else validate_prompt vocab rest
  end.

(** The [BTreeSet] of EOS tokens is visited in increasing order. *)
Definition eos_iter (eos : gset Z) : list Z := merge_sort Z.le (elements eos).

Definition validate_generation (limits : CausalModelLimits) (prompt : list Z)
    (generation : GreedyGenerationConfig) : Gen (gset Z) :=
  if decide (vocab_size limits = 0 ∨ (i32_max < Z.of_nat (vocab_size limits) - 1)%Z) then
    Err "model requires a nonempty i32-indexed vocabulary"
  else if decide (prompt = []) then Err "generation requires at least one prompt token"
  else
    do? _ := validate_prompt (vocab_size limits) prompt in
    do? requested := ok_or (usize_add (length prompt) (max_new_tokens generation))
                       "generation length overflow" in
    if decide (max_model_length limits < requested) then
      Err ("prompt plus max_new_tokens (" +:+ pretty (N.of_nat requested) +:+
           ") exceeds model capacity " +:+ pretty (N.of_nat (max_model_length limits)))
    else
      let eos := list_to_set (eos_token_ids generation) in
      match list_find (λ token, outside (vocab_size limits) token = true) (eos_iter eos) with
      | Some (_, invalid) => Err (invalid_token "EOS token " invalid (vocab_size limits))
      | None => Ok eos
      end.

(** [let [batch, sequence, vocabulary] = logits.dims()] and the check on it. *)
Definition batch_one `{CausalModel} (limits : CausalModelLimits) (logits : Logits) : bool :=
  let '(batch, sequence, vocabulary) := dims logits in
  bool_decide (batch = 1) && bool_decide (sequence ≠ 0) &&
  bool_decide (vocabulary = vocab_size limits).

(** Why a request stops by itself after [token], the last of [generated]. *)
Definition natural_stop (eos : gset Z) (matched : option nat) (count max_new : nat) (token : Z) :
    option GenerationFinishReason :=
  if decide (token ∈ eos) then Some (EosToken token)
  else match matched with
       | Some index => Some (StopSequence index)
       | None => if decide (count = max_new) then Some MaxNewTokens else None
       end.

Section Stream.
Context `{CausalModel}.
(** The [select] and [on_token] closures, with what they capture; [on_token]
    answers [true] for [ControlFlow::Break]. *)
Context {Sel CB : Type}.
Context (select : Sel → Logits → Fallible Z * Sel) (on_token : CB → GenerationEvent → bool * CB).

Record Stream := mk_stream {
  st_cache : Cache;
  st_sel : Sel;
  st_cb : CB;
  st_clock : nat
}.

Notation SM := (M Stream GenerationError).

Definition forward (tokens : list Z) : SM Logits := λ s,
  let out := try_forward_cached_last tokens (st_cache s) in
  (lift out.1, mk_stream out.2 (st_sel s) (st_cb s) (st_clock s)).

Definition choose (logits : Logits) : SM Z := λ s,
  let out := select (st_sel s) logits in
  (lift out.1, mk_stream (st_cache s) out.2 (st_cb s) (st_clock s)).

Definition report (event : GenerationEvent) : SM bool := λ s,
  let out := on_token (st_cb s) event in
  (Ok out.1, mk_stream (st_cache s) (st_sel s) out.2 (st_clock s)).

(** [control.is_cancelled()]: one more observation of the flag. *)
Definition observe (control : GenerationControl) : SM bool := λ s,
  (Ok (is_cancelled control (st_clock s)),
   mk_stream (st_cache s) (st_sel s) (st_cb s) (S (st_clock s))).

Definition push_token (out : TokenGenerationOutput) (token : Z) (eos : gset Z) :
    TokenGenerationOutput :=
  mk_output (token_ids out ++ [token]) (generated_token_ids out ++ [token])
    (stopped_on_eos out || bool_decide (token ∈ eos)).

(** [for step in 0..max_new_tokens { ... }], then the synchronization. *)
Fixpoint generation_loop (limits : CausalModelLimits) (max_new : nat) (control : GenerationControl)
    (eos : gset Z) (steps : list nat) (out : TokenGenerationOutput) (matcher : StopSequenceMatcher)
    (logits : Logits) : SM (TokenGenerationOutput * GenerationFinishReason) :=
  match steps with
  | [] => mret (out, MaxNewTokens)
  | step :: rest =>
      let! cancelled := observe control in
      if cancelled : bool then mret (out, Cancelled) else
      if negb (batch_one limits logits) then
        mthrow "expected batch-one logits with the model's vocabulary"
      else
      let! token := choose logits in
      if outside (vocab_size limits) token then
        mthrow (invalid_token "selected token " token (vocab_size limits))
      else
      let out := push_token out token eos in
      let! matched := mlift (push matcher token) in
      let natural := natural_stop eos matched.1 (step + 1) max_new token in
      let! stop := report (mk_event token (generated_token_ids out) natural) in
      match natural with
      | Some reason => mret (out, reason)
      | None =>
          let! stop := (if stop : bool then mret true else observe control) in
          if stop : bool then mret (out, Cancelled) else
          let! logits := forward [token] in
          generation_loop limits max_new control eos rest out matched.2 logits
      end
  end.

Definition generate_with_selector_stream (limits : CausalModelLimits) (prompt : list Z)
    (generation : GreedyGenerationConfig) (control : GenerationControl) :
    SM ControlledGenerationOutput :=
  let! eos := mlift (validate_generation limits prompt generation) in
  let! _ := mlift (validate_control control (vocab_size limits)) in
  let out := mk_output prompt [] false in
  let! stop := (if decide (max_new_tokens generation = 0) then mret true else observe control) in
  if stop : bool then
    let! cancelled := observe control in
    mret (mk_controlled out (if cancelled : bool then Cancelled else MaxNewTokens))
  else
    let! matcher := mlift (new_matcher (stop_token_sequences control)) in
    mmodify (λ s, mk_stream new_cache (st_sel s) (st_cb s) (st_clock s)) ;;;
    let! logits := forward prompt in
    let! finished := generation_loop limits (max_new_tokens generation) control eos
                       (seq 0 (max_new_tokens generation)) out matcher logits in
    let! s := mget in
    let! _ := mlift (lift (device_sync (st_cache s))) in
    mret (mk_controlled finished.1 finished.2).
End Stream.
Arguments Stream {_} _ _.

(** [generate_causal_greedy_stream]: the closure captures nothing. *)
Definition greedy_select `{CausalModel} (_ : unit) (logits : Logits) : Fallible Z * unit :=
  (greedy_token logits, tt).

(** [generate_causal_greedy]: no controls, and a callback that continues. *)
Definition no_control : GenerationControl := mk_control [] None.
Definition continue (_ : unit) (_ : GenerationEvent) : bool * unit := (false, tt).

Definition generate_causal_greedy `{CausalModel} (limits : CausalModelLimits) (prompt : list Z)
    (generation : GreedyGenerationConfig) : Gen TokenGenerationOutput :=
  do? out := (generate_with_selector_stream greedy_select continue limits prompt generation
                no_control (mk_stream new_cache tt tt 0)).1 in
  Ok (output out).

(** A request-local sampler: the part of [TokenSampler] the generation loops use. *)
Class TokenSampling `{CausalModel} := {
  TokenSampler : Type;
  sample_with_history : TokenSampler → Row → list Z → list Z → Fallible Z * TokenSampler
}.

(** The closure of [generate_causal_sampled_stream_with_options] captures the
    sampler and the tokens generated so far. *)
Definition sampled_select `{TokenSampling} (prompt : list Z) (sel : TokenSampler * list Z)
    (logits : Logits) : Fallible Z * (TokenSampler * list Z) :=
  match read_last_logits logits with
  | inl e => (inl e, sel)
  | inr row =>
      match sample_with_history sel.1 row prompt sel.2 with
      | (inl e, sampler) => (inl e, (sampler, sel.2))
      | (inr token, sampler) => (inr token, (sampler, sel.2 ++ [token]))
      end
  end.

(** What [generate_causal_sampled_stream_with_options] passes on, once the
    sampler is built. *)
Definition generate_causal_sampled_stream `{TokenSampling} {CB}
    (on_token : CB → GenerationEvent → bool * CB) (limits : CausalModelLimits) (prompt : list Z)
    (generation : GreedyGenerationConfig) (sampler : TokenSampler) (control : GenerationControl)
    (cb : CB) : Gen ControlledGenerationOutput * Stream (TokenSampler * list Z) CB :=
  generate_with_selector_stream (sampled_select prompt) on_token limits prompt generation control
    (mk_stream new_cache (sampler, []) cb 0).

Definition generate_causal_greedy_stream `{CausalModel} {CB}
    (on_token : CB → GenerationEvent → bool * CB) (limits : CausalModelLimits) (prompt : list Z)
    (generation : GreedyGenerationConfig) (control : GenerationControl)
    (cb : CB) : Gen ControlledGenerationOutput * Stream unit CB :=
  generate_with_selector_stream greedy_select on_token limits prompt generation control
    (mk_stream new_cache tt cb 0).

(** ** Validation *)
Definition valid_generation (limits : CausalModelLimits) (prompt : list Z)
    (generation : GreedyGenerationConfig) : Prop :=
  0 < vocab_size limits ∧ (Z.of_nat (vocab_size limits) ≤ i32_max + 1)%Z ∧ prompt ≠ [] ∧
  length prompt + max_new_tokens generation ≤ max_model_length limits ∧
  ∀ t, t ∈ prompt ++ eos_token_ids generation → in_vocabulary (vocab_size limits) t.

Lemma validate_prompt_spec vocab prompt :
  match validate_prompt vocab prompt with
  | Ok _ => ∀ t, t ∈ prompt → in_vocabulary vocab t
  | Err _ => ¬ ∀ t, t ∈ prompt → in_vocabulary vocab t
  | Panic _ => False
  end.
Proof.
  induction prompt as [|t prompt IH]; simpl; [by intros ? ?%elem_of_nil|].
  destruct (outside vocab t) eqn:E.
  - apply outside_true in E. intros Hx. apply E, Hx. by left.
  - apply outside_spec in E. destruct (validate_prompt vocab prompt);
      [|intros Hx; apply IH; intros t' ?; apply Hx; by right|done].
    intros t' [->|?]%elem_of_cons; auto.
Qed.

Lemma validate_generation_spec limits prompt generation :
  (N.of_nat (max_model_length limits) ≤ usize_max)%N →
  match validate_generation limits prompt generation with
  | Ok eos => valid_generation limits prompt generation ∧ eos = list_to_set (eos_token_ids generation)
  | Err _ => ¬ valid_generation limits prompt generation
  | Panic _ => False
  end.
Proof.
  intros Hmax. unfold validate_generation, valid_generation.
  case_decide as Hv; [intros (? & ? & _); destruct Hv; lia|].
  case_decide as Hp; [tauto|]. pose proof (validate_prompt_spec (vocab_size limits) prompt) as Hvp.
  destruct (validate_prompt (vocab_size limits) prompt);
    simpl; [|intros (_ & _ & _ & _ & Hx); apply Hvp; intros t ?; apply Hx, elem_of_app; by left|done].
  destruct (usize_add _ _) as [total|] eqn:Et; simpl.
  2:{ unfold usize_add in Et. case_decide; [done|]. intros (_ & _ & _ & ? & _). lia. }
  apply usize_add_Some in Et as [-> _]. case_decide as Hlen; [intros (_ & _ & _ & ? & _); lia|].
  destruct (list_find _ _) as [[i invalid]|] eqn:Ef.
  - apply list_find_Some in Ef as (Hi & Hout & _). apply outside_true in Hout.
    intros (_ & _ & _ & _ & Hall). apply Hout, Hall, elem_of_app. right.
    apply list_elem_of_lookup_2 in Hi. unfold eos_iter in Hi.
    rewrite merge_sort_Permutation, elem_of_elements, elem_of_list_to_set in Hi. done.
  - apply list_find_None in Ef. split; [|done]. split_and!; [lia|lia|done|lia|].
    intros t [Ht|Ht]%elem_of_app; [by apply Hvp|]. apply outside_spec, not_true_iff_false.
    rewrite Forall_forall in Ef. apply Ef. unfold eos_iter.
    by rewrite merge_sort_Permutation, elem_of_elements, elem_of_list_to_set.
Qed.

(** ** What the loop produces *)
Section Facts.
Context `{CausalModel}.
Context {Sel CB : Type}.
Context (select : Sel → Logits → Fallible Z * Sel) (on_token : CB → GenerationEvent → bool * CB).
Notation Stream' := (Stream Sel CB).
Implicit Types s : Stream'.

(** Why a generation that has produced [gen] stops by itself. *)
Definition stop_of (eos : gset Z) (ps : list (list Z)) (max_new : nat) (gen : list Z) :
    option GenerationFinishReason :=
  match last gen with
  | None => None
  | Some token => natural_stop eos (first_suffix gen ps) (length gen) max_new token
  end.

(** The events of a generation: one per token, in order. *)
Definition events_of (eos : gset Z) (ps : list (list Z)) (max_new : nat) (gen : list Z) :
    list GenerationEvent :=
  imap (λ i token, mk_event token (take (S i) gen) (stop_of eos ps max_new (take (S i) gen))) gen.

Definition told_events (cb : CB) (events : list GenerationEvent) : CB :=
  fold_left (λ c e, (on_token c e).2) events cb.

Lemma events_of_snoc eos ps max_new gen token :
  events_of eos ps max_new (gen ++ [token]) =
  events_of eos ps max_new gen ++
  [mk_event token (gen ++ [token]) (stop_of eos ps max_new (gen ++ [token]))].
Proof.
  unfold events_of. rewrite imap_app. simpl. f_equal.
  - apply imap_ext. intros i t Hi. apply lookup_lt_Some in Hi. rewrite take_app_le by lia. done.
  - rewrite Nat.add_0_r, take_ge; [done|]. rewrite length_app. simpl. lia.
Qed.

(** A generation in progress: [gen] was produced and nothing has stopped it. *)
Record running (limits : CausalModelLimits) (eos : gset Z) (ps : list (list Z)) (max_new : nat)
    (gen : list Z) : Prop := {
  rn_vocab : ∀ token, token ∈ gen → outside (vocab_size limits) token = false;
  rn_going : ∀ n, n ≤ length gen → stop_of eos ps max_new (take n gen) = None
}.

(** A finished one. *)
Record ended (limits : CausalModelLimits) (eos : gset Z) (ps : list (list Z)) (max_new : nat)
    (gen : list Z) (reason : GenerationFinishReason) : Prop := {
  en_length : length gen ≤ max_new;
  en_vocab : ∀ token, token ∈ gen → outside (vocab_size limits) token = false;
  en_going : ∀ n, n < length gen → stop_of eos ps max_new (take n gen) = None;
  en_reason : stop_of eos ps max_new gen = Some reason ∨
              stop_of eos ps max_new gen = None ∧ reason = Cancelled
}.

Lemma going_snoc eos ps max_new gen token :
  (∀ n, n ≤ length gen → stop_of eos ps max_new (take n gen) = None) →
  ∀ n, n < length (gen ++ [token]) → stop_of eos ps max_new (take n (gen ++ [token])) = None.
Proof.
  intros Hg n Hn. rewrite length_app in Hn. simpl in Hn. rewrite take_app_le by lia. apply Hg. lia.
Qed.

Lemma vocab_snoc limits gen token :
  (∀ t, t ∈ gen → outside (vocab_size limits) t = false) → outside (vocab_size limits) token = false →
  ∀ t, t ∈ gen ++ [token] → outside (vocab_size limits) t = false.
Proof. intros Hg Ht t [?| ->%list_elem_of_singleton]%elem_of_app; auto. Qed.

Lemma stop_of_snoc eos ps max_new gen token :
  stop_of eos ps max_new (gen ++ [token]) =
  natural_stop eos (first_suffix (gen ++ [token]) ps) (length gen + 1) max_new token.
Proof. unfold stop_of. by rewrite last_snoc, length_app. Qed.

(** The output record of a generation. *)
Definition output_of (eos : gset Z) (prompt gen : list Z) : TokenGenerationOutput :=
  mk_output (prompt ++ gen) gen (existsb (λ t, bool_decide (t ∈ eos)) gen).

Lemma push_token_output eos prompt gen token :
  push_token (output_of eos prompt gen) token eos = output_of eos prompt (gen ++ [token]).
Proof.
  unfold push_token, output_of. simpl. rewrite <- app_assoc, existsb_app. simpl.
  by rewrite orb_false_r.
Qed.

Lemma generation_loop_wp limits control eos prompt cb0 max_new steps gen matcher logits s :
  steps = seq (length gen) (max_new - length gen) → length gen < max_new →
  patterns matcher = stop_token_sequences control → matcher_state gen matcher →
  running limits eos (stop_token_sequences control) max_new gen →
  st_cb s = told_events cb0 (events_of eos (stop_token_sequences control) max_new gen) →
  wp (generation_loop select on_token limits max_new control eos steps (output_of eos prompt gen)
        matcher logits)
    (post (λ r s', ∃ gen', r.1 = output_of eos prompt gen' ∧
        ended limits eos (stop_token_sequences control) max_new gen' r.2 ∧
        st_cb s' = told_events cb0 (events_of eos (stop_token_sequences control) max_new gen'))
      (λ _ _, True)) s.
Proof.
  intros Hsteps. revert gen matcher logits s Hsteps. set (ps := stop_token_sequences control).
  induction steps as [|step rest IH]; intros gen matcher logits s Hsteps Hlt Hps Hms Hrun Hcb.
  { apply (f_equal length) in Hsteps. rewrite length_seq in Hsteps. simpl in Hsteps. lia. }
  assert (∃ m, max_new - length gen = S m) as [m Hm] by (exists (max_new - length gen - 1); lia).
  rewrite Hm in Hsteps. simpl in Hsteps. injection Hsteps as -> Hrest.
  pose proof (rn_going _ _ _ _ _ Hrun (length gen) ltac:(lia)) as Hnone.
  rewrite take_ge in Hnone by done. simpl. wp_step. unfold wp at 1, observe. simpl.
  set (s1 := mk_stream (st_cache s) _ _ _).
  destruct (is_cancelled control (st_clock s)).
  { apply wp_ret. exists gen. split_and!; [done| |done]. split; [lia|apply Hrun| |by right].
    intros n Hn. apply (rn_going _ _ _ _ _ Hrun). lia. }
  destruct (negb (batch_one limits logits)); [by apply wp_throw|].
  wp_step. unfold wp at 1, choose. simpl. destruct (select (st_sel s) logits) as [[e|token] sel]; [done|].
  simpl. destruct (outside (vocab_size limits) token) eqn:Eout; [by apply wp_throw|].
  wp_step. destruct (push_spec matcher token gen Hms) as (matcher' & Hpush & Hps' & Hms').
  apply wp_lift. rewrite Hpush, Hps. fold ps. simpl. wp_step. unfold wp at 1, report. simpl.
  pose proof (stop_of_snoc eos ps max_new gen token) as Hstop. rewrite <- Hstop.
  pose proof (going_snoc eos ps max_new gen token (rn_going _ _ _ _ _ Hrun)) as Hgoing.
  pose proof (vocab_snoc limits gen token (rn_vocab _ _ _ _ _ Hrun) Eout) as Hvocab.
  set (event := mk_event token (gen ++ [token]) (stop_of eos ps max_new (gen ++ [token]))).
  assert ((on_token (st_cb s) event).2 =
    told_events cb0 (events_of eos ps max_new (gen ++ [token]))) as Hcb'.
  { rewrite events_of_snoc. unfold told_events in *. rewrite fold_left_app. simpl. by rewrite <- Hcb. }
  assert (length (gen ++ [token]) ≤ max_new) as Hlen by (rewrite length_app; simpl; lia).
  rewrite push_token_output.
  destruct (stop_of eos ps max_new (gen ++ [token])) as [reason|] eqn:Es.
  { apply wp_ret. exists (gen ++ [token]). split_and!; [done| |done]. split; [done|done|done|by left]. }
  assert (length gen + 1 < max_new) as Hnext.
  { unfold natural_stop in Hstop. destruct (decide (token ∈ eos)); [discriminate|].
    destruct (first_suffix (gen ++ [token]) ps); [discriminate|].
    destruct (decide (length gen + 1 = max_new)); [discriminate|]. lia. }
  assert (ended limits eos ps max_new (gen ++ [token]) Cancelled) as Hcancelled
    by (split; [done|done|done|by right]).
  wp_step. eapply (wp_mono _ (λ r s', ∃ b, r = Ok b ∧ st_cb s' =
    told_events cb0 (events_of eos ps max_new (gen ++ [token])))).
  { destruct (on_token (st_cb s) event).1; [by apply wp_ret; eexists|].
    unfold wp, observe. simpl. by eexists. }
  intros r s2 ([|] & -> & Hcb2); [apply wp_ret; by exists (gen ++ [token])|].
  wp_step. unfold wp at 1, forward. simpl.
  destruct (try_forward_cached_last [token] (st_cache s2)) as [[e|logits'] cache']; [done|]. simpl.
  apply IH; [|rewrite length_app; simpl; lia|congruence|done| |done].
  - rewrite Hrest, length_app. simpl. f_equal; lia.
  - split; [done|]. intros n Hn. destruct (decide (n = length (gen ++ [token]))) as [->|].
    + by rewrite take_ge.
    + apply Hgoing. lia.
Qed.

Lemma stream_wp limits prompt generation control s :
  (N.of_nat (max_model_length limits) ≤ usize_max)%N → one_shot_control control →
  wp (generate_with_selector_stream select on_token limits prompt generation control)
    (post (λ r s', valid_generation limits prompt generation ∧
        valid_patterns (vocab_size limits) (stop_token_sequences control) ∧ ∃ gen,
        output r = output_of (list_to_set (eos_token_ids generation)) prompt gen ∧
        (max_new_tokens generation = 0 ∧ gen = [] ∧ finish_reason r = MaxNewTokens ∨
         ended limits (list_to_set (eos_token_ids generation)) (stop_token_sequences control)
           (max_new_tokens generation) gen (finish_reason r)) ∧
        st_cb s' = told_events (st_cb s) (events_of (list_to_set (eos_token_ids generation))
          (stop_token_sequences control) (max_new_tokens generation) gen))
      (λ _ _, True)) s.
Proof.
  intros Hmax Hshot. unfold generate_with_selector_stream. wp_step. apply wp_lift.
  pose proof (validate_generation_spec limits prompt generation Hmax) as Hv.
  destruct (validate_generation limits prompt generation) as [eos|e|p]; [|done|done].
  destruct Hv as [Hv ->]. set (eos := list_to_set _). wp_step. apply wp_lift. unfold validate_control.
  pose proof (validate_patterns_spec (vocab_size limits) 0 (stop_token_sequences control)) as Hp.
  destruct (validate_patterns _ _ _) as [[]|e|p]; [|done|done]. cbv zeta.
  assert (∀ reason, (max_new_tokens generation = 0 ∧ reason = MaxNewTokens ∨ reason = Cancelled) →
    (max_new_tokens generation = 0 ∧ @nil Z = [] ∧ reason = MaxNewTokens ∨
     ended limits eos (stop_token_sequences control) (max_new_tokens generation) [] reason)) as Hnone.
  { intros reason [[? ->]| ->]; [by left|right]. split; [simpl; lia|by intros ? ?%elem_of_nil|
      simpl; intros; lia|by right]. }
  wp_step. eapply (wp_mono _ (λ r s', st_cb s' = st_cb s ∧ ∃ b, r = Ok b ∧
    (b = true → max_new_tokens generation = 0 ∨ is_cancelled control (st_clock s') = true) ∧
    (b = false → 0 < max_new_tokens generation))).
  { case_decide; [apply wp_ret; split; [done|]; exists true; naive_solver|].
    unfold wp, observe. simpl. split; [done|]. eexists. split; [done|]. split; [|lia].
    intros Hc. right. unfold is_cancelled in *. destruct (cancellation control) as [c|] eqn:E; [|done].
    apply (Hshot c E (st_clock s)); [lia|done]. }
  intros r s1 (Hcb & stop & -> & Hstop & Hgo). destruct stop.
  - wp_step. unfold wp at 1, observe. simpl. apply wp_ret. split; [done|]. split; [done|].
    exists []. split_and!; [unfold output_of; by rewrite app_nil_r| |done]. simpl. apply Hnone.
    destruct (Hstop eq_refl) as [H0|Hc]; [|by rewrite Hc; right].
    destruct (is_cancelled control (st_clock s1)); [by right|by left].
  - specialize (Hgo eq_refl). wp_step. apply wp_lift.
    destruct (new_matcher_spec (stop_token_sequences control)) as (m & -> & Hps & Hms).
    { apply Forall_forall. intros p Hin. by apply Hp. }
    do 2 wp_step. wp_step. unfold wp at 1, forward. simpl.
    destruct (try_forward_cached_last prompt new_cache) as [[e|logits] cache]; [done|]. simpl.
    replace (mk_output prompt [] false) with (output_of eos prompt [])
      by (unfold output_of; by rewrite app_nil_r).
    eapply wp_bind_post; [apply (generation_loop_wp limits control eos prompt (st_cb s)); simpl;
      [by rewrite Nat.sub_0_r|done|done|done| |done]| |done].
    + split; [by intros ? ?%elem_of_nil|]. intros n Hn. simpl in Hn. by replace n with 0 by lia.
    + intros [out reason] s2 (gen & Hout & Hend & Hcb2). do 2 wp_step. wp_step. apply wp_lift.
      destruct (device_sync _) as [e|[]]; [done|]. simpl. apply wp_ret. split_and!; [done|done|].
      exists gen. split_and!; [done|by right|done].
Qed.

Lemma stop_of_none_eos eos ps max_new gen token :
  stop_of eos ps max_new (gen ++ [token]) = None → token ∉ eos.
Proof. rewrite stop_of_snoc. unfold natural_stop. by case_decide. Qed.

(** The flag of the output agrees with the reason. *)
Lemma ended_eos limits eos ps max_new gen reason :
  ended limits eos ps max_new gen reason →
  existsb (λ t, bool_decide (t ∈ eos)) gen = true ↔ ∃ t, reason = EosToken t.
Proof.
  intros [_ _ Hgoing Hreason]. destruct (decide (gen = [])) as [->|Hne].
  { simpl. split; [done|]. intros [t ->]. by destruct Hreason as [?|[_ ?]]. }
  destruct (exists_last Hne) as (front & token & ->).
  assert (∀ t, t ∈ front → t ∉ eos) as Hfront.
  { intros t [i Hi]%list_elem_of_lookup. pose proof (lookup_lt_Some _ _ _ Hi).
    specialize (Hgoing (S i)). rewrite length_app, take_app_le in Hgoing by lia. simpl in Hgoing.
    rewrite (take_S_r _ _ _ Hi) in Hgoing. eapply stop_of_none_eos, Hgoing. lia. }
  assert (existsb (λ t, bool_decide (t ∈ eos)) (front ++ [token]) = bool_decide (token ∈ eos)) as ->.
  { rewrite existsb_app. simpl. rewrite orb_false_r.
    replace (existsb _ front) with false; [done|]. symmetry. apply not_true_iff_false.
    intros (t & Hin%list_elem_of_In & Ht%bool_decide_eq_true)%existsb_exists. by destruct (Hfront t). }
  rewrite bool_decide_eq_true, stop_of_snoc in *. unfold natural_stop in Hreason. split.
  - intros He. rewrite decide_True in Hreason by done. destruct Hreason as [[= <-]|[? _]]; [by eexists|done].
  - intros [t ->]. case_decide; [done|]. destruct Hreason as [Hx|[_ ?]]; [|done].
    destruct (first_suffix _ ps); [done|]. by case_decide.
Qed.

(** Claim C28.  A generation that succeeds was valid, and returns the prompt
    followed by at most [max_new_tokens] vocabulary tokens.  It stopped at the
    first token at which an EOS token, then a stop sequence, then the length
    limit applied, in that order of precedence, and for that reason; failing
    that it was cancelled.  The callback saw every token once, in order, with the
    reason known at that token. *)
Theorem generation_stream_exact limits prompt generation control s :
  (N.of_nat (max_model_length limits) ≤ usize_max)%N → one_shot_control control →
  let eos := list_to_set (eos_token_ids generation) in
  let ps := stop_token_sequences control in
  let max_new := max_new_tokens generation in
  match generate_with_selector_stream select on_token limits prompt generation control s with
  | (Ok r, s') => valid_generation limits prompt generation ∧ valid_patterns (vocab_size limits) ps ∧
      ∃ gen, token_ids (output r) = prompt ++ gen ∧ generated_token_ids (output r) = gen ∧
        (stopped_on_eos (output r) = true ↔ ∃ t, finish_reason r = EosToken t) ∧
        length gen ≤ max_new ∧ (∀ t, t ∈ gen → in_vocabulary (vocab_size limits) t) ∧
        (∀ n, n < length gen → stop_of eos ps max_new (take n gen) = None) ∧
        match stop_of eos ps max_new gen with
        | Some reason => finish_reason r = reason
        | None => finish_reason r = Cancelled ∨ max_new = 0 ∧ finish_reason r = MaxNewTokens
        end ∧
        st_cb s' = told_events (st_cb s) (events_of eos ps max_new gen)
  | (Err _, _) => True
  | (Panic p, _) => p = Overflow
  end.
Proof.
  intros Hmax Hshot. cbv zeta. pose proof (stream_wp limits prompt generation control s Hmax Hshot) as Hw.
  unfold wp in Hw. destruct (generate_with_selector_stream _ _ _ _ _ _ s) as [[r|e|p] s']; [|done|done].
  destruct Hw as (? & ? & gen & -> & Hend & Hcb). split; [done|]. split; [done|].
  exists gen. simpl. split; [done|]. split; [done|]. destruct Hend as [(Hz & -> & ->)|Hend].
  - split_and!; [split; [done|intros [t Ht]; done]|simpl; lia|by intros ? ?%elem_of_nil|
      simpl; lia|by right|done].
  - split; [by eapply ended_eos|]. destruct Hend as [Hlen Hvocab Hgoing Hreason].
    split_and!; [done|intros t Ht; by apply outside_spec, Hvocab|done| |done].
    destruct Hreason as [-> |[-> ->]]; [done|by left].
Qed.
End Facts.
