(* ===== verification/GenerationSession.v ===== *)
(** * Incremental generation sessions

    [CausalGenerationSession] of src/src/generation/session.rs, the prefilled
    prompts it may start from (src/src/prefix_cache.rs) and its durable records
    (src/src/generation/session/record.rs).  A run of a session gives what the
    uninterrupted loop of [Generation] gives. *)
From S2P Require Import Prelude PagedKv ContinuousBatch GenerationControl Generation.
Open Scope nat_scope.
Open Scope m_scope.

Record GenerationStep := mk_step {
  step_token_id : Z;
  step_generated_tokens : nat;
  step_finish_reason : option GenerationFinishReason
}.

Section Session.
Context `{TokenSampling}.

(** [PrefilledPrompt] *)
Record PrefilledPrompt := mk_prefilled {
  pf_model_id : string;
  pf_limits : CausalModelLimits;
  pf_tokens : list Z;
  pf_cache : Cache;
  pf_logits : Logits
}.

Definition validate_prefilled (p : PrefilledPrompt) (model_id : string) (limits : CausalModelLimits)
    (prompt : list Z) : Gen unit :=
  let '(batch, sequence, vocabulary) := dims (pf_logits p) in
  if decide (model_id = EmptyString ∨ pf_model_id p ≠ model_id ∨ pf_limits p ≠ limits ∨
             pf_tokens p = [] ∨ ¬ pf_tokens p `prefix_of` prompt ∨ batch ≠ 1 ∨ sequence ≠ 1 ∨
             vocabulary ≠ vocab_size limits ∨ on_device (pf_logits p) = false) then
    Err "prefix identity, tokens, limits or native logits differ"
  else Ok tt.

Record CausalGenerationSession := mk_session {
  ss_limits : CausalModelLimits;
  ss_generation : GreedyGenerationConfig;
  ss_control : GenerationControl;
  ss_matcher : StopSequenceMatcher;
  ss_eos : gset Z;
  ss_cache : Cache;
  ss_logits : option Logits;
  ss_pending_input : option Z;
  ss_sampler : option TokenSampler;
  ss_prompt_length : nat;
  ss_processed_tokens : nat;
  ss_output : TokenGenerationOutput;
  ss_finish_reason : option GenerationFinishReason;
  ss_fault : option GenerationError;
  (** how often the cancellation flag was read *)
  ss_clock : nat
}.

(** Field updates. *)
Definition put_matcher (x : StopSequenceMatcher) (s : CausalGenerationSession) : CausalGenerationSession :=
  mk_session (ss_limits s) (ss_generation s) (ss_control s) x (ss_eos s) (ss_cache s) (ss_logits s) (ss_pending_input s) (ss_sampler s) (ss_prompt_length s) (ss_processed_tokens s) (ss_output s) (ss_finish_reason s) (ss_fault s) (ss_clock s).
Definition put_cache (x : Cache) (s : CausalGenerationSession) : CausalGenerationSession :=
  mk_session (ss_limits s) (ss_generation s) (ss_control s) (ss_matcher s) (ss_eos s) x (ss_logits s) (ss_pending_input s) (ss_sampler s) (ss_prompt_length s) (ss_processed_tokens s) (ss_output s) (ss_finish_reason s) (ss_fault s) (ss_clock s).
Definition put_logits (x : option Logits) (s : CausalGenerationSession) : CausalGenerationSession :=
  mk_session (ss_limits s) (ss_generation s) (ss_control s) (ss_matcher s) (ss_eos s) (ss_cache s) x (ss_pending_input s) (ss_sampler s) (ss_prompt_length s) (ss_processed_tokens s) (ss_output s) (ss_finish_reason s) (ss_fault s) (ss_clock s).
Definition put_pending_input (x : option Z) (s : CausalGenerationSession) : CausalGenerationSession :=
  mk_session (ss_limits s) (ss_generation s) (ss_control s) (ss_matcher s) (ss_eos s) (ss_cache s) (ss_logits s) x (ss_sampler s) (ss_prompt_length s) (ss_processed_tokens s) (ss_output s) (ss_finish_reason s) (ss_fault s) (ss_clock s).
Definition put_sampler (x : option TokenSampler) (s : CausalGenerationSession) : CausalGenerationSession :=
  mk_session (ss_limits s) (ss_generation s) (ss_control s) (ss_matcher s) (ss_eos s) (ss_cache s) (ss_logits s) (ss_pending_input s) x (ss_prompt_length s) (ss_processed_tokens s) (ss_output s) (ss_finish_reason s) (ss_fault s) (ss_clock s).
Definition put_processed_tokens (x : nat) (s : CausalGenerationSession) : CausalGenerationSession :=
  mk_session (ss_limits s) (ss_generation s) (ss_control s) (ss_matcher s) (ss_eos s) (ss_cache s) (ss_logits s) (ss_pending_input s) (ss_sampler s) (ss_prompt_length s) x (ss_output s) (ss_finish_reason s) (ss_fault s) (ss_clock s).
Definition put_output (x : TokenGenerationOutput) (s : CausalGenerationSession) : CausalGenerationSession :=
  mk_session (ss_limits s) (ss_generation s) (ss_control s) (ss_matcher s) (ss_eos s) (ss_cache s) (ss_logits s) (ss_pending_input s) (ss_sampler s) (ss_prompt_length s) (ss_processed_tokens s) x (ss_finish_reason s) (ss_fault s) (ss_clock s).
Definition put_finish_reason (x : option GenerationFinishReason) (s : CausalGenerationSession) : CausalGenerationSession :=
  mk_session (ss_limits s) (ss_generation s) (ss_control s) (ss_matcher s) (ss_eos s) (ss_cache s) (ss_logits s) (ss_pending_input s) (ss_sampler s) (ss_prompt_length s) (ss_processed_tokens s) (ss_output s) x (ss_fault s) (ss_clock s).
Definition put_fault (x : option GenerationError) (s : CausalGenerationSession) : CausalGenerationSession :=
  mk_session (ss_limits s) (ss_generation s) (ss_control s) (ss_matcher s) (ss_eos s) (ss_cache s) (ss_logits s) (ss_pending_input s) (ss_sampler s) (ss_prompt_length s) (ss_processed_tokens s) (ss_output s) (ss_finish_reason s) x (ss_clock s).
Definition put_clock (x : nat) (s : CausalGenerationSession) : CausalGenerationSession :=
  mk_session (ss_limits s) (ss_generation s) (ss_control s) (ss_matcher s) (ss_eos s) (ss_cache s) (ss_logits s) (ss_pending_input s) (ss_sampler s) (ss_prompt_length s) (ss_processed_tokens s) (ss_output s) (ss_finish_reason s) (ss_fault s) x.

Notation SS := (M CausalGenerationSession GenerationError).

Definition check_logits (logits : Logits) : SS unit :=
  let! s := mget in
  if negb (batch_one (ss_limits s) logits && on_device logits) then
    mthrow "expected same-device batch-one logits with the model's vocabulary"
  else mret tt.

Definition session_forward (tokens : list Z) : SS Logits := λ s,
  let out := try_forward_cached_last tokens (ss_cache s) in
  (lift out.1, put_cache out.2 s).

Definition session_observe : SS bool := λ s,
  (Ok (is_cancelled (ss_control s) (ss_clock s)), put_clock (S (ss_clock s)) s).

Definition finish (reason : GenerationFinishReason) : SS unit :=
  mmodify (λ s, put_logits None (put_pending_input None (put_finish_reason (Some reason) s))).

Definition generated_tokens (s : CausalGenerationSession) : nat :=
  length (generated_token_ids (ss_output s)).

(** [new_with_prefix], up to the prefill; the session it builds. *)
Definition blank (limits : CausalModelLimits) (prompt : list Z) (generation : GreedyGenerationConfig)
    (sampler : option TokenSampler) (control : GenerationControl) (eos : gset Z)
    (matcher : StopSequenceMatcher) (reason : option GenerationFinishReason) :
    CausalGenerationSession :=
  mk_session limits generation control matcher eos new_cache None None sampler (length prompt) 0
    (mk_output prompt [] false) reason None 1.

Definition prefill (prompt : list Z) (prefix : option PrefilledPrompt) : SS unit :=
  let! start :=
    match prefix with
    | Some p =>
        mmodify (λ s, put_logits (Some (pf_logits p)) (put_cache (pf_cache p) s)) ;;;
        mret (length (pf_tokens p))
    | None => mret 0
    end in
  let! logits :=
    (if decide (start = length prompt) then
       let! s := mget in
       mmodify (put_logits None) ;;;
       mok_or (ss_logits s) "prefilled prompt has no next-token logits"
     else
       let! suffix := mexpect OutOfBounds (slice start (length prompt) prompt) in
       session_forward suffix) in
  check_logits logits ;;;
  mmodify (λ s, put_processed_tokens (length prompt) (put_logits (Some logits) s)).

Definition new_with_prefix (limits : CausalModelLimits) (prompt : list Z)
    (generation : GreedyGenerationConfig) (sampler : option TokenSampler)
    (control : GenerationControl) (prefix : option PrefilledPrompt) : Gen CausalGenerationSession :=
  do? eos := validate_generation limits prompt generation in
  do? _ := validate_control control (vocab_size limits) in
  let reason :=
    if is_cancelled control 0 then Some Cancelled
    else if decide (max_new_tokens generation = 0) then Some MaxNewTokens else None in
  do? matcher := new_matcher (stop_token_sequences control) in
  let session := blank limits prompt generation sampler control eos matcher reason in
  match reason with
  | Some _ => Ok session
  | None =>
      match prefill prompt prefix session with
      | (Ok _, s) => Ok s
      | (Err e, _) => Err e
      | (Panic p, _) => Panic p
      end
  end.

Definition new_greedy limits prompt generation control : Gen CausalGenerationSession :=
  new_with_prefix limits prompt generation None control None.

(** [TokenSampler::new] runs before; here the sampler is given. *)
Definition new_sampled limits prompt generation sampler control : Gen CausalGenerationSession :=
  new_with_prefix limits prompt generation (Some sampler) control None.

Definition new_greedy_prefilled limits prompt generation control model_id (prefix : PrefilledPrompt) :
    Gen CausalGenerationSession :=
  do? _ := validate_prefilled prefix model_id limits prompt in
  new_with_prefix limits prompt generation None control (Some prefix).

(** The token of the last row: sampled against the request's own history, or the
    model's greedy choice. *)
Definition select_token (logits : Logits) : SS Z :=
  let! s := mget in
  match ss_sampler s with
  | Some sampler =>
      let! row := mlift (lift (read_last_logits logits)) in
      let! prompt := mexpect OutOfBounds (slice 0 (ss_prompt_length s) (token_ids (ss_output s))) in
      let out := sample_with_history sampler row prompt (generated_token_ids (ss_output s)) in
      mmodify (put_sampler (Some out.2)) ;;;
      mlift (lift out.1)
  | None => mlift (lift (greedy_token logits))
  end.

(** The first half of [step_inner]: forward the token selected last. *)
Definition advance_input : SS unit :=
  let! s := mget in
  match ss_pending_input s with
  | Some token =>
      let! logits := session_forward [token] in
      check_logits logits ;;;
      mmodify (λ s, put_pending_input None (put_logits (Some logits) s)) ;;;
      let! s := mget in
      let! count := mok_or (usize_add (ss_processed_tokens s) 1)
                      "generation cache input count overflow" in
      mmodify (put_processed_tokens count)
  | None => mret tt
  end.

(** Its second half: select one token from the pending logits and record it. *)
Definition record_token (token : Z) : SS (option GenerationStep) :=
  mmodify (put_logits None) ;;;
  let! s := mget in
  let out := push_token (ss_output s) token (ss_eos s) in
  let! matched := mlift (push (ss_matcher s) token) in
  mmodify (λ s, put_matcher matched.2 (put_output out s)) ;;;
  let reason := natural_stop (ss_eos s) matched.1 (length (generated_token_ids out))
                  (max_new_tokens (ss_generation s)) token in
  match reason with
  | Some r => finish r
  | None => mmodify (put_pending_input (Some token))
  end ;;;
  mret (Some (mk_step token (length (generated_token_ids out)) reason)).

Definition select_next (processor : option (Logits → Fallible Logits)) : SS (option GenerationStep) :=
  let! s := mget in
  let! logits := mok_or (ss_logits s) "generation has no pending logits or decode input" in
  let! logits := match processor with Some f => mlift (lift (f logits)) | None => mret logits end in
  check_logits logits ;;;
  let! token := select_token logits in
  if outside (vocab_size (ss_limits s)) token then
    mthrow ("selected token " +:+ pretty token +:+ " is outside the vocabulary")
  else record_token token.

(** [step_inner]; the processor is a stateless function of the logits. *)
Definition step_inner (processor : option (Logits → Fallible Logits)) : SS (option GenerationStep) :=
  let! s := mget in
  if decide (is_Some (ss_finish_reason s)) then mret None else
  let! cancelled := session_observe in
  if cancelled : bool then finish Cancelled ;;; mret None else
  advance_input ;;;
  select_next processor.

(** [step] and [step_with_logits_processor]: a fault is kept and repeated. *)
Definition step_with (processor : option (Logits → Fallible Logits)) : SS (option GenerationStep) :=
  let! s := mget in
  match ss_fault s with
  | Some error => mthrow error
  | None => mcatch (step_inner processor) (λ e, mmodify (put_fault (Some e)) ;;; mthrow e)
  end.

Definition step : SS (option GenerationStep) := step_with None.

(** [run_stream]: the callback and its state [cb].  The loop takes at most one
    turn per token still allowed and one to notice the end. *)
Fixpoint run_loop {CB} (on_token : CB → GenerationEvent → bool * CB) (fuel : nat) (cb : CB) : SS CB :=
  match fuel with
  | O => mpanic OutOfFuel
  | S fuel' =>
      let! next := step in
      match next with
      | None => mret cb
      | Some st =>
          let! s := mget in
          let response := on_token cb (mk_event (step_token_id st)
                            (generated_token_ids (ss_output s)) (step_finish_reason st)) in
          (if decide (step_finish_reason st = None) then
             let! stop := (if response.1 then mret true else session_observe) in
             if stop : bool then finish Cancelled else mret tt
           else mret tt) ;;;
          run_loop on_token fuel' response.2
      end
  end.

Definition run_stream {CB} (on_token : CB → GenerationEvent → bool * CB) (cb : CB) :
    SS (ControlledGenerationOutput * CB) :=
  let! s := mget in
  let! cb := run_loop on_token (S (S (max_new_tokens (ss_generation s)))) cb in
  let! s := mget in
  (if decide (0 < ss_processed_tokens s) then
     mcatch (mlift (lift (device_sync (ss_cache s))))
       (λ e, mmodify (put_fault (Some e)) ;;; mthrow e)
   else mret tt) ;;;
  let! reason := mexpect Expect (ss_finish_reason s) in
  mret (mk_controlled (ss_output s) reason, cb).

Definition run : SS (ControlledGenerationOutput * unit) := run_stream continue tt.

(** The prefill of a prompt from nothing. *)
Lemma prefill_fresh prompt s : prompt ≠ [] →
  prefill prompt None s =
  (let! logits := session_forward prompt in
   check_logits logits ;;;
   mmodify (λ s, put_processed_tokens (length prompt) (put_logits (Some logits) s))) s.
Proof.
  intros Hne. unfold prefill. rewrite (bind_ok _ _ s 0 s) by done.
  rewrite decide_False by (destruct prompt; [done|simpl; lia]).
  unfold slice. rewrite decide_True by (split; [lia|done]).
  by rewrite drop_0, Nat.sub_0_r, take_ge.
Qed.

(** ** A session and the loop of [Generation], step by step

    Without a cancellation flag.  A model's logits are on the model's device. *)
Section Agree.
Context {Sel CB : Type}.
Context (select : Sel → Logits → Fallible Z * Sel) (on_token : CB → GenerationEvent → bool * CB).
Context (limits : CausalModelLimits) (prompt : list Z) (generation : GreedyGenerationConfig)
  (control : GenerationControl).
Context (no_flag : cancellation control = None).
Context (forward_on_device : ∀ tokens cache l,
  (try_forward_cached_last tokens cache).1 = inr l → on_device l = true).
Context (fits : (N.of_nat (length prompt + max_new_tokens generation) ≤ usize_max)%N).

Notation eos := (list_to_set (C := gset Z) (eos_token_ids generation)).
Notation max_new := (max_new_tokens generation).

(** The closure of the loop chooses what the session chooses. *)
Context (selects : Sel → option TokenSampler → list Z → Prop).
Context (selects_agree : ∀ sel s l gen,
  selects sel (ss_sampler s) gen → ss_prompt_length s = length prompt →
  token_ids (ss_output s) = prompt ++ gen → generated_token_ids (ss_output s) = gen →
  match select sel l with
  | (inl _, _) => ∃ e s', select_token l s = (Err e, s')
  | (inr t, sel') => ∃ sampler', select_token l s = (Ok t, put_sampler sampler' s) ∧
                                 selects sel' sampler' (gen ++ [t])
  end).

(** The session just before it selects a token, and the loop at the same point. *)
Record ready (s : CausalGenerationSession) (out : TokenGenerationOutput) (m : StopSequenceMatcher)
    (st : Stream Sel CB) (gen : list Z) : Prop := {
  rd_limits : ss_limits s = limits;
  rd_generation : ss_generation s = generation;
  rd_control : ss_control s = control;
  rd_eos : ss_eos s = eos;
  rd_output : ss_output s = out;
  rd_matcher : ss_matcher s = m;
  rd_cache : ss_cache s = st_cache st;
  rd_selects : selects (st_sel st) (ss_sampler s) gen;
  rd_prompt : ss_prompt_length s = length prompt;
  rd_tokens : token_ids out = prompt ++ gen ∧ generated_token_ids out = gen;
  rd_going : ss_finish_reason s = None ∧ ss_fault s = None;
  rd_matched : patterns m = stop_token_sequences control ∧ matcher_state gen m;
  rd_processed : 0 < ss_processed_tokens s
}.

Lemma not_cancelled clock : is_cancelled control clock = false.
Proof. unfold is_cancelled. by rewrite no_flag. Qed.

(** Both sides fail, or both end with the same output, reason and callbacks. *)
Definition same_end (x : res GenerationError (TokenGenerationOutput * GenerationFinishReason) * Stream Sel CB)
    (y : res GenerationError CB * CausalGenerationSession) : Prop :=
  match x, y with
  | (Ok r, st), (Ok cb, s) => ss_output s = r.1 ∧ ss_finish_reason s = Some r.2 ∧ st_cb st = cb ∧
      ss_cache s = st_cache st ∧ 0 < ss_processed_tokens s
  | (Err _, _), (Err _, _) => True
  | _, _ => False
  end.

(** The state a pending input is forwarded to. *)
Definition forwarded (s : CausalGenerationSession) (t : Z) (l : Logits) : CausalGenerationSession :=
  put_processed_tokens (S (ss_processed_tokens s)) (put_pending_input None (put_logits (Some l)
    (put_cache (try_forward_cached_last [t] (ss_cache s)).2 s))).

Lemma step_going s : ss_finish_reason s = None → ss_control s = control →
  step_inner None s = (advance_input ;;; select_next None) (put_clock (S (ss_clock s)) s).
Proof.
  intros Hf Hc. unfold step_inner. unfold mbind' at 1, mget. rewrite decide_False by (rewrite Hf; by intros []).
  unfold mbind' at 1, session_observe. by rewrite Hc, not_cancelled.
Qed.

Lemma check_logits_ok l s :
  batch_one (ss_limits s) l = true → on_device l = true → check_logits l s = (Ok tt, s).
Proof. intros Hb Hd. unfold check_logits, mbind', mget. by rewrite Hb, Hd. Qed.

Lemma check_logits_bad l s : batch_one (ss_limits s) l = false →
  ∃ e, check_logits l s = (Err e, s).
Proof. intros Hb. unfold check_logits, mbind', mget. rewrite Hb. by eexists. Qed.

Lemma advance_none s : ss_pending_input s = None → advance_input s = (Ok tt, s).
Proof. intros Hp. unfold advance_input, mbind', mget. by rewrite Hp. Qed.

Lemma advance_some s t l :
  ss_pending_input s = Some t → (try_forward_cached_last [t] (ss_cache s)).1 = inr l →
  batch_one (ss_limits s) l = true → (N.of_nat (S (ss_processed_tokens s)) ≤ usize_max)%N →
  advance_input s = (Ok tt, forwarded s t l).
Proof.
  intros Hp Hl Hb Hn. unfold advance_input. unfold mbind' at 1, mget. rewrite Hp.
  unfold mbind', session_forward. rewrite Hl. simpl. unfold check_logits, mbind', mget. simpl.
  rewrite Hb, (forward_on_device _ _ _ Hl). simpl. unfold usize_add.
  rewrite decide_True by lia. simpl. by rewrite Nat.add_1_r.
Qed.

Lemma advance_err s t e :
  ss_pending_input s = Some t → (try_forward_cached_last [t] (ss_cache s)).1 = inl e →
  ∃ s', advance_input s = (Err e, s').
Proof.
  intros Hp Hl. eexists. unfold advance_input. erewrite bind_ok by done. rewrite Hp.
  apply bind_err. unfold session_forward. by rewrite Hl.
Qed.

Lemma advance_refused s t l :
  ss_pending_input s = Some t → (try_forward_cached_last [t] (ss_cache s)).1 = inr l →
  batch_one (ss_limits s) l = false → ∃ e s', advance_input s = (Err e, s').
Proof.
  intros Hp Hl Hb. unfold advance_input. erewrite bind_ok by done. rewrite Hp.
  set (s1 := put_cache (try_forward_cached_last [t] (ss_cache s)).2 s).
  destruct (check_logits_bad l s1 Hb) as [e He]. exists e, s1.
  rewrite (bind_ok _ _ s l s1) by (unfold session_forward; by rewrite Hl). by apply bind_err.
Qed.

Lemma step_forward s t l :
  ss_finish_reason s = None → ss_control s = control → ss_pending_input s = Some t →
  (try_forward_cached_last [t] (ss_cache s)).1 = inr l →
  batch_one (ss_limits s) l = true → (N.of_nat (S (ss_processed_tokens s)) ≤ usize_max)%N →
  step_inner None s = step_inner None (forwarded s t l).
Proof.
  intros Hf Hc Hp Hl Hb Hn. rewrite !step_going by done. unfold mbind' at 1 2.
  rewrite (advance_some _ t l) by done. by rewrite advance_none.
Qed.

(** The session once token [t] is recorded. *)
Definition recorded (s : CausalGenerationSession) (sampler : option TokenSampler) (t : Z)
    (m : StopSequenceMatcher) (reason : option GenerationFinishReason) : CausalGenerationSession :=
  let s := put_matcher m (put_output (push_token (ss_output s) t (ss_eos s))
             (put_logits None (put_sampler sampler s))) in
  match reason with
  | Some r => put_logits None (put_pending_input None (put_finish_reason (Some r) s))
  | None => put_pending_input (Some t) s
  end.

Lemma record_token_ok s sampler t matched m :
  push (ss_matcher s) t = Ok (matched, m) →
  let count := S (generated_tokens s) in
  let reason := natural_stop (ss_eos s) matched count (max_new_tokens (ss_generation s)) t in
  record_token t (put_sampler sampler s) =
  (Ok (Some (mk_step t count reason)), recorded s sampler t m reason).
Proof.
  intros Hpush. unfold record_token, generated_tokens. unfold mbind' at 1, mmodify at 1.
  unfold mbind' at 1, mget. simpl. unfold mbind' at 1, mlift. rewrite Hpush.
  unfold mbind' at 1, mmodify at 1. simpl. rewrite length_app, Nat.add_1_r. simpl.
  unfold mbind'. by destruct (natural_stop _ _ _ _ _).
Qed.

Lemma select_ready s out m st gen l t sel' :
  ready s out m st gen → ss_logits s = Some l → batch_one limits l = true → on_device l = true →
  select (st_sel st) l = (inr t, sel') → outside (vocab_size limits) t = false →
  ∃ m' sampler', push m t = Ok (first_suffix (gen ++ [t]) (patterns m), m') ∧ patterns m' = patterns m ∧
    matcher_state (gen ++ [t]) m' ∧ selects sel' sampler' (gen ++ [t]) ∧
    let reason := natural_stop eos (first_suffix (gen ++ [t]) (patterns m)) (S (length gen)) max_new t in
    select_next None s =
    (Ok (Some (mk_step t (S (length gen)) reason)), recorded s sampler' t m' reason).
Proof.
  intros [Hl Hg Hc He Ho Hm Hca Hse Hpl [Htok Hgen] _ [Hps Hms] _] Hlog Hb Hd Hsel Hout.
  pose proof (selects_agree (st_sel st) s l gen Hse Hpl) as Ha. rewrite Ho, Hsel in Ha.
  destruct (Ha Htok Hgen) as (sampler' & Hst & Hse').
  destruct (push_spec m t gen Hms) as (m' & Hpush & Hps' & Hms').
  exists m', sampler'. split_and!; [done..|]. cbv zeta.
  unfold select_next. erewrite bind_ok by done. rewrite Hlog. erewrite bind_ok by done.
  erewrite bind_ok by done. erewrite bind_ok by (apply check_logits_ok; [by rewrite Hl|done]).
  erewrite bind_ok by done. rewrite Hl, Hout.
  rewrite (record_token_ok s sampler' t (first_suffix (gen ++ [t]) (patterns m)) m') by (by rewrite Hm).
  unfold generated_tokens. by rewrite Ho, Hgen, He, Hg.
Qed.

Lemma select_refused s out m st gen l :
  ready s out m st gen → ss_logits s = Some l → on_device l = true →
  (batch_one limits l = false ∨ ∃ sel', (∃ e, select (st_sel st) l = (inl e, sel')) ∨
    ∃ t, select (st_sel st) l = (inr t, sel') ∧ outside (vocab_size limits) t = true) →
  ∃ e s', select_next None s = (Err e, s').
Proof.
  intros [Hl Hg Hc He Ho Hm Hca Hse Hpl [Htok Hgen] _ [Hps Hms] _] Hlog Hd Hbad.
  pose proof (selects_agree (st_sel st) s l gen Hse Hpl) as Ha. rewrite Ho in Ha.
  unfold select_next. erewrite bind_ok by done. rewrite Hlog. erewrite bind_ok by done.
  erewrite bind_ok by done. destruct (batch_one limits l) eqn:Hb.
  - erewrite bind_ok by (apply check_logits_ok; [by rewrite Hl|done]).
    destruct Hbad as [?|(sel' & [[e Hs]|(t & Hs & Hout)])]; [done|..]; rewrite Hs in Ha.
    + destruct (Ha Htok Hgen) as (e' & s' & Hst). exists e', s'. by apply bind_err.
    + destruct (Ha Htok Hgen) as (sampler' & Hst & _). erewrite bind_ok by done.
      rewrite Hl, Hout. by do 2 eexists.
  - destruct (check_logits_bad l s) as [e He']; [by rewrite Hl|]. exists e, s. by apply bind_err.
Qed.

Lemma ready_clock s out m st gen n : ready s out m st gen → ready (put_clock n s) out m st gen.
Proof. intros []. by split. Qed.

(** One turn of [run_loop] is decided by [step_inner]. *)
Lemma run_loop_cong fuel cb s s' :
  ss_fault s = None → ss_fault s' = None → step_inner None s = step_inner None s' →
  run_loop on_token (S fuel) cb s = run_loop on_token (S fuel) cb s'.
Proof.
  intros Hf Hf' Heq. simpl. apply bind_cong. unfold step, step_with.
  erewrite bind_ok by done. symmetry. erewrite bind_ok by done. rewrite Hf, Hf'. unfold mcatch.
  by rewrite Heq.
Qed.

Lemma run_loop_err fuel cb s e s' :
  ss_fault s = None → step_inner None s = (Err e, s') →
  ∃ e s', run_loop on_token (S fuel) cb s = (Err e, s').
Proof.
  intros Hf Heq. do 2 eexists. simpl. apply bind_err. unfold step, step_with.
  erewrite bind_ok by done. rewrite Hf. unfold mcatch. by rewrite Heq.
Qed.

Lemma step_ok s x s' :
  ss_fault s = None → step_inner None s = (Ok x, s') → step s = (Ok x, s').
Proof.
  intros Hf Heq. unfold step, step_with. erewrite bind_ok by done. rewrite Hf. unfold mcatch.
  by rewrite Heq.
Qed.

Lemma run_loop_finished fuel cb s r :
  ss_fault s = None → ss_finish_reason s = Some r → run_loop on_token (S fuel) cb s = (Ok cb, s).
Proof.
  intros Hf Hr. simpl. rewrite (bind_ok _ _ _ None s); [done|]. apply step_ok; [done|].
  unfold step_inner. erewrite bind_ok by done. rewrite Hr, decide_True by (by eexists). done.
Qed.

Lemma recorded_ready s sampler t m' gen m out st :
  ready s out m st gen → push m t = Ok (first_suffix (gen ++ [t]) (patterns m), m') →
  patterns m' = patterns m → matcher_state (gen ++ [t]) m' →
  ∀ st', st_cache st' = st_cache st → selects (st_sel st') sampler (gen ++ [t]) →
  ready (put_pending_input None (recorded s sampler t m' None)) (push_token out t eos) m' st' (gen ++ [t]).
Proof.
  intros [Hl Hg Hc He Ho Hm Hca Hse Hpl [Htok Hgen] [Hf Hfa] [Hps Hms] Hp] Hpush Hps' Hms' st' Hca' Hse'.
  split; simpl; try done; [by rewrite Ho, He|congruence| |split; [congruence|done]].
  unfold push_token. simpl. rewrite Htok, Hgen. by rewrite <- app_assoc.
Qed.

(** The two loops agree from a point where both have the pending logits [l]. *)
Definition loops_agree (steps : list nat) : Prop := ∀ fuel out m st gen l s,
  steps = seq (length gen) (max_new - length gen) → length gen < max_new →
  max_new - length gen < fuel → ready s out m st gen → ss_pending_input s = None →
  ss_logits s = Some l → on_device l = true →
  ss_processed_tokens s = length prompt + length gen →
  same_end (generation_loop select on_token limits max_new control eos steps out m l st)
           (run_loop on_token fuel (st_cb st) s).

(** Both went past a token that ends nothing. *)
Lemma after_token stop rest fuel out m st gen t s : loops_agree rest →
  rest = seq (length gen) (max_new - length gen) → length gen < max_new →
  max_new - length gen < fuel → ready (put_pending_input None s) out m st gen →
  ss_pending_input s = Some t → S (ss_processed_tokens s) = length prompt + length gen →
  same_end
    ((let! stop := (if stop : bool then mret true else observe control) in
      if stop : bool then mret (out, Cancelled) else
      let! logits := forward [t] in
      generation_loop select on_token limits max_new control eos rest out m logits) st)
    (((let! stop := (if stop : bool then mret true else session_observe) in
       if stop : bool then finish Cancelled else mret tt) ;;;
      run_loop on_token fuel (st_cb st) : SS CB) s).
Proof.
  intros IH Hrest Hlt Hfuel Hrd Hpend Hproc.
  pose proof Hrd as [Hl _ Hc _ Ho _ Hca _ _ _ [Hfin Hfa] _ Hpos].
  cbn in Hl, Hc, Ho, Hca, Hfin, Hfa, Hpos.
  destruct fuel as [|fuel]; [lia|]. destruct stop; cbv iota.
  { rewrite (bind_ok _ _ st true st) by done. cbv iota.
    rewrite (bind_ok _ _ s tt (put_logits None (put_pending_input None
      (put_finish_reason (Some Cancelled) s)))) by done.
    rewrite (run_loop_finished _ _ _ Cancelled) by done. unfold same_end, mret. by split_and!. }
  set (st1 := mk_stream (st_cache st) (st_sel st) (st_cb st) (S (st_clock st))).
  set (s1 := put_clock (S (ss_clock s)) s).
  rewrite (bind_ok _ _ st false st1) by (unfold observe; by rewrite not_cancelled). cbv iota.
  rewrite (bind_ok _ _ s tt s1).
  2:{ rewrite (bind_ok _ _ s false s1); [done|]. unfold session_observe. by rewrite Hc, not_cancelled. }
  change (st_cb st) with (st_cb st1).
  destruct (try_forward_cached_last [t] (st_cache st)) as [[e|l'] cache'] eqn:Ef.
  - destruct (advance_err (put_clock (S (ss_clock s1)) s1) t e) as [s2 Hadv];
      [done|by cbn; rewrite Hca, Ef|].
    destruct (run_loop_err fuel (st_cb st1) s1 e s2) as (e' & s'' & ->); [done| |].
    + rewrite step_going by done. by apply bind_err.
    + erewrite bind_err; [done|]. unfold forward. cbn. by rewrite Ef.
  - rewrite (bind_ok _ _ st1 l' (mk_stream cache' (st_sel st) (st_cb st) (S (st_clock st))))
      by (unfold forward; cbn; by rewrite Ef).
    assert (on_device l' = true) as Hd by (apply (forward_on_device [t] (st_cache st)); by rewrite Ef).
    destruct (batch_one limits l') eqn:Hb.
    + rewrite (run_loop_cong fuel (st_cb st1) s1 (forwarded s1 t l')); [|done|done|].
      2:{ apply step_forward; try done; [by cbn; rewrite Hca, Ef|by cbn; rewrite Hl|cbn; lia]. }
      apply (IH (S fuel) out m (mk_stream cache' (st_sel st) (st_cb st) (S (st_clock st))) gen l');
        [done|done|done| |done|done|done|cbn; lia].
      unfold forwarded, s1. destruct Hrd. split; try done; cbn in *; [by rewrite Hca, Ef|lia].
    + destruct (advance_refused (put_clock (S (ss_clock s1)) s1) t l') as (e & s2 & Hadv);
        [done|by cbn; rewrite Hca, Ef|by cbn; rewrite Hl|].
      destruct (run_loop_err fuel (st_cb st1) s1 e s2) as (e' & s'' & ->); [done| |].
      * rewrite step_going by done. by apply bind_err.
      * assert (∃ n, max_new - length gen = S n) as [n Hn] by (exists (max_new - length gen - 1); lia).
        rewrite Hrest, Hn. cbn [seq generation_loop]. erewrite bind_ok by done.
        rewrite not_cancelled, Hb. done.
Qed.

Lemma loop_agree steps : loops_agree steps.
Proof.
  induction steps as [|k rest IH]; unfold loops_agree; intros fuel out m st gen l s Hsteps Hlt Hfuel Hrd Hpend Hlog Hd Hproc.
  { apply (f_equal length) in Hsteps. rewrite length_seq in Hsteps. simpl in Hsteps. lia. }
  assert (∃ n, max_new - length gen = S n) as [n Hn] by (exists (max_new - length gen - 1); lia).
  rewrite Hn in Hsteps. simpl in Hsteps. injection Hsteps as -> Hrest.
  destruct fuel as [|fuel]; [lia|].
  pose proof (rd_going _ _ _ _ _ Hrd) as [Hfin Hfault]. pose proof (rd_control _ _ _ _ _ Hrd) as Hctl.
  assert (step_inner None s = select_next None (put_clock (S (ss_clock s)) s)) as Hstep.
  { rewrite step_going by done. by erewrite bind_ok by (by apply advance_none). }
  apply (ready_clock _ _ _ _ _ (S (ss_clock s))) in Hrd. set (s0 := put_clock _ s) in *.
  assert (∀ e s', select_next None s0 = (Err e, s') → ∃ e' s'',
    run_loop on_token (S fuel) (st_cb st) s = (Err e', s'')) as Herr.
  { intros e s' He. eapply run_loop_err; [done|]. by rewrite Hstep. }
  cbn [generation_loop]. erewrite bind_ok by done. rewrite not_cancelled.
  destruct (batch_one limits l) eqn:Hb; cbn [negb].
  2:{ destruct (select_refused s0 out m st gen l Hrd Hlog Hd) as (e & s' & He); [by left|].
      destruct (Herr _ _ He) as (e' & s'' & ->). done. }
  destruct (select (st_sel st) l) as [[e|t] sel'] eqn:Hsel.
  { destruct (select_refused s0 out m st gen l Hrd Hlog Hd) as (e1 & s' & He); [right; eauto|].
    destruct (Herr _ _ He) as (e' & s'' & ->). erewrite bind_err; [done|].
    unfold choose. simpl. rewrite Hsel. done. }
  erewrite bind_ok by (unfold choose; simpl; rewrite Hsel; done). cbn [fst snd].
  destruct (outside (vocab_size limits) t) eqn:Hout.
  { destruct (select_refused s0 out m st gen l Hrd Hlog Hd) as (e1 & s' & He); [right; eauto|].
    destruct (Herr _ _ He) as (e' & s'' & ->). done. }
  destruct (select_ready s0 out m st gen l t sel' Hrd Hlog Hb Hd Hsel Hout)
    as (m' & sampler' & Hpush & Hps' & Hms' & Hse' & Hnext).
  cbv zeta in Hnext. rewrite Nat.add_1_r.
  set (reason := natural_stop eos _ _ _ _) in Hnext.
  set (s1 := recorded s0 sampler' t m' reason) in Hnext.
  erewrite bind_ok by (unfold mlift; rewrite Hpush; done). cbn [fst snd]. fold reason.
  destruct (rd_tokens _ _ _ _ _ Hrd) as [Htok Hgen].
  assert (generated_token_ids (push_token out t eos) = gen ++ [t]) as Hgen' by (simpl; by rewrite Hgen).
  assert (ss_output s1 = push_token out t eos) as Hout1.
  { unfold s1, recorded. rewrite <- (rd_output _ _ _ _ _ Hrd), <- (rd_eos _ _ _ _ _ Hrd).
    by destruct reason. }
  assert (ss_fault s1 = None) as Hfault1 by (unfold s1, recorded; by destruct reason).
  assert (ss_control s1 = control) as Hctl1 by (unfold s1, recorded; by destruct reason).
  assert (ss_cache s1 = st_cache st) as Hcache1.
  { unfold s1, recorded. rewrite <- (rd_cache _ _ _ _ _ Hrd). by destruct reason. }
  assert (ss_processed_tokens s1 = length prompt + length gen) as Hproc1
    by (unfold s1, recorded; by destruct reason).
  pose proof (rd_processed _ _ _ _ _ Hrd) as Hpos. simpl in Hpos.
  assert (step s = (Ok (Some (mk_step t (S (length gen)) reason)), s1)) as Hstep1.
  { apply step_ok; [done|]. by rewrite Hstep. }
  cbn [run_loop]. erewrite (bind_ok _ _ s) by exact Hstep1. cbv beta iota.
  erewrite (bind_ok mget _ s1) by done. cbv zeta.
  cbn [step_token_id step_generated_tokens step_finish_reason]. rewrite Hout1, Hgen'.
  erewrite (bind_ok (report _ _)) by done.
  set (event := mk_event t (gen ++ [t]) reason).
  destruct reason as [r|] eqn:Er.
  { rewrite decide_False by done. erewrite (bind_ok (mret tt)) by done.
    destruct fuel as [|fuel]; [lia|]. rewrite (run_loop_finished _ _ s1 r) by done.
    unfold same_end, mret. split_and!; done || lia. }
  assert (length gen + 1 < max_new) as Hnext1.
  { subst reason. unfold natural_stop in Er. destruct (decide (t ∈ eos)); [discriminate|].
    destruct (first_suffix (gen ++ [t]) (patterns m)); [discriminate|].
    destruct (decide (S (length gen) = max_new)); [discriminate|]. lia. }
  rewrite decide_True by done. cbn [st_cb st_cache st_sel st_clock].
  destruct (on_token (st_cb st) event) as [stop cb] eqn:Eon. cbn [fst snd].
  eapply (after_token stop rest fuel _ m' (mk_stream (st_cache st) sel' cb (S (st_clock st))) (gen ++ [t]) t s1 IH);
    rewrite ?length_app; cbn [length].
  - rewrite Hrest. f_equal; lia.
  - done.
  - lia.
  - apply (recorded_ready s0 sampler' t m' gen m out st Hrd Hpush Hps' Hms'); done.
  - done.
  - lia.
Qed.

(** Opening a session and running it. *)
Definition session_stream (sampler : option TokenSampler) (cb : CB) :
    Gen (ControlledGenerationOutput * CB) :=
  do? s := new_with_prefix limits prompt generation sampler control None in
  (run_stream on_token cb s).1.

Definition same_outcome (x : Gen ControlledGenerationOutput * Stream Sel CB)
    (y : Gen (ControlledGenerationOutput * CB)) : Prop :=
  match x, y with
  | (Ok r, st), Ok (r', cb) => r' = r ∧ cb = st_cb st
  | (Err _, _), Err _ => True
  | _, _ => False
  end.

(** What [run_stream] makes of the end of its loop. *)
Lemma run_stream_end cb s cb' s' r :
  run_loop on_token (S (S (max_new_tokens (ss_generation s)))) cb s = (Ok cb', s') →
  ss_finish_reason s' = Some r →
  (run_stream on_token cb s).1 =
  if decide (0 < ss_processed_tokens s') then
    match device_sync (ss_cache s') with
    | inl e => Err e
    | inr _ => Ok (mk_controlled (ss_output s') r, cb')
    end
  else Ok (mk_controlled (ss_output s') r, cb').
Proof.
  intros Hl Hr. unfold run_stream. erewrite bind_ok by done. rewrite (bind_ok _ _ _ _ _ Hl).
  erewrite bind_ok by done. case_decide.
  - destruct (device_sync (ss_cache s')) as [e|[]] eqn:Ed.
    + by erewrite bind_err.
    + rewrite (bind_ok _ _ s' tt s') by done. by rewrite Hr.
  - rewrite (bind_ok _ _ s' tt s') by done. by rewrite Hr.
Qed.

Lemma run_stream_err cb s e s' :
  run_loop on_token (S (S (max_new_tokens (ss_generation s)))) cb s = (Err e, s') →
  (run_stream on_token cb s).1 = Err e.
Proof.
  intros Hl. unfold run_stream. erewrite bind_ok by done. by rewrite (bind_err _ _ _ _ _ Hl).
Qed.

Lemma finish_agree (loop : M (Stream Sel CB) GenerationError (TokenGenerationOutput * GenerationFinishReason))
    st cb s :
  same_end (loop st) (run_loop on_token (S (S (max_new_tokens (ss_generation s)))) cb s) →
  same_outcome
    ((let! finished := loop in
      let! s := mget in
      let! _ := mlift (lift (device_sync (st_cache s))) in
      mret (mk_controlled finished.1 finished.2)) st)
    (run_stream on_token cb s).1.
Proof.
  intros Ha. destruct (loop st) as [[[out r]|e|p] st'] eqn:El;
    destruct (run_loop _ _ cb s) as [[cb'|e'|p'] s'] eqn:Er; try done.
  - destruct Ha as (Ho & Hr & Hcb & Hca & Hpos). rewrite (bind_ok _ _ _ _ _ El).
    rewrite (run_stream_end _ _ _ _ _ Er Hr), decide_True by done.
    rewrite (bind_ok _ _ st' st' st') by done. rewrite Hca, Ho. cbn [fst snd] in *.
    destruct (device_sync (st_cache st')) as [e|[]] eqn:Ed.
    + by erewrite bind_err.
    + rewrite (bind_ok _ _ st' tt st') by done. unfold mret, same_outcome. done.
  - rewrite (run_stream_err _ _ _ _ Er). by rewrite (bind_err _ _ _ _ _ El).
Qed.

Lemma session_run_agree sel0 sampler cb :
  (N.of_nat (max_model_length limits) ≤ usize_max)%N → selects sel0 sampler [] →
  same_outcome
    (generate_with_selector_stream select on_token limits prompt generation control
       (mk_stream new_cache sel0 cb 0))
    (session_stream sampler cb).
Proof.
  intros Hmax Hsel. set (st0 := mk_stream new_cache sel0 cb 0).
  unfold session_stream, new_with_prefix, generate_with_selector_stream.
  pose proof (validate_generation_spec limits prompt generation Hmax) as Hv.
  destruct (validate_generation limits prompt generation) as [e|e|p] eqn:Ev; [|done|done].
  destruct Hv as [(_ & _ & Hne & Hlen & _) ->]. cbn [res_bind].
  rewrite (bind_ok _ _ st0 eos st0) by (unfold mlift; done).
  unfold validate_control.
  pose proof (validate_patterns_spec (vocab_size limits) 0 (stop_token_sequences control)) as Hp.
  destruct (validate_patterns _ _ _) as [[]|e|p]; [|done|done]. cbn [res_bind].
  rewrite (bind_ok _ _ st0 tt st0) by done. cbv zeta. rewrite not_cancelled.
  destruct (new_matcher_spec (stop_token_sequences control)) as (m & Hm & Hps & Hms).
  { apply Forall_forall. intros q Hin. by apply Hp. }
  destruct (decide (max_new = 0)) as [Hz|Hz].
  - rewrite (bind_ok _ _ st0 true st0) by done. cbv iota. erewrite bind_ok by done.
    rewrite not_cancelled. unfold mret. rewrite Hm. cbn [res_bind].
    erewrite run_stream_end; [|by apply (run_loop_finished _ _ _ MaxNewTokens)|done]. done.
  - set (s0 := blank limits prompt generation sampler control eos m None).
    set (st1 := mk_stream new_cache sel0 cb 1).
    rewrite (bind_ok _ _ st0 false st1) by (unfold observe; cbn; by rewrite not_cancelled). cbv iota.
    rewrite (bind_ok _ _ st1 m st1) by (unfold mlift; by rewrite Hm). rewrite Hm. cbn [res_bind].
    rewrite (bind_ok _ _ st1 tt st1) by done. fold s0. rewrite (prefill_fresh prompt s0) by done.
    destruct (try_forward_cached_last prompt new_cache) as [[e|l] cache] eqn:Ef.
    { rewrite (bind_err _ _ s0 e (put_cache cache s0)) by (unfold session_forward; cbn; by rewrite Ef).
      erewrite bind_err; [done|]. unfold forward. cbn. by rewrite Ef. }
    set (st2 := mk_stream cache sel0 cb 1). set (s1 := put_cache cache s0).
    rewrite (bind_ok _ _ st1 l st2) by (unfold forward; cbn; by rewrite Ef).
    rewrite (bind_ok _ _ s0 l s1) by (unfold session_forward; cbn; by rewrite Ef).
    assert (on_device l = true) as Hd by (apply (forward_on_device prompt new_cache); by rewrite Ef).
    destruct (batch_one limits l) eqn:Hb.
    + rewrite (bind_ok _ _ s1 tt s1) by (apply check_logits_ok; done).
      unfold mmodify at 1. cbv beta iota. set (s2 := put_processed_tokens _ _).
      pose proof (loop_agree (seq 0 max_new) (S (S max_new)) (mk_output prompt [] false) m st2 [] l s2)
        as Ha. cbn [length] in Ha. rewrite Nat.sub_0_r, Nat.add_0_r in Ha.
      assert (ready s2 (mk_output prompt [] false) m st2 []) as Hrd.
      { split; try done; [split; [by rewrite app_nil_r|done]|].
        cbn. destruct prompt; [done|cbn; lia]. }
      specialize (Ha eq_refl ltac:(lia) ltac:(lia) Hrd eq_refl eq_refl Hd eq_refl).
      by apply finish_agree.
    + destruct (check_logits_bad l s1 Hb) as [e He]. rewrite (bind_err _ _ s1 e s1) by done.
      assert (∃ n, max_new = S n) as [n Hn] by (exists (max_new - 1); lia).
      rewrite Hn. cbn [seq generation_loop]. erewrite bind_err; [done|].
      erewrite bind_ok by done. rewrite not_cancelled, Hb. done.
Qed.
End Agree.

Lemma refused_agree {Sel CB} select on_token limits prompt generation control
    (st : Stream Sel CB) sampler cb e :
  validate_generation limits prompt generation = Err e →
  same_outcome (generate_with_selector_stream select on_token limits prompt generation control st)
    (session_stream on_token limits prompt generation control sampler cb).
Proof.
  intros He. unfold session_stream, new_with_prefix, generate_with_selector_stream. rewrite He.
  by erewrite bind_err.
Qed.

Lemma greedy_agree s l : ss_sampler s = None →
  match greedy_token l with
  | inl _ => ∃ e s', select_token l s = (Err e, s')
  | inr t => select_token l s = (Ok t, put_sampler None s)
  end.
Proof.
  intros Hs. unfold select_token. erewrite bind_ok by done. rewrite Hs.
  destruct (greedy_token l) as [e|t]; [by do 2 eexists|]. unfold mlift, put_sampler. simpl. rewrite <- Hs.
  by destruct s.
Qed.

Lemma sampled_agree s l prompt gen sm :
  ss_sampler s = Some sm → ss_prompt_length s = length prompt →
  token_ids (ss_output s) = prompt ++ gen → generated_token_ids (ss_output s) = gen →
  match sampled_select prompt (sm, gen) l with
  | (inl _, _) => ∃ e s', select_token l s = (Err e, s')
  | (inr t, sel') => select_token l s = (Ok t, put_sampler (Some sel'.1) s) ∧ sel'.2 = gen ++ [t]
  end.
Proof.
  intros Hs Hp Ht Hg. unfold sampled_select, select_token. erewrite bind_ok by done. rewrite Hs.
  destruct (read_last_logits l) as [e|row]; [by do 2 eexists|]. rewrite (bind_ok _ _ s row s) by done.
  rewrite Hp, Ht. unfold slice. rewrite decide_True by (rewrite length_app; lia).
  rewrite drop_0, Nat.sub_0_r, take_app_length. rewrite (bind_ok _ _ s prompt s) by done. cbn [fst snd].
  rewrite Hg. destruct (sample_with_history sm row prompt gen) as [[e|t] sm']; [by do 2 eexists|done].
Qed.

(** Claim C15.  Without a cancellation flag, opening a session and running it is
    the uninterrupted generation loop: greedy or sampled, with any callback, both
    fail or both return the same tokens, the same finish reason and leave the
    callback in the same state.  The selected token is forwarded lazily, but no
    token is ever forwarded twice or skipped. *)
Theorem session_run_equals_stream {CB} (on_token : CB → GenerationEvent → bool * CB)
    limits prompt generation control sampler cb :
  cancellation control = None → (N.of_nat (max_model_length limits) ≤ usize_max)%N →
  (∀ tokens cache l, (try_forward_cached_last tokens cache).1 = inr l → on_device l = true) →
  match sampler with
  | None => same_outcome
      (generate_causal_greedy_stream on_token limits prompt generation control cb)
      (session_stream on_token limits prompt generation control None cb)
  | Some sm => same_outcome
      (generate_causal_sampled_stream on_token limits prompt generation sm control cb)
      (session_stream on_token limits prompt generation control (Some sm) cb)
  end.
Proof.
  intros Hc Hmax Hd. pose proof (validate_generation_spec limits prompt generation Hmax) as Hv.
  destruct (validate_generation limits prompt generation) as [e|e|p] eqn:Ev; [|by destruct sampler;
    eapply refused_agree|done].
  destruct Hv as [(_ & _ & _ & Hlen & _) _].
  assert (N.of_nat (length prompt + max_new_tokens generation) ≤ usize_max)%N as Hfits by lia.
  destruct sampler as [sm|].
  - apply (session_run_agree (sampled_select prompt) on_token limits prompt generation control Hc Hd Hfits
      (λ sel smp gen, smp = Some sel.1 ∧ sel.2 = gen)); [|done|done].
    intros [sm0 gen0] s l gen [Hs Hg0] Hp Ht Hg. cbn [fst snd] in *. subst gen0.
    pose proof (sampled_agree s l prompt gen sm0 Hs Hp Ht Hg) as Ha.
    destruct (sampled_select prompt (sm0, gen) l) as [[e1|t] sel']; [done|].
    destruct Ha as [? ?]. by exists (Some sel'.1).
  - apply (session_run_agree greedy_select on_token limits prompt generation control Hc Hd Hfits
      (λ _ smp _, smp = None)); [|done|done].
    intros [] s l gen Hs _ _ _. pose proof (greedy_agree s l Hs) as Ha. unfold greedy_select.
    destruct (greedy_token l); [done|]. by exists None.
Qed.
End Session.
