(* ===== verification/GenerationRecord.v ===== *)
(** * Durable generation sessions

    src/src/generation/session/record.rs: a session at a token boundary is saved
    with its cache, pending logits, sampler and history; [restore] accepts only
    records that describe such a boundary, and gives back the saved session. *)
From S2P Require Import Prelude PagedKv ContinuousBatch GenerationControl Generation GenerationSession.
Open Scope nat_scope.
Open Scope m_scope.

(** [RecorderError::Unknown] with its message, without the common prefix
    ["invalid generation continuation: "] of [invalid]. *)
Definition RecorderError : Type := string.
Notation Rec := (res RecorderError).

(** What the recorder and the tensor library provide: the model's cache records
    ([trait GenerationCacheContinuation]), native logits storage, sampler states. *)
Class GenerationCacheContinuation `{TokenSampling} := {
  CacheRecord : Type;
  generation_position : Cache → nat;
  capture_generation : Cache → string → Fallible CacheRecord;
  restore_generation : CacheRecord → string → Cache → nat → Fallible Cache;
  TensorData : Type;
  td_shape : TensorData → list nat;
  td_is_float : TensorData → bool;
  td_element_bytes : TensorData → nat;
  td_byte_length : TensorData → nat;
  read_data : Logits → Fallible TensorData;
  from_data : TensorData → Logits;
  SamplerState : Type;
  to_state : TokenSampler → SamplerState;
  from_state : SamplerState → Fallible TokenSampler
}.

Section Record.
Context `{GenerationCacheContinuation}.

Record GenerationSessionState := mk_state {
  gs_limits : CausalModelLimits;
  gs_generation : GreedyGenerationConfig;
  gs_stop_sequences : list (list Z);
  gs_prompt_length : nat;
  gs_processed_tokens : nat;
  gs_output : TokenGenerationOutput;
  gs_pending_input : option Z;
  gs_sampler : option SamplerState;
  gs_finish_reason : option GenerationFinishReason
}.

Record GenerationSessionRecord := mk_record {
  rec_version : N;
  rec_model_id : string;
  rec_state : GenerationSessionState;
  rec_cache : CacheRecord;
  rec_logits : option TensorData
}.

(** [shape.iter().try_fold(1, checked_mul)] *)
Fixpoint checked_product (acc : nat) (l : list nat) : option nat :=
  match l with
  | [] => Some acc
  | d :: rest => match usize_mul acc d with Some n => checked_product n rest | None => None end
  end.

Definition check_logits_data (data : TensorData) (vocabulary : nat) : Rec unit :=
  match td_shape data with
  | [batch; sequence; width] =>
      if decide (batch ≠ 1 ∨ sequence = 0 ∨ width ≠ vocabulary ∨ td_is_float data = false) then
        Err "pending logits do not have original native batch-one vocabulary geometry"
      else
        do? bytes := ok_or (count ← checked_product 1 (td_shape data);
                            usize_mul count (td_element_bytes data))
                       "pending logits byte count overflow" in
        if decide (td_byte_length data ≠ bytes) then
          Err "pending logits byte count differs from native storage"
        else Ok tt
  | _ => Err "pending logits do not have original native batch-one vocabulary geometry"
  end.

(** The loop of [restore] over the saved suffix. *)
Fixpoint replay (vocab max_new : nat) (eos : gset Z) (tokens : list Z) (index : nat)
    (matcher : StopSequenceMatcher) (natural : option GenerationFinishReason) :
    Rec (StopSequenceMatcher * option GenerationFinishReason) :=
  match tokens with
  | [] => Ok (matcher, natural)
  | token :: rest =>
      if decide (is_Some natural ∨ outside vocab token = true) then
        Err "suffix contains invalid tokens or tokens after natural termination"
      else
        do? matched := push matcher token in
        replay vocab max_new eos rest (index + 1) matched.2
          (natural_stop eos matched.1 (index + 1) max_new token)
  end.

(** [reason_valid] *)
Definition reason_valid (reason natural : option GenerationFinishReason) (count max_new : nat) : bool :=
  match reason with
  | Some Cancelled => bool_decide (natural = None)
  | Some MaxNewTokens =>
      if decide (count = 0) then bool_decide (max_new = 0)
      else bool_decide (reason = natural) && bool_decide (0 < count ∨ 0 < max_new)
  | _ => bool_decide (reason = natural) && bool_decide (0 < count ∨ 0 < max_new)
  end.

Definition stopped_by_eos (reason : option GenerationFinishReason) : bool :=
  match reason with Some (EosToken _) => true | _ => false end.

(** The inputs a session at this boundary has consumed. *)
Definition consumed_inputs (prompt_length count : nat) : nat :=
  if decide (count = 0) then prompt_length else prompt_length + count - 1.

(** The checks of [restore] on the position, the pending input and the logits. *)
Definition boundary_error (state : GenerationSessionState) (has_logits : bool) : option RecorderError :=
  let count := length (generated_token_ids (gs_output state)) in
  let consumed := consumed_inputs (gs_prompt_length state) count in
  match gs_finish_reason state with
  | None =>
      if decide (count = 0) then
        if decide (gs_processed_tokens state ≠ consumed ∨ is_Some (gs_pending_input state) ∨
                   has_logits = false) then
          Some "prefilled request is missing exact pending logits"
        else None
      else
        if decide (gs_processed_tokens state ≠ consumed ∨
                   gs_pending_input state ≠ last (generated_token_ids (gs_output state)) ∨
                   has_logits = true) then
          Some "decode input and actual consumed prefix differ"
        else None
  | Some _ =>
      if decide (is_Some (gs_pending_input state) ∨ has_logits = true ∨
                 gs_processed_tokens state ≠ consumed ∧
                 ¬ (count = 0 ∧ gs_processed_tokens state = 0)) then
        Some "terminal request contains uncommitted inputs or inconsistent consumed history"
      else None
  end.

Definition restore (r : GenerationSessionRecord) (limits : CausalModelLimits) (model_id : string)
    (control : GenerationControl) : Rec CausalGenerationSession :=
  let state := rec_state r in
  if decide (rec_version r ≠ 1%N ∨ model_id = EmptyString ∨ rec_model_id r ≠ model_id ∨
             gs_limits state ≠ limits) then
    Err "record version, exact model identity or actual limits differ"
  else
  let generated := generated_token_ids (gs_output state) in
  let count := length generated in
  let max_new := max_new_tokens (gs_generation state) in
  if decide (gs_prompt_length state = 0 ∨
             usize_add (gs_prompt_length state) count ≠ Some (length (token_ids (gs_output state))) ∨
             max_new < count ∨
             drop (gs_prompt_length state) (token_ids (gs_output state)) ≠ generated) then
    Err "saved prompt, suffix or generated count differs"
  else
  let prompt := take (gs_prompt_length state) (token_ids (gs_output state)) in
  do? eos := validate_generation limits prompt (gs_generation state) in
  do? _ := validate_control control (vocab_size limits) in
  if decide (gs_stop_sequences state ≠ stop_token_sequences control) then
    Err "generated-only stopping patterns differ"
  else
  do? matcher := new_matcher (stop_token_sequences control) in
  do? replayed := replay (vocab_size limits) max_new eos generated 0 matcher None in
  if negb (reason_valid (gs_finish_reason state) replayed.2 count max_new) ||
     negb (bool_decide (stopped_on_eos (gs_output state) = stopped_by_eos (gs_finish_reason state))) then
    Err "saved finish reason does not match actual generated history"
  else
  match boundary_error state (bool_decide (is_Some (rec_logits r))) with
  | Some error => Err error
  | None =>
  if decide (count = 0 ∧ max_new = 0 ∧ gs_processed_tokens state ≠ 0) then
    Err "zero-limit request cannot contain a forwarded prompt"
  else
  do? _ := match rec_logits r with
           | Some data => check_logits_data data (vocab_size limits)
           | None => Ok tt
           end in
  do? sampler := match gs_sampler state with
                 | Some st => res_bind (lift (from_state st)) (λ x, Ok (Some x))
                 | None => Ok None
                 end in
  if decide (generation_position new_cache ≠ 0) then
    Err "fresh generation cache must start at input position zero"
  else
  do? cache := lift (restore_generation (rec_cache r) model_id new_cache (gs_processed_tokens state)) in
  Ok (mk_session limits (gs_generation state) control replayed.1 eos cache
        (from_data <$> rec_logits r) (gs_pending_input state) sampler (gs_prompt_length state)
        (gs_processed_tokens state) (gs_output state) (gs_finish_reason state) None 0)
  end.

Definition record_of (s : CausalGenerationSession) (model_id : string) (cache : CacheRecord)
    (logits : option TensorData) : GenerationSessionRecord :=
  mk_record 1 model_id
    (mk_state (ss_limits s) (ss_generation s) (stop_token_sequences (ss_control s))
       (ss_prompt_length s) (ss_processed_tokens s) (ss_output s) (ss_pending_input s)
       (to_state <$> ss_sampler s) (ss_finish_reason s))
    cache logits.

Notation RS := (M CausalGenerationSession RecorderError).

Definition record (model_id : string) : RS GenerationSessionRecord :=
  let! s := mget in
  if decide (model_id = EmptyString ∨ is_Some (ss_fault s)) then
    mthrow "exact identity and a nonfaulted token boundary are required"
  else if decide (generation_position (ss_cache s) ≠ ss_processed_tokens s) then
    mthrow "cache is not at the request's completed input position"
  else
  (if decide (0 < ss_processed_tokens s) then
     mcatch (mlift (lift (device_sync (ss_cache s))))
       (λ e, mmodify (put_fault (Some ("generation checkpoint did not complete: " +:+ e))) ;;;
             mthrow ("generation checkpoint did not complete: " +:+ e))
   else mret tt) ;;;
  let! logits :=
    match ss_logits s with
    | Some l =>
        let! data := mlift (lift (read_data l)) in
        mlift (check_logits_data data (vocab_size (ss_limits s))) ;;;
        mret (Some data)
    | None => mret None
    end in
  let! cache := mlift (lift (capture_generation (ss_cache s) model_id)) in
  mret (record_of s model_id cache logits).

(** [prefilled_prompt]: capture a completed prefill before any selection. *)
Definition prefilled_prompt (model_id : string) : M CausalGenerationSession GenerationError PrefilledPrompt :=
  let! s := mget in
  if decide (model_id = EmptyString ∨ is_Some (ss_fault s) ∨ ss_processed_tokens s ≠ ss_prompt_length s ∨
             generated_token_ids (ss_output s) ≠ [] ∨
             generation_position (ss_cache s) ≠ ss_prompt_length s) then
    mthrow "prefix capture requires a complete prefill before token selection"
  else
    let! logits := mok_or (ss_logits s) "prefix capture requires pending logits" in
    mlift (lift (device_sync (ss_cache s))) ;;;
    mret (mk_prefilled model_id (ss_limits s) (token_ids (ss_output s)) (ss_cache s) logits).

(** ** Token boundaries *)

(** A computation that does not panic. *)
Definition safely {S E A} (ok : A → S → Prop) (err : E → S → Prop) (r : res E A) (s : S) : Prop :=
  match r with Ok a => ok a s | Err e => err e s | Panic _ => False end.

(** The matcher after the saved tokens. *)
Fixpoint push_tokens (m : StopSequenceMatcher) (tokens : list Z) : Gen StopSequenceMatcher :=
  match tokens with
  | [] => Ok m
  | t :: rest => do? step := push m t in push_tokens step.2 rest
  end.

Definition replayed (ps : list (list Z)) (gen : list Z) (m : StopSequenceMatcher) : Prop :=
  ∃ m0, new_matcher ps = Ok m0 ∧ push_tokens m0 gen = Ok m.

Notation patterns_of s := (stop_token_sequences (ss_control s)).
Notation limit_of s := (max_new_tokens (ss_generation s)).

(** The session's history is [prompt] and the tokens [gen] it generated. *)
Record history (s : CausalGenerationSession) (prompt gen : list Z) : Prop := {
  hs_eos : ss_eos s = list_to_set (eos_token_ids (ss_generation s));
  hs_output : ss_output s = output_of (ss_eos s) prompt gen;
  hs_prompt : ss_prompt_length s = length prompt;
  hs_valid : valid_generation (ss_limits s) prompt (ss_generation s);
  hs_patterns : valid_patterns (vocab_size (ss_limits s)) (patterns_of s);
  hs_matcher : replayed (patterns_of s) gen (ss_matcher s)
}.

(** A session between two steps: what it has forwarded and what it still owes. *)
Definition at_boundary (s : CausalGenerationSession) (gen : list Z) : Prop :=
  match ss_finish_reason s with
  | None => running (ss_limits s) (ss_eos s) (patterns_of s) (limit_of s) gen ∧
      length gen < limit_of s ∧
      ss_processed_tokens s = consumed_inputs (ss_prompt_length s) (length gen) ∧
      ss_pending_input s = last gen ∧ (is_Some (ss_logits s) ↔ gen = [])
  | Some r =>
      (limit_of s = 0 ∧ gen = [] ∧ r = MaxNewTokens ∨
       ended (ss_limits s) (ss_eos s) (patterns_of s) (limit_of s) gen r) ∧
      ss_pending_input s = None ∧ ss_logits s = None ∧
      (ss_processed_tokens s = consumed_inputs (ss_prompt_length s) (length gen) ∨
       gen = [] ∧ ss_processed_tokens s = 0) ∧
      (limit_of s = 0 → ss_processed_tokens s = 0)
  end.

Lemma push_tokens_snoc m gen t m1 matched m2 :
  push_tokens m gen = Ok m1 → push m1 t = Ok (matched, m2) → push_tokens m (gen ++ [t]) = Ok m2.
Proof.
  revert m. induction gen as [|g gen IH]; intros m; simpl.
  - intros [= <-] ->. done.
  - destruct (push m g) as [[mm m']|e|p]; simpl; [apply IH|done..].
Qed.

Lemma push_tokens_state m h gen m' : matcher_state h m → push_tokens m gen = Ok m' →
  patterns m' = patterns m ∧ matcher_state (h ++ gen) m'.
Proof.
  revert m h. induction gen as [|t gen IH]; intros m h Hm; simpl.
  - intros [= <-]. by rewrite app_nil_r.
  - destruct (push_spec m t h Hm) as (m1 & -> & Hp & Hm1). simpl. intros Heq.
    destruct (IH m1 _ Hm1 Heq) as [? ?]. split; [congruence|]. by rewrite (cons_middle t h gen), app_assoc.
Qed.

Lemma patterns_nonempty vocab ps : valid_patterns vocab ps → Forall (λ p, p ≠ []) ps.
Proof. intros Hv. apply Forall_forall. intros p Hp. by apply Hv. Qed.

Lemma replayed_state vocab ps gen m : valid_patterns vocab ps → replayed ps gen m →
  patterns m = ps ∧ matcher_state gen m.
Proof.
  intros Hv (m0 & Hn & Hp). destruct (new_matcher_spec ps (patterns_nonempty _ _ Hv)) as (m1 & Hn1 & <- & Hm1).
  rewrite Hn1 in Hn. injection Hn as ->. by apply (push_tokens_state m0 []).
Qed.

Lemma running_ended limits eos ps max_new gen : length gen ≤ max_new →
  running limits eos ps max_new gen → ended limits eos ps max_new gen Cancelled.
Proof.
  intros Hl [Hv Hg]. pose proof (Hg (length gen) ltac:(lia)) as Hn. rewrite take_ge in Hn by done.
  split; [done|done|intros n Hlt; apply Hg; lia|by right].
Qed.

Lemma running_snoc limits eos ps max_new gen t : running limits eos ps max_new gen →
  outside (vocab_size limits) t = false → stop_of eos ps max_new (gen ++ [t]) = None →
  running limits eos ps max_new (gen ++ [t]).
Proof.
  intros [Hv Hg] Ho Hs. split; [by apply vocab_snoc|]. intros n Hn.
  destruct (decide (n = length (gen ++ [t]))) as [->|]; [by rewrite take_ge|].
  apply going_snoc; [done|lia].
Qed.

Lemma ended_snoc limits eos ps max_new gen t r : running limits eos ps max_new gen →
  length gen < max_new → outside (vocab_size limits) t = false →
  stop_of eos ps max_new (gen ++ [t]) = Some r → ended limits eos ps max_new (gen ++ [t]) r.
Proof.
  intros [Hv Hg] Hl Ho Hs. split; [rewrite length_app; simpl; lia|by apply vocab_snoc| |by left].
  by apply going_snoc.
Qed.

(** ** Steps go from boundary to boundary *)
Record boundary (s : CausalGenerationSession) (prompt gen : list Z) : Prop := {
  bd_history : history s prompt gen;
  bd_boundary : at_boundary s gen;
  bd_fault : ss_fault s = None
}.

Lemma finish_boundary s prompt gen : boundary s prompt gen → ss_finish_reason s = None →
  boundary (put_logits None (put_pending_input None (put_finish_reason (Some Cancelled) s))) prompt gen.
Proof.
  intros [Hh Hb Hf] Hfin. unfold at_boundary in Hb. rewrite Hfin in Hb.
  destruct Hb as (Hrun & Hlt & Hproc & _). split; [by destruct Hh|..|done].
  unfold at_boundary. simpl. split_and!; [right; by apply running_ended; [lia|]|done|done|by left|lia].
Qed.

(** The session with pending logits, about to select. *)
Record selecting (s : CausalGenerationSession) (prompt gen : list Z) : Prop := {
  sl_history : history s prompt gen;
  sl_fault : ss_fault s = None;
  sl_finish : ss_finish_reason s = None;
  sl_running : running (ss_limits s) (ss_eos s) (patterns_of s) (limit_of s) gen;
  sl_length : length gen < limit_of s;
  sl_processed : ss_processed_tokens s = length prompt + length gen;
  sl_pending : ss_pending_input s = None
}.

Lemma session_forward_wp tokens s (Q : Gen Logits → CausalGenerationSession → Prop) :
  (∀ x c, (∀ p, x ≠ Panic p) → Q x (put_cache c s)) → wp (session_forward tokens) Q s.
Proof.
  intros HQ. unfold wp, session_forward. simpl. apply HQ.
  by destruct (try_forward_cached_last tokens (ss_cache s)) as [[]].
Qed.

Lemma check_logits_wp l s (Q : Gen unit → CausalGenerationSession → Prop) :
  Q (Ok tt) s → (∀ e, Q (Err e) s) → wp (check_logits l) Q s.
Proof. intros HO HE. unfold check_logits. do 2 wp_step. by destruct (negb _); wp_step. Qed.

Lemma advance_input_wp s prompt gen : boundary s prompt gen → ss_finish_reason s = None →
  wp advance_input (safely (λ _ s', selecting s' prompt gen) (λ _ _, True)) s.
Proof.
  intros [Hh Hb Hf] Hfin. unfold at_boundary in Hb. rewrite Hfin in Hb.
  destruct Hb as (Hrun & Hlt & Hproc & Hpend & Hlog). pose proof (hs_prompt _ _ _ Hh) as Hpl.
  unfold advance_input. do 2 wp_step. rewrite Hpend. destruct (last gen) as [t|] eqn:El.
  - wp_step. apply session_forward_wp. intros [l|e|p] c Hnp; [|done|by destruct (Hnp p)].
    wp_step. apply check_logits_wp; [|done]. do 2 wp_step. do 2 wp_step. wp_step. unfold mok_or. simpl.
    destruct (usize_add _ _) as [n|] eqn:En; [|by apply wp_throw].
    apply usize_add_Some in En as [-> _]. do 2 wp_step. simpl.
    assert (0 < length gen) by (destruct gen; [done|simpl; lia]).
    split; try done; [by destruct Hh|]. simpl. rewrite Hproc, Hpl. unfold consumed_inputs.
    rewrite decide_False by lia. lia.
  - apply last_None in El. subst gen. apply wp_ret. split; try done.
    rewrite Hproc, Hpl. simpl. unfold consumed_inputs. rewrite decide_True by done. lia.
Qed.

Lemma select_token_wp l s prompt gen (Q : Gen Z → CausalGenerationSession → Prop) :
  history s prompt gen → (∀ x smp, (∀ p, x ≠ Panic p) → Q x (put_sampler smp s)) →
  wp (select_token l) Q s.
Proof.
  intros Hh HQ. assert (s = put_sampler (ss_sampler s) s) as Hsame by (by destruct s).
  unfold select_token. do 2 wp_step. destruct (ss_sampler s) as [smp|] eqn:Es.
  - wp_step. apply wp_lift. destruct (read_last_logits l) as [e|row]; [by rewrite Hsame; apply HQ|].
    simpl. wp_step. rewrite (hs_output _ _ _ Hh), (hs_prompt _ _ _ Hh). unfold slice. simpl.
    rewrite decide_True by (rewrite length_app; lia). simpl. do 2 wp_step. apply wp_lift.
    apply HQ. by destruct (sample_with_history _ _ _ _).1.
  - apply wp_lift. rewrite Hsame. apply HQ. by destruct (greedy_token l).
Qed.

Lemma record_token_boundary s prompt gen t : selecting s prompt gen →
  outside (vocab_size (ss_limits s)) t = false →
  wp (record_token t)
    (safely (λ o s', o = Some (mk_step t (S (length gen)) (ss_finish_reason s')) ∧
                   boundary s' prompt (gen ++ [t])) (λ _ _, True)) s.
Proof.
  intros [Hh Hf Hfin Hrun Hlen Hproc Hpend] Hout. destruct Hh as [He Ho Hp Hv Hps Hm].
  destruct (replayed_state _ _ _ _ Hps Hm) as [Hpat Hms].
  destruct (push_spec (ss_matcher s) t gen Hms) as (m' & Hpush & Hpat' & Hms').
  assert (s = put_sampler (ss_sampler s) s) as Hsame by (by destruct s).
  pose proof (record_token_ok s (ss_sampler s) t _ m' Hpush) as Heq. cbv zeta in Heq.
  rewrite <- Hsame in Heq. unfold wp. rewrite Heq. clear Heq. unfold generated_tokens.
  pose proof (stop_of_snoc (ss_eos s) (ss_matcher s).(patterns) (limit_of s) gen t) as Hstop.
  rewrite Nat.add_1_r in Hstop.
  assert (generated_token_ids (ss_output s) = gen) as -> by (by rewrite Ho). rewrite <- Hstop, Hpat. clear Hstop.
  assert (replayed (patterns_of s) (gen ++ [t]) m') as Hrep.
  { destruct Hm as (m0 & Hn & Hpu). exists m0. split; [done|]. by eapply push_tokens_snoc. }
  assert (ss_processed_tokens s = consumed_inputs (ss_prompt_length s) (length (gen ++ [t]))) as Hcons.
  { rewrite Hproc, Hp, length_app. unfold consumed_inputs. simpl. rewrite decide_False by lia. lia. }
  destruct (stop_of (ss_eos s) (patterns_of s) (limit_of s) (gen ++ [t])) as [r|] eqn:Es;
    (split; [simpl; by rewrite ?Hfin|split]); try done; try (split; simpl; try done; by rewrite Ho, push_token_output); unfold at_boundary; simpl;
    rewrite ?Hfin.
  - split_and!; [right; by eapply ended_snoc|done|done|by left|lia].
  - split_and!; [by apply running_snoc| |done|by rewrite last_snoc|].
    + rewrite stop_of_snoc in Es. unfold natural_stop in Es.
      destruct (decide (t ∈ ss_eos s)); [discriminate|].
      destruct (first_suffix (gen ++ [t]) (patterns_of s)); [discriminate|].
      destruct (decide (length gen + 1 = limit_of s)); [discriminate|]. rewrite length_app. simpl. lia.
    + split; [by intros []|intros ?%(f_equal length); rewrite length_app in *; simpl in *; lia].
Qed.

Lemma select_next_boundary processor s prompt gen : selecting s prompt gen →
  wp (select_next processor)
    (safely (λ o s', ∃ t, o = Some (mk_step t (S (length gen)) (ss_finish_reason s')) ∧
                        boundary s' prompt (gen ++ [t])) (λ _ _, True)) s.
Proof.
  intros Hs. pose proof (sl_history _ _ _ Hs) as Hh. unfold select_next. do 3 wp_step.
  unfold mok_or. destruct (ss_logits s) as [l|]; [|by apply wp_throw]. wp_step. wp_step.
  eapply (wp_mono _ (λ r s', s' = s ∧ ∀ p, r ≠ Panic p)).
  { destruct processor as [f|]; [|by wp_step]. apply wp_lift. by destruct (f l). }
  intros [l'|e|p] s1 [-> Hnp]; [|done|by destruct (Hnp p)]. wp_step. apply check_logits_wp; [|done].
  wp_step. eapply select_token_wp; [done|]. intros [t|e|p] smp Hx; [|done|by destruct (Hx p)].
  destruct (outside (vocab_size (ss_limits s)) t) eqn:Eo; [by apply wp_throw|].
  eapply wp_mono; [apply (record_token_boundary _ prompt gen); [|done]|].
  - destruct Hs as [[]]. by split.
  - intros [o|e|p] s' Hq; [by exists t|done|done].
Qed.

Lemma boundary_clock s prompt gen n : boundary s prompt gen → boundary (put_clock n s) prompt gen.
Proof. intros [[] Hb Hf]. by split. Qed.

Lemma step_inner_boundary processor s prompt gen : boundary s prompt gen →
  wp (step_inner processor)
    (safely (λ o s', match o with
       | Some st => st = mk_step (step_token_id st) (S (length gen)) (ss_finish_reason s') ∧
                    boundary s' prompt (gen ++ [step_token_id st])
       | None => is_Some (ss_finish_reason s') ∧ boundary s' prompt gen
       end) (λ _ _, True)) s.
Proof.
  intros Hb. unfold step_inner. do 2 wp_step. case_decide as Hfin; [by apply wp_ret|].
  assert (ss_finish_reason s = None) as Hnone by (destruct (ss_finish_reason s); [by destruct Hfin; eexists|done]).
  wp_step. unfold wp at 1, session_observe. simpl. pose proof (boundary_clock _ _ _ (S (ss_clock s)) Hb) as Hb1.
  destruct (is_cancelled _ _).
  - unfold finish. do 2 wp_step. apply wp_ret. split; [by eexists|]. by apply finish_boundary.
  - wp_step. eapply wp_mono; [by apply (advance_input_wp _ prompt gen)|].
    intros [[]|e|p] s1 Hs1; [|done|done]. eapply wp_mono; [by apply (select_next_boundary processor _ prompt gen)|].
    intros [o|e|p] s2 Hs2; [|done|done]. destruct Hs2 as (t & -> & Hs2). done.
Qed.

(** The prompt's prefill: afresh, or from a validated prefix. *)
Lemma prefill_wp prompt prefix s (Q : Gen unit → CausalGenerationSession → Prop) :
  match prefix with Some p => pf_tokens p `prefix_of` prompt | None => True end →
  (∀ e s', Q (Err e) s') →
  (∀ l c, Q (Ok tt) (put_processed_tokens (length prompt) (put_logits (Some l) (put_cache c s)))) →
  wp (prefill prompt prefix) Q s.
Proof.
  intros Hp HE HO. unfold prefill. wp_step.
  eapply (wp_mono _ (λ r s', ∃ start l c, r = Ok start ∧ start ≤ length prompt ∧
    s' = put_logits l (put_cache c s))).
  { destruct prefix as [p|].
    - do 2 wp_step. wp_step. exists (length (pf_tokens p)), (Some (pf_logits p)), (pf_cache p).
      split_and!; [done|by apply prefix_length|done].
    - wp_step. exists 0, (ss_logits s), (ss_cache s). split_and!; [done|lia|by destruct s]. }
  intros r s1 (start & l & c & -> & Hstart & ->). wp_step.
  eapply (wp_mono _ (λ r s', (∀ p, r ≠ Panic p) ∧ ∃ l c, s' = put_logits l (put_cache c s))).
  { case_decide.
    - do 2 wp_step. do 2 wp_step. unfold mok_or. simpl.
      destruct l; [apply wp_ret|apply wp_throw]; by (split; [done|by exists None, c]).
    - wp_step. unfold slice. rewrite decide_True by lia. simpl. wp_step. apply session_forward_wp.
      intros x c' Hx. split; [done|]. by exists l, c'. }
  intros [l1|e|p] s1 [Hnp (l2 & c2 & ->)]; [|by apply HE|by destruct (Hnp p)].
  wp_step. apply check_logits_wp; [|by intros; apply HE]. wp_step. apply HO.
Qed.

(** ** Restored sessions *)
Lemma stop_of_cons eos ps max_new gen t :
  natural_stop eos (first_suffix (gen ++ [t]) ps) (length gen + 1) max_new t =
  stop_of eos ps max_new (gen ++ [t]).
Proof. by rewrite stop_of_snoc. Qed.

(** [replay] accepts exactly the suffixes of vocabulary tokens that nothing but
    their last token may have stopped. *)
Lemma replay_spec vocab max_new eos ps rest gen m :
  patterns m = ps → matcher_state gen m →
  let good := (∀ t, t ∈ rest → outside vocab t = false) ∧
    ∀ n, length gen ≤ n < length (gen ++ rest) → stop_of eos ps max_new (take n (gen ++ rest)) = None in
  match replay vocab max_new eos rest (length gen) m (stop_of eos ps max_new gen) with
  | Ok (m', natural) => push_tokens m rest = Ok m' ∧ natural = stop_of eos ps max_new (gen ++ rest) ∧ good
  | Err _ => ¬ good
  | Panic _ => False
  end.
Proof.
  intros Hp Hm. cbv zeta. revert gen m Hp Hm. induction rest as [|t rest IH]; intros gen m Hp Hm; simpl.
  { rewrite app_nil_r. split_and!; [done|done|by intros ? ?%elem_of_nil|lia]. }
  case_decide as Hbad.
  - intros [Hv Hg]. destruct Hbad as [[r Hr]|Ho].
    + specialize (Hg (length gen)). rewrite take_app_length in Hg.
      rewrite Hg in Hr; [done|]. rewrite length_app. simpl. lia.
    + rewrite Hv in Ho; [done|by left].
  - destruct (push_spec m t gen Hm) as (m' & Hpush & Hp' & Hm'). rewrite Hpush. simpl.
    rewrite Hp, stop_of_cons. specialize (IH (gen ++ [t]) m' ltac:(congruence) Hm').
    rewrite length_app in IH. simpl in IH. rewrite <- app_assoc in IH. simpl in IH.
    assert (stop_of eos ps max_new gen = None) as Hnone
      by (destruct (stop_of eos ps max_new gen); [by destruct Hbad; left|done]).
    assert (∀ n, n = length gen → stop_of eos ps max_new (take n (gen ++ t :: rest)) = None) as Hfirst.
    { intros n ->. by rewrite take_app_length. }
    destruct (replay _ _ _ _ _ _ _) as [[m1 nat1]|e|p]; [|intros [Hv Hg]; apply IH|done].
    + destruct IH as (Hpt & -> & Hv & Hg). split_and!; [done|done| |].
      * intros t' [->|?]%elem_of_cons; [|by apply Hv]. apply not_true_iff_false. tauto.
      * intros n [Hn1 Hn2]. destruct (decide (n = length gen)); [by apply Hfirst|]. apply Hg. lia.
    + split; [intros t' ?; apply Hv; by right|]. intros n Hn. apply Hg. lia.
Qed.

(** The record's prompt and what the session's control must be. *)
Definition record_prompt (state : GenerationSessionState) : list Z :=
  take (gs_prompt_length state) (token_ids (gs_output state)).

Lemma reason_valid_spec limits eos ps max_new gen reason :
  length gen ≤ max_new → (∀ t, t ∈ gen → outside (vocab_size limits) t = false) →
  (∀ n, n < length gen → stop_of eos ps max_new (take n gen) = None) →
  reason_valid reason (stop_of eos ps max_new gen) (length gen) max_new = true ↔
  match reason with
  | None => running limits eos ps max_new gen ∧ length gen < max_new
  | Some r => max_new = 0 ∧ gen = [] ∧ r = MaxNewTokens ∨ ended limits eos ps max_new gen r
  end.
Proof.
  intros Hl Hv Hg. destruct (decide (gen = [])) as [->|Hne].
  - change (stop_of eos ps max_new []) with (@None GenerationFinishReason). simpl.
    destruct reason as [[|t|i|]|]; simpl; rewrite ?andb_true_iff, ?bool_decide_eq_true.
    + split; [by left|]. intros [(? & _)|[_ _ _ [?|[_ ?]]]]; done.
    + split; [done|intros [(_ & _ & ?)|[_ _ _ [?|[_ ?]]]]; done].
    + split; [done|intros [(_ & _ & ?)|[_ _ _ [?|[_ ?]]]]; done].
    + split; [|done]. intros _. right. split; [simpl; lia|done|done|by right].
    + split; [|intros [_ ?]; lia]. intros ?. split; [|lia].
      split; [done|]. intros n Hn. simpl in Hn. by replace n with 0 by lia.
  - assert (0 < length gen) as Hpos by (destruct gen; [done|simpl; lia]).
    assert (∀ r, stop_of eos ps max_new gen = Some r ↔
      bool_decide (Some r = stop_of eos ps max_new gen) && bool_decide (0 < length gen ∨ 0 < max_new) = true)
      as Hsome.
    { intros r. rewrite andb_true_iff, !bool_decide_eq_true. split; [intros ->; split; [done|lia]|by intros [-> _]]. }
    assert (∀ r, r ≠ Cancelled → stop_of eos ps max_new gen = Some r ↔
      max_new = 0 ∧ gen = [] ∧ r = MaxNewTokens ∨ ended limits eos ps max_new gen r) as Hend.
    { intros r Hr. split; [intros Hs; right; split; [done|done|done|by left]|].
      intros [(_ & ? & _)|[_ _ _ [?|[_ ?]]]]; done. }
    unfold reason_valid. rewrite decide_False by lia.
    destruct reason as [[|t|i|]|]; rewrite <- ?Hsome; [by apply Hend..| |].
    + rewrite bool_decide_eq_true. split; [intros Hs; right; split; [done|done|done|by right]|].
      intros [(_ & _ & ?)|[_ _ _ [Hs|[? _]]]]; [done| |done].
      unfold stop_of in Hs. destruct (last gen); [|done]. unfold natural_stop in Hs.
      destruct (decide _); [done|]. destruct (first_suffix _ _); [done|]. by destruct (decide _).
    + rewrite andb_true_iff, !bool_decide_eq_true. split.
      * intros [Hs _]. symmetry in Hs. split.
        -- split; [done|]. intros n Hn. destruct (decide (n = length gen)) as [->|]; [by rewrite take_ge|].
           apply Hg. lia.
        -- unfold stop_of in Hs. destruct (last gen) eqn:El; [|by apply last_None in El].
           unfold natural_stop in Hs.
           destruct (decide _); [done|]. destruct (first_suffix _ _); [done|]. destruct (decide _); [done|lia].
      * intros [[_ Hr] _]. split; [|lia]. symmetry. specialize (Hr (length gen) ltac:(lia)).
        by rewrite take_ge in Hr.
Qed.

Lemma neither (P Q : Prop) : ¬ (P ∨ Q) → ¬ P ∧ ¬ Q.
Proof. tauto. Qed.

Lemma guard_none {A} (P : Prop) `{Decision P} (a : A) : (if decide P then Some a else None) = None ↔ ¬ P.
Proof. case_decide; naive_solver. Qed.

Lemma boundary_error_spec state has_logits :
  let gen := generated_token_ids (gs_output state) in
  let consumed := consumed_inputs (gs_prompt_length state) (length gen) in
  boundary_error state has_logits = None ↔
  match gs_finish_reason state with
  | None => gs_processed_tokens state = consumed ∧ gs_pending_input state = last gen ∧
            (has_logits = true ↔ gen = [])
  | Some _ => gs_pending_input state = None ∧ has_logits = false ∧
              (gs_processed_tokens state = consumed ∨ gen = [] ∧ gs_processed_tokens state = 0)
  end.
Proof.
  cbv zeta. unfold boundary_error. set (gen := generated_token_ids _). set (consumed := consumed_inputs _ _).
  assert (length gen = 0 ↔ gen = []) as Hgen by (destruct gen; simpl; [done|split; [lia|done]]).
  assert (∀ x : option Z, is_Some x ↔ ¬ x = None) as Hsome by (intros []; [|split; [intros []|]]; done).
  assert (has_logits = true ↔ ¬ has_logits = false) as Hlog by (by destruct has_logits).
  destruct (gs_finish_reason state); [|case_decide as Hz]; rewrite guard_none, ?Hsome, ?Hgen in *.
  - split; [intros Hn; split_and!; apply dec_stable; tauto|tauto].
  - rewrite Hz. split; [intros Hn; split_and!; [apply dec_stable; tauto..|tauto]|tauto].
  - split; [intros Hn; split_and!; [apply dec_stable; tauto..|tauto]|tauto].
Qed.

Lemma ended_eos_bool limits eos ps max_new gen r : ended limits eos ps max_new gen r →
  existsb (λ t, bool_decide (t ∈ eos)) gen = stopped_by_eos (Some r).
Proof.
  intros He. apply eq_true_iff_eq. rewrite (ended_eos _ _ _ _ _ _ He). by destruct r; naive_solver.
Qed.

(** A session with the fields of a state that [restore] accepts. *)
Lemma restored_boundary limits state control m cache logits sampler :
  let prompt := record_prompt state in
  let gen := generated_token_ids (gs_output state) in
  let eos := list_to_set (eos_token_ids (gs_generation state)) in
  let ps := stop_token_sequences control in
  let max_new := max_new_tokens (gs_generation state) in
  token_ids (gs_output state) = prompt ++ gen → length prompt = gs_prompt_length state →
  length gen ≤ max_new → valid_generation limits prompt (gs_generation state) →
  valid_patterns (vocab_size limits) ps → replayed ps gen m →
  (∀ t, t ∈ gen → outside (vocab_size limits) t = false) →
  (∀ n, n < length gen → stop_of eos ps max_new (take n gen) = None) →
  reason_valid (gs_finish_reason state) (stop_of eos ps max_new gen) (length gen) max_new = true →
  stopped_on_eos (gs_output state) = stopped_by_eos (gs_finish_reason state) →
  boundary_error state (bool_decide (is_Some logits)) = None →
  ¬ (length gen = 0 ∧ max_new = 0 ∧ gs_processed_tokens state ≠ 0) →
  boundary (mk_session limits (gs_generation state) control m eos cache logits
      (gs_pending_input state) sampler (gs_prompt_length state) (gs_processed_tokens state)
      (gs_output state) (gs_finish_reason state) None 0) prompt gen.
Proof.
  cbv zeta. set (prompt := record_prompt state). set (gen := generated_token_ids _).
  set (eos := list_to_set _). set (ps := stop_token_sequences control). set (max_new := max_new_tokens _).
  intros Htok Hpl Hl Hv Hps Hm Hvoc Hg Hr He Hb Hz.
  apply (reason_valid_spec limits eos ps max_new gen) in Hr; [|done..].
  apply boundary_error_spec in Hb. fold gen in Hb.
  assert (existsb (λ t, bool_decide (t ∈ eos)) gen = stopped_by_eos (gs_finish_reason state)) as Heos.
  { destruct (gs_finish_reason state) as [r|] eqn:Er.
    - destruct Hr as [(_ & -> & ->)|Hr]; [done|by eapply ended_eos_bool].
    - destruct Hr as [Hrun Hlt]. by apply (ended_eos_bool limits eos ps max_new gen Cancelled),
        running_ended; [lia|]. }
  split; [split; simpl; try done| |done].
  - unfold output_of. rewrite Heos, <- He, <- Htok. by destruct (gs_output state).
  - unfold at_boundary. simpl. fold max_new ps.
    destruct (gs_finish_reason state) as [r|].
    + destruct Hb as (Hp & Hlog & Hproc). split_and!; [done|done|by destruct logits|by destruct Hproc; auto|].
      intros Hmz. assert (length gen = 0) by lia. lia.
    + destruct Hb as (Hproc & Hp & Hlog). destruct Hr as [Hrun Hlt]. split_and!; [done|done|done|done|].
      rewrite <- Hlog, bool_decide_eq_true. done.
Qed.

(** [restore] never panics, and a session it gives back is at a token
    boundary of the record's own history: the tokens are in the vocabulary, none
    but the last could have stopped the request, the finish reason is the one the
    generation loop would have given, and the pending input, logits and input
    count are those of that boundary. *)
Theorem restore_gives_boundary r limits model_id control :
  (N.of_nat (max_model_length limits) ≤ usize_max)%N →
  match restore r limits model_id control with
  | Ok s => boundary s (record_prompt (rec_state r)) (generated_token_ids (gs_output (rec_state r))) ∧
      ss_limits s = limits ∧ ss_control s = control ∧ ss_output s = gs_output (rec_state r) ∧
      ss_generation s = gs_generation (rec_state r) ∧
      ss_processed_tokens s = gs_processed_tokens (rec_state r) ∧
      ss_finish_reason s = gs_finish_reason (rec_state r)
  | Err _ => True
  | Panic _ => False
  end.
Proof.
  intros Hmax. unfold restore. set (state := rec_state r). cbv zeta.
  case_decide; [done|]. case_decide as Hhist; [done|].
  fold (record_prompt state).
  pose proof (validate_generation_spec limits (record_prompt state) (gs_generation state) Hmax) as Hv.
  destruct (validate_generation _ _ _) as [eos|e|p]; [|done|done]. destruct Hv as [Hv ->]. simpl.
  unfold validate_control.
  pose proof (validate_patterns_spec (vocab_size limits) 0 (stop_token_sequences control)) as Hps.
  destruct (validate_patterns _ _ _) as [[]|e|p]; [|done|done]. simpl. case_decide; [done|].
  destruct (new_matcher_spec (stop_token_sequences control)) as (m & Hm & Hpm & Hms);
    [by eapply patterns_nonempty|]. rewrite Hm. simpl.
  pose proof (replay_spec (vocab_size limits) (max_new_tokens (gs_generation state))
    (list_to_set (eos_token_ids (gs_generation state))) (stop_token_sequences control)
    (generated_token_ids (gs_output state)) [] m Hpm Hms) as Hr.
  cbn [length app] in Hr. change (stop_of _ _ _ []) with (@None GenerationFinishReason) in Hr.
  destruct (replay _ _ _ _ _ _ _) as [[m1 natural]|e|p]; [|done|done]. destruct Hr as (Hpush & -> & Hvoc & Hg).
  cbn [res_bind fst snd]. destruct (_ || _) eqn:Hor; [done|].
  apply orb_false_elim in Hor as [Hreason%negb_false_iff Heos%negb_false_iff].
  rewrite bool_decide_eq_true in Heos.
  destruct (boundary_error _ _) eqn:Hb; [done|]. case_decide as Hz; [done|].
  destruct (match rec_logits r with Some _ => _ | None => _ end) as [[]|e|p] eqn:Hl; simpl; [|done|].
  2:{ destruct (rec_logits r) as [data|]; [|done]. unfold check_logits_data in Hl.
      destruct (td_shape data) as [|? [|? [|? [|]]]]; try done. case_decide; [done|].
      unfold ok_or in Hl. destruct (checked_product _ _ ≫= _); [|done]. simpl in Hl. by case_decide. }
  destruct (match gs_sampler state with Some _ => _ | None => _ end) as [sampler|e|p] eqn:Hs; simpl; [|done|].
  2:{ destruct (gs_sampler state) as [x|]; [|done]. by destruct (from_state x). }
  case_decide; [done|]. destruct (restore_generation _ _ _ _) as [e|cache]; simpl; [done|].
  split_and!; try done. apply neither in Hhist as [Hp0 [Hlen [Hcount Hdrop]%neither]%neither].
  apply dec_stable in Hlen, Hdrop. apply usize_add_Some in Hlen as [Hlen _].
  apply restored_boundary; try done; try lia.
  - rewrite <- Hdrop. unfold record_prompt. by rewrite take_drop.
  - unfold record_prompt. rewrite length_take. lia.
  - by exists m.
  - intros n Hn. apply Hg. lia.
  - rewrite <- Hb. f_equal. by destruct (rec_logits r).
Qed.

(** What an opened session is: nothing was forwarded for a request that is over
    at once. *)
Definition opened_as (s : CausalGenerationSession) limits generation sampler control : Prop :=
  ss_limits s = limits ∧ ss_generation s = generation ∧ ss_sampler s = sampler ∧ ss_control s = control ∧
  match ss_finish_reason s with
  | Some r => ss_cache s = new_cache ∧ ss_processed_tokens s = 0 ∧
      (r = Cancelled ∧ is_cancelled control 0 = true ∨
       r = MaxNewTokens ∧ is_cancelled control 0 = false ∧ max_new_tokens generation = 0)
  | None => is_Some (ss_logits s) ∧ ss_processed_tokens s = ss_prompt_length s ∧
      is_cancelled control 0 = false ∧ 0 < max_new_tokens generation
  end.

Lemma open_boundary limits prompt generation sampler control prefix :
  (N.of_nat (max_model_length limits) ≤ usize_max)%N →
  match prefix with Some p => pf_tokens p `prefix_of` prompt | None => True end →
  match new_with_prefix limits prompt generation sampler control prefix with
  | Ok s => boundary s prompt [] ∧ opened_as s limits generation sampler control
  | Err _ => True
  | Panic _ => False
  end.
Proof.
  intros Hmax Hp. unfold new_with_prefix.
  pose proof (validate_generation_spec limits prompt generation Hmax) as Hv.
  destruct (validate_generation limits prompt generation) as [eos|e|p]; [|done|done].
  destruct Hv as [Hv ->]. set (eos := list_to_set _). simpl. unfold validate_control.
  pose proof (validate_patterns_spec (vocab_size limits) 0 (stop_token_sequences control)) as Hps.
  destruct (validate_patterns _ _ _) as [[]|e|p]; [|done|done]. simpl.
  destruct (new_matcher_spec (stop_token_sequences control)) as (m & Hm & _);
    [by eapply patterns_nonempty|]. rewrite Hm. simpl.
  assert (∀ s, ss_eos s = eos → ss_limits s = limits → ss_control s = control → ss_generation s = generation →
    ss_output s = mk_output prompt [] false → ss_prompt_length s = length prompt → ss_matcher s = m →
    history s prompt []) as Hh.
  { intros s He Hl Hc Hg Ho Hpl Hmm. split; rewrite ?He, ?Hg, ?Hl, ?Hc; try done.
    - rewrite Ho. unfold output_of. by rewrite app_nil_r.
    - rewrite Hmm. by exists m. }
  assert (∀ r, running limits eos (stop_token_sequences control) r []) as Hrun.
  { intros r. split; [by intros ? ?%elem_of_nil|]. intros n Hn. simpl in Hn. by replace n with 0 by lia. }
  set (reason := if is_cancelled control 0 then Some Cancelled else _).
  destruct reason as [r|] eqn:Er; unfold reason in Er.
  - assert (r = Cancelled ∧ is_cancelled control 0 = true ∨
       r = MaxNewTokens ∧ is_cancelled control 0 = false ∧ max_new_tokens generation = 0) as Hr.
    { destruct (is_cancelled control 0); [injection Er as <-; auto|]. case_decide; [|done].
      injection Er as <-. auto. }
    split; [|done]. split; [by apply Hh| |done]. unfold at_boundary. simpl.
    split_and!; [|done|done|by right|done].
    destruct Hr as [[-> _]|(-> & _ & ?)]; [right; apply running_ended; [simpl; lia|done]|by left].
  - assert (is_cancelled control 0 = false ∧ 0 < max_new_tokens generation) as [Hnc Hpos].
    { destruct (is_cancelled control 0); [done|]. case_decide; [done|]. split; [done|lia]. }
    pose proof (prefill_wp prompt prefix (blank limits prompt generation sampler control eos m None)
      (λ r s, match r with
       | Ok _ => boundary s prompt [] ∧ opened_as s limits generation sampler control
       | Err _ => True
       | Panic _ => False
       end) Hp (λ _ _, I)) as Hw. unfold wp in Hw.
    destruct (prefill _ _ _) as [[[]|e|p] s]; simpl in *; [apply Hw|done|apply Hw]; intros l c;
      (split; [split; [by apply Hh| |done]|by split_and!; [..|split_and!; [eexists| | |]]]);
      unfold at_boundary; simpl; by split_and!; [| | | |split; [|eexists]].
Qed.

(** Opening a session, afresh or on a prefix of the prompt, never
    panics.  A session it opens is at the boundary before the first token: limits,
    prompt, EOS tokens and stop sequences are valid, and the whole prompt is
    counted as forwarded and its logits are pending, unless the request is already
    cancelled or asks for no token; then the cache is untouched. *)
Theorem opened_session_at_boundary limits prompt generation sampler control prefix :
  (N.of_nat (max_model_length limits) ≤ usize_max)%N →
  match prefix with Some p => pf_tokens p `prefix_of` prompt | None => True end →
  match new_with_prefix limits prompt generation sampler control prefix with
  | Ok s => boundary s prompt [] ∧ opened_as s limits generation sampler control
  | Err _ => True
  | Panic _ => False
  end.
Proof. apply open_boundary. Qed.

(** A step from a token boundary never panics.  It appends exactly one
    token and reports its count and the session's finish reason, at the boundary
    after that token; or it finds the request finished or cancelled and leaves the
    history alone; or it fails, and then the session keeps that fault and every
    later step repeats it. *)
Theorem session_step_exact processor s prompt gen : boundary s prompt gen →
  match step_with processor s with
  | (Ok (Some st), s') =>
      step_generated_tokens st = S (length gen) ∧ step_finish_reason st = ss_finish_reason s' ∧
      boundary s' prompt (gen ++ [step_token_id st])
  | (Ok None, s') => is_Some (ss_finish_reason s') ∧ boundary s' prompt gen
  | (Err e, s') => ss_fault s' = Some e ∧ ∀ processor', step_with processor' s' = (Err e, s')
  | (Panic _, _) => False
  end.
Proof.
  intros Hb. pose proof (step_inner_boundary processor s prompt gen Hb) as Hw. unfold wp in Hw.
  unfold step_with. erewrite bind_ok by done. rewrite (bd_fault _ _ _ Hb). unfold mcatch.
  destruct (step_inner processor s) as [[[st|]|e|p] s']; simpl in Hw; [..|done].
  - destruct Hw as [-> Hb']. done.
  - done.
  - erewrite bind_ok by done. split; [done|]. intros processor'. done.
Qed.

(** ** Saving and restoring *)

(** A session resumed under a new control, whose flag nobody has read yet. *)
Definition resumed (s : CausalGenerationSession) (control : GenerationControl) : CausalGenerationSession :=
  mk_session (ss_limits s) (ss_generation s) control (ss_matcher s) (ss_eos s) (ss_cache s) (ss_logits s)
    (ss_pending_input s) (ss_sampler s) (ss_prompt_length s) (ss_processed_tokens s) (ss_output s)
    (ss_finish_reason s) (ss_fault s) 0.

(** What the records of caches, samplers and logits promise: they give back what
    was saved. *)
Context (fresh_position : generation_position new_cache = 0).
Context (capture_restore : ∀ cache model_id r, capture_generation cache model_id = inr r →
  restore_generation r model_id new_cache (generation_position cache) = inr cache).
Context (sampler_state : ∀ sampler, from_state (to_state sampler) = inr sampler).
Context (logits_data : ∀ logits data, read_data logits = inr data → from_data data = logits).

(** What a record taken from [s] holds. *)
Record recorded_from (s : CausalGenerationSession) (model_id : string) (r : GenerationSessionRecord) : Prop := {
  rf_id : model_id ≠ EmptyString;
  rf_state : ∃ cache data, r = record_of s model_id cache data;
  rf_position : generation_position (ss_cache s) = ss_processed_tokens s;
  rf_cache : capture_generation (ss_cache s) model_id = inr (rec_cache r);
  rf_logits : match rec_logits r with
              | Some data => ∃ l, ss_logits s = Some l ∧ read_data l = inr data ∧
                  check_logits_data data (vocab_size (ss_limits s)) = Ok tt
              | None => ss_logits s = None
              end
}.

Lemma check_logits_data_safe data vocab : ∀ p, check_logits_data data vocab ≠ Panic p.
Proof.
  intros p. unfold check_logits_data. destruct (td_shape data) as [|? [|? [|? [|]]]]; try done.
  case_decide; [done|]. unfold ok_or. destruct (checked_product _ _ ≫= _); [|done]. simpl. by case_decide.
Qed.

Lemma record_wp s model_id : ss_fault s = None →
  wp (record model_id)
    (safely (λ r s', s' = s ∧ recorded_from s model_id r)
       (λ _ s', s' = s ∨ is_Some (ss_fault s'))) s.
Proof.
  intros Hf. unfold record. do 2 wp_step. case_decide as Hid; [apply wp_throw; by left|].
  apply neither in Hid as [Hid _]. case_decide as Hpos; [apply wp_throw; by left|].
  wp_step.
  eapply (wp_mono _ (safely (λ _ s', s' = s) (λ _ s', is_Some (ss_fault s')))).
  { case_decide; [|by apply wp_ret]. wp_step. apply wp_lift.
    destruct (device_sync _) as [e|[]]; simpl; [|done]. do 2 wp_step. apply wp_throw. by eexists. }
  intros [[]|e|p] s1 Hs1; [|by right|done]. simpl in Hs1. subst s1. wp_step.
  eapply (wp_mono _ (safely (λ data s', s' = s ∧ match data with
      | Some data => ∃ l, ss_logits s = Some l ∧ read_data l = inr data ∧
          check_logits_data data (vocab_size (ss_limits s)) = Ok tt
      | None => ss_logits s = None
      end) (λ _ s', s' = s))).
  { destruct (ss_logits s) as [l|]; [|by apply wp_ret]. wp_step. apply wp_lift.
    destruct (read_data l) as [e|data] eqn:Er; simpl; [done|]. wp_step. apply wp_lift.
    destruct (check_logits_data _ _) as [[]|e|p] eqn:Ec; [|done|by apply check_logits_data_safe in Ec].
    apply wp_ret. split; [done|]. by exists l. }
  intros [data|e|p] s1 Hs1; [|by left|done]. destruct Hs1 as [-> Hdata]. wp_step. apply wp_lift.
  destruct (capture_generation _ _) as [e|cache] eqn:Ec; simpl; [by left|]. apply wp_ret.
  split; [done|]. split; [done|by eexists _, _|done|done|done].
Qed.

(** The steps of [restore], each when its check passes. *)
Lemma boundary_state_valid s prompt gen cache data model_id :
  boundary s prompt gen → (is_Some data ↔ is_Some (ss_logits s)) →
  let state := rec_state (record_of s model_id cache data) in
  record_prompt state = prompt ∧ drop (gs_prompt_length state) (token_ids (gs_output state)) = gen ∧
  length gen ≤ limit_of s ∧
  (∀ t, t ∈ gen → outside (vocab_size (ss_limits s)) t = false) ∧
  (∀ n, n < length gen → stop_of (ss_eos s) (patterns_of s) (limit_of s) (take n gen) = None) ∧
  reason_valid (ss_finish_reason s) (stop_of (ss_eos s) (patterns_of s) (limit_of s) gen) (length gen)
    (limit_of s) = true ∧
  stopped_on_eos (ss_output s) = stopped_by_eos (ss_finish_reason s) ∧
  boundary_error state (bool_decide (is_Some data)) = None ∧
  ¬ (length gen = 0 ∧ limit_of s = 0 ∧ ss_processed_tokens s ≠ 0).
Proof.
  intros [[He Ho Hp Hv Hps Hm] Hb Hf] Hdata. cbv zeta. unfold at_boundary in Hb.
  set (state := rec_state _).
  assert (length gen ≤ limit_of s ∧
    (∀ t, t ∈ gen → outside (vocab_size (ss_limits s)) t = false) ∧
    (∀ n, n < length gen → stop_of (ss_eos s) (patterns_of s) (limit_of s) (take n gen) = None)) as (Hl & Hvoc & Hg).
  { destruct (ss_finish_reason s) as [r|].
    - destruct Hb as ([(_ & -> & _)|[]] & _); [|done]. split; [simpl; lia|].
      split; [by intros ? ?%elem_of_nil|simpl; lia].
    - destruct Hb as ([Hvoc Hg] & Hlt & _). split; [lia|]. split; [done|]. intros n Hn. apply Hg. lia. }
  split_and!; try done; unfold record_prompt; simpl; rewrite ?Ho, ?Hp; simpl.
  - by rewrite take_app_length.
  - by rewrite drop_app_length.
  - apply (reason_valid_spec (ss_limits s)); [done..|]. destruct (ss_finish_reason s); tauto.
  - destruct (ss_finish_reason s) as [r|].
    + destruct Hb as ([(_ & -> & ->)|Hb] & _); [done|by eapply ended_eos_bool].
    + destruct Hb as (Hrun & Hlt & _). by apply (ended_eos_bool (ss_limits s) _ (patterns_of s) (limit_of s) gen Cancelled),
        running_ended; [lia|].
  - apply boundary_error_spec. simpl. rewrite Ho. simpl. destruct (ss_finish_reason s).
    + destruct Hb as (_ & Hpe & Hlo & Hpr & _). split_and!; [done| |done].
      apply bool_decide_eq_false. rewrite Hdata, Hlo. by intros [].
    + rewrite bool_decide_eq_true, Hdata. tauto.
  - destruct (ss_finish_reason s); [|lia]. intros (_ & Hz & Hn). destruct Hb as (_ & _ & _ & _ & Hb). lia.
Qed.

(** A record taken at a boundary passes every check on its history. *)
Lemma restore_checks_pass s prompt gen model_id control cache data :
  boundary s prompt gen → (N.of_nat (max_model_length (ss_limits s)) ≤ usize_max)%N →
  stop_token_sequences control = patterns_of s → model_id ≠ EmptyString →
  (is_Some data ↔ is_Some (ss_logits s)) →
  match data with Some d => check_logits_data d (vocab_size (ss_limits s)) = Ok tt | None => True end →
  restore (record_of s model_id cache data) (ss_limits s) model_id control =
  do? sampler := match to_state <$> ss_sampler s with
                 | Some st => res_bind (lift (from_state st)) (λ x, Ok (Some x))
                 | None => Ok None
                 end in
  if decide (generation_position new_cache ≠ 0) then
    Err "fresh generation cache must start at input position zero"
  else
  do? cache := lift (restore_generation cache model_id new_cache (ss_processed_tokens s)) in
  Ok (mk_session (ss_limits s) (ss_generation s) control (ss_matcher s) (ss_eos s) cache
        (from_data <$> data) (ss_pending_input s) sampler (ss_prompt_length s)
        (ss_processed_tokens s) (ss_output s) (ss_finish_reason s) None 0).
Proof.
  intros Hb Hmax Hctl Hid Hsome Hdata.
  pose proof (boundary_state_valid s prompt gen cache data model_id Hb Hsome) as Hst. cbv zeta in Hst.
  destruct Hst as (Hprompt & Hdrop & Hlen & Hvoc & Hg & Hreason & Heos & Herr & Hz).
  destruct Hb as [[He Ho Hp Hv Hps Hm] _ _].
  unfold restore. set (state := rec_state _) in *. cbv zeta.
  rewrite decide_False by (simpl; naive_solver).
  change (gs_output state) with (ss_output s) in *. change (gs_generation state) with (ss_generation s).
  assert (generated_token_ids (ss_output s) = gen) as -> by (by rewrite Ho).
  rewrite decide_False.
  2:{ destruct Hv as (_ & _ & Hne & Hl & _). rewrite Hdrop, Ho. simpl. rewrite length_app, Hp.
      unfold usize_add. rewrite decide_True by lia.
      assert (length prompt ≠ 0) by (by destruct prompt). naive_solver lia. }
  change (take _ (token_ids (ss_output s))) with (record_prompt state). rewrite Hprompt.
  pose proof (validate_generation_spec (ss_limits s) prompt (ss_generation s) Hmax) as Hvg.
  destruct (validate_generation _ _ _) as [eos|e|p]; [|done|done]. destruct Hvg as [_ ->].
  rewrite <- He. cbn [res_bind]. unfold validate_control. rewrite Hctl.
  pose proof (validate_patterns_spec (vocab_size (ss_limits s)) 0 (patterns_of s)) as Hvp.
  destruct (validate_patterns _ _ _) as [[]|e|p]; [|done|done]. cbn [res_bind].
  rewrite decide_False by (by intros []). destruct Hm as (m0 & Hnew & Hpush). rewrite Hnew. cbn [res_bind].
  destruct (new_matcher_spec (patterns_of s) (patterns_nonempty _ _ Hps)) as (m1 & Hm1 & Hpm & Hms).
  rewrite Hnew in Hm1. injection Hm1 as <-.
  pose proof (replay_spec (vocab_size (ss_limits s)) (limit_of s) (ss_eos s) (patterns_of s) gen [] m0 Hpm Hms)
    as Hrep. cbn [length app] in Hrep. change (stop_of _ _ _ []) with (@None GenerationFinishReason) in Hrep.
  destruct (replay _ _ _ _ _ _ _) as [[m2 natural]|e|p]; [| |done].
  2:{ destruct Hrep. split; [done|]. intros n Hn. apply Hg. lia. }
  destruct Hrep as (Hpush2 & -> & _). rewrite Hpush in Hpush2. injection Hpush2 as <-. cbn [res_bind fst snd].
  change (gs_finish_reason state) with (ss_finish_reason s).
  rewrite Hreason, bool_decide_true by done. cbn [negb orb].
  change (rec_logits _) with data. rewrite Herr, decide_False by done.
  assert (match data with Some data => check_logits_data data (vocab_size (ss_limits s)) | None => Ok tt end = Ok tt)
    as -> by (by destruct data). done.
Qed.

(** Claim C20.  Saving and restoring loses nothing: from a token boundary, a record
    that succeeds leaves the session as it was, and restoring it under a control
    with the same stop sequences gives the same session, ready to go on from the
    same cache, pending input, logits, sampler and matcher state. *)
Theorem record_restore_roundtrip s prompt gen model_id control :
  boundary s prompt gen → (N.of_nat (max_model_length (ss_limits s)) ≤ usize_max)%N →
  stop_token_sequences control = patterns_of s →
  match record model_id s with
  | (Ok r, s') => s' = s ∧ restore r (ss_limits s) model_id control = Ok (resumed s control)
  | (Err _, s') => s' = s ∨ is_Some (ss_fault s')
  | (Panic _, _) => False
  end.
Proof.
  intros Hb Hmax Hctl. pose proof (record_wp s model_id (bd_fault _ _ _ Hb)) as Hw. unfold wp in Hw.
  destruct (record model_id s) as [[r|e|p] s']; [|done|done]. cbn in Hw. destruct Hw as [-> Hr].
  split; [done|]. destruct Hr as [Hid (cache & data & ->) Hpos Hcap Hlog]. cbn in Hcap, Hlog.
  rewrite (restore_checks_pass s prompt gen); try done.
  2:{ destruct data; [destruct Hlog as (l & -> & _)|rewrite Hlog]; split; try done; by eexists. }
  2:{ destruct data; [by destruct Hlog as (? & _ & _ & ?)|done]. }
  assert (from_data <$> data = ss_logits s) as ->.
  { destruct data; [|done]. destruct Hlog as (l & -> & Hl & _). simpl. by rewrite (logits_data l). }
  assert (match to_state <$> ss_sampler s with
    | Some st => res_bind (lift (from_state st)) (λ x, Ok (Some x)) | None => Ok None end
    = @Ok GenerationError _ (ss_sampler s)) as ->.
  { destruct (ss_sampler s); [|done]. simpl. by rewrite sampler_state. }
  cbn [res_bind]. rewrite decide_False by (rewrite fresh_position; lia).
  rewrite <- Hpos, (capture_restore (ss_cache s)) by done. cbn [lift res_bind]. rewrite Hpos.
  unfold resumed. by rewrite (bd_fault _ _ _ Hb).
Qed.
End Record.

(** ** Reusing a prefilled prompt

    [prefilled_prompt] of src/src/generation/session.rs captures a finished
    prefill, and [new_greedy_prefilled] and [new_sampled_prefilled] open a session
    on top of it.  A session opened on a captured prefix is the session that
    forwards the whole prompt itself. *)

Definition new_sampled_prefilled `{TokenSampling} limits prompt generation sampler control model_id
    (prefix : PrefilledPrompt) : Gen CausalGenerationSession :=
  do? _ := validate_prefilled prefix model_id limits prompt in
  new_with_prefix limits prompt generation (Some sampler) control (Some prefix).

Section Prefix.
Context `{GenerationCacheContinuation}.

(** Forwarding tokens in two parts is forwarding them at once. *)
Definition forward_appends : Prop := ∀ first second cache logits cache',
  second ≠ [] → try_forward_cached_last first cache = (inr logits, cache') →
  try_forward_cached_last (first ++ second) cache = try_forward_cached_last second cache'.

(** What a captured prefix holds. *)
Definition prefix_of_model (p : PrefilledPrompt) : Prop :=
  pf_tokens p ≠ [] ∧ try_forward_cached_last (pf_tokens p) new_cache = (inr (pf_logits p), pf_cache p).

Lemma prefill_prefix prompt p s : forward_appends → prefix_of_model p →
  pf_tokens p `prefix_of` prompt → ss_cache s = new_cache →
  match prefill prompt (Some p) s, prefill prompt None s with
  | (Ok _, s1), (Ok _, s2) => s1 = s2
  | (Err e1, _), (Err e2, _) => e1 = e2
  | _, _ => False
  end.
Proof.
  intros Happ [Hne Hfw] [rest ->] Hc. 
  assert (pf_tokens p ++ rest ≠ []) as Hne' by (by destruct (pf_tokens p)).
  rewrite prefill_fresh by done. unfold prefill.
  rewrite (bind_ok _ _ s (length (pf_tokens p))
    (put_logits (Some (pf_logits p)) (put_cache (pf_cache p) s))) by done.
  destruct (decide (rest = [])) as [->|Hr].
  - rewrite app_nil_r, decide_True by done.
    rewrite (bind_ok _ _ _ (pf_logits p) (put_logits None (put_cache (pf_cache p) s))) by done.
    rewrite (bind_ok (session_forward _) _ s (pf_logits p) (put_cache (pf_cache p) s))
      by (unfold session_forward; by rewrite Hc, Hfw).
    unfold check_logits, mbind', mget. simpl.
    destruct (batch_one (ss_limits s) (pf_logits p) && on_device (pf_logits p)); simpl; reflexivity.
  - rewrite decide_False by (rewrite length_app; destruct rest; simpl in *; [done|lia]).
    unfold slice. rewrite decide_True by (rewrite length_app; lia).
    rewrite drop_app_length, take_ge by (rewrite length_app; lia).
    set (s1 := put_logits _ _). assert (try_forward_cached_last (pf_tokens p ++ rest) (ss_cache s) =
      try_forward_cached_last rest (ss_cache s1)) as Hsame by (rewrite Hc; exact (Happ _ _ _ _ _ Hr Hfw)).
    assert (∀ A (k : Logits → M _ _ A),
      mbind' (mbind' (mexpect OutOfBounds (Some rest)) session_forward) k s1 =
      match (try_forward_cached_last rest (ss_cache s1)).1 with
      | inl e => (Err e, put_cache (try_forward_cached_last rest (ss_cache s1)).2 s1)
      | inr l => k l (put_cache (try_forward_cached_last rest (ss_cache s1)).2 s1)
      end) as Hl.
    { intros A k. unfold mbind', session_forward. simpl. destruct (try_forward_cached_last rest _) as [[e|l] c]; reflexivity. }
    rewrite Hl. clear Hl. unfold check_logits, session_forward, mbind'. rewrite Hsame.
    destruct (try_forward_cached_last rest (ss_cache s1)) as [[e|l] c]; [cbn; reflexivity|]. unfold mget. cbn.
    destruct (batch_one (ss_limits s) l && on_device l); reflexivity.
Qed.

Lemma open_prefix limits prompt generation sampler control p : forward_appends → prefix_of_model p →
  pf_tokens p `prefix_of` prompt →
  new_with_prefix limits prompt generation sampler control (Some p) =
  new_with_prefix limits prompt generation sampler control None.
Proof.
  intros Happ Hp Hpre. unfold new_with_prefix. destruct (validate_generation _ _ _) as [eos|e|?]; [|done..].
  destruct (validate_control _ _) as [[]|e|?]; [|done..]. simpl.
  destruct (new_matcher _) as [m|e|?]; [|done..]. simpl. set (reason := if is_cancelled _ _ then _ else _).
  destruct reason; [done|].
  pose proof (prefill_prefix prompt p (blank limits prompt generation sampler control eos m None)
    Happ Hp Hpre eq_refl) as Ha.
  destruct (prefill prompt (Some p) _) as [[[]|e|?] s1], (prefill prompt None _) as [[[]|e'|?] s2]; try done;
    by subst.
Qed.

(** A prefix captured from a freshly opened session is the model's own. *)
Lemma captured_prefix limits prompt generation sampler control s model_id p s' :
  new_with_prefix limits prompt generation sampler control None = Ok s →
  prefilled_prompt model_id s = (Ok p, s') → prompt ≠ [] → prefix_of_model p ∧ pf_tokens p = prompt.
Proof.
  intros Ho Hc Hne. unfold new_with_prefix in Ho.
  destruct (validate_generation _ _ _) as [eos|e|?]; [|done..].
  destruct (validate_control _ _) as [[]|e|?]; [|done..]. simpl in Ho.
  destruct (new_matcher _) as [m|e|?]; [|done..]. simpl in Ho.
  set (reason := if is_cancelled _ _ then _ else _) in Ho.
  assert (0 < length prompt) as Hpos by (destruct prompt; [done|simpl; lia]).
  destruct reason as [r|].
  { injection Ho as <-. unfold prefilled_prompt in Hc. rewrite (bind_ok _ _ (blank _ _ _ _ _ _ _ _)
      (blank limits prompt generation sampler control eos m (Some r))
      (blank limits prompt generation sampler control eos m (Some r))) in Hc by done.
    rewrite decide_True in Hc; [done|]. right. right. left. simpl. lia. }
  rewrite prefill_fresh in Ho by done. unfold mbind' in Ho, Hc. unfold session_forward in Ho.
  cbn [ss_cache blank] in Ho. destruct (try_forward_cached_last prompt new_cache) as [[e|l] c] eqn:Ef; [done|].
  simpl in Ho. unfold check_logits, mbind', mget in Ho. simpl in Ho. destruct (negb _); [done|].
  injection Ho as <-. unfold prefilled_prompt, mbind', mget in Hc. cbn in Hc. case_decide; [done|].
  simpl in Hc. destruct (device_sync c) as [e|[]]; [done|]. injection Hc as <- _. done.
Qed.

(** Prefix reuse is invisible: capturing a finished prefill of one
    prompt and opening another session on it, greedy or sampled, gives exactly the
    session, or the error, of opening it without the prefix, for every prompt the
    prefix's own checks accept; the prefix may be all of the prompt. *)
Theorem prefix_reuse_is_fresh_prefill limits prompt0 generation0 sampler0 control0 s s' model_id p
    prompt generation sampler control :
  forward_appends → prompt0 ≠ [] →
  new_with_prefix limits prompt0 generation0 sampler0 control0 None = Ok s →
  prefilled_prompt model_id s = (Ok p, s') →
  validate_prefilled p model_id limits prompt = Ok tt →
  new_greedy_prefilled limits prompt generation control model_id p =
    new_greedy limits prompt generation control ∧
  new_sampled_prefilled limits prompt generation sampler control model_id p =
    new_sampled limits prompt generation sampler control.
Proof.
  intros Happ Hne Ho Hc Hv. destruct (captured_prefix _ _ _ _ _ _ _ _ _ Ho Hc Hne) as [Hp Ht].
  assert (pf_tokens p `prefix_of` prompt) as Hpre.
  { unfold validate_prefilled in Hv. destruct (dims _) as [[? ?] ?]. case_decide as Hx; [done|].
    apply dec_stable. tauto. }
  unfold new_greedy_prefilled, new_sampled_prefilled, new_greedy, new_sampled. rewrite Hv. simpl.
  by rewrite !open_prefix.
Qed.
End Prefix.
