(* ===== verification/GenerationExamples.v ===== *)
(** * Generation on a small model

    A model over five tokens whose next token is a function of its history, with
    its cache records and a sampler.  The theorems of the generation files are
    applied to it. *)
From S2P Require Import Prelude PagedKv ContinuousBatch GenerationControl Generation GenerationSession.
From S2P Require Import GenerationRecord.
Open Scope nat_scope.

(** The cache is the history; the logits name the next token. *)
Definition next_token (history : list Z) : Z := (foldr Z.add 1 history mod 5)%Z.

#[local] Instance toy_model : CausalModel := {
  Cache := list Z;
  Logits := Z;
  Row := Z;
  new_cache := [];
  try_forward_cached_last tokens cache := (inr (next_token (cache ++ tokens)), cache ++ tokens);
  dims _ := (1, 1, 5);
  on_device _ := true;
  greedy_token l := inr l;
  read_last_logits l := inr l;
  device_sync _ := inr tt
}.

(** A sampler that adds how often it was asked. *)
#[local] Instance toy_sampling : TokenSampling := {
  TokenSampler := Z;
  sample_with_history n row _ _ := (inr ((row + n) mod 5)%Z, (n + 1)%Z)
}.

#[local] Instance toy_records : GenerationCacheContinuation := {
  CacheRecord := string * list Z;
  generation_position := length;
  capture_generation cache model_id := inr (model_id, cache);
  restore_generation r model_id _ position :=
    if decide (r.1 = model_id ∧ length r.2 = position) then inr r.2 else inl "cache positions differ";
  TensorData := Z;
  td_shape _ := [1; 1; 5];
  td_is_float _ := true;
  td_element_bytes _ := 4;
  td_byte_length _ := 20;
  read_data l := inr l;
  from_data d := d;
  SamplerState := Z;
  to_state n := n;
  from_state n := inr n
}.

Definition toy_limits : CausalModelLimits := mk_limits 5 20.
Definition toy_prompt : list Z := [1; 2]%Z.
Definition toy_generation : GreedyGenerationConfig := mk_generation 6 [0]%Z.
Definition toy_control : GenerationControl := mk_control [[4; 3]]%Z None.

(** A flag found set from its fourth reading on. *)
Definition late_control : GenerationControl := mk_control [[4; 3]]%Z (Some (λ clock, Nat.leb 3 clock)).

(** The events a callback has seen. *)
Definition note (seen : list Z) (e : GenerationEvent) : bool * list Z := (false, seen ++ [event_token_id e]).

Definition toy_sampler : TokenSampler := 3%Z.

Definition toy_stream (control : GenerationControl) :=
  generate_with_selector_stream greedy_select note toy_limits toy_prompt toy_generation control
    (mk_stream new_cache tt [] 0).

Example generation_stream_exact_witness :
  (∃ st, toy_stream late_control =
     (Ok (mk_controlled (mk_output [1; 2; 4]%Z [4]%Z false) Cancelled), st)) ∧
  match toy_stream toy_control with
  | (Ok r, s') => valid_generation toy_limits toy_prompt toy_generation ∧
      valid_patterns 5 [[4; 3]]%Z ∧
      ∃ gen, token_ids (output r) = toy_prompt ++ gen ∧ generated_token_ids (output r) = gen ∧
        (stopped_on_eos (output r) = true ↔ ∃ t, finish_reason r = EosToken t) ∧
        length gen ≤ 6 ∧ (∀ t, t ∈ gen → in_vocabulary 5 t) ∧
        (∀ n, n < length gen → stop_of {[0%Z]} [[4; 3]]%Z 6 (take n gen) = None) ∧
        match stop_of {[0%Z]} [[4; 3]]%Z 6 gen with
        | Some reason => finish_reason r = reason
        | None => finish_reason r = Cancelled ∨ 6 = 0 ∧ finish_reason r = MaxNewTokens
        end ∧
        st_cb s' = told_events note [] (events_of {[0%Z]} [[4; 3]]%Z 6 gen)
  | (Err _, _) => True
  | (Panic p, _) => p = Overflow
  end.
Proof.
  split; [eexists; vm_compute; reflexivity|].
  assert (({[0%Z]} : gset Z) = list_to_set (eos_token_ids toy_generation)) as -> by (vm_compute; reflexivity).
  apply (generation_stream_exact greedy_select note toy_limits toy_prompt toy_generation toy_control
    (mk_stream new_cache tt [] 0)); [vm_compute; discriminate|intros c; discriminate].
Defined.

Example session_run_equals_stream_witness :
  (session_stream note toy_limits toy_prompt toy_generation toy_control (Some toy_sampler) [] =
     Ok (mk_controlled (mk_output [1; 2; 2; 0]%Z [2; 0]%Z true) (EosToken 0), [2; 0]%Z)) ∧
  same_outcome
    (generate_causal_sampled_stream note toy_limits toy_prompt toy_generation toy_sampler toy_control [])
    (session_stream note toy_limits toy_prompt toy_generation toy_control (Some toy_sampler) []).
Proof.
  split; [vm_compute; reflexivity|].
  apply (session_run_equals_stream note toy_limits toy_prompt toy_generation toy_control (Some toy_sampler) []);
    [reflexivity|vm_compute; discriminate|reflexivity].
Defined.

(** A session three tokens in, and what it was opened from. *)
Definition toy_open : Gen CausalGenerationSession :=
  new_greedy toy_limits toy_prompt toy_generation toy_control.
Definition or_blank (r : Gen CausalGenerationSession) : CausalGenerationSession :=
  match r with
  | Ok s => s
  | _ => blank toy_limits toy_prompt toy_generation None toy_control ∅ (mk_matcher [] [] []) None
  end.
Definition opened : CausalGenerationSession := or_blank toy_open.
Definition stepped : CausalGenerationSession := (step opened).2.

Lemma opened_boundary : boundary opened toy_prompt [].
Proof.
  pose proof (open_boundary toy_limits toy_prompt toy_generation None toy_control None) as Ho.
  unfold opened, toy_open, new_greedy.
  assert (∃ s, new_with_prefix toy_limits toy_prompt toy_generation None toy_control None = Ok s) as [s Hs]
    by (eexists; vm_compute; reflexivity).
  rewrite Hs in *. apply Ho; [vm_compute; discriminate|exact I].
Qed.

Lemma stepped_boundary : boundary stepped toy_prompt [4%Z].
Proof.
  pose proof (step_inner_boundary None opened toy_prompt [] opened_boundary) as Hb. unfold wp in Hb.
  assert (∃ st, step_inner None opened = (Ok (Some st), stepped) ∧ step_token_id st = 4%Z) as (st & Hs & Ht)
    by (eexists; split; vm_compute; reflexivity).
  rewrite Hs in Hb. destruct Hb as [_ Hb]. cbn [fst snd] in Hb. rewrite Ht in Hb. exact Hb.
Qed.

#[local] Opaque opened stepped.

Example opened_session_at_boundary_witness :
  match new_with_prefix toy_limits toy_prompt toy_generation None toy_control None with
  | Ok s => boundary s toy_prompt [] ∧ opened_as s toy_limits toy_generation None toy_control
  | Err _ => True
  | Panic _ => False
  end.
Proof.
  apply (opened_session_at_boundary toy_limits toy_prompt toy_generation None toy_control None);
    [vm_compute; discriminate|exact I].
Defined.

Example session_step_exact_witness :
  match step_with None opened with
  | (Ok (Some st), s') =>
      step_generated_tokens st = 1 ∧ step_finish_reason st = ss_finish_reason s' ∧
      boundary s' toy_prompt [step_token_id st]
  | (Ok None, s') => is_Some (ss_finish_reason s') ∧ boundary s' toy_prompt []
  | (Err e, s') => ss_fault s' = Some e ∧ ∀ processor', step_with processor' s' = (Err e, s')
  | (Panic _, _) => False
  end.
Proof. apply (session_step_exact None opened toy_prompt []). exact opened_boundary. Defined.

(** The record of a session one token in, and the control of whoever resumes it. *)
Definition toy_record : GenerationSessionRecord :=
  mk_record 1 "toy"
    (mk_state toy_limits toy_generation [[4; 3]]%Z 2 2 (mk_output [1; 2; 4]%Z [4]%Z false) (Some 4%Z)
       None None) ("toy", [1; 2]%Z) None.

Example restore_gives_boundary_witness :
  (∃ s, restore toy_record toy_limits "toy" late_control = Ok s) ∧
  match restore toy_record toy_limits "toy" late_control with
  | Ok s => boundary s [1; 2]%Z [4]%Z ∧
      ss_limits s = toy_limits ∧ ss_control s = late_control ∧
      ss_output s = mk_output [1; 2; 4]%Z [4]%Z false ∧
      ss_generation s = toy_generation ∧ ss_processed_tokens s = 2 ∧ ss_finish_reason s = None
  | Err _ => True
  | Panic _ => False
  end.
Proof.
  split; [eexists; vm_compute; reflexivity|].
  apply (restore_gives_boundary toy_record toy_limits "toy" late_control). vm_compute. discriminate.
Defined.

Example record_restore_roundtrip_witness :
  match record "toy" stepped with
  | (Ok r, s') => s' = stepped ∧
      restore r (ss_limits stepped) "toy" toy_control = Ok (resumed stepped toy_control)
  | (Err _, s') => s' = stepped ∨ is_Some (ss_fault s')
  | (Panic _, _) => False
  end.
Proof.
  apply (record_restore_roundtrip) with (prompt := toy_prompt) (gen := [4%Z]).
  - reflexivity.
  - intros cache model_id r [= <-]. simpl. apply decide_True. split; reflexivity.
  - reflexivity.
  - intros l d [= <-]. reflexivity.
  - exact stepped_boundary.
  - vm_compute. discriminate.
  - vm_compute. reflexivity.
Defined.

Definition toy_prefix : PrefilledPrompt :=
  mk_prefilled "toy" toy_limits toy_prompt (toy_prompt : Cache) (4%Z : Logits).

Example prefix_reuse_is_fresh_prefill_witness :
  new_greedy_prefilled toy_limits [1; 2; 3]%Z toy_generation toy_control "toy" toy_prefix =
    new_greedy toy_limits [1; 2; 3]%Z toy_generation toy_control ∧
  new_sampled_prefilled toy_limits [1; 2; 3]%Z toy_generation toy_sampler toy_control "toy" toy_prefix =
    new_sampled toy_limits [1; 2; 3]%Z toy_generation toy_sampler toy_control.
Proof.
  apply (prefix_reuse_is_fresh_prefill toy_limits toy_prompt toy_generation None toy_control opened opened
    "toy" toy_prefix [1; 2; 3]%Z toy_generation toy_sampler toy_control).
  - intros first second cache l cache' _ [= <- <-]. simpl. rewrite app_assoc. reflexivity.
  - discriminate.
  - vm_compute. reflexivity.
  - vm_compute. reflexivity.
  - vm_compute. reflexivity.
Defined.
