(* ===== verification/Float.v ===== *)
(** * Floating point

    [f32] and [f64] as the IEEE 754 data of the Standard Library's [SpecFloat],
    with the arithmetic, comparisons and casts the samplers use.  On values that
    are not NaN the comparisons are those of a total preorder. *)
From Stdlib Require Export SpecFloat.
From S2P Require Import Prelude.
Local Open Scope Z_scope.

Notation f32 := spec_float.
Notation f64 := spec_float.

(** ** The operations of [f64] *)
Definition f64_add : f64 → f64 → f64 := SFadd 53 1024.
Definition f64_sub : f64 → f64 → f64 := SFsub 53 1024.
Definition f64_mul : f64 → f64 → f64 := SFmul 53 1024.
Definition f64_div : f64 → f64 → f64 := SFdiv 53 1024.
Definition f64_of_Z (n : Z) : f64 := binary_normalize 53 1024 n 0 false.

(** ** The operations of [f32] *)
Definition f32_add : f32 → f32 → f32 := SFadd 24 128.
Definition f32_sqrt : f32 → f32 := SFsqrt 24 128.
Definition f32_sub : f32 → f32 → f32 := SFsub 24 128.
Definition f32_mul : f32 → f32 → f32 := SFmul 24 128.
Definition f32_div : f32 → f32 → f32 := SFdiv 24 128.
Definition f32_of_Z (n : Z) : f32 := binary_normalize 24 128 n 0 false.

(** [value as f64] and [value as f32]: the nearest value, ties to even. *)
Definition round_to (prec emax : Z) (x : spec_float) : spec_float :=
  match x with
  | S754_finite s m e => binary_normalize prec emax (cond_Zopp s (Zpos m)) e s
  | _ => x
  end.
Definition as_f64 : f32 → f64 := round_to 53 1024.
Definition as_f32 : f64 → f32 := round_to 24 128.

Definition zero : spec_float := S754_zero false.
Definition one : f64 := f64_of_Z 1.
#[global] Arguments f64_add : simpl never.
#[global] Arguments f64_sub : simpl never.
#[global] Arguments f64_mul : simpl never.
#[global] Arguments f64_div : simpl never.
#[global] Arguments f32_add : simpl never.
#[global] Arguments f32_sqrt : simpl never.
#[global] Arguments f32_sub : simpl never.
#[global] Arguments f32_mul : simpl never.
#[global] Arguments f32_div : simpl never.
#[global] Arguments round_to : simpl never.
#[global] Arguments one : simpl never.
Definition neg_infinity : spec_float := S754_infinity true.

Definition is_nan (x : spec_float) : bool := match x with S754_nan => true | _ => false end.
Definition is_finite (x : spec_float) : bool :=
  match x with S754_zero _ | S754_finite _ _ _ => true | _ => false end.

(** [a < b], [a <= b], [a == b]: false when either is NaN. *)
Notation lt := SFltb.
Notation le := SFleb.
Notation eq := SFeqb.

(** [a.max(b)] and [a.min(b)]: the other one when one is NaN. *)
Definition float_max (a b : spec_float) : spec_float :=
  if is_nan a then b else if lt a b then b else a.
Definition float_min (a b : spec_float) : spec_float :=
  if is_nan a then b else if lt b a then b else a.

(** [iter().sum()] *)
Definition f64_sum (l : list f64) : f64 := fold_left f64_add l zero.

(** ** The order *)

(** The place of a value in the order: its class, exponent and mantissa. *)
Definition rank (x : spec_float) : Z * Z * Z :=
  match x with
  | S754_nan | S754_zero _ => (0, 0, 0)
  | S754_infinity s => (if s then -2 else 2, 0, 0)
  | S754_finite s m e => if s then (-1, - e, - Zpos m) else (1, e, Zpos m)
  end.

Definition rank_compare (a b : Z * Z * Z) : comparison :=
  match a.1.1 ?= b.1.1 with
  | Eq => match a.1.2 ?= b.1.2 with Eq => a.2 ?= b.2 | c => c end
  | c => c
  end.

Lemma compare_rank x y : is_nan x = false → is_nan y = false →
  SFcompare x y = Some (rank_compare (rank x) (rank y)).
Proof.
  destruct x as [sx|sx| |sx mx ex], y as [sy|sy| |sy my ey]; try done; intros _ _; simpl;
    try destruct sx; try destruct sy; try done; f_equal; unfold rank_compare; simpl.
  rewrite Z.compare_opp, (Z.compare_antisym ex ey). by destruct (ex ?= ey).
Qed.

Definition rank_le (a b : Z * Z * Z) : Prop :=
  a.1.1 < b.1.1 ∨ a.1.1 = b.1.1 ∧ (a.1.2 < b.1.2 ∨ a.1.2 = b.1.2 ∧ a.2 ≤ b.2).

Lemma rank_compare_le a b : rank_compare a b ≠ Gt ↔ rank_le a b.
Proof.
  unfold rank_compare, rank_le. destruct (Z.compare_spec a.1.1 b.1.1); [|split; intros; first [done|lia|intros _; lia]..].
  destruct (Z.compare_spec a.1.2 b.1.2); [|split; intros; first [done|lia|intros _; lia]..].
  destruct (Z.compare_spec a.2 b.2); split; intros; first [done|lia|intros _; lia].
Qed.

Lemma rank_compare_lt a b : rank_compare a b = Lt ↔ ¬ rank_le b a.
Proof.
  unfold rank_compare, rank_le. destruct (Z.compare_spec a.1.1 b.1.1); [|split; intros; first [done|lia|intros _; lia]..].
  destruct (Z.compare_spec a.1.2 b.1.2); [|split; intros; first [done|lia|intros _; lia]..].
  destruct (Z.compare_spec a.2 b.2); split; intros; first [done|lia|intros _; lia].
Qed.

(** The preorder of the values that are not NaN. *)
Definition below (x y : spec_float) : Prop := rank_le (rank x) (rank y).

#[export] Instance below_dec : RelDecision below.
Proof. intros x y. unfold below, rank_le. apply _. Defined.

Lemma below_refl x : below x x.
Proof. unfold below, rank_le. lia. Qed.
Lemma below_trans x y z : below x y → below y z → below x z.
Proof. unfold below, rank_le. lia. Qed.
Lemma below_total x y : below x y ∨ below y x.
Proof. unfold below, rank_le. lia. Qed.

Lemma le_below x y : is_nan x = false → is_nan y = false → le x y = true ↔ below x y.
Proof.
  intros Hx Hy. unfold below. rewrite <- rank_compare_le. unfold SFleb. rewrite compare_rank by done.
  by destruct (rank_compare _ _).
Qed.

Lemma lt_below x y : is_nan x = false → is_nan y = false → lt x y = true ↔ ¬ below y x.
Proof.
  intros Hx Hy. unfold below. rewrite <- rank_compare_lt. unfold SFltb. rewrite compare_rank by done.
  by destruct (rank_compare _ _).
Qed.

Lemma lt_not_nan x y : lt x y = true → is_nan x = false ∧ is_nan y = false.
Proof. by destruct x, y. Qed.

Lemma lt_false x y : is_nan x = false → is_nan y = false → lt x y = false ↔ below y x.
Proof.
  intros Hx Hy. destruct (decide (below y x)) as [Hb|Hb]; split; try done.
  - intros _. apply not_true_iff_false. rewrite lt_below by done. tauto.
  - intros Hl. apply not_true_iff_false in Hl. rewrite lt_below in Hl by done. tauto.
Qed.

Example float_ops : f64_div one (f64_of_Z 4) = f64_mul (f64_div one (f64_of_Z 2)) (f64_div one (f64_of_Z 2)).
Proof. reflexivity. Qed.
