(* ===== verification/Sampling.v ===== *)
(** * Categorical token sampling

    src/src/generation/sampling.rs with its distribution.rs and state.rs, and
    [draw] of src/src/generation/speculative.rs: penalties, temperature, top-k,
    nucleus and min-p filtering, the inverse-CDF draw, draft verification and the
    durable sampler state, on IEEE 754 data. *)
From S2P Require Import Prelude Float GenerationControl.
Open Scope nat_scope.

Record SamplingConfig := mk_sampling {
  temperature : f64;
  top_k : nat;
  top_p : f64;
  seed : option N
}.

Record SamplingOptions := mk_options {
  min_p : f64;
  repetition_penalty : f64;
  presence_penalty : f64;
  frequency_penalty : f64
}.

Definition default_sampling : SamplingConfig := mk_sampling one 0 one None.
Definition default_options : SamplingOptions := mk_options zero one zero zero.

(** [SamplingConfig::validate] *)
Definition validate_sampling (c : SamplingConfig) : Gen unit :=
  if negb (is_finite (temperature c)) || le (temperature c) zero then
    Err "sampling temperature must be finite and positive"
  else if negb (is_finite (top_p c)) || le (top_p c) zero || lt one (top_p c) then
    Err "sampling top_p must be in (0, 1]"
  else Ok tt.

(** [(low..=high).contains(&x)] *)
Definition within (low high x : f64) : bool := le low x && le x high.

(** [SamplingOptions::validate] *)
Definition validate_options (o : SamplingOptions) : Gen unit :=
  if negb (is_finite (min_p o)) || negb (within zero one (min_p o)) then
    Err "sampling min_p must be in [0, 1]"
  else if negb (is_finite (repetition_penalty o)) || le (repetition_penalty o) zero then
    Err "repetition_penalty must be finite and positive"
  else if negb (is_finite (presence_penalty o)) ||
          negb (within (f64_of_Z (-2)) (f64_of_Z 2) (presence_penalty o)) then
    Err "presence_penalty must be in [-2, 2]"
  else if negb (is_finite (frequency_penalty o)) ||
          negb (within (f64_of_Z (-2)) (f64_of_Z 2) (frequency_penalty o)) then
    Err "frequency_penalty must be in [-2, 2]"
  else Ok tt.

Definition has_penalties (o : SamplingOptions) : bool :=
  negb (eq (repetition_penalty o) one) || negb (eq (presence_penalty o) zero) ||
  negb (eq (frequency_penalty o) zero).

(** ** Penalties *)

(** The closure [in_vocabulary]. *)
Definition vocabulary_index (vocab : nat) (token : Z) : option nat :=
  if decide (0 ≤ token < Z.of_nat vocab)%Z then Some (Z.to_nat token) else None.

(** [seen[index] = true] for every token of the history. *)
Definition mark_seen (vocab : nat) (tokens : list Z) : list bool :=
  fold_left (λ seen index, <[index := true]> seen) (omap (vocabulary_index vocab) tokens)
    (replicate vocab false).

Definition repeat_penalty (penalty : f32) (value : f32) (seen : bool) : f32 :=
  if seen && is_finite value then
    if lt zero value then f32_div value penalty else f32_mul value penalty
  else value.

(** [*counts.entry(index).or_default() += 1], a [u32]. *)
Fixpoint count_tokens (indices : list nat) (counts : gmap N N) : Gen (gmap N N) :=
  match indices with
  | [] => Ok counts
  | index :: rest =>
      let count := default 0%N (counts !! N.of_nat index) in
      if decide (2 ^ 32 ≤ count + 1)%N then Panic Overflow
      else count_tokens rest (<[N.of_nat index := (count + 1)%N]> counts)
  end.

(** [(presence + frequency * count) as f32] *)
Definition count_penalty (o : SamplingOptions) (count : N) : f32 :=
  as_f32 (f64_add (presence_penalty o) (f64_mul (frequency_penalty o) (f64_of_Z (Z.of_N count)))).

Definition subtract_counts (o : SamplingOptions) (output : list f32) (entry : N * N) : list f32 :=
  alter (λ value, if is_finite value then f32_sub value (count_penalty o entry.2) else value)
    (N.to_nat entry.1) output.

Definition penalized_logits (logits : list f32) (o : SamplingOptions) (prompt generated : list Z) :
    Gen (list f32) :=
  let vocab := length logits in
  let output :=
    if negb (eq (repetition_penalty o) one) then
      zip_with (repeat_penalty (as_f32 (repetition_penalty o))) logits (mark_seen vocab (prompt ++ generated))
    else logits in
  if negb (eq (presence_penalty o) zero) || negb (eq (frequency_penalty o) zero) then
    do? counts := count_tokens (omap (vocabulary_index vocab) generated) ∅ in
    Ok (fold_left (subtract_counts o) (btree_iter counts) output)
  else Ok output.

(** ** The distribution *)

(** [SamplingWorkspace] *)
Record SamplingWorkspace := mk_workspace {
  probabilities : list f64;
  order : list nat
}.

Definition empty_workspace : SamplingWorkspace := mk_workspace [] [].

(** The order of [compare]: the tokens are indices and the logits are not NaN, which
    the [expect] in it relies on. *)
Definition logit (logits : list f32) (token : nat) : f32 := default zero (logits !! token).

Definition token_le (logits : list f32) (left right : nat) : Prop :=
  match SFcompare (logit logits left) (logit logits right) with
  | Some Lt => True
  | Some Eq => left ≤ right
  | _ => False
  end.

#[export] Instance token_le_dec logits : RelDecision (token_le logits).
Proof. intros a b. unfold token_le. destruct (SFcompare _ _) as [[]|]; apply _. Defined.

(** The first loop of [fill_with_min_p]. *)
Fixpoint checked_maximum (logits : list f32) (maximum : f32) : Gen f32 :=
  match logits with
  | [] => Ok maximum
  | value :: rest =>
      if is_nan value || eq value (S754_infinity false) then
        Err "sampling logits contain NaN or positive infinity"
      else checked_maximum rest (float_max maximum value)
  end.

(** [select_nth_unstable_by] puts the element of that rank in its place: here the
    whole slice is sorted, and nothing depends on the other places. *)
Definition sort_tokens (logits : list f32) (tokens : list nat) : list nat :=
  merge_sort (token_le logits) tokens.

(** The nucleus loop over all retained tokens but the most likely. *)
Fixpoint cut_tail (tokens : list nat) (total limit cumulative : f64) (probs : list f64) : list f64 :=
  match tokens with
  | [] => probs
  | token :: rest =>
      let cumulative := f64_add cumulative (f64_div (default zero (probs !! token)) total) in
      cut_tail rest total limit cumulative
        (if le cumulative limit then <[token := zero]> probs else probs)
  end.

(** [f64::exp] comes from the platform's mathematics library. *)
Class Exponential := exp : f64 → f64.

Section Distribution.
Context `{Exponential}.

Definition weight (config : SamplingConfig) (maximum threshold value : f32) : f64 :=
  if lt value threshold then zero
  else exp (f64_div (f64_sub (as_f64 value) (as_f64 maximum)) (temperature config)).

(** The threshold of top-k: the logit of rank [logits.len() - top_k]. *)
Definition top_k_threshold (logits : list f32) (config : SamplingConfig) (tokens : list nat) : f32 :=
  if decide (0 < top_k config < length logits) then
    logit logits (default 0 (tokens !! (length logits - top_k config)))
  else neg_infinity.

(** [self.probabilities] before normalization, and [self.order]. *)
Definition filtered_weights (w : SamplingWorkspace) (logits : list f32) (maximum : f32)
    (config : SamplingConfig) (minimum : f64) : Gen (list f64 * list nat) :=
  let in_top_k := bool_decide (0 < top_k config < length logits) in
  let nucleus := lt (top_p config) one in
  let tokens := if in_top_k || nucleus then seq 0 (length logits) else [] in
  let tokens := if in_top_k then sort_tokens logits tokens else tokens in
  let threshold := top_k_threshold logits config tokens in
  let probs := zip_with (λ _ value, weight config maximum threshold value)
                 (resize (length logits) zero (probabilities w)) logits in
  let total := f64_sum probs in
  do? cut :=
    (if nucleus then
       let tokens := sort_tokens logits (filter (λ token, le threshold (logit logits token) = true) tokens) in
       do? count := expect Overflow (usize_sub (length tokens) 1) in
       Ok (cut_tail (take count tokens) total (f64_sub one (top_p config)) zero probs, tokens)
     else Ok (probs, tokens)) in
  Ok (if lt zero minimum then map (λ p, if lt p minimum then zero else p) cut.1 else cut.1, cut.2).

Definition fill_with_min_p (w : SamplingWorkspace) (logits : list f32) (config : SamplingConfig)
    (minimum : f64) : Gen (list f64) * SamplingWorkspace :=
  match
    (do? _ := validate_sampling config in
     if decide (logits = [] ∨ (i32_max < Z.of_nat (length logits) - 1)%Z) then
       Err "sampling requires a nonempty i32-indexed vocabulary"
     else
     do? maximum := checked_maximum logits neg_infinity in
     if eq maximum neg_infinity then Err "all sampling logits are masked"
     else filtered_weights w logits maximum config minimum)
  with
  | Ok (weights, tokens) =>
      let probs := map (λ p, f64_div p (f64_sum weights)) weights in
      (Ok probs, mk_workspace probs tokens)
  | Err e => (Err e, w)
  | Panic p => (Panic p, w)
  end.

Definition fill (w : SamplingWorkspace) (logits : list f32) (config : SamplingConfig) :
    Gen (list f64) * SamplingWorkspace :=
  fill_with_min_p w logits config zero.

Definition filtered_probabilities (logits : list f32) (config : SamplingConfig) : Gen (list f64) :=
  (fill empty_workspace logits config).1.
End Distribution.

(** ** Drawing *)

(** [draw] of speculative.rs: the loop, then the last positive index. *)
Fixpoint draw_loop (threshold : f64) (index : nat) (probs : list f64) (cumulative : f64) (last : option nat) :
    option nat :=
  match probs with
  | [] => last
  | probability :: rest =>
      if lt zero probability then
        let cumulative := f64_add cumulative probability in
        if lt threshold cumulative then Some index
        else draw_loop threshold (S index) rest cumulative (Some index)
      else draw_loop threshold (S index) rest cumulative last
  end.

Definition draw (probs : list f64) (uniform : f64) : Gen Z :=
  let sum := f64_sum probs in
  if negb (is_finite sum) || le sum zero then
    Err "empty or nonfinite speculative sampling distribution"
  else
    do? index := expect Expect (draw_loop (f64_mul uniform sum) 0 probs zero None) in
    Ok (Z.of_nat index).

(** The loop of [sample_with_history]. *)
Fixpoint sample_loop (uniform : f64) (token : nat) (probs : list f64) (cumulative : f64) (last : option nat) :
    option nat :=
  match probs with
  | [] => last
  | probability :: rest =>
      if eq probability zero then sample_loop uniform (S token) rest cumulative last
      else
        let cumulative := f64_add cumulative probability in
        if lt uniform cumulative then Some token
        else sample_loop uniform (S token) rest cumulative (Some token)
  end.

(** ** Request-local samplers *)

(** [ChaCha12Rng] and the process's seeded generator. *)
Class Randomness := {
  Rng : Type;
  random : Rng → f64 * Rng;
  seed_from_u64 : N → Rng;
  from_entropy : Rng;
  state_bytes : nat;
  serialize_state : Rng → list Z;
  deserialize_state : list Z → Rng
}.

Section Sampler.
Context `{Exponential, Randomness}.

Record TokenSampler := mk_sampler {
  sm_config : SamplingConfig;
  sm_options : SamplingOptions;
  sm_rng : Rng;
  sm_workspace : SamplingWorkspace
}.

Notation SM := (M TokenSampler GenerationError).

Definition new_with_options (config : SamplingConfig) (options : SamplingOptions) : Gen TokenSampler :=
  do? _ := validate_sampling config in
  do? _ := validate_options options in
  let rng := match seed config with Some s => seed_from_u64 s | None => from_entropy end in
  Ok (mk_sampler config options rng empty_workspace).

Definition new_sampler (config : SamplingConfig) : Gen TokenSampler := new_with_options config default_options.

Definition clear_workspace (s : TokenSampler) : TokenSampler :=
  mk_sampler (sm_config s) (sm_options s) (sm_rng s) empty_workspace.

(** [Clone::clone] *)
Definition clone (s : TokenSampler) : TokenSampler :=
  mk_sampler (sm_config s) (sm_options s) (deserialize_state (serialize_state (sm_rng s))) empty_workspace.

(** [self.workspace.fill_with_min_p(values, self.config, self.options.min_p)?] *)
Definition sampler_fill (values : list f32) : SM (list f64) := λ s,
  let out := fill_with_min_p (sm_workspace s) values (sm_config s) (min_p (sm_options s)) in
  (out.1, mk_sampler (sm_config s) (sm_options s) (sm_rng s) out.2).

(** [self.rng.random::<f64>()] *)
Definition sampler_random : SM f64 := λ s,
  let out := random (sm_rng s) in
  (Ok out.1, mk_sampler (sm_config s) (sm_options s) out.2 (sm_workspace s)).

Open Scope m_scope.

Definition propose (logits : list f32) : SM (Z * list f64) :=
  let! probs := sampler_fill logits in
  let! uniform := sampler_random in
  let! token := mlift (draw probs uniform) in
  mret (token, probs).

(** [p.iter().zip(q).map(|(p, q)| (p - q).max(0.0))] *)
Definition residual (p q : list f64) : list f64 := zip_with (λ a b, float_max (f64_sub a b) zero) p q.

Definition verify_draft (candidate : Z) (q : list f64) (logits : list f32) : SM (Z * bool) :=
  let index := Z.to_nat candidate in
  if bool_decide (candidate < 0)%Z || bool_decide (length q ≤ index) ||
     bool_decide (length q ≠ length logits) ||
     existsb (λ x, negb (is_finite x) || lt x zero) q || le (default zero (q !! index)) zero then
    mthrow "invalid draft candidate distribution"
  else
    let! p := sampler_fill logits in
    let! uniform := sampler_random in
    let! pc := mexpect OutOfBounds (p !! index) in
    let! qc := mexpect OutOfBounds (q !! index) in
    if lt uniform (float_min (f64_div pc qc) one) then mret (candidate, true)
    else
      let! uniform := sampler_random in
      let! token := mlift (draw (residual p q) uniform) in
      mret (token, false).

Definition sample_with_history (logits : list f32) (prompt generated : list Z) : SM Z :=
  let! s := mget in
  let! values :=
    (if has_penalties (sm_options s) then
       mlift (penalized_logits logits (sm_options s) prompt generated)
     else mret logits) in
  let! probs := sampler_fill values in
  let! uniform := sampler_random in
  let! token := mexpect Expect (sample_loop uniform 0 probs zero None) in
  mret (Z.of_nat token).

Definition sample (logits : list f32) : SM Z := sample_with_history logits [] [].

(** ** Durable sampler state *)
Record TokenSamplerState := mk_sampler_state {
  tss_version : N;
  tss_config : SamplingConfig;
  tss_rng : list Z;
  tss_options : SamplingOptions
}.

Definition to_state (s : TokenSampler) : TokenSamplerState :=
  mk_sampler_state 1 (sm_config s) (serialize_state (sm_rng s)) (sm_options s).

(** [TokenSamplerState::restore] *)
Definition restore_sampler (st : TokenSamplerState) : Gen TokenSampler :=
  if decide (tss_version st ≠ 1%N) then Err "unsupported token sampler record version"
  else
  do? _ := validate_sampling (tss_config st) in
  do? _ := validate_options (tss_options st) in
  if decide (length (tss_rng st) ≠ state_bytes) then
    Err "token sampler RNG state has an invalid byte count"
  else
  let rng := deserialize_state (tss_rng st) in
  if decide (serialize_state rng ≠ tss_rng st) then Err "token sampler RNG state is not canonical"
  else Ok (mk_sampler (tss_config st) (tss_options st) rng empty_workspace).

Definition from_state (st : TokenSamplerState) : Gen TokenSampler := restore_sampler st.
End Sampler.
