(* ===== verification/SamplingSpec.v ===== *)
(** * What the samplers compute

    The filtered distribution, the penalties and the draws of [Sampling], token by
    token, and the round trip of a sampler's durable state. *)
From S2P Require Import Prelude Float GenerationControl Sampling.
Open Scope nat_scope.

(** ** The order of the tokens *)
Definition no_nan (logits : list f32) : Prop := ∀ v, v ∈ logits → is_nan v = false.

Lemma no_nan_logit logits t : no_nan logits → is_nan (logit logits t) = false.
Proof.
  intros Hn. unfold logit. destruct (logits !! t) as [v|] eqn:E; [|done].
  apply Hn. by eapply list_elem_of_lookup_2.
Qed.

Lemma token_le_iff logits a b : no_nan logits →
  token_le logits a b ↔ ¬ below (logit logits b) (logit logits a) ∨
    below (logit logits a) (logit logits b) ∧ a ≤ b.
Proof.
  intros Hn. unfold token_le. pose proof (no_nan_logit logits a Hn) as Ha.
  pose proof (no_nan_logit logits b Hn) as Hb. pose proof (lt_below _ _ Ha Hb) as Hlt.
  pose proof (le_below _ _ Ha Hb) as Hle. unfold SFltb, SFleb in *.
  pose proof (below_total (logit logits a) (logit logits b)) as Ht.
  destruct (SFcompare _ _) as [[]|] eqn:E.
  - split; [intros ?; right; split; [by apply Hle|done]|]. intros [Hx|[_ ?]]; [|done].
    by apply Hlt in Hx.
  - split; [intros _; left; by apply Hlt|done].
  - split; [done|]. intros [Hx|[Hx _]]; [by apply Hlt in Hx|by apply Hle in Hx].
  - split; [done|]. intros [Hx|[Hx _]]; [by apply Hlt in Hx|by apply Hle in Hx].
Qed.

Lemma token_le_total logits : no_nan logits → Total (token_le logits).
Proof.
  intros Hn a b. rewrite !token_le_iff by done.
  destruct (decide (below (logit logits b) (logit logits a))); [|tauto].
  destruct (decide (below (logit logits a) (logit logits b))); [|tauto].
  destruct (decide (a ≤ b)); [tauto|]. assert (b ≤ a) by lia. tauto.
Qed.

Lemma token_le_trans logits : no_nan logits → Transitive (token_le logits).
Proof.
  intros Hn a b c. rewrite !token_le_iff by done.
  pose proof (below_trans (logit logits a) (logit logits b) (logit logits c)).
  pose proof (below_trans (logit logits c) (logit logits b) (logit logits a)).
  pose proof (below_trans (logit logits c) (logit logits a) (logit logits b)).
  pose proof (below_trans (logit logits b) (logit logits c) (logit logits a)).
  pose proof (below_total (logit logits a) (logit logits b)).
  pose proof (below_total (logit logits b) (logit logits c)).
  destruct (decide (below (logit logits c) (logit logits a))); [|tauto].
  intros [?|[? ?]] [?|[? ?]]; try tauto. right. split; [tauto|lia].
Qed.

Lemma token_le_antisymm logits : no_nan logits → AntiSymm (=) (token_le logits).
Proof.
  intros Hn a b. rewrite !token_le_iff by done. intros [?|[? ?]] [?|[? ?]]; try lia; try tauto.
  by destruct (below_total (logit logits a) (logit logits b)).
Qed.

Lemma token_le_below logits a b : no_nan logits → token_le logits a b →
  below (logit logits a) (logit logits b).
Proof.
  intros Hn. rewrite token_le_iff by done.
  destruct (below_total (logit logits a) (logit logits b)); tauto.
Qed.

(** Sorting does not depend on the order it starts from. *)
Lemma sort_tokens_permutation logits l l' : no_nan logits → l ≡ₚ l' →
  sort_tokens logits l = sort_tokens logits l'.
Proof.
  intros Hn Hp. pose proof (token_le_total logits Hn). pose proof (token_le_trans logits Hn).
  pose proof (token_le_antisymm logits Hn). unfold sort_tokens. eapply Sorted_unique; try done.
  - by apply Sorted_merge_sort.
  - by apply Sorted_merge_sort.
  - by rewrite !merge_sort_Permutation.
Qed.

Lemma elem_of_sort_tokens logits l t : t ∈ sort_tokens logits l ↔ t ∈ l.
Proof. unfold sort_tokens. by rewrite merge_sort_Permutation. Qed.

Lemma length_sort_tokens logits l : length (sort_tokens logits l) = length l.
Proof. unfold sort_tokens. by rewrite merge_sort_Permutation. Qed.

(** ** Top-k *)

(** How many tokens are more likely than a value. *)
Definition larger (logits : list f32) (value : f32) : nat :=
  length (filter (λ t, lt value (logit logits t) = true) (seq 0 (length logits))).

Lemma filter_length_perm {A} (P : A → Prop) `{∀ x, Decision (P x)} (l l' : list A) :
  l ≡ₚ l' → length (filter P l) = length (filter P l').
Proof. by intros ->. Qed.

Lemma filter_none {A} (P : A → Prop) `{∀ x, Decision (P x)} (l : list A) : (∀ x, x ∈ l → ¬ P x) → filter P l = [].
Proof.
  intros Hl. apply elem_of_nil_inv. intros x [Hp Hin]%list_elem_of_filter. by apply (Hl x).
Qed.

Lemma filter_all {A} (P : A → Prop) `{∀ x, Decision (P x)} (l : list A) : (∀ x, x ∈ l → P x) → filter P l = l.
Proof.
  induction l as [|x l IH]; intros Hl; [done|]. rewrite filter_cons_True by (apply Hl; by left).
  f_equal. apply IH. intros y ?. apply Hl. by right.
Qed.

(** A value is under the logit of rank [n - k] exactly when [k] tokens are above it. *)
Lemma threshold_counts logits k value th :
  no_nan logits → is_nan value = false → 0 < k ≤ length logits →
  sort_tokens logits (seq 0 (length logits)) !! (length logits - k) = Some th →
  lt value (logit logits th) = true ↔ k ≤ larger logits value.
Proof.
  intros Hn Hv Hk Hth. unfold larger.
  set (sorted := sort_tokens logits (seq 0 (length logits))) in *.
  assert (sorted ≡ₚ seq 0 (length logits)) as Hperm by apply merge_sort_Permutation.
  assert (length sorted = length logits) as Hlen by (by rewrite Hperm, length_seq).
  rewrite <- (filter_length_perm _ sorted) by done.
  pose proof (token_le_total logits Hn). pose proof (token_le_trans logits Hn).
  pose proof (StronglySorted_merge_sort (token_le logits) (seq 0 (length logits))) as Hs.
  change (merge_sort _ _) with sorted in Hs. rewrite <- (take_drop_middle _ _ _ Hth) in Hs |- *.
  apply StronglySorted_app in Hs as (Hlow & _ & Hhigh%StronglySorted_cons). destruct Hhigh as [Hhigh _].
  rewrite Forall_forall in Hhigh. set (pre := take _ sorted) in *. set (post := drop _ sorted) in *.
  assert (length post = k - 1) as Hpost by (unfold post; rewrite length_drop; lia).
  pose proof (no_nan_logit logits th Hn) as Hth'.
  rewrite filter_app, length_app. split.
  - intros Hlt. apply lt_below in Hlt; [|done..].
    rewrite (filter_all _ (th :: post)); [simpl; lia|].
    intros t Ht. apply lt_below; [done|by apply no_nan_logit|]. intros Hb. apply Hlt.
    apply elem_of_cons in Ht as [->|Ht]; [done|].
    eapply below_trans; [|done]. by apply token_le_below, Hhigh.
  - intros Hc. apply lt_below; [done..|]. intros Hb.
    rewrite (filter_none _ pre), filter_cons_False in Hc.
    + pose proof (length_filter (λ t, lt value (logit logits t) = true) post). simpl in Hc. lia.
    + rewrite lt_below by done. tauto.
    + intros t Ht. rewrite lt_below by (done || by apply no_nan_logit). intros Hx. apply Hx.
      eapply below_trans; [|done]. apply token_le_below; [done|]. apply Hlow; [done|by left].
Qed.

(** ** The filtered distribution *)
Section Distribution.
Context `{Exponential}.

Definition in_top_k (logits : list f32) (config : SamplingConfig) (value : f32) : Prop :=
  0 < top_k config < length logits → larger logits value < top_k config.

#[export] Instance in_top_k_dec logits config value : Decision (in_top_k logits config value).
Proof. unfold in_top_k. apply _. Defined.

(** The weight of a token once top-k has been applied. *)
Definition top_k_weight (logits : list f32) (config : SamplingConfig) (value : f32) : f64 :=
  if decide (in_top_k logits config value) then
    exp (f64_div (f64_sub (as_f64 value) (as_f64 (fold_left float_max logits neg_infinity)))
                 (temperature config))
  else zero.

(** The tokens top-k keeps, the least likely first. *)
Definition kept_tokens (logits : list f32) (config : SamplingConfig) : list nat :=
  sort_tokens logits (filter (λ t, in_top_k logits config (logit logits t)) (seq 0 (length logits))).

(** The mass of the least likely tokens [tokens]. *)
Definition mass (weights : list f64) (tokens : list nat) : f64 :=
  fold_left (λ c t, f64_add c (f64_div (default zero (weights !! t)) (f64_sum weights))) tokens zero.

(** A token the nucleus leaves out: not the most likely, and the mass up to it fits
    in [1 - top_p]. *)
Definition nucleus_drops (logits : list f32) (config : SamplingConfig) (t : nat) : Prop :=
  lt (top_p config) one = true ∧ ∃ less more, kept_tokens logits config = less ++ t :: more ∧ more ≠ [] ∧
    le (mass (top_k_weight logits config <$> logits) (less ++ [t])) (f64_sub one (top_p config)) = true.

Lemma neg_infinity_least v : below neg_infinity v.
Proof. destruct v as [?|[]| |[]]; unfold below, rank_le; simpl; lia. Qed.

Lemma threshold_top_k logits config v tokens : no_nan logits → is_nan v = false →
  (0 < top_k config < length logits → tokens = sort_tokens logits (seq 0 (length logits))) →
  lt v (top_k_threshold logits config tokens) = false ↔ in_top_k logits config v.
Proof.
  intros Hn Hv Ht. unfold top_k_threshold, in_top_k.
  destruct (decide (0 < top_k config < length logits)) as [Hk|Hk].
  - rewrite (Ht Hk).
    destruct (sort_tokens logits (seq 0 (length logits)) !! (length logits - top_k config)) as [th|] eqn:E.
    + simpl. pose proof (threshold_counts logits (top_k config) v th Hn Hv ltac:(lia) E) as Hc.
      rewrite <- not_true_iff_false, Hc. lia.
    + apply lookup_ge_None in E. unfold sort_tokens in E.
      rewrite merge_sort_Permutation, length_seq in E. lia.
  - split; [done|]. intros _. apply lt_false; [done..|]. apply neg_infinity_least.
Qed.

(** The cut of the least likely tokens: each is judged on the mass up to it. *)
Lemma cut_tail_lookup tokens total limit c probs i : NoDup tokens →
  (∀ t, t ∈ tokens → t < length probs) →
  let add := λ c t, f64_add c (f64_div (default zero (probs !! t)) total) in
  ((∃ less more, tokens = less ++ i :: more ∧ le (fold_left add (less ++ [i]) c) limit = true) →
    cut_tail tokens total limit c probs !! i = Some zero) ∧
  (¬ (∃ less more, tokens = less ++ i :: more ∧ le (fold_left add (less ++ [i]) c) limit = true) →
    cut_tail tokens total limit c probs !! i = probs !! i).
Proof.
  cbv zeta. revert c probs. induction tokens as [|t tokens IH]; intros c probs Hnd Hr; simpl.
  { split; [|done]. intros (less & more & Heq & _). by destruct less. }
  apply NoDup_cons in Hnd as [Ht Hnd]. set (c' := f64_add c _).
  set (probs' := if le c' limit then <[t := zero]> probs else probs).
  assert (length probs' = length probs) as Hlen by (unfold probs'; destruct (le c' limit); [apply length_insert|done]).
  assert (∀ u, u ≠ t → probs' !! u = probs !! u) as Hsame.
  { intros u Hu. unfold probs'. destruct (le c' limit); [by apply list_lookup_insert_ne|done]. }
  destruct (IH c' probs' Hnd) as [Hcut Hkeep]; [intros u Hu; rewrite Hlen; apply Hr; by right|].
  assert (∀ less, (∀ u, u ∈ less → u ∈ tokens) →
    fold_left (λ c u, f64_add c (f64_div (default zero (probs' !! u)) total)) less c' =
    fold_left (λ c u, f64_add c (f64_div (default zero (probs !! u)) total)) less c') as Hfold.
  { intros less Hl. generalize c'. clear -Hl Hsame Ht. induction less as [|u less IHl]; intros d; simpl; [done|].
    rewrite (Hsame u) by (intros ->; apply Ht, Hl; by left). apply IHl. intros v ?. apply Hl. by right. }
  destruct (decide (i = t)) as [->|Hi].
  - rewrite Hkeep.
    + unfold probs'. destruct (le c' limit) eqn:El; split.
      * intros _. apply list_lookup_insert_eq. apply Hr. by left.
      * intros []. exists [], tokens. done.
      * intros ([|u less] & more & Heq & Hle); simplify_eq/=;
          [change (le c' limit = true) in Hle; congruence|].
        destruct Ht. apply elem_of_app. right. by left.
      * done.
    + intros (less & more & -> & _). apply Ht, elem_of_app. right. by left.
  - rewrite <- (Hsame i) by done. split; [intros Hx; apply Hcut|intros Hx; apply Hkeep; contradict Hx].
    + destruct Hx as ([|u less] & more & Heq & Hle); simplify_eq/=. exists less, more. split; [done|].
      rewrite Hfold; [done|]. intros v [?| ->%list_elem_of_singleton]%elem_of_app; apply elem_of_app; [by left|].
      right. by left.
    + destruct Hx as (less & more & -> & Hle). exists (t :: less), more. split; [done|]. simpl.
      rewrite Hfold in Hle; [done|]. intros v [?| ->%list_elem_of_singleton]%elem_of_app; apply elem_of_app; [by left|].
      right. by left.
Qed.

(** The weights and the nucleus order, whatever the workspace held. *)
Definition kept (logits : list f32) (config : SamplingConfig) : list nat :=
  if decide (lt (top_p config) one = true) then kept_tokens logits config else [].

Lemma base_weights w logits config tokens : no_nan logits →
  (0 < top_k config < length logits → tokens = sort_tokens logits (seq 0 (length logits))) →
  zip_with (λ _ value, weight config (fold_left float_max logits neg_infinity)
      (top_k_threshold logits config tokens) value) (resize (length logits) zero (probabilities w)) logits =
  top_k_weight logits config <$> logits.
Proof.
  intros Hn Ht. apply list_eq. intros i. rewrite lookup_zip_with, list_lookup_fmap.
  destruct (logits !! i) as [v|] eqn:Ev; simpl; [|by destruct (resize _ _ _ !! i)].
  pose proof (lookup_lt_Some _ _ _ Ev) as Hi.
  destruct (resize (length logits) zero (probabilities w) !! i) eqn:Er.
  2:{ apply lookup_ge_None in Er. rewrite length_resize in Er. lia. }
  simpl. f_equal. unfold weight, top_k_weight.
  assert (is_nan v = false) as Hv by (apply Hn; by eapply list_elem_of_lookup_2).
  pose proof (threshold_top_k logits config v tokens Hn Hv Ht) as Hth.
  destruct (lt v _); [rewrite decide_False by (rewrite <- Hth; done)|rewrite decide_True by tauto]; done.
Qed.

Lemma kept_nonempty logits config : no_nan logits → logits ≠ [] → kept_tokens logits config ≠ [].
Proof.
  intros Hn Hne. assert (0 < length logits) as Hpos by (destruct logits; [done|simpl; lia]).
  destruct (sort_tokens logits (seq 0 (length logits)) !! (length logits - 1)) as [t|] eqn:E.
  2:{ apply lookup_ge_None in E. rewrite length_sort_tokens, length_seq in E. lia. }
  assert (t ∈ seq 0 (length logits)) as Ht.
  { apply list_elem_of_lookup_2 in E. by apply elem_of_sort_tokens in E. }
  assert (t ∈ kept_tokens logits config) as Hk; [|intros Hx; rewrite Hx in Hk; by apply elem_of_nil in Hk].
  apply elem_of_sort_tokens, list_elem_of_filter. split; [|done].
  intros Hc. pose proof (no_nan_logit logits t Hn) as Hv.
  pose proof (threshold_counts logits 1 (logit logits t) t Hn Hv ltac:(lia) E) as Hl.
  rewrite lt_below in Hl by done. pose proof (below_refl (logit logits t)).
  destruct (decide (1 ≤ larger logits (logit logits t))); [|lia]. tauto.
Qed.

Lemma nucleus_order logits config tokens : no_nan logits → tokens ≡ₚ seq 0 (length logits) →
  (0 < top_k config < length logits → tokens = sort_tokens logits (seq 0 (length logits))) →
  sort_tokens logits (filter (λ t, le (top_k_threshold logits config tokens) (logit logits t) = true) tokens) =
  kept_tokens logits config.
Proof.
  intros Hn Hp Ht. apply sort_tokens_permutation; [done|].
  etrans; [apply filter_Permutation, Hp|]. apply reflexive_eq, list_filter_iff. intros t. pose proof (no_nan_logit logits t Hn) as Hv.
  rewrite <- (threshold_top_k logits config _ tokens Hn Hv Ht).
  assert (is_nan (top_k_threshold logits config tokens) = false) as Hnt.
  { unfold top_k_threshold. case_decide; [by apply no_nan_logit|done]. }
  by rewrite lt_false, le_below.
Qed.

Lemma length_cut_tail tokens total limit c probs : length (cut_tail tokens total limit c probs) = length probs.
Proof.
  revert c probs. induction tokens as [|t tokens IH]; intros c probs; simpl; [done|]. rewrite IH.
  destruct (le _ _); [apply length_insert|done].
Qed.

Lemma drops_front logits config front t i : lt (top_p config) one = true →
  kept_tokens logits config = front ++ [t] →
  nucleus_drops logits config i ↔ ∃ less more, front = less ++ i :: more ∧
    le (mass (top_k_weight logits config <$> logits) (less ++ [i])) (f64_sub one (top_p config)) = true.
Proof.
  intros Hnu Hk. unfold nucleus_drops. rewrite Hk. split.
  - intros (_ & less & more & Heq & Hne & Hle). destruct (exists_last Hne) as (more' & u & ->).
    exists less, more'. split; [|done].
    rewrite app_comm_cons, app_assoc in Heq. by apply app_inj_tail in Heq as [-> _].
  - intros (less & more & -> & Hle). split; [done|]. exists less, (more ++ [t]).
    rewrite <- app_assoc. split_and!; [done|by destruct more|done].
Qed.

(** The cut of min-p. *)
Definition min_p_cut (minimum weight : f64) : f64 :=
  if lt zero minimum && lt weight minimum then zero else weight.

Lemma filtered_weights_exact w logits config minimum : no_nan logits → logits ≠ [] →
  ∃ weights tokens,
    filtered_weights w logits (fold_left float_max logits neg_infinity) config minimum =
      Ok (min_p_cut minimum <$> weights, tokens) ∧
    length weights = length logits ∧
    ∀ i v, logits !! i = Some v →
      (nucleus_drops logits config i → weights !! i = Some zero) ∧
      (¬ nucleus_drops logits config i → weights !! i = Some (top_k_weight logits config v)).
Proof.
  intros Hn Hne. unfold filtered_weights.
  set (seq' := seq 0 (length logits)). set (base := if bool_decide _ || _ then seq' else []).
  set (tokens := if bool_decide _ then sort_tokens logits base else base).
  assert (0 < top_k config < length logits → tokens = sort_tokens logits seq') as Ht.
  { intros Hk. unfold tokens, base. by rewrite !bool_decide_true. }
  rewrite base_weights by done. set (weights := top_k_weight logits config <$> logits).
  assert (∀ weights' : list f64, (if lt zero minimum then map (λ p, if lt p minimum then zero else p) weights'
    else weights') = min_p_cut minimum <$> weights') as Hcut.
  { intros weights'. unfold min_p_cut. destruct (lt zero minimum); [done|]. by rewrite list_fmap_id. }
  destruct (lt (top_p config) one) eqn:Hnu.
  - rewrite nucleus_order; [|done| |done].
    2:{ unfold tokens, base. rewrite orb_true_r. case_bool_decide; [apply merge_sort_Permutation|done]. }
    destruct (exists_last (kept_nonempty logits config Hn Hne)) as (front & t & Hkept).
    unfold usize_sub. rewrite decide_True by (rewrite Hkept, length_app; simpl; lia). simpl.
    replace (length (kept_tokens logits config) - 1) with (length front) by (rewrite Hkept, length_app; simpl; lia).
    rewrite Hkept, take_app_length. rewrite Hcut.
    set (cut := cut_tail front _ _ _ _). exists cut, (front ++ [t]). split; [done|].
    assert (NoDup (kept_tokens logits config)) as Hnd.
    { unfold kept_tokens, sort_tokens. rewrite merge_sort_Permutation. apply NoDup_filter, NoDup_seq. }
    rewrite Hkept in Hnd. apply NoDup_app in Hnd as (Hnd & _ & _).
    assert (∀ u, u ∈ front → u < length weights) as Hr.
    { intros u Hu. unfold weights. rewrite length_fmap. assert (u ∈ kept_tokens logits config) as Hk.
      { rewrite Hkept. apply elem_of_app. by left. }
      apply elem_of_sort_tokens, list_elem_of_filter in Hk as [_ Hk]. apply elem_of_seq in Hk. lia. }
    split; [unfold cut, weights; by rewrite length_cut_tail, length_fmap|].
    intros i v Hi. destruct (cut_tail_lookup front (f64_sum weights) (f64_sub one (top_p config)) zero weights i Hnd Hr)
      as [Hdrop Hkeep]. fold cut in Hdrop, Hkeep. rewrite (drops_front _ _ front t i Hnu Hkept). split; [done|].
    intros Hx. rewrite Hkeep by done. unfold weights. by rewrite list_lookup_fmap, Hi.
  - simpl. exists weights, tokens. rewrite Hcut. split; [done|]. split; [apply length_fmap|].
    intros i v Hi. split; [intros [Hx _]; congruence|]. intros _. unfold weights.
    by rewrite list_lookup_fmap, Hi.
Qed.

Lemma eq_infinity v s : eq v (S754_infinity s) = true ↔ v = S754_infinity s.
Proof. destruct v as [[]|[]| |[]], s; by vm_compute. Qed.

Lemma float_max_masked a b : is_nan a = false → is_nan b = false →
  is_nan (float_max a b) = false ∧ (float_max a b = neg_infinity ↔ a = neg_infinity ∧ b = neg_infinity).
Proof.
  intros Ha Hb. unfold float_max. rewrite Ha. destruct (lt a b) eqn:E.
  - split; [done|]. split; [intros ->|by intros [_ ?]]. by destruct a as [|[]| |].
  - split; [done|]. split; [intros ->|by intros [? _]]. by destruct b as [[]|[]| |[]].
Qed.

Lemma maximum_masked logits m : no_nan logits → is_nan m = false →
  is_nan (fold_left float_max logits m) = false ∧
  (fold_left float_max logits m = neg_infinity ↔ m = neg_infinity ∧ Forall (λ v, v = neg_infinity) logits).
Proof.
  revert m. induction logits as [|v logits IH]; intros m Hn Hm; simpl.
  { split; [done|]. split; [by split|by intros [? _]]. }
  assert (is_nan v = false) as Hv by (apply Hn; by left).
  destruct (float_max_masked m v Hm Hv) as [Hnm Hmax].
  destruct (IH (float_max m v)) as [? ->]; [intros u ?; apply Hn; by right|done|]. split; [done|].
  rewrite Hmax, Forall_cons. tauto.
Qed.

Lemma checked_maximum_spec logits m :
  match checked_maximum logits m with
  | Ok x => x = fold_left float_max logits m ∧ no_nan logits ∧ S754_infinity false ∉ logits
  | Err _ => ¬ (no_nan logits ∧ S754_infinity false ∉ logits)
  | Panic _ => False
  end.
Proof.
  revert m. induction logits as [|v logits IH]; intros m; simpl.
  { split_and!; [done|by intros ? ?%elem_of_nil|by intros ?%elem_of_nil]. }
  destruct (is_nan v || eq v (S754_infinity false)) eqn:E.
  - intros [Hn Hi]. apply orb_true_iff in E as [E|E].
    + rewrite (Hn v) in E; [done|by left].
    + apply eq_infinity in E as ->. apply Hi. by left.
  - apply orb_false_iff in E as [Hv Hi]. specialize (IH (float_max m v)).
    destruct (checked_maximum _ _).
    + destruct IH as (-> & Hn & Hni). split_and!; [done|by intros u [->|?]%elem_of_cons; [|apply Hn]|].
      intros [Hx|?]%elem_of_cons; [|done]. apply not_true_iff_false in Hi. by apply Hi, eq_infinity.
    + intros [Hn Hni]. apply IH. split; [intros u ?; apply Hn; by right|]. intros ?. apply Hni. by right.
    + done.
Qed.

(** What a sampler can be asked to sample from. *)
Definition samplable (logits : list f32) (config : SamplingConfig) : Prop :=
  validate_sampling config = Ok tt ∧ logits ≠ [] ∧ (Z.of_nat (length logits) - 1 ≤ i32_max)%Z ∧
  no_nan logits ∧ S754_infinity false ∉ logits ∧ ¬ Forall (λ v, v = neg_infinity) logits.

Lemma validate_sampling_safe config p : validate_sampling config ≠ Panic p.
Proof. unfold validate_sampling. by repeat case_match. Qed.

Lemma fill_with_min_p_spec w logits config minimum :
  match fill_with_min_p w logits config minimum with
  | (Ok probs, w') => samplable logits config ∧ probabilities w' = probs ∧
      ∃ weights, length weights = length logits ∧
        (∀ i v, logits !! i = Some v →
          (nucleus_drops logits config i → weights !! i = Some zero) ∧
          (¬ nucleus_drops logits config i → weights !! i = Some (top_k_weight logits config v))) ∧
        let cut := min_p_cut minimum <$> weights in probs = (λ p, f64_div p (f64_sum cut)) <$> cut
  | (Err _, w') => w' = w ∧ ¬ samplable logits config
  | (Panic _, _) => False
  end.
Proof.
  unfold fill_with_min_p, samplable. pose proof (validate_sampling_safe config) as Hsafe.
  destruct (validate_sampling config) as [[]|e|p]; cbn [res_bind]; [|split; [done|by intros [? _]]|by destruct (Hsafe p)].
  case_decide as Hv; [split; [done|]; intros (_ & ? & ? & _); destruct Hv; [done|lia]|].
  pose proof (checked_maximum_spec logits neg_infinity) as Hc.
  destruct (checked_maximum _ _) as [m|e|p]; cbn [res_bind]; [|split; [done|tauto]|done].
  destruct Hc as (-> & Hn & Hi). destruct (maximum_masked logits neg_infinity Hn eq_refl) as [_ Hm].
  destruct (eq _ neg_infinity) eqn:E.
  - apply eq_infinity in E. split; [done|]. intros (_ & _ & _ & _ & _ & Hf). apply Hf. by apply Hm.
  - destruct (filtered_weights_exact w logits config minimum Hn) as (weights & tokens & -> & Hlen & Hw);
      [tauto|]. cbn [probabilities]. split_and!; try done; [tauto|lia| |].
    + intros Hf. apply not_true_iff_false in E. apply E, eq_infinity, Hm. done.
    + by exists weights.
Qed.
(** Claim C33.  The filtered distribution, token by token, on IEEE data and whatever
    the reused workspace held.  It is refused, leaving the workspace alone, exactly
    for invalid options, an empty or too large vocabulary, NaN or positive infinity,
    or when every token is masked; it never panics.  Otherwise a token keeps its
    weight exp((logit - max) / temperature) unless at least [top_k] tokens are
    strictly more likely, or the nucleus leaves it out, or min-p cuts it; ties at
    the k-th place stay; and the weights are divided by their sum. *)
Theorem filtered_distribution_exact w logits config minimum :
  match fill_with_min_p w logits config minimum with
  | (Ok probs, w') => samplable logits config ∧ probabilities w' = probs ∧
      ∃ weights, length weights = length logits ∧
        (∀ i v, logits !! i = Some v →
          (nucleus_drops logits config i → weights !! i = Some zero) ∧
          (¬ nucleus_drops logits config i → weights !! i = Some (top_k_weight logits config v))) ∧
        let cut := min_p_cut minimum <$> weights in probs = (λ p, f64_div p (f64_sum cut)) <$> cut
  | (Err _, w') => w' = w ∧ ¬ samplable logits config
  | (Panic _, _) => False
  end.
Proof. apply fill_with_min_p_spec. Qed.
End Distribution.
