(* ===== verification/SamplingDraw.v ===== *)
(** * Draws, penalties and sampler state

    The tokens [sample_with_history], [propose] and [verify_draft] choose are given
    by inverse CDFs; the penalties are given value by value; a sampler's durable
    state gives back the same sampler. *)
From S2P Require Import Prelude Float GenerationControl Sampling SamplingSpec.
Open Scope nat_scope.

(** ** Inverse CDFs *)
Section Pick.
(** The probabilities that count, and the drawn number. *)
Context (counts : f64 → bool) (u : f64).

Definition grow (c p : f64) : f64 := if counts p then f64_add c p else c.

(** The mass of the counting probabilities up to index [j], from [c]. *)
Definition cdf (c : f64) (probs : list f64) (j : nat) : f64 := fold_left grow (take (S j) probs) c.

Definition counted (probs : list f64) (j : nat) : Prop := ∃ p, probs !! j = Some p ∧ counts p = true.
Definition reached (c : f64) (probs : list f64) (j : nat) : Prop :=
  counted probs j ∧ lt u (cdf c probs j) = true.

(** The first index whose mass exceeds [u], else the last that counts. *)
Definition picked (c : f64) (probs : list f64) (j : nat) : Prop :=
  counted probs j ∧ (∀ k, k < j → ¬ reached c probs k) ∧
  (reached c probs j ∨ ∀ k, j < k → ¬ counted probs k).

Fixpoint pick (index : nat) (probs : list f64) (c : f64) (last : option nat) : option nat :=
  match probs with
  | [] => last
  | p :: rest =>
      if counts p then
        if lt u (f64_add c p) then Some index else pick (S index) rest (f64_add c p) (Some index)
      else pick (S index) rest c last
  end.

Lemma counted_cons p probs j : counted (p :: probs) (S j) ↔ counted probs j.
Proof. done. Qed.
Lemma reached_cons c p probs j : reached c (p :: probs) (S j) ↔ reached (grow c p) probs j.
Proof. done. Qed.

Lemma pick_spec probs index c last :
  (∃ j, pick index probs c last = Some (index + j) ∧ picked c probs j) ∨
  pick index probs c last = last ∧ ∀ j, ¬ counted probs j.
Proof.
  revert index c last. induction probs as [|p probs IH]; intros index c last; simpl.
  { right. split; [done|]. intros j (p & Hp & _). by rewrite lookup_nil in Hp. }
  assert (∀ d l j, pick (S index) probs (grow c p) l = Some (S index + j) → picked (grow c p) probs j →
    ¬ reached c (p :: probs) 0 → d = pick (S index) probs (grow c p) l →
    ∃ j, d = Some (index + j) ∧ picked c (p :: probs) j) as Hstep.
  { intros d l j Hd (Hc & Hbefore & Hend) H0 ->. exists (S j). split; [rewrite Hd; f_equal; lia|].
    split_and!; [done| |].
    - intros [|k] Hk; [done|]. rewrite reached_cons. apply Hbefore. lia.
    - rewrite reached_cons. destruct Hend as [?|Hend]; [by left|right]. intros [|k] Hk; [lia|].
      rewrite counted_cons. apply Hend. lia. }
  destruct (counts p) eqn:Ep; [destruct (lt u (f64_add c p)) eqn:El|].
  - left. exists 0. split; [f_equal; lia|]. assert (counted (p :: probs) 0) as Hc by (by exists p).
    split_and!; [done|lia|left]. split; [done|]. unfold cdf, grow. simpl. by rewrite Ep.
  - assert (¬ reached c (p :: probs) 0) as H0.
    { intros [_ Hx]. unfold cdf, grow in Hx. simpl in Hx. rewrite Ep in Hx. simpl in Hx. congruence. }
    assert (grow c p = f64_add c p) as Hg by (unfold grow; by rewrite Ep). rewrite <- Hg.
    left. destruct (IH (S index) (grow c p) (Some index)) as [(j & Hd & Hp)|[Hd Hn]]; [by eapply Hstep|].
    exists 0. split; [rewrite Hd; f_equal; lia|]. split_and!; [by exists p|lia|right]. intros [|k] Hk; [lia|].
    rewrite counted_cons. apply Hn.
  - assert (¬ reached c (p :: probs) 0) as H0 by (intros [(q & [= <-] & Hq) _]; congruence).
    assert (grow c p = c) as Hg by (unfold grow; by rewrite Ep).
    destruct (IH (S index) (grow c p) last) as [(j & Hd & Hp)|[Hd Hn]]; rewrite Hg in *.
    + left. rewrite <- Hg in *. by eapply Hstep.
    + right. split; [done|]. intros [|j]; [|by rewrite counted_cons]. intros (q & [= <-] & Hq). congruence.
Qed.
End Pick.

Definition nonzero (p : f64) : bool := negb (eq p zero).
Definition positive (p : f64) : bool := lt zero p.

Lemma sample_loop_pick u index probs c last :
  sample_loop u index probs c last = pick nonzero u index probs c last.
Proof.
  revert index c last. induction probs as [|p probs IH]; intros index c last; simpl; [done|].
  unfold nonzero. destruct (eq p zero); simpl; [apply IH|]. destruct (lt _ _); [done|apply IH].
Qed.

Lemma draw_loop_pick u index probs c last :
  draw_loop u index probs c last = pick positive u index probs c last.
Proof.
  revert index c last. induction probs as [|p probs IH]; intros index c last; simpl; [done|].
  unfold positive. destruct (lt zero p); simpl; [|apply IH]. destruct (lt _ _); [done|apply IH].
Qed.

(** The distributions [draw] accepts, and what it draws. *)
Definition drawable (probs : list f64) : Prop :=
  is_finite (f64_sum probs) = true ∧ le (f64_sum probs) zero = false.

Lemma draw_spec probs u :
  match draw probs u with
  | Ok t => drawable probs ∧ ∃ i, t = Z.of_nat i ∧ picked positive (f64_mul u (f64_sum probs)) zero probs i
  | Err _ => ¬ drawable probs
  | Panic p => p = Expect ∧ drawable probs ∧ ∀ i, ¬ counted positive probs i
  end.
Proof.
  unfold draw, drawable. destruct (is_finite (f64_sum probs)); simpl; [|by intros []].
  destruct (le (f64_sum probs) zero); [by intros []|]. rewrite draw_loop_pick.
  destruct (pick_spec positive (f64_mul u (f64_sum probs)) probs 0 zero None) as [(j & -> & Hp)|[-> Hn]]; simpl.
  - split; [done|]. by exists j.
  - done.
Qed.

Lemma counted_lt counts probs i : counted counts probs i → i < length probs.
Proof. intros (p & Hp & _). by eapply lookup_lt_Some. Qed.

(** ** Penalties *)

(** How often an index occurs in a list of tokens. *)
Definition occurrences (tokens : list Z) (i : nat) : nat := length (filter (λ t, t = Z.of_nat i) tokens).

Definition penalized_value (o : SamplingOptions) (prompt generated : list Z) (i : nat) (value : f32) : f32 :=
  let value :=
    if decide (eq (repetition_penalty o) one = false ∧ Z.of_nat i ∈ prompt ++ generated) then
      repeat_penalty (as_f32 (repetition_penalty o)) value true
    else value in
  if decide ((eq (presence_penalty o) zero = false ∨ eq (frequency_penalty o) zero = false) ∧
             0 < occurrences generated i ∧ is_finite value = true) then
    f32_sub value (count_penalty o (N.of_nat (occurrences generated i)))
  else value.

Lemma length_omap_le {A B} (f : A → option B) (l : list A) : length (omap f l) ≤ length l.
Proof. induction l as [|x l IH]; simpl; [done|]. unfold omap in *. destruct (f x); simpl; lia. Qed.

Lemma vocabulary_indices vocab (tokens : list Z) i : i < vocab →
  i ∈ omap (vocabulary_index vocab) tokens ↔ Z.of_nat i ∈ tokens.
Proof.
  intros Hi. rewrite list_elem_of_omap. unfold vocabulary_index. split.
  - intros (t & Ht & Hx). case_decide; [|done]. injection Hx as <-. by rewrite Z2Nat.id by lia.
  - intros Ht. exists (Z.of_nat i). split; [done|]. rewrite decide_True by lia. f_equal. lia.
Qed.

Lemma mark_lookup (indices : list nat) seen i : i < length seen →
  fold_left (λ seen index, <[index := true]> seen) indices seen !! i =
  if decide (i ∈ indices) then Some true else seen !! i.
Proof.
  revert seen. induction indices as [|j indices IH]; intros seen Hs; cbn [fold_left].
  { rewrite decide_False; [done|]. by intros ?%elem_of_nil. }
  rewrite IH by (by rewrite length_insert). destruct (decide (i = j)) as [->|Hij].
  - rewrite (decide_True (P := j ∈ j :: indices)) by (by left). case_decide; [done|].
    by apply list_lookup_insert_eq.
  - rewrite list_lookup_insert_ne by done.
    destruct (decide (i ∈ indices)); [rewrite decide_True by (by right)|rewrite decide_False]; try done.
    by intros [?|?]%elem_of_cons.
Qed.

Lemma length_mark_seen vocab tokens : length (mark_seen vocab tokens) = vocab.
Proof.
  unfold mark_seen. set (indices := omap _ _). clearbody indices.
  rewrite <- (length_replicate vocab false) at 2. generalize (replicate vocab false) as seen.
  induction indices as [|j indices IH]; intros seen; simpl; [done|]. by rewrite IH, length_insert.
Qed.

Lemma mark_seen_lookup vocab (tokens : list Z) i : i < vocab →
  mark_seen vocab tokens !! i = Some (bool_decide (Z.of_nat i ∈ tokens)).
Proof.
  intros Hi. unfold mark_seen. rewrite mark_lookup by (by rewrite length_replicate).
  rewrite lookup_replicate_2 by done. case_decide as Hx; rewrite vocabulary_indices in Hx by done.
  - by rewrite bool_decide_true.
  - by rewrite bool_decide_false.
Qed.

Lemma count_tokens_spec indices counts :
  match count_tokens indices counts with
  | Ok m => ∀ i, default 0%N (m !! N.of_nat i) =
                 (default 0%N (counts !! N.of_nat i) + N.of_nat (length (filter (λ j, j = i) indices)))%N ∧
      (is_Some (m !! N.of_nat i) ↔ is_Some (counts !! N.of_nat i) ∨ i ∈ indices)
  | Err _ => False
  | Panic p => p = Overflow ∧ ∃ i, (2 ^ 32 ≤ default 0 (counts !! N.of_nat i) + N.of_nat (length indices))%N
  end.
Proof.
  revert counts. induction indices as [|j indices IH]; intros counts; simpl.
  { intros i. rewrite N.add_0_r. split; [done|]. split; [by left|by intros [?|?%elem_of_nil]]. }
  case_decide as Ho; [split; [done|]; exists j; lia|].
  specialize (IH (<[N.of_nat j := (default 0 (counts !! N.of_nat j) + 1)%N]> counts)).
  destruct (count_tokens _ _) as [m|e|p]; [|done|].
  - intros i. destruct (IH i) as [-> ->]. destruct (decide (i = j)) as [->|Hij].
    + rewrite lookup_insert_eq, filter_cons_True by done. simpl. split; [lia|]. rewrite elem_of_cons. naive_solver.
    + rewrite lookup_insert_ne, filter_cons_False by (done || lia). split; [done|]. rewrite elem_of_cons. naive_solver.
  - destruct IH as [-> [i Hi]]. split; [done|]. destruct (decide (i = j)) as [->|Hij].
    + rewrite lookup_insert_eq in Hi. exists j. simpl in Hi. lia.
    + rewrite lookup_insert_ne in Hi by lia. exists i. lia.
Qed.

Lemma occurrences_indices vocab (tokens : list Z) i : i < vocab →
  length (filter (λ j, j = i) (omap (vocabulary_index vocab) tokens)) = occurrences tokens i.
Proof.
  intros Hi. unfold occurrences. induction tokens as [|t tokens IH]; [done|]. simpl.
  change (list_omap Z nat (vocabulary_index vocab) tokens) with (omap (vocabulary_index vocab) tokens).
  unfold vocabulary_index at 1. case_decide as Ht.
  - destruct (decide (t = Z.of_nat i)) as [->|Hti].
    + rewrite !filter_cons_True by lia. simpl. by rewrite IH.
    + rewrite !filter_cons_False by lia. done.
  - rewrite filter_cons_False by lia. done.
Qed.

(** Subtracting the counted penalties touches each counted index once. *)
Lemma subtract_counts_lookup o entries output i : NoDup entries.*1 →
  fold_left (subtract_counts o) entries output !! i =
  match list_find (λ e, e.1 = N.of_nat i) entries with
  | Some (_, e) => (λ v, if is_finite v then f32_sub v (count_penalty o e.2) else v) <$> output !! i
  | None => output !! i
  end.
Proof.
  revert output. induction entries as [|[k c] entries IH]; intros output Hnd; simpl; [done|].
  apply NoDup_cons in Hnd as [Hk Hnd]. rewrite IH by done. unfold subtract_counts. simpl.
  destruct (decide (k = N.of_nat i)) as [->|Hki].
  - rewrite Nat2N.id, list_lookup_alter_eq. destruct (list_find _ entries) as [[n e]|] eqn:E; [|done].
    apply list_find_Some in E as (He & Hi & _). simpl in Hi. destruct Hk.
    apply list_elem_of_fmap. exists e. split; [done|]. by eapply list_elem_of_lookup_2.
  - rewrite list_lookup_alter_ne by lia.
    by destruct (list_find _ entries) as [[n e]|].
Qed.

Lemma length_subtract_counts o entries output :
  length (fold_left (subtract_counts o) entries output) = length output.
Proof.
  revert output. induction entries as [|e entries IH]; intros output; simpl; [done|]. rewrite IH. apply length_alter.
Qed.

Lemma list_find_entry (m : gmap N N) k :
  match list_find (λ e, e.1 = k) (btree_iter m) with
  | Some (_, e) => m !! k = Some e.2
  | None => m !! k = None
  end.
Proof.
  destruct (list_find _ _) as [[n [k' c]]|] eqn:E.
  - apply list_find_Some in E as (He & Hk & _). simpl in *. subst k'.
    apply elem_of_btree_iter. by eapply list_elem_of_lookup_2.
  - apply list_find_None in E. rewrite Forall_forall in E. destruct (m !! k) as [c|] eqn:Hm; [|done].
    apply elem_of_btree_iter in Hm. by destruct (E _ Hm).
Qed.

Lemma repetition_lookup o logits prompt generated i v : logits !! i = Some v →
  (if negb (eq (repetition_penalty o) one) then
     zip_with (repeat_penalty (as_f32 (repetition_penalty o))) logits
       (mark_seen (length logits) (prompt ++ generated))
   else logits) !! i =
  Some (if decide (eq (repetition_penalty o) one = false ∧ Z.of_nat i ∈ prompt ++ generated) then
          repeat_penalty (as_f32 (repetition_penalty o)) v true
        else v).
Proof.
  intros Hv. pose proof (lookup_lt_Some _ _ _ Hv) as Hi. destruct (eq (repetition_penalty o) one); cbn [negb].
  - by rewrite decide_False by (by intros []).
  - rewrite lookup_zip_with, Hv, mark_seen_lookup by done. cbn. case_bool_decide.
    + by rewrite decide_True.
    + by rewrite decide_False by (by intros []).
Qed.

Lemma penalized_logits_spec logits o prompt generated :
  match penalized_logits logits o prompt generated with
  | Ok out => length out = length logits ∧
      ∀ i v, logits !! i = Some v → out !! i = Some (penalized_value o prompt generated i v)
  | Err _ => False
  | Panic p => p = Overflow ∧ (2 ^ 32 ≤ N.of_nat (length generated))%N
  end.
Proof.
  unfold penalized_logits. set (output := if negb (eq (repetition_penalty o) one) then _ else _).
  assert (length output = length logits) as Hlen.
  { unfold output. destruct (negb _); [|done]. rewrite length_zip_with.
    rewrite Nat.min_l; [done|]. by rewrite length_mark_seen. }
  assert (∀ i v, logits !! i = Some v → _) as Hout by (intros i v; apply (repetition_lookup o logits prompt generated)).
  fold output in Hout. unfold penalized_value.
  destruct (negb (eq (presence_penalty o) zero) || negb (eq (frequency_penalty o) zero)) eqn:Ec.
  - pose proof (count_tokens_spec (omap (vocabulary_index (length logits)) generated) ∅) as Hc.
    destruct (count_tokens _ _) as [m|e|p]; simpl; [|done|].
    + split.
      { by rewrite length_subtract_counts. }
      intros i v Hv. rewrite subtract_counts_lookup by apply NoDup_btree_keys. rewrite (Hout i v Hv).
      pose proof (lookup_lt_Some _ _ _ Hv) as Hi. destruct (Hc i) as [Hn Hs].
      rewrite lookup_empty, occurrences_indices in Hn by done.
      rewrite lookup_empty in Hs. change (default 0%N None) with 0%N in Hn. rewrite N.add_0_l in Hn.
      pose proof (list_find_entry m (N.of_nat i)) as Hf.
      assert ((eq (presence_penalty o) zero = false ∨ eq (frequency_penalty o) zero = false) ↔ True) as Hcount.
      { apply orb_true_iff in Ec. rewrite !negb_true_iff in Ec. tauto. }
      set (v1 := if decide (_ ∧ _) then _ else v). clearbody v1.
      destruct (list_find _ _) as [[n e]|]; rewrite Hf in Hn, Hs.
      * change (e.2 = N.of_nat (occurrences generated i)) in Hn. cbn. rewrite Hn. destruct (is_finite v1) eqn:Efin.
        -- rewrite decide_True; [done|]. split; [tauto|]. split; [|done].
           destruct (proj1 Hs) as [[? ?]|Hin]; [by eexists|done|].
           rewrite <- (occurrences_indices (length logits)) by done.
           destruct (filter _ _) eqn:Ef; [|simpl; lia]. exfalso.
           assert (i ∈ filter (λ j, j = i) (omap (vocabulary_index (length logits)) generated)) as Hx
             by (by apply list_elem_of_filter). rewrite Ef in Hx. by apply elem_of_nil in Hx.
        -- rewrite decide_False; [done|]. by intros (_ & _ & ?).
      * rewrite decide_False; [done|]. intros (_ & Hpos & _). change (0%N = N.of_nat (occurrences generated i)) in Hn. lia.
    + destruct Hc as [-> [i Hi]]. split; [done|]. rewrite lookup_empty in Hi. change (default 0%N None) with 0%N in Hi.
      pose proof (length_omap_le (vocabulary_index (length logits)) generated). lia.
  - apply orb_false_elim in Ec as [Hp%negb_false_iff Hf%negb_false_iff]. split; [done|]. intros i v Hv.
    rewrite (Hout i v Hv), Hp, Hf. rewrite (decide_False (P := (_ ∨ _) ∧ _)); [done|]. by intros [[?|?] _].
Qed.

(** The penalties act on each logit alone: a token of the prompt or of
    the generated text is divided (or, when not positive, multiplied) by the
    repetition penalty, and a generated token then loses the presence penalty plus
    the frequency penalty per occurrence; masked and other logits stay.  The count
    of a token cannot overflow before 2^32 generated tokens. *)
Theorem penalized_logits_exact logits o prompt generated :
  match penalized_logits logits o prompt generated with
  | Ok out => length out = length logits ∧
      ∀ i v, logits !! i = Some v → out !! i = Some (penalized_value o prompt generated i v)
  | Err _ => False
  | Panic p => p = Overflow ∧ (2 ^ 32 ≤ N.of_nat (length generated))%N
  end.
Proof. apply penalized_logits_spec. Qed.

(** ** Sampled tokens *)
Section Sampler.
Context `{Exponential, Randomness}.

(** The logits a sampler filters, and its distribution over them. *)
Definition sampler_values (s : TokenSampler) (logits : list f32) (prompt generated : list Z) : Gen (list f32) :=
  if has_penalties (sm_options s) then penalized_logits logits (sm_options s) prompt generated else Ok logits.

Definition distribution (s : TokenSampler) (values : list f32) : Gen (list f64) :=
  (fill_with_min_p (sm_workspace s) values (sm_config s) (min_p (sm_options s))).1.

(** Two samplers that differ in scratch buffers and random position only. *)
Definition same_settings (s s' : TokenSampler) : Prop :=
  sm_config s' = sm_config s ∧ sm_options s' = sm_options s.

Lemma distribution_spec s values :
  match distribution s values with
  | Ok probs => length probs = length values ∧ samplable values (sm_config s)
  | Err _ => ¬ samplable values (sm_config s)
  | Panic _ => False
  end.
Proof.
  unfold distribution.
  pose proof (fill_with_min_p_spec (sm_workspace s) values (sm_config s) (min_p (sm_options s))) as Hf.
  destruct (fill_with_min_p _ _ _ _) as [[probs|e|p] w]; [|by destruct Hf|done].
  destruct Hf as (Hs & _ & weights & Hlen & _ & ->). split; [|done]. by rewrite !length_fmap.
Qed.

Lemma sampler_fill_eq s values :
  ∃ w, sampler_fill values s = (distribution s values, mk_sampler (sm_config s) (sm_options s) (sm_rng s) w).
Proof. by eexists. Qed.

(** A sampled token is the inverse CDF, at one random number, of the
    filtered distribution of the penalized logits: the first token of nonzero
    probability whose cumulative mass exceeds the number, else the last one.  It is
    in the vocabulary, the settings stay, and the generator advances by exactly one
    draw; a refusal draws nothing.  It can only panic when every probability is
    zero or a token was counted 2^32 times. *)
Theorem sample_with_history_exact s logits prompt generated :
  match sample_with_history logits prompt generated s with
  | (Ok t, s') => ∃ values probs i, sampler_values s logits prompt generated = Ok values ∧
      distribution s values = Ok probs ∧ t = Z.of_nat i ∧ i < length logits ∧
      picked nonzero (random (sm_rng s)).1 zero probs i ∧
      sm_rng s' = (random (sm_rng s)).2 ∧ same_settings s s'
  | (Err _, s') => sm_rng s' = sm_rng s ∧ same_settings s s' ∧
      ∃ values, sampler_values s logits prompt generated = Ok values ∧ ¬ samplable values (sm_config s)
  | (Panic p, _) => p = Overflow ∧ (2 ^ 32 ≤ N.of_nat (length generated))%N ∨
      p = Expect ∧ ∃ values probs, sampler_values s logits prompt generated = Ok values ∧
        distribution s values = Ok probs ∧ ∀ i, ¬ counted nonzero probs i
  end.
Proof.
  unfold sample_with_history. erewrite bind_ok by done.
  pose proof (penalized_logits_spec logits (sm_options s) prompt generated) as Hpen.
  assert ((if has_penalties (sm_options s) then mlift (penalized_logits logits (sm_options s) prompt generated)
           else mret logits) s = (sampler_values s logits prompt generated, s)) as Hv.
  { unfold sampler_values. by destruct (has_penalties _). }
  assert (match sampler_values s logits prompt generated with
    | Ok values => length values = length logits
    | Err _ => False
    | Panic p => p = Overflow ∧ (2 ^ 32 ≤ N.of_nat (length generated))%N end) as Hlen.
  { unfold sampler_values. destruct (has_penalties _); [|done].
    destruct (penalized_logits _ _ _ _); [apply Hpen|done..]. }
  destruct (sampler_values s logits prompt generated) as [values|e|p]; [|done|].
  2:{ unfold mbind'. rewrite Hv. by left. }
  rewrite (bind_ok _ _ _ _ _ Hv). destruct (sampler_fill_eq s values) as [w Hw].
  pose proof (distribution_spec s values) as Hd. set (s1 := mk_sampler _ _ _ w) in Hw.
  destruct (distribution s values) as [probs|e|p] eqn:Ed; [|rewrite (bind_err _ _ _ _ _ Hw)|done].
  - destruct Hd as [Hl Hs]. rewrite (bind_ok _ _ _ _ _ Hw). erewrite bind_ok by done. rewrite sample_loop_pick.
    destruct (pick_spec nonzero (random (sm_rng s)).1 probs 0 zero None) as [(i & Hi & Hp)|[Hi Hn]].
    + change (sm_rng s1) with (sm_rng s). rewrite Hi. exists values, probs, i. split_and!; try done.
      rewrite <- Hlen, <- Hl. by apply (counted_lt nonzero), Hp.
    + change (sm_rng s1) with (sm_rng s). rewrite Hi. right. split; [done|]. by exists values, probs.
  - split_and!; [done|done|]. by exists values.
Qed.

(** ** Draft verification *)

(** A draft [candidate] drawn from [q], the distribution the draft model reported. *)
Definition valid_draft (candidate : Z) (q : list f64) (logits : list f32) : Prop :=
  (0 ≤ candidate)%Z ∧ length q = length logits ∧ (∀ x, x ∈ q → is_finite x = true ∧ lt x zero = false) ∧
  ∃ qc, q !! Z.to_nat candidate = Some qc ∧ le qc zero = false.

Lemma verify_guard candidate q logits :
  bool_decide (candidate < 0)%Z || bool_decide (length q ≤ Z.to_nat candidate) ||
    bool_decide (length q ≠ length logits) || existsb (λ x, negb (is_finite x) || lt x zero) q ||
    le (default zero (q !! Z.to_nat candidate)) zero = false ↔ valid_draft candidate q logits.
Proof.
  unfold valid_draft. rewrite !orb_false_iff, !bool_decide_eq_false. split.
  - intros ((((Hc & Hi) & Hl) & Hq) & Hqc). split_and!; [lia|by apply dec_stable| |].
    + intros x Hx. apply not_true_iff_false in Hq. rewrite existsb_exists in Hq.
      assert (negb (is_finite x) || lt x zero = false) as Hf.
      { apply not_true_iff_false. intros ?. apply Hq. exists x. split; [by apply list_elem_of_In|done]. }
      apply orb_false_iff in Hf as [?%negb_false_iff ?]. done.
    + destruct (lookup_lt_is_Some_2 q (Z.to_nat candidate)) as [qc Hqc']; [lia|]. rewrite Hqc' in *. by exists qc.
  - intros (Hc & Hl & Hq & qc & Hqc & Hpos). pose proof (lookup_lt_Some _ _ _ Hqc). rewrite Hqc. simpl.
    split_and!; [lia|lia|by intros []| |done]. apply not_true_iff_false. rewrite existsb_exists.
    intros (x & Hx%list_elem_of_In & Hf). destruct (Hq x Hx) as [Hfin Hlt]. by rewrite Hfin, Hlt in Hf.
Qed.

Lemma positive_residual p q i : counted positive (residual p q) i →
  ∃ a b, p !! i = Some a ∧ q !! i = Some b ∧ lt zero (f64_sub a b) = true.
Proof.
  intros (r & Hr & Hpos). unfold residual in Hr. apply lookup_zip_with_Some in Hr as (a & b & -> & Ha & Hb).
  exists a, b. split_and!; [done|done|]. unfold positive, float_max in Hpos.
  destruct (is_nan (f64_sub a b)); [done|]. by destruct (lt (f64_sub a b) zero).
Qed.

(** Claim C36.  Draft verification is rejection sampling against the filtered target
    distribution [p].  A draft is accepted when the random number is below
    min(1, p/q) at it; otherwise a second number draws the replacement, by inverse
    CDF, from max(p - q, 0), so a replacement is a vocabulary token to which the
    target gives more mass than the draft did.  Invalid drafts and refused logits
    are errors that draw nothing. *)
Theorem verify_draft_exact s candidate q logits :
  let u1 := random (sm_rng s) in
  let u2 := random u1.2 in
  match verify_draft candidate q logits s with
  | (Ok (t, accepted), s') => valid_draft candidate q logits ∧ same_settings s s' ∧
      ∃ p pc qc, distribution s logits = Ok p ∧
        p !! Z.to_nat candidate = Some pc ∧ q !! Z.to_nat candidate = Some qc ∧
        accepted = lt u1.1 (float_min (f64_div pc qc) one) ∧
        if accepted then t = candidate ∧ sm_rng s' = u1.2
        else sm_rng s' = u2.2 ∧ ∃ i a b, t = Z.of_nat i ∧
          picked positive (f64_mul u2.1 (f64_sum (residual p q))) zero (residual p q) i ∧
          p !! i = Some a ∧ q !! i = Some b ∧ lt zero (f64_sub a b) = true
  | (Err _, s') => same_settings s s' ∧
      (sm_rng s' = sm_rng s ∧ (¬ valid_draft candidate q logits ∨ ¬ samplable logits (sm_config s)) ∨
       ∃ p, distribution s logits = Ok p ∧ ¬ drawable (residual p q))
  | (Panic e, _) => e = Expect ∧ ∃ p, distribution s logits = Ok p ∧ drawable (residual p q) ∧
      ∀ i, ¬ counted positive (residual p q) i
  end.
Proof.
  cbv zeta. unfold verify_draft. pose proof (verify_guard candidate q logits) as Hg.
  destruct (_ || le _ zero) eqn:Eg.
  { split; [done|]. left. split; [done|]. left. rewrite <- Hg. congruence. }
  assert (valid_draft candidate q logits) as Hv by (by apply Hg). destruct Hv as (Hc & Hl & Hq & qc & Hqc & Hpos).
  destruct (sampler_fill_eq s logits) as [w Hw]. pose proof (distribution_spec s logits) as Hd.
  set (s1 := mk_sampler _ _ _ w) in Hw.
  destruct (distribution s logits) as [p|e|?] eqn:Ed; [|rewrite (bind_err _ _ _ _ _ Hw)|done].
  2:{ split; [done|]. left. split; [done|]. by right. }
  destruct Hd as [Hlp _]. rewrite (bind_ok _ _ _ _ _ Hw). erewrite bind_ok by done.
  destruct (lookup_lt_is_Some_2 p (Z.to_nat candidate)) as [pc Hpc].
  { apply lookup_lt_Some in Hqc. lia. }
  rewrite Hpc, Hqc. erewrite bind_ok by done. erewrite bind_ok by done.
  change (sm_rng s1) with (sm_rng s). destruct (lt _ (float_min _ _)) eqn:Ea.
  - split; [by apply Hg|]. split; [done|]. by exists p, pc, qc.
  - erewrite bind_ok by done. cbn [sm_rng].
    pose proof (draw_spec (residual p q) (random (random (sm_rng s)).2).1) as Hdr.
    unfold mbind', mlift. change (sm_rng s1) with (sm_rng s).
    destruct (draw (residual p q) _) as [t|e|pp].
    + destruct Hdr as [_ (i & -> & Hp)]. split; [by apply Hg|]. split; [done|]. exists p, pc, qc. split_and!; try done.
      destruct (positive_residual p q i (proj1 Hp)) as (a & b & Ha & Hb & Hlt). by exists i, a, b.
    + split; [done|]. right. by exists p.
    + destruct Hdr as (-> & Hdr & Hn). split; [done|]. by exists p.
Qed.

(** ** Durable state *)

(** What the generator promises: a serialized state restores, canonically. *)
Class RandomnessLaws : Prop := {
  state_length : ∀ rng, length (serialize_state rng) = state_bytes;
  state_roundtrip : ∀ rng, deserialize_state (serialize_state rng) = rng
}.

(** The samplers [new_with_options] builds and the calls above keep. *)
Definition valid_sampler (s : TokenSampler) : Prop :=
  validate_sampling (sm_config s) = Ok tt ∧ validate_options (sm_options s) = Ok tt.

(** Two samplers that agree on everything but scratch buffers. *)
Definition same_sampler (s s' : TokenSampler) : Prop := same_settings s s' ∧ sm_rng s' = sm_rng s.

(** The result of a call, its scratch buffers aside. *)
Definition same_result {A} (x y : Gen A * TokenSampler) : Prop := x.1 = y.1 ∧ same_sampler x.2 y.2.

#[export] Instance same_sampler_equivalence : Equivalence same_sampler.
Proof.
  split.
  - intros s. done.
  - intros s s' [[Hc Ho] Hr]. done.
  - intros s1 s2 s3 [[Hc Ho] Hr] [[Hc' Ho'] Hr']. split; [split|]; congruence.
Qed.

Lemma zip_with_ignore {A B C} (f : B → C) (l l' : list A) (k : list B) : length l = length l' →
  zip_with (λ _ b, f b) l k = zip_with (λ _ b, f b) l' k.
Proof.
  revert l' k. induction l as [|a l IH]; intros [|a' l'] [|b k] Hl; simplify_eq/=; try done. f_equal. by apply IH.
Qed.

Lemma filtered_weights_workspace w w' logits maximum config minimum :
  filtered_weights w logits maximum config minimum = filtered_weights w' logits maximum config minimum.
Proof.
  unfold filtered_weights.
  by rewrite (zip_with_ignore _ (resize _ zero (probabilities w)) (resize _ zero (probabilities w')))
    by (by rewrite !length_resize).
Qed.

#[export] Instance distribution_proper : Proper (same_sampler ==> (=) ==> (=)) distribution.
Proof.
  intros s s' [[Hc Ho] _] values _ <-. unfold distribution, fill_with_min_p. rewrite Hc, Ho.
  destruct (validate_sampling _); simpl; [|done..]. case_decide; [done|].
  destruct (checked_maximum _ _); simpl; [|done..]. destruct (eq _ neg_infinity); [done|].
  rewrite (filtered_weights_workspace _ (sm_workspace s')). by destruct (filtered_weights _ _ _ _ _) as [[]| |].
Qed.

#[export] Instance sampler_values_proper :
  Proper (same_sampler ==> (=) ==> (=) ==> (=) ==> (=)) sampler_values.
Proof. intros s s' [[Hc Ho] _] l _ <- p _ <- g _ <-. unfold sampler_values. by rewrite Ho. Qed.

Lemma sample_result s logits prompt generated :
  (sample_with_history logits prompt generated s).1 =
  (do? values := sampler_values s logits prompt generated in
   do? probs := distribution s values in
   do? token := expect Expect (sample_loop (random (sm_rng s)).1 0 probs zero None) in
   Ok (Z.of_nat token)) ∧
  same_sampler
    (mk_sampler (sm_config s) (sm_options s)
       (match (do? values := sampler_values s logits prompt generated in distribution s values) with
        | Ok _ => (random (sm_rng s)).2 | _ => sm_rng s end) empty_workspace)
    (sample_with_history logits prompt generated s).2.
Proof.
  unfold sample_with_history, sampler_values, distribution, sampler_fill, sampler_random, mbind', mget, mlift.
  destruct (has_penalties _); [destruct (penalized_logits _ _ _ _) as [values|e|p]|]; simpl; try done;
    destruct (fill_with_min_p _ _ _ _) as [[probs|e|p] w]; simpl; try done;
    by destruct (sample_loop _ _ _ _ _).
Qed.

Lemma sample_same s s' logits prompt generated : same_sampler s s' →
  same_result (sample_with_history logits prompt generated s) (sample_with_history logits prompt generated s').
Proof.
  intros Hs. destruct (sample_result s logits prompt generated) as [Hr Hst].
  destruct (sample_result s' logits prompt generated) as [Hr' Hst']. pose proof Hs as [[Hc Ho] Hg].
  assert (sampler_values s logits prompt generated = sampler_values s' logits prompt generated) as Hv
    by (exact (sampler_values_proper s s' Hs _ _ eq_refl _ _ eq_refl _ _ eq_refl)).
  assert (∀ values, distribution s values = distribution s' values) as Hd by (intros; exact (distribution_proper s s' Hs _ _ eq_refl)).
  split.
  - rewrite Hr, Hr', Hg, Hv. destruct (sampler_values s' logits prompt generated); cbn [res_bind]; rewrite ?Hd; reflexivity.
  - etrans; [symmetry; exact Hst|]. etrans; [|exact Hst']. rewrite Hc, Ho, Hg, Hv.
    destruct (sampler_values s' logits prompt generated); cbn [res_bind]; rewrite ?Hd; reflexivity.
Qed.

(** A sampler's durable state, its clone and a sampler with emptied
    scratch buffers are the same sampler: restoring is accepted, and the next draw
    of each gives the same token or error and again leaves the same sampler. *)
Theorem sampler_state_roundtrip `{!RandomnessLaws} s logits prompt generated : valid_sampler s →
  ∃ s', from_state (to_state s) = Ok s' ∧
    let result := sample_with_history logits prompt generated s in
    same_sampler s s' ∧ same_sampler s (clone s) ∧ same_sampler s (clear_workspace s) ∧
    same_result result (sample_with_history logits prompt generated s') ∧
    same_result result (sample_with_history logits prompt generated (clone s)) ∧
    same_result result (sample_with_history logits prompt generated (clear_workspace s)).
Proof.
  intros [Hc Ho]. exists (mk_sampler (sm_config s) (sm_options s) (sm_rng s) empty_workspace).
  assert (same_sampler s (mk_sampler (sm_config s) (sm_options s) (sm_rng s) empty_workspace)) as Hs by done.
  assert (same_sampler s (clone s)) as Hclone by (split; [done|apply state_roundtrip]).
  assert (same_sampler s (clear_workspace s)) as Hclear by done.
  split; [|by split_and!; auto using sample_same].
  unfold from_state, restore_sampler, to_state. cbn [tss_version tss_config tss_options tss_rng].
  rewrite decide_False by (by intros []). rewrite Hc, Ho. cbn [res_bind].
  rewrite decide_False by (rewrite state_length; by intros []).
  by rewrite state_roundtrip, decide_False by (by intros []).
Qed.
End Sampler.

(** ** Samplers on concrete data

    A step function in place of the exponential and a counter in place of the
    generator: the samplers evaluate, and their theorems apply. *)

Definition half : f64 := f64_div one (f64_of_Z 2).

(** One at zero, a half below. *)
#[local] Instance toy_exp : Exponential := λ x, if eq x zero then one else half.

(** A generator that counts in sixteenths. *)
#[local] Instance toy_random : Randomness := {
  Rng := N;
  random n := (f64_div (f64_of_Z (Z.of_N (n mod 16))) (f64_of_Z 16), (n + 1)%N);
  seed_from_u64 n := n;
  from_entropy := 0%N;
  state_bytes := 1;
  serialize_state n := [Z.of_N n];
  deserialize_state l := match l with z :: _ => Z.to_N z | [] => 0%N end
}.

#[local] Instance toy_random_laws : RandomnessLaws.
Proof. split; [reflexivity|]. intros rng. apply N2Z.id. Qed.

Definition f32s (l : list Z) : list f32 := map f32_of_Z l.
Definition toy_config (k : nat) (p : f64) : SamplingConfig := mk_sampling one k p (Some 9%N).

(** Ties at the k-th logit are retained. *)
Example top_k_keeps_ties :
  filtered_probabilities (f32s [3; 1; 3; 2]%Z) (toy_config 1 one) = Ok [half; zero; half; zero].
Proof. vm_compute. reflexivity. Qed.

(** The nucleus drops the least likely tokens while their mass fits in 1 - top_p. *)
Example nucleus_drops_the_tail :
  filtered_probabilities (f32s [3; 1; 3; 2]%Z) (toy_config 0 half) = Ok [half; zero; half; zero].
Proof. vm_compute. reflexivity. Qed.

Definition toy_options : SamplingOptions := mk_options zero (f64_of_Z 2) zero half.
Definition toy_sampler : TokenSampler := mk_sampler (toy_config 2 one) toy_options 9%N empty_workspace.

Example sampler_opens : new_with_options (toy_config 2 one) toy_options = Ok toy_sampler.
Proof. reflexivity. Qed.

(** The repeated token 2 falls out of the top two. *)
Example repeated_token_loses :
  (sample_with_history (f32s [1; 3; 4; 2]%Z) [2]%Z [2]%Z toy_sampler).1 = Ok 1%Z ∧
  (sample (f32s [1; 3; 4; 2]%Z) toy_sampler).1 = Ok 2%Z.
Proof. split; vm_compute; reflexivity. Qed.

Example sampler_state_roundtrip_witness :
  ∃ s', from_state (to_state toy_sampler) = Ok s' ∧
    let result := sample_with_history (f32s [1; 3; 4; 2]%Z) [2]%Z [2]%Z toy_sampler in
    same_sampler toy_sampler s' ∧ same_sampler toy_sampler (clone toy_sampler) ∧
    same_sampler toy_sampler (clear_workspace toy_sampler) ∧
    same_result result (sample_with_history (f32s [1; 3; 4; 2]%Z) [2]%Z [2]%Z s') ∧
    same_result result (sample_with_history (f32s [1; 3; 4; 2]%Z) [2]%Z [2]%Z (clone toy_sampler)) ∧
    same_result result (sample_with_history (f32s [1; 3; 4; 2]%Z) [2]%Z [2]%Z (clear_workspace toy_sampler)).
Proof.
  apply (sampler_state_roundtrip toy_sampler (f32s [1; 3; 4; 2]%Z) [2]%Z [2]%Z).
  split; vm_compute; reflexivity.
Defined.
