(* ===== verification/Speculative.v ===== *)
(** * Speculative generation

    src/src/generation/speculative.rs: a draft model proposes a block of tokens,
    the target model scores the whole block in one forward, and only verified
    tokens are emitted. *)
From S2P Require Import Prelude Float PagedKv ContinuousBatch GenerationControl Generation.
From S2P Require Import Sampling.
Open Scope nat_scope.
Open Scope m_scope.

(** [argmax]: the first of the largest logits that are not NaN. *)
Definition argmax_step (best : option (nat * f32)) (entry : nat * f32) : option (nat * f32) :=
  if negb (is_nan entry.2) &&
     match best with None => true | Some (_, maximum) => lt maximum entry.2 end
  then Some entry else best.

Definition argmax (logits : list f32) : Fallible Z :=
  match fold_left argmax_step (imap pair logits) None with
  | Some (index, _) => inr (Z.of_nat index)
  | None => inl "all vocabulary logits are NaN"
  end.

(** [trait SpeculativeModel], with the readback of a block's rows; a row read
    back by [read_last_logits] is a vector of [f32]. *)
Class SpeculativeModel (C : CausalModel) := {
  fork_cache : Cache → Cache;
  try_forward_cached_block : list Z → Cache → Fallible Logits * Cache;
  read_rows : Logits → Fallible (list f32);
  row_values : Row → list f32
}.

Record SpeculativeGenerationConfig := mk_speculative {
  sc_max_new_tokens : nat;
  sc_eos_token_ids : list Z;
  sc_draft_tokens : nat;
  sc_sampling : option SamplingConfig
}.

Record SpeculativeStats := mk_stats {
  st_rounds : nat;
  st_proposed_tokens : nat;
  st_accepted_tokens : nat;
  st_rejected_blocks : nat;
  st_bonus_tokens : nat;
  st_target_block_forwards : nat;
  st_replayed_prefix_tokens : nat
}.
Definition no_stats : SpeculativeStats := mk_stats 0 0 0 0 0 0 0.

Definition count_round (proposed : nat) (s : SpeculativeStats) : SpeculativeStats :=
  mk_stats (st_rounds s + 1) (st_proposed_tokens s + proposed) (st_accepted_tokens s) (st_rejected_blocks s)
    (st_bonus_tokens s) (st_target_block_forwards s + 1) (st_replayed_prefix_tokens s).
Definition count_verdict (accepted : bool) (s : SpeculativeStats) : SpeculativeStats :=
  mk_stats (st_rounds s) (st_proposed_tokens s) (st_accepted_tokens s + if accepted then 1 else 0)
    (st_rejected_blocks s + if accepted then 0 else 1) (st_bonus_tokens s) (st_target_block_forwards s)
    (st_replayed_prefix_tokens s).
Definition count_bonus (s : SpeculativeStats) : SpeculativeStats :=
  mk_stats (st_rounds s) (st_proposed_tokens s) (st_accepted_tokens s) (st_rejected_blocks s)
    (st_bonus_tokens s + 1) (st_target_block_forwards s) (st_replayed_prefix_tokens s).
Definition count_replay (tokens : nat) (s : SpeculativeStats) : SpeculativeStats :=
  mk_stats (st_rounds s) (st_proposed_tokens s) (st_accepted_tokens s) (st_rejected_blocks s)
    (st_bonus_tokens s) (st_target_block_forwards s) (st_replayed_prefix_tokens s + tokens).

Record SpeculativeGenerationOutput := mk_speculative_output {
  so_output : TokenGenerationOutput;
  so_finish_reason : GenerationFinishReason;
  so_stats : SpeculativeStats
}.

Section Speculative.
Context `{Exponential, Randomness}.
Context {T D : CausalModel} `{ST : !SpeculativeModel T, SD : !SpeculativeModel D}.
Context {CB : Type} (on_token : CB → GenerationEvent → bool * CB).
Context (config : SpeculativeGenerationConfig) (control : GenerationControl) (eos : gset Z).
Context (vocabulary : nat).

(** The locals of [generate_causal_speculative_stream]. *)
Record Speculation := mk_spec {
  sp_target_cache : @Cache T;
  sp_draft_cache : @Cache D;
  sp_target_next : list f32;
  sp_draft_next : list f32;
  sp_result : SpeculativeGenerationOutput;
  sp_matcher : StopSequenceMatcher;
  sp_rng : Rng;
  sp_cb : CB;
  sp_clock : nat
}.

Definition set_target (c : @Cache T) (s : Speculation) : Speculation :=
  mk_spec c (sp_draft_cache s) (sp_target_next s) (sp_draft_next s) (sp_result s) (sp_matcher s) (sp_rng s) (sp_cb s) (sp_clock s).
Definition set_draft (c : @Cache D) (s : Speculation) : Speculation :=
  mk_spec (sp_target_cache s) c (sp_target_next s) (sp_draft_next s) (sp_result s) (sp_matcher s) (sp_rng s) (sp_cb s) (sp_clock s).
Definition set_target_next (r : list f32) (s : Speculation) : Speculation :=
  mk_spec (sp_target_cache s) (sp_draft_cache s) r (sp_draft_next s) (sp_result s) (sp_matcher s) (sp_rng s) (sp_cb s) (sp_clock s).
Definition set_draft_next (r : list f32) (s : Speculation) : Speculation :=
  mk_spec (sp_target_cache s) (sp_draft_cache s) (sp_target_next s) r (sp_result s) (sp_matcher s) (sp_rng s) (sp_cb s) (sp_clock s).
Definition set_result (r : SpeculativeGenerationOutput) (s : Speculation) : Speculation :=
  mk_spec (sp_target_cache s) (sp_draft_cache s) (sp_target_next s) (sp_draft_next s) r (sp_matcher s) (sp_rng s) (sp_cb s) (sp_clock s).
Definition set_matcher (m : StopSequenceMatcher) (s : Speculation) : Speculation :=
  mk_spec (sp_target_cache s) (sp_draft_cache s) (sp_target_next s) (sp_draft_next s) (sp_result s) m (sp_rng s) (sp_cb s) (sp_clock s).
Definition set_rng (r : Rng) (s : Speculation) : Speculation :=
  mk_spec (sp_target_cache s) (sp_draft_cache s) (sp_target_next s) (sp_draft_next s) (sp_result s) (sp_matcher s) r (sp_cb s) (sp_clock s).
Definition set_cb (c : CB) (s : Speculation) : Speculation :=
  mk_spec (sp_target_cache s) (sp_draft_cache s) (sp_target_next s) (sp_draft_next s) (sp_result s) (sp_matcher s) (sp_rng s) c (sp_clock s).
Definition set_clock (n : nat) (s : Speculation) : Speculation :=
  mk_spec (sp_target_cache s) (sp_draft_cache s) (sp_target_next s) (sp_draft_next s) (sp_result s) (sp_matcher s) (sp_rng s) (sp_cb s) n.

Definition set_output (o : TokenGenerationOutput) (s : Speculation) : Speculation :=
  set_result (mk_speculative_output o (so_finish_reason (sp_result s)) (so_stats (sp_result s))) s.
Definition set_finish (r : GenerationFinishReason) (s : Speculation) : Speculation :=
  set_result (mk_speculative_output (so_output (sp_result s)) r (so_stats (sp_result s))) s.
Definition update_stats (f : SpeculativeStats → SpeculativeStats) (s : Speculation) : Speculation :=
  set_result (mk_speculative_output (so_output (sp_result s)) (so_finish_reason (sp_result s))
                (f (so_stats (sp_result s)))) s.

Notation SP := (M Speculation GenerationError).

Definition spec_observe : SP bool := λ s,
  (Ok (is_cancelled control (sp_clock s)), set_clock (S (sp_clock s)) s).

(** [next_row] on either model. *)
Definition next_row (C : CausalModel) {SC : SpeculativeModel C} (tokens : list Z) (cache : @Cache C) :
    Gen (list f32) * @Cache C :=
  let out := try_forward_cached_last tokens cache in
  (do? logits := lift out.1 in
   if decide (dims logits ≠ (1, 1, vocabulary)) then Err "expected last logits [1, 1, vocabulary]"
   else do? row := lift (read_last_logits logits) in Ok (row_values row), out.2).

Definition target_row (tokens : list Z) : SP unit := λ s,
  match next_row T tokens (sp_target_cache s) with
  | (Ok row, c) => (Ok tt, set_target_next row (set_target c s))
  | (Err e, c) => (Err e, set_target c s)
  | (Panic p, c) => (Panic p, set_target c s)
  end.
Definition draft_row (tokens : list Z) : SP unit := λ s,
  match next_row D tokens (sp_draft_cache s) with
  | (Ok row, c) => (Ok tt, set_draft_next row (set_draft c s))
  | (Err e, c) => (Err e, set_draft c s)
  | (Panic p, c) => (Panic p, set_draft c s)
  end.

(** ** [Selection] *)
Definition spec_random : SP f64 := λ s,
  let out := random (sp_rng s) in (Ok out.1, set_rng out.2 s).

Definition spec_propose (logits : list f32) : SP (Z * list f64) :=
  match sc_sampling config with
  | Some sampling =>
      let! probs := mlift (filtered_probabilities logits sampling) in
      let! uniform := spec_random in
      let! token := mlift (draw probs uniform) in
      mret (token, probs)
  | None => let! token := mlift (lift (argmax logits)) in mret (token, [])
  end.

Definition spec_verify (candidate : Z) (q : list f64) (logits : list f32) : SP (Z * bool) :=
  match sc_sampling config with
  | Some sampling =>
      let! p := mlift (filtered_probabilities logits sampling) in
      let! uniform := spec_random in
      let! pc := mexpect OutOfBounds (p !! Z.to_nat candidate) in
      let! qc := mexpect OutOfBounds (q !! Z.to_nat candidate) in
      if lt uniform (float_min (f64_div pc qc) one) then mret (candidate, true)
      else
        let! uniform := spec_random in
        let! token := mlift (draw (residual p q) uniform) in
        mret (token, false)
  | None =>
      let! token := mlift (lift (argmax logits)) in
      mret (token, bool_decide (token = candidate))
  end.

(** [emit]: true when the generation ends here. *)
Definition emit (token : Z) : SP bool :=
  let! s := mget in
  let out := push_token (so_output (sp_result s)) token eos in
  let! matched := mlift (push (sp_matcher s) token) in
  mmodify (λ s, set_matcher matched.2 (set_output out s)) ;;;
  let natural := natural_stop eos matched.1 (length (generated_token_ids out)) (sc_max_new_tokens config) token in
  let! s := mget in
  let response := on_token (sp_cb s) (mk_event token (generated_token_ids out) natural) in
  mmodify (set_cb response.2) ;;;
  match natural with
  | Some reason => mmodify (set_finish reason) ;;; mret true
  | None =>
      let! stop := (if response.1 then mret true else spec_observe) in
      if stop : bool then mmodify (set_finish Cancelled) ;;; mret true else mret false
  end.

(** The draft loop: [None] when a cancellation ends the generation. *)
Fixpoint draft_loop (count : nat) (candidates : list Z) (dists : list (list f64)) :
    SP (option (list Z * list (list f64))) :=
  match count with
  | O => mret (Some (candidates, dists))
  | S count' =>
      let! cancelled := spec_observe in
      if cancelled : bool then mmodify (set_finish Cancelled) ;;; mret None else
      let! s := mget in
      let! proposal := spec_propose (sp_draft_next s) in
      let candidates := candidates ++ [proposal.1] in
      let dists := dists ++ [proposal.2] in
      draft_row [proposal.1] ;;;
      if decide (proposal.1 ∈ eos) then mret (Some (candidates, dists))
      else draft_loop count' candidates dists
  end.

(** The row that predicts candidate [index]. *)
Definition verification_row (rows : list f32) (index : nat) : SP (list f32) :=
  if decide (index = 0) then let! s := mget in mret (sp_target_next s)
  else mexpect OutOfBounds (slice ((index - 1) * vocabulary) (index * vocabulary) rows).

(** The verification loop: whether the generation ended, whether a candidate was
    rejected, and the committed tokens. *)
Fixpoint verify_loop (rows : list f32) (dists : list (list f64)) (index : nat) (candidates : list Z)
    (committed : list Z) : SP (bool * bool * list Z) :=
  match candidates with
  | [] => mret (false, false, committed)
  | candidate :: rest =>
      let! row := verification_row rows index in
      let! q := mexpect OutOfBounds (dists !! index) in
      let! verdict := spec_verify candidate q row in
      mmodify (update_stats (count_verdict verdict.2)) ;;;
      let committed := committed ++ [verdict.1] in
      let! ended := emit verdict.1 in
      if ended : bool then mret (true, negb verdict.2, committed)
      else if negb verdict.2 then mret (false, true, committed)
      else verify_loop rows dists (index + 1) rest committed
  end.

(** The replay of the committed tokens on the restored branches. *)
Fixpoint replay_loop (tokens : list Z) : SP unit :=
  match tokens with
  | [] => mret tt
  | token :: rest => target_row [token] ;;; draft_row [token] ;;; replay_loop rest
  end.

Definition forward_block (candidates : list Z) : SP (@Logits T) := λ s,
  let out := try_forward_cached_block candidates (sp_target_cache s) in
  (lift out.1, set_target out.2 s).

(** One turn of ['generation]; true when it breaks. *)
Definition round : SP bool :=
  let! cancelled := spec_observe in
  if cancelled : bool then mmodify (set_finish Cancelled) ;;; mret true else
  let! s := mget in
  let count := sc_draft_tokens config `min`
    (sc_max_new_tokens config - length (generated_token_ids (so_output (sp_result s)))) in
  let target_before := fork_cache (sp_target_cache s) in
  let draft_before := fork_cache (sp_draft_cache s) in
  let! drafted := draft_loop count [] [] in
  match drafted with
  | None => mret true
  | Some (candidates, dists) =>
      let! logits := forward_block candidates in
      if decide (dims logits ≠ (1, length candidates, vocabulary)) then
        mthrow "expected speculative block logits [1, candidates, vocabulary]"
      else
      let! rows := mlift (lift (read_rows logits)) in
      mmodify (update_stats (count_round (length candidates))) ;;;
      let! cancelled := spec_observe in
      if cancelled : bool then mmodify (set_finish Cancelled) ;;; mret true else
      let! verified := verify_loop rows dists 0 candidates [] in
      let '(ended, rejected, committed) := verified in
      if ended : bool then mret true else
      if rejected : bool then
        mmodify (λ s, set_draft draft_before (set_target target_before s)) ;;;
        mmodify (update_stats (count_replay (length committed))) ;;;
        replay_loop committed ;;;
        mret false
      else
        let! last := mexpect OutOfBounds (slice ((length candidates - 1) * vocabulary) (length rows) rows) in
        let! bonus := spec_propose last in
        mmodify (update_stats count_bonus) ;;;
        let! ended := emit bonus.1 in
        if ended : bool then mret true else
        target_row [bonus.1] ;;;
        draft_row [bonus.1] ;;;
        mret false
  end.

(** ['generation: while generated.len() < max_new_tokens]; every turn that does
    not end the generation emits a token. *)
Fixpoint spec_loop (fuel : nat) : SP unit :=
  let! s := mget in
  if decide (sc_max_new_tokens config ≤ length (generated_token_ids (so_output (sp_result s)))) then mret tt
  else
  match fuel with
  | O => mpanic OutOfFuel
  | S fuel' => let! ended := round in if ended : bool then mret tt else spec_loop fuel'
  end.
End Speculative.

(** ** [generate_causal_speculative_stream] *)
Section Entry.
Context `{Exponential, Randomness}.
Context (T D : CausalModel) {ST : SpeculativeModel T} {SD : SpeculativeModel D}.
Context {CB : Type} (on_token : CB → GenerationEvent → bool * CB).
Notation Locals := (@Speculation _ T D CB).

(** The [ordinary] configuration the checks are made with. *)
Definition ordinary (config : SpeculativeGenerationConfig) : GreedyGenerationConfig :=
  mk_generation (sc_max_new_tokens config) (sc_eos_token_ids config).

Definition validate_speculation (target_limits draft_limits : CausalModelLimits) (prompt : list Z)
    (config : SpeculativeGenerationConfig) (control : GenerationControl) : Gen (gset Z) :=
  do? eos := validate_generation target_limits prompt (ordinary config) in
  do? _ := validate_generation draft_limits prompt (ordinary config) in
  if decide (sc_draft_tokens config = 0 ∨ vocab_size target_limits ≠ vocab_size draft_limits) then
    Err "speculation requires a positive draft length and matching vocabularies"
  else
  do? _ := match sc_sampling config with Some sampling => validate_sampling sampling | None => Ok tt end in
  do? _ := validate_control control (vocab_size target_limits) in
  Ok eos.

(** [Selection::new] *)
Definition selection_rng (sampling : option SamplingConfig) : Rng :=
  match mbind seed sampling with Some s => seed_from_u64 s | None => from_entropy end.

(** The locals before the caches and the matcher are made. *)
Definition new_speculation (prompt : list Z) (config : SpeculativeGenerationConfig) (cb : CB) : Locals :=
  mk_spec new_cache new_cache [] []
    (mk_speculative_output (mk_output prompt [] false) MaxNewTokens no_stats)
    (mk_matcher [] [] []) (selection_rng (sc_sampling config)) cb 0.

(** What follows the checks: the flag is read twice before the early return. *)
Definition speculate (config : SpeculativeGenerationConfig) (control : GenerationControl) (eos : gset Z)
    (vocabulary : nat) (prompt : list Z) : M Locals GenerationError SpeculativeGenerationOutput :=
  let! cancelled := spec_observe control in
  (if cancelled : bool then mmodify (set_finish Cancelled) else mret tt) ;;;
  let! stop := (if decide (sc_max_new_tokens config = 0) then mret true else spec_observe control) in
  if stop : bool then let! s := mget in mret (sp_result s)
  else
    let! matcher := mlift (new_matcher (stop_token_sequences control)) in
    mmodify (set_matcher matcher) ;;;
    target_row vocabulary prompt ;;;
    draft_row vocabulary prompt ;;;
    spec_loop on_token config control eos vocabulary (sc_max_new_tokens config) ;;;
    let! s := mget in
    let! _ := mlift (lift (device_sync (sp_target_cache s))) in
    mret (sp_result s).

Definition generate_causal_speculative_stream (target_limits draft_limits : CausalModelLimits)
    (prompt : list Z) (config : SpeculativeGenerationConfig) (control : GenerationControl) (cb : CB) :
    Gen SpeculativeGenerationOutput * CB :=
  match validate_speculation target_limits draft_limits prompt config control with
  | Ok eos =>
      let out := speculate config control eos (vocab_size target_limits) prompt (new_speculation prompt config cb) in
      (out.1, sp_cb out.2)
  | Err e => (Err e, cb)
  | Panic p => (Panic p, cb)
  end.
End Entry.

(** [generate_causal_speculative] *)
Definition generate_causal_speculative `{Exponential, Randomness} (T D : CausalModel)
    {ST : SpeculativeModel T} {SD : SpeculativeModel D}
    (target_limits draft_limits : CausalModelLimits) (prompt : list Z) (config : SpeculativeGenerationConfig) :
    Gen SpeculativeGenerationOutput :=
  (generate_causal_speculative_stream T D continue target_limits draft_limits prompt config
     no_control tt).1.
