(* ===== verification/SpeculativeSpec.v ===== *)
(** * What speculative generation emits

    For any two models, any selection and any cancellation flag: the tokens a
    speculation emits stop where an ordinary generation stops and the callback
    sees each of them once; the statistics account for every emitted token; the
    loops end and stay inside their vectors. *)
From S2P Require Import Prelude Float PagedKv ContinuousBatch GenerationControl Generation.
From S2P Require Import Sampling SamplingSpec SamplingDraw Speculative.
Open Scope nat_scope.

(** ** [argmax] *)

(** The choice over [logits], scanned from [index] on with [best] so far. *)
Definition best_of (logits : list f32) (i : nat) (v : f32) : Prop :=
  logits !! i = Some v ∧ is_nan v = false ∧
  (∀ j w, logits !! j = Some w → is_nan w = false → below w v) ∧
  (∀ j w, logits !! j = Some w → is_nan w = false → below v w → i ≤ j).

Definition scanned (logits : list f32) (best : option (nat * f32)) : Prop :=
  match best with
  | None => ∀ v, v ∈ logits → is_nan v = true
  | Some (i, v) => best_of logits i v
  end.

Lemma argmax_step_scanned logits v best : scanned logits best →
  scanned (logits ++ [v]) (argmax_step best (length logits, v)).
Proof.
  intros Hs. unfold argmax_step. simpl. destruct (is_nan v) eqn:Ev; simpl.
  - destruct best as [[i b]|]; simpl in *.
    + destruct Hs as (Hi & Hn & Hmax & Hfst).
      split_and!; [by apply lookup_app_l_Some|done| |];
        intros j w [Hj|[_ ->%list_elem_of_lookup_2%list_elem_of_singleton]]%lookup_app_Some Hw; eauto; congruence.
    + intros w [?| ->%list_elem_of_singleton]%elem_of_app; auto.
  - destruct best as [[i b]|]; simpl in *.
    + destruct Hs as (Hi & Hn & Hmax & Hfst). destruct (lt b v) eqn:El.
      * apply lt_below in El; [|done..]. split_and!; [by rewrite lookup_app_r, Nat.sub_diag|done| |].
        -- intros j w [Hj|[_ ->%list_elem_of_lookup_2%list_elem_of_singleton]]%lookup_app_Some Hw.
           ++ destruct (below_total w v) as [|Hvw]; [done|]. exfalso. apply El. eapply below_trans; [exact Hvw|eauto].
           ++ apply below_refl.
        -- intros j w [Hj|[? _]]%lookup_app_Some Hw Hvw; [|done]. exfalso. apply El.
           eapply below_trans; [exact Hvw|eauto].
      * apply lt_false in El; [|done..]. split_and!; [by apply lookup_app_l_Some|done| |].
        -- intros j w [Hj|[_ ->%list_elem_of_lookup_2%list_elem_of_singleton]]%lookup_app_Some Hw; eauto.
        -- intros j w [Hj|[? _]]%lookup_app_Some Hw Hbw; [eauto|]. apply lookup_lt_Some in Hi. lia.
    + split_and!; [by rewrite lookup_app_r, Nat.sub_diag|done| |].
      * intros j w [Hj|[_ ->%list_elem_of_lookup_2%list_elem_of_singleton]]%lookup_app_Some Hw; [|apply below_refl].
        rewrite (Hs w) in Hw; [done|by eapply list_elem_of_lookup_2].
      * intros j w [Hj|[? _]]%lookup_app_Some Hw _; [|done].
        rewrite (Hs w) in Hw; [done|by eapply list_elem_of_lookup_2].
Qed.

Lemma argmax_scanned logits : scanned logits (fold_left argmax_step (imap pair logits) None).
Proof.
  induction logits as [|v logits IH] using rev_ind; [by intros v ?%elem_of_nil|].
  rewrite imap_app, fold_left_app. simpl. rewrite Nat.add_0_r. by apply argmax_step_scanned.
Qed.

(** The first of the greatest logits that are numbers, or an error when none is. *)
Lemma argmax_spec logits :
  match argmax logits with
  | inr t => ∃ i v, t = Z.of_nat i ∧ best_of logits i v
  | inl _ => ∀ v, v ∈ logits → is_nan v = true
  end.
Proof.
  unfold argmax. pose proof (argmax_scanned logits) as Hs.
  destruct (fold_left _ _ _) as [[i v]|]; [by exists i, v|done].
Qed.

(** What a readback promises: as many values as the shape says. *)
Class RowLaws (C : CausalModel) {SC : SpeculativeModel C} : Prop := {
  last_length : ∀ l r v, dims l = (1, 1, v) → read_last_logits l = inr r → length (row_values r) = v;
  rows_length : ∀ l rows n v, dims l = (1, n, v) → read_rows l = inr rows → length rows = n * v
}.

Section Facts.
Context `{Exponential, Randomness}.
Context (T D : CausalModel) {ST : SpeculativeModel T} {SD : SpeculativeModel D}.
Context `{!RowLaws T, !RowLaws D}.
Context {CB : Type} (on_token : CB → GenerationEvent → bool * CB).
Context (limits : CausalModelLimits) (config : SpeculativeGenerationConfig) (control : GenerationControl).
Context (prompt : list Z) (cb0 : CB).
Notation Locals := (@Speculation _ T D CB).
Implicit Types s : Locals.
Notation eos := (list_to_set (sc_eos_token_ids config) : gset Z).
Notation ps := (stop_token_sequences control).
Notation max_new := (sc_max_new_tokens config).
Notation vocabulary := (vocab_size limits).
Notation emit := (emit on_token config control eos).

(** Errors are the models' and the distributions'; the one panic is that of
    [draw] when it finds no positive probability. *)
Definition spost {A} (Q : A → Locals → Prop) : res GenerationError A → Locals → Prop :=
  λ r s, match r with
         | Ok a => Q a s
         | Err _ => True
         | Panic p => p = Expect ∧ sc_sampling config ≠ None
         end.

Lemma spost_bind {A B} (m : M Locals GenerationError A) (k : A → M Locals GenerationError B) Q Q' s :
  wp m (spost Q) s → (∀ a s', Q a s' → wp (k a) (spost Q') s') → wp (mbind' m k) (spost Q') s.
Proof.
  intros Hm Hk. apply wp_bind. eapply wp_mono; [exact Hm|]. intros [a|e|p] s' HQ; simpl in *; auto.
Qed.

Lemma spost_mono {A} (m : M Locals GenerationError A) (Q Q' : A → Locals → Prop) s :
  wp m (spost Q) s → (∀ a s', Q a s' → Q' a s') → wp m (spost Q') s.
Proof. intros Hm HQ. eapply wp_mono; [exact Hm|]. intros [a|e|p] s'; simpl; auto. Qed.

(** ** The tokens so far *)
Record told (gen : list Z) s : Prop := {
  tl_output : so_output (sp_result s) = output_of eos prompt gen;
  tl_patterns : patterns (sp_matcher s) = ps;
  tl_matcher : matcher_state gen (sp_matcher s);
  tl_cb : sp_cb s = told_events on_token cb0 (events_of eos ps max_new gen)
}.

(** What [emit] leaves alone. *)
Record kept s s' : Prop := {
  kp_target : sp_target_cache s' = sp_target_cache s;
  kp_draft : sp_draft_cache s' = sp_draft_cache s;
  kp_target_next : sp_target_next s' = sp_target_next s;
  kp_draft_next : sp_draft_next s' = sp_draft_next s;
  kp_stats : so_stats (sp_result s') = so_stats (sp_result s)
}.

Definition event_of (gen : list Z) (token : Z) : GenerationEvent :=
  mk_event token (gen ++ [token]) (stop_of eos ps max_new (gen ++ [token])).

Lemma told_snoc gen token :
  told_events on_token cb0 (events_of eos ps max_new (gen ++ [token])) =
  (on_token (told_events on_token cb0 (events_of eos ps max_new gen)) (event_of gen token)).2.
Proof. rewrite events_of_snoc. unfold told_events. by rewrite fold_left_app. Qed.

(** One emitted token: the natural reason, else a break, else the flag. *)
Lemma emit_spec gen token s : told gen s →
  ∃ b s', emit token s = (Ok b, s') ∧ kept s s' ∧ told (gen ++ [token]) s' ∧
    match stop_of eos ps max_new (gen ++ [token]) with
    | Some reason => b = true ∧ so_finish_reason (sp_result s') = reason
    | None =>
        b = (on_token (sp_cb s) (event_of gen token)).1 || is_cancelled control (sp_clock s) ∧
        (b = true → so_finish_reason (sp_result s') = Cancelled)
    end.
Proof.
  intros [Ho Hp Hm Hc]. unfold Speculative.emit, mget, mlift. erewrite bind_ok by done.
  destruct (push_spec (sp_matcher s) token gen Hm) as (m' & Hpush & Hp' & Hm'). rewrite Hpush.
  erewrite bind_ok by done. cbn [fst snd]. erewrite bind_ok by done. erewrite bind_ok by done.
  rewrite Ho, push_token_output, Hp. cbn [generated_token_ids output_of set_output set_matcher set_result sp_cb].
  replace (length (gen ++ [token])) with (length gen + 1) by (rewrite length_app; simpl; lia).
  rewrite <- (stop_of_snoc eos ps max_new gen token). fold (event_of gen token).
  pose proof (told_snoc gen token) as Ht. rewrite <- Hc in Ht. erewrite bind_ok by done.
  destruct (stop_of eos ps max_new (gen ++ [token])) as [reason|] eqn:Es.
  { erewrite bind_ok by done. do 2 eexists. split; [reflexivity|]. split; [done|].
    split; [split; simpl; congruence|done]. }
  destruct (on_token (sp_cb s) (event_of gen token)) as [stop cb']. simpl in Ht. destruct stop; cbn [fst snd].
  { erewrite bind_ok by done. cbn beta iota. erewrite bind_ok by done. do 2 eexists. split; [reflexivity|].
    split; [done|]. split; [split; simpl; congruence|done]. }
  erewrite bind_ok by done. cbn beta iota. cbn [sp_clock set_cb set_matcher set_result set_output].
  destruct (is_cancelled control (sp_clock s)).
  - erewrite bind_ok by done. do 2 eexists. split; [reflexivity|].
    split; [done|]. split; [split; simpl; congruence|done].
  - do 2 eexists. split; [reflexivity|]. split; [done|]. split; [split; simpl; congruence|done].
Qed.

(** ** Invariants *)

(** [gen] was emitted and nothing has stopped the generation. *)
Record live (gen : list Z) s : Prop := {
  lv_told : told gen s;
  lv_running : running limits eos ps max_new gen;
  lv_length : length gen < max_new
}.

(** The statistics account for every token of [gen]; [unfinished] rounds have
    neither been rejected nor reached their bonus token. *)
Record tally (gen : list Z) (unfinished : nat) (st : SpeculativeStats) : Prop := {
  ta_tokens : st_accepted_tokens st + st_rejected_blocks st + st_bonus_tokens st = length gen;
  ta_forwards : st_target_block_forwards st = st_rounds st;
  ta_rounds : st_rejected_blocks st + st_bonus_tokens st + unfinished = st_rounds st;
  ta_accepted : st_accepted_tokens st ≤ st_proposed_tokens st;
  ta_proposed : st_proposed_tokens st ≤ st_rounds st * sc_draft_tokens config;
  ta_replayed : st_replayed_prefix_tokens st ≤ length gen
}.

(** How a generation ends. *)
Definition over s : Prop := ∃ gen unfinished,
  told gen s ∧ ended limits eos ps max_new gen (so_finish_reason (sp_result s)) ∧
  unfinished ≤ 1 ∧ tally gen unfinished (so_stats (sp_result s)).

(** The part of the state the invariants read. *)
Record same_core s s' : Prop := {
  co_result : sp_result s' = sp_result s;
  co_matcher : sp_matcher s' = sp_matcher s;
  co_cb : sp_cb s' = sp_cb s
}.

Definition rows_ok s : Prop :=
  length (sp_target_next s) = vocabulary ∧ length (sp_draft_next s) = vocabulary.

Lemma same_core_refl s : same_core s s.
Proof. done. Qed.
Lemma same_core_trans s1 s2 s3 : same_core s1 s2 → same_core s2 s3 → same_core s1 s3.
Proof. intros [] []. split; congruence. Qed.

Lemma live_core gen s s' : same_core s s' → live gen s → live gen s'.
Proof. intros [Hr Hm Hc] [[] ? ?]. split; [split|..]; congruence. Qed.

Lemma live_stats gen f s : live gen s → live gen (update_stats f s).
Proof. by intros [[] ? ?]. Qed.

(** A live generation whose flag is found set. *)
Lemma live_cancelled gen unfinished s : live gen s → tally gen unfinished (so_stats (sp_result s)) →
  unfinished ≤ 1 → over (set_finish Cancelled s).
Proof.
  intros [Ht Hr Hl] Hta Hu. exists gen, unfinished. split; [by destruct Ht|]. split; [|done]. simpl.
  split; [lia|apply Hr| |right].
  - intros n Hn. apply Hr. lia.
  - split; [|done]. rewrite <- (take_ge gen (length gen)) by done. by apply Hr.
Qed.

Definition in_vocab (token : Z) : Prop := ∃ i, token = Z.of_nat i ∧ i < vocabulary.

(** One emission: the generation is over or one token longer. *)
Lemma emit_wp gen unfinished token s : (Z.of_nat vocabulary ≤ i32_max + 1)%Z →
  live gen s → in_vocab token → tally (gen ++ [token]) unfinished (so_stats (sp_result s)) → unfinished ≤ 1 →
  wp (emit token) (spost (λ b s', kept s s' ∧ if b : bool then over s' else live (gen ++ [token]) s')) s.
Proof.
  intros Hv [Ht [Hvoc Hgo] Hl] (i & -> & Hi) Hta Hu.
  destruct (emit_spec gen (Z.of_nat i) s Ht) as (b & s' & Hrun & Hk & Ht' & Hb).
  unfold wp. rewrite Hrun. simpl. split; [done|]. set (gen' := gen ++ [Z.of_nat i]) in *.
  assert (∀ t, t ∈ gen' → outside vocabulary t = false) as Hvoc'.
  { apply vocab_snoc; [done|]. apply outside_spec. unfold in_vocabulary, i32_max in *. lia. }
  pose proof (going_snoc eos ps max_new gen (Z.of_nat i) Hgo) as Hgo'. fold gen' in Hgo'.
  assert (length gen' ≤ max_new) as Hlen by (unfold gen'; rewrite length_app; simpl; lia).
  assert (∀ reason, so_finish_reason (sp_result s') = reason →
    (stop_of eos ps max_new gen' = Some reason ∨ stop_of eos ps max_new gen' = None ∧ reason = Cancelled) →
    over s') as Hover.
  { intros reason <- Hs. exists gen', unfinished. split; [done|]. split; [by split|].
    split; [done|]. by rewrite (kp_stats _ _ Hk). }
  destruct (stop_of eos ps max_new gen') as [reason|] eqn:Es.
  { destruct Hb as [-> Hr]. eapply Hover; [done|]. by left. }
  destruct Hb as [_ Hr]. destruct b; [eapply Hover; [by apply Hr|by right]|]. split; [done| |].
  - split; [done|]. intros n Hn. destruct (decide (n = length gen')) as [->|]; [by rewrite take_ge|apply Hgo'; lia].
  - unfold gen' in Es. rewrite stop_of_snoc in Es. unfold natural_stop in Es. unfold gen' in *.
    rewrite length_app in *. simpl in *. repeat case_decide; try done.
    all: destruct (first_suffix _ _); try done; lia.
Qed.

(** ** The two models and the selection *)
Lemma next_row_spec (C : CausalModel) {SC : SpeculativeModel C} `{!RowLaws C} tokens (cache : @Cache C) :
  match (next_row vocabulary C tokens cache).1 with
  | Ok row => length row = vocabulary
  | Err _ => True
  | Panic _ => False
  end.
Proof.
  unfold next_row. destruct (try_forward_cached_last tokens cache).1 as [e|l]; simpl; [done|].
  case_decide as Hd; simpl; [done|].
  destruct (read_last_logits l) as [e|r] eqn:El; simpl; [done|]. by eapply last_length.
Qed.

Lemma target_row_wp tokens s :
  wp (target_row vocabulary tokens) (spost (λ _ s', same_core s s' ∧
    length (sp_target_next s') = vocabulary ∧ sp_draft_next s' = sp_draft_next s)) s.
Proof.
  unfold wp, target_row. pose proof (next_row_spec T tokens (sp_target_cache s)) as Hn.
  by destruct (next_row vocabulary T tokens _) as [[row|e|p] c].
Qed.

Lemma draft_row_wp tokens s :
  wp (draft_row vocabulary tokens) (spost (λ _ s', same_core s s' ∧
    sp_target_next s' = sp_target_next s ∧ length (sp_draft_next s') = vocabulary)) s.
Proof.
  unfold wp, draft_row. pose proof (next_row_spec D tokens (sp_draft_cache s)) as Hn.
  by destruct (next_row vocabulary D tokens _) as [[row|e|p] c].
Qed.

Lemma both_rows_wp tokens tokens' s :
  wp (mbind' (target_row vocabulary tokens) (λ _, draft_row vocabulary tokens'))
    (spost (λ _ s', same_core s s' ∧ rows_ok s')) s.
Proof.
  eapply spost_bind; [apply target_row_wp|]. intros _ s1 (Hc & Ht & _).
  eapply spost_mono; [apply draft_row_wp|]. intros _ s2 (Hc' & Ht' & Hd).
  split; [by eapply same_core_trans|]. split; congruence.
Qed.

Lemma length_filtered logits sampling :
  match filtered_probabilities logits sampling with
  | Ok probs => length probs = length logits
  | Err _ => True
  | Panic _ => False
  end.
Proof.
  unfold filtered_probabilities, fill.
  pose proof (fill_with_min_p_spec empty_workspace logits sampling zero) as Hf.
  destruct (fill_with_min_p _ _ _ _) as [[probs|e|p] w]; simpl; [|done|done].
  destruct Hf as (_ & _ & weights & <- & _ & ->). cbv zeta. by rewrite !length_fmap.
Qed.

Lemma draw_in_range probs u :
  match draw probs u with
  | Ok t => ∃ i, t = Z.of_nat i ∧ i < length probs
  | Err _ => True
  | Panic p => p = Expect
  end.
Proof.
  pose proof (draw_spec probs u) as Hd. destruct (draw probs u); [|done|by destruct Hd].
  destruct Hd as (_ & i & -> & Hp & _). exists i. split; [done|]. by eapply counted_lt.
Qed.

Lemma argmax_in_range logits t : argmax logits = inr t → ∃ i, t = Z.of_nat i ∧ i < length logits.
Proof.
  intros Ha. pose proof (argmax_spec logits) as Hs. rewrite Ha in Hs.
  destruct Hs as (i & v & -> & Hi & _). exists i. split; [done|]. by eapply lookup_lt_Some.
Qed.

(** A candidate with the distribution it was drawn from. *)
Definition drafted (candidate : Z) (q : list f64) : Prop :=
  in_vocab candidate ∧ (sc_sampling config ≠ None → length q = vocabulary).

Lemma propose_wp logits s : length logits = vocabulary →
  wp (spec_propose config logits) (spost (λ a s', same_core s s' ∧ drafted a.1 a.2 ∧
    sp_target_next s' = sp_target_next s ∧ sp_draft_next s' = sp_draft_next s)) s.
Proof.
  intros Hlen. unfold spec_propose, drafted, in_vocab. destruct (sc_sampling config) as [sampling|] eqn:Ec.
  - wp_step. apply wp_lift. pose proof (length_filtered logits sampling) as Hf.
    destruct (filtered_probabilities logits sampling) as [probs|e|p]; [|done|done].
    wp_step. unfold wp at 1, spec_random. simpl. wp_step. apply wp_lift.
    pose proof (draw_in_range probs (random (sp_rng s)).1) as Hd.
    destruct (draw _ _) as [t|e|p]; [|done|]; [apply wp_ret; rewrite <- Hlen, <- Hf; done|].
    simpl. split; [done|]. by rewrite Ec.
  - wp_step. apply wp_lift. destruct (argmax logits) as [e|t] eqn:Ea; [done|]. apply wp_ret. simpl.
    apply argmax_in_range in Ea. rewrite Hlen in Ea. split_and!; try done.
Qed.

Lemma verify_wp candidate q logits s : drafted candidate q → length logits = vocabulary →
  wp (spec_verify config candidate q logits) (spost (λ a s', same_core s s' ∧ in_vocab a.1 ∧
    sp_target_next s' = sp_target_next s ∧ sp_draft_next s' = sp_draft_next s)) s.
Proof.
  intros [Hin Hq] Hlen. unfold spec_verify. destruct (sc_sampling config) as [sampling|] eqn:Ec.
  - wp_step. apply wp_lift. pose proof (length_filtered logits sampling) as Hf.
    destruct (filtered_probabilities logits sampling) as [probs|e|p]; [|done|done].
    specialize (Hq ltac:(done)). pose proof Hin as (i & -> & Hi). rewrite Nat2Z.id.
    destruct (lookup_lt_is_Some_2 probs i) as [pc Hpc]; [congruence|].
    destruct (lookup_lt_is_Some_2 q i) as [qc Hqc]; [congruence|].
    wp_step. unfold wp at 1, spec_random. simpl. rewrite Hpc, Hqc. do 2 (wp_step; apply wp_ret).
    destruct (lt _ _); [by apply wp_ret|]. wp_step. unfold wp at 1, spec_random. simpl. wp_step. apply wp_lift.
    pose proof (draw_in_range (residual probs q) (random (random (sp_rng s)).2).1) as Hd.
    destruct (draw _ _) as [t|e|p]; [|done|]; [apply wp_ret|simpl; split; [done|by rewrite Ec]].
    destruct Hd as (j & -> & Hj). unfold residual in Hj. rewrite length_zip_with in Hj.
    split; [done|]. split; [exists j; split; [done|lia]|done].
  - wp_step. apply wp_lift. destruct (argmax logits) as [e|t] eqn:Ea; [done|]. apply wp_ret. simpl.
    apply argmax_in_range in Ea. rewrite Hlen in Ea. done.
Qed.

(** ** A round *)
Lemma observe_wp (Q : bool → Locals → Prop) s :
  (∀ b, Q b (set_clock (S (sp_clock s)) s)) → wp (spec_observe control) (spost Q) s.
Proof. unfold wp, spec_observe. simpl. auto. Qed.

Lemma draft_loop_wp count cands dists s : rows_ok s → Forall2 drafted cands dists →
  wp (draft_loop config control eos vocabulary count cands dists) (spost (λ r s',
    match r with
    | None => same_core (set_finish Cancelled s) s'
    | Some (cands', dists') => same_core s s' ∧ rows_ok s' ∧ Forall2 drafted cands' dists' ∧
        length cands' ≤ length cands + count ∧ (0 < length cands + count → cands' ≠ [])
    end)) s.
Proof.
  revert cands dists s. induction count as [|count IH]; intros cands dists s Hrows HF; simpl.
  { apply wp_ret. split_and!; try done; [lia|]. destruct cands; simpl; [lia|done]. }
  eapply spost_bind; [apply (observe_wp (λ _ s', s' = set_clock (S (sp_clock s)) s)); done|].
  intros [|] s1 ->; cbn beta iota; [by wp_steps|]. wp_step. wp_step.
  eapply spost_bind; [apply propose_wp, Hrows|]. intros [t q] s2 (Hc2 & Hd & Ht2 & Hd2). cbn [fst snd] in *.
  eapply spost_bind; [apply draft_row_wp|]. intros _ s3 (Hc3 & Ht3 & Hd3).
  assert (same_core s s3) as Hcore.
  { eapply same_core_trans; [|exact Hc3]. by eapply same_core_trans; [|exact Hc2]. }
  assert (rows_ok s3) as Hrows3 by (split; [rewrite Ht3, Ht2; apply Hrows|done]).
  assert (Forall2 drafted (cands ++ [t]) (dists ++ [q])) as HF3 by (apply Forall2_app; [done|by constructor]).
  assert (length (cands ++ [t]) = length cands + 1) as Hlen by (by rewrite length_app).
  case_decide.
  - apply wp_ret. split_and!; try done; [lia|]. by destruct cands.
  - eapply spost_mono; [by apply IH|]. rewrite Hlen. intros [[cands' dists']|] s'.
    + intros (? & ? & ? & ? & Hne). split_and!; try done; [by eapply same_core_trans|lia|]. intros _. apply Hne. lia.
    + intros [Hr Hm Hcb]. destruct Hcore as [Hr3 Hm3 Hcb3]. simpl in *. split; simpl; [|congruence..].
      by rewrite <- Hr3.
Qed.

(** Replaying the committed tokens. *)
Lemma replay_wp tokens s : rows_ok s →
  wp (replay_loop vocabulary tokens) (spost (λ _ s', same_core s s' ∧ rows_ok s')) s.
Proof.
  revert s. induction tokens as [|t tokens IH]; intros s Hrows; simpl; [by apply wp_ret|].
  eapply spost_bind; [apply target_row_wp|]. intros _ s1 (Hc1 & Ht1 & Hd1).
  eapply spost_bind; [apply draft_row_wp|]. intros _ s2 (Hc2 & Ht2 & Hd2).
  eapply spost_mono; [apply IH; split; congruence|]. intros _ s3 [Hc3 ?]. split; [|done].
  eapply same_core_trans; [|exact Hc3]. by eapply same_core_trans.
Qed.

Lemma row_within (rows : list f32) n i : length rows = n * vocabulary → i < n →
  ∃ row, slice (i * vocabulary) ((i + 1) * vocabulary) rows = Some row ∧ length row = vocabulary.
Proof.
  intros Hlen Hi. unfold slice. rewrite decide_True by nia. eexists. split; [done|].
  rewrite length_take, length_drop. nia.
Qed.

Lemma verification_row_wp (rows : list f32) n i s : rows_ok s → length rows = n * vocabulary → i < n →
  wp (verification_row vocabulary rows i) (spost (λ row s', s' = s ∧ length row = vocabulary)) s.
Proof.
  intros Hrows Hlen Hi. unfold verification_row. case_decide.
  - wp_steps. by split; [|apply Hrows].
  - destruct (row_within rows n (i - 1) Hlen) as (row & Hs & Hr); [lia|].
    replace (i - 1 + 1) with i in Hs by lia. rewrite Hs. by apply wp_ret.
Qed.

Lemma kept_rows s s' : kept s s' → rows_ok s → rows_ok s'.
Proof. intros [] []. split; congruence. Qed.

Lemma core_rows s s' : sp_target_next s' = sp_target_next s → sp_draft_next s' = sp_draft_next s →
  rows_ok s → rows_ok s'.
Proof. intros Ht Hd [Ha Hb]. split; congruence. Qed.

(** A verdict accounts for the token it commits. *)
Lemma tally_verdict gen token accepted st : tally gen 1 st →
  st_accepted_tokens st < st_proposed_tokens st →
  tally (gen ++ [token]) (if accepted : bool then 1 else 0) (count_verdict accepted st).
Proof. intros [] Hlt. split; simpl; rewrite ?length_app; simpl; destruct accepted; lia. Qed.

Context (Hvocab : (Z.of_nat vocabulary ≤ i32_max + 1)%Z).

Definition verified (gen : list Z) (more : nat) (committed : list Z) (rejected : bool) s : Prop :=
  ∃ gen', live gen' s ∧ rows_ok s ∧ length gen + more ≤ length gen' ∧
    tally gen' (if rejected then 0 else 1) (so_stats (sp_result s)) ∧
    st_replayed_prefix_tokens (so_stats (sp_result s)) + length committed ≤ length gen'.

Lemma spec_verify_loop_wp (rows : list f32) dists n cands index committed gen s :
  length rows = n * vocabulary → index + length cands = n → length dists = n →
  Forall2 drafted cands (drop index dists) → live gen s → rows_ok s →
  tally gen 1 (so_stats (sp_result s)) →
  st_accepted_tokens (so_stats (sp_result s)) + length cands ≤ st_proposed_tokens (so_stats (sp_result s)) →
  st_replayed_prefix_tokens (so_stats (sp_result s)) + length committed ≤ length gen →
  wp (verify_loop on_token config control eos vocabulary rows dists index cands committed)
    (spost (λ (r : bool * bool * list Z) s', if r.1.1 then over s'
                    else verified gen (if decide (cands = []) then 0 else 1) r.2 r.1.2 s')) s.
Proof.
  intros Hrows Hn Hdists. revert index committed gen s Hn.
  induction cands as [|c cands IH]; intros index committed gen s Hn HF Hlive Hok Htally Hacc Hrep; simpl.
  { apply wp_ret. simpl. exists gen. split_and!; try done. lia. }
  simpl in *. apply Forall2_cons_inv_l in HF as (q & qs & Hq & HF & Hdrop).
  assert (dists !! index = Some q) as Hlook.
  { rewrite <- (Nat.add_0_r index), <- lookup_drop, Hdrop. done. }
  eapply spost_bind; [apply (verification_row_wp rows n); [done|done|lia]|]. intros row s0 [-> Hrow].
  rewrite Hlook. wp_step. apply wp_ret.
  eapply spost_bind; [by apply verify_wp|]. intros [t acc] s1 (Hc1 & Hin & Ht1 & Hd1). cbn [fst snd] in *.
  pose proof Hc1 as [Hr1 _ _]. wp_step. wp_step.
  assert (tally (gen ++ [t]) (if acc then 1 else 0) (count_verdict acc (so_stats (sp_result s1)))) as Htally1
    by (rewrite Hr1; apply tally_verdict; [done|lia]).
  eapply spost_bind; [eapply (emit_wp gen (if acc then 1 else 0)); [done| |done|done|by destruct acc; lia]|].
  { apply live_stats. by eapply live_core. }
  intros ended s2 [Hk Hover]. destruct ended; [by apply wp_ret|].
  assert (rows_ok s2) as Hok2 by (eapply kept_rows; [done|]; by eapply core_rows).
  pose proof (kp_stats _ _ Hk) as Hst. simpl in Hst. rewrite Hr1 in Hst. rewrite Hr1 in Htally1.
  rewrite <- Hst in Htally1.
  assert (st_replayed_prefix_tokens (so_stats (sp_result s2)) + length (committed ++ [t]) ≤ length (gen ++ [t])) as Hrep2
    by (rewrite Hst, !length_app; simpl; lia).
  destruct acc; cbn beta iota delta [negb].
  - eapply spost_mono; [apply (IH (index + 1) (committed ++ [t]) (gen ++ [t])); try done; [lia| |]|].
    + rewrite <- drop_drop, Hdrop. done.
    + rewrite Hst. simpl. lia.
    + intros [[ended rejected] committed'] s' Hpost. cbn [fst snd] in *. destruct ended; [done|].
      destruct Hpost as (gen' & ? & ? & Hlen & ? & ?). exists gen'. rewrite length_app in Hlen. simpl in Hlen.
      split_and!; try done. lia.
  - apply wp_ret. cbn [fst snd]. exists (gen ++ [t]). split_and!; try done; rewrite length_app in *; simpl in *; lia.
Qed.

(** What holds between rounds. *)
Definition between (gen : list Z) s : Prop :=
  live gen s ∧ rows_ok s ∧ tally gen 0 (so_stats (sp_result s)).

Lemma live_restore gen c c' s : live gen s → live gen (set_draft c (set_target c' s)).
Proof. by intros [[] ? ?]. Qed.

(** The branches of a round after the verification. *)
Lemma rejected_wp gen committed c c' s : live gen s → rows_ok s → tally gen 0 (so_stats (sp_result s)) →
  st_replayed_prefix_tokens (so_stats (sp_result s)) + length committed ≤ length gen →
  wp (mbind' (mmodify (λ s, set_draft c (set_target c' s))) (λ _,
      mbind' (mmodify (update_stats (count_replay (length committed)))) (λ _,
      mbind' (replay_loop vocabulary committed) (λ _, mret false))))
    (spost (λ ended s', ended = false ∧ between gen s')) s.
Proof.
  intros Hlive Hok Hta Hrep. wp_step. wp_step. wp_step. wp_step.
  eapply spost_bind; [by apply replay_wp|]. intros _ s1 [Hc Hok1]. apply wp_ret. split; [done|]. split_and!; [|done|].
  - eapply live_core; [exact Hc|]. by apply live_stats, live_restore.
  - destruct Hc as [-> _ _]. destruct Hta. simpl. by split.
Qed.

Lemma bonus_wp gen last s : live gen s → length last = vocabulary → tally gen 1 (so_stats (sp_result s)) →
  wp (mbind' (spec_propose config last) (λ bonus,
      mbind' (mmodify (update_stats count_bonus)) (λ _,
      mbind' (emit bonus.1) (λ ended,
      if ended : bool then mret true else
      mbind' (target_row vocabulary [bonus.1]) (λ _,
      mbind' (draft_row vocabulary [bonus.1]) (λ _, mret false))))))
    (spost (λ ended s', if ended : bool then over s' else ∃ gen', length gen < length gen' ∧ between gen' s')) s.
Proof.
  intros Hlive Hlen Hta. eapply spost_bind; [by apply propose_wp|].
  intros [t q] s1 (Hc1 & [Hin _] & _ & _). cbn [fst snd] in *. wp_step. wp_step.
  assert (tally (gen ++ [t]) 0 (count_bonus (so_stats (sp_result s1)))) as Hta1.
  { destruct Hc1 as [-> _ _]. destruct Hta. split; simpl; rewrite ?length_app; simpl; lia. }
  eapply spost_bind; [eapply (emit_wp gen 0); [done| |done|done|lia]|].
  { apply live_stats. by eapply live_core. }
  intros ended s2 [Hk Hover]. destruct ended; [by apply wp_ret|].
  eapply spost_bind; [apply target_row_wp|]. intros _ s3 (Hc3 & Ht3 & Hd3).
  eapply spost_bind; [apply draft_row_wp|]. intros _ s4 (Hc4 & Ht4 & Hd4). apply wp_ret.
  exists (gen ++ [t]). rewrite length_app. simpl. split; [lia|].
  assert (same_core s2 s4) as Hcore by (by eapply same_core_trans).
  split_and!; [by eapply live_core|split; congruence|].
  destruct Hcore as [-> _ _]. by rewrite (kp_stats _ _ Hk).
Qed.

Context (Hdraft : sc_draft_tokens config ≠ 0).

Lemma live_length gen s : live gen s → length (generated_token_ids (so_output (sp_result s))) = length gen.
Proof. by intros [[-> _ _ _] _ _]. Qed.

Lemma round_wp gen s : between gen s →
  wp (round on_token config control eos vocabulary) (spost (λ ended s',
    if ended : bool then over s' else ∃ gen', length gen < length gen' ∧ between gen' s')) s.
Proof.
  intros (Hlive & Hok & Hta). unfold round.
  eapply spost_bind; [apply (observe_wp (λ _ s', same_core s s' ∧ rows_ok s')); done|].
  intros cancelled s1 [Hc1 Hok1].
  assert (live gen s1) as Hlive1 by (by eapply live_core).
  assert (tally gen 0 (so_stats (sp_result s1))) as Hta1 by (by destruct Hc1 as [-> _ _]).
  destruct cancelled; [wp_step; wp_step; apply wp_ret; by apply (live_cancelled gen 0); [done..|lia]|].
  wp_step. wp_step. rewrite (live_length gen s1 Hlive1). set (count := min _ _).
  assert (0 < count) as Hcount by (destruct Hlive; unfold count; lia).
  eapply spost_bind; [apply draft_loop_wp; [done|constructor]|]. simpl. intros [[cands dists]|] s2 Hpost.
  2:{ apply wp_ret. assert (over (set_finish Cancelled s1)) as (g & u & Ht & He & Hu & Htt)
        by (by apply (live_cancelled gen 0); [done..|lia]).
      destruct Hpost as [Hr Hm Hcb]. exists g, u. rewrite Hr. split; [|done].
      destruct Ht. split; congruence. }
  destruct Hpost as (Hc2 & Hok2 & HF & Hlen & Hne). specialize (Hne Hcount).
  assert (0 < length cands) as Hpos by (by destruct cands; simpl; [|lia]).
  wp_step. unfold wp at 1, forward_block. cbn [fst snd].
  destruct (try_forward_cached_block cands (sp_target_cache s2)) as [[e|l] c]; [done|]. cbn [fst snd lift].
  case_decide as Hd; [by apply wp_throw|]. wp_step. apply wp_lift.
  destruct (read_rows l) as [e|rows] eqn:Erows; [done|]. cbn [lift].
  assert (length rows = length cands * vocabulary) as Hrows by (by apply (rows_length (C := T) l)).
  wp_step. wp_step. set (s3 := update_stats _ _).
  assert (live gen s3) as Hlive3.
  { apply live_stats. apply (live_core gen s1); [|done]. destruct Hc2. by split. }
  assert (tally gen 1 (so_stats (sp_result s3)) ∧ st_accepted_tokens (so_stats (sp_result s3)) + length cands ≤
    st_proposed_tokens (so_stats (sp_result s3))) as [Hta3 Hacc].
  { simpl. destruct Hc2 as [-> _ _]. destruct Hta1. split; [split|]; simpl; unfold count in Hlen; nia. }
  eapply spost_bind; [apply (observe_wp (λ _ s', s' = set_clock (S (sp_clock s3)) s3)); done|].
  intros cancelled s4 ->. destruct cancelled.
  { wp_step. wp_step. apply wp_ret. by eapply (live_cancelled gen 1); [by destruct Hlive3 as [[] ? ?]| |lia]. }
  eapply spost_bind; [eapply (spec_verify_loop_wp rows dists (length cands) cands 0 [] gen); try done|].
  - by apply Forall2_length in HF.
  - by destruct Hlive3 as [[] ? ?].
  - simpl. destruct Hta3. simpl in *. lia.
  - intros [[ended rejected] committed] s5 Hpost. cbn [fst snd] in *. destruct ended; [by apply wp_ret|].
    rewrite decide_False in Hpost by done. destruct Hpost as (gen' & Hlive5 & Hok5 & Hlen5 & Hta5 & Hrep5).
    destruct rejected.
    + eapply spost_mono; [by apply rejected_wp|]. intros ended s6 [-> ?]. exists gen'. split; [lia|done].
    + destruct (row_within rows (length cands) (length cands - 1) Hrows) as (last & Hlast & Hll); [lia|].
      replace (length cands - 1 + 1) with (length cands) in Hlast by lia. rewrite Hrows, Hlast.
      wp_step. apply wp_ret. eapply spost_mono; [by apply bonus_wp|].
      intros [|] s6; [done|]. intros (gen'' & ? & ?). exists gen''. split; [lia|done].
Qed.

(** Every round that goes on emitted a token: [max_new_tokens] rounds suffice. *)
Lemma spec_loop_wp fuel gen s : between gen s → max_new ≤ length gen + fuel →
  wp (spec_loop on_token config control eos vocabulary fuel) (spost (λ _ s', over s')) s.
Proof.
  revert gen s. induction fuel as [|fuel IH]; intros gen s Hb Hfuel; simpl; wp_step; apply wp_get;
    pose proof Hb as ([_ _ ?] & _); rewrite (live_length gen s) by apply Hb; case_decide; try lia.
  eapply spost_bind; [by apply (round_wp gen)|]. intros [|] s' Hp; [by apply wp_ret|].
  destruct Hp as (gen' & ? & ?). apply (IH gen'); [done|lia].
Qed.

(** ** The whole call *)

(** A returned result: the early return, or the end of the loop. *)
Definition returned (r : SpeculativeGenerationOutput) s : Prop := ∃ gen unfinished,
  so_output r = output_of eos prompt gen ∧
  sp_cb s = told_events on_token cb0 (events_of eos ps max_new gen) ∧
  (gen = [] ∧ (so_finish_reason r = Cancelled ∨ so_finish_reason r = MaxNewTokens) ∨
   ended limits eos ps max_new gen (so_finish_reason r)) ∧
  unfinished ≤ 1 ∧ tally gen unfinished (so_stats r).

Lemma tally_start : tally [] 0 no_stats.
Proof. by split. Qed.

Lemma over_returned s s' : over s → sp_cb s' = sp_cb s → returned (sp_result s) s'.
Proof.
  intros (gen & u & [] & He & Hu & Hta) Hcb. exists gen, u. rewrite Hcb. split_and!; try done. by right.
Qed.

Lemma speculate_wp : Forall (λ p, p ≠ []) ps →
  wp (speculate T D on_token config control eos vocabulary prompt) (spost returned)
    (new_speculation T D prompt config cb0).
Proof.
  intros Hps. unfold speculate. set (s0 := new_speculation _ _ _ _ _).
  eapply spost_bind; [apply (observe_wp (λ _ s', s' = set_clock 1 s0)); done|]. intros cancelled s1 ->.
  assert (so_output (sp_result s0) = output_of eos prompt []) as Hout.
  { unfold output_of. simpl. by rewrite app_nil_r. }
  eapply (spost_bind _ _ (λ _ s', so_output (sp_result s') = so_output (sp_result s0) ∧
    so_stats (sp_result s') = no_stats ∧ sp_cb s' = cb0 ∧
    (so_finish_reason (sp_result s') = Cancelled ∨ so_finish_reason (sp_result s') = MaxNewTokens))).
  { destruct cancelled; [apply wp_modify|apply wp_ret]; simpl; auto. }
  intros _ s2 (Ho & Hst & Hcb & Hfin).
  eapply (spost_bind _ _ (λ stop s', sp_result s' = sp_result s2 ∧ sp_cb s' = cb0 ∧
    (stop = false → 0 < max_new))).
  { case_decide; [by apply wp_ret|]. apply observe_wp. intros b. split_and!; try done. lia. }
  intros stop s3 (Hr & Hcb3 & Hpos). destruct stop.
  { wp_steps. rewrite Hr. exists [], 0. rewrite Ho, Hst. split_and!; first [done|lia|by apply tally_start|by left]. }
  destruct (new_matcher_spec ps Hps) as (m & Hnew & Hpats & Hms). wp_step. apply wp_lift. rewrite Hnew.
  wp_step. wp_step. wp_step. eapply wp_mono; [apply target_row_wp|].
  intros [[]|e|p] s4; [|done|done]. intros (Hc4 & Ht4 & Hd4).
  eapply spost_bind; [apply draft_row_wp|]. intros _ s5 (Hc5 & Ht5 & Hd5).
  assert (same_core (set_matcher m s3) s5) as [Hr5 Hm5 Hcb5] by (by eapply same_core_trans). simpl in *.
  eapply spost_bind; [apply (spec_loop_wp max_new []); [|simpl; lia]|].
  - split_and!; [|split; congruence|rewrite Hr5, Hr, Hst; apply tally_start]. split; [split| |simpl; by apply Hpos].
    + by rewrite Hr5, Hr, Ho.
    + by rewrite Hm5.
    + by rewrite Hm5.
    + by rewrite Hcb5.
    + split; [by intros ? ?%elem_of_nil|]. intros n Hn. simpl in Hn. by replace n with 0 by lia.
  - intros u s6 Hover. wp_step. wp_step. wp_step. apply wp_lift.
    destruct (device_sync _) as [e|[]] eqn:Esync; [done|]. apply wp_ret. by apply over_returned.
Qed.
End Facts.

Section Exact.
Context `{Exponential, Randomness}.
Context (T D : CausalModel) {ST : SpeculativeModel T} {SD : SpeculativeModel D}.
Context `{!RowLaws T, !RowLaws D}.
Context {CB : Type} (on_token : CB → GenerationEvent → bool * CB).

(** What the checks let through. *)
Record valid_speculation (limits draft_limits : CausalModelLimits) (prompt : list Z)
    (config : SpeculativeGenerationConfig) (control : GenerationControl) : Prop := {
  vs_target : valid_generation limits prompt (ordinary config);
  vs_draft : valid_generation draft_limits prompt (ordinary config);
  vs_tokens : sc_draft_tokens config ≠ 0;
  vs_vocabularies : vocab_size limits = vocab_size draft_limits;
  vs_sampling : match sc_sampling config with Some c => validate_sampling c = Ok tt | None => True end;
  vs_patterns : valid_patterns (vocab_size limits) (stop_token_sequences control)
}.

Lemma validate_speculation_spec limits draft_limits prompt config control :
  (N.of_nat (max_model_length limits) ≤ usize_max)%N →
  (N.of_nat (max_model_length draft_limits) ≤ usize_max)%N →
  match validate_speculation limits draft_limits prompt config control with
  | Ok eos => valid_speculation limits draft_limits prompt config control ∧
              eos = list_to_set (sc_eos_token_ids config)
  | Err _ => ¬ valid_speculation limits draft_limits prompt config control
  | Panic _ => False
  end.
Proof.
  intros Hmax Hmax'. unfold validate_speculation.
  pose proof (validate_generation_spec limits prompt (ordinary config) Hmax) as Ht.
  destruct (validate_generation limits _ _) as [eos|e|p]; cbn [res_bind]; [|intros []; tauto|done].
  pose proof (validate_generation_spec draft_limits prompt (ordinary config) Hmax') as Hd.
  destruct (validate_generation draft_limits _ _) as [eos'|e|p]; cbn [res_bind]; [|intros []; tauto|done].
  case_decide as Hb; [intros []; tauto|]. destruct (sc_sampling config) as [sampling|] eqn:Es.
  - pose proof (validate_sampling_safe sampling) as Hsafe.
    destruct (validate_sampling sampling) as [[]|e|p] eqn:Ev; cbn [res_bind];
      [|intros [? ? ? ? Hx ?]; rewrite Es in Hx; congruence|by destruct (Hsafe p)].
    pose proof (validate_patterns_spec (vocab_size limits) 0 (stop_token_sequences control)) as Hp.
    unfold validate_control. destruct (validate_patterns _ _ _); cbn [res_bind]; [|intros []; tauto|done].
    split; [|apply Ht]. split; rewrite ?Es; try tauto. apply dec_stable. tauto.
  - cbn [res_bind].
    pose proof (validate_patterns_spec (vocab_size limits) 0 (stop_token_sequences control)) as Hp.
    unfold validate_control. destruct (validate_patterns _ _ _); cbn [res_bind]; [|intros []; tauto|done].
    split; [|apply Ht]. split; rewrite ?Es; try tauto. apply dec_stable. tauto.
Qed.

Lemma stream_returned limits draft_limits prompt config control cb :
  (N.of_nat (max_model_length limits) ≤ usize_max)%N →
  (N.of_nat (max_model_length draft_limits) ≤ usize_max)%N →
  match generate_causal_speculative_stream T D on_token limits draft_limits prompt config control cb with
  | (Ok r, cb') => valid_speculation limits draft_limits prompt config control ∧
      ∃ s : @Speculation _ T D CB, sp_cb s = cb' ∧ returned T D on_token limits config control prompt cb r s
  | (Err _, _) => True
  | (Panic p, _) => p = Expect ∧ sc_sampling config ≠ None
  end.
Proof.
  intros Hmax Hmax'. unfold generate_causal_speculative_stream.
  pose proof (validate_speculation_spec limits draft_limits prompt config control Hmax Hmax') as Hv.
  destruct (validate_speculation _ _ _ _ _) as [eos|e|p]; [|done|done]. destruct Hv as [Hv ->].
  pose proof (speculate_wp T D on_token limits config control prompt cb) as Hw. unfold wp in Hw.
  specialize (Hw ltac:(by apply Hv) (vs_tokens _ _ _ _ _ Hv)).
  assert (Forall (λ p, p ≠ []) (stop_token_sequences control)) as Hne.
  { apply Forall_forall. intros p Hin. by apply (vs_patterns _ _ _ _ _ Hv). }
  specialize (Hw Hne). destruct (speculate _ _ _ _ _ _ _ _ _) as [[r|e|p] s]; simpl in *; [|done|done].
  split; [done|]. by exists s.
Qed.

(** A speculation that succeeds, greedy or sampled, was valid and
    returns the prompt followed by at most [max_new_tokens] vocabulary tokens.
    It stopped at the first token at which an EOS token, a stop sequence or the
    length limit applied, in the order ordinary generation uses, whatever the
    boundaries of the draft blocks; failing that it was cancelled, or returned
    before its first token.  The callback saw every emitted token once, in order,
    with the reason known at that token, and never a rejected candidate.  No
    index or slice is out of range. *)
Theorem speculation_exact limits draft_limits prompt config control cb :
  (N.of_nat (max_model_length limits) ≤ usize_max)%N →
  (N.of_nat (max_model_length draft_limits) ≤ usize_max)%N →
  let eos := list_to_set (sc_eos_token_ids config) in
  let ps := stop_token_sequences control in
  let max_new := sc_max_new_tokens config in
  match generate_causal_speculative_stream T D on_token limits draft_limits prompt config control cb with
  | (Ok r, cb') => valid_speculation limits draft_limits prompt config control ∧
      ∃ gen, token_ids (so_output r) = prompt ++ gen ∧ generated_token_ids (so_output r) = gen ∧
        (stopped_on_eos (so_output r) = true ↔ ∃ t, so_finish_reason r = EosToken t) ∧
        length gen ≤ max_new ∧ (∀ t, t ∈ gen → in_vocabulary (vocab_size limits) t) ∧
        (∀ n, n < length gen → stop_of eos ps max_new (take n gen) = None) ∧
        match stop_of eos ps max_new gen with
        | Some reason => so_finish_reason r = reason
        | None => so_finish_reason r = Cancelled ∨ gen = [] ∧ so_finish_reason r = MaxNewTokens
        end ∧
        cb' = told_events on_token cb (events_of eos ps max_new gen)
  | (Err _, _) => True
  | (Panic p, _) => p = Expect ∧ sc_sampling config ≠ None
  end.
Proof.
  intros Hmax Hmax'. cbv zeta.
  pose proof (stream_returned limits draft_limits prompt config control cb Hmax Hmax') as Hs.
  destruct (generate_causal_speculative_stream _ _ _ _ _ _ _ _ _) as [[r|e|p] cb']; [|done|done].
  destruct Hs as (Hv & s & <- & gen & u & Ho & Hcb & Hend & _). split; [done|]. exists gen. rewrite Ho.
  split; [done|]. split; [done|]. simpl. destruct Hend as [(-> & Hr)|Hend].
  - split_and!; try done; try (simpl; lia); try (by intros ? ?%elem_of_nil).
    + split; [done|]. intros [t Ht]. destruct Hr; congruence.
    + simpl. tauto.
  - split; [by eapply ended_eos|]. destruct Hend as [Hlen Hvocab Hgoing Hreason].
    split_and!; [done|intros t Ht; by apply outside_spec, Hvocab|done| |done].
    destruct Hreason as [-> |[-> ->]]; [done|by left].
Qed.

(** The statistics of a speculation account for its output: each
    generated token was an accepted candidate, the correction of a rejected block,
    or a bonus token; the accepted candidates were proposed, at most
    [draft_tokens] in a round; every round but the last ended in exactly one
    rejection or bonus token; no more tokens were replayed than generated. *)
Theorem speculation_statistics limits draft_limits prompt config control cb :
  (N.of_nat (max_model_length limits) ≤ usize_max)%N →
  (N.of_nat (max_model_length draft_limits) ≤ usize_max)%N →
  match generate_causal_speculative_stream T D on_token limits draft_limits prompt config control cb with
  | (Ok r, _) =>
      let st := so_stats r in
      let generated := length (generated_token_ids (so_output r)) in
      st_accepted_tokens st + st_rejected_blocks st + st_bonus_tokens st = generated ∧
      generated ≤ sc_max_new_tokens config ∧
      st_accepted_tokens st ≤ st_proposed_tokens st ≤ st_rounds st * sc_draft_tokens config ∧
      st_target_block_forwards st = st_rounds st ∧
      st_rejected_blocks st + st_bonus_tokens st ≤ st_rounds st ≤ st_rejected_blocks st + st_bonus_tokens st + 1 ∧
      st_replayed_prefix_tokens st ≤ generated
  | _ => True
  end.
Proof.
  intros Hmax Hmax'.
  pose proof (stream_returned limits draft_limits prompt config control cb Hmax Hmax') as Hs.
  destruct (generate_causal_speculative_stream _ _ _ _ _ _ _ _ _) as [[r|e|p] cb']; [|done|done].
  destruct Hs as (_ & s & _ & gen & u & Ho & _ & Hend & Hu & []). cbv zeta. rewrite Ho. simpl.
  assert (length gen ≤ sc_max_new_tokens config) as Hlen by (destruct Hend as [[-> _]|[]]; simpl; lia). lia.
Qed.

(** Speculation ends: with any two models whose tensors have as many
    elements as their shapes say, no more rounds run than tokens may be generated,
    and a greedy speculation returns a result or an error, never a panic. *)
Theorem speculation_terminates limits draft_limits prompt config control cb :
  (N.of_nat (max_model_length limits) ≤ usize_max)%N →
  (N.of_nat (max_model_length draft_limits) ≤ usize_max)%N →
  (generate_causal_speculative_stream T D on_token limits draft_limits prompt config control cb).1
    ≠ Panic OutOfFuel ∧
  (sc_sampling config = None → ∀ p,
   (generate_causal_speculative_stream T D on_token limits draft_limits prompt config control cb).1 ≠ Panic p).
Proof.
  intros Hmax Hmax'.
  pose proof (stream_returned limits draft_limits prompt config control cb Hmax Hmax') as Hs.
  destruct (generate_causal_speculative_stream _ _ _ _ _ _ _ _ _) as [[r|e|p] cb']; [done|done|].
  destruct Hs as [-> Hs]. done.
Qed.

(** A flag that is found set at its second reading. *)
Definition set_at_second_reading (control : GenerationControl) : Prop :=
  ∃ flag, cancellation control = Some flag ∧ flag 0 = false ∧ flag 1 = true.

(** The early return reads the cancellation flag twice.  When it is set
    between the two readings, a valid speculation with tokens to generate returns
    none of them and reports [MaxNewTokens], not [Cancelled]. *)
Theorem speculation_cancellation_race limits draft_limits prompt config control cb eos :
  validate_speculation limits draft_limits prompt config control = Ok eos →
  set_at_second_reading control →
  generate_causal_speculative_stream T D on_token limits draft_limits prompt config control cb =
  (Ok (mk_speculative_output (mk_output prompt [] false) MaxNewTokens no_stats), cb).
Proof.
  intros Hv (flag & Hflag & Hfirst & Hsecond). unfold generate_causal_speculative_stream. rewrite Hv.
  unfold speculate, spec_observe, is_cancelled. rewrite Hflag. erewrite bind_ok by (cbn; by rewrite Hfirst).
  erewrite bind_ok by done. destruct (decide _); by erewrite bind_ok by (cbn; by rewrite ?Hsecond).
Qed.
End Exact.
