(* ===== verification/SpeculativeGreedy.v ===== *)
(** * Greedy speculation is greedy generation

    With no sampling, whatever the draft model proposes, a speculation emits the
    tokens the target model alone would emit: same output, same reason, same
    events.  The models are assumed to mean what [SpeculativeModel] documents: a
    block's rows are those of its tokens one by one, and a forked cache is
    independent of the original. *)
From S2P Require Import Prelude Float PagedKv ContinuousBatch GenerationControl Generation.
From S2P Require Import Sampling Speculative SpeculativeSpec.
Open Scope nat_scope.

(** The history a cache holds, and the logits that follow a history. *)
Class ModelSemantics (C : CausalModel) := {
  holds : @Cache C → list Z → Prop;
  row_after : list Z → list f32
}.
Arguments row_after C {_} _.

Class ModelLaws (C : CausalModel) {SC : SpeculativeModel C} {MC : ModelSemantics C} (vocabulary : nat) : Prop := {
  new_holds : holds new_cache [];
  fork_holds c h : holds c h → holds (fork_cache c) h;
  row_length h : length (row_after C h) = vocabulary;
  row_chooses h : ∃ t, argmax (row_after C h) = inr t;
  last_exact c h tokens : holds c h → tokens ≠ [] → ∃ l r c',
    try_forward_cached_last tokens c = (inr l, c') ∧ holds c' (h ++ tokens) ∧
    dims l = (1, 1, vocabulary) ∧ read_last_logits l = inr r ∧ row_values r = row_after C (h ++ tokens) ∧
    greedy_token l = argmax (row_after C (h ++ tokens));
  block_exact c h tokens : holds c h → tokens ≠ [] → ∃ l c',
    try_forward_cached_block tokens c = (inr l, c') ∧ holds c' (h ++ tokens) ∧
    dims l = (1, length tokens, vocabulary) ∧
    read_rows l = inr (mjoin (map (λ n, row_after C (h ++ take n tokens)) (seq 1 (length tokens))));
  sync_succeeds c : device_sync c = inr tt
}.

(** The token a model chooses after a history. *)
Definition choice (C : CausalModel) {MC : ModelSemantics C} (h : list Z) : Z :=
  match argmax (row_after C h) with inr t => t | inl _ => 0%Z end.

Section Greedy.
Context `{Exponential, Randomness}.
Context (T D : CausalModel) {ST : SpeculativeModel T} {SD : SpeculativeModel D}.
Context {MT : ModelSemantics T} {MD : ModelSemantics D}.
Context {CB : Type} (on_token : CB → GenerationEvent → bool * CB).
Context (limits : CausalModelLimits) (config : SpeculativeGenerationConfig) (control : GenerationControl).
Context (prompt : list Z) (cb0 : CB).
Context {LT : ModelLaws T (vocab_size limits)} {LD : ModelLaws D (vocab_size limits)}.
Context (Hgreedy : sc_sampling config = None) (Huncancelled : cancellation control = None).
Notation Locals := (@Speculation _ T D CB).
Implicit Types s : Locals.
Notation eos := (list_to_set (sc_eos_token_ids config) : gset Z).
Notation ps := (stop_token_sequences control).
Notation max_new := (sc_max_new_tokens config).
Notation vocabulary := (vocab_size limits).
Notation emit := (emit on_token config control eos).
Notation told := (told T D on_token config control prompt cb0).
Notation kept := (kept T D).
Notation same_core := (same_core T D).
Notation event_of := (event_of config control).

(** What the target model alone generates after [gen], [n] tokens at most. *)
Fixpoint reference (n : nat) (gen : list Z) (cb : CB) : list Z * GenerationFinishReason * CB :=
  match n with
  | O => (gen, MaxNewTokens, cb)
  | S n' =>
      let token := choice T (prompt ++ gen) in
      let out := on_token cb (event_of gen token) in
      match stop_of eos ps max_new (gen ++ [token]) with
      | Some reason => (gen ++ [token], reason, out.2)
      | None => if out.1 : bool then (gen ++ [token], Cancelled, out.2) else reference n' (gen ++ [token]) out.2
      end
  end.

Lemma choice_eq (C : CausalModel) {SC : SpeculativeModel C} {MC : ModelSemantics C} `{!ModelLaws C vocabulary} h :
  argmax (row_after C h) = inr (choice C h).
Proof. unfold choice. by destruct (row_chooses h) as [t ->]. Qed.

(** A token was emitted and did not stop the generation: there is room for more. *)
Lemma room gen token : length gen < max_new → stop_of eos ps max_new (gen ++ [token]) = None →
  length (gen ++ [token]) < max_new.
Proof.
  rewrite stop_of_snoc, length_app. simpl. unfold natural_stop. intros Hlt Hs.
  destruct (decide (token ∈ eos)); [done|]. destruct (first_suffix _ _); [done|].
  destruct (decide (length gen + 1 = max_new)); [done|lia].
Qed.

(** The generation [goal] is what the emissions from [s] on amount to. *)
Context (goal : list Z * GenerationFinishReason * CB).

Record toward (gen : list Z) s : Prop := {
  tw_told : told gen s;
  tw_length : length gen < max_new;
  tw_goal : reference (max_new - length gen) gen (sp_cb s) = goal
}.

Definition reached s : Prop := ∃ gen,
  so_output (sp_result s) = output_of eos prompt gen ∧ (gen, so_finish_reason (sp_result s), sp_cb s) = goal.

Lemma toward_core gen s s' : same_core s s' → toward gen s → toward gen s'.
Proof. intros [Hr Hm Hc] [[] ? ?]. split; [split|..]; congruence. Qed.

Lemma toward_stats gen f s : toward gen s → toward gen (update_stats f s).
Proof. by intros [[] ? ?]. Qed.

Lemma emit_toward gen s : toward gen s →
  ∃ b s', emit (choice T (prompt ++ gen)) s = (Ok b, s') ∧ kept s s' ∧
    if b : bool then reached s' else toward (gen ++ [choice T (prompt ++ gen)]) s'.
Proof.
  intros [Ht Hlt Hg]. set (token := choice T (prompt ++ gen)).
  destruct (emit_spec T D on_token config control prompt cb0 gen token s Ht) as (b & s' & Hrun & Hk & Ht' & Hb).
  exists b, s'. split; [done|]. split; [done|].
  assert (sp_cb s' = (on_token (sp_cb s) (event_of gen token)).2) as Hcb.
  { rewrite (tl_cb _ _ _ _ _ _ _ _ _ Ht'), (tl_cb _ _ _ _ _ _ _ _ _ Ht). apply told_snoc. }
  assert (∃ n, max_new - length gen = S n ∧ n = max_new - length (gen ++ [token])) as (n & Hn & Hn')
    by (exists (max_new - length gen - 1); rewrite length_app; simpl; lia).
  rewrite Hn in Hg. simpl in Hg. fold token in Hg. rewrite <- Hcb in Hg.
  assert (is_cancelled control (sp_clock s) = false) as Hnc by (unfold is_cancelled; by rewrite Huncancelled).
  destruct (stop_of eos ps max_new (gen ++ [token])) as [reason|] eqn:Es.
  { destruct Hb as [-> <-]. exists (gen ++ [token]). split; [by destruct Ht'|done]. }
  destruct Hb as [-> Hb]. rewrite Hnc, orb_false_r in *. destruct (on_token (sp_cb s) _).1.
  - exists (gen ++ [token]). split; [by destruct Ht'|]. by rewrite Hb.
  - split; [done|by apply room|]. by rewrite <- Hn'.
Qed.

(** ** The models *)

(** Both branches hold [h], and the rows read last are those after [h]. *)
Record coherent (h : list Z) s : Prop := {
  ch_target : holds (sp_target_cache s) h;
  ch_draft : holds (sp_draft_cache s) h;
  ch_target_next : sp_target_next s = row_after T h;
  ch_draft_next : sp_draft_next s = row_after D h
}.

Lemma kept_coherent h s s' : kept s s' → coherent h s → coherent h s'.
Proof. intros [] []. split; congruence. Qed.

Lemma next_row_exact (C : CausalModel) {SC : SpeculativeModel C} {MC : ModelSemantics C} `{!ModelLaws C vocabulary}
    c h tokens : holds c h → tokens ≠ [] →
  ∃ c', next_row vocabulary C tokens c = (Ok (row_after C (h ++ tokens)), c') ∧ holds c' (h ++ tokens).
Proof.
  intros Hc Hne. destruct (last_exact c h tokens Hc Hne) as (l & r & c' & Hf & Hc' & Hd & Hr & Hv & _).
  exists c'. split; [|done]. unfold next_row. rewrite Hf. simpl. rewrite decide_False by tauto. rewrite Hr. simpl.
  by rewrite Hv.
Qed.

Lemma target_row_exact h tokens s : holds (sp_target_cache s) h → tokens ≠ [] →
  ∃ s', target_row vocabulary tokens s = (Ok tt, s') ∧ same_core s s' ∧
    holds (sp_target_cache s') (h ++ tokens) ∧ sp_target_next s' = row_after T (h ++ tokens) ∧
    sp_draft_cache s' = sp_draft_cache s ∧ sp_draft_next s' = sp_draft_next s.
Proof.
  intros Hc Hne. unfold target_row. destruct (next_row_exact T _ h tokens Hc Hne) as (c & -> & Hc').
  eexists. split; [reflexivity|]. split_and!; [by split|exact Hc'|done..].
Qed.

Lemma draft_row_exact h tokens s : holds (sp_draft_cache s) h → tokens ≠ [] →
  ∃ s', draft_row vocabulary tokens s = (Ok tt, s') ∧ same_core s s' ∧
    holds (sp_draft_cache s') (h ++ tokens) ∧ sp_draft_next s' = row_after D (h ++ tokens) ∧
    sp_target_cache s' = sp_target_cache s ∧ sp_target_next s' = sp_target_next s.
Proof.
  intros Hc Hne. unfold draft_row. destruct (next_row_exact D _ h tokens Hc Hne) as (c & -> & Hc').
  eexists. split; [reflexivity|]. split_and!; [by split|exact Hc'|done..].
Qed.

(** Appending the same tokens to both branches. *)
Lemma both_rows_exact h tokens s : holds (sp_target_cache s) h → holds (sp_draft_cache s) h → tokens ≠ [] →
  ∃ s', mbind' (target_row vocabulary tokens) (λ _, draft_row vocabulary tokens) s = (Ok tt, s') ∧
    same_core s s' ∧ coherent (h ++ tokens) s'.
Proof.
  intros Ht Hd Hne. destruct (target_row_exact h tokens s Ht Hne) as (s1 & Hr1 & Hc1 & Hh1 & Hn1 & Hk1 & _).
  rewrite (bind_ok _ _ _ _ _ Hr1). rewrite <- Hk1 in Hd.
  destruct (draft_row_exact h tokens s1 Hd Hne) as (s2 & Hr2 & Hc2 & Hh2 & Hn2 & Hk2 & Hk2').
  exists s2. split; [done|]. split; [by eapply same_core_trans|]. split; congruence.
Qed.

Lemma observe_exact s : spec_observe control s = (Ok false, set_clock (S (sp_clock s)) s).
Proof. unfold spec_observe, is_cancelled. by rewrite Huncancelled. Qed.

Lemma propose_exact logits t s : argmax logits = inr t → spec_propose config logits s = (Ok (t, []), s).
Proof. unfold spec_propose. rewrite Hgreedy. by intros ->. Qed.

Lemma draft_loop_exact count cands dists h s : holds (sp_draft_cache s) (h ++ cands) →
  sp_draft_next s = row_after D (h ++ cands) → length dists = length cands →
  ∃ cands' dists' s', draft_loop config control eos vocabulary count cands dists s =
      (Ok (Some (cands', dists')), s') ∧ same_core s s' ∧
    sp_target_cache s' = sp_target_cache s ∧ sp_target_next s' = sp_target_next s ∧
    holds (sp_draft_cache s') (h ++ cands') ∧ length dists' = length cands' ∧
    length cands ≤ length cands' ∧ (0 < count → length cands < length cands').
Proof.
  revert cands dists s. induction count as [|count IH]; intros cands dists s Hd Hn Hlen; simpl.
  { exists cands, dists, s. split_and!; done || lia. }
  erewrite bind_ok by apply observe_exact. cbn beta iota. erewrite bind_ok by done.
  erewrite bind_ok by (apply propose_exact; simpl; rewrite Hn; apply (choice_eq D)). cbn [fst snd].
  set (t := choice D (h ++ cands)).
  destruct (draft_row_exact (h ++ cands) [t] (set_clock (S (sp_clock s)) s) Hd) as
    (s1 & Hr1 & Hc1 & Hh1 & Hn1 & Hk1 & Hk1'); [done|]. rewrite (bind_ok _ _ _ _ _ Hr1).
  rewrite <- app_assoc in Hh1, Hn1. simpl in Hk1, Hk1'. assert (same_core s s1) as Hcore by (by destruct Hc1).
  case_decide.
  - exists (cands ++ [t]), (dists ++ [[]]), s1. rewrite !length_app. simpl. split_and!; done || lia.
  - destruct (IH (cands ++ [t]) (dists ++ [[]]) s1) as (cs & ds & s2 & Hrun & Hc2 & Htc & Htn & Hh2 & Hl2 & Hle & _);
      [done|done|rewrite !length_app; simpl; lia|].
    exists cs, ds, s2. rewrite length_app in Hle. simpl in Hle.
    split_and!; [done|by eapply same_core_trans|congruence|congruence|done|done|lia|lia].
Qed.

(** ** A round *)
Lemma length_rows (f : nat → list f32) a m : (∀ j, length (f j) = vocabulary) →
  length (mjoin (map f (seq a m))) = m * vocabulary.
Proof. intros Hf. revert a. induction m as [|m IH]; intros a; simpl; [done|]. by rewrite length_app, Hf, IH. Qed.

Lemma lookup_rows (f : nat → list f32) n k : (∀ j, length (f j) = vocabulary) → k < n →
  slice (k * vocabulary) ((k + 1) * vocabulary) (mjoin (map f (seq 1 n))) = Some (f (S k)).
Proof.
  intros Hf Hk. pose proof (λ a m, length_rows f a m Hf) as Hlen.
  assert (∃ m, n = k + S m) as [m ->] by (exists (n - k - 1); lia).
  unfold slice. rewrite decide_True by (rewrite Hlen; nia).
  rewrite seq_app, map_app, join_app, drop_app_length' by (by rewrite Hlen). simpl.
  rewrite take_app_length' by (rewrite Hf; lia). done.
Qed.

Section Round.
(** The round began after [gen0] and proposed [full], read back as [rows]. *)
Context (gen0 full : list Z) (rows : list f32) (dists : list (list f64)).
Context (Hrows : rows = mjoin (map (λ n, row_after T ((prompt ++ gen0) ++ take n full)) (seq 1 (length full)))).
Context (Hdists : length dists = length full).

Lemma verification_row_exact i s : sp_target_next s = row_after T (prompt ++ gen0) → i < length full →
  verification_row vocabulary rows i s = (Ok (row_after T ((prompt ++ gen0) ++ take i full)), s).
Proof.
  intros Hn Hi. unfold verification_row. case_decide as Hi0; [subst i; simpl; rewrite app_nil_r, <- Hn; done|].
  rewrite Hrows. pose proof (lookup_rows (λ n, row_after T ((prompt ++ gen0) ++ take n full)) (length full) (i - 1)) as Hl.
  replace (i - 1 + 1) with i in Hl by lia. rewrite Hl; [|intros j; apply row_length|lia].
  by replace (S (i - 1)) with i by lia.
Qed.

Lemma verify_exact candidate q logits t s : argmax logits = inr t →
  spec_verify config candidate q logits s = (Ok (t, bool_decide (t = candidate)), s).
Proof. unfold spec_verify. rewrite Hgreedy. by intros ->. Qed.

(** The verification emits the target's own choices, up to the first that differs. *)
Lemma verify_loop_exact cands i s : full = take i full ++ cands → i + length cands = length full →
  sp_target_next s = row_after T (prompt ++ gen0) → toward (gen0 ++ take i full) s →
  ∃ ended rejected committed s',
    verify_loop on_token config control eos vocabulary rows dists i cands (take i full) s =
      (Ok (ended, rejected, committed), s') ∧
    sp_target_cache s' = sp_target_cache s ∧ sp_draft_cache s' = sp_draft_cache s ∧
    if ended : bool then reached s'
    else toward (gen0 ++ committed) s' ∧ i + (if decide (cands = []) then 0 else 1) ≤ length committed ∧
         (rejected = false → committed = full).
Proof.
  revert i s. induction cands as [|c cands IH]; intros i s Hfull Hlen Hn Htw; simpl in *.
  { rewrite app_nil_r in Hfull. exists false, false, (take i full), s. split_and!; try done. rewrite length_take. lia. }
  erewrite bind_ok by (apply verification_row_exact; [done|lia]).
  destruct (lookup_lt_is_Some_2 dists i) as [q Hq]; [lia|]. rewrite Hq. erewrite bind_ok by done.
  erewrite bind_ok by (eapply verify_exact, (choice_eq T)). rewrite <- app_assoc. cbn [fst snd].
  set (t := choice T (prompt ++ gen0 ++ take i full)). erewrite bind_ok by done.
  set (accepted := bool_decide (t = c)).
  destruct (emit_toward (gen0 ++ take i full) (update_stats (count_verdict accepted) s)) as
    (b & s1 & Hrun & [Htc Hdc Htn _ _] & Hb); [by apply toward_stats|]. fold t in Hrun, Hb.
  simpl in Htc, Hdc, Htn.
  rewrite (bind_ok _ _ _ _ _ Hrun). destruct b.
  { by exists true, (negb accepted), (take i full ++ [t]), s1. }
  rewrite <- app_assoc in Hb. unfold accepted. case_bool_decide as Ht; cbn [negb].
  - assert (take (i + 1) full = take i full ++ [t]) as Htake.
    { rewrite Hfull at 1. rewrite take_app. rewrite (take_ge (take i full)) by (rewrite length_take; lia).
      rewrite length_take, Nat.min_l by lia. replace (i + 1 - i) with 1 by lia. simpl. by rewrite Ht. }
    rewrite <- Htake in *. destruct (IH (i + 1) s1) as (e & r & cm & s2 & Hrun2 & Htc2 & Hdc2 & Hpost).
    + rewrite Htake, <- app_assoc. simpl. rewrite Ht. done.
    + lia.
    + by rewrite Htn.
    + done.
    + exists e, r, cm, s2. split_and!; [done|congruence|congruence|]. destruct e; [done|].
      destruct Hpost as (? & Hl & Hf). split_and!; [done|destruct (decide (cands = [])); simpl; lia|done].
  - exists false, true, (take i full ++ [t]), s1. split_and!; try done. rewrite length_app, length_take. simpl. lia.
Qed.
End Round.

Lemma replay_exact tokens h s : holds (sp_target_cache s) h → holds (sp_draft_cache s) h → tokens ≠ [] →
  ∃ s', replay_loop vocabulary tokens s = (Ok tt, s') ∧ same_core s s' ∧ coherent (h ++ tokens) s'.
Proof.
  revert h s. induction tokens as [|t tokens IH]; [done|]. intros h s Ht Hd _. simpl.
  destruct (both_rows_exact h [t] s Ht Hd) as (s1 & Hrun & Hc1 & Hco); [done|].
  assert (∀ k : unit → M Locals GenerationError unit, mbind' (target_row vocabulary [t]) (λ _, mbind' (draft_row vocabulary [t]) k) s = k tt s1) as Hstep.
  { intros k. unfold mbind' in Hrun |- *. destruct (target_row _ _ s) as [[[]|e|p] s0]; try done. by rewrite Hrun. }
  rewrite Hstep. destruct tokens as [|t' tokens]; [by exists s1|].
  destruct (IH (h ++ [t]) s1) as (s2 & Hrun2 & Hc2 & Hco2); [apply Hco|apply Hco|done|].
  exists s2. rewrite <- app_assoc in Hco2. split; [done|]. split; [by eapply same_core_trans|done].
Qed.

(** What holds between rounds. *)
Definition steady (gen : list Z) s : Prop := toward gen s ∧ coherent (prompt ++ gen) s.

(** The bonus token: the target's choice after the whole accepted block. *)
Lemma bonus_exact gen last s : toward gen s → last = row_after T (prompt ++ gen) →
  holds (sp_target_cache s) (prompt ++ gen) → holds (sp_draft_cache s) (prompt ++ gen) →
  ∃ b s', mbind' (spec_propose config last) (λ bonus,
      mbind' (mmodify (update_stats count_bonus)) (λ _,
      mbind' (emit bonus.1) (λ ended,
      if ended : bool then mret true else
      mbind' (target_row vocabulary [bonus.1]) (λ _,
      mbind' (draft_row vocabulary [bonus.1]) (λ _, mret false))))) s = (Ok b, s') ∧
    if b : bool then reached s' else ∃ gen', length gen < length gen' ∧ steady gen' s'.
Proof.
  intros Htw -> Ht Hd. erewrite bind_ok by apply propose_exact, (choice_eq T). cbn [fst snd].
  set (t := choice T (prompt ++ gen)). erewrite bind_ok by done.
  destruct (emit_toward gen (update_stats count_bonus s)) as (b & s1 & Hrun & [Htc Hdc _ _ _] & Hb);
    [by apply toward_stats|]. fold t in Hrun, Hb. simpl in Htc, Hdc. rewrite (bind_ok _ _ _ _ _ Hrun).
  destruct b; [by exists true, s1|]. rewrite <- Htc in Ht. rewrite <- Hdc in Hd.
  destruct (target_row_exact (prompt ++ gen) [t] s1 Ht) as (s2 & Hr2 & Hc2 & Hh2 & Hn2 & Hk2 & _); [done|].
  rewrite (bind_ok _ _ _ _ _ Hr2). rewrite <- Hk2 in Hd.
  destruct (draft_row_exact (prompt ++ gen) [t] s2 Hd) as (s3 & Hr3 & Hc3 & Hh3 & Hn3 & Hk3 & Hk3'); [done|].
  rewrite (bind_ok _ _ _ _ _ Hr3). exists false, s3. split; [done|]. exists (gen ++ [t]).
  split; [rewrite length_app; simpl; lia|]. rewrite <- app_assoc in Hh2, Hn2, Hh3, Hn3. split.
  - eapply toward_core; [|exact Hb]. by eapply same_core_trans.
  - split; congruence.
Qed.

Context (Hdraft : sc_draft_tokens config ≠ 0).

Lemma toward_generated gen s : toward gen s → generated_token_ids (so_output (sp_result s)) = gen.
Proof. by intros [[-> _ _ _] _ _]. Qed.

Lemma round_exact gen s : steady gen s →
  ∃ b s', round on_token config control eos vocabulary s = (Ok b, s') ∧
    if b : bool then reached s' else ∃ gen', length gen < length gen' ∧ steady gen' s'.
Proof.
  intros [Htw [Ht Hd Htn Hdn]]. unfold round. erewrite bind_ok by apply observe_exact. cbn beta iota.
  erewrite bind_ok by done. set (s1 := set_clock _ s).
  assert (toward gen s1) as Htw1 by (by eapply toward_core; [|exact Htw]).
  rewrite (toward_generated gen s1 Htw1). set (count := min _ _).
  assert (0 < count) as Hcount by (destruct Htw; unfold count; lia).
  destruct (draft_loop_exact count [] [] (prompt ++ gen) s1) as
    (full & dists & s2 & Hrun2 & Hc2 & Htc2 & Htn2 & Hd2 & Hl2 & _ & Hpos); [by rewrite app_nil_r..|done|].
  specialize (Hpos Hcount). simpl in Hpos. rewrite (bind_ok _ _ _ _ _ Hrun2). cbn beta iota.
  assert (full ≠ []) as Hne by (by destruct full; [simpl in Hpos; lia|]).
  assert (holds (sp_target_cache s2) (prompt ++ gen)) as Ht2 by (by rewrite Htc2).
  destruct (block_exact (C := T) _ _ full Ht2 Hne) as (l & c & Hb & Hhc & Hdim & Hrows).
  erewrite bind_ok by (unfold forward_block; by rewrite Hb). cbn [fst snd]. rewrite decide_False by tauto.
  set (rows := mjoin _) in Hrows. rewrite Hrows. erewrite bind_ok by done. erewrite bind_ok by done.
  erewrite bind_ok by apply observe_exact. cbn beta iota. set (s3 := set_clock _ _).
  assert (toward gen s3) as Htw3.
  { apply (toward_core gen (update_stats (count_round (length full)) s2)); [done|].
    apply toward_stats. by eapply toward_core. }
  destruct (verify_loop_exact gen full rows dists eq_refl Hl2 full 0 s3) as (ended & rejected & committed & s4 & Hrun4 & Htc4 & Hdc4 & Hpost);
    [done|done|by rewrite <- Htn; simpl|by rewrite app_nil_r|].
  simpl in Hrun4. rewrite (bind_ok _ _ _ _ _ Hrun4). cbn beta iota. destruct ended; [by exists true, s4|].
  destruct Hpost as (Htw4 & Hl4 & Hf4). rewrite decide_False in Hl4 by done. simpl in Hl4, Htc4, Hdc4.
  destruct rejected.
  - do 2 erewrite bind_ok by done.
    destruct (replay_exact committed (prompt ++ gen) (update_stats (count_replay (length committed))
      (set_draft (fork_cache (sp_draft_cache s1)) (set_target (fork_cache (sp_target_cache s1)) s4))))
      as (s5 & Hrun5 & Hc5 & Hco5); [by apply fork_holds|by apply fork_holds|by destruct committed; [simpl in *; lia|]|].
    rewrite (bind_ok _ _ _ _ _ Hrun5). exists false, s5. split; [done|]. exists (gen ++ committed).
    split; [rewrite length_app; lia|]. rewrite <- app_assoc in Hco5. split; [|done].
    eapply toward_core; [exact Hc5|]. apply toward_stats. by destruct Htw4 as [[] ? ?].
  - specialize (Hf4 eq_refl) as ->.
    pose proof (lookup_rows (λ n, row_after T ((prompt ++ gen) ++ take n full)) (length full) (length full - 1)) as Hlast.
    replace (length full - 1 + 1) with (length full) in Hlast by lia. fold rows in Hlast.
    assert (length rows = length full * vocabulary) as -> by (apply length_rows; intros j; apply row_length).
    rewrite Hlast; [|intros j; apply row_length|lia]. erewrite bind_ok by done.
    destruct (bonus_exact (gen ++ full) (row_after T ((prompt ++ gen) ++ take (S (length full - 1)) full)) s4)
      as (b & s5 & Hrun5 & Hpost); [done|rewrite take_ge by lia; by rewrite <- app_assoc| | |].
    + rewrite Htc4, app_assoc. done.
    + rewrite Hdc4, app_assoc. done.
    + exists b, s5. split; [done|]. destruct b; [done|]. destruct Hpost as (gen' & Hl & ?). exists gen'.
      split; [rewrite length_app in Hl; lia|done].
Qed.

Lemma spec_loop_exact fuel gen s : steady gen s → max_new ≤ length gen + fuel →
  ∃ s', spec_loop on_token config control eos vocabulary fuel s = (Ok tt, s') ∧ reached s'.
Proof.
  revert gen s. induction fuel as [|fuel IH]; intros gen s Hs Hfuel; simpl; erewrite bind_ok by done;
    pose proof Hs as [[_ Hlt _] _]; rewrite (toward_generated gen s) by apply Hs; case_decide; try lia.
  destruct (round_exact gen s Hs) as (b & s1 & Hrun & Hb). rewrite (bind_ok _ _ _ _ _ Hrun).
  destruct b; [by exists s1|]. destruct Hb as (gen' & ? & ?). apply (IH gen'); [done|lia].
Qed.

(** ** Ordinary generation *)

(** Logits read after [h]. *)
Definition logits_for (h : list Z) (l : @Logits T) : Prop :=
  dims l = (1, 1, vocabulary) ∧ greedy_token l = argmax (row_after T h).

Lemma choice_within h : (Z.of_nat vocabulary ≤ i32_max + 1)%Z → outside vocabulary (choice T h) = false.
Proof.
  intros Hv. apply outside_spec. destruct (argmax_in_range (row_after T h) (choice T h)) as (i & -> & Hi).
  - apply (choice_eq T).
  - rewrite row_length in Hi. unfold in_vocabulary, i32_max in *. lia.
Qed.

Lemma generation_loop_exact n gen matcher logits (s : @Stream T unit CB) :
  (Z.of_nat vocabulary ≤ i32_max + 1)%Z → patterns matcher = ps → matcher_state gen matcher →
  n + length gen = max_new → 0 < n →
  logits_for (prompt ++ gen) logits → holds (st_cache s) (prompt ++ gen) →
  ∃ gen' reason (s' : @Stream T unit CB), generation_loop greedy_select on_token limits max_new control eos (seq (length gen) n)
      (output_of eos prompt gen) matcher logits s = (Ok (output_of eos prompt gen', reason), s') ∧
    (gen', reason, st_cb s') = reference n gen (st_cb s).
Proof.
  intros Hv. revert gen matcher logits s. induction n as [|n IH]; [lia|].
  intros gen matcher logits s Hps Hms Hn _ [Hdim Htok] Hcache. simpl.
  erewrite bind_ok by (unfold observe, is_cancelled; by rewrite Huncancelled). cbn beta iota.
  assert (batch_one limits logits = true) as -> by (unfold batch_one; rewrite Hdim; by rewrite !bool_decide_eq_true_2).
  set (t := choice T (prompt ++ gen)). cbn [negb].
  erewrite bind_ok by (unfold choose, greedy_select; rewrite Htok; simpl; rewrite (choice_eq T); done).
  fold t. pose proof (choice_within (prompt ++ gen) Hv) as Hout. fold t in Hout. rewrite Hout.
  destruct (push_spec matcher t gen Hms) as (matcher' & Hpush & Hps' & Hms').
  erewrite bind_ok by (unfold mlift; by rewrite Hpush). cbn [fst snd]. rewrite Hps.
  rewrite push_token_output. cbn [generated_token_ids output_of].
  rewrite <- (stop_of_snoc eos ps max_new gen t). fold (event_of gen t).
  erewrite bind_ok by done. cbn [st_cb].
  destruct (stop_of eos ps max_new (gen ++ [t])) as [reason|] eqn:Es.
  { exists (gen ++ [t]), reason. by eexists. }
  destruct (on_token (st_cb s) (event_of gen t)) as [[|] cb] eqn:Ecb; cbn [fst snd].
  { erewrite bind_ok by done. exists (gen ++ [t]), Cancelled. by eexists. }
  erewrite bind_ok by (unfold observe, is_cancelled; by rewrite Huncancelled). cbn beta iota.
  destruct (last_exact (C := T) (st_cache s) (prompt ++ gen) [t] Hcache) as (l & r & c & Hf & Hc & Hd & _ & _ & Hg); [done|].
  erewrite bind_ok by (unfold forward; simpl; by rewrite Hf).
  rewrite <- app_assoc in Hc, Hg.
  assert (length (gen ++ [t]) < max_new) as Hroom by (apply room; [lia|done]).
  rewrite length_app in Hroom. simpl in Hroom.
  replace (S (length gen)) with (length (gen ++ [t])) by (rewrite length_app; simpl; lia).
  apply IH; [congruence|done|rewrite length_app; simpl; lia|lia|done|done].
Qed.

(** The ordinary generation, once its arguments are valid. *)
Lemma greedy_stream_exact : validate_generation limits prompt (ordinary config) = Ok eos →
  validate_control control vocabulary = Ok tt → (Z.of_nat vocabulary ≤ i32_max + 1)%Z → prompt ≠ [] →
  0 < max_new → Forall (λ p, p ≠ []) ps →
  ∃ gen reason (s' : @Stream T unit CB),
    generate_causal_greedy_stream on_token limits prompt (ordinary config) control cb0 =
      (Ok (mk_controlled (output_of eos prompt gen) reason), s') ∧
    (gen, reason, st_cb s') = reference max_new [] cb0.
Proof.
  intros Hval Hctl Hv Hprompt Hpos Hps. unfold generate_causal_greedy_stream, generate_with_selector_stream.
  erewrite bind_ok by (unfold mlift; by rewrite Hval).
  erewrite bind_ok by (unfold mlift; by rewrite Hctl). cbv zeta. simpl. rewrite decide_False by lia.
  erewrite bind_ok by (unfold observe, is_cancelled; by rewrite Huncancelled). cbn beta iota.
  destruct (new_matcher_spec ps Hps) as (m & Hnew & Hpats & Hms).
  erewrite bind_ok by (unfold mlift; by rewrite Hnew). erewrite bind_ok by done.
  destruct (last_exact (C := T) new_cache [] prompt new_holds Hprompt) as (l & r & c & Hf & Hc & Hd & _ & _ & Hg).
  erewrite bind_ok by (unfold forward; simpl; by rewrite Hf). cbn [st_sel st_cb st_clock snd fst].
  destruct (generation_loop_exact max_new [] m l (mk_stream c tt cb0 1)) as (gen & reason & s' & Hrun & Href);
    try done; [by rewrite app_nil_r|by rewrite app_nil_r|].
  simpl in Hrun. replace (mk_output prompt [] false) with (output_of eos prompt [])
    by (unfold output_of; by rewrite app_nil_r).
  rewrite (bind_ok _ _ _ _ _ Hrun). erewrite bind_ok by done.
  erewrite bind_ok by (unfold mlift; by rewrite sync_succeeds). by exists gen, reason, s'.
Qed.
End Greedy.

Section Equivalence.
Context `{Exponential, Randomness}.
Context (T D : CausalModel) {ST : SpeculativeModel T} {SD : SpeculativeModel D}.
Context {MT : ModelSemantics T} {MD : ModelSemantics D}.
Context {CB : Type} (on_token : CB → GenerationEvent → bool * CB).

(** The speculation, once its arguments are valid. *)
Lemma speculate_exact limits config control prompt cb
    {LT : ModelLaws T (vocab_size limits)} {LD : ModelLaws D (vocab_size limits)} :
  sc_sampling config = None → cancellation control = None → sc_draft_tokens config ≠ 0 →
  prompt ≠ [] → 0 < sc_max_new_tokens config → Forall (λ p, p ≠ []) (stop_token_sequences control) →
  let eos := list_to_set (sc_eos_token_ids config) in
  ∃ s gen, speculate T D on_token config control eos (vocab_size limits) prompt (new_speculation T D prompt config cb) =
      (Ok (sp_result s), s) ∧ so_output (sp_result s) = output_of eos prompt gen ∧
    (gen, so_finish_reason (sp_result s), sp_cb s) =
      reference T on_token config control prompt (sc_max_new_tokens config) [] cb.
Proof.
  intros Hg Hu Hd Hprompt Hpos Hps. cbv zeta. unfold speculate.
  assert (∀ s : @Speculation _ T D CB, spec_observe control s = (Ok false, set_clock (S (sp_clock s)) s)) as Hobs
    by (intros s; by apply observe_exact).
  erewrite bind_ok by apply Hobs. cbn beta iota. erewrite bind_ok by done.
  rewrite decide_False by lia. erewrite bind_ok by apply Hobs. cbn beta iota.
  destruct (new_matcher_spec _ Hps) as (m & Hnew & Hpats & Hms).
  erewrite bind_ok by (unfold mlift; by rewrite Hnew). erewrite bind_ok by done. set (s1 := set_matcher m _).
  set (goal := reference T on_token config control prompt (sc_max_new_tokens config) [] cb).
  destruct (target_row_exact T D on_token limits cb (LT := LT) goal [] prompt s1) as (s2 & Hr2 & Hc2 & Hh2 & Hn2 & Hk2 & _);
    [apply new_holds|done|]. rewrite (bind_ok _ _ _ _ _ Hr2).
  destruct (draft_row_exact T D on_token limits cb (LD := LD) goal [] prompt s2) as (s3 & Hr3 & Hc3 & Hh3 & Hn3 & Hk3 & Hk3');
    [rewrite Hk2; apply new_holds|done|]. rewrite (bind_ok _ _ _ _ _ Hr3).
  assert (same_core T D s1 s3) as Hc by (by eapply same_core_trans).
  destruct (spec_loop_exact T D on_token limits config control prompt cb Hg Hu goal Hd
    (sc_max_new_tokens config) [] s3) as (s4 & Hr4 & gen & Hout & Hgoal).
  - destruct Hc as [Hr Hm Hcb]. split.
    + split; [split|done|].
      * rewrite Hr. unfold output_of. simpl. by rewrite app_nil_r.
      * by rewrite Hm.
      * by rewrite Hm.
      * by rewrite Hcb.
      * rewrite Hcb. simpl. by rewrite Nat.sub_0_r.
    + rewrite app_nil_r. simpl in *. split; congruence.
  - simpl. lia.
  - rewrite (bind_ok _ _ _ _ _ Hr4). erewrite bind_ok by done.
    erewrite bind_ok by (unfold mlift; by rewrite sync_succeeds). by exists s4, gen.
Qed.

(** Claim C3.  Greedy speculation is greedy generation.  For any target and draft
    models that mean what [SpeculativeModel] documents, any draft length, stop
    sequences, EOS tokens and callback, an uncancelled greedy speculation returns
    what [generate_causal_greedy_stream] on the target alone returns: the same
    tokens, finish reason and callback state, or the same error. *)
Theorem greedy_speculation_is_greedy_generation limits draft_limits config control prompt cb
    {LT : ModelLaws T (vocab_size limits)} {LD : ModelLaws D (vocab_size limits)} :
  (N.of_nat (max_model_length limits) ≤ usize_max)%N →
  (N.of_nat (max_model_length draft_limits) ≤ usize_max)%N →
  sc_sampling config = None → cancellation control = None → sc_draft_tokens config ≠ 0 →
  vocab_size draft_limits = vocab_size limits → valid_generation draft_limits prompt (ordinary config) →
  let speculation := generate_causal_speculative_stream T D on_token limits draft_limits prompt config control cb in
  match generate_causal_greedy_stream (H := T) on_token limits prompt (ordinary config) control cb with
  | (Ok r, s) => ∃ stats,
      speculation = (Ok (mk_speculative_output (output r) (finish_reason r) stats), st_cb s)
  | (Err e, _) => speculation = (Err e, cb)
  | (Panic _, _) => False
  end.
Proof.
  intros Hmax Hmax' Hg Hu Hd Hvocab Hdv. cbv zeta. unfold generate_causal_speculative_stream, validate_speculation.
  pose proof (validate_generation_spec draft_limits prompt (ordinary config) Hmax') as Hvd.
  pose proof (validate_generation_spec limits prompt (ordinary config) Hmax) as Hvt.
  destruct (validate_generation limits prompt (ordinary config)) as [eos|e|p] eqn:Et; cbn [res_bind];
    [|unfold generate_causal_greedy_stream, generate_with_selector_stream;
      erewrite bind_err by (unfold mlift; by rewrite Et); done|done].
  destruct Hvt as [(_ & Hv & Hprompt & _) ->]. simpl in Et |- *.
  destruct (validate_generation draft_limits prompt (ordinary config)); cbn [res_bind]; [|done|done].
  rewrite decide_False by (intros [?|?]; congruence). rewrite Hg. cbn [res_bind]. unfold validate_control.
  pose proof (validate_patterns_spec (vocab_size limits) 0 (stop_token_sequences control)) as Hp.
  destruct (validate_patterns _ _ _) as [[]|e|p] eqn:Ep; cbn [res_bind];
    [|unfold generate_causal_greedy_stream, generate_with_selector_stream, validate_control;
      erewrite bind_ok by (unfold mlift; by rewrite Et);
      erewrite bind_err by (unfold mlift; by rewrite Ep); done|done].
  assert (Forall (λ p, p ≠ []) (stop_token_sequences control)) as Hne
    by (apply Forall_forall; intros p Hin; by apply Hp).
  destruct (decide (sc_max_new_tokens config = 0)) as [H0'|H0'].
  - unfold generate_causal_greedy_stream, generate_with_selector_stream, validate_control.
    erewrite bind_ok by (unfold mlift; by rewrite Et). erewrite bind_ok by (unfold mlift; by rewrite Ep). cbv zeta.
    simpl. rewrite H0'. simpl. unfold speculate, observe, spec_observe, is_cancelled, mbind'. simpl.
    rewrite Hu, H0'. simpl. by eexists.
  - destruct (greedy_stream_exact T on_token limits config control prompt cb Hu Hd Et Ep Hv Hprompt)
      as (gen & reason & s & Hrun & Href); [lia|done|]. rewrite Hrun.
    destruct (speculate_exact limits config control prompt cb Hg Hu Hd Hprompt) as (s' & gen' & Hrun' & Hout & Href');
      [lia|done|]. rewrite Hrun'. cbn [fst snd output finish_reason]. rewrite <- Href in Href'.
    injection Href' as -> Hfin Hcb. exists (so_stats (sp_result s')). rewrite <- Hcb, <- Hfin.
    destruct (sp_result s'); simpl in *; congruence.
Qed.
End Equivalence.
