(* ===== verification/SpeculativeExamples.v ===== *)
(** * Speculation on two small models

    A target over three tokens and a draft that agrees with it on some histories
    only: blocks are accepted, rejected and replayed. *)
From S2P Require Import Prelude Float PagedKv ContinuousBatch GenerationControl Generation.
From S2P Require Import Sampling Speculative SpeculativeSpec SpeculativeGreedy.
Open Scope nat_scope.

#[local] Instance toy_exp : Exponential := λ x, if eq x zero then one else zero.

(** A generator that counts in sixteenths. *)
#[local] Instance toy_random : Randomness := {
  Rng := N;
  random n := (f64_div (f64_of_Z (Z.of_N (n mod 16))) (f64_of_Z 16), (n + 1)%N);
  seed_from_u64 n := n;
  from_entropy := 0%N;
  state_bytes := 1;
  serialize_state n := [Z.of_N n];
  deserialize_state l := match l with z :: _ => Z.to_N z | [] => 0%N end
}.

(** Logits that prefer one token of three. *)
Definition prefer (t : nat) : list f32 := map (λ i, f32_of_Z (if decide (i = t) then 5 else 1)%Z) (seq 0 3).

(** The token after a history; every [lapse]-th is another. *)
Definition toy_next (lapse : nat) (h : list Z) : nat :=
  (length h * 2 + Z.to_nat (default 0%Z (last h)) + if decide (length h mod lapse = 0) then 1 else 0) mod 3.
Definition toy_row (lapse : nat) (h : list Z) : list f32 := prefer (toy_next lapse h).

(** A model whose cache is its history and whose logits are a count of rows and
    their values. *)
Definition toy_causal (lapse : nat) : CausalModel := {|
  Cache := list Z;
  Logits := nat * list f32;
  Row := list f32;
  new_cache := [];
  try_forward_cached_last tokens cache := (inr (1, toy_row lapse (cache ++ tokens)), cache ++ tokens);
  dims l := if decide (length l.2 = l.1 * 3) then (1, l.1, 3) else (0, 0, 0);
  on_device _ := true;
  greedy_token l := argmax l.2;
  read_last_logits l := inr l.2;
  device_sync _ := inr tt
|}.

#[local] Instance toy_target : CausalModel := toy_causal 0.
#[local] Instance toy_draft : CausalModel := toy_causal 4.

Definition toy_block (lapse : nat) (tokens cache : list Z) : list f32 :=
  mjoin (map (λ n, toy_row lapse (cache ++ take n tokens)) (seq 1 (length tokens))).

Definition toy_speculative (lapse : nat) : SpeculativeModel (toy_causal lapse) :=
  Build_SpeculativeModel (toy_causal lapse) (λ cache, cache)
    (λ tokens cache, (inr (length tokens, toy_block lapse tokens cache), cache ++ tokens))
    (λ l, inr l.2) (λ r, r).
#[local] Instance toy_target_speculative : SpeculativeModel toy_target := toy_speculative 0.
#[local] Instance toy_draft_speculative : SpeculativeModel toy_draft := toy_speculative 4.

#[local] Instance toy_row_laws lapse : @RowLaws (toy_causal lapse) (toy_speculative lapse).
Proof.
  split.
  - intros [n l] r v Hd [= <-]. simpl in *. case_decide; [|discriminate]. injection Hd as -> <-. lia.
  - intros [n l] rows m v Hd [= <-]. simpl in *. case_decide; [|discriminate]. injection Hd as -> <-. lia.
Qed.
#[local] Instance toy_target_rows : RowLaws toy_target := toy_row_laws 0.
#[local] Instance toy_draft_rows : RowLaws toy_draft := toy_row_laws 4.

Definition toy_semantics (lapse : nat) : ModelSemantics (toy_causal lapse) :=
  Build_ModelSemantics (toy_causal lapse) (λ cache h, cache = h) (toy_row lapse).
#[local] Instance toy_target_semantics : ModelSemantics toy_target := toy_semantics 0.
#[local] Instance toy_draft_semantics : ModelSemantics toy_draft := toy_semantics 4.

Lemma toy_row_length lapse h : length (toy_row lapse h) = 3.
Proof. reflexivity. Qed.

Lemma toy_rows_length lapse tokens cache a n :
  length (mjoin (map (λ n, toy_row lapse (cache ++ take n tokens)) (seq a n))) = n * 3.
Proof.
  revert a. induction n as [|n IH]; intros a; [done|]. cbn [seq map]. change (mjoin (?x :: ?l)) with (x ++ mjoin l).
  rewrite length_app, toy_row_length, IH. lia.
Qed.

Lemma toy_block_length lapse tokens cache : length (toy_block lapse tokens cache) = length tokens * 3.
Proof. apply toy_rows_length. Qed.

Lemma toy_laws lapse :
  @ModelLaws (toy_causal lapse) (toy_speculative lapse) (toy_semantics lapse) 3.
Proof.
  split.
  - reflexivity.
  - by intros c h ->.
  - intros h. reflexivity.
  - intros h. simpl. unfold toy_row. assert (toy_next lapse h < 3) as Hlt by (apply Nat.mod_upper_bound; lia).
    destruct (toy_next lapse h) as [|[|[|n]]]; [eexists; vm_compute; reflexivity..|lia].
  - intros c h tokens -> Hne. do 3 eexists. split; [reflexivity|]. by split_and!.
  - intros c h tokens -> Hne. do 2 eexists. split; [reflexivity|]. split_and!; [done| |done].
    simpl. by rewrite decide_True by apply toy_block_length.
  - reflexivity.
Qed.
#[local] Instance toy_target_laws : ModelLaws toy_target 3 := toy_laws 0.
#[local] Instance toy_draft_laws : ModelLaws toy_draft 3 := toy_laws 4.

Definition toy_limits : CausalModelLimits := mk_limits 3 40.
Definition toy_prompt : list Z := [1; 2]%Z.
Definition toy_config : SpeculativeGenerationConfig := mk_speculative 9 [] 3 None.
Definition toy_control : GenerationControl := mk_control [[2; 2; 2]]%Z None.
Definition note (seen : list Z) (e : GenerationEvent) : bool * list Z := (false, seen ++ [event_token_id e]).
Definition toy_run (config : SpeculativeGenerationConfig) (control : GenerationControl) :=
  generate_causal_speculative_stream toy_target toy_draft note toy_limits toy_limits toy_prompt config control [].

(** One accepted block, one rejected, and one cut by the length limit. *)
Example speculation_exact_witness :
  (∃ r, (toy_run toy_config toy_control).1 = Ok r) ∧
  match toy_run toy_config toy_control with
  | (Ok r, cb') => valid_speculation toy_limits toy_limits toy_prompt toy_config toy_control ∧
      ∃ gen, token_ids (so_output r) = toy_prompt ++ gen ∧ generated_token_ids (so_output r) = gen ∧
        (stopped_on_eos (so_output r) = true ↔ ∃ t, so_finish_reason r = EosToken t) ∧
        length gen ≤ 9 ∧ (∀ t, t ∈ gen → in_vocabulary 3 t) ∧
        (∀ n, n < length gen → stop_of (list_to_set []) [[2; 2; 2]]%Z 9 (take n gen) = None) ∧
        match stop_of (list_to_set []) [[2; 2; 2]]%Z 9 gen with
        | Some reason => so_finish_reason r = reason
        | None => so_finish_reason r = Cancelled ∨ gen = [] ∧ so_finish_reason r = MaxNewTokens
        end ∧
        cb' = told_events note [] (events_of (list_to_set []) [[2; 2; 2]]%Z 9 gen)
  | (Err _, _) => True
  | (Panic p, _) => p = Expect ∧ sc_sampling toy_config ≠ None
  end.
Proof.
  split; [eexists; vm_compute; reflexivity|].
  apply (speculation_exact toy_target toy_draft note toy_limits toy_limits toy_prompt toy_config toy_control []);
    vm_compute; discriminate.
Defined.

Example speculation_statistics_witness :
  (∃ r, (toy_run toy_config toy_control).1 = Ok r ∧ so_stats r = mk_stats 3 8 7 1 1 3 3) ∧
  match toy_run toy_config toy_control with
  | (Ok r, _) =>
      let st := so_stats r in
      let generated := length (generated_token_ids (so_output r)) in
      st_accepted_tokens st + st_rejected_blocks st + st_bonus_tokens st = generated ∧
      generated ≤ 9 ∧
      st_accepted_tokens st ≤ st_proposed_tokens st ≤ st_rounds st * 3 ∧
      st_target_block_forwards st = st_rounds st ∧
      st_rejected_blocks st + st_bonus_tokens st ≤ st_rounds st ≤ st_rejected_blocks st + st_bonus_tokens st + 1 ∧
      st_replayed_prefix_tokens st ≤ generated
  | _ => True
  end.
Proof.
  split; [eexists; split; vm_compute; reflexivity|].
  apply (speculation_statistics toy_target toy_draft note toy_limits toy_limits toy_prompt toy_config toy_control []);
    vm_compute; discriminate.
Defined.

Example speculation_terminates_witness :
  (toy_run toy_config toy_control).1 ≠ Panic OutOfFuel ∧
  (sc_sampling toy_config = None → ∀ p, (toy_run toy_config toy_control).1 ≠ Panic p).
Proof.
  apply (speculation_terminates toy_target toy_draft note toy_limits toy_limits toy_prompt toy_config toy_control []);
    vm_compute; discriminate.
Defined.

(** A flag set after its first reading. *)
Definition raced_control : GenerationControl := mk_control [] (Some (λ clock, Nat.leb 1 clock)).

Example speculation_cancellation_race_witness :
  toy_run toy_config raced_control =
  (Ok (mk_speculative_output (mk_output toy_prompt [] false) MaxNewTokens no_stats), []).
Proof.
  apply (speculation_cancellation_race toy_target toy_draft note toy_limits toy_limits toy_prompt toy_config
    raced_control [] ∅); [vm_compute; reflexivity|]. eexists. split; [reflexivity|]. by split.
Defined.

Example greedy_speculation_is_greedy_generation_witness :
  match generate_causal_greedy_stream (H := toy_target) note toy_limits toy_prompt (ordinary toy_config) toy_control [] with
  | (Ok r, s) => ∃ stats,
      toy_run toy_config toy_control = (Ok (mk_speculative_output (output r) (finish_reason r) stats), st_cb s)
  | (Err e, _) => toy_run toy_config toy_control = (Err e, [])
  | (Panic _, _) => False
  end.
Proof.
  apply (greedy_speculation_is_greedy_generation toy_target toy_draft note toy_limits toy_limits toy_config
    toy_control toy_prompt []); try reflexivity; [vm_compute; discriminate..|].
  split_and!; [simpl; lia|vm_compute; discriminate|discriminate|simpl; lia|].
  intros t [-> |[-> |[]%elem_of_nil]%elem_of_cons]%elem_of_cons; vm_compute; by split.
Defined.
