(* ===== verification/Runtime.v ===== *)
(** * Runtime errors, layouts, capabilities and memory budgets

    src/src/runtime/error.rs, shape.rs, memory.rs and capabilities.rs: the error
    taxonomy and the recovery decision, storage accounting of tensor views, the
    device checks, the page capacity of a memory size and the shared logical
    budget. *)
From S2P Require Import Prelude PagedKv.
Open Scope nat_scope.
Open Scope m_scope.

(** ** error.rs *)
Inductive RuntimeErrorKind :=
| InvalidInput | Unsupported | DriverIncompatible | OutOfMemory | QueueFull | KindCancelled
| Numerical | DeviceLost | Synchronization | WorkerPanicked | Closed | Internal.

#[export] Instance RuntimeErrorKind_eq_dec : EqDecision RuntimeErrorKind.
Proof. solve_decision. Defined.

Record RuntimeError := mk_error {
  kind : RuntimeErrorKind;
  message : string
}.

#[export] Instance RuntimeError_eq_dec : EqDecision RuntimeError.
Proof. solve_decision. Defined.

(** [{:?}] of a kind, and [Display for RuntimeError]. *)
Definition kind_name (k : RuntimeErrorKind) : string :=
  match k with
  | InvalidInput => "InvalidInput" | Unsupported => "Unsupported" | DriverIncompatible => "DriverIncompatible"
  | OutOfMemory => "OutOfMemory" | QueueFull => "QueueFull" | KindCancelled => "Cancelled"
  | Numerical => "Numerical" | DeviceLost => "DeviceLost" | Synchronization => "Synchronization"
  | WorkerPanicked => "WorkerPanicked" | Closed => "Closed" | Internal => "Internal"
  end.
Definition show_error (e : RuntimeError) : string := kind_name (kind e) +:+ ": " +:+ message e.

Definition invalid (m : string) : RuntimeError := mk_error InvalidInput m.
Definition internal (m : string) : RuntimeError := mk_error Internal m.

Notation Run A := (res RuntimeError A).

Inductive WorkState := NotSubmitted | Quiescent | WorkUnknown.
#[export] Instance WorkState_eq_dec : EqDecision WorkState.
Proof. solve_decision. Defined.

Inductive RecoveryAction :=
| FailRequest
| RetryWithTokenLimit (limit : nat)
| RetryPortable
| QuarantineDevice.

Record RecoveryPolicy := mk_policy {
  max_retries : nat;
  allow_portable : bool
}.

Definition default_policy : RecoveryPolicy := mk_policy 2 true.

(** The kinds after which a device is not reused. *)
Definition fatal_kind (k : RuntimeErrorKind) : bool :=
  match k with DeviceLost | Synchronization | WorkerPanicked | Internal => true | _ => false end.

Definition decide_recovery (policy : RecoveryPolicy) (error : RuntimeErrorKind) (work : WorkState)
    (committed_cache_intact : bool) (attempts token_limit minimum_tokens : nat)
    (already_portable : bool) : RecoveryAction :=
  if bool_decide (work = WorkUnknown) || negb committed_cache_intact || fatal_kind error then QuarantineDevice
  else if decide (max_retries policy ≤ attempts) then FailRequest
  else
    match error with
    | OutOfMemory =>
        if decide (0 < minimum_tokens ∧ minimum_tokens < token_limit)
        then RetryWithTokenLimit (max (token_limit / 2) minimum_tokens) else FailRequest
    | Unsupported => if allow_portable policy && negb already_portable then RetryPortable else FailRequest
    | _ => FailRequest
    end.

(** ** shape.rs *)
Inductive TensorDType := F16 | BF16 | F32 | F64 | I8 | I4.
#[export] Instance TensorDType_eq_dec : EqDecision TensorDType.
Proof. solve_decision. Defined.

Definition bits (d : TensorDType) : N :=
  match d with F16 | BF16 => 16 | F32 => 32 | F64 => 64 | I8 => 8 | I4 => 4 end%N.

Definition is_float (d : TensorDType) : bool :=
  match d with F16 | BF16 | F32 | F64 => true | _ => false end.

(** [TensorDType::storage_bytes] *)
Definition dtype_storage_bytes (d : TensorDType) (elements : N) : Run N :=
  do? b := ok_or (checked_mul u64_max elements (bits d)) (invalid "tensor bit count overflow") in
  Ok (b / 8 + (if decide (b `mod` 8 = 0) then 0 else 1))%N.

Record TensorLayout := mk_layout {
  shape : list nat;
  strides : list nat;
  offset_elements : nat
}.

(** [try_fold] with [checked_mul]. *)
Fixpoint fold_mul (n : nat) (dims : list nat) : Run nat :=
  match dims with
  | [] => Ok n
  | d :: rest => do? m := ok_or (usize_mul n d) (invalid "tensor element count overflow") in fold_mul m rest
  end.

Definition elements (l : TensorLayout) : Run nat :=
  if decide (0 ∈ shape l) then Ok 0 else fold_mul 1 (shape l).

Fixpoint fold_span (n : nat) (dims : list (nat * nat)) : Run nat :=
  match dims with
  | [] => Ok n
  | (d, s) :: rest =>
      do? m := ok_or (match usize_mul (d - 1) s with Some span => usize_add n span | None => None end)
                 (invalid "tensor storage span overflow") in
      fold_span m rest
  end.

Definition storage_span_elements (l : TensorLayout) : Run nat :=
  if decide (0 ∈ shape l) then Ok 0
  else
    do? last := fold_span (offset_elements l) (zip (shape l) (strides l)) in
    ok_or (usize_add last 1) (invalid "tensor last offset overflow").

(** [TensorLayout::new] *)
Definition new_layout (shape strides : list nat) (offset : nat) : Run TensorLayout :=
  if decide (length shape ≠ length strides) then Err (invalid "shape/stride rank mismatch")
  else
    let value := mk_layout shape strides offset in
    do? _ := elements value in
    do? _ := storage_span_elements value in
    Ok value.

(** The loop of [TensorLayout::contiguous], from the last dimension: the strides
    and the next stride. *)
Fixpoint row_major (shape : list nat) : Run (list nat * nat) :=
  match shape with
  | [] => Ok ([], 1)
  | d :: rest =>
      do? inner := row_major rest in
      do? stride := ok_or (usize_mul inner.2 d) (invalid "contiguous stride overflow") in
      Ok (inner.2 :: inner.1, stride)
  end.

Definition contiguous (shape : list nat) : Run TensorLayout :=
  do? strides :=
    (if decide (0 ∈ shape) then Ok (replicate (length shape) 0)
     else do? out := row_major shape in Ok out.1) in
  new_layout shape strides 0.

(** [TensorLayout::storage_bytes]; a [usize] fits in a [u64]. *)
Definition storage_bytes (l : TensorLayout) (d : TensorDType) : Run N :=
  do? span := storage_span_elements l in
  if decide (N.of_nat span ≤ u64_max)%N then dtype_storage_bytes d (N.of_nat span)
  else Err (invalid "tensor storage span exceeds u64").

(** The loop of [is_contiguous] over the reversed dimensions. *)
Fixpoint contiguous_loop (expected : nat) (dims : list (nat * nat)) : bool :=
  match dims with
  | [] => true
  | (d, s) :: rest =>
      if decide (1 < d ∧ s ≠ expected) then false
      else match usize_mul expected d with
           | Some next => contiguous_loop next rest
           | None => false
           end
  end.

Definition is_contiguous (l : TensorLayout) : bool :=
  if decide (0 ∈ shape l) then true else contiguous_loop 1 (rev (zip (shape l) (strides l))).

Definition validate_storage (l : TensorLayout) (d : TensorDType) (available_bytes : N) : Run unit :=
  do? bytes := storage_bytes l d in
  if decide (available_bytes < bytes)%N then Err (invalid "tensor view exceeds its storage allocation")
  else Ok tt.

Record AttentionShape := mk_attention {
  at_batch : nat;
  at_query_heads : nat;
  at_kv_heads : nat;
  at_query_tokens : nat;
  at_cached_tokens : nat;
  at_head_dimension : nat
}.

Definition validate_attention (a : AttentionShape) : Run unit :=
  if decide (0 ∈ [at_batch a; at_query_heads a; at_kv_heads a; at_query_tokens a; at_cached_tokens a;
                  at_head_dimension a]) then
    Err (invalid "invalid attention dimensions or grouped-query head ratio")
  else if decide (at_query_heads a mod at_kv_heads a ≠ 0 ∨ at_cached_tokens a < at_query_tokens a) then
    Err (invalid "invalid attention dimensions or grouped-query head ratio")
  else
    do? _ := contiguous [at_batch a; at_query_heads a; at_query_tokens a; at_head_dimension a] in
    do? _ := contiguous [at_batch a; at_kv_heads a; at_cached_tokens a; at_head_dimension a] in
    Ok tt.

(** ** capabilities.rs *)
Inductive BackendKind := Nvidia | Amd | Cann | Host | Custom (name : string).
#[export] Instance BackendKind_eq_dec : EqDecision BackendKind.
Proof. solve_decision. Defined.

Record DeviceKey := mk_device {
  backend : BackendKind;
  ordinal : N
}.
#[export] Instance DeviceKey_eq_dec : EqDecision DeviceKey.
Proof. solve_decision. Defined.

(** [CudaApiVersion(u32)] *)
Definition CudaApiVersion := N.

Definition from_encoded (value : N) : Run CudaApiVersion :=
  if decide (value < 1000 ∨ value `mod` 10 ≠ 0)%N then Err (invalid "invalid CUDA API version encoding")
  else Ok value.
Definition encoded (v : CudaApiVersion) : N := v.
Definition major (v : CudaApiVersion) : N := (v / 1000)%N.
Definition minor (v : CudaApiVersion) : N := ((v `mod` 1000) / 10)%N.

Record CudaRequirements := mk_requirements {
  minimum_api : CudaApiVersion;
  minimum_ptx_api : option CudaApiVersion;
  uses_ptx : bool
}.

(** [CudaRequirements::check] *)
Definition check_driver (r : CudaRequirements) (driver_api : CudaApiVersion) : Run unit :=
  if decide (driver_api < minimum_api r)%N then
    Err (mk_error DriverIncompatible
           ("driver CUDA API " +:+ pretty (encoded driver_api) +:+ " is below required " +:+
            pretty (encoded (minimum_api r))))
  else if uses_ptx r then
    do? minimum := ok_or (minimum_ptx_api r) (mk_error DriverIncompatible
      "PTX minimum driver requirement is unknown; probe module load or provide a verified requirement") in
    if decide (driver_api < minimum)%N then
      Err (mk_error DriverIncompatible "driver is below this PTX build's verified requirement")
    else Ok tt
  else Ok tt.

Record DeviceFingerprint := mk_fingerprint {
  fp_device : DeviceKey;
  fp_architecture : string;
  fp_driver : string;
  fp_runtime : string;
  fp_compiler_build : string
}.

Record DeviceCapabilities := mk_capabilities {
  identity : DeviceFingerprint;
  arithmetic_dtypes : list TensorDType;
  subgroup_min : N;
  subgroup_max : N;
  subgroup_reductions : bool;
  packed_subgroups : bool;
  max_threads_x : N;
  max_threads_per_block : N;
  max_grid_x : N
}.

Definition supports_dtype (c : DeviceCapabilities) (d : TensorDType) : bool :=
  bool_decide (d ∈ arithmetic_dtypes c).

(** [u32::is_power_of_two]: exactly one bit is set. *)
Definition is_power_of_two (n : N) : bool :=
  bool_decide (n ≠ 0%N) && bool_decide (N.land n (n - 1) = 0%N).

Definition fixed_reduction_width (minimum maximum : N) (reductions packed : bool)
    (max_threads_x max_threads_per_block : N) : option N :=
  if bool_decide (minimum ≠ 0%N) && bool_decide (minimum = maximum) && is_power_of_two minimum &&
     reductions && packed && bool_decide (minimum ≤ max_threads_x)%N &&
     bool_decide (minimum ≤ max_threads_per_block)%N
  then Some minimum else None.

Definition reduction_width (c : DeviceCapabilities) : option N :=
  fixed_reduction_width (subgroup_min c) (subgroup_max c) (subgroup_reductions c) (packed_subgroups c)
    (max_threads_x c) (max_threads_per_block c).

Definition supports_two_lane_decode (subgroup : option N) (head_dimension query_sequence : nat) : bool :=
  bool_decide (query_sequence = 1) &&
  match subgroup with
  | Some n =>
      match checked_mul u32_max n 2 with
      | Some m => bool_decide (N.of_nat head_dimension = m)
      | None => false
      end
  | None => false
  end.

(** ** memory.rs *)
Record KvMemoryGeometry := mk_geometry {
  layers : nat;
  kv_heads : nat;
  head_dimension : nat;
  tokens_per_page : nat;
  dtype : TensorDType
}.

(** [try_fold(2, ..)] over the dimensions, each converted to [u64]. *)
Fixpoint fold_dimensions (n : N) (dims : list nat) : Run N :=
  match dims with
  | [] => Ok n
  | d :: rest =>
      if decide (u64_max < N.of_nat d)%N then Err (invalid "KV dimension exceeds u64")
      else
        do? m := ok_or (checked_mul u64_max n (N.of_nat d)) (invalid "KV page size overflow") in
        fold_dimensions m rest
  end.

Definition bytes_per_page (g : KvMemoryGeometry) : Run N :=
  let dimensions := [layers g; kv_heads g; head_dimension g; tokens_per_page g] in
  if decide (0 ∈ dimensions ∨ is_float (dtype g) = false) then
    Err (invalid "dense KV geometry requires positive dimensions and a floating dtype")
  else
    do? elements := fold_dimensions 2 dimensions in
    dtype_storage_bytes (dtype g) elements.

Definition page_capacity (g : KvMemoryGeometry) (available_bytes workspace_bytes headroom_bytes : N) :
    Run nat :=
  do? page := bytes_per_page g in
  do? usable :=
    ok_or (match checked_sub available_bytes workspace_bytes with
           | Some n => checked_sub n headroom_bytes
           | None => None
           end) (mk_error OutOfMemory "workspace and headroom exceed available memory") in
  if decide (page = 0)%N then Panic DivByZero
  else
    let count := (usable / page)%N in
    if decide (count = 0)%N then Err (mk_error OutOfMemory "no complete KV page fits")
    else
      let count := N.min count u32_max in
      if decide (usize_max < count)%N then Err (invalid "KV page capacity exceeds usize")
      else Ok (N.to_nat count).

(** [PagedKvCacheConfig::from_memory_budget] *)
Definition from_memory_budget (g : KvMemoryGeometry) (available_bytes workspace_bytes headroom_bytes : N)
    (max_sequence_length : nat) : res PagedKvError PagedKvCacheConfig :=
  do? num_pages := map_err show_error (page_capacity g available_bytes workspace_bytes headroom_bytes) in
  let config := mk_config (tokens_per_page g) num_pages max_sequence_length in
  do? _ := validate_config config in
  Ok config.

(** The state behind the lock; a reservation is the number of bytes it holds. *)
Record BudgetState := mk_budget {
  bg_limit : N;
  bg_reserved : N;
  bg_peak : N
}.

Definition new_budget (capacity_bytes headroom_bytes : N) : Run BudgetState :=
  match checked_sub capacity_bytes headroom_bytes with
  | Some n => if decide (0 < n)%N then Ok (mk_budget n 0 0)
              else Err (invalid "memory headroom leaves no usable capacity")
  | None => Err (invalid "memory headroom leaves no usable capacity")
  end.

Definition try_reserve (bytes : N) (b : BudgetState) : Run N * BudgetState :=
  if decide (bytes = 0%N) then (Err (invalid "memory reservation must be nonzero"), b)
  else
    match checked_add u64_max (bg_reserved b) bytes with
    | Some reserved =>
        if decide (reserved ≤ bg_limit b)%N
        then (Ok bytes, mk_budget (bg_limit b) reserved (N.max (bg_peak b) reserved))
        else (Err (mk_error OutOfMemory "logical device budget exhausted"), b)
    | None => (Err (mk_error OutOfMemory "logical device budget exhausted"), b)
    end.

(** [Drop for MemoryReservation]: [saturating_sub]. *)
Definition drop_reservation (bytes : N) (b : BudgetState) : BudgetState :=
  mk_budget (bg_limit b) (bg_reserved b - bytes) (bg_peak b).

(** [MemoryBudgetSnapshot] has the same three fields. *)
Definition snapshot (b : BudgetState) : N * N * N := (bg_limit b, bg_reserved b, bg_peak b).
