(* ===== verification/RuntimeSpec.v ===== *)
(** * Storage views, memory sizing and recovery

    A tensor view that validates is inside its allocation; contiguous views are
    row-major; the page count chosen for a memory size fits it and is the largest;
    the reservations of a budget never exceed it; a recovery decision never
    retries work that may still be running, and its retries run out. *)
From S2P Require Import Prelude PagedKv Runtime.
Open Scope nat_scope.

(** ** Addresses *)
Definition in_range (index shape : list nat) : Prop := Forall2 lt index shape.

Fixpoint dot (index strides : list nat) : nat :=
  match index, strides with
  | i :: index, s :: strides => i * s + dot index strides
  | _, _ => 0
  end.

(** Where an element of a view is in its storage. *)
Definition address (l : TensorLayout) (index : list nat) : nat := offset_elements l + dot index (strides l).

Definition product (dims : list nat) : nat := foldr Nat.mul 1 dims.

(** The row-major position of an element. *)
Fixpoint position (shape index : list nat) : nat :=
  match shape, index with
  | d :: shape, i :: index => i * product shape + position shape index
  | _, _ => 0
  end.

Lemma product_pos dims : 0 ∉ dims → 0 < product dims.
Proof. induction dims as [|d dims IH]; simpl; [lia|]. intros Hn. apply not_elem_of_cons in Hn as [? ?].
  specialize (IH ltac:(done)). nia. Qed.

Lemma product_app a b : product (a ++ b) = product a * product b.
Proof. induction a as [|d a IH]; simpl; [lia|]. rewrite IH. lia. Qed.

(** ** Storage spans *)
Fixpoint last_index (dims : list nat) : list nat :=
  match dims with [] => [] | d :: dims => (d - 1) :: last_index dims end.

Lemma last_index_in_range dims : 0 ∉ dims → in_range (last_index dims) dims.
Proof.
  induction dims as [|d dims IH]; intros Hn; simpl; [constructor|].
  apply not_elem_of_cons in Hn as [? ?]. constructor; [lia|by apply IH].
Qed.

Lemma fold_span_exact n shape strides : length shape = length strides →
  match fold_span n (zip shape strides) with
  | Ok m => m = n + dot (last_index shape) strides ∧ (N.of_nat m ≤ N.max (N.of_nat n) usize_max)%N
  | Err _ => (usize_max < N.of_nat (n + dot (last_index shape) strides))%N
  | Panic _ => False
  end.
Proof.
  revert n strides. induction shape as [|d shape IH]; intros n [|s strides] Hlen; simpl in *; try done; [lia|].
  destruct (usize_mul (d - 1) s) as [span|] eqn:Em; simpl.
  - apply usize_mul_Some in Em as [-> Hm]. destruct (usize_add n ((d - 1) * s)) as [m|] eqn:Ea; simpl.
    + apply usize_add_Some in Ea as [-> Ha]. specialize (IH (n + (d - 1) * s) strides ltac:(lia)).
      destruct (fold_span _ _); [destruct IH as [-> ?]; split; lia|lia|done].
    + unfold usize_add in Ea. case_decide; [done|]. lia.
  - unfold usize_mul in Em. case_decide; [done|]. lia.
Qed.

Lemma dot_last shape strides index : in_range index shape →
  dot index strides ≤ dot (last_index shape) strides.
Proof.
  intros Hr. revert strides. induction Hr as [|i d index shape Hi Hr IH]; intros [|s strides]; simpl; try lia.
  specialize (IH strides). nia.
Qed.

Lemma in_range_nonempty index shape : in_range index shape → 0 ∉ shape.
Proof. induction 1 as [|i d index shape Hi Hr IH]; [by intros ?%elem_of_nil|]. apply not_elem_of_cons. split; [lia|done]. Qed.

(** The layouts [TensorLayout::new] gives. *)
Definition well_formed (l : TensorLayout) : Prop :=
  length (shape l) = length (strides l) ∧ res_is_ok (elements l) = true ∧
  res_is_ok (storage_span_elements l) = true.

Lemma storage_span_exact l : length (shape l) = length (strides l) →
  match storage_span_elements l with
  | Ok span => (0 ∈ shape l ∧ span = 0) ∨ (0 ∉ shape l ∧ span = address l (last_index (shape l)) + 1 ∧
                (N.of_nat span ≤ usize_max)%N)
  | Err _ => 0 ∉ shape l ∧ (usize_max ≤ N.of_nat (address l (last_index (shape l))))%N
  | Panic _ => False
  end.
Proof.
  intros Hlen. unfold storage_span_elements. case_decide; [by left|].
  pose proof (fold_span_exact (offset_elements l) _ _ Hlen) as Hf.
  destruct (fold_span _ _) as [m|e|p]; simpl; [|split; [done|unfold address; lia]|done].
  destruct Hf as [-> Hm]. fold (address l (last_index (shape l))) in *.
  destruct (usize_add _ 1) as [n|] eqn:Ea; simpl.
  - apply usize_add_Some in Ea as [-> ?]. right. done.
  - unfold usize_add in Ea. case_decide; [done|]. split; [done|]. lia.
Qed.

Lemma new_layout_spec shape strides offset :
  match new_layout shape strides offset with
  | Ok l => l = mk_layout shape strides offset ∧ well_formed l
  | Err _ => True
  | Panic _ => False
  end.
Proof.
  unfold new_layout. case_decide as Hlen; simpl; [done|]. set (l := mk_layout shape strides offset).
  assert (∀ n dims p, fold_mul n dims ≠ Panic p) as Hfold.
  { intros n dims. revert n. induction dims as [|d dims IH]; intros n p; simpl; [done|].
    destruct (usize_mul n d); simpl; [apply IH|done]. }
  destruct (elements l) as [n|e|p] eqn:Ee; cbn [res_bind]; [|done|].
  2:{ unfold elements in Ee. case_decide; [done|]. by destruct (Hfold 1 (Runtime.shape l) p). }
  pose proof (storage_span_exact l) as Hs. simpl in Hs.
  destruct (storage_span_elements l) as [span|e|p] eqn:Es; cbn [res_bind]; [|done|by apply Hs].
  split; [done|]. split; [done|]. by rewrite Ee, Es.
Qed.

Lemma dtype_storage_bytes_spec d n b : dtype_storage_bytes d n = Ok b →
  (bits d * n ≤ 8 * b < bits d * n + 8)%N ∧ (bits d * n ≤ u64_max)%N.
Proof.
  unfold dtype_storage_bytes. destruct (checked_mul u64_max n (bits d)) as [m|] eqn:Em; [|done]. cbn [ok_or res_bind].
  apply checked_mul_Some in Em as [-> Hm]. intros [= <-]. rewrite (N.mul_comm (bits d)).
  pose proof (N.div_mod (n * bits d) 8 ltac:(lia)). pose proof (N.mod_lt (n * bits d) 8 ltac:(lia)).
  revert Hm H H0. generalize (n * bits d)%N as m. intros m Hm Hdiv Hmod. case_decide.
  lia.
  apply N.neq_0_lt_0 in H. revert Hdiv Hmod H. generalize (m `div` 8)%N (m `mod` 8)%N. intros a b. lia.
Qed.

(** A tensor view that was built and validated against an allocation is
    inside it: every element it addresses occupies bits of the allocation, no
    address overflows a [usize], and the span it reports is tight, being one past
    the greatest address.  Building a view never panics. *)
Theorem validated_view_is_within_storage shape strides offset d available index l :
  new_layout shape strides offset = Ok l → validate_storage l d available = Ok tt → in_range index shape →
  (bits d * N.of_nat (address l index + 1) ≤ 8 * available)%N ∧
  (N.of_nat (address l index + 1) ≤ usize_max)%N ∧
  ∃ greatest, in_range greatest shape ∧ storage_span_elements l = Ok (address l greatest + 1).
Proof.
  intros Hl Hv Hr. pose proof (new_layout_spec shape strides offset) as Hs. rewrite Hl in Hs.
  destruct Hs as (-> & Hlen & _ & _). set (l := mk_layout shape strides offset) in *.
  pose proof (in_range_nonempty index shape Hr) as Hne. pose proof (dot_last shape strides index Hr) as Hdot.
  pose proof (storage_span_exact l Hlen) as Hs. unfold validate_storage, storage_bytes in Hv.
  destruct (storage_span_elements l) as [span|e|p]; cbn [res_bind] in Hv; [|done|done].
  destruct Hs as [[? _]|(_ & -> & Hspan)]; [done|]. case_decide; [|done].
  destruct (dtype_storage_bytes d _) as [b|e|p] eqn:Eb; cbn [res_bind] in Hv; [|done|done].
  apply dtype_storage_bytes_spec in Eb as [Hb _]. case_decide; [done|].
  assert (address l index ≤ address l (last_index shape)) as Hle by (unfold address; simpl; lia).
  change (Runtime.shape l) with shape in *. split; [|split; [lia|]].
  - assert (bits d * N.of_nat (address l index + 1) ≤ bits d * N.of_nat (address l (last_index shape) + 1))%N
      by (apply N.mul_le_mono_l; lia). lia.
  - exists (last_index shape). split; [by apply last_index_in_range|done].
Qed.

(** ** Contiguous views *)
Lemma position_bound shape index : in_range index shape → position shape index < product shape.
Proof. induction 1 as [|i d index shape Hi Hr IH]; simpl; [lia|]. nia. Qed.

Lemma position_inj shape index index' : in_range index shape → in_range index' shape →
  position shape index = position shape index' → index = index'.
Proof.
  intros Hr. revert index'. induction Hr as [|i d index shape Hi Hr IH]; intros index' Hr' Hp.
  - by apply Forall2_nil_inv_r in Hr' as ->.
  - apply Forall2_cons_inv_r in Hr' as (i' & index'' & Hi' & Hr' & ->). simpl in Hp.
    pose proof (position_bound _ _ Hr). pose proof (position_bound _ _ Hr').
    assert (i = i') as -> by nia. f_equal. apply IH; [done|]. nia.
Qed.

Lemma position_onto shape n : n < product shape → ∃ index, in_range index shape ∧ position shape index = n.
Proof.
  revert n. induction shape as [|d shape IH]; simpl; intros n Hn; [exists []; split; [constructor|simpl; lia]|].
  assert (product shape ≠ 0) as Hp by nia. destruct (IH (n mod product shape)) as (index & Hr & Hi).
  { by apply Nat.mod_upper_bound. }
  exists (n / product shape :: index). split.
  - constructor; [|done]. apply Nat.Div0.div_lt_upper_bound. lia.
  - simpl. rewrite Hi. pose proof (Nat.div_mod_eq n (product shape)). lia.
Qed.

Lemma contiguous_loop_app e a b : contiguous_loop e (a ++ b) = true →
  contiguous_loop e a = true ∧ contiguous_loop (e * product a.*1) b = true.
Proof.
  revert e. induction a as [|[d s] a IH]; intros e; simpl; [by rewrite Nat.mul_1_r|].
  case_decide; [done|]. destruct (usize_mul e d) as [next|] eqn:Em; [|done]. apply usize_mul_Some in Em as [-> _].
  intros [? Hb]%IH. split; [done|]. by rewrite Nat.mul_assoc.
Qed.

Lemma contiguous_loop_join e a b : contiguous_loop e a = true → contiguous_loop (e * product a.*1) b = true →
  contiguous_loop e (a ++ b) = true.
Proof.
  revert e. induction a as [|[d s] a IH]; intros e; simpl; [by rewrite Nat.mul_1_r|].
  case_decide; [done|]. destruct (usize_mul e d) as [next|] eqn:Em; [|done]. apply usize_mul_Some in Em as [-> _].
  rewrite Nat.mul_assoc. apply IH.
Qed.

Lemma fst_rev {A B} (l : list (A * B)) : (rev l).*1 = rev l.*1.
Proof. induction l as [|x l IH]; [done|]. cbn [rev]. by rewrite fmap_app, IH. Qed.

Lemma product_rev dims : product (rev dims) = product dims.
Proof. induction dims as [|d dims IH]; simpl; [done|]. rewrite product_app. simpl. lia. Qed.

Lemma contiguous_dot shape strides index : length shape = length strides →
  contiguous_loop 1 (rev (zip shape strides)) = true → in_range index shape → dot index strides = position shape index.
Proof.
  intros Hlen Hc Hr. revert strides Hlen Hc.
  induction Hr as [|i d index shape Hi Hr IH]; intros [|s strides] Hlen Hc; simpl in *; try done.
  apply contiguous_loop_app in Hc as [Hc Hs]. rewrite (IH strides) by (done || lia). f_equal.
  rewrite fst_rev, product_rev, fst_zip, Nat.mul_1_l in Hs by lia. simpl in Hs. case_decide as Hd; [done|].
  destruct (decide (d = 1)) as [->|]; [by replace i with 0 by lia|]. f_equal.
  destruct (decide (s = product shape)); [done|]. lia.
Qed.

Lemma row_major_spec shape : 0 ∉ shape →
  match row_major shape with
  | Ok (strides, next) => length strides = length shape ∧ next = product shape ∧
      (N.of_nat (product shape) ≤ usize_max)%N ∧
      contiguous_loop 1 (rev (zip shape strides)) = true ∧
      dot (last_index shape) strides + 1 = product shape
  | Err _ => (usize_max < N.of_nat (product shape))%N
  | Panic _ => False
  end.
Proof.
  induction shape as [|d shape IH]; intros Hn; simpl; [by vm_compute|].
  apply not_elem_of_cons in Hn as [Hd Hn]. specialize (IH Hn). pose proof (product_pos shape Hn).
  destruct (row_major shape) as [[strides next]|e|p]; simpl; [|nia|done].
  destruct IH as (Hl & -> & Hmax & Hc & Hdot). destruct (usize_mul _ d) as [m|] eqn:Em; simpl.
  - apply usize_mul_Some in Em as [-> Hm]. split_and!; [lia|lia|lia| |nia].
    apply contiguous_loop_join; [done|]. rewrite fst_rev, product_rev, fst_zip, Nat.mul_1_l by lia. simpl.
    rewrite decide_False by tauto. unfold usize_mul. by rewrite decide_True by lia.
  - unfold usize_mul in Em. case_decide; [done|]. lia.
Qed.

Lemma fold_mul_spec n dims : 0 < n → 0 ∉ dims →
  match fold_mul n dims with
  | Ok m => m = n * product dims
  | Err _ => (usize_max < N.of_nat (n * product dims))%N
  | Panic _ => False
  end.
Proof.
  revert n. induction dims as [|d dims IH]; intros n Hp Hn; simpl; [lia|].
  apply not_elem_of_cons in Hn as [Hd Hn]. pose proof (product_pos dims Hn).
  destruct (usize_mul n d) as [m|] eqn:Em; simpl.
  - apply usize_mul_Some in Em as [-> _]. specialize (IH (n * d) ltac:(nia) Hn).
    destruct (fold_mul _ _); [lia|lia|done].
  - unfold usize_mul in Em. case_decide; [done|]. nia.
Qed.

(** A contiguous view addresses its elements in row-major order: the addresses
    are exactly the numbers below the element count, each of one element.  It is
    refused exactly when the count overflows a [usize]. *)
Lemma contiguous_exact shape :
  match contiguous shape with
  | Ok l => Runtime.shape l = shape ∧ is_contiguous l = true ∧
      elements l = Ok (product shape) ∧ storage_span_elements l = Ok (product shape) ∧
      (∀ index, in_range index shape → address l index = position shape index) ∧
      (∀ n, n < product shape → ∃ index, in_range index shape ∧ address l index = n) ∧
      (∀ index index', in_range index shape → in_range index' shape →
         address l index = address l index' → index = index')
  | Err _ => 0 ∉ shape ∧ (usize_max < N.of_nat (product shape))%N
  | Panic _ => False
  end.
Proof.
  unfold contiguous. destruct (decide (0 ∈ shape)) as [Hz|Hz]; cbn [res_bind].
  - assert (product shape = 0) as ->.
    { induction shape as [|d shape IH]; [by apply elem_of_nil in Hz|].
      apply elem_of_cons in Hz as [<-|Hz]; simpl; [done|]. rewrite IH by done. lia. }
    unfold new_layout. rewrite length_replicate, decide_False by tauto. cbv zeta.
    unfold elements, storage_span_elements. simpl. rewrite !decide_True by done. simpl.
    unfold is_contiguous, elements, storage_span_elements. simpl. rewrite !decide_True by done.
    assert (∀ index, ¬ in_range index shape) as Hnone by (intros index Hr; by destruct (in_range_nonempty index shape Hr)).
    split_and!; try done; [|lia|]; intros index; [|intros index']; intros Hr; by destruct (Hnone index Hr).
  - pose proof (row_major_spec shape Hz) as Hrm. destruct (row_major shape) as [[strides next]|e|p]; cbn [res_bind]; [|done|done].
    destruct Hrm as (Hlen & -> & Hmax & Hc & Hdot). simpl. unfold new_layout. rewrite decide_False by (intros H; by apply H).
    cbv zeta. set (l := mk_layout shape strides 0).
    assert (elements l = Ok (product shape)) as He.
    { unfold elements. simpl. rewrite decide_False by done. pose proof (fold_mul_spec 1 shape ltac:(lia) Hz) as Hf.
      destruct (fold_mul 1 shape); [f_equal; lia|lia|done]. }
    assert (storage_span_elements l = Ok (product shape)) as Hs.
    { pose proof (storage_span_exact l) as Hs. simpl in Hs. unfold address in Hs. simpl in Hs. specialize (Hs (eq_sym Hlen)).
      destruct (storage_span_elements l); [|destruct Hs as [_ Hs]; lia|done].
      destruct Hs as [[? _]|(_ & -> & _)]; [done|f_equal; lia]. }
    rewrite He, Hs. cbn [res_bind]. change (Runtime.shape l) with shape.
    assert (∀ index, in_range index shape → address l index = position shape index) as Ha
      by (intros index Hr; by apply contiguous_dot).
    split_and!; try done.
    + unfold is_contiguous. simpl. by rewrite decide_False.
    + intros n Hn. destruct (position_onto shape n Hn) as (index & Hr & Hp). exists index. by rewrite Ha.
    + intros index index' Hr Hr'. rewrite !Ha by done. by apply position_inj.
Qed.

(** ** Page capacity *)
Lemma fold_dimensions_spec n dims :
  match fold_dimensions n dims with
  | Ok m => m = (n * N.of_nat (product dims))%N
  | Err _ => True
  | Panic _ => False
  end.
Proof.
  revert n. induction dims as [|d dims IH]; intros n; simpl; [lia|]. case_decide; [done|].
  destruct (checked_mul u64_max n (N.of_nat d)) as [m|] eqn:Em; simpl; [|done].
  apply checked_mul_Some in Em as [-> _]. specialize (IH (n * N.of_nat d)%N). destruct (fold_dimensions _ _); [lia|done..].
Qed.

Lemma float_bytes d : is_float d = true → ∃ k, bits d = (8 * k)%N ∧ (0 < k)%N.
Proof. destruct d; intros; try done; [by exists 2%N|by exists 2%N|by exists 4%N|by exists 8%N]. Qed.

(** A dense page holds a key and a value per layer, head, lane and token. *)
Lemma bytes_per_page_spec g :
  match bytes_per_page g with
  | Ok p => (8 * p = 2 * N.of_nat (layers g * kv_heads g * head_dimension g * tokens_per_page g) * bits (dtype g))%N ∧
      (0 < p)%N ∧ 0 < tokens_per_page g
  | Err _ => True
  | Panic _ => False
  end.
Proof.
  unfold bytes_per_page. case_decide as Hz; [done|]. apply Decidable.not_or in Hz as [Hz Hf].
  pose proof (fold_dimensions_spec 2 [layers g; kv_heads g; head_dimension g; tokens_per_page g]) as Hfold.
  destruct (fold_dimensions _ _) as [n|e|p]; cbn [res_bind]; [|done|done]. subst n.
  pose proof (product_pos _ Hz) as Hpos. simpl in Hpos. rewrite !not_elem_of_cons in Hz.
  unfold dtype_storage_bytes. destruct (checked_mul _ _ _) as [m|] eqn:Em; simpl; [|done].
  apply checked_mul_Some in Em as [-> _]. simpl.
  replace (layers g * kv_heads g * head_dimension g * tokens_per_page g)
    with (layers g * (kv_heads g * (head_dimension g * (tokens_per_page g * 1)))) by lia.
  destruct (float_bytes (dtype g)) as (k & Hk & Hkpos); [by apply not_false_iff_true|].
  set (n := layers g * _) in *. rewrite Hk. replace (2 * N.of_nat n * (8 * k))%N with (2 * N.of_nat n * k * 8)%N by lia.
  rewrite N.Div0.mod_mul, N.div_mul by lia. simpl. split_and!; [lia|nia|lia].
Qed.

(** What a page count [n] of [page] bytes leaves of the memory. *)
Definition fits (page available workspace headroom : N) (n : nat) : Prop :=
  (workspace + headroom + N.of_nat n * page ≤ available)%N.

(** The cache sized from a memory budget: when [from_memory_budget]
    succeeds the configuration is valid, its pages with the workspace and the
    headroom fit the available memory, and no larger page count does, unless the
    count is the [u32] limit of the page tables.  It never panics: no division by
    zero and no overflow. *)
Theorem memory_budget_config_is_largest_that_fits g available workspace headroom max_length :
  match from_memory_budget g available workspace headroom max_length with
  | Ok c => validate_config c = Ok tt ∧ block_size c = tokens_per_page g ∧ max_sequence_length c = max_length ∧
      ∃ page,
        (8 * page = 2 * N.of_nat (layers g * kv_heads g * head_dimension g * tokens_per_page g) * bits (dtype g))%N ∧
        fits page available workspace headroom (num_pages c) ∧ 0 < num_pages c ∧
        (N.of_nat (num_pages c) ≤ u32_max)%N ∧
        (N.of_nat (num_pages c) = u32_max ∨ ¬ fits page available workspace headroom (num_pages c + 1))
  | Err _ => True
  | Panic _ => False
  end.
Proof.
  unfold from_memory_budget, page_capacity. pose proof (bytes_per_page_spec g) as Hb.
  destruct (bytes_per_page g) as [page|e|p]; cbn [res_bind map_err]; [|done|done]. destruct Hb as (Hpage & Hpos & Htok).
  destruct (checked_sub available workspace) as [a|] eqn:Ea; cbn [ok_or res_bind map_err]; [|done].
  destruct (checked_sub a headroom) as [usable|] eqn:Eu; cbn [ok_or res_bind map_err]; [|done].
  apply checked_sub_Some in Ea as [-> Ha]. apply checked_sub_Some in Eu as [-> Hu]. rewrite decide_False by lia.
  cbv zeta. case_decide as Hc; cbn [map_err res_bind]; [done|].
  set (usable := (available - workspace - headroom)%N) in *.
  assert (page * (usable / page) ≤ usable < page * (usable / page) + page)%N as Hdiv.
  { pose proof (N.div_mod usable page ltac:(lia)) as Hd. pose proof (N.mod_lt usable page ltac:(lia)) as Hm.
    revert Hd Hm. generalize (usable / page)%N (usable `mod` page)%N. intros q r Hd Hm. clear -Hd Hm. split; nia. }
  revert Hc Hdiv. generalize (usable / page)%N as count. intros count Hc Hdiv.
  rewrite decide_False by (unfold usize_max, u32_max; lia). cbn [map_err res_bind].
  destruct (validate_config _) as [[]|e|p] eqn:Ev; cbn [res_bind]; [| done|].
  2:{ unfold validate_config in Ev. by repeat case_decide. }
  split; [done|]. split; [done|]. split; [done|]. exists page. split; [done|]. unfold fits. cbn [num_pages].
  rewrite !N2Nat.id. split_and!; [nia|unfold u32_max; lia|lia|]. destruct (decide (u32_max ≤ count)%N); [left; lia|right].
  rewrite N.min_l by lia. nia.
Qed.

(** ** The shared budget

    Every method holds the lock, so the callers of all threads make one sequence
    of calls; [held] are the reservations not dropped yet. *)
Inductive budget_step : BudgetState * list N → BudgetState * list N → Prop :=
| step_reserve bytes b b' held : try_reserve bytes b = (Ok bytes, b') →
    budget_step (b, held) (b', bytes :: held)
| step_refused bytes e b b' held : try_reserve bytes b = (Err e, b') →
    budget_step (b, held) (b', held)
| step_drop bytes b before after :
    budget_step (b, before ++ bytes :: after) (drop_reservation bytes b, before ++ after).

Definition total (held : list N) : N := foldr N.add 0%N held.

Record budget_wf (capacity headroom : N) (s : BudgetState * list N) : Prop := {
  bw_limit : bg_limit s.1 = (capacity - headroom)%N;
  bw_reserved : bg_reserved s.1 = total s.2;
  bw_within : (bg_reserved s.1 ≤ bg_peak s.1 ≤ bg_limit s.1)%N;
  bw_nonzero : 0%N ∉ s.2
}.

Lemma total_app a b : total (a ++ b) = (total a + total b)%N.
Proof. induction a as [|x a IH]; simpl; [lia|]. rewrite IH. lia. Qed.

Lemma try_reserve_spec capacity headroom bytes b held : budget_wf capacity headroom (b, held) →
  (capacity ≤ u64_max)%N →
  match try_reserve bytes b with
  | (Ok r, b') => r = bytes ∧ budget_wf capacity headroom (b', bytes :: held) ∧
      (0 < bytes)%N ∧ (total held + bytes ≤ capacity - headroom)%N
  | (Err _, b') => b' = b ∧ (bytes = 0 ∨ capacity - headroom < total held + bytes)%N
  | (Panic _, _) => False
  end.
Proof.
  intros [Hl Hr Hw Hn] Hcap. simpl in *. unfold try_reserve. case_decide; [split; [done|by left]|].
  destruct (checked_add u64_max (bg_reserved b) bytes) as [r|] eqn:Er.
  - apply checked_add_Some in Er as [-> ?]. case_decide; [|split; [done|right; lia]].
    split; [done|]. split; [|lia]. split; simpl; [done|lia|lia|].
    apply not_elem_of_cons. split; [congruence|done].
  - apply checked_add_None in Er. split; [done|]. right. lia.
Qed.

Lemma budget_step_wf capacity headroom s s' : (capacity ≤ u64_max)%N → budget_wf capacity headroom s →
  budget_step s s' → budget_wf capacity headroom s'.
Proof.
  intros Hcap Hw Hstep. destruct Hstep as [bytes b b' held Hrun|bytes e b b' held Hrun|bytes b before after].
  - pose proof (try_reserve_spec _ _ bytes b held Hw Hcap) as Hs. rewrite Hrun in Hs. apply Hs.
  - pose proof (try_reserve_spec _ _ bytes b held Hw Hcap) as Hs. rewrite Hrun in Hs. by destruct Hs as [-> _].
  - destruct Hw as [Hl Hr Hw Hn]. simpl in *. rewrite total_app in Hr. simpl in Hr.
    split; simpl; [done|rewrite total_app; lia|lia|]. intros Hin. apply Hn. set_solver.
Qed.

(** Whatever calls the threads sharing a budget make, in any order: the
    reserved bytes are exactly the sum of the reservations not yet dropped, they
    and their peak never exceed capacity minus headroom, a release never
    saturates, and a reservation is refused exactly when it is empty or does not
    fit, leaving the budget as it was. *)
Theorem budget_is_never_exceeded capacity headroom b held s :
  (capacity ≤ u64_max)%N → new_budget capacity headroom = Ok b → rtc budget_step (b, []) (s, held) →
  bg_limit s = (capacity - headroom)%N ∧ bg_reserved s = total held ∧
  (bg_reserved s ≤ bg_peak s ≤ capacity - headroom)%N ∧
  (∀ bytes, bytes ∈ held → (bytes ≤ bg_reserved s)%N) ∧
  ∀ bytes, match try_reserve bytes s with
           | (Ok r, s') => r = bytes ∧ (0 < bytes)%N ∧ (total held + bytes ≤ capacity - headroom)%N ∧
               bg_reserved s' = (total held + bytes)%N
           | (Err _, s') => s' = s ∧ (bytes = 0 ∨ capacity - headroom < total held + bytes)%N
           | (Panic _, _) => False
           end.
Proof.
  intros Hcap Hnew Hsteps. assert (budget_wf capacity headroom (b, [])) as Hw.
  { unfold new_budget in Hnew. destruct (checked_sub capacity headroom) as [n|] eqn:En; [|done].
    apply checked_sub_Some in En as [-> ?]. case_decide; [|done]. injection Hnew as <-.
    split; simpl; [done|done|lia|by intros ?%elem_of_nil]. }
  assert (budget_wf capacity headroom (s, held)) as Hw'.
  { clear Hnew. revert Hw. generalize (b, @nil N) (s, held) Hsteps. intros x y Hxy.
    induction Hxy as [|x y z Hxy _ IH]; [done|]. intros Hx. apply IH. by eapply budget_step_wf. }
  pose proof Hw' as [Hl Hr Hwi Hn]. simpl in *. rewrite <- Hl at 1. split_and!; try done; [lia|lia| |].
  - intros bytes Hin. rewrite Hr. clear -Hin. induction Hin as [bytes held|bytes x held _ IH]; simpl; lia.
  - intros bytes. pose proof (try_reserve_spec _ _ bytes s held Hw' Hcap) as Hs.
    destruct (try_reserve bytes s) as [[r|e|p] s']; [|done|done].
    destruct Hs as (-> & [_ Hr' _ _] & ? & ?). simpl in Hr'. split_and!; try done. lia.
Qed.

Example budget_is_never_exceeded_witness :
  let s := mk_budget 100 40 70 in
  bg_limit s = (120 - 20)%N ∧ bg_reserved s = total [40]%N ∧
  (bg_reserved s ≤ bg_peak s ≤ 120 - 20)%N ∧
  (∀ bytes, bytes ∈ [40]%N → (bytes ≤ bg_reserved s)%N) ∧
  ∀ bytes, match try_reserve bytes s with
           | (Ok r, s') => r = bytes ∧ (0 < bytes)%N ∧ (total [40]%N + bytes ≤ 120 - 20)%N ∧
               bg_reserved s' = (total [40]%N + bytes)%N
           | (Err _, s') => s' = s ∧ (bytes = 0 ∨ 120 - 20 < total [40]%N + bytes)%N
           | (Panic _, _) => False
           end.
Proof.
  apply (budget_is_never_exceeded 120 20 (mk_budget 100 0 0) [40]%N); [vm_compute; discriminate|reflexivity|].
  eapply rtc_l; [by apply (step_reserve 40)|]. eapply rtc_l; [by apply (step_reserve 30)|].
  eapply rtc_l; [by eapply (step_refused 31)|]. eapply rtc_l; [apply (step_drop 30 _ [] [40]%N)|]. apply rtc_refl.
Defined.

(** ** Recovery *)

(** What a decision says, and that following token-limit retries ends. *)
Lemma recovery_exact policy error work intact attempts limit minimum portable :
  match decide_recovery policy error work intact attempts limit minimum portable with
  | QuarantineDevice => work = WorkUnknown ∨ intact = false ∨ fatal_kind error = true
  | RetryWithTokenLimit n => work ≠ WorkUnknown ∧ intact = true ∧ error = OutOfMemory ∧
      attempts < max_retries policy ∧ 0 < minimum ∧ minimum ≤ n < limit
  | RetryPortable => work ≠ WorkUnknown ∧ intact = true ∧ error = Unsupported ∧
      attempts < max_retries policy ∧ allow_portable policy = true ∧ portable = false
  | FailRequest => work ≠ WorkUnknown ∧ intact = true ∧ fatal_kind error = false
  end.
Proof.
  unfold decide_recovery. destruct (bool_decide (work = WorkUnknown) || negb intact || fatal_kind error) eqn:E.
  { apply orb_true_iff in E as [[?%bool_decide_eq_true|?%negb_true_iff]%orb_true_iff|?]; tauto. }
  apply orb_false_iff in E as [[?%bool_decide_eq_false ?%negb_false_iff]%orb_false_iff ?].
  case_decide; [done|]. destruct error; try done.
  - destruct (allow_portable policy), portable; simpl; try done. split_and!; try done. lia.
  - case_decide as Hm; [|done]. split_and!; try done; try lia.
    apply Nat.max_lub_lt; [|lia]. apply Nat.div_lt; lia.
Qed.

(** A view of every other column of a 3 by 8 matrix of half floats. *)
Example validated_view_is_within_storage_witness :
  let l := mk_layout [3; 4] [8; 2] 1 in
  (bits F16 * N.of_nat (address l [2; 3]%nat + 1) ≤ 8 * 48)%N ∧
  (N.of_nat (address l [2; 3]%nat + 1) ≤ usize_max)%N ∧
  ∃ greatest, in_range greatest [3; 4] ∧ storage_span_elements l = Ok (address l greatest + 1).
Proof.
  apply (validated_view_is_within_storage [3; 4] [8; 2] 1 F16 48 [2; 3]);
    [vm_compute; reflexivity|vm_compute; reflexivity|repeat constructor; lia].
Defined.
