(* ===== verification/Worker.v ===== *)
(** * Bounded workers

    src/src/runtime/worker.rs: one host thread owns one replica; clients submit
    jobs through a bounded channel under a count of outstanding permits; a fatal
    failure quarantines the replica.  Every access to a shared atomic, lock or
    channel is one step, so the steps of the threads interleave as they may. *)
From S2P Require Import Prelude Runtime.
Open Scope nat_scope.

(** ** Results of jobs *)
Section Worker.
Context {St Value : Type}.

(** [ResultState]: a waker is the number of the task it wakes. *)
Record ResultState := mk_cell {
  rs_value : option (Run Value);
  rs_completed : bool;
  rs_waker : option nat
}.

(** [ResultCell::new] *)
Definition new_cell : ResultState := mk_cell None false None.

(** [ResultCell::complete]: the waker to call. *)
Definition complete (value : Run Value) (c : ResultState) : option nat * ResultState :=
  if rs_completed c then (None, c)
  else (rs_waker c, mk_cell (Some value) true None).

Definition consumed : Run Value := Err (internal "job result was already consumed").

(** [Future::poll] under the lock; [None] is [Poll::Pending]. *)
Definition poll (task : nat) (c : ResultState) : option (Run Value) * ResultState :=
  if rs_completed c then (Some (default consumed (rs_value c)), mk_cell None true (rs_waker c))
  else
    let waker := match rs_waker c with
                 | Some w => if decide (w = task) then Some w else Some task
                 | None => Some task
                 end in
    (None, mk_cell (rs_value c) false waker).

(** The turn of [JobHandle::wait] that finds the job completed. *)
Definition wait (c : ResultState) : option (Run Value) * ResultState :=
  if rs_completed c then (Some (default consumed (rs_value c)), mk_cell None true (rs_waker c)) else (None, c).

Definition fatal (error : RuntimeError) : bool := fatal_kind (kind error).

(** ** Jobs *)

(** What a call of the operation does: it returns, with the replica's state, or
    it panics and leaves the state as far as it got. *)
Inductive Outcome :=
| Returned (r : Run Value) (s : St)
| Panicked (s : St).

(** A job: its operation, as the outcomes it may have on a state (what it
    observes of its flag included), its cell and its cancellation flag. *)
Record Job := mk_job {
  jb_operation : St → Outcome → Prop;
  jb_cell : ResultState;
  jb_cancelled : bool
}.

(** The error an operation's result quarantines for. *)
Definition failure (r : Run Value) : option RuntimeError :=
  match r with Err e => if fatal e then Some e else None | _ => None end.

Definition init_panicked : RuntimeError := mk_error WorkerPanicked "replica initialization panicked".
Definition job_panicked : RuntimeError :=
  mk_error WorkerPanicked "replica operation panicked; worker quarantined, no device reset attempted".
Definition job_cancelled : RuntimeError := mk_error KindCancelled "job cancelled before execution".

(** ** The thread *)

(** Where the thread is; a job in hand is named by its number. *)
Inductive Thread :=
| Initializing
| InitFailed (e : RuntimeError)   (** [quarantined] not stored yet *)
| Waiting                 (** at [receiver.recv()] *)
| Received (j : nat)
| Unstopped (j : nat)     (** [stopping] was read false *)
| Running (j : nat)
| Failing (j : nat) (e : RuntimeError)   (** the operation reported [e]; not stored yet *)
| Caught (j : nat)        (** the operation panicked; [quarantined] not stored yet *)
| Rejecting (j : nat)     (** [quarantined] stored; the panicked job not rejected yet *)
| Releasing (j : nat)     (** the job's permit is about to be dropped *)
| Exited (forgotten : bool).      (** whether the replica's state was leaked *)

#[global] Instance Thread_eq_dec : EqDecision Thread.
Proof. solve_decision. Defined.

Definition exited (t : Thread) : bool := match t with Exited _ => true | _ => false end.

Definition in_hand (t : Thread) : nat :=
  match t with
  | Received _ | Unstopped _ | Running _ | Failing _ _ | Caught _ | Rejecting _ | Releasing _ => 1
  | _ => 0
  end.

(** The worker: what its clients share and the locals of its thread.  [checked]
    counts the submissions past the guards of [reserve_slot], [permits] those
    with a permit in hand. *)
Record BoundedWorker := mk_worker {
  device : DeviceKey;
  capacity : nat;
  sender_open : bool;
  queue : list nat;
  outstanding : nat;
  quarantined : bool;
  stopping : bool;
  thread : Thread;
  th_state : option St;
  th_failed : option RuntimeError;
  jobs : list Job;
  checked : nat;
  permits : nat;
  woken : list nat
}.
Implicit Types w : BoundedWorker.

Definition set_sender b w := mk_worker (device w) (capacity w) b (queue w) (outstanding w) (quarantined w)
  (stopping w) (thread w) (th_state w) (th_failed w) (jobs w) (checked w) (permits w) (woken w).
Definition set_queue q w := mk_worker (device w) (capacity w) (sender_open w) q (outstanding w) (quarantined w)
  (stopping w) (thread w) (th_state w) (th_failed w) (jobs w) (checked w) (permits w) (woken w).
Definition set_outstanding n w := mk_worker (device w) (capacity w) (sender_open w) (queue w) n (quarantined w)
  (stopping w) (thread w) (th_state w) (th_failed w) (jobs w) (checked w) (permits w) (woken w).
Definition set_quarantined b w := mk_worker (device w) (capacity w) (sender_open w) (queue w) (outstanding w) b
  (stopping w) (thread w) (th_state w) (th_failed w) (jobs w) (checked w) (permits w) (woken w).
Definition set_stopping b w := mk_worker (device w) (capacity w) (sender_open w) (queue w) (outstanding w)
  (quarantined w) b (thread w) (th_state w) (th_failed w) (jobs w) (checked w) (permits w) (woken w).
Definition set_thread t w := mk_worker (device w) (capacity w) (sender_open w) (queue w) (outstanding w)
  (quarantined w) (stopping w) t (th_state w) (th_failed w) (jobs w) (checked w) (permits w) (woken w).
Definition set_state s w := mk_worker (device w) (capacity w) (sender_open w) (queue w) (outstanding w)
  (quarantined w) (stopping w) (thread w) s (th_failed w) (jobs w) (checked w) (permits w) (woken w).
Definition set_failed e w := mk_worker (device w) (capacity w) (sender_open w) (queue w) (outstanding w)
  (quarantined w) (stopping w) (thread w) (th_state w) e (jobs w) (checked w) (permits w) (woken w).
Definition set_jobs l w := mk_worker (device w) (capacity w) (sender_open w) (queue w) (outstanding w)
  (quarantined w) (stopping w) (thread w) (th_state w) (th_failed w) l (checked w) (permits w) (woken w).
Definition set_checked n w := mk_worker (device w) (capacity w) (sender_open w) (queue w) (outstanding w)
  (quarantined w) (stopping w) (thread w) (th_state w) (th_failed w) (jobs w) n (permits w) (woken w).
Definition set_permits n w := mk_worker (device w) (capacity w) (sender_open w) (queue w) (outstanding w)
  (quarantined w) (stopping w) (thread w) (th_state w) (th_failed w) (jobs w) (checked w) n (woken w).
Definition set_woken l w := mk_worker (device w) (capacity w) (sender_open w) (queue w) (outstanding w)
  (quarantined w) (stopping w) (thread w) (th_state w) (th_failed w) (jobs w) (checked w) (permits w) l.

(** [BoundedWorker::spawn], before the thread has run. *)
Definition spawn (device : DeviceKey) (max_outstanding : nat) : Run BoundedWorker :=
  if decide (max_outstanding = 0) then Err (invalid "worker capacity must be positive")
  else Ok (mk_worker device max_outstanding true [] 0 false false Initializing None None [] 0 0 []).

Definition is_quarantined w : bool := quarantined w.
Definition sendable w : bool := negb (stopping w) && sender_open w.

(** The two guards of [reserve_slot]; the flags are only set, so a guard that
    passed may be stale when the count is updated. *)
Definition reserve_guard w : Run unit :=
  if is_quarantined w then Err (mk_error DeviceLost "replica is quarantined")
  else if negb (sendable w) then Err (mk_error Closed "replica is closed")
  else Ok tt.

(** [fetch_update(.., |n| (n < capacity).then(|| n + 1))] *)
Definition take_permit w : Run unit * BoundedWorker :=
  if decide (outstanding w < capacity w) then (Ok tt, set_outstanding (S (outstanding w)) w)
  else (Err (mk_error QueueFull "replica outstanding-job limit reached"), w).

(** [Drop for SlotPermit] *)
Definition drop_permit w : BoundedWorker := set_outstanding (outstanding w - 1) w.

(** [submit_reserved]: the job is made and sent; a refused job drops its permit. *)
Definition submit_reserved (operation : St → Outcome → Prop) w : Run nat * BoundedWorker :=
  if negb (sender_open w) then (Err (mk_error Closed "replica closed"), drop_permit w)
  else if exited (thread w) then (Err (mk_error Closed "replica thread disconnected"), drop_permit w)
  else if decide (capacity w ≤ length (queue w)) then (Err (mk_error QueueFull "replica queue is full"), drop_permit w)
  else
    let j := length (jobs w) in
    (Ok j, set_queue (queue w ++ [j]) (set_jobs (jobs w ++ [mk_job operation new_cell false]) w)).

(** ** The thread's steps *)
Definition set_cell (c : ResultState) (job : Job) : Job := mk_job (jb_operation job) c (jb_cancelled job).

(** [complete] on the cell of job [j], and the wake that follows. *)
Definition complete_job (r : Run Value) (j : nat) w : BoundedWorker :=
  match jobs w !! j with
  | Some job =>
      let out := complete r (jb_cell job) in
      set_woken (woken w ++ option_list out.1) (set_jobs (<[j := set_cell out.2 job]> (jobs w)) w)
  | None => w
  end.

(** The iteration ends early: the job is rejected. *)
Definition reject (e : RuntimeError) (j : nat) w : BoundedWorker := set_thread (Releasing j) (complete_job (Err e) j w).

Definition cancelled_flag (j : nat) w : bool := match jobs w !! j with Some job => jb_cancelled job | None => false end.

(** [Ok(result)] of the operation: its cell is completed inside the operation. *)
Definition returned_from (j : nat) (r : Run Value) (s : St) w : BoundedWorker :=
  set_thread (match failure r with Some e => Failing j e | None => Releasing j end)
    (complete_job r j (set_state (Some s) w)).

Definition quarantine (e : RuntimeError) w : BoundedWorker := set_failed (Some e) (set_quarantined true w).

Inductive thread_step : BoundedWorker → BoundedWorker → Prop :=
| step_init_ok s w : thread w = Initializing →
    thread_step w (set_thread Waiting (set_state (Some s) w))
| step_init_error e w : thread w = Initializing →
    thread_step w (set_thread (InitFailed e) w)
| step_init_panic w : thread w = Initializing →
    thread_step w (set_thread (InitFailed init_panicked) w)
| step_init_failed e w : thread w = InitFailed e →
    thread_step w (set_thread Waiting (quarantine e w))
| step_recv j q w : thread w = Waiting → queue w = j :: q →
    thread_step w (set_thread (Received j) (set_queue q w))
| step_hangup w : thread w = Waiting → queue w = [] → sender_open w = false →
    thread_step w (set_state None (set_thread
      (Exited (bool_decide (th_failed w ≠ None) && match th_state w with Some _ => true | None => false end)) w))
| step_refused j e w : thread w = Received j → th_failed w = Some e →
    thread_step w (reject e j w)
| step_stopping j w : thread w = Received j → th_failed w = None → stopping w = true →
    thread_step w (reject job_cancelled j w)
| step_going j w : thread w = Received j → th_failed w = None → stopping w = false →
    thread_step w (set_thread (Unstopped j) w)
| step_cancelled j w : thread w = Unstopped j → cancelled_flag j w = true →
    thread_step w (reject job_cancelled j w)
| step_start j w : thread w = Unstopped j → cancelled_flag j w = false →
    thread_step w (set_thread (Running j) w)
| step_return j job s r s' w : thread w = Running j → jobs w !! j = Some job → th_state w = Some s →
    jb_operation job s (Returned r s') →
    thread_step w (returned_from j r s' w)
| step_panic j job s s' w : thread w = Running j → jobs w !! j = Some job → th_state w = Some s →
    jb_operation job s (Panicked s') →
    thread_step w (set_thread (Caught j) (set_state (Some s') w))
| step_failing j e w : thread w = Failing j e →
    thread_step w (set_thread (Releasing j) (quarantine e w))
| step_caught j w : thread w = Caught j →
    thread_step w (set_thread (Rejecting j) (set_quarantined true w))
| step_rejecting j w : thread w = Rejecting j →
    thread_step w (set_failed (Some job_panicked) (reject job_panicked j w))
| step_release j w : thread w = Releasing j →
    thread_step w (set_thread Waiting (drop_permit w)).

(** ** The clients' steps

    [shutdown] and the destructor own the worker, so no submission is under way
    when they store [stopping] and drop the sender. *)
Definition update_cell (f : ResultState → ResultState) (j : nat) w : BoundedWorker :=
  set_jobs (alter (λ job, set_cell (f (jb_cell job)) job) j (jobs w)) w.

(** [CancellationFlag::cancel], by the handle, its destructor or a clone. *)
Definition cancel_job (j : nat) w : BoundedWorker :=
  set_jobs (alter (λ job, mk_job (jb_operation job) (jb_cell job) true) j (jobs w)) w.

Inductive client_step : BoundedWorker → BoundedWorker → Prop :=
| step_guard w : reserve_guard w = Ok tt → client_step w (set_checked (S (checked w)) w)
| step_permit n w w' : checked w = S n → take_permit (set_checked n w) = (Ok tt, w') →
    client_step w (set_permits (S (permits w)) w')
| step_busy n e w w' : checked w = S n → take_permit (set_checked n w) = (Err e, w') → client_step w w'
| step_submit n operation r w w' : permits w = S n → submit_reserved operation (set_permits n w) = (r, w') →
    client_step w w'
| step_cancel j w : client_step w (cancel_job j w)
| step_poll task j w : client_step w (update_cell (λ c, (poll task c).2) j w)
| step_wait j w : client_step w (update_cell (λ c, (wait c).2) j w)
| step_stop w : checked w = 0 → permits w = 0 → client_step w (set_stopping true w)
| step_close w : stopping w = true → client_step w (set_sender false w).

Definition worker_step w w' : Prop := thread_step w w' ∨ client_step w w'.

Definition worker_reachable w : Prop :=
  ∃ device n w0, spawn device n = Ok w0 ∧ rtc worker_step w0 w.

(** ** Calls without interference

    [reserve_slot], [BoundedWorker::try_submit] and the pool, as one thread runs
    them when no other step comes between. *)
Definition reserve_slot w : Run unit * BoundedWorker :=
  match reserve_guard w with
  | Ok _ =>
      match take_permit w with
      | (Ok _, w') => (Ok tt, set_permits (S (permits w')) w')
      | (r, w') => (r, w')
      end
  | r => (r, w)
  end.

(** [submit_reserved] with the permit just taken. *)
Definition submit_permit (operation : St → Outcome → Prop) w : Run nat * BoundedWorker :=
  submit_reserved operation (set_permits (permits w - 1) w).

Definition try_submit (operation : St → Outcome → Prop) w : Run nat * BoundedWorker :=
  match reserve_slot w with
  | (Ok _, w') => submit_permit operation w'
  | (Err e, w') => (Err e, w')
  | (Panic p, w') => (Panic p, w')
  end.

Record ReplicaPool := mk_pool {
  workers : list BoundedWorker;
  cursor : nat
}.

(** [ReplicaPool::new] *)
Definition new_pool (ws : list BoundedWorker) : Run ReplicaPool :=
  if decide (ws = []) then Err (invalid "replica pool must not be empty")
  else if decide (NoDup (device <$> ws)) then Ok (mk_pool ws 0)
  else Err (invalid "duplicate backend/device identity in replica pool").

Definition worker_for (d : DeviceKey) (pool : ReplicaPool) : option BoundedWorker :=
  snd <$> list_find (λ w, device w = d) (workers pool).

Definition load (ws : list BoundedWorker) (i : nat) : nat := match ws !! i with Some w => outstanding w | None => 0 end.

(** The order the pool tries its workers in: by load, from the cursor on. *)
Definition pool_order (ws : list BoundedWorker) (start : nat) : list nat :=
  sort_by_key (load ws) (map (λ n, (start + n) mod length ws) (seq 0 (length ws))).

Fixpoint pool_loop (operation : St → Outcome → Prop) (order : list nat) (last : RuntimeError)
    (ws : list BoundedWorker) : Run (DeviceKey * nat) * list BoundedWorker :=
  match order with
  | [] => (Err last, ws)
  | i :: rest =>
      match ws !! i with
      | None => (Panic OutOfBounds, ws)
      | Some w =>
          match reserve_slot w with
          | (Ok _, w') =>
              let out := submit_permit operation w' in
              (do? j := out.1 in Ok (device w, j), <[i := out.2]> ws)
          | (Err e, w') => pool_loop operation rest e (<[i := w']> ws)
          | (Panic p, w') => (Panic p, <[i := w']> ws)
          end
      end
  end.

(** [ReplicaPool::try_submit]; the cursor wraps at the word size. *)
Definition pool_submit (operation : St → Outcome → Prop) (pool : ReplicaPool) : Run (DeviceKey * nat) * ReplicaPool :=
  if decide (length (workers pool) = 0) then (Panic DivByZero, pool)
  else
    let start := cursor pool mod length (workers pool) in
    let next := if decide (N.of_nat (cursor pool) = usize_max) then 0 else S (cursor pool) in
    let out := pool_loop operation (pool_order (workers pool) start)
                 (mk_error QueueFull "all replicas are busy") (workers pool) in
    (out.1, mk_pool out.2 next).
End Worker.
