(* ===== verification/WorkerSpec.v ===== *)
(** * Bounded workers: safety and liveness

    Over every interleaving of the worker's thread and its clients: permits bound
    the queue, so a client holding one is never refused; a replica that failed
    runs nothing more; each job is completed exactly once; and every accepted job
    is completed after a bounded number of the thread's steps, whatever the
    clients do meanwhile. *)
From S2P Require Import Prelude Runtime Worker.
Open Scope nat_scope.

Section Spec.
Context {St Value : Type}.
Notation BoundedWorker := (@BoundedWorker St Value).
Notation Job := (@Job St Value).
Implicit Types w : BoundedWorker.

(** The job the thread has received and not completed. *)
Definition pending (t : Thread) : list nat :=
  match t with
  | Received j | Unstopped j | Running j | Caught j | Rejecting j => [j]
  | _ => []
  end.

Definition completed (j : nat) w : bool :=
  match jobs w !! j with Some job => rs_completed (jb_cell job) | None => false end.

(** Where the thread cannot be once the replica has failed. *)
Definition healthy_only (t : Thread) : bool :=
  match t with Unstopped _ | Running _ | Failing _ _ | Caught _ | Rejecting _ => true | _ => false end.

Definition starting (t : Thread) : bool :=
  match t with Initializing | InitFailed _ | Exited _ => true | _ => false end.

Definition rejecting (t : Thread) : bool := match t with Rejecting _ => true | _ => false end.

Record worker_wf w : Prop := {
  ww_count : outstanding w = permits w + length (queue w) + in_hand (thread w);
  ww_bound : outstanding w ≤ capacity w;
  ww_exited : exited (thread w) = true → sender_open w = false ∧ queue w = [];
  ww_closed : sender_open w = false → stopping w = true;
  ww_stopping : stopping w = true → checked w = 0 ∧ permits w = 0;
  ww_accepted : ∀ j, j ∈ queue w ++ pending (thread w) → j < length (jobs w);
  ww_once : NoDup (queue w ++ pending (thread w));
  ww_completed : ∀ j, j < length (jobs w) → completed j w = false ↔ j ∈ queue w ++ pending (thread w);
  ww_failed : th_failed w ≠ None → healthy_only (thread w) = false;
  ww_state : th_failed w = None → starting (thread w) = false → th_state w ≠ None;
  ww_quarantined : quarantined w = true ↔ th_failed w ≠ None ∨ rejecting (thread w) = true
}.

Lemma spawn_wf device n w : spawn device n = Ok w → worker_wf w.
Proof.
  unfold spawn. case_decide; [done|]. intros [= <-].
  split; simpl; try done; try lia; try (intros ? ?; lia); try (by intros ? ?%elem_of_nil); [constructor|].
  split; [done|]. by intros [?|?].
Qed.

(** ** Completing a job *)
Lemma complete_job_frame r j w :
  ∃ woken' jobs', complete_job r j w = set_woken woken' (set_jobs jobs' w) ∧ length jobs' = length (jobs w).
Proof.
  unfold complete_job. destruct (jobs w !! j); [|exists (woken w), (jobs w); by destruct w].
  do 2 eexists. split; [reflexivity|]. by rewrite length_insert.
Qed.

Lemma completed_complete r j k w : j < length (jobs w) →
  completed k (complete_job r j w) = bool_decide (k = j) || completed k w.
Proof.
  intros [job Hjob]%lookup_lt_is_Some_2. unfold complete_job, completed. rewrite Hjob. simpl.
  destruct (decide (k = j)) as [->|Hne].
  - rewrite list_lookup_insert_eq by (by eapply lookup_lt_Some). rewrite bool_decide_eq_true_2 by done. simpl.
    unfold complete. by destruct (rs_completed (jb_cell job)) eqn:E.
  - by rewrite list_lookup_insert_ne, bool_decide_eq_false_2 by done.
Qed.

(** What a step of the thread keeps, and what it must show. *)
Record turn w w' : Prop := {
  tn_fixed : capacity w' = capacity w ∧ sender_open w' = sender_open w ∧ stopping w' = stopping w ∧
             checked w' = checked w ∧ permits w' = permits w ∧ length (jobs w') = length (jobs w);
  tn_count : outstanding w' + length (queue w) + in_hand (thread w) =
             outstanding w + length (queue w') + in_hand (thread w');
  tn_bound : outstanding w' ≤ outstanding w;
  tn_exited : exited (thread w') = true → sender_open w = false ∧ queue w' = [];
  tn_once : NoDup (queue w' ++ pending (thread w'));
  tn_completed : ∀ j, j < length (jobs w) → completed j w' = false ↔ j ∈ queue w' ++ pending (thread w');
  tn_within : ∀ j, j ∈ queue w' ++ pending (thread w') → j ∈ queue w ++ pending (thread w);
  tn_failed : th_failed w' ≠ None → healthy_only (thread w') = false;
  tn_state : th_failed w' = None → starting (thread w') = false → th_state w' ≠ None;
  tn_quarantined : quarantined w' = true ↔ th_failed w' ≠ None ∨ rejecting (thread w') = true
}.

Lemma turn_wf w w' : worker_wf w → turn w w' → worker_wf w'.
Proof.
  intros [] [(Hc & Hs & Hst & Hch & Hp & Hj) ? ? ? ? ? ? ? ? ?]. split; rewrite ?Hc, ?Hs, ?Hst, ?Hch, ?Hp, ?Hj; auto; lia.
Qed.

(** The thread moves and completes no job. *)
Lemma move_turn w w' : worker_wf w → jobs w' = jobs w → queue w' ++ pending (thread w') ≡ₚ queue w ++ pending (thread w) →
  capacity w' = capacity w ∧ sender_open w' = sender_open w ∧ stopping w' = stopping w ∧
    checked w' = checked w ∧ permits w' = permits w →
  outstanding w' + length (queue w) + in_hand (thread w) = outstanding w + length (queue w') + in_hand (thread w') →
  outstanding w' ≤ outstanding w →
  (exited (thread w') = true → sender_open w = false ∧ queue w' = []) →
  (th_failed w' ≠ None → healthy_only (thread w') = false) →
  (th_failed w' = None → starting (thread w') = false → th_state w' ≠ None) →
  (quarantined w' = true ↔ th_failed w' ≠ None ∨ rejecting (thread w') = true) → turn w w'.
Proof.
  intros [] Hj Hperm (? & ? & ? & ? & ?) Hcount Hbound Hex Hf Hst Hq. split; try done.
  - rewrite Hj. by split_and!.
  - by rewrite Hperm.
  - intros j. rewrite Hperm. unfold completed in *. rewrite Hj. auto.
  - intros j. by rewrite Hperm.
Qed.

(** The thread completes the job in hand. *)
Lemma complete_turn w w' r j t : worker_wf w → pending (thread w) = [j] → in_hand (thread w) = 1 →
  thread w' = t → pending t = [] → in_hand t = 1 → exited t = false → healthy_only t = true ∨ t = Releasing j →
  jobs w' = jobs (complete_job r j w) → queue w' = queue w →
  capacity w' = capacity w ∧ sender_open w' = sender_open w ∧ stopping w' = stopping w ∧
    checked w' = checked w ∧ permits w' = permits w ∧ outstanding w' = outstanding w →
  (th_failed w' ≠ None → healthy_only t = false) → (th_failed w' = None → th_state w' ≠ None) →
  (quarantined w' = true ↔ th_failed w' ≠ None) → rejecting t = false → turn w w'.
Proof.
  intros Hwf Hp Hh Hthread Hp' Hh' He Ht Hj Hq (? & ? & ? & ? & ? & Ho) Hf Hst Hqu Hr. pose proof Hwf as [].
  assert (j < length (jobs w)) as Hlt by (apply ww_accepted0; rewrite Hp; set_solver).
  destruct (complete_job_frame r j w) as (wk & js & Heq & Hlen).
  assert (length (jobs w') = length (jobs w)) as Hl by (by rewrite Hj, Heq).
  rewrite Hp in *. split; rewrite ?Hthread, ?Hp', ?Hh', ?He, ?Hq, ?Hr, ?app_nil_r.
  - by split_and!.
  - lia.
  - lia.
  - done.
  - by apply NoDup_app in ww_once0 as (? & _ & _).
  - intros k Hk. assert (completed k w' = bool_decide (k = j) || completed k w) as ->.
    { rewrite <- (completed_complete r j k w Hlt). unfold completed. by rewrite Hj. }
    rewrite orb_false_iff, bool_decide_eq_false, ww_completed0 by done.
    apply NoDup_app in ww_once0 as (_ & Hdisj & _). rewrite elem_of_app, list_elem_of_singleton.
    split; [tauto|]. intros Hin. split; [|by left]. intros ->. apply (Hdisj j Hin). by apply list_elem_of_singleton.
  - set_solver.
  - done.
  - auto.
  - rewrite Hqu. split; [by left|]. by intros [?|?].
Qed.

Lemma complete_job_fields r j w :
  let w' := complete_job r j w in
  capacity w' = capacity w ∧ sender_open w' = sender_open w ∧ queue w' = queue w ∧ outstanding w' = outstanding w ∧
  quarantined w' = quarantined w ∧ stopping w' = stopping w ∧ thread w' = thread w ∧ th_state w' = th_state w ∧
  th_failed w' = th_failed w ∧ checked w' = checked w ∧ permits w' = permits w.
Proof. cbv zeta. destruct (complete_job_frame r j w) as (wk & js & -> & _). by split_and!. Qed.

Lemma set_state_complete r j s w : jobs (complete_job r j (set_state s w)) = jobs (complete_job r j w).
Proof. unfold complete_job. simpl. by destruct (jobs w !! j). Qed.

(** A rejected job, healthy replica or not. *)
Lemma reject_turn e j w : worker_wf w → thread w = Received j ∨ thread w = Unstopped j → turn w (reject e j w).
Proof.
  intros Hwf Ht. pose proof (complete_job_fields (Err e) j w) as (? & ? & ? & ? & Hq & ? & ? & Hst & Hf & ? & ?).
  pose proof Hwf as []. apply (complete_turn w _ (Err e) j (Releasing j)); try done; simpl; rewrite ?Hst, ?Hf, ?Hq.
  - by destruct Ht as [-> | ->].
  - by destruct Ht as [-> | ->].
  - by right.
  - intros ?. apply ww_state0; [done|]. by destruct Ht as [-> | ->].
  - rewrite ww_quarantined0. split; [|by left]. intros [?|Hr]; [done|]. by destruct Ht as [Ht|Ht]; rewrite Ht in Hr.
Qed.

Lemma returned_turn j r s w : worker_wf w → thread w = Running j → turn w (returned_from j r s w).
Proof.
  intros Hwf Ht. unfold returned_from. set (t := match failure r with Some e => Failing j e | None => Releasing j end).
  pose proof (complete_job_fields r j (set_state (Some s) w)) as (? & ? & ? & ? & Hq & ? & ? & Hst & Hf & ? & ?).
  pose proof Hwf as []. assert (th_failed w = None) as Hnone.
  { destruct (th_failed w); [|done]. exfalso. specialize (ww_failed0 ltac:(done)). by rewrite Ht in ww_failed0. }
  apply (complete_turn w _ r j t); try done; simpl; rewrite ?Hst, ?Hf, ?Hq; simpl; rewrite ?Hnone.
  - by rewrite Ht.
  - by rewrite Ht.
  - by unfold t; destruct (failure r).
  - by unfold t; destruct (failure r).
  - by unfold t; destruct (failure r).
  - unfold t. destruct (failure r); [by left|by right].
  - by rewrite set_state_complete.
  - done.
  - done.
  - rewrite ww_quarantined0, Hnone, Ht. simpl. split; [by intros [?|?]|done].
  - by unfold t; destruct (failure r).
Qed.

Lemma rejecting_turn j w : worker_wf w → thread w = Rejecting j →
  turn w (set_failed (Some job_panicked) (reject job_panicked j w)).
Proof.
  intros Hwf Ht. pose proof (complete_job_fields (Err job_panicked) j w) as (? & ? & ? & ? & Hq & ? & ? & Hst & Hf & ? & ?).
  pose proof Hwf as []. apply (complete_turn w _ (Err job_panicked) j (Releasing j)); try done; simpl; rewrite ?Hst, ?Hf, ?Hq.
  - by rewrite Ht.
  - by rewrite Ht.
  - by right.
  - rewrite ww_quarantined0, Ht. simpl. split; [done|by right].
Qed.

(** While nothing has failed the replica's state is there. *)
Lemma thread_step_turn w w' : worker_wf w → thread_step w w' → turn w w'.
Proof.
  intros Hwf Hstep. pose proof Hwf as [Hcount Hbound Hex Hclosed Hstop Hacc Honce Hcomp Hfail Hstate Hquar].
  assert (∀ t, thread w = t → healthy_only t = true → th_failed w = None) as Hhealthy.
  { intros t Ht Hh. destruct (th_failed w); [|done]. specialize (Hfail ltac:(done)). by rewrite Ht, Hh in Hfail. }
  destruct Hstep as [s w Ht|e w Ht|w Ht|e w Ht|j q w Ht Hq|w Ht Hq Hs|j e w Ht Hf|j w Ht Hf Hs|j w Ht Hf Hs|
    j w Ht Hc|j w Ht Hc|j job s r s' w Ht|j job s s' w Ht|j e w Ht|j w Ht|j w Ht|j w Ht];
    try (by apply reject_turn; auto); try (by apply returned_turn); try (by apply rejecting_turn);
    apply move_turn; try done; simpl; rewrite ?Ht, ?Hq in *; simpl in *;
    try (rewrite app_nil_r; done); try lia; try done; try tauto.
  - by split; [left|].
  - by rewrite app_nil_r, Permutation_app_comm.
  - by split; [left|].
Qed.

(** ** The clients *)

(** A client with a permit in hand is never refused. *)
Lemma submit_accepted n operation w : worker_wf w → permits w = S n →
  submit_reserved operation (set_permits n w) =
  (Ok (length (jobs w)),
   set_queue (queue w ++ [length (jobs w)]) (set_jobs (jobs w ++ [mk_job operation new_cell false]) (set_permits n w))).
Proof.
  intros [] Hp. unfold submit_reserved. simpl.
  assert (stopping w = false) as Hs.
  { apply not_true_iff_false. intros Hs. destruct (ww_stopping0 Hs). congruence. }
  destruct (sender_open w) eqn:Eo; [|rewrite ww_closed0 in Hs; done]. simpl.
  destruct (exited (thread w)) eqn:Ee; [by destruct (ww_exited0 eq_refl)|].
  rewrite decide_False by lia. done.
Qed.

(** What clients do to cells keeps them completed or not. *)
Definition keeps (f : Job → Job) : Prop := ∀ job, rs_completed (jb_cell (f job)) = rs_completed (jb_cell job).

Lemma alter_completed f j k w : keeps f → completed k (set_jobs (alter f j (jobs w)) w) = completed k w.
Proof.
  intros Hf. unfold completed. simpl. destruct (decide (k = j)) as [->|]; [|by rewrite list_lookup_alter_ne].
  rewrite list_lookup_alter_eq. destruct (jobs w !! j); simpl; [apply Hf|done].
Qed.

Lemma alter_wf f j w : keeps f → worker_wf w → worker_wf (set_jobs (alter f j (jobs w)) w).
Proof.
  intros Hf []. pose proof (λ k, alter_completed f j k w Hf) as Hc.
  split; simpl; rewrite ?length_alter; try done. intros k Hk. rewrite Hc. auto.
Qed.

Lemma submitted_wf n operation w : worker_wf w → permits w = S n →
  worker_wf (set_queue (queue w ++ [length (jobs w)])
    (set_jobs (jobs w ++ [mk_job operation new_cell false]) (set_permits n w))).
Proof.
  intros [] Hp. set (j := length (jobs w)).
  assert (j ∉ queue w ++ pending (thread w)) as Hfresh by (intros Hin; specialize (ww_accepted0 j Hin); lia).
  assert ((queue w ++ [j]) ++ pending (thread w) ≡ₚ j :: queue w ++ pending (thread w)) as Hperm.
  { rewrite <- app_assoc. simpl. by rewrite <- Permutation_middle. }
  assert (stopping w = false) as Hs.
  { apply not_true_iff_false. intros Hs. destruct (ww_stopping0 Hs). congruence. }
  split; simpl; rewrite ?length_app; simpl; try done; try lia.
  - intros Hex. destruct (ww_exited0 Hex) as [Ho _]. rewrite (ww_closed0 Ho) in Hs. done.
  - intros Hs'. congruence.
  - intros k. rewrite Hperm, elem_of_cons. intros [->|Hk]; [lia|]. specialize (ww_accepted0 k Hk). lia.
  - rewrite Hperm. by constructor.
  - intros k Hk. rewrite Hperm, elem_of_cons. unfold completed in *. simpl.
    destruct (decide (k = j)) as [->|Hne].
    + rewrite lookup_app_r, Nat.sub_diag by done. simpl. tauto.
    + rewrite lookup_app_l by lia. rewrite ww_completed0 by lia. tauto.
Qed.

Lemma poll_keeps task : keeps (λ job, set_cell (poll task (jb_cell job)).2 job).
Proof. intros job. unfold poll. simpl. destruct (rs_completed (jb_cell job)) eqn:E; simpl; congruence. Qed.
Lemma wait_keeps : keeps (λ job, set_cell (wait (jb_cell job)).2 job).
Proof. intros job. unfold wait. simpl. destruct (rs_completed (jb_cell job)) eqn:E; simpl; congruence. Qed.

Lemma client_step_wf w w' : worker_wf w → client_step w w' → worker_wf w'.
Proof.
  intros Hwf Hstep. destruct Hstep as [w Hg|n w w' Hc Hrun|n e w w' Hc Hrun|n operation r w w' Hp Hrun|j w|task j w|j w|w Hc Hp|w Hs].
  - unfold reserve_guard, is_quarantined, sendable in Hg. destruct (quarantined w); [done|].
    destruct (stopping w) eqn:Es; [done|]. destruct Hwf. split; simpl; try done. congruence.
  - unfold take_permit in Hrun. simpl in Hrun. case_decide; [|done]. injection Hrun as <-. destruct Hwf.
    split; simpl; try done; try lia. intros Hs. destruct (ww_stopping0 Hs). congruence.
  - unfold take_permit in Hrun. simpl in Hrun. case_decide; [done|]. injection Hrun as _ <-. destruct Hwf.
    split; simpl; try done. intros Hs. destruct (ww_stopping0 Hs). congruence.
  - rewrite (submit_accepted n operation w Hwf Hp) in Hrun. injection Hrun as _ <-. by apply submitted_wf.
  - by apply alter_wf.
  - apply alter_wf; [apply poll_keeps|done].
  - apply alter_wf; [apply wait_keeps|done].
  - by destruct Hwf; split.
  - destruct Hwf. split; simpl; try done. naive_solver.
Qed.

Lemma worker_reachable_wf w : worker_reachable w → worker_wf w.
Proof.
  intros (device & n & w0 & Hspawn & Hsteps). apply spawn_wf in Hspawn.
  induction Hsteps as [|w1 w2 w3 [Ht|Hc] _ IH]; [done|..]; apply IH.
  - by eapply turn_wf, thread_step_turn.
  - by eapply client_step_wf.
Qed.

(** ** Safety *)
Lemma complete_other r j k w : k ≠ j → jobs (complete_job r j w) !! k = jobs w !! k.
Proof. intros Hne. unfold complete_job. destruct (jobs w !! j); simpl; [|done]. by rewrite list_lookup_insert_ne. Qed.

Lemma pending_uncompleted j w : worker_wf w → pending (thread w) = [j] → completed j w = false.
Proof.
  intros [] Hp. assert (j ∈ queue w ++ pending (thread w)) as Hin by (rewrite Hp; set_solver).
  by apply ww_completed0; [apply ww_accepted0|].
Qed.

(** The thread leaves a completed job's cell alone. *)
Lemma thread_step_settled j w w' : worker_wf w → thread_step w w' → completed j w = true → jobs w' !! j = jobs w !! j.
Proof.
  intros Hwf Hstep Hc. assert (∀ k, pending (thread w) = [k] → j ≠ k) as Hne.
  { intros k Hp ->. rewrite (pending_uncompleted k w Hwf Hp) in Hc. done. }
  destruct Hstep; try done; simpl; try (apply complete_other, Hne; by rewrite H).
  - rewrite set_state_complete. apply complete_other, Hne. by rewrite H.
Qed.

Lemma thread_step_quarantined w w' : thread_step w w' → quarantined w = true → quarantined w' = true.
Proof.
  assert (∀ r j w, quarantined (complete_job r j w) = quarantined w) as Hc.
  { intros r j v. apply complete_job_fields. }
  intros Hstep. destruct Hstep; simpl; rewrite ?Hc; done.
Qed.

Lemma client_step_quarantined w w' : client_step w w' → quarantined w' = quarantined w.
Proof.
  intros Hstep. destruct Hstep as [| |n e w w' Hc Hrun|n operation r w w' Hp Hrun| | | | |]; try done.
  - unfold take_permit in *. by case_decide; simplify_eq.
  - unfold take_permit in *. by case_decide; simplify_eq.
  - unfold submit_reserved, drop_permit in Hrun. by repeat case_match; simplify_eq.
Qed.

Lemma permit_jobs n r w w' : take_permit (set_checked n w) = (r, w') →
  jobs w' = jobs w ∧ queue w' = queue w ∧ thread w' = thread w.
Proof. unfold take_permit. simpl. case_decide; by intros [= <- <-]. Qed.

(** What clients do to the jobs already accepted. *)
Lemma client_step_jobs w w' : worker_wf w → client_step w w' →
  thread w' = thread w ∧ (∃ more, queue w' = queue w ++ more) ∧
  ∀ j, j < length (jobs w) → completed j w' = completed j w ∧
    ∀ job', jobs w' !! j = Some job' → ∃ job, jobs w !! j = Some job ∧ jb_operation job' = jb_operation job.
Proof.
  intros Hwf Hstep.
  assert (∀ v : BoundedWorker, thread v = thread w → queue v = queue w → jobs v = jobs w → thread v = thread w ∧
    (∃ more, queue v = queue w ++ more) ∧ ∀ j, j < length (jobs w) → completed j v = completed j w ∧
    ∀ job', jobs v !! j = Some job' → ∃ job, jobs w !! j = Some job ∧ jb_operation job' = jb_operation job) as Hsame.
  { intros v Ht Hq Hj. split; [done|]. split; [exists []; by rewrite app_nil_r|]. intros j _. unfold completed. rewrite Hj.
    split; [done|]. intros job' ?. by exists job'. }
  assert (∀ f k, keeps f → (∀ job, jb_operation (f job) = jb_operation job) →
    thread (set_jobs (alter f k (jobs w)) w) = thread w ∧
    (∃ more, queue (set_jobs (alter f k (jobs w)) w) = queue w ++ more) ∧ ∀ j, j < length (jobs w) →
    completed j (set_jobs (alter f k (jobs w)) w) = completed j w ∧
    ∀ job', jobs (set_jobs (alter f k (jobs w)) w) !! j = Some job' →
      ∃ job, jobs w !! j = Some job ∧ jb_operation job' = jb_operation job) as Halter.
  { intros f k Hf Ho. split; [done|]. split; [exists []; simpl; by rewrite app_nil_r|]. intros j _.
    split; [by apply alter_completed|]. simpl. intros job'. destruct (decide (j = k)) as [->|].
    - rewrite list_lookup_alter_eq. destruct (jobs w !! k) as [job|]; [|done]. intros [= <-]. by exists job.
    - rewrite list_lookup_alter_ne by done. intros ?. by exists job'. }
  destruct Hstep as [|n w w' Hc Hrun|n e w w' Hc Hrun|n operation r w w' Hp Hrun|j w|task j w|j w|w|w]; try (by apply Hsame).
  - apply permit_jobs in Hrun as (? & ? & ?). by apply Hsame.
  - apply permit_jobs in Hrun as (? & ? & ?). by apply Hsame.
  - rewrite (submit_accepted n operation w Hwf Hp) in Hrun. injection Hrun as _ <-. simpl.
    split; [done|]. split; [by eexists|]. intros j Hj. unfold completed. simpl. rewrite lookup_app_l by done.
    split; [done|]. intros job' ?. by exists job'.
  - by apply Halter.
  - apply Halter; [apply poll_keeps|done].
  - apply Halter; [apply wait_keeps|done].
Qed.

Lemma completed_lt j w : completed j w = true → j < length (jobs w).
Proof. unfold completed. destruct (jobs w !! j) eqn:E; [|done]. intros _. by eapply lookup_lt_Some. Qed.

(** Claim C13.  Whatever the interleaving of the thread and its clients.  The
    outstanding count is the permits in hand, the queue and the job in hand, and
    never passes the capacity, so a client holding a permit is never refused.  An
    operation runs on an initialized replica that has not failed, for a job not
    yet completed; quarantine is for good, follows every failure, and no operation
    starts after it.  A completed job stays so, and the thread never touches its
    result again. *)
Theorem worker_is_safe w : worker_reachable w →
  outstanding w = permits w + length (queue w) + in_hand (thread w) ∧ outstanding w ≤ capacity w ∧
  (∀ n operation, permits w = S n →
     (submit_reserved operation (set_permits n w)).1 = Ok (length (jobs w))) ∧
  (∀ j, thread w = Running j →
     th_state w ≠ None ∧ th_failed w = None ∧ is_quarantined w = false ∧ completed j w = false) ∧
  (th_failed w ≠ None → is_quarantined w = true ∧
     ∀ w' j, thread_step w w' → thread w' ≠ Running j) ∧
  ∀ w', worker_step w w' → (is_quarantined w = true → is_quarantined w' = true) ∧
    ∀ j, completed j w = true → completed j w' = true ∧
      (thread_step w w' → jobs w' !! j = jobs w !! j).
Proof.
  intros Hr. pose proof (worker_reachable_wf w Hr) as Hwf. pose proof Hwf as [Hc Hb _ _ _ _ _ _ Hf Hs Hq].
  split; [done|]. split; [done|]. split.
  { intros n operation Hp. by rewrite (submit_accepted n operation w Hwf Hp). }
  split.
  { intros j Ht. assert (th_failed w = None) as Hnone.
    { destruct (th_failed w); [|done]. specialize (Hf ltac:(done)). by rewrite Ht in Hf. }
    split; [apply Hs; [done|by rewrite Ht]|]. split; [done|]. split.
    - unfold is_quarantined. apply not_true_iff_false. rewrite Hq, Hnone, Ht. simpl. by intros [?|?].
    - apply (pending_uncompleted j w Hwf). by rewrite Ht. }
  split.
  { intros Hfail. split; [apply Hq; by left|]. intros w' j Hstep Ht.
    specialize (Hf Hfail). destruct Hstep; simpl in Ht; try discriminate; try congruence.
    - by rewrite H in Hf.
    - by destruct (failure r). }
  intros w' [Hstep|Hstep]; split.
  - by apply thread_step_quarantined.
  - intros j Hj. pose proof (thread_step_settled j w w' Hwf Hstep Hj) as He. split; [|done].
    unfold completed in *. by rewrite He.
  - unfold is_quarantined. by rewrite (client_step_quarantined w w' Hstep).
  - intros j Hj. destruct (client_step_jobs w w' Hwf Hstep) as (_ & _ & Hjobs).
    destruct (Hjobs j (completed_lt j w Hj)) as [Hcj _]. split; [congruence|].
    intros Hthread. pose proof (thread_step_settled j w w' Hwf Hthread Hj). done.
Qed.

(** ** Liveness *)

(** The thread's steps until it waits again, at most. *)
Definition cost (t : Thread) : nat :=
  match t with
  | Received _ => 6 | Unstopped _ => 5 | Running _ => 4 | Caught _ => 3
  | Initializing | Rejecting _ | Failing _ _ => 2
  | InitFailed _ | Releasing _ => 1
  | Waiting | Exited _ => 0
  end.

(** Job [j] is completed within [n] steps of the thread. *)
Definition due (j n : nat) w : Prop :=
  (∃ before after, queue w = before ++ j :: after ∧ n = cost (thread w) + 7 * S (length before)) ∨
  (pending (thread w) = [j] ∧ n = cost (thread w)).

Lemma due_positive j n w : due j n w → 2 ≤ n.
Proof. intros [(? & ? & _ & ->)|[Hp ->]]; [lia|]. destruct (thread w); simpl in *; try done; lia. Qed.

Lemma due_bound j w : worker_wf w → j < length (jobs w) → completed j w = false →
  ∃ n, due j n w ∧ n ≤ 7 * capacity w + 6.
Proof.
  intros [] Hj Hc. apply ww_completed0 in Hc; [|done].
  assert (cost (thread w) ≤ 6) as Hcost by (destruct (thread w); simpl; lia).
  apply elem_of_app in Hc as [(before & after & Hq)%list_elem_of_split|Hp].
  - exists (cost (thread w) + 7 * S (length before)). split; [left; by exists before, after|].
    rewrite Hq, length_app in ww_count0. simpl in *. lia.
  - exists (cost (thread w)). split; [|lia]. right. split; [|done].
    destruct (thread w); simpl in *; try (by apply elem_of_nil in Hp); by apply list_elem_of_singleton in Hp as ->.
Qed.

(** Each step of the thread completes the job or brings its completion nearer. *)
Lemma due_thread j n w w' : worker_wf w → due j n w → thread_step w w' →
  completed j w' = true ∨ ∃ n', n' < n ∧ due j n' w'.
Proof.
  intros Hwf Hdue Hstep.
  assert (∀ r k, queue (complete_job r k w) = queue w) as Hqueue by (intros r k; apply complete_job_fields).
  assert (∀ v, queue v = queue w → cost (thread v) < cost (thread w) →
    pending (thread w) = [] ∨ pending (thread v) = pending (thread w) ∨ completed j v = true ∨ pending (thread w) ≠ [j] →
    completed j v = true ∨ ∃ n', n' < n ∧ due j n' v) as Hsame.
  { intros v Hq Hcost Hp. destruct Hdue as [(before & after & Hw & ->)|[Hw ->]].
    - right. exists (cost (thread v) + 7 * S (length before)). split; [lia|]. left. exists before, after. by rewrite Hq.
    - destruct Hp as [Hp|[Hp|[Hp|Hp]]]; [congruence| |by left|done].
      right. exists (cost (thread v)). split; [done|]. right. split; [congruence|done]. }
  assert (∀ r k v, pending (thread w) = [k] → jobs v = jobs (complete_job r k w) →
    completed j v = true ∨ [k] ≠ [j]) as Hdone.
  { intros r k v Hp Hj. destruct (decide (k = j)) as [->|]; [left|right; congruence].
    assert (j < length (jobs w)) as Hlt by (destruct Hwf; apply ww_accepted0; rewrite Hp; set_solver).
    transitivity (completed j (complete_job r j w)); [unfold completed; by rewrite Hj|].
    rewrite completed_complete by done. by rewrite bool_decide_eq_true_2. }
  destruct Hstep as [s w Ht|e w Ht|w Ht|e w Ht|k q w Ht Hq|w Ht Hq Hs|k e w Ht Hf|k w Ht Hf Hs|k w Ht Hf Hs|
    k w Ht Hc|k w Ht Hc|k job s r s' w Ht|k job s s' w Ht|k e w Ht|k w Ht|k w Ht|k w Ht]; cycle 4.
  { destruct Hdue as [(before & after & Hw & ->)|[Hw ->]]; [|by rewrite Ht in Hw].
    rewrite Hw in Hq. right. destruct before as [|b before]; simpl in *; injection Hq as -> <-; rewrite Ht; simpl.
    - exists 6. split; [lia|]. by right.
    - exists (6 + 7 * S (length before)). split; [lia|]. left. by exists before, after. }
  { destruct Hdue as [(before & after & Hw & ->)|[Hw ->]]; [by destruct before; rewrite Hw in Hq|by rewrite Ht in Hw]. }
  all: apply Hsame; simpl; rewrite ?Hqueue, ?Ht; simpl; try done; try lia; try tauto.
  - right; right. apply (Hdone (Err e)); by rewrite ?Ht.
  - right; right. apply (Hdone (Err job_cancelled)); by rewrite ?Ht.
  - right; right. apply (Hdone (Err job_cancelled)); by rewrite ?Ht.
  - by destruct (complete_job_fields r k (set_state (Some s') w)) as (_ & _ & -> & _).
  - destruct (failure r); simpl; lia.
  - right; right. apply (Hdone r); [by rewrite Ht|apply set_state_complete].
  - right; right. apply (Hdone (Err job_panicked)); by rewrite ?Ht.
Qed.

Lemma due_client j n w w' : worker_wf w → due j n w → client_step w w' → due j n w'.
Proof.
  intros Hwf Hdue Hstep. destruct (client_step_jobs w w' Hwf Hstep) as (Ht & (more & Hq) & _).
  destruct Hdue as [(before & after & Hw & ->)|[Hw ->]]; rewrite <- Ht in *.
  - left. exists before, (after ++ more). by rewrite Hq, Hw, <- app_assoc.
  - right. done.
Qed.

(** Every operation and initializer comes to an end. *)
Definition operations_end w : Prop := ∀ j job s, jobs w !! j = Some job → ∃ o, jb_operation job s o.

(** A thread that has something to do can do it. *)
Lemma thread_enabled w (s0 : St) : worker_wf w → operations_end w →
  (thread w = Waiting → queue w ≠ [] ∨ sender_open w = false) → exited (thread w) = false →
  ∃ w', thread_step w w'.
Proof.
  intros Hwf Hops Hwork Hex. pose proof Hwf as [].
  destruct (thread w) as [|e| |j|j|j|j e|j|j|j|b] eqn:Ht; simpl in Hex; try done.
  - eexists. by apply (step_init_ok s0).
  - eexists. by eapply step_init_failed.
  - destruct (queue w) as [|j q] eqn:Hq; [|eexists; by eapply step_recv].
    destruct (Hwork eq_refl) as [?|?]; [done|]. eexists. by apply step_hangup.
  - destruct (th_failed w) as [e|] eqn:Hf; [eexists; by eapply step_refused|].
    destruct (stopping w) eqn:Hs; eexists; [by eapply step_stopping|by eapply step_going].
  - destruct (cancelled_flag j w) eqn:Hc; eexists; [by eapply step_cancelled|by eapply step_start].
  - assert (th_failed w = None) as Hnone by (destruct (th_failed w); [specialize (ww_failed0 ltac:(done)); done|done]).
    specialize (ww_state0 Hnone eq_refl). destruct (th_state w) as [s|] eqn:Hst; [|done].
    destruct (lookup_lt_is_Some_2 (jobs w) j) as [job Hjob]; [apply ww_accepted0; simpl; set_solver|].
    destruct (Hops j job s Hjob) as [[r s'|s'] Ho]; eexists; [by eapply step_return|by eapply step_panic].
  - eexists. by eapply step_failing.
  - eexists. by eapply step_caught.
  - eexists. by eapply step_rejecting.
  - eexists. by eapply step_release.
Qed.

(** An interleaving with [n] steps of the thread. *)
Inductive interleaving : nat → BoundedWorker → BoundedWorker → Prop :=
| inter_refl w : interleaving 0 w w
| inter_thread n w1 w2 w3 : thread_step w1 w2 → interleaving n w2 w3 → interleaving (S n) w1 w3
| inter_client n w1 w2 w3 : client_step w1 w2 → interleaving n w2 w3 → interleaving n w1 w3.

Lemma interleaving_completed j n w w' : worker_wf w → interleaving n w w' → completed j w = true → completed j w' = true.
Proof.
  intros Hwf Hi. induction Hi as [|n w1 w2 w3 Hs _ IH|n w1 w2 w3 Hs _ IH]; [done|..]; intros Hc; apply IH.
  - by eapply turn_wf, thread_step_turn.
  - pose proof (thread_step_settled j _ _ Hwf Hs Hc) as He. unfold completed in *. by rewrite He.
  - by eapply client_step_wf.
  - destruct (client_step_jobs _ _ Hwf Hs) as (_ & _ & Hj). by destruct (Hj j (completed_lt j _ Hc)) as [-> _].
Qed.

Lemma interleaving_due j n m w w' : worker_wf w → interleaving n w w' → due j m w → m ≤ n → completed j w' = true.
Proof.
  intros Hwf Hi. revert m. induction Hi as [w|n w1 w2 w3 Hs Hi IH|n w1 w2 w3 Hs Hi IH]; intros m Hdue Hm.
  - pose proof (due_positive j m w Hdue). lia.
  - assert (worker_wf w2) as Hwf2 by (by eapply turn_wf, thread_step_turn).
    destruct (due_thread j m w1 w2 Hwf Hdue Hs) as [Hc|(m' & Hlt & Hdue')]; [by eapply interleaving_completed|].
    apply (IH Hwf2 m' Hdue'). lia.
  - apply (IH (client_step_wf _ _ Hwf Hs) m); [|done]. by eapply due_client.
Qed.

(** Claim C14.  Every job a worker accepted is completed: while it is not, the
    thread can take a step, and after at most seven steps of the thread per place
    of the queue and six for the job in hand its handle has a result, whatever
    submissions, cancellations, polls and shutdown interleave.  The assumption is
    that operations return or panic. *)
Theorem accepted_jobs_complete w j (s0 : St) : worker_reachable w → j < length (jobs w) → completed j w = false →
  (operations_end w → ∃ w', thread_step w w') ∧
  ∀ n w', interleaving n w w' → 7 * capacity w + 6 ≤ n → completed j w' = true.
Proof.
  intros Hr Hj Hc. pose proof (worker_reachable_wf w Hr) as Hwf.
  destruct (due_bound j w Hwf Hj Hc) as (m & Hdue & Hm). split.
  - intros Hops. apply (thread_enabled w s0 Hwf Hops).
    + intros Ht. left. destruct Hdue as [(before & after & -> & _)|[Hp _]]; [by destruct before|by rewrite Ht in Hp].
    + destruct (exited (thread w)) eqn:He; [|done]. destruct Hwf. destruct (ww_exited0 He) as [_ Hq].
      destruct Hdue as [(before & after & Hq' & _)|[Hp _]]; [by rewrite Hq in Hq'; destruct before|].
      by destruct (thread w).
  - intros n w' Hi Hn. apply (interleaving_due j n m w w' Hwf Hi Hdue). lia.
Qed.

(** ** The pool *)

(** A worker that takes a job now. *)
Definition available w : bool :=
  negb (is_quarantined w) && sendable w && bool_decide (outstanding w < capacity w).

Lemma reserve_slot_spec w :
  if available w then reserve_slot w = (Ok tt, set_permits (S (permits w)) (set_outstanding (S (outstanding w)) w))
  else ∃ e, reserve_slot w = (Err e, w).
Proof.
  unfold available, reserve_slot, reserve_guard, take_permit. destruct (is_quarantined w); simpl; [by eexists|].
  destruct (sendable w); simpl; [|by eexists]. case_bool_decide; [by rewrite decide_True|rewrite decide_False by done].
  by eexists.
Qed.

(** A worker that is available accepts. *)
Lemma try_submit_accepts operation w : worker_wf w → available w = true →
  (try_submit operation w).1 = Ok (length (jobs w)).
Proof.
  intros Hwf Ha. pose proof (reserve_slot_spec w) as Hr. rewrite Ha in Hr. unfold try_submit. rewrite Hr.
  unfold submit_permit, submit_reserved. simpl. unfold available, sendable in Ha.
  rewrite !andb_true_iff in Ha. destruct Ha as [[_ [_ Ho]] Hc%bool_decide_eq_true]. rewrite Ho. simpl. destruct Hwf.
  destruct (exited (thread w)) eqn:He; [destruct (ww_exited0 eq_refl); congruence|]. by rewrite decide_False by lia.
Qed.

Lemma pool_order_elem (ws : list BoundedWorker) start i : start < length ws → i ∈ pool_order ws start ↔ i < length ws.
Proof.
  intros Hs. unfold pool_order. rewrite sort_by_key_perm, list_elem_of_In, in_map_iff. split.
  - intros (n & <- & _). apply Nat.mod_upper_bound. lia.
  - intros Hi. exists (if decide (start ≤ i) then i - start else i + length ws - start). case_decide.
    + split; [rewrite Nat.mod_small; lia|]. apply in_seq. lia.
    + split; [|apply in_seq; lia].
      replace (start + (i + length ws - start)) with (i + 1 * length ws) by lia.
      rewrite Nat.Div0.mod_add. by apply Nat.mod_small.
Qed.

Lemma pool_loop_spec operation order last (ws : list BoundedWorker) : (∀ i, i ∈ order → i < length ws) →
  (∀ w, w ∈ ws → worker_wf w) → StronglySorted (λ a b, load ws a ≤ load ws b) order →
  match pool_loop operation order last ws with
  | (Ok (d, j), _) => ∃ i w, i ∈ order ∧ ws !! i = Some w ∧ available w = true ∧ d = device w ∧ j = length (jobs w) ∧
      ∀ k v, k ∈ order → ws !! k = Some v → available v = true → outstanding w ≤ outstanding v
  | (Err _, ws') => ws' = ws ∧ ∀ k v, k ∈ order → ws !! k = Some v → available v = false
  | (Panic _, _) => False
  end.
Proof.
  intros Hin Hwf Hs. revert last. induction Hs as [|i order Hs IH Hf]; intros last; simpl.
  { split; [done|]. by intros k v ?%elem_of_nil. }
  destruct (lookup_lt_is_Some_2 ws i) as [w Hw]; [apply Hin; by left|]. rewrite Hw.
  pose proof (reserve_slot_spec w) as Hr. destruct (available w) eqn:Ha.
  - assert (worker_wf w) as Hwfw by (apply Hwf; by eapply list_elem_of_lookup_2).
    pose proof (try_submit_accepts operation w Hwfw Ha) as Hacc. unfold try_submit in Hacc. rewrite Hr in *. simpl.
    rewrite Hacc. simpl. exists i, w. split_and!; try done; [by left|].
    intros k v [->|Hk]%elem_of_cons Hv Hav; [simplify_eq; lia|].
    rewrite Forall_forall in Hf. specialize (Hf k Hk). unfold load in Hf. by rewrite Hw, Hv in Hf.
  - destruct Hr as [e ->]. rewrite list_insert_id by done. specialize (IH ltac:(intros; apply Hin; by right) e).
    destruct (pool_loop operation order e ws) as [[[d j]|e'|p] ws']; [| |done].
    + destruct IH as (k & v & Hk & Hv & Hav & -> & -> & Hmin). exists k, v. split_and!; try done; [by right|].
      intros k' v' [->|Hk']%elem_of_cons Hv' Hav'; [congruence|by eapply Hmin].
    + destruct IH as [-> Hnone]. split; [done|].
      intros k' v' [->|Hk']%elem_of_cons Hv'; [congruence|by eapply Hnone].
Qed.

(** Without interference a pool submits to the least loaded worker that takes
    jobs, and refuses only when none does. *)
Lemma pool_submit_least_loaded operation (pool : @ReplicaPool St Value) : workers pool ≠ [] → (∀ w, w ∈ workers pool → worker_wf w) →
  match pool_submit operation pool with
  | (Ok (d, j), _) => ∃ w, w ∈ workers pool ∧ available w = true ∧ d = device w ∧ j = length (jobs w) ∧
      ∀ v, v ∈ workers pool → available v = true → outstanding w ≤ outstanding v
  | (Err _, pool') => workers pool' = workers pool ∧ ∀ v, v ∈ workers pool → available v = false
  | (Panic _, _) => False
  end.
Proof.
  intros Hne Hwf. unfold pool_submit. assert (length (workers pool) ≠ 0) as Hlen by (by destruct (workers pool)).
  rewrite decide_False by done. cbv zeta. set (start := cursor pool mod _).
  assert (start < length (workers pool)) as Hstart by (by apply Nat.mod_upper_bound).
  set (ws := workers pool) in *. pose proof (λ i, pool_order_elem ws start i Hstart) as Hord.
  pose proof (pool_loop_spec operation (pool_order ws start) (mk_error QueueFull "all replicas are busy") ws
    (λ i Hi, proj1 (Hord i) Hi) Hwf (sort_by_key_sorted _ _)) as Hl.
  assert (∀ v, v ∈ ws → ∃ k, k ∈ pool_order ws start ∧ ws !! k = Some v) as Hall.
  { intros v [k Hk]%list_elem_of_lookup. exists k. split; [|done]. apply Hord. by eapply lookup_lt_Some. }
  destruct (pool_loop _ _ _ _) as [[[d j]|e|p] ws']; simpl; [| |done].
  - destruct Hl as (i & w & _ & Hw & Ha & -> & -> & Hmin). exists w.
    split_and!; try done; [by eapply list_elem_of_lookup_2|]. intros v (k & Hk & Hv)%Hall. by eapply Hmin.
  - destruct Hl as [-> Hnone]. split; [done|]. intros v (k & Hk & Hv)%Hall. by eapply Hnone.
Qed.
End Spec.

(** ** A worker that counts its jobs *)
Definition count_job (s : nat) (o : @Outcome nat nat) : Prop := o = Returned (Ok s) (S s).
Definition toy_device : DeviceKey := mk_device Host 0.
Definition toy_idle : @BoundedWorker nat nat :=
  mk_worker toy_device 2 true [] 0 false false Initializing None None [] 0 0 [].
Definition toy_queued : @BoundedWorker nat nat :=
  mk_worker toy_device 2 true [0] 1 false false Waiting (Some 7) None [mk_job count_job new_cell false] 0 0 [].
Definition toy_done : @BoundedWorker nat nat :=
  mk_worker toy_device 2 true [] 0 false false Waiting (Some 8) None
    [mk_job count_job (mk_cell (Some (Ok 7)) true None) false] 0 0 [].

Definition toy_at (stage : nat) : @BoundedWorker nat nat :=
  match stage with
  | 0 => toy_idle
  | 1 => mk_worker toy_device 2 true [] 0 false false Waiting (Some 7) None [] 0 0 []
  | 2 => mk_worker toy_device 2 true [] 0 false false Waiting (Some 7) None [] 1 0 []
  | 3 => mk_worker toy_device 2 true [] 1 false false Waiting (Some 7) None [] 0 1 []
  | _ => toy_queued
  end.

Lemma toy_queued_reachable : worker_reachable toy_queued.
Proof.
  exists toy_device, 2, toy_idle. split; [reflexivity|].
  apply (rtc_l _ _ (toy_at 1)); [left; exact (step_init_ok 7 toy_idle eq_refl)|].
  apply (rtc_l _ _ (toy_at 2)); [right; exact (step_guard (toy_at 1) eq_refl)|].
  apply (rtc_l _ _ (toy_at 3)); [right; exact (step_permit 0 (toy_at 2) (set_outstanding 1 (set_checked 0 (toy_at 2))) eq_refl eq_refl)|].
  apply (rtc_l _ _ toy_queued); [right; exact (step_submit 0 count_job (Ok 0) (toy_at 3) toy_queued eq_refl eq_refl)|].
  apply rtc_refl.
Qed.

(** The thread runs the job of [toy_queued]. *)
Lemma toy_runs : interleaving 5 toy_queued toy_done.
Proof.
  eapply inter_thread; [by apply (step_recv 0 [])|].
  eapply inter_thread; [by apply (step_going 0)|].
  eapply inter_thread; [by apply (step_start 0)|].
  eapply inter_thread; [by eapply (step_return 0)|].
  eapply inter_thread; [by apply (step_release 0)|]. apply inter_refl.
Qed.

Example worker_is_safe_witness :
  outstanding toy_queued = 1 ∧
  outstanding toy_queued = permits toy_queued + length (queue toy_queued) + in_hand (thread toy_queued) ∧
  outstanding toy_queued ≤ capacity toy_queued ∧
  (∀ n operation, permits toy_queued = S n →
     (submit_reserved operation (set_permits n toy_queued)).1 = Ok (length (jobs toy_queued))) ∧
  (∀ j, thread toy_queued = Running j →
     th_state toy_queued ≠ None ∧ th_failed toy_queued = None ∧ is_quarantined toy_queued = false ∧
     completed j toy_queued = false) ∧
  (th_failed toy_queued ≠ None → is_quarantined toy_queued = true ∧
     ∀ w' j, thread_step toy_queued w' → thread w' ≠ Running j) ∧
  ∀ w', worker_step toy_queued w' → (is_quarantined toy_queued = true → is_quarantined w' = true) ∧
    ∀ j, completed j toy_queued = true → completed j w' = true ∧
      (thread_step toy_queued w' → jobs w' !! j = jobs toy_queued !! j).
Proof. split; [reflexivity|]. apply (worker_is_safe toy_queued toy_queued_reachable). Defined.

Example accepted_jobs_complete_witness :
  interleaving 5 toy_queued toy_done ∧
  (operations_end toy_queued → ∃ w', thread_step toy_queued w') ∧
  ∀ n w', interleaving n toy_queued w' → 7 * capacity toy_queued + 6 ≤ n → completed 0 w' = true.
Proof.
  split; [exact toy_runs|].
  apply (accepted_jobs_complete toy_queued 0 7 toy_queued_reachable); [simpl; lia|reflexivity].
Defined.
