(* ===== verification/Numerics.v ===== *)
(** * Host numerics

    src/src/runtime/numerics.rs on IEEE 754 data: the strict argmax that gates
    device logits, the reference softmax and RMS normalization, and the comparison
    of results within a tolerance. *)
From S2P Require Import Prelude Float Runtime Sampling.
Open Scope nat_scope.
Open Scope m_scope.

Definition infinity : spec_float := S754_infinity false.
Definition f64_sqrt : f64 → f64 := SFsqrt 53 1024.
Definition f64_abs : f64 → f64 := SFabs.
Definition numerical (m : string) : RuntimeError := mk_error Numerical m.

(** The loop of [checked_argmax] from [index] on. *)
Fixpoint argmax_loop (logits : list f32) (index : nat) (best : option (nat * f32)) :
    Run (option (nat * f32)) :=
  match logits with
  | [] => Ok best
  | x :: rest =>
      if is_nan x || eq x infinity then Err (numerical "logits contain NaN or positive infinity")
      else
        argmax_loop rest (S index)
          (if is_finite x && match best with None => true | Some (_, maximum) => lt maximum x end
           then Some (index, x) else best)
  end.

Definition checked_argmax (logits : list f32) : Run nat :=
  do? best := argmax_loop logits 0 None in
  match best with
  | Some (i, _) => Ok i
  | None => Err (numerical "logits are empty or entirely masked")
  end.

Definition stable_softmax `{Exponential} (logits : list f32) : Run (list f64) :=
  do? index := checked_argmax logits in
  do? maximum := expect OutOfBounds (logits !! index) in
  let probabilities := map (λ x, exp (f64_sub (as_f64 x) (as_f64 maximum))) logits in
  Ok (map (λ p, f64_div p (f64_sum probabilities)) probabilities).

Definition stable_rms_norm (input gamma : list f64) (epsilon : f64) : Run (list f64) :=
  if bool_decide (input = []) || bool_decide (length input ≠ length gamma) ||
     negb (is_finite epsilon) || le epsilon zero then
    Err (invalid "invalid RMSNorm width, gamma or epsilon")
  else if existsb (λ x, negb (is_finite x)) (input ++ gamma) then
    Err (numerical "non-finite RMSNorm input")
  else
    let scale := fold_left (λ s x, float_max s (f64_abs x)) input (f64_sqrt epsilon) in
    let square x := let y := f64_div x scale in f64_mul y y in
    let sum := f64_sum (map square input) in
    let denominator := f64_sqrt (f64_add (f64_div sum (f64_of_Z (Z.of_nat (length input))))
                                   (f64_div (f64_div epsilon scale) scale)) in
    let output := zip_with (λ x g, f64_mul (f64_div (f64_div x scale) denominator) g) input gamma in
    if existsb (λ x, negb (is_finite x)) output then Err (numerical "RMSNorm result is non-finite")
    else Ok output.

Record NumericalTolerance := mk_tolerance { nt_absolute : f64; nt_relative : f64 }.
Record NumericalComparison := mk_comparison { nc_values : nat; nc_max_absolute_error : f64 }.

(** The test of one pair of values. *)
Definition exceeds (t : NumericalTolerance) (a r : f64) : bool :=
  let error := f64_abs (f64_sub a r) in
  let scale := float_max (float_max (f64_abs a) (f64_abs r)) one in
  let normalized_error := f64_abs (f64_sub (f64_div a scale) (f64_div r scale)) in
  let limit := f64_add (f64_div (nt_absolute t) scale)
                 (f64_mul (nt_relative t) (f64_div (f64_abs r) scale)) in
  let direct_limit := f64_add (nt_absolute t) (f64_mul (nt_relative t) (f64_abs r)) in
  if is_finite error && is_finite direct_limit then lt direct_limit error
  else lt limit normalized_error.

(** The loop of [compare] from pair [i] on. *)
Fixpoint compare_loop (t : NumericalTolerance) (i : nat) (pairs : list (f64 * f64)) (maximum : f64) :
    Run f64 :=
  match pairs with
  | [] => Ok maximum
  | (a, r) :: rest =>
      if negb (is_finite a) || negb (is_finite r) then
        Err (numerical ("non-finite comparison value at " +:+ pretty (N.of_nat i)))
      else if exceeds t a r then
        Err (numerical ("numerical tolerance exceeded at " +:+ pretty (N.of_nat i)))
      else compare_loop t (S i) rest (float_max maximum (f64_abs (f64_sub a r)))
  end.

Definition compare (t : NumericalTolerance) (actual reference : list f64) : Run NumericalComparison :=
  if negb (is_finite (nt_absolute t)) || negb (is_finite (nt_relative t)) ||
     lt (nt_absolute t) zero || lt (nt_relative t) zero ||
     bool_decide (length actual ≠ length reference) || bool_decide (actual = []) then
    Err (invalid "invalid tolerance or comparison dimensions")
  else
    do? maximum := compare_loop t 0 (zip actual reference) zero in
    Ok (mk_comparison (length actual) maximum).

(** ** What [checked_argmax] accepts *)

(** A row of logits: no NaN, no positive infinity. *)
Definition clean (logits : list f32) : Prop :=
  ∀ x, x ∈ logits → is_nan x = false ∧ eq x infinity = false.

(** The best finite entry of a prefix: the first of the largest. *)
Definition best_of (logits : list f32) (best : option (nat * f32)) : Prop :=
  match best with
  | None => ∀ x, x ∈ logits → is_finite x = false
  | Some (i, m) => logits !! i = Some m ∧ is_finite m = true ∧
      ∀ j x, logits !! j = Some x → is_finite x = true → below x m ∧ (j < i → lt x m = true)
  end.

Lemma finite_not_nan x : is_finite x = true → is_nan x = false.
Proof. by destruct x. Qed.

Lemma best_of_step logits best x : best_of logits best →
  best_of (logits ++ [x])
    (if is_finite x && match best with None => true | Some (_, maximum) => lt maximum x end
     then Some (length logits, x) else best).
Proof.
  intros Hb. destruct (is_finite x) eqn:Ef; simpl.
  2:{ destruct best as [[i m]|]; simpl in *.
      - destruct Hb as (Hi & Hm & Hall). split; [by apply lookup_app_l_Some|]. split; [done|].
        intros j y [Hj|[_ Hj]]%lookup_app_Some Hy; [by apply Hall|].
        apply list_lookup_singleton_Some in Hj as [_ <-]. congruence.
      - intros y [Hy| ->%list_elem_of_singleton]%elem_of_app; [by apply Hb|done]. }
  assert (∀ j y, (logits ++ [x]) !! j = Some y → logits !! j = Some y ∨ j = length logits ∧ y = x) as Hsplit.
  { intros j y [Hj|[Hge Hj]]%lookup_app_Some; [by left|right].
    apply list_lookup_singleton_Some in Hj as [Hj <-]. split; [lia|done]. }
  destruct best as [[i m]|]; simpl in *.
  - destruct Hb as (Hi & Hm & Hall). pose proof (finite_not_nan _ Hm). pose proof (finite_not_nan _ Ef).
    destruct (lt m x) eqn:El; simpl.
    + split; [by apply list_lookup_middle|]. split; [done|].
      intros j y [Hj|[-> ->]]%Hsplit Hy; [|split; [apply below_refl|lia]].
      destruct (Hall j y Hj Hy) as [Hle _]. pose proof (finite_not_nan _ Hy).
      apply lt_below in El; [|done..].
      assert (¬ below x y) as Hn by (intros Hxy; apply El; by eapply below_trans).
      split; [by destruct (below_total x y)|]. intros _. by apply lt_below.
    + apply lt_false in El; [|done..]. split; [by apply lookup_app_l_Some|]. split; [done|].
      intros j y [Hj|[-> ->]]%Hsplit Hy; [by apply Hall|]. split; [done|].
      apply lookup_lt_Some in Hi. lia.
  - split; [by apply list_lookup_middle|]. split; [done|].
    intros j y [Hj|[-> ->]]%Hsplit Hy; [|split; [apply below_refl|lia]].
    apply list_elem_of_lookup_2, Hb in Hj. congruence.
Qed.

Lemma argmax_loop_spec logits done best : best_of done best →
  match argmax_loop logits (length done) best with
  | Ok best' => clean logits ∧ best_of (done ++ logits) best'
  | Err e => e = numerical "logits contain NaN or positive infinity" ∧ ¬ clean logits
  | Panic _ => False
  end.
Proof.
  revert done best. induction logits as [|x logits IH]; intros done best Hb; simpl.
  { rewrite app_nil_r. split; [by intros ? ?%elem_of_nil|done]. }
  destruct (is_nan x || eq x infinity) eqn:Ex.
  { split; [done|]. intros Hc. destruct (Hc x) as [Hn Hi]; [by left|]. by rewrite Hn, Hi in Ex. }
  apply orb_false_iff in Ex. specialize (IH (done ++ [x]) _ (best_of_step done best x Hb)).
  rewrite length_app, Nat.add_1_r in IH. destruct (argmax_loop _ _ _); [|..|done].
  - rewrite <- app_assoc in IH. destruct IH as [Hc ?]. split; [|done].
    intros y [->|Hy]%elem_of_cons; [done|by apply Hc].
  - destruct IH as [? Hc]. split; [done|]. intros Hc'. apply Hc. intros y Hy. apply Hc'. by right.
Qed.

(** [checked_argmax] accepts exactly the clean rows that are not entirely masked,
    and returns the smallest index of the largest finite logit. *)
Lemma checked_argmax_exact logits :
  match checked_argmax logits with
  | Ok i => clean logits ∧ ∃ m, logits !! i = Some m ∧ is_finite m = true ∧
      ∀ j x, logits !! j = Some x → is_finite x = true → below x m ∧ (j < i → lt x m = true)
  | Err e => kind e = Numerical ∧ (¬ clean logits ∨ ∀ x, x ∈ logits → is_finite x = false)
  | Panic _ => False
  end.
Proof.
  pose proof (argmax_loop_spec logits [] None) as H. unfold checked_argmax. simpl in H.
  destruct (argmax_loop logits 0 None) as [[[i m]|]|e|p]; simpl;
    (lapply H; [clear H; intros H|by intros ? ?%elem_of_nil]).
  - destruct H as (Hc & Hi & Hm & Hall). split; [done|]. by exists m.
  - destruct H as [_ H]. split; [done|by right].
  - destruct H as [-> ?]. split; [done|by left].
  - done.
Qed.

(** ** The reference softmax *)
Lemma stable_softmax_exact `{Exponential} logits :
  match stable_softmax logits with
  | Ok ps => clean logits ∧ ∃ m weights, m ∈ logits ∧ is_finite m = true ∧
      (∀ x, x ∈ logits → is_finite x = true → below x m) ∧
      weights = map (λ x, exp (f64_sub (as_f64 x) (as_f64 m))) logits ∧
      ps = map (λ w, f64_div w (f64_sum weights)) weights
  | Err e => kind e = Numerical ∧ (¬ clean logits ∨ ∀ x, x ∈ logits → is_finite x = false)
  | Panic _ => False
  end.
Proof.
  pose proof (checked_argmax_exact logits) as Ha. unfold stable_softmax.
  destruct (checked_argmax logits) as [i|e|p]; simpl; [|done|done].
  destruct Ha as (Hc & m & Hi & Hm & Hall). rewrite Hi. simpl. split; [done|].
  exists m. eexists. split; [by eapply list_elem_of_lookup_2|]. split; [done|].
  split; [|by split]. intros x [j Hj]%list_elem_of_lookup Hx. by apply (Hall j x).
Qed.

(** ** Comparison within a tolerance *)
Definition comparable (t : NumericalTolerance) (actual reference : list f64) : Prop :=
  is_finite (nt_absolute t) = true ∧ is_finite (nt_relative t) = true ∧
  lt (nt_absolute t) zero = false ∧ lt (nt_relative t) zero = false ∧
  length actual = length reference ∧ actual ≠ [].

Definition close (t : NumericalTolerance) (e : f64 * f64) : Prop :=
  is_finite e.1 = true ∧ is_finite e.2 = true ∧ exceeds t e.1 e.2 = false.

Lemma compare_loop_spec t i pairs maximum :
  match compare_loop t i pairs maximum with
  | Ok m => (∀ e, e ∈ pairs → close t e) ∧
      m = fold_left (λ m e, float_max m (f64_abs (f64_sub e.1 e.2))) pairs maximum
  | Err e => kind e = Numerical ∧ ∃ e, e ∈ pairs ∧ ¬ close t e
  | Panic _ => False
  end.
Proof.
  revert i maximum. induction pairs as [|[a r] pairs IH]; intros i maximum; simpl.
  { split; [by intros ? ?%elem_of_nil|done]. }
  destruct (negb (is_finite a) || negb (is_finite r)) eqn:Ef.
  { split; [done|]. exists (a, r). split; [by left|]. intros (Ha & Hr & _). simpl in *. by rewrite Ha, Hr in Ef. }
  apply orb_false_iff in Ef as [Ha%negb_false_iff Hr%negb_false_iff].
  destruct (exceeds t a r) eqn:Ee.
  { split; [done|]. exists (a, r). split; [by left|]. intros (_ & _ & He). simpl in *. congruence. }
  specialize (IH (S i) (float_max maximum (f64_abs (f64_sub a r)))).
  destruct (compare_loop _ _ _ _); [|..|done].
  - destruct IH as [Hall ->]. split; [|done]. intros e [->|He]%elem_of_cons; [done|by apply Hall].
  - destruct IH as (? & e' & ? & ?). split; [done|]. exists e'. split; [by right|done].
Qed.

(** [compare] succeeds exactly on comparable vectors that are close everywhere, and
    reports their largest absolute difference. *)
Lemma compare_exact t actual reference :
  match compare t actual reference with
  | Ok c => comparable t actual reference ∧ nc_values c = length actual ∧
      (∀ e, e ∈ zip actual reference → close t e) ∧
      nc_max_absolute_error c =
        fold_left (λ m e, float_max m (f64_abs (f64_sub e.1 e.2))) (zip actual reference) zero
  | Err e => ¬ comparable t actual reference ∧ kind e = InvalidInput ∨
      kind e = Numerical ∧ ∃ e, e ∈ zip actual reference ∧ ¬ close t e
  | Panic _ => False
  end.
Proof.
  unfold compare, comparable. destruct (_ || _) eqn:Ebad.
  - left. split; [|done]. intros (H1 & H2 & H3 & H4 & H5 & H6). rewrite H1, H2, H3, H4 in Ebad. simpl in Ebad.
    rewrite !bool_decide_eq_false_2 in Ebad; [done|done|]. by intros [].
  - rewrite !orb_false_iff, !negb_false_iff, !bool_decide_eq_false in Ebad.
    destruct Ebad as [[[[[H1 H2] H3] H4] H5] H6].
    pose proof (compare_loop_spec t 0 (zip actual reference) zero) as Hl.
    destruct (compare_loop _ _ _ _); simpl; [|by right|done].
    destruct Hl as [? ->]. split; [|done]. split_and!; try done. by destruct (decide (length actual = length reference)).
Qed.
