(* ===== verification/BatchSampling.v ===== *)
(** * Sampled requests in batches

    src/src/continuous_batch/sampling.rs: submission of sampled requests, the
    selection of a batch's tokens from its logits, on copies of the requests'
    samplers, and the commit that stores the tokens and the samplers together. *)
From S2P Require Import Prelude Float PagedKv ContinuousBatch GenerationControl Sampling.
Open Scope nat_scope.
Open Scope m_scope.

(** [SamplingGenerationConfig] of src/src/generation/sampling.rs. *)
Record SamplingGenerationConfig := mk_sampling_generation {
  sg_max_new_tokens : nat;
  sg_eos_token_ids : list Z;
  sg_sampling : SamplingConfig
}.

(** Placeholder for rows that do not produce a token. *)
Definition NO_TOKEN : Z := (-1)%Z.

(** [greedy_token]: the first of the largest values that are not NaN. *)
Definition greedy_step (best : option (nat * f32)) (entry : nat * f32) : option (nat * f32) :=
  if is_nan entry.2 then best
  else if match best with None => true | Some (_, maximum) => lt maximum entry.2 end then Some entry
  else best.

Definition row_greedy_token (values : list f32) (row : nat) : res ContinuousBatchError Z :=
  match fold_left greedy_step (imap pair values) None with
  | None => Err ("all vocabulary logits are NaN for batch row " +:+ pretty (N.of_nat row))
  | Some (index, _) =>
      if decide (Z.of_nat index ≤ i32_max)%Z then Ok (Z.of_nat index)
      else Err "vocabulary index exceeds i32"
  end.

Section BatchSampling.
Context `{DefaultHasher} `{Exponential, Randomness}.
Notation Sched := (@ContinuousBatchScheduler TokenSampler).
Notation SM := (M Sched ContinuousBatchError).
Implicit Types s : Sched.

(** [BTreeMap<RequestId, Option<TokenSampler>>] *)
Notation BatchSamplingState := (gmap N (option TokenSampler)) (only parsing).

Record BatchTokenSelection := mk_selection {
  bs_batch_id : N;
  bs_tokens : list Z;
  bs_samplers : list (RequestId * TokenSampler)
}.

Definition submit_sampled_with_options (prompt : list Z) (g : SamplingGenerationConfig)
    (options : SamplingOptions) : SM RequestId :=
  let! sampler := mlift (new_with_options (sg_sampling g) options) in
  submit_with_sampler prompt (mk_generation (sg_max_new_tokens g) (sg_eos_token_ids g)) (Some sampler).

Definition submit_sampled (prompt : list Z) (g : SamplingGenerationConfig) : SM RequestId :=
  submit_sampled_with_options prompt g default_options.

Definition in_flight_batch s (id : N) : res ContinuousBatchError ScheduledBatch :=
  match in_flight s with
  | Some batch => if decide (batch_id batch = id) then Ok batch
                  else Err ("batch " +:+ pretty id +:+ " is not in flight")
  | None => Err ("batch " +:+ pretty id +:+ " is not in flight")
  end.

(** The request of a row samples from its distribution. *)
Definition row_samples s (row : ScheduledSequence) : bool :=
  samples_token s row &&
  match active s !! row_request_id row with
  | Some r => bool_decide (is_Some (rq_sampler r))
  | None => false
  end.

Definition batch_requires_logits s (id : N) : res ContinuousBatchError bool :=
  do? batch := in_flight_batch s id in
  Ok (existsb (row_samples s) (batch_sequences batch)).

Definition complete_greedy_batch (id : N) (argmax : list Z) : SM (list Z) :=
  let! s := mget in
  let! batch := mlift (in_flight_batch s id) in
  if decide (length argmax ≠ length (batch_sequences batch)) then
    mthrow "argmax rows do not match the scheduled batch"
  else
    let tokens := zip_with (λ row token, if samples_token s row then token else NO_TOKEN)
                    (batch_sequences batch) argmax in
    let! sampled := mlift (batch_requires_logits s id) in
    if sampled : bool then mthrow "batch has sampled rows and needs full logits"
    else complete_batch id tokens ;;; mret tokens.

(** The [collect] of [batch_sampling_state]. *)
Fixpoint sampling_state s (rows : list ScheduledSequence) (state : BatchSamplingState) :
    res ContinuousBatchError BatchSamplingState :=
  match rows with
  | [] => Ok state
  | row :: rest =>
      do? r := ok_or (active s !! row_request_id row) "sampling references missing request" in
      sampling_state s rest (<[row_request_id row := rq_sampler r]> state)
  end.

Definition batch_sampling_state s (id : N) : res ContinuousBatchError BatchSamplingState :=
  do? batch := in_flight_batch s id in
  sampling_state s (batch_sequences batch) ∅.

(** The loop of [select_batch_tokens_with]; [select] may change what its
    closure captured, [C]. *)
Section Select.
Context {C : Type}.
Context (select : RequestId → list f32 → option TokenSampler →
  M C ContinuousBatchError (Z * option TokenSampler)).

Fixpoint select_rows s (id : N) (logits : list f32) (vocabulary row : nat)
    (rows : list ScheduledSequence) (state : BatchSamplingState) :
    M C ContinuousBatchError (list Z * list (RequestId * TokenSampler)) :=
  match rows with
  | [] => mret ([], [])
  | sequence :: rest =>
      let request := row_request_id sequence in
      let! r := mok_or (active s !! request) ("batch references missing request " +:+ pretty request) in
      if decide (rq_phase r ≠ InFlight id) then
        mthrow ("request " +:+ pretty request +:+ " is not owned by batch " +:+ pretty id)
      else if samples_token s sequence then
        let! values := mexpect OutOfBounds (slice (row * vocabulary) ((row + 1) * vocabulary) logits) in
        let! next := mok_or (state !! request) "missing transactional batch sampler" in
        let! chosen := select request values next in
        let! more := select_rows s id logits vocabulary (row + 1) rest (delete request state) in
        mret (chosen.1 :: more.1,
              match chosen.2 with
              | Some next => (request, clear_workspace next) :: more.2
              | None => more.2
              end)
      else
        let! more := select_rows s id logits vocabulary (row + 1) rest state in
        mret (NO_TOKEN :: more.1, more.2)
  end.

Definition select_batch_tokens_with s (id : N) (logits : list f32) (vocabulary : nat)
    (state : BatchSamplingState) : M C ContinuousBatchError BatchTokenSelection :=
  let! batch := mlift (in_flight_batch s id) in
  let rows := batch_sequences batch in
  if decide (vocabulary = 0 ∨ usize_mul (length rows) vocabulary ≠ Some (length logits)) then
    mthrow "logit rows do not match the scheduled batch"
  else
    let! chosen := select_rows s id logits vocabulary 0 rows state in
    mret (mk_selection id chosen.1 chosen.2).
End Select.

(** The closure of [select_batch_tokens]. *)
Definition select_with_history s (id : RequestId) (values : list f32) (sampler : option TokenSampler) :
    M unit ContinuousBatchError (Z * option TokenSampler) :=
  match sampler with
  | Some sampler =>
      let! r := mexpect OutOfBounds (active s !! id) in
      match sample_with_history values (rq_prompt_token_ids r) (rq_generated_token_ids r) sampler with
      | (Ok token, sampler) => mret (token, Some sampler)
      | (Err e, _) => mthrow e
      | (Panic p, _) => mpanic p
      end
  | None => let! token := mlift (row_greedy_token values 0) in mret (token, None)
  end.

Definition select_batch_tokens s (id : N) (logits : list f32) (vocabulary : nat) :
    res ContinuousBatchError BatchTokenSelection :=
  do? state := batch_sampling_state s id in
  (select_batch_tokens_with (select_with_history s) s id logits vocabulary state tt).1.

(** [request.sampler = Some(sampler)], when the request is still active. *)
Definition store_sampler (entry : RequestId * TokenSampler) : SM unit :=
  mmodify (λ s, set_active (alter (set_sampler (Some entry.2)) entry.1 (active s)) s).

Definition complete_selected_batch (selection : BatchTokenSelection) : SM (list Z) :=
  complete_batch (bs_batch_id selection) (bs_tokens selection) ;;;
  mfor (bs_samplers selection) store_sampler ;;;
  mret (bs_tokens selection).
End BatchSampling.
