(* ===== verification/FencedBatch.v ===== *)
(** * Fence-gated batches

    src/src/continuous_batch/fenced.rs: the scheduler behind a completion fence.
    Nothing of a batch is committed, rolled back or recycled before the device has
    finished with it; when that cannot be known the gate is quarantined. *)
From S2P Require Import Prelude Float PagedKv ContinuousBatch GenerationControl Sampling.
From S2P Require Import BatchSampling Runtime Numerics.
Open Scope nat_scope.
Open Scope m_scope.

(** [trait BatchFence].  What a poll answers is in the state of the fence: the
    device's progress is the fence's own, as seen by successive polls.  A poll may
    panic. *)
Inductive FencePoll :=
| FencePending
| FenceDone                      (** [Ready(Ok(()))] *)
| FenceFailed (e : RuntimeError) (** [Ready(Err(e))] *)
| FencePanicked.

Class BatchFence := {
  Fence : Type;
  poll_complete : Fence → FencePoll * Fence
}.

Record BatchLaunchFailure := mk_launch_failure {
  lf_error : RuntimeError;
  lf_work : WorkState;
  lf_committed_cache_intact : bool
}.

(** What the [submit] closure of [launch] does. *)
Inductive LaunchOutcome `{BatchFence} :=
| Launched (f : Fence)
| LaunchFailed (f : BatchLaunchFailure)
| LaunchPanicked.

(** [Poll] *)
Inductive Poll (A : Type) :=
| Pending
| Ready (a : A).
Arguments Pending {A}.
Arguments Ready {A} a.

Section Fenced.
Context `{DefaultHasher} `{Exponential, Randomness} `{BatchFence}.
Notation Sched := (@ContinuousBatchScheduler TokenSampler).

Record FencedBatchScheduler := mk_gate {
  gt_scheduler : Sched;
  gt_fence : option (N * Fence * bool);
  gt_quarantined : bool
}.
Implicit Types g : FencedBatchScheduler.

Definition set_scheduler s g : FencedBatchScheduler := mk_gate s (gt_fence g) (gt_quarantined g).
Definition set_fence f g : FencedBatchScheduler := mk_gate (gt_scheduler g) f (gt_quarantined g).
Definition set_quarantined b g : FencedBatchScheduler := mk_gate (gt_scheduler g) (gt_fence g) b.

Notation GM := (M FencedBatchScheduler RuntimeError).

Definition new_gate (s : Sched) : Run FencedBatchScheduler :=
  if bs_has_in_flight_batch (batch_snapshot s) then
    Err (invalid "cannot wrap a scheduler with untracked in-flight work")
  else Ok (mk_gate s None false).

Definition ensure_healthy : GM unit :=
  let! g := mget in
  if gt_quarantined g then
    mthrow (mk_error DeviceLost "scheduler is quarantined; device work may still be in flight")
  else mret tt.

(** A call of the scheduler, with [map_error]. *)
Definition scheduled {A} (m : M Sched ContinuousBatchError A) : GM A := λ g,
  let out := m (gt_scheduler g) in (map_err invalid out.1, set_scheduler out.2 g).

Definition gate_submit (prompt : list Z) (generation : GreedyGenerationConfig) : GM RequestId :=
  ensure_healthy ;;; scheduled (submit prompt generation).

Definition gate_submit_sampled (prompt : list Z) (generation : SamplingGenerationConfig) : GM RequestId :=
  ensure_healthy ;;; scheduled (submit_sampled prompt generation).

(** The kinds a failed launch is not recovered from. *)
Definition fatal_launch (k : RuntimeErrorKind) : bool :=
  match k with DeviceLost | Synchronization | WorkerPanicked | Internal => true | _ => false end.

Definition recoverable (f : BatchLaunchFailure) : bool :=
  bool_decide (lf_work f ≠ WorkUnknown) && lf_committed_cache_intact f &&
  negb (fatal_launch (kind (lf_error f))).

Definition launch (submit : ScheduledBatch → LaunchOutcome) : GM (option ScheduledBatch) :=
  ensure_healthy ;;;
  let! scheduled_batch := scheduled schedule in
  match scheduled_batch with
  | None => mret None
  | Some batch =>
      mmodify (set_quarantined true) ;;;
      match submit batch with
      | Launched fence =>
          mmodify (set_fence (Some (batch_id batch, fence, false))) ;;;
          mmodify (set_quarantined false) ;;;
          mret (Some batch)
      | LaunchFailed failure =>
          (if recoverable failure then
             scheduled (fail_batch (batch_id batch)) ;;;
             mmodify (set_quarantined false)
           else mret tt) ;;;
          mthrow (lf_error failure)
      | LaunchPanicked => mpanic Foreign
      end
  end.

Definition poll_fence (id : N) : GM (Poll unit) :=
  ensure_healthy ;;;
  let! g := mget in
  let! tracked := mok_or (gt_fence g) (invalid "no tracked device batch") in
  let '(tracked_id, fence, completed) := tracked in
  if decide (tracked_id ≠ id) then mthrow (invalid "stale or wrong batch fence ID") else
  if completed : bool then mret (Ready tt) else
  mmodify (set_quarantined true) ;;;
  let polled := poll_complete fence in
  mmodify (set_fence (Some (tracked_id, polled.2, false))) ;;;
  match polled.1 with
  | FencePending => mmodify (set_quarantined false) ;;; mret Pending
  | FenceDone =>
      mmodify (set_fence (Some (tracked_id, polled.2, true))) ;;;
      mmodify (set_quarantined false) ;;;
      mret (Ready tt)
  | FenceFailed error => mthrow error
  | FencePanicked => mpanic Foreign
  end.

(** [for row in logits.chunks_exact(vocabulary) { checked_argmax(row)?; }], for
    the first [rows] chunks. *)
Fixpoint check_rows (rows vocabulary : nat) (logits : list f32) : Run unit :=
  match rows with
  | O => Ok tt
  | S rows' =>
      do? _ := checked_argmax (take vocabulary logits) in
      check_rows rows' vocabulary (drop vocabulary logits)
  end.

Definition try_complete_logits (id : N) (logits : list f32) (vocabulary : nat) : GM (Poll (list Z)) :=
  let! polled := poll_fence id in
  match polled with
  | Pending => mret Pending
  | Ready _ =>
      let! g := mget in
      let! batch := mexpect Expect (in_flight (gt_scheduler g)) in
      let rows := batch_size batch in
      if decide (vocabulary = 0 ∨ usize_mul rows vocabulary ≠ Some (length logits)) then
        mthrow (invalid "logit shape does not match the fenced batch")
      else
        mlift (check_rows rows vocabulary logits) ;;;
        let! selected := scheduled (λ s, (select_batch_tokens s id logits vocabulary, s)) in
        let! tokens := scheduled (complete_selected_batch selected) in
        mmodify (set_fence None) ;;;
        mret (Ready tokens)
  end.

Definition try_rollback (id : N) : GM (Poll unit) :=
  let! polled := poll_fence id in
  match polled with
  | Pending => mret Pending
  | Ready _ =>
      scheduled (fail_batch id) ;;;
      mmodify (set_fence None) ;;;
      mret (Ready tt)
  end.

Definition gate_cancel (id : RequestId) : GM (option CancelledGeneration) :=
  ensure_healthy ;;; scheduled (cancel id).

Definition gate_set_batch_token_limit (limit : nat) : GM unit :=
  ensure_healthy ;;; scheduled (set_batch_token_limit limit).

Definition gate_is_quarantined g : bool := gt_quarantined g.
Definition gate_snapshot g : ContinuousBatchSnapshot := batch_snapshot (gt_scheduler g).

(** [pop_finished] works on a quarantined gate too. *)
Definition gate_pop_finished : GM (option FinishedGeneration) := scheduled pop_finished.

(** [Drop]: the fence that is leaked, when its work is not known to be done. *)
Definition drop_gate g : option Fence :=
  match gt_fence g with Some (_, fence, false) => Some fence | _ => None end.
End Fenced.
