(* ===== verification/DeviceBatch.v ===== *)
(** * The device batch executor

    src/src/continuous_batch/device.rs: scheduled batches run on a model that
    consumes their rows together.  A step works on a fork of the cache and installs
    it only with the tokens; an error after the device is done puts the batch back;
    when the device cannot be synchronized the batch stays in flight. *)
From S2P Require Import Prelude Float PagedKv ContinuousBatch GenerationControl Generation Sampling.
From S2P Require Import BatchSampling.
Open Scope nat_scope.
Open Scope m_scope.

(** [trait DeviceBatchModel], with the tensor operations of the executor: the
    model, its caches and its tensors live on the device.  What the device does
    between calls is in its state.  [tensor_values] is the cast to [f32] and the
    readback.  The last stage of the forward defaults
    ([forward_batch_sampling] -> [forward_batch_lookahead] -> [forward_batch]) is
    what the executor calls. *)
Class DeviceBatchModel `{DefaultHasher, Exponential, Randomness} := {
  BatchCache : Type;
  BatchDevice : Type;
  BatchTensor : Type;
  tensor_dims : BatchTensor → list nat;
  tensor_values : BatchTensor → Gen (list f32);
  batch_limits : CausalModelLimits;
  new_batch_cache : PagedKvCacheConfig → BatchCache;
  fork_batch_cache : BatchCache → BatchCache;
  forward_batch_sampling : ScheduledBatch → gmap N PagedKvAppendReservation →
    BatchDevice → BatchCache → gmap N (option TokenSampler) →
    Gen BatchTensor * (BatchDevice * BatchCache * gmap N (option TokenSampler));
  retain_batch_cache : BatchCache → @ContinuousBatchScheduler TokenSampler → BatchCache;
  sync_batch : BatchDevice → Gen unit * BatchDevice;
  lookahead_tokens : nat;
  select_batch_token : RequestId → list f32 → option TokenSampler →
    M BatchCache GenerationError (Z * option TokenSampler)
}.

Section Defaults.
Context `{Exponential, Randomness}.

(** The default method [select_batch_token]. *)
Definition default_select_token (values : list f32) (sampler : option TokenSampler) :
    Gen (Z * option TokenSampler) :=
  match sampler with
  | Some sampler =>
      match sample values sampler with
      | (Ok token, sampler) => Ok (token, Some sampler)
      | (Err e, _) => Err e
      | (Panic p, _) => Panic p
      end
  | None => do? token := row_greedy_token values 0 in Ok (token, None)
  end.
End Defaults.

Record ExecutedBatch := mk_executed {
  eb_batch : ScheduledBatch;
  eb_generated_token_ids : list Z
}.

Section Executor.
Context `{DeviceBatchModel}.
Notation Sched := (@ContinuousBatchScheduler TokenSampler).

Record DeviceBatchExecutor := mk_executor {
  ex_device : BatchDevice;
  ex_scheduler : Sched;
  ex_cache : BatchCache
}.
Implicit Types x : DeviceBatchExecutor.

Definition set_ex_device d x : DeviceBatchExecutor := mk_executor d (ex_scheduler x) (ex_cache x).
Definition set_ex_scheduler s x : DeviceBatchExecutor := mk_executor (ex_device x) s (ex_cache x).
Definition set_ex_cache c x : DeviceBatchExecutor := mk_executor (ex_device x) (ex_scheduler x) c.

Definition new_executor (device : BatchDevice) (config : ContinuousBatchConfig)
    (kv : PagedKvCacheConfig) (options : ContinuousBatchOptions) :
    res ContinuousBatchError DeviceBatchExecutor :=
  if decide (max_model_length batch_limits < max_sequence_length kv) then
    Err "KV sequence limit exceeds model capacity"
  else
    do? scheduler := with_options config kv options in
    Ok (mk_executor device scheduler (new_batch_cache kv)).

Definition validate_request (prompt : list Z) (g : GreedyGenerationConfig) :
    res ContinuousBatchError unit :=
  do? _ := validate_generation batch_limits prompt g in Ok tt.

Section Step.
(** [P]: what the closures given to a step capture. *)
Context {P : Type}.
Notation EM := (M (DeviceBatchExecutor * P) ContinuousBatchError).

(** A call of the scheduler. *)
Definition on_scheduler {A} (m : M Sched ContinuousBatchError A) : EM A := λ st,
  let out := m (ex_scheduler st.1) in (out.1, (set_ex_scheduler out.2 st.1, st.2)).

Definition modify_executor (f : DeviceBatchExecutor → DeviceBatchExecutor) : EM unit :=
  mmodify (λ st, (f st.1, st.2)).

Definition exec_submit (prompt : list Z) (g : GreedyGenerationConfig) : EM RequestId :=
  mlift (validate_request prompt g) ;;;
  on_scheduler (submit prompt g).

Definition exec_submit_sampled (prompt : list Z) (g : SamplingGenerationConfig) : EM RequestId :=
  mlift (validate_request prompt (mk_generation (sg_max_new_tokens g) (sg_eos_token_ids g))) ;;;
  on_scheduler (submit_sampled prompt g).

(** [fail_batch(batch.id)?; return Err(error)] *)
Definition fail_with {A} (batch : ScheduledBatch) (e : ContinuousBatchError) : EM A :=
  on_scheduler (fail_batch (batch_id batch)) ;;; mthrow e.

Definition sync_executor (what : string) : EM unit :=
  let! st := mget in
  let synced := sync_batch (ex_device st.1) in
  modify_executor (set_ex_device synced.2) ;;;
  match synced.1 with
  | Ok _ => mret tt
  | Err e => mthrow (what +:+ e)
  | Panic p => mpanic p
  end.

(** The logits of a forward, checked and read back, with the tensor they are in. *)
Definition read_logits (batch : ScheduledBatch) (out : Gen BatchTensor) : Gen (BatchTensor * list f32) :=
  do? logits := out in
  if decide (tensor_dims logits ≠ [batch_size batch; 1; vocab_size batch_limits]) then
    Err "device batch logit shape mismatch"
  else do? values := tensor_values logits in Ok (logits, values).

(** [zip(values.chunks_exact_mut(vocabulary))]: the rows that are processed, the
    ones that are skipped, and what is left of [values] after the last row. *)
Fixpoint process_rows (process : RequestId → list f32 → P → Gen (list f32) * P)
    (vocabulary : nat) (rows : list ScheduledSequence) (values : list f32) : EM (list f32) :=
  match rows with
  | [] => mret values
  | sequence :: rest =>
      if decide (length values < vocabulary) then mret values else
      let row := take vocabulary values in
      let! st := mget in
      let! r := mexpect OutOfBounds (active (ex_scheduler st.1) !! row_request_id sequence) in
      let! row' :=
        (if decide (row_context_length sequence < length (rq_prompt_token_ids r)) then mret row
         else
           let out := process (row_request_id sequence) row st.2 in
           mmodify (λ st, (st.1, out.2)) ;;; mlift out.1) in
      let! more := process_rows process vocabulary rest (drop vocabulary values) in
      mret (row' ++ more)
  end.

Definition run_processor (processor : option (RequestId → list f32 → P → Gen (list f32) * P))
    (batch : ScheduledBatch) (values : list f32) : EM (list f32) :=
  match processor with
  | None => mret values
  | Some process =>
      if decide (vocab_size batch_limits = 0) then mpanic DivByZero
      else process_rows process (vocab_size batch_limits) (batch_sequences batch) values
  end.

(** The selection on the working cache; the model's choices may change it. *)
Definition select_tokens (batch : ScheduledBatch) (values : list f32)
    (sampling : gmap N (option TokenSampler)) (working : BatchCache) :
    EM (BatchTokenSelection * BatchCache) :=
  let! st := mget in
  let out := select_batch_tokens_with select_batch_token (ex_scheduler st.1) (batch_id batch) values
               (vocab_size batch_limits) sampling working in
  let! selection := mlift out.1 in mret (selection, out.2).

Definition step_inner
    (processor : option (RequestId → list f32 → P → Gen (list f32) * P))
    (observer : option (ScheduledBatch → BatchCache → BatchTensor → P → P)) :
    EM (option ExecutedBatch) :=
  let! scheduled := on_scheduler schedule in
  match scheduled with
  | None => mret None
  | Some batch =>
      let! st := mget in
      let working := fork_batch_cache (ex_cache st.1) in
      let! lookahead :=
        mcatch (on_scheduler (reserve_lookahead batch lookahead_tokens)) (fail_with batch) in
      let! st := mget in
      let! sampling :=
        mcatch (mlift (batch_sampling_state (ex_scheduler st.1) (batch_id batch))) (fail_with batch) in
      let! st := mget in
      let '(out, (device, working, sampling)) :=
        forward_batch_sampling batch lookahead (ex_device st.1) working sampling in
      modify_executor (set_ex_device device) ;;;
      let result := read_logits batch out in
      match result with Panic p => mpanic p | _ => mret tt end ;;;
      sync_executor "batch completion: " ;;;
      match observer, result with
      | Some observe, Ok (logits, _) =>
          mmodify (λ st, (st.1, observe batch working logits st.2)) ;;;
          sync_executor "batch prefix completion: "
      | _, _ => mret tt
      end ;;;
      let! selected :=
        mcatch
          (let! read := mlift result in
           let! values := run_processor processor batch read.2 in
           select_tokens batch values sampling working)
          (fail_with batch) in
      let! generated := on_scheduler (complete_selected_batch selected.1) in
      modify_executor (λ x, set_ex_cache (retain_batch_cache selected.2 (ex_scheduler x)) x) ;;;
      mret (Some (mk_executed batch generated))
  end.

Definition exec_step : EM (option ExecutedBatch) := step_inner None None.

Definition step_with_logits_processor (process : RequestId → list f32 → P → Gen (list f32) * P) :
    EM (option ExecutedBatch) := step_inner (Some process) None.

Definition exec_cancel (id : RequestId) : EM (option CancelledGeneration) :=
  let! cancelled := on_scheduler (cancel id) in
  modify_executor (λ x, set_ex_cache (retain_batch_cache (ex_cache x) (ex_scheduler x)) x) ;;;
  mret cancelled.

Definition exec_pop_finished : EM (option FinishedGeneration) := on_scheduler pop_finished.
End Step.

Definition exec_is_idle x : bool := is_idle (ex_scheduler x).
Definition exec_snapshot x : ContinuousBatchSnapshot := batch_snapshot (ex_scheduler x).
End Executor.
