(* ===== verification/BatchDecoding.v ===== *)
(** * Batched decoding of sampled requests

    What a scheduler whose batches are completed through [complete_selected_batch]
    finishes: for every request the tokens that decoding it alone, with its own
    sampler, would give.  [decode] is the reference; [told] the invariant that ties
    every request to what was submitted under its id. *)
From S2P Require Import Prelude Float GenerationControl Sampling SamplingSpec SamplingDraw.
From S2P Require Import PagedKv PagedKvPool PagedKvInv PagedKvOps PagedKvPrefix.
From S2P Require Import PagedKvSpec ContinuousBatch ContinuousBatchInv ContinuousBatchSchedule.
From S2P Require Import ContinuousBatchLoop ContinuousBatchOps ContinuousBatchVerify.
From S2P Require Import ContinuousBatchCalls ContinuousBatchSpec.
From S2P Require Import BatchSampling.
Open Scope nat_scope.
Open Scope m_scope.

Section Decoding.
Context `{DefaultHasher} `{Exponential, Randomness}.
Notation Sched := (@ContinuousBatchScheduler TokenSampler).
Notation Request := (@ActiveRequest TokenSampler).
Notation Choice := (res ContinuousBatchError (Z * option TokenSampler)).
Implicit Types s : Sched.
Implicit Types r : Request.

(** ** The selection of a batch *)

(** What the loop of [select_batch_tokens_with] makes of the rows from number [k]
    on, when [P] relates a request, its logits and its sampler to the token and the
    next sampler. *)
Inductive selected s (P : RequestId → list f32 → option TokenSampler → Z → option TokenSampler → Prop)
    (logits : list f32) (vocabulary : nat) :
    nat → list ScheduledSequence → list Z → list (RequestId * TokenSampler) → Prop :=
| sel_nil k : selected s P logits vocabulary k [] [] []
| sel_skip k row rows tokens samplers :
    samples_token s row = false → selected s P logits vocabulary (k + 1) rows tokens samplers →
    selected s P logits vocabulary k (row :: rows) (NO_TOKEN :: tokens) samplers
| sel_take k row rows r values token next tokens samplers :
    active s !! row_request_id row = Some r → samples_token s row = true →
    slice (k * vocabulary) ((k + 1) * vocabulary) logits = Some values →
    P (row_request_id row) values (rq_sampler r) token next →
    selected s P logits vocabulary (k + 1) rows tokens samplers →
    selected s P logits vocabulary k (row :: rows) (token :: tokens)
      (match next with
       | Some n => (row_request_id row, clear_workspace n) :: samplers
       | None => samplers
       end).

(** The rows of a batch in flight, as [select_batch_tokens_with] needs them. *)
Definition owned s (id : N) (rows : list ScheduledSequence)
    (state : gmap N (option TokenSampler)) : Prop :=
  NoDup (map row_request_id rows) ∧
  ∀ row, row ∈ rows → ∃ r, active s !! row_request_id row = Some r ∧ rq_phase r = InFlight id ∧
    state !! row_request_id row = Some (rq_sampler r).

Lemma owned_tail s id row rows state : owned s id (row :: rows) state →
  owned s id rows state ∧ owned s id rows (delete (row_request_id row) state).
Proof.
  intros [Hnd Hrow]. simpl in Hnd. apply NoDup_cons in Hnd as [Hni Hnd].
  split; (split; [done|]); intros row' Hin;
    (destruct (Hrow row') as (r & ? & ? & ?); [by right|]); exists r; [done|].
  split_and!; try done. rewrite lookup_delete_ne; [done|]. intros Heq. apply Hni. rewrite Heq.
  by apply list_elem_of_fmap_2.
Qed.

Section Select.
Context {C : Type} (s : Sched).
Context (select : RequestId → list f32 → option TokenSampler →
  M C ContinuousBatchError (Z * option TokenSampler)).
Context (P : RequestId → list f32 → option TokenSampler → Z → option TokenSampler → Prop).
Context (I : C → Prop) (bad : panic → Prop).
Hypothesis select_spec : ∀ id r values sampler c, active s !! id = Some r → I c →
  match select id values sampler c with
  | (Ok out, c') => P id values sampler out.1 out.2 ∧ I c'
  | (Err _, c') => I c'
  | (Panic p, _) => bad p
  end.

(** The outcome of a selection. *)
Definition selects {A} (Q : A → Prop) : res ContinuousBatchError A → C → Prop := λ out c,
  match out with Ok a => Q a ∧ I c | Err _ => I c | Panic p => bad p end.

Lemma select_rows_wp id logits vocabulary k rows state c :
  owned s id rows state → (k + length rows) * vocabulary ≤ length logits → I c →
  wp (select_rows select s id logits vocabulary k rows state)
    (selects (λ out, selected s P logits vocabulary k rows out.1 out.2)) c.
Proof.
  revert k state c. induction rows as [|row rows IH]; intros k state c Hown Hlen Hc; simpl.
  { apply wp_ret. split; [constructor|done]. }
  simpl in Hlen. destruct (owned_tail _ _ _ _ _ Hown) as [Hkeep Hdrop].
  destruct Hown as [_ Hrow]. destruct (Hrow row) as (r & Hr & Hph & Hst); [by left|].
  wp_step. unfold mok_or. rewrite Hr. apply wp_ret. rewrite decide_False by (by intros []).
  destruct (samples_token s row) eqn:Esample.
  - wp_step. unfold slice at 1. rewrite decide_True by lia. simpl. apply wp_ret.
    wp_step. rewrite Hst. apply wp_ret.
    wp_step. unfold wp at 1.
    pose proof (select_spec (row_request_id row) r (take ((k + 1) * vocabulary - k * vocabulary)
      (drop (k * vocabulary) logits)) (rq_sampler r) c Hr Hc) as Hs.
    destruct (select _ _ _ c) as [[out|e|p] c']; simpl; [|done|done]. destruct Hs as [HP Hc'].
    wp_step. eapply wp_mono; [by apply IH; [|lia|]|]. intros [more|e|p] c''; simpl; [|done|done].
    intros [Hsel Hc'']. apply wp_ret. split; [|done]. simpl.
    eapply sel_take; [done|done| |done|done]. unfold slice. by rewrite decide_True by lia.
  - wp_step. eapply wp_mono; [by apply IH; [|lia|]|]. intros [more|e|p] c''; simpl; [|done|done].
    intros [Hsel Hc'']. apply wp_ret. split; [|done]. by constructor.
Qed.
End Select.

(** ** Storing the samplers *)
Notation samplers_map l := (list_to_map (M := gmap N TokenSampler) l).

Definition with_sampler (o : option TokenSampler) (r : Request) : Request :=
  match o with Some n => set_sampler (Some n) r | None => r end.

Lemma store_samplers l s : NoDup l.*1 → ∃ act,
  mfor l store_sampler s = (Ok tt, set_active act s) ∧
  ∀ id, act !! id = with_sampler (samplers_map l !! id) <$> active s !! id.
Proof.
  revert s. induction l as [|[id n] l IH]; intros s Hnd; simpl.
  { exists (active s). split; [by destruct s|]. intros id. rewrite lookup_empty. simpl. by destruct (active s !! id). }
  simpl in Hnd. apply NoDup_cons in Hnd as [Hni Hnd].
  destruct (IH (set_active (alter (set_sampler (Some n)) id (active s)) s) Hnd) as (act & Heq & Hact).
  exists act. split; [unfold mbind', store_sampler at 1; simpl; by rewrite Heq|].
  intros i. rewrite Hact. simpl. destruct (decide (i = id)) as [->|Hi].
  - rewrite lookup_insert_eq, lookup_alter_eq. apply not_elem_of_list_to_map_1 in Hni. rewrite Hni.
    by destruct (active s !! id).
  - by rewrite lookup_insert_ne, lookup_alter_ne.
Qed.

Section Selected.
Context (P : RequestId → list f32 → option TokenSampler → Z → option TokenSampler → Prop).
Context (logits : list f32) (vocabulary : nat).

Lemma selected_keys s k rows tokens samplers :
  selected s P logits vocabulary k rows tokens samplers →
  length tokens = length rows ∧ ∀ id, id ∈ samplers.*1 → id ∈ map row_request_id rows.
Proof.
  induction 1 as [k|k row rows tokens samplers Hn Hs [IHl IHk]|k row rows r values token next tokens samplers Hr Hy Hv HP Hs [IHl IHk]];
    simpl; [done|..]; (split; [lia|]).
  - intros id Hid. apply elem_of_cons. right. by apply IHk.
  - intros id. destruct next; simpl; [rewrite elem_of_cons; intros [->|Hid]|intros Hid];
      apply elem_of_cons; [by left|right; by apply IHk..].
Qed.

Lemma selected_nodup s k rows tokens samplers :
  selected s P logits vocabulary k rows tokens samplers → NoDup (map row_request_id rows) →
  NoDup samplers.*1.
Proof.
  induction 1 as [k|k row rows tokens samplers Hn Hs IH|k row rows r values token next tokens samplers Hr Hy Hv HP Hs IH];
    simpl; intros Hnd; [constructor|apply NoDup_cons in Hnd as [Hni Hnd]..]; [by apply IH|].
  destruct next; [|by apply IH]. simpl. constructor; [|by apply IH].
  intros Hin. by apply Hni, (selected_keys _ _ _ _ _ Hs).
Qed.

(** The token and the next sampler of each row. *)
Lemma selected_row s k rows tokens samplers i row r :
  selected s P logits vocabulary k rows tokens samplers → NoDup (map row_request_id rows) →
  rows !! i = Some row → active s !! row_request_id row = Some r →
  ∃ token, tokens !! i = Some token ∧
    if samples_token s row
    then ∃ values next, slice ((k + i) * vocabulary) ((k + i + 1) * vocabulary) logits = Some values ∧
      P (row_request_id row) values (rq_sampler r) token next ∧
      samplers_map samplers !! row_request_id row = clear_workspace <$> next
    else token = NO_TOKEN ∧ samplers_map samplers !! row_request_id row = None.
Proof.
  intros Hs. revert i.
  induction Hs as [k|k row' rows tokens samplers Hn Hs IH|k row' rows r' values token next tokens samplers Hr' Hy Hv HP Hs IH];
    intros i Hnd Hi Hr; [done|simpl in Hnd; apply NoDup_cons in Hnd as [Hni Hnd]..].
  all: assert (samplers_map samplers !! row_request_id row' = None) as Hnone
    by (apply not_elem_of_list_to_map_1; intros Hin; by apply Hni, (selected_keys _ _ _ _ _ Hs)).
  - destruct i as [|i]; simpl in Hi.
    + injection Hi as ->. exists NO_TOKEN. by rewrite Hn.
    + destruct (IH i Hnd Hi Hr) as (token & Ht & Hx). exists token. split; [done|].
      by replace (k + S i) with (k + 1 + i) by lia.
  - destruct i as [|i]; simpl in Hi.
    + injection Hi as ->. exists token. split; [done|]. rewrite Hy. simplify_eq.
      exists values, next. rewrite Nat.add_0_r. split; [done|]. split; [done|].
      destruct next; [|done]. simpl. by rewrite lookup_insert_eq.
    + destruct (IH i Hnd Hi Hr) as (token' & Ht & Hx). exists token'. split; [done|].
      replace (k + S i) with (k + 1 + i) by lia.
      assert (row_request_id row' ≠ row_request_id row) as Hne.
      { intros Heq. apply Hni. rewrite Heq. apply list_elem_of_fmap_2. by eapply list_elem_of_lookup_2. }
      destruct next; [|done]. simpl. by rewrite lookup_insert_ne.
Qed.
End Selected.

(** ** Committing a selection *)
Lemma with_sampler_phase o r : set_phase NeedsPrefill (with_sampler o r) =
  with_sampler o (set_phase NeedsPrefill r).
Proof. by destruct o. Qed.

Lemma with_sampler_submission o r :
  rq_prompt_token_ids (with_sampler o r) = rq_prompt_token_ids r ∧
  rq_generation (with_sampler o r) = rq_generation r.
Proof. by destruct o. Qed.

(** The invariant does not look at samplers. *)
Lemma sched_wf_samplers s act (f : RequestId → option TokenSampler) :
  (∀ id, act !! id = with_sampler (f id) <$> active s !! id) → sched_wf s → sched_wf (set_active act s).
Proof.
  intros Hact [Hst Hfl].
  assert (∀ id r', act !! id = Some r' → ∃ r, active s !! id = Some r ∧ r' = with_sampler (f id) r) as Hinv.
  { intros id r'. rewrite Hact. intros (r & -> & ?)%fmap_Some. by exists r. }
  assert (∀ v id r, resting v (with_sampler (f id) r) ↔ resting v r) as Hrest
    by (intros v id r; by destruct (f id)).
  assert (static_wf (set_active act s)) as Hst'.
  { apply static_active; [done|..].
    - intros id. by rewrite Hact, fmap_is_Some.
    - intros id r' (r & Hr & ->)%Hinv. destruct (st_request _ Hst _ _ Hr) as [[] _].
      destruct (f id); by split. }
  split; [done|]. simpl. destruct (in_flight s) as [b|].
  - destruct Hfl as ([Hnd Hw Hb Hrow Hre] & Hne & Hlt). split; [|done]. split; simpl; try done.
    + intros row Hin. destruct (Hrow row Hin) as [Hres (r & Hr & Hph & Hf)]. split; [done|].
      exists (with_sampler (f (row_request_id row)) r). rewrite Hact, Hr. by destruct (f _).
    + intros id r' (r & Hr & ->)%Hinv Hn. apply Hrest. by apply Hre.
  - intros id r' (r & Hr & ->)%Hinv. apply Hrest. by apply Hfl.
Qed.

Lemma complete_selected_wp s selection b :
  sched_wf s → in_flight s = Some b → batch_kind b ≠ Verify → bs_batch_id selection = batch_id b →
  NoDup (bs_samplers selection).*1 →
  wp (complete_selected_batch selection) (post (λ tokens s', tokens = bs_tokens selection ∧ sched_wf s' ∧
      acceptable s (batch_id b) tokens ∧ ∃ s1 act,
      completed (set_in_flight None s) (batch_sequences b) tokens s1 ∧ s' = set_active act s1 ∧
      ∀ id, act !! id = with_sampler (samplers_map (bs_samplers selection) !! id) <$> active s1 !! id)
    (λ _ s', s' = s ∧ ¬ acceptable s (batch_id b) (bs_tokens selection))) s.
Proof.
  intros Hwf Hb Hk Hid Hnd. unfold complete_selected_batch. rewrite Hid.
  eapply wp_bind_post; [apply (complete_batch_wp _ _ _ Hwf)| |done].
  { intros b' Hb'. congruence. }
  intros [] s1 (Hwf1 & b' & Hb' & Hacc & Hcp). simplify_eq.
  destruct (store_samplers (bs_samplers selection) s1 Hnd) as (act & Heq & Hact).
  unfold wp. rewrite (bind_ok _ _ _ _ _ Heq). simpl. split; [done|].
  split; [|split; [done|by exists s1, act]].
  by apply (sched_wf_samplers s1 act (λ id, samplers_map (bs_samplers selection) !! id)).
Qed.

(** ** The reference *)

(** What choosing one token does: from the prompt, the tokens generated so far and
    the request's sampler. *)
Class Picking (pick : list Z → list Z → option TokenSampler → Choice) := {
  pick_same prompt gen sampler sampler' :
    option_Forall2 same_sampler sampler sampler' →
    match pick prompt gen sampler, pick prompt gen sampler' with
    | Ok out, Ok out' => out.1 = out'.1 ∧ option_Forall2 same_sampler out.2 out'.2
    | Err e, Err e' => e = e'
    | Panic p, Panic p' => p = p'
    | _, _ => False
    end;
  pick_ok prompt gen sampler out : pick prompt gen sampler = Ok out →
    (0 ≤ out.1)%Z ∧ (is_Some out.2 ↔ is_Some sampler)
}.

Section Run.
Context (pick : list Z → list Z → option TokenSampler → Choice) `{!Picking pick}.

(** Decoding one request alone: at most [n] more tokens, until an EOS token. *)
Fixpoint decode (eos : gset Z) (n : nat) (prompt gen : list Z) (sampler : option TokenSampler) :
    res ContinuousBatchError (list Z) :=
  match n with
  | O => Ok []
  | S n' =>
      do? out := pick prompt gen sampler in
      if decide (out.1 ∈ eos) then Ok [out.1]
      else do? rest := decode eos n' prompt (gen ++ [out.1]) out.2 in Ok (out.1 :: rest)
  end.

(** Scratch buffers do not matter. *)
Lemma decode_same eos n prompt gen sampler sampler' :
  option_Forall2 same_sampler sampler sampler' →
  decode eos n prompt gen sampler = decode eos n prompt gen sampler'.
Proof.
  revert gen sampler sampler'. induction n as [|n IH]; intros gen sampler sampler' Hs; simpl; [done|].
  pose proof (pick_same prompt gen sampler sampler' Hs) as Hp.
  destruct (pick prompt gen sampler) as [[t o]|e|p], (pick prompt gen sampler') as [[t' o']|e'|p'];
    simpl in *; try done; [|by rewrite Hp..].
  destruct Hp as [-> Ho]. case_decide; [done|]. by rewrite (IH _ _ _ Ho).
Qed.

(** What a request has generated, with what its sampler would still give, is the
    whole run from the sampler it was submitted with. *)
Definition on_run (sampler : option TokenSampler) (r : Request) : Prop :=
  (is_Some sampler ↔ is_Some (rq_sampler r)) ∧
  decode (rq_eos r) (max_new_tokens (rq_generation r)) (rq_prompt_token_ids r) [] sampler =
  (do? rest := decode (rq_eos r)
     (max_new_tokens (rq_generation r) - length (rq_generated_token_ids r))
     (rq_prompt_token_ids r) (rq_generated_token_ids r) (rq_sampler r) in
   Ok (rq_generated_token_ids r ++ rest)).

Lemma on_run_admitted id p r : admitted id p r → on_run (pr_sampler p) r.
Proof.
  intros (_ & _ & _ & Hs & Hg & _). unfold on_run. rewrite Hg, Hs. simpl. rewrite Nat.sub_0_r.
  split; [done|]. by destruct (decode _ _ _ _ _).
Qed.

Lemma clear_same sampler : same_sampler sampler (clear_workspace sampler).
Proof. done. Qed.

(** One more token along the run. *)
Lemma landing_on_run c r id sampler token next :
  request_wf c r → on_run sampler r →
  pick (rq_prompt_token_ids r) (rq_generated_token_ids r) (rq_sampler r) = Ok (token, next) →
  (∀ r', (landing r id [token]).1 = Some r' → on_run sampler (with_sampler (clear_workspace <$> next) r')) ∧
  ∀ f, (landing r id [token]).2 = Some f →
    fg_request_id f = id ∧ fg_prompt_token_ids f = rq_prompt_token_ids r ∧
    decode (rq_eos r) (max_new_tokens (rq_generation r)) (rq_prompt_token_ids r) [] sampler =
      Ok (fg_generated_token_ids f).
Proof.
  intros Hr Hon Hpick. pose proof (rw_generated _ _ Hr) as Hlt. unfold landing. simpl.
  rewrite <- (rw_eos _ _ Hr). destruct Hon as [Hsm Hon].
  destruct (max_new_tokens (rq_generation r) - length (rq_generated_token_ids r)) as [|n] eqn:En; [lia|].
  simpl in Hon. rewrite Hpick in Hon. simpl in Hon. destruct (_ || _) eqn:Ed; (split; intros x; [try done|try done]).
  - intros [= <-]. simpl. split; [done|]. split; [done|]. rewrite Hon.
    case_decide as He; [done|]. destruct n as [|n]; [done|]. exfalso.
    apply orb_true_iff in Ed as [Hd%bool_decide_eq_true|Hd%bool_decide_eq_true]; [done|].
    rewrite length_app in Hd. simpl in Hd. lia.
  - intros [= <-]. apply orb_false_iff in Ed as [He%bool_decide_eq_false Hn].
    rewrite decide_False in Hon by done.
    assert (option_Forall2 same_sampler next
      (rq_sampler (with_sampler (clear_workspace <$> next) (set_phase (AwaitingDecode token) (append_tokens [token] r))))) as Hs.
    { destruct (pick_ok _ _ _ _ Hpick) as [_ Hsome]. simpl in Hsome. destruct next as [n0|]; simpl.
      - by constructor.
      - destruct (rq_sampler r); [|constructor]. by destruct (proj2 Hsome). }
    rewrite (decode_same _ _ _ _ _ _ Hs) in Hon. unfold on_run.
    destruct (pick_ok _ _ _ _ Hpick) as [_ Hsome]. simpl in Hsome.
    split; [by destruct next; simpl; rewrite Hsm, <- ?Hsome|].
    destruct next; simpl in *; rewrite length_app; simpl;
      (replace (max_new_tokens (rq_generation r) - (length (rq_generated_token_ids r) + 1)) with n by lia);
      rewrite Hon; destruct (decode _ n _ _ _); simpl; by rewrite <- ?app_assoc.
Qed.

(** ** The requests of a scheduler *)
Notation Log := (gmap N (list Z * GreedyGenerationConfig * option TokenSampler)).

(** Every request is what was submitted under its id, and on its run; a finished
    one has the whole run. *)
Record told (log : Log) s : Prop := {
  td_fresh : ∀ id e, log !! id = Some e → (id < next_request s)%N;
  td_queue : ∀ p, p ∈ pending_requests s →
    log !! pr_id p = Some (pr_prompt_token_ids p, pr_generation p, pr_sampler p);
  td_active : ∀ id r, active s !! id = Some r → ∃ sampler,
    log !! id = Some (rq_prompt_token_ids r, rq_generation r, sampler) ∧ on_run sampler r;
  td_finished : ∀ f, f ∈ finished s → ∃ g sampler,
    log !! fg_request_id f = Some (fg_prompt_token_ids f, g, sampler) ∧
    decode (list_to_set (eos_token_ids g)) (max_new_tokens g) (fg_prompt_token_ids f) [] sampler =
      Ok (fg_generated_token_ids f)
}.

Lemma on_run_phase sampler r r' :
  set_phase NeedsPrefill r' = set_phase NeedsPrefill r → on_run sampler r → on_run sampler r'.
Proof. destruct r, r'. unfold set_phase, on_run. simpl. by intros [= -> -> -> -> -> -> ->]. Qed.

Lemma told_admitted log s id p r : told log s → p ∈ pending_requests s → admitted id p r →
  ∃ sampler, log !! id = Some (rq_prompt_token_ids r, rq_generation r, sampler) ∧ on_run sampler r.
Proof.
  intros Ht Hp Had. exists (pr_sampler p). split; [|by eapply on_run_admitted].
  destruct Had as (<- & -> & -> & _). by apply (td_queue _ _ Ht).
Qed.
End Run.

(** Calls that neither submit nor complete: requests are admitted or change their
    phase, and nothing finishes. *)
Record follows s s' : Prop := {
  fo_kept : kept s s';
  fo_finished : ∀ f, f ∈ finished s' → f ∈ finished s
}.

#[export] Instance follows_preorder : PreOrder follows.
Proof.
  split; [intros s; by split|]. intros s1 s2 s3 [] []. split; [by etrans|auto].
Qed.

Lemma fields_follow s s' :
  next_request s' = next_request s → pending_requests s' = pending_requests s →
  active s' = active s → (∀ f, f ∈ finished s' → f ∈ finished s) → follows s s'.
Proof.
  intros Hn Hp Ha Hf. split; [|done]. split; [done|by rewrite Hp|]. intros id r. rewrite Ha. right. by exists r.
Qed.

Lemma cache_only_follows s s' : cache_only s s' → follows s s'.
Proof. intros [-> _]. by apply fields_follow. Qed.

Lemma fail_batch_follows s b s' : failed_batch s b s' → follows s s'.
Proof.
  intros (_ & Hse & Hpd & Hrow & Hrest). split; [|by rewrite (se_finished _ _ Hse)].
  split; [apply (se_next_request _ _ Hse)|by rewrite Hpd|]. intros i r' Hr'. right.
  destruct (decide (i ∈ map row_request_id (batch_sequences b))) as [Hi|Hi].
  - apply list_elem_of_fmap in Hi as (row & -> & Hin). destruct (Hrow row Hin) as [_ Ha].
    rewrite Ha in Hr'. destruct (active s !! row_request_id row) as [r|] eqn:Hr; [|done].
    injection Hr' as <-. by exists r.
  - rewrite (proj2 (Hrest i Hi)) in Hr'. by exists r'.
Qed.

Lemma cancelled_follows s id c s' : cancelled s id c s' → follows s s'.
Proof.
  intros [_ _ Hf Hn _ [Hg _] Hrest Hq _ _]. split; [|by rewrite Hf].
  split; [done|by intros p [Hp _]%Hq|]. intros i r' Hr'. right.
  destruct (decide (i = id)) as [->|Hi]; [congruence|]. rewrite (proj1 (Hrest i Hi)) in Hr'. by exists r'.
Qed.

Definition quiet (op : @sched_op TokenSampler) : Prop :=
  match op with Submit _ _ _ | CompleteBatch _ _ | CompleteVerifyBatch _ _ => False | _ => True end.

Lemma exec_follows op s : sched_wf s → quiet op →
  wp (sched_exec op) (post (λ _ s', follows s s') (λ _ s', follows s s' ∨ exhausted s')) s.
Proof.
  intros Hwf Hop. assert (∀ s', s' = s → follows s s' ∨ exhausted s') as Hsame by (intros ? ->; by left).
  destruct op; simpl in *; try done; try apply void_s_wp.
  - eapply wp_post_mono; [by apply schedule_wp|..].
    + intros ob s' (_ & _ & _ & ? & _ & _ & _ & Hf). by split; [|rewrite Hf].
    + intros e s' [(_ & ? & Hf & _)|[_ ?]]; [left; by split; [|rewrite Hf]|by right].
  - eapply wp_post_mono; [by apply fail_batch_wp| |intros e s' [? _]; by apply Hsame].
    intros [] s' (_ & b & _ & _ & ?). by eapply fail_batch_follows.
  - do 2 wp_step. destruct (in_flight s) as [b|] eqn:Eb; [|by apply wp_ret].
    apply void_s_wp. eapply wp_post_mono; [by apply reserve_lookahead_wp|..];
      intros ? s' [_ ?]; [|left]; by apply cache_only_follows.
  - eapply wp_post_mono; [by apply cancel_wp| |intros e s' [? _]; by apply Hsame].
    intros c s'. by apply cancelled_follows.
  - eapply wp_post_mono; [by apply pop_finished_wp| |done]. intros o s' (_ & Ho & ->).
    apply fields_follow; [done..|]. simpl in *. intros f Hf. rewrite Ho. apply elem_of_app. by right.
  - eapply wp_post_mono; [by apply set_speculative_wp| |intros e; apply Hsame].
    intros [] s' [_ [? ->]]. by apply fields_follow.
  - eapply wp_post_mono; [by apply set_caching_wp| |done]. intros [] s' (_ & ? & _). by apply cache_only_follows.
  - eapply wp_post_mono; [by apply set_limit_wp| |intros e; apply Hsame].
    intros [] s' (_ & _ & _ & ->). by apply fields_follow.
Qed.

Section Told.
Context (pick : list Z → list Z → option TokenSampler → Choice) `{!Picking pick}.
Notation Log := (gmap N (list Z * GreedyGenerationConfig * option TokenSampler)).
Notation Told := (told pick).

Lemma told_follows (log : Log) s s' : Told log s → follows s s' → Told log s'.
Proof.
  intros Ht [[Hn Hq Ha] Hf]. split.
  - intros id e He. rewrite Hn. by eapply (td_fresh _ _ _ Ht).
  - intros p Hp. by apply (td_queue _ _ _ Ht), Hq.
  - intros id r' Hr'. destruct (Ha id r' Hr') as [(p & Hp & Had)|(r & Hr & He)].
    + by eapply told_admitted.
    + destruct (td_active _ _ _ Ht id r Hr) as (sampler & Hl & Hon). exists sampler.
      split; [|by eapply on_run_phase]. rewrite Hl. destruct r, r'. unfold set_phase in He. simpl in *. congruence.
  - intros f Hfs. by apply (td_finished _ _ _ Ht), Hf.
Qed.

Lemma decode_told_submit (log : Log) s s' prompt g sampler x :
  sched_wf s → Told log s → submit_with_sampler prompt g sampler s = (Ok x, s') →
  Told (<[next_request s := (prompt, g, sampler)]> log) s'.
Proof.
  intros Hwf Ht Heq. destruct (wp_ok _ _ _ _ _ _ (submit_wp prompt g sampler s Hwf) Heq)
    as (_ & -> & _ & Hact & _ & Hn & _ & _ & Hz).
  assert (∀ id e, log !! id = Some e → <[next_request s := (prompt, g, sampler)]> log !! id = Some e) as Hold.
  { intros id e He. rewrite lookup_insert_ne; [done|]. intros <-. pose proof (td_fresh _ _ _ Ht _ _ He). lia. }
  split.
  - intros id e. rewrite Hn, lookup_insert. destruct (decide (next_request s = id)); [intros _; lia|].
    intros He. pose proof (td_fresh _ _ _ Ht _ _ He). lia.
  - intros p Hp. case_decide; destruct Hz as [_ Hz]; rewrite Hz in Hp; [by apply Hold, (td_queue _ _ _ Ht)|].
    apply elem_of_app in Hp as [Hp| ->%list_elem_of_singleton]; [by apply Hold, (td_queue _ _ _ Ht)|].
    by rewrite lookup_insert_eq.
  - intros id r. rewrite Hact. intros Hr. destruct (td_active _ _ _ Ht id r Hr) as (sm & Hl & Hon).
    exists sm. split; [by apply Hold|done].
  - intros f Hfs. assert (f ∈ finished s ∨ max_new_tokens g = 0 ∧ f = mk_finished (next_request s) prompt [] false) as [Hf|[Hz0 ->]].
    { case_decide as Hz0; destruct Hz as [Hz _]; rewrite Hz in Hfs; [|by left].
      apply elem_of_app in Hfs as [Hfs| ->%list_elem_of_singleton]; [by left|by right]. }
    + destruct (td_finished _ _ _ Ht f Hf) as (g' & sm & Hl & ?). exists g', sm. split; [by apply Hold|done].
    + exists g, sampler. simpl. by rewrite lookup_insert_eq, Hz0.
Qed.

(** The tokens and samplers of a selection are those the requests pick. *)
Definition picks s (b : ScheduledBatch) (selection : BatchTokenSelection) : Prop :=
  ∀ i row r, batch_sequences b !! i = Some row → active s !! row_request_id row = Some r →
    ∃ token, bs_tokens selection !! i = Some token ∧
    if samples_token s row
    then ∃ next, pick (rq_prompt_token_ids r) (rq_generated_token_ids r) (rq_sampler r) = Ok (token, next) ∧
      samplers_map (bs_samplers selection) !! row_request_id row = clear_workspace <$> next
    else samplers_map (bs_samplers selection) !! row_request_id row = None.

(** What a completed row becomes stays on its run. *)
Lemma outcome_on_run c s b selection i row r sampler :
  request_wf c r → picks s b selection → batch_sequences b !! i = Some row →
  active s !! row_request_id row = Some r → on_run pick sampler r →
  ∃ token, bs_tokens selection !! i = Some token ∧
  (∀ r', (outcome r row token).1 = Some r' →
    on_run pick sampler (with_sampler (samplers_map (bs_samplers selection) !! row_request_id row) r') ∧
    rq_prompt_token_ids r' = rq_prompt_token_ids r ∧ rq_generation r' = rq_generation r) ∧
  ∀ f, (outcome r row token).2 = Some f →
    fg_request_id f = row_request_id row ∧ fg_prompt_token_ids f = rq_prompt_token_ids r ∧
    decode pick (rq_eos r) (max_new_tokens (rq_generation r)) (rq_prompt_token_ids r) [] sampler =
      Ok (fg_generated_token_ids f).
Proof.
  intros Hr Hp Hi Ha Hon. destruct (Hp i row r Hi Ha) as (token & Ht & Hsel). exists token.
  split; [done|]. unfold samples_token in Hsel. rewrite Ha in Hsel. unfold outcome.
  destruct (decide (row_context_length row < length (rq_history r))) as [Hlt|Hlt].
  - rewrite bool_decide_eq_false_2 in Hsel by lia. rewrite Hsel. split; [|done].
    intros r' [= <-]. split; [by eapply on_run_phase|done].
  - rewrite bool_decide_eq_true_2 in Hsel by lia. destruct Hsel as (next & Hpick & ->).
    destruct (landing_on_run pick c r (row_request_id row) sampler token next Hr Hon Hpick) as [Hl Hf].
    split; [|done]. intros r' Hr'. split; [by apply Hl|].
    destruct (landing_same _ _ _ _ Hr') as [-> ->]. done.
Qed.

Lemma told_completed (log : Log) s b selection s1 act :
  sched_wf s → Told log s → in_flight s = Some b → picks s b selection →
  completed (set_in_flight None s) (batch_sequences b) (bs_tokens selection) s1 →
  (∀ id, id ∈ (bs_samplers selection).*1 → id ∈ map row_request_id (batch_sequences b)) →
  (∀ id, act !! id = with_sampler (samplers_map (bs_samplers selection) !! id) <$> active s1 !! id) →
  Told log (set_active act s1).
Proof.
  intros Hwf Ht Hb Hp [Hse Hpd Hrow Hrest Hfin] Hkeys Hact. pose proof (sw_static _ Hwf) as Hst.
  assert (∀ row, row ∈ batch_sequences b → ∃ r sampler, active s !! row_request_id row = Some r ∧
    request_wf (config (kv_cache s)) r ∧
    log !! row_request_id row = Some (rq_prompt_token_ids r, rq_generation r, sampler) ∧
    on_run pick sampler r) as Hrows.
  { intros row Hin. pose proof (sw_flight _ Hwf) as Hfl. rewrite Hb in Hfl. destruct Hfl as [Hrs _].
    destruct (rs_row _ _ _ _ _ Hrs row Hin) as [_ (r & Hr & _)].
    destruct (td_active _ _ _ Ht _ _ Hr) as (sampler & ? & ?). exists r, sampler.
    split_and!; try done. by apply (st_request _ Hst _ _ Hr). }
  split; simpl.
  - intros id e He. rewrite (se_next_request _ _ Hse). by eapply (td_fresh _ _ _ Ht).
  - intros p. rewrite Hpd. apply (td_queue _ _ _ Ht).
  - intros id r'. rewrite Hact. intros (r1 & Hr1 & ->)%fmap_Some.
    destruct (decide (id ∈ map row_request_id (batch_sequences b))) as [Hi|Hi].
    + apply list_elem_of_fmap in Hi as (row & -> & [i Hi]%list_elem_of_lookup).
      destruct (Hrows row) as (r & sampler & Hr & Hrw & Hl & Hon); [by eapply list_elem_of_lookup_2|].
      destruct (outcome_on_run _ s b selection i row r sampler Hrw Hp Hi Hr Hon) as (token & Htk & Ho & _).
      rewrite (Hrow i row token r Hi Htk Hr) in Hr1. destruct (Ho r1 Hr1) as (Hon' & Hpr & Hg).
      exists sampler. split; [|done]. rewrite Hl.
      destruct (with_sampler_submission (samplers_map (bs_samplers selection) !! row_request_id row) r1) as [-> ->].
      by rewrite Hpr, Hg.
    + assert (samplers_map (bs_samplers selection) !! id = None) as ->
        by (apply not_elem_of_list_to_map_1; by intros ?%Hkeys).
      rewrite (proj1 (Hrest id Hi)) in Hr1. by apply (td_active _ _ _ Ht).
  - intros f Hf. rewrite Hfin in Hf. apply elem_of_app in Hf as [Hf|Hf]; [by apply (td_finished _ _ _ Ht)|].
    apply list_elem_of_omap in Hf as ([row token] & Hin & Hx). simpl in Hx.
    apply list_elem_of_lookup in Hin as [i Hi]. apply lookup_zip_Some in Hi as [Hi Htok].
    destruct (Hrows row) as (r & sampler & Hr & Hrw & Hl & Hon); [by eapply list_elem_of_lookup_2|].
    rewrite Hr in Hx. simpl in Hx.
    destruct (outcome_on_run _ s b selection i row r sampler Hrw Hp Hi Hr Hon) as (token' & Htk & _ & Ho).
    simplify_eq. destruct (Ho f Hx) as (-> & -> & Hd). exists (rq_generation r), sampler. split; [done|].
    by rewrite <- (rw_eos _ _ Hrw).
Qed.
End Told.
End Decoding.
