(* ===== verification/BatchSamplingSpec.v ===== *)
(** * What a batch selects

    The tokens and samplers [select_batch_tokens] previews, row by row, and what
    [complete_selected_batch] commits: a request's sampler advances exactly when
    its token is committed. *)
From S2P Require Import Prelude Float GenerationControl Sampling SamplingSpec SamplingDraw PagedKv.
From S2P Require Import PagedKvPool PagedKvInv PagedKvOps PagedKvPrefix PagedKvSpec ContinuousBatch.
From S2P Require Import ContinuousBatchInv ContinuousBatchSchedule ContinuousBatchLoop ContinuousBatchOps.
From S2P Require Import ContinuousBatchVerify ContinuousBatchCalls ContinuousBatchSpec.
From S2P Require Import ContinuousBatchModes BatchSampling BatchDecoding.
Open Scope nat_scope.
Open Scope m_scope.

Lemma row_greedy_token_nonneg values row t : row_greedy_token values row = Ok t → (0 ≤ t)%Z.
Proof.
  unfold row_greedy_token. destruct (fold_left _ _ _) as [[i m]|]; [|done].
  case_decide; [|done]. intros [= <-]. lia.
Qed.

Section Choice.
Context `{DefaultHasher} `{Exponential, Randomness}.
Notation Sched := (@ContinuousBatchScheduler TokenSampler).
Notation Choice := (res ContinuousBatchError (Z * option TokenSampler)).
Implicit Types s : Sched.

(** The choice of one token from its logits: the sampler's, or the largest. *)
Definition choice (values : list f32) (prompt gen : list Z) (sampler : option TokenSampler) : Choice :=
  match sampler with
  | Some sampler =>
      match sample_with_history values prompt gen sampler with
      | (Ok token, next) => Ok (token, Some next)
      | (Err e, _) => Err e
      | (Panic p, _) => Panic p
      end
  | None => do? token := row_greedy_token values 0 in Ok (token, None)
  end.

(** Decoding with a model that gives the logits [L] of a history. *)
Definition model_pick (L : list Z → list f32) (prompt gen : list Z) (sampler : option TokenSampler) : Choice :=
  choice (L (prompt ++ gen)) prompt gen sampler.

Lemma choice_same values prompt gen sampler sampler' :
  option_Forall2 same_sampler sampler sampler' →
  match choice values prompt gen sampler, choice values prompt gen sampler' with
  | Ok out, Ok out' => out.1 = out'.1 ∧ option_Forall2 same_sampler out.2 out'.2
  | Err e, Err e' => e = e'
  | Panic p, Panic p' => p = p'
  | _, _ => False
  end.
Proof.
  intros [x y Hs|]; simpl.
  - destruct (sample_same x y values prompt gen Hs) as [He Hst].
    destruct (sample_with_history values prompt gen x) as [[t|e|p] x'],
      (sample_with_history values prompt gen y) as [[t'|e'|p'] y']; simplify_eq/=; try done.
    split; [done|by constructor].
  - destruct (row_greedy_token _ _); simpl; [split; [done|constructor]|done..].
Qed.

Lemma choice_ok values prompt gen sampler out : choice values prompt gen sampler = Ok out →
  (0 ≤ out.1)%Z ∧ (is_Some out.2 ↔ is_Some sampler).
Proof.
  destruct sampler as [x|]; simpl.
  - destruct (sample_result x values prompt gen) as [Hr _].
    destruct (sample_with_history values prompt gen x) as [[t|e|p] x']; [|done..].
    intros [= <-]. simpl in *. split; [|split; by eexists].
    destruct (sampler_values _ _ _ _); simpl in Hr; [|done..].
    destruct (distribution _ _); simpl in Hr; [|done..].
    destruct (sample_loop _ _ _ _ _); simpl in Hr; [|done]. injection Hr as ->. lia.
  - destruct (row_greedy_token values 0) as [t|e|p] eqn:E; simpl; [|done..]. intros [= <-]. simpl.
    split; [by eapply row_greedy_token_nonneg|]. split; by intros [].
Qed.

(** A sampler panics in its own arithmetic only. *)
Lemma choice_not_foreign values prompt gen sampler : choice values prompt gen sampler ≠ Panic Foreign.
Proof.
  destruct sampler as [x|]; simpl.
  - destruct (sample_result x values prompt gen) as [Hr _].
    destruct (sample_with_history values prompt gen x) as [[t|e|p] x']; [done..|]. intros [= ->]. simpl in Hr.
    pose proof (penalized_logits_spec values (sm_options x) prompt gen) as Hp.
    assert (sampler_values x values prompt gen ≠ Panic Foreign) as Hn.
    { unfold sampler_values. destruct (has_penalties _); [|done]. intros Heq. rewrite Heq in Hp. by destruct Hp. }
    destruct (sampler_values _ _ _ _) as [vs|e|p]; simpl in Hr; [|done|congruence].
    pose proof (distribution_spec x vs) as Hd.
    destruct (distribution x vs) as [ps|e|p]; simpl in Hr; [|done..].
    by destruct (sample_loop _ _ _ _ _).
  - unfold row_greedy_token. destruct (fold_left _ _ _) as [[]|]; [|done]. by case_decide.
Qed.

Lemma new_with_options_total config options :
  match new_with_options config options with Panic _ => False | _ => True end.
Proof.
  unfold new_with_options, validate_sampling, Sampling.validate_options.
  repeat (match goal with |- context [if ?b then _ else _] => destruct b end; cbn [res_bind]; try done).
Qed.

#[export] Instance model_picking L : Picking (model_pick L).
Proof.
  split.
  - intros prompt gen sampler sampler'. apply choice_same.
  - intros prompt gen sampler out. apply choice_ok.
Qed.

(** The request [id] chooses from these logits. *)
Definition chooses s (id : RequestId) (values : list f32) (sampler : option TokenSampler) (token : Z)
    (next : option TokenSampler) : Prop :=
  ∃ r, active s !! id = Some r ∧
    choice values (rq_prompt_token_ids r) (rq_generated_token_ids r) sampler = Ok (token, next).

Lemma in_flight_batch_spec s id :
  match in_flight_batch s id with
  | Ok b => in_flight s = Some b ∧ batch_id b = id
  | Err _ => ∀ b, in_flight s = Some b → batch_id b ≠ id
  | Panic _ => False
  end.
Proof.
  unfold in_flight_batch. destruct (in_flight s) as [b|]; [|done].
  case_decide; [done|]. by intros b' [= <-].
Qed.

Lemma sampling_state_ok s rows state :
  (∀ row, row ∈ rows → is_Some (active s !! row_request_id row)) →
  ∃ state', sampling_state s rows state = Ok state' ∧ ∀ id,
    state' !! id = if decide (id ∈ map row_request_id rows) then rq_sampler <$> active s !! id else state !! id.
Proof.
  revert state. induction rows as [|row rows IH]; intros state Hrow; simpl; [by exists state|].
  destruct (Hrow row) as [r Hr]; [by left|]. rewrite Hr. simpl.
  destruct (IH (<[row_request_id row := rq_sampler r]> state)) as (state' & -> & Hst);
    [intros row' ?; apply Hrow; by right|].
  exists state'. split; [done|]. intros id. rewrite Hst.
  destruct (decide (id ∈ map row_request_id rows)) as [Hi|Hi].
  - by rewrite decide_True by (by apply elem_of_cons; right).
  - destruct (decide (id = row_request_id row)) as [->|Hne].
    + rewrite lookup_insert_eq, decide_True by (by apply elem_of_cons; left). by rewrite Hr.
    + rewrite lookup_insert_ne, decide_False by (rewrite ?elem_of_cons; naive_solver). done.
Qed.

(** The rows in flight, with the samplers their requests own. *)
Lemma owned_state s b : sched_wf s → in_flight s = Some b →
  ∃ state, batch_sampling_state s (batch_id b) = Ok state ∧ owned s (batch_id b) (batch_sequences b) state.
Proof.
  intros [_ Hfl] Hb. rewrite Hb in Hfl. destruct Hfl as ([Hnd _ _ Hrow _] & _).
  destruct (sampling_state_ok s (batch_sequences b) ∅) as (state & Heq & Hst).
  { intros row Hin. destruct (Hrow row Hin) as [_ (r & Hr & _)]. by exists r. }
  exists state. split.
  { unfold batch_sampling_state, in_flight_batch. by rewrite Hb, decide_True. }
  split; [done|]. intros row Hin. destruct (Hrow row Hin) as [_ (r & Hr & Hph & _)]. exists r.
  split_and!; [done..|]. rewrite Hst, decide_True by (by apply list_elem_of_fmap_2). by rewrite Hr.
Qed.

(** The logits have one row of the vocabulary for each row of the batch. *)
Lemma shape_ok rows vocabulary l : ¬ (vocabulary = 0 ∨ usize_mul rows vocabulary ≠ Some l) →
  0 < vocabulary ∧ l = rows * vocabulary.
Proof.
  intros Hn. destruct (decide (vocabulary = 0)) as [?|Hne]; [tauto|].
  destruct (usize_mul rows vocabulary) as [n|] eqn:E; [|destruct Hn; by right].
  unfold usize_mul in E. case_decide; [|done]. injection E as <-.
  destruct (decide (rows * vocabulary = l)) as [<-|]; [split; [lia|done]|].
  destruct Hn. right. by intros [=].
Qed.

Lemma select_with_history_spec s id r values sampler c : active s !! id = Some r →
  select_with_history s id values sampler c =
  (choice values (rq_prompt_token_ids r) (rq_generated_token_ids r) sampler, c).
Proof.
  intros Hr. destruct sampler as [x|]; simpl.
  - unfold mbind', mexpect. rewrite Hr. unfold mret.
    by destruct (sample_with_history _ _ _ x) as [[]].
  - unfold mbind', mlift. by destruct (row_greedy_token values 0).
Qed.

(** [select_batch_tokens_with] on the batch in flight, with the requests' samplers. *)
Lemma select_batch_wp {C} select (P : RequestId → list f32 → option TokenSampler → Z → option TokenSampler → Prop)
    (I : C → Prop) (bad : panic → Prop) s b state logits vocabulary c :
  (∀ id r values sampler c, active s !! id = Some r → I c →
     match select id values sampler c with
     | (Ok out, c') => P id values sampler out.1 out.2 ∧ I c'
     | (Err _, c') => I c'
     | (Panic p, _) => bad p
     end) →
  in_flight s = Some b → owned s (batch_id b) (batch_sequences b) state → I c →
  wp (select_batch_tokens_with select s (batch_id b) logits vocabulary state)
    (selects I bad (λ selection, bs_batch_id selection = batch_id b ∧ 0 < vocabulary ∧
      length logits = length (batch_sequences b) * vocabulary ∧
      selected s P logits vocabulary 0 (batch_sequences b) (bs_tokens selection) (bs_samplers selection))) c.
Proof.
  intros Hsel Hb Hown Hc. unfold select_batch_tokens_with. wp_step.
  unfold in_flight_batch. rewrite Hb, decide_True by done. apply wp_lift.
  case_decide as Hshape; [by apply wp_throw|]. apply shape_ok in Hshape as [Hv Hl].
  wp_step. eapply wp_mono; [apply (select_rows_wp s select P I bad Hsel); [done|lia|done]|].
  intros [out|e|p] c'; simpl; [|done|done]. intros [Hs Hc']. by apply wp_ret.
Qed.

(** [select_batch_tokens]. *)
Lemma select_batch_tokens_spec s id logits vocabulary : sched_wf s →
  match select_batch_tokens s id logits vocabulary with
  | Ok selection => ∃ b, in_flight s = Some b ∧ batch_id b = id ∧ bs_batch_id selection = id ∧
      0 < vocabulary ∧ length logits = length (batch_sequences b) * vocabulary ∧
      selected s (chooses s) logits vocabulary 0 (batch_sequences b) (bs_tokens selection) (bs_samplers selection)
  | Err _ => True
  | Panic p => ∃ values prompt gen sampler, choice values prompt gen sampler = Panic p
  end.
Proof.
  intros Hwf. unfold select_batch_tokens.
  pose proof (in_flight_batch_spec s id) as Hb.
  destruct (in_flight_batch s id) as [b|e|p] eqn:Eb; [|unfold batch_sampling_state; by rewrite Eb|done].
  destruct Hb as [Hb <-]. destruct (owned_state s b Hwf Hb) as (state & -> & Hown). cbn [res_bind].
  pose proof (select_batch_wp (select_with_history s) (chooses s) (λ _, True)
    (λ p, ∃ values prompt gen sampler, choice values prompt gen sampler = Panic p)
    s b state logits vocabulary tt) as Hw. unfold wp in Hw.
  destruct (select_batch_tokens_with _ _ _ _ _ _ _) as [[sel|e|p] c]; simpl in *; [|done|].
  - destruct Hw as [Hw _]; [|done..|by exists b].
    intros i r values sampler c' Hr _. rewrite (select_with_history_spec s i r) by done.
    destruct (choice _ _ _ _) as [[t n]|e|p] eqn:E; [|done|by do 4 eexists]. split; [|done]. by exists r.
  - apply Hw; [|done..]. intros i r values sampler c' Hr _.
    rewrite (select_with_history_spec s i r) by done.
    destruct (choice _ _ _ _) as [[t n]|e|p'] eqn:E; [|done|by do 4 eexists]. split; [|done]. by exists r.
Qed.

(** A selection fits the batch it was made for, whatever chose its tokens. *)
Lemma selected_acceptable s b P selection logits vocabulary :
  (∀ id values sampler token next, P id values sampler token next → (0 ≤ token)%Z) →
  sched_wf s → in_flight s = Some b →
  selected s P logits vocabulary 0 (batch_sequences b) (bs_tokens selection) (bs_samplers selection) →
  acceptable s (batch_id b) (bs_tokens selection).
Proof.
  intros HP [_ Hfl] Hb Hsel. rewrite Hb in Hfl. destruct Hfl as ([Hnd _ _ Hrow _] & _).
  exists b. split; [done|]. split; [done|]. destruct (selected_keys _ _ _ _ _ _ _ _ Hsel) as [Hlen _].
  split; [done|]. intros row token [i Hi]%list_elem_of_lookup Hs.
  apply lookup_zip_Some in Hi as [Hi Ht].
  destruct (Hrow row) as [_ (r & Hr & _)]; [by eapply list_elem_of_lookup_2|].
  destruct (selected_row _ _ _ _ _ _ _ _ i row r Hsel Hnd Hi Hr) as (token' & Ht' & Hx). simplify_eq.
  rewrite Hs in Hx. destruct Hx as (values & next & _ & Hc & _). by eapply HP.
Qed.

Lemma selection_acceptable s b selection logits vocabulary :
  sched_wf s → in_flight s = Some b →
  selected s (chooses s) logits vocabulary 0 (batch_sequences b) (bs_tokens selection) (bs_samplers selection) →
  acceptable s (batch_id b) (bs_tokens selection).
Proof.
  apply selected_acceptable. intros id values sampler token next (r & _ & Hc).
  by apply choice_ok in Hc as [? _].
Qed.

(** What a committed row leaves of its request. *)
Definition sampled_outcome s (logits : list f32) (vocabulary i : nat) (row : ScheduledSequence)
    (r : @ActiveRequest TokenSampler) (token : Z) (left : option (@ActiveRequest TokenSampler)) : Prop :=
  if decide (row_context_length row < length (rq_history r))
  then token = NO_TOKEN ∧ left = Some (set_phase NeedsPrefill r)
  else ∃ values next, slice (i * vocabulary) ((i + 1) * vocabulary) logits = Some values ∧
    choice values (rq_prompt_token_ids r) (rq_generated_token_ids r) (rq_sampler r) = Ok (token, next) ∧
    left = with_sampler (clear_workspace <$> next) <$> (landing r (row_request_id row) [token]).1.

(** Claim C30.  Selecting a batch's tokens and committing them.  A selection made for
    the batch in flight, unless it verifies drafts, is never refused: a row in the middle of its prompt goes on
    to its next chunk with its sampler untouched; any other row takes the token its
    request's own sampler (or the argmax) chooses from the row's logits after the
    request's own history, and the request keeps the advanced sampler unless the
    token ends it.  No other request changes. *)
Theorem selected_batch_commits c k s b logits vocabulary selection :
  (N.of_nat (max_sequence_length k) ≤ usize_max)%N → sched_reachable c k s → in_flight s = Some b →
  batch_kind b ≠ Verify → select_batch_tokens s (batch_id b) logits vocabulary = Ok selection →
  match complete_selected_batch selection s with
  | (Ok tokens, s') => tokens = bs_tokens selection ∧ in_flight s' = None ∧
      length logits = length (batch_sequences b) * vocabulary ∧
      (∀ i row r, batch_sequences b !! i = Some row → active s !! row_request_id row = Some r →
         ∃ token, tokens !! i = Some token ∧
           sampled_outcome s logits vocabulary i row r token (active s' !! row_request_id row)) ∧
      ∀ id, id ∉ map row_request_id (batch_sequences b) → active s' !! id = active s !! id
  | (Err _, _) => False
  | (Panic p, _) => p = Overflow
  end.
Proof.
  intros Hmax Hreach Hb Hk Hsel. pose proof (sched_reachable_wf c k s Hmax Hreach) as Hwf.
  pose proof (select_batch_tokens_spec s (batch_id b) logits vocabulary Hwf) as Hspec. rewrite Hsel in Hspec.
  destruct Hspec as (b' & Hb' & _ & Hid & _ & Hlen & Hs). simplify_eq.
  assert (NoDup (map row_request_id (batch_sequences b))) as Hnd.
  { pose proof (sw_flight _ Hwf) as Hfl. rewrite Hb in Hfl. by destruct Hfl as ([? _ _ _ _] & _). }
  pose proof (complete_selected_wp s selection b Hwf Hb Hk Hid
    (selected_nodup _ _ _ _ _ _ _ _ Hs Hnd)) as Hw. unfold wp in Hw.
  destruct (complete_selected_batch selection s) as [[tokens|e|p] s']; simpl in Hw; [|..|done].
  2:{ destruct Hw as [_ Hno]. destruct Hno. by eapply selection_acceptable. }
  destruct Hw as (-> & _ & _ & s1 & act & [Hse _ Hrow Hrest _] & -> & Hact).
  split; [done|]. split; [apply (se_in_flight _ _ Hse)|]. split; [done|]. split.
  - intros i row r Hi Hr.
    destruct (selected_row _ _ _ _ _ _ _ _ i row r Hs Hnd Hi Hr) as (token & Ht & Hx).
    exists token. split; [done|]. unfold samples_token in Hx. rewrite Hr in Hx. simpl. rewrite Hact.
    rewrite (Hrow i row token r Hi Ht Hr). unfold outcome, sampled_outcome. simpl.
    destruct (decide (row_context_length row < length (rq_history r))).
    + rewrite bool_decide_eq_false_2 in Hx by lia. destruct Hx as [-> ->]. by split.
    + rewrite bool_decide_eq_true_2 in Hx by lia. destruct Hx as (values & next & Hv & (r' & Hr' & Hc) & ->).
      simplify_eq. by exists values, next.
  - intros id Hi. simpl. rewrite Hact.
    assert (list_to_map (M := gmap N TokenSampler) (bs_samplers selection) !! id = None) as ->.
    { apply not_elem_of_list_to_map_1. intros Hin. by apply Hi, (selected_keys _ _ _ _ _ _ _ _ Hs). }
    rewrite (proj1 (Hrest id Hi)). simpl. by destruct (active s !! id).
Qed.
End Choice.

(** ** Batches and runs

    What completing a batch does to its requests' runs, when its logits are those of a
    model: [complete_greedy_batch] takes the largest logit of each row,
    [complete_selected_batch] what each request's sampler chooses,
    [complete_verify_batch] the accepted draft. *)

Section Greedy.
Context `{DefaultHasher} `{Exponential, Randomness}.
Context (L : list Z → list f32) (numbers : ∀ history, ∃ token, row_greedy_token (L history) 0 = Ok token).
Notation Sched := (@ContinuousBatchScheduler TokenSampler).
Notation Request := (@ActiveRequest TokenSampler).
Notation Log := (gmap N (list Z * GreedyGenerationConfig * option TokenSampler)).
Implicit Types s : Sched.

(** The index of the largest logit. *)
Definition greedy_model (history : list Z) : Z := match row_greedy_token (L history) 0 with Ok token => token | _ => 0%Z end.

Lemma greedy_model_spec history : row_greedy_token (L history) 0 = Ok (greedy_model history).
Proof. unfold greedy_model. by destruct (numbers history) as [token ->]. Qed.

Lemma pick_greedy prompt gen : model_pick L prompt gen None = Ok (greedy_model (prompt ++ gen), None).
Proof. unfold model_pick, choice. by rewrite greedy_model_spec. Qed.

Lemma decode_greedy eos n prompt gen :
  decode (model_pick L) eos n prompt gen None = Ok (greedy_decode greedy_model eos n (prompt ++ gen)).
Proof.
  revert gen. induction n as [|n IH]; intros gen; cbn [decode greedy_decode]; [done|]. rewrite pick_greedy. simpl.
  case_decide; [done|]. rewrite IH. simpl. by rewrite app_assoc.
Qed.

(** A request without a sampler is on the greedy run of its prompt. *)
Lemma on_run_greedy c r sampler : request_wf c r → rq_sampler r = None →
  on_run (model_pick L) sampler r ↔ sampler = None ∧ on_track greedy_model r.
Proof.
  intros Hr Hs. unfold on_run, on_track. rewrite Hs, decode_greedy, <- (rw_history _ _ Hr). simpl.
  assert ((is_Some sampler ↔ is_Some (@None TokenSampler)) ↔ sampler = None) as ->.
  { destruct sampler as [x|]; [|done]. split; [|done]. intros [Hx _]. by destruct Hx as [y ?]; [eexists|]. }
  split; intros [-> Hx]; (split; [done|]).
  - rewrite decode_greedy, app_nil_r in Hx. by injection Hx as <-.
  - by rewrite decode_greedy, app_nil_r, <- Hx.
Qed.

(** *** A verification batch *)
Lemma landing_greedy c r id sampler tokens : request_wf c r → rq_sampler r = None → on_run (model_pick L) sampler r → tokens ≠ [] →
  length (rq_generated_token_ids r ++ tokens) ≤ max_new_tokens (rq_generation r) →
  (∀ j t, tokens !! j = Some t → t = greedy_model (rq_history r ++ take j tokens) ∧ (S j < length tokens → t ∉ rq_eos r)) →
  (∀ r', (landing r id tokens).1 = Some r' → on_run (model_pick L) sampler r' ∧
    rq_prompt_token_ids r' = rq_prompt_token_ids r ∧ rq_generation r' = rq_generation r) ∧
  ∀ f, (landing r id tokens).2 = Some f → fg_request_id f = id ∧ fg_prompt_token_ids f = rq_prompt_token_ids r ∧
    decode (model_pick L) (rq_eos r) (max_new_tokens (rq_generation r)) (rq_prompt_token_ids r) [] sampler = Ok (fg_generated_token_ids f).
Proof.
  intros Hr Hs Hon Hne Hlen Hm. apply (on_run_greedy c) in Hon as [-> Ht]; [|done..].
  destruct (landing_on_track greedy_model c r id tokens Hr Ht Hne Hlen Hm) as [Hl Hf]. split.
  - intros r' Hr'. destruct (landing_same _ _ _ _ Hr') as [Hp Hg]. split; [|done]. specialize (Hl r' Hr').
    unfold landing in Hr'. destruct (_ || _) eqn:Ed; [done|]. injection Hr' as <-.
    unfold on_run, on_track in *. simpl in *. rewrite Hs, !decode_greedy. simpl. split; [done|].
    rewrite app_nil_r, <- Hl, app_assoc, <- (rw_history _ _ Hr). done.
  - intros f (Hid & Hp & Hg)%Hf. split_and!; [done..|]. by rewrite decode_greedy, app_nil_r, Hg.
Qed.

Lemma told_verified (log : Log) s b argmax outs s' : sched_wf s → told (model_pick L) log s → in_flight s = Some b →
  batch_kind b = Verify →
  (∀ row r, row ∈ batch_sequences b → active s !! row_request_id row = Some r → rq_sampler r = None) →
  faithful greedy_model s (CompleteVerifyBatch (batch_id b) argmax) →
  verified_all (next_n b) argmax 0 (set_in_flight None s) (batch_sequences b) outs s' → told (model_pick L) log s'.
Proof.
  intros Hwf Ht Hb Hk Hplain Hfaith [Hse Hpd Hlo Hrow Hrest Hfin]. pose proof (sw_static _ Hwf) as Hst.
  pose proof (sw_flight _ Hwf) as Hfl. rewrite Hb in Hfl. destruct Hfl as (Hrows & _).
  assert (∀ i row r tokens, batch_sequences b !! i = Some row → active s !! row_request_id row = Some r →
    outs !! i = Some (row_request_id row, tokens) → ∃ sampler,
    log !! row_request_id row = Some (rq_prompt_token_ids r, rq_generation r, sampler) ∧
    (∀ r', (landing r (row_request_id row) tokens).1 = Some r' → on_run (model_pick L) sampler r' ∧
      rq_prompt_token_ids r' = rq_prompt_token_ids r ∧ rq_generation r' = rq_generation r) ∧
    ∀ f, (landing r (row_request_id row) tokens).2 = Some f → fg_request_id f = row_request_id row ∧
      fg_prompt_token_ids f = rq_prompt_token_ids r ∧
      decode (model_pick L) (rq_eos r) (max_new_tokens (rq_generation r)) (rq_prompt_token_ids r) [] sampler = Ok (fg_generated_token_ids f)) as Hland.
  { intros i row r tokens Hi Hr Ho. destruct (Hrow i row Hi) as (r0 & preds & ts & Hr0 & Hsl & Hprod & Ho' & _).
    simpl in Hr0. simplify_eq. destruct (st_request _ Hst _ _ Hr) as [Hrw _].
    pose proof (list_elem_of_lookup_2 _ _ _ Hi) as Hin. pose proof (rs_width _ _ _ _ _ Hrows row Hin) as Hw.
    assert (length preds = next_n b) as Hpl by (rewrite (slice_length _ _ _ _ Hsl); lia).
    assert (0 < next_n b) as Hpos.
    { destruct (rs_row _ _ _ _ _ Hrows row Hin) as [_ (? & _ & _ & [Hne _])]. rewrite <- Hw. destruct (row_token_ids row); [done|simpl; lia]. }
    assert (∀ j, j < next_n b → preds !! j = Some (greedy_model (rq_history r ++ take j (tail (row_token_ids row))))) as Hpreds.
    { intros j Hj. rewrite (slice_lookup _ _ _ _ j Hsl) by lia. by apply (Hfaith b i row r j). }
    destruct (produces_model greedy_model _ _ _ _ _ _ Hrw Hw Hpl Hpos Hpreds Hprod) as [Hne Hmodel].
    destruct (produces_facts _ _ _ _ _ _ Hrw Hw Hpl Hpos Hprod) as [_ Hmax].
    destruct (td_active _ _ _ Ht _ _ Hr) as (sampler & Hl & Hon). exists sampler. split; [done|].
    eapply landing_greedy; [done|by eapply Hplain|done..]. }
  split.
  - intros id e He. rewrite (se_next_request _ _ Hse). by eapply (td_fresh _ _ _ Ht).
  - intros p. rewrite Hpd. apply (td_queue _ _ _ Ht).
  - intros id r' Hr'. destruct (decide (id ∈ map row_request_id (batch_sequences b))) as [Hi|Hi].
    + apply list_elem_of_fmap in Hi as (row & -> & [j Hj]%list_elem_of_lookup).
      destruct (Hrow j row Hj) as (r & preds & tokens & Hr & _ & _ & Ho & Ha). rewrite Ha in Hr'.
      destruct (Hland j row r tokens Hj Hr Ho) as (sampler & Hl & Hl1 & _). destruct (Hl1 r' Hr') as (Hon & Hp & Hg).
      exists sampler. by rewrite Hl, Hp, Hg.
    + rewrite (proj1 (Hrest id Hi)) in Hr'. by apply (td_active _ _ _ Ht).
  - intros f Hf. rewrite Hfin in Hf. apply elem_of_app in Hf as [Hf|Hf]; [by apply (td_finished _ _ _ Ht)|].
    apply list_elem_of_omap in Hf as ([i tokens] & [j Hj]%list_elem_of_lookup & Hx). simpl in Hx.
    destruct (lookup_lt_is_Some_2 (batch_sequences b) j) as [row Hrowj]; [rewrite <- Hlo; by eapply lookup_lt_Some|].
    destruct (Hrow j row Hrowj) as (r & preds & ts & Hr & _ & _ & Ho & _).
    rewrite Hj in Ho. injection Ho as -> ->. simpl in Hr. rewrite Hr in Hx. simpl in Hx.
    destruct (Hland j row r ts Hrowj Hr Hj) as (sampler & Hl & _ & Hf). destruct (Hf f Hx) as (-> & -> & Hd).
    exists (rq_generation r), sampler. split; [done|]. by rewrite <- (rw_eos _ _ (proj1 (st_request _ Hst _ _ Hr))).
Qed.

(** *** A prefill or decode batch *)

(** Each row that samples has the model's logits after its request's history. *)
Lemma greedy_completion (log : Log) s b argmax tokens s' : sched_wf s → told (model_pick L) log s → in_flight s = Some b →
  batch_kind b ≠ Verify →
  (∀ i row r, batch_sequences b !! i = Some row → active s !! row_request_id row = Some r →
     length (rq_history r) ≤ row_context_length row → argmax !! i = Some (greedy_model (rq_history r))) →
  complete_greedy_batch (batch_id b) argmax s = (Ok tokens, s') →
  sched_wf s' ∧ told (model_pick L) log s' ∧ complete_batch (batch_id b) tokens s = (Ok tt, s').
Proof.
  intros Hwf Ht Hb Hk Hlog. unfold complete_greedy_batch, batch_requires_logits, in_flight_batch. unfold mbind' at 1, mget at 1.
  rewrite Hb, decide_True by done. unfold mbind' at 1, mlift at 1. case_decide as Hlen; [done|]. cbv zeta.
  unfold mbind' at 1, mlift at 1. simpl. destruct (existsb _ _) eqn:Es; [done|].
  set (chosen := zip_with _ _ _). unfold mbind'. destruct (complete_batch _ _ s) as [[[]|e|p] s1] eqn:Ec; [|done..].
  unfold mret. intros [= <- <-].
  pose proof (complete_batch_wp (batch_id b) chosen s Hwf ltac:(intros b' Hb'; congruence)) as Hw. unfold wp in Hw.
  rewrite Ec in Hw. simpl in Hw. destruct Hw as (Hwf' & b' & Hb' & _ & Hcp). simplify_eq. split; [done|]. split; [|done].
  replace s1 with (set_active (active s1) s1) by (by destruct s1).
  eapply (told_completed _ log s b (mk_selection (batch_id b) chosen [])); try done.
  - intros i row r Hi Hr. simpl. assert (∃ token, argmax !! i = Some token) as [token Ha].
    { apply lookup_lt_is_Some_2. apply lookup_lt_Some in Hi. lia. }
    exists (if samples_token s row then token else NO_TOKEN). split.
    { unfold chosen. rewrite lookup_zip_with, Hi. simpl. by rewrite Ha. }
    destruct (samples_token s row) eqn:Esample; [|done]. exists None. split; [|done].
    assert (rq_sampler r = None) as Hs.
    { destruct (rq_sampler r) eqn:Er; [|done]. apply not_true_iff_false in Es. destruct Es. apply existsb_exists.
      exists row. split; [apply list_elem_of_In; by eapply list_elem_of_lookup_2|]. unfold row_samples. rewrite Esample, Hr, Er. done. }
    rewrite Hs, pick_greedy. unfold samples_token in Esample. rewrite Hr in Esample. apply bool_decide_eq_true in Esample.
    rewrite <- (rw_history _ _ (proj1 (st_request _ (sw_static _ Hwf) _ _ Hr))).
    specialize (Hlog i row r Hi Hr Esample). congruence.
  - by intros id ?%elem_of_nil.
  - intros id. simpl. rewrite lookup_empty. by destruct (active s1 !! id).
Qed.

Lemma selected_completion (log : Log) s b logits vocabulary selection tokens s' : sched_wf s → told (model_pick L) log s →
  in_flight s = Some b → batch_kind b ≠ Verify → select_batch_tokens s (batch_id b) logits vocabulary = Ok selection →
  (∀ i row r, batch_sequences b !! i = Some row → active s !! row_request_id row = Some r →
     length (rq_history r) ≤ row_context_length row →
     slice (i * vocabulary) ((i + 1) * vocabulary) logits = Some (L (rq_history r))) →
  complete_selected_batch selection s = (Ok tokens, s') →
  sched_wf s' ∧ told (model_pick L) log s' ∧ ∃ s1, complete_batch (batch_id b) (bs_tokens selection) s = (Ok tt, s1) ∧
    kv_cache s' = kv_cache s1 ∧ pending_requests s' = pending_requests s1 ∧ finished s' = finished s1 ∧
    ∀ id r, active s' !! id = Some r → ∃ r1, active s1 !! id = Some r1 ∧ rq_history r = rq_history r1.
Proof.
  intros Hwf Ht Hb Hk Hsel Hlog. pose proof (select_batch_tokens_spec s (batch_id b) logits vocabulary Hwf) as Hspec. rewrite Hsel in Hspec.
  destruct Hspec as (b' & Hb' & _ & Hid & _ & _ & Hs). simplify_eq.
  assert (NoDup (map row_request_id (batch_sequences b))) as Hnd.
  { pose proof (sw_flight _ Hwf) as Hfl. rewrite Hb in Hfl. by destruct Hfl as ([? _ _ _ _] & _). }
  pose proof (selected_nodup _ _ _ _ _ _ _ _ Hs Hnd) as Hnds.
  intros Heq. pose proof (complete_selected_wp s selection b Hwf Hb Hk Hid Hnds) as Hw. unfold wp in Hw. rewrite Heq in Hw. simpl in Hw.
  destruct Hw as (_ & Hwf' & _). revert Heq. unfold complete_selected_batch. rewrite Hid. unfold mbind' at 1.
  destruct (complete_batch (batch_id b) (bs_tokens selection) s) as [[[]|e|p] s1] eqn:Ec; [|done..].
  destruct (store_samplers (bs_samplers selection) s1 Hnds) as (act & Hst & Hact).
  rewrite (bind_ok _ _ _ _ _ Hst). unfold mret. intros [= _ <-]. split; [done|].
  pose proof (complete_batch_wp (batch_id b) (bs_tokens selection) s Hwf ltac:(intros b' Hb'; congruence)) as Hw. unfold wp in Hw.
  rewrite Ec in Hw. simpl in Hw. destruct Hw as (_ & b' & Hb' & _ & Hcp). simplify_eq. split.
  - eapply (told_completed _ log s b selection); try done; [|intros id; by apply (selected_keys _ _ _ _ _ _ _ _ Hs)].
    intros i row r Hi Hr. destruct (selected_row _ _ _ _ _ _ _ _ i row r Hs Hnd Hi Hr) as (token & Htk & Hx). exists token. split; [done|].
    destruct (samples_token s row) eqn:Esample; [|by destruct Hx].
    destruct Hx as (values & next & Hv & (r' & Hr' & Hc) & Hn). simplify_eq. exists next. split; [|done]. simpl in Hv.
    unfold samples_token in Esample. rewrite Hr in Esample. apply bool_decide_eq_true in Esample.
    rewrite (Hlog i row r Hi Hr Esample) in Hv. injection Hv as <-. unfold model_pick.
    by rewrite <- (rw_history _ _ (proj1 (st_request _ (sw_static _ Hwf) _ _ Hr))).
  - exists s1. split_and!; [done..|]. simpl. intros id r. rewrite Hact. intros (r1 & Hr1 & ->)%fmap_Some. exists r1. split; [done|].
    unfold with_sampler. by case_match.
Qed.
End Greedy.
