(* ===== verification/PlainScheduler.v ===== *)
(** * Schedulers that never speculate

    What the calls of a scheduler do when speculation is never switched on, as the
    gate and the device executor use it: every batch in flight can be completed
    with a selection of tokens, and no call brings a verification batch. *)
From S2P Require Import Prelude Float GenerationControl Sampling SamplingSpec SamplingDraw PagedKv.
From S2P Require Import PagedKvPool PagedKvInv PagedKvOps PagedKvPrefix PagedKvSpec ContinuousBatch.
From S2P Require Import ContinuousBatchInv ContinuousBatchSchedule ContinuousBatchLoop ContinuousBatchOps.
From S2P Require Import ContinuousBatchVerify ContinuousBatchCalls ContinuousBatchSpec.
From S2P Require Import ContinuousBatchModes BatchSampling BatchDecoding BatchSamplingSpec.
Open Scope nat_scope.
Open Scope m_scope.

Section PlainScheduler.
Context `{DefaultHasher} `{Exponential, Randomness}.
Notation Sched := (@ContinuousBatchScheduler TokenSampler).
Implicit Types s : Sched.

(** No speculation, no verification batch in flight. *)
Definition plain_sched s : Prop :=
  sched_wf s ∧ speculative s = None ∧ ∀ b, in_flight s = Some b → batch_kind b ≠ Verify.

(** [plainly] and a [wp] together. *)
Lemma plainly_wp {A} (Q : A → Prop) (m : M Sched ContinuousBatchError A) QOk QErr s :
  plainly Q m → speculative s = None → wp m (post QOk QErr) s →
  wp m (post (λ a s', QOk a s' ∧ speculative s' = None ∧ Q a) (λ e s', QErr e s' ∧ speculative s' = None)) s.
Proof.
  intros Hp Hs. destruct (Hp s Hs) as [Hs' HQ]. unfold wp. destruct (m s) as [[a|e|p] s']; simpl in *; done.
Qed.

Lemma plain_start s : plain_sched s → speculative s = None.
Proof. by intros (_ & ? & _). Qed.

(** What [schedule] leaves of a plain scheduler. *)
Definition batch_built s (o : option ScheduledBatch) s' : Prop :=
  plain_sched s' ∧ in_flight s' = o ∧ in_flight s = None ∧ follows s s'.

Lemma schedule_plain_wp s : plain_sched s →
  wp schedule (post (λ o s', batch_built s o s')
    (λ _ s', plain_sched s' ∧ in_flight s' = in_flight s ∧ follows s s' ∨ exhausted s')) s.
Proof.
  intros (Hwf & Hsp & Hk).
  eapply wp_post_mono; [eapply (plainly_wp _ _ _ _ _ plain_schedule Hsp), schedule_wp, Hwf|..].
  - intros o s' ((Hwf' & Hf' & Hf & Hkept & _ & _ & _ & Hfin) & Hsp' & Hnv).
    split; [split_and!; [done|done|]|].
    + rewrite Hf'. intros b ->. by apply Hnv.
    + split_and!; [done|done|]. by split; [|rewrite Hfin].
  - intros e s' ([(Hwf' & Hkept & Hfin & Hf)|[_ Hex]] & Hsp'); [left|by right].
    split; [split_and!; [done|done|by rewrite Hf]|]. split; [done|]. by split; [|rewrite Hfin].
Qed.

Lemma fail_plain_wp s b : plain_sched s → in_flight s = Some b →
  wp (fail_batch (batch_id b)) (post (λ _ s', plain_sched s' ∧ failed_batch s b s') (λ _ _, False)) s.
Proof.
  intros (Hwf & Hsp & _) Hb.
  eapply wp_post_mono; [eapply (plainly_wp _ _ _ _ _ (plain_fail _) Hsp), fail_batch_wp, Hwf|..].
  - intros [] s' ((Hwf' & b' & Hb' & _ & Hfb) & Hsp' & _). simplify_eq. split; [|done].
    split_and!; [done|done|]. intros b0 Hb0. pose proof (proj1 Hfb). congruence.
  - intros e s' ((_ & Hno) & _). by destruct (Hno b Hb).
Qed.

Lemma complete_plain_wp s selection b : plain_sched s → in_flight s = Some b → bs_batch_id selection = batch_id b →
  NoDup (bs_samplers selection).*1 → acceptable s (batch_id b) (bs_tokens selection) →
  wp (complete_selected_batch selection) (post (λ tokens s', tokens = bs_tokens selection ∧
      (plain_sched s' ∧ in_flight s' = None) ∧ ∃ s1 act,
      completed (set_in_flight None s) (batch_sequences b) tokens s1 ∧ s' = set_active act s1 ∧
      ∀ id, act !! id = with_sampler (list_to_map (M := gmap N TokenSampler) (bs_samplers selection) !! id) <$>
                        active s1 !! id)
    (λ _ _, False)) s.
Proof.
  intros (Hwf & Hsp & Hk) Hb Hid Hnd Hacc.
  assert (plainly anything (complete_selected_batch selection)) as Hplain.
  { unfold complete_selected_batch. eapply plainly_bind; [apply plain_complete|]. intros _ _.
    eapply plainly_bind; [apply plainly_for; intros x; unfold store_sampler; eauto with plain|].
    intros _ _. by apply plainly_ret. }
  eapply wp_post_mono; [eapply (plainly_wp _ _ _ _ _ Hplain Hsp), complete_selected_wp; try done; by apply Hk|..].
  - intros tokens s' ((-> & Hwf' & _ & s1 & act & Hcp & -> & Hact) & Hsp' & _). split; [done|].
    split; [|by exists s1, act].
    assert (in_flight (set_active act s1) = None) as Hnone by (simpl; apply (se_in_flight _ _ (cp_settled _ _ _ _ Hcp))).
    split; [|done]. split_and!; [done|done|]. intros b' Hb'. congruence.
  - intros e s' ((-> & Hno) & _). done.
Qed.

(** Calls that neither build nor close a batch. *)
Definition side_call {A} (m : M Sched ContinuousBatchError A) : Prop := ∀ s, plain_sched s →
  wp m (post (λ _ s', plain_sched s' ∧ in_flight s' = in_flight s) (λ _ s', s' = s)) s.

Lemma side_call_intro {A} (m : M Sched ContinuousBatchError A) (QOk : Sched → A → Sched → Prop) QErr :
  plainly anything m →
  (∀ s, sched_wf s → wp m (post (QOk s) (QErr s)) s) →
  (∀ s a s', QOk s a s' → sched_wf s' ∧ in_flight s' = in_flight s) → (∀ s e s', QErr s e s' → s' = s) →
  side_call m.
Proof.
  intros Hp Hw HOk HErr s (Hwf & Hsp & Hk).
  eapply wp_post_mono; [eapply (plainly_wp _ _ _ _ _ Hp Hsp), Hw, Hwf|..].
  - intros a s' (Hq & Hsp' & _). destruct (HOk _ _ _ Hq) as [Hwf' Hf]. split; [|done].
    split_and!; [done|done|by rewrite Hf].
  - intros e s' (Hq & _). by eapply HErr.
Qed.

Lemma side_submit prompt generation sampler : side_call (submit_with_sampler prompt generation sampler).
Proof.
  eapply side_call_intro; [apply plain_submit|intros s Hwf; by apply submit_wp| |by intros ? ? ? ->].
  intros s a s' (? & _ & ? & _). done.
Qed.

Lemma side_cancel id : side_call (cancel id).
Proof.
  eapply side_call_intro; [apply plain_cancel|intros s Hwf; by apply cancel_wp| |by intros ? ? ? [-> _]].
  by intros s a s' [].
Qed.

Lemma side_limit limit : side_call (set_batch_token_limit limit).
Proof.
  eapply side_call_intro; [apply plain_limit|intros s Hwf; by apply set_limit_wp| |by intros ? ? ? ->].
  intros s a s' (? & _ & _ & ->). done.
Qed.

Lemma side_pop : side_call pop_finished.
Proof.
  eapply side_call_intro; [apply plain_pop|intros s Hwf; by apply pop_finished_wp| |done].
  intros s a s' (? & _ & Heq). split; [done|]. by rewrite Heq.
Qed.

Lemma side_submit_sampled prompt generation : side_call (submit_sampled prompt generation).
Proof.
  intros s Hs. unfold submit_sampled, submit_sampled_with_options. do 2 wp_step.
  pose proof (new_with_options_total (sg_sampling generation) Sampling.default_options) as Hn.
  destruct (new_with_options _ _); [by apply side_submit|done|done].
Qed.

Lemma fresh_plain_sched c k s : (N.of_nat (max_sequence_length k) ≤ usize_max)%N → fresh c k s →
  plain_sched s ∧ in_flight s = None.
Proof.
  intros Hmax Hs. destruct (fresh_empty c k s Hs) as (_ & _ & _ & Hf & Hsp).
  split; [|done]. split_and!; [by eapply fresh_wf|done|]. intros b. congruence.
Qed.

(** The sampler a sampled submission starts from. *)
Definition first_sampler (config : SamplingConfig) : option TokenSampler :=
  match new_sampler config with Ok sampler => Some sampler | _ => None end.

(** A quiet call of the scheduler, as it leaves the requests. *)
Lemma quiet_follows {A} (m : M Sched ContinuousBatchError A) op s a s' :
  sched_exec op = void_s m → quiet op → sched_wf s → m s = (Ok a, s') → follows s s'.
Proof.
  intros Hop Hq Hwf Hm. pose proof (exec_follows op s Hwf Hq) as Hw. rewrite Hop in Hw.
  unfold wp, void_s, mbind' in Hw. by rewrite Hm in Hw.
Qed.

Lemma submit_sampled_run prompt generation s x s' : submit_sampled prompt generation s = (x, s') →
  match x with
  | Ok _ => submit_with_sampler prompt
      (mk_generation (sg_max_new_tokens generation) (sg_eos_token_ids generation))
      (first_sampler (sg_sampling generation)) s = (x, s')
  | _ => True
  end.
Proof.
  unfold submit_sampled, submit_sampled_with_options, mbind', mlift, first_sampler, new_sampler.
  destruct (new_with_options _ _); [|by intros [= <- <-]..]. by destruct x.
Qed.

Lemma fresh_decode_told pick c k s : fresh c k s → told pick ∅ s.
Proof.
  intros Hs. destruct (fresh_empty c k s Hs) as (Hp & Ha & Hf & _).
  split; rewrite ?Hp, ?Ha, ?Hf.
  - by intros ? ? ?%lookup_empty_Some.
  - by intros ? ?%elem_of_nil.
  - by intros ? ? ?%lookup_empty_Some.
  - by intros ? ?%elem_of_nil.
Qed.

(** Completing a selection that picks for every row. *)
Lemma told_selected pick `{!Picking pick} log P s b logits vocabulary selection tokens s' :
  plain_sched s → told pick log s → in_flight s = Some b → bs_batch_id selection = batch_id b →
  picks pick s b selection →
  selected s P logits vocabulary 0 (batch_sequences b) (bs_tokens selection) (bs_samplers selection) →
  complete_selected_batch selection s = (Ok tokens, s') → told pick log s'.
Proof.
  intros (Hwf & _ & Hk) Ht Hb Hid Hp Hs Hc.
  pose proof (sw_flight _ Hwf) as Hfl. rewrite Hb in Hfl. destruct Hfl as ([Hnd _ _ _ _] & _).
  pose proof (complete_selected_wp _ selection b Hwf Hb (Hk b Hb) Hid (selected_nodup _ _ _ _ _ _ _ _ Hs Hnd)) as Hw.
  unfold wp in Hw. rewrite Hc in Hw. simpl in Hw. destruct Hw as (-> & _ & _ & s1 & act & Hcp & -> & Hact).
  apply (told_completed _ _ s b selection); [done|done|done|done|done| |done].
  apply (selected_keys _ _ _ _ _ _ _ _ Hs).
Qed.
End PlainScheduler.
