(* ===== verification/FencedBatchSpec.v ===== *)
(** * What the fence gate guarantees

    The states the calls of a [FencedBatchScheduler] lead to: the fence tracks
    exactly the batch in flight, a quarantined gate never touches its scheduler
    again, nothing is committed or rolled back before the fence completed, and what
    a gate finishes is what decoding each request alone would give. *)
From S2P Require Import Prelude Float GenerationControl Sampling SamplingSpec SamplingDraw PagedKv.
From S2P Require Import PagedKvPool PagedKvInv PagedKvOps PagedKvPrefix PagedKvSpec ContinuousBatch.
From S2P Require Import ContinuousBatchInv ContinuousBatchSchedule ContinuousBatchLoop ContinuousBatchOps.
From S2P Require Import ContinuousBatchVerify ContinuousBatchCalls ContinuousBatchSpec.
From S2P Require Import ContinuousBatchModes BatchSampling BatchDecoding BatchSamplingSpec PlainScheduler.
From S2P Require Import Runtime Numerics FencedBatch.
Open Scope nat_scope.
Open Scope m_scope.

Section Gate.
Context `{DefaultHasher} `{Exponential, Randomness} `{BatchFence}.
Notation Sched := (@ContinuousBatchScheduler TokenSampler).
Notation GM := (M FencedBatchScheduler RuntimeError).
Implicit Types s : Sched.
Implicit Types g : FencedBatchScheduler.

(** A healthy gate tracks exactly the batch in flight. *)
Definition tracked g : Prop :=
  match gt_fence g with
  | Some (id, _, _) => ∃ b, in_flight (gt_scheduler g) = Some b ∧ batch_id b = id
  | None => gt_quarantined g = false → in_flight (gt_scheduler g) = None
  end.

Record gate_wf g : Prop := {
  gw_sched : plain_sched (gt_scheduler g);
  gw_tracked : tracked g
}.

(** ** The scheduler's calls through the gate *)

(** A call keeps the scheduler plain, on errors too, and what it does to the batch
    in flight and to the rest is in [QOk] and [QErr]. *)
Lemma scheduled_wp {A} (m : M Sched ContinuousBatchError A) QOk QErr g :
  wp m (post QOk QErr) (gt_scheduler g) →
  wp (scheduled m) (post (λ a g', QOk a (gt_scheduler g') ∧ gt_fence g' = gt_fence g ∧ gt_quarantined g' = gt_quarantined g)
    (λ e g', kind e = InvalidInput ∧ (∃ e, QErr e (gt_scheduler g')) ∧ gt_fence g' = gt_fence g ∧
             gt_quarantined g' = gt_quarantined g)) g.
Proof.
  unfold wp, scheduled. destruct (m (gt_scheduler g)) as [[a|e|p] s']; simpl; [done| |done].
  intros He. split; [done|]. split; [by exists e|done].
Qed.

Lemma ensure_healthy_wp g (Q : res RuntimeError unit → FencedBatchScheduler → Prop) :
  (gt_quarantined g = false → Q (Ok tt) g) →
  (gt_quarantined g = true → ∀ e, kind e = DeviceLost → Q (Err e) g) →
  wp ensure_healthy Q g.
Proof.
  intros HOk HErr. unfold ensure_healthy. do 2 wp_step.
  destruct (gt_quarantined g); [apply wp_throw; by apply HErr|apply wp_ret; by apply HOk].
Qed.

(** ** Polling *)

(** The cases of [poll_fence]. *)
Inductive polled_as (id : N) g : res RuntimeError (Poll unit) → FencedBatchScheduler → Prop :=
| pl_quarantined e : gt_quarantined g = true → polled_as id g (Err e) g
| pl_untracked e : gt_quarantined g = false → gt_fence g = None → kind e = InvalidInput →
    polled_as id g (Err e) g
| pl_stale e other f c : gt_quarantined g = false → gt_fence g = Some (other, f, c) → other ≠ id →
    kind e = InvalidInput → polled_as id g (Err e) g
| pl_completed f : gt_quarantined g = false → gt_fence g = Some (id, f, true) → polled_as id g (Ok (Ready tt)) g
| pl_pending f f' : gt_quarantined g = false → gt_fence g = Some (id, f, false) →
    poll_complete f = (FencePending, f') →
    polled_as id g (Ok Pending) (mk_gate (gt_scheduler g) (Some (id, f', false)) false)
| pl_done f f' : gt_quarantined g = false → gt_fence g = Some (id, f, false) →
    poll_complete f = (FenceDone, f') →
    polled_as id g (Ok (Ready tt)) (mk_gate (gt_scheduler g) (Some (id, f', true)) false)
| pl_failed f f' e : gt_quarantined g = false → gt_fence g = Some (id, f, false) →
    poll_complete f = (FenceFailed e, f') →
    polled_as id g (Err e) (mk_gate (gt_scheduler g) (Some (id, f', false)) true)
| pl_panicked f f' : gt_quarantined g = false → gt_fence g = Some (id, f, false) →
    poll_complete f = (FencePanicked, f') →
    polled_as id g (Panic Foreign) (mk_gate (gt_scheduler g) (Some (id, f', false)) true).

Lemma poll_fence_wp id g : wp (poll_fence id) (polled_as id g) g.
Proof.
  unfold poll_fence. wp_step. apply ensure_healthy_wp; [intros Hq|intros Hq e He; by constructor].
  do 2 wp_step. wp_step. unfold mok_or. destruct (gt_fence g) as [[[tid f] c]|] eqn:Ef.
  2:{ apply wp_throw. by constructor. }
  apply wp_ret. case_decide as Hid; [apply wp_throw; by eapply pl_stale|].
  assert (tid = id) as -> by (by destruct (decide (tid = id))).
  destruct c; [apply wp_ret; by eapply pl_completed|].
  do 2 wp_step. do 2 wp_step. destruct (poll_complete f) as [[]  f'] eqn:Ep; simpl.
  - do 2 wp_step. apply wp_ret. unfold set_quarantined, set_fence; simpl; by eapply pl_pending.
  - do 2 wp_step. do 2 wp_step. apply wp_ret. unfold set_quarantined, set_fence; simpl; by eapply pl_done.
  - apply wp_throw. unfold set_quarantined, set_fence; simpl; by eapply pl_failed.
  - apply wp_panic. unfold set_quarantined, set_fence; simpl; by eapply pl_panicked.
Qed.

(** A poll never touches the scheduler, and keeps the gate's invariant. *)
Lemma polled_scheduler id g r g' : polled_as id g r g' → gt_scheduler g' = gt_scheduler g.
Proof. by destruct 1. Qed.

Lemma polled_wf id g r g' : gate_wf g → polled_as id g r g' → gate_wf g'.
Proof.
  intros [Hs Ht] Hp. unfold tracked in Ht.
  destruct Hp as [| | | |? ? ? Hf|? ? ? Hf|? ? ? ? Hf|? ? ? Hf]; try (by split);
    (split; [done|]); unfold tracked; simpl; by rewrite Hf in Ht.
Qed.

Lemma polled_ready id g u g' : polled_as id g (Ok (Ready u)) g' →
  gt_quarantined g' = false ∧ ∃ f, gt_fence g' = Some (id, f, true).
Proof. inversion 1; subst; simpl; eauto. Qed.

(** A ready fence has its batch in flight. *)
Lemma ready_batch id g u g' : gate_wf g → polled_as id g (Ok (Ready u)) g' →
  ∃ b, in_flight (gt_scheduler g') = Some b ∧ batch_id b = id.
Proof.
  intros Hg Hp. destruct (polled_wf _ _ _ _ Hg Hp) as [_ Ht].
  destruct (polled_ready _ _ _ _ Hp) as [_ [f Hf]]. unfold tracked in Ht. by rewrite Hf in Ht.
Qed.

(** ** The calls of the gate *)
Inductive gate_op : Type :=
| GateSubmit (prompt : list Z) (generation : GreedyGenerationConfig)
| GateSubmitSampled (prompt : list Z) (generation : SamplingGenerationConfig)
| GateLaunch (submit : ScheduledBatch → LaunchOutcome)
| GateComplete (id : N) (logits : list f32) (vocabulary : nat)
| GateRollback (id : N)
| GateCancel (id : RequestId)
| GateSetLimit (limit : nat)
| GatePopFinished.

Definition void_g {A} (m : GM A) : GM unit := let! _ := m in mret tt.

Definition gate_exec (op : gate_op) : GM unit :=
  match op with
  | GateSubmit prompt generation => void_g (gate_submit prompt generation)
  | GateSubmitSampled prompt generation => void_g (gate_submit_sampled prompt generation)
  | GateLaunch submit => void_g (launch submit)
  | GateComplete id logits vocabulary => void_g (try_complete_logits id logits vocabulary)
  | GateRollback id => void_g (try_rollback id)
  | GateCancel id => void_g (gate_cancel id)
  | GateSetLimit limit => gate_set_batch_token_limit limit
  | GatePopFinished => void_g gate_pop_finished
  end.

Lemma set_scheduler_id g : set_scheduler (gt_scheduler g) g = g.
Proof. by destruct g. Qed.

Lemma scheduled_pure {A} (f : Sched → res ContinuousBatchError A) (Q : Run A → FencedBatchScheduler → Prop) g :
  Q (map_err invalid (f (gt_scheduler g))) g → wp (scheduled (λ s, (f s, s))) Q g.
Proof. unfold wp, scheduled. simpl. by rewrite set_scheduler_id. Qed.

Lemma scheduled_eq {A} (m : M Sched ContinuousBatchError A) g x s' (Q : Run A → FencedBatchScheduler → Prop) :
  m (gt_scheduler g) = (x, s') → Q (map_err invalid x) (set_scheduler s' g) → wp (scheduled m) Q g.
Proof. unfold wp, scheduled. by intros ->. Qed.

(** A scheduler call behind [ensure_healthy]. *)
Lemma guarded_wp {A} (m : M Sched ContinuousBatchError A) QOk QErr g :
  wp m (post QOk QErr) (gt_scheduler g) →
  wp (ensure_healthy ;;; scheduled m) (post
    (λ a g', gt_quarantined g = false ∧ QOk a (gt_scheduler g') ∧ gt_fence g' = gt_fence g ∧ gt_quarantined g' = false)
    (λ e g', g' = g ∧ gt_quarantined g = true ∨
       gt_quarantined g = false ∧ kind e = InvalidInput ∧ (∃ e', QErr e' (gt_scheduler g')) ∧
       gt_fence g' = gt_fence g ∧ gt_quarantined g' = false)) g.
Proof.
  intros Hm. wp_step. apply ensure_healthy_wp; [|intros Hq e _; by left].
  intros Hq. eapply wp_post_mono; [by apply scheduled_wp|..].
  - intros a g' (? & ? & ?). split_and!; congruence.
  - intros e g' (? & ? & ? & ?). right. split_and!; congruence.
Qed.

(** The same gate around another scheduler. *)
Lemma tracked_same g g' :
  gt_fence g' = gt_fence g → gt_quarantined g' = gt_quarantined g →
  in_flight (gt_scheduler g') = in_flight (gt_scheduler g) → tracked g → tracked g'.
Proof. unfold tracked. intros -> -> Hf. destruct (gt_fence g) as [[[]]|]; by rewrite Hf. Qed.

(** The outcomes of [launch]. *)
Definition launch_error (submit : ScheduledBatch → LaunchOutcome) g e g' : Prop :=
  g' = g ∧ gt_quarantined g = true ∨
  gt_quarantined g = false ∧
  (gt_fence g' = gt_fence g ∧ gt_quarantined g' = false ∧
     (plain_sched (gt_scheduler g') ∧ in_flight (gt_scheduler g') = in_flight (gt_scheduler g) ∧
        follows (gt_scheduler g) (gt_scheduler g') ∨ exhausted (gt_scheduler g')) ∨
   gt_fence g' = None ∧ gt_fence g = None ∧ ∃ b failure s1,
     batch_built (gt_scheduler g) (Some b) s1 ∧ submit b = LaunchFailed failure ∧ e = lf_error failure ∧
     if recoverable failure
     then gt_quarantined g' = false ∧ plain_sched (gt_scheduler g') ∧ failed_batch s1 b (gt_scheduler g')
     else gt_quarantined g' = true ∧ gt_scheduler g' = s1).

Definition launch_ok (submit : ScheduledBatch → LaunchOutcome) g o g' : Prop :=
  gt_quarantined g = false ∧ gt_quarantined g' = false ∧
  batch_built (gt_scheduler g) o (gt_scheduler g') ∧
  match o with
  | Some b => ∃ f, submit b = Launched f ∧ gt_fence g' = Some (batch_id b, f, false)
  | None => gt_fence g' = None
  end.

Definition launch_panic (submit : ScheduledBatch → LaunchOutcome) g p g' : Prop :=
  p = Overflow ∨ p = Foreign ∧ gt_quarantined g' = true ∧ gt_fence g' = None ∧
    ∃ b, submit b = LaunchPanicked ∧ batch_built (gt_scheduler g) (Some b) (gt_scheduler g').

Lemma tracked_none g : tracked g → in_flight (gt_scheduler g) = None → gt_fence g = None.
Proof. unfold tracked. destruct (gt_fence g) as [[[]]|]; [|done]. intros (b' & Hb & _). congruence. Qed.

Lemma launch_wp submit g : gate_wf g →
  wp (launch submit) (λ r g', match r with
    | Ok o => launch_ok submit g o g'
    | Err e => launch_error submit g e g'
    | Panic p => launch_panic submit g p g'
    end) g.
Proof.
  intros [Hs Ht]. unfold launch. wp_step. apply ensure_healthy_wp; [intros Hq|intros Hq e _; by left].
  wp_step. pose proof (scheduled_wp _ _ _ g (schedule_plain_wp _ Hs)) as Hw. unfold wp in Hw |- * at 1.
  destruct (scheduled schedule g) as [[[b|]|e|p] g1]; simpl in *.
  - destruct Hw as (Hb & Hf & Hq1). pose proof (tracked_none g Ht (proj1 (proj2 (proj2 Hb)))) as Hnone.
    rewrite Hnone in Hf. rewrite Hq in Hq1.
    do 2 wp_step. destruct (submit b) as [f|failure|] eqn:Es.
    + do 2 wp_step. do 2 wp_step. apply wp_ret. split; [done|]. split; [done|]. split; [done|]. by exists f.
    + wp_step. destruct (recoverable failure) eqn:Er.
      * wp_step. pose proof (scheduled_wp _ _ _ (set_quarantined true g1)
          (fail_plain_wp _ b (proj1 Hb) (proj1 (proj2 Hb)))) as Hw2. unfold wp in Hw2 |- * at 1.
        destruct (scheduled (fail_batch _) _) as [[[]|e|p] g2]; simpl in *.
        -- destruct Hw2 as ((Hpl & Hfb) & Hf2 & Hq2). wp_step. apply wp_throw. right. split; [done|]. right.
           simpl. split; [congruence|]. split; [done|]. exists b, failure, (gt_scheduler g1). by rewrite Er.
        -- by destruct Hw2 as (_ & [? []] & _).
        -- by left.
      * wp_step. apply wp_throw. right. split; [done|]. right. simpl. split; [done|]. split; [done|].
        exists b, failure, (gt_scheduler g1). by rewrite Er.
    + apply wp_panic. right. split; [done|]. split; [done|]. split; [done|]. by exists b.
  - destruct Hw as (Hb & Hf & Hq1). pose proof (tracked_none g Ht (proj1 (proj2 (proj2 Hb)))) as Hnone.
    apply wp_ret. split; [done|]. split; [congruence|]. split; [done|]. congruence.
  - destruct Hw as (_ & [e' He'] & Hf & Hq1). right. split; [done|]. left. split; [done|]. split; [congruence|done].
  - by left.
Qed.

(** ** Completion *)

(** A row that [checked_argmax] accepts. *)
Definition usable (row : list f32) : Prop := clean row ∧ ∃ x, x ∈ row ∧ is_finite x = true.

Lemma check_rows_spec rows vocabulary logits :
  match check_rows rows vocabulary logits with
  | Ok _ => ∀ i, i < rows → usable (take vocabulary (drop (i * vocabulary) logits))
  | Err e => kind e = Numerical ∧ ∃ i, i < rows ∧ ¬ usable (take vocabulary (drop (i * vocabulary) logits))
  | Panic _ => False
  end.
Proof.
  revert logits. induction rows as [|rows IH]; intros logits; simpl; [intros i Hi; lia|].
  pose proof (checked_argmax_exact (take vocabulary logits)) as Ha.
  destruct (checked_argmax _) as [j|e|p]; simpl; [|..|done].
  2:{ destruct Ha as [He Ha]. split; [done|]. exists 0. split; [lia|]. simpl. intros [Hc (x & Hx & Hf)].
      destruct Ha as [Ha|Ha]; [done|]. by rewrite Ha in Hf. }
  specialize (IH (drop vocabulary logits)). destruct (check_rows _ _ _) as [[]|e|p]; [| |done].
  2:{ destruct IH as [He (i & Hi & Hu)]. split; [done|]. exists (S i). split; [lia|]. simpl. by rewrite drop_drop in Hu. }
  intros [|i] Hi; simpl.
  - destruct Ha as (Hc & m & Hm & Hf & _). split; [done|]. exists m. split; [|done]. by eapply list_elem_of_lookup_2.
  - specialize (IH i ltac:(lia)). by rewrite drop_drop in IH.
Qed.

(** Logits that a batch is not committed with. *)
Definition unfit s b (id : N) (logits : list f32) (vocabulary : nat) : Prop :=
  vocabulary = 0 ∨ usize_mul (batch_size b) vocabulary ≠ Some (length logits) ∨
  (∃ i, i < batch_size b ∧ ¬ usable (take vocabulary (drop (i * vocabulary) logits))) ∨
  ∃ e, select_batch_tokens s id logits vocabulary = Err e.

(** The commit of a ready batch. *)
Record committed (id : N) (logits : list f32) (vocabulary : nat) g (tokens : list Z) g' : Prop := {
  cm_ready : ∃ g1, polled_as id g (Ok (Ready tt)) g1;
  cm_commit : ∃ b selection, in_flight (gt_scheduler g) = Some b ∧ batch_id b = id ∧
    select_batch_tokens (gt_scheduler g) id logits vocabulary = Ok selection ∧
    complete_selected_batch selection (gt_scheduler g) = (Ok tokens, gt_scheduler g') ∧
    tokens = bs_tokens selection ∧ ¬ unfit (gt_scheduler g) b id logits vocabulary;
  cm_released : gt_fence g' = None ∧ gt_quarantined g' = false;
  cm_plain : plain_sched (gt_scheduler g') ∧ in_flight (gt_scheduler g') = None
}.

(** A call that did not get through to the scheduler. *)
Definition held_back g g' : Prop := gt_scheduler g' = gt_scheduler g ∧ gate_wf g'.

Definition complete_panic g p g' : Prop :=
  p = Overflow ∨ held_back g g' ∧
    (p = Foreign ∧ gt_quarantined g' = true ∨ ∃ values prompt gen sampler, choice values prompt gen sampler = Panic p).

Lemma try_complete_wp id logits vocabulary g : gate_wf g →
  wp (try_complete_logits id logits vocabulary) (λ r g', match r with
    | Ok Pending => polled_as id g (Ok Pending) g'
    | Ok (Ready tokens) => committed id logits vocabulary g tokens g'
    | Err e => held_back g g' ∧ (polled_as id g (Err e) g' ∨ polled_as id g (Ok (Ready tt)) g' ∧
        ∃ b, in_flight (gt_scheduler g) = Some b ∧ unfit (gt_scheduler g) b id logits vocabulary)
    | Panic p => complete_panic g p g'
    end) g.
Proof.
  intros Hg. unfold try_complete_logits. wp_step. eapply wp_mono; [apply poll_fence_wp|].
  intros r g1 Hp. pose proof (polled_scheduler _ _ _ _ Hp) as Hsame. pose proof (polled_wf _ _ _ _ Hg Hp) as Hg1.
  destruct r as [[|[]]|e|p]; [by apply wp_ret| |by split; [|left]|].
  2:{ right. split; [done|]. left. by inversion Hp; subst. }
  destruct (ready_batch _ _ _ _ Hg Hp) as (b & Hb & Hid).
  do 2 wp_step. unfold mexpect. rewrite Hb. wp_step. apply wp_ret.
  assert (∀ e : RuntimeError, unfit (gt_scheduler g) b id logits vocabulary → held_back g g1 ∧
      (polled_as id g (Err e) g1 ∨ polled_as id g (Ok (Ready tt)) g1 ∧
        ∃ b, in_flight (gt_scheduler g) = Some b ∧ unfit (gt_scheduler g) b id logits vocabulary)) as Hheld
    by (intros e He; split; [done|right]; split; [done|]; exists b; split; [by rewrite <- Hsame|done]).
  case_decide as Hfit; [apply wp_throw, Hheld; destruct Hfit; [by left|by right; left]|].
  wp_step. wp_step. pose proof (check_rows_spec (batch_size b) vocabulary logits) as Hrows.
  destruct (check_rows _ _ _) as [[]|e|p]; [|apply Hheld; right; right; left; apply Hrows|done].
  wp_step. apply (scheduled_pure (λ s, select_batch_tokens s id logits vocabulary)).
  pose proof (select_batch_tokens_spec (gt_scheduler g1) id logits vocabulary (proj1 (gw_sched _ Hg1))) as Hsel.
  destruct (select_batch_tokens (gt_scheduler g1) id logits vocabulary) as [selection|e|p] eqn:Esel; cbn [map_err].
  2:{ apply Hheld. do 3 right. rewrite <- Hsame. by exists e. }
  2:{ right. split; [done|]. by right. }
  destruct Hsel as (b' & Hb' & _ & Hsid & _ & _ & Hs). simplify_eq.
  assert (NoDup (map row_request_id (batch_sequences b))) as Hnd.
  { pose proof (sw_flight _ (proj1 (gw_sched _ Hg1))) as Hfl. rewrite Hb in Hfl. by destruct Hfl as ([? _ _ _ _] & _). }
  pose proof (complete_plain_wp (gt_scheduler g1) selection b (gw_sched _ Hg1) Hb Hsid
    (selected_nodup _ _ _ _ _ _ _ _ Hs Hnd)
    (selection_acceptable _ _ _ _ _ (proj1 (gw_sched _ Hg1)) Hb Hs)) as Hw. unfold wp in Hw.
  wp_step.
  destruct (complete_selected_batch selection (gt_scheduler g1)) as [[tokens|e|p] s'] eqn:Ec; simpl in Hw; [|done|].
  2:{ apply (scheduled_eq _ _ _ _ _ Ec). by left. }
  apply (scheduled_eq _ _ _ _ _ Ec). simpl. do 2 wp_step. apply wp_ret. split.
  - by exists g1.
  - exists b, selection. rewrite <- Hsame. destruct Hw as [-> _]. split_and!; try done.
    intros [Hu|[Hu|[(i & Hi & Hu)|[e He]]]]; [by apply Hfit; left|by apply Hfit; right| |congruence].
    by apply Hu, Hrows.
  - simpl. split; [done|]. by destruct (polled_ready _ _ _ _ Hp).
  - apply Hw.
Qed.

Lemma try_rollback_wp id g : gate_wf g →
  wp (try_rollback id) (λ r g', match r with
    | Ok Pending => polled_as id g (Ok Pending) g'
    | Ok (Ready _) => (∃ g1, polled_as id g (Ok (Ready tt)) g1) ∧ gt_fence g' = None ∧ gt_quarantined g' = false ∧
        plain_sched (gt_scheduler g') ∧ ∃ b, in_flight (gt_scheduler g) = Some b ∧ batch_id b = id ∧
          failed_batch (gt_scheduler g) b (gt_scheduler g')
    | Err e => polled_as id g (Err e) g'
    | Panic p => p = Overflow ∨ p = Foreign ∧ held_back g g' ∧ gt_quarantined g' = true
    end) g.
Proof.
  intros Hg. unfold try_rollback. wp_step. eapply wp_mono; [apply poll_fence_wp|].
  intros r g1 Hp. pose proof (polled_scheduler _ _ _ _ Hp) as Hsame. pose proof (polled_wf _ _ _ _ Hg Hp) as Hg1.
  destruct r as [[|[]]|e|p]; [by apply wp_ret| |done|].
  2:{ right. by inversion Hp; subst. }
  destruct (ready_batch _ _ _ _ Hg Hp) as (b & Hb & <-).
  wp_step. pose proof (scheduled_wp _ _ _ g1 (fail_plain_wp _ b (gw_sched _ Hg1) Hb)) as Hw.
  unfold wp in Hw |- * at 1.
  destruct (scheduled (fail_batch _) g1) as [[[]|e|p] g2]; simpl in *.
  - destruct Hw as ((Hpl & Hfb) & Hf & Hq). wp_step. wp_step. split; [by exists g1|].
    split; [done|]. split; [|split; [done|]].
    + simpl. rewrite Hq. by destruct (polled_ready _ _ _ _ Hp).
    + exists b. by rewrite <- Hsame.
  - by destruct Hw as (_ & [? []] & _).
  - by left.
Qed.

(** ** Every call *)

(** A call of the scheduler that keeps the batch in flight keeps the gate. *)
Lemma keep_gate g g' : gate_wf g → plain_sched (gt_scheduler g') →
  in_flight (gt_scheduler g') = in_flight (gt_scheduler g) → gt_fence g' = gt_fence g →
  gt_quarantined g' = gt_quarantined g → gate_wf g'.
Proof. intros [_ Ht] Hs Hf Hfe Hq. split; [done|]. by eapply tracked_same. Qed.

Lemma side_gate_wp {A} (m : M Sched ContinuousBatchError A) g : side_call m → gate_wf g →
  wp (ensure_healthy ;;; scheduled m) (post
    (λ a g', gate_wf g' ∧ gt_quarantined g = false ∧ gt_quarantined g' = false ∧
       m (gt_scheduler g) = (Ok a, gt_scheduler g'))
    (λ e g', g' = g)) g.
Proof.
  intros Hm Hg. wp_step. apply ensure_healthy_wp; [intros Hq|done].
  specialize (Hm _ (gw_sched _ Hg)). unfold wp in Hm.
  destruct (m (gt_scheduler g)) as [x s'] eqn:E. apply (scheduled_eq _ _ _ _ _ E).
  destruct x as [a|e|p]; simpl in *; [|subst; by rewrite set_scheduler_id|done].
  split; [|done]. destruct Hm. by apply (keep_gate g).
Qed.

Lemma pop_gate_wp g : gate_wf g →
  wp gate_pop_finished (post
    (λ a g', gate_wf g' ∧ gt_quarantined g' = gt_quarantined g ∧ gt_fence g' = gt_fence g ∧
       pop_finished (gt_scheduler g) = (Ok a, gt_scheduler g'))
    (λ e g', g' = g)) g.
Proof.
  intros Hg. unfold gate_pop_finished. pose proof (side_pop _ (gw_sched _ Hg)) as Hm. unfold wp in Hm.
  destruct (pop_finished (gt_scheduler g)) as [x s'] eqn:E. apply (scheduled_eq _ _ _ _ _ E).
  destruct x as [a|e|p]; simpl in *; [|subst; by rewrite set_scheduler_id|done].
  split; [|done]. destruct Hm. by apply (keep_gate g).
Qed.

(** ** The invariant *)

(** The panics a gate lets through: a closure's, a sampler's, a counter's. *)
Definition gate_panic (p : panic) : Prop :=
  p = Overflow ∨ p = Foreign ∨ ∃ values prompt gen sampler, choice values prompt gen sampler = Panic p.

(** Quarantine is not lifted. *)
Definition still_quarantined g g' : Prop := gt_quarantined g = true → gt_quarantined g' = true.

Definition gate_after g (r : res RuntimeError unit) g' : Prop :=
  match r with
  | Panic p => gate_panic p ∧ (p = Foreign → gate_wf g' ∧ still_quarantined g g')
  | _ => (gate_wf g' ∨ exhausted (gt_scheduler g')) ∧ still_quarantined g g'
  end.

Lemma void_g_wp {A} (m : GM A) (Q : res RuntimeError unit → FencedBatchScheduler → Prop) g :
  wp m (λ r g', match r with Ok _ => Q (Ok tt) g' | Err e => Q (Err e) g' | Panic p => Q (Panic p) g' end) g →
  wp (void_g m) Q g.
Proof. intros Hm. unfold void_g. wp_step. eapply wp_mono; [exact Hm|]. intros [a|e|p] g'; [intros; by apply wp_ret|done..]. Qed.

Lemma side_after {A} (m : M Sched ContinuousBatchError A) g : side_call m → gate_wf g →
  wp (ensure_healthy ;;; scheduled m) (λ r g', gate_after g
    (match r with Ok _ => Ok tt | Err e => Err e | Panic p => Panic p end) g') g.
Proof.
  intros Hm Hg. eapply wp_mono; [by apply side_gate_wp|]. intros [a|e|p] g'; simpl.
  - intros (? & Hq & ? & _). split; [by left|]. intros Hx. congruence.
  - intros ->. split; [by left|by intros ?].
  - intros ->. split; [by left|by intros ?].
Qed.

Lemma launch_after submit g : gate_wf g → wp (launch submit) (λ r g', gate_after g
  (match r with Ok _ => Ok tt | Err e => Err e | Panic p => Panic p end) g') g.
Proof.
  intros Hg. eapply wp_mono; [by apply launch_wp|]. intros [o|e|p] g'; simpl.
  - intros (Hq & Hq' & (Hs & Hf & _) & Hfence). split; [|intros Hx; congruence]. left. split; [done|].
    unfold tracked. destruct o as [b|].
    + destruct Hfence as (f & _ & ->). by exists b.
    + by rewrite Hfence.
  - intros [[-> _]|(Hq & [(Hfe & Hq' & [(Hs & Hf & _)|Hex])|(Hfe & Hfg & b & failure & s1 & Hb & _ & _ & Hrec)])].
    + split; [by left|by intros ?].
    + split; [|intros Hx; congruence]. left. eapply keep_gate; [done..|congruence].
    + split; [by right|intros Hx; congruence].
    + split; [|intros Hx; congruence]. left. destruct (recoverable failure).
      * destruct Hrec as (_ & Hs & Hfb). split; [done|]. unfold tracked. rewrite Hfe. intros _. apply Hfb.
      * destruct Hrec as (Hq' & <-). split; [apply Hb|]. unfold tracked. rewrite Hfe. congruence.
  - intros [->|(-> & Hq & Hfe & b & _ & Hs & _)]; [split; [by left|by intros ?]|].
    split; [right; by left|]. intros _. split; [|by intros ?]. split; [done|]. unfold tracked. rewrite Hfe. congruence.
Qed.

Lemma complete_after id logits vocabulary g : gate_wf g →
  wp (try_complete_logits id logits vocabulary) (λ r g', gate_after g
    (match r with Ok _ => Ok tt | Err e => Err e | Panic p => Panic p end) g') g.
Proof.
  intros Hg. eapply wp_mono; [by apply try_complete_wp|]. intros [[|tokens]|e|p] g'; simpl.
  - intros Hp. split; [left; by eapply polled_wf|]. intros Hx. by inversion Hp; congruence.
  - intros [[g1 Hp] _ [Hfe Hq] [Hs Hf]]. split; [left; split; [done|unfold tracked; by rewrite Hfe]|].
    intros Hx. by inversion Hp; congruence.
  - intros [[_ Hg'] Hp]. split; [by left|]. intros Hx.
    destruct Hp as [Hp|[Hp _]]; inversion Hp; subst; simpl in *; congruence.
  - intros [->|[[_ Hg'] Hp]]; [split; [by left|by intros ?]|]. split.
    + destruct Hp as [[-> _]|Hp]; [right; by left|right; by right].
    + intros ->. split; [done|]. intros Hx. destruct Hp as [[_ ?]|(values & prompt & gen & sampler & Hc)]; [done|].
      by apply choice_not_foreign in Hc.
Qed.

Lemma rollback_after id g : gate_wf g →
  wp (try_rollback id) (λ r g', gate_after g
    (match r with Ok _ => Ok tt | Err e => Err e | Panic p => Panic p end) g') g.
Proof.
  intros Hg. eapply wp_mono; [by apply try_rollback_wp|]. intros [[|[]]|e|p] g'; simpl.
  - intros Hp. split; [left; by eapply polled_wf|]. intros Hx. by inversion Hp; congruence.
  - intros ([g1 Hp] & Hfe & Hq & Hs & b & _ & _ & Hfb).
    split; [left; split; [done|unfold tracked; rewrite Hfe; intros _; apply Hfb]|].
    intros Hx. by inversion Hp; congruence.
  - intros Hp. split; [left; by eapply polled_wf|]. intros Hx. inversion Hp; subst; simpl in *; congruence.
  - intros [->|(-> & [_ Hg'] & Hq)]; [split; [by left|by intros ?]|]. split; [right; by left|by intros _; split; [|by intros ?]].
Qed.

Lemma gate_exec_wp op g : gate_wf g → wp (gate_exec op) (gate_after g) g.
Proof.
  intros Hg. destruct op; simpl; try apply void_g_wp.
  - eapply wp_mono; [apply side_after; [apply side_submit|done]|by intros [] ?].
  - eapply wp_mono; [apply side_after; [apply side_submit_sampled|done]|by intros [] ?].
  - eapply wp_mono; [by apply launch_after|by intros [] ?].
  - eapply wp_mono; [by apply complete_after|by intros [] ?].
  - eapply wp_mono; [by apply rollback_after|by intros [] ?].
  - eapply wp_mono; [apply side_after; [apply side_cancel|done]|by intros [] ?].
  - eapply wp_mono; [apply side_after; [apply side_limit|done]|by intros [[]| |] ?].
  - eapply wp_mono; [by apply pop_gate_wp|]. intros [a|e|p] g'; simpl.
    + intros (? & Hq & _). split; [by left|]. intros Hx. congruence.
    + intros ->. split; [by left|by intros ?].
    + intros ->. split; [by left|by intros ?].
Qed.

(** ** Reachable gates *)
Notation Log := (gmap N (list Z * GreedyGenerationConfig * option TokenSampler)).

Definition gate_logged g (op : gate_op) (x : res RuntimeError unit) (log : Log) : Log :=
  match op, x with
  | GateSubmit prompt generation, Ok _ => <[next_request (gt_scheduler g) := (prompt, generation, None)]> log
  | GateSubmitSampled prompt generation, Ok _ =>
      <[next_request (gt_scheduler g) :=
         (prompt, mk_generation (sg_max_new_tokens generation) (sg_eos_token_ids generation),
          first_sampler (sg_sampling generation))]> log
  | _, _ => log
  end.

(** The states the calls of a gate lead to, with what was submitted; [answers]
    restricts the calls.  A panic of a closure may be caught by the caller. *)
Inductive gate_reachable (answers : FencedBatchScheduler → gate_op → Prop)
    (c : ContinuousBatchConfig) (k : PagedKvCacheConfig) : Log → FencedBatchScheduler → Prop :=
| gate_start s g : fresh c k s → new_gate s = Ok g → gate_reachable answers c k ∅ g
| gate_step log g op x g' : gate_reachable answers c k log g → answers g op → gate_exec op g = (x, g') →
    (∀ p, x = Panic p → p = Foreign) → ¬ exhausted (gt_scheduler g') →
    gate_reachable answers c k (gate_logged g op x log) g'.

Lemma gate_reachable_wf answers c k log g : (N.of_nat (max_sequence_length k) ≤ usize_max)%N →
  gate_reachable answers c k log g → gate_wf g.
Proof.
  intros Hmax. induction 1 as [s g Hs Hg|log g op x g' Hr IH _ Hex Hx Hno].
  - destruct (fresh_plain_sched c k s Hmax Hs) as [Hpl Hf]. unfold new_gate in Hg.
    destruct (bs_has_in_flight_batch _); [done|]. injection Hg as <-. split; [done|]. by intros _.
  - pose proof (gate_exec_wp op g IH) as Hw. unfold wp in Hw. rewrite Hex in Hw. simpl in Hw.
    destruct x as [[]|e|p]; simpl in Hw; [naive_solver..|]. destruct Hw as [_ Hw]. by apply Hw, Hx.
Qed.

(** ** What a gate finishes *)
Section Model.
Context (L : list Z → list f32).
Notation Told := (told (model_pick L)).

(** The logits handed to [try_complete_logits] are the model's. *)
Definition model_answers g (op : gate_op) : Prop :=
  match op with
  | GateComplete id logits vocabulary => ∀ b i row r, in_flight (gt_scheduler g) = Some b →
      batch_sequences b !! i = Some row → active (gt_scheduler g) !! row_request_id row = Some r →
      length (rq_history r) ≤ row_context_length row →
      slice (i * vocabulary) ((i + 1) * vocabulary) logits = Some (L (rq_history r))
  | _ => True
  end.

Lemma model_picks s b logits vocabulary selection :
  sched_wf s → in_flight s = Some b →
  (∀ i row r, batch_sequences b !! i = Some row → active s !! row_request_id row = Some r →
     length (rq_history r) ≤ row_context_length row →
     slice (i * vocabulary) ((i + 1) * vocabulary) logits = Some (L (rq_history r))) →
  selected s (chooses s) logits vocabulary 0 (batch_sequences b) (bs_tokens selection) (bs_samplers selection) →
  picks (model_pick L) s b selection.
Proof.
  intros [Hst Hfl] Hb Hm Hsel i row r Hi Hr. rewrite Hb in Hfl. destruct Hfl as ([Hnd _ _ _ _] & _).
  destruct (selected_row _ _ _ _ _ _ _ _ i row r Hsel Hnd Hi Hr) as (token & Ht & Hx). exists token.
  split; [done|]. destruct (samples_token s row) eqn:Es; [|by destruct Hx].
  destruct Hx as (values & next & Hv & (r' & Hr' & Hc) & Hn). simplify_eq. exists next. split; [|done].
  unfold samples_token in Es. rewrite Hr in Es. apply bool_decide_eq_true in Es.
  simpl in Hv. rewrite (Hm i row r Hi Hr Es) in Hv. injection Hv as <-.
  unfold model_pick. by rewrite <- (rw_history _ _ (proj1 (st_request _ Hst _ _ Hr))).
Qed.

Lemma told_committed (log : Log) g id logits vocabulary tokens g' :
  gate_wf g → Told log (gt_scheduler g) → model_answers g (GateComplete id logits vocabulary) →
  committed id logits vocabulary g tokens g' → Told log (gt_scheduler g').
Proof.
  intros Hg Ht Hans [_ (b & selection & Hb & Hid & Hsel & Hc & _) _ _].
  pose proof (select_batch_tokens_spec (gt_scheduler g) id logits vocabulary (proj1 (gw_sched _ Hg))) as Hs. rewrite Hsel in Hs.
  destruct Hs as (b' & Hb' & _ & Hsid & _ & _ & Hs). simplify_eq.
  eapply told_selected; [apply _|apply Hg|done|exact Hb|done| |exact Hs|exact Hc].
  eapply model_picks; [apply (gw_sched _ Hg)|done| |done]. intros i row r. by apply Hans.
Qed.

Lemma void_g_ok {A} (m : GM A) g r g' : void_g m g = (r, g') → ∃ x, m g = (x, g') ∧
  match x with Ok _ => r = Ok tt | Err e => r = Err e | Panic p => r = Panic p end.
Proof. unfold void_g, mbind'. destruct (m g) as [[a|e|p] g1]; intros [= <- <-]; by eexists. Qed.

Lemma wp_run {A} (m : GM A) (Q : res RuntimeError A → FencedBatchScheduler → Prop) g x g' :
  wp m Q g → m g = (x, g') → Q x g'.
Proof. unfold wp. intros Hw Hrun. by rewrite Hrun in Hw. Qed.

Lemma told_submitted (log : Log) s prompt generation sampler id s' :
  sched_wf s → Told log s → submit_with_sampler prompt generation sampler s = (Ok id, s') →
  Told (<[next_request s := (prompt, generation, sampler)]> log) s'.
Proof. intros. by eapply decode_told_submit. Qed.

Lemma launch_follows submit g x g' : gate_wf g → launch submit g = (x, g') →
  (∀ p, x = Panic p → p = Foreign) → ¬ exhausted (gt_scheduler g') →
  follows (gt_scheduler g) (gt_scheduler g').
Proof.
  intros Hg Hrun Hp Hex. pose proof (wp_run _ _ _ _ _ (launch_wp submit g Hg) Hrun) as Hw.
  destruct x as [o|e|p]; simpl in Hw.
  - by destruct Hw as (_ & _ & (_ & _ & _ & ?) & _).
  - destruct Hw as [[-> _]|(_ & [(_ & _ & [(_ & _ & ?)|?])|(_ & _ & b & failure & s1 & (_ & _ & _ & Hf) & _ & _ & Hrec)])];
      [done..|]. destruct (recoverable failure).
    + destruct Hrec as (_ & _ & Hfb). etrans; [done|]. by eapply fail_batch_follows.
    + destruct Hrec as [_ <-]. done.
  - specialize (Hp p eq_refl). subst. destruct Hw as [|(_ & _ & _ & b & _ & _ & _ & _ & ?)]; done.
Qed.

Lemma gate_exec_told (log : Log) op g x g' :
  gate_wf g → Told log (gt_scheduler g) → model_answers g op → gate_exec op g = (x, g') →
  (∀ p, x = Panic p → p = Foreign) → ¬ exhausted (gt_scheduler g') →
  Told (gate_logged g op x log) (gt_scheduler g').
Proof.
  intros Hg Ht Hans Hrun Hp Hex. pose proof (gw_sched _ Hg) as (Hwf & _).
  assert (∀ s, follows (gt_scheduler g) s → Told log s) as Hfollow by (intros s Hs; by eapply told_follows).
  assert (gt_scheduler g' = gt_scheduler g → Told log (gt_scheduler g')) as Hsame by (by intros ->).
  destruct op; simpl in Hrun; try (apply void_g_ok in Hrun as (y & Hrun & Hx)).
  - pose proof (wp_run _ _ _ _ _ (side_gate_wp _ g (side_submit _ _ _) Hg) Hrun) as Hw.
    destruct y as [id|e|p]; subst; simpl in *; [|by subst|by rewrite (Hp p eq_refl) in Hw].
    destruct Hw as (_ & _ & _ & Hs). by eapply told_submitted.
  - pose proof (wp_run _ _ _ _ _ (side_gate_wp _ g (side_submit_sampled _ _) Hg) Hrun) as Hw.
    destruct y as [id|e|p]; subst; simpl in *; [|by subst|by rewrite (Hp p eq_refl) in Hw].
    destruct Hw as (_ & _ & _ & Hs). apply submit_sampled_run in Hs. by eapply told_submitted.
  - assert (∀ p, y = Panic p → p = Foreign) as Hy by (intros p ->; subst; by apply Hp).
    pose proof (Hfollow _ (launch_follows _ _ _ _ Hg Hrun Hy Hex)) as Hf. by destruct x.
  - pose proof (wp_run _ _ _ _ _ (try_complete_wp _ _ _ _ Hg) Hrun) as Hw.
    destruct y as [[|tokens]|e|p]; subst; simpl.
    + apply Hsame. by eapply polled_scheduler.
    + by eapply told_committed.
    + apply Hsame, Hw.
    + specialize (Hp p eq_refl). subst. destruct Hw as [?|[[? _] _]]; [done|by apply Hsame].
  - pose proof (wp_run _ _ _ _ _ (try_rollback_wp _ _ Hg) Hrun) as Hw.
    destruct y as [[|[]]|e|p]; subst; simpl.
    + apply Hsame. by eapply polled_scheduler.
    + destruct Hw as (_ & _ & _ & _ & b & _ & _ & Hfb). apply Hfollow. by eapply fail_batch_follows.
    + apply Hsame. by eapply polled_scheduler.
    + specialize (Hp p eq_refl). subst. destruct Hw as [?|(_ & [? _] & _)]; [done|by apply Hsame].
  - pose proof (wp_run _ _ _ _ _ (side_gate_wp _ g (side_cancel _) Hg) Hrun) as Hw.
    destruct y as [o|e|p]; subst; simpl in *; [|by subst|by rewrite (Hp p eq_refl) in Hw].
    destruct Hw as (_ & _ & _ & Hs). apply Hfollow.
    by eapply (quiet_follows (cancel id) (Cancel id)).
  - pose proof (wp_run _ _ _ _ _ (side_gate_wp _ g (side_limit _) Hg) Hrun) as Hw.
    destruct x as [[]|e|p]; simpl in *; [|by subst|by rewrite (Hp p eq_refl) in Hw].
    destruct Hw as (_ & _ & _ & Hs). apply Hfollow.
    pose proof (exec_follows (SetLimit limit) (gt_scheduler g) Hwf I) as Hq. unfold wp in Hq. simpl in Hq.
    by rewrite Hs in Hq.
  - pose proof (wp_run _ _ _ _ _ (pop_gate_wp g Hg) Hrun) as Hw.
    destruct y as [o|e|p]; subst; simpl in *; [|by subst|by rewrite (Hp p eq_refl) in Hw].
    destruct Hw as (_ & _ & _ & Hs). apply Hfollow. by eapply (quiet_follows pop_finished PopFinished).
Qed.

Lemma gate_reachable_told c k log g : (N.of_nat (max_sequence_length k) ≤ usize_max)%N →
  gate_reachable model_answers c k log g → Told log (gt_scheduler g).
Proof.
  intros Hmax. induction 1 as [s g Hs Hg|log g op x g' Hr IH Hans Hex Hx Hno].
  - unfold new_gate in Hg. destruct (bs_has_in_flight_batch _); [done|]. injection Hg as <-.
    by eapply fresh_decode_told.
  - eapply gate_exec_told; [by eapply gate_reachable_wf|done..].
Qed.

(** Claim C4.  Decoding behind the fence, of a gate made over a new scheduler that does
    not speculate.  With a model whose logits depend only on
    a request's own history, every generation a gate finishes, however its requests
    were queued, chunked, batched with others, cancelled, launched, failed, rolled
    back, polled and replayed, is the one submitted under that id, and its tokens are
    those that decoding that prompt alone gives, draw by draw, with its own sampler. *)
Theorem fenced_batching_equals_single_decoding c k log g f :
  (N.of_nat (max_sequence_length k) ≤ usize_max)%N → gate_reachable model_answers c k log g →
  f ∈ finished (gt_scheduler g) → ∃ generation sampler,
    log !! fg_request_id f = Some (fg_prompt_token_ids f, generation, sampler) ∧
    decode (model_pick L) (list_to_set (eos_token_ids generation)) (max_new_tokens generation)
      (fg_prompt_token_ids f) [] sampler = Ok (fg_generated_token_ids f).
Proof. intros Hmax Hg Hf. by apply (td_finished _ _ _ (gate_reachable_told _ _ _ _ Hmax Hg)). Qed.
End Model.

(** ** Safety *)

(** Every call of a quarantined gate but [pop_finished] is refused. *)
Definition closed_gate g : Prop := ∀ op, op ≠ GatePopFinished →
  ∃ e, kind e = DeviceLost ∧ gate_exec op g = (Err e, g).

Lemma unhealthy_bind {A} (m : GM A) g : gt_quarantined g = true →
  ∃ e, kind e = DeviceLost ∧ (ensure_healthy ;;; m) g = (Err e, g).
Proof.
  intros Hq. unfold ensure_healthy, mbind', mget. rewrite Hq. by eexists (mk_error _ _).
Qed.

Lemma poll_unhealthy id g : gt_quarantined g = true →
  ∃ e, kind e = DeviceLost ∧ poll_fence id g = (Err e, g).
Proof. intros Hq. unfold poll_fence. by apply unhealthy_bind. Qed.

Lemma bind_closed {A B} (m : GM A) (f : A → GM B) g :
  (∃ e, kind e = DeviceLost ∧ m g = (Err e, g)) → ∃ e, kind e = DeviceLost ∧ mbind' m f g = (Err e, g).
Proof. intros (e & He & Hm). exists e. split; [done|]. by apply bind_err. Qed.

Lemma quarantined_closed g : gt_quarantined g = true → closed_gate g.
Proof.
  intros Hq op Hop. destruct op; simpl.
  - by apply bind_closed, unhealthy_bind.
  - by apply bind_closed, unhealthy_bind.
  - by apply bind_closed, unhealthy_bind.
  - by apply bind_closed, bind_closed, poll_unhealthy.
  - by apply bind_closed, bind_closed, poll_unhealthy.
  - by apply bind_closed, unhealthy_bind.
  - by apply unhealthy_bind.
  - done.
Qed.

(** Claim C9.  The gate is safe.  In every gate reachable from a new scheduler the fence tracks exactly
    the batch in flight (a healthy gate without a fence has none), so there is never
    a second batch; a quarantined gate refuses every call but [pop_finished],
    unchanged; no call lifts a quarantine; and no expect, index or division of a call
    fails: it panics only with its own closure, inside a sampler's arithmetic or on
    an exhausted counter, and a panic of the closure leaves the gate well-formed. *)
Theorem fence_gate_is_safe answers c k log g :
  (N.of_nat (max_sequence_length k) ≤ usize_max)%N → gate_reachable answers c k log g →
  tracked g ∧ (gt_quarantined g = true → closed_gate g) ∧
  ∀ op r g', gate_exec op g = (r, g') → gate_after g r g'.
Proof.
  intros Hmax Hreach. pose proof (gate_reachable_wf _ _ _ _ _ Hmax Hreach) as Hg.
  split; [by apply gw_tracked|]. split; [apply quarantined_closed|].
  intros op r g' Hrun. by apply (wp_run _ _ _ _ _ (gate_exec_wp op g Hg) Hrun).
Qed.

(** ** Completion and rollback *)

(** The fence of batch [id] is known to be done, now or since an earlier poll. *)
Definition fence_done (id : N) g : Prop := gt_quarantined g = false ∧ ∃ f c, gt_fence g = Some (id, f, c) ∧
  (c = false → (poll_complete f).1 = FenceDone).

Lemma polled_done id g u g' : polled_as id g (Ok (Ready u)) g' → fence_done id g.
Proof.
  inversion 1 as [| | |f Hq Hf| |f f' Hq Hf Hp| |]; subst; (split; [done|]).
  - by exists f, true.
  - exists f, false. split; [done|]. intros _. by rewrite Hp.
Qed.

Lemma polled_not_done id g r g' : polled_as id g r g' → fence_done id g → r = Ok (Ready tt).
Proof.
  intros Hp (Hq & f & c & Hf & Hc).
  destruct Hp as [| | | |? ? ? Hf' Hp|? ? ? Hf' Hp|? ? ? ? Hf' Hp|? ? ? Hf' Hp]; try congruence;
    rewrite Hf' in Hf; injection Hf as <- <-; rewrite Hp in Hc; by specialize (Hc eq_refl).
Qed.

Lemma polled_ready_done id g u g' : polled_as id g (Ok (Ready u)) g' → fence_done id g'.
Proof. intros [Hq [f Hf]]%polled_ready. split; [done|]. by exists f, true. Qed.

(** The gate stays as it was but for what the poll showed. *)
Definition waiting (id : N) g g' : Prop := gt_scheduler g' = gt_scheduler g ∧ gate_wf g' ∧ ¬ fence_done id g.

Lemma polled_waiting id g r g' : gate_wf g → polled_as id g r g' → r ≠ Ok (Ready tt) → waiting id g g'.
Proof.
  intros Hg Hp Hr. split; [by eapply polled_scheduler|]. split; [by eapply polled_wf|].
  intros Hd. by apply Hr, (polled_not_done _ _ _ _ Hp).
Qed.

(** Claim C29.  Completing and rolling back, in every gate reachable from a new scheduler.
    Nothing is committed or undone before
    the fence of that very batch is done: until then both calls leave the scheduler
    as it is.  Once it is done, [try_complete_logits] commits exactly the selection
    previewed from these logits and releases the fence, or, when the shape is wrong,
    a row is not clean or a sampler refuses, changes nothing of the scheduler and
    stays ready for another try; [try_rollback] always succeeds, with every row back
    where the batch was scheduled from (but for an exhausted counter). *)
Theorem fence_completion_exact answers c k log g id logits vocabulary :
  (N.of_nat (max_sequence_length k) ≤ usize_max)%N → gate_reachable answers c k log g →
  match try_complete_logits id logits vocabulary g with
  | (Ok Pending, g') => waiting id g g'
  | (Ok (Ready tokens), g') => fence_done id g ∧ ∃ b selection,
      in_flight (gt_scheduler g) = Some b ∧ batch_id b = id ∧
      select_batch_tokens (gt_scheduler g) id logits vocabulary = Ok selection ∧
      ¬ unfit (gt_scheduler g) b id logits vocabulary ∧ tokens = bs_tokens selection ∧
      complete_selected_batch selection (gt_scheduler g) = (Ok tokens, gt_scheduler g') ∧
      g' = mk_gate (gt_scheduler g') None false
  | (Err _, g') => waiting id g g' ∨ fence_done id g ∧ gt_scheduler g' = gt_scheduler g ∧ fence_done id g' ∧
      ∃ b, in_flight (gt_scheduler g) = Some b ∧ batch_id b = id ∧ unfit (gt_scheduler g) b id logits vocabulary
  | (Panic p, g') => complete_panic g p g'
  end ∧
  match try_rollback id g with
  | (Ok Pending, g') | (Err _, g') => waiting id g g'
  | (Ok (Ready _), g') => fence_done id g ∧ g' = mk_gate (gt_scheduler g') None false ∧
      ∃ b, in_flight (gt_scheduler g) = Some b ∧ batch_id b = id ∧
        failed_batch (gt_scheduler g) b (gt_scheduler g')
  | (Panic p, g') => p = Overflow ∨ p = Foreign ∧ held_back g g' ∧ gt_quarantined g' = true
  end.
Proof.
  intros Hmax Hreach. pose proof (gate_reachable_wf _ _ _ _ _ Hmax Hreach) as Hg. split.
  - destruct (try_complete_logits id logits vocabulary g) as [r g'] eqn:E.
    pose proof (wp_run _ _ _ _ _ (try_complete_wp id logits vocabulary g Hg) E) as Hw.
    destruct r as [[|tokens]|e|p]; simpl in Hw.
    + by eapply polled_waiting.
    + destruct Hw as [[g1 Hp] (b & selection & ? & ? & ? & Hc & -> & ?) [Hf Hq] _].
      split; [by eapply polled_done|]. exists b, selection. split_and!; try done.
      destruct g'; simpl in *. by subst.
    + destruct Hw as [[? ?] [Hp|[Hp (b & Hb & Hu)]]]; [left; by eapply polled_waiting|right].
      destruct (ready_batch _ _ _ _ Hg Hp) as (b' & Hb' & Hid).
      split; [by eapply polled_done|]. split; [done|]. split; [by eapply polled_ready_done|].
      exists b. split_and!; try done. congruence.
    + done.
  - destruct (try_rollback id g) as [r g'] eqn:E.
    pose proof (wp_run _ _ _ _ _ (try_rollback_wp id g Hg) E) as Hw.
    destruct r as [[|[]]|e|p]; simpl in Hw.
    + by eapply polled_waiting.
    + destruct Hw as ([g1 Hp] & Hf & Hq & _ & Hb). split; [by eapply polled_done|]. split; [|done].
      destruct g'; simpl in *. by subst.
    + by eapply polled_waiting.
    + done.
Qed.
End Gate.
