(* ===== verification/DeviceBatchSpec.v ===== *)
(** * What the device batch executor guarantees

    The contract between the executor and a batched model: [fits] is what every
    batch the executor hands over satisfies for what the cache holds,
    [BatchModelLaws] what the model then does.  The executor keeps the cache and
    the scheduler in step through errors, failed synchronizations and
    cancellations, and what it finishes is what decoding alone gives. *)
From S2P Require Import Prelude Float GenerationControl Generation Sampling SamplingSpec SamplingDraw.
From S2P Require Import PagedKv PagedKvPool PagedKvInv PagedKvOps PagedKvPrefix PagedKvSpec.
From S2P Require Import PagedKvUnshared ContinuousBatch ContinuousBatchInv ContinuousBatchSchedule.
From S2P Require Import ContinuousBatchLoop ContinuousBatchOps ContinuousBatchVerify ContinuousBatchCalls.
From S2P Require Import ContinuousBatchSpec ContinuousBatchModes BatchSampling BatchDecoding.
From S2P Require Import BatchSamplingSpec PlainScheduler DeviceBatch.
Open Scope nat_scope.
Open Scope m_scope.

(** What a cache holds: for each request its tokens and the pages they are in. *)
Notation Contents := (gmap N (list Z * list N)).

Definition tokens_of (known : Contents) (id : RequestId) : list Z := (default ([], []) (known !! id)).1.
Definition pages_of (known : Contents) (id : RequestId) : list N := (default ([], []) (known !! id)).2.

(** A row continues what is held of its request, in pages that start with the ones
    it has, belong to the pool and are nobody else's. *)
Record row_fits_cache (k : PagedKvCacheConfig) (known : Contents) (n : nat) (row : ScheduledSequence) : Prop := {
  rf_width : length (row_token_ids row) = n ∧ 0 < n;
  rf_start : length (tokens_of known (row_request_id row)) = row_start_position row;
  rf_context : row_context_length row = row_start_position row + n;
  rf_limit : row_context_length row ≤ max_sequence_length k;
  rf_table : length (row_block_table row) = div_ceil (row_context_length row) (block_size k);
  rf_distinct : NoDup (row_block_table row);
  rf_pool : ∀ p, p ∈ row_block_table row → N.to_nat p < num_pages k;
  rf_extends : pages_of known (row_request_id row) `prefix_of` row_block_table row;
  rf_alone : ∀ id p, id ≠ row_request_id row → p ∈ row_block_table row → p ∉ pages_of known id
}.

Record fits (k : PagedKvCacheConfig) (known : Contents) (b : ScheduledBatch) : Prop := {
  ft_some : batch_sequences b ≠ [];
  ft_requests : NoDup (map row_request_id (batch_sequences b));
  ft_row : ∀ row, row ∈ batch_sequences b → row_fits_cache k known (next_n b) row;
  ft_apart : ∀ row row' p, row ∈ batch_sequences b → row' ∈ batch_sequences b →
    row_request_id row ≠ row_request_id row' → p ∈ row_block_table row → p ∉ row_block_table row'
}.

(** The cache after a forward: each row's tokens are appended, in its pages. *)
Definition extended (known : Contents) (b : ScheduledBatch) (known' : Contents) : Prop :=
  (∀ row, row ∈ batch_sequences b → known' !! row_request_id row =
     Some (tokens_of known (row_request_id row) ++ row_token_ids row, row_block_table row)) ∧
  ∀ id, id ∉ map row_request_id (batch_sequences b) → known' !! id = known !! id.

Section Held.
Context `{DefaultHasher} `{Exponential, Randomness}.
Notation Sched := (@ContinuousBatchScheduler TokenSampler).
Implicit Types s : Sched.

(** What the scheduler believes a cache to hold of a request. *)
Definition held_of s (id : RequestId) : option (list Z * list N) :=
  r ← active s !! id; v ← stored (kv_cache s) id;
  if decide (v.1 = 0) then None else Some (take v.1 (rq_history r), v.2).

(** The cache holds what the scheduler believes. *)
Definition in_step (known : Contents) s : Prop := ∀ id, known !! id = held_of s id.

Lemma stored_view m id k o : seq_view m id = Some (k, o) → ∃ q, sequences m !! id = Some q ∧
  stored m id = Some (k, take (div_ceil k (block_size (config m))) (pages q)).
Proof.
  unfold seq_view, stored. intros (q & -> & [= -> _])%fmap_Some. by exists q.
Qed.

(** Calls that grow the cache and neither submit nor complete. *)
Lemma held_grows s s' : static_wf s → static_wf s' → kept s s' → cache_grows s s' →
  ∀ id, held_of s' id = held_of s id.
Proof.
  intros Hst Hst' Hk [Hc Hg] id. unfold held_of.
  destruct (active s' !! id) as [r'|] eqn:Hr'; simpl.
  - destruct (kp_active _ _ Hk id r' Hr') as [(p & Hp & Had)|(r & Hr & He)].
    + destruct Had as (<- & _). destruct (st_pending _ Hst p Hp) as (_ & _ & Hn). rewrite Hn. simpl.
      destruct (Hg (pr_id p)) as [E|[_ E]]; rewrite E; simpl; [|done].
      assert (sequences (kv_cache s) !! pr_id p = None) as Hs.
      { apply eq_None_not_Some. rewrite <- (st_dom _ Hst), Hn. by intros []. }
      unfold stored. by rewrite Hs.
    + rewrite Hr. simpl. assert (rq_history r' = rq_history r) as ->
        by (destruct r, r'; unfold set_phase in He; simpl in *; congruence).
      destruct (Hg id) as [->|[E1 E2]]; [done|]. rewrite E1, E2. simpl. done.
  - assert (sequences (kv_cache s') !! id = None) as Hs'.
    { apply eq_None_not_Some. rewrite <- (st_dom _ Hst'), Hr'. by intros []. }
    assert (stored (kv_cache s') id = None) as E' by (unfold stored; by rewrite Hs').
    destruct (Hg id) as [E|[_ E]]; [|congruence]. rewrite <- E, E'. simpl. by destruct (active s !! id).
Qed.

(** Pages of different requests. *)
Lemma pages_apart s id id' q q' p : calm s → sequences (kv_cache s) !! id = Some q →
  sequences (kv_cache s) !! id' = Some q' → id ≠ id' → p ∈ pages q → p ∉ pages q'.
Proof.
  intros [_ [_ _ Ha]] Hq Hq' Hne [i Hi]%list_elem_of_lookup [i' Hi']%list_elem_of_lookup.
  destruct (Ha id i id' i' p); [by eexists..|done].
Qed.

Lemma pages_distinct s id q : calm s → sequences (kv_cache s) !! id = Some q → NoDup (pages q).
Proof.
  intros [_ [_ _ Ha]] Hq. apply NoDup_alt. intros i i' p Hi Hi'. by destruct (Ha id i id i' p); [by eexists..|].
Qed.

(** What a row in flight continues. *)
Lemma row_stored s b row : sched_wf s → in_flight s = Some b → batch_kind b ≠ Verify →
  row ∈ batch_sequences b → ∃ r q, active s !! row_request_id row = Some r ∧
    sequences (kv_cache s) !! row_request_id row = Some q ∧
    stored (kv_cache s) (row_request_id row) =
      Some (row_start_position row, take (div_ceil (row_start_position row) (block_size (config (kv_cache s)))) (pages q)) ∧
    row_block_table row `prefix_of` pages q ∧
    length (row_block_table row) = div_ceil (row_context_length row) (block_size (config (kv_cache s))) ∧
    row_context_length row = row_start_position row + length (row_token_ids row) ∧
    row_context_length row ≤ length (rq_history r) ∧
    row_context_length row ≤ max_sequence_length (config (kv_cache s)) ∧
    take (row_start_position row) (rq_history r) ++ row_token_ids row = take (row_context_length row) (rq_history r).
Proof.
  intros [Hst Hfl] Hb Hk Hin. rewrite Hb in Hfl. destruct Hfl as ([_ _ _ Hrow _] & _).
  destruct (Hrow row Hin) as [Hres (r & Hr & _ & Hfit)].
  pose proof (row_reserved_view _ _ (st_kv _ Hst) Hres) as Hv.
  destruct (stored_view _ _ _ _ Hv) as (q & Hq & Hs).
  destruct Hres as (rs & q' & Hrs & Hid & Hstart & Hcount & Hctx & Hq' & Hpre & Hlen). simplify_eq.
  pose proof (fits_context _ _ _ Hfit Hk Hctx) as Hle.
  destruct (lk_res _ _ _ _ _ (bw_link _ (proj2 (st_kv _ Hst))) _ _ Hrs) as (_ & q1 & _ & _ & _ & _ & _ & Hmx & _).
  exists r, q'. split_and!; try done; [lia|].
  destruct Hfit as [_ Hfit]. destruct (batch_kind b); [| |done].
  - unfold slice in Hfit. case_decide; [|done]. injection Hfit as Htok.
    rewrite <- Htok, take_take_drop. f_equal. lia.
  - destruct Hfit as (Hlen1 & token & Htok & [l Hl]%last_Some).
    rewrite Hctx, Htok. rewrite Hl in *. rewrite length_app in Hlen1. simpl in *.
    rewrite take_app_length' by lia. by rewrite take_ge by (rewrite length_app; simpl; lia).
Qed.

(** With what the cache holds, a row is the history up to its context. *)
Lemma row_tokens known s b row r : sched_wf s → in_flight s = Some b → batch_kind b ≠ Verify → in_step known s →
  row ∈ batch_sequences b → active s !! row_request_id row = Some r →
  tokens_of known (row_request_id row) ++ row_token_ids row = take (row_context_length row) (rq_history r) ∧
  row_context_length row ≤ length (rq_history r).
Proof.
  intros Hwf Hb Hk Hstep Hin Hr.
  destruct (row_stored s b row Hwf Hb Hk Hin) as (r' & q & Hr' & _ & Hs & _ & _ & _ & Hle & _ & Htake). simplify_eq.
  split; [|done]. rewrite <- Htake. f_equal. unfold tokens_of. rewrite Hstep. unfold held_of. rewrite Hr, Hs.
  cbn [mbind option_bind fst snd]. case_decide as E; simpl; [by rewrite E|done].
Qed.

(** Every batch a calm scheduler has in flight fits a cache in step with it. *)
Lemma batch_fits known s b : sched_wf s → calm s → in_flight s = Some b → batch_kind b ≠ Verify →
  in_step known s → fits (config (kv_cache s)) known b.
Proof.
  intros Hwf Hcalm Hb Hk Hstep. pose proof Hwf as [Hst Hfl]. rewrite Hb in Hfl.
  destruct Hfl as ([Hnd Hw _ Hrow _] & Hne & _).
  split; [done|done| |].
  - intros row Hin.
    destruct (row_stored s b row Hwf Hb Hk Hin) as (r & q & Hr & Hq & Hs & Hpre & Hlen & Hctx & Hle & Hmx & _).
    destruct (Hrow row Hin) as [_ (_ & _ & _ & [Hnil _])].
    assert (0 < next_n b) as Hn by (rewrite <- (Hw row Hin); destruct (row_token_ids row); [done|simpl; lia]).
    assert (known !! row_request_id row = if decide (row_start_position row = 0) then None else
      Some (take (row_start_position row) (rq_history r),
            take (div_ceil (row_start_position row) (block_size (config (kv_cache s)))) (pages q))) as Hkn.
    { rewrite Hstep. unfold held_of. by rewrite Hr, Hs. }
    rewrite (Hw row Hin) in Hctx.
    split; try done.
    + split; [by apply Hw|done].
    + unfold tokens_of. rewrite Hkn. case_decide as E; simpl; [done|]. rewrite length_take. lia.
    + pose proof (pages_distinct _ _ _ Hcalm Hq) as Hd. destruct Hpre as [l Hl]. rewrite Hl in Hd.
      by apply NoDup_app in Hd as [? _].
    + intros p Hp. apply (pw_range _ _ (proj1 (st_kv _ Hst))). rewrite app_nil_r. apply elem_of_held.
      exists (row_request_id row), q. split; [done|]. destruct Hpre as [l ->]. apply elem_of_app. by left.
    + unfold pages_of. rewrite Hkn. case_decide as E; simpl; [apply prefix_nil|].
      destruct Hpre as [l Hl]. rewrite Hl, take_app_le; [apply prefix_take|]. rewrite Hlen.
      apply div_ceil_mono; [apply (bw_bs _ (proj2 (st_kv _ Hst)))|lia].
    + clear Hkn. intros id p Hid Hp. unfold pages_of. rewrite Hstep. unfold held_of.
      destruct (active s !! id) as [r'|] eqn:Hr'; simpl; [|by apply not_elem_of_nil].
      destruct (static_sequence _ _ _ Hst Hr') as [q' Hq']. unfold stored. rewrite Hq'. simpl.
      case_decide; simpl; [by apply not_elem_of_nil|]. intros Hp'.
      apply (pages_apart s _ id q q' p Hcalm Hq Hq'); [done|..].
      * destruct Hpre as [l ->]. apply elem_of_app. by left.
      * apply list_elem_of_lookup in Hp' as [i [Hi _]%lookup_take_Some]. by eapply list_elem_of_lookup_2.
  - intros row row' p Hin Hin' Hne' Hp Hp'.
    destruct (row_stored s b row Hwf Hb Hk Hin) as (r & q & Hr & Hq & _ & [l Hl] & _).
    destruct (row_stored s b row' Hwf Hb Hk Hin') as (r' & q' & Hr' & Hq' & _ & [l' Hl'] & _).
    apply (pages_apart s _ _ q q' p Hcalm Hq Hq'); [done|..];
      [rewrite Hl|rewrite Hl']; apply elem_of_app; by left.
Qed.
(** A sequence at rest has exactly the pages of its committed tokens. *)
Lemma resting_stored m id k : kv_wf m → seq_view m id = Some (k, None) →
  ∃ q, sequences m !! id = Some q ∧ stored m id = Some (k, pages q) ∧
    length (pages q) = div_ceil k (block_size (config m)).
Proof.
  intros [_ Hb] (q & Hq & [= -> Hp])%fmap_Some. exists q. split; [done|].
  destruct (lk_seq _ _ _ _ _ (bw_link _ Hb) _ _ Hq) as [[_ Hl]|(rid & r & Hr & _)]; [|congruence].
  split; [|done]. unfold stored. rewrite Hq. simpl. by rewrite take_ge by lia.
Qed.

Lemma prefix_same_length {A} (l1 l2 l : list A) :
  l1 `prefix_of` l → l2 `prefix_of` l → length l1 = length l2 → l1 = l2.
Proof.
  intros [x1 E1] [x2 E2] Hl. rewrite E1 in E2. by apply app_inj_1 in E2 as [? _].
Qed.

Lemma with_sampler_history o (r : @ActiveRequest TokenSampler) : rq_history (with_sampler o r) = rq_history r.
Proof. by destruct o. Qed.

(** A landed row's history starts as before. *)
Lemma outcome_history (r r' : @ActiveRequest TokenSampler) row token n : (outcome r row token).1 = Some r' → n ≤ length (rq_history r) →
  take n (rq_history r') = take n (rq_history r).
Proof.
  unfold outcome, landing. intros Ho Hn. case_decide; [by injection Ho as <-|].
  destruct (_ || _); [done|]. injection Ho as <-. simpl. by rewrite take_app_le.
Qed.

(** A sequence that only lost pages it does not need keeps what it stores. *)
Lemma same_stored m m' id : kv_wf m → kv_wf m' → shrinks m m' → seq_view m' id = seq_view m id →
  stored m' id = stored m id.
Proof.
  intros [_ Hb] [_ Hb'] [Hc Hsh] Hv.
  assert (∀ m q, book_wf m → sequences m !! id = Some q →
    div_ceil (committed_tokens q) (block_size (config m)) ≤ length (pages q)) as Henough.
  { clear. intros m q Hb Hq. destruct (lk_seq _ _ _ _ _ (bw_link _ Hb) _ _ Hq) as [[_ ->]|(rid & r & _ & Hr & <-)]; [done|].
    destruct (lk_res _ _ _ _ _ (bw_link _ Hb) _ _ Hr) as (_ & q' & Hq' & _ & Hk & _ & _ & _ & Hl).
    assert (q' = q) as -> by congruence. rewrite Hl, Hk. apply div_ceil_mono; [apply (bw_bs _ Hb)|lia]. }
  unfold stored, seq_view in *. destruct (sequences m' !! id) as [q'|] eqn:Hq'; destruct (sequences m !! id) as [q|] eqn:Hq;
    simpl in *; try done.
  injection Hv as Hk _. destruct (Hsh _ _ Hq') as (q0 & Hq0 & [l Hl]). simplify_eq.
  pose proof (Henough m' q' Hb' Hq'). rewrite Hl, Hk, Hc in *. by rewrite take_app_le.
Qed.

(** Completing a batch: what the model appended is what the scheduler now believes. *)
Lemma held_completed known known' s b tokens s1 act (f : RequestId → option TokenSampler) :
  sched_wf s → calm s → in_flight s = Some b → batch_kind b ≠ Verify → length tokens = length (batch_sequences b) →
  in_step known s → extended known b known' →
  completed (set_in_flight None s) (batch_sequences b) tokens s1 →
  (∀ id, act !! id = with_sampler (f id) <$> active s1 !! id) →
  sched_wf (set_active act s1) → cache_shrinks s (set_active act s1) →
  ∀ id, held_of (set_active act s1) id =
    if contains_sequence (kv_cache (set_active act s1)) id then known' !! id else None.
Proof.
  intros Hwf Hcalm Hb Hk Hlen Hstep [Hrows Hothers] [Hse _ Hrow Hrest _ Hview] Hact Hwf' [Hc Hsh] id.
  pose proof (sw_static _ Hwf) as Hst. pose proof (sw_static _ Hwf') as Hst'.
  assert (kv_wf (kv_cache s1)) as Hkv1 by exact (st_kv _ Hst').
  unfold contains_sequence. simpl in *. destruct (active s1 !! id) as [r1|] eqn:Hr1.
  2:{ assert (act !! id = None) as Hn by (by rewrite Hact, Hr1).
      rewrite bool_decide_eq_false_2; [unfold held_of; simpl; by rewrite Hn|].
      rewrite <- (st_dom _ Hst'). simpl. rewrite Hn. by intros []. }
  assert (act !! id = Some (with_sampler (f id) r1)) as Ha by (by rewrite Hact, Hr1).
  assert (is_Some (sequences (kv_cache s1) !! id)) as Hseq.
  { apply (st_dom _ Hst' id). simpl. rewrite Ha. by eexists. }
  rewrite bool_decide_eq_true_2 by done. unfold held_of. simpl. rewrite Ha. simpl. rewrite with_sampler_history.
  destruct (decide (id ∈ map row_request_id (batch_sequences b))) as [Hin|Hin].
  - apply list_elem_of_fmap in Hin as (row & -> & Hin).
    destruct (row_stored s b row Hwf Hb Hk Hin) as (r & q & Hr & Hq & Hs & Hpre & Htab & Hctx & Hle & _ & Htake).
    apply list_elem_of_lookup in Hin as Hi. destruct Hi as [i Hi].
    destruct (lookup_lt_is_Some_2 tokens i) as [token Ht].
    { rewrite Hlen. by eapply lookup_lt_Some. }
    rewrite (Hrow i row token r Hi Ht Hr) in Hr1.
    rewrite Hrows by done.
    destruct (resting_stored _ _ _ Hkv1 (Hview row Hin r1 ltac:(by rewrite (Hrow i row token r Hi Ht Hr))))
      as (q' & Hq' & -> & Hl').
    destruct (Hsh _ _ Hq') as (q0 & Hq0 & Hpre'). simplify_eq.
    assert (pages q' = row_block_table row) as ->
      by (eapply prefix_same_length; [done|done|]; by rewrite Hl', Htab, Hc).
    assert (row_token_ids row ≠ []) as Hne.
    { pose proof (sw_flight _ Hwf) as Hfl. rewrite Hb in Hfl. destruct Hfl as ([_ _ _ Hx _] & _).
      by destruct (Hx row Hin) as [_ (_ & _ & _ & [? _])]. }
    cbn [mbind option_bind fst snd]. rewrite decide_False by (destruct (row_token_ids row); [done|simpl in *; lia]).
    rewrite (outcome_history r r1 row token _ Hr1 Hle).
    by rewrite (proj1 (row_tokens known s b row r Hwf Hb Hk Hstep Hin Hr)).
  - destruct (Hrest id Hin) as [Ha1 Hv1]. simpl in *. rewrite Hr1 in Ha1.
    rewrite Hothers by done. rewrite Hstep. unfold held_of. rewrite <- Ha1. simpl.
    rewrite (same_stored (kv_cache s) (kv_cache s1) id (st_kv _ Hst) Hkv1 (conj Hc Hsh) Hv1). done.
Qed.

(** A scheduler call between steps. *)
Lemma held_cancelled s id c s' : sched_wf s → cancelled s id c s' → cache_shrinks s s' → ∀ i,
  held_of s' i = if contains_sequence (kv_cache s') i then held_of s i else None.
Proof.
  intros Hwf Hcn Hsh i. pose proof (sw_static _ Hwf) as Hst. pose proof (sw_static _ (cn_wf _ _ _ _ Hcn)) as Hst'.
  unfold contains_sequence, held_of. destruct (decide (i = id)) as [->|Hi].
  - destruct (cn_gone _ _ _ _ Hcn) as [-> Hs]. rewrite bool_decide_eq_false_2; [done|]. rewrite Hs. by intros [].
  - destruct (cn_rest _ _ _ _ Hcn i Hi) as [Ha Hv]. rewrite Ha.
    rewrite (same_stored (kv_cache s) _ i (st_kv _ Hst) (st_kv _ Hst') Hsh Hv).
    case_bool_decide as Hd; [done|]. rewrite <- (st_dom _ Hst'), Ha in Hd.
    destruct (active s !! i); [destruct Hd; by eexists|done].
Qed.
End Held.

(** ** The model's side of the contract

    What the executor relies on of a batched model whose logits for a row are those
    of the row's whole history, [L]: forks are independent copies, a forward of
    rows that fit appends them, [retain_batch_cache] drops the requests the
    scheduler no longer has and no others; a call that panics does so in the
    device's own code.  The remaining methods are the trait's defaults. *)
Class BatchModelLaws `{DeviceBatchModel} (k : PagedKvCacheConfig) (L : list Z → list f32) := {
  contents : BatchCache → Contents;
  contents_new : contents (new_batch_cache k) = ∅;
  contents_fork c : contents (fork_batch_cache c) = contents c;
  contents_retain c s id : contents (retain_batch_cache c s) !! id =
    if contains_sequence (kv_cache s) id then contents c !! id else None;
  forward_law b d c sampling : fits k (contents c) b →
    match forward_batch_sampling b ∅ d c sampling with
    | (Ok logits, (_, c', sampling')) => sampling' = sampling ∧ extended (contents c) b (contents c') ∧
        ∀ values i row, tensor_dims logits = [batch_size b; 1; vocab_size batch_limits] →
          tensor_values logits = Ok values → batch_sequences b !! i = Some row →
          slice (i * vocab_size batch_limits) ((i + 1) * vocab_size batch_limits) values =
            Some (L (tokens_of (contents c) (row_request_id row) ++ row_token_ids row))
    | (Err _, _) => True
    | (Panic p, _) => p = Foreign
    end;
  values_law t p : tensor_values t = Panic p → p = Foreign;
  sync_law d p : (sync_batch d).1 = Panic p → p = Foreign;
  no_lookahead : lookahead_tokens = 0;
  select_law id values sampler c :
    select_batch_token id values sampler c = (default_select_token values sampler, c)
}.

Section Executor.
Context `{DeviceBatchModel} (k : PagedKvCacheConfig) (L : list Z → list f32) `{!BatchModelLaws k L}.
Notation Sched := (@ContinuousBatchScheduler TokenSampler).
Notation Choice := (res ContinuousBatchError (Z * option TokenSampler)).
Implicit Types s : Sched.
Implicit Types x : DeviceBatchExecutor.

(** The default selection samples without a history. *)
Lemma default_select_choice values sampler : default_select_token values sampler = choice values [] [] sampler.
Proof. by destruct sampler. Qed.

(** Decoding one request on this executor. *)
Definition device_pick (prompt gen : list Z) (sampler : option TokenSampler) : Choice :=
  choice (L (prompt ++ gen)) [] [] sampler.

#[export] Instance device_picking : Picking device_pick.
Proof. split; intros ???; [intros ?; apply choice_same|intros ?; apply choice_ok]. Qed.

(** A token drawn from a row's logits. *)
Definition drawn s (id : RequestId) (values : list f32) (sampler : option TokenSampler) (token : Z)
    (next : option TokenSampler) : Prop :=
  is_Some (active s !! id) ∧ choice values [] [] sampler = Ok (token, next).

(** ** The invariant *)
Record exec_wf x : Prop := {
  xw_sched : plain_sched (ex_scheduler x);
  xw_calm : calm (ex_scheduler x);
  xw_config : config (kv_cache (ex_scheduler x)) = k;
  xw_held : in_step (contents (ex_cache x)) (ex_scheduler x)
}.

Lemma plain_static s : plain_sched s → static_wf s.
Proof. intros (Hwf & _). by apply sw_static. Qed.

(** A call of the scheduler that grows the cache. *)
Lemma exec_grown x s : exec_wf x → plain_sched s → follows (ex_scheduler x) s → calm s →
  cache_grows (ex_scheduler x) s → exec_wf (set_ex_scheduler s x).
Proof.
  intros [Hs Hc Hk Hh] Hs' [Hf _] Hc' Hg. split; simpl; [done|done|by rewrite (proj1 Hg)|].
  intros id. rewrite Hh. symmetry. apply held_grows; by eauto using plain_static.
Qed.

Lemma exec_fits x b : exec_wf x → in_flight (ex_scheduler x) = Some b → fits k (contents (ex_cache x)) b.
Proof.
  intros [(Hwf & _ & Hnv) Hc <- Hh] Hb. by apply batch_fits; auto.
Qed.

(** [retain_batch_cache] after a call that leaves the rest of the cache alone. *)
Lemma exec_retained x s c : plain_sched s → calm s → config (kv_cache s) = k →
  (∀ id, held_of s id = if contains_sequence (kv_cache s) id then contents c !! id else None) →
  exec_wf (set_ex_cache (retain_batch_cache c s) (set_ex_scheduler s x)).
Proof. intros Hs Hc Hk Hh. split; simpl; [done..|]. intros id. by rewrite contents_retain, Hh. Qed.

Lemma sparing_selected selection : keeping calm cache_shrinks (complete_selected_batch selection).
Proof.
  unfold complete_selected_batch. keep; [apply sparing_complete|]. apply (keeping_for _ _). intros e.
  apply sparing_modify. by intros [].
Qed.

(** ** A step *)
Section Step.
Context {P : Type}.
Notation State := (DeviceBatchExecutor * P)%type.
Notation Processor := (option (RequestId → list f32 → P → Gen (list f32) * P)).
Notation Observer := (option (ScheduledBatch → BatchCache → BatchTensor → P → P)).

(** A step that returned. *)
Definition step_done (processor : Processor) x (o : option ExecutedBatch) x' : Prop :=
  exec_wf x' ∧ in_flight (ex_scheduler x') = None ∧
  match o with
  | None => batch_built (ex_scheduler x) None (ex_scheduler x') ∧ ex_cache x' = ex_cache x
  | Some e => ∃ s values selection,
      batch_built (ex_scheduler x) (Some (eb_batch e)) s ∧ fits k (contents (ex_cache x)) (eb_batch e) ∧
      bs_batch_id selection = batch_id (eb_batch e) ∧
      selected s (drawn s) values (vocab_size batch_limits) 0 (batch_sequences (eb_batch e))
        (bs_tokens selection) (bs_samplers selection) ∧
      complete_selected_batch selection s = (Ok (eb_generated_token_ids e), ex_scheduler x') ∧
      (processor = None → ∀ i row r, batch_sequences (eb_batch e) !! i = Some row →
         active s !! row_request_id row = Some r →
         slice (i * vocab_size batch_limits) ((i + 1) * vocab_size batch_limits) values =
           Some (L (take (row_context_length row) (rq_history r))))
  end.

(** The forward of a step: [b] is scheduled into [s], and the device is at [d] when
    the model has handed back its logits, read as [read]. *)
Definition forward_of x b s (read : Gen (BatchTensor * list f32)) (d : BatchDevice) : Prop :=
  schedule (ex_scheduler x) = (Ok (Some b), s) ∧ ∃ state out working state',
    batch_sampling_state s (batch_id b) = Ok state ∧
    forward_batch_sampling b ∅ (ex_device x) (fork_batch_cache (ex_cache x)) state = (out, (d, working, state')) ∧
    read = read_logits b out.

(** The synchronizations after a forward, and where they leave the device: a second
    one follows the observer. *)
Definition syncs (observer : Observer) (read : Gen (BatchTensor * list f32)) (d : BatchDevice) :
    Gen unit * BatchDevice :=
  match (sync_batch d).1, observer, read with
  | Ok _, Some _, Ok _ => sync_batch (sync_batch d).2
  | _, _, _ => sync_batch d
  end.

(** What an error leaves: a step that scheduled nothing, a batch rolled back after the
    device was done with it, or, when a synchronization failed, the batch in flight. *)
Inductive step_failed (observer : Observer) x x' : Prop :=
| sf_refused e : schedule (ex_scheduler x) = (Err e, ex_scheduler x') → ex_device x' = ex_device x →
    in_flight (ex_scheduler x') = in_flight (ex_scheduler x) →
    follows (ex_scheduler x) (ex_scheduler x') → step_failed observer x x'
| sf_rolled_back b s read d : forward_of x b s read d → syncs observer read d = (Ok tt, ex_device x') →
    batch_built (ex_scheduler x) (Some b) s → failed_batch s b (ex_scheduler x') → step_failed observer x x'
| sf_unsynced b read d e : forward_of x b (ex_scheduler x') read d →
    syncs observer read d = (Err e, ex_device x') →
    batch_built (ex_scheduler x) (Some b) (ex_scheduler x') → step_failed observer x x'.

Definition step_error (observer : Observer) x x' : Prop := ex_cache x' = ex_cache x ∧
  (exec_wf x' ∧ step_failed observer x x' ∨
   exhausted (ex_scheduler x') ∧ ∃ e, schedule (ex_scheduler x) = (Err e, ex_scheduler x')).

(** The panics of a step: the device's, a sampler's, the processor's, a counter's. *)
Definition step_panic (processor : Processor) (p : panic) : Prop :=
  p = Overflow ∨ p = Foreign ∨ (∃ values sampler, choice values [] [] sampler = Panic p) ∨
  ∃ process, processor = Some process ∧
    (p = DivByZero ∧ vocab_size batch_limits = 0 ∨ ∃ id row c, (process id row c).1 = Panic p).

Definition step_outcome (processor : Processor) (observer : Observer) x (r : res ContinuousBatchError (option ExecutedBatch)) x' : Prop :=
  match r with
  | Ok o => step_done processor x o x'
  | Err _ => step_error observer x x'
  | Panic p => step_panic processor p
  end.

Lemma on_scheduler_wp {A} (m : M Sched ContinuousBatchError A) (Q : res ContinuousBatchError A → State → Prop) st :
  wp m (λ r s, Q r (set_ex_scheduler s st.1, st.2)) (ex_scheduler st.1) → wp (on_scheduler m) Q st.
Proof. unfold wp, on_scheduler. by destruct (m (ex_scheduler st.1)). Qed.

(** While batch [b], scheduled from [x] into [s], runs, the device being at [d]. *)
Record running x b s (d : BatchDevice) (st : State) : Prop := {
  rn_wf : exec_wf st.1;
  rn_scheduler : ex_scheduler st.1 = s;
  rn_cache : ex_cache st.1 = ex_cache x;
  rn_device : ex_device st.1 = d;
  rn_built : batch_built (ex_scheduler x) (Some b) s
}.

Lemma running_device x b s d st d' : running x b s d st → running x b s d' (set_ex_device d' st.1, st.2).
Proof. intros [[? ? ? ?] ? ? ? ?]. split; [by split|done..]. Qed.

Lemma running_caller x b s d st c : running x b s d st → running x b s d (st.1, c).
Proof. by intros []. Qed.

(** The device is done with the batch. *)
Definition synced (observer : Observer) x b s (d : BatchDevice) : Prop := ∃ read d0,
  forward_of x b s read d0 ∧ syncs observer read d0 = (Ok tt, d).

Lemma fail_with_wp {A} observer x b s d st e : running x b s d st → synced observer x b s d →
  wp (fail_with b e) (λ (r : res _ A) st', match r with Ok _ => False | Err _ => step_error observer x st'.1
    | Panic p => p = Overflow end) st.
Proof.
  intros [Hwf Hs Hc Hd Hb] (read & d0 & Hfwd & Hsync). unfold fail_with. wp_step. apply on_scheduler_wp.
  assert (in_flight (ex_scheduler st.1) = Some b) as Hf by (by rewrite Hs; apply Hb).
  eapply wp_mono; [eapply (keeping_post calm cache_grows);
    [apply gentle_fail|apply (xw_calm _ Hwf)|by apply fail_plain_wp; [apply (xw_sched _ Hwf)|]]|].
  intros [[]|e'|p] s'; simpl; [|by intros [[] _]|done]. intros ((Hpl & Hfb) & Hcalm & Hg). wp_step.
  split; [done|]. left. split.
  - apply exec_grown; [done|done|by eapply fail_batch_follows|done..].
  - eapply sf_rolled_back; [exact Hfwd|by rewrite Hsync, <- Hd|done|by rewrite Hs in Hfb].
Qed.

Lemma sync_executor_wp x b s d st what : running x b s d st →
  wp (sync_executor what) (λ r st', let st'' := sync_batch d in running x b s st''.2 st' ∧
    match r with
    | Ok _ => st''.1 = Ok tt
    | Err _ => ∃ e, st''.1 = Err e
    | Panic p => p = Foreign
    end) st.
Proof.
  intros Hr. unfold sync_executor. do 2 wp_step. unfold modify_executor. do 2 wp_step.
  rewrite (rn_device _ _ _ _ _ Hr). pose proof (sync_law d) as Hlaw.
  destruct (sync_batch d) as [[[]|e|p] d']; simpl.
  - apply wp_ret. split; [by eapply running_device|done].
  - apply wp_throw. split; [by eapply running_device|by eexists].
  - apply wp_panic. split; [by eapply running_device|by apply Hlaw].
Qed.

(** An error of a synchronization keeps the batch in flight. *)
Lemma unsynced_error observer x b s read d d' e st : running x b s d' st → forward_of x b s read d →
  syncs observer read d = (Err e, d') → step_error observer x st.1.
Proof.
  intros [Hwf Hs Hc Hd Hb] Hf Hsync. split; [done|]. left. split; [done|]. subst s d'.
  by eapply sf_unsynced.
Qed.

(** The synchronizations of a step; the observer only looks. *)
Lemma syncs_wp x b s d (observer : Observer) working (read : Gen (BatchTensor * list f32)) st :
  running x b s d st → forward_of x b s read d →
  wp (sync_executor "batch completion: " ;;;
      match observer, read with
      | Some observe, Ok (logits, _) =>
          mmodify (λ st, (st.1, observe b working logits st.2)) ;;;
          sync_executor "batch prefix completion: "
      | _, _ => mret tt
      end) (λ r st', match r with
    | Ok _ => ∃ d', running x b s d' st' ∧ synced observer x b s d'
    | Err _ => step_error observer x st'.1
    | Panic p => p = Foreign
    end) st.
Proof.
  intros Hr Hf. wp_step. eapply wp_mono; [by apply sync_executor_wp|]. cbv zeta.
  destruct (sync_batch d) as [o d1] eqn:E. simpl. intros [[]|e|p] st1 [Hr1 Ho]; simpl; [| |exact Ho].
  2:{ destruct Ho as [e' ->]. eapply unsynced_error; [exact Hr1|exact Hf|]. unfold syncs. by rewrite E. }
  subst o. assert (∀ d', syncs observer read d = (Ok tt, d') → synced observer x b s d') as Hsync by (by intros; exists read, d).
  unfold syncs in Hsync. rewrite E in Hsync. simpl in Hsync.
  destruct observer as [observe|]; [|apply wp_ret; by eauto].
  destruct read as [[logits values]|e|p]; [|apply wp_ret; by eauto..].
  wp_step. apply wp_modify. eapply wp_mono; [eapply sync_executor_wp; by apply running_caller|]. cbv zeta.
  intros [[]|e|p] st2 [Hr2 Ho]; [eexists; split; [exact Hr2|]| |exact Ho].
  - apply Hsync. by destruct (sync_batch d1) as [? ?]; simpl in Ho; subst.
  - destruct Ho as [e' He']. eapply unsynced_error; [exact Hr2|exact Hf|]. unfold syncs. rewrite E. simpl.
    by destruct (sync_batch d1) as [? ?]; simpl in He'; subst.
Qed.

Lemma running_active x b s d st row : running x b s d st → row ∈ batch_sequences b →
  is_Some (active (ex_scheduler st.1) !! row_request_id row).
Proof.
  intros [Hwf Hs _ _ Hb] Hin. pose proof (proj1 (xw_sched _ Hwf)) as [_ Hfl]. rewrite Hs in *.
  destruct Hb as (_ & Hb & _). rewrite Hb in Hfl. destruct Hfl as ([_ _ _ Hrow _] & _).
  destruct (Hrow row Hin) as [_ (r & Hr & _)]. by exists r.
Qed.

(** The executor is unchanged, whatever the processor does. *)
Definition still_running x b s d {A} (QOk : A → Prop) (bad : panic → Prop) (r : res ContinuousBatchError A) (st : State) : Prop :=
  match r with
  | Ok a => running x b s d st ∧ QOk a
  | Err _ => running x b s d st
  | Panic p => bad p
  end.

Lemma process_rows_wp x b s d process vocabulary rows values st :
  running x b s d st → (∀ row, row ∈ rows → row ∈ batch_sequences b) →
  wp (process_rows process vocabulary rows values)
    (still_running x b s d (λ _, True) (λ p, ∃ id row c, (process id row c).1 = Panic p)) st.
Proof.
  revert values st. induction rows as [|row rows IH]; intros values st Hr Hrows; simpl; [by apply wp_ret|].
  case_decide; [by apply wp_ret|]. do 2 wp_step. wp_step. unfold mexpect.
  destruct (running_active _ _ _ _ _ row Hr) as [r ->]; [apply Hrows; by left|]. apply wp_ret.
  assert (∀ (row' : list f32) st', running x b s d st' →
    wp (let! more := process_rows process vocabulary rows (drop vocabulary values) in mret (row' ++ more))
      (still_running x b s d (λ _, True) (λ p, ∃ id row c, (process id row c).1 = Panic p)) st') as Hrest.
  { intros row' st' Hr'. wp_step. eapply wp_mono; [apply IH; [done|intros; apply Hrows; by right]|].
    intros [more|e|p] st''; simpl; [intros [? _]; by apply wp_ret|done..]. }
  wp_step. case_decide; [apply wp_ret; by apply Hrest|]. do 2 wp_step.
  destruct (process _ _ _) as [[row'|e|p] c] eqn:Ep; simpl.
  - apply wp_ret. by apply Hrest, running_caller.
  - apply wp_throw. by apply running_caller.
  - apply wp_panic. do 3 eexists. by rewrite Ep.
Qed.

Lemma run_processor_wp x b s d (processor : Processor) values st : running x b s d st →
  wp (run_processor processor b values)
    (still_running x b s d (λ values', processor = None → values' = values) (step_panic processor)) st.
Proof.
  intros Hr. unfold run_processor. destruct processor as [process|]; [|by apply wp_ret].
  case_decide as Hv.
  - apply wp_panic. do 3 right. exists process. split; [done|]. by left.
  - eapply wp_mono; [by apply process_rows_wp|]. intros [v|e|p] st'; simpl; [by intros [? _]|done|].
    intros Hp. do 3 right. exists process. split; [done|]. by right.
Qed.

(** The selection is the rows' own draws; the working cache stays. *)
Lemma select_tokens_wp x b s d values state working st : running x b s d st →
  owned s (batch_id b) (batch_sequences b) state →
  wp (select_tokens b values state working)
    (still_running x b s d (λ out, out.2 = working ∧ bs_batch_id out.1 = batch_id b ∧
        selected s (drawn s) values (vocab_size batch_limits) 0 (batch_sequences b)
          (bs_tokens out.1) (bs_samplers out.1))
      (λ p, ∃ values sampler, choice values [] [] sampler = Panic p)) st.
Proof.
  intros Hr Hown. unfold select_tokens. do 2 wp_step. cbv zeta. rewrite (rn_scheduler _ _ _ _ _ Hr).
  pose proof (select_batch_wp select_batch_token (drawn s) (λ c, c = working)
    (λ p, ∃ values sampler, choice values [] [] sampler = Panic p) s b state values (vocab_size batch_limits) working) as Hw.
  unfold wp in Hw.
  assert (in_flight s = Some b) as Hb by apply (rn_built _ _ _ _ _ Hr).
  destruct (select_batch_tokens_with _ _ _ _ _ _ _) as [[selection|e|p] c]; simpl in *.
  all: specialize (Hw (λ i r v sampler c Hi Hc, ltac:(rewrite select_law, default_select_choice;
    destruct (choice v [] [] sampler) as [out|e'|p'] eqn:Ec;
      [split; [split; [by eexists|by destruct out]|done]|done|by do 2 eexists])) Hb Hown eq_refl).
  - wp_step. apply wp_ret. apply wp_ret. destruct Hw as [(? & _ & _ & ?) ->]. by split.
  - wp_step. by apply wp_throw.
  - wp_step. by apply wp_panic.
Qed.

(** Installing the working cache with the tokens. *)
Lemma install_wp x b s d st selection working values :
  running x b s d st → extended (contents (ex_cache x)) b (contents working) → bs_batch_id selection = batch_id b →
  selected s (drawn s) values (vocab_size batch_limits) 0 (batch_sequences b) (bs_tokens selection) (bs_samplers selection) →
  wp (let! generated := on_scheduler (complete_selected_batch selection) in
      modify_executor (λ x, set_ex_cache (retain_batch_cache working (ex_scheduler x)) x) ;;;
      mret (Some (mk_executed b generated)))
    (λ r st', match r with
      | Ok o => ∃ generated, o = Some (mk_executed b generated) ∧ exec_wf st'.1 ∧ in_flight (ex_scheduler st'.1) = None ∧
          complete_selected_batch selection s = (Ok generated, ex_scheduler st'.1)
      | Err _ => False
      | Panic p => p = Overflow
      end) st.
Proof.
  intros [Hwf Hs Hc _ Hb] Hext Hid Hsel. rewrite <- Hs in Hsel, Hb |- *. clear Hs s.
  pose proof Hb as (Hpl & Hf & _). pose proof Hpl as (Hswf & _ & Hnv).
  pose proof (sw_flight _ Hswf) as Hfl. rewrite Hf in Hfl. destruct Hfl as ([Hnd _ _ _ _] & _).
  wp_step. apply on_scheduler_wp.
  pose proof (keeping_post calm cache_shrinks _ _ _ _ (sparing_selected selection) (xw_calm _ Hwf)
    (complete_plain_wp _ selection b Hpl Hf Hid (selected_nodup _ _ _ _ _ _ _ _ Hsel Hnd)
      (selected_acceptable _ _ _ _ _ _ (λ _ v m t n H, proj1 (choice_ok v [] [] m (t, n) (proj2 H))) Hswf Hf Hsel))) as Hw.
  unfold wp in Hw |- * at 1. destruct (complete_selected_batch selection _) as [[generated|e|p] s'] eqn:Ec; simpl in *;
    [|by destruct Hw as [[] _]|done].
  destruct Hw as ((-> & (Hpl' & Hf') & s1 & act & Hcp & -> & Hact) & Hcalm & Hsh).
  unfold modify_executor. do 2 wp_step. apply wp_ret. exists (bs_tokens selection). split; [done|].
  split; [|by split].
  apply exec_retained; [done|done|by rewrite (proj1 Hsh); apply (xw_config _ Hwf)|].
  eapply held_completed; [exact Hswf|apply (xw_calm _ Hwf)|exact Hf|by apply Hnv|
    apply (selected_keys _ _ _ _ _ _ _ _ Hsel)|apply (xw_held _ Hwf)|by rewrite Hc|exact Hcp|exact Hact|apply Hpl'|done].
Qed.

(** An error of the part after the forward puts the batch back. *)
Lemma or_fail_wp {A} observer x b s d (m : M State ContinuousBatchError A) (QOk : A → Prop) (bad : panic → Prop)
    (Q : res ContinuousBatchError A → State → Prop) st :
  synced observer x b s d → wp m (still_running x b s d QOk bad) st →
  (∀ a st', running x b s d st' → QOk a → Q (Ok a) st') →
  (∀ e st', step_error observer x st'.1 → Q (Err e) st') →
  (∀ p st', bad p ∨ p = Overflow → Q (Panic p) st') →
  wp (mcatch m (fail_with b)) Q st.
Proof.
  intros Hsync Hm HOk HErr HPanic. wp_step. eapply wp_mono; [exact Hm|]. intros [a|e|p] st'; simpl.
  - intros []. by apply HOk.
  - intros Hr. eapply wp_mono; [by eapply fail_with_wp|]. intros [a'|e'|p'] st''; [done|apply HErr|].
    intros ->. apply HPanic. by right.
  - intros Hp. apply HPanic. by left.
Qed.

Lemma read_logits_spec b (out : Gen BatchTensor) :
  match read_logits b out with
  | Ok (logits, values) => out = Ok logits ∧ tensor_dims logits = [batch_size b; 1; vocab_size batch_limits] ∧
      tensor_values logits = Ok values
  | Err _ => True
  | Panic p => out = Panic p ∨ p = Foreign
  end.
Proof.
  unfold read_logits. destruct out as [logits|e|p]; simpl; [|done|by left].
  case_decide as Hd; [done|]. destruct (tensor_values logits) as [values|e|p] eqn:Ev; simpl; [|done|].
  - split; [done|]. split; [|done]. by destruct (decide (tensor_dims logits = [batch_size b; 1; vocab_size batch_limits])).
  - right. by eapply values_law.
Qed.

(** What came back of the forward of a batch that fits. *)
Definition forwarded b (known : Contents) (state : gmap N (option TokenSampler))
    (read : Gen (BatchTensor * list f32)) (working : BatchCache) (state' : gmap N (option TokenSampler)) : Prop :=
  match read with
  | Ok (_, values) => state' = state ∧ extended known b (contents working) ∧
      ∀ i row, batch_sequences b !! i = Some row →
        slice (i * vocab_size batch_limits) ((i + 1) * vocab_size batch_limits) values =
          Some (L (tokens_of known (row_request_id row) ++ row_token_ids row))
  | Err _ => True
  | Panic p => p = Foreign
  end.

Lemma forward_spec b d c state : fits k (contents c) b →
  let '(out, (_, working, state')) := forward_batch_sampling b ∅ d c state in
  forwarded b (contents c) state (read_logits b out) working state'.
Proof.
  intros Hf. pose proof (forward_law b d c state Hf) as Hlaw.
  destruct (forward_batch_sampling _ _ _ _ _) as [out [[d' working] state']].
  pose proof (read_logits_spec b out) as Hread. unfold forwarded.
  destruct (read_logits b out) as [[logits values]|e|p]; [|done|by destruct Hread as [->|?]].
  destruct Hread as (-> & Hd & Hv). destruct Hlaw as (? & ? & Hrows). split_and!; [done..|].
  intros i row. by apply Hrows.
Qed.

(** The tokens drawn for a batch, with the cache they were drawn on. *)
Definition tokens_drawn (processor : Processor) x b s (out : BatchTokenSelection * BatchCache) : Prop := ∃ values,
  extended (contents (ex_cache x)) b (contents out.2) ∧ bs_batch_id out.1 = batch_id b ∧
  selected s (drawn s) values (vocab_size batch_limits) 0 (batch_sequences b) (bs_tokens out.1) (bs_samplers out.1) ∧
  (processor = None → ∀ i row, batch_sequences b !! i = Some row →
     slice (i * vocab_size batch_limits) ((i + 1) * vocab_size batch_limits) values =
       Some (L (tokens_of (contents (ex_cache x)) (row_request_id row) ++ row_token_ids row))).

(** The part of a step after the forward. *)
Lemma finish_wp (processor : Processor) (observer : Observer) x b s d st read working state state' :
  running x b s d st → forward_of x b s read d → fits k (contents (ex_cache x)) b → owned s (batch_id b) (batch_sequences b) state →
  forwarded b (contents (ex_cache x)) state read working state' →
  wp (match read with Panic p => mpanic p | _ => mret tt end ;;;
      sync_executor "batch completion: " ;;;
      match observer, read with
      | Some observe, Ok (logits, _) =>
          mmodify (λ st, (st.1, observe b working logits st.2)) ;;;
          sync_executor "batch prefix completion: "
      | _, _ => mret tt
      end ;;;
      let! selected :=
        mcatch (let! read := mlift read in
                let! values := run_processor processor b read.2 in
                select_tokens b values state' working) (fail_with b) in
      let! generated := on_scheduler (complete_selected_batch selected.1) in
      modify_executor (λ x, set_ex_cache (retain_batch_cache selected.2 (ex_scheduler x)) x) ;;;
      mret (Some (mk_executed b generated)))
    (λ r st', step_outcome processor observer x r st'.1) st.
Proof.
  intros Hr Hfwd Hfits Hown Hread.
  assert (∀ p, p = Foreign → step_panic processor p) as Hforeign by (intros p ->; right; by left).
  wp_step. assert (∀ Q : res ContinuousBatchError unit → State → Prop, Q (Ok tt) st → (∀ p, p = Foreign → Q (Panic p) st) →
    wp (match read with Panic p => mpanic p | _ => mret tt end) Q st) as Hdone.
  { intros Q HOk HP. destruct read; [by apply wp_ret..|]. apply wp_panic. by apply HP. }
  apply Hdone; [|done]. clear Hdone. apply wp_assoc. wp_step. eapply wp_mono; [by eapply syncs_wp|].
  intros [[]|e|p] st1; simpl; [|done|by apply Hforeign]. clear st d Hr Hfwd. intros (d & Hr & Hsync).
  wp_step. apply (or_fail_wp observer x b s d _ (tokens_drawn processor x b s) (step_panic processor)); [done|..].
  - wp_step. destruct read as [[logits values]|e|p]; [|by apply wp_throw|apply wp_panic; exact (Hforeign p Hread)].
    apply wp_ret. destruct Hread as (-> & Hext & Hrows).
    wp_step. eapply wp_mono; [by apply run_processor_wp|]. intros [values'|e|p] st'; simpl; [|done|intros Hp; exact Hp].
    intros [Hr' Hsame]. eapply wp_mono; [by eapply select_tokens_wp|]. intros [out|e|p] st''; simpl; [|done|].
    + intros (Hr'' & Ho & Hid & Hsel). split; [done|].
      destruct out as [selection working']. simpl in *. subst working'. exists values'. split_and!; [done..|].
      by intros Hn; rewrite (Hsame Hn).
    + intros Hp. right; right; by left.
  - cbn beta. intros [selection working'] st' Hr' (values' & Hext & Hid & Hsel & Hrows). simpl in *.
    eapply wp_mono; [by eapply install_wp|]. intros [o|e|p] st''; [|done|intros ->; by left].
    intros (generated & -> & Hwf & Hf & Hc). simpl. split; [done|]. split; [done|].
    exists s, values', selection. split; [apply Hr'|]. split_and!; [done..|].
    intros Hn i row r Hi Hrow. rewrite (Hrows Hn i row Hi). do 2 f_equal.
    pose proof (rn_built _ _ _ _ _ Hr') as ((Hswf & _ & Hnv) & Hb & _).
    apply (row_tokens (contents (ex_cache x)) s b row r); [done|done|by apply Hnv| | |done].
    + rewrite <- (rn_cache _ _ _ _ _ Hr'), <- (rn_scheduler _ _ _ _ _ Hr'). apply (xw_held _ (rn_wf _ _ _ _ _ Hr')).
    + by eapply list_elem_of_lookup_2.
  - done.
  - intros p st' [Hp| ->]; [done|by left].
Qed.

Lemma step_inner_wp (processor : Processor) (observer : Observer) x c : exec_wf x →
  wp (step_inner processor observer) (λ r st', step_outcome processor observer x r st'.1) (x, c).
Proof.
  intros Hwf. unfold step_inner. wp_step. apply on_scheduler_wp.
  pose proof (keeping_post calm cache_grows _ _ _ _ gentle_schedule (xw_calm _ Hwf)
    (schedule_plain_wp _ (xw_sched _ Hwf))) as Hw.
  unfold wp in Hw |- * at 1. simpl. destruct (schedule (ex_scheduler x)) as [[[b|]|e|p] s] eqn:Es; simpl in *; [| | |by left].
  2:{ destruct Hw as (Hb & Hcalm & Hg). apply wp_ret. destruct Hb as (Hpl & Hf & Hfo). split; [|done].
      apply exec_grown; [done..|apply Hfo|done|done]. }
  2:{ destruct Hw as [[(Hpl & Hf & Hfo)|Hex] [Hcalm Hg]]; (split; [done|]); [left|right; split; [done|by eexists]].
      split; [by apply exec_grown|by eapply sf_refused]. }
  destruct Hw as (Hb & Hcalm & Hg).
  assert (running x b s (ex_device x) (set_ex_scheduler s x, c)) as Hr.
  { split; [|done..]. apply exec_grown; [done|apply Hb..|done|done]. }
  generalize dependent (set_ex_scheduler s x, c). intros st Hr. unfold wp at 1. simpl.
  apply wp_bind, wp_get. cbv zeta. rewrite no_lookahead.
  wp_step. wp_step. apply on_scheduler_wp. unfold reserve_lookahead. rewrite decide_True by (by left). apply wp_ret.
  assert ((set_ex_scheduler (ex_scheduler st.1) st.1, st.2) = st) as -> by (by destruct st as [[]]).
  pose proof Hr as [Hwf' Hs Hc Hd _].
  destruct (owned_state s b) as (state & Hstate & Hown); [rewrite <- Hs; apply (xw_sched _ Hwf')|by apply Hb|].
  do 2 wp_step. wp_step. rewrite Hs, Hstate. wp_step. apply wp_ret.
  do 2 wp_step. rewrite Hd, Hc. assert (fits k (contents (ex_cache x)) b) as Hfits
    by (rewrite <- Hc; apply exec_fits; [done|by rewrite Hs; apply Hb]).
  pose proof (forward_spec b (ex_device x) (fork_batch_cache (ex_cache x)) state) as Hread.
  rewrite contents_fork in Hread. specialize (Hread Hfits).
  destruct (forward_batch_sampling _ _ _ _ _) as [out [[d working] state']] eqn:Eforward.
  unfold modify_executor at 1. do 2 wp_step. cbv zeta.
  eapply finish_wp; [by eapply running_device| |done..]. split; [done|]. by exists state, out, working, state'.
Qed.
End Step.

(** ** The other calls *)
Lemma in_step_same known s s' : active s' = active s → kv_cache s' = kv_cache s → in_step known s → in_step known s'.
Proof. intros Ha Hk Hs id. rewrite Hs. unfold held_of. by rewrite Ha, Hk. Qed.

(** Calls that touch neither the requests in the batch nor the cache. *)
Lemma exec_side x s : exec_wf x → plain_sched s → calm s → active s = active (ex_scheduler x) →
  kv_cache s = kv_cache (ex_scheduler x) → exec_wf (set_ex_scheduler s x).
Proof.
  intros [Hs Hc Hk Hh] Hs' Hc' Ha Hkv. split; simpl; [done|done|by rewrite Hkv|by apply (in_step_same _ (ex_scheduler x))].
Qed.

(** A validated submission. *)
Lemma exec_submission_wp {P} prompt g g' sampler (m : M Sched ContinuousBatchError RequestId) x (c : P) :
  exec_wf x →
  (∀ s r s', m s = (r, s') → sched_wf s → match r with
     | Ok _ => submit_with_sampler prompt g sampler s = (r, s')
     | Err _ => s' = s
     | Panic p => p = Overflow
     end) →
  wp (mlift (validate_request prompt g') ;;; on_scheduler m) (λ r st', match r with
    | Ok id => exec_wf st'.1 ∧
        submit_with_sampler prompt g sampler (ex_scheduler x) = (Ok id, ex_scheduler st'.1)
    | Err _ => st'.1 = x
    | Panic p => p = Overflow ∨ st'.1 = x
    end) (x, c).
Proof.
  intros Hwf Hm. wp_step. wp_step. destruct (validate_request prompt g'); [|done|by right].
  apply on_scheduler_wp. simpl. unfold wp. specialize (Hm (ex_scheduler x)).
  assert (set_ex_scheduler (ex_scheduler x) x = x) as Hid by (by destruct x).
  destruct (m (ex_scheduler x)) as [[id|e|p] s'] eqn:Em; specialize (Hm _ _ eq_refl (proj1 (xw_sched _ Hwf))); simpl; [|by rewrite Hm, Hid|by left].
  split; [|done].
  pose proof (side_submit prompt g sampler _ (xw_sched _ Hwf)) as Hside.
  pose proof (submit_wp prompt g sampler _ (proj1 (xw_sched _ Hwf))) as Hspec.
  pose proof (gentle_submit prompt g sampler _ (xw_calm _ Hwf)) as Hkeep.
  unfold wp in Hside, Hspec. rewrite Hm in Hside, Hspec, Hkeep. simpl in Hside, Hspec, Hkeep.
  destruct Hspec as (_ & _ & _ & Ha & Hk & _). by apply exec_side; [|apply Hside|apply Hkeep|..].
Qed.

Lemma exec_cancel_wp {P} id x (c : P) : exec_wf x →
  wp (exec_cancel id) (λ r st', match r with
    | Ok o => exec_wf st'.1 ∧ cancelled (ex_scheduler x) id o (ex_scheduler st'.1) ∧
        in_flight (ex_scheduler st'.1) = in_flight (ex_scheduler x)
    | Err _ => st'.1 = x
    | Panic p => p = Overflow
    end) (x, c).
Proof.
  intros Hwf. unfold exec_cancel. wp_step. apply on_scheduler_wp. simpl.
  pose proof (side_cancel id _ (xw_sched _ Hwf)) as Hside.
  pose proof (cancel_wp id _ (proj1 (xw_sched _ Hwf))) as Hspec.
  pose proof (sparing_cancel id _ (xw_calm _ Hwf)) as Hkeep.
  assert (set_ex_scheduler (ex_scheduler x) x = x) as Hid by (by destruct x).
  unfold wp in Hside, Hspec |- *. destruct (cancel id (ex_scheduler x)) as [[o|e|p] s']; simpl in *; [|by destruct Hspec as [-> _]|done].
  unfold modify_executor, mmodify, mbind'. simpl. split; [|split; [done|apply Hside]].
  apply exec_retained; [apply Hside|apply Hkeep|by destruct (cn_limits _ _ _ _ Hspec) as (_ & _ & ->); apply (xw_config _ Hwf)|].
  intros i. rewrite (held_cancelled (ex_scheduler x) id o s' (proj1 (xw_sched _ Hwf)) Hspec (proj2 Hkeep)).
  by rewrite (xw_held _ Hwf).
Qed.

Lemma exec_pop_wp {P} x (c : P) : exec_wf x →
  wp exec_pop_finished (λ r st', match r with
    | Ok o => exec_wf st'.1 ∧ ex_cache st'.1 = ex_cache x ∧ pop_finished (ex_scheduler x) = (Ok o, ex_scheduler st'.1)
    | Err _ => False
    | Panic p => p = Overflow
    end) (x, c).
Proof.
  intros Hwf. unfold exec_pop_finished. apply on_scheduler_wp. simpl.
  pose proof (side_pop _ (xw_sched _ Hwf)) as Hside.
  pose proof (pop_finished_wp _ (proj1 (xw_sched _ Hwf))) as Hspec.
  pose proof (gentle_pop _ (xw_calm _ Hwf)) as Hkeep.
  unfold wp in Hside, Hspec |- *. destruct (pop_finished (ex_scheduler x)) as [[o|e|p] s']; simpl in *; [|done|done].
  split; [|done]. destruct Hspec as (_ & _ & Heq).
  apply exec_side; [done|apply Hside|apply Hkeep|by rewrite Heq..].
Qed.

(** ** Reachable executors *)
Section Reachable.
Context {P : Type}.
Notation Processor := (option (RequestId → list f32 → P → Gen (list f32) * P)).
Notation Observer := (option (ScheduledBatch → BatchCache → BatchTensor → P → P)).
Notation Log := (gmap N (list Z * GreedyGenerationConfig * option TokenSampler)).

Inductive exec_op :=
| ExSubmit (prompt : list Z) (generation : GreedyGenerationConfig)
| ExSubmitSampled (prompt : list Z) (generation : SamplingGenerationConfig)
| ExStep (processor : Processor) (observer : Observer) (captured : P)
| ExCancel (id : RequestId)
| ExPopFinished.

Definition run_exec {C A} (m : M (DeviceBatchExecutor * C) ContinuousBatchError A) (c : C) x :
    res ContinuousBatchError unit * DeviceBatchExecutor :=
  let out := m (x, c) in
  (match out.1 with Ok _ => Ok tt | Err e => Err e | Panic p => Panic p end, out.2.1).

Definition exec_run (op : exec_op) x : res ContinuousBatchError unit * DeviceBatchExecutor :=
  match op with
  | ExSubmit prompt generation => run_exec (exec_submit prompt generation) tt x
  | ExSubmitSampled prompt generation => run_exec (exec_submit_sampled prompt generation) tt x
  | ExStep processor observer captured => run_exec (step_inner processor observer) captured x
  | ExCancel id => run_exec (exec_cancel id) tt x
  | ExPopFinished => run_exec exec_pop_finished tt x
  end.

Definition exec_logged x (op : exec_op) (r : res ContinuousBatchError unit) (log : Log) : Log :=
  match op, r with
  | ExSubmit prompt generation, Ok _ => <[next_request (ex_scheduler x) := (prompt, generation, None)]> log
  | ExSubmitSampled prompt generation, Ok _ =>
      <[next_request (ex_scheduler x) :=
         (prompt, mk_generation (sg_max_new_tokens generation) (sg_eos_token_ids generation),
          first_sampler (sg_sampling generation))]> log
  | _, _ => log
  end.

(** The executors the calls lead to, with what was submitted; [allowed] restricts
    the calls. *)
Inductive exec_reachable (allowed : exec_op → Prop) (c : ContinuousBatchConfig) : Log → DeviceBatchExecutor → Prop :=
| exec_start device options x : new_executor device c k options = Ok x → exec_reachable allowed c ∅ x
| exec_next log x op r x' : exec_reachable allowed c log x → allowed op → exec_run op x = (r, x') →
    (∀ p, r ≠ Panic p) → ¬ exhausted (ex_scheduler x') → exec_reachable allowed c (exec_logged x op r log) x'.

(** What a call does to an executor that is well-formed. *)
Definition exec_effect (op : exec_op) x (r : res ContinuousBatchError unit) x' : Prop :=
  match op, r with
  | ExStep processor _ _, Ok _ => ∃ o, step_done processor x o x'
  | ExStep _ observer _, Err _ => step_error observer x x'
  | ExStep processor _ _, Panic p => step_panic processor p
  | ExSubmit prompt g, Ok _ => exec_wf x' ∧ ∃ id, submit_with_sampler prompt g None (ex_scheduler x) = (Ok id, ex_scheduler x')
  | ExSubmitSampled prompt g, Ok _ => exec_wf x' ∧ ∃ id,
      submit_with_sampler prompt (mk_generation (sg_max_new_tokens g) (sg_eos_token_ids g))
        (first_sampler (sg_sampling g)) (ex_scheduler x) = (Ok id, ex_scheduler x')
  | ExCancel id, Ok _ => exec_wf x' ∧ ∃ o, cancelled (ex_scheduler x) id o (ex_scheduler x')
  | ExPopFinished, Ok _ => exec_wf x' ∧ ∃ o, pop_finished (ex_scheduler x) = (Ok o, ex_scheduler x')
  | _, Err _ => x' = x
  | _, Panic p => p = Overflow ∨ x' = x
  end.

Lemma run_exec_wp {C A} (m : M (DeviceBatchExecutor * C) ContinuousBatchError A) (c : C) x
    (Q : res ContinuousBatchError A → DeviceBatchExecutor * C → Prop) r x' :
  run_exec m c x = (r, x') → wp m Q (x, c) →
  ∃ y c', Q y (x', c') ∧ match y with Ok _ => r = Ok tt | Err e => r = Err e | Panic p => r = Panic p end.
Proof.
  unfold wp, run_exec. destruct (m (x, c)) as [y [x'' c']]. simpl. intros [= <- <-] HQ.
  exists y, c'. split; [done|by destruct y].
Qed.

Lemma submit_sampled_same prompt g s r s' : submit_sampled prompt g s = (r, s') → sched_wf s →
  match r with
  | Ok _ => submit_with_sampler prompt (mk_generation (sg_max_new_tokens g) (sg_eos_token_ids g))
      (first_sampler (sg_sampling g)) s = (r, s')
  | Err _ => s' = s
  | Panic p => p = Overflow
  end.
Proof.
  intros Hrun Hwf. pose proof (submit_sampled_run _ _ _ _ _ Hrun) as Hok. destruct r as [id|e|p]; [done|..].
  all: unfold submit_sampled, submit_sampled_with_options, mbind', mlift in Hrun;
    pose proof (new_with_options_total (sg_sampling g) Sampling.default_options) as Hn;
    destruct (new_with_options _ _) as [sm| |]; [|by simplify_eq|done];
    pose proof (submit_wp prompt (mk_generation (sg_max_new_tokens g) (sg_eos_token_ids g)) (Some sm) s Hwf) as Hw;
    cbn beta iota in Hrun; unfold wp in Hw; by rewrite Hrun in Hw.
Qed.

Lemma exec_run_effect op x r x' : exec_wf x → exec_run op x = (r, x') → exec_effect op x r x'.
Proof.
  intros Hwf Hrun.
  destruct op as [prompt g|prompt g|processor observer c|id|]; simpl in Hrun; eapply run_exec_wp in Hrun as (y & c' & Hy & Hr).
  2:{ eapply (exec_submission_wp prompt g _ None); [done|]. intros s z s' Hz Hs.
      pose proof (submit_wp prompt g None s Hs) as Hw. unfold wp in Hw. unfold submit in Hz. rewrite Hz in Hw. by destruct z. }
  3:{ eapply exec_submission_wp; [done|]. intros s z s' Hz Hs. by apply submit_sampled_same. }
  4: by apply step_inner_wp.
  5: by apply exec_cancel_wp.
  6: by apply exec_pop_wp.
  all: destruct y; subst; simpl in *; naive_solver.
Qed.

(** A call that did not panic leaves the executor well-formed. *)
Lemma exec_effect_wf op x r x' : exec_wf x → exec_effect op x r x' → (∀ p, r ≠ Panic p) →
  ¬ exhausted (ex_scheduler x') → exec_wf x'.
Proof.
  intros Hwf He Hp Hex. destruct op, r as [[]|e|p]; simpl in He; try (by destruct (Hp p)); try (by subst); try apply He.
  - destruct He as (o & He). apply He.
  - destruct He as (_ & [[? _]|[? _]]); done.
Qed.

Lemma fresh_calm c options s : with_options c k options = Ok s → sched_wf s → calm s ∧ config (kv_cache s) = k ∧ in_step ∅ s.
Proof.
  unfold with_options, new. destruct (validate_batch_config c); simpl; [|done..].
  destruct (validate_options options); simpl; [|done..]. destruct (validate_config k); simpl; [|done..].
  intros [= <-] Hwf. split; [|split; [done|]].
  - split; [done|]. split; [apply (st_kv _ (sw_static _ Hwf))|done|]. intros ????? (q & Hq & _). by simpl in Hq.
  - intros id. unfold held_of. simpl. by rewrite !lookup_empty.
Qed.

Lemma new_executor_spec device c options x : new_executor device c k options = Ok x →
  with_options c k options = Ok (ex_scheduler x) ∧ ex_cache x = new_batch_cache k.
Proof.
  unfold new_executor. case_decide; [done|]. destruct (with_options c k options); simpl; [|done..].
  by intros [= <-].
Qed.

Lemma exec_reachable_wf allowed c log x : (N.of_nat (max_sequence_length k) ≤ usize_max)%N →
  exec_reachable allowed c log x → exec_wf x.
Proof.
  intros Hmax. induction 1 as [device options x Hx|log x op r x' Hr IH _ Hrun Hp Hex].
  - destruct (new_executor_spec _ _ _ _ Hx) as [Hs Hc].
    destruct (fresh_plain_sched c k _ Hmax (fresh_plain _ _ _ _ Hs)) as [Hpl _].
    destruct (fresh_calm c options _ Hs (proj1 Hpl)) as (? & ? & ?). split; [done..|]. by rewrite Hc, contents_new.
  - eapply exec_effect_wf; [exact IH|by eapply exec_run_effect|done..].
Qed.

(** ** What an executor finishes *)
Notation Told := (told device_pick).

(** Calls without a logits processor. *)
Definition unprocessed (op : exec_op) : Prop :=
  match op with ExStep (Some _) _ _ => False | _ => True end.

Lemma drawn_picks s b values selection :
  sched_wf s → in_flight s = Some b →
  (∀ i row r, batch_sequences b !! i = Some row → active s !! row_request_id row = Some r →
     slice (i * vocab_size batch_limits) ((i + 1) * vocab_size batch_limits) values =
       Some (L (take (row_context_length row) (rq_history r)))) →
  selected s (drawn s) values (vocab_size batch_limits) 0 (batch_sequences b) (bs_tokens selection) (bs_samplers selection) →
  picks device_pick s b selection.
Proof.
  intros [Hst Hfl] Hb Hm Hsel i row r Hi Hr. rewrite Hb in Hfl. destruct Hfl as ([Hnd _ _ _ _] & _).
  destruct (selected_row _ _ _ _ _ _ _ _ i row r Hsel Hnd Hi Hr) as (token & Ht & Hx). exists token.
  split; [done|]. destruct (samples_token s row) eqn:Es; [|by destruct Hx].
  destruct Hx as (v & next & Hv & [_ Hc] & Hn). exists next. split; [|done].
  unfold samples_token in Es. rewrite Hr in Es. apply bool_decide_eq_true in Es.
  simpl in Hv. rewrite (Hm i row r Hi Hr) in Hv. injection Hv as <-.
  unfold device_pick. rewrite take_ge in Hc by done.
  by rewrite <- (rw_history _ _ (proj1 (st_request _ Hst _ _ Hr))).
Qed.

Lemma step_done_told (log : Log) x o x' : exec_wf x → Told log (ex_scheduler x) → step_done (None : Processor) x o x' →
  Told log (ex_scheduler x').
Proof.
  intros Hwf Ht (_ & _ & Ho). destruct o as [e|].
  - destruct Ho as (s & values & selection & (Hpl & Hf & _ & Hfo) & _ & Hid & Hsel & Hc & Hm).
    assert (Told log s) as Hs by (by eapply told_follows).
    eapply told_selected; [apply _|exact Hpl|exact Hs|exact Hf|done| |exact Hsel|exact Hc].
    eapply drawn_picks; [apply Hpl|done|by apply Hm|done].
  - destruct Ho as ((_ & _ & _ & Hfo) & _). by eapply told_follows.
Qed.

Lemma step_failed_told (log : Log) (observer : Observer) x x' : Told log (ex_scheduler x) →
  step_failed observer x x' → Told log (ex_scheduler x').
Proof.
  intros Ht [e _ _ _ Hfo|b s read d _ _ (_ & _ & _ & Hfo) Hfb|b read d e _ _ (_ & _ & _ & Hfo)].
  - by eapply told_follows.
  - eapply told_follows; [by eapply told_follows|by eapply fail_batch_follows].
  - by eapply told_follows.
Qed.

Lemma exec_effect_told (log : Log) op x r x' : exec_wf x → Told log (ex_scheduler x) → unprocessed op →
  exec_effect op x r x' → (∀ p, r ≠ Panic p) → ¬ exhausted (ex_scheduler x') →
  Told (exec_logged x op r log) (ex_scheduler x').
Proof.
  intros Hwf Ht Hun He Hp Hex. pose proof (xw_sched _ Hwf) as (Hs & _).
  destruct op as [prompt g|prompt g|[process|] observer c|id|], r as [[]|e|p]; simpl in *;
    try (by destruct (Hp p)); try (by subst); try done.
  - destruct He as (_ & id & He). by eapply decode_told_submit.
  - destruct He as (_ & id & He). by eapply decode_told_submit.
  - destruct He as (o & He). by eapply step_done_told.
  - destruct He as (_ & [[_ He]|[? _]]); [|done]. by eapply step_failed_told.
  - destruct He as (_ & o & He). eapply told_follows; [done|by eapply cancelled_follows].
  - destruct He as (_ & o & He). eapply told_follows; [done|].
    by eapply (quiet_follows pop_finished PopFinished).
Qed.

Lemma exec_reachable_told c log x : (N.of_nat (max_sequence_length k) ≤ usize_max)%N →
  exec_reachable unprocessed c log x → Told log (ex_scheduler x).
Proof.
  intros Hmax. induction 1 as [device options x Hx|log x op r x' Hr IH Hun Hrun Hp Hex].
  - destruct (new_executor_spec _ _ _ _ Hx) as [Hs _].
    eapply fresh_decode_told; by eapply fresh_plain.
  - pose proof (exec_reachable_wf _ _ _ _ Hmax Hr) as Hwf.
    apply exec_effect_told; [done..|by apply exec_run_effect|done|done].
Qed.

(** The batch a step hands to the model. *)
Lemma scheduled_fits x b s : exec_wf x → schedule (ex_scheduler x) = (Ok (Some b), s) →
  fits k (contents (fork_batch_cache (ex_cache x))) b.
Proof.
  intros Hwf Hrun. rewrite contents_fork.
  pose proof (schedule_plain_wp _ (xw_sched _ Hwf)) as Hw. unfold wp in Hw.
  pose proof (gentle_schedule _ (xw_calm _ Hwf)) as Hg. rewrite Hrun in Hw, Hg. simpl in Hw.
  destruct Hw as (Hpl & Hf & _ & Hfo), Hg as [Hcalm Hg].
  by apply (exec_fits (set_ex_scheduler s x)); [apply exec_grown|].
Qed.

(** Claim C10.  The executor and the model stay in step.  In every reachable executor
    the cache holds, for every request, exactly the tokens and pages the scheduler
    believes committed, so every batch a step hands to the model continues what the
    cache holds, in pages that are in the pool and nobody else's.  A call that returns
    an error leaves the cache as it was.  A step fails in one of three ways: no batch was
    scheduled; the forward and the synchronizations of its cache and logits all answered,
    and a later failure put every row back where it was scheduled from; or one of those
    synchronizations failed, and then the batch stays in flight with its pages reserved,
    since the device may still write them.  A step that
    returns installs the model's cache together with the tokens drawn; and a step
    panics only in the device's code, a sampler's arithmetic, its own processor or on
    an exhausted counter. *)
Theorem device_executor_in_step allowed c log x :
  (N.of_nat (max_sequence_length k) ≤ usize_max)%N → exec_reachable allowed c log x →
  in_step (contents (ex_cache x)) (ex_scheduler x) ∧
  (∀ b s, schedule (ex_scheduler x) = (Ok (Some b), s) → fits k (contents (fork_batch_cache (ex_cache x))) b) ∧
  ∀ op r x', exec_run op x = (r, x') → exec_effect op x r x'.
Proof.
  intros Hmax Hreach. pose proof (exec_reachable_wf _ _ _ _ Hmax Hreach) as Hwf.
  split; [apply (xw_held _ Hwf)|]. split; [intros b s; by apply scheduled_fits|].
  intros op r x'. by apply exec_run_effect.
Qed.

(** Claim C5.  Decoding on the device, in steps without a logits processor.  With a model whose logits for a row are those
    of the row's whole history, every generation an executor finishes, however its
    requests were queued, chunked, batched with others, cancelled, failed or left
    unsynchronized, is the one submitted under that id, and its tokens are those
    that decoding that prompt alone gives, draw by draw, with its own sampler. *)
Theorem device_batching_equals_single_decoding c log x f :
  (N.of_nat (max_sequence_length k) ≤ usize_max)%N → exec_reachable unprocessed c log x →
  f ∈ finished (ex_scheduler x) → ∃ generation sampler,
    log !! fg_request_id f = Some (fg_prompt_token_ids f, generation, sampler) ∧
    decode device_pick (list_to_set (eos_token_ids generation)) (max_new_tokens generation)
      (fg_prompt_token_ids f) [] sampler = Ok (fg_generated_token_ids f).
Proof. intros Hmax Hx Hf. by apply (td_finished _ _ _ (exec_reachable_told _ _ _ Hmax Hx)). Qed.
End Reachable.
End Executor.
