(* ===== verification/BatchExamples.v ===== *)
(** * Sampled and fenced batches on concrete data

    A driver that launches and completes the batches of a gate with the logits of
    a toy model, the gates it reaches, and the instances of the theorems there. *)
From S2P Require Import Prelude Float GenerationControl Sampling SamplingSpec SamplingDraw PagedKv.
From S2P Require Import PagedKvPool PagedKvInv PagedKvOps PagedKvPrefix PagedKvSpec ContinuousBatch.
From S2P Require Import ContinuousBatchInv ContinuousBatchSchedule ContinuousBatchLoop ContinuousBatchOps.
From S2P Require Import ContinuousBatchVerify ContinuousBatchCalls ContinuousBatchSpec.
From S2P Require Import ContinuousBatchModes ContinuousBatchExamples BatchSampling BatchDecoding.
From S2P Require Import BatchSamplingSpec PlainScheduler Runtime Numerics FencedBatch FencedBatchSpec.
Open Scope nat_scope.
Open Scope m_scope.

(** The rows of a table, cut out of it again. *)
Lemma slice_rows {A B} (f : A → list B) width l i x :
  (∀ y, length (f y) = width) → l !! i = Some x →
  slice (i * width) ((i + 1) * width) (mjoin (map f l)) = Some (f x).
Proof.
  intros Hw Hi. assert (length (mjoin (map f l)) = length l * width) as Hlen.
  { clear Hi. induction l as [|y l IH]; simpl; [done|]. by rewrite length_app, Hw, IH. }
  apply lookup_lt_Some in Hi as Hlt. unfold slice. rewrite decide_True by (rewrite Hlen; nia).
  f_equal. replace ((i + 1) * width - i * width) with width by lia. clear Hlen Hlt.
  revert i Hi. induction l as [|y l IH]; intros [|i] Hi; simpl in *; [done..| |].
  - injection Hi as ->. by rewrite drop_0, take_app_length' by done.
  - rewrite <- (Hw y) at 2. rewrite <- drop_drop, drop_app_length. by apply IH.
Qed.

Notation GateLog := (gmap N (list Z * GreedyGenerationConfig * option TokenSampler)).

Section Driver.
Context `{DefaultHasher} `{Exponential, Randomness} `{BatchFence}.
Context (L : list Z → list f32) (width : nat) (L_width : ∀ h, length (L h) = width).
Notation Sched := (@ContinuousBatchScheduler TokenSampler).
Implicit Types g : FencedBatchScheduler.

(** The logits a device would leave for a batch. *)
Definition batch_logits (s : Sched) (b : ScheduledBatch) : list f32 :=
  mjoin (map (λ row, L (history_of s row)) (batch_sequences b)).

(** Public calls other than [try_complete_logits], and completions by the model. *)
Inductive gate_event := GateCall (op : gate_op) | GateTurn (submit : ScheduledBatch → LaunchOutcome).

Definition gate_turn g (submit : ScheduledBatch → LaunchOutcome) : gate_op :=
  match in_flight (gt_scheduler g) with
  | Some b => GateComplete (batch_id b) (batch_logits (gt_scheduler g) b) width
  | None => GateLaunch submit
  end.

Definition gate_op_of g (e : gate_event) : gate_op :=
  match e with
  | GateCall (GateComplete _ _ _) => GatePopFinished
  | GateCall op => op
  | GateTurn submit => gate_turn g submit
  end.

Lemma gate_op_of_answers g e : model_answers L g (gate_op_of g e).
Proof.
  destruct e as [[]|submit]; simpl; try done. unfold gate_turn.
  destruct (in_flight (gt_scheduler g)) as [b|] eqn:E; simpl; [|done].
  intros b' i row r Hb Hi Hr _. rewrite E in Hb. injection Hb as <-. unfold batch_logits.
  rewrite (slice_rows (λ row, L (history_of (gt_scheduler g) row)) width _ i row) by done.
  unfold history_of. by rewrite Hr.
Qed.

Fixpoint gate_drive (events : list gate_event) (st : GateLog * FencedBatchScheduler) :
    option (GateLog * FencedBatchScheduler) :=
  match events with
  | [] => Some st
  | e :: rest =>
      let op := gate_op_of st.2 e in
      match gate_exec op st.2 with
      | (x, g') =>
          if match x with Panic p => negb (bool_decide (p = Foreign)) | _ => false end then None
          else if decide (u64_max ≤ next_reservation (kv_cache (gt_scheduler g')))%N then None
          else gate_drive rest (gate_logged st.2 op x st.1, g')
      end
  end.

Lemma gate_drive_reachable c k events st st' :
  gate_reachable (model_answers L) c k st.1 st.2 → gate_drive events st = Some st' →
  gate_reachable (model_answers L) c k st'.1 st'.2.
Proof.
  revert st. induction events as [|e rest IH]; intros st Hr Heq; simpl in Heq; [by simplify_eq|].
  destruct (gate_exec (gate_op_of st.2 e) st.2) as [x g1] eqn:Ex.
  destruct (match x with Panic p => _ | _ => false end) eqn:Hx; [done|]. case_decide as Hn; [done|].
  eapply IH in Heq; [done|]. eapply gate_step; [done|apply gate_op_of_answers|done| |done].
  intros p ->. apply negb_false_iff in Hx. by apply bool_decide_eq_true in Hx.
Qed.
End Driver.

(** ** Toy parameters *)
Definition toy_exp : Exponential := λ x, if eq x zero then one else f64_div one (f64_of_Z 2).

(** A generator that counts in sixteenths. *)
Definition toy_random : Randomness := {|
  Rng := N;
  random n := (f64_div (f64_of_Z (Z.of_N (n mod 16))) (f64_of_Z 16), (n + 5)%N);
  seed_from_u64 n := n;
  from_entropy := 0%N;
  state_bytes := 1;
  serialize_state n := [Z.of_N n];
  deserialize_state l := match l with z :: _ => Z.to_N z | [] => 0%N end
|}.

(** A device that needs a number of polls, and fails at the ninth. *)
Definition toy_fence : BatchFence := {|
  Fence := nat;
  poll_complete n := match n with
                     | 0 => (FenceDone, 0)
                     | 9 => (FenceFailed (mk_error DeviceLost "gone"), 9)
                     | S n' => (FencePending, n')
                     end
|}.

(** Four tokens; the successor of the last one scores best. *)
Definition toy_logits (history : list Z) : list f32 :=
  let top := ((default 0 (last history) + 1) mod 4)%Z in
  map (λ i, f32_of_Z (if (i =? top)%Z then 3 else if (i =? 3 - top)%Z then 3 else 1)) [0; 1; 2; 3]%Z.

Lemma toy_width h : length (toy_logits h) = 4.
Proof. done. Qed.

(** ** A run of two requests, greedy and sampled *)
Definition gate_batch_config : ContinuousBatchConfig := mk_batch_config 2 8.
Definition gate_pool : PagedKvCacheConfig := mk_config 2 8 16.

#[local] Existing Instances demo_hasher toy_exp toy_random toy_fence.

Definition gate_calls : list gate_event :=
  [GateCall (GateSubmit [1; 2]%Z (mk_generation 3 []));
   GateCall (GateSubmitSampled [3]%Z (mk_sampling_generation 4 [9%Z] (mk_sampling one 0 one (Some 3%N))))].

(** A launch whose fence needs two polls; one that is refused before submission. *)
Definition slow : gate_event := GateTurn (λ _, Launched (2 : Fence)).
Definition refused_launch : gate_event :=
  GateTurn (λ _, LaunchFailed (mk_launch_failure (mk_error OutOfMemory "full") NotSubmitted true)).
Definition broken : gate_event := GateTurn (λ _, Launched (9 : Fence)).

Definition gate_run (events : list gate_event) : option (GateLog * FencedBatchScheduler) :=
  match new_paged gate_batch_config gate_pool with
  | Ok s => match new_gate s with
            | Ok g => gate_drive toy_logits 4 (gate_calls ++ events) (∅, g)
            | _ => None
            end
  | _ => None
  end.

Lemma gate_run_reachable events st : gate_run events = Some st →
  gate_reachable (model_answers toy_logits) gate_batch_config gate_pool st.1 st.2.
Proof.
  unfold gate_run. destruct (new_paged gate_batch_config gate_pool) as [s|e|p] eqn:E; [|done..].
  destruct (new_gate s) as [g|e|p] eqn:Eg; [|done..]. intros Heq.
  eapply (gate_drive_reachable toy_logits 4 toy_width _ _ _ (∅, g)) in Heq; [done|].
  eapply gate_start; [by eapply fresh_paged|done].
Qed.

Definition gate_at (events : list gate_event) : GateLog * FencedBatchScheduler :=
  match gate_run events with
  | Some st => st
  | None => (∅, mk_gate (mk_scheduler (mk_batch_config 1 1) default_options demo [] ∅ ∅ [] None true 1 1
                  None None false 0 0 None false 0 0) None true)
  end.

(** Everything finished; a batch whose fence is about to be done; a lost device. *)
Definition all_done := gate_at (refused_launch :: replicate 30 slow).
Definition about_done := (gate_at (refused_launch :: replicate 3 slow)).2.
Definition lost := (gate_at [refused_launch; broken; slow]).2.

Lemma gate_at_reachable events : (if gate_run events then true else false) = true →
  gate_reachable (model_answers toy_logits) gate_batch_config gate_pool (gate_at events).1 (gate_at events).2.
Proof. unfold gate_at. destruct (gate_run events) eqn:E; [intros _; by apply (gate_run_reachable events)|done]. Qed.

Lemma all_done_reachable :
  gate_reachable (model_answers toy_logits) gate_batch_config gate_pool all_done.1 all_done.2.
Proof. apply gate_at_reachable. vm_compute. reflexivity. Qed.

Lemma about_done_reachable :
  gate_reachable (model_answers toy_logits) gate_batch_config gate_pool (gate_at (refused_launch :: replicate 3 slow)).1 about_done.
Proof. apply gate_at_reachable. vm_compute. reflexivity. Qed.

Lemma lost_reachable :
  gate_reachable (model_answers toy_logits) gate_batch_config gate_pool (gate_at [refused_launch; broken; slow]).1 lost.
Proof. apply gate_at_reachable. vm_compute. reflexivity. Qed.

Lemma gate_pool_fits : (N.of_nat (max_sequence_length gate_pool) ≤ usize_max)%N.
Proof. vm_compute. discriminate. Qed.

Definition sampled_result : FinishedGeneration := mk_finished 2 [3]%Z [0; 2; 3; 0]%Z false.

Lemma sampled_result_finished : sampled_result ∈ finished (gt_scheduler all_done.2).
Proof. apply list_elem_of_lookup. exists 1. vm_compute. reflexivity. Qed.

Lemma lost_quarantined : gt_quarantined lost = true.
Proof. vm_compute. reflexivity. Qed.

(** A prefill of a sampled and a greedy request in flight. *)
Definition sampled_at (events : list (@event TokenSampler)) : @ContinuousBatchScheduler TokenSampler :=
  match start (λ _, 0%Z) gate_batch_config gate_pool events with
  | Some st => st.2
  | None => gt_scheduler lost
  end.

Lemma sampled_at_reachable events :
  (if start (TokenSampler := TokenSampler) (λ _, 0%Z) gate_batch_config gate_pool events then true else false) = true →
  sched_reachable gate_batch_config gate_pool (sampled_at events).
Proof.
  unfold sampled_at. destruct (start _ _ _ events) as [st|] eqn:E; [intros _|done].
  eapply greedy_is_reachable, start_reachable, E.
Qed.

Definition sampled_calls : list (@event TokenSampler) :=
  [Call (Submit [3; 1]%Z (mk_generation 4 [9%Z]) (first_sampler (mk_sampling one 0 one (Some 3%N))));
   Call (Submit [1; 2]%Z (mk_generation 3 []) None); Turn].
Definition sampled_scheduler : @ContinuousBatchScheduler TokenSampler := sampled_at sampled_calls.

Lemma sampled_scheduler_reachable : sched_reachable gate_batch_config gate_pool sampled_scheduler.
Proof. apply sampled_at_reachable. vm_compute. reflexivity. Qed.

Definition sampled_batch : ScheduledBatch := default (mk_batch 0 Verify []) (in_flight sampled_scheduler).
Definition sampled_logits : list f32 := batch_logits toy_logits sampled_scheduler sampled_batch.
Definition sampled_selection : BatchTokenSelection :=
  match select_batch_tokens sampled_scheduler (batch_id sampled_batch) sampled_logits 4 with
  | Ok selection => selection
  | _ => mk_selection 0 [] []
  end.

Lemma sampled_in_flight : in_flight sampled_scheduler = Some sampled_batch.
Proof. vm_compute. reflexivity. Qed.
Lemma sampled_kind : batch_kind sampled_batch ≠ Verify.
Proof. vm_compute. discriminate. Qed.
Lemma sampled_selected :
  select_batch_tokens sampled_scheduler (batch_id sampled_batch) sampled_logits 4 = Ok sampled_selection.
Proof.
  assert (match select_batch_tokens sampled_scheduler (batch_id sampled_batch) sampled_logits 4 with
          | Ok _ => true | _ => false end = true) as Hs by (vm_compute; reflexivity).
  unfold sampled_selection. by destruct (select_batch_tokens _ _ _ _).
Qed.

Example sampled_tokens : map row_request_id (batch_sequences sampled_batch) = [1; 2]%N ∧
  bs_tokens sampled_selection = [1; 0]%Z.
Proof. vm_compute. split; reflexivity. Qed.

#[local] Opaque all_done about_done lost sampled_scheduler sampled_batch sampled_logits sampled_selection
  demo_hasher toy_exp toy_random toy_logits.

Example fenced_batching_equals_single_decoding_witness :
  ∃ generation sampler,
    all_done.1 !! 2%N = Some ([3]%Z, generation, sampler) ∧
    decode (model_pick toy_logits) (list_to_set (eos_token_ids generation)) (max_new_tokens generation)
      [3]%Z [] sampler = Ok [0; 2; 3; 0]%Z.
Proof.
  exact (fenced_batching_equals_single_decoding toy_logits gate_batch_config gate_pool all_done.1 all_done.2
    sampled_result gate_pool_fits all_done_reachable sampled_result_finished).
Defined.

Example fence_gate_is_safe_witness :
  closed_gate lost ∧ gate_after lost (gate_exec (GateCancel 1) lost).1 (gate_exec (GateCancel 1) lost).2.
Proof.
  destruct (fence_gate_is_safe (model_answers toy_logits) gate_batch_config gate_pool _ lost
    gate_pool_fits lost_reachable) as (_ & Hc & Hsafe).
  split; [exact (Hc lost_quarantined)|]. apply (Hsafe (GateCancel 1)).
  destruct (gate_exec (GateCancel 1) lost). reflexivity.
Defined.

Example fence_completion_exact_witness :
  match try_rollback 2 about_done with
  | (Ok Pending, g') | (Err _, g') => waiting 2 about_done g'
  | (Ok (Ready _), g') => fence_done 2 about_done
  | (Panic p, _) => p = Overflow ∨ p = Foreign
  end.
Proof.
  generalize (fence_completion_exact (model_answers toy_logits) gate_batch_config gate_pool _ about_done 2 [] 4
    gate_pool_fits about_done_reachable). intros [_ Hr]. revert Hr.
  destruct (try_rollback 2 about_done) as [[[|u]|e|p] g']; tauto.
Defined.

Example selected_batch_commits_witness :
  match complete_selected_batch sampled_selection sampled_scheduler with
  | (Ok tokens, s') => tokens = bs_tokens sampled_selection ∧ in_flight s' = None
  | (Err _, _) => False
  | (Panic p, _) => p = Overflow
  end.
Proof.
  generalize (selected_batch_commits gate_batch_config gate_pool sampled_scheduler sampled_batch sampled_logits 4
    sampled_selection gate_pool_fits sampled_scheduler_reachable sampled_in_flight sampled_kind sampled_selected).
  destruct (complete_selected_batch sampled_selection sampled_scheduler) as [[tokens|e|p] s']; tauto.
Defined.
