(* ===== verification/DeviceExamples.v ===== *)
(** * Device batches on concrete data

    A device that follows a script of failures, the executors it leads to, and the
    instances of the theorems there. *)
From S2P Require Import Prelude Float GenerationControl Generation Sampling SamplingSpec.
From S2P Require Import PagedKv PagedKvSpec ContinuousBatch ContinuousBatchSchedule ContinuousBatchCalls ContinuousBatchExamples.
From S2P Require Import BatchSampling BatchDecoding FencedBatch DeviceBatch DeviceBatchSpec BatchExamples.
Open Scope nat_scope.
Open Scope m_scope.

(** ** A device that records what it was given *)
Section Device.
Context `{DefaultHasher} `{Exponential, Randomness}.
Context (L : list Z → list f32) (limits : CausalModelLimits) (L_width : ∀ h, length (L h) = vocab_size limits).

(** What the next forward or synchronization does. *)
Inductive device_event := Fine | Fails | Breaks.

Definition device_next (device : list device_event) : device_event * list device_event :=
  match device with [] => (Fine, []) | e :: rest => (e, rest) end.

Definition append_row (known : Contents) (row : ScheduledSequence) (into : Contents) : Contents :=
  <[row_request_id row := (tokens_of known (row_request_id row) ++ row_token_ids row, row_block_table row)]> into.

Definition append_rows (known : Contents) (rows : list ScheduledSequence) : Contents :=
  foldr (append_row known) known rows.

Definition row_logits (known : Contents) (row : ScheduledSequence) : list f32 :=
  L (tokens_of known (row_request_id row) ++ row_token_ids row).

#[local] Instance scripted_device : DeviceBatchModel := {|
  BatchCache := Contents;
  BatchDevice := list device_event;
  BatchTensor := list nat * list f32;
  tensor_dims := fst;
  tensor_values t := Ok t.2;
  batch_limits := limits;
  new_batch_cache _ := ∅;
  fork_batch_cache c := c;
  forward_batch_sampling b _ d c sampling :=
    let '(e, d) := device_next d in
    match e with
    | Fine => (Ok ([batch_size b; 1; vocab_size limits], mjoin (map (row_logits c) (batch_sequences b))),
               (d, append_rows c (batch_sequences b), sampling))
    | Fails => (Err "out of memory", (d, c, sampling))
    | Breaks => (Panic Foreign, (d, c, sampling))
    end;
  retain_batch_cache c s := filter (λ e, contains_sequence (kv_cache s) e.1 = true) c;
  sync_batch d := let '(e, d) := device_next d in
    (match e with Fine => Ok tt | Fails => Err "device lost" | Breaks => Panic Foreign end, d);
  lookahead_tokens := 0;
  select_batch_token _ values sampler := λ c, (default_select_token values sampler, c)
|}.

Lemma append_rows_lookup known rows id : id ∉ map row_request_id rows → append_rows known rows !! id = known !! id.
Proof.
  induction rows as [|row rows IH]; simpl; [done|]. rewrite not_elem_of_cons. intros [Hne Hni].
  unfold append_row. rewrite lookup_insert_ne by done. by apply IH.
Qed.

Lemma append_rows_extended known b : NoDup (map row_request_id (batch_sequences b)) →
  extended known b (append_rows known (batch_sequences b)).
Proof.
  intros Hnd. split; [|intros id; apply append_rows_lookup].
  induction (batch_sequences b) as [|row rows IH]; simpl in *; [by intros row ?%elem_of_nil|].
  apply NoDup_cons in Hnd as [Hni Hnd]. unfold append_row at 1. intros row' [->|Hin]%elem_of_cons.
  - by rewrite lookup_insert_eq.
  - rewrite lookup_insert_ne; [by apply IH|]. intros Heq. apply Hni. rewrite Heq. by apply list_elem_of_fmap_2.
Qed.

#[local] Instance scripted_laws k : BatchModelLaws k L.
Proof.
  refine {| contents := id : Contents → Contents |}; simpl; try done.
  - intros c s id. destruct (contains_sequence (kv_cache s) id) eqn:E.
    + destruct (c !! id) as [v|] eqn:Ev.
      * by apply map_lookup_filter_Some.
      * apply map_lookup_filter_None. by left.
    + apply map_lookup_filter_None. right. intros v _. simpl. by rewrite E.
  - intros b d c sampling Hf. destruct (device_next d) as [[] d']; simpl; [|done..].
    split; [done|]. split; [by apply append_rows_extended, Hf|].
    intros values i row _ [= <-] Hi. rewrite (slice_rows (row_logits c) (vocab_size limits) _ i row); [done| |done].
    intros y. apply L_width.
  - intros d p. by destruct (device_next d) as [[] d']; intros [= <-].
Qed.
End Device.

(** ** Runs *)
#[local] Existing Instances demo_hasher toy_exp toy_random.

Definition toy_limits : CausalModelLimits := mk_limits 4 16.
#[local] Instance toy_device : DeviceBatchModel := scripted_device toy_logits toy_limits.
#[local] Instance toy_laws k : BatchModelLaws k toy_logits := scripted_laws toy_logits toy_limits toy_width k.

Notation Op := (@exec_op _ _ _ toy_device unit).

Fixpoint exec_drive (ops : list Op) (st : GateLog * DeviceBatchExecutor) : option (GateLog * DeviceBatchExecutor) :=
  match ops with
  | [] => Some st
  | op :: rest =>
      match exec_run op st.2 with
      | (Panic _, _) => None
      | (r, x') =>
          if decide (u64_max ≤ next_reservation (kv_cache (ex_scheduler x')))%N then None
          else exec_drive rest (exec_logged st.2 op r st.1, x')
      end
  end.

Lemma exec_drive_reachable (allowed : Op → Prop) c ops st st' : Forall allowed ops →
  exec_reachable gate_pool allowed c st.1 st.2 → exec_drive ops st = Some st' →
  exec_reachable gate_pool allowed c st'.1 st'.2.
Proof.
  intros Hops. revert st. induction Hops as [|op ops Hop Hops IH]; intros st Hr Heq; simpl in Heq; [by simplify_eq|].
  destruct (exec_run op st.2) as [r x'] eqn:Ex.
  assert (∀ p, r ≠ Panic p) as Hp by (by intros p ->).
  assert (¬ exhausted (ex_scheduler x') ∧ exec_drive ops (exec_logged st.2 op r st.1, x') = Some st') as [Hn Hd]
    by (destruct r; [..|done]; by case_decide).
  eapply IH; [|exact Hd]. by eapply exec_next.
Qed.

Definition toy_step : Op := ExStep None None tt.

Definition device_calls : list Op :=
  [ExSubmit [1; 2]%Z (mk_generation 3 []);
   ExSubmitSampled [3]%Z (mk_sampling_generation 4 [] (mk_sampling one 0 one (Some 3%N)))].

Definition device_run (device : list device_event) (ops : list Op) : option (GateLog * DeviceBatchExecutor) :=
  match new_executor device gate_batch_config gate_pool default_options with
  | Ok x => exec_drive (device_calls ++ ops) (∅, x)
  | _ => None
  end.

Definition device_at (device : list device_event) (ops : list Op) : GateLog * DeviceBatchExecutor :=
  match device_run device ops with
  | Some st => st
  | None => (∅, mk_executor [] (FencedBatch.gt_scheduler lost) ∅)
  end.

Lemma device_at_reachable (allowed : Op → Prop) device ops : Forall allowed (device_calls ++ ops) →
  (if device_run device ops then true else false) = true →
  exec_reachable gate_pool allowed gate_batch_config (device_at device ops).1 (device_at device ops).2.
Proof.
  intros Hops. unfold device_at, device_run. destruct (new_executor _ _ _ _) as [x|e|p] eqn:Ex; [|done..].
  destruct (exec_drive _ _) as [st|] eqn:E; [intros _|done].
  eapply exec_drive_reachable; [exact Hops| |exact E]. by eapply exec_start.
Qed.

(** A forward fails, then every batch completes; a batch that is never synchronized. *)
Definition device_done := device_at [Fails; Fine; Fine] (replicate 20 toy_step ++ [ExCancel 7]).
Definition device_stuck := device_at [Fine; Fine; Fine; Fails] (replicate 3 toy_step).

Lemma device_done_reachable : exec_reachable gate_pool (unprocessed : Op → Prop) gate_batch_config device_done.1 device_done.2.
Proof. apply device_at_reachable; [repeat constructor|vm_compute; reflexivity]. Qed.

Lemma device_stuck_reachable : exec_reachable gate_pool (unprocessed : Op → Prop) gate_batch_config device_stuck.1 device_stuck.2.
Proof. apply device_at_reachable; [repeat constructor|vm_compute; reflexivity]. Qed.

Lemma device_result_finished : sampled_result ∈ finished (ex_scheduler device_done.2).
Proof. apply list_elem_of_lookup. exists 1. vm_compute. reflexivity. Qed.

Example device_stuck_in_flight : bool_decide (is_Some (in_flight (ex_scheduler device_stuck.2))) = true ∧
  map_to_list (ex_cache device_stuck.2) = [(1%N, ([1; 2]%Z, [0%N]))].
Proof. vm_compute. split; reflexivity. Qed.

#[local] Opaque device_done device_stuck demo_hasher toy_exp toy_random toy_logits.

Example device_batching_equals_single_decoding_witness :
  ∃ generation sampler,
    device_done.1 !! 2%N = Some ([3]%Z, generation, sampler) ∧
    decode (device_pick toy_logits) (list_to_set (eos_token_ids generation)) (max_new_tokens generation)
      [3]%Z [] sampler = Ok [0; 2; 3; 0]%Z.
Proof.
  exact (device_batching_equals_single_decoding gate_pool toy_logits gate_batch_config device_done.1 device_done.2
    sampled_result gate_pool_fits device_done_reachable device_result_finished).
Defined.

(** The stuck executor cannot step on, and nothing of the cache moves. *)
Example device_executor_in_step_witness :
  in_step (contents (k := gate_pool) (L := toy_logits) (ex_cache device_stuck.2)) (ex_scheduler device_stuck.2) ∧
  exec_effect gate_pool toy_logits toy_step device_stuck.2
    (exec_run toy_step device_stuck.2).1 (exec_run toy_step device_stuck.2).2.
Proof.
  destruct (device_executor_in_step gate_pool toy_logits (unprocessed : Op → Prop) gate_batch_config _ device_stuck.2
    gate_pool_fits device_stuck_reachable) as (Hs & _ & He).
  split; [exact Hs|]. apply (He toy_step). destruct (exec_run toy_step device_stuck.2). reflexivity.
Defined.
