(* ===== verification/TieredPrefix.v ===== *)
(** * The tiered prefix cache

    [TieredPrefixCache] of src/src/prefix_cache.rs: prefilled prompts kept by their
    tokens on the device, serialized in host memory and in files, with budgets and
    least-recently-used spilling from each tier to the next. *)
From S2P Require Import Prelude PagedKv ContinuousBatch GenerationControl Generation.
From S2P Require Import GenerationSession GenerationRecord.
Open Scope nat_scope.
Open Scope m_scope.

(** ** Ordered maps keyed by token vectors *)

(** The lexicographic order of [Vec<i32>]. *)
Fixpoint vec_leb (a b : list Z) : bool :=
  match a, b with
  | [], _ => true
  | _ :: _, [] => false
  | x :: a, y :: b => if (x =? y)%Z then vec_leb a b else (x <? y)%Z
  end.

Definition vec_key_le {V} : relation (list Z * V) := λ a b, vec_leb a.1 b.1 = true.
#[export] Instance vec_key_le_dec {V} : RelDecision (@vec_key_le V).
Proof. intros a b. unfold vec_key_le. apply _. Defined.

Definition vec_iter {V} (m : gmap (list Z) V) : list (list Z * V) := merge_sort vec_key_le (map_to_list m).

(** [Iterator::min_by_key]: the first of the least. *)
Fixpoint min_by_key {A} (f : A → N) (l : list A) : option A :=
  match l with
  | [] => None
  | x :: rest =>
      match min_by_key f rest with
      | Some y => if (f x <=? f y)%N then Some x else Some y
      | None => Some x
      end
  end.

(** ** Files

    One directory, as std::fs shows it.  Every call may fail; the faults to come are
    part of the state of the disk.  A write that fails may leave a part. *)
Notation Bytes := (list Byte.byte).

Record DirFile := mk_file { df_name : string; df_is_file : bool; df_bytes : Bytes }.

Record io_fault := mk_fault { ft_message : string; ft_written : nat }.

Record Disk := mk_disk { dk_files : list DirFile; dk_faults : list (option io_fault) }.

Definition find_file (name : string) (files : list DirFile) : option DirFile :=
  snd <$> list_find (λ f, df_name f = name) files.

Definition without_file (name : string) (files : list DirFile) : list DirFile :=
  filter (λ f, df_name f ≠ name) files.

(** [rmp_serde] on the tuple a prefix is saved as, with the record's conversion to
    its serialized item; the header alone; [Sha256]; the process id. *)
Class PrefixStorage `{GenerationCacheContinuation} := {
  encode_prefix : N → string → CausalModelLimits → list Z → CacheRecord → TensorData → Fallible Bytes;
  decode_prefix : Bytes → Fallible (N * string * CausalModelLimits * list Z * CacheRecord * TensorData);
  decode_header : Bytes → Fallible (N * string * CausalModelLimits * list Z);
  sha256_hex : string → string;
  process_id : N
}.

Record PrefixCacheConfig := mk_prefix_config {
  block_tokens : nat;
  cfg_device_entries : nat;
  cfg_host_bytes : nat;
  disk_directory : option string;
  cfg_disk_bytes : nat
}.

Record PrefixCacheStats := mk_prefix_stats {
  lookups : N;
  hits : N;
  ps_reused_tokens : N;
  device_entries : nat;
  host_bytes : nat;
  disk_bytes : nat
}.

Section Tiered.
Context `{PrefixStorage}.

Inductive Tier :=
| Device (prefix : PrefilledPrompt)
| Host (bytes : Bytes)
| OnDisk (path : string) (size : nat).

Record Entry := mk_entry { tier : Tier; used : N }.

Record TieredPrefixCache := mk_tiered {
  tp_model_id : string;
  tp_limits : CausalModelLimits;
  tp_config : PrefixCacheConfig;
  entries : gmap (list Z) Entry;
  tick : N;
  stats : PrefixCacheStats;
  (** the configured directory *)
  disk : Disk
}.
Implicit Types s : TieredPrefixCache.

Notation TM := (M TieredPrefixCache GenerationError).

(** Field updates. *)
Definition put_entries m s : TieredPrefixCache :=
  mk_tiered (tp_model_id s) (tp_limits s) (tp_config s) m (tick s) (stats s) (disk s).
Definition put_tick n s : TieredPrefixCache :=
  mk_tiered (tp_model_id s) (tp_limits s) (tp_config s) (entries s) n (stats s) (disk s).
Definition put_stats x s : TieredPrefixCache :=
  mk_tiered (tp_model_id s) (tp_limits s) (tp_config s) (entries s) (tick s) x (disk s).
Definition put_disk_state d s : TieredPrefixCache :=
  mk_tiered (tp_model_id s) (tp_limits s) (tp_config s) (entries s) (tick s) (stats s) d.
Definition put_lookups n x : PrefixCacheStats :=
  mk_prefix_stats n (hits x) (ps_reused_tokens x) (device_entries x) (host_bytes x) (disk_bytes x).
Definition put_hits n x : PrefixCacheStats :=
  mk_prefix_stats (lookups x) n (ps_reused_tokens x) (device_entries x) (host_bytes x) (disk_bytes x).
Definition put_reused n x : PrefixCacheStats :=
  mk_prefix_stats (lookups x) (hits x) n (device_entries x) (host_bytes x) (disk_bytes x).
Definition put_device n x : PrefixCacheStats :=
  mk_prefix_stats (lookups x) (hits x) (ps_reused_tokens x) n (host_bytes x) (disk_bytes x).
Definition put_host n x : PrefixCacheStats :=
  mk_prefix_stats (lookups x) (hits x) (ps_reused_tokens x) (device_entries x) n (disk_bytes x).
Definition put_disk_bytes n x : PrefixCacheStats :=
  mk_prefix_stats (lookups x) (hits x) (ps_reused_tokens x) (device_entries x) (host_bytes x) n.

(** [x += n] and [x -= n] on counters that panic. *)
Definition add_u64 (get : TieredPrefixCache → N) (put : N → TieredPrefixCache → TieredPrefixCache) (n : N) : TM unit :=
  let! s := mget in
  let! x := mexpect Overflow (checked_add u64_max (get s) n) in mmodify (put x).
Definition add_usize (get : PrefixCacheStats → nat) (put : nat → PrefixCacheStats → PrefixCacheStats) (n : nat) : TM unit :=
  let! s := mget in
  let! x := mexpect Overflow (usize_add (get (stats s)) n) in mmodify (λ s, put_stats (put x (stats s)) s).
Definition sub_usize (get : PrefixCacheStats → nat) (put : nat → PrefixCacheStats → PrefixCacheStats) (n : nat) : TM unit :=
  let! s := mget in
  let! x := mexpect Overflow (usize_sub (get (stats s)) n) in mmodify (λ s, put_stats (put x (stats s)) s).

Definition bump_tick : TM unit := add_u64 tick put_tick 1.

(** ** Calls of std::fs *)
Definition set_files (files : list DirFile) s : TieredPrefixCache :=
  put_disk_state (mk_disk files (dk_faults (disk s))) s.

(** The next call's fault, if any. *)
Definition io_call : TM (option io_fault) := λ s,
  match dk_faults (disk s) with
  | [] => (Ok None, s)
  | fault :: rest => (Ok fault, put_disk_state (mk_disk (dk_files (disk s)) rest) s)
  end.

Definition or_fault : TM unit :=
  let! fault := io_call in
  match fault with Some f => mthrow (ft_message f) | None => mret tt end.

Definition fs_remove_file (name : string) : TM unit :=
  or_fault ;;;
  let! s := mget in
  match find_file name (dk_files (disk s)) with
  | None => mthrow "No such file or directory"
  | Some _ => mmodify (set_files (without_file name (dk_files (disk s))))
  end.

Definition fs_read (name : string) : TM Bytes :=
  or_fault ;;;
  let! s := mget in
  match find_file name (dk_files (disk s)) with
  | None => mthrow "No such file or directory"
  | Some f => mret (df_bytes f)
  end.

Inductive Created := NewFile | AlreadyExists.

(** [OpenOptions::new().write(true).create_new(true).open] *)
Definition fs_create_new (name : string) : TM Created :=
  or_fault ;;;
  let! s := mget in
  match find_file name (dk_files (disk s)) with
  | Some _ => mret AlreadyExists
  | None => mmodify (set_files (dk_files (disk s) ++ [mk_file name true []])) ;;; mret NewFile
  end.

Definition set_contents (name : string) (bytes : Bytes) (f : DirFile) : DirFile :=
  if decide (df_name f = name) then mk_file name (df_is_file f) bytes else f.

(** [write_all] and [sync_all] on a file just created. *)
Definition fs_write_all (name : string) (bytes : Bytes) : TM unit :=
  let! fault := io_call in
  let! s := mget in
  match fault with
  | None => mmodify (set_files (set_contents name bytes <$> dk_files (disk s)))
  | Some f =>
      mmodify (set_files (set_contents name (take (ft_written f) bytes) <$> dk_files (disk s))) ;;;
      mthrow (ft_message f)
  end.

(** ** Eviction *)
Definition on_device_tier (t : Tier) : bool := match t with Device _ => true | _ => false end.
Definition on_host_tier (t : Tier) : bool := match t with Host _ => true | _ => false end.
Definition on_disk_tier (t : Tier) : bool := match t with OnDisk _ _ => true | _ => false end.

(** The least recently used entry of a tier. *)
Definition oldest (holds : Tier → bool) (m : gmap (list Z) Entry) : option (list Z) :=
  fst <$> min_by_key (λ e, used e.2) (filter (λ e, holds (tier e.2) = true) (vec_iter m)).

Definition remove_entry (key : list Z) : TM unit := mmodify (λ s, put_entries (delete key (entries s)) s).
Definition insert_entry (key : list Z) (e : Entry) : TM unit := mmodify (λ s, put_entries (<[key := e]> (entries s)) s).

Definition evict_disk : TM unit :=
  let! s := mget in
  let! old := mok_or (oldest on_disk_tier (entries s)) "disk budget has no evictable payload" in
  let! e := mexpect Expect (entries s !! old) in
  match tier e with
  | OnDisk path size =>
      fs_remove_file path ;;;
      sub_usize disk_bytes put_disk_bytes size ;;;
      remove_entry old
  | _ => mpanic Expect
  end.

(** [usize::saturating_add] *)
Definition saturating_add (a b : nat) : N := N.min usize_max (N.of_nat a + N.of_nat b).

(** [while self.stats.disk_bytes.saturating_add(extra) > self.config.disk_bytes] *)
Fixpoint evict_loop (fuel : nat) (extra : nat) : TM unit :=
  match fuel with
  | 0 => mpanic OutOfFuel
  | S fuel =>
      let! s := mget in
      if decide (N.of_nat (cfg_disk_bytes (tp_config s)) < saturating_add (disk_bytes (stats s)) extra)%N then
        evict_disk ;;; evict_loop fuel extra
      else mret tt
  end.

Definition evict_until (extra : nat) : TM unit :=
  let! s := mget in evict_loop (S (size (entries s))) extra.

(** ** Saving and restoring a prefix *)
Definition capture (p : PrefilledPrompt) : Gen Bytes :=
  do? _ := lift (device_sync (pf_cache p)) in
  do? record := lift (capture_generation (pf_cache p) (pf_model_id p)) in
  do? logits := lift (read_data (pf_logits p)) in
  lift (encode_prefix 1 (pf_model_id p) (pf_limits p) (pf_tokens p) record logits).

(** The token checks shared by [restore] and [reopen_disk]. *)
Definition bad_tokens (limits : CausalModelLimits) (tokens : list Z) : Prop :=
  tokens = [] ∨ max_model_length limits < length tokens ∨ existsb (outside (vocab_size limits)) tokens = true.
#[export] Instance bad_tokens_dec limits tokens : Decision (bad_tokens limits tokens).
Proof. unfold bad_tokens. apply _. Defined.

Definition restore_prefix (bytes : Bytes) (model_id : string) (limits : CausalModelLimits) : Gen PrefilledPrompt :=
  do? decoded := lift (decode_prefix bytes) in
  let '(version, id, saved_limits, tokens, record, logits) := decoded in
  if decide (version ≠ 1%N ∨ id ≠ model_id ∨ saved_limits ≠ limits ∨ bad_tokens limits tokens ∨
             td_shape logits ≠ [1; 1; vocab_size limits] ∨ td_is_float logits = false ∨
             usize_mul (vocab_size limits) (td_element_bytes logits) ≠ Some (td_byte_length logits)) then
    Err "offloaded prefix identity, tokens or logits geometry differs"
  else
    do? cache := lift (restore_generation record model_id new_cache (length tokens)) in
    let prefix := mk_prefilled id limits tokens cache (from_data logits) in
    do? _ := validate_prefilled prefix model_id limits tokens in
    Ok prefix.

(** [PrefilledPrompt::export] and [import]. *)
Definition export (p : PrefilledPrompt) : Gen Bytes :=
  do? _ := validate_prefilled p (pf_model_id p) (pf_limits p) (pf_tokens p) in
  if decide (generation_position (pf_cache p) ≠ length (pf_tokens p)) then
    Err "prefix cache position differs from exported prompt"
  else capture p.

Definition import (bytes : Bytes) (model_id : string) (limits : CausalModelLimits) (expected_prompt : list Z) :
    Gen PrefilledPrompt :=
  do? prefix := restore_prefix bytes model_id limits in
  if decide (pf_tokens prefix ≠ expected_prompt) then
    Err "prefill handoff does not match the requested prompt"
  else Ok prefix.

(** ** The disk tier *)
Definition kv_name (serial : N) : string := "ruda-kv-" +:+ pretty process_id +:+ "-" +:+ pretty serial +:+ ".mpk".

(** [loop { .. create_new(true).open(..) .. }] *)
Fixpoint create_loop (fuel : nat) (serial : N) : TM string :=
  match fuel with
  | 0 => mpanic OutOfFuel
  | S fuel =>
      let! created := fs_create_new (kv_name serial) in
      match created with
      | NewFile => mret (kv_name serial)
      | AlreadyExists =>
          let! next := mexpect Overflow (checked_add u64_max serial 1) in create_loop fuel next
      end
  end.

Definition create_file : TM string :=
  let! s := mget in create_loop (S (length (dk_files (disk s)))) (tick s).

Definition put_disk (key : list Z) (bytes : Bytes) (last_used : N) : TM unit :=
  let! s := mget in
  let budget := cfg_disk_bytes (tp_config s) in
  if decide (budget < length bytes ∨ budget = 0) then mret tt else
  evict_until (length bytes) ;;;
  let! s := mget in
  let! _ := mexpect Expect (disk_directory (tp_config s)) in
  let! path := create_file in
  mcatch (fs_write_all path bytes)
    (λ e, mcatch (fs_remove_file path) (λ _, mret tt) ;;; mthrow e) ;;;
  add_usize disk_bytes put_disk_bytes (length bytes) ;;;
  insert_entry key (mk_entry (OnDisk path (length bytes)) last_used).

Definition kv_prefix : string := "ruda-kv-".
Definition kv_suffix : string := ".mpk".
Definition ends_with (suffix s : string) : bool :=
  let n := String.length s in let k := String.length suffix in
  (k <=? n) && String.eqb (String.substring (n - k) k s) suffix.

(** [starts_with("ruda-kv-")] and [extension() == Some("mpk")] *)
Definition kv_file_name (name : string) : bool := String.prefix kv_prefix name && ends_with kv_suffix name.

(** One entry of the directory: reading it, its type, its metadata and its header
    may each fail; an unreadable header is skipped. *)
Definition reopen_file (f : DirFile) : TM unit :=
  or_fault ;;;
  if negb (df_is_file f && kv_file_name (df_name f)) then mret tt else
  or_fault ;;;
  let! fault := io_call in
  match fault, decode_header (df_bytes f) with
  | None, inr (version, id, limits, tokens) =>
      let! s := mget in
      if decide (version ≠ 1%N ∨ id ≠ tp_model_id s ∨ limits ≠ tp_limits s ∨ bad_tokens limits tokens) then mret tt else
      bump_tick ;;;
      let! s := mget in
      if decide (is_Some (entries s !! tokens)) then fs_remove_file (df_name f) else
      let! total := mok_or (usize_add (disk_bytes (stats s)) (length (df_bytes f))) "disk cache byte count overflow" in
      mmodify (λ s, put_stats (put_disk_bytes total (stats s)) s) ;;;
      insert_entry tokens (mk_entry (OnDisk (df_name f) (length (df_bytes f))) (tick s))
  | _, _ => mret tt
  end.

Definition reopen_disk : TM unit :=
  let! s := mget in
  match disk_directory (tp_config s) with
  | None => mret tt
  | Some _ =>
      if decide (cfg_disk_bytes (tp_config s) = 0) then mret tt else
      or_fault ;;;
      let! s := mget in
      mfor (dk_files (disk s)) reopen_file ;;;
      evict_until 0
  end.

Definition new_tiered (model_id : string) (limits : CausalModelLimits) (config : PrefixCacheConfig) (d : Disk) :
    Gen TieredPrefixCache :=
  if decide (model_id = EmptyString) then Err "prefix cache requires exact frozen model identity"
  else if decide (block_tokens config = 0) then Err "prefix block size must be positive"
  else if decide (0 < cfg_disk_bytes config ∧ disk_directory config = None) then
    Err "disk tier needs an explicit directory"
  else
    let directory := (λ dir, dir +:+ "/" +:+ sha256_hex model_id) <$> disk_directory config in
    let config := mk_prefix_config (block_tokens config) (cfg_device_entries config) (cfg_host_bytes config)
                    directory (cfg_disk_bytes config) in
    let start := mk_tiered model_id limits config ∅ 0 (mk_prefix_stats 0 0 0 0 0 0) d in
    match ((match directory with Some _ => or_fault | None => mret tt end) ;;; reopen_disk) start with
    | (Ok _, s) => Ok s
    | (Err e, _) => Err e
    | (Panic p, _) => Panic p
    end.

(** ** Insertion *)
Definition tiers_off (c : PrefixCacheConfig) : Prop :=
  cfg_device_entries c = 0 ∧ cfg_host_bytes c = 0 ∧ cfg_disk_bytes c = 0.
#[export] Instance tiers_off_dec c : Decision (tiers_off c).
Proof. unfold tiers_off. apply _. Defined.

(** One turn of [while self.stats.device_entries > self.config.device_entries]. *)
Definition spill_device : TM unit :=
  let! s := mget in
  let! key := mexpect Expect (oldest on_device_tier (entries s)) in
  let! e := mexpect Expect (entries s !! key) in
  remove_entry key ;;;
  sub_usize device_entries put_device 1 ;;;
  match tier e with
  | Device prefix =>
      if decide (cfg_host_bytes (tp_config s) = 0 ∧ cfg_disk_bytes (tp_config s) = 0) then mret tt else
      let! bytes :=
        mcatch (mlift (capture prefix))
          (λ err, insert_entry key (mk_entry (Device prefix) (used e)) ;;;
                  add_usize device_entries put_device 1 ;;;
                  mthrow err) in
      if decide (length bytes ≤ cfg_host_bytes (tp_config s)) then
        add_usize host_bytes put_host (length bytes) ;;;
        insert_entry key (mk_entry (Host bytes) (used e))
      else put_disk key bytes (used e)
  | _ => mpanic Expect
  end.

Definition spill_host : TM unit :=
  let! s := mget in
  let! key := mexpect Expect (oldest on_host_tier (entries s)) in
  let! e := mexpect Expect (entries s !! key) in
  remove_entry key ;;;
  match tier e with
  | Host bytes => sub_usize host_bytes put_host (length bytes) ;;; put_disk key bytes (used e)
  | _ => mpanic Expect
  end.

Fixpoint spill_loop (fuel : nat) (over : TieredPrefixCache → bool) (spill : TM unit) : TM unit :=
  match fuel with
  | 0 => mpanic OutOfFuel
  | S fuel => let! s := mget in if over s then spill ;;; spill_loop fuel over spill else mret tt
  end.

Definition device_over s : bool := bool_decide (cfg_device_entries (tp_config s) < device_entries (stats s)).
Definition host_over s : bool := bool_decide (cfg_host_bytes (tp_config s) < host_bytes (stats s)).

Definition spill_while (over : TieredPrefixCache → bool) (spill : TM unit) : TM unit :=
  let! s := mget in spill_loop (S (size (entries s))) over spill.

Definition touch (n : N) (e : Entry) : Entry := mk_entry (tier e) n.

Definition insert_prefix (p : PrefilledPrompt) : TM unit :=
  let! s := mget in
  mlift (validate_prefilled p (tp_model_id s) (tp_limits s) (pf_tokens p)) ;;;
  if decide (generation_position (pf_cache p) ≠ length (pf_tokens p)) then mthrow "incomplete prefix cache" else
  if decide (tiers_off (tp_config s)) then mret tt else
  bump_tick ;;;
  let! s := mget in
  if decide (is_Some (entries s !! pf_tokens p)) then
    mmodify (λ s, put_entries (alter (touch (tick s)) (pf_tokens p) (entries s)) s)
  else
    insert_entry (pf_tokens p) (mk_entry (Device p) (tick s)) ;;;
    add_usize device_entries put_device 1 ;;;
    spill_while device_over spill_device ;;;
    spill_while host_over spill_host.

(** ** Lookup *)

(** [filter(starts_with).max_by_key(len)] *)
Definition longest_prefix (prompt : list Z) (m : gmap (list Z) Entry) : option (list Z) :=
  fst <$> max_by (λ a b, Nat.compare (length a.1) (length b.1))
            (filter (λ e, e.1 `prefix_of` prompt) (vec_iter m)).

Definition read_tier (prompt key : list Z) (t : Tier) : TM PrefilledPrompt :=
  let! s := mget in
  let! result :=
    match t with
    | Device prefix => mret prefix
    | Host bytes => mlift (restore_prefix bytes (tp_model_id s) (tp_limits s))
    | OnDisk path _ =>
        let! bytes := fs_read path in mlift (restore_prefix bytes (tp_model_id s) (tp_limits s))
    end in
  mlift (validate_prefilled result (tp_model_id s) (tp_limits s) prompt) ;;;
  if decide (generation_position (pf_cache result) ≠ length key) then
    mthrow "prefix cache position differs from token key"
  else mret result.

(** What a failed entry gives back. *)
Definition drop_failed (key : list Z) (t : Tier) : TM unit :=
  remove_entry key ;;;
  match t with
  | Device _ => sub_usize device_entries put_device 1
  | Host bytes => sub_usize host_bytes put_host (length bytes)
  | OnDisk _ _ => mret tt
  end.

Fixpoint lookup_loop (fuel : nat) (prompt : list Z) : TM (option PrefilledPrompt) :=
  match fuel with
  | 0 => mpanic OutOfFuel
  | S fuel =>
      let! s := mget in
      match longest_prefix prompt (entries s) with
      | None => mret None
      | Some key =>
          let! e := mexpect Expect (entries s !! key) in
          mmodify (λ s, put_entries (alter (touch (tick s)) key (entries s)) s) ;;;
          let! result :=
            mcatch (let! p := read_tier prompt key (tier e) in mret (Some p)) (λ _, mret None) in
          match result with
          | None => drop_failed key (tier e) ;;; lookup_loop fuel prompt
          | Some p =>
              add_u64 (λ s, hits (stats s)) (λ n s, put_stats (put_hits n (stats s)) s) 1 ;;;
              add_u64 (λ s, ps_reused_tokens (stats s)) (λ n s, put_stats (put_reused n (stats s)) s)
                (N.of_nat (length key)) ;;;
              mret (Some p)
          end
      end
  end.

Definition lookup_prefix (prompt : list Z) : TM (option PrefilledPrompt) :=
  add_u64 (λ s, lookups (stats s)) (λ n s, put_stats (put_lookups n (stats s)) s) 1 ;;;
  bump_tick ;;;
  let! s := mget in lookup_loop (S (size (entries s))) prompt.

(** ** Prefill *)

(** [(start / block + 1).saturating_mul(block).min(len)]; saturating cannot show
    below a length. *)
Definition next_boundary (c : PrefixCacheConfig) (start len : nat) : nat :=
  if decide (tiers_off c) then len else Nat.min ((start / block_tokens c + 1) * block_tokens c) len.

Fixpoint prefill_loop (fuel : nat) (prompt : list Z) (cache : Cache) (start : nat) (result : option PrefilledPrompt) :
    TM (option PrefilledPrompt) :=
  match fuel with
  | 0 => mpanic OutOfFuel
  | S fuel =>
      if decide (start < length prompt) then
        let! s := mget in
        let finish := next_boundary (tp_config s) start (length prompt) in
        let! input := mexpect OutOfBounds (slice start finish prompt) in
        let forwarded := try_forward_cached_last input cache in
        let! logits := mlift (lift forwarded.1) in
        let cache := forwarded.2 in
        mlift (lift (device_sync cache)) ;;;
        let! tokens := mexpect OutOfBounds (slice 0 finish prompt) in
        let prefix := mk_prefilled (tp_model_id s) (tp_limits s) tokens cache logits in
        mlift (validate_prefilled prefix (tp_model_id s) (tp_limits s) prompt) ;;;
        if decide (generation_position cache ≠ finish) then
          mthrow "prefill did not complete all layer cache state"
        else
          mcatch (insert_prefix prefix) (λ _, mret tt) ;;;
          prefill_loop fuel prompt cache finish (Some prefix)
      else mret result
  end.

Definition tiered_prefill (prompt : list Z) : TM PrefilledPrompt :=
  let! s := mget in
  if decide (bad_tokens (tp_limits s) prompt) then mthrow "invalid prompt tokens for prefix prefill" else
  let! existing := lookup_prefix prompt in
  let '(cache, start, result) :=
    match existing with
    | Some prefix => (pf_cache prefix, length (pf_tokens prefix), Some prefix)
    | None => (new_cache, 0, None)
    end in
  let! result := prefill_loop (S (length prompt)) prompt cache start result in
  mok_or result "prefix prefill produced no completed state".

Definition tiered_stats s : PrefixCacheStats := stats s.
End Tiered.
