(* ===== verification/TieredPrefixSpec.v ===== *)
(** * What the tiered prefix cache guarantees

    Its counters are exact and its budgets hold, no [expect] fails, a failing disk
    or record costs entries but never an answer, and a prefill through the tiers
    gives what forwarding the whole prompt gives. *)
From S2P Require Import Prelude PagedKv ContinuousBatch GenerationControl Generation GenerationSession.
From S2P Require Import GenerationRecord TieredPrefix.
Open Scope nat_scope.
Open Scope m_scope.

(** ** Sums over a map *)
Section Total.
Context {K V : Type} `{Countable K} (w : V → nat).
Implicit Types m : gmap K V.

Definition total m : nat := map_fold (λ _ v n, w v + n) 0 m.

Lemma total_empty : total ∅ = 0.
Proof. apply map_fold_empty. Qed.

Lemma total_insert m k v : m !! k = None → total (<[k := v]> m) = w v + total m.
Proof. intros Hk. unfold total. apply (map_fold_insert_L (λ _ v n, w v + n)); [intros; lia|done]. Qed.

Lemma total_delete m k v : m !! k = Some v → total m = w v + total (delete k m).
Proof. intros Hk. unfold total. apply (map_fold_delete_L (λ _ v n, w v + n)); [intros; lia|done]. Qed.

Lemma total_alter m k f : (∀ v, w (f v) = w v) → total (alter f k m) = total m.
Proof.
  intros Hf. destruct (m !! k) as [v|] eqn:Hk.
  - rewrite (total_delete m k v Hk), (total_delete (alter f k m) k (f v)) by (by rewrite lookup_alter_eq, Hk).
    by rewrite Hf, delete_alter_eq.
  - by rewrite alter_id by congruence.
Qed.

Lemma total_pos m : total m ≠ 0 → ∃ k v, m !! k = Some v ∧ w v ≠ 0.
Proof.
  unfold total. apply (map_fold_weak_ind (λ n m, n ≠ 0 → ∃ k v, m !! k = Some v ∧ w v ≠ 0)); [done|].
  intros k v m' n Hk IH Hn. destruct (decide (w v = 0)) as [Hv|Hv].
  - destruct IH as (k' & v' & Hk' & Hv'); [lia|]. exists k', v'. rewrite lookup_insert_ne; [done|]. intros <-. congruence.
  - exists k, v. by rewrite lookup_insert_eq.
Qed.

Lemma total_filter m : total m = total (filter (λ e, w e.2 ≠ 0) m).
Proof.
  induction m as [|k v m Hk IH] using map_ind; [by rewrite map_filter_empty|].
  rewrite total_insert by done. destruct (decide (w v = 0)) as [Hv|Hv].
  - rewrite map_filter_insert_False by (simpl; auto). rewrite map_filter_delete_not by (intros y; rewrite Hk; done). lia.
  - rewrite map_filter_insert_True by done. rewrite total_insert; [lia|]. apply map_lookup_filter_None. by left.
Qed.

(** Only what weighs counts. *)
Lemma total_same m m' : (∀ k v, w v ≠ 0 → m' !! k = Some v ↔ m !! k = Some v) → total m' = total m.
Proof.
  intros Hs. rewrite (total_filter m), (total_filter m'). f_equal. apply map_eq. intros k. apply option_eq. intros v.
  rewrite !map_lookup_filter_Some. simpl. split; intros [? Hv]; (split; [by apply Hs|done]).
Qed.

Lemma total_le_size m : (∀ v, w v ≤ 1) → total m ≤ size m.
Proof.
  intros Hw. induction m as [|k v m Hk IH] using map_ind; [done|].
  rewrite total_insert, map_size_insert_None by done. specialize (Hw v). lia.
Qed.
End Total.

Lemma size_alter `{Countable K} {V} (m : gmap K V) k f : size (alter f k m) = size m.
Proof. rewrite <- !size_dom. f_equal. apply leibniz_equiv. by rewrite dom_alter. Qed.

Section MinBy.
Context {A : Type} (f : A → N).

Lemma min_by_key_None l : min_by_key f l = None ↔ l = [].
Proof. destruct l as [|x l]; simpl; [done|]. destruct (min_by_key f l); [|done]. by destruct (_ <=? _)%N. Qed.

Lemma min_by_key_Some l x : min_by_key f l = Some x → x ∈ l ∧ ∀ y, y ∈ l → (f x ≤ f y)%N.
Proof.
  revert x. induction l as [|z l IH]; intros x; simpl; [done|].
  destruct (min_by_key f l) as [y|] eqn:E.
  - destruct (IH y eq_refl) as [Hy Hmin].
    destruct (f z <=? f y)%N eqn:Ez; intros [= <-]; [apply N.leb_le in Ez|apply N.leb_gt in Ez].
    + split; [by left|]. intros y' [->|Hy']%elem_of_cons; [done|]. etrans; [done|by apply Hmin].
    + split; [by right|]. intros y' [->|Hy']%elem_of_cons; [lia|by apply Hmin].
  - intros [= <-]. apply min_by_key_None in E as ->. split; [by left|].
    intros y ->%list_elem_of_singleton. done.
Qed.
End MinBy.

Lemma elem_of_vec_iter {V} (m : gmap (list Z) V) k v : (k, v) ∈ vec_iter m ↔ m !! k = Some v.
Proof. unfold vec_iter. rewrite merge_sort_Permutation. apply elem_of_map_to_list. Qed.

Section Tiered.
Context `{PrefixStorage}.
Implicit Types s : TieredPrefixCache.
Notation TM := (M TieredPrefixCache GenerationError).

(** The least recently used entry of a tier, if the tier has one. *)
Lemma oldest_Some holds m key : oldest holds m = Some key → ∃ e, m !! key = Some e ∧ holds (tier e) = true ∧
  ∀ k e', m !! k = Some e' → holds (tier e') = true → (used e ≤ used e')%N.
Proof.
  intros ([k e] & Hmin & ->)%fmap_Some. simpl. apply min_by_key_Some in Hmin as [Hin Hmin].
  apply list_elem_of_filter in Hin as [Ht Hin]. apply elem_of_vec_iter in Hin. exists e. split_and!; [done..|].
  intros k' e' Hk' Ht'. apply (Hmin (k', e')), list_elem_of_filter. split; [done|]. by apply elem_of_vec_iter.
Qed.

Lemma oldest_None holds m : oldest holds m = None → ∀ k e, m !! k = Some e → holds (tier e) = false.
Proof.
  intros Hn%fmap_None k e Hk. apply min_by_key_None in Hn. apply not_true_is_false. intros Ht.
  assert ((k, e) ∈ filter (λ e : list Z * Entry, holds (tier e.2) = true) (vec_iter m)) as Hin
    by (apply list_elem_of_filter; split; [done|by apply elem_of_vec_iter]).
  rewrite Hn in Hin. by apply elem_of_nil in Hin.
Qed.

(** ** Accounting *)
Definition device_weight (e : Entry) : nat := match tier e with Device _ => 1 | _ => 0 end.
Definition host_weight (e : Entry) : nat := match tier e with Host bytes => length bytes | _ => 0 end.
Definition disk_weight (e : Entry) : nat := match tier e with OnDisk _ size => size | _ => 0 end.

(** A prefix the model itself computed, completely. *)
Definition good (p : PrefilledPrompt) : Prop :=
  prefix_of_model p ∧ generation_position (pf_cache p) = length (pf_tokens p).

(** Saved from such a prefix of this model. *)
Definition saved (model_id : string) (limits : CausalModelLimits) (bytes : Bytes) : Prop :=
  ∃ p, good p ∧ capture p = Ok bytes ∧ pf_model_id p = model_id ∧ pf_limits p = limits.

(** Bytes that, if they are accepted at all, give such a prefix. *)
Definition trusted (model_id : string) (limits : CausalModelLimits) (bytes : Bytes) : Prop :=
  ∀ p, restore_prefix bytes model_id limits = Ok p → good p.

Definition sound_entry s (e : Entry) : Prop :=
  match tier e with
  | Device p => good p ∧ pf_model_id p = tp_model_id s ∧ pf_limits p = tp_limits s
  | Host bytes => saved (tp_model_id s) (tp_limits s) bytes
  | OnDisk _ _ => True
  end.

(** What the storage promises: it gives back what was saved, and rejects a part of
    it. *)
Class PrefixStorageLaws : Prop := {
  stored_capture cache model_id r : capture_generation cache model_id = inr r →
    restore_generation r model_id new_cache (generation_position cache) = inr cache;
  stored_position r model_id cache n cache' : restore_generation r model_id cache n = inr cache' →
    generation_position cache' = n;
  stored_logits logits data : read_data logits = inr data → from_data data = logits;
  stored_bytes version id limits tokens r data bytes :
    encode_prefix version id limits tokens r data = inr bytes →
    decode_prefix bytes = inr (version, id, limits, tokens, r, data);
  stored_part version id limits tokens r data bytes n :
    encode_prefix version id limits tokens r data = inr bytes → n < length bytes →
    ∃ e, decode_prefix (take n bytes) = inl e;
  stored_nothing : ∃ e, decode_prefix [] = inl e
}.

(** Between two steps of a method [d] prefixes and [h] bytes are counted that have
    no entry, and [k] bytes of files. *)
Record accounts (d h k : nat) s : Prop := {
  ac_device : device_entries (stats s) = d + total device_weight (entries s);
  ac_host : host_bytes (stats s) = h + total host_weight (entries s);
  ac_disk : k + total disk_weight (entries s) ≤ disk_bytes (stats s);
  ac_entries : ∀ key e, entries s !! key = Some e → sound_entry s e;
  ac_files : ∀ f, f ∈ dk_files (disk s) → trusted (tp_model_id s) (tp_limits s) (df_bytes f);
  ac_directory : 0 < cfg_disk_bytes (tp_config s) → disk_directory (tp_config s) ≠ None;
  ac_blocks : 0 < block_tokens (tp_config s)
}.

(** The same cache of the same model. *)
Definition setup s : string * CausalModelLimits * PrefixCacheConfig := (tp_model_id s, tp_limits s, tp_config s).

(** The tiers other than files fit their budgets as far as they did. *)
Definition same_entries s s' : Prop := setup s' = setup s ∧ entries s' = entries s ∧ stats s' = stats s ∧ tick s' = tick s.

Lemma add_u64_wp get put n s (Q : res GenerationError unit → TieredPrefixCache → Prop) :
  Q (Ok tt) (put (get s + n)%N s) → Q (Panic Overflow) s → wp (add_u64 get put n) Q s.
Proof.
  intros HOk HP. unfold add_u64. do 2 wp_step. wp_step. unfold mexpect, checked_add.
  case_decide; [apply wp_ret; by apply wp_modify|by apply wp_panic].
Qed.

Lemma add_usize_wp get put n s (Q : res GenerationError unit → TieredPrefixCache → Prop) :
  Q (Ok tt) (put_stats (put (get (stats s) + n) (stats s)) s) → Q (Panic Overflow) s → wp (add_usize get put n) Q s.
Proof.
  intros HOk HP. unfold add_usize. do 2 wp_step. wp_step. unfold mexpect, usize_add.
  case_decide; [apply wp_ret; by apply wp_modify|by apply wp_panic].
Qed.

Lemma sub_usize_wp get put n s (Q : res GenerationError unit → TieredPrefixCache → Prop) :
  n ≤ get (stats s) → Q (Ok tt) (put_stats (put (get (stats s) - n) (stats s)) s) → wp (sub_usize get put n) Q s.
Proof.
  intros Hn HOk. unfold sub_usize. do 2 wp_step. wp_step. unfold mexpect, usize_sub.
  rewrite decide_True by done. apply wp_ret. by apply wp_modify.
Qed.

(** The steps of the methods. *)
Lemma accounts_remove d h k s key e : accounts d h k s → entries s !! key = Some e →
  accounts (d + device_weight e) (h + host_weight e) (k + disk_weight e) (put_entries (delete key (entries s)) s).
Proof.
  intros [Hd Hh Hk He Hf Hdir Hb] Hkey.
  rewrite (total_delete device_weight _ _ _ Hkey) in Hd. rewrite (total_delete host_weight _ _ _ Hkey) in Hh.
  rewrite (total_delete disk_weight _ _ _ Hkey) in Hk.
  split; simpl; [lia..| |done|done|done]. intros key' e' [_ He']%lookup_delete_Some. by apply (He key').
Qed.

Lemma accounts_insert d h k s key e : accounts (d + device_weight e) (h + host_weight e) (k + disk_weight e) s →
  entries s !! key = None → sound_entry s e →
  accounts d h k (put_entries (<[key := e]> (entries s)) s).
Proof.
  intros [Hd Hh Hk He Hf Hdir Hb] Hkey Hs.
  split; simpl; rewrite ?total_insert by done; [lia..| |done|done|done].
  intros key' e' [[<- <-]|[_ He']]%lookup_insert_Some; [done|by apply (He key')].
Qed.

Lemma accounts_stats d h k d' h' k' s x : accounts d h k s →
  device_entries x + d = device_entries (stats s) + d' → host_bytes x + h = host_bytes (stats s) + h' →
  disk_bytes (stats s) + k' ≤ disk_bytes x + k → accounts d' h' k' (put_stats x s).
Proof. intros [Hd Hh Hk He Hf Hdir Hb] ? ? ?. split; simpl; [lia..|done|done|done|done]. Qed.

Lemma accounts_touch d h k s key n : accounts d h k s →
  accounts d h k (put_entries (alter (touch n) key (entries s)) s).
Proof.
  intros [Hd Hh Hk He Hf Hdir Hb]. split; simpl; rewrite ?total_alter by done; try done.
  intros key' e' [(-> & e & He' & ->)|[_ He']]%lookup_alter_Some; [|by apply (He key')].
  pose proof (He _ _ He'). by destruct e as [[] ?].
Qed.

Lemma accounts_disk d h k s dsk : accounts d h k s →
  (∀ f, f ∈ dk_files dsk → trusted (tp_model_id s) (tp_limits s) (df_bytes f)) → accounts d h k (put_disk_state dsk s).
Proof. intros [] Hf. by split. Qed.

Lemma accounts_tick d h k s n : accounts d h k s → accounts d h k (put_tick n s).
Proof. by intros []. Qed.

Section Laws.
Context `{!PrefixStorageLaws}.

Lemma lift_Ok {A} (r : Fallible A) a : (lift r : Gen A) = Ok a → r = inr a.
Proof. unfold lift. destruct r; by intros [= ->]. Qed.

(** What a saved prefix holds. *)
Lemma capture_parts p bytes : capture p = Ok bytes → ∃ r data,
  capture_generation (pf_cache p) (pf_model_id p) = inr r ∧ read_data (pf_logits p) = inr data ∧
  encode_prefix 1 (pf_model_id p) (pf_limits p) (pf_tokens p) r data = inr bytes.
Proof.
  unfold capture. destruct (lift (device_sync _)) as [[]|e|x]; [|done..]. simpl.
  destruct (lift (capture_generation _ _)) as [r|e|x] eqn:Er; [|done..]. simpl. apply lift_Ok in Er.
  destruct (lift (read_data _)) as [data|e|x] eqn:Ed; [|done..]. simpl. apply lift_Ok in Ed.
  intros ?%lift_Ok. by exists r, data.
Qed.

(** A saved prefix comes back as it was. *)
Lemma restore_saved p bytes q : good p → capture p = Ok bytes →
  restore_prefix bytes (pf_model_id p) (pf_limits p) = Ok q → q = p.
Proof.
  intros [_ Hpos] (r & data & Er & Ed & Hc)%capture_parts. unfold restore_prefix. rewrite (stored_bytes _ _ _ _ _ _ _ Hc). simpl.
  case_decide; [done|]. rewrite <- Hpos, (stored_capture _ _ _ Er), (stored_logits _ _ Ed). simpl.
  destruct (validate_prefilled _ _ _ _); simpl; [|done..]. intros [= <-]. by destruct p.
Qed.

Lemma trusted_saved model_id limits bytes : saved model_id limits bytes → trusted model_id limits bytes.
Proof. intros (p & Hp & Hc & <- & <-) q Hq. by rewrite (restore_saved p bytes q Hp Hc Hq). Qed.

Lemma trusted_part model_id limits bytes n : saved model_id limits bytes → trusted model_id limits (take n bytes).
Proof.
  intros Hs. destruct (decide (n < length bytes)) as [Hn|Hn]; [|rewrite take_ge by lia; by apply trusted_saved].
  destruct Hs as (p & Hp & (r & data & _ & _ & Hc)%capture_parts & _).
  intros q. unfold restore_prefix. by destruct (stored_part _ _ _ _ _ _ _ n Hc Hn) as [e ->].
Qed.

Lemma trusted_nothing model_id limits : trusted model_id limits [].
Proof. intros q. unfold restore_prefix. by destruct stored_nothing as [e ->]. Qed.

(** ** Files *)
Definition quiet fl s : TieredPrefixCache := put_disk_state (mk_disk (dk_files (disk s)) fl) s.

Lemma io_call_wp s (Q : res GenerationError (option io_fault) → TieredPrefixCache → Prop) :
  (∀ fault fl, Q (Ok fault) (quiet fl s)) → wp io_call Q s.
Proof.
  intros HQ. unfold wp, io_call. destruct (dk_faults (disk s)) as [|fault rest] eqn:E; simpl; [|apply HQ].
  specialize (HQ None []). unfold quiet in HQ. rewrite <- E in HQ. by destruct s as [? ? ? ? ? ? []].
Qed.

Lemma or_fault_wp s (Q : res GenerationError unit → TieredPrefixCache → Prop) :
  (∀ fl, Q (Ok tt) (quiet fl s)) → (∀ fl e, Q (Err e) (quiet fl s)) → wp or_fault Q s.
Proof.
  intros HOk HErr. unfold or_fault. wp_step. apply io_call_wp. intros [fault|] fl; [by apply wp_throw|by apply wp_ret].
Qed.

Lemma fs_remove_wp name s (Q : res GenerationError unit → TieredPrefixCache → Prop) :
  (∀ fl files, (∀ f, f ∈ files → f ∈ dk_files (disk s)) → Q (Ok tt) (put_disk_state (mk_disk files fl) s)) →
  (∀ fl e, Q (Err e) (quiet fl s)) → wp (fs_remove_file name) Q s.
Proof.
  intros HOk HErr. unfold fs_remove_file. wp_step. apply or_fault_wp; [intros fl|intros; apply HErr].
  do 2 wp_step. destruct (find_file _ _); [|apply wp_throw, HErr]. apply wp_modify.
  apply (HOk fl (without_file name (dk_files (disk s)))). by intros f [_ ?]%list_elem_of_filter.
Qed.

Lemma fs_read_wp name s (Q : res GenerationError Bytes → TieredPrefixCache → Prop) :
  (∀ fl f, f ∈ dk_files (disk s) → Q (Ok (df_bytes f)) (quiet fl s)) →
  (∀ fl e, Q (Err e) (quiet fl s)) → wp (fs_read name) Q s.
Proof.
  intros HOk HErr. unfold fs_read. wp_step. apply or_fault_wp; [intros fl|intros; apply HErr].
  do 2 wp_step. unfold find_file. simpl. destruct (list_find _ _) as [[i f]|] eqn:E; simpl; [|apply wp_throw, HErr].
  apply wp_ret, HOk. apply list_find_Some in E as (Hi & _). by eapply list_elem_of_lookup_2.
Qed.

(** ** Eviction from the disk *)

(** Entries on the disk may be dropped, with their files. *)
Record spared s s' : Prop := {
  sp_setup : setup s' = setup s;
  sp_entries : entries s' ⊆ entries s;
  sp_memory : ∀ key e, entries s !! key = Some e → on_disk_tier (tier e) = false → entries s' !! key = Some e;
  sp_disk : disk_bytes (stats s') ≤ disk_bytes (stats s)
}.

Lemma spared_quiet fl s : spared s (quiet fl s).
Proof. by split. Qed.
Lemma spared_trans s1 s2 s3 : spared s1 s2 → spared s2 s3 → spared s1 s3.
Proof. intros [] []. split; [congruence|by etrans|auto|lia]. Qed.
Lemma spared_None s s' key : spared s s' → entries s !! key = None → entries s' !! key = None.
Proof. intros [_ He _ _] Hn. eapply lookup_weaken_None; [exact Hn|exact He]. Qed.

Lemma accounts_quiet d h k s fl : accounts d h k s → accounts d h k (quiet fl s).
Proof. intros Ha. apply accounts_disk; [done|]. apply (ac_files _ _ _ _ Ha). Qed.

Lemma evict_disk_wp d h k s : accounts d h k s →
  wp evict_disk (post (λ _ s', accounts d h k s' ∧ spared s s' ∧ size (entries s') < size (entries s))
    (λ _ s', accounts d h k s' ∧ spared s s')) s.
Proof.
  intros Ha. unfold evict_disk. do 2 wp_step. wp_step. unfold mok_or.
  destruct (oldest _ _) as [key|] eqn:Eo; [|by apply wp_throw]. apply wp_ret.
  destruct (oldest_Some _ _ _ Eo) as (e & Hkey & Ht & _). wp_step. unfold mexpect. rewrite Hkey. apply wp_ret.
  destruct e as [[p|bytes|path n] last]; try done. simpl. wp_step.
  apply fs_remove_wp.
  2:{ intros fl e. split; [by apply accounts_quiet|apply spared_quiet]. }
  intros fl files Hfiles. assert (accounts d h k (put_disk_state (mk_disk files fl) s)) as Ha'.
  { apply accounts_disk; [done|]. intros f Hf. by apply (ac_files _ _ _ _ Ha), Hfiles. }
  pose proof (accounts_remove d h k _ key (mk_entry (OnDisk path n) last) Ha' Hkey) as Hr.
  unfold device_weight at 1, host_weight at 1, disk_weight at 1 in Hr. cbn [tier] in Hr. rewrite !Nat.add_0_r in Hr.
  wp_step. apply sub_usize_wp; [simpl; pose proof (ac_disk _ _ _ _ Hr); simpl in *; lia|].
  unfold remove_entry. apply wp_modify. destruct Hr as [? ? Hdisk ? ? ? ?]. simpl in *.
  split; [split; simpl; [done|done|lia|done..]|]. split.
  - split; simpl; [done|apply delete_subseteq| |lia].
    intros key' e' Hk' Hd. rewrite lookup_delete_ne; [done|]. intros ->. rewrite Hkey in Hk'. by simplify_eq.
  - rewrite map_size_delete, Hkey. pose proof (map_size_ne_0_lookup_2 (entries s) key ltac:(by eexists)). lia.
Qed.

Lemma evict_loop_wp d h k fuel extra s : accounts d h k s → size (entries s) < fuel →
  wp (evict_loop fuel extra) (post (λ _ s', accounts d h k s' ∧ spared s s' ∧
      (saturating_add (disk_bytes (stats s')) extra ≤ N.of_nat (cfg_disk_bytes (tp_config s')))%N)
    (λ _ s', accounts d h k s' ∧ spared s s')) s.
Proof.
  revert s. induction fuel as [|fuel IH]; intros s Ha Hfuel; [lia|]. simpl. do 2 wp_step.
  case_decide as Hover; [|apply wp_ret; split; [done|]; split; [by split|lia]].
  eapply wp_bind_post; [by apply evict_disk_wp| |done].
  intros [] s1 (Ha1 & Hs1 & Hsize). eapply wp_post_mono; [apply IH; [done|lia]|..].
  - intros [] s2 (Ha2 & Hs2 & ?). split; [done|]. split; [by eapply spared_trans|done].
  - intros e s2 (Ha2 & Hs2). split; [done|by eapply spared_trans].
Qed.

(** ** Writing a file *)
Lemma string_app_length a b : String.length (a +:+ b) = String.length a + String.length b.
Proof. induction a as [|c a IH]; simpl; [done|]. by rewrite IH. Qed.

Lemma string_app_cancel a b t : a +:+ t = b +:+ t → a = b.
Proof.
  revert b. induction a as [|c a IH]; intros [|c' b]; simpl; intros Heq; try done.
  - apply (f_equal String.length) in Heq. rewrite !string_app_length in Heq. simpl in Heq. lia.
  - apply (f_equal String.length) in Heq. rewrite !string_app_length in Heq. simpl in Heq. lia.
  - injection Heq as -> Heq. f_equal. by apply IH.
Qed.

Lemma kv_name_inj serial serial' : kv_name serial = kv_name serial' → serial = serial'.
Proof.
  unfold kv_name. intros Heq. do 3 apply (inj (String.app _)) in Heq. apply string_app_cancel in Heq.
  by apply (inj pretty) in Heq.
Qed.

(** A name that is taken is passed over; among more serials than files one is free. *)
Lemma create_loop_wp d h k fuel serial s : accounts d h k s →
  (∃ taken, NoDup taken ∧ taken ⊆ df_name <$> dk_files (disk s) ∧
     (∀ name, name ∈ taken → ∃ n, name = kv_name n ∧ (n < serial)%N) ∧
     length (dk_files (disk s)) < length taken + fuel) →
  wp (create_loop fuel serial) (post (λ _ s', accounts d h k s' ∧ same_entries s s')
    (λ _ s', accounts d h k s' ∧ same_entries s s')) s.
Proof.
  revert serial s. induction fuel as [|fuel IH]; intros serial s Ha (taken & Hnd & Hsub & Hser & Hlen); simpl.
  { pose proof (submseteq_length _ _ (NoDup_submseteq _ _ Hnd Hsub)) as Hl. rewrite length_fmap in Hl. lia. }
  wp_step. unfold fs_create_new. wp_step. apply or_fault_wp.
  2:{ intros fl e. split; [by apply accounts_quiet|done]. }
  intros fl. do 2 wp_step. simpl.
  destruct (find_file (kv_name serial) (dk_files (disk s))) as [f|] eqn:Ef.
  - apply wp_ret. wp_step. unfold mexpect, checked_add. case_decide; [|by apply wp_panic]. apply wp_ret.
    eapply wp_post_mono; [apply IH; [by apply (accounts_quiet _ _ _ _ fl)|]|done|done].
    unfold find_file in Ef. apply fmap_Some in Ef as ([i f'] & Hf & ->). apply list_find_Some in Hf as (Hi & Hname & _).
    exists (kv_name serial :: taken). split_and!.
    + constructor; [|done]. intros (n & Hn & Hlt)%Hser. apply kv_name_inj in Hn. lia.
    + intros name [->|Hin]%elem_of_cons; [|by apply Hsub]. rewrite <- Hname. apply list_elem_of_fmap_2.
      by eapply list_elem_of_lookup_2.
    + intros name [->|Hin]%elem_of_cons; [exists serial; split; [done|lia]|].
      destruct (Hser _ Hin) as (n & -> & ?). exists n. split; [done|lia].
    + simpl in *. lia.
  - wp_step. apply wp_modify. apply wp_ret. apply wp_ret. split; [|done].
    apply accounts_disk; [by apply accounts_quiet|]. simpl. intros f [Hf| ->%list_elem_of_singleton]%elem_of_app.
    + by apply (ac_files _ _ _ _ Ha).
    + apply trusted_nothing.
Qed.

Lemma create_file_wp d h k s : accounts d h k s →
  wp create_file (post (λ _ s', accounts d h k s' ∧ same_entries s s')
    (λ _ s', accounts d h k s' ∧ same_entries s s')) s.
Proof.
  intros Ha. unfold create_file. do 2 wp_step. apply create_loop_wp; [done|]. exists []. simpl.
  split_and!; [constructor|by intros ? ?%elem_of_nil|by intros ? ?%elem_of_nil|lia].
Qed.

Lemma same_entries_trans s1 s2 s3 : same_entries s1 s2 → same_entries s2 s3 → same_entries s1 s3.
Proof. intros (? & ? & ? & ?) (? & ? & ? & ?). split_and!; congruence. Qed.

Lemma set_contents_trusted model_id limits name bytes (files : list DirFile) : trusted model_id limits bytes →
  (∀ f, f ∈ files → trusted model_id limits (df_bytes f)) →
  ∀ f, f ∈ set_contents name bytes <$> files → trusted model_id limits (df_bytes f).
Proof.
  intros Hb Hf f (f' & -> & Hin)%list_elem_of_fmap. unfold set_contents. case_decide; [done|by apply Hf].
Qed.

(** Writing what was saved; a failed write is removed, or leaves a part. *)
Lemma write_file_wp d h k s path bytes : accounts d h k s → saved (tp_model_id s) (tp_limits s) bytes →
  wp (mcatch (fs_write_all path bytes)
        (λ e, mcatch (fs_remove_file path) (λ _, mret tt) ;;; mthrow e))
    (post (λ _ s', accounts d h k s' ∧ same_entries s s') (λ _ s', accounts d h k s' ∧ same_entries s s')) s.
Proof.
  intros Ha Hs. wp_step. unfold fs_write_all. wp_step. apply io_call_wp. intros [fault|] fl; do 2 wp_step.
  - wp_step. apply wp_modify. apply wp_throw. simpl. wp_step. wp_step.
    assert (accounts d h k (set_files (set_contents path (take (ft_written fault) bytes) <$> dk_files (disk s)) (quiet fl s))) as Ha'.
    { apply accounts_disk; [by apply accounts_quiet|]. simpl. apply set_contents_trusted; [by apply trusted_part|].
      apply (ac_files _ _ _ _ Ha). }
    apply fs_remove_wp.
    + intros fl' files Hfiles. apply wp_throw. split; [|done]. apply accounts_disk; [done|].
      intros f Hf. by apply (ac_files _ _ _ _ Ha'), Hfiles.
    + intros fl' e. apply wp_ret. apply wp_throw. split; [|done]. by apply (accounts_quiet _ _ _ _ fl').
  - apply wp_modify. split; [|done]. apply accounts_disk; [by apply accounts_quiet|]. simpl.
    apply set_contents_trusted; [by apply trusted_saved|]. apply (ac_files _ _ _ _ Ha).
Qed.

(** What [put_disk] does to the entries: more or fewer on the disk, no others. *)
Definition disk_only s s' : Prop := setup s' = setup s ∧
  ∀ key e, on_disk_tier (tier e) = false → entries s' !! key = Some e ↔ entries s !! key = Some e.

Definition within_disk s : Prop := disk_bytes (stats s) ≤ cfg_disk_bytes (tp_config s).

Lemma spared_disk_only s s' : spared s s' → disk_only s s'.
Proof.
  intros [? He Hm _]. split; [done|]. intros key e Hd. split; [|intros; by apply Hm].
  intros Hk. by eapply lookup_weaken.
Qed.
Lemma disk_only_trans s1 s2 s3 : disk_only s1 s2 → disk_only s2 s3 → disk_only s1 s3.
Proof. intros [? H12] [? H23]. split; [congruence|]. intros key e Hd. by rewrite H23, H12. Qed.
Lemma same_disk_only s s' : same_entries s s' → disk_only s s'.
Proof. intros (? & He & _). split; [done|]. intros key e _. by rewrite He. Qed.

(** Sums whose saturation cannot show. *)
Lemma saturating_le a b n : (saturating_add a b ≤ N.of_nat n)%N → (N.of_nat n < usize_max)%N → a + b ≤ n.
Proof. unfold saturating_add. lia. Qed.

Lemma put_disk_wp d h k s key bytes last : accounts d h k s → entries s !! key = None →
  saved (tp_model_id s) (tp_limits s) bytes → within_disk s → (N.of_nat (cfg_disk_bytes (tp_config s)) < usize_max)%N →
  wp (put_disk key bytes last) (post (λ _ s', accounts d h k s' ∧ disk_only s s' ∧ within_disk s')
    (λ _ s', accounts d h k s' ∧ disk_only s s' ∧ within_disk s')) s.
Proof.
  intros Ha Hkey Hs Hb Hmax. unfold put_disk. do 2 wp_step. case_decide as Hfit; [by apply wp_ret|].
  apply Decidable.not_or in Hfit as [Hfit Hpos].
  assert (∀ s', spared s s' → within_disk s') as Hwithin.
  { intros s' [He _ _ Hd]. unfold within_disk. injection He as _ _ ->. by etrans. }
  eapply wp_bind_post; [unfold evict_until; do 2 wp_step; apply (evict_loop_wp d h k); [done|lia]| |].
  2:{ intros e s' (? & Hsp). split; [done|]. split; [by apply spared_disk_only|by apply Hwithin]. }
  intros [] s1 (Ha1 & Hsp & Hroom). do 2 wp_step. wp_step. unfold mexpect.
  assert (tp_config s1 = tp_config s ∧ tp_model_id s1 = tp_model_id s ∧ tp_limits s1 = tp_limits s) as (Hcfg & Hid & Hlim)
    by (by destruct Hsp as [[= ? ? ?] _ _ _]).
  destruct (disk_directory (tp_config s1)) as [dir|] eqn:Edir.
  2:{ by destruct (ac_directory _ _ _ _ Ha1 ltac:(rewrite Hcfg; lia)). }
  apply wp_ret.
  assert (∀ s', same_entries s1 s' → disk_only s s' ∧ within_disk s') as Hsame.
  { intros s' He. split; [eapply disk_only_trans; [by apply spared_disk_only|by apply same_disk_only]|].
    destruct He as (Hset & _ & Hst & _). unfold within_disk. injection Hset as _ _ ->. rewrite Hst. by apply Hwithin. }
  eapply wp_bind_post; [by apply (create_file_wp d h k)| |intros e s' [? ?]; split; [done|by apply Hsame]].
  intros path s2 (Ha2 & He2).
  eapply wp_bind_post; [apply (write_file_wp d h k); [done|]| |].
  { by destruct He2 as ([= -> -> _] & _); rewrite Hid, Hlim. }
  2:{ intros e s' [? He]. split; [done|]. apply Hsame. by eapply same_entries_trans. }
  intros [] s3 (Ha3 & He3). assert (same_entries s1 s3) as He by (by eapply same_entries_trans).
  destruct He as ([= Hid3 Hlim3 Hcfg3] & Hent & Hst & _).
  wp_step. apply add_usize_wp; [|done]. unfold insert_entry. apply wp_modify.
  rewrite Hcfg in Hroom. apply saturating_le in Hroom; [|done].
  assert (entries s3 !! key = None) as Hnone by (rewrite Hent; by eapply spared_None).
  split; [|split; [|unfold within_disk; simpl; rewrite Hcfg3, Hst, Hcfg; lia]].
  - apply accounts_insert; [|done|done]. destruct Ha3 as [? ? Hd ? ? ? ?].
    split; cbn [device_weight host_weight disk_weight tier stats put_stats put_disk_bytes disk_bytes device_entries host_bytes entries] in *; [lia..| | | |]; done.
  - split; [unfold setup in *; simpl; congruence|]. intros key' e' Hd'. simpl. rewrite Hent.
    destruct (spared_disk_only _ _ Hsp) as [_ Hd0]. rewrite <- (Hd0 key' e' Hd').
    destruct (decide (key' = key)) as [->|Hne]; [|by rewrite lookup_insert_ne].
    rewrite lookup_insert_eq. rewrite <- Hent, Hnone. split; [|done]. intros [= <-]. done.
Qed.

(** ** The invariant *)
Record tiered_wf s : Prop := {
  tw_accounts : accounts 0 0 0 s;
  tw_disk : within_disk s;
  tw_small : (N.of_nat (cfg_disk_bytes (tp_config s)) < usize_max)%N;
  tw_named : tp_model_id s ≠ EmptyString
}.

(** Two well-formed states of one cache. *)
Definition evolves s s' : Prop := tiered_wf s' ∧ setup s' = setup s.

Lemma evolves_trans s1 s2 s3 : evolves s1 s2 → evolves s2 s3 → evolves s1 s3.
Proof. intros [_ ?] [? ?]. split; [done|congruence]. Qed.

Lemma setup_config s s' : setup s' = setup s → tp_config s' = tp_config s ∧ tp_model_id s' = tp_model_id s ∧ tp_limits s' = tp_limits s.
Proof. by intros [= -> -> ->]. Qed.

Lemma evolves_intro s s' : tiered_wf s → accounts 0 0 0 s' → setup s' = setup s → within_disk s' → evolves s s'.
Proof. intros [_ _ Hm Hn] Ha Hs Hd. destruct (setup_config _ _ Hs) as (Hc & Hi & _). split; [|done]. split; congruence. Qed.

Lemma capture_no_panic p x : capture p ≠ Panic x.
Proof.
  assert (∀ A (r : Fallible A), (lift r : Gen A) ≠ Panic x) as Hl by (intros A []; done).
  unfold capture. repeat (match goal with |- context [lift ?r] => destruct r; simpl; [done|] end). done.
Qed.

(** A tier that counts something has an oldest entry. *)
Lemma oldest_exists holds (w : Entry → nat) s : total w (entries s) ≠ 0 →
  (∀ e, w e ≠ 0 → holds (tier e) = true) →
  ∃ key e, oldest holds (entries s) = Some key ∧ entries s !! key = Some e ∧ holds (tier e) = true.
Proof.
  intros (key & e & Hk & Hw)%total_pos Hh. destruct (oldest holds (entries s)) as [old|] eqn:Eo.
  - destruct (oldest_Some _ _ _ Eo) as (e' & ? & ? & _). by exists old, e'.
  - pose proof (oldest_None _ _ Eo key e Hk) as Hn. by rewrite (Hh e Hw) in Hn.
Qed.

Definition same_host s s' : Prop := ∀ key e, on_host_tier (tier e) = true →
  entries s' !! key = Some e → entries s !! key = Some e.

Lemma spill_device_wp s : tiered_wf s → device_entries (stats s) ≠ 0 →
  wp spill_device (post (λ _ s', evolves s s' ∧ S (device_entries (stats s')) = device_entries (stats s))
    (λ _ s', evolves s s')) s.
Proof.
  intros Hwf Hpos. pose proof (tw_accounts _ Hwf) as Ha. pose proof (tw_disk _ Hwf) as Hd.
  unfold spill_device. do 2 wp_step.
  destruct (oldest_exists on_device_tier device_weight s) as (key & e & Eo & Hkey & Ht).
  { by rewrite (ac_device _ _ _ _ Ha) in Hpos. }
  { by intros [[] ?]. }
  wp_step. unfold mexpect at 1. rewrite Eo. apply wp_ret. wp_step. unfold mexpect at 1. rewrite Hkey. apply wp_ret.
  destruct e as [[p|bytes|path n] last]; try done.
  destruct (ac_entries _ _ _ _ Ha _ _ Hkey) as (Hgood & Hpid & Hplim).
  pose proof (accounts_remove _ _ _ _ _ _ Ha Hkey) as Hr. change (accounts 1 0 0 (put_entries (delete key (entries s)) s)) in Hr.
  wp_step. unfold remove_entry. apply wp_modify. wp_step. apply sub_usize_wp; [simpl; lia|]. simpl.
  set (s1 := put_stats _ _).
  assert (accounts 0 0 0 s1) as Ha1 by (eapply accounts_stats; [exact Hr|simpl; lia..]).
  assert (setup s1 = setup s) as Hset by done.
  assert (entries s1 !! key = None) as Hnone by apply lookup_delete_eq.
  assert (S (device_entries (stats s1)) = device_entries (stats s)) as Hdev by (simpl; lia).
  case_decide; [apply wp_ret; by split; [apply evolves_intro|]|].
  wp_step. wp_step. wp_step. destruct (capture p) as [bytes|err|x] eqn:Ec; [|..|by destruct (capture_no_panic p x)].
  - assert (saved (tp_model_id s1) (tp_limits s1) bytes) as Hsaved by (by exists p; rewrite Ec).
    case_decide.
    + wp_step. apply add_usize_wp; [|done]. apply wp_modify. split; [|done].
      apply evolves_intro; [done| |done|done]. apply accounts_insert; [|done|done].
      change (accounts 0 (length bytes) 0 (put_stats (put_host (host_bytes (stats s1) + length bytes) (stats s1)) s1)).
      eapply accounts_stats; [exact Ha1|simpl; lia..].
    + eapply wp_post_mono; [apply (put_disk_wp 0 0 0); [done|done|done|done|apply (tw_small _ Hwf)]|..].
      * intros [] s' (Ha' & [Hset' Hent] & Hd'). split; [apply evolves_intro; [done|done|congruence|done]|].
        rewrite <- Hdev, (ac_device _ _ _ _ Ha'), (ac_device _ _ _ _ Ha1). do 2 f_equal.
        apply total_same. intros key' e' Hw. apply Hent. by destruct e' as [[] ?].
      * intros e s' (Ha' & [Hset' _] & Hd'). apply evolves_intro; [done|done|congruence|done].
  - wp_step. apply wp_modify. wp_step. apply add_usize_wp; [|done]. apply wp_throw.
    apply evolves_intro; [done| |done|done].
    apply (accounts_insert 0 0 0 (put_stats _ s1) key (mk_entry (Device p) last)); [|done|done].
    change (accounts 1 0 0 (put_stats (put_device (device_entries (stats s1) + 1) (stats s1)) s1)).
    eapply accounts_stats; [exact Ha1|simpl; lia..].
Qed.

Definition host_count (e : Entry) : nat := if on_host_tier (tier e) then 1 else 0.

Lemma disk_only_totals d h k d' h' k' s s' : disk_only s s' → accounts d h k s → accounts d' h' k' s' →
  total host_count (entries s') = total host_count (entries s) ∧
  device_entries (stats s') + d = device_entries (stats s) + d'.
Proof.
  intros [_ Hent] Ha Ha'. split.
  - apply total_same. intros key e Hw. apply Hent. by destruct e as [[] ?].
  - rewrite (ac_device _ _ _ _ Ha'), (ac_device _ _ _ _ Ha).
    rewrite (total_same device_weight (entries s) (entries s')); [lia|].
    intros key e Hw. apply Hent. by destruct e as [[] ?].
Qed.

Lemma spill_host_wp s : tiered_wf s → host_bytes (stats s) ≠ 0 →
  wp spill_host (post (λ _ s', evolves s s' ∧ device_entries (stats s') = device_entries (stats s) ∧
      total host_count (entries s') < total host_count (entries s))
    (λ _ s', evolves s s')) s.
Proof.
  intros Hwf Hpos. pose proof (tw_accounts _ Hwf) as Ha. pose proof (tw_disk _ Hwf) as Hd.
  unfold spill_host. do 2 wp_step.
  destruct (oldest_exists on_host_tier host_weight s) as (key & e & Eo & Hkey & Ht).
  { by rewrite (ac_host _ _ _ _ Ha) in Hpos. }
  { by intros [[] ?]. }
  wp_step. unfold mexpect at 1. rewrite Eo. apply wp_ret. wp_step. unfold mexpect at 1. rewrite Hkey. apply wp_ret.
  destruct e as [[p|bytes|path n] last]; try done.
  pose proof (ac_entries _ _ _ _ Ha _ _ Hkey) as Hsaved. unfold sound_entry in Hsaved. simpl in Hsaved.
  pose proof (accounts_remove _ _ _ _ _ _ Ha Hkey) as Hr.
  change (accounts 0 (length bytes) 0 (put_entries (delete key (entries s)) s)) in Hr.
  pose proof (ac_host _ _ _ _ Hr) as Hh. simpl in Hh.
  wp_step. unfold remove_entry. apply wp_modify. cbn [tier used]. wp_step. apply sub_usize_wp; [simpl; lia|]. simpl.
  set (s1 := put_stats _ _).
  assert (accounts 0 0 0 s1) as Ha1 by (eapply accounts_stats; [exact Hr|simpl; lia..]).
  assert (S (total host_count (entries s1)) = total host_count (entries s)) as Hcount
    by (by rewrite (total_delete host_count (entries s) key _ Hkey)).
  eapply wp_post_mono; [apply (put_disk_wp 0 0 0 s1); [done|apply lookup_delete_eq|done|done|apply (tw_small _ Hwf)]|..].
  - intros [] s' (Ha' & Hent & Hd'). destruct (disk_only_totals _ _ _ _ _ _ _ _ Hent Ha1 Ha') as [Hhost Hdev].
    split; [apply evolves_intro; [done|done|apply Hent|done]|]. split; [simpl in *; lia|lia].
  - intros e s' (Ha' & [Hset' _] & Hd'). by apply evolves_intro.
Qed.

(** The spilling loops: each turn takes one entry out of its tier. *)
Lemma spill_loop_wp over spill (μ : TieredPrefixCache → nat) (J : TieredPrefixCache → Prop) :
  (∀ s, tiered_wf s → J s → over s = true →
     wp spill (post (λ _ s', evolves s s' ∧ J s' ∧ μ s' < μ s) (λ _ s', evolves s s')) s) →
  ∀ fuel s, tiered_wf s → J s → μ s < fuel →
  wp (spill_loop fuel over spill) (post (λ _ s', evolves s s' ∧ J s' ∧ over s' = false) (λ _ s', evolves s s')) s.
Proof.
  intros Hspill fuel. induction fuel as [|fuel IH]; intros s Hwf HJ Hf; [lia|]. simpl. do 2 wp_step.
  destruct (over s) eqn:Eo; [|by apply wp_ret].
  eapply wp_bind_post; [by apply Hspill| |done].
  intros [] s1 (Hev & HJ1 & Hμ). eapply wp_post_mono; [apply IH; [apply Hev|done|lia]|..].
  - intros [] s2 (Hev2 & HJ2 & Ho). split; [by eapply evolves_trans|done].
  - intros e s2 Hev2. by eapply evolves_trans.
Qed.

Lemma spill_devices_wp s : tiered_wf s → wp (spill_while device_over spill_device)
  (post (λ _ s', evolves s s' ∧ device_over s' = false) (λ _ s', evolves s s')) s.
Proof.
  intros Hwf. unfold spill_while. do 2 wp_step.
  eapply wp_post_mono; [apply (spill_loop_wp _ _ (λ s, device_entries (stats s)) (λ _, True)); [|done|done|]|naive_solver|done].
  - intros s1 Hwf1 _ Ho. apply bool_decide_eq_true in Ho.
    eapply wp_post_mono; [apply spill_device_wp; [done|lia]|intros [] s2 [? ?]; split_and!; [done|done|lia]|done].
  - rewrite (ac_device _ _ _ _ (tw_accounts _ Hwf)).
    pose proof (total_le_size device_weight (entries s) ltac:(intros [[] ?]; cbn; lia)). lia.
Qed.

Lemma spill_hosts_wp s : tiered_wf s → device_over s = false → wp (spill_while host_over spill_host)
  (post (λ _ s', evolves s s' ∧ device_over s' = false ∧ host_over s' = false) (λ _ s', evolves s s')) s.
Proof.
  intros Hwf Hdev. unfold spill_while. do 2 wp_step.
  apply (spill_loop_wp _ _ (λ s, total host_count (entries s)) (λ s, device_over s = false)); [|done|done|].
  - intros s1 Hwf1 Hdev1 Ho. apply bool_decide_eq_true in Ho.
    eapply wp_post_mono; [apply spill_host_wp; [done|lia]| |done].
    intros [] s2 (Hev & Hd & Hc). split_and!; [done| |done]. unfold device_over in *. rewrite Hd.
    by destruct (setup_config _ _ (proj2 Hev)) as (-> & _).
  - pose proof (total_le_size host_count (entries s) ltac:(intros [[] ?]; cbn; lia)). lia.
Qed.

(** ** Insertion *)
Definition within_memory s : Prop :=
  device_entries (stats s) ≤ cfg_device_entries (tp_config s) ∧ host_bytes (stats s) ≤ cfg_host_bytes (tp_config s).

Lemma within_memory_over s : device_over s = false → host_over s = false → within_memory s.
Proof. unfold device_over, host_over, within_memory. intros ?%bool_decide_eq_false ?%bool_decide_eq_false. lia. Qed.

Lemma validate_prefilled_Ok p model_id limits prompt : validate_prefilled p model_id limits prompt = Ok tt →
  pf_model_id p = model_id ∧ pf_limits p = limits ∧ pf_tokens p ≠ [] ∧ pf_tokens p `prefix_of` prompt.
Proof.
  unfold validate_prefilled. destruct (dims _) as [[b n] v]. case_decide as Hn; [done|]. intros _.
  split_and!; [..|destruct (decide (pf_tokens p `prefix_of` prompt)) as [|Hp]; [done|destruct Hn; tauto]];
    first [apply dec_stable|idtac]; tauto.
Qed.

Lemma validate_prefilled_no_panic p model_id limits prompt x : validate_prefilled p model_id limits prompt ≠ Panic x.
Proof. unfold validate_prefilled. destruct (dims _) as [[b n] v]. by case_decide. Qed.

Lemma insert_prefix_wp p s : tiered_wf s → prefix_of_model p →
  wp (insert_prefix p) (post (λ _ s', evolves s s' ∧ (within_memory s' ∨ stats s' = stats s)) (λ _ s', evolves s s')) s.
Proof.
  intros Hwf Hp. assert (evolves s s) as Hrefl by done.
  unfold insert_prefix. do 2 wp_step. wp_step. wp_step.
  destruct (validate_prefilled p _ _ _) as [[]|e|x] eqn:Ev; [|done|by destruct (validate_prefilled_no_panic _ _ _ _ _ Ev)].
  apply validate_prefilled_Ok in Ev as (Hid & Hlim & Hne & _).
  case_decide as Hpos; [by apply wp_throw|].
  assert (generation_position (pf_cache p) = length (pf_tokens p)) as Hpos'
    by (by destruct (decide (generation_position (pf_cache p) = length (pf_tokens p)))).
  case_decide; [apply wp_ret; split; [done|by right]|].
  wp_step. apply add_u64_wp; [|done]. set (s1 := put_tick _ _).
  assert (tiered_wf s1) as Hwf1 by (destruct Hwf as [Ha ? ?]; split; [by apply accounts_tick|done..]).
  do 2 wp_step. case_decide as Hin.
  - apply wp_modify. split; [|by right]. split; [|done]. destruct Hwf1 as [Ha ? ?].
    split; [by apply accounts_touch|done..].
  - wp_step. apply wp_modify. wp_step. apply add_usize_wp; [|done].
    assert (entries s1 !! pf_tokens p = None) as Hnone by (by apply eq_None_not_Some).
    set (s2 := put_stats _ _). assert (evolves s s2) as Hev2.
    { apply evolves_intro; [done| |done|apply (tw_disk _ Hwf1)].
      apply (accounts_insert 0 0 0 (put_stats _ s1) (pf_tokens p) (mk_entry (Device p) (tick s1))); [|done|done].
      change (accounts 1 0 0 (put_stats (put_device (device_entries (stats s1) + 1) (stats s1)) s1)).
      eapply accounts_stats; [apply (tw_accounts _ Hwf1)|simpl; lia..]. }
    eapply wp_bind_post; [apply spill_devices_wp, Hev2| |intros e s' ?; eapply evolves_trans; [exact Hev2|done]].
    intros [] s3 [Hev3 Hdev]. eapply wp_post_mono; [apply spill_hosts_wp; [apply Hev3|done]|..].
    + intros [] s4 (Hev4 & Hd & Hh). split; [|left; by apply within_memory_over].
      eapply evolves_trans; [exact Hev2|eapply evolves_trans; [exact Hev3|done]].
    + intros e s4 Hev4. eapply evolves_trans; [exact Hev2|eapply evolves_trans; [exact Hev3|done]].
Qed.

(** ** Lookup *)
Lemma max_by_length {A} (f : A → nat) l x : max_by (λ a b, Nat.compare (f a) (f b)) l = Some x →
  ∀ y, y ∈ l → f y ≤ f x.
Proof.
  destruct l as [|z l]; [done|]. simpl. intros [= <-]. revert z.
  induction l as [|w l IH]; intros z y; simpl; [by intros ->%list_elem_of_singleton|].
  assert (∀ b, f z ≤ f b → f w ≤ f b → y ∈ z :: w :: l → (∀ y', y' ∈ b :: l → f y' ≤ f (fold_left (λ best y0,
    match Nat.compare (f best) (f y0) with Gt => best | _ => y0 end) l b)) →
    f y ≤ f (fold_left (λ best y0, match Nat.compare (f best) (f y0) with Gt => best | _ => y0 end) l b)) as Hstep.
  { intros b Hz Hw Hy Hl. rewrite !elem_of_cons in Hy. destruct Hy as [->|[->|Hy]].
    - etrans; [exact Hz|]. apply Hl. by left.
    - etrans; [exact Hw|]. apply Hl. by left.
    - apply Hl. by right. }
  intros Hy. destruct (Nat.compare_spec (f z) (f w)); apply Hstep; auto; try lia; intros; by apply IH.
Qed.

Lemma longest_prefix_Some prompt m key : longest_prefix prompt m = Some key →
  is_Some (m !! key) ∧ key `prefix_of` prompt ∧
  ∀ k, is_Some (m !! k) → k `prefix_of` prompt → length k ≤ length key.
Proof.
  intros ([k e] & Hmax & ->)%fmap_Some. simpl. pose proof (max_by_elem _ _ _ Hmax) as [Hp Hin]%list_elem_of_filter.
  apply elem_of_vec_iter in Hin. split; [by eexists|]. split; [done|]. intros k' [e' Hk'] Hp'.
  apply (max_by_length (λ a : list Z * Entry, length a.1) _ _ Hmax (k', e')), list_elem_of_filter.
  split; [done|]. by apply elem_of_vec_iter.
Qed.

Lemma longest_prefix_None prompt m : longest_prefix prompt m = None →
  ∀ k, is_Some (m !! k) → ¬ k `prefix_of` prompt.
Proof.
  intros Hn%fmap_None k [e Hk] Hp. apply max_by_None in Hn.
  assert ((k, e) ∈ filter (λ e : list Z * Entry, e.1 `prefix_of` prompt) (vec_iter m)) as Hin
    by (apply list_elem_of_filter; split; [done|by apply elem_of_vec_iter]).
  rewrite Hn in Hin. by apply elem_of_nil in Hin.
Qed.

Lemma prefix_of_length {A} (a b l : list A) : a `prefix_of` l → b `prefix_of` l → length a = length b → a = b.
Proof. intros [x Hx] [y Hy] Hl. rewrite Hx in Hy. by apply app_inj_1 in Hy as [? _]. Qed.

(** A prefix of this cache's model for this key. *)
Definition answers s (key : list Z) (p : PrefilledPrompt) : Prop :=
  good p ∧ pf_tokens p = key ∧ pf_model_id p = tp_model_id s ∧ pf_limits p = tp_limits s.

Lemma restore_no_panic bytes model_id limits x : restore_prefix bytes model_id limits ≠ Panic x.
Proof.
  unfold restore_prefix. destruct (decode_prefix bytes) as [|[[[[[v id] l] toks] r] d]]; simpl; [done|].
  case_decide; [done|]. destruct (restore_generation _ _ _ _); simpl; [done|].
  destruct (validate_prefilled _ _ _ _) eqn:Ev; simpl; [done|done|]. by destruct (validate_prefilled_no_panic _ _ _ _ _ Ev).
Qed.

Lemma read_tier_wp prompt key e s : tiered_wf s → entries s !! key = Some e → key `prefix_of` prompt →
  wp (read_tier prompt key (tier e)) (post (λ p s', tiered_wf s' ∧ same_entries s s' ∧ answers s key p)
    (λ _ s', tiered_wf s' ∧ same_entries s s')) s.
Proof.
  intros Hwf Hkey Hpre. pose proof (tw_accounts _ Hwf) as Ha.
  assert (∀ fl, tiered_wf (quiet fl s)) as Hquiet
    by (intros fl; destruct Hwf; split; [by apply accounts_quiet|done..]).
  assert (∀ p s', tiered_wf s' → same_entries s s' → good p →
    wp (mlift (validate_prefilled p (tp_model_id s) (tp_limits s) prompt) ;;;
        if decide (generation_position (pf_cache p) ≠ length key) then
          mthrow "prefix cache position differs from token key" else mret p)
      (post (λ p s', tiered_wf s' ∧ same_entries s s' ∧ answers s key p) (λ _ s', tiered_wf s' ∧ same_entries s s')) s')
    as Hcheck.
  { intros p s' Hwf' Hsame [Hm Hpos]. wp_step. wp_step.
    destruct (validate_prefilled _ _ _ _) as [[]|err|x] eqn:Ev; [|done|by destruct (validate_prefilled_no_panic _ _ _ _ _ Ev)].
    apply validate_prefilled_Ok in Ev as (Hid & Hlim & _ & Hp). case_decide as Hl; [by apply wp_throw|]. apply wp_ret.
    split; [done|]. split; [done|]. split; [by split|]. split; [|done].
    apply (prefix_of_length _ _ prompt); [done..|]. by rewrite <- Hpos. }
  unfold read_tier. do 2 wp_step. wp_step. destruct e as [[p|bytes|path n] last]; cbn [tier].
  - apply wp_ret. apply Hcheck; [done|done|]. apply (ac_entries _ _ _ _ Ha _ _ Hkey).
  - wp_step. destruct (restore_prefix _ _ _) as [p|err|x] eqn:Er; [|done|by destruct (restore_no_panic _ _ _ _ Er)].
    apply Hcheck; [done|done|]. apply (trusted_saved _ _ _ (ac_entries _ _ _ _ Ha _ _ Hkey) p Er).
  - wp_step. apply fs_read_wp; [|intros fl err; by split].
    intros fl f Hf. wp_step. destruct (restore_prefix _ _ _) as [p|err|x] eqn:Er; [|exact (conj (Hquiet fl) (conj eq_refl (conj eq_refl (conj eq_refl eq_refl))))|by destruct (restore_no_panic _ _ _ _ Er)].
    apply Hcheck; [apply Hquiet|done|]. by apply (ac_files _ _ _ _ Ha _ Hf).
Qed.

Lemma quiet_same s : quiet (dk_faults (disk s)) s = s.
Proof. by destruct s as [? ? ? ? ? ? []]. Qed.

(** A call of the disk depends on the disk alone, and reading only uses up faults. *)
Lemma or_fault_runs s : ∃ x fl, fl `suffix_of` dk_faults (disk s) ∧ ∀ s', disk s' = disk s → or_fault s' = (x, quiet fl s').
Proof.
  unfold or_fault, io_call, mbind'. destruct (dk_faults (disk s)) as [|[f|] rest] eqn:Ef.
  - exists (Ok tt), []. split; [done|]. intros s' Hd. rewrite <- Ef, <- Hd, quiet_same, Hd, Ef. done.
  - exists (Err (ft_message f)), rest. split; [by apply suffix_cons_r|]. intros s' Hd. unfold quiet. by rewrite Hd, Ef.
  - exists (Ok tt), rest. split; [by apply suffix_cons_r|]. intros s' Hd. unfold quiet. by rewrite Hd, Ef.
Qed.

Lemma fs_read_runs name s : ∃ x fl, fl `suffix_of` dk_faults (disk s) ∧ ∀ s', disk s' = disk s → fs_read name s' = (x, quiet fl s').
Proof.
  destruct (or_fault_runs s) as ([[]|e|q] & fl & Hfl & Hrun); unfold fs_read, mbind', mget.
  - destruct (find_file name (dk_files (disk s))) as [f|] eqn:Ef; [exists (Ok (df_bytes f)), fl|exists (Err "No such file or directory"), fl];
      (split; [done|]); intros s' Hd; rewrite (Hrun s' Hd); unfold quiet at 1; cbn [disk put_disk_state dk_files fst snd]; by rewrite Hd, Ef.
  - exists (Err e), fl. split; [done|]. intros s' Hd. by rewrite (Hrun s' Hd).
  - exists (Panic q), fl. split; [done|]. intros s' Hd. by rewrite (Hrun s' Hd).
Qed.

(** Reading an entry looks at the model, the limits and the disk alone. *)
Lemma read_tier_runs prompt key t s : ∃ x fl, fl `suffix_of` dk_faults (disk s) ∧
  ∀ s', tp_model_id s' = tp_model_id s → tp_limits s' = tp_limits s → disk s' = disk s → read_tier prompt key t s' = (x, quiet fl s').
Proof.
  set (check p s' := (mlift (validate_prefilled p (tp_model_id s) (tp_limits s) prompt) ;;;
    if decide (generation_position (pf_cache p) ≠ length key) then mthrow "prefix cache position differs from token key" else mret p : TM PrefilledPrompt) s').
  assert (∀ p, ∃ x, ∀ s', check p s' = (x, s')) as Hcheck.
  { intros p. unfold check, mbind', mlift, mthrow, mret. destruct (validate_prefilled _ _ _ _) as [[]|e|y]; [case_decide|..]; by eexists. }
  destruct t as [p|bytes|path n].
  - destruct (Hcheck p) as [x Hx]. exists x, (dk_faults (disk s)). split; [done|]. intros s' Hm Hl Hd. rewrite <- Hd, quiet_same.
    unfold read_tier. rewrite <- (Hx s'). unfold check. by rewrite <- Hm, <- Hl.
  - destruct (restore_prefix bytes (tp_model_id s) (tp_limits s)) as [p|e|y] eqn:Er; [destruct (Hcheck p) as [x Hx]; exists x|eexists (Err _)|eexists (Panic _)];
      exists (dk_faults (disk s)); (split; [done|]); intros s' Hm Hl Hd; rewrite <- Hd, quiet_same; unfold read_tier, mlift; unfold mbind' at 1, mget;
      unfold mbind' at 1; rewrite Hm, Hl, Er; [|done..]. exact (Hx s').
  - destruct (fs_read_runs path s) as ([bytes|e|y] & fl & Hfl & Hrun); [|eexists (Err _), fl|eexists (Panic _), fl].
    2,3: split; [done|]; intros s' Hm Hl Hd; unfold read_tier, mbind', mget; by rewrite (Hrun s' Hd).
    destruct (restore_prefix bytes (tp_model_id s) (tp_limits s)) as [p|e|y] eqn:Er; [destruct (Hcheck p) as [x Hx]; exists x|eexists (Err _)|eexists (Panic _)];
      exists fl; (split; [done|]); intros s' Hm Hl Hd; unfold read_tier; unfold mbind' at 1, mget; unfold mbind' at 1; unfold mbind' at 1;
      rewrite (Hrun s' Hd); unfold mlift at 1; rewrite Hm, Hl, Er; [|done..]. exact (Hx (quiet fl s')).
Qed.

(** Reading the entry of a key fails, with the faults there are or with what is left of them
    once other entries have been tried. *)
Definition unreadable (prompt : list Z) s (key : list Z) : Prop :=
  ∃ e fl err, entries s !! key = Some e ∧ fl `suffix_of` dk_faults (disk s) ∧ (read_tier prompt key (tier e) (quiet fl s)).1 = Err err.

(** A key an answer passes over: every key if there is none. *)
Definition longer (o : option PrefilledPrompt) (key : list Z) : Prop :=
  match o with Some p => length (pf_tokens p) < length key | None => True end.

(** What a lookup in [s] answers and leaves: the prefix is one that was kept, every longer
    one could not be read and is gone, and the other entries stay in their tiers. *)
Definition looked_up (prompt : list Z) s (o : option PrefilledPrompt) s' : Prop :=
  (∀ p, o = Some p → answers s (pf_tokens p) p ∧ pf_tokens p `prefix_of` prompt ∧ is_Some (entries s !! pf_tokens p)) ∧
  ∀ key, (key `prefix_of` prompt → longer o key → (is_Some (entries s !! key) → unreadable prompt s key) ∧ entries s' !! key = None) ∧
    (¬ (key `prefix_of` prompt ∧ longer o key) → tier <$> entries s' !! key = tier <$> entries s !! key).

(** One more entry was tried and dropped. *)
Lemma looked_up_drop prompt key e s fl s3 o s' err : entries s !! key = Some e → key `prefix_of` prompt →
  (∀ k, is_Some (entries s !! k) → k `prefix_of` prompt → length k ≤ length key) →
  setup s3 = setup s → fl `suffix_of` dk_faults (disk s) → disk s3 = mk_disk (dk_files (disk s)) fl →
  (∀ k, tier <$> entries s3 !! k = if decide (k = key) then None else tier <$> entries s !! k) →
  (read_tier prompt key (tier e) s).1 = Err err → looked_up prompt s3 o s' → looked_up prompt s o s'.
Proof.
  intros Hkey Hpre Hmax Hset Hfl Hdisk Hent Hread [Hans Hall]. destruct (setup_config _ _ Hset) as (_ & Hid & Hlim).
  assert (∀ k, is_Some (entries s3 !! k) → k ≠ key ∧ is_Some (entries s !! k)) as Hdom.
  { intros k. rewrite <- (fmap_is_Some tier), Hent. case_decide; [by intros []|]. by rewrite fmap_is_Some. }
  assert (∀ p, o = Some p → pf_tokens p ≠ key ∧ length (pf_tokens p) ≤ length key) as Hshort.
  { intros p Hp. destruct (Hans p Hp) as (_ & Hpp & [Hne Hin]%Hdom). split; [done|by apply Hmax]. }
  split.
  - intros p Hp. destruct (Hans p Hp) as (Ha & Hpp & [_ Hin]%Hdom). split; [|done]. unfold answers in *. by rewrite <- Hid, <- Hlim.
  - intros k. destruct (Hall k) as [Hlong Hrest]. split.
    + intros Hk Hl. destruct (Hlong Hk Hl) as [Hun Hnone]. split; [|done]. intros Hin. destruct (decide (k = key)) as [->|Hne].
      * exists e, (dk_faults (disk s)), err. split; [done|]. split; [reflexivity|]. rewrite <- Hread. f_equal. f_equal.
        unfold quiet, put_disk_state. by destruct s as [? ? ? ? ? ? []].
      * destruct Hun as (e3 & fl3 & err3 & He3 & Hfl3 & Hr3).
        { rewrite <- (fmap_is_Some tier), Hent, decide_False by done. by rewrite fmap_is_Some. }
        destruct Hin as [e' He']. pose proof (Hent k) as Heq. rewrite decide_False, He3, He' in Heq by done. injection Heq as Heq.
        rewrite Hdisk in Hfl3. simpl in Hfl3. exists e', fl3, err3. split; [done|]. split; [by etrans|]. rewrite <- Heq, <- Hr3.
        destruct (read_tier_runs prompt k (tier e3) (quiet fl3 s)) as (x & fl4 & _ & Hrun). rewrite !Hrun; [done|..]; try done.
        unfold quiet, put_disk_state. simpl. by rewrite Hdisk.
    + intros Hn. rewrite Hrest by done. rewrite Hent. case_decide as Hk; [|done]. subst k. destruct Hn. split; [done|].
      destruct o as [p|]; [|done]. destruct (Hshort p eq_refl) as [Hne Hle]. destruct (Hans p eq_refl) as (_ & Hpp & _). simpl.
      assert (length (pf_tokens p) ≠ length key); [|lia]. intros Hl. apply Hne. by apply (prefix_of_length _ _ prompt).
Qed.

Lemma drop_failed_wp key e s : tiered_wf s → entries s !! key = Some e →
  wp (drop_failed key (tier e)) (post (λ _ s', evolves s s' ∧ entries s' = delete key (entries s) ∧ disk s' = disk s) (λ _ _, False)) s.
Proof.
  intros Hwf Hkey. pose proof (accounts_remove _ _ _ _ _ _ (tw_accounts _ Hwf) Hkey) as Hr.
  assert (∀ x, disk_bytes x = disk_bytes (stats s) → accounts 0 0 0 (put_stats x (put_entries (delete key (entries s)) s)) →
    evolves s (put_stats x (put_entries (delete key (entries s)) s))) as Hev.
  { intros x Hx Hacc. apply evolves_intro; [done|done|done|]. unfold within_disk. simpl. rewrite Hx. apply (tw_disk _ Hwf). }
  unfold drop_failed. wp_step. unfold remove_entry. apply wp_modify. destruct e as [[p|bytes|path n] last]; cbn [tier].
  - change (accounts 1 0 0 (put_entries (delete key (entries s)) s)) in Hr. pose proof (ac_device _ _ _ _ Hr) as Hd. simpl in Hd.
    apply sub_usize_wp; [simpl; lia|]. split; [|done]. apply Hev; [done|]. eapply accounts_stats; [exact Hr|simpl; lia..].
  - change (accounts 0 (length bytes) 0 (put_entries (delete key (entries s)) s)) in Hr.
    pose proof (ac_host _ _ _ _ Hr) as Hd. simpl in Hd.
    apply sub_usize_wp; [simpl; lia|]. split; [|done]. apply Hev; [done|]. eapply accounts_stats; [exact Hr|simpl; lia..].
  - apply wp_ret. split; [|done]. change (accounts 0 0 n (put_entries (delete key (entries s)) s)) in Hr.
    specialize (Hev (stats s) eq_refl). destruct s; simpl in *. apply Hev. destruct Hr. split; simpl in *; [lia..|done|done|done|done].
Qed.

Lemma looked_up_found prompt key s s' p : longest_prefix prompt (entries s) = Some key → answers s key p → 
  (∀ k, tier <$> entries s' !! k = tier <$> entries s !! k) → looked_up prompt s (Some p) s'.
Proof.
  intros (Hin & Hpre & Hmax)%longest_prefix_Some Hans Hent. assert (pf_tokens p = key) as Htok by apply Hans. split.
  - intros q [= <-]. by rewrite Htok.
  - intros k. split; [|done]. simpl. rewrite Htok. intros Hk Hl.
    assert (¬ is_Some (entries s !! k)) as Hno by (intros Hk'; specialize (Hmax k Hk' Hk); lia). split; [done|].
    apply eq_None_not_Some. by rewrite <- (fmap_is_Some tier), Hent, fmap_is_Some.
Qed.

Lemma looked_up_none prompt s : longest_prefix prompt (entries s) = None → looked_up prompt s None s.
Proof.
  intros Hn. split; [done|]. intros k. split; [|done]. intros Hk _. pose proof (longest_prefix_None _ _ Hn k) as Hno.
  split; [intros Hin; by destruct (Hno Hin)|]. apply eq_None_not_Some. intros Hin. by apply Hno.
Qed.

Lemma lookup_loop_wp prompt fuel s : tiered_wf s → size (entries s) < fuel →
  wp (lookup_loop fuel prompt) (post (λ o s', evolves s s' ∧ looked_up prompt s o s') (λ _ _, False)) s.
Proof.
  revert s. induction fuel as [|fuel IH]; intros s Hwf Hf; [lia|]. simpl. do 2 wp_step.
  destruct (longest_prefix prompt (entries s)) as [key|] eqn:El.
  2:{ apply wp_ret. split; [done|]. by apply looked_up_none. }
  destruct (longest_prefix_Some _ _ _ El) as ([e Hkey] & Hpre & Hmax).
  wp_step. unfold mexpect. rewrite Hkey. apply wp_ret. wp_step. apply wp_modify.
  set (s1 := put_entries _ s).
  assert (entries s1 !! key = Some (touch (tick s) e)) as Hkey1 by (simpl; by rewrite lookup_alter_eq, Hkey).
  assert (∀ k, tier <$> entries s1 !! k = tier <$> entries s !! k) as Htier1.
  { intros k. simpl. rewrite lookup_alter. case_decide; [subst; by destruct (entries s !! k)|done]. }
  assert (evolves s s1) as Hev1.
  { apply evolves_intro; [done|apply accounts_touch, (tw_accounts _ Hwf)|done|apply (tw_disk _ Hwf)]. }
  destruct (read_tier_runs prompt key (tier e) s) as (x0 & fl & Hfl & Hrun).
  wp_step. wp_step. wp_step.
  pose proof (read_tier_wp prompt key (touch (tick s) e) s1 (proj1 Hev1) Hkey1 Hpre) as Hread. unfold wp in Hread. unfold wp at 1.
  change (tier (touch (tick s) e)) with (tier e) in Hread. rewrite (Hrun s1) in Hread |- * by done. cbn [fst snd] in *. set (s2 := quiet fl s1) in *.
  destruct x0 as [p|err|x]; cbn beta iota; [| |done].
  - destruct Hread as (Hwf2 & Hsame & Hans). wp_step. wp_step. apply add_u64_wp; [|done].
    wp_step. apply add_u64_wp; [|done]. apply wp_ret.
    split; [split; [destruct Hwf2 as [Ha ? ?]; split; [|done..]; by eapply accounts_stats; [eapply accounts_stats; [exact Ha|done..]|done..]|done]|].
    by eapply looked_up_found.
  - destruct Hread as (Hwf2 & Hsame). assert (evolves s s2) as Hev2 by (by split).
    apply wp_ret. wp_step. change (tier e) with (tier (touch (tick s) e)).
    eapply wp_mono; [by apply (drop_failed_wp key (touch (tick s) e) s2)|].
    intros [[]|err'|x] s3; simpl; [|done|done]. intros (Hev3 & Hent3 & Hdisk3).
    assert (size (entries s3) < size (entries s)) as Hsize.
    { assert (size (entries s2) = size (entries s)) as Hs2 by apply size_alter. rewrite Hent3, map_size_delete.
      replace (entries s2 !! key) with (Some (touch (tick s) e)) by done.
      pose proof (map_size_ne_0_lookup_2 (entries s2) key ltac:(by eexists)). simpl in *. lia. }
    eapply wp_post_mono; [apply IH; [apply Hev3|lia]| |done].
    intros o s4 [Hev4 Hl]. split; [eapply evolves_trans; [exact Hev2|]; by eapply evolves_trans; [exact Hev3|]|].
    apply (looked_up_drop prompt key e s fl s3 o s4 err); [done|done|done|apply Hev3|done|done| | |done].
    + intros k. rewrite Hent3, lookup_delete. case_decide; subst; [by rewrite decide_True|]. rewrite decide_False by done. apply Htier1.
    + by rewrite (Hrun s).
Qed.

Lemma looked_up_same prompt s1 s o s' : setup s1 = setup s → entries s1 = entries s → disk s1 = disk s → looked_up prompt s1 o s' → looked_up prompt s o s'.
Proof.
  intros Hset Hent Hdisk [Hans Hall]. destruct (setup_config _ _ Hset) as (_ & Hid & Hlim). unfold looked_up, answers in *.
  rewrite Hid, Hlim, Hent in Hans. split; [done|]. intros key. destruct (Hall key) as [Hlong Hrest]. rewrite Hent in Hlong, Hrest. split; [|done].
  intros Hk Hl. destruct (Hlong Hk Hl) as [Hun Hnone]. split; [|done]. intros Hin. destruct (Hun Hin) as (e & fl & err & He & Hfl & Hr).
  exists e, fl, err. rewrite Hent in He. rewrite Hdisk in Hfl. split; [done|]. split; [done|]. rewrite <- Hr.
  destruct (read_tier_runs prompt key (tier e) (quiet fl s)) as (x & fl' & _ & Hrun). rewrite !Hrun; [done|..]; try done.
  unfold quiet, put_disk_state. simpl. by rewrite Hdisk.
Qed.

Lemma lookup_prefix_wp prompt s : tiered_wf s →
  wp (lookup_prefix prompt) (post (λ o s', evolves s s' ∧ looked_up prompt s o s') (λ _ _, False)) s.
Proof.
  intros Hwf. unfold lookup_prefix. wp_step. apply add_u64_wp; [|done]. wp_step. unfold bump_tick. apply add_u64_wp; [|done].
  do 2 wp_step. set (s1 := put_tick _ _). assert (tiered_wf s1) as Hwf1.
  { destruct Hwf as [Ha ? ?]. split; [|done..]. apply accounts_tick. by eapply accounts_stats; [exact Ha|..]. }
  eapply wp_post_mono; [apply lookup_loop_wp; [done|lia]| |done].
  intros o s2 [[Hwf2 Hset] Hl]. split; [by split|]. by apply (looked_up_same prompt s1).
Qed.

(** ** Prefill *)

(** The model computes the state after [t], completely, on the device. *)
Definition completes (limits : CausalModelLimits) (t : list Z) : Prop := ∃ logits cache,
  try_forward_cached_last t new_cache = (inr logits, cache) ∧ device_sync cache = inr tt ∧
  dims logits = (1, 1, vocab_size limits) ∧ on_device logits = true ∧ generation_position cache = length t.

Definition runs (limits : CausalModelLimits) (prompt : list Z) : Prop :=
  ∀ t, t ≠ [] → t `prefix_of` prompt → completes limits t.

Section Prefill.
Context (appends : forward_appends).

(** Where a prefill stands: the first [start] tokens are in the cache. *)
Definition reached s (prompt : list Z) (cache : Cache) (start : nat) (result : option PrefilledPrompt) : Prop :=
  start ≤ length prompt ∧
  match result with
  | None => start = 0 ∧ cache = new_cache
  | Some p => answers s (take start prompt) p ∧ pf_cache p = cache
  end.

Lemma reached_forward s prompt cache start result finish input : reached s prompt cache start result →
  start < finish ≤ length prompt → slice start finish prompt = Some input →
  input ≠ [] ∧ take finish prompt ≠ [] ∧
  try_forward_cached_last (take finish prompt) new_cache = try_forward_cached_last input cache.
Proof.
  intros [Hle Hr] Hf Hin. unfold slice in Hin. rewrite decide_True in Hin by lia. injection Hin as <-.
  set (input := take (finish - start) (drop start prompt)).
  assert (input ≠ []) as Hne.
  { intros Hn. apply (f_equal length) in Hn. unfold input in Hn. rewrite length_take, length_drop in Hn. simpl in Hn. lia. }
  assert (take finish prompt = take start prompt ++ input) as Htake
    by (unfold input; rewrite take_take_drop; f_equal; lia).
  split; [done|]. split; [rewrite Htake; intros [_ ?]%app_nil; done|]. rewrite Htake.
  destruct result as [p|]; [|by destruct Hr as [-> ->]]. destruct Hr as ((([Hnil Hfw] & _) & Htok & _) & <-).
  rewrite <- Htok. by eapply appends.
Qed.

Lemma next_boundary_bounds c start len : 0 < block_tokens c → start < len → start < next_boundary c start len ≤ len.
Proof.
  intros Hb Hs. unfold next_boundary. case_decide; [lia|].
  pose proof (Nat.div_mod start (block_tokens c) ltac:(lia)). pose proof (Nat.mod_upper_bound start (block_tokens c) ltac:(lia)).
  nia.
Qed.

Lemma validate_prefilled_complete p model_id limits prompt : model_id ≠ EmptyString → pf_model_id p = model_id →
  pf_limits p = limits → pf_tokens p ≠ [] → pf_tokens p `prefix_of` prompt →
  dims (pf_logits p) = (1, 1, vocab_size limits) → on_device (pf_logits p) = true →
  validate_prefilled p model_id limits prompt = Ok tt.
Proof.
  intros ? ? ? ? ? Hd Hdev. unfold validate_prefilled. rewrite Hd, Hdev. rewrite decide_False; [done|]. naive_solver.
Qed.

Lemma prefill_loop_wp prompt fuel cache start result s : tiered_wf s →
  reached s prompt cache start result → length prompt - start < fuel →
  wp (prefill_loop fuel prompt cache start result)
    (post (λ o s', evolves s s' ∧ ∃ cache', reached s prompt cache' (length prompt) o)
      (λ _ s', evolves s s' ∧ ¬ runs (tp_limits s) prompt)) s.
Proof.
  revert cache start result s. induction fuel as [|fuel IH]; intros cache start result s Hwf Hr Hf; [lia|]. simpl.
  case_decide as Hlt.
  2:{ apply wp_ret. split; [done|]. exists cache. destruct Hr as [Hle Hr].
      by replace (length prompt) with start by lia. }
  do 2 wp_step.
  pose proof (next_boundary_bounds (tp_config s) start (length prompt) (ac_blocks _ _ _ _ (tw_accounts _ Hwf)) Hlt) as Hb.
  set (finish := next_boundary _ _ _) in *. cbv zeta.
  destruct (slice start finish prompt) as [input|] eqn:Es; [|unfold slice in Es; by rewrite decide_True in Es by lia].
  destruct (reached_forward _ _ _ _ _ _ _ Hr Hb Es) as (Hne & Htne & Hfw).
  assert (take finish prompt `prefix_of` prompt) as Hpre by apply prefix_take.
  assert (¬ completes (tp_limits s) (take finish prompt) → ¬ runs (tp_limits s) prompt) as Hnot
    by (intros Hc Hruns; by apply Hc, Hruns).
  wp_step. apply wp_ret. destruct (try_forward_cached_last input cache) as [[e|logits] cache'] eqn:Ef; simpl.
  { do 2 wp_step. split; [done|]. apply Hnot. intros (l & c & Hl & _). rewrite Hfw in Hl. done. }
  do 2 wp_step. do 2 wp_step. destruct (device_sync cache') as [e|[]] eqn:Esync; simpl.
  { split; [done|]. apply Hnot. intros (l & c & Hl & Hs & _). rewrite Hfw in Hl. injection Hl as <- <-. congruence. }
  wp_step. unfold slice at 1. rewrite decide_True by lia. apply wp_ret. rewrite drop_0, Nat.sub_0_r.
  set (p := mk_prefilled _ _ _ _ _).
  do 2 wp_step. destruct (validate_prefilled p _ _ _) as [[]|e|x] eqn:Ev; [| |by destruct (validate_prefilled_no_panic _ _ _ _ _ Ev)].
  2:{ split; [done|]. apply Hnot. intros (l & c & Hl & _ & Hd & Hdev & _). rewrite Hfw in Hl. injection Hl as <- <-.
      by rewrite validate_prefilled_complete in Ev by (done || apply (tw_named _ Hwf)). }
  case_decide as Hpos.
  { apply wp_throw. split; [done|]. apply Hnot. intros (l & c & Hl & _ & _ & _ & Hp). rewrite Hfw in Hl. injection Hl as <- <-.
    apply Hpos. rewrite Hp, length_take. lia. }
  assert (generation_position cache' = finish) as Hposition by (exact Hpos).
  assert (prefix_of_model p) as Hmodel by done.
  assert (answers s (take finish prompt) p) as Hans.
  { split; [|done]. split; [done|]. simpl. rewrite length_take. lia. }
  wp_step. wp_step. eapply wp_mono; [by apply insert_prefix_wp|].
  assert (∀ s', evolves s s' → wp (prefill_loop fuel prompt cache' finish (Some p))
    (post (λ o s', evolves s s' ∧ ∃ cache', reached s prompt cache' (length prompt) o)
      (λ _ s', evolves s s' ∧ ¬ runs (tp_limits s) prompt)) s') as Hrest.
  { intros s' Hev. destruct (setup_config _ _ (proj2 Hev)) as (_ & Hid & Hlim).
    assert (∀ cache n o, reached s' prompt cache n o ↔ reached s prompt cache n o) as Hsame
      by (intros ? ? [q|]; unfold reached, answers; by rewrite ?Hid, ?Hlim).
    eapply wp_post_mono; [apply IH; [apply Hev|apply Hsame; by split; [lia|split]|lia]|..].
    - intros o s'' [Hev' (c & Hc)]. split; [by eapply evolves_trans|]. exists c. by apply Hsame.
    - intros e s'' [Hev' Hn]. split; [by eapply evolves_trans|]. by rewrite <- Hlim. }
  intros [[]|e|x] s' Hpost; simpl in Hpost; [apply Hrest, Hpost|apply wp_ret; by apply Hrest|done].
Qed.

(** A prefill through the tiers is a forward of the whole prompt. *)
Lemma tiered_prefill_wp prompt s : tiered_wf s →
  wp (tiered_prefill prompt) (post (λ p s', evolves s s' ∧ answers s prompt p)
    (λ _ s', evolves s s' ∧ (bad_tokens (tp_limits s) prompt ∨ ¬ runs (tp_limits s) prompt))) s.
Proof.
  intros Hwf. unfold tiered_prefill. do 2 wp_step. case_decide as Hbad; [apply wp_throw; split; [done|by left]|].
  eapply wp_bind_post; [by apply lookup_prefix_wp| |done].
  intros existing s1 [Hev1 Hfound]. destruct (setup_config _ _ (proj2 Hev1)) as (_ & Hid & Hlim).
  assert (∃ cache start result, match existing with
      | Some prefix => (pf_cache prefix, length (pf_tokens prefix), Some prefix)
      | None => (new_cache, 0, None)
      end = (cache, start, result) ∧ reached s1 prompt cache start result) as (cache & start & result & -> & Hr).
  { destruct existing as [p|]; do 3 eexists; (split; [reflexivity|]); [|by split; [lia|]].
    destruct Hfound as [Hans _]. destruct (Hans p eq_refl) as (Ha & Hpre & _). split; [by apply prefix_length|]. split; [|done].
    unfold answers in *. rewrite Hid, Hlim. destruct Hpre as [rest ->]. by rewrite take_app_length. }
  eapply wp_bind_post; [apply prefill_loop_wp; [apply Hev1|done|lia]|..].
  - intros o s2 [Hev2 (c & Hle & Ho)]. unfold mok_or. destruct o as [p|].
    + apply wp_ret. split; [by eapply evolves_trans|]. destruct Ho as [Hans _]. rewrite take_ge in Hans by done.
      unfold answers in *. by rewrite <- Hid, <- Hlim.
    + exfalso. apply Hbad. left. destruct Ho as [Ho _]. by destruct prompt.
  - intros e s2 [Hev2 Hn]. split; [by eapply evolves_trans|]. right. by rewrite <- Hlim.
Qed.

(** ** Opening a cache *)
Lemma setup_quiet fl s : setup (quiet fl s) = setup s.
Proof. done. Qed.

Lemma reopen_file_wp f s : accounts 0 0 0 s →
  wp (reopen_file f) (post (λ _ s', accounts 0 0 0 s' ∧ setup s' = setup s) (λ _ _, True)) s.
Proof.
  intros Ha. unfold reopen_file. wp_step. apply or_fault_wp; [intros fl1|done].
  assert (accounts 0 0 0 (quiet fl1 s)) as Ha1 by (by apply accounts_quiet).
  destruct (negb _); [by apply wp_ret|]. wp_step. apply or_fault_wp; [intros fl2|done].
  assert (accounts 0 0 0 (quiet fl2 (quiet fl1 s))) as Ha2 by (by apply accounts_quiet).
  wp_step. apply io_call_wp. intros fault fl3.
  set (s1 := quiet fl3 _). assert (accounts 0 0 0 s1) as Ha3 by (by apply accounts_quiet).
  assert (setup s1 = setup s) as Hset by done. clearbody s1.
  destruct fault; [by apply wp_ret|]. destruct (decode_header _) as [e|[[[version id] limits] tokens]]; [by apply wp_ret|].
  do 2 wp_step. case_decide; [by apply wp_ret|]. wp_step. apply add_u64_wp; [|done]. do 2 wp_step.
  assert (accounts 0 0 0 (put_tick (tick s1 + 1) s1)) as Ha4 by (by apply accounts_tick).
  case_decide as Hin.
  - apply fs_remove_wp; [|done]. intros fl files Hfiles. split; [|done]. apply accounts_disk; [done|].
    intros f' Hf. by apply (ac_files _ _ _ _ Ha3), Hfiles.
  - wp_step. unfold mok_or. destruct (usize_add _ _) as [sum|] eqn:Esum; [|by apply wp_throw].
    apply usize_add_Some in Esum as [-> _]. apply wp_ret. wp_step. apply wp_modify. apply wp_modify. split; [|done].
    apply accounts_insert; [|by apply eq_None_not_Some|done].
    change (accounts 0 0 (length (df_bytes f)) (put_stats (put_disk_bytes (disk_bytes (stats s1) + length (df_bytes f)) (stats s1))
      (put_tick (tick s1 + 1) s1))).
    eapply accounts_stats; [exact Ha4|simpl; lia..].
Qed.

Lemma reopen_disk_wp s : accounts 0 0 0 s → disk_bytes (stats s) = 0 → (N.of_nat (cfg_disk_bytes (tp_config s)) < usize_max)%N →
  wp reopen_disk (post (λ _ s', accounts 0 0 0 s' ∧ setup s' = setup s ∧ within_disk s') (λ _ _, True)) s.
Proof.
  intros Ha Hz Hsmall. assert (within_disk s) as Hw by (unfold within_disk; lia).
  unfold reopen_disk. do 2 wp_step. destruct (disk_directory _); [|by apply wp_ret].
  case_decide; [by apply wp_ret|]. wp_step. apply or_fault_wp; [intros fl|done]. do 2 wp_step.
  eapply wp_bind_post; [apply (wp_mfor (λ _ s', accounts 0 0 0 s' ∧ setup s' = setup s) (λ _ _, True))| |done].
  - split; [by apply accounts_quiet|done].
  - intros f l s' [Ha' Hs']. eapply wp_post_mono; [by apply reopen_file_wp| |done].
    intros [] s'' [Ha'' Hs'']. split; [done|congruence].
  - intros [] s1 [Ha1 Hs1]. unfold evict_until. do 2 wp_step.
    eapply wp_post_mono; [apply (evict_loop_wp 0 0 0 _ 0 s1); [done|lia]| |done].
    intros [] s2 (Ha2 & Hsp & Hroom). assert (setup s2 = setup s) as Hs2 by (rewrite (sp_setup _ _ Hsp); done).
    split; [done|]. split; [done|]. apply saturating_le in Hroom; [unfold within_disk; lia|].
    by destruct (setup_config _ _ Hs2) as (-> & _).
Qed.

Lemma new_tiered_wf model_id limits config d s :
  (N.of_nat (cfg_disk_bytes config) < usize_max)%N →
  (∀ f, f ∈ dk_files d → trusted model_id limits (df_bytes f)) →
  new_tiered model_id limits config d = Ok s →
  tiered_wf s ∧ tp_model_id s = model_id ∧ tp_limits s = limits.
Proof.
  intros Hsmall Htrust. unfold new_tiered. case_decide as Hid; [done|]. case_decide as Hblock; [done|].
  case_decide as Hdir; [done|]. set (start := mk_tiered _ _ _ _ _ _ _).
  set (open_directory := match _ <$> disk_directory config with Some _ => or_fault | None => mret tt end).
  assert (accounts 0 0 0 start) as Ha.
  { split; simpl; rewrite ?total_empty; try done; [|lia].
    intros Hpos Hn%fmap_None. by apply Hdir. }
  assert (wp (open_directory ;;; reopen_disk)
    (post (λ _ s', accounts 0 0 0 s' ∧ setup s' = setup start ∧ within_disk s') (λ _ _, True)) start) as Hw.
  { wp_step. unfold open_directory. destruct (disk_directory config); simpl.
    - apply or_fault_wp; [intros fl|done]. by apply (reopen_disk_wp (quiet fl start)); [apply accounts_quiet|..].
    - apply wp_ret. by apply reopen_disk_wp. }
  unfold wp in Hw. intros Hrun. destruct ((open_directory ;;; reopen_disk) start) as [[[]|e|p] s']; [|done..].
  injection Hrun as <-. simpl in Hw. destruct Hw as (Ha' & Hset & Hw'). destruct (setup_config _ _ Hset) as (Hc & Hi & Hl).
  split; [split; [done|done|by rewrite Hc|by rewrite Hi]|by split].
Qed.

(** ** Reachable caches *)
Inductive tiered_op := LookUp (prompt : list Z) | Prefill (prompt : list Z) | Insert (p : PrefilledPrompt).

Definition tiered_exec (op : tiered_op) s : res GenerationError unit * TieredPrefixCache :=
  match op with
  | LookUp prompt => (let! _ := lookup_prefix prompt in mret tt) s
  | Prefill prompt => (let! _ := tiered_prefill prompt in mret tt) s
  | Insert p => insert_prefix p s
  end.

(** The caches the calls lead to, from a directory whose files, if they are accepted
    at all, hold this model's prefixes.  Between calls files may appear, vanish or be
    damaged, and the disk may start or stop failing; only the model's own prefixes
    are inserted. *)
Inductive tiered_reachable (model_id : string) (limits : CausalModelLimits) (config : PrefixCacheConfig) :
    TieredPrefixCache → Prop :=
| tiered_start d s : (∀ f, f ∈ dk_files d → trusted model_id limits (df_bytes f)) →
    new_tiered model_id limits config d = Ok s → tiered_reachable model_id limits config s
| tiered_outside s d : tiered_reachable model_id limits config s →
    (∀ f, f ∈ dk_files d → trusted model_id limits (df_bytes f)) →
    tiered_reachable model_id limits config (put_disk_state d s)
| tiered_next s op r s' : tiered_reachable model_id limits config s →
    (∀ p, op = Insert p → prefix_of_model p) → tiered_exec op s = (r, s') → (∀ p, r ≠ Panic p) →
    tiered_reachable model_id limits config s'.

Lemma tiered_exec_wp op s : tiered_wf s → (∀ p, op = Insert p → prefix_of_model p) →
  wp (tiered_exec op) (post (λ _ s', evolves s s') (λ _ s', evolves s s')) s.
Proof.
  intros Hwf Hp. destruct op as [prompt|prompt|p]; unfold tiered_exec.
  - eapply wp_bind_post; [by apply lookup_prefix_wp| |done]. intros o s' [? _]. by apply wp_ret.
  - eapply wp_bind_post; [by apply tiered_prefill_wp| |by intros e s' []]. intros o s' [? _]. by apply wp_ret.
  - eapply wp_post_mono; [by apply insert_prefix_wp; [|apply Hp]|by intros [] s' []|done].
Qed.

Lemma tiered_reachable_wf model_id limits config s : (N.of_nat (cfg_disk_bytes config) < usize_max)%N →
  tiered_reachable model_id limits config s → tiered_wf s ∧ tp_model_id s = model_id ∧ tp_limits s = limits.
Proof.
  intros Hsmall. induction 1 as [d s Hd Hs|s d Hr (Hwf & Hid & Hlim) Hd|s op r s' Hr (Hwf & Hid & Hlim) Hp Hrun Hno].
  - by eapply new_tiered_wf.
  - split; [|done]. destruct Hwf as [Ha ? ? ?]. split; [|done..]. apply accounts_disk; [done|]. by rewrite Hid, Hlim.
  - pose proof (tiered_exec_wp op s Hwf Hp) as Hw. unfold wp in Hw. rewrite Hrun in Hw.
    assert (evolves s s') as [Hwf' Hset] by (destruct r as [[]|e|p]; [done|done|by destruct (Hno p)]).
    destruct (setup_config _ _ Hset) as (_ & -> & ->). by split.
Qed.

(** Claim C11. Whatever was looked up, inserted, spilled or evicted before, and whatever
    files are found damaged (a file that still decodes is taken to hold a prefix of the
    model, as its checks cannot tell), a prefill through the tiers gives what forwarding the whole prompt on a
    fresh cache gives, and a session opened on it is the session without a prefix; it
    fails only on tokens it rejects or when the model itself does not complete some
    prefix of the prompt, and panics only when a counter overflows. *)
Theorem tiered_prefill_is_prefill model_id limits config s prompt :
  (N.of_nat (cfg_disk_bytes config) < usize_max)%N → tiered_reachable model_id limits config s →
  match tiered_prefill prompt s with
  | (Ok p, s') => tiered_wf s' ∧ pf_tokens p = prompt ∧ pf_model_id p = model_id ∧ pf_limits p = limits ∧
      try_forward_cached_last prompt new_cache = (inr (pf_logits p), pf_cache p) ∧
      generation_position (pf_cache p) = length prompt ∧
      ∀ generation sampler control, new_with_prefix limits prompt generation sampler control (Some p) =
        new_with_prefix limits prompt generation sampler control None
  | (Err _, s') => tiered_wf s' ∧ (bad_tokens limits prompt ∨ ¬ runs limits prompt)
  | (Panic p, _) => p = Overflow
  end.
Proof.
  intros Hsmall Hr. destruct (tiered_reachable_wf _ _ _ _ Hsmall Hr) as (Hwf & Hid & Hlim).
  pose proof (tiered_prefill_wp prompt s Hwf) as Hw. unfold wp in Hw.
  destruct (tiered_prefill prompt s) as [[p|e|p] s']; [..|done].
  - destruct Hw as [[Hwf' _] ([Hp Hpos] & Htok & Hm & Hl)]. pose proof Hp as [_ Hfw]. rewrite Htok in Hfw, Hpos.
    split_and!; [done|done|congruence|congruence|done|done|]. intros generation sampler control.
    by apply open_prefix; [..|rewrite Htok].
  - destruct Hw as [[Hwf' _] Hn]. by rewrite Hlim in Hn.
Qed.

(** Claim C12. In every reachable cache the counters of device entries and host bytes are
    exact, and the disk counter is at least the kept files' bytes and within the budget (a
    file that could not be removed stays counted).  A lookup never fails: it answers a
    prefix of the prompt that was kept, every longer kept prefix being one whose reading
    failed, or nothing if reading every kept prefix failed; only those are dropped, and the
    other entries stay in their tiers.  An insertion that succeeds leaves the device and host
    budgets kept or every counter as it was.  No [expect] fails and no loop runs for ever:
    the only panic is a counter that overflows. *)
Theorem tiered_cache_is_safe model_id limits config s :
  (N.of_nat (cfg_disk_bytes config) < usize_max)%N → tiered_reachable model_id limits config s →
  device_entries (stats s) = total device_weight (entries s) ∧
  host_bytes (stats s) = total host_weight (entries s) ∧
  total disk_weight (entries s) ≤ disk_bytes (stats s) ≤ cfg_disk_bytes (tp_config s) ∧
  (∀ prompt, match lookup_prefix prompt s with
     | (Ok o, s') => tiered_wf s' ∧ looked_up prompt s o s'
     | (Err _, _) => False
     | (Panic p, _) => p = Overflow
     end) ∧
  (∀ p, prefix_of_model p → match insert_prefix p s with
     | (Ok _, s') => tiered_wf s' ∧ (within_memory s' ∨ stats s' = stats s)
     | (Err _, s') => tiered_wf s'
     | (Panic p, _) => p = Overflow
     end).
Proof.
  intros Hsmall Hr. destruct (tiered_reachable_wf _ _ _ _ Hsmall Hr) as (Hwf & _ & _).
  destruct (tw_accounts _ Hwf) as [Hd Hh Hk _ _ _ _]. pose proof (tw_disk _ Hwf) as Hw. split_and!; [done|done|done|done|intros prompt|intros p Hp].
  - pose proof (lookup_prefix_wp prompt s Hwf) as Hl. unfold wp in Hl.
    destruct (lookup_prefix prompt s) as [[o|e|p] s']; [|done..]. by destruct Hl as [[? _] ?].
  - pose proof (insert_prefix_wp p s Hwf Hp) as Hi. unfold wp in Hi.
    destruct (insert_prefix p s) as [[o|e|x] s']; [..|done]; [by destruct Hi as [[? _] ?]|by destruct Hi].
Qed.
End Prefill.

(** Claim C27. A prefix exported for another server is imported as it was, for the
    prompt it was computed on, and by no model of another name or other limits. *)
Theorem prefix_export_import p bytes : export p = Ok bytes →
  ¬ bad_tokens (pf_limits p) (pf_tokens p) →
  (∀ data, read_data (pf_logits p) = inr data → td_shape data = [1; 1; vocab_size (pf_limits p)] ∧
     td_is_float data = true ∧
     usize_mul (vocab_size (pf_limits p)) (td_element_bytes data) = Some (td_byte_length data)) →
  (∀ prompt, import bytes (pf_model_id p) (pf_limits p) prompt =
     if decide (pf_tokens p = prompt) then Ok p else Err "prefill handoff does not match the requested prompt") ∧
  (∀ model_id limits prompt, model_id ≠ pf_model_id p ∨ limits ≠ pf_limits p →
     import bytes model_id limits prompt = Err "offloaded prefix identity, tokens or logits geometry differs").
Proof.
  intros He Hbad Hdata. unfold export in He.
  destruct (validate_prefilled _ _ _ _) as [[]|e|x] eqn:Ev; [|done..]. simpl in He.
  destruct (decide (generation_position (pf_cache p) ≠ length (pf_tokens p))) as [|Hpos%dec_stable]; [done|].
  destruct (capture_parts p bytes He) as (r & data & Er & Ed & Henc).
  pose proof (stored_bytes _ _ _ _ _ _ _ Henc) as Hdec. destruct (Hdata _ Ed) as (Hs & Hf & Hb).
  split.
  - intros prompt. unfold import, restore_prefix. rewrite Hdec. simpl. rewrite decide_False by (intros Hn; destruct_or! Hn; congruence).
    rewrite <- Hpos, (stored_capture _ _ _ Er), (stored_logits _ _ Ed). simpl.
    replace (mk_prefilled _ _ _ _ _) with p by (by destruct p). rewrite Ev. simpl.
    by repeat case_decide.
  - intros model_id limits prompt Hother. unfold import, restore_prefix. rewrite Hdec. simpl.
    rewrite decide_True; [done|]. destruct Hother; [right; left|right; right; left]; congruence.
Qed.
End Laws.
End Tiered.
