(* ===== verification/TieredPrefixExamples.v ===== *)
(** * The tiered prefix cache on a small model

    The model of GenerationExamples with a byte format for its prefixes: a cache with
    one entry on the device, a few bytes in memory and a few on the disk, the theorems
    of TieredPrefixSpec applied to it, and what becomes of entries that cannot be
    saved or read back. *)
From S2P Require Import Prelude PagedKv ContinuousBatch GenerationControl Generation GenerationSession.
From S2P Require Import GenerationRecord TieredPrefix TieredPrefixSpec GenerationExamples.
Open Scope nat_scope.

#[local] Existing Instances toy_model toy_sampling toy_records.

(** ** A byte format

    The number of tokens, then the tokens; prefixes of more than eight tokens are
    refused. *)
Definition byte_of (n : Z) : Byte.byte := default Byte.x00 (Byte.of_N (Z.to_N n)).
Definition number_of (b : Byte.byte) : Z := Z.of_N (Byte.to_N b).

Definition toy_encode (version : N) (id : string) (limits : CausalModelLimits) (tokens : list Z)
    (r : CacheRecord) (data : TensorData) : Fallible (list Byte.byte) :=
  let bytes := byte_of <$> tokens in
  let count := byte_of (Z.of_nat (length tokens)) in
  if decide (version = 1%N ∧ id = "toy"%string ∧ limits = toy_limits ∧ r = ("toy"%string, tokens) ∧ data = next_token tokens ∧
      number_of <$> bytes = tokens ∧ number_of count = Z.of_nat (length tokens) ∧ length tokens ≤ 8) then
    inr (count :: bytes)
  else inl "no such prefix"%string.

Definition toy_decode (bytes : list Byte.byte) :
    Fallible (N * string * CausalModelLimits * list Z * CacheRecord * TensorData) :=
  match bytes with
  | [] => inl "end of input"%string
  | count :: bytes =>
      if decide (number_of count = Z.of_nat (length bytes)) then
        let tokens := number_of <$> bytes in
        inr (1%N, "toy"%string, toy_limits, tokens, ("toy"%string, tokens), next_token tokens)
      else inl "end of input"%string
  end.

#[local] Instance toy_storage : PrefixStorage := {
  encode_prefix := toy_encode;
  decode_prefix := toy_decode;
  decode_header bytes := match toy_decode bytes with
                         | inr (version, id, limits, tokens, _, _) => inr (version, id, limits, tokens)
                         | inl e => inl e
                         end;
  sha256_hex s := s;
  process_id := 7
}.

#[local] Instance toy_storage_laws : PrefixStorageLaws.
Proof.
  split.
  - intros cache model_id r [= <-]. cbn. by rewrite decide_True.
  - intros r model_id cache n cache'. cbn. case_decide as Hr; [|done]. intros [= <-]. apply Hr.
  - by intros logits data [= <-].
  - intros version id limits tokens r data bytes. cbn. unfold toy_encode.
    case_decide as Hc; [|done]. intros [= <-]. destruct Hc as (-> & -> & -> & -> & -> & Hb & Hn & _).
    cbn. rewrite decide_True by (by rewrite length_fmap). by rewrite Hb.
  - intros version id limits tokens r data bytes n. cbn. unfold toy_encode.
    case_decide as Hc; [|done]. intros [= <-] Hlt. destruct Hc as (_ & _ & _ & _ & _ & _ & Hn & _).
    destruct n as [|n]; cbn; [by eexists|]. rewrite decide_False; [by eexists|].
    cbn in Hlt. rewrite length_fmap in Hlt. rewrite Hn, length_take, length_fmap. lia.
  - by eexists.
Qed.

Lemma toy_appends : forward_appends.
Proof. intros first second cache logits cache' _ [= <- <-]. cbn. by rewrite (assoc_L (++)). Qed.

(** ** Caches that were used *)
Definition or_empty_cache (r : Gen TieredPrefixCache) : TieredPrefixCache :=
  match r with
  | Ok s => s
  | _ => mk_tiered EmptyString toy_limits (mk_prefix_config 1 0 0 None 0) ∅ 0 (mk_prefix_stats 0 0 0 0 0 0) (mk_disk [] [])
  end.

Definition ran (r : res GenerationError unit) : bool := match r with Panic _ => false | _ => true end.
Definition inserts (op : tiered_op) : bool := match op with Insert _ => true | _ => false end.

Fixpoint tiered_run (ops : list tiered_op) (s : TieredPrefixCache) : bool * TieredPrefixCache :=
  match ops with
  | [] => (true, s)
  | op :: ops =>
      let out := tiered_exec op s in
      let rest := tiered_run ops out.2 in (ran out.1 && negb (inserts op) && rest.1, rest.2)
  end.

Lemma tiered_run_reachable model_id limits config ops s : tiered_reachable model_id limits config s →
  (tiered_run ops s).1 = true → tiered_reachable model_id limits config (tiered_run ops s).2.
Proof.
  revert s. induction ops as [|op ops IH]; intros s Hr; [done|]. simpl.
  destruct (tiered_exec op s) as [r s'] eqn:E. simpl. intros [[Hran Hop]%andb_prop Hrest]%andb_prop.
  apply IH; [|done]. eapply tiered_next; [done| |done|].
  - intros p ->. done.
  - intros p ->. done.
Qed.

(** One device entry, room for one saved prefix of two tokens in memory and for two
    on the disk; an unreadable file lies in the directory. *)
Definition toy_config : PrefixCacheConfig := mk_prefix_config 2 1 3 (Some "/kv"%string) 8.
Definition toy_disk : Disk := mk_disk [mk_file "ruda-kv-1-1.mpk" true [Byte.x05]] [].
Definition toy_start : TieredPrefixCache := or_empty_cache (new_tiered "toy" toy_limits toy_config toy_disk).
Definition toy_ops : list tiered_op :=
  [Prefill [1; 2; 3; 4]%Z; Prefill [2; 2; 1]%Z; LookUp [1; 2; 4]%Z; Prefill [3]%Z; Prefill [1; 2; 3; 4; 1]%Z].
Definition toy_cache : TieredPrefixCache := (tiered_run toy_ops toy_start).2.

Lemma toy_cache_reachable : tiered_reachable "toy" toy_limits toy_config toy_cache.
Proof.
  apply tiered_run_reachable; [|vm_compute; reflexivity].
  apply tiered_start with (d := toy_disk).
  - intros f ->%list_elem_of_singleton p. vm_compute. discriminate.
  - vm_compute. reflexivity.
Qed.

(** The cache holds entries in all three tiers. *)
Example toy_cache_tiers :
  (λ e : list Z * Entry, (e.1, on_device_tier (tier e.2), on_host_tier (tier e.2))) <$> vec_iter (entries toy_cache) =
    [([1; 2]%Z, false, false); ([1; 2; 3; 4]%Z, false, false); ([1; 2; 3; 4; 1]%Z, true, false); ([3]%Z, false, true)] ∧
  stats toy_cache = mk_prefix_stats 5 2 4 1 2 8.
Proof. split; vm_compute; reflexivity. Qed.

#[local] Opaque toy_cache.

Example tiered_prefill_is_prefill_witness :
  match tiered_prefill [1; 2; 3; 1]%Z toy_cache with
  | (Ok p, s') => tiered_wf s' ∧ pf_tokens p = [1; 2; 3; 1]%Z ∧ pf_model_id p = "toy"%string ∧ pf_limits p = toy_limits ∧
      try_forward_cached_last [1; 2; 3; 1]%Z new_cache = (inr (pf_logits p), pf_cache p) ∧
      generation_position (pf_cache p) = length [1; 2; 3; 1]%Z ∧
      ∀ generation sampler control,
        new_with_prefix toy_limits [1; 2; 3; 1]%Z generation sampler control (Some p) =
        new_with_prefix toy_limits [1; 2; 3; 1]%Z generation sampler control None
  | (Err _, s') => tiered_wf s' ∧ (bad_tokens toy_limits [1; 2; 3; 1]%Z ∨ ¬ runs toy_limits [1; 2; 3; 1]%Z)
  | (Panic p, _) => p = Overflow
  end.
Proof.
  apply (tiered_prefill_is_prefill toy_appends "toy" toy_limits toy_config toy_cache [1; 2; 3; 1]%Z);
    [vm_compute; reflexivity|exact toy_cache_reachable].
Defined.

Example tiered_cache_is_safe_witness :
  device_entries (stats toy_cache) = total device_weight (entries toy_cache) ∧
  host_bytes (stats toy_cache) = total host_weight (entries toy_cache) ∧
  total disk_weight (entries toy_cache) ≤ disk_bytes (stats toy_cache) ≤ cfg_disk_bytes (tp_config toy_cache) ∧
  (∀ prompt, match lookup_prefix prompt toy_cache with
     | (Ok o, s') => tiered_wf s' ∧ looked_up prompt toy_cache o s'
     | (Err _, _) => False
     | (Panic p, _) => p = Overflow
     end) ∧
  (∀ p, prefix_of_model p → match insert_prefix p toy_cache with
     | (Ok _, s') => tiered_wf s' ∧ (within_memory s' ∨ stats s' = stats toy_cache)
     | (Err _, s') => tiered_wf s'
     | (Panic p, _) => p = Overflow
     end).
Proof.
  apply (tiered_cache_is_safe toy_appends "toy" toy_limits toy_config toy_cache);
    [vm_compute; reflexivity|exact toy_cache_reachable].
Defined.

Definition exported : PrefilledPrompt := mk_prefilled "toy" toy_limits [1; 2]%Z ([1; 2]%Z : Cache) (4%Z : Logits).

Example prefix_export_import_witness :
  export exported = Ok [Byte.x02; Byte.x01; Byte.x02] ∧
  (∀ prompt, import [Byte.x02; Byte.x01; Byte.x02] "toy" toy_limits prompt =
     if decide ([1; 2]%Z = prompt) then Ok exported
     else Err "prefill handoff does not match the requested prompt"%string) ∧
  (∀ model_id limits prompt, model_id ≠ "toy"%string ∨ limits ≠ toy_limits →
     import [Byte.x02; Byte.x01; Byte.x02] model_id limits prompt =
       Err "offloaded prefix identity, tokens or logits geometry differs"%string).
Proof.
  split; [vm_compute; reflexivity|].
  apply (prefix_export_import exported [Byte.x02; Byte.x01; Byte.x02]).
  - vm_compute. reflexivity.
  - vm_compute. intros [Hn|[Hn|Hn]]; [discriminate|lia|discriminate].
  - intros data [= <-]. vm_compute. auto.
Defined.

(** ** What cannot be saved stays

    The format refuses more than eight tokens.  With one device entry allowed, an
    entry that cannot be captured is put back on every insertion and blocks the
    eviction of all later ones: the device holds three entries, then four. *)
Definition whole_config (device host disk : nat) : PrefixCacheConfig := mk_prefix_config 20 device host (Some "/kv"%string) disk.
Definition stuck_start : TieredPrefixCache := or_empty_cache (new_tiered "toy" toy_limits (whole_config 1 100 0) (mk_disk [] [])).
Definition stuck_ops : list tiered_op := [Prefill (replicate 9 1%Z); Prefill [2]%Z; Prefill [3]%Z; Prefill [4]%Z].

Example uncaptured_entry_blocks_eviction :
  let after n := (tiered_run (take n stuck_ops) stuck_start).2 in
  cfg_device_entries (tp_config stuck_start) = 1 ∧
  ((λ n, device_entries (stats (after n))) <$> [1; 2; 3; 4]) = [1; 2; 3; 4] ∧
  ((λ n, match tiered_prefill [2]%Z (after n) with (Ok _, _) => true | _ => false end) <$> [1; 2; 3; 4]) =
    [true; true; true; true].
Proof. split_and!; vm_compute; reflexivity. Qed.

(** ** A file that cannot be read stays counted

    Two entries of one token are saved, of two bytes each; reading each back fails
    once.  Their files and their bytes stay counted, so that the disk takes no other
    entry. *)
Definition unread (s : TieredPrefixCache) : TieredPrefixCache :=
  put_disk_state (mk_disk (dk_files (disk s)) [Some (mk_fault "interrupted" 0)]) s.
Definition full_disk : TieredPrefixCache :=
  (tiered_run [Prefill [2]%Z; Prefill [3]%Z]
     (or_empty_cache (new_tiered "toy" toy_limits (whole_config 0 0 4) (mk_disk [] [])))).2.
Definition forgotten : TieredPrefixCache :=
  (lookup_prefix [3]%Z (unread (lookup_prefix [2]%Z (unread full_disk)).2)).2.

Example unreadable_file_stays_counted :
  disk_bytes (stats full_disk) = 4 ∧ size (entries full_disk) = 2 ∧
  disk_bytes (stats forgotten) = 4 ∧ size (entries forgotten) = 0 ∧ length (dk_files (disk forgotten)) = 2 ∧
  (insert_prefix (mk_prefilled "toy" toy_limits [4]%Z ([4]%Z : Cache) (0%Z : Logits)) forgotten).1 =
    Err "disk budget has no evictable payload"%string.
Proof. split_and!; vm_compute; reflexivity. Qed.
