(* ===== verification/TrainData.v ===== *)
(** * Training examples and their loader

    src/src/training/data.rs, with the chat rendering of src/src/huggingface.rs it
    uses: JSON records become token sequences with labels, sequences become padded
    micro-batches, and a seeded loader streams them for ever. *)
From S2P Require Import Prelude PagedKv GenerationControl.
Open Scope nat_scope.
Open Scope list_scope.
Open Scope m_scope.

Definition DataError : Type := string.

(** ** Chat rendering (huggingface.rs) *)
Inductive Qwen2ChatRole := System | User | Assistant.
#[export] Instance Qwen2ChatRole_eq_dec : EqDecision Qwen2ChatRole.
Proof. solve_decision. Defined.

Definition role_as_str (r : Qwen2ChatRole) : string :=
  match r with System => "system" | User => "user" | Assistant => "assistant" end.

Record Qwen2ChatMessage := mk_message { msg_role : Qwen2ChatRole; msg_content : string }.

Definition newline : string := String (Ascii.Ascii false true false true false false false false) EmptyString.

(** A string in quotes; [debug] is its [{:?}] form, but for the characters Rust
    writes as unicode escapes. *)
Definition quote : string := String (Ascii.ascii_of_nat 34) EmptyString.
Definition quoted (s : string) : string := quote +:+ s +:+ quote.
Fixpoint escape (s : string) : string :=
  match s with
  | EmptyString => EmptyString
  | String c s =>
      match Ascii.nat_of_ascii c with
      | 0 => "\0" +:+ escape s
      | 9 => "\t" +:+ escape s
      | 10 => "\n" +:+ escape s
      | 13 => "\r" +:+ escape s
      | 34 | 92 => "\" +:+ String c (escape s)
      | _ => String c (escape s)
      end
  end.
Definition debug (s : string) : string := quoted (escape s).

Definition append_qwen2_chat_message (prompt : string) (m : Qwen2ChatMessage) : string :=
  prompt +:+ "<|im_start|>" +:+ role_as_str (msg_role m) +:+ newline +:+ msg_content m +:+ "<|im_end|>" +:+ newline.

Definition default_system : Qwen2ChatMessage := mk_message System "You are a helpful assistant.".

Definition render_qwen2_chat_messages (messages : list Qwen2ChatMessage) (add_generation_prompt : bool) :
    res DataError string :=
  match messages with
  | [] => Err "Qwen chat requires at least one message"
  | first :: others =>
      let prompt :=
        if decide (msg_role first = System)
        then fold_left append_qwen2_chat_message others (append_qwen2_chat_message EmptyString first)
        else fold_left append_qwen2_chat_message messages (append_qwen2_chat_message EmptyString default_system) in
      Ok (if add_generation_prompt then prompt +:+ "<|im_start|>assistant" +:+ newline else prompt)
  end.

(** ** Examples *)
Definition IGNORE_INDEX : Z := -100.

Record SftExample := mk_example { input_ids : list Z; labels : list Z }.

Definition causal (ids : list Z) : SftExample := mk_example ids ids.

Definition target_count (e : SftExample) : nat := length (filter (λ label, (0 ≤ label)%Z) (drop 1 (labels e))).

Inductive TextFormat := QwenChat | Plain.
#[export] Instance TextFormat_eq_dec : EqDecision TextFormat.
Proof. solve_decision. Defined.

(** [serde_json::Value] and the tokenizer, as far as they are used. *)
Class JsonRecords := {
  Value : Type;
  get : Value → string → option Value;
  as_str : Value → option string;
  as_array : Value → option (list Value);
  parse_json : string → Fallible Value
}.
Class TextTokenizer := { tokenizer_encode : string → Fallible (list N) }.

(** [for x in l { .. }] that collects results, and one that threads a value. *)
Fixpoint map_res {E A B} (f : A → res E B) (l : list A) : res E (list B) :=
  match l with
  | [] => Ok []
  | x :: l => do? y := f x in do? ys := map_res f l in Ok (y :: ys)
  end.

Fixpoint fold_res {E A B} (f : B → A → res E B) (b : B) (l : list A) : res E B :=
  match l with
  | [] => Ok b
  | x :: l => do? b := f b x in fold_res f b l
  end.

Definition i32_max : Z := 2 ^ 31 - 1.

Definition token_of_id (id : N) : res DataError Z :=
  if decide (Z.of_N id ≤ i32_max)%Z then Ok (Z.of_N id) else Err "token id exceeds i32".

Section Records.
Context `{JsonRecords, TextTokenizer}.

Definition encode (text : string) : res DataError (list Z) :=
  match tokenizer_encode text with
  | inl e => Err ("tokenizer encode failed: " +:+ e)
  | inr ids => map_res token_of_id ids
  end.

Definition chat_role (value : Value) : res DataError Qwen2ChatRole :=
  match get value "role" ≫= as_str with
  | Some role =>
      if String.eqb role "system" then Ok System
      else if String.eqb role "user" then Ok User
      else if String.eqb role "assistant" then Ok Assistant
      else Err ("unsupported chat role Some(" +:+ debug role +:+ ")")
  | None => Err "unsupported chat role None"
  end.

Definition chat_message (message : Value) : res DataError Qwen2ChatMessage :=
  do? content := ok_or (get message "content" ≫= as_str) "chat content must be a string" in
  do? role := chat_role message in
  Ok (mk_message role content).

(** [labels[from..to].copy_from_slice(&input_ids[from..to])] *)
Definition copy_range (from to : nat) (source target : list Z) : res DataError (list Z) :=
  do? piece := expect OutOfBounds (slice from to source) in
  do? _ := expect OutOfBounds (slice from to target) in
  Ok (take from target ++ piece ++ drop to target).

(** One turn of the loop of [chat_example]. *)
Definition label_turn (messages : list Qwen2ChatMessage) (ids labels : list Z) (index : nat) : res DataError (list Z) :=
  do? message := expect OutOfBounds (messages !! index) in
  if decide (msg_role message ≠ Assistant) then Ok labels else
  do? before := render_qwen2_chat_messages (take index messages) true in
  do? start := encode before in
  do? through := render_qwen2_chat_messages (take (index + 1) messages) false in
  do? finish := encode through in
  if decide (¬ start `prefix_of` ids ∨ ¬ finish `prefix_of` ids) then
    Err "chat turn boundary does not align with the tokenized conversation"
  else
    let stop := Nat.max (length finish - 1) (length start) in
    copy_range (length start) stop ids labels.

Definition label_chat (messages : list Qwen2ChatMessage) : res DataError SftExample :=
  do? text := render_qwen2_chat_messages messages false in
  do? ids := encode text in
  do? labels := fold_res (label_turn messages ids) (replicate (length ids) IGNORE_INDEX) (seq 0 (length messages)) in
  Ok (mk_example ids labels).

Definition chat_example (messages : list Value) : res DataError SftExample :=
  do? messages := map_res chat_message messages in label_chat messages.

Definition needs_fields : string :=
  "record needs " +:+ quoted "messages" +:+ ", " +:+ quoted "prompt" +:+ "+" +:+ quoted "completion" +:+ " or " +:+ quoted "text".

Definition option_list {A} (o : option A) : list A := match o with Some a => [a] | None => [] end.

Definition parse_record (record : Value) (format : TextFormat) (eos_token_id : option Z) : res DataError SftExample :=
  match (if decide (format = QwenChat) then get record "messages" ≫= as_array else None) with
  | Some messages => chat_example messages
  | None =>
      match get record "prompt" ≫= as_str, get record "completion" ≫= as_str with
      | Some prompt, Some completion =>
          do? prompt := encode prompt in
          do? completion := encode completion in
          let completion := completion ++ option_list eos_token_id in
          Ok (mk_example (prompt ++ completion) (replicate (length prompt) IGNORE_INDEX ++ completion))
      | _, _ =>
          match get record "text" ≫= as_str with
          | Some text => do? ids := encode text in Ok (causal (ids ++ option_list eos_token_id))
          | None => Err needs_fields
          end
      end
  end.

(** [str::trim] on UTF-8 bytes: characters that are [White_Space]. *)
Fixpoint trim_start (bytes : list Byte.byte) : list Byte.byte :=
  match bytes with
  | (Byte.x09 | Byte.x0a | Byte.x0b | Byte.x0c | Byte.x0d | Byte.x20) :: rest => trim_start rest
  | Byte.xc2 :: (Byte.x85 | Byte.xa0) :: rest => trim_start rest
  | Byte.xe1 :: Byte.x9a :: Byte.x80 :: rest => trim_start rest
  | Byte.xe2 :: Byte.x80 :: (Byte.x80 | Byte.x81 | Byte.x82 | Byte.x83 | Byte.x84 | Byte.x85 | Byte.x86 | Byte.x87 |
                             Byte.x88 | Byte.x89 | Byte.x8a | Byte.xa8 | Byte.xa9 | Byte.xaf) :: rest => trim_start rest
  | Byte.xe2 :: Byte.x81 :: Byte.x9f :: rest => trim_start rest
  | Byte.xe3 :: Byte.x80 :: Byte.x80 :: rest => trim_start rest
  | _ => bytes
  end.
Definition blank (bytes : list Byte.byte) : bool := match trim_start bytes with [] => true | _ => false end.
Fixpoint trim_end (bytes : list Byte.byte) : list Byte.byte :=
  match bytes with
  | [] => []
  | b :: rest => if blank bytes then [] else b :: trim_end rest
  end.
Definition trim (bytes : list Byte.byte) : list Byte.byte := trim_end (trim_start bytes).

Definition truncate_example (n : nat) (e : SftExample) : SftExample := mk_example (take n (input_ids e)) (take n (labels e)).

Definition at_line (path : string) (line : nat) (e : string) : string :=
  path +:+ ":" +:+ pretty (N.of_nat (line + 1)) +:+ ": " +:+ e.

(** The loop of [from_jsonl] over the lines of the file, each of which may fail to
    be read. *)
Fixpoint read_lines (path : string) (format : TextFormat) (eos : option Z) (max_tokens : nat) (number : nat)
    (lines : list (Fallible string)) (examples : list SftExample) (skipped : nat) :
    res DataError (list SftExample * nat) :=
  match lines with
  | [] => Ok (examples, skipped)
  | inl e :: _ => Err ("read failed: " +:+ e)
  | inr line :: rest =>
      if blank (String.list_byte_of_string line)
      then read_lines path format eos max_tokens (number + 1) rest examples skipped
      else
        do? record :=
          match parse_json line with
          | inr record => Ok record
          | inl e => Err (at_line path number ("invalid JSON: " +:+ e))
          end in
        do? e := map_err (at_line path number) (parse_record record format eos) in
        let e := truncate_example max_tokens e in
        if decide (length (input_ids e) < 2 ∨ target_count e = 0)
        then read_lines path format eos max_tokens (number + 1) rest examples (skipped + 1)
        else read_lines path format eos max_tokens (number + 1) rest (examples ++ [e]) skipped
  end.

Definition from_jsonl (path : string) (file : Fallible (list (Fallible string))) (format : TextFormat)
    (eos_token_id : option Z) (max_tokens : nat) : res DataError (list SftExample * nat) :=
  match file with
  | inl e => Err ("cannot open " +:+ path +:+ ": " +:+ e)
  | inr lines => read_lines path format eos_token_id max_tokens 0 lines [] 0
  end.
End Records.

(** ** Micro-batches *)
Record SftBatch := mk_sft_batch {
  sb_batch : nat;
  sb_length : nat;
  sb_tokens : list Z;
  sb_targets : list Z;
  sb_target_count : nat
}.

Definition inputs_of (e : SftExample) : list Z := take (length (input_ids e) - 1) (input_ids e).
Definition targets_of (e : SftExample) : list Z := drop 1 (labels e).

Definition batch_length (examples : list SftExample) : nat :=
  Nat.max (max_list (map (λ e, length (input_ids e) - 1) examples)) 1.

(** [repeat_n(value, length - used)] after a row. *)
Definition pad_row (value : Z) (length_ : nat) (row : list Z) : res DataError (list Z) :=
  do? missing := expect Overflow (usize_sub length_ (length row)) in Ok (row ++ replicate missing value).

Definition collate (examples : list SftExample) (pad_token_id : Z) : res DataError SftBatch :=
  let n := batch_length examples in
  do? rows := map_res (λ e,
    do? tokens := pad_row pad_token_id n (inputs_of e) in
    do? targets := pad_row IGNORE_INDEX n (targets_of e) in
    Ok (tokens, targets)) examples in
  let targets := concat rows.*2 in
  Ok (mk_sft_batch (length examples) n (concat rows.*1) targets (length (filter (λ t, (0 ≤ t)%Z) targets))).

(** ** The loader *)
Record SftLoaderState := mk_loader_state { epoch : N; cursor : nat; seed : N }.

(** [u64] arithmetic that wraps. *)
Definition wrapping_add (a b : N) : N := ((a + b) mod 2 ^ 64)%N.
Definition wrapping_mul (a b : N) : N := ((a * b) mod 2 ^ 64)%N.

(** SplitMix64: the value drawn and the next state. *)
Definition split_mix (state : N) : N * N :=
  let state := wrapping_add state 0x9E3779B97F4A7C15 in
  let value := wrapping_mul (N.lxor state (N.shiftr state 30)) 0xBF58476D1CE4E5B9 in
  let value := wrapping_mul (N.lxor value (N.shiftr value 27)) 0x94D049BB133111EB in
  (N.lxor value (N.shiftr value 31), state).

Record SftLoader := mk_loader {
  ld_dataset : list SftExample;
  micro_batch : nat;
  pad_token_id : Z;
  length_window : nat;
  ld_rank : nat;
  world_size : nat;
  ld_state : SftLoaderState;
  order : list nat
}.

Definition set_shard rank world (l : SftLoader) : SftLoader :=
  mk_loader (ld_dataset l) (micro_batch l) (pad_token_id l) (length_window l) rank world (ld_state l) (order l).
Definition set_window window (l : SftLoader) : SftLoader :=
  mk_loader (ld_dataset l) (micro_batch l) (pad_token_id l) window (ld_rank l) (world_size l) (ld_state l) (order l).
Definition set_loader_state s (l : SftLoader) : SftLoader :=
  mk_loader (ld_dataset l) (micro_batch l) (pad_token_id l) (length_window l) (ld_rank l) (world_size l) s (order l).
Definition set_order o (l : SftLoader) : SftLoader :=
  mk_loader (ld_dataset l) (micro_batch l) (pad_token_id l) (length_window l) (ld_rank l) (world_size l) (ld_state l) o.

(** [Vec::swap] *)
Definition vec_swap (i j : nat) (l : list nat) : option (list nat) :=
  x ← l !! i; y ← l !! j; Some (<[j := x]> (<[i := y]> l)).

(** The loop of [reorder] over [indices], in decreasing order. *)
Fixpoint shuffle (indices : list nat) (random : N) (order : list nat) : option (list nat) :=
  match indices with
  | [] => Some order
  | index :: rest =>
      let '(value, random) := split_mix random in
      order ← vec_swap index (N.to_nat (value mod (N.of_nat index + 1))) order;
      shuffle rest random order
  end.

(** [slice::chunks_mut] *)
Fixpoint chunks (fuel window : nat) (l : list nat) : list (list nat) :=
  match fuel, l with
  | _, [] => []
  | 0, _ => [l]
  | S fuel, _ => take window l :: chunks fuel window (drop window l)
  end.

(** Every key looked up is [examples[index].input_ids.len()]. *)
Definition example_length (dataset : list SftExample) (index : nat) : nat :=
  match dataset !! index with Some e => length (input_ids e) | None => 0 end.

Definition epoch_order (dataset : list SftExample) (window : nat) (s : SftLoaderState) : option (list nat) :=
  let count := length dataset in
  let random := N.lxor (seed s) (wrapping_mul (epoch s) 0xA24BAED4963EE407) in
  order ← shuffle (reverse (seq 1 (count - 1))) random (seq 0 count);
  if decide (Forall (λ i, i < count) order)
  then Some (concat (sort_by_key (example_length dataset) <$> chunks count window order))
  else None.

Notation LM := (M SftLoader DataError).

Definition reorder : LM unit :=
  let! l := mget in
  let! o := mexpect OutOfBounds (epoch_order (ld_dataset l) (length_window l) (ld_state l)) in
  mmodify (set_order o).

(** A constructor or builder that runs [m] on the loader it returns. *)
Definition building (m : LM unit) (l : SftLoader) : res DataError SftLoader :=
  match m l with
  | (Ok _, l) => Ok l
  | (Err e, _) => Err e
  | (Panic p, _) => Panic p
  end.

Definition new_loader (dataset : list SftExample) (micro : nat) (pad : Z) (seed : N) : res DataError SftLoader :=
  if decide (dataset = []) then Panic Expect
  else if decide (micro = 0) then Panic Expect
  else building reorder (mk_loader dataset micro pad 64 0 1 (mk_loader_state 0 0 seed) []).

Definition with_shard (rank world : nat) (l : SftLoader) : res DataError SftLoader :=
  if decide (0 < world ∧ rank < world) then Ok (set_shard rank world l) else Panic Expect.

Definition with_length_window (window : nat) (l : SftLoader) : res DataError SftLoader :=
  building reorder (set_window (Nat.max window 1) l).

Definition loader_state (l : SftLoader) : SftLoaderState := ld_state l.

Definition restore_loader (s : SftLoaderState) : LM unit := mmodify (set_loader_state s) ;;; reorder.

Definition batches_per_epoch (l : SftLoader) : nat := div_ceil (length (ld_dataset l)) (micro_batch l).

(** A new epoch when the last is used up. *)
Definition start_epoch : LM unit :=
  let! l := mget in
  let s := ld_state l in
  if decide (length (order l) ≤ cursor s) then
    let! next := mexpect Overflow (checked_add u64_max (epoch s) 1) in
    mmodify (set_loader_state (mk_loader_state next 0 (seed s))) ;;; reorder
  else mret tt.

Definition next_global : LM SftBatch :=
  start_epoch ;;;
  let! l := mget in
  let s := ld_state l in
  let! sum := mexpect Overflow (usize_add (cursor s) (micro_batch l)) in
  let finish := Nat.min sum (length (order l)) in
  let! indices := mexpect OutOfBounds (slice (cursor s) finish (order l)) in
  let! examples := mmap indices (λ index, mexpect OutOfBounds (ld_dataset l !! index)) in
  let! batch := mlift (collate examples (pad_token_id l)) in
  mmodify (set_loader_state (mk_loader_state (epoch s) finish (seed s))) ;;;
  mret batch.

(** The loop of [next_batch] over the shards. *)
Fixpoint shard_loop (rank : nat) (shards : list nat) (batch : option SftBatch) : LM (option SftBatch) :=
  match shards with
  | [] => mret batch
  | shard :: rest =>
      let! next := next_global in
      shard_loop rank rest (if decide (shard = rank) then Some next else batch)
  end.

Definition next_batch : LM SftBatch :=
  let! l := mget in
  let! batch := shard_loop (ld_rank l) (seq 0 (world_size l)) None in
  mexpect Expect batch.
