(* ===== verification/TrainDataSpec.v ===== *)
(** * What the training data pipeline guarantees

    Records become aligned examples that train on their own tokens; an epoch of the
    loader is the dataset, each example once; shards split the stream of batches; a
    saved position resumes it exactly. *)
From S2P Require Import Prelude PagedKv GenerationControl TrainData.
Open Scope nat_scope.
Open Scope list_scope.
Open Scope m_scope.

(** ** Results over lists *)
Lemma map_res_Forall2 {E A B} (f : A → res E B) l ys : map_res f l = Ok ys ↔ Forall2 (λ x y, f x = Ok y) l ys.
Proof.
  revert ys. induction l as [|x l IH]; intros ys; simpl.
  { split; [by intros [= <-]|by intros ->%Forall2_nil_inv_l]. }
  split.
  - destruct (f x) as [y|e|p] eqn:Ex; simpl; [|done..]. destruct (map_res f l) as [ys'|e|p]; simpl; [|done..].
    intros [= <-]. constructor; [done|]. by apply IH.
  - intros (y & ys' & Hy & Hys & ->)%Forall2_cons_inv_l. rewrite Hy. simpl. apply IH in Hys as ->. done.
Qed.

Lemma fold_res_inv {E A B} (f : B → A → res E B) (I : B → Prop) b l b' :
  (∀ b x b', I b → f b x = Ok b' → I b') → I b → fold_res f b l = Ok b' → I b'.
Proof.
  intros Hf. revert b. induction l as [|x l IH]; simpl; intros b Hb; [by intros [= <-]|].
  destruct (f b x) as [b1|e|p] eqn:Ex; simpl; [|done..]. by apply IH, (Hf b x b1).
Qed.

(** ** Aligned examples *)

(** Labels stand next to the tokens they train, or are ignored. *)
Definition aligned (e : SftExample) : Prop :=
  Forall2 (λ token label, label = token ∨ label = IGNORE_INDEX) (input_ids e) (labels e).

Lemma aligned_length e : aligned e → length (labels e) = length (input_ids e).
Proof. intros H. symmetry. by eapply Forall2_length. Qed.

Lemma aligned_causal ids : aligned (causal ids).
Proof. apply Forall_Forall2_diag, Forall_true. by left. Qed.

Lemma aligned_ignored ids : Forall2 (λ token label : Z, label = token ∨ label = IGNORE_INDEX) ids (replicate (length ids) IGNORE_INDEX).
Proof. induction ids; simpl; constructor; [by right|done]. Qed.

Lemma slice_Some {A} from to (l l' : list A) : slice from to l = Some l' ↔ from ≤ to ≤ length l ∧ l' = take (to - from) (drop from l).
Proof. unfold slice. case_decide; split; naive_solver. Qed.

Lemma split_at {A} from to (l : list A) : from ≤ to → l = take from l ++ take (to - from) (drop from l) ++ drop to l.
Proof.
  intros Hl. rewrite <- (take_drop from l) at 1. f_equal. rewrite <- (take_drop (to - from) (drop from l)) at 1.
  f_equal. rewrite drop_drop. f_equal. lia.
Qed.

Lemma copy_range_aligned from to ids labels labels' :
  Forall2 (λ token label : Z, label = token ∨ label = IGNORE_INDEX) ids labels → copy_range from to ids labels = Ok labels' →
  Forall2 (λ token label : Z, label = token ∨ label = IGNORE_INDEX) ids labels'.
Proof.
  intros Hal. unfold copy_range. destruct (slice from to ids) as [piece|] eqn:Ep; [|done].
  destruct (slice from to labels) eqn:El; [|done]. simpl. intros [= <-].
  apply slice_Some in Ep as [Hr ->]. rewrite (split_at from to ids) at 1 by lia. apply Forall2_app; [by apply Forall2_take|].
  apply Forall2_app; [|by apply Forall2_drop]. apply Forall_Forall2_diag, Forall_true. by left.
Qed.

Lemma aligned_truncate n e : aligned e → aligned (truncate_example n e).
Proof. apply Forall2_take. Qed.

Section Records.
Context `{JsonRecords, TextTokenizer}.

Lemma label_chat_aligned messages e : label_chat messages = Ok e → aligned e.
Proof.
  unfold label_chat. destruct (render_qwen2_chat_messages messages false) as [text|x|p]; simpl; [|done..].
  destruct (encode text) as [ids|x|p]; simpl; [|done..].
  destruct (fold_res _ _ _) as [ls|x|p] eqn:E; simpl; [|done..]. intros [= <-]. unfold aligned. simpl.
  revert E. apply (fold_res_inv _ (λ ls, Forall2 _ ids ls)); [|apply aligned_ignored].
  clear ls. intros ls i ls' Hls. unfold label_turn. destruct (messages !! i) as [m|]; simpl; [|done].
  case_decide; [by intros [= <-]|].
  destruct (render_qwen2_chat_messages _ true) as [before|x|p]; simpl; [|done..].
  destruct (encode before) as [start|x|p]; simpl; [|done..].
  destruct (render_qwen2_chat_messages _ false) as [through|x|p]; simpl; [|done..].
  destruct (encode through) as [finish|x|p]; simpl; [|done..].
  case_decide; [done|]. by apply copy_range_aligned.
Qed.

Lemma parse_record_aligned record format eos e : parse_record record format eos = Ok e → aligned e.
Proof.
  unfold parse_record. destruct (if decide (format = QwenChat) then _ else None) as [messages|].
  { unfold chat_example. destruct (map_res _ _); simpl; [|done..]. apply label_chat_aligned. }
  assert (∀ o : option Value, match o ≫= as_str with
    | Some text => do? ids := encode text in Ok (causal (ids ++ option_list eos))
    | None => Err needs_fields
    end = Ok e → aligned e) as Htext.
  { intros o. destruct (o ≫= as_str) as [text|]; [|done]. destruct (encode text); simpl; [|done..].
    intros [= <-]. apply aligned_causal. }
  destruct (get record "prompt" ≫= as_str) as [prompt|]; [|apply Htext].
  destruct (get record "completion" ≫= as_str) as [completion|]; [|apply Htext].
  destruct (encode prompt) as [ids|x|p]; simpl; [|done..]. destruct (encode completion) as [ids'|x|p]; simpl; [|done..].
  intros [= <-]. apply Forall2_app; [apply aligned_ignored|]. apply Forall_Forall2_diag, Forall_true. by left.
Qed.

(** What an example of a dataset file is. *)
Definition trainable (max_tokens : nat) (e : SftExample) : Prop :=
  aligned e ∧ 2 ≤ length (input_ids e) ≤ max_tokens ∧ 0 < target_count e.

(** The lines that hold a record. *)
Definition holds_record (line : Fallible string) : bool :=
  match line with inr text => negb (blank (String.list_byte_of_string text)) | inl _ => true end.
Definition record_lines (lines : list (Fallible string)) : list (Fallible string) :=
  filter (λ line, holds_record line = true) lines.

Lemma read_lines_inv path format eos max_tokens lines : ∀ number examples skipped examples' skipped',
  read_lines path format eos max_tokens number lines examples skipped = Ok (examples', skipped') →
  Forall (trainable max_tokens) examples →
  Forall (trainable max_tokens) examples' ∧
  length examples' + skipped' = length examples + skipped + length (record_lines lines).
Proof.
  induction lines as [|[e|line] lines IH]; intros number examples skipped examples' skipped'; simpl.
  - intros [= <- <-] Hall. split; [done|lia].
  - done.
  - unfold record_lines. rewrite filter_cons. simpl. destruct (blank _) eqn:Eb; simpl.
    { apply IH. } destruct (parse_json line) as [x|record]; simpl; [done|].
    destruct (parse_record record format eos) as [e|x|p] eqn:Ep; simpl; [|done..].
    apply parse_record_aligned in Ep. case_decide as Hskip; intros Hrun Hall.
    + destruct (IH _ _ _ _ _ Hrun Hall) as [? Hlen]. split; [done|]. unfold record_lines in Hlen. simpl. lia.
    + destruct (IH _ _ _ _ _ Hrun) as [? Hlen]; [|split; [done|]; unfold record_lines in Hlen; rewrite length_app in Hlen; simpl in *; lia].
      apply Forall_app. split; [done|]. constructor; [|done]. split; [by apply aligned_truncate|].
      simpl in *. rewrite length_take in *. split; [lia|]. destruct (target_count _); [|lia]. tauto.
Qed.

(** Claim C40. Every example a JSONL file gives has from two to [max_tokens] tokens, a
    target to learn, and labels that are its own tokens or ignored; and every record of
    the file is an example or counted as skipped. *)
Theorem jsonl_examples_trainable path file format eos max_tokens examples skipped :
  from_jsonl path file format eos max_tokens = Ok (examples, skipped) →
  Forall (trainable max_tokens) examples ∧
  ∃ lines, file = inr lines ∧ length examples + skipped = length (record_lines lines).
Proof.
  unfold from_jsonl. destruct file as [e|lines]; [done|]. intros Hrun.
  destruct (read_lines_inv _ _ _ _ _ _ _ _ _ _ Hrun) as [? Hlen]; [done|]. split; [done|]. exists lines. split; [done|]. exact Hlen.
Qed.
End Records.

(** ** Chat labels *)
Lemma string_app_assoc a b c : (a +:+ b) +:+ c = a +:+ (b +:+ c).
Proof. induction a as [|x a IH]; [done|]. exact (f_equal (String x) IH). Qed.
Lemma string_app_nil a : a +:+ EmptyString = a.
Proof. induction a as [|x a IH]; [done|]. exact (f_equal (String x) IH). Qed.

Lemma fold_res_app {E A B} (f : B → A → res E B) b l1 l2 :
  fold_res f b (l1 ++ l2) = (do? b := fold_res f b l1 in fold_res f b l2).
Proof. revert b. induction l1 as [|x l1 IH]; intros b; simpl; [done|]. by destruct (f b x); simpl. Qed.

Definition opening (m : Qwen2ChatMessage) : string := "<|im_start|>" +:+ role_as_str (msg_role m) +:+ newline.
Definition body (m : Qwen2ChatMessage) : string := msg_content m +:+ "<|im_end|>".
Definition turn (m : Qwen2ChatMessage) : string := opening m +:+ body m +:+ newline.
Definition assistant_opening : string := "<|im_start|>assistant" +:+ newline.

(** The messages rendered, with the implied system message. *)
Definition effective (messages : list Qwen2ChatMessage) : list Qwen2ChatMessage :=
  match messages with
  | [] => []
  | first :: _ => if decide (msg_role first = System) then messages else default_system :: messages
  end.

Definition turns (messages : list Qwen2ChatMessage) : string := foldr (λ m s, turn m +:+ s) EmptyString messages.

Lemma append_turn prompt m : append_qwen2_chat_message prompt m = prompt +:+ turn m.
Proof. unfold append_qwen2_chat_message, turn, opening, body. by rewrite !string_app_assoc. Qed.

Lemma fold_turns prompt messages : fold_left append_qwen2_chat_message messages prompt = prompt +:+ turns messages.
Proof.
  revert prompt. induction messages as [|m messages IH]; intros prompt; simpl; [by rewrite string_app_nil|].
  by rewrite IH, append_turn, string_app_assoc.
Qed.

Lemma render_turns messages add : messages ≠ [] → render_qwen2_chat_messages messages add =
  Ok (if add then turns (effective messages) +:+ assistant_opening else turns (effective messages)).
Proof.
  destruct messages as [|m messages]; [done|]. intros _. unfold render_qwen2_chat_messages, effective.
  case_decide; rewrite !fold_turns, append_turn; by destruct add.
Qed.

Lemma turns_app l1 l2 : turns (l1 ++ l2) = turns l1 +:+ turns l2.
Proof. induction l1 as [|m l1 IH]; simpl; [done|]. by rewrite IH, string_app_assoc. Qed.

Lemma effective_snoc messages k m : k ≠ 0 → messages !! k = Some m →
  effective (take (k + 1) messages) = effective (take k messages) ++ [m].
Proof.
  intros Hk Hm. replace (k + 1) with (S k) by lia. rewrite (take_S_r _ _ _ Hm). unfold effective.
  destruct messages as [|first messages]; [done|]. destruct k as [|k]; [done|]. simpl. by case_decide.
Qed.

Section Chat.
Context `{TextTokenizer}.

(** A tokenizer for which the rendered text can be cut: [f] is what it encodes, the
    text before the end of a turn and of an assistant's opening is encoded by itself,
    and the newline after a turn is a token of its own. *)
Record cuts_turns (f : string → list Z) : Prop := {
  ct_encode s : encode s = Ok (f s);
  ct_turn a b : f (a +:+ "<|im_end|>" +:+ newline +:+ b) = f (a +:+ "<|im_end|>" +:+ newline) ++ f b;
  ct_opening a b : f (a +:+ assistant_opening +:+ b) = f (a +:+ assistant_opening) ++ f b;
  ct_newline a : ∃ t, f (a +:+ "<|im_end|>" +:+ newline) = f (a +:+ "<|im_end|>") ++ [t];
  ct_empty : f EmptyString = []
}.

Context (f : string → list Z) (cuts : cuts_turns f).

(** Only the assistant's words are trained, with the end of the turn. *)
Definition turn_labels (m : Qwen2ChatMessage) : list Z :=
  if decide (msg_role m = Assistant)
  then replicate (length (f (opening m))) IGNORE_INDEX ++ f (body m) ++ [IGNORE_INDEX]
  else replicate (length (f (turn m))) IGNORE_INDEX.

Lemma f_turn m b : f (turn m +:+ b) = f (turn m) ++ f b.
Proof.
  unfold turn, body. pose proof (ct_turn _ cuts (opening m +:+ msg_content m) b) as Hc.
  rewrite !string_app_assoc in *. exact Hc.
Qed.

Lemma f_turns l b : f (turns l +:+ b) = f (turns l) ++ f b.
Proof.
  revert b. induction l as [|m l IH]; intros b; simpl; [by rewrite (ct_empty _ cuts)|].
  by rewrite string_app_assoc, !f_turn, IH, app_assoc.
Qed.

Lemma f_assistant m : msg_role m = Assistant → ∃ t, f (turn m) = f assistant_opening ++ f (body m) ++ [t].
Proof.
  intros Hm. unfold turn. assert (opening m = assistant_opening) as -> by (unfold opening; by rewrite Hm).
  assert (∀ b, f (assistant_opening +:+ b) = f assistant_opening ++ f b) as -> by exact (ct_opening _ cuts EmptyString).
  destruct (ct_newline _ cuts (msg_content m)) as [t Ht].
  exists t. f_equal. unfold body. by rewrite string_app_assoc, Ht.
Qed.

Lemma turn_labels_length m : length (turn_labels m) = length (f (turn m)).
Proof.
  unfold turn_labels. case_decide as Hm; [|by rewrite length_replicate].
  destruct (f_assistant m Hm) as [t ->]. assert (opening m = assistant_opening) as -> by (unfold opening; by rewrite Hm).
  by rewrite !length_app, length_replicate.
Qed.

Lemma labels_length l : length (concat (map turn_labels l)) = length (f (turns l)).
Proof.
  induction l as [|m l IH]; simpl; [by rewrite (ct_empty _ cuts)|].
  by rewrite length_app, f_turn, length_app, turn_labels_length, IH.
Qed.

Lemma copy_middle (a w r a' w' r' : list Z) : length a' = length a → length w' = length w →
  copy_range (length a) (length a + length w) (a ++ w ++ r) (a' ++ w' ++ r') = Ok (a' ++ w ++ r').
Proof.
  intros Ha Hw. unfold copy_range, slice. rewrite !length_app, Ha, Hw, !decide_True by lia. simpl. do 2 f_equal.
  - by rewrite take_app_length'.
  - f_equal.
    + by rewrite drop_app_length, Nat.add_comm, Nat.add_sub, take_app_length.
    + rewrite drop_app_ge, drop_app_ge by lia. rewrite Ha, Hw.
      by replace (length a + length w - length a - length w) with 0 by lia.
Qed.

(** The labels after [k] turns. *)
Definition labels_upto (messages : list Qwen2ChatMessage) (k : nat) : list Z :=
  let done_ := concat (map turn_labels (effective (take k messages))) in
  done_ ++ replicate (length (f (turns (effective messages))) - length done_) IGNORE_INDEX.

Lemma effective_prefix messages k : k ≠ 0 → ∃ rest, effective messages = effective (take k messages) ++ rest.
Proof.
  intros Hk. destruct messages as [|m messages]; [exists []; by destruct k|]. destruct k as [|k]; [done|]. simpl.
  case_decide; exists (drop k messages); simpl; by rewrite take_drop.
Qed.

Lemma label_turn_upto messages k m : k ≠ 0 → messages !! k = Some m → msg_role m = Assistant →
  label_turn messages (f (turns (effective messages))) (labels_upto messages k) k = Ok (labels_upto messages (k + 1)).
Proof.
  intros Hk Hm Ha. unfold label_turn. rewrite Hm. simpl. rewrite decide_False by (by intros []).
  assert (take k messages ≠ []) as Hne by (destruct messages; [done|]; by destruct k).
  assert (take (k + 1) messages ≠ []) as Hne' by (destruct messages; [done|]; by rewrite Nat.add_comm).
  rewrite !render_turns by done. simpl. rewrite !(ct_encode _ cuts). simpl.
  destruct (effective_prefix messages (k + 1)) as [rest Hrest]; [lia|].
  unfold labels_upto. rewrite Hrest, (effective_snoc _ _ _ Hk Hm) in *.
  set (E := effective (take k messages)). rewrite !turns_app, !map_app, !concat_app. cbn [turns foldr map concat].
  rewrite !string_app_nil, !app_nil_r, !string_app_assoc, !f_turns, !f_turn.
  destruct (f_assistant m Ha) as [t Ht]. rewrite !Ht.
  rewrite decide_False.
  2:{ intros [Hn|Hn]; apply Hn; [exists (f (body m) ++ [t] ++ f (turns rest))|exists (f (turns rest))]; by rewrite <- !app_assoc. }
  set (F := f (turns E)). set (O := f assistant_opening).
  assert (length (concat (map turn_labels E)) = length F) as HE by (by rewrite labels_length).
  assert (turn_labels m = replicate (length O) IGNORE_INDEX ++ f (body m) ++ [IGNORE_INDEX]) as Hlab.
  { unfold turn_labels. rewrite decide_True by done. unfold opening. by rewrite Ha. }
  rewrite !length_app, Hlab, !length_app, HE, !length_replicate. simpl.
  replace (Nat.max (length F + (length O + (length (f (body m)) + 1)) - 1) (length F + length O))
    with (length (F ++ O) + length (f (body m))) by (rewrite length_app; lia).
  rewrite <- length_app.
  replace (length F + (length O + (length (f (body m)) + 1) + length (f (turns rest))) - length F)
    with (length O + (length (f (body m)) + (1 + length (f (turns rest))))) by lia.
  rewrite !replicate_add.
  replace (F ++ (O ++ f (body m) ++ [t]) ++ f (turns rest)) with ((F ++ O) ++ f (body m) ++ ([t] ++ f (turns rest)))
    by (by rewrite <- !app_assoc).
  rewrite (app_assoc (concat (map turn_labels E))).
  rewrite copy_middle by (rewrite ?length_app, ?length_replicate; lia).
  rewrite <- !app_assoc. do 5 f_equal. f_equal. lia.
Qed.

Lemma label_turn_skip messages k m : messages !! k = Some m → msg_role m ≠ Assistant →
  label_turn messages (f (turns (effective messages))) (labels_upto messages k) k = Ok (labels_upto messages (k + 1)).
Proof.
  intros Hm Ha. unfold label_turn. rewrite Hm. simpl. rewrite decide_True by done. f_equal.
  destruct (effective_prefix messages (k + 1)) as [rest Hrest]; [lia|].
  assert (∃ more, effective (take (k + 1) messages) = effective (take k messages) ++ more ∧ Forall (λ m, msg_role m ≠ Assistant) more)
    as (more & Hmore & Hall).
  { destruct (decide (k = 0)) as [->|Hk].
    - exists (effective (take 1 messages)). split; [done|]. destruct messages as [|m0 messages]; [done|]. injection Hm as ->.
      simpl. case_decide; repeat constructor; done.
    - exists [m]. split; [by apply effective_snoc|by repeat constructor]. }
  unfold labels_upto. rewrite Hrest, Hmore, map_app, concat_app, !length_app, <- !app_assoc. f_equal.
  assert (concat (map turn_labels more) = replicate (length (f (turns more))) IGNORE_INDEX) as Hig.
  { clear Hmore Hrest. induction Hall as [|m' more Hm' Hall IH]; simpl; [by rewrite (ct_empty _ cuts)|].
    rewrite IH, f_turn, length_app, replicate_add. f_equal. unfold turn_labels. by rewrite decide_False. }
  rewrite !labels_length, Hig, <- replicate_add. f_equal.
  rewrite !turns_app, !f_turns, !length_app. lia.
Qed.

(** Claim C31. With a tokenizer that encodes a rendered chat turn by turn, a chat example
    is the rendered conversation with exactly the assistants' words, and the ends of
    their turns, as labels.  The chat has a first message, not the assistant's. *)
Theorem chat_labels_exact messages : messages ≠ [] → msg_role <$> head messages ≠ Some Assistant →
  label_chat messages =
    Ok (mk_example (f (turns (effective messages))) (concat (map turn_labels (effective messages)))).
Proof.
  intros Hne Hhead. unfold label_chat. rewrite render_turns by done. simpl. rewrite (ct_encode _ cuts). simpl.
  assert (∀ k, k ≤ length messages →
    fold_res (label_turn messages (f (turns (effective messages))))
      (replicate (length (f (turns (effective messages)))) IGNORE_INDEX) (seq 0 k) = Ok (labels_upto messages k)) as Hrun.
  { induction k as [|k IH]; intros Hk.
    - simpl. unfold labels_upto. simpl. by rewrite Nat.sub_0_r.
    - rewrite seq_S, fold_res_app, IH by lia. simpl. destruct (messages !! k) as [m|] eqn:Hm;
        [|apply lookup_ge_None in Hm; lia].
      replace (S k) with (k + 1) by lia. destruct (decide (msg_role m = Assistant)) as [Ha|Ha].
      + rewrite label_turn_upto with (m := m); [done| |done|done]. intros ->. apply Hhead. destruct messages; [done|].
        injection Hm as ->. simpl. by rewrite Ha.
      + by rewrite label_turn_skip with (m := m). }
  rewrite Hrun by done. simpl. do 2 f_equal. unfold labels_upto. rewrite take_ge by done.
  rewrite labels_length, Nat.sub_diag. simpl. by rewrite app_nil_r.
Qed.

(** A conversation opened by the assistant is refused, although it has a rendering. *)
Lemma assistant_first_refused messages : msg_role <$> head messages = Some Assistant →
  (∃ text, render_qwen2_chat_messages messages false = Ok text) ∧
  label_chat messages = Err "Qwen chat requires at least one message"%string.
Proof.
  destruct messages as [|m messages]; [done|]. intros [= Ha]. split; [by eexists|].
  unfold label_chat. rewrite render_turns by done. simpl. rewrite (ct_encode _ cuts). simpl.
  unfold label_turn at 1. simpl. rewrite decide_False by (by intros []). done.
Qed.
End Chat.

(** ** Micro-batches *)

(** Row [i] of a flattened batch. *)
Definition row_at (n i : nat) (l : list Z) : option (list Z) := slice (i * n) ((i + 1) * n) l.

Lemma concat_row n (rows : list (list Z)) i row : Forall (λ r, length r = n) rows → rows !! i = Some row →
  row_at n i (concat rows) = Some row.
Proof.
  intros Hall Hi. destruct (rows_lookup n rows i row Hall Hi) as [<- Hlen]. unfold row_at, slice.
  rewrite decide_True by lia. do 2 f_equal. lia.
Qed.

Lemma batch_length_max examples e : e ∈ examples → length (input_ids e) - 1 ≤ batch_length examples.
Proof.
  intros He. unfold batch_length. pose proof (max_list_elem_of_le (length (input_ids e) - 1)
    (map (λ e, length (input_ids e) - 1) examples)) as Hm. etrans; [apply Hm|lia].
  apply list_elem_of_fmap. by exists e.
Qed.

(** A padded row. *)
Definition padded (value : Z) (n : nat) (row : list Z) : list Z := row ++ replicate (n - length row) value.

Lemma pad_row_Ok value n row : length row ≤ n → pad_row value n row = Ok (padded value n row).
Proof. intros Hl. unfold pad_row, usize_sub. by rewrite decide_True. Qed.

Lemma padded_length value n row : length row ≤ n → length (padded value n row) = n.
Proof. intros Hl. unfold padded. rewrite length_app, length_replicate. lia. Qed.

Definition same_length (e : SftExample) : Prop := length (labels e) = length (input_ids e).

Lemma targets_filter n examples : Forall (λ e, length (targets_of e) ≤ n) examples →
  length (filter (λ t, (0 ≤ t)%Z) (concat (map (λ e, padded IGNORE_INDEX n (targets_of e)) examples))) =
    sum_list (map target_count examples).
Proof.
  induction 1 as [|e examples He Hall IH]; simpl; [done|]. rewrite filter_app, length_app, IH. f_equal.
  unfold padded. rewrite filter_app, length_app. unfold target_count, targets_of.
  assert (∀ k, filter (λ t, (0 ≤ t)%Z) (replicate k IGNORE_INDEX) = []) as ->; [|simpl; lia].
  induction k as [|k IHk]; simpl; [done|]. rewrite filter_cons_False; [exact IHk|unfold IGNORE_INDEX; lia].
Qed.

(** Claim C39. A micro-batch of aligned examples has one row per example, as long as the
    longest but one token: the row's tokens and its shifted labels, both padded; the
    padding is never a target. *)
Theorem collate_exact examples pad : Forall same_length examples →
  ∃ b, collate examples pad = Ok b ∧ sb_batch b = length examples ∧
    sb_length b = Nat.max (max_list (map (λ e, length (input_ids e) - 1) examples)) 1 ∧
    length (sb_tokens b) = sb_batch b * sb_length b ∧ length (sb_targets b) = sb_batch b * sb_length b ∧
    (∀ i e, examples !! i = Some e →
       row_at (sb_length b) i (sb_tokens b) = Some (padded pad (sb_length b) (inputs_of e)) ∧
       row_at (sb_length b) i (sb_targets b) = Some (padded IGNORE_INDEX (sb_length b) (targets_of e))) ∧
    sb_target_count b = sum_list (map target_count examples).
Proof.
  intros Hal. set (n := batch_length examples).
  set (rows := map (λ e, (padded pad n (inputs_of e), padded IGNORE_INDEX n (targets_of e))) examples).
  assert (Forall (λ e, length (inputs_of e) ≤ n ∧ length (targets_of e) ≤ n) examples) as Hfit.
  { apply Forall_forall. intros e He. pose proof (batch_length_max examples e He).
    rewrite Forall_forall in Hal. specialize (Hal e He). unfold same_length in Hal. unfold inputs_of, targets_of.
    rewrite length_take, length_drop. unfold n. lia. }
  assert (collate examples pad = Ok (mk_sft_batch (length examples) n (concat rows.*1) (concat rows.*2)
    (length (filter (λ t, (0 ≤ t)%Z) (concat rows.*2))))) as ->.
  { unfold collate. fold n. rewrite (proj2 (map_res_Forall2 _ examples rows)); [done|].
    unfold rows. apply Forall2_fmap_r, Forall_Forall2_diag. eapply Forall_impl; [exact Hfit|].
    intros e [? ?]. simpl. by rewrite !pad_row_Ok. }
  assert (rows.*1 = map (λ e, padded pad n (inputs_of e)) examples ∧
          rows.*2 = map (λ e, padded IGNORE_INDEX n (targets_of e)) examples) as [-> ->]
    by (unfold rows; by rewrite <- !list_fmap_compose).
  assert (Forall (λ r, length r = n) (map (λ e, padded pad n (inputs_of e)) examples) ∧
          Forall (λ r, length r = n) (map (λ e, padded IGNORE_INDEX n (targets_of e)) examples)) as [H1 H2].
  { split; apply Forall_fmap; (eapply Forall_impl; [exact Hfit|]); intros e [? ?]; simpl; by apply padded_length. }
  eexists. split; [done|]. simpl. split_and!; [done|done|..].
  - rewrite (length_concat_rows n), length_map by done. done.
  - rewrite (length_concat_rows n), length_map by done. done.
  - intros i e Hi. split; (apply concat_row; [done|]); apply list_lookup_fmap_Some; by exists e.
  - apply targets_filter. eapply Forall_impl; [exact Hfit|]. by intros e [_ ?].
Qed.
