(* ===== verification/TrainLoaderSpec.v ===== *)
(** * What the training loader guarantees

    An epoch is the dataset, each example once, sorted by length inside its windows;
    the ranks of a data-parallel run split the stream of micro-batches; a loader set
    to a saved position is the loader that was saved. *)
From S2P Require Import Prelude PagedKv GenerationControl TrainData TrainDataSpec.
Open Scope nat_scope.
Open Scope list_scope.
Open Scope m_scope.

(** ** The order of an epoch *)
Lemma insert_perm (l : list nat) i x y : l !! i = Some x → x :: <[i := y]> l ≡ₚ y :: l.
Proof.
  revert i. induction l as [|z l IH]; intros [|i]; simpl; [done|done|by intros [= ->]; apply Permutation_swap|].
  intros Hi. rewrite (Permutation_swap z x), (IH i Hi). apply Permutation_swap.
Qed.

Lemma vec_swap_perm i j l : i < length l → j < length l → ∃ l', vec_swap i j l = Some l' ∧ l' ≡ₚ l.
Proof.
  intros [x Hx]%lookup_lt_is_Some_2 [y Hy]%lookup_lt_is_Some_2. unfold vec_swap. rewrite Hx, Hy. simpl.
  eexists. split; [done|]. apply (Permutation_cons_inv (a := y)).
  assert (<[i := y]> l !! j = Some y) as Hm.
  { destruct (decide (i = j)) as [<-|Hij].
    - apply list_lookup_insert_eq. by eapply lookup_lt_Some.
    - by rewrite list_lookup_insert_ne. }
  by rewrite (insert_perm _ j y x Hm), (insert_perm l i x y Hx).
Qed.

Lemma shuffle_perm indices : ∀ random l, Forall (λ i, i < length l) indices →
  ∃ l', shuffle indices random l = Some l' ∧ l' ≡ₚ l.
Proof.
  induction indices as [|index indices IH]; intros random l Hall; cbn [shuffle]; [by exists l|].
  apply Forall_cons in Hall as [Hi Hall]. destruct (split_mix random) as [value random'].
  destruct (vec_swap_perm index (N.to_nat (value mod (N.of_nat index + 1))) l) as (l1 & -> & Hp); [done| |].
  { pose proof (N.mod_lt value (N.of_nat index + 1)). lia. }
  simpl. destruct (IH random' l1) as (l' & -> & Hp').
  - by rewrite (Permutation_length Hp).
  - exists l'. split; [done|]. by etrans.
Qed.

Section Sort.
Context (key : nat → nat).

Lemma sorted_lookup l i j a b : StronglySorted (λ a b, key a ≤ key b) l → i ≤ j → l !! i = Some a → l !! j = Some b → key a ≤ key b.
Proof.
  intros Hs. revert i j. induction Hs as [|x l Hs IH Hx]; intros [|i] [|j] Hij Ha Hb; simpl in *; simplify_eq; [done| |lia|].
  - rewrite Forall_forall in Hx. apply Hx. by eapply list_elem_of_lookup_2.
  - apply (IH i j); [lia|done|done].
Qed.

Lemma chunks_concat window : ∀ fuel l, 0 < window → length l ≤ fuel → concat (chunks fuel window l) = l.
Proof.
  induction fuel as [|fuel IH]; intros l Hw Hl; [destruct l; [done|simpl in Hl; lia]|]. destruct l as [|x l]; [done|].
  cbn [chunks concat]. rewrite IH, take_drop; [done|done|]. rewrite length_drop. simpl in *. lia.
Qed.

Lemma sorted_chunks_perm window fuel l : 0 < window → length l ≤ fuel →
  concat (sort_by_key key <$> chunks fuel window l) ≡ₚ l.
Proof.
  intros Hw Hl. rewrite <- (chunks_concat window fuel l Hw Hl) at 2.
  generalize (chunks fuel window l). intros cs. induction cs as [|c cs IH]; simpl; [done|]. by rewrite sort_by_key_perm, IH.
Qed.

Lemma sorted_chunks_lookup window : ∀ fuel l i j a b, 0 < window → length l ≤ fuel →
  concat (sort_by_key key <$> chunks fuel window l) !! i = Some a →
  concat (sort_by_key key <$> chunks fuel window l) !! j = Some b →
  i ≤ j → i / window = j / window → key a ≤ key b.
Proof.
  induction fuel as [|fuel IH]; intros l i j a b Hw Hl; [destruct l; [done|simpl in Hl; lia]|]. destruct l as [|x l]; [done|].
  cbn [chunks fmap list_fmap concat]. set (head := sort_by_key key (take window (x :: l))). set (rest := drop window (x :: l)).
  assert (length head = Nat.min window (length (x :: l))) as Hhead
    by (unfold head; by rewrite sort_by_key_perm, length_take).
  assert (length rest ≤ fuel) as Hrest by (unfold rest; rewrite length_drop; simpl in *; lia).
  intros Ha Hb Hij Hq. destruct (decide (i < window)) as [Hi|Hi].
  - rewrite (Nat.div_small i) in Hq by done. symmetry in Hq. apply Nat.div_small_iff in Hq; [|lia].
    assert (∀ k c, k < window → (head ++ concat (sort_by_key key <$> chunks fuel window rest)) !! k = Some c → head !! k = Some c) as Hin.
    { intros k c Hk. destruct (decide (k < length head)) as [Hlt|Hge]; [by rewrite lookup_app_l|].
      assert (rest = []) as -> by (unfold rest; apply drop_ge; lia). destruct fuel; by rewrite app_nil_r. }
    eapply (sorted_lookup head); [apply sort_by_key_sorted|exact Hij|by apply Hin|by apply Hin].
  - destruct (decide (window ≤ length (x :: l))) as [Hfull|Hshort].
    2:{ apply lookup_lt_Some in Ha. rewrite length_app, Hhead in Ha.
        assert (rest = []) as Hnil by (unfold rest; apply drop_ge; lia). rewrite Hnil in Ha. destruct fuel; simpl in Ha; lia. }
    rewrite lookup_app_r in Ha, Hb by lia. rewrite Hhead, Nat.min_l in Ha, Hb by done.
    apply (IH rest (i - window) (j - window)); [done|done|done|done|lia|].
    replace i with (i - window + 1 * window) in Hq by lia. replace j with (j - window + 1 * window) in Hq by lia.
    rewrite !Nat.div_add in Hq by lia. lia.
Qed.
End Sort.

(** What the order of an epoch is. *)
Lemma epoch_order_exact dataset window s : 0 < window → ∃ o, epoch_order dataset window s = Some o ∧
  o ≡ₚ seq 0 (length dataset) ∧
  ∀ i j a b, o !! i = Some a → o !! j = Some b → i ≤ j → i / window = j / window →
    example_length dataset a ≤ example_length dataset b.
Proof.
  intros Hw. unfold epoch_order.
  destruct (shuffle_perm (reverse (seq 1 (length dataset - 1))) (N.lxor (seed s) (wrapping_mul (epoch s) 0xA24BAED4963EE407))
    (seq 0 (length dataset))) as (l & -> & Hp).
  { rewrite Forall_reverse. apply Forall_forall. intros i Hi%elem_of_seq. rewrite length_seq. lia. }
  cbn [mbind option_bind]. assert (length l = length dataset) as Hl by (by rewrite (Permutation_length Hp), length_seq).
  rewrite decide_True.
  2:{ rewrite Hp. apply Forall_forall. intros i Hi%elem_of_seq. lia. }
  eexists. split; [done|]. split.
  - by rewrite sorted_chunks_perm by lia.
  - intros i j a b Ha Hb Hij Hq. apply (sorted_chunks_lookup _ window (length dataset) l i j a b); [done|lia|done..].
Qed.

(** ** The loader's invariant *)
Implicit Types l : SftLoader.

Record loader_wf l : Prop := {
  lw_dataset : ld_dataset l ≠ [];
  lw_micro : 0 < micro_batch l;
  lw_window : 0 < length_window l;
  lw_rank : ld_rank l < world_size l;
  lw_order : epoch_order (ld_dataset l) (length_window l) (ld_state l) = Some (order l)
}.

(** What no call but the builders changes. *)
Definition loader_setup l := (ld_dataset l, micro_batch l, pad_token_id l, length_window l, ld_rank l, world_size l).

Lemma epoch_order_cursor dataset window s s' : epoch s = epoch s' → seed s = seed s' →
  epoch_order dataset window s = epoch_order dataset window s'.
Proof. unfold epoch_order. by intros -> ->. Qed.

Lemma reorder_run l : 0 < length_window l → ∃ o,
  reorder l = (Ok tt, set_order o l) ∧ epoch_order (ld_dataset l) (length_window l) (ld_state l) = Some o.
Proof.
  intros Hw. destruct (epoch_order_exact (ld_dataset l) (length_window l) (ld_state l) Hw) as (o & Ho & _).
  exists o. split; [|done]. unfold reorder, mbind', mget, mexpect. by rewrite Ho.
Qed.

Lemma order_perm l : loader_wf l → order l ≡ₚ seq 0 (length (ld_dataset l)).
Proof.
  intros Hwf. destruct (epoch_order_exact (ld_dataset l) _ (ld_state l) (lw_window _ Hwf)) as (o & Ho & Hp & _).
  pose proof (lw_order _ Hwf). by simplify_eq.
Qed.

Lemma order_length l : loader_wf l → length (order l) = length (ld_dataset l).
Proof. intros Hwf. by rewrite (Permutation_length (order_perm _ Hwf)), length_seq. Qed.

(** The epoch and the cursor the next micro-batch starts at. *)
Definition position l : N * nat :=
  if decide (length (ld_dataset l) ≤ cursor (ld_state l)) then ((epoch (ld_state l) + 1)%N, 0)
  else (epoch (ld_state l), cursor (ld_state l)).

(** Room for the counters of one more micro-batch. *)
Definition room l : Prop := ((position l).1 ≤ u64_max)%N ∧ (N.of_nat ((position l).2 + micro_batch l) ≤ usize_max)%N.

Lemma start_epoch_wp l : loader_wf l → room l → wp start_epoch (λ r l', r = Ok tt ∧ loader_wf l' ∧
    loader_setup l' = loader_setup l ∧
    ld_state l' = mk_loader_state (position l).1 (position l).2 (seed (ld_state l))) l.
Proof.
  intros Hwf [Hroom _]. unfold start_epoch. do 2 wp_step. revert Hroom. unfold position. rewrite (order_length _ Hwf). case_decide as Hend; simpl; intros Hroom.
  - wp_step. unfold mexpect, checked_add. rewrite decide_True by done. apply wp_ret. wp_step. apply wp_modify.
    set (l1 := set_loader_state _ l). destruct (reorder_run l1 (lw_window _ Hwf)) as (o & Hrun & Ho).
    unfold wp. rewrite Hrun. simpl. split; [done|]. split; [|done]. destruct Hwf. by split.
  - apply wp_ret. split_and!; [done..|]. by destruct (ld_state l).
Qed.

(** The examples of the next micro-batch. *)
Definition picked (dataset : list SftExample) (indices : list nat) : list SftExample := omap (λ i, dataset !! i) indices.

Lemma picked_run indices l : Forall (λ i, i < length (ld_dataset l)) indices →
  mmap indices (λ index, mexpect OutOfBounds (ld_dataset l !! index)) l =
    ((Ok (picked (ld_dataset l) indices) : res DataError _), l).
Proof.
  induction indices as [|i indices IH]; intros Hall; [done|]. apply Forall_cons in Hall as [[e He]%lookup_lt_is_Some_2 Hall].
  simpl. unfold mbind'. rewrite He. simpl. rewrite IH by done. done.
Qed.

Lemma picked_length dataset indices : Forall (λ i, i < length dataset) indices → length (picked dataset indices) = length indices.
Proof.
  induction 1 as [|i indices Hi Hall IH]; [done|]. simpl. apply lookup_lt_is_Some_2 in Hi as [e ->]. simpl. by f_equal.
Qed.

Lemma picked_all dataset : picked dataset (seq 0 (length dataset)) = dataset.
Proof.
  induction dataset as [|e dataset IH] using rev_ind; [done|]. unfold picked. rewrite length_app, seq_app, omap_app. simpl.
  rewrite lookup_app_r, Nat.sub_diag by done. simpl. f_equal. rewrite <- IH at 2. apply omap_ext_elem.
  intros i Hi%elem_of_seq. by rewrite lookup_app_l by lia.
Qed.

Lemma picked_incl dataset indices e : e ∈ picked dataset indices → e ∈ dataset.
Proof. intros (i & _ & Hi)%list_elem_of_omap. by eapply list_elem_of_lookup_2. Qed.

(** One micro-batch of the global stream: the next [micro_batch] examples of the
    epoch's order, or what is left of them. *)
Record batch_step l (group : list SftExample) (b : SftBatch) l' : Prop := {
  bt_wf : loader_wf l';
  bt_setup : loader_setup l' = loader_setup l;
  bt_state : ld_state l' = mk_loader_state (position l).1
    (Nat.min ((position l).2 + micro_batch l) (length (ld_dataset l))) (seed (ld_state l));
  bt_group : group = picked (ld_dataset l) (take (micro_batch l) (drop (position l).2 (order l')));
  bt_batch : collate group (pad_token_id l) = Ok b
}.

Lemma position_lt l : loader_wf l → (position l).2 < length (ld_dataset l).
Proof.
  intros Hwf. unfold position. case_decide; simpl; [|lia]. destruct (ld_dataset l) eqn:E; simpl; [|lia].
  by destruct (lw_dataset _ Hwf).
Qed.

Lemma next_global_wp l : loader_wf l → Forall same_length (ld_dataset l) → room l →
  wp next_global (λ r l', ∃ b group, r = Ok b ∧ batch_step l group b l') l.
Proof.
  intros Hwf Hal Hroom. unfold next_global. wp_step. eapply wp_mono; [by apply start_epoch_wp|].
  intros r l1 (-> & Hwf1 & Hset & Hst). do 2 wp_step. injection Hset as Hd Hm Hp Hw Hr Hws.
  pose proof (position_lt _ Hwf) as Hlt. rewrite Hst. simpl. wp_step. unfold mexpect.
  unfold usize_add. destruct Hroom as [_ Hroom]. rewrite Hm, decide_True by lia. apply wp_ret. wp_step. rewrite (order_length _ Hwf1), Hd. unfold slice at 1. rewrite (order_length _ Hwf1), Hd, decide_True by lia.
  simpl. apply wp_ret. wp_step. set (indices := take _ _).
  assert (Forall (λ i, i < length (ld_dataset l1)) indices) as Hidx.
  { apply Forall_take, Forall_drop. rewrite (order_perm _ Hwf1). apply Forall_forall. intros i Hi%elem_of_seq. lia. }
  pose proof (picked_run _ _ Hidx) as Hrun. rewrite Hd in Hrun. unfold mexpect in Hrun. unfold wp at 1. rewrite Hrun. simpl. wp_step. apply wp_lift.
  assert (indices = take (micro_batch l) (drop (position l).2 (order l1))) as Hind.
  { unfold indices. destruct (decide ((position l).2 + micro_batch l ≤ length (ld_dataset l))).
    - f_equal. lia.
    - rewrite !take_ge; [done|rewrite length_drop, (order_length _ Hwf1), Hd; lia..]. }
  destruct (collate_exact (picked (ld_dataset l) indices) (pad_token_id l1)) as (b & Hb & _).
  { apply Forall_forall. intros e He%picked_incl. rewrite Forall_forall in Hal. by apply Hal. }
  rewrite Hb. wp_step. apply wp_modify. apply wp_ret. exists b, (picked (ld_dataset l) indices). split; [done|]. split; simpl.
  - destruct Hwf1 as [? ? ? ? Ho]. split; simpl; try done. rewrite <- Ho. by apply epoch_order_cursor; rewrite Hst.
  - unfold loader_setup. simpl. congruence.
  - done.
  - by rewrite Hind.
  - by rewrite <- Hp.
Qed.

(** Several micro-batches. *)
Definition stream (n : nat) : LM (list SftBatch) := mmap (seq 0 n) (λ _, next_global).

Lemma mmap_any {S E A B C} (m : M S E C) (xs : list A) (ys : list B) s : length xs = length ys →
  mmap xs (λ _, m) s = mmap ys (λ _, m) s.
Proof.
  revert ys s. induction xs as [|x xs IH]; intros [|y ys] s Hl; simpl in *; try done.
  unfold mbind'. destruct (m s) as [[c|e|p] s']; [|done..]. by rewrite (IH ys s') by lia.
Qed.

Lemma stream_S n l : stream (S n) l =
  (let! b := next_global in let! bs := stream n in mret (b :: bs)) l.
Proof.
  unfold stream. cbn [seq mmap]. unfold mbind'. destruct (next_global l) as [[b|e|p] l']; [|done..].
  by rewrite (mmap_any _ (seq 1 n) (seq 0 n)) by (by rewrite !length_seq).
Qed.

Definition batches_of (pad : Z) (micro : nat) : list (list SftExample) → list SftBatch → Prop :=
  Forall2 (λ group b, collate group pad = Ok b ∧ 0 < length group ≤ micro).

Lemma div_ceil_sub a b k : 0 < b → div_ceil a b = S (S k) → b < a ∧ div_ceil (a - b) b = S k.
Proof.
  intros Hb Hd. assert (1 * b < a) as Ha by (apply (div_ceil_lt a b 1 Hb); lia). split; [lia|].
  pose proof (div_ceil_le a b (S (S k)) Hb). pose proof (div_ceil_lt a b (S k) Hb).
  apply Nat.le_antisymm; [apply div_ceil_le; lia|]. apply (div_ceil_lt (a - b) b k Hb). lia.
Qed.

Lemma same_order l l' : loader_wf l → loader_wf l' → loader_setup l' = loader_setup l →
  epoch (ld_state l') = epoch (ld_state l) → seed (ld_state l') = seed (ld_state l) → order l' = order l.
Proof.
  intros [_ _ _ _ Ho] [_ _ _ _ Ho'] [= Hd _ _ Hw _ _] He Hs. rewrite Hd, Hw in Ho'.
  rewrite (epoch_order_cursor _ _ _ _ He Hs) in Ho'. congruence.
Qed.

Lemma order_bounded l : loader_wf l → Forall (λ i, i < length (ld_dataset l)) (order l).
Proof. intros Hwf. rewrite (order_perm _ Hwf). apply Forall_forall. intros i Hi%elem_of_seq. lia. Qed.

Lemma group_length l group b l' : loader_wf l → batch_step l group b l' → 0 < length group ≤ micro_batch l.
Proof.
  intros Hwf [Hwf' [= Hd _ _ _ _ _] _ -> _]. pose proof (position_lt _ Hwf). pose proof (lw_micro _ Hwf).
  rewrite picked_length by (apply Forall_take, Forall_drop; rewrite <- Hd; by apply order_bounded).
  rewrite length_take, length_drop, (order_length _ Hwf'), Hd. lia.
Qed.

(** The rest of an epoch. *)
Lemma stream_rest k : ∀ l, loader_wf l → Forall same_length (ld_dataset l) →
  (N.of_nat (length (ld_dataset l) + micro_batch l) ≤ usize_max)%N → ((position l).1 ≤ u64_max)%N →
  div_ceil (length (ld_dataset l) - (position l).2) (micro_batch l) = S k →
  ∃ groups bs l', stream (S k) l = (Ok bs, l') ∧ batches_of (pad_token_id l) (micro_batch l) groups bs ∧
    concat groups = picked (ld_dataset l) (drop (position l).2 (order l')) ∧
    loader_wf l' ∧ loader_setup l' = loader_setup l ∧
    ld_state l' = mk_loader_state (position l).1 (length (ld_dataset l)) (seed (ld_state l)).
Proof.
  induction k as [|k IH]; intros l Hwf Hal Hsize Hep Hk; rewrite stream_S; unfold mbind';
    pose proof (position_lt _ Hwf) as Hlt; pose proof (lw_micro _ Hwf) as Hmicro;
    (assert (room l) as Hroom by (split; [done|]; lia));
    pose proof (next_global_wp l Hwf Hal Hroom) as Hw; unfold wp in Hw;
    destruct (next_global l) as [r l1]; destruct Hw as (b & group & Hr & Hstep);
    simpl in Hr; subst r; pose proof (group_length _ _ _ _ Hwf Hstep) as Hlen;
    destruct Hstep as [Hwf1 Hset Hst Hgr Hb]; simpl in Hwf1, Hset, Hst, Hgr.
  - exists [group], [b], l1. split; [done|]. split; [by constructor|].
    assert (length (ld_dataset l) - (position l).2 ≤ micro_batch l) as Hlast.
    { pose proof (proj1 (div_ceil_le _ _ 1 Hmicro) ltac:(by rewrite Hk)). lia. }
    split_and!; [|done|done|].
    + simpl. rewrite app_nil_r, Hgr. rewrite take_ge; [done|]. injection Hset as Hd _ _ _ _ _.
      rewrite length_drop, (order_length _ Hwf1), Hd. lia.
    + rewrite Hst. f_equal. lia.
  - destruct (div_ceil_sub _ _ _ Hmicro Hk) as [Hmore Hk']. pose proof Hset as [= Hd Hm Hp _ _ _].
    assert (position l1 = ((position l).1, (position l).2 + micro_batch l)) as Hpos.
    { unfold position at 1. rewrite Hst, Hd. simpl. rewrite decide_False by lia. f_equal. lia. }
    destruct (IH l1) as (groups & bs & l2 & Hrun & Hbs & Hcat & Hwf2 & Hset2 & Hst2).
    { done. } { by rewrite Hd. } { by rewrite Hd, Hm. } { by rewrite Hpos. }
    { rewrite Hpos, Hd, Hm. simpl. rewrite <- Hk'. f_equal. lia. }
    rewrite Hrun. exists (group :: groups), (b :: bs), l2. split; [done|]. rewrite Hp, Hm in Hbs. split; [by constructor|].
    split_and!; [|done|congruence|by rewrite Hst2, Hpos, Hst, Hd].
    assert (order l2 = order l1) as Ho by (apply same_order; [done..|by rewrite Hst2, Hpos, Hst|by rewrite Hst2]).
    simpl. rewrite Hcat, Hgr, Ho, Hpos, Hd. simpl. unfold picked. rewrite <- omap_app. f_equal.
    rewrite <- drop_drop. apply take_drop.
Qed.

(** Claim C32. From the start of an epoch, [batches_per_epoch] micro-batches are the
    dataset: they are collated from groups of at most [micro_batch] examples that
    together are a permutation of it, and then the epoch is over. *)
Theorem epoch_covers_dataset l : loader_wf l → Forall same_length (ld_dataset l) →
  (N.of_nat (length (ld_dataset l) + micro_batch l) ≤ usize_max)%N → ((position l).1 ≤ u64_max)%N →
  (position l).2 = 0 →
  ∃ groups bs l', stream (batches_per_epoch l) l = (Ok bs, l') ∧
    batches_of (pad_token_id l) (micro_batch l) groups bs ∧ concat groups ≡ₚ ld_dataset l ∧
    loader_wf l' ∧ loader_setup l' = loader_setup l ∧
    ld_state l' = mk_loader_state (position l).1 (length (ld_dataset l)) (seed (ld_state l)) ∧
    position l' = (((position l).1 + 1)%N, 0).
Proof.
  intros Hwf Hal Hsize Hep Hzero. unfold batches_per_epoch.
  pose proof (position_lt _ Hwf) as Hlt. pose proof (lw_micro _ Hwf) as Hmicro.
  destruct (div_ceil (length (ld_dataset l)) (micro_batch l)) as [|k] eqn:Hk.
  { pose proof (proj1 (div_ceil_le _ _ 0 Hmicro) ltac:(by rewrite Hk)). lia. }
  destruct (stream_rest k l Hwf Hal Hsize Hep) as (groups & bs & l' & Hrun & Hbs & Hcat & Hwf' & Hset & Hst).
  { by rewrite Hzero, Nat.sub_0_r. }
  exists groups, bs, l'. pose proof Hset as [= Hd _ _ _ _ _]. split_and!; [done|done| |done|done|done|].
  - rewrite Hcat, Hzero, drop_0. rewrite <- (picked_all (ld_dataset l)) at 2. unfold picked.
    apply omap_Permutation. rewrite <- Hd. by apply order_perm.
  - unfold position at 1. rewrite Hst, Hd. simpl. by rewrite decide_True.
Qed.

(** ** Saved positions *)

(** The loaders the methods lead to. *)
Inductive loader_reachable : SftLoader → Prop :=
| lr_new dataset micro pad seed l : new_loader dataset micro pad seed = Ok l → loader_reachable l
| lr_shard rank world l l' : loader_reachable l → with_shard rank world l = Ok l' → loader_reachable l'
| lr_window window l l' : loader_reachable l → with_length_window window l = Ok l' → loader_reachable l'
| lr_restore s l x l' : loader_reachable l → restore_loader s l = (x, l') → loader_reachable l'
| lr_global l b l' : loader_reachable l → next_global l = (Ok b, l') → loader_reachable l'
| lr_next l b l' : loader_reachable l → next_batch l = (Ok b, l') → loader_reachable l'.

Lemma building_reorder l : 0 < length_window l → ∃ o, building reorder l = Ok (set_order o l) ∧
  epoch_order (ld_dataset l) (length_window l) (ld_state l) = Some o.
Proof. intros Hw. destruct (reorder_run l Hw) as (o & Hrun & Ho). exists o. unfold building. by rewrite Hrun. Qed.

Lemma restore_run s l : loader_wf l → ∃ o, restore_loader s l = (Ok tt, set_order o (set_loader_state s l)) ∧
  epoch_order (ld_dataset l) (length_window l) s = Some o.
Proof. intros Hwf. apply (reorder_run (set_loader_state s l)), (lw_window _ Hwf). Qed.

(** Looking the examples up leaves the loader alone. *)
Lemma lookups_run (dataset : list SftExample) (indices : list nat) l : mmap indices (λ index, mexpect OutOfBounds (dataset !! index)) l =
  ((match mapM (λ index, dataset !! index) indices with Some es => Ok es | None => Panic OutOfBounds end
    : res DataError (list SftExample)), l).
Proof.
  induction indices as [|i indices IH]; [done|]. simpl. unfold mbind' at 1. destruct (dataset !! i); [|done]. simpl.
  unfold mbind'. rewrite IH. by destruct (mapM _ indices).
Qed.

(** [next_global] after [start_epoch]. *)
Definition after_start l : res DataError SftBatch * SftLoader :=
  match usize_add (cursor (ld_state l)) (micro_batch l) with
  | None => (Panic Overflow, l)
  | Some sum =>
      let finish := Nat.min sum (length (order l)) in
      match slice (cursor (ld_state l)) finish (order l) ≫= mapM (λ index, ld_dataset l !! index) with
      | None => (Panic OutOfBounds, l)
      | Some examples =>
          match collate examples (pad_token_id l) with
          | Ok b => (Ok b, set_loader_state (mk_loader_state (epoch (ld_state l)) finish (seed (ld_state l))) l)
          | Err e => (Err e, l)
          | Panic p => (Panic p, l)
          end
      end
  end.

Lemma next_global_after l : next_global l =
  match start_epoch l with
  | (Ok _, l1) => after_start l1
  | (Err e, l1) => (Err e, l1)
  | (Panic p, l1) => (Panic p, l1)
  end.
Proof.
  unfold next_global, mbind' at 1. destruct (start_epoch l) as [[[]|e|p] l1]; [|done..]. unfold after_start.
  unfold mbind' at 1, mget. unfold mbind' at 1. destruct (usize_add _ _) as [sum|]; [|done]. simpl.
  unfold mbind' at 1. destruct (slice _ _ _) as [idx|]; [|done]. simpl. unfold mbind' at 1. rewrite lookups_run.
  destruct (mapM _ idx) as [es|]; [|done]. unfold mbind', mlift. by destruct (collate es _).
Qed.

Lemma next_global_shape l b l' : next_global l = (Ok b, l') → ∃ l1 s,
  start_epoch l = (Ok tt, l1) ∧ l' = set_loader_state s l1 ∧ epoch s = epoch (ld_state l1) ∧ seed s = seed (ld_state l1).
Proof.
  rewrite next_global_after. destruct (start_epoch l) as [[[]|e|p] l1]; [|done..]. unfold after_start.
  destruct (usize_add _ _); [|done]. destruct (_ ≫= _); [|done]. destruct (collate _ _); [|done..]. intros [= _ <-].
  by eexists _, _.
Qed.

Lemma start_epoch_wf l l1 : loader_wf l → start_epoch l = (Ok tt, l1) → loader_wf l1 ∧ loader_setup l1 = loader_setup l.
Proof.
  intros Hwf. unfold start_epoch, mbind' at 1, mget. case_decide; [|by intros [= <-]].
  unfold mbind' at 1, mexpect at 1. destruct (checked_add _ _ _) as [n|]; [|done]. simpl. unfold mbind', mmodify.
  set (l0 := set_loader_state _ l). destruct (reorder_run l0 (lw_window _ Hwf)) as (o & -> & Ho). intros [= <-].
  split; [|done]. destruct Hwf. by split.
Qed.

Lemma next_global_wf l b l' : loader_wf l → next_global l = (Ok b, l') → loader_wf l' ∧ loader_setup l' = loader_setup l.
Proof.
  intros Hwf (l1 & s & Hs & -> & He & Hsd)%next_global_shape. destruct (start_epoch_wf _ _ Hwf Hs) as [[? ? ? ? Ho] Hset].
  split; [|done]. split; simpl; try done. by rewrite (epoch_order_cursor _ _ _ _ He Hsd).
Qed.

Lemma shard_loop_wf rank shards : ∀ l acc o l', loader_wf l → shard_loop rank shards acc l = (Ok o, l') →
  loader_wf l' ∧ loader_setup l' = loader_setup l.
Proof.
  induction shards as [|shard shards IH]; intros l acc o l' Hwf; simpl; [by intros [= _ <-]|]. unfold mbind'.
  destruct (next_global l) as [[b|e|p] l1] eqn:E; [|done..]. destruct (next_global_wf _ _ _ Hwf E) as [Hwf1 Hset].
  intros Hrun. destruct (IH _ _ _ _ Hwf1 Hrun). split; [done|congruence].
Qed.

Lemma loader_reachable_wf l : loader_reachable l → loader_wf l.
Proof.
  induction 1 as [dataset micro pad sd l Hn|rank world l l' _ Hwf Hs|window l l' _ Hwf Hw|s l x l' _ Hwf Hr|l b l' _ Hwf Hb|l b l' _ Hwf Hb].
  - unfold new_loader in Hn. case_decide; [done|]. case_decide; [done|].
    destruct (building_reorder (mk_loader dataset micro pad 64 0 1 (mk_loader_state 0 0 sd) []) ltac:(simpl; lia)) as (o & Hb & Ho).
    rewrite Hb in Hn. injection Hn as <-. split; simpl; [done|lia|lia|lia|done].
  - unfold with_shard in Hs. case_decide; [|done]. injection Hs as <-. destruct Hwf. split; simpl; [done..|tauto|done].
  - unfold with_length_window in Hw. destruct (building_reorder (set_window (Nat.max window 1) l) ltac:(simpl; lia)) as (o & Hb & Ho).
    rewrite Hb in Hw. injection Hw as <-. destruct Hwf. split; simpl; [done|done|lia|done|done].
  - destruct (restore_run s l Hwf) as (o & Hrun & Ho). rewrite Hrun in Hr. injection Hr as _ <-. destruct Hwf. by split.
  - by apply (next_global_wf _ _ _ Hwf) in Hb as [? _].
  - unfold next_batch, mbind', mget in Hb. destruct (shard_loop _ _ _ l) as [[o|e|p] l1] eqn:E; [|done..].
    destruct (shard_loop_wf _ _ _ _ _ _ Hwf E). unfold mexpect in Hb. destruct o; [|done]. by injection Hb as _ <-.
Qed.

Lemma restore_position l l0 : loader_reachable l → loader_reachable l0 → loader_setup l0 = loader_setup l →
  restore_loader (loader_state l) l0 = (Ok tt, l).
Proof.
  intros Hwf%loader_reachable_wf Hwf0%loader_reachable_wf Hset. destruct (restore_run (loader_state l) l0 Hwf0) as (o & -> & Ho).
  pose proof (lw_order _ Hwf) as Hl. unfold loader_state in *. injection Hset as Hd Hm Hp Hw Hr Hws.
  rewrite Hd, Hw, Hl in Ho. injection Ho as <-. unfold set_order, set_loader_state. simpl. rewrite Hd, Hm, Hp, Hw, Hr, Hws.
  by destruct l.
Qed.

(** Claim C23. A loader over the same dataset and settings, restored to the position a
    loader was at, is that loader: it goes on with the same micro-batches. *)
Theorem restored_loader_resumes l l0 : loader_reachable l → loader_reachable l0 → loader_setup l0 = loader_setup l →
  restore_loader (loader_state l) l0 = (Ok tt, l).
Proof. apply restore_position. Qed.

(** ** Shards *)

(** [next_global] does not look at the shard. *)
Definition sharded {A} (m : LM A) : Prop := ∀ rank world l,
  m (set_shard rank world l) = ((m l).1, set_shard rank world (m l).2).

Lemma start_epoch_sharded : sharded start_epoch.
Proof.
  intros rank world l. unfold start_epoch, reorder, mbind', mget, mexpect. simpl. case_decide; [|done].
  destruct (checked_add _ _ _) as [n|]; [|done]. simpl. by destruct (epoch_order _ _ _).
Qed.

Lemma next_global_sharded : sharded next_global.
Proof.
  intros rank world l. rewrite !next_global_after, start_epoch_sharded. destruct (start_epoch l) as [[[]|e|p] l1]; [|done..].
  simpl. unfold after_start. simpl. destruct (usize_add _ _); [|done]. destruct (_ ≫= _); [|done]. by destruct (collate _ _).
Qed.

Lemma stream_sharded n : sharded (stream n).
Proof.
  intros rank world. induction n as [|n IH]; intros l; [done|]. rewrite !stream_S. unfold mbind'.
  rewrite next_global_sharded. destruct (next_global l) as [[b|e|p] l1]; simpl; [|done..].
  rewrite IH. by destruct (stream n l1) as [[bs|e|p] l2].
Qed.

Lemma stream_length n l gs l' : stream n l = (Ok gs, l') → length gs = n.
Proof.
  revert l gs. induction n as [|n IH]; intros l gs; [by intros [= <- _]|]. rewrite stream_S. unfold mbind'.
  destruct (next_global l) as [[b|e|p] l1]; [|done..]. destruct (stream n l1) as [[bs|e|p] l2] eqn:E; [|done..].
  intros [= <- <-]. simpl. f_equal. by apply (IH l1).
Qed.

Lemma stream_app n m l gs l' : stream (n + m) l = (Ok gs, l') → ∃ gs1 l1 gs2,
  stream n l = (Ok gs1, l1) ∧ stream m l1 = (Ok gs2, l') ∧ gs = gs1 ++ gs2.
Proof.
  revert l gs. induction n as [|n IH]; intros l gs; [by exists [], l, gs|]. cbn [Nat.add]. rewrite !stream_S. unfold mbind'.
  destruct (next_global l) as [[b|e|p] l1]; [|done..]. destruct (stream (n + m) l1) as [[bs|e|p] l2] eqn:E; [|done..].
  intros [= <- <-]. destruct (IH _ _ E) as (gs1 & l3 & gs2 & H1 & H2 & ->). exists (b :: gs1), l3, gs2.
  split; [|done]. by rewrite H1.
Qed.

Lemma shard_loop_run rank k : ∀ a acc l gs l', stream k l = (Ok gs, l') →
  shard_loop rank (seq a k) acc l = (Ok (if decide (a ≤ rank < a + k) then gs !! (rank - a) else acc), l').
Proof.
  induction k as [|k IH]; intros a acc l gs l'.
  { intros [= <- <-]. simpl. by rewrite decide_False by lia. }
  rewrite stream_S. cbn [seq shard_loop]. unfold mbind'.
  destruct (next_global l) as [[b|e|p] l1]; [|done..]. destruct (stream k l1) as [[bs|e|p] l2] eqn:E; [|done..].
  intros [= <- <-]. rewrite (IH _ _ _ _ _ E). do 2 f_equal.
  destruct (decide (a = rank)) as [<-|Hne].
  - rewrite decide_False, decide_True by lia. by rewrite Nat.sub_diag.
  - destruct (decide (S a ≤ rank < S a + k)).
    + rewrite decide_True by lia. by replace (rank - a) with (S (rank - S a)) by lia.
    + by rewrite decide_False by lia.
Qed.

Lemma next_batch_run l gs l' : ld_rank l < world_size l → stream (world_size l) l = (Ok gs, l') →
  ∃ b, gs !! ld_rank l = Some b ∧ next_batch l = (Ok b, l').
Proof.
  intros Hr Hs. destruct (lookup_lt_is_Some_2 gs (ld_rank l)) as [b Hb]; [by rewrite (stream_length _ _ _ _ Hs)|].
  exists b. split; [done|]. unfold next_batch, mbind', mget. rewrite (shard_loop_run _ _ _ _ _ _ _ Hs).
  rewrite decide_True, Nat.sub_0_r, Hb by lia. done.
Qed.

(** Claim C26. Data-parallel ranks split one stream of micro-batches: what [world] times
    [n] calls of [next_global] give, rank [r] receives in its [n] calls of [next_batch]
    the batches [r], [r + world], [r + 2 world], ..., and all ranks end at the same
    position. *)
Theorem shards_split_stream world n l gs l' : stream (n * world) l = (Ok gs, l') → ∀ rank, rank < world →
  ∃ bs, mmap (seq 0 n) (λ _, next_batch) (set_shard rank world l) = (Ok bs, set_shard rank world l') ∧
    length bs = n ∧ ∀ i, i < n → bs !! i = gs !! (i * world + rank).
Proof.
  intros Hs rank Hr. revert l gs Hs. induction n as [|n IH]; intros l gs Hs.
  { injection Hs as <- <-. exists []. split_and!; [done|done|lia]. }
  cbn [Nat.mul] in Hs. destruct (stream_app _ _ _ _ _ Hs) as (gs1 & l1 & gs2 & H1 & H2 & ->).
  pose proof (stream_length _ _ _ _ H1) as Hl1.
  pose proof (stream_sharded world rank world l) as Hsh. rewrite H1 in Hsh. simpl in Hsh.
  destruct (next_batch_run (set_shard rank world l) gs1 (set_shard rank world l1) Hr Hsh) as (b & Hb & Hrun).
  destruct (IH _ _ H2) as (bs & Hbs & Hlen & Hall). exists (b :: bs). split_and!.
  - cbn [seq mmap]. unfold mbind'. rewrite Hrun. rewrite (mmap_any _ _ (seq 0 n)) by (by rewrite !length_seq). by rewrite Hbs.
  - simpl. by f_equal.
  - intros [|i] Hi; simpl.
    + rewrite lookup_app_l by (simpl in Hb; lia). done.
    + rewrite Hall by lia. rewrite lookup_app_r by lia. f_equal. lia.
Qed.
