(* ===== verification/TrainDataExamples.v ===== *)
(** * Training data on concrete inputs

    A byte-level tokenizer, a one-field record format, and the witnesses of the
    pipeline's theorems. *)
From S2P Require Import Prelude PagedKv GenerationControl TrainData TrainDataSpec TrainLoaderSpec.
Open Scope nat_scope.
Open Scope list_scope.

(** Records with one string field, written [field:text]. *)
Inductive ToyValue := ToyText (s : string) | ToyField (name : string) (v : ToyValue) | ToyList (l : list ToyValue).

Definition toy_get (v : ToyValue) (name : string) : option ToyValue :=
  match v with
  | ToyField n v => if String.eqb n name then Some v else None
  | ToyList fields => head (omap (λ f, match f with ToyField n v => if String.eqb n name then Some v else None | _ => None end) fields)
  | ToyText _ => None
  end.
Definition toy_str (v : ToyValue) : option string := match v with ToyText s => Some s | _ => None end.
Definition toy_array (v : ToyValue) : option (list ToyValue) := match v with ToyList l => Some l | _ => None end.
Definition toy_parse (line : string) : Fallible ToyValue :=
  match String.index 0 ":" line with
  | Some n => inr (ToyField (String.substring 0 n line) (ToyText (String.substring (n + 1) (String.length line) line)))
  | None => inl "expected a field"%string
  end.

#[export] Instance toy_records : JsonRecords :=
  {| Value := ToyValue; get := toy_get; as_str := toy_str; as_array := toy_array; parse_json := toy_parse |}.

(** One token per character. *)
Fixpoint characters (s : string) : list N :=
  match s with EmptyString => [] | String c s => Ascii.N_of_ascii c :: characters s end.
#[export] Instance toy_text : TextTokenizer := {| tokenizer_encode s := inr (characters s) |}.

Definition character_ids (s : string) : list Z := Z.of_N <$> characters s.

Lemma character_ids_app a b : character_ids (a +:+ b) = character_ids a ++ character_ids b.
Proof. induction a as [|c a IH]; [done|]. exact (f_equal (cons _) IH). Qed.

Lemma characters_small s : Forall (λ id, (Z.of_N id ≤ i32_max)%Z) (characters s).
Proof.
  induction s as [|c s IH]; simpl; constructor; [|done]. pose proof (Ascii.N_ascii_bounded c). unfold i32_max. lia.
Qed.

Lemma encode_characters s : encode s = Ok (character_ids s).
Proof.
  unfold encode, character_ids. simpl. apply map_res_Forall2, Forall2_fmap_r, Forall_Forall2_diag.
  eapply Forall_impl; [apply characters_small|]. intros id Hid. unfold token_of_id. by rewrite decide_True.
Qed.

Lemma characters_cut : cuts_turns character_ids.
Proof.
  split; [apply encode_characters|..].
  - intros a b. by rewrite !character_ids_app, !app_assoc.
  - intros a b. by rewrite !character_ids_app, !app_assoc.
  - intros a. exists 10%Z. by rewrite !character_ids_app, !app_assoc.
  - done.
Qed.

(** A file with a record, a blank line, a record too short, and one that is cut. *)
Definition toy_file : list (Fallible string) := [inr "text:ab"; inr "  "; inr "text:a"; inr "text:abcdef"]%string.

Example toy_file_read : from_jsonl "f" (inr toy_file) Plain None 4 = Ok ([causal [97; 98]%Z; causal [97; 98; 99; 100]%Z], 1).
Proof. reflexivity. Qed.

Lemma jsonl_examples_trainable_witness :
  Forall (trainable 4) [causal [97; 98]%Z; causal [97; 98; 99; 100]%Z] ∧
  ∃ lines, inr toy_file = (inr lines : Fallible _) ∧ 2 + 1 = length (record_lines lines).
Proof. exact (jsonl_examples_trainable "f" (inr toy_file) Plain None 4 _ 1 eq_refl). Defined.

(** A question, its answer, and a second answer. *)
Definition toy_chat : list Qwen2ChatMessage :=
  [mk_message User "?"; mk_message Assistant "ok"; mk_message Assistant "!"].

Lemma chat_labels_exact_witness :
  label_chat toy_chat = Ok (mk_example (character_ids (turns (effective toy_chat)))
    (concat (map (turn_labels character_ids) (effective toy_chat)))).
Proof. apply (chat_labels_exact character_ids characters_cut toy_chat); [done|by intros [=]]. Defined.

(** The assistant's words are the only targets. *)
Example toy_chat_targets : match label_chat toy_chat with
  | Ok e => filter (λ label, (0 ≤ label)%Z) (labels e) = character_ids "ok<|im_end|>!<|im_end|>"
  | _ => False
  end.
Proof. vm_compute. reflexivity. Qed.

Example assistant_first : label_chat [mk_message Assistant "hello"] = Err "Qwen chat requires at least one message"%string.
Proof. vm_compute. reflexivity. Qed.

Definition toy_dataset : list SftExample :=
  [mk_example [1; 2; 3; 4] [-100; 2; 3; 4]; causal [5; 6]; causal [7; 8; 9]; causal [10; 11]; causal [12; 13; 14]]%Z.

Lemma toy_aligned : Forall same_length toy_dataset.
Proof. by repeat constructor. Qed.

Example toy_collate : collate (take 2 toy_dataset) 0%Z =
  Ok (mk_sft_batch 2 3 [1; 2; 3; 5; 0; 0]%Z [2; 3; 4; 6; -100; -100]%Z 4).
Proof. reflexivity. Qed.

Lemma collate_exact_witness : ∃ b, collate toy_dataset 0 = Ok b ∧ sb_batch b = 5 ∧
  sb_length b = Nat.max (max_list (map (λ e, length (input_ids e) - 1) toy_dataset)) 1 ∧
  length (sb_tokens b) = sb_batch b * sb_length b ∧ length (sb_targets b) = sb_batch b * sb_length b ∧
  (∀ i e, toy_dataset !! i = Some e →
     row_at (sb_length b) i (sb_tokens b) = Some (padded 0 (sb_length b) (inputs_of e)) ∧
     row_at (sb_length b) i (sb_targets b) = Some (padded IGNORE_INDEX (sb_length b) (targets_of e))) ∧
  sb_target_count b = sum_list (map target_count toy_dataset).
Proof. exact (collate_exact toy_dataset 0 toy_aligned). Defined.

Definition toy_loader : SftLoader :=
  match new_loader toy_dataset 2 0 42 with
  | Ok l => match with_length_window 3 l with Ok l => l | _ => l end
  | _ => mk_loader [] 0 0 0 0 0 (mk_loader_state 0 0 0) []
  end.

Lemma toy_loader_reachable : loader_reachable toy_loader.
Proof.
  eapply (lr_window 3); [eapply (lr_new toy_dataset 2 0 42)|]; vm_compute; reflexivity.
Qed.

Lemma epoch_covers_dataset_witness : ∃ groups bs l', stream 3 toy_loader = (Ok bs, l') ∧
  batches_of 0 2 groups bs ∧ concat groups ≡ₚ toy_dataset ∧
  loader_wf l' ∧ loader_setup l' = loader_setup toy_loader ∧
  ld_state l' = mk_loader_state 0 5 42 ∧ position l' = (1%N, 0).
Proof.
  apply (epoch_covers_dataset toy_loader); [apply loader_reachable_wf, toy_loader_reachable|apply toy_aligned|by vm_compute..].
Defined.

(** The loader three batches later, and a fresh one. *)
Definition toy_later : SftLoader := (stream 3 toy_loader).2.

Lemma toy_later_reachable : loader_reachable toy_later.
Proof.
  assert (∀ n l, loader_reachable l → (∃ bs, (stream n l).1 = Ok bs) → loader_reachable (stream n l).2) as Hall.
  { induction n as [|n IH]; intros l Hl; [done|]. rewrite stream_S. unfold mbind'.
    destruct (next_global l) as [[b|e|p] l1] eqn:E; [|by intros [? [=]]..]. intros [bs Hbs].
    specialize (IH l1 (lr_global _ _ _ Hl E)). destruct (stream n l1) as [[bs'|e|p] l2]; [|done..]. apply IH. by eexists. }
  apply Hall; [apply toy_loader_reachable|]. eexists. vm_compute. reflexivity.
Qed.

Lemma restored_loader_resumes_witness : restore_loader (loader_state toy_later) toy_loader = (Ok tt, toy_later).
Proof.
  exact (restored_loader_resumes toy_later toy_loader toy_later_reachable toy_loader_reachable eq_refl).
Defined.

Lemma shards_split_stream_witness : ∃ gs bs, (stream (2 * 2) toy_loader).1 = Ok gs ∧
  mmap (seq 0 2) (λ _, next_batch) (set_shard 1 2 toy_loader) = (Ok bs, set_shard 1 2 (stream (2 * 2) toy_loader).2) ∧
  length bs = 2 ∧ ∀ i, i < 2 → bs !! i = gs !! (i * 2 + 1).
Proof.
  destruct (stream (2 * 2) toy_loader) as [[gs|e|p] l'] eqn:E; [|by vm_compute in E..].
  destruct (shards_split_stream 2 2 toy_loader gs l' E 1 ltac:(lia)) as (bs & H1 & H2 & H3).
  exists gs, bs. split; [reflexivity|]. split; [exact H1|]. split; [exact H2|exact H3].
Defined.
