(* ===== verification/TrainDisk.v ===== *)
(** * The checkpoint directory

    What std::fs shows of the directory a trainer saves to: files, and directories
    of files.  Every call may fail; the faults to come are part of the state. *)
From S2P Require Import Prelude PagedKv GenerationControl.
Open Scope nat_scope.
Open Scope list_scope.
Open Scope m_scope.

Notation Bytes := (list Byte.byte).

Inductive Node := FileNode (bytes : Bytes) | DirNode (files : gmap string Bytes).

(** A failing call: its message, what a write has put down before it, and what the
    removal of a directory has removed. *)
Record ck_fault := mk_ck_fault { cf_message : string; cf_written : nat; cf_removed : list string }.

(** The directory, [None] before it is created, and the faults to come. *)
Record CkDisk := mk_ck_disk { ck_root : option (gmap string Node); ck_faults : list (option ck_fault) }.

Definition set_root (entries : gmap string Node) (d : CkDisk) : CkDisk := mk_ck_disk (Some entries) (ck_faults d).

Notation DiskM := (M CkDisk string).

(** The next call's fault, if any. *)
Definition fs_next : DiskM (option ck_fault) := λ d,
  match ck_faults d with
  | [] => (Ok None, d)
  | fault :: rest => (Ok fault, mk_ck_disk (ck_root d) rest)
  end.

Definition fs_try : DiskM unit :=
  let! fault := fs_next in
  match fault with Some f => mthrow (cf_message f) | None => mret tt end.

Definition not_found : string := "No such file or directory (os error 2)".
Definition file_exists : string := "File exists (os error 17)".
Definition not_directory : string := "Not a directory (os error 20)".
Definition is_directory : string := "Is a directory (os error 21)".
Definition not_empty : string := "Directory not empty (os error 39)".

Definition fs_entries : DiskM (gmap string Node) := let! d := mget in mok_or (ck_root d) not_found.

Definition fs_dir (name : string) : DiskM (gmap string Bytes) :=
  let! entries := fs_entries in
  match entries !! name with
  | None => mthrow not_found
  | Some (FileNode _) => mthrow not_directory
  | Some (DirNode files) => mret files
  end.

Definition put_node (name : string) (node : Node) : DiskM unit :=
  let! entries := fs_entries in mmodify (set_root (<[name := node]> entries)).

(** ** Directories *)

(** [fs::create_dir_all(root)] *)
Definition fs_create_root : DiskM unit :=
  fs_try ;;;
  let! d := mget in
  match ck_root d with None => mmodify (set_root ∅) | Some _ => mret tt end.

(** [Path::exists]: a failing query answers no. *)
Definition fs_exists (name : string) : DiskM bool :=
  let! fault := fs_next in
  let! d := mget in
  mret (match fault, ck_root d with None, Some entries => bool_decide (is_Some (entries !! name)) | _, _ => false end).

(** [Path::is_file] *)
Definition fs_is_file (name : string) : DiskM bool :=
  let! fault := fs_next in
  let! d := mget in
  mret (match fault, ck_root d ≫= lookup name with None, Some (FileNode _) => true | _, _ => false end).

Definition fs_create_dir (name : string) : DiskM unit :=
  fs_try ;;;
  let! entries := fs_entries in
  match entries !! name with Some _ => mthrow file_exists | None => put_node name (DirNode ∅) end.

Definition without (removed : list string) (files : gmap string Bytes) : gmap string Bytes :=
  foldr delete files removed.

(** [fs::remove_dir_all]: a failure may leave a part. *)
Definition fs_remove_dir_all (name : string) : DiskM unit :=
  let! fault := fs_next in
  let! files := fs_dir name in
  match fault with
  | Some f => put_node name (DirNode (without (cf_removed f) files)) ;;; mthrow (cf_message f)
  | None => let! entries := fs_entries in mmodify (set_root (delete name entries))
  end.

(** [fs::rename] of a directory *)
Definition fs_rename_dir (from to : string) : DiskM unit :=
  fs_try ;;;
  let! files := fs_dir from in
  let! entries := fs_entries in
  match entries !! to with
  | Some (FileNode _) => mthrow not_directory
  | Some (DirNode present) =>
      if decide (present = ∅) then mmodify (set_root (<[to := DirNode files]> (delete from entries))) else mthrow not_empty
  | None => mmodify (set_root (<[to := DirNode files]> (delete from entries)))
  end.

(** [fs::read_dir]: the entries, in no particular order, and whether they are
    directories. *)
Definition fs_read_dir : DiskM (list (string * bool)) :=
  fs_try ;;;
  let! entries := fs_entries in
  mret ((λ e, (e.1, match e.2 with DirNode _ => true | FileNode _ => false end)) <$> map_to_list entries).

(** ** Files *)
Inductive Place := InRoot (name : string) | InDir (dir name : string).

Definition get_file (place : Place) : DiskM Bytes :=
  match place with
  | InRoot name =>
      let! entries := fs_entries in
      match entries !! name with
      | None => mthrow not_found
      | Some (DirNode _) => mthrow is_directory
      | Some (FileNode bytes) => mret bytes
      end
  | InDir dir name => let! files := fs_dir dir in mok_or (files !! name) not_found
  end.

Definition put_file (place : Place) (bytes : Bytes) : DiskM unit :=
  match place with
  | InRoot name =>
      let! entries := fs_entries in
      match entries !! name with
      | Some (DirNode _) => mthrow is_directory
      | _ => put_node name (FileNode bytes)
      end
  | InDir dir name => let! files := fs_dir dir in put_node dir (DirNode (<[name := bytes]> files))
  end.

Definition fs_read (place : Place) : DiskM Bytes := fs_try ;;; get_file place.

(** [File::create] *)
Definition fs_create (place : Place) : DiskM unit := fs_try ;;; put_file place [].

(** Writes to an open file: one that fails leaves a part of the bytes. *)
Definition fs_append (place : Place) (bytes : Bytes) : DiskM unit :=
  let! fault := fs_next in
  let! present := get_file place in
  match fault with
  | Some f => put_file place (present ++ take (cf_written f) bytes) ;;; mthrow (cf_message f)
  | None => put_file place (present ++ bytes)
  end.

(** [fs::write] *)
Definition fs_write (place : Place) (bytes : Bytes) : DiskM unit := fs_create place ;;; fs_append place bytes.

(** [fs::rename] and [fs::remove_file] inside a directory *)
Definition fs_rename_file (dir from to : string) : DiskM unit :=
  fs_try ;;;
  let! files := fs_dir dir in
  let! bytes := mok_or (files !! from) not_found in
  put_node dir (DirNode (<[to := bytes]> (delete from files))).

Definition fs_remove_file (dir name : string) : DiskM unit :=
  fs_try ;;;
  let! files := fs_dir dir in
  let! _ := mok_or (files !! name) not_found in
  put_node dir (DirNode (delete name files)).

(** ** The checkpoint directory without faults

    What each call does to a directory when no call fails, as equations. *)

(** A directory whose calls all succeed. *)
Definition clean (entries : gmap string Node) : CkDisk := mk_ck_disk (Some entries) [].

Section Runs.
Implicit Types entries : gmap string Node.
Implicit Types files : gmap string Bytes.

Lemma fs_next_run entries : fs_next (clean entries) = (Ok None, clean entries).
Proof. done. Qed.
Lemma fs_try_run entries : fs_try (clean entries) = (Ok tt, clean entries).
Proof. done. Qed.

Lemma fs_dir_run name entries files : entries !! name = Some (DirNode files) → fs_dir name (clean entries) = (Ok files, clean entries).
Proof. intros Hf. unfold fs_dir, fs_entries, mbind', mget, mok_or. simpl. by rewrite Hf. Qed.

Lemma put_node_run name node entries : put_node name node (clean entries) = (Ok tt, clean (<[name := node]> entries)).
Proof. done. Qed.

Lemma fs_create_root_run d : ck_faults d = [] → fs_create_root d = (Ok tt, clean (default ∅ (ck_root d))).
Proof. destruct d as [[entries|] faults]; simpl; by intros ->. Qed.

Lemma fs_exists_run name entries : fs_exists name (clean entries) = (Ok (bool_decide (is_Some (entries !! name))), clean entries).
Proof. done. Qed.

Lemma fs_is_file_run name bytes entries : entries !! name = Some (FileNode bytes) →
  fs_is_file name (clean entries) = (Ok true, clean entries).
Proof. intros Hf. unfold fs_is_file, mbind', fs_next, mget, mret. simpl. by rewrite Hf. Qed.

Lemma fs_create_dir_run name entries : entries !! name = None →
  fs_create_dir name (clean entries) = (Ok tt, clean (<[name := DirNode ∅]> entries)).
Proof. intros Hf. unfold fs_create_dir, fs_try, fs_entries, fs_next, mbind', mget, mok_or, mret. simpl. by rewrite Hf. Qed.

Lemma fs_remove_dir_all_run name entries files : entries !! name = Some (DirNode files) →
  fs_remove_dir_all name (clean entries) = (Ok tt, clean (delete name entries)).
Proof. intros Hf. unfold fs_remove_dir_all, mbind'. by rewrite fs_next_run, (fs_dir_run _ _ _ Hf). Qed.

Lemma fs_rename_dir_run from to entries files : entries !! from = Some (DirNode files) → entries !! to = None →
  fs_rename_dir from to (clean entries) = (Ok tt, clean (<[to := DirNode files]> (delete from entries))).
Proof.
  intros Hf Ht. unfold fs_rename_dir, mbind'. rewrite fs_try_run, (fs_dir_run _ _ _ Hf).
  unfold fs_entries, mget, mbind', mok_or. simpl. by rewrite Ht.
Qed.

Lemma put_in_dir dir name bytes entries files : entries !! dir = Some (DirNode files) →
  put_file (InDir dir name) bytes (clean entries) = (Ok tt, clean (<[dir := DirNode (<[name := bytes]> files)]> entries)).
Proof. intros Hf. unfold put_file, mbind'. by rewrite (fs_dir_run _ _ _ Hf). Qed.

Lemma get_in_dir dir name bytes entries files : entries !! dir = Some (DirNode files) → files !! name = Some bytes →
  get_file (InDir dir name) (clean entries) = (Ok bytes, clean entries).
Proof. intros Hf Hn. unfold get_file, mbind'. rewrite (fs_dir_run _ _ _ Hf). unfold mok_or. by rewrite Hn. Qed.

Lemma fs_read_in_dir dir name bytes entries files : entries !! dir = Some (DirNode files) → files !! name = Some bytes →
  fs_read (InDir dir name) (clean entries) = (Ok bytes, clean entries).
Proof. intros Hf Hn. unfold fs_read, mbind'. by rewrite fs_try_run, (get_in_dir _ _ _ _ _ Hf Hn). Qed.

Lemma fs_create_in_dir dir name entries files : entries !! dir = Some (DirNode files) →
  fs_create (InDir dir name) (clean entries) = (Ok tt, clean (<[dir := DirNode (<[name := []]> files)]> entries)).
Proof. intros Hf. unfold fs_create, mbind'. by rewrite fs_try_run, (put_in_dir _ _ _ _ _ Hf). Qed.

Lemma fs_append_in_dir dir name present bytes entries files : entries !! dir = Some (DirNode files) → files !! name = Some present →
  fs_append (InDir dir name) bytes (clean entries) =
    (Ok tt, clean (<[dir := DirNode (<[name := present ++ bytes]> files)]> entries)).
Proof.
  intros Hf Hn. unfold fs_append, mbind'. rewrite fs_next_run, (get_in_dir _ _ _ _ _ Hf Hn). by rewrite (put_in_dir _ _ _ _ _ Hf).
Qed.

Lemma fs_write_in_dir dir name bytes entries files : entries !! dir = Some (DirNode files) →
  fs_write (InDir dir name) bytes (clean entries) = (Ok tt, clean (<[dir := DirNode (<[name := bytes]> files)]> entries)).
Proof.
  intros Hf. unfold fs_write, mbind'. rewrite (fs_create_in_dir _ _ _ _ Hf).
  rewrite (fs_append_in_dir dir name [] bytes _ (<[name := []]> files)) by (by rewrite lookup_insert_eq).
  by rewrite !insert_insert_eq.
Qed.

Lemma fs_rename_file_run dir from to bytes entries files : entries !! dir = Some (DirNode files) → files !! from = Some bytes →
  fs_rename_file dir from to (clean entries) =
    (Ok tt, clean (<[dir := DirNode (<[to := bytes]> (delete from files))]> entries)).
Proof.
  intros Hf Hn. unfold fs_rename_file, mbind'. rewrite fs_try_run, (fs_dir_run _ _ _ Hf).
  unfold mok_or. by rewrite Hn.
Qed.

(** A file of the directory itself. *)
Definition plain_file entries (name : string) : Prop := ∀ files, entries !! name ≠ Some (DirNode files).

Lemma fs_write_in_root name bytes entries : plain_file entries name →
  fs_write (InRoot name) bytes (clean entries) = (Ok tt, clean (<[name := FileNode bytes]> entries)).
Proof.
  intros Hf. assert (∀ e, plain_file e name → put_file (InRoot name) [] (clean e) = (Ok tt, clean (<[name := FileNode []]> e))) as Hc.
  { intros e He. unfold put_file, fs_entries, mbind', mget, mok_or. simpl.
    destruct (e !! name) as [[b|files]|] eqn:E; [done|by destruct (He files)|done]. }
  unfold fs_write, fs_create, mbind'. rewrite fs_try_run, Hc by done. unfold fs_append, mbind'. rewrite fs_next_run.
  unfold get_file, put_file, fs_entries, put_node, mbind', mget, mok_or, mmodify, mret, set_root. cbn [ck_root clean].
  rewrite lookup_insert_eq. cbn. rewrite lookup_insert_eq. cbn. unfold clean, fs_entries, mget, mok_or, mbind'. cbn.
  by rewrite insert_insert_eq.
Qed.

Lemma fs_read_in_root name bytes entries : entries !! name = Some (FileNode bytes) →
  fs_read (InRoot name) (clean entries) = (Ok bytes, clean entries).
Proof.
  intros Hf. unfold fs_read, fs_try, fs_next, get_file, fs_entries, mbind', mget, mok_or, mret. simpl. by rewrite Hf.
Qed.
End Runs.
