(* ===== verification/Safetensors.v ===== *)
(** * Trainable parameters on disk

    The Safetensors files of src/src/training/export.rs and the checkpointing of a
    module's float parameters of src/src/training/trainer.rs. *)
From S2P Require Import Prelude PagedKv GenerationControl TrainData TrainDisk.
Open Scope nat_scope.
Open Scope list_scope.
Open Scope m_scope.

(** ** Data of other crates *)

(** The element types the files name, and any other by its [Debug] text. *)
Inductive DType := F32 | F16 | BF16 | F64 | I64 | I32 | U8 | OtherType (text : string).
#[export] Instance DType_eq_dec : EqDecision DType.
Proof. solve_decision. Defined.

(** Tensors as host data, [serde_json::Value] with its constructors and accessors, the
    text of a JSON object, and parameter identifiers. *)
Class CheckpointData := {
  TensorData : Type;
  data_bytes : TensorData → Bytes;
  data_shape : TensorData → list nat;
  data_dtype : TensorData → DType;
  from_bytes_vec : Bytes → list nat → DType → option TensorData;
  Json : Type;
  json_string : string → Json;
  json_usize : nat → Json;
  json_array : list Json → Json;
  json_object : list (string * Json) → Json;
  json_index : Json → string → Json;
  json_as_str : Json → option string;
  json_as_usizes : Json → option (list nat);
  header_text : gmap string Json → Bytes;
  parse_header : Bytes → option (gmap string Json);
  ParamId : Type;
  id_serialize : ParamId → string;
  id_deserialize : string → option ParamId
}.

(** ** Numbers and names *)

(** [u64::to_le_bytes] and [u64::from_le_bytes] *)
Definition byte_of_N (n : N) : Byte.byte := default Byte.x00 (Byte.of_N (n mod 256)).
Fixpoint le_bytes (count : nat) (n : N) : Bytes :=
  match count with 0 => [] | S count => byte_of_N n :: le_bytes count (n / 256) end.
Fixpoint from_le_bytes (bytes : Bytes) : N :=
  match bytes with [] => 0 | b :: bytes => (Byte.to_N b + 256 * from_le_bytes bytes)%N end.

(** [{:0w}] of a number: [w] digits, or all of them when there are more. *)
Fixpoint last_digits (w : nat) (n : N) (tail : string) : string :=
  match w with
  | 0 => tail
  | S w => last_digits w (n / 10) (String (Ascii.ascii_of_N (48 + n mod 10)) tail)
  end.
Definition zero_padded (w : nat) (n : nat) : string :=
  if decide (N.of_nat n < 10 ^ N.of_nat w)%N then last_digits w (N.of_nat n) EmptyString else pretty (N.of_nat n).

(** [str::split_once] *)
Fixpoint split_once (c : Ascii.ascii) (s : string) : option (string * string) :=
  match s with
  | EmptyString => None
  | String x s =>
      if decide (x = c) then Some (EmptyString, s)
      else match split_once c s with Some (a, b) => Some (String x a, b) | None => None end
  end.

(** [str]'s order, by bytes *)
Fixpoint name_leb (a b : string) : bool :=
  match a, b with
  | EmptyString, _ => true
  | String _ _, EmptyString => false
  | String x a, String y b =>
      if decide (x = y) then name_leb a b else (Ascii.N_of_ascii x <? Ascii.N_of_ascii y)%N
  end.
Definition name_le {V} : relation (string * V) := λ a b, name_leb a.1 b.1 = true.
#[export] Instance name_le_dec {V} : RelDecision (@name_le V).
Proof. intros a b. unfold name_le. apply _. Defined.

(** A [BTreeMap] in order, and a vector sorted by name. *)
Definition name_iter {V} (m : gmap string V) : list (string * V) := merge_sort name_le (map_to_list m).
Definition sort_by_name {V} (l : list (string * V)) : list (string * V) := merge_sort name_le l.

(** The last dot of a file name, unless it starts the name. *)
Fixpoint stem (name : string) : option string :=
  match name with
  | EmptyString => None
  | String c rest =>
      match stem rest with
      | Some s => Some (String c s)
      | None => if decide (c = Ascii.Ascii false true true true false true false false) then Some EmptyString else None
      end
  end.
Definition with_extension (name extension : string) : string :=
  match stem name with
  | Some EmptyString | None => name +:+ "." +:+ extension
  | Some s => s +:+ "." +:+ extension
  end.

Section Safetensors.
Context `{CheckpointData}.

(** ** Writing (export.rs) *)
Definition safetensors_dtype (dtype : DType) : res string string :=
  match dtype with
  | F32 => Ok "F32" | F16 => Ok "F16" | BF16 => Ok "BF16" | F64 => Ok "F64"
  | I64 => Ok "I64" | I32 => Ok "I32" | U8 => Ok "U8"
  | OtherType text => Err ("dtype " +:+ text +:+ " cannot be written to Safetensors")
  end%string.

(** The header entry of one tensor. *)
Definition tensor_entry (dtype : string) (shape : list nat) (start finish : nat) : Json :=
  json_object [("dtype", json_string dtype); ("shape", json_array (json_usize <$> shape));
    ("data_offsets", json_array [json_usize start; json_usize finish])]%string.

Fixpoint header_loop (tensors : list (string * TensorData)) (offset : nat) (header : gmap string Json) :
    res string (gmap string Json) :=
  match tensors with
  | [] => Ok header
  | (name, data) :: rest =>
      do? dtype := safetensors_dtype (data_dtype data) in
      do? finish := expect Overflow (usize_add offset (length (data_bytes data))) in
      header_loop rest finish (<[name := tensor_entry dtype (data_shape data) offset finish]> header)
  end.

Definition metadata_json (metadata : list (string * string)) : Json :=
  json_object ((λ entry, (entry.1, json_string entry.2)) <$> metadata).

Definition pad_header (header : Bytes) : Bytes := header ++ replicate ((8 - length header mod 8) mod 8) Byte.x20.

Definition safetensors_header (tensors : list (string * TensorData)) (metadata : list (string * string)) : res string Bytes :=
  let header := if decide (metadata = []) then ∅ else <["__metadata__" := metadata_json metadata]> ∅ in
  do? header := header_loop tensors 0 header in
  Ok (pad_header (header_text header)).

Definition safetensors_bytes (header : Bytes) (tensors : list (string * TensorData)) : Bytes :=
  le_bytes 8 (N.of_nat (length header)) ++ header ++ concat (data_bytes <$> tensors.*2).

(** The closure [write]: a buffered file whose writes reach the disk as one. *)
Definition write_temporary (dir temporary name : string) (bytes : Bytes) : DiskM unit :=
  fs_create (InDir dir temporary) ;;;
  fs_append (InDir dir temporary) bytes ;;;
  fs_try ;;;
  fs_rename_file dir temporary name.

(** [let _ = m]: what [m] answers is ignored. *)
Definition ignoring (m : DiskM unit) : DiskM unit := mcatch m (λ _, mret tt).

Definition write_safetensors (dir name : string) (tensors : list (string * TensorData)) (metadata : list (string * string)) :
    DiskM unit :=
  let! header := mlift (safetensors_header tensors metadata) in
  let temporary := with_extension name "safetensors.tmp" in
  mcatch (write_temporary dir temporary name (safetensors_bytes header tensors)) (λ e,
    ignoring (fs_remove_file dir temporary) ;;;
    mthrow ("cannot write " +:+ dir +:+ "/" +:+ name +:+ ": " +:+ e)).

(** ** Reading (trainer.rs) *)

Definition json_as_pair (v : Json) : option (nat * nat) :=
  match json_as_usizes v with Some [a; b] => Some (a, b) | _ => None end.

Definition stored_dtype (name : string) (v : Json) : res string DType :=
  match json_as_str v with
  | Some s =>
      if String.eqb s "F32" then Ok F32 else if String.eqb s "F16" then Ok F16
      else if String.eqb s "BF16" then Ok BF16 else if String.eqb s "F64" then Ok F64
      else Err (name +:+ ": unsupported checkpoint dtype Some(" +:+ debug s +:+ ")")
  | None => Err (name +:+ ": unsupported checkpoint dtype None")
  end.

Definition invalid_file (path : string) : string := path +:+ " is not a valid Safetensors file".

(** One tensor of the header. *)
Definition read_tensor (path : string) (bytes : Bytes) (body : nat) (name : string) (entry : Json) : res string TensorData :=
  do? dtype := stored_dtype name (json_index entry "dtype") in
  do? shape := ok_or (json_as_usizes (json_index entry "shape")) (invalid_file path) in
  do? offsets := ok_or (json_as_pair (json_index entry "data_offsets")) (invalid_file path) in
  do? start := expect Overflow (usize_add body offsets.1) in
  do? finish := expect Overflow (usize_add body offsets.2) in
  do? data := ok_or (slice start finish bytes) (invalid_file path) in
  expect Expect (from_bytes_vec data shape dtype).

Fixpoint read_tensors (path : string) (bytes : Bytes) (body : nat) (header : list (string * Json)) :
    res string (list (string * TensorData)) :=
  match header with
  | [] => Ok []
  | (name, entry) :: rest =>
      if String.eqb name "__metadata__" then read_tensors path bytes body rest
      else
        do? data := read_tensor path bytes body name entry in
        do? others := read_tensors path bytes body rest in
        Ok ((name, data) :: others)
  end.

Definition parse_safetensors (path : string) (bytes : Bytes) : res string (list (string * TensorData)) :=
  do? prefix := ok_or (slice 0 8 bytes) (invalid_file path) in
  do? body := ok_or (checked_add usize_max 8 (from_le_bytes prefix) ≫= λ body,
    if decide (body ≤ N.of_nat (length bytes))%N then Some (N.to_nat body) else None) (invalid_file path) in
  do? header_bytes := expect OutOfBounds (slice 8 body bytes) in
  do? header := ok_or (parse_header header_bytes) (invalid_file path) in
  read_tensors path bytes body (name_iter header).

Definition read_safetensors (dir name : string) : DiskM (list (string * TensorData)) :=
  let path := dir +:+ "/" +:+ name in
  let! bytes := mcatch (fs_read (InDir dir name)) (λ e, mthrow ("cannot read " +:+ path +:+ ": " +:+ e)) in
  mlift (parse_safetensors path bytes).

(** ** The float parameters of a module *)

(** A parameter, its tensor represented by the data it holds. *)
Record Param := mk_param { p_id : ParamId; p_data : TensorData; p_require_grad : bool }.

(** A module: its float parameters in the order of a visit, and the module with others
    in their places. *)
Class ModuleParams (T : Type) := { float_params : T → list Param; map_floats : T → list Param → T }.

(** The names of [ParamCollector]. *)
Definition param_name (index : nat) (id : ParamId) : string := zero_padded 6 index +:+ ":" +:+ id_serialize id.
Definition collect_params (params : list Param) : list (string * TensorData) :=
  imap (λ index p, (param_name index (p_id p), p_data p)) params.

Definition debug_shape (shape : list nat) : string :=
  "[" +:+ String.concat ", " ((λ n, pretty (N.of_nat n)) <$> shape) +:+ "]".

(** [ParamLoader::map_float]: the parameter, what is left to load, the first failure. *)
Definition colon : Ascii.ascii := Ascii.Ascii false true false true true true false false.
Definition fail_once (failure : option string) (e : string) : option string := Some (default e failure).

Definition load_param (p : Param) (stored : list (string * TensorData)) (failure : option string) :
    Param * list (string * TensorData) * option string :=
  match stored with
  | [] => (p, [], fail_once failure "checkpoint has fewer tensors than the module")
  | (name, data) :: rest =>
      if decide (data_shape data ≠ data_shape (p_data p)) then
        (p, rest, fail_once failure (name +:+ ": stored shape " +:+ debug_shape (data_shape data) +:+
          " != parameter shape " +:+ debug_shape (data_shape (p_data p))))
      else
        match split_once colon name ≫= λ parts, id_deserialize parts.2 with
        | None => (p, rest, fail_once failure (name +:+ ": invalid parameter id"))
        | Some id => (mk_param id data (p_require_grad p), rest, failure)
        end
  end.

Fixpoint load_params (params : list Param) (stored : list (string * TensorData)) (failure : option string) :
    list Param * option string :=
  match params with
  | [] => ([], failure)
  | p :: rest =>
      let '(p, stored, failure) := load_param p stored failure in
      let '(rest, failure) := load_params rest stored failure in
      (p :: rest, failure)
  end.

Context {T : Type} {MP : ModuleParams T}.

Definition save_trainable (module : T) (dir name : string) : DiskM unit :=
  write_safetensors dir name (collect_params (float_params module)) [("format", "rullm-trainable")].

Definition load_trainable (module : T) (dir name : string) : DiskM T :=
  let! stored := read_safetensors dir name in
  let stored := sort_by_name stored in
  let expected := length (float_params module) in
  if decide (expected ≠ length stored) then
    mthrow ("checkpoint " +:+ dir +:+ "/" +:+ name +:+ " holds " +:+ pretty (N.of_nat (length stored)) +:+
      " tensors, the module has " +:+ pretty (N.of_nat expected) +:+ " float parameters")
  else
    let '(params, failure) := load_params (float_params module) stored None in
    match failure with
    | Some e => mthrow e
    | None => mret (map_floats module params)
    end.
End Safetensors.
