(* ===== verification/SafetensorsSpec.v ===== *)
(** * What a checkpoint file guarantees

    The parameters of a module, written and read back into a module of the same
    shapes, are the parameters that were written. *)
From S2P Require Import Prelude PagedKv GenerationControl TrainData TrainDataSpec TrainDisk Safetensors.
Open Scope nat_scope.
Open Scope list_scope.
Open Scope m_scope.

(** ** Names *)
Lemma name_leb_refl a : name_leb a a = true.
Proof. induction a as [|x a IH]; simpl; [done|]. by rewrite decide_True. Qed.

Lemma name_leb_total a b : name_leb a b = true ∨ name_leb b a = true.
Proof.
  revert b. induction a as [|x a IH]; intros [|y b]; simpl; [by left..|by right|].
  destruct (decide (x = y)) as [->|Hxy]; [rewrite decide_True by done; apply IH|]. rewrite decide_False by done.
  assert (Ascii.N_of_ascii x ≠ Ascii.N_of_ascii y).
  { intros He. apply Hxy. rewrite <- (Ascii.ascii_N_embedding x), <- (Ascii.ascii_N_embedding y). by rewrite He. }
  rewrite !N.ltb_lt. lia.
Qed.

Lemma name_leb_antisym a b : name_leb a b = true → name_leb b a = true → a = b.
Proof.
  revert b. induction a as [|x a IH]; intros [|y b]; simpl; [done..|].
  destruct (decide (x = y)) as [->|Hxy]; [rewrite decide_True by done; intros; f_equal; by apply IH|].
  rewrite decide_False by done. rewrite !N.ltb_lt. lia.
Qed.

Lemma name_leb_trans a b c : name_leb a b = true → name_leb b c = true → name_leb a c = true.
Proof.
  revert b c. induction a as [|x a IH]; intros [|y b] [|z c]; simpl; [done..|].
  destruct (decide (x = y)) as [->|Hxy], (decide (y = z)) as [->|Hyz]; rewrite ?N.ltb_lt.
  - apply IH.
  - done.
  - intros ? _. rewrite decide_False by done. by apply N.ltb_lt.
  - intros. rewrite decide_False by (intros ->; lia). apply N.ltb_lt. lia.
Qed.

#[export] Instance name_le_total {V} : Total (@name_le V).
Proof. intros a b. apply name_leb_total. Qed.
#[export] Instance name_le_trans {V} : Transitive (@name_le V).
Proof. intros a b c. apply name_leb_trans. Qed.

Lemma digit_lt n : (48 + n mod 10 < 256)%N.
Proof. pose proof (N.mod_lt n 10). lia. Qed.

(** Equally many digits compare like the numbers, then what follows decides. *)
Lemma name_leb_digits w : ∀ a b s t, (a < 10 ^ N.of_nat w)%N → (b < 10 ^ N.of_nat w)%N →
  name_leb (last_digits w a s) (last_digits w b t) =
    if decide (a = b) then name_leb s t else (a <? b)%N.
Proof.
  induction w as [|w IH]; intros a b s t Ha Hb.
  { simpl in *. assert (a = b) as <- by lia. by rewrite decide_True. }
  rewrite Nat2N.inj_succ, N.pow_succ_r' in Ha, Hb. cbn [last_digits].
  rewrite IH by (apply N.Div0.div_lt_upper_bound; lia).
  pose proof (N.div_mod a 10 ltac:(done)). pose proof (N.div_mod b 10 ltac:(done)).
  pose proof (N.mod_lt a 10 ltac:(done)). pose proof (N.mod_lt b 10 ltac:(done)).
  destruct (decide (a / 10 = b / 10)%N) as [Hq|Hq].
  - cbn [name_leb]. destruct (decide (a = b)) as [<-|Hab]; [by rewrite decide_True|].
    rewrite decide_False.
    2:{ intros He%(f_equal Ascii.N_of_ascii). rewrite !Ascii.N_ascii_embedding in He by apply digit_lt. lia. }
    rewrite !Ascii.N_ascii_embedding by apply digit_lt. apply eq_true_iff_eq. rewrite !N.ltb_lt. lia.
  - rewrite decide_False by (intros ->; done). apply eq_true_iff_eq. rewrite !N.ltb_lt.
    split; intros; [|assert (a / 10 ≤ b / 10)%N by (apply N.Div0.div_le_mono; lia); lia].
    destruct (N.lt_ge_cases a b) as [|Hge]; [done|]. assert (b / 10 ≤ a / 10)%N by (apply N.Div0.div_le_mono; lia). lia.
Qed.

Lemma last_digits_app w n s t : last_digits w n (s +:+ t) = last_digits w n s +:+ t.
Proof. revert n s. induction w as [|w IH]; intros n s; simpl; [done|]. rewrite <- IH. done. Qed.

Lemma name_leb_below w : ∀ a s y rest, (48 <= Ascii.N_of_ascii y)%N → (57 < Ascii.N_of_ascii y)%N → w ≠ 0 →
  ∃ x tl, last_digits w a s = String x tl ∧ (Ascii.N_of_ascii x < Ascii.N_of_ascii y)%N ∧
    name_leb (last_digits w a s) (String y rest) = true.
Proof.
  assert (∀ w a s, w ≠ 0 → ∃ n tl, last_digits w a s = String (Ascii.ascii_of_N (48 + n mod 10)) tl) as Hhead.
  { clear w. induction w as [|w IH]; intros a s Hw; [done|]. cbn [last_digits].
    destruct w as [|w]; [by eexists _, _|]. apply IH. done. }
  intros a s y rest Hlo Hy Hw. destruct (Hhead w a s Hw) as (n & tl & E). rewrite E.
  assert (Ascii.N_of_ascii (Ascii.ascii_of_N (48 + n mod 10)) < Ascii.N_of_ascii y)%N as Hlt.
  { rewrite Ascii.N_ascii_embedding by apply digit_lt. pose proof (N.mod_lt n 10 ltac:(done)). lia. }
  eexists _, _. split; [done|]. split; [done|]. cbn [name_leb]. rewrite decide_False by (intros He; rewrite He in Hlt; lia).
  by apply N.ltb_lt.
Qed.

Lemma split_digits c w : (∀ n, Ascii.ascii_of_N (48 + n mod 10) ≠ c) → ∀ n s,
  split_once c (last_digits w n s) = match split_once c s with Some (a, b) => Some (last_digits w n a, b) | None => None end.
Proof.
  intros Hc. induction w as [|w IH]; intros n s; cbn [last_digits]; [by destruct (split_once c s) as [[? ?]|]|].
  rewrite IH. cbn [split_once]. rewrite decide_False by apply Hc. by destruct (split_once c s) as [[? ?]|].
Qed.

Lemma digit_not_colon n : Ascii.ascii_of_N (48 + n mod 10) ≠ colon.
Proof.
  intros He%(f_equal Ascii.N_of_ascii). rewrite Ascii.N_ascii_embedding in He by apply digit_lt.
  pose proof (N.mod_lt n 10 ltac:(done)) as Hm. change (Ascii.N_of_ascii colon) with 58%N in He. lia.
Qed.

(** The most parameters whose names are in order. *)
Definition name_limit : nat := N.to_nat 1000000.
Lemma name_limit_spec n : n < name_limit ↔ (N.of_nat n < 10 ^ N.of_nat 6)%N.
Proof. unfold name_limit. change (10 ^ N.of_nat 6)%N with 1000000%N. lia. Qed.
#[global] Opaque name_limit.

Definition metadata_name : string := "__metadata__".

Section Names.
Context `{CheckpointData}.

Lemma param_name_digits i id : i < name_limit → param_name i id = last_digits 6 (N.of_nat i) (":" +:+ id_serialize id).
Proof.
  intros Hi%name_limit_spec. unfold param_name, zero_padded. rewrite decide_True by done.
  by rewrite <- last_digits_app.
Qed.

Lemma param_name_lt i j a b : i < j → j < name_limit →
  name_leb (param_name i a) (param_name j b) = true ∧ param_name i a ≠ param_name j b.
Proof.
  intros Hij Hj. rewrite !param_name_digits by lia. pose proof (proj1 (name_limit_spec i) ltac:(lia)).
  apply name_limit_spec in Hj.
  assert (∀ x y s t, x < y → (N.of_nat y < 10 ^ N.of_nat 6)%N →
    name_leb (last_digits 6 (N.of_nat x) s) (last_digits 6 (N.of_nat y) t) = true) as Hlt.
  { intros x y s t Hxy Hy. rewrite name_leb_digits by lia. rewrite decide_False by lia. apply N.ltb_lt. lia. }
  split; [by apply Hlt|]. intros He.
  assert (name_leb (last_digits 6 (N.of_nat j) (":" +:+ id_serialize b)) (last_digits 6 (N.of_nat i) (":" +:+ id_serialize a)) = true)
    as Hback by (rewrite He; apply name_leb_refl).
  rewrite name_leb_digits, decide_False in Hback by lia. apply N.ltb_lt in Hback. lia.
Qed.

Lemma param_name_metadata i id : i < name_limit → name_leb (param_name i id) metadata_name = true ∧ param_name i id ≠ metadata_name.
Proof.
  intros Hi. rewrite param_name_digits by done.
  destruct (name_leb_below 6 (N.of_nat i) (":" +:+ id_serialize id) (Ascii.ascii_of_nat 95) "_metadata__")
    as (x & tl & E & Hx & Hle); [done|done|done|].
  split; [exact Hle|]. rewrite E. intros [= -> _]. revert Hx. vm_compute. done.
Qed.

Lemma param_name_split i id : i < name_limit → split_once colon (param_name i id) = Some (zero_padded 6 i, id_serialize id).
Proof.
  intros Hi. rewrite param_name_digits by done. rewrite split_digits by apply digit_not_colon. simpl.
  unfold zero_padded. by rewrite decide_True by (by apply name_limit_spec).
Qed.
End Names.

(** ** Sorted names *)
Definition name_lt {V} : relation (string * V) := λ a b, name_leb a.1 b.1 = true ∧ a.1 ≠ b.1.

Lemma name_lt_NoDup {V} (l : list (string * V)) : StronglySorted name_lt l → NoDup l.*1.
Proof.
  induction 1 as [|a l Hs IH Ha]; simpl; constructor; [|done]. intros (b & Hb & Hin)%list_elem_of_fmap.
  rewrite Forall_forall in Ha. by destruct (Ha b Hin).
Qed.

Lemma name_lt_le {V} (l : list (string * V)) : StronglySorted name_lt l → StronglySorted name_le l.
Proof. induction 1 as [|a l Hs IH Ha]; constructor; [done|]. eapply Forall_impl; [exact Ha|]. by intros b []. Qed.

(** A list in strict order is what sorting any permutation of it gives. *)
Lemma sort_unique {V} (l l' : list (string * V)) : StronglySorted name_lt l → l' ≡ₚ l → merge_sort name_le l' = l.
Proof.
  intros Hs Hp. apply (StronglySorted_unique_strong name_le).
  - intros a b Ha Hb H1 H2. rewrite merge_sort_Permutation, Hp in Ha. pose proof (name_lt_NoDup _ Hs) as Hnd.
    assert (a.1 = b.1) as He by (by apply name_leb_antisym). apply list_elem_of_lookup in Ha as [i Hi], Hb as [j Hj].
    assert (i = j) as <-; [|congruence]. apply (NoDup_lookup l.*1 i j a.1); [done|..]; rewrite list_lookup_fmap.
    + by rewrite Hi. + rewrite Hj. simpl. by rewrite He.
  - apply StronglySorted_merge_sort; apply _.
  - by apply name_lt_le.
  - by rewrite merge_sort_Permutation.
Qed.

Lemma StronglySorted_imap {A B} (R : relation B) (f : nat → A → B) (l : list A) :
  (∀ i j x y, i < j → l !! i = Some x → l !! j = Some y → R (f i x) (f j y)) → StronglySorted R (imap f l).
Proof.
  revert f. induction l as [|x l IH]; intros f Hf; [constructor|]. rewrite imap_cons. constructor.
  - apply IH. intros i j y z Hij Hy Hz. apply (Hf (S i) (S j)); [lia|done|done].
  - apply Forall_forall. intros y (i & Hy)%list_elem_of_lookup. rewrite list_lookup_imap in Hy.
    apply fmap_Some in Hy as (z & Hz & ->). apply (Hf 0 (S i)); [lia|done|done].
Qed.

Lemma StronglySorted_snoc {A} (R : relation A) l x : StronglySorted R l → Forall (λ y, R y x) l → StronglySorted R (l ++ [x]).
Proof.
  induction 1 as [|y l Hs IH Hy]; intros Hall; simpl; [by repeat constructor|].
  apply Forall_cons in Hall as [Hyx Hall]. constructor; [by apply IH|]. apply Forall_app. by repeat constructor.
Qed.

Lemma usize_add_fits a b : (N.of_nat (a + b) ≤ usize_max)%N → usize_add a b = Some (a + b).
Proof. intros Hf. by apply usize_add_Some. Qed.

(** ** Laws of the other crates *)
Section Laws.
Context `{CheckpointData}.

(** JSON without fractions. *)
Inductive integral : Json → Prop :=
| integral_string s : integral (json_string s)
| integral_usize n : (N.of_nat n ≤ usize_max)%N → integral (json_usize n)
| integral_array l : Forall integral l → integral (json_array l)
| integral_object fields : Forall (λ f, integral f.2) fields → integral (json_object fields).

Class CheckpointLaws : Prop := {
  cl_data d : from_bytes_vec (data_bytes d) (data_shape d) (data_dtype d) = Some d;
  cl_index fields k v : NoDup fields.*1 → (k, v) ∈ fields → json_index (json_object fields) k = v;
  cl_string s : json_as_str (json_string s) = Some s;
  cl_usizes l : Forall (λ n, (N.of_nat n ≤ usize_max)%N) l → json_as_usizes (json_array (json_usize <$> l)) = Some l;
  cl_header m n : map_Forall (λ _, integral) m → parse_header (header_text m ++ replicate n Byte.x20) = Some m;
  cl_id id : id_deserialize (id_serialize id) = Some id
}.
End Laws.
Arguments CheckpointLaws {_}.

(** ** Reading what was written *)
Section Roundtrip.
Context `{CheckpointLaws}.

(** Data [read_safetensors] reads. *)
Definition storable (d : TensorData) : Prop :=
  data_dtype d ∈ [F32; F16; BF16; F64] ∧ Forall (λ n, (N.of_nat n ≤ usize_max)%N) (data_shape d).

Definition dtype_name (d : DType) : string := match safetensors_dtype d with Ok s => s | _ => EmptyString end.

Lemma dtype_roundtrip name d : d ∈ [F32; F16; BF16; F64] →
  safetensors_dtype d = Ok (dtype_name d) ∧ stored_dtype name (json_string (dtype_name d)) = Ok d.
Proof.
  intros Hd. unfold stored_dtype. rewrite cl_string. rewrite !elem_of_cons, elem_of_nil in Hd.
  destruct Hd as [->|[->|[->|[->|[]]]]]; done.
Qed.

Fixpoint entry_list (tensors : list (string * TensorData)) (offset : nat) : list (string * Json) :=
  match tensors with
  | [] => []
  | (name, d) :: rest =>
      (name, tensor_entry (dtype_name (data_dtype d)) (data_shape d) offset (offset + length (data_bytes d))) ::
      entry_list rest (offset + length (data_bytes d))
  end.

Definition total_bytes (tensors : list (string * TensorData)) : nat := sum_list ((λ t, length (data_bytes t.2)) <$> tensors).

Lemma entry_list_names tensors offset : (entry_list tensors offset).*1 = tensors.*1.
Proof. revert offset. induction tensors as [|[n d] tensors IH]; intros offset; simpl; [done|]. by rewrite IH. Qed.

Lemma entry_list_sorted tensors offset : StronglySorted name_lt tensors → StronglySorted name_lt (entry_list tensors offset).
Proof.
  intros Hs. revert offset. induction Hs as [|[n d] tensors Hs IH Hn]; intros offset; simpl; constructor; [done|].
  assert (Forall (λ k, name_leb n k = true ∧ n ≠ k) (entry_list tensors (offset + length (data_bytes d))).*1) as Hall.
  { rewrite entry_list_names. by apply Forall_fmap. }
  by apply Forall_fmap in Hall.
Qed.

Lemma entry_integral dtype shape a b : Forall (λ n, (N.of_nat n ≤ usize_max)%N) shape → (N.of_nat a ≤ usize_max)%N →
  (N.of_nat b ≤ usize_max)%N → integral (tensor_entry dtype shape a b).
Proof.
  intros Hs Ha Hb. apply integral_object. repeat apply Forall_cons_2; simpl; [apply integral_string|..|by apply Forall_nil_2];
    apply integral_array.
  - apply Forall_fmap. eapply Forall_impl; [exact Hs|]. intros n Hn. by apply integral_usize.
  - repeat apply Forall_cons_2; [by apply integral_usize..|by apply Forall_nil_2].
Qed.

Lemma header_loop_list tensors : ∀ offset header, Forall (λ t, storable t.2) tensors → NoDup tensors.*1 →
  (∀ n, n ∈ tensors.*1 → header !! n = None) → (N.of_nat (offset + total_bytes tensors) ≤ usize_max)%N →
  map_Forall (λ _, integral) header →
  ∃ header', header_loop tensors offset header = Ok header' ∧
    map_to_list header' ≡ₚ entry_list tensors offset ++ map_to_list header ∧ map_Forall (λ _, integral) header'.
Proof.
  induction tensors as [|[n d] tensors IH]; intros offset header Hst Hnd Hfresh Hsize Hint; [by exists header|].
  apply Forall_cons in Hst as [[Hd Hshape] Hst]. apply NoDup_cons in Hnd as [Hn Hnd].
  change (total_bytes ((n, d) :: tensors)) with (length (data_bytes d) + total_bytes tensors) in Hsize. simpl in *.
  rewrite (proj1 (dtype_roundtrip n _ Hd)). simpl. rewrite usize_add_fits by lia. simpl.
  edestruct (IH (offset + length (data_bytes d)) (<[n := tensor_entry (dtype_name (data_dtype d)) (data_shape d) offset
    (offset + length (data_bytes d))]> header)) as (header' & Hrun & Hp & Hint'); [done|done| | | |].
  - intros k Hk. rewrite lookup_insert_ne by (intros ->; done). apply Hfresh. by right.
  - lia.
  - apply map_Forall_insert_2; [apply entry_integral; [done|lia|lia]|done].
  - exists header'. split; [done|]. split; [|done]. rewrite Hp, map_to_list_insert by (apply Hfresh; by left).
    symmetry. apply Permutation_middle.
Qed.

Lemma slice_middle {A} (pre mid rest : list A) : slice (length pre) (length pre + length mid) (pre ++ mid ++ rest) = Some mid.
Proof.
  unfold slice. rewrite decide_True by (rewrite !length_app; lia). f_equal.
  rewrite drop_app_length, Nat.add_comm, Nat.add_sub. apply take_app_length.
Qed.

Lemma entry_fields : NoDup ["dtype"; "shape"; "data_offsets"]%string.
Proof. apply (bool_decide_eq_true_1 _). by vm_compute. Qed.

Lemma read_tensor_entry path bytes pre rest body offset name d : storable d → bytes = pre ++ data_bytes d ++ rest →
  length pre = body + offset → (N.of_nat (length bytes) ≤ usize_max)%N →
  read_tensor path bytes body name
    (tensor_entry (dtype_name (data_dtype d)) (data_shape d) offset (offset + length (data_bytes d))) = Ok d.
Proof.
  intros [Hd Hshape] -> Hpre Hsize. rewrite !length_app in Hsize. unfold read_tensor, tensor_entry.
  rewrite (cl_index _ "dtype" (json_string (dtype_name (data_dtype d)))), (proj2 (dtype_roundtrip name _ Hd));
    [|apply entry_fields|by left]. simpl.
  rewrite (cl_index _ "shape" (json_array (json_usize <$> data_shape d))), cl_usizes;
    [|done|apply entry_fields|by right; left]. simpl.
  rewrite (cl_index _ "data_offsets" (json_array (json_usize <$> [offset; offset + length (data_bytes d)])));
    [|apply entry_fields|by right; right; left].
  unfold json_as_pair. rewrite cl_usizes by (repeat constructor; lia). simpl.
  rewrite !usize_add_fits by lia. simpl. rewrite <- Hpre, Nat.add_assoc, <- Hpre, slice_middle. simpl. by rewrite cl_data.
Qed.

Lemma read_tensors_entries path bytes body tail : ∀ tensors offset pre, Forall (λ t, storable t.2) tensors →
  Forall (λ t, t.1 ≠ metadata_name) tensors → bytes = pre ++ concat (data_bytes <$> tensors.*2) →
  length pre = body + offset → (N.of_nat (length bytes) ≤ usize_max)%N →
  read_tensors path bytes body (entry_list tensors offset ++ [(metadata_name, tail)]) = Ok tensors.
Proof.
  induction tensors as [|[n d] tensors IH]; intros offset pre Hst Hnm Hb Hpre Hsize; [done|].
  apply Forall_cons in Hst as [Hd Hst]. apply Forall_cons in Hnm as [Hn Hnm]. simpl in *.
  rewrite (proj2 (String.eqb_neq _ _)) by done.
  rewrite (read_tensor_entry path bytes pre (concat (data_bytes <$> tensors.*2)) body offset n d) by done. simpl.
  rewrite (IH (offset + length (data_bytes d)) (pre ++ data_bytes d)); [done|done|done| |rewrite length_app; lia|done].
  by rewrite Hb, <- app_assoc.
Qed.

Lemma byte_of_N_to n : Byte.to_N (byte_of_N n) = (n mod 256)%N.
Proof.
  unfold byte_of_N. pose proof (N.mod_lt n 256 ltac:(done)). destruct (Byte.of_N (n mod 256)) as [b|] eqn:E; simpl.
  - by apply Byte.to_of_N.
  - apply Byte.of_N_None_iff in E. lia.
Qed.

Lemma le_bytes_roundtrip count : ∀ n, (n < 256 ^ N.of_nat count)%N → from_le_bytes (le_bytes count n) = n.
Proof.
  induction count as [|count IH]; intros n Hn; [simpl in *; lia|]. rewrite Nat2N.inj_succ, N.pow_succ_r' in Hn.
  cbn [le_bytes from_le_bytes]. rewrite byte_of_N_to, IH by (apply N.Div0.div_lt_upper_bound; lia).
  pose proof (N.div_mod n 256 ltac:(done)). lia.
Qed.

Lemma le_bytes_length count n : length (le_bytes count n) = count.
Proof. revert n. induction count as [|count IH]; intros n; simpl; [done|]. by rewrite IH. Qed.

Lemma slice_prefix {A} (pre rest : list A) n : length pre = n → slice 0 n (pre ++ rest) = Some pre.
Proof. intros <-. exact (slice_middle [] pre rest). Qed.

(** A file of sorted tensors is read back as they are. *)
Lemma written_parsed path tensors metadata : metadata ≠ [] → Forall (λ t, storable t.2) tensors → StronglySorted name_lt tensors →
  Forall (λ t, name_leb t.1 metadata_name = true ∧ t.1 ≠ metadata_name) tensors →
  (N.of_nat (total_bytes tensors) ≤ usize_max)%N →
  ∃ header, safetensors_header tensors metadata = Ok header ∧
    ((N.of_nat (length (safetensors_bytes header tensors)) ≤ usize_max)%N →
     parse_safetensors path (safetensors_bytes header tensors) = Ok tensors).
Proof.
  intros Hmeta Hst Hs Hn Htotal.
  destruct (header_loop_list tensors 0 (<["__metadata__"%string := metadata_json metadata]> ∅)) as (m & Hrun & Hp & Hint);
    [done|by apply name_lt_NoDup| |done| |].
  { intros n Hin. rewrite lookup_insert_ne; [done|]. intros <-. apply list_elem_of_fmap in Hin as (t & Ht & Hin).
    rewrite Forall_forall in Hn. by destruct (Hn t Hin). }
  { apply map_Forall_insert_2; [|apply map_Forall_empty]. apply integral_object, Forall_fmap. apply Forall_true. intros e. apply integral_string. }
  assert (name_iter m = entry_list tensors 0 ++ [(metadata_name, metadata_json metadata)]) as Hiter.
  { apply sort_unique.
    - apply StronglySorted_snoc; [by apply entry_list_sorted|].
      assert (Forall (λ k, name_leb k metadata_name = true ∧ k ≠ metadata_name) (entry_list tensors 0).*1) as Hk
        by (rewrite entry_list_names; by apply Forall_fmap).
      by apply Forall_fmap in Hk.
    - etrans; [exact Hp|]. by rewrite map_to_list_insert, map_to_list_empty. }
  exists (pad_header (header_text m)). split.
  { unfold safetensors_header. rewrite decide_False by done. rewrite Hrun. done. }
  set (header := pad_header (header_text m)). unfold safetensors_bytes.
  assert (length (le_bytes 8 (N.of_nat (length header))) = 8) as Hpre by apply le_bytes_length.
  pose proof (λ Hlt, le_bytes_roundtrip 8 (N.of_nat (length header)) Hlt) as Hle. revert Hpre Hle.
  generalize (le_bytes 8 (N.of_nat (length header))) as pre. intros pre Hpre Hle. rewrite !length_app. intros Hsize.
  unfold parse_safetensors. rewrite slice_prefix by done. simpl.
  rewrite Hle by (change (256 ^ N.of_nat 8)%N with (2 ^ 64)%N; unfold usize_max in Hsize; lia).
  unfold checked_add. rewrite decide_True by lia. simpl. rewrite decide_True by (rewrite !length_app; lia).
  cbn [option_bind mbind ok_or res_bind]. replace (N.to_nat (8 + N.of_nat (length header))) with (8 + length header) by lia.
  pose proof (slice_middle pre header (concat (data_bytes <$> tensors.*2))) as Hsl.
  rewrite Hpre in Hsl. rewrite Hsl. cbn [expect res_bind].
  assert (parse_header header = Some m) as -> by (by apply cl_header). cbn [ok_or res_bind]. rewrite Hiter.
  apply (read_tensors_entries _ _ _ _ _ _ (pre ++ header)); [done| |by rewrite <- app_assoc| |].
  - eapply Forall_impl; [exact Hn|]. by intros t [].
  - rewrite length_app. lia.
  - rewrite !length_app. lia.
Qed.

(** ** Parameters *)
Implicit Types ps : list Param.

Lemma collect_sorted ps : length ps ≤ name_limit → StronglySorted name_lt (collect_params ps).
Proof.
  intros Hl. apply StronglySorted_imap. intros i j x y Hij _ Hy%lookup_lt_Some. by apply param_name_lt; [|lia].
Qed.

Lemma collect_Forall (P : string * TensorData → Prop) ps :
  (∀ i p, ps !! i = Some p → P (param_name i (p_id p), p_data p)) → Forall P (collect_params ps).
Proof.
  intros HP. apply Forall_lookup. intros i t Ht. unfold collect_params in Ht. rewrite list_lookup_imap in Ht.
  apply fmap_Some in Ht as (p & Hp & ->). by apply HP.
Qed.

(** [p0] loaded from what [p] saved. *)
Definition loaded (p p0 : Param) : Param := mk_param (p_id p) (p_data p) (p_require_grad p0).
Definition same_shape (p p0 : Param) : Prop := data_shape (p_data p) = data_shape (p_data p0).

Lemma load_params_exact ps ps0 : Forall2 same_shape ps ps0 → ∀ k, k + length ps ≤ name_limit →
  load_params ps0 (imap (λ i p, (param_name (k + i) (p_id p), p_data p)) ps) None = (zip_with loaded ps ps0, None).
Proof.
  induction 1 as [|p p0 ps ps0 Hp Hps IH]; intros k Hk; [done|]. simpl in Hk. rewrite imap_cons. cbn [load_params load_param].
  rewrite decide_False by (intros Hn; by apply Hn). rewrite Nat.add_0_r, param_name_split by lia. simpl. rewrite cl_id.
  rewrite (imap_ext _ (λ i p, (param_name (S k + i) (p_id p), p_data p))) by (intros i x _; simpl; do 2 f_equal; lia).
  by rewrite IH by lia.
Qed.

Context {T : Type} {MP : ModuleParams T}.

(** A module that can be saved and read back. *)
Record savable (m : T) : Prop := {
  sv_data : Forall (λ p, storable (p_data p)) (float_params m);
  sv_count : length (float_params m) ≤ name_limit;
  sv_size : (N.of_nat (total_bytes (collect_params (float_params m))) ≤ usize_max)%N;
  sv_file header : safetensors_header (collect_params (float_params m)) [("format", "rullm-trainable")]%string = Ok header →
    (N.of_nat (length (safetensors_bytes header (collect_params (float_params m)))) ≤ usize_max)%N
}.

(** The file [save_trainable] writes. *)
Definition saved_file (m : T) (bytes : Bytes) : Prop :=
  ∃ header, safetensors_header (collect_params (float_params m)) [("format", "rullm-trainable")]%string = Ok header ∧
    bytes = safetensors_bytes header (collect_params (float_params m)).

Lemma saved_file_exists m : savable m → ∃ bytes, saved_file m bytes ∧
  ∀ path, parse_safetensors path bytes = Ok (collect_params (float_params m)).
Proof.
  intros Hsv. pose proof (λ path, written_parsed path (collect_params (float_params m)) [("format", "rullm-trainable")]%string) as Hw.
  assert (∀ path, ∃ header, safetensors_header (collect_params (float_params m)) [("format", "rullm-trainable")]%string = Ok header ∧
    parse_safetensors path (safetensors_bytes header (collect_params (float_params m))) = Ok (collect_params (float_params m))) as Hp.
  { intros path. destruct (Hw path) as (header & Hh & Hparse); [done| |by apply collect_sorted, Hsv| |apply Hsv|].
    - apply collect_Forall. intros i p Hi. pose proof (sv_data _ Hsv) as Hd. rewrite Forall_lookup in Hd. by apply (Hd i).
    - apply collect_Forall. intros i p Hi%lookup_lt_Some. apply param_name_metadata. pose proof (sv_count _ Hsv). lia.
    - exists header. split; [done|]. by apply Hparse, (sv_file _ Hsv). }
  destruct (Hp EmptyString) as (header & Hh & _). exists (safetensors_bytes header (collect_params (float_params m))).
  split; [by exists header|]. intros path. destruct (Hp path) as (header' & Hh' & Hparse). by rewrite Hh in Hh'; injection Hh' as <-.
Qed.

Lemma save_trainable_run m bytes dir name entries files : saved_file m bytes → entries !! dir = Some (DirNode files) →
  with_extension name "safetensors.tmp" ≠ name →
  save_trainable m dir name (clean entries) =
    (Ok tt, clean (<[dir := DirNode (<[name := bytes]> (delete (with_extension name "safetensors.tmp") files))]> entries)).
Proof.
  intros (header & Hh & ->) Hf Hne. unfold save_trainable, write_safetensors, mbind', mlift. rewrite Hh. unfold mcatch.
  unfold write_temporary, mbind'. rewrite (fs_create_in_dir _ _ _ _ Hf).
  rewrite (fs_append_in_dir dir _ [] _ _ (<[with_extension name "safetensors.tmp" := []]> files)) by (by rewrite lookup_insert_eq).
  rewrite fs_try_run. rewrite !insert_insert_eq. simpl.
  rewrite (fs_rename_file_run dir _ name (safetensors_bytes header (collect_params (float_params m))) _
    (<[with_extension name "safetensors.tmp" := safetensors_bytes header (collect_params (float_params m))]> files))
    by (by rewrite lookup_insert_eq).
  by rewrite insert_insert_eq, delete_insert_eq.
Qed.

Lemma load_trainable_run m m0 bytes dir name entries files : savable m → saved_file m bytes →
  (∀ path, parse_safetensors path bytes = Ok (collect_params (float_params m))) →
  entries !! dir = Some (DirNode files) → files !! name = Some bytes →
  Forall2 same_shape (float_params m) (float_params m0) →
  load_trainable m0 dir name (clean entries) =
    (Ok (map_floats m0 (zip_with loaded (float_params m) (float_params m0))), clean entries).
Proof.
  intros Hsv Hb Hparse Hf Hn Hshape. unfold load_trainable, read_safetensors, mbind', mcatch.
  rewrite (fs_read_in_dir _ _ _ _ _ Hf Hn). unfold mlift. rewrite Hparse. unfold sort_by_name.
  rewrite (sort_unique (collect_params (float_params m))) by (done || by apply collect_sorted, Hsv).
  rewrite decide_False.
  2:{ intros Hl. apply Hl. unfold collect_params. rewrite length_imap. symmetry. by eapply Forall2_length. }
  assert (load_params (float_params m0) (collect_params (float_params m)) None =
    (zip_with loaded (float_params m) (float_params m0), None)) as -> by (apply (load_params_exact _ _ Hshape 0), Hsv).
  done.
Qed.

(** Claim C24. A module's float parameters, saved to a directory whose calls succeed and
    loaded into a module with the same shapes, are the parameters that were saved:
    identifiers, data and element types; only what requires a gradient is the
    loading module's own. *)
Theorem trainable_roundtrip m m0 dir name entries files : savable m → entries !! dir = Some (DirNode files) →
  with_extension name "safetensors.tmp" ≠ name → Forall2 same_shape (float_params m) (float_params m0) →
  ∃ entries', save_trainable m dir name (clean entries) = (Ok tt, clean entries') ∧
    load_trainable m0 dir name (clean entries') =
      (Ok (map_floats m0 (zip_with loaded (float_params m) (float_params m0))), clean entries').
Proof.
  intros Hsv Hf Hne Hshape. destruct (saved_file_exists m Hsv) as (bytes & Hb & Hparse).
  eexists. split; [by apply (save_trainable_run m bytes)|].
  eapply (load_trainable_run m m0 bytes); [done|done|done|by rewrite lookup_insert_eq|by rewrite lookup_insert_eq|done].
Qed.
End Roundtrip.
