(* ===== verification/Trainer.v ===== *)
(** * The trainer

    [SftTrainer] of src/src/training/trainer.rs: the learning rate, optimizer steps
    over accumulated micro-batches, checkpoints and the training loop. *)
From S2P Require Import Prelude Float PagedKv GenerationControl TrainData TrainDisk Safetensors.
Open Scope nat_scope.
Open Scope list_scope.
Open Scope m_scope.

Definition TrainError : Type := string.

(** ** The learning rate *)

(** [f64::cos], and the clock: the nanoseconds of each reading of [Instant::now]. *)
Class Cosine := cos : f64 → f64.
Class Clock := instant : nat → N.

Record LearningRateSchedule := mk_schedule {
  peak : f64;
  sc_min : f64;
  warmup_steps : nat;
  total_steps : nat
}.

Definition f64_of_nat (n : nat) : f64 := f64_of_Z (Z.of_nat n).
Definition f64_half : f64 := f64_div one (f64_of_Z 2).
Definition f64_pi : f64 := S754_finite false 7074237752028440 (-51).

Definition learning_rate_at `{Cosine} (s : LearningRateSchedule) (step : nat) : f64 :=
  if decide (0 < warmup_steps s ∧ step < warmup_steps s)
  then f64_div (f64_mul (peak s) (f64_of_nat (step + 1))) (f64_of_nat (warmup_steps s))
  else
    let decay := Nat.max (total_steps s - warmup_steps s) 1 in
    let progress := float_min (f64_div (f64_of_nat (step - warmup_steps s)) (f64_of_nat decay)) one in
    f64_add (sc_min s) (f64_mul (f64_mul f64_half (f64_sub (peak s) (sc_min s))) (f64_add one (cos (f64_mul f64_pi progress)))).

Record TrainConfig := mk_train_config {
  schedule : LearningRateSchedule;
  weight_decay : f32;
  beta_1 : f32;
  beta_2 : f32;
  epsilon : f32;
  max_grad_norm : option f32;
  gradient_accumulation : nat;
  loss_chunk_bytes : nat;
  checkpoint_every : nat;
  checkpoint_dir : string;
  keep_checkpoints : nat;
  log_every : nat
}.

Definition f32_ratio (a b : Z) : f32 := f32_div (f32_of_Z a) (f32_of_Z b).

Definition default_train_config (total : nat) (learning_rate : f64) (dir : string) : TrainConfig :=
  mk_train_config
    (mk_schedule learning_rate (f64_mul learning_rate (f64_div one (f64_of_Z 10))) (Nat.max (total / 20) 1) total)
    zero (f32_ratio 9 10) (f32_ratio 95 100) (f32_ratio 1 100000000) (Some (f32_of_Z 1)) 1 (Nat.pow 2 27) 0 dir 1 1.

(** ** Positions and reports *)
Record TrainerState := mk_trainer_state {
  ts_step : nat;
  ts_tokens : N;
  skipped_steps : N;
  elapsed_seconds : f64;
  ts_loader : option SftLoaderState
}.

Record StepStats := mk_step_stats {
  st_step : nat;
  st_loss : f32;
  st_grad_norm : f32;
  st_learning_rate : f64;
  st_tokens : nat;
  applied : bool
}.

(** Durations are in nanoseconds. *)
Record TrainProgress := mk_progress {
  pr_stats : StepStats;
  pr_total_steps : nat;
  tokens_seen : N;
  pr_elapsed : N;
  recent_tokens_per_second : f64;
  eta : option N;
  pr_epoch : N;
  pr_last_checkpoint : option (nat * N);
  pr_skipped_steps : N
}.

(** [Duration::as_secs_f64], [Duration::from_secs_f64], which rounds to the nearest
    nanosecond and panics on what is no duration. *)
Definition as_secs (nanos : N) : f64 :=
  f64_add (f64_of_Z (Z.of_N (nanos / 1000000000))) (f64_div (f64_of_Z (Z.of_N (nanos mod 1000000000))) (f64_of_Z 1000000000)).

(** The integer nearest to [n / d], ties to even. *)
Definition round_div (n d : Z) : Z :=
  let q := (n / d)%Z in
  match (2 * (n mod d) ?= d)%Z with
  | Lt => q
  | Gt => (q + 1)%Z
  | Eq => if Z.even q then q else (q + 1)%Z
  end.

Definition from_secs (x : f64) : option N :=
  match x with
  | S754_zero _ => Some 0%N
  | S754_finite false m e =>
      let nanos := round_div (Zpos m * 2 ^ Z.max e 0 * 1000000000) (2 ^ Z.max (- e) 0) in
      if decide (nanos < 2 ^ 64 * 1000000000)%Z then Some (Z.to_N nanos) else None
  | _ => None
  end.

(** ** Models, gradients and optimizers of other crates *)
Record AdamWConfig := mk_adamw { aw_beta_1 : f32; aw_beta_2 : f32; aw_epsilon : f32; aw_weight_decay : f32 }.

(** Gradients: losses, what [backward] gives, and the container of gradients. *)
Class Autodiff `{CheckpointData} := {
  Loss : Type;
  Backward : Type;
  Grads : Type;
  Gradient : Type;
  Scalar : Type;
  Accumulator : Type;
  loss_value : Loss → Fallible f32;
  backward : Loss → Backward;
  accumulator_new : Accumulator;
  accumulated : Accumulator → Grads;
  no_grads : Grads;
  grads_get : Grads → ParamId → option Gradient;
  grads_remove : Grads → ParamId → option (Gradient * Grads);
  grads_register : Grads → ParamId → Gradient → Grads;
  squared_sum : Gradient → Scalar;
  scalar_add : Scalar → Scalar → Scalar;
  scalar_value : Scalar → Fallible f32;
  mul_scalar : Gradient → f32 → Gradient
}.

(** A module that is trained, with its optimizer and the optimizer's record. *)
Class Trained `{Autodiff} (T : Type) := {
  trained_params :: ModuleParams T;
  from_grads : Backward → T → Grads;
  from_module : Backward → T → Grads * Backward;
  accumulate : Accumulator → T → Grads → Accumulator;
  Optimizer : Type;
  optimizer_init : AdamWConfig → Optimizer;
  optimizer_step : f64 → T → Grads → Optimizer → T * Optimizer;
  record_bytes : Optimizer → Bytes;
  load_record : Bytes → Optimizer → Fallible Optimizer
}.
#[global] Arguments Optimizer {_ _} T {_}.

(** The trait [SftModel], a model's freezing, the file of a record and the JSON of a
    trainer's state. *)
Class SftModel `{Autodiff} := {
  Model : Type;
  Adapters : Type;
  model_trained :: Trained Model;
  adapters_trained :: Trained Adapters;
  no_grad : Model → Model;
  vocabulary_size : Model → nat;
  sft_loss : Model → list Z * (nat * nat) → list Z → nat → option Adapters → nat → Fallible Loss;
  record_file : string → string;
  state_json : TrainerState → Fallible Bytes;
  parse_state : Bytes → Fallible TrainerState
}.

Definition of_fallible {A} (describe : string → string) (x : Fallible A) : res TrainError A :=
  match x with inr a => Ok a | inl e => Err (describe e) end.

(** [cross_entropy_chunk_rows] of ops.rs *)
Definition cross_entropy_chunk_rows (vocabulary budget_bytes : nat) : res TrainError nat :=
  do? row := expect Overflow (usize_mul (Nat.max vocabulary 1) 4) in Ok (Nat.max (budget_bytes / row) 1).

(** ** Gradient clipping *)
Section Clip.
Context `{Autodiff} {T : Type} {MP : ModuleParams T}.

(** [SquaredNorm] and [ScaleGradients] visit the float parameters. *)
Definition squared_norm (grads : Grads) (module : T) : option Scalar :=
  foldl (λ total p,
    match grads_get grads (p_id p) with
    | None => total
    | Some gradient =>
        let squared := squared_sum gradient in
        Some (match total with Some total => scalar_add total squared | None => squared end)
    end) None (float_params module).

Definition scale_gradients (factor : f32) (module : T) (grads : Grads) : Grads :=
  foldl (λ grads p,
    match grads_remove grads (p_id p) with
    | None => grads
    | Some (gradient, grads) => grads_register grads (p_id p) (mul_scalar gradient factor)
    end) grads (float_params module).

Definition clip_global_norm (module : T) (grads : Grads) (max : option f32) : res TrainError (f32 * Grads) :=
  match squared_norm grads module with
  | None => Ok (zero, grads)
  | Some total =>
      do? squared := of_fallible (λ e, "cannot read gradient norm: " +:+ e) (scalar_value total) in
      let norm := f32_sqrt squared in
      Ok (norm, match max with
        | Some max =>
            if is_finite norm && lt max norm
            then scale_gradients (f32_div max (f32_add norm (f32_ratio 1 1000000))) module grads
            else grads
        | None => grads
        end)
  end.
End Clip.

Section Trainer.
Context `{SftModel} {CO : Cosine} {CL : Clock}.

Inductive Trainable :=
| Full (optimizer : Optimizer Model)
| Lora (adapters : Adapters) (optimizer : Optimizer Adapters).

(** The directory of the configuration and the clock are the trainer's world. *)
Record SftTrainer := mk_trainer {
  tr_model : Model;
  trainable : Trainable;
  tr_config : TrainConfig;
  tr_state : TrainerState;
  tr_vocabulary : nat;
  last_checkpoint : option (nat * N);
  tr_disk : CkDisk;
  tr_clock : nat
}.
Implicit Types t : SftTrainer.

Definition set_model x t := mk_trainer x (trainable t) (tr_config t) (tr_state t) (tr_vocabulary t) (last_checkpoint t) (tr_disk t) (tr_clock t).
Definition set_trainable x t := mk_trainer (tr_model t) x (tr_config t) (tr_state t) (tr_vocabulary t) (last_checkpoint t) (tr_disk t) (tr_clock t).
Definition set_state x t := mk_trainer (tr_model t) (trainable t) (tr_config t) x (tr_vocabulary t) (last_checkpoint t) (tr_disk t) (tr_clock t).
Definition set_last x t := mk_trainer (tr_model t) (trainable t) (tr_config t) (tr_state t) (tr_vocabulary t) x (tr_disk t) (tr_clock t).
Definition set_ck_disk x t := mk_trainer (tr_model t) (trainable t) (tr_config t) (tr_state t) (tr_vocabulary t) (last_checkpoint t) x (tr_clock t).
Definition set_clock x t := mk_trainer (tr_model t) (trainable t) (tr_config t) (tr_state t) (tr_vocabulary t) (last_checkpoint t) (tr_disk t) x.

Definition set_ts_loader l (s : TrainerState) : TrainerState := mk_trainer_state (ts_step s) (ts_tokens s) (skipped_steps s) (elapsed_seconds s) l.
Definition set_elapsed x (s : TrainerState) : TrainerState := mk_trainer_state (ts_step s) (ts_tokens s) (skipped_steps s) x (ts_loader s).
Definition set_skipped n (s : TrainerState) : TrainerState := mk_trainer_state (ts_step s) (ts_tokens s) n (elapsed_seconds s) (ts_loader s).

Notation TrainM := (M SftTrainer TrainError).

(** ** Construction *)
Definition optimizer_config (c : TrainConfig) : AdamWConfig := mk_adamw (beta_1 c) (beta_2 c) (epsilon c) (weight_decay c).

Definition build (model : Model) (x : Trainable) (config : TrainConfig) (disk : CkDisk) (clock : nat) : res TrainError SftTrainer :=
  if decide (gradient_accumulation config = 0) then Panic Expect
  else Ok (mk_trainer model x config (mk_trainer_state 0 0 0 zero None) (vocabulary_size model) None disk clock).

Definition full (model : Model) (config : TrainConfig) (disk : CkDisk) (clock : nat) : res TrainError SftTrainer :=
  build model (Full (optimizer_init (optimizer_config config))) config disk clock.
Definition lora (model : Model) (adapters : Adapters) (config : TrainConfig) (disk : CkDisk) (clock : nat) :
    res TrainError SftTrainer :=
  build (no_grad model) (Lora adapters (optimizer_init (optimizer_config config))) config disk clock.

Definition adapters_of t : option Adapters := match trainable t with Lora adapters _ => Some adapters | Full _ => None end.

Definition into_parts t : Model * option Adapters := (tr_model t, adapters_of t).

(** ** One optimizer step *)
Definition loss_chunk_rows t : res TrainError nat := cross_entropy_chunk_rows (tr_vocabulary t) (loss_chunk_bytes (tr_config t)).

Definition read_scalar (loss : Loss) : res TrainError f32 := of_fallible (λ e, "cannot read loss: " +:+ e) (loss_value loss).

Definition micro_loss t (batch : SftBatch) (normalizer : nat) : res TrainError Loss :=
  do? chunk := loss_chunk_rows t in
  of_fallible id (sft_loss (tr_model t) (sb_tokens batch, (sb_batch batch, sb_length batch)) (sb_targets batch) normalizer
    (adapters_of t) chunk).

(** [i32 as usize] and [usize as i32]. *)
Definition wrap_i32 (n : Z) : Z := ((n + 2 ^ 31) mod 2 ^ 32 - 2 ^ 31)%Z.

Definition validate t (batch : SftBatch) : res TrainError unit :=
  match list_find (λ token, token < 0 ∨ Z.of_nat (tr_vocabulary t) ≤ token)%Z (sb_tokens batch) with
  | Some (_, token) => Err ("token " +:+ pretty token +:+ " is outside vocabulary [0, " +:+ pretty (N.of_nat (tr_vocabulary t)) +:+ ")")
  | None =>
      match list_find (λ target, wrap_i32 (Z.of_nat (tr_vocabulary t)) ≤ target)%Z (sb_targets batch) with
      | Some (_, target) => Err ("target " +:+ pretty target +:+ " is outside the vocabulary")
      | None => Ok tt
      end
  end.

(** The loop over the micro-batches, the same for the model and for adapters. *)
Fixpoint micro_loop {T} `{!Trained T} t (module : T) (normalizer : nat) (batches : list SftBatch) (acc : Accumulator)
    (loss_sum : f32) : res TrainError (Accumulator * f32) :=
  match batches with
  | [] => Ok (acc, loss_sum)
  | batch :: rest =>
      do? loss := micro_loss t batch normalizer in
      do? value := read_scalar loss in
      micro_loop t module normalizer rest (accumulate acc module (from_grads (backward loss) module)) (f32_add loss_sum value)
  end.

(** Without ruCCL, [synchronize] is the identity. *)
Definition synchronize (grads : Grads) : res TrainError Grads := Ok grads.

Definition step_gradients {T} `{!Trained T} t (module : T) (normalizer : nat) (batches : list SftBatch) :
    res TrainError (Grads * f32 * f32) :=
  do? sums := micro_loop t module normalizer batches accumulator_new zero in
  do? grads := synchronize (accumulated sums.1) in
  do? clipped := clip_global_norm module grads (max_grad_norm (tr_config t)) in
  Ok (clipped.2, clipped.1, sums.2).

Definition trainable_gradients t (normalizer : nat) (batches : list SftBatch) : res TrainError (Grads * f32 * f32) :=
  match trainable t with
  | Full _ => step_gradients t (tr_model t) normalizer batches
  | Lora adapters _ => step_gradients t adapters normalizer batches
  end.

(** [optimizer.step] on what is trained. *)
Definition apply_gradients (learning_rate : f64) (grads : Grads) t : SftTrainer :=
  match trainable t with
  | Full optimizer =>
      let '(model, optimizer) := optimizer_step learning_rate (tr_model t) grads optimizer in
      set_model model (set_trainable (Full optimizer) t)
  | Lora adapters optimizer =>
      let '(adapters, optimizer) := optimizer_step learning_rate adapters grads optimizer in
      set_trainable (Lora adapters optimizer) t
  end.

(** [+= 1] on the counters of the state. *)
Definition skip_step : TrainM unit :=
  let! t := mget in
  let! n := mexpect Overflow (checked_add u64_max (skipped_steps (tr_state t)) 1) in
  mmodify (λ t, set_state (set_skipped n (tr_state t)) t).

Definition count_step (tokens : nat) : TrainM nat :=
  let! t := mget in
  let s := tr_state t in
  let! step := mexpect Overflow (usize_add (ts_step s) 1) in
  let! sum := mexpect Overflow (checked_add u64_max (ts_tokens s) (N.of_nat tokens)) in
  mmodify (set_state (mk_trainer_state step sum (skipped_steps s) (elapsed_seconds s) (ts_loader s))) ;;;
  mret step.

(** The update, or the skip of a step that is not finite. *)
Definition update (applied : bool) (learning_rate : f64) (grads : Grads) : TrainM unit :=
  if applied then mmodify (apply_gradients learning_rate grads) else skip_step.

(** The token count and the gradients of a step, and the sum of the losses. *)
Definition step_sums t (micro_batches : list SftBatch) : res TrainError (nat * (Grads * f32 * f32)) :=
  do? _ := map_res (validate t) micro_batches in
  do? normalizer := fold_res (λ sum batch, expect Overflow (usize_add sum (sb_target_count batch))) 0 micro_batches in
  do? result := trainable_gradients t normalizer micro_batches in
  Ok (normalizer, result).

Definition step (micro_batches : list SftBatch) : TrainM StepStats :=
  if decide (micro_batches = []) then mthrow "an optimizer step needs at least one micro-batch" else
  let! t := mget in
  let learning_rate := learning_rate_at (schedule (tr_config t)) (ts_step (tr_state t)) in
  let! sums := mlift (step_sums t micro_batches) in
  let '(normalizer, (grads, norm, loss_sum)) := sums in
  let applied := is_finite norm && is_finite loss_sum in
  update applied learning_rate grads ;;;
  let! now := count_step normalizer in
  mret (mk_step_stats now loss_sum norm learning_rate normalizer applied).

(** ** Objectives given from outside *)
Section Objective.
Context {A : Type} `{!Trained A}.

Record ObjectiveSums := mk_sums { os_sum : f32; os_accumulator : Accumulator; os_auxiliary : Accumulator }.

Fixpoint objective_loop {T} `{!Trained T} t (module : T) (auxiliary : option A)
    (objective : Model → option Adapters → nat → Fallible Loss) (indices : list nat) (sums : ObjectiveSums) :
    res TrainError ObjectiveSums :=
  match indices with
  | [] => Ok sums
  | index :: rest =>
      do? loss := of_fallible id (objective (tr_model t) (adapters_of t) index) in
      do? value := read_scalar loss in
      let '(grads, graph) := from_module (backward loss) module in
      let auxiliary_accumulator :=
        match auxiliary with
        | Some aux => accumulate (os_auxiliary sums) aux (from_module graph aux).1
        | None => os_auxiliary sums
        end in
      objective_loop t module auxiliary objective rest
        (mk_sums (f32_add (os_sum sums) value) (accumulate (os_accumulator sums) module grads) auxiliary_accumulator)
  end.

Definition objective_gradients {T} `{!Trained T} t (module : T) (auxiliary : option A)
    (objective : Model → option Adapters → nat → Fallible Loss) (count : nat) : res TrainError (Grads * f32 * ObjectiveSums) :=
  do? sums := objective_loop t module auxiliary objective (seq 0 count) (mk_sums zero accumulator_new accumulator_new) in
  do? grads := synchronize (accumulated (os_accumulator sums)) in
  do? clipped := clip_global_norm module grads (max_grad_norm (tr_config t)) in
  Ok (clipped.2, clipped.1, sums).

Definition auxiliary_gradients (auxiliary : option A) (max : option f32) (sums : ObjectiveSums) : res TrainError (Grads * f32) :=
  match auxiliary with
  | Some module =>
      do? grads := synchronize (accumulated (os_auxiliary sums)) in
      do? clipped := clip_global_norm module grads max in
      Ok (clipped.2, clipped.1)
  | None => Ok (no_grads, zero)
  end.

(** Without ruCCL, [objective_mean] is the identity. *)
Definition objective_mean (value : f32) : res TrainError f32 := Ok value.

Definition objective_normalizer (local : nat) : res TrainError f32 :=
  do? count := objective_mean (f32_of_Z (Z.of_nat local)) in
  if le count zero then Err "objective has no valid targets" else Ok count.

Definition objective_step_inner (count tokens : nat) (update_allowed : bool) (auxiliary : option A)
    (auxiliary_max_grad_norm : option f32) (objective : Model → option Adapters → nat → Fallible Loss) :
    TrainM (StepStats * Grads) :=
  if decide (count = 0) then mthrow "an objective update needs at least one sample" else
  let! t := mget in
  let! result := mlift (match trainable t with
    | Full _ => objective_gradients t (tr_model t) auxiliary objective count
    | Lora adapters _ => objective_gradients t adapters auxiliary objective count
    end) in
  let '(grads, norm, sums) := result in
  let! aux := mlift (auxiliary_gradients auxiliary auxiliary_max_grad_norm sums) in
  let '(auxiliary_grads, auxiliary_norm) := aux in
  let learning_rate := learning_rate_at (schedule (tr_config t)) (ts_step (tr_state t)) in
  let! sum := mlift (objective_mean (os_sum sums)) in
  let! allowed := mlift (objective_mean (if update_allowed then f32_of_Z 1 else zero)) in
  let applied := is_finite norm && is_finite auxiliary_norm && is_finite sum && eq allowed (f32_of_Z 1) in
  update applied learning_rate grads ;;;
  let! now := count_step tokens in
  let grad_norm := if negb (is_finite norm) then norm
    else if negb (is_finite auxiliary_norm) then auxiliary_norm else float_max norm auxiliary_norm in
  mret (mk_step_stats now sum grad_norm learning_rate tokens applied, auxiliary_grads).
End Objective.

Definition objective_step (count tokens : nat) (update_allowed : bool)
    (objective : Model → option Adapters → nat → Fallible Loss) : TrainM StepStats :=
  let! result := objective_step_inner (A := Adapters) count tokens update_allowed None None objective in mret result.1.

Definition objective_step_with_aux {A} `{!Trained A} (count tokens : nat) (auxiliary : A) (auxiliary_max_grad_norm : option f32)
    (objective : Model → option Adapters → nat → Fallible Loss) : TrainM (StepStats * Grads) :=
  objective_step_inner count tokens true (Some auxiliary) auxiliary_max_grad_norm objective.

(** ** Checkpoints *)
Definition LATEST_FILE : string := "latest".
Definition STATE_FILE : string := "state.json".
Definition TRAINABLE_FILE : string := "trainable.safetensors".
Definition OPTIMIZER_FILE : string := "optimizer".

Definition io (e : string) : TrainError := "checkpoint I/O failed: " +:+ e.

(** A call on the checkpoint directory. *)
Definition on_disk {A} (describe : string → TrainError) (m : DiskM A) : TrainM A := λ t,
  let '(r, d) := m (tr_disk t) in (map_err describe r, set_ck_disk d t).

Definition now : TrainM N := λ t, (Ok (instant (tr_clock t)), set_clock (S (tr_clock t)) t).

Definition step_name (n : nat) : string := "step-" +:+ zero_padded 8 n.
Definition temporary_name (name : string) : string := "." +:+ name +:+ ".tmp".

(** The parameters and the optimizer, the same for the model and for adapters. *)
Definition save_parts {T} `{!Trained T} (module : T) (optimizer : Optimizer T) (dir : string) : TrainM unit :=
  on_disk id (save_trainable module dir TRAINABLE_FILE) ;;;
  on_disk (λ e, "cannot record checkpoint: " +:+ e)
    (fs_write (InDir dir (record_file OPTIMIZER_FILE)) (record_bytes optimizer)).

Definition save_trained t (dir : string) : TrainM unit :=
  match trainable t with
  | Full optimizer => save_parts (tr_model t) optimizer dir
  | Lora adapters optimizer => save_parts adapters optimizer dir
  end.

(** What [prune_checkpoints] keeps out of the directory. *)
Definition checkpoint_names (entries : list (string * bool)) : list string :=
  (merge_sort name_le (filter (λ e, e.2 = true ∧ String.prefix "step-" e.1 = true) entries)).*1.

Definition prune_checkpoints : TrainM unit :=
  let! entries := on_disk io fs_read_dir in
  let! t := mget in
  let checkpoints := checkpoint_names entries in
  let keep := Nat.max (keep_checkpoints (tr_config t)) 1 in
  mfor (take (length checkpoints - keep) checkpoints) (λ name, on_disk io (fs_remove_dir_all name)).

Definition remove_existing (name : string) : TrainM unit :=
  let! present := on_disk io (fs_exists name) in
  if (present : bool) then on_disk io (fs_remove_dir_all name) else mret tt.

Definition save_checkpoint_with (extra : string → TrainM unit) : TrainM string :=
  on_disk io fs_create_root ;;;
  let! t := mget in
  let name := step_name (ts_step (tr_state t)) in
  let temporary := temporary_name name in
  remove_existing temporary ;;;
  on_disk io (fs_create_dir temporary) ;;;
  save_trained t temporary ;;;
  let! state := mlift (of_fallible id (state_json (tr_state t))) in
  on_disk io (fs_write (InDir temporary STATE_FILE) state) ;;;
  extra temporary ;;;
  remove_existing name ;;;
  on_disk io (fs_rename_dir temporary name) ;;;
  on_disk io (fs_write (InRoot LATEST_FILE) (String.list_byte_of_string name)) ;;;
  prune_checkpoints ;;;
  let! at_ := now in
  mmodify (set_last (Some (ts_step (tr_state t), at_))) ;;;
  mret name.

Definition save_checkpoint : TrainM string := save_checkpoint_with (λ _, mret tt).

(** Parameters and an optimizer from a checkpoint directory. *)
Definition load_parts {T} `{!Trained T} (module : T) (optimizer : Optimizer T) (dir : string) : TrainM (T * Optimizer T) :=
  let! module := on_disk id (load_trainable module dir TRAINABLE_FILE) in
  let! bytes := on_disk (λ e, "cannot load checkpoint: " +:+ e) (fs_read (InDir dir (record_file OPTIMIZER_FILE))) in
  let! optimizer := mlift (of_fallible (λ e, "cannot load checkpoint: " +:+ e) (load_record bytes optimizer)) in
  mret (module, optimizer).

(** In full fine-tuning the model is replaced before the optimizer is read. *)
Definition load_full (model : Model) (optimizer : Optimizer Model) (dir : string) : TrainM (Optimizer Model) :=
  let! model := on_disk id (load_trainable model dir TRAINABLE_FILE) in
  mmodify (set_model model) ;;;
  let! bytes := on_disk (λ e, "cannot load checkpoint: " +:+ e) (fs_read (InDir dir (record_file OPTIMIZER_FILE))) in
  mlift (of_fallible (λ e, "cannot load checkpoint: " +:+ e) (load_record bytes optimizer)).

(** [mem::replace] leaves a new optimizer of the model behind while the files are read. *)
Definition load_checkpoint (dir : string) : TrainM nat :=
  let! text := on_disk io (fs_read (InDir dir STATE_FILE)) in
  let! state := mlift (of_fallible (λ e, "invalid trainer state: " +:+ e) (parse_state text)) in
  let! t := mget in
  mmodify (set_trainable (Full (optimizer_init (optimizer_config (tr_config t))))) ;;;
  let! loaded := match trainable t with
    | Full optimizer => let! o := load_full (tr_model t) optimizer dir in mret (Full o)
    | Lora adapters optimizer => let! parts := load_parts adapters optimizer dir in mret (Lora parts.1 parts.2)
    end in
  mmodify (set_trainable loaded) ;;;
  mmodify (set_state state) ;;;
  let! at_ := now in
  mmodify (set_last (Some (ts_step state, at_))) ;;;
  mret (ts_step state).

(** [String::from_utf8] accepts the bytes. *)
Definition continuation (b : Byte.byte) : bool := let n := Byte.to_N b in (128 <=? n)%N && (n <=? 191)%N.
Fixpoint utf8 (bytes : Bytes) : bool :=
  match bytes with
  | [] => true
  | a :: rest =>
      let n := Byte.to_N a in
      if (n <? 128)%N then utf8 rest
      else match rest with
        | [] => false
        | b :: rest =>
            let m := Byte.to_N b in
            if (194 <=? n)%N && (n <=? 223)%N then continuation b && utf8 rest
            else match rest with
              | [] => false
              | c :: rest =>
                  let second := continuation b && (if (n =? 224)%N then (160 <=? m)%N else if (n =? 237)%N then (m <=? 159)%N else true) in
                  if (224 <=? n)%N && (n <=? 239)%N then second && continuation c && utf8 rest
                  else match rest with
                    | [] => false
                    | d :: rest =>
                        (240 <=? n)%N && (n <=? 244)%N && continuation b &&
                        (if (n =? 240)%N then (144 <=? m)%N else if (n =? 244)%N then (m <=? 143)%N else true) &&
                        continuation c && continuation d && utf8 rest
                    end
              end
        end
  end.

(** The directory [latest] names; a name with a slash leads elsewhere. *)
Definition resume : TrainM (option nat) :=
  let! file := on_disk io (fs_is_file LATEST_FILE) in
  if (file : bool) then
    let! bytes := on_disk io (fs_read (InRoot LATEST_FILE)) in
    let! _ := (if utf8 bytes then mret tt else mthrow (io "stream did not contain valid UTF-8")) in
    let! step := load_checkpoint (String.string_of_list_byte (trim bytes)) in
    mret (Some step)
  else mret None.

(** ** The training loop *)

(** The trainer, its loader, and what [on_progress] has been called with. *)
Record TrainRun := mk_run { tn_trainer : SftTrainer; tn_loader : SftLoader; tn_progress : list TrainProgress }.

Notation RunM := (M TrainRun TrainError).

Definition by_trainer {A} (m : TrainM A) : RunM A := λ r,
  let '(x, t) := m (tn_trainer r) in (x, mk_run t (tn_loader r) (tn_progress r)).
Definition by_loader {A} (m : M SftLoader DataError A) : RunM A := λ r,
  let '(x, l) := m (tn_loader r) in (x, mk_run (tn_trainer r) l (tn_progress r)).

Definition report (p : TrainProgress) : RunM unit := mmodify (λ r, mk_run (tn_trainer r) (tn_loader r) (tn_progress r ++ [p])).

(** [Instant::elapsed] *)
Definition elapsed_since (start : N) : TrainM N := let! at_ := now in mret (at_ - start)%N.

(** The progress of a step, for the callback. *)
Definition progress (stats : StepStats) (total : nat) (window : N) (window_tokens : N) (window_steps : nat) (epoch : N) :
    TrainM TrainProgress :=
  let! t := mget in
  let s := tr_state t in
  let seconds_per_step := f64_div (as_secs window) (f64_of_nat (Nat.max window_steps 1)) in
  let! remaining := mexpect Overflow (usize_sub total (ts_step s)) in
  let! elapsed := mexpect Expect (from_secs (elapsed_seconds s)) in
  let recent := f64_div (f64_of_Z (Z.of_N window_tokens)) (float_max (as_secs window) (f64_div one (f64_of_Z 1000000000))) in
  let! eta := (if decide (0 < window_steps)
    then let! d := mexpect Expect (from_secs (f64_mul seconds_per_step (f64_of_nat remaining))) in mret (Some d)
    else mret None) in
  let! last := match last_checkpoint t with
    | Some (n, at_) => let! e := elapsed_since at_ in mret (Some (n, e))
    | None => mret None
    end in
  mret (mk_progress stats total (ts_tokens s) elapsed recent eta epoch last (skipped_steps s)).

(** The window of steps a report is about. *)
Record Window := mk_window { wd_started : N; wd_tokens : N; wd_steps : nat }.

(** One turn of the loop, up to its report. *)
Definition train_turn (started : N) (elapsed_before : f64) : RunM StepStats :=
  let! r := mget in
  let config := tr_config (tn_trainer r) in
  let! batches := by_loader (mmap (seq 0 (gradient_accumulation config)) (λ _, next_batch)) in
  let! stats := by_trainer (step batches) in
  let! r := mget in
  by_trainer (mmodify (λ t, set_state (set_ts_loader (Some (loader_state (tn_loader r))) (tr_state t)) t)) ;;;
  let! elapsed := by_trainer (elapsed_since started) in
  by_trainer (mmodify (λ t, set_state (set_elapsed (f64_add elapsed_before (as_secs elapsed)) (tr_state t)) t)) ;;;
  mret stats.

Definition checkpoint_due t : bool :=
  bool_decide ((0 < checkpoint_every (tr_config t) ∧ ts_step (tr_state t) mod checkpoint_every (tr_config t) = 0) ∨
    ts_step (tr_state t) = total_steps (schedule (tr_config t))).

Definition save_due : RunM unit :=
  let! r := mget in
  if checkpoint_due (tn_trainer r) then let! _ := by_trainer save_checkpoint in mret tt else mret tt.

Definition report_due (stats : StepStats) (window : Window) : RunM Window :=
  let! r := mget in
  let t := tn_trainer r in
  let total := total_steps (schedule (tr_config t)) in
  let log := Nat.max (log_every (tr_config t)) 1 in
  if decide (ts_step (tr_state t) mod log = 0 ∨ ts_step (tr_state t) = total) then
    let! elapsed := by_trainer (elapsed_since (wd_started window)) in
    let! p := by_trainer (progress stats total elapsed (wd_tokens window) (wd_steps window) (epoch (loader_state (tn_loader r)))) in
    report p ;;;
    let! started := by_trainer now in
    mret (mk_window started 0 0)
  else mret window.

(** The rest of the turn: the window grows, a checkpoint and a report may be due. *)
Definition end_turn (stats : StepStats) (window : Window) : RunM Window :=
  let! tokens := mexpect Overflow (checked_add u64_max (wd_tokens window) (N.of_nat (st_tokens stats))) in
  save_due ;;;
  report_due stats (mk_window (wd_started window) tokens (wd_steps window + 1)).

Fixpoint train_loop (fuel : nat) (started : N) (elapsed_before : f64) (window : Window) : RunM unit :=
  let! r := mget in
  let t := tn_trainer r in
  if decide (ts_step (tr_state t) < total_steps (schedule (tr_config t))) then
    match fuel with
    | 0 => mpanic OutOfFuel
    | S fuel =>
        let! stats := train_turn started elapsed_before in
        let! window := end_turn stats window in
        train_loop fuel started elapsed_before window
    end
  else mret tt.

Definition finish_training (fuel : nat) (started : N) (elapsed_before : f64) (window : Window) : RunM TrainerState :=
  train_loop fuel started elapsed_before window ;;;
  let! r := mget in
  mret (tr_state (tn_trainer r)).

Definition train : RunM TrainerState :=
  let! r := mget in
  let s := tr_state (tn_trainer r) in
  match ts_loader s with Some position => by_loader (restore_loader position) | None => mret tt end ;;;
  let! started := by_trainer now in
  let! window := by_trainer now in
  finish_training (total_steps (schedule (tr_config (tn_trainer r))) - ts_step s) started (elapsed_seconds s) (mk_window window 0 0).
End Trainer.
