(* ===== verification/TrainerSpec.v ===== *)
(** * What the trainer guarantees

    Training depends on nothing but the parameters, the optimizer, the counters and
    the loader; a checkpoint restores them, so a resumed training is the training that
    was interrupted. *)
From S2P Require Import Prelude Float PagedKv GenerationControl TrainData TrainDataSpec TrainLoaderSpec.
From S2P Require Import TrainDisk Safetensors SafetensorsSpec Trainer.
Open Scope nat_scope.
Open Scope list_scope.
Open Scope m_scope.

Section Spec.
Context `{SftModel} {CO : Cosine} {CL : Clock}.
Implicit Types t : SftTrainer.
Implicit Types r : TrainRun.
Notation TrainM := (M SftTrainer TrainError).
Notation RunM := (M TrainRun TrainError).

(** ** What training does not look at *)

(** Time, and the checkpoint directory. *)
Record World := mk_world { wo_elapsed : f64; wo_last : option (nat * N); wo_disk : CkDisk; wo_clock : nat }.

Definition put_world (w : World) t : SftTrainer :=
  mk_trainer (tr_model t) (trainable t) (tr_config t) (set_elapsed (wo_elapsed w) (tr_state t)) (tr_vocabulary t)
    (wo_last w) (wo_disk w) (wo_clock w).
Definition world_of t : World := mk_world (elapsed_seconds (tr_state t)) (last_checkpoint t) (tr_disk t) (tr_clock t).

(** The same training in different worlds. *)
Definition same_training t1 t2 : Prop := ∃ w, t2 = put_world w t1.

Lemma put_world_of t : put_world (world_of t) t = t.
Proof. by destruct t as [? ? ? [] ? ? ? ?]. Qed.

Lemma same_training_refl t : same_training t t.
Proof. exists (world_of t). by rewrite put_world_of. Qed.

Lemma same_training_fields t1 t2 e : tr_model t2 = tr_model t1 → trainable t2 = trainable t1 → tr_config t2 = tr_config t1 →
  tr_vocabulary t2 = tr_vocabulary t1 → tr_state t2 = set_elapsed e (tr_state t1) → same_training t1 t2.
Proof.
  intros. exists (world_of t2). destruct t1 as [? ? ? [] ? ? ? ?], t2. simpl in *. subst. reflexivity.
Qed.

Lemma same_training_sym t1 t2 : same_training t1 t2 → same_training t2 t1.
Proof. intros [w ->]. exists (world_of t1). destruct t1 as [? ? ? [] ? ? ? ?]. done. Qed.

Lemma same_training_trans t1 t2 t3 : same_training t1 t2 → same_training t2 t3 → same_training t1 t3.
Proof. intros [w ->] [w' ->]. by exists w'. Qed.

(** [m] does the same in every world, and leaves the world alone. *)
Definition worldless {A} (m : TrainM A) : Prop := ∀ w t, m (put_world w t) = ((m t).1, put_world w (m t).2).

Lemma worldless_bind {A B} (m : TrainM A) (k : A → TrainM B) : worldless m → (∀ a, worldless (k a)) →
  worldless (let! a := m in k a).
Proof.
  intros Hm Hk w t. unfold mbind'. rewrite Hm. destruct (m t) as [[a|e|p] t']; simpl; [apply Hk|done|done].
Qed.

Lemma worldless_get {B} (k : SftTrainer → TrainM B) : (∀ w t, k (put_world w t) = k t) → (∀ t, worldless (k t)) →
  worldless (let! t := mget in k t).
Proof. intros Hk Hw w t. unfold mbind', mget. rewrite Hk. apply Hw. Qed.

Lemma worldless_const {A} (x : res TrainError A) : worldless (mlift x).
Proof. done. Qed.

Lemma micro_loss_world w t batch normalizer : micro_loss (put_world w t) batch normalizer = micro_loss t batch normalizer.
Proof. done. Qed.

Lemma micro_loop_world {T} `{!Trained T} w t (module : T) normalizer batches acc loss_sum :
  micro_loop (put_world w t) module normalizer batches acc loss_sum = micro_loop t module normalizer batches acc loss_sum.
Proof.
  revert acc loss_sum. induction batches as [|batch batches IH]; intros acc loss_sum; simpl; [done|].
  rewrite micro_loss_world. destruct (micro_loss t batch normalizer) as [loss|e|p]; simpl; [|done..].
  destruct (read_scalar loss); simpl; [|done..]. apply IH.
Qed.

Lemma trainable_gradients_world w t normalizer batches :
  trainable_gradients (put_world w t) normalizer batches = trainable_gradients t normalizer batches.
Proof. unfold trainable_gradients. simpl. destruct (trainable t); unfold step_gradients; by rewrite micro_loop_world. Qed.

Lemma apply_gradients_world w t lr grads : apply_gradients lr grads (put_world w t) = put_world w (apply_gradients lr grads t).
Proof. unfold apply_gradients. simpl. destruct (trainable t); by destruct (optimizer_step _ _ _ _). Qed.

Lemma skip_step_world : worldless skip_step.
Proof. intros w t. unfold skip_step, mbind', mget, mexpect. simpl. by destruct (checked_add _ _ _). Qed.

Lemma count_step_world tokens : worldless (count_step tokens).
Proof.
  intros w t. unfold count_step, mbind', mget, mexpect. simpl. destruct (usize_add _ _); [|done].
  by destruct (checked_add _ _ _).
Qed.

Lemma update_world applied lr grads : worldless (update applied lr grads).
Proof. unfold update. destruct applied; [|apply skip_step_world]. intros w t. unfold mmodify. by rewrite apply_gradients_world. Qed.

Lemma step_sums_world w t batches : step_sums (put_world w t) batches = step_sums t batches.
Proof.
  unfold step_sums. change (validate (put_world w t)) with (validate t). destruct (map_res _ _); simpl; [|done..].
  destruct (fold_res _ _ _); simpl; [|done..]. by rewrite trainable_gradients_world.
Qed.

Lemma step_world batches : worldless (step batches).
Proof.
  unfold step. case_decide; [done|]. apply worldless_get; [intros w t; by rewrite step_sums_world|]. intros t.
  apply worldless_bind; [apply worldless_const|]. intros [normalizer [[grads norm] loss_sum]].
  apply worldless_bind; [apply update_world|]. intros []. apply worldless_bind; [apply count_step_world|done].
Qed.

(** ** A step *)

(** What an update leaves alone. *)
Lemma update_wp applied lr grads t : wp (update applied lr grads) (λ x t', x = Ok tt →
  ts_step (tr_state t') = ts_step (tr_state t) ∧ ts_tokens (tr_state t') = ts_tokens (tr_state t) ∧
  tr_config t' = tr_config t ∧ world_of t' = world_of t) t.
Proof.
  unfold update. destruct applied; unfold skip_step; wp_steps.
  - intros _. unfold apply_gradients. destruct (trainable t); by destruct (optimizer_step _ _ _ _).
  - unfold mexpect. destruct (checked_add _ _ _); wp_steps; done.
Qed.

(** The counters after a step. *)
Lemma step_counters batches t : wp (step batches) (λ x t', ∀ stats, x = Ok stats →
  ts_step (tr_state t') = S (ts_step (tr_state t)) ∧ st_step stats = S (ts_step (tr_state t)) ∧
  ts_tokens (tr_state t') = (ts_tokens (tr_state t) + N.of_nat (st_tokens stats))%N ∧
  (ts_tokens (tr_state t') ≤ u64_max)%N ∧ tr_config t' = tr_config t ∧ world_of t' = world_of t) t.
Proof.
  unfold step. case_decide; [done|]. wp_steps. destruct (step_sums t batches) as [[normalizer [[grads norm] loss_sum]]|e|p]; [|done..].
  wp_step. eapply wp_mono; [apply update_wp|]. intros [[]|e|p] t'; [|done..]. intros Hu. destruct (Hu eq_refl) as (Hs & Ht & Hc & Hw).
  wp_step. unfold count_step. wp_steps. unfold mexpect. destruct (usize_add _ _) as [n|] eqn:En; wp_steps; [|done].
  destruct (checked_add _ _ _) as [m|] eqn:Em; wp_steps; [|done]. apply usize_add_Some in En as [-> _]. apply checked_add_Some in Em as [-> Hm].
  intros stats [= <-]. simpl. rewrite Hs, Ht in *. split_and!; [lia|lia|done|done|done|]. rewrite <- Hw. done.
Qed.

(** ** Saving *)
Implicit Types entries : gmap string Node.

Lemma on_disk_run {A} describe (m : DiskM A) x entries entries' t : tr_disk t = clean entries →
  m (clean entries) = (x, clean entries') → on_disk describe m t = (map_err describe x, set_ck_disk (clean entries') t).
Proof. intros Hd Hm. unfold on_disk. by rewrite Hd, Hm. Qed.

(** A directory in which the names of checkpoints are not those of files. *)
Record tidy entries : Prop := {
  ti_latest : plain_file entries LATEST_FILE;
  ti_step n bytes : entries !! step_name n ≠ Some (FileNode bytes);
  ti_temporary n bytes : entries !! temporary_name (step_name n) ≠ Some (FileNode bytes)
}.

Lemma latest_not_step n : step_name n ≠ LATEST_FILE.
Proof. done. Qed.
Lemma latest_not_temporary n : temporary_name (step_name n) ≠ LATEST_FILE.
Proof. done. Qed.
Lemma temporary_not_step n m : temporary_name (step_name n) ≠ step_name m.
Proof. done. Qed.

Lemma tidy_empty : tidy ∅.
Proof. by split. Qed.

Lemma tidy_delete name entries : tidy entries → tidy (delete name entries).
Proof.
  intros [Hl Hs Ht]. split; [intros f|intros n b..]; rewrite lookup_delete_Some; intros [_ Hn]; [by apply (Hl f)|by apply (Hs n b)|by apply (Ht n b)].
Qed.

Lemma tidy_insert_dir name files entries : name ≠ LATEST_FILE → tidy entries → tidy (<[name := DirNode files]> entries).
Proof.
  intros Hn [Hl Hs Ht]. split; [intros f|intros n b..]; rewrite lookup_insert_Some.
  - intros [[? _]|[_ ?]]; [done|by apply (Hl f)].
  - intros [[_ [=]]|[_ ?]]. by apply (Hs n b).
  - intros [[_ [=]]|[_ ?]]. by apply (Ht n b).
Qed.

Lemma tidy_insert_latest bytes entries : tidy entries → tidy (<[LATEST_FILE := FileNode bytes]> entries).
Proof.
  intros [Hl Hs Ht]. split; [intros f|intros n b..]; rewrite lookup_insert_Some.
  - intros [[_ [=]]|[? _]]. done.
  - intros [[He _]|[_ ?]]; [by apply (latest_not_step n)|by apply (Hs n b)].
  - intros [[He _]|[_ ?]]; [by apply (latest_not_temporary n)|by apply (Ht n b)].
Qed.

(** Removing what may be there. *)
Lemma remove_if_present name entries t : tr_disk t = clean entries → (∀ bytes, entries !! name ≠ Some (FileNode bytes)) →
  remove_existing name t = (Ok tt, set_ck_disk (clean (delete name entries)) t).
Proof.
  intros Hd Hn. unfold remove_existing, mbind'. rewrite (on_disk_run _ _ _ _ _ _ Hd (fs_exists_run name entries)). simpl.
  destruct (entries !! name) as [[bytes|files]|] eqn:E.
  - by destruct (Hn bytes).
  - rewrite bool_decide_eq_true_2 by (by eexists).
    by rewrite (on_disk_run _ _ _ _ _ (set_ck_disk (clean entries) t) eq_refl (fs_remove_dir_all_run name entries files E)).
  - rewrite bool_decide_eq_false_2 by (by intros [? ?]). by rewrite delete_id.
Qed.

(** The files of a checkpoint. *)
Definition part_files {T} `{!Trained T} (module : T) (optimizer : Optimizer T) (header : Bytes) : gmap string Bytes :=
  <[record_file OPTIMIZER_FILE := record_bytes optimizer]>
    (<[TRAINABLE_FILE := safetensors_bytes header (collect_params (float_params module))]> ∅).

Definition part_header {T} `{!Trained T} (module : T) : res string Bytes :=
  safetensors_header (collect_params (float_params module)) [("format", "rullm-trainable")]%string.

Lemma save_parts_run {T} `{!Trained T} (module : T) (optimizer : Optimizer T) dir entries t : tr_disk t = clean entries →
  entries !! dir = Some (DirNode ∅) →
  save_parts module optimizer dir t =
    match part_header module with
    | Ok header => (Ok tt, set_ck_disk (clean (<[dir := DirNode (part_files module optimizer header)]> entries)) t)
    | Err e => (Err e, t)
    | Panic p => (Panic p, t)
    end.
Proof.
  intros Hd Hdir. unfold save_parts, mbind'. destruct (part_header module) as [header|e|p] eqn:Hh.
  - assert (saved_file module (safetensors_bytes header (collect_params (float_params module)))) as Hsaved by (by exists header).
    rewrite (on_disk_run _ _ _ _ _ _ Hd (save_trainable_run module _ dir TRAINABLE_FILE entries ∅ Hsaved Hdir ltac:(done))). simpl.
    rewrite delete_empty. set (E := <[dir := _]> entries).
    rewrite (on_disk_run _ _ _ _ _ (set_ck_disk (clean E) t) eq_refl
      (fs_write_in_dir dir _ _ E _ (lookup_insert_eq entries dir _))).
    unfold E. by rewrite insert_insert_eq.
  - unfold on_disk at 1, save_trainable, write_safetensors, mbind', mlift. unfold part_header in Hh. rewrite Hh. simpl. by destruct t.
  - unfold on_disk at 1, save_trainable, write_safetensors, mbind', mlift. unfold part_header in Hh. rewrite Hh. simpl. by destruct t.
Qed.

(** ** Pruning *)
Definition listing entries : list (string * bool) :=
  (λ e : string * Node, (e.1, match e.2 with DirNode _ => true | FileNode _ => false end)) <$> map_to_list entries.
Definition checkpoints entries : list string := checkpoint_names (listing entries).
Definition removed (c : TrainConfig) entries : list string :=
  take (length (checkpoints entries) - Nat.max (keep_checkpoints c) 1) (checkpoints entries).
Definition pruned (c : TrainConfig) entries : gmap string Node := foldl (λ e name, delete name e) entries (removed c entries).

Lemma listing_dir name entries : (name, true) ∈ listing entries ↔ ∃ files, entries !! name = Some (DirNode files).
Proof.
  unfold listing. rewrite list_elem_of_fmap. split.
  - intros ([n [b|files]] & [= -> ] & Hin%elem_of_map_to_list). by exists files.
  - intros [files Hf]. exists (name, DirNode files). split; [done|]. by apply elem_of_map_to_list.
Qed.

Lemma listing_names entries : (listing entries).*1 = (map_to_list entries).*1.
Proof. unfold listing. rewrite <- list_fmap_compose. by apply list_fmap_ext. Qed.

Lemma checkpoints_elem name entries :
  name ∈ checkpoints entries ↔ String.prefix "step-" name = true ∧ ∃ files, entries !! name = Some (DirNode files).
Proof.
  unfold checkpoints, checkpoint_names. rewrite list_elem_of_fmap. setoid_rewrite merge_sort_Permutation.
  setoid_rewrite list_elem_of_filter. rewrite <- listing_dir. split.
  - intros ([n d] & -> & [[Hd Hp] Hin]). simpl in *. by rewrite Hd in Hin.
  - intros [? ?]. by exists (name, true).
Qed.

Lemma checkpoints_NoDup entries : NoDup (checkpoints entries).
Proof.
  unfold checkpoints, checkpoint_names. rewrite merge_sort_Permutation.
  apply (sublist_NoDup _ (listing entries).*1); [|apply fmap_sublist, sublist_filter].
  rewrite listing_names. apply NoDup_fst_map_to_list.
Qed.

Lemma checkpoints_sorted entries i j a b : i ≤ j → checkpoints entries !! i = Some a → checkpoints entries !! j = Some b →
  name_leb a b = true.
Proof.
  unfold checkpoints, checkpoint_names. set (l := filter _ _).
  pose proof (StronglySorted_merge_sort name_le l) as Hs. rewrite !list_lookup_fmap.
  revert i j. induction Hs as [|x l' Hs IH Hx]; intros i j Hij; [done|].
  destruct i as [|i], j as [|j]; simpl; [|..|by apply IH; lia].
  - intros [= <-] [= <-]. apply name_leb_refl.
  - intros [= <-] Hb. apply fmap_Some in Hb as (y & Hy & ->). rewrite Forall_forall in Hx. apply Hx. by eapply list_elem_of_lookup_2.
  - lia.
Qed.

(** The greatest checkpoint is kept. *)
Lemma newest_kept c entries name : name ∈ checkpoints entries → (∀ other, other ∈ checkpoints entries → name_leb other name = true) →
  name ∉ removed c entries.
Proof.
  intros [i Hi]%list_elem_of_lookup Hmax [j Hj]%list_elem_of_lookup. unfold removed in Hj.
  apply lookup_take_Some in Hj as [Hj Hlt].
  assert (i = j) as -> by (eapply NoDup_lookup; [apply checkpoints_NoDup|done|done]).
  destruct (lookup_lt_is_Some_2 (checkpoints entries) (S j)) as [other Ho]; [lia|].
  assert (name = other) as <-.
  { apply name_leb_antisym; [by apply (checkpoints_sorted entries j (S j)); [lia|..]|].
    apply Hmax. by eapply list_elem_of_lookup_2. }
  assert (j = S j); [|lia]. eapply NoDup_lookup; [apply checkpoints_NoDup|done|done].
Qed.

Lemma delete_all_lookup names entries name :
  foldl (λ e n, delete n e) entries names !! name = if decide (name ∈ names) then None else entries !! name.
Proof.
  revert entries. induction names as [|n names IH]; intros entries; simpl; [done|]. rewrite IH.
  destruct (decide (name ∈ names)) as [Hin|Hin]; [by rewrite decide_True by (by right)|].
  destruct (decide (name = n)) as [->|Hne].
  - rewrite decide_True by (by left). apply lookup_delete_eq.
  - rewrite decide_False by (by rewrite elem_of_cons; intros [?|?]). by apply lookup_delete_ne.
Qed.

Lemma tidy_delete_all names entries : tidy entries → tidy (foldl (λ e n, delete n e) entries names).
Proof. revert entries. induction names as [|n names IH]; intros entries Ht; simpl; [done|]. by apply IH, tidy_delete. Qed.

Lemma remove_all_run names : ∀ entries t, tr_disk t = clean entries → NoDup names →
  (∀ name, name ∈ names → ∃ files, entries !! name = Some (DirNode files)) →
  mfor names (λ name, on_disk io (fs_remove_dir_all name)) t =
    (Ok tt, set_ck_disk (clean (foldl (λ e n, delete n e) entries names)) t).
Proof.
  induction names as [|name names IH]; intros entries t Hd Hnd Hall; simpl.
  { unfold mret. rewrite <- Hd. by destruct t. }
  apply NoDup_cons in Hnd as [Hn Hnd]. destruct (Hall name) as [files Hf]; [by left|]. unfold mbind'.
  rewrite (on_disk_run _ _ _ _ _ _ Hd (fs_remove_dir_all_run name entries files Hf)). simpl.
  rewrite (IH (delete name entries)); [done|done|done|]. intros n Hin.
  destruct (Hall n) as [fs Hfs]; [by right|]. exists fs. by rewrite lookup_delete_ne by (by intros ->).
Qed.

Lemma prune_run entries t : tr_disk t = clean entries →
  prune_checkpoints t = (Ok tt, set_ck_disk (clean (pruned (tr_config t) entries)) t).
Proof.
  intros Hd. unfold prune_checkpoints, mbind'. rewrite (on_disk_run _ fs_read_dir (Ok (listing entries)) entries entries _ Hd eq_refl).
  simpl. unfold mget. apply (remove_all_run _ entries (set_ck_disk (clean entries) t)); [done| |].
  - eapply sublist_NoDup; [apply checkpoints_NoDup|apply sublist_take].
  - intros name Hin. apply (checkpoints_elem name entries). by apply (subseteq_take _ (checkpoints entries)) in Hin.
Qed.

(** ** A checkpoint *)
Definition disk_entries t : gmap string Node := default ∅ (ck_root (tr_disk t)).
Definition tidy_disk t : Prop := ck_faults (tr_disk t) = [] ∧ tidy (disk_entries t).

Definition trained_header t : res string Bytes :=
  match trainable t with Full _ => part_header (tr_model t) | Lora adapters _ => part_header adapters end.
Definition saved_parts t (header : Bytes) : gmap string Bytes :=
  match trainable t with
  | Full optimizer => part_files (tr_model t) optimizer header
  | Lora adapters optimizer => part_files adapters optimizer header
  end.
Definition trained_files t (header text : Bytes) : gmap string Bytes := <[STATE_FILE := text]> (saved_parts t header).

Definition checkpoint_name t : string := step_name (ts_step (tr_state t)).

(** The directory with the trainer's checkpoint, before it is pruned. *)
Definition with_checkpoint t (header text : Bytes) : gmap string Node :=
  <[LATEST_FILE := FileNode (String.list_byte_of_string (checkpoint_name t))]>
    (<[checkpoint_name t := DirNode (trained_files t header text)]> (delete (temporary_name (checkpoint_name t)) (disk_entries t))).

Definition save_answer t : res TrainError string :=
  do? _ := trained_header t in do? _ := of_fallible id (state_json (tr_state t)) in Ok (checkpoint_name t).

Lemma wp_known {S E A} (m : M S E A) (Q : res E A → S → Prop) s x s' : m s = (x, s') → Q x s' → wp m Q s.
Proof. unfold wp. by intros ->. Qed.

Ltac run_step tac := wp_step; eapply wp_known; [tac|]; cbn [map_err]; cbn iota.

Ltac disk_step E tac := run_step ltac:(eapply (on_disk_run _ _ _ E); [reflexivity|tac]).

Lemma save_trained_wp t t' entries dir Q : tr_disk t' = clean entries → entries !! dir = Some (DirNode ∅) →
  match trained_header t with
  | Ok header => Q (Ok tt) (set_ck_disk (clean (<[dir := DirNode (saved_parts t header)]> entries)) t')
  | Err e => Q (Err e) t'
  | Panic p => Q (Panic p) t'
  end → wp (save_trained t dir) Q t'.
Proof.
  intros Hd Hdir. unfold save_trained, trained_header, saved_parts, wp.
  destruct (trainable t); rewrite (save_parts_run _ _ _ _ _ Hd Hdir); by destruct (part_header _).
Qed.

Lemma with_checkpoint_tidy t header text : tidy_disk t → tidy (with_checkpoint t header text).
Proof. intros [_ Ht]. by apply tidy_insert_latest, tidy_insert_dir, tidy_delete. Qed.

Lemma save_checkpoint_wp t : tidy_disk t → wp save_checkpoint (λ x t', x = save_answer t ∧ same_training t t' ∧
    elapsed_seconds (tr_state t') = elapsed_seconds (tr_state t) ∧ tidy_disk t' ∧
    ∀ header text, trained_header t = Ok header → state_json (tr_state t) = inr text →
      tr_disk t' = clean (pruned (tr_config t) (with_checkpoint t header text))) t.
Proof.
  intros [Hf Htidy]. unfold save_checkpoint, save_checkpoint_with.
  assert (∀ E, same_training t (set_ck_disk E t)) as Hsame.
  { intros E. exists (mk_world (elapsed_seconds (tr_state t)) (last_checkpoint t) E (tr_clock t)). destruct t as [? ? ? [] ? ? ? ?]. done. }
  set (E0 := disk_entries t) in *. set (name := checkpoint_name t). set (temp := temporary_name name).
  run_step ltac:(unfold on_disk; by rewrite (fs_create_root_run _ Hf)). fold (disk_entries t) E0.
  set (t0 := set_ck_disk (clean E0) t). do 2 wp_step. change (step_name (ts_step (tr_state t0))) with name. fold temp.
  run_step ltac:(apply (remove_if_present temp E0 t0 eq_refl), (ti_temporary _ Htidy)).
  set (E1 := delete temp E0). assert (tidy E1) as Htidy1 by (by apply tidy_delete).
  disk_step E1 ltac:(apply fs_create_dir_run, lookup_delete_eq).
  set (E2 := <[temp := DirNode ∅]> E1).
  wp_step. eapply (save_trained_wp _ _ E2); [done|apply lookup_insert_eq|]. change (trained_header t0) with (trained_header t).
  change (saved_parts t0) with (saved_parts t). set (t2 := set_ck_disk (clean E2) _).
  assert (tidy E2) as Htidy2 by (by apply tidy_insert_dir).
  unfold save_answer. destruct (trained_header t) as [header|e|p] eqn:Hh; cbn [res_bind].
  2,3: split_and!; [done|apply (Hsame (clean E2))|done|by split|done].
  set (E3 := <[temp := _]> E2). wp_step. wp_step.
  change (tr_state t0) with (tr_state t).
  destruct (state_json (tr_state t)) as [e|text] eqn:Ht; cbn [of_fallible res_bind].
  { split_and!; [done|apply (Hsame (clean E3))|done|split; [done|by apply tidy_insert_dir]|done]. }
  disk_step E3 ltac:(apply fs_write_in_dir, lookup_insert_eq). set (E4 := <[temp := _]> E3).
  assert (tidy E4) as Htidy4 by (by repeat (apply tidy_insert_dir; [done|])).
  do 2 wp_step. wp_step. eapply wp_known; [apply (remove_if_present name E4); [reflexivity|apply (ti_step _ Htidy4)]|]. cbn iota.
  disk_step (delete name E4) ltac:(apply fs_rename_dir_run; [rewrite lookup_delete_ne by done; apply lookup_insert_eq|apply lookup_delete_eq]).
  set (E5 := <[name := _]> _).
  assert (tidy E5) as Htidy5 by (by apply tidy_insert_dir; [|do 2 apply tidy_delete]).
  disk_step E5 ltac:(apply fs_write_in_root, (ti_latest _ Htidy5)).
  assert (E5 = <[name := DirNode (trained_files t header text)]> (delete temp E0)) as HE5.
  { unfold E5, E4, E3, E2, E1. rewrite !insert_insert_eq. apply map_eq. intros i.
    destruct (decide (i = name)) as [->|Hn]; [by rewrite !lookup_insert_eq|]. rewrite !lookup_insert_ne by done.
    destruct (decide (i = temp)) as [->|Ht']; [by rewrite !lookup_delete_eq|].
    rewrite lookup_delete_ne, lookup_delete_ne, lookup_insert_ne by done. done. }
  set (E6 := <[LATEST_FILE := _]> E5). assert (E6 = with_checkpoint t header text) as HE6 by (unfold E6; by rewrite HE5).
  wp_step. eapply wp_known; [apply (prune_run E6); reflexivity|]. cbn iota.
  wp_step. eapply wp_known; [reflexivity|]. cbn iota. do 2 wp_step. wp_step. split; [done|].
  set (E := pruned _ E6). assert (E = pruned (tr_config t) (with_checkpoint t header text)) as HE by (unfold E; by rewrite HE6).
  split_and!; [|done| |].
  - eexists (mk_world (elapsed_seconds (tr_state t)) _ (clean E) _). destruct t as [? ? ? [] ? ? ? ?]. reflexivity.
  - split; [done|]. rewrite <- HE6 in HE. by apply tidy_delete_all, tidy_insert_latest.
  - intros header' text' [= <-] [= <-]. simpl. by rewrite <- HE.
Qed.

(** ** Loading *)

(** Optimizers made with one configuration. *)
Inductive made {T} `{!Trained T} (c : AdamWConfig) : Optimizer T → Prop :=
| made_init : made c (optimizer_init c)
| made_step lr (module : T) grads o : made c o → made c (optimizer_step lr module grads o).2
| made_load bytes o o' : made c o → load_record bytes o = inr o' → made c o'.

(** The optimizer's record holds all that its configuration does not; the JSON of a
    state may round the elapsed time; the recorder's file has a name of its own. *)
Class TrainerLaws : Prop := {
  tl_data :: CheckpointLaws;
  tl_file : record_file OPTIMIZER_FILE ≠ TRAINABLE_FILE ∧ record_file OPTIMIZER_FILE ≠ STATE_FILE;
  tl_json s : ∃ text, state_json s = inr text;
  tl_state s text : state_json s = inr text → is_Some (from_secs (elapsed_seconds s)) →
    ∃ e, parse_state text = inr (set_elapsed e s);
  tl_model c (o o0 : Optimizer Model) : made c o → made c o0 → load_record (record_bytes o) o0 = inr o;
  tl_adapters c (o o0 : Optimizer Adapters) : made c o → made c o0 → load_record (record_bytes o) o0 = inr o
}.
Context {TL : TrainerLaws}.

(** A module and its optimizer can be restored into others. *)
Record restorable {T} `{!Trained T} (c : AdamWConfig) (m m0 : T) (o o0 : Optimizer T) : Prop := {
  re_savable : savable m;
  re_shape : Forall2 same_shape (float_params m) (float_params m0);
  re_module : map_floats m0 (zip_with loaded (float_params m) (float_params m0)) = m;
  re_optimizer : made c o;
  re_optimizer0 : made c o0
}.

(** A trainer set up like another one: only what a checkpoint holds may differ. *)
Record set_up_like t t0 : Prop := {
  su_config : tr_config t0 = tr_config t;
  su_vocabulary : tr_vocabulary t0 = tr_vocabulary t;
  su_trainable :
    match trainable t, trainable t0 with
    | Full o, Full o0 => restorable (optimizer_config (tr_config t)) (tr_model t) (tr_model t0) o o0
    | Lora a o, Lora a0 o0 => tr_model t0 = tr_model t ∧ restorable (optimizer_config (tr_config t)) a a0 o o0
    | _, _ => False
    end
}.

Lemma set_up_like_disk E t t0 : set_up_like t t0 → set_up_like t (set_ck_disk E t0).
Proof. intros [Hc Hv Ht]. split; [exact Hc|exact Hv|exact Ht]. Qed.

Lemma part_files_lookup {T} `{!Trained T} (m : T) o header text : let files := <[STATE_FILE := text]> (part_files m o header) in
  files !! STATE_FILE = Some text ∧ files !! record_file OPTIMIZER_FILE = Some (record_bytes o) ∧
  files !! TRAINABLE_FILE = Some (safetensors_bytes header (collect_params (float_params m))).
Proof.
  destruct tl_file as [Hrec Hrec']. simpl. unfold part_files. split_and!.
  - apply lookup_insert_eq.
  - rewrite lookup_insert_ne by done. apply lookup_insert_eq.
  - rewrite !lookup_insert_ne by done. apply lookup_insert_eq.
Qed.

(** Printing ASCII bytes: valid UTF-8 that [trim] leaves alone. *)
Definition graphic (b : Byte.byte) : Prop := (33 ≤ Byte.to_N b ≤ 126)%N.

Lemma graphic_start b rest : graphic b → trim_start (b :: rest) = b :: rest.
Proof. unfold graphic. destruct b; simpl; try done; lia. Qed.

Lemma graphic_trim bytes : Forall graphic bytes → trim bytes = bytes.
Proof.
  intros Hall. unfold trim. assert (trim_start bytes = bytes) as -> by (destruct Hall; [done|by apply graphic_start]).
  induction Hall as [|b bytes Hb Hall IH]; [done|]. cbn [trim_end]. unfold blank. rewrite graphic_start by done. by rewrite IH.
Qed.

Lemma graphic_utf8 bytes : Forall graphic bytes → utf8 bytes = true.
Proof.
  induction 1 as [|b bytes Hb Hall IH]; [done|]. cbn [utf8]. unfold graphic in Hb.
  rewrite (proj2 (N.ltb_lt (Byte.to_N b) 128)) by lia. done.
Qed.

Lemma graphic_digits w : ∀ n s, Forall graphic (String.list_byte_of_string s) →
  Forall graphic (String.list_byte_of_string (last_digits w n s)).
Proof.
  induction w as [|w IH]; intros n s Hs; [done|]. cbn [last_digits]. apply IH. constructor; [|exact Hs].
  pose proof (Ascii.byte_of_ascii_via_N (Ascii.ascii_of_N (48 + n mod 10))) as Hb. symmetry in Hb. apply Byte.to_of_N in Hb.
  rewrite Ascii.N_ascii_embedding in Hb by apply digit_lt. pose proof (N.mod_lt n 10 ltac:(done)) as Hlt. unfold graphic.
  rewrite Hb. revert Hlt. clear. generalize (n mod 10)%N. intros d Hd. lia.
Qed.

(** The steps whose names have eight digits. *)
Definition eight_digits (n : nat) : Prop := (N.of_nat n < 100000000)%N.

Lemma step_name_graphic n : eight_digits n → Forall graphic (String.list_byte_of_string (step_name n)).
Proof.
  intros Hn. unfold step_name, zero_padded. rewrite decide_True by (exact Hn).
  repeat (apply Forall_cons_2; [vm_compute; split; done|]). apply graphic_digits. constructor.
Qed.

Lemma load_module_run {T} `{!Trained T} c (m m0 : T) o o0 dir entries files header t : restorable c m m0 o o0 →
  part_header m = Ok header → tr_disk t = clean entries → entries !! dir = Some (DirNode files) →
  files !! TRAINABLE_FILE = Some (safetensors_bytes header (collect_params (float_params m))) →
  on_disk id (load_trainable m0 dir TRAINABLE_FILE) t = (Ok m, t).
Proof.
  intros [Hsv Hshape Hmod _ _] Hh Hd Hdir Hf. destruct (saved_file_exists m Hsv) as (bytes & Hb & Hparse).
  assert (bytes = safetensors_bytes header (collect_params (float_params m))) as ->.
  { destruct Hb as (header' & Hh' & ->). unfold part_header in Hh. rewrite Hh in Hh'. by injection Hh' as <-. }
  pose proof (load_trainable_run m m0 _ dir TRAINABLE_FILE entries files Hsv Hb Hparse Hdir Hf Hshape) as Hrun.
  rewrite Hmod in Hrun. rewrite (on_disk_run _ _ _ _ _ _ Hd Hrun). simpl. rewrite <- Hd. by destruct t.
Qed.

Lemma read_record_run (bytes : Bytes) describe dir entries files t : tr_disk t = clean entries → entries !! dir = Some (DirNode files) →
  files !! record_file OPTIMIZER_FILE = Some bytes →
  on_disk describe (fs_read (InDir dir (record_file OPTIMIZER_FILE))) t = (Ok bytes, t).
Proof.
  intros Hd Hdir Hf. rewrite (on_disk_run _ _ _ _ _ _ Hd (fs_read_in_dir _ _ _ _ _ Hdir Hf)). simpl. rewrite <- Hd. by destruct t.
Qed.

Lemma load_checkpoint_run t t0 entries dir header text e : set_up_like t t0 → tr_disk t0 = clean entries →
  entries !! dir = Some (DirNode (trained_files t header text)) → trained_header t = Ok header →
  parse_state text = inr (set_elapsed e (tr_state t)) →
  ∃ t1, load_checkpoint dir t0 = (Ok (ts_step (tr_state t)), t1) ∧ same_training t t1 ∧
    elapsed_seconds (tr_state t1) = e ∧ tr_disk t1 = clean entries.
Proof.
  intros [Hc Hv Ht] Hd Hdir Hh Hp. unfold load_checkpoint, mbind'.
  assert (trained_files t header text !! STATE_FILE = Some text) as Hs by apply lookup_insert_eq.
  rewrite (on_disk_run _ _ _ _ _ _ Hd (fs_read_in_dir _ _ _ _ _ Hdir Hs)). simpl. unfold mlift, mget, mmodify. rewrite Hp. simpl.
  unfold trained_files, saved_parts, trained_header in *. destruct (trainable t) as [o|a o] eqn:Htr, (trainable t0) as [o0|a0 o0]; try done.
  - destruct (part_files_lookup (tr_model t) o header text) as (_ & Hrec & Htrain).
    unfold load_full, mbind'. rewrite (load_module_run _ _ _ _ _ _ entries _ header _ Ht Hh) by done.
    unfold mmodify. erewrite (read_record_run (record_bytes o) _ _ entries); [|reflexivity|exact Hdir|exact Hrec]. unfold mlift.
    rewrite (tl_model (optimizer_config (tr_config t)) o o0) by apply Ht. simpl.
    eexists. split; [done|]. split; [|done]. by apply same_training_fields with (e := e).
  - destruct Ht as [Hm Ht]. destruct (part_files_lookup a o header text) as (_ & Hrec & Htrain).
    unfold load_parts, mbind'. rewrite (load_module_run _ _ _ _ _ _ entries _ header _ Ht Hh) by done.
    erewrite (read_record_run (record_bytes o) _ _ entries); [|reflexivity|exact Hdir|exact Hrec]. unfold mlift.
    rewrite (tl_adapters (optimizer_config (tr_config t)) o o0) by apply Ht. simpl.
    eexists. split; [done|]. split; [|done]. by apply same_training_fields with (e := e).
Qed.

(** ** Resuming *)

(** No checkpoint of a later step is in the directory. *)
Definition newest t : Prop := ∀ name, name ∈ checkpoints (disk_entries t) → name_leb name (checkpoint_name t) = true.

Lemma step_prefix n : String.prefix "step-" (step_name n) = true.
Proof. unfold step_name. generalize (zero_padded 8 n). by intros []. Qed.

Lemma with_checkpoint_names t header text name : name ∈ checkpoints (with_checkpoint t header text) →
  name = checkpoint_name t ∨ name ∈ checkpoints (disk_entries t).
Proof.
  rewrite !checkpoints_elem. unfold with_checkpoint. intros [Hp [files Hf]].
  rewrite lookup_insert_Some in Hf. destruct Hf as [[_ [=]]|[_ Hf]]. rewrite lookup_insert_Some in Hf.
  destruct Hf as [[He _]|[_ Hf]]; [by left; symmetry|]. right. rewrite lookup_delete_Some in Hf. split; [done|]. exists files. by destruct Hf.
Qed.

(** What the directory holds after a save, pruned. *)
Lemma saved_entries t header text : newest t → let E := pruned (tr_config t) (with_checkpoint t header text) in
  E !! LATEST_FILE = Some (FileNode (String.list_byte_of_string (checkpoint_name t))) ∧
  E !! checkpoint_name t = Some (DirNode (trained_files t header text)).
Proof.
  intros Hnew. simpl. unfold pruned. rewrite !delete_all_lookup. set (E := with_checkpoint t header text).
  assert (checkpoint_name t ∈ checkpoints E) as Hin.
  { apply checkpoints_elem. split; [apply step_prefix|]. exists (trained_files t header text). unfold E, with_checkpoint.
    rewrite lookup_insert_ne by done. apply lookup_insert_eq. }
  split.
  - rewrite decide_False; [apply lookup_insert_eq|]. intros Hl%(subseteq_take _ (checkpoints E))%checkpoints_elem. by destruct Hl.
  - rewrite decide_False.
    + unfold E, with_checkpoint. rewrite lookup_insert_ne by done. apply lookup_insert_eq.
    + apply newest_kept; [done|]. intros other [->|Ho]%with_checkpoint_names; [apply name_leb_refl|by apply Hnew].
Qed.

Lemma resume_run t t0 header text e : eight_digits (ts_step (tr_state t)) → newest t → set_up_like t t0 →
  trained_header t = Ok header → parse_state text = inr (set_elapsed e (tr_state t)) →
  tr_disk t0 = clean (pruned (tr_config t) (with_checkpoint t header text)) →
  ∃ t1, resume t0 = (Ok (Some (ts_step (tr_state t))), t1) ∧ same_training t t1 ∧
    elapsed_seconds (tr_state t1) = e ∧ tr_disk t1 = tr_disk t0.
Proof.
  intros Hn Hnew Hlike Hh Hp Hd. destruct (saved_entries t header text Hnew) as [Hlatest Hdir].
  set (E := pruned _ _) in *. pose proof (step_name_graphic _ Hn) as Hg. fold (checkpoint_name t) in Hg.
  unfold resume, mbind'. rewrite (on_disk_run _ _ _ _ _ _ Hd (fs_is_file_run _ _ _ Hlatest)). cbn [map_err].
  rewrite (on_disk_run _ _ _ E _ (set_ck_disk (clean E) t0) eq_refl (fs_read_in_root _ _ _ Hlatest)). cbn [map_err].
  rewrite graphic_utf8, graphic_trim by done. cbn [mret]. rewrite String.string_of_list_byte_of_string. unfold mret.
  edestruct (load_checkpoint_run t (set_ck_disk (clean E) (set_ck_disk (clean E) t0)) E (checkpoint_name t) header text e)
    as (t1 & Hrun & Hsame & He & Hd1); [by do 2 apply set_up_like_disk|done|done|done|done|].
  exists t1. split_and!; [by rewrite Hrun|done|done|]. by rewrite Hd1, Hd.
Qed.
End Spec.
