(* ===== verification/TrainerResume.v ===== *)
(** * Resumed training

    Two runs of the training loop whose trainers differ in nothing but time and the
    checkpoint directory stay alike; so a training resumed from a checkpoint is the
    training that went on. *)
From S2P Require Import Prelude Float PagedKv GenerationControl TrainData TrainDataSpec TrainLoaderSpec.
From S2P Require Import TrainDisk Safetensors SafetensorsSpec Trainer TrainerSpec.
Open Scope nat_scope.
Open Scope list_scope.
Open Scope m_scope.

Section Resume.
Context `{SftModel} {CO : Cosine} {CL : Clock} {TL : TrainerLaws}.
Implicit Types t : SftTrainer.
Implicit Types r : TrainRun.
Notation TrainM := (M SftTrainer TrainError).
Notation RunM := (M TrainRun TrainError).

(** ** The loop *)

(** Runs of the same training, both able to save. *)
Record sim r1 r2 : Prop := {
  sm_training : same_training (tn_trainer r1) (tn_trainer r2);
  sm_loader : tn_loader r1 = tn_loader r2;
  sm_tidy1 : tidy_disk (tn_trainer r1);
  sm_tidy2 : tidy_disk (tn_trainer r2)
}.

(** Results that say the same, related by [P] when there is one. *)
Definition agree {A} (P : A → A → TrainRun → TrainRun → Prop) (x1 x2 : res TrainError A * TrainRun) : Prop :=
  match x1.1, x2.1 with
  | Ok a1, Ok a2 => P a1 a2 x1.2 x2.2
  | Err e1, Err e2 => e1 = e2
  | Panic p1, Panic p2 => p1 = p2
  | _, _ => False
  end.

Lemma agree_bind {A B} (P : A → A → TrainRun → TrainRun → Prop) (Q : B → B → TrainRun → TrainRun → Prop)
    (m1 m2 : RunM A) (k1 k2 : A → RunM B) r1 r2 :
  agree P (m1 r1) (m2 r2) → (∀ a1 a2 r1' r2', P a1 a2 r1' r2' → agree Q (k1 a1 r1') (k2 a2 r2')) →
  agree Q ((let! a := m1 in k1 a) r1) ((let! a := m2 in k2 a) r2).
Proof.
  unfold agree, mbind'. intros Hm Hk. destruct (m1 r1) as [[a1|e1|p1] r1'], (m2 r2) as [[a2|e2|p2] r2']; try done.
  by apply Hk.
Qed.

Lemma agree_wp {A} (P : A → A → TrainRun → TrainRun → Prop) (Q1 Q2 : A → TrainRun → Prop) (m1 m2 : RunM A) r1 r2 :
  agree P (m1 r1) (m2 r2) → wp m1 (λ x r, ∀ a, x = Ok a → Q1 a r) r1 → wp m2 (λ x r, ∀ a, x = Ok a → Q2 a r) r2 →
  agree (λ a1 a2 r1' r2', P a1 a2 r1' r2' ∧ Q1 a1 r1' ∧ Q2 a2 r2') (m1 r1) (m2 r2).
Proof.
  unfold agree, wp. destruct (m1 r1) as [[a1|e1|p1] r1'], (m2 r2) as [[a2|e2|p2] r2']; try done. simpl. intros Hp H1' H2'.
  split_and!; [done|by apply H1'|by apply H2'].
Qed.

(** Both runs give the same and stay alike. *)
Definition alike {A} (a1 a2 : A) r1 r2 : Prop := a1 = a2 ∧ sim r1 r2.

Lemma alike_batches n r1 r2 : sim r1 r2 →
  agree alike (by_loader (mmap (seq 0 n) (λ _, next_batch)) r1) (by_loader (mmap (seq 0 n) (λ _, next_batch)) r2).
Proof.
  intros [Ht Hl H1' H2']. unfold agree, by_loader. rewrite <- Hl. destruct (mmap _ _ _) as [[bs|e|p] l]; simpl; [|done..].
  split; [done|]. by split.
Qed.

Lemma world_disk t1 t2 : tr_disk t1 = tr_disk t2 → tidy_disk t1 → tidy_disk t2.
Proof. unfold tidy_disk, disk_entries. by intros ->. Qed.

Lemma world_of_disk t1 t2 : world_of t1 = world_of t2 → tr_disk t1 = tr_disk t2.
Proof. by intros [= _ _ -> _]. Qed.

Lemma put_world_world w t : world_of (put_world w t) = w.
Proof. by destruct w. Qed.

Lemma alike_step batches r1 r2 : sim r1 r2 → agree alike (by_trainer (step batches) r1) (by_trainer (step batches) r2).
Proof.
  intros [[w Hw] Hl H1' H2']. unfold agree, by_trainer. rewrite Hw, step_world.
  pose proof (step_counters batches (tn_trainer r1)) as Hc. unfold wp in Hc.
  destruct (step batches (tn_trainer r1)) as [[stats|e|p] t1]; simpl; [|done..]. split; [done|].
  destruct (Hc stats eq_refl) as (_ & _ & _ & _ & _ & Hworld). split; simpl; [by exists w|done| |].
  - by apply (world_disk (tn_trainer r1)); [symmetry; apply world_of_disk|].
  - apply (world_disk (tn_trainer r2)); [|done]. apply world_of_disk. by rewrite Hw, !put_world_world.
Qed.

(** Updates of the trainer that keep the runs alike. *)
Lemma sim_trainer t1 t2 r1 r2 : sim r1 r2 → same_training t1 t2 → tr_disk t1 = tr_disk (tn_trainer r1) → tr_disk t2 = tr_disk (tn_trainer r2) →
  sim (mk_run t1 (tn_loader r1) (tn_progress r1)) (mk_run t2 (tn_loader r2) (tn_progress r2)).
Proof. intros [_ Hl H1' H2'] Ht Hd1 Hd2. split; simpl; [done|done|by eapply world_disk|by eapply world_disk]. Qed.

Lemma same_training_clock n t : same_training t (set_clock n t).
Proof. apply same_training_fields with (e := elapsed_seconds (tr_state t)); [done..|]. by destruct t as [? ? ? [] ? ? ? ?]. Qed.

Lemma same_training_elapsed e t : same_training t (set_state (set_elapsed e (tr_state t)) t).
Proof. by apply same_training_fields with (e := e). Qed.

Lemma same_training_loader l t1 t2 : same_training t1 t2 →
  same_training (set_state (set_ts_loader l (tr_state t1)) t1) (set_state (set_ts_loader l (tr_state t2)) t2).
Proof. intros [w ->]. by exists w. Qed.

Lemma same_training_both t1 t1' t2 t2' : same_training t1 t2 → same_training t1 t1' → same_training t2 t2' → same_training t1' t2'.
Proof.
  intros H12 H1' H2'. apply (same_training_trans _ t1); [by apply same_training_sym|]. by apply (same_training_trans _ t2).
Qed.

Lemma sim_elapsed {A B} (m1 : TrainM A) (m2 : TrainM B) r1 r2 a1 a2 t1 t2 : sim r1 r2 →
  m1 (tn_trainer r1) = (Ok a1, t1) → m2 (tn_trainer r2) = (Ok a2, t2) →
  same_training (tn_trainer r1) t1 → same_training (tn_trainer r2) t2 →
  tr_disk t1 = tr_disk (tn_trainer r1) → tr_disk t2 = tr_disk (tn_trainer r2) →
  sim (by_trainer m1 r1).2 (by_trainer m2 r2).2.
Proof.
  intros Hs E1 E2 Ht1 Ht2 Hd1 Hd2. unfold by_trainer. rewrite E1, E2. apply sim_trainer; [done| |done|done].
  by eapply same_training_both; [apply Hs|..].
Qed.

Lemma alike_turn started1 before1 started2 before2 r1 r2 : sim r1 r2 →
  agree alike (train_turn started1 before1 r1) (train_turn started2 before2 r2).
Proof.
  intros Hs. unfold train_turn.
  assert (tr_config (tn_trainer r2) = tr_config (tn_trainer r1)) as Hc by (by destruct (sm_training _ _ Hs) as [w ->]).
  apply (agree_bind (λ a1 a2 r1' r2', a1 = r1 ∧ a2 = r2 ∧ sim r1' r2')); [done|]. intros ? ? ? ? (-> & -> & Hs0).
  rewrite Hc. eapply agree_bind; [by apply alike_batches|]. intros b ? r3 r4 [<- Hs'].
  eapply agree_bind; [by apply alike_step|]. intros stats ? r5 r6 [<- Hs''].
  unfold agree, mbind', mget, by_trainer, mmodify, elapsed_since, now, mret. simpl. split; [done|].
  apply sim_trainer; [done| |done|done]. rewrite <- (sm_loader _ _ Hs'').
  pose proof (same_training_loader (Some (loader_state (tn_loader r5))) _ _ (sm_training _ _ Hs'')) as Hl.
  apply (same_training_both _ _ _ _ Hl).
  - eapply same_training_trans; [apply same_training_clock|apply same_training_elapsed].
  - eapply same_training_trans; [apply same_training_clock|apply same_training_elapsed].
Qed.

(** The counters after a turn of the loop. *)
Definition turned (started : N) (before : f64) (r : TrainRun) (stats : StepStats) (r' : TrainRun) : Prop :=
  ts_step (tr_state (tn_trainer r')) = S (ts_step (tr_state (tn_trainer r))) ∧
  ts_tokens (tr_state (tn_trainer r')) = (ts_tokens (tr_state (tn_trainer r)) + N.of_nat (st_tokens stats))%N ∧
  (ts_tokens (tr_state (tn_trainer r')) ≤ u64_max)%N ∧ tr_config (tn_trainer r') = tr_config (tn_trainer r) ∧
  ∃ i, elapsed_seconds (tr_state (tn_trainer r')) = f64_add before (as_secs (instant i - started)).

Lemma wp_by_trainer {A} (m : TrainM A) Q r :
  wp m (λ x t, Q x (mk_run t (tn_loader r) (tn_progress r))) (tn_trainer r) → wp (by_trainer m) Q r.
Proof. unfold wp, by_trainer. by destruct (m (tn_trainer r)). Qed.

Lemma wp_by_loader {A} (m : M SftLoader DataError A) Q r :
  (∀ x l, Q x (mk_run (tn_trainer r) l (tn_progress r))) → wp (by_loader m) Q r.
Proof. intros HQ. unfold wp, by_loader. destruct (m (tn_loader r)). apply HQ. Qed.

Lemma wp_now Q t : Q (Ok (instant (tr_clock t))) (set_clock (S (tr_clock t)) t) → wp now Q t.
Proof. done. Qed.

Lemma turn_wp started before r : wp (train_turn started before) (λ x r', ∀ stats, x = Ok stats → turned started before r stats r') r.
Proof.
  unfold train_turn. wp_steps. apply wp_by_loader. intros [bs|e|p] l; [|done..].
  wp_step. apply wp_by_trainer. eapply wp_mono; [apply step_counters|]. intros [stats|e|p] t Hc; [|done..].
  destruct (Hc stats eq_refl) as (Hs & _ & Ht & Hm & Hcf & _). wp_steps. apply wp_by_trainer. wp_steps. apply wp_by_trainer.
  unfold elapsed_since. wp_step. apply wp_now. wp_steps. apply wp_by_trainer. wp_steps. intros s [= <-].
  unfold turned. simpl in *. split_and!; [done|done|done|done|]. by eexists.
Qed.

(** ** Saving in the loop *)

(** The training and the elapsed time are as they were. *)
Definition kept r r' : Prop := same_training (tn_trainer r) (tn_trainer r') ∧
  elapsed_seconds (tr_state (tn_trainer r')) = elapsed_seconds (tr_state (tn_trainer r)) ∧
  tn_loader r' = tn_loader r ∧ tidy_disk (tn_trainer r').

Lemma save_answer_same t1 t2 : same_training t1 t2 → save_answer t2 = save_answer t1.
Proof.
  intros [w ->]. unfold save_answer. change (trained_header (put_world w t1)) with (trained_header t1).
  destruct (trained_header t1); simpl; [|done..].
  destruct (tl_json (tr_state t1)) as [text1 ->], (tl_json (set_elapsed (wo_elapsed w) (tr_state t1))) as [text2 ->]. done.
Qed.

Lemma save_due_wp r : tidy_disk (tn_trainer r) → wp save_due (λ x r', kept r r' ∧
  x = if checkpoint_due (tn_trainer r) then (do? _ := save_answer (tn_trainer r) in Ok tt) else Ok tt) r.
Proof.
  intros Ht. unfold save_due. wp_steps. destruct (checkpoint_due (tn_trainer r)).
  - wp_step. apply wp_by_trainer. eapply wp_mono; [by apply save_checkpoint_wp|]. intros x t' (-> & Hs & He & Ht' & _).
    assert (kept r (mk_run t' (tn_loader r) (tn_progress r))) as Hk by (by split_and!).
    destruct (save_answer (tn_trainer r)); [wp_steps|..]; done.
  - wp_steps. split; [|done]. split_and!; [apply same_training_refl|done..].
Qed.

Lemma checkpoint_due_same t1 t2 : same_training t1 t2 → checkpoint_due t2 = checkpoint_due t1.
Proof. by intros [w ->]. Qed.

Lemma kept_sim r1 r2 r1' r2' : sim r1 r2 → kept r1 r1' → kept r2 r2' → sim r1' r2'.
Proof.
  intros [Ht Hl _ _] (H1' & _ & L1 & D1) (H2' & _ & L2 & D2). split; [exact (same_training_both _ _ _ _ Ht H1' H2')|congruence|done|done].
Qed.

Lemma alike_save r1 r2 : sim r1 r2 →
  agree (λ _ _ r1' r2', sim r1' r2' ∧ kept r1 r1' ∧ kept r2 r2') (save_due r1) (save_due r2).
Proof.
  intros Hs. pose proof (save_due_wp r1 (sm_tidy1 _ _ Hs)) as Hw1. pose proof (save_due_wp r2 (sm_tidy2 _ _ Hs)) as Hw2.
  unfold wp, agree in *. destruct (save_due r1) as [x1 r1'], (save_due r2) as [x2 r2'].
  destruct Hw1 as [K1 E1], Hw2 as [K2 E2]. simpl in *.
  rewrite (checkpoint_due_same _ _ (sm_training _ _ Hs)), (save_answer_same _ _ (sm_training _ _ Hs)) in E2. rewrite <- E1 in E2.
  subst x2. destruct x1; [|done..]. split_and!; [by eapply kept_sim|done|done].
Qed.

(** ** Reports *)

(** The durations of a training that started with [before] seconds can be reported. *)
Definition reportable (before : f64) (total : nat) : Prop :=
  (∀ i j, is_Some (from_secs (f64_add before (as_secs (instant j - instant i))))) ∧
  (∀ i j k n, k ≤ total → n ≤ total →
    is_Some (from_secs (f64_mul (f64_div (as_secs (instant j - instant i)) (f64_of_nat (Nat.max k 1))) (f64_of_nat n)))).

Definition total_of r : nat := total_steps (schedule (tr_config (tn_trainer r))).
Definition step_of r : nat := ts_step (tr_state (tn_trainer r)).

(** A window of the steps and tokens of the run. *)
Record window_ok (w : Window) r : Prop := {
  wk_started : ∃ i, wd_started w = instant i;
  wk_tokens : (wd_tokens w ≤ ts_tokens (tr_state (tn_trainer r)))%N;
  wk_steps : wd_steps w ≤ step_of r
}.

Lemma progress_wp stats total window tokens steps epoch t Q : ts_step (tr_state t) ≤ total →
  is_Some (from_secs (elapsed_seconds (tr_state t))) →
  is_Some (from_secs (f64_mul (f64_div (as_secs window) (f64_of_nat (Nat.max steps 1))) (f64_of_nat (total - ts_step (tr_state t))))) →
  (∀ p n, Q (Ok p) (set_clock n t)) → wp (progress stats total window tokens steps epoch) Q t.
Proof.
  intros Hs [e He] [d Hd] HQ. unfold progress. wp_steps. unfold usize_sub, mexpect. rewrite decide_True by done. wp_steps.
  rewrite He. wp_steps. eapply wp_known with (s' := t) (x := Ok (if decide (0 < steps) then Some d else None)).
  { case_decide; [|done]. unfold mbind'. by rewrite Hd. }
  wp_step. destruct (last_checkpoint t) as [[n at_]|]; [|wp_steps; destruct t as [? ? ? ? ? ? ? clock]; apply (HQ _ clock)].
  wp_step. unfold elapsed_since. wp_step. apply wp_now. wp_steps. apply HQ.
Qed.

(** A run at a turn's end: its elapsed time and its window. *)
Record at_report (before : f64) (w : Window) r : Prop := {
  ar_step : step_of r ≤ total_of r;
  ar_elapsed : ∃ i j, elapsed_seconds (tr_state (tn_trainer r)) = f64_add before (as_secs (instant j - instant i));
  ar_window : window_ok w r
}.

Lemma window_kept w r r' : kept r r' → window_ok w r → window_ok w r'.
Proof. intros ([world Hw] & _ & _) [Hi Ht Hs]. split; [done|..]; unfold step_of in *; rewrite Hw; done. Qed.

Lemma kept_refl r : tidy_disk (tn_trainer r) → kept r r.
Proof. intros Ht. split_and!; [apply same_training_refl|done..]. Qed.

Lemma kept_total r r' : kept r r' → total_of r' = total_of r ∧ step_of r' = step_of r.
Proof. intros ([w Hw] & _). unfold total_of, step_of. by rewrite Hw. Qed.

Lemma report_wp stats before w r : reportable before (total_of r) → at_report before w r → tidy_disk (tn_trainer r) →
  wp (report_due stats w) (λ x r', ∃ w', x = Ok w' ∧ kept r r' ∧ window_ok w' r') r.
Proof.
  intros [Hel Heta] [Hs (i & j & He) Hw] Htidy. destruct (wk_started _ _ Hw) as [k Hk].
  unfold report_due. wp_steps. case_decide; [|wp_step; exists w; split_and!; [done|by apply kept_refl|done]].
  wp_step. apply wp_by_trainer. unfold elapsed_since. wp_step. apply wp_now. wp_steps. apply wp_by_trainer.
  eapply progress_wp.
  - exact Hs.
  - simpl. rewrite He. apply Hel.
  - simpl. rewrite Hk. apply Heta; [pose proof (wk_steps _ _ Hw); lia|unfold total_of; lia].
  - intros p n. cbn beta iota. unfold report. wp_steps. apply wp_by_trainer, wp_now. wp_steps.
    eexists. split; [done|]. split.
    + split_and!; [|done|done|done]. do 2 (eapply same_training_trans; [apply same_training_clock|]). apply same_training_clock.
    + split; [by eexists|simpl; lia|simpl; lia].
Qed.

(** ** The loop *)

(** The runs at the top of the loop. *)
Record in_loop (before1 before2 : f64) (w1 w2 : Window) r1 r2 : Prop := {
  il_sim : sim r1 r2;
  il_window1 : window_ok w1 r1;
  il_window2 : window_ok w2 r2;
  il_report1 : reportable before1 (total_of r1);
  il_report2 : reportable before2 (total_of r2)
}.

(** What a report leaves of two runs that are alike. *)
Lemma alike_report stats before1 before2 w1 w2 r1 r2 : sim r1 r2 →
  reportable before1 (total_of r1) → reportable before2 (total_of r2) → at_report before1 w1 r1 → at_report before2 w2 r2 →
  agree (λ w1' w2' r1' r2', in_loop before1 before2 w1' w2' r1' r2') (report_due stats w1 r1) (report_due stats w2 r2).
Proof.
  intros Hs Hr1 Hr2 Ha1 Ha2.
  pose proof (report_wp stats before1 w1 r1 Hr1 Ha1 (sm_tidy1 _ _ Hs)) as Hw1.
  pose proof (report_wp stats before2 w2 r2 Hr2 Ha2 (sm_tidy2 _ _ Hs)) as Hw2.
  unfold wp, agree in *. destruct (report_due stats w1 r1) as [x1 r1'], (report_due stats w2 r2) as [x2 r2'].
  destruct Hw1 as (w1' & -> & K1 & W1), Hw2 as (w2' & -> & K2 & W2). simpl.
  destruct (kept_total _ _ K1) as [T1 _], (kept_total _ _ K2) as [T2 _].
  simpl in *. split; [by eapply kept_sim|done|done|by rewrite T1|by rewrite T2].
Qed.

(** The end of a turn: counting the window, saving, reporting. *)
Lemma alike_end stats started1 before1 started2 before2 w1 w2 r1 r2 r1' r2' :
  in_loop before1 before2 w1 w2 r1 r2 → step_of r1 < total_of r1 → (∃ i, started1 = instant i) → (∃ i, started2 = instant i) →
  sim r1' r2' → turned started1 before1 r1 stats r1' → turned started2 before2 r2 stats r2' →
  agree (λ w1' w2' r1'' r2'', in_loop before1 before2 w1' w2' r1'' r2'')
    (end_turn stats w1 r1') (end_turn stats w2 r2').
Proof.
  intros [Hs W1 W2 R1 R2] Hlt [i1 ->] [i2 ->] Hs' (S1 & T1 & M1 & C1 & j1 & E1) (S2 & T2 & M2 & C2 & j2 & E2).
  assert (step_of r2 = step_of r1 ∧ total_of r2 = total_of r1) as [Hst Htot]
    by (unfold step_of, total_of; destruct (sm_training _ _ Hs) as [w ->]; done).
  assert (∀ w r r', window_ok w r → ts_tokens (tr_state (tn_trainer r')) = (ts_tokens (tr_state (tn_trainer r)) + N.of_nat (st_tokens stats))%N →
    (ts_tokens (tr_state (tn_trainer r')) ≤ u64_max)%N →
    checked_add u64_max (wd_tokens w) (N.of_nat (st_tokens stats)) = Some (wd_tokens w + N.of_nat (st_tokens stats))%N) as Hadd.
  { intros w r r' Hw Ht Hm. pose proof (wk_tokens _ _ Hw). unfold checked_add. rewrite decide_True by lia. done. }
  unfold end_turn, mbind' at 1 3. rewrite (Hadd w1 r1 r1'), (Hadd w2 r2 r2') by done. cbn [mexpect].
  eapply agree_bind; [by apply alike_save|]. intros [] [] r3 r4 (Hs3 & K1 & K2).
  destruct (kept_total _ _ K1) as [Tot1 St1], (kept_total _ _ K2) as [Tot2 St2].
  assert (total_of r1' = total_of r1 ∧ total_of r2' = total_of r2) as [Ta Tb] by (unfold total_of; by rewrite C1, C2).
  assert (step_of r1' = S (step_of r1) ∧ step_of r2' = S (step_of r2)) as [Sa Sb] by done.
  apply alike_report; [done|by rewrite Tot1, Ta|by rewrite Tot2, Tb|..].
  - split; [rewrite St1, Tot1, Sa, Ta; lia| |].
    + exists i1, j1. destruct K1 as (_ & -> & _). exact E1.
    + apply (window_kept _ r1' r3 K1). destruct W1 as [Wi Wt Ws]. split; simpl; [done|lia|rewrite Sa; lia].
  - split; [rewrite St2, Tot2, Sb, Tb, Hst, Htot; lia| |].
    + exists i2, j2. destruct K2 as (_ & -> & _). exact E2.
    + apply (window_kept _ r2' r4 K2). destruct W2 as [Wi Wt Ws]. split; simpl; [done|lia|rewrite Sb; lia].
Qed.

Lemma alike_loop before1 before2 i1 i2 fuel : ∀ w1 w2 r1 r2, in_loop before1 before2 w1 w2 r1 r2 →
  agree (λ _ _, sim) (train_loop fuel (instant i1) before1 w1 r1) (train_loop fuel (instant i2) before2 w2 r2).
Proof.
  induction fuel as [|fuel IH]; intros w1 w2 r1 r2 Hin; pose proof (il_sim _ _ _ _ _ _ Hin) as Hs;
    (assert (step_of r2 = step_of r1 ∧ total_of r2 = total_of r1) as [Hst Htot]
      by (unfold step_of, total_of; destruct (sm_training _ _ Hs) as [w ->]; done));
    unfold step_of, total_of in Hst, Htot; cbn [train_loop];
    apply (agree_bind (λ a1 a2 r1' r2', a1 = r1 ∧ a2 = r2 ∧ r1' = r1 ∧ r2' = r2)); [done| |done|]; intros ? ? ? ? (-> & -> & -> & ->);
    rewrite Hst, Htot; case_decide as Hlt; [done|done| |done].
  pose proof (agree_wp _ _ _ _ _ r1 r2 (alike_turn (instant i1) before1 (instant i2) before2 r1 r2 Hs) (turn_wp _ _ _) (turn_wp _ _ _)) as Hturn.
  eapply agree_bind; [exact Hturn|]. intros stats ? r3 r4 ([<- Hs'] & Ht1 & Ht2).
  eapply agree_bind; [|intros; by apply IH].
  by eapply alike_end; [exact Hin|exact Hlt|by eexists|by eexists|..].
Qed.

(** Runs that are alike finish with the same parameters, optimizer, counters and
    loader position. *)
Lemma alike_finish before1 before2 i1 i2 fuel w1 w2 r1 r2 : in_loop before1 before2 w1 w2 r1 r2 →
  agree (λ s1 s2 r1' r2', sim r1' r2' ∧ ∃ e, s2 = set_elapsed e s1)
    (finish_training fuel (instant i1) before1 w1 r1) (finish_training fuel (instant i2) before2 w2 r2).
Proof.
  intros Hin. unfold finish_training. eapply agree_bind; [by apply alike_loop|]. intros [] [] r3 r4 Hs.
  unfold agree, mbind', mget, mret. simpl. split; [done|]. destruct (sm_training _ _ Hs) as [w ->]. by exists (wo_elapsed w).
Qed.

(** ** Resuming *)

(** A training that has just saved [t], its loader at [l]: the trainer is now [t'], and
    the report of the turn is to come. *)
Record saved_turn t l t' (before : f64) (w : Window) (shown : list TrainProgress) : Prop := {
  sd_tidy : tidy_disk t;
  sd_newest : newest t;
  sd_step : eight_digits (ts_step (tr_state t));
  sd_loader : ts_loader (tr_state t) = Some (loader_state l);
  sd_reachable : loader_reachable l;
  sd_saved : ∃ name, save_checkpoint t = (Ok name, t');
  sd_report : at_report before w (mk_run t' l shown);
  sd_reportable : reportable before (total_steps (schedule (tr_config t)))
}.

(** A new process: a trainer set up alike over the same directory, a loader over the
    same dataset. *)
Record new_process t l t' t0 l0 : Prop := {
  np_trainer : set_up_like t t0;
  np_disk : tr_disk t0 = tr_disk t';
  np_loader : loader_reachable l0;
  np_setup : loader_setup l0 = loader_setup l;
  np_reportable text e : state_json (tr_state t) = inr text → parse_state text = inr (set_elapsed e (tr_state t)) →
    reportable e (total_steps (schedule (tr_config t)))
}.

Lemma at_report_elapsed before w r : reportable before (total_of r) → at_report before w r →
  is_Some (from_secs (elapsed_seconds (tr_state (tn_trainer r)))).
Proof. intros [Hel _] [_ (i & j & ->) _]. apply Hel. Qed.

(** [train] in the new process, up to its loop. *)
Lemma train_from t l t1 l0 : ts_loader (tr_state t1) = Some (loader_state l) → loader_reachable l → loader_reachable l0 →
  loader_setup l0 = loader_setup l →
  train (mk_run t1 l0 []) =
    finish_training (total_steps (schedule (tr_config t1)) - ts_step (tr_state t1)) (instant (tr_clock t1))
      (elapsed_seconds (tr_state t1)) (mk_window (instant (S (tr_clock t1))) 0 0) (mk_run (set_clock (S (S (tr_clock t1))) t1) l []).
Proof.
  intros Hl Hr Hr0 Hset. unfold train, mbind', mget. simpl. rewrite Hl. unfold by_loader. simpl. by rewrite (restore_position l l0).
Qed.

(** Claim C7. A training resumed from a checkpoint is the training that was interrupted:
    [resume] finds the step, and [train] with a new loader gives what the loop that had
    saved goes on to give - the same error or panic, or the same parameters,
    optimizer, counters and loader position, all but the time.  The directory holds no later
    checkpoint, its calls do not fail, and steps stay below 10^8, where names keep their
    order. *)
Theorem resumed_training_is_training t l t' before w shown t0 l0 stats i :
  saved_turn t l t' before w shown → new_process t l t' t0 l0 →
  ∃ t1, resume t0 = (Ok (Some (ts_step (tr_state t))), t1) ∧
    agree (λ s1 s2 r1 r2, sim r1 r2 ∧ ∃ e, s2 = set_elapsed e s1)
      ((let! w := report_due stats w in
        finish_training (total_steps (schedule (tr_config t)) - ts_step (tr_state t)) (instant i) before w) (mk_run t' l shown))
      (train (mk_run t1 l0 [])).
Proof.
  intros [Htidy Hnew H8 Hl Hr [name Hsave] Hrep Hable] [Hlike Hd Hr0 Hset Hable0].
  pose proof (save_checkpoint_wp t Htidy) as Hw. unfold wp in Hw. rewrite Hsave in Hw. simpl in Hw.
  destruct Hw as (Hans & Hsame & Hel & Htidy' & Hdisk). unfold save_answer in Hans.
  destruct (trained_header t) as [header|e|p] eqn:Hh; [|done..]. destruct (tl_json (tr_state t)) as [text Htext].
  specialize (Hdisk header text eq_refl Htext).
  assert (total_of (mk_run t' l shown) = total_steps (schedule (tr_config t))) as Htot by (destruct Hsame as [w' ->]; done).
  destruct (tl_state (tr_state t) text Htext) as [e Hp].
  { rewrite <- Hel. apply (at_report_elapsed before w (mk_run t' l shown)); [by rewrite Htot|done]. }
  destruct (resume_run t t0 header text e H8 Hnew Hlike Hh Hp) as (t1 & Hres & Hsame1 & He & Hd1); [by rewrite Hd|].
  exists t1. split; [done|].
  pose proof (report_wp stats before w (mk_run t' l shown)) as Hw. unfold wp in Hw. unfold mbind' at 1.
  destruct (report_due stats w (mk_run t' l shown)) as [x r1]. simpl in Hw. destruct Hw as (w1 & -> & Hk & Hw1); [by rewrite Htot|done|done|].
  rewrite (train_from t l) by (destruct Hsame1 as [w' ->]; done).
  assert (total_steps (schedule (tr_config t1)) = total_steps (schedule (tr_config t)) ∧ ts_step (tr_state t1) = ts_step (tr_state t)) as [-> ->]
    by (by destruct Hsame1 as [w' ->]).
  apply alike_finish. rewrite He. split.
  - split.
    + apply (same_training_both t _ t1); [done| |apply same_training_clock]. eapply same_training_trans; [exact Hsame|]. apply Hk.
    + simpl. by destruct Hk as (_ & _ & -> & _).
    + apply Hk.
    + apply (world_disk t'); [by rewrite <- Hd, <- Hd1|done].
  - done.
  - split; simpl; [by eexists|lia|lia].
  - destruct (kept_total _ _ Hk) as [-> _]. by rewrite Htot.
  - unfold total_of. simpl. destruct Hsame1 as [w' ->]. simpl. by apply (Hable0 text).
Qed.
End Resume.
