(* ===== verification/TrainerAtomic.v ===== *)
(** * Saving while calls fail

    Whatever calls fail, saving changes nothing but the directory and the clock, and a
    checkpoint directory appears whole or not at all. *)
From S2P Require Import Prelude Float PagedKv GenerationControl TrainData TrainDataSpec TrainLoaderSpec.
From S2P Require Import TrainDisk Safetensors SafetensorsSpec Trainer TrainerSpec.
Open Scope nat_scope.
Open Scope list_scope.
Open Scope m_scope.

(** ** The directory under faults *)
Definition entries_of (d : CkDisk) : gmap string Node := default ∅ (ck_root d).

(** Names other than [dir] are as in [E]; and [dir] is a directory of [files]. *)
Definition away (E : gmap string Node) (dir : string) (d : CkDisk) : Prop := ∀ n, n ≠ dir → entries_of d !! n = E !! n.
Definition in_dir (E : gmap string Node) (dir : string) (files : gmap string Bytes) (d : CkDisk) : Prop :=
  away E dir d ∧ entries_of d !! dir = Some (DirNode files).

Section Faults.
Context (E : gmap string Node) (dir : string).
Implicit Types d : CkDisk.
Implicit Types files : gmap string Bytes.

Lemma entries_root d d' : ck_root d' = ck_root d → entries_of d' = entries_of d.
Proof. unfold entries_of. by intros ->. Qed.

Lemma away_root d d' : ck_root d' = ck_root d → away E dir d → away E dir d'.
Proof. intros Hr Ha n Hn. rewrite (entries_root _ _ Hr). by apply Ha. Qed.
Lemma in_dir_root files d d' : ck_root d' = ck_root d → in_dir E dir files d → in_dir E dir files d'.
Proof. intros Hr [Ha Hd]. split; [by eapply away_root|]. by rewrite (entries_root _ _ Hr). Qed.

Lemma fs_next_wp (Q : res string (option ck_fault) → CkDisk → Prop) d :
  (∀ f d', ck_root d' = ck_root d → Q (Ok f) d') → wp fs_next Q d.
Proof. intros HQ. unfold wp, fs_next. destruct (ck_faults d); by apply HQ. Qed.

Lemma fs_try_wp (P : CkDisk → Prop) d : (∀ d d', ck_root d' = ck_root d → P d → P d') → P d →
  wp fs_try (post (λ _, P) (λ _, P)) d.
Proof. intros Hroot Hd. unfold fs_try. wp_step. apply fs_next_wp. intros [f|] d' Hd'; wp_steps; by eapply Hroot. Qed.

Lemma in_dir_known files d : in_dir E dir files d → ∃ entries, ck_root d = Some entries ∧ entries !! dir = Some (DirNode files) ∧
  ∀ n, n ≠ dir → entries !! n = E !! n.
Proof.
  unfold in_dir, away, entries_of. intros [Ha Hd]. destruct (ck_root d) as [entries|]; simpl in *; [by exists entries|].
  by rewrite lookup_empty in Hd.
Qed.

Lemma fs_dir_known files (Q : res string (gmap string Bytes) → CkDisk → Prop) d : in_dir E dir files d → Q (Ok files) d → wp (fs_dir dir) Q d.
Proof.
  intros (entries & Hr & Hd & _)%in_dir_known HQ. unfold fs_dir, fs_entries, mok_or. wp_steps. rewrite Hr. wp_steps. rewrite Hd. by wp_steps.
Qed.

Lemma put_dir_known files files' (Q : res string unit → CkDisk → Prop) d : in_dir E dir files d →
  (∀ d', in_dir E dir files' d' → Q (Ok tt) d') → wp (put_node dir (DirNode files')) Q d.
Proof.
  intros (entries & Hr & Hd & Ha)%in_dir_known HQ. unfold put_node, fs_entries, mok_or. wp_steps. rewrite Hr. wp_steps. apply HQ.
  split; unfold entries_of; simpl; [|apply lookup_insert_eq]. intros n Hn. unfold entries_of. simpl. rewrite lookup_insert_ne by done. by apply Ha.
Qed.

Lemma put_file_known name bytes files (Q : res string unit → CkDisk → Prop) d : in_dir E dir files d →
  (∀ d', in_dir E dir (<[name := bytes]> files) d' → Q (Ok tt) d') → wp (put_file (InDir dir name) bytes) Q d.
Proof. intros Hd HQ. unfold put_file. wp_step. eapply fs_dir_known; [done|]. by eapply put_dir_known. Qed.

Lemma fs_create_faulty name files d : in_dir E dir files d →
  wp (fs_create (InDir dir name)) (post (λ _, in_dir E dir (<[name := []]> files)) (λ _, away E dir)) d.
Proof.
  intros Hd. unfold fs_create. eapply wp_bind_post; [apply (fs_try_wp (in_dir E dir files)); [by apply in_dir_root|done]| |by intros ? ? []].
  intros [] d' Hd'. by eapply put_file_known.
Qed.

Lemma fs_append_faulty name present bytes files d : in_dir E dir files d → files !! name = Some present →
  wp (fs_append (InDir dir name) bytes) (post (λ _, in_dir E dir (<[name := present ++ bytes]> files)) (λ _, away E dir)) d.
Proof.
  intros Hd Hn. unfold fs_append. wp_step. apply fs_next_wp. intros f d' Hr. pose proof (in_dir_root _ _ _ Hr Hd) as Hd'.
  unfold get_file. wp_step. wp_step. eapply fs_dir_known; [done|]. cbn iota. unfold mok_or. rewrite Hn. wp_steps. destruct f as [f|].
  - wp_step. eapply put_file_known; [done|]. intros d'' [Ha _]. by wp_steps.
  - by eapply put_file_known.
Qed.

Lemma fs_write_faulty name bytes files d : in_dir E dir files d →
  wp (fs_write (InDir dir name) bytes) (post (λ _, in_dir E dir (<[name := bytes]> files)) (λ _, away E dir)) d.
Proof.
  intros Hd. unfold fs_write. eapply wp_bind_post; [by apply fs_create_faulty| |done]. intros [] d' Hd'.
  eapply wp_post_mono; [eapply (fs_append_faulty name []); [done|apply lookup_insert_eq]| |done].
  intros [] d''. by rewrite insert_insert_eq.
Qed.

Lemma fs_rename_file_faulty from to bytes files d : in_dir E dir files d → files !! from = Some bytes →
  wp (fs_rename_file dir from to) (post (λ _, in_dir E dir (<[to := bytes]> (delete from files))) (λ _, away E dir)) d.
Proof.
  intros Hd Hf. unfold fs_rename_file. eapply wp_bind_post; [apply (fs_try_wp (in_dir E dir files)); [by apply in_dir_root|done]| |by intros ? ? []].
  intros [] d' Hd'. wp_step. eapply fs_dir_known; [done|]. cbn iota. unfold mok_or. wp_step. rewrite Hf. wp_steps. by eapply put_dir_known.
Qed.

(** Where only the other names are known. *)
Lemma fs_dir_away (Q : res string (gmap string Bytes) → CkDisk → Prop) d : away E dir d →
  (∀ files, in_dir E dir files d → Q (Ok files) d) → (∀ e, Q (Err e) d) → wp (fs_dir dir) Q d.
Proof.
  intros Ha Hok Herr. unfold fs_dir, fs_entries, mok_or. wp_steps. destruct (ck_root d) as [entries|] eqn:Hr; wp_steps; [|apply Herr].
  destruct (entries !! dir) as [[b|files]|] eqn:Hd; wp_steps; [apply Herr| |apply Herr].
  apply Hok. split; [done|]. unfold entries_of. by rewrite Hr.
Qed.

Lemma fs_remove_file_faulty name d : away E dir d → wp (fs_remove_file dir name) (post (λ _, away E dir) (λ _, away E dir)) d.
Proof.
  intros Ha. unfold fs_remove_file. eapply wp_bind_post; [apply (fs_try_wp (away E dir)); [by apply away_root|done]| |done].
  intros [] d' Hd'. wp_step. apply fs_dir_away; [done| |done]. intros files Hin. unfold mok_or. wp_step.
  destruct (files !! name); wp_steps; [|done]. eapply put_dir_known; [done|]. by intros ? [].
Qed.
End Faults.

Section Parameters.
Context `{CheckpointData}.

Lemma header_loop_panics tensors : ∀ offset header p, header_loop tensors offset header = Panic p → benign p.
Proof.
  induction tensors as [|[n d] tensors IH]; intros offset header p; simpl; [done|].
  destruct (safetensors_dtype (data_dtype d)) as [s|e|q] eqn:Ed; simpl; [|done|].
  - destruct (usize_add _ _); simpl; [apply IH|by intros [= <-]].
  - by destruct (data_dtype d).
Qed.

Lemma header_panics tensors metadata p : safetensors_header tensors metadata = Panic p → benign p.
Proof.
  unfold safetensors_header. destruct (header_loop _ _ _) as [m|e|q] eqn:Eh; simpl; [done|done|].
  intros [= <-]. by eapply header_loop_panics.
Qed.

Lemma write_safetensors_faulty E dir name tensors metadata files d : in_dir E dir files d →
  wp (write_safetensors dir name tensors metadata)
    (post (λ _ d', ∃ header, safetensors_header tensors metadata = Ok header ∧
       in_dir E dir (<[name := safetensors_bytes header tensors]> (delete (with_extension name "safetensors.tmp") files)) d')
     (λ _, away E dir)) d.
Proof.
  intros Hd. unfold write_safetensors. wp_steps.
  destruct (safetensors_header tensors metadata) as [header|e|p] eqn:Hh; [|by destruct Hd|by eapply header_panics].
  set (tmp := with_extension name "safetensors.tmp"). wp_step.
  eapply wp_mono with (Q := post (λ _, in_dir E dir (<[name := safetensors_bytes header tensors]> (delete tmp files))) (λ _, away E dir)).
  - unfold write_temporary. eapply wp_bind_post; [by apply fs_create_faulty| |done]. intros [] d1 Hd1.
    eapply wp_bind_post; [eapply (fs_append_faulty E dir tmp []); [done|apply lookup_insert_eq]| |done]. intros [] d2 Hd2.
    rewrite insert_insert_eq in Hd2. simpl in Hd2.
    eapply wp_bind_post; [apply (fs_try_wp _ d2 (in_dir_root E dir _) Hd2)| |by intros ? ? []]. intros [] d3 Hd3.
    eapply wp_post_mono; [eapply (fs_rename_file_faulty E dir tmp name); [done|apply lookup_insert_eq]| |done].
    intros [] d4. by rewrite delete_insert_eq.
  - intros [[]|e|p] d'; simpl; [by intros ?; exists header| |done]. intros Ha. wp_step. unfold ignoring. wp_step.
    eapply wp_mono; [by apply fs_remove_file_faulty|]. intros [[]|e'|p'] d''; simpl; intros ?; by wp_steps.
Qed.
End Parameters.

Section Saving.
Context `{SftModel} {CO : Cosine} {CL : Clock}.
Implicit Types t : SftTrainer.
Notation TrainM := (M SftTrainer TrainError).

(** ** What saving leaves alone *)
Definition framed {A} (m : TrainM A) : Prop := ∀ t, same_training t (m t).2.

Lemma framed_bind {A B} (m : TrainM A) (k : A → TrainM B) : framed m → (∀ a, framed (k a)) → framed (let! a := m in k a).
Proof.
  intros Hm Hk t. unfold mbind'. specialize (Hm t). destruct (m t) as [[a|e|p] t']; simpl in *; [|done..].
  by eapply same_training_trans; [|apply Hk].
Qed.

Lemma same_training_disk d t : same_training t (set_ck_disk d t).
Proof. apply same_training_fields with (e := elapsed_seconds (tr_state t)); [done..|]. by destruct t as [? ? ? [] ? ? ? ?]. Qed.

Lemma framed_disk {A} describe (m : DiskM A) : framed (on_disk describe m).
Proof. intros t. unfold on_disk. destruct (m (tr_disk t)). apply same_training_disk. Qed.

Lemma framed_pure {A} (m : TrainM A) : (∀ t, (m t).2 = t) → framed m.
Proof. intros Hm t. rewrite Hm. apply same_training_refl. Qed.

Lemma framed_if {A} (b : bool) (m1 m2 : TrainM A) : framed m1 → framed m2 → framed (if b then m1 else m2).
Proof. by destruct b. Qed.

Lemma framed_mfor {A} (l : list A) (m : A → TrainM unit) : (∀ a, framed (m a)) → framed (mfor l m).
Proof. intros Hm. induction l as [|x l IH]; simpl; [by apply framed_pure|]. by apply framed_bind. Qed.

Lemma framed_last x : framed (mmodify (set_last x)).
Proof. intros t. apply same_training_fields with (e := elapsed_seconds (tr_state t)); [done..|]. by destruct t as [? ? ? [] ? ? ? ?]. Qed.

Lemma framed_now : framed now.
Proof. intros t. apply same_training_fields with (e := elapsed_seconds (tr_state t)); [done..|]. by destruct t as [? ? ? [] ? ? ? ?]. Qed.

Lemma framed_save_trained t dir : framed (save_trained t dir).
Proof. unfold save_trained, save_parts. destruct (trainable t); (apply framed_bind; [|intros _]; apply framed_disk). Qed.

Lemma framed_existing name : framed (remove_existing name).
Proof. unfold remove_existing. apply framed_bind; [apply framed_disk|]. intros b. apply framed_if; [apply framed_disk|by apply framed_pure]. Qed.

Lemma framed_prune : framed prune_checkpoints.
Proof.
  unfold prune_checkpoints. apply framed_bind; [apply framed_disk|]. intros l. apply framed_bind; [by apply framed_pure|]. intros t.
  apply framed_mfor. intros n. apply framed_disk.
Qed.

Lemma framed_save : framed save_checkpoint.
Proof.
  unfold save_checkpoint, save_checkpoint_with.
  repeat first [apply framed_disk|apply framed_existing|apply framed_prune|apply framed_save_trained|apply framed_last|apply framed_now|
    (by apply framed_pure)|apply framed_bind; [|intros]].
Qed.

(** ** A checkpoint appears whole *)
Lemma wp_on_disk {A} describe (m : DiskM A) (Q : res TrainError A → SftTrainer → Prop) t :
  wp m (λ x d, Q (map_err describe x) (set_ck_disk d t)) (tr_disk t) → wp (on_disk describe m) Q t.
Proof. unfold wp, on_disk. by destruct (m (tr_disk t)). Qed.

(** A call on the disk with a [post] of its own. *)
Lemma on_disk_post {A} describe (m : DiskM A) QOk QErr t :
  wp m (post QOk QErr) (tr_disk t) → wp (on_disk describe m) (post (λ a t', QOk a (tr_disk t')) (λ _ t', ∃ e, QErr e (tr_disk t'))) t.
Proof.
  intros Hm. apply wp_on_disk. eapply wp_mono; [exact Hm|]. intros [a|e|p] d; simpl; [done|by exists e|done].
Qed.

Section Atomic.
Context (t : SftTrainer).
Let name := checkpoint_name t.
Let temp := temporary_name name.
Let E := disk_entries t.
Context (Hnew : newest t) (Hfresh : E !! name = None).

(** Nothing but the temporary directory has changed. *)
Definition intact (t' : SftTrainer) : Prop := away E temp (tr_disk t').

(** The checkpoint is there, with all its files. *)
Definition complete (t' : SftTrainer) : Prop := ∃ header text,
  trained_header t = Ok header ∧ state_json (tr_state t) = inr text ∧
  entries_of (tr_disk t') !! name = Some (DirNode (trained_files t header text)).

Lemma temp_dir_post (m : DiskM unit) (P : CkDisk → Prop) describe t' :
  wp m (post (λ _, P) (λ _, away E temp)) (tr_disk t') →
  wp (on_disk describe m) (post (λ _ t', P (tr_disk t')) (λ _, intact)) t'.
Proof. intros Hm. eapply wp_post_mono; [by apply on_disk_post|done|]. by intros e t'' [e' ?]. Qed.

Lemma create_root_intact t' : intact t' → wp (on_disk io fs_create_root) (post (λ _, intact) (λ _, intact)) t'.
Proof.
  intros Hi. apply temp_dir_post. unfold fs_create_root.
  eapply wp_bind_post; [apply (fs_try_wp _ _ (away_root E temp) Hi)| |done]. intros [] d Hd. wp_steps.
  unfold away, entries_of in *. destruct (ck_root d) eqn:Hr; wp_steps; simpl; [by rewrite Hr|done].
Qed.

Lemma exists_wp n (Q : res TrainError bool → SftTrainer → Prop) t' :
  (∀ b d, ck_root d = ck_root (tr_disk t') → (entries_of d !! n = None → b = false) → Q (Ok b) (set_ck_disk d t')) →
  wp (on_disk io (fs_exists n)) Q t'.
Proof.
  intros HQ. apply wp_on_disk. unfold fs_exists. wp_step. apply fs_next_wp. intros f d Hr. wp_steps. apply HQ; [done|].
  unfold entries_of. destruct f, (ck_root d); simpl; try done. intros ->. by rewrite bool_decide_eq_false_2 by apply is_Some_None.
Qed.

Lemma remove_temp_intact t' : intact t' → wp (remove_existing temp) (post (λ _, intact) (λ _, intact)) t'.
Proof.
  intros Hi. unfold remove_existing. wp_step. apply exists_wp. intros b d Hr _.
  assert (away E temp d) as Ha by (by eapply away_root). destruct b; [|by wp_steps].
  apply temp_dir_post. unfold fs_remove_dir_all. wp_step. apply fs_next_wp. intros f d' Hr'.
  pose proof (away_root _ _ _ _ Hr' Ha) as Ha'. wp_step. apply fs_dir_away with (E := E); [done| |done].
  intros files Hin. destruct f as [f|].
  - wp_step. eapply put_dir_known; [done|]. intros d'' [? _]. by wp_steps.
  - destruct (in_dir_known _ _ _ _ Hin) as (entries & He & _ & Hother). unfold fs_entries, mok_or. wp_steps. rewrite He. wp_steps.
    intros n Hn. unfold entries_of. simpl. rewrite lookup_delete_ne by done. by apply Hother.
Qed.

Lemma create_temp_intact t' : intact t' →
  wp (on_disk io (fs_create_dir temp)) (post (λ _ t', in_dir E temp ∅ (tr_disk t')) (λ _, intact)) t'.
Proof.
  intros Hi. apply temp_dir_post. unfold fs_create_dir.
  eapply wp_bind_post; [apply (fs_try_wp _ _ (away_root E temp) Hi)| |done]. intros [] d Hd. unfold fs_entries, mok_or. wp_steps.
  destruct (ck_root d) as [entries|] eqn:Hr; wp_steps; [|done]. destruct (entries !! temp); wp_steps; [done|].
  unfold put_node, fs_entries, mok_or. wp_steps. rewrite Hr. wp_steps. unfold away, entries_of in Hd. rewrite Hr in Hd. simpl in Hd.
  split; [|apply lookup_insert_eq]. intros n Hn. unfold entries_of. simpl. rewrite lookup_insert_ne by done. by apply Hd.
Qed.

Lemma save_parts_faulty {T} `{!Trained T} (module : T) (optimizer : Optimizer T) t' : in_dir E temp ∅ (tr_disk t') →
  wp (save_parts module optimizer temp) (post (λ _ t', ∃ header, part_header module = Ok header ∧
    in_dir E temp (part_files module optimizer header) (tr_disk t')) (λ _, intact)) t'.
Proof.
  intros Hin. unfold save_parts. eapply (wp_bind_post _ _ (λ _ t1, ∃ header, part_header module = Ok header ∧
    in_dir E temp (<[TRAINABLE_FILE := safetensors_bytes header (collect_params (float_params module))]> ∅) (tr_disk t1)) (λ _, intact));
    [|intros [] t1 (header & Hh & H1')|done].
  - eapply wp_post_mono; [apply on_disk_post, write_safetensors_faulty; exact Hin|done|]. by intros e t'' [e' ?].
  - eapply wp_post_mono; [apply on_disk_post, fs_write_faulty; exact H1'| |by intros e t'' [e' ?]].
    intros [] t2 H2'. by exists header.
Qed.

Lemma save_trained_faulty t' : in_dir E temp ∅ (tr_disk t') →
  wp (save_trained t temp) (post (λ _ t', ∃ header, trained_header t = Ok header ∧
    in_dir E temp (saved_parts t header) (tr_disk t')) (λ _, intact)) t'.
Proof. intros Hin. unfold save_trained, trained_header, saved_parts. destruct (trainable t); by apply save_parts_faulty. Qed.

(** After the rename: the checkpoint, and directories of steps that were there. *)
Definition renamed files (d : CkDisk) : Prop := entries_of d !! name = Some (DirNode files) ∧
  ∀ n, n ∈ checkpoints (entries_of d) → n = name ∨ n ∈ checkpoints E.

Lemma rename_faulty files t' : in_dir E temp files (tr_disk t') →
  wp (on_disk io (fs_rename_dir temp name)) (post (λ _ t', renamed files (tr_disk t')) (λ _, intact)) t'.
Proof.
  intros Hin. apply temp_dir_post. unfold fs_rename_dir.
  eapply wp_bind_post; [apply (fs_try_wp _ _ (in_dir_root E temp files) Hin)| |by intros ? ? []]. intros [] d Hd.
  wp_step. eapply fs_dir_known; [done|]. destruct (in_dir_known _ _ _ _ Hd) as (entries & Hr & Ht & Hother).
  unfold fs_entries, mok_or. wp_steps. rewrite Hr. wp_steps. rewrite Hother, Hfresh by done. wp_steps.
  split; unfold entries_of; simpl; [apply lookup_insert_eq|]. intros n. rewrite !checkpoints_elem. intros [Hp [fs Hf]].
  rewrite lookup_insert_Some in Hf. destruct Hf as [[<- _]|[_ Hf]]; [by left|]. rewrite lookup_delete_Some in Hf.
  destruct Hf as [Hne Hf]. right. split; [done|]. exists fs. by rewrite <- Hother.
Qed.

Lemma renamed_root files d d' : ck_root d' = ck_root d → renamed files d → renamed files d'.
Proof. unfold renamed. by intros ->%entries_root. Qed.

Lemma put_latest_renamed files bytes d : renamed files d →
  wp (put_file (InRoot LATEST_FILE) bytes) (post (λ _, renamed files) (λ _, renamed files)) d.
Proof.
  intros Hd. unfold put_file, fs_entries, mok_or. wp_steps. destruct (ck_root d) as [entries|] eqn:Hr; wp_steps; [|done].
  assert (renamed files d → ∀ bytes, renamed files (set_root (<[LATEST_FILE := FileNode bytes]> entries) d)) as Hput.
  { intros [Hn Hc] b. unfold renamed, entries_of in *. rewrite Hr in *. simpl in *.
    split; [by rewrite lookup_insert_ne|]. intros n Hin. apply Hc. rewrite checkpoints_elem in *. destruct Hin as [Hp [fs Hf]].
    split; [done|]. exists fs. rewrite lookup_insert_Some in Hf. by destruct Hf as [[_ [=]]|[_ ?]]. }
  destruct (entries !! LATEST_FILE) as [[b|fs]|]; unfold put_node, fs_entries, mok_or; wp_steps; try done;
    rewrite Hr; wp_steps; by apply Hput.
Qed.

Lemma write_latest_renamed files bytes t' : renamed files (tr_disk t') →
  wp (on_disk io (fs_write (InRoot LATEST_FILE) bytes))
    (post (λ _ t', renamed files (tr_disk t')) (λ _ t', renamed files (tr_disk t'))) t'.
Proof.
  intros Hd. eapply wp_post_mono; [apply on_disk_post with (QOk := λ _, renamed files) (QErr := λ _, renamed files)|done|by intros e t'' [e' ?]].
  unfold fs_write, fs_create. eapply wp_bind_post with (QOk := λ _, renamed files) (QErr := λ _, renamed files); [| |done].
  - eapply wp_bind_post; [apply (fs_try_wp _ _ (renamed_root files) Hd)| |done]. intros [] d1 Hd1. by apply put_latest_renamed.
  - intros [] d2 Hd2. unfold fs_append. wp_step. apply fs_next_wp. intros f d3 Hr. pose proof (renamed_root _ _ _ Hr Hd2) as Hd3.
    wp_step. eapply wp_mono with (Q := λ x d, (∀ p, x ≠ Panic p) ∧ d = d3).
    { unfold get_file, fs_entries, mok_or. wp_steps. destruct (ck_root d3) as [entries|]; wp_steps; [|done].
      by destruct (entries !! LATEST_FILE) as [[?|?]|]; wp_steps. }
    intros [present|e|p] d [Hp ->]; [|done|by destruct (Hp p)]. destruct f as [f|]; [|by apply put_latest_renamed].
    eapply wp_bind_post; [by apply put_latest_renamed| |done]. intros [] d4 Hd4. by wp_steps.
Qed.

Lemma remove_dir_renamed files n d : n ≠ name → renamed files d →
  wp (fs_remove_dir_all n) (post (λ _, renamed files) (λ _, renamed files)) d.
Proof.
  intros Hn Hd. unfold fs_remove_dir_all. wp_step. apply fs_next_wp. intros f d1 Hr. pose proof (renamed_root _ _ _ Hr Hd) as Hd1.
  unfold fs_dir, fs_entries, put_node, fs_entries, mok_or. wp_steps. destruct (ck_root d1) as [entries|] eqn:Hr1; wp_steps; [|done].
  destruct (entries !! n) as [[b|fs]|] eqn:En; wp_steps; try done.
  destruct Hd1 as [Hname Hc]. unfold entries_of in *. rewrite Hr1 in *. simpl in *.
  destruct f as [f|]; wp_steps; rewrite Hr1; wp_steps; split; unfold entries_of; simpl.
  - by rewrite lookup_insert_ne.
  - intros m. rewrite checkpoints_elem. intros [Hp [fs' Hf]]. rewrite lookup_insert_Some in Hf.
    apply Hc, checkpoints_elem. split; [done|]. destruct Hf as [[<- _]|[_ Hf]]; by eexists.
  - by rewrite lookup_delete_ne.
  - intros m. rewrite checkpoints_elem. intros [Hp [fs' Hf]]. rewrite lookup_delete_Some in Hf.
    apply Hc, checkpoints_elem. split; [done|]. destruct Hf. by eexists.
Qed.

Lemma prune_renamed files t' : renamed files (tr_disk t') →
  wp prune_checkpoints (post (λ _ t', renamed files (tr_disk t')) (λ _ t', renamed files (tr_disk t'))) t'.
Proof.
  intros Hd. unfold prune_checkpoints.
  eapply wp_bind_post with (QOk := λ l t1, renamed files (tr_disk t1) ∧ l = listing (entries_of (tr_disk t1)))
    (QErr := λ _ t1, renamed files (tr_disk t1)); [| |done].
  - eapply wp_post_mono; [apply on_disk_post with (QOk := λ l d, renamed files d ∧ l = listing (entries_of d))
      (QErr := λ _, renamed files)|done|by intros e t'' [e' ?]].
    unfold fs_read_dir. eapply wp_bind_post; [apply (fs_try_wp _ _ (renamed_root files) Hd)| |done].
    intros [] d Hd1. unfold fs_entries, mok_or. wp_steps. destruct (ck_root d) as [entries|] eqn:Hr; wp_steps; [|done].
    split; [done|]. unfold entries_of. by rewrite Hr.
  - intros l t1 [Hd1 ->]. wp_steps. change (checkpoint_names (listing (entries_of (tr_disk t1)))) with (checkpoints (entries_of (tr_disk t1))).
    fold (removed (tr_config t1) (entries_of (tr_disk t1))).
    eapply wp_post_mono; [apply wp_mfor with (I := λ l t2, renamed files (tr_disk t2) ∧ name ∉ l) (QErr := λ _ t2, renamed files (tr_disk t2))| |done].
    + split; [done|]. destruct Hd1 as [Hn Hc]. apply newest_kept.
      * apply checkpoints_elem. split; [apply step_prefix|by eexists].
      * intros other [->|Ho]%Hc; [apply name_leb_refl|by apply Hnew].
    + intros n l t2 [Hd2 Hn]. rewrite not_elem_of_cons in Hn. destruct Hn as [Hne Hn].
      eapply wp_post_mono; [apply on_disk_post, (remove_dir_renamed files n); [by apply not_eq_sym|exact Hd2]|by intros ? ? ?|by intros e t'' [e' ?]].
    + by intros [] t2 [? _].
Qed.

Lemma renamed_complete header text t' : trained_header t = Ok header → state_json (tr_state t) = inr text →
  renamed (trained_files t header text) (tr_disk t') → complete t'.
Proof. intros Hh Ht [Hd _]. by exists header, text. Qed.

Lemma existing_fresh files t' : in_dir E temp files (tr_disk t') →
  wp (remove_existing name) (post (λ _ t', in_dir E temp files (tr_disk t')) (λ _, intact)) t'.
Proof.
  intros Hin. unfold remove_existing. wp_step. apply exists_wp. intros b d Hr Hb.
  pose proof (in_dir_root _ _ _ _ _ Hr Hin) as Hin'. rewrite Hb by (destruct Hin' as [Ha _]; by rewrite Ha). by wp_steps.
Qed.

Lemma on_disk_kept {A} describe (m : DiskM A) QOk QErr t' : wp (on_disk describe m) (post QOk QErr) t' →
  wp (on_disk describe m) (post (λ a t'', QOk a t'' ∧ ∃ d, t'' = set_ck_disk d t') QErr) t'.
Proof. unfold wp, on_disk. destruct (m (tr_disk t')) as [[a|e|p] d]; simpl; [|done..]. intros ?. split; [done|by exists d]. Qed.

Lemma save_outcome : wp save_checkpoint (post (λ _, complete) (λ _ t', intact t' ∨ complete t')) t.
Proof.
  unfold save_checkpoint, save_checkpoint_with. assert (intact t) as Hi by done.
  eapply wp_bind_post; [by apply on_disk_kept, create_root_intact| |by left]. intros [] t1 [Hi1 [d1 ->]]. do 2 wp_step.
  eapply wp_bind_post; [by apply remove_temp_intact| |by left]. intros [] t2 Hi2.
  eapply wp_bind_post; [by apply create_temp_intact| |by left]. intros [] t3 Hi3.
  eapply wp_bind_post; [by apply save_trained_faulty| |by left]. intros [] t4 (header & Hh & Hi4).
  do 2 wp_step. change (tr_state (set_ck_disk d1 t)) with (tr_state t).
  destruct (state_json (tr_state t)) as [e|text] eqn:Ht; simpl; [left; by destruct Hi4|].
  eapply wp_bind_post; [eapply temp_dir_post, fs_write_faulty, Hi4| |by left]. intros [] t5 Hi5. do 2 wp_step.
  eapply wp_bind_post; [by apply existing_fresh| |by left]. intros [] t6 Hi6.
  eapply wp_bind_post; [by eapply rename_faulty| |by left]. intros [] t7 Hi7.
  assert (∀ t', renamed (trained_files t header text) (tr_disk t') → complete t') as Hdone
    by (intros; by eapply renamed_complete).
  eapply wp_bind_post; [by eapply write_latest_renamed| |by intros; right; auto]. intros [] t8 Hi8.
  eapply wp_bind_post; [by eapply prune_renamed| |by intros; right; auto]. intros [] t9 Hi9.
  unfold now. wp_steps. by apply Hdone.
Qed.
End Atomic.

(** Claim C19. Whatever calls on the directory fail, a checkpoint of a new step (no later and
    no equal one is in the directory) appears whole or not at all: [save_checkpoint] answers [Ok] only when all its files are in place, and
    after an error either nothing but the temporary directory has changed or the checkpoint
    is complete; and saving leaves the training as it was. *)
Theorem checkpoint_is_atomic t : newest t → disk_entries t !! checkpoint_name t = None →
  same_training t (save_checkpoint t).2 ∧
  match save_checkpoint t with
  | (Ok _, t') => complete t t'
  | (Err _, t') => intact t t' ∨ complete t t'
  | (Panic p, _) => benign p
  end.
Proof.
  intros Hnew Hfresh. split; [apply framed_save|]. pose proof (save_outcome t Hnew Hfresh) as Hw. unfold wp in Hw.
  by destruct (save_checkpoint t) as [[?|?|?] ?].
Qed.
End Saving.
