(* ===== verification/TrainerProgress.v ===== *)
(** * The training loop ends

    Every turn counts one step, so the loop needs no more turns than there are steps
    to go, and a training that returns has reached its last step and saved there. *)
From S2P Require Import Prelude Float PagedKv GenerationControl TrainData TrainDataSpec TrainLoaderSpec.
From S2P Require Import TrainDisk Safetensors SafetensorsSpec Trainer TrainerSpec TrainerResume.
From S2P Require Import TrainerAtomic.
Open Scope nat_scope.
Open Scope list_scope.
Open Scope m_scope.

(** ** Computations that never run out of fuel *)
Definition dry_res {E A} (r : res E A) : Prop := r ≠ Panic OutOfFuel.
Definition dry {S E A} (m : M S E A) : Prop := ∀ s, dry_res (m s).1.

Create HintDb dry.

Section Results.
Context {E : Type}.

Lemma dry_ok {A} (a : A) : dry_res (E := E) (Ok a).
Proof. done. Qed.
Lemma dry_err {A} (e : E) : dry_res (A := A) (Err e).
Proof. done. Qed.
Lemma dry_overflow {A} : dry_res (E := E) (A := A) (Panic Overflow).
Proof. done. Qed.
Lemma dry_expect {A} (o : option A) : dry_res (E := E) (expect Overflow o).
Proof. by destruct o. Qed.
Lemma dry_bind_res {A B} (r : res E A) (k : A → res E B) : dry_res r → (∀ a, dry_res (k a)) → dry_res (do? a := r in k a).
Proof. destruct r; simpl; [auto|done|]. intros Hr _ [= ->]. by apply Hr. Qed.
Lemma dry_map_res {A B} (f : A → res E B) l : (∀ a, dry_res (f a)) → dry_res (map_res f l).
Proof. intros Hf. induction l; simpl; [done|]. apply dry_bind_res; [done|]. intros b. by apply dry_bind_res. Qed.
Lemma dry_fold_res {A B} (f : A → B → res E A) l : (∀ a b, dry_res (f a b)) → ∀ a, dry_res (fold_res f a l).
Proof. intros Hf. induction l; intros a'; simpl; [done|]. by apply dry_bind_res. Qed.
Lemma dry_map_err {X A} (f : X → E) (r : res X A) : dry_res r → dry_res (map_err f r).
Proof. destruct r; simpl; [done..|]. intros Hr [= ->]. by apply Hr. Qed.
End Results.

Lemma dry_of_fallible {A} f (x : Fallible A) : dry_res (of_fallible f x).
Proof. by destruct x. Qed.

Section Computations.
Context {S E : Type}.
Implicit Types s : S.

Lemma dry_ret {A} (a : A) : dry (S := S) (E := E) (mret a).
Proof. done. Qed.
Lemma dry_throw {A} e : dry (S := S) (E := E) (A := A) (mthrow e).
Proof. done. Qed.
Lemma dry_get : dry (S := S) (E := E) mget.
Proof. done. Qed.
Lemma dry_modify f : dry (S := S) (E := E) (mmodify f).
Proof. done. Qed.
Lemma dry_lift {A} (r : res E A) : dry_res r → dry (S := S) (mlift r).
Proof. by intros Hr s. Qed.
Lemma dry_mexpect {A} p (o : option A) : p ≠ OutOfFuel → dry (S := S) (E := E) (mexpect p o).
Proof. intros Hp s. unfold dry_res. destruct o; simpl; congruence. Qed.
Lemma dry_ok_or {A} (o : option A) e : dry (S := S) (E := E) (mok_or o e).
Proof. by destruct o. Qed.
Lemma dry_bind {A B} (m : M S E A) (k : A → M S E B) : dry m → (∀ a, dry (k a)) → dry (let! a := m in k a).
Proof.
  intros Hm Hk s. unfold mbind'. specialize (Hm s). destruct (m s) as [[a|e|p] s']; simpl in *; [apply Hk|done|].
  intros [= ->]. by apply Hm.
Qed.
Lemma dry_catch {A} (m : M S E A) handler : dry m → (∀ e, dry (handler e)) → dry (mcatch m handler).
Proof. intros Hm Hh s. unfold mcatch. specialize (Hm s). destruct (m s) as [[a|e|p] s']; simpl in *; [done|apply Hh|done]. Qed.
Lemma dry_mfor {A} (l : list A) (m : A → M S E unit) : (∀ a, dry (m a)) → dry (mfor l m).
Proof. intros Hm. induction l; simpl; [done|]. by apply dry_bind. Qed.
Lemma dry_mmap {A B} (l : list A) (m : A → M S E B) : (∀ a, dry (m a)) → dry (mmap l m).
Proof. intros Hm. induction l; simpl; [done|]. apply dry_bind; [done|]. intros b. by apply dry_bind. Qed.
End Computations.

(** Steps through a computation: its binds, its calls, its branches. *)
Ltac dry_step :=
  first
    [ apply dry_ok | apply dry_err | apply dry_overflow | apply dry_expect | apply dry_of_fallible
    | apply dry_ret | apply dry_throw | apply dry_get | apply dry_modify | apply dry_ok_or
    | apply dry_mexpect; discriminate
    | apply dry_lift | apply dry_map_err
    | apply dry_bind_res; [|intros] | apply dry_bind; [|intros] | apply dry_catch; [|intros]
    | apply dry_mfor; intros | apply dry_mmap; intros | apply dry_map_res; intros | apply dry_fold_res; intros
    | match goal with |- context [match ?x with _ => _ end] => destruct x end ].
Ltac drain := repeat first [progress eauto with dry | dry_step].

(** ** The loader *)
Lemma dry_collate examples pad : dry_res (collate examples pad).
Proof. unfold collate, pad_row. drain. Qed.
#[export] Hint Resolve dry_collate : dry.

Lemma dry_reorder : dry reorder.
Proof. unfold reorder. drain. Qed.
#[export] Hint Resolve dry_reorder : dry.

Lemma dry_next_global : dry next_global.
Proof. unfold next_global, start_epoch. drain. Qed.
#[export] Hint Resolve dry_next_global : dry.

Lemma dry_next_batch : dry next_batch.
Proof.
  unfold next_batch. drain. generalize (@None SftBatch). generalize (seq 0 (world_size a)).
  intros l. induction l as [|shard l IH]; intros o; simpl; drain.
Qed.
#[export] Hint Resolve dry_next_batch : dry.

(** ** The directory *)
Lemma dry_next : dry fs_next.
Proof. intros d. unfold fs_next. by destruct (ck_faults d). Qed.
#[export] Hint Resolve dry_next : dry.

Lemma dry_try : dry fs_try.
Proof. unfold fs_try. drain. Qed.
#[export] Hint Resolve dry_try : dry.

Lemma dry_dir name : dry (fs_dir name).
Proof. unfold fs_dir, fs_entries. drain. Qed.
#[export] Hint Resolve dry_dir : dry.

Lemma dry_put_node name node : dry (put_node name node).
Proof. unfold put_node, fs_entries. drain. Qed.
#[export] Hint Resolve dry_put_node : dry.

Lemma dry_get_file place : dry (get_file place).
Proof. unfold get_file, fs_entries. drain. Qed.
Lemma dry_put_file place bytes : dry (put_file place bytes).
Proof. unfold put_file, fs_entries. drain. Qed.
#[export] Hint Resolve dry_get_file dry_put_file : dry.

Lemma dry_create_root : dry fs_create_root.
Proof. unfold fs_create_root. drain. Qed.
Lemma dry_exists name : dry (fs_exists name).
Proof. unfold fs_exists. drain. Qed.
Lemma dry_create_dir name : dry (fs_create_dir name).
Proof. unfold fs_create_dir, fs_entries. drain. Qed.
Lemma dry_remove_dir name : dry (fs_remove_dir_all name).
Proof. unfold fs_remove_dir_all, fs_entries. drain. Qed.
Lemma dry_rename_dir from to : dry (fs_rename_dir from to).
Proof. unfold fs_rename_dir, fs_entries. drain. Qed.
Lemma dry_read_dir : dry fs_read_dir.
Proof. unfold fs_read_dir, fs_entries. drain. Qed.
Lemma dry_write place bytes : dry (fs_write place bytes).
Proof. unfold fs_write, fs_create, fs_append. drain. Qed.
#[export] Hint Resolve dry_create_root dry_exists dry_create_dir dry_remove_dir dry_rename_dir dry_read_dir dry_write : dry.

Lemma dry_header_loop `{CheckpointData} tensors offset header : dry_res (header_loop tensors offset header).
Proof. intros Hp. by apply header_loop_panics in Hp. Qed.
#[export] Hint Resolve dry_header_loop : dry.

Lemma dry_write_safetensors `{CheckpointData} dir name tensors metadata : dry (write_safetensors dir name tensors metadata).
Proof.
  unfold write_safetensors, write_temporary, ignoring, fs_create, fs_append, fs_rename_file, fs_remove_file. drain.
Qed.
#[export] Hint Resolve dry_write_safetensors : dry.

(** ** The trainer *)
Section Training.
Context `{SftModel} {CO : Cosine} {CL : Clock}.
Implicit Types t : SftTrainer.
Notation TrainM := (M SftTrainer TrainError).

Lemma dry_on_disk {A} describe (m : DiskM A) : dry m → dry (on_disk describe m).
Proof.
  intros Hm t. unfold on_disk. specialize (Hm (tr_disk t)). destruct (m (tr_disk t)) as [r d]. by apply dry_map_err.
Qed.

Lemma dry_now : dry now.
Proof. done. Qed.

Lemma dry_micro_loss t batch n : dry_res (micro_loss t batch n).
Proof. unfold micro_loss, loss_chunk_rows, cross_entropy_chunk_rows. drain. Qed.

Lemma dry_micro_loop {T} `{!Trained T} t (module : T) n batches : ∀ acc loss, dry_res (micro_loop t module n batches acc loss).
Proof.
  induction batches as [|b batches IH]; intros acc loss; simpl; [done|]. unfold read_scalar.
  drain.
Qed.
#[local] Hint Resolve dry_micro_loop : dry.

Lemma dry_step_gradients {T} `{!Trained T} t (module : T) n batches : dry_res (step_gradients t module n batches).
Proof. unfold step_gradients, clip_global_norm, synchronize. drain. Qed.
#[local] Hint Resolve dry_step_gradients : dry.

Lemma dry_step_sums t batches : dry_res (step_sums t batches).
Proof. unfold step_sums, trainable_gradients, validate. drain. Qed.
#[local] Hint Resolve dry_step_sums : dry.

Lemma dry_training_step batches : dry (step batches).
Proof.
  unfold step, update, skip_step, count_step. drain.
Qed.

Lemma dry_save : dry save_checkpoint.
Proof.
  unfold save_checkpoint, save_checkpoint_with, remove_existing, prune_checkpoints, save_trained, save_parts, save_trainable.
  repeat first [apply dry_now|apply dry_on_disk; solve [drain]|dry_step].
Qed.

Lemma dry_progress stats total window tokens steps epoch : dry (progress stats total window tokens steps epoch).
Proof. unfold progress, elapsed_since. repeat first [apply dry_now|dry_step]. Qed.

Lemma dry_by_trainer {A} (m : TrainM A) : dry m → dry (by_trainer m).
Proof. intros Hm r. unfold by_trainer. specialize (Hm (tn_trainer r)). by destruct (m (tn_trainer r)). Qed.
Lemma dry_by_loader {A} (m : M SftLoader DataError A) : dry m → dry (by_loader m).
Proof. intros Hm r. unfold by_loader. specialize (Hm (tn_loader r)). by destruct (m (tn_loader r)) as [x l]. Qed.
#[local] Hint Resolve dry_training_step dry_save dry_progress dry_now dry_next_batch : dry.

Ltac drain_run := repeat first [apply dry_by_trainer; solve [drain]|apply dry_by_loader; solve [drain]|dry_step].

Lemma dry_turn started before : dry (train_turn started before).
Proof. unfold train_turn, elapsed_since. drain_run. Qed.
Lemma dry_end_turn stats w : dry (end_turn stats w).
Proof. unfold end_turn, save_due, report_due, report, elapsed_since. drain_run. Qed.

(** ** What a turn leaves behind *)

Lemma update_answers applied lr grads t : wp (update applied lr grads) (λ x _, ∀ e, x ≠ Err e) t.
Proof.
  unfold wp, update, skip_step, mbind', mget, mexpect. destruct applied; simpl; [done|].
  by destruct (checked_add _ _ _).
Qed.
Lemma count_answers tokens t : wp (count_step tokens) (λ x _, ∀ e, x ≠ Err e) t.
Proof.
  unfold wp, count_step, mbind', mget, mexpect. destruct (usize_add _ _); simpl; [|done]. by destruct (checked_add _ _ _).
Qed.

(** A step that fails changes nothing. *)
Lemma step_error batches t : wp (step batches) (λ x t', ∀ e, x = Err e → t' = t) t.
Proof.
  unfold step. case_decide; [by wp_steps|]. wp_steps.
  destruct (step_sums t batches) as [[normalizer [[grads norm] loss_sum]]|e|p]; [|by intros ? [= <-]|done].
  wp_step. eapply wp_mono; [apply update_answers|]. intros [[]|e|p] t' Hu; [|by destruct (Hu e)|done].
  wp_step. eapply wp_mono; [apply count_answers|]. intros [n|e|p] t'' Hc; [by wp_steps|by destruct (Hc e)|done].
Qed.

Lemma progress_clock stats total window tokens steps epoch t :
  wp (progress stats total window tokens steps epoch) (λ _ t', ∃ n, t' = set_clock n t) t.
Proof.
  unfold progress, elapsed_since, mexpect. wp_steps.
  repeat (case_match; wp_steps; try (exists (tr_clock t); by destruct t)).
  all: try (apply wp_now; wp_steps; by eexists).
Qed.

Lemma wp_both {S E A} (m : M S E A) Q1 Q2 s : wp m Q1 s → wp m Q2 s → wp m (λ x s', Q1 x s' ∧ Q2 x s') s.
Proof. by split. Qed.
Lemma wp_any {S E A} (m : M S E A) s : wp m (λ _ _, True) s.
Proof. done. Qed.

(** Passing over a call. *)
Ltac pass := wp_step; eapply wp_mono; [apply wp_any|]; intros [?|?|?] ? _; [|done..].

(** A save that succeeds is the last checkpoint. *)
Lemma save_last t : wp save_checkpoint (λ x t', ∀ name, x = Ok name → ∃ at_, last_checkpoint t' = Some (ts_step (tr_state t), at_)) t.
Proof.
  unfold save_checkpoint, save_checkpoint_with. wp_step. apply wp_on_disk. unfold wp at 1. destruct (fs_create_root (tr_disk t)) as [[[]|e|p] d]; [|done..].
  cbn [fst snd map_err]. cbn iota. do 2 wp_step. do 3 pass. wp_step. wp_step. destruct (of_fallible _ _); [|done..].
  do 6 pass. wp_step. apply wp_now. wp_steps. intros name [= <-]. by eexists.
Qed.

(** The steps between two states of a run. *)
Definition advanced (n : nat) r r' : Prop := tr_config (tn_trainer r') = tr_config (tn_trainer r) ∧ step_of r' = step_of r + n.

Lemma advanced_trans n m r1 r2 r3 : advanced n r1 r2 → advanced m r2 r3 → advanced (n + m) r1 r3.
Proof. unfold advanced. intros [-> ->] [-> ->]. split; [done|lia]. Qed.

Lemma same_advanced r r' : same_training (tn_trainer r) (tn_trainer r') → advanced 0 r r'.
Proof. intros [w Hw]. unfold advanced, step_of. rewrite Hw. simpl. split; [done|lia]. Qed.

Lemma turn_advanced started before r :
  wp (train_turn started before) (λ x r', match x with Ok _ => advanced 1 r r' | Err _ => advanced 0 r r' | Panic _ => True end) r.
Proof.
  unfold train_turn. wp_steps. apply wp_by_loader. intros [bs|e|p] l; [|by apply same_advanced, same_training_refl|done].
  wp_step. apply wp_by_trainer.
  eapply wp_mono; [apply (wp_both _ _ _ _ (step_counters bs (tn_trainer r)) (step_error bs (tn_trainer r)))|].
  intros [stats|e|p] t [Hc He]; [|rewrite (He e eq_refl); by apply same_advanced, same_training_refl|done].
  destruct (Hc stats eq_refl) as (Hs & _ & _ & _ & Hcf & _). wp_steps. apply wp_by_trainer. wp_steps. apply wp_by_trainer.
  unfold elapsed_since. wp_step. apply wp_now. wp_steps. apply wp_by_trainer. wp_steps.
  split; simpl; [done|]. unfold step_of. simpl. lia.
Qed.

(** The end of a turn: a save that is due is the last checkpoint. *)
Lemma save_due_advanced r : wp save_due (λ x r', advanced 0 r r' ∧
  (checkpoint_due (tn_trainer r) = true → x = Ok tt → ∃ at_, last_checkpoint (tn_trainer r') = Some (step_of r, at_))) r.
Proof.
  unfold save_due. wp_steps. destruct (checkpoint_due (tn_trainer r)) eqn:Hdue.
  - wp_step. apply wp_by_trainer. eapply wp_mono; [apply (wp_both _ _ (λ _ t, same_training (tn_trainer r) t) _ (save_last (tn_trainer r)) (framed_save (tn_trainer r)))|].
    intros [name|e|p] t [Hl Hf]; [wp_steps; split; [by apply same_advanced|intros _ _; by apply (Hl name)]|..]; (split; [by apply same_advanced|done]).
  - wp_steps. split; [by apply same_advanced, same_training_refl|done].
Qed.

Lemma report_advanced stats w r :
  wp (report_due stats w) (λ _ r', advanced 0 r r' ∧ last_checkpoint (tn_trainer r') = last_checkpoint (tn_trainer r)) r.
Proof.
  assert (∀ n l p, let r' := mk_run (set_clock n (tn_trainer r)) l p in
    advanced 0 r r' ∧ last_checkpoint (tn_trainer r') = last_checkpoint (tn_trainer r)) as Hclock
    by (intros; split; [apply same_advanced, same_training_clock|done]).
  unfold report_due. wp_steps. case_decide; [|wp_step; split; [by apply same_advanced, same_training_refl|done]].
  wp_step. apply wp_by_trainer. unfold elapsed_since. wp_step. apply wp_now. wp_steps. apply wp_by_trainer.
  eapply wp_mono; [apply progress_clock|]. intros [p|e|p] t [n ->]; [|apply (Hclock n)..].
  unfold report. wp_steps. apply wp_by_trainer, wp_now. wp_steps. apply (Hclock (S n)).
Qed.

Definition saved_last r : Prop := ∃ at_, last_checkpoint (tn_trainer r) = Some (total_of r, at_).

Lemma end_turn_advanced stats w r : wp (end_turn stats w) (λ x r', advanced 0 r r' ∧
  ∀ w', x = Ok w' → step_of r = total_of r → saved_last r') r.
Proof.
  assert (advanced 0 r r) as Hr0 by (by apply same_advanced, same_training_refl).
  unfold end_turn, mexpect. wp_step. destruct (checked_add _ _ _); wp_steps; [|done].
  eapply wp_mono; [apply save_due_advanced|]. intros [[]|e|p] r1 [H1' Hs]; [|done..].
  eapply wp_mono; [apply report_advanced|]. intros x r2 [H2 Hl]. pose proof (advanced_trans _ _ _ _ _ H1' H2) as H12. split; [done|].
  intros w' _ Hr. unfold saved_last, total_of. rewrite Hl. destruct H12 as [-> _]. fold (total_of r). rewrite <- Hr. apply Hs; [|done].
  unfold checkpoint_due. apply bool_decide_eq_true_2. by right.
Qed.

(** ** Runs, turn by turn *)

(** Where the loop starts: the loader at the saved position, the clock read twice. *)
Record starts (r r0 : TrainRun) : Prop := {
  st_trainer : tn_trainer r0 = set_clock (S (S (tr_clock (tn_trainer r)))) (tn_trainer r);
  st_progress : tn_progress r0 = tn_progress r;
  st_loader : match ts_loader (tr_state (tn_trainer r)) with
    | Some position => restore_loader position (tn_loader r) = (Ok tt, tn_loader r0)
    | None => tn_loader r0 = tn_loader r
    end
}.

Section Turns.
Context (started : N) (before : f64).

(** A turn that succeeds, and [n] of them. *)
Inductive turn : Window → TrainRun → Window → TrainRun → Prop :=
| Turn w r stats r1 w' r' : step_of r < total_of r → train_turn started before r = (Ok stats, r1) →
    end_turn stats w r1 = (Ok w', r') → turn w r w' r'.
Inductive turns : nat → Window → TrainRun → Window → TrainRun → Prop :=
| turns_none w r : turns 0 w r w r
| turns_more n w r w1 r1 w' r' : turn w r w1 r1 → turns n w1 r1 w' r' → turns (S n) w r w' r'.

(** A turn that fails: in its step, or in the checkpoint or the report after it; the steps
    it has taken. *)
Inductive failed_turn : nat → TrainError → Window → TrainRun → TrainRun → Prop :=
| failed_step w r e r' : step_of r < total_of r → train_turn started before r = (Err e, r') → failed_turn 0 e w r r'
| failed_end w r stats r1 e r' : step_of r < total_of r → train_turn started before r = (Ok stats, r1) →
    end_turn stats w r1 = (Err e, r') → failed_turn 1 e w r r'.

(** What a run has come to: its answer, from [r] to [r']. *)
Definition trained_to {A} (w : Window) (r : TrainRun) (x : res TrainError A) (r' : TrainRun) : Prop :=
  match x with
  | Ok _ => ∃ w', turns (total_of r - step_of r) w r w' r' ∧ step_of r' = Nat.max (step_of r) (total_of r) ∧ (step_of r < total_of r → saved_last r')
  | Err e => ∃ n taken w1 r1, n < total_of r - step_of r ∧ turns n w r w1 r1 ∧ failed_turn taken e w1 r1 r' ∧
      step_of r1 = step_of r + n ∧ step_of r' = step_of r + n + taken
  | Panic p => p ≠ OutOfFuel
  end.

Lemma turn_steps w r w' r' : turn w r w' r' → advanced 1 r r' ∧ (step_of r' = total_of r' → saved_last r').
Proof.
  intros [w0 r0 stats r1 w1 r2 Hlt Ht He]. pose proof (turn_advanced started before r0) as H1'. pose proof (end_turn_advanced stats w0 r1) as H2.
  unfold wp in *. rewrite Ht in H1'. rewrite He in H2. cbn in *. destruct H2 as [H2 Hl].
  split; [exact (advanced_trans _ _ _ _ _ H1' H2)|]. intros Hs. apply (Hl w1); [done|]. destruct H2 as [Hc Hs2]. unfold total_of in *. rewrite <- Hc. lia.
Qed.

Lemma trained_from {A} w r w1 r1 (x : res TrainError A) r' : turn w r w1 r1 → trained_to w1 r1 x r' → trained_to w r x r'.
Proof.
  intros Ht Hx. destruct (turn_steps _ _ _ _ Ht) as [[Hc Hs] Hlast]. assert (step_of r < total_of r) as Hlt by (by destruct Ht).
  assert (total_of r1 = total_of r) as Htot by (unfold total_of; by rewrite Hc). destruct x as [a|e|p]; [| |done].
  - destruct Hx as (w' & Hn & Hs' & Hl). exists w'. rewrite Htot in *. replace (total_of r - step_of r) with (S (total_of r - step_of r1)) by lia.
    split; [by econstructor|]. split; [lia|]. intros _. destruct (decide (step_of r1 < total_of r)) as [?|Hge]; [auto|].
    replace (total_of r - step_of r1) with 0 in Hn by lia. inversion Hn; subst. apply Hlast. lia.
  - destruct Hx as (n & taken & w2 & r2 & Hn & Hts & Hf & Hs2 & Hs'). exists (S n), taken, w2, r2. split; [lia|]. split; [by econstructor|]. split; [done|lia].
Qed.

Lemma failed_from {A} taken e w r r' : failed_turn taken e w r r' → trained_to w r (Err (A := A) e) r'.
Proof.
  intros Hf. exists 0, taken, w, r. rewrite Nat.add_0_r. split; [destruct Hf; lia|]. split; [constructor|]. split; [done|]. split; [done|].
  destruct Hf as [w r e r' Hlt Ht|w r stats r1 e r' Hlt Ht He]; pose proof (turn_advanced started before r) as H1'; unfold wp in H1'; rewrite Ht in H1'; cbn in H1';
    [destruct H1'; lia|].
  pose proof (end_turn_advanced stats w r1) as H2. unfold wp in H2. rewrite He in H2. cbn in H2. destruct H2 as [[_ H2] _], H1' as [_ H1']. lia.
Qed.

Lemma trained_already {A} (a : A) w r : ¬ step_of r < total_of r → trained_to w r (Ok a) r.
Proof. intros Hge. exists w. replace (total_of r - step_of r) with 0 by lia. split; [constructor|]. split; [lia|done]. Qed.

Lemma loop_trained fuel : ∀ w r, total_of r - step_of r ≤ fuel → wp (train_loop fuel started before w) (trained_to w r) r.
Proof.
  induction fuel as [|fuel IH]; intros w r Hfuel; cbn [train_loop]; wp_step; wp_step; fold (step_of r) (total_of r);
    (case_decide as Hlt; [|wp_step; by apply trained_already]); [lia|].
  wp_step. pose proof (dry_turn started before r) as Hd. unfold wp at 1. destruct (train_turn started before r) as [[stats|e|p] r1] eqn:Et; cbn [fst snd] in *;
    [|by eapply failed_from, failed_step|by intros ->].
  wp_step. clear Hd. pose proof (dry_end_turn stats w r1) as Hd. unfold wp at 1. destruct (end_turn stats w r1) as [[w'|e|p] r2] eqn:Ee; cbn [fst snd] in *;
    [|by eapply failed_from, failed_end|by intros ->].
  assert (turn w r w' r2) as Ht by (by econstructor). destruct (turn_steps _ _ _ _ Ht) as [[Hc Hs] _].
  eapply wp_mono; [apply IH; unfold total_of in *; rewrite Hc; lia|]. intros x r3. by apply trained_from.
Qed.

Lemma finish_trained fuel w r : total_of r - step_of r ≤ fuel →
  wp (finish_training fuel started before w) (λ x r', trained_to w r x r' ∧ ∀ s, x = Ok s → s = tr_state (tn_trainer r')) r.
Proof.
  intros Hfuel. unfold finish_training. wp_step. eapply wp_mono; [by apply loop_trained|].
  intros [[]|e|p] r' Hx; [|done..]. wp_steps. split; [done|]. by intros s [= <-].
Qed.
End Turns.

Lemma restore_answers position r :
  wp (by_loader (restore_loader position)) (λ x r', (x = Ok tt ∧ restore_loader position (tn_loader r) = (Ok tt, tn_loader r') ∨ x = Panic OutOfBounds) ∧
    tn_trainer r' = tn_trainer r ∧ tn_progress r' = tn_progress r) r.
Proof.
  unfold wp, by_loader, restore_loader, reorder, mbind', mmodify, mget, mexpect, mret, mpanic.
  destruct (epoch_order _ _ _); simpl; auto.
Qed.

(** The run of [train]: its first reading of the clock, and its window at the second. *)
Definition run_from {A} (r : TrainRun) (x : res TrainError A) (r' : TrainRun) : Prop :=
  x = Panic OutOfBounds ∨ ∃ r0, starts r r0 ∧
    trained_to (instant (tr_clock (tn_trainer r))) (elapsed_seconds (tr_state (tn_trainer r))) (mk_window (instant (S (tr_clock (tn_trainer r)))) 0 0) r0 x r'.

Lemma train_trained r : wp train (λ x r', run_from r x r' ∧ ∀ s, x = Ok s → s = tr_state (tn_trainer r')) r.
Proof.
  unfold train. wp_step. wp_step. wp_step.
  eapply wp_mono with (Q := λ x r1, (x = Ok tt ∧ match ts_loader (tr_state (tn_trainer r)) with
      | Some position => restore_loader position (tn_loader r) = (Ok tt, tn_loader r1) | None => tn_loader r1 = tn_loader r end ∨ x = Panic OutOfBounds) ∧
    tn_trainer r1 = tn_trainer r ∧ tn_progress r1 = tn_progress r).
  { destruct (ts_loader _); [apply restore_answers|wp_step; auto]. }
  intros ? r1 ([[-> Hl]| ->] & Ht & Hp); [|split; [by left|done]]. do 2 (wp_step; apply wp_by_trainer, wp_now; cbn iota). cbn [tn_trainer tr_clock set_clock]. rewrite !Ht.
  eapply wp_mono; [apply finish_trained; unfold total_of, step_of; simpl; lia|].
  intros x r' [Hx Hs]. split; [|done]. right. eexists. split; [|exact Hx]. by split.
Qed.

(** Claim C25. Training ends, turn by turn: a turn is one call of [step] on the next
    batches, and what is due after it.  If [train] returns, it has made exactly the turns
    between the step it started at and the total, all of which succeeded, each counting one
    step; it is at its last step, saved there, and answers the state it ends in.  If it
    fails, some number of turns succeeded and the next one failed, in its step or after it:
    the run is left as that turn left it, with exactly the steps taken counted.  It never
    needs more turns than its loop is given. *)
Theorem training_ends r :
  let steps := total_of r - step_of r in
  let started := instant (tr_clock (tn_trainer r)) in
  let before := elapsed_seconds (tr_state (tn_trainer r)) in
  let w0 := mk_window (instant (S (tr_clock (tn_trainer r)))) 0 0 in
  match train r with
  | (Ok s, r') => ∃ r0 w', starts r r0 ∧ turns started before steps w0 r0 w' r' ∧ s = tr_state (tn_trainer r') ∧
      step_of r' = Nat.max (step_of r) (total_of r) ∧ (step_of r < total_of r → saved_last r')
  | (Err e, r') => ∃ r0 n taken w1 r1, starts r r0 ∧ n < steps ∧ turns started before n w0 r0 w1 r1 ∧ failed_turn started before taken e w1 r1 r' ∧
      step_of r1 = step_of r + n ∧ step_of r' = step_of r + n + taken
  | (Panic p, _) => p ≠ OutOfFuel
  end.
Proof.
  intros steps started before w0. pose proof (train_trained r) as Hw. unfold wp in Hw. destruct (train r) as [x r']; cbn [fst snd] in Hw.
  destruct Hw as [[->|(r0 & Hr0 & Hx)] Hs]; [done|].
  assert (step_of r0 = step_of r ∧ total_of r0 = total_of r) as [Hst Htot] by (unfold step_of, total_of; by rewrite (st_trainer _ _ Hr0)).
  unfold trained_to in Hx. rewrite Hst, Htot in Hx. destruct x as [s|e|p]; [| |done].
  - destruct Hx as (w' & Hts & Hr' & Hl). exists r0, w'. by auto.
  - destruct Hx as (n & taken & w1 & r1 & Hx). by exists r0, n, taken, w1, r1.
Qed.
End Training.
