(* ===== verification/TrainerExamples.v ===== *)
(** * Training on a concrete model

    A model of one byte, an optimizer that counts its steps, headers and states
    encoded in bits, and the witnesses of the trainer's theorems. *)
From S2P Require Import Prelude Float PagedKv GenerationControl TrainData TrainDataSpec TrainLoaderSpec.
From S2P Require Import TrainDataExamples TrainDisk Safetensors SafetensorsSpec Trainer TrainerSpec.
From S2P Require Import TrainerResume TrainerAtomic.
Open Scope nat_scope.
Open Scope list_scope.
Open Scope m_scope.

(** ** Bits as text *)
Fixpoint bits (p : positive) : Bytes :=
  match p with
  | xH => []
  | xO p => Byte.x30 :: bits p
  | xI p => Byte.x31 :: bits p
  end.
Fixpoint of_bits (text : Bytes) : positive :=
  match text with
  | Byte.x30 :: text => xO (of_bits text)
  | Byte.x31 :: text => xI (of_bits text)
  | _ => xH
  end.

Lemma of_bits_spaces p n : of_bits (bits p ++ replicate n Byte.x20) = p.
Proof. induction p as [p IH|p IH|]; simpl; [by f_equal..|by destruct n]. Qed.

(** ** Data of other crates *)
Notation ToyJson := (gen_tree (string + nat)).

Fixpoint toy_fields (l : list ToyJson) (name : string) : ToyJson :=
  match l with
  | GenLeaf (inl k) :: v :: rest => if String.eqb k name then v else toy_fields rest name
  | _ => GenNode 2 []
  end.
Definition toy_pairs (fields : list (string * ToyJson)) : list ToyJson :=
  concat ((λ f : string * ToyJson, [GenLeaf (inl f.1); f.2]) <$> fields).

Fixpoint toy_numbers (l : list ToyJson) : option (list nat) :=
  match l with
  | [] => Some []
  | GenLeaf (inr n) :: rest => ns ← toy_numbers rest; Some (n :: ns)
  | _ => None
  end.

#[export] Instance toy_checkpoint : CheckpointData := {|
  TensorData := Bytes * list nat * DType;
  data_bytes d := d.1.1;
  data_shape d := d.1.2;
  data_dtype d := d.2;
  from_bytes_vec b s d := Some (b, s, d);
  Json := ToyJson;
  json_string s := GenLeaf (inl s);
  json_usize n := GenLeaf (inr n);
  json_array l := GenNode 0 l;
  json_object fields := GenNode 1 (toy_pairs fields);
  json_index v name := match v with GenNode 1 l => toy_fields l name | _ => GenNode 2 [] end;
  json_as_str v := match v with GenLeaf (inl s) => Some s | _ => None end;
  json_as_usizes v := match v with GenNode 0 l => toy_numbers l | _ => None end;
  header_text m := bits (countable.encode m);
  parse_header text := countable.decode (of_bits text);
  ParamId := string;
  id_serialize id := id;
  id_deserialize id := Some id
|}.

Lemma toy_fields_spec fields k v : NoDup fields.*1 → (k, v) ∈ fields → toy_fields (toy_pairs fields) k = v.
Proof.
  induction fields as [|[k' v'] fields IH]; [by intros _ ?%elem_of_nil|]. cbn [fmap list_fmap fst]. intros Hnd Hin.
  inversion_clear Hnd as [|? ? Hn Hnd'].
  change (toy_pairs ((k', v') :: fields)) with (GenLeaf (inl k') :: v' :: toy_pairs fields). cbn [toy_fields].
  apply elem_of_cons in Hin as [[= -> ->]|Hin]; [by rewrite String.eqb_refl|].
  rewrite (proj2 (String.eqb_neq k' k)); [by apply IH|]. intros ->. apply Hn. apply list_elem_of_fmap. by exists (k, v).
Qed.

#[export] Instance toy_checkpoint_laws : CheckpointLaws.
Proof.
  split.
  - by intros [[? ?] ?].
  - intros fields k v. apply toy_fields_spec.
  - done.
  - intros l _. cbn. induction l as [|n l IH]; [done|]. cbn. by rewrite IH.
  - intros m n _. simpl. by rewrite of_bits_spaces, countable.decode_encode.
  - done.
Qed.

(** ** A model of one byte *)
Definition toy_param (b : Byte.byte) : Param := mk_param (H := toy_checkpoint) "w"%string ([b], [1], F32) true.
#[export] Instance toy_params : ModuleParams Byte.byte := {|
  float_params b := [toy_param b];
  map_floats b ps := match ps with p :: _ => default b (head (data_bytes (p_data p))) | [] => b end
|}.

#[export] Instance toy_autodiff : Autodiff := {|
  Loss := Z;
  Backward := Z;
  Grads := gmap string Z;
  Gradient := Z;
  Scalar := Z;
  Accumulator := gmap string Z;
  loss_value l := inr (f32_of_Z l);
  backward l := l;
  accumulator_new := ∅;
  accumulated a := a;
  no_grads := ∅;
  grads_get g id := g !! id;
  grads_remove g id := match g !! id with Some x => Some (x, delete id g) | None => None end;
  grads_register g id x := <[id := x]> g;
  squared_sum x := (x * x)%Z;
  scalar_add a b := (a + b)%Z;
  scalar_value s := inr (f32_of_Z s);
  mul_scalar x _ := x
|}.

#[export] Instance toy_trained : Trained Byte.byte := {|
  from_grads b _ := {["w"%string := b]};
  from_module b _ := ({["w"%string := b]}, 0%Z);
  accumulate (a : gmap string Z) _ (g : gmap string Z) := union_with (λ x y, Some (x + y)%Z) a g;
  Optimizer := nat;
  optimizer_init _ := 0;
  optimizer_step _ b (g : gmap string Z) n := (byte_of_N (Byte.to_N b + Z.to_N (default 0%Z (g !! "w"%string))), S n);
  record_bytes n := replicate n Byte.x2e;
  load_record text _ := inr (length text)
|}.

(** The position of a state, but for the elapsed time. *)
Definition toy_position (s : TrainerState) : nat * N * N * option (N * nat * N) :=
  (ts_step s, ts_tokens s, skipped_steps s, (λ l, (epoch l, cursor l, seed l)) <$> ts_loader s).
Definition toy_state (p : nat * N * N * option (N * nat * N)) : TrainerState :=
  mk_trainer_state p.1.1.1 p.1.1.2 p.1.2 zero ((λ l, mk_loader_state l.1.1 l.1.2 l.2) <$> p.2).

#[export] Instance toy_sft : SftModel := {|
  Model := Byte.byte;
  Adapters := Byte.byte;
  no_grad b := b;
  vocabulary_size _ := 20;
  sft_loss _ tokens _ _ _ _ := inr (Z.of_nat (length tokens.1));
  record_file name := name +:+ ".bin";
  state_json s := inr (bits (countable.encode (toy_position s)));
  parse_state text := match countable.decode (of_bits text) with Some p => inr (toy_state p) | None => inl "invalid"%string end
|}.
#[export] Instance toy_cos : Cosine := λ _, one.
#[export] Instance toy_clock : Clock := λ _, 0%N.

Lemma toy_parse s : parse_state (bits (countable.encode (toy_position s))) = inr (set_elapsed zero s).
Proof.
  cbn [parse_state toy_sft].
  pose proof (of_bits_spaces (countable.encode (toy_position s)) 0) as Hb. rewrite app_nil_r in Hb. rewrite Hb, countable.decode_encode.
  f_equal. destruct s as [? ? ? ? [[? ? ?]|]]; done.
Qed.

Lemma toy_parse_elapsed s text e : state_json s = inr text → parse_state text = inr (set_elapsed e s) → e = zero.
Proof. intros [= <-]. rewrite toy_parse. by intros [= ->]. Qed.

#[export] Instance toy_laws : TrainerLaws.
Proof.
  split.
  - apply _.
  - done.
  - intros s. by eexists.
  - intros s text [= <-] _. exists zero. apply toy_parse.
  - intros c o o0 _ _. simpl. by rewrite length_replicate.
  - intros c o o0 _ _. simpl. by rewrite length_replicate.
Qed.

(** ** A training of four steps, interrupted after the first *)
Definition toy_config : TrainConfig :=
  mk_train_config (mk_schedule one zero 1 4) zero zero zero zero (Some (f32_of_Z 100)) 1 1000 2 "ck" 1 1.

Definition toy_trainer (b : Byte.byte) (disk : CkDisk) : SftTrainer :=
  mk_trainer b (Full (optimizer_init (optimizer_config toy_config))) toy_config (mk_trainer_state 0 0 0 zero None) 20 None disk 0.

(** The directory holds a file of notes and an old checkpoint. *)
Definition toy_disk : CkDisk :=
  mk_ck_disk (Some {["notes"%string := FileNode []; step_name 0 := DirNode ∅]}) [].

Example toy_full : full Byte.x05 toy_config toy_disk 0 = Ok (toy_trainer Byte.x05 toy_disk).
Proof. reflexivity. Qed.

Definition toy_run : TrainRun := (train_turn 0 zero (mk_run (toy_trainer Byte.x05 toy_disk) toy_loader [])).2.
Definition toy_t : SftTrainer := tn_trainer toy_run.
Definition toy_l : SftLoader := tn_loader toy_run.
Definition toy_saved : SftTrainer := (save_checkpoint toy_t).2.
Definition toy_window : Window := mk_window 0 0 1.
Definition toy_new : SftTrainer := toy_trainer Byte.x05 (tr_disk toy_saved).

Example toy_stepped : (tr_model toy_t, ts_step (tr_state toy_t)) = (Byte.x09, 1).
Proof. vm_compute. reflexivity. Qed.

(** A checkpoint of later steps makes a new one vanish as it is pruned, and [latest]
    names it still. *)
Definition toy_crowded : SftTrainer :=
  set_ck_disk (mk_ck_disk (Some {[step_name 9 := DirNode ∅]}) []) toy_t.

Example newest_checkpoint_pruned :
  (save_checkpoint toy_crowded).1 = Ok (step_name 1) ∧
  (ck_root (tr_disk (save_checkpoint toy_crowded).2) ≫= lookup (step_name 1)) = None ∧
  (resume (save_checkpoint toy_crowded).2).1 = Err "checkpoint I/O failed: No such file or directory (os error 2)"%string.
Proof. vm_compute. done. Qed.

(** A LoRA trainer whose checkpoint cannot be read is a full trainer afterwards. *)
Definition toy_lora : SftTrainer := set_trainable (Lora Byte.x07 0) (set_ck_disk (mk_ck_disk
  (Some {[LATEST_FILE := FileNode (String.list_byte_of_string (step_name 1));
          step_name 1 := DirNode {[STATE_FILE := bits (countable.encode (toy_position (tr_state toy_t)))]}]}) []) toy_t).

Example failed_load_loses_adapters :
  (resume toy_lora).1 = Err "cannot read step-00000001/trainable.safetensors: No such file or directory (os error 2)"%string ∧
  adapters_of toy_lora = Some Byte.x07 ∧ adapters_of (resume toy_lora).2 = None.
Proof. vm_compute. done. Qed.

(** ** Witnesses *)
Lemma toy_savable b : savable (MP := toy_params) b.
Proof.
  split.
  - constructor; [|constructor]. split; [by left|by repeat constructor].
  - simpl. pose proof (proj2 (name_limit_spec 1)). lia.
  - vm_compute. done.
  - intros header Hh.
    assert (match safetensors_header (collect_params (float_params b)) [("format", "rullm-trainable")]%string with
      | Ok header => (N.of_nat (length (safetensors_bytes header (collect_params (float_params b)))) <=? usize_max)%N = true
      | _ => True end) as Hsize by (vm_compute; reflexivity).
    rewrite Hh in Hsize. by apply N.leb_le.
Qed.

Lemma trainable_roundtrip_witness : ∃ entries',
  save_trainable Byte.x07 "step" TRAINABLE_FILE (clean {["step"%string := DirNode ∅]}) = (Ok tt, clean entries') ∧
  load_trainable Byte.x09 "step" TRAINABLE_FILE (clean entries') =
    (Ok (map_floats Byte.x09 (zip_with loaded (float_params Byte.x07) (float_params Byte.x09))), clean entries').
Proof.
  apply (trainable_roundtrip Byte.x07 Byte.x09 "step" TRAINABLE_FILE _ ∅); [apply toy_savable|done|done|].
  by repeat constructor.
Defined.

Lemma toy_reportable : reportable zero 4.
Proof.
  split.
  - intros i j. vm_compute. by eexists.
  - intros i j k n Hk Hn. destruct k as [|[|[|[|[|k]]]]]; [..|lia];
      (destruct n as [|[|[|[|[|n]]]]]; [..|lia]); vm_compute; by eexists.
Qed.

Lemma toy_tidy : tidy {["notes"%string := FileNode []; step_name 0 := DirNode ∅]}.
Proof.
  split; [intros files|intros n b..]; rewrite lookup_insert_Some, lookup_singleton_Some; naive_solver.
Qed.

(** Evaluation without reading the value back. *)
Ltac vm_refl := match goal with |- ?a = ?b => vm_cast_no_check (eq_refl b) end.

Lemma toy_newest : newest toy_t.
Proof.
  intros name Hn. assert (checkpoints (disk_entries toy_t) = [step_name 0]) as Hc by (vm_refl).
  rewrite Hc in Hn. apply list_elem_of_singleton in Hn as ->. vm_refl.
Qed.

Lemma toy_l_reachable : loader_reachable toy_l.
Proof.
  eapply (lr_next toy_loader (match (next_batch toy_loader).1 with Ok b => b | _ => mk_sft_batch 0 0 [] [] 0 end) toy_l);
    [apply toy_loader_reachable|]. vm_refl.
Qed.

Lemma toy_saved_turn : saved_turn toy_t toy_l toy_saved zero toy_window [].
Proof.
  split.
  - split; [vm_refl|]. change (disk_entries toy_t) with (disk_entries (toy_trainer Byte.x05 toy_disk)). apply toy_tidy.
  - apply toy_newest.
  - unfold eight_digits. vm_compute. reflexivity.
  - vm_refl.
  - apply toy_l_reachable.
  - exists (step_name 1). assert ((save_checkpoint toy_t).1 = Ok (step_name 1)) as Hok by (vm_refl).
    unfold toy_saved. rewrite <- Hok. apply surjective_pairing.
  - split; [vm_compute; lia|exists 0, 0; vm_refl|].
    split; [by exists 0|vm_compute; discriminate|vm_compute; lia].
  - apply toy_reportable.
Qed.

Lemma toy_restorable : restorable (T := Byte.byte) (Trained0 := toy_trained) (optimizer_config toy_config) Byte.x09 Byte.x05 1 0.
Proof.
  split; [apply toy_savable|by apply Forall2_cons_2|reflexivity| |apply (made_init (T := Byte.byte) (Trained0 := toy_trained) (optimizer_config toy_config))].
  apply (made_step (T := Byte.byte) (Trained0 := toy_trained) (optimizer_config toy_config) zero Byte.x05 ∅ 0), (made_init (T := Byte.byte) (Trained0 := toy_trained) (optimizer_config toy_config)).
Qed.

Lemma toy_new_process : new_process toy_t toy_l toy_saved toy_new toy_loader.
Proof.
  split; [|reflexivity|apply toy_loader_reachable|vm_refl|].
  - split; [vm_refl|vm_refl|].
    assert (trainable toy_t = Full 1) as -> by vm_refl. assert (tr_model toy_t = Byte.x09) as -> by vm_refl.
    assert (tr_config toy_t = toy_config) as -> by vm_refl. exact toy_restorable.
  - intros text e Ht Hp. rewrite (toy_parse_elapsed _ _ _ Ht Hp). apply toy_reportable.
Qed.

Lemma resumed_training_is_training_witness : ∃ t1, resume toy_new = (Ok (Some (ts_step (tr_state toy_t))), t1) ∧
  agree (λ s1 s2 r1 r2, sim r1 r2 ∧ ∃ e, s2 = set_elapsed e s1)
    ((let! w := report_due (mk_step_stats 1 zero zero zero 3 true) toy_window in finish_training (total_steps (schedule (tr_config toy_t)) - ts_step (tr_state toy_t)) (instant 0) zero w) (mk_run toy_saved toy_l []))
    (train (mk_run t1 toy_loader [])).
Proof.
  exact (resumed_training_is_training toy_t toy_l toy_saved zero toy_window [] toy_new toy_loader _ 0 toy_saved_turn toy_new_process).
Defined.

(** Saving with the optimizer's record torn, and after that with [latest] torn. *)
Definition toy_torn (calls : nat) : SftTrainer :=
  set_ck_disk (mk_ck_disk (ck_root toy_disk) (replicate calls None ++ [Some (mk_ck_fault "No space left on device" 0 [])])) toy_t.

Lemma checkpoint_is_atomic_witness : same_training (toy_torn 8) (save_checkpoint (toy_torn 8)).2 ∧
  match save_checkpoint (toy_torn 8) with
  | (Ok _, t') => complete (toy_torn 8) t'
  | (Err _, t') => intact (toy_torn 8) t' ∨ complete (toy_torn 8) t'
  | (Panic p, _) => benign p
  end.
Proof. apply checkpoint_is_atomic; [exact toy_newest|vm_refl]. Defined.

(** A write of [latest] that fails leaves it empty: the checkpoint is complete, the old one
    is there as well, and [resume] finds neither. *)
Example torn_latest_stops_resume :
  (save_checkpoint (toy_torn 14)).1 = Err "checkpoint I/O failed: No space left on device"%string ∧
  checkpoints (disk_entries (save_checkpoint (toy_torn 14)).2) = [step_name 0; step_name 1] ∧
  match (resume (save_checkpoint (toy_torn 14)).2).1 with Err _ => True | _ => False end.
Proof. vm_compute. done. Qed.

(** Both end at step four with the same model. *)
Example toy_finished : match train (mk_run (resume toy_new).2 toy_loader []) with
  | (Ok s, r) => ts_step s = 4 ∧ tr_model (tn_trainer r) = Byte.x15 ∧ checkpoints (disk_entries (tn_trainer r)) = [step_name 4]
  | _ => False
  end.
Proof. vm_compute. done. Qed.

(** The disk is full at the first checkpoint, of step two, or at the second, of step
    four: training fails with the steps it has taken counted. *)
Definition failed_steps (calls : nat) : bool * nat :=
  let disk := mk_ck_disk (ck_root toy_disk) (replicate calls None ++ [Some (mk_ck_fault "No space left on device" 0 [])]) in
  match train (mk_run (toy_trainer Byte.x05 disk) toy_loader []) with
  | (x, r) => (match x with Err _ => true | _ => false end, ts_step (tr_state (tn_trainer r)))
  end.

Example failed_training_counts : failed_steps 8 = (true, 2) ∧ failed_steps 25 = (true, 4).
Proof. vm_compute. done. Qed.
