(* ===== verification/PrefixTransfer.v ===== *)
(** * Prefix tensors between shards

    src/src/prefix_transfer.rs: the named tensors of a prefix, of which every rank of a
    tensor-parallel model holds some heads.  Fragments of several ranks are merged,
    recorded for another process, and cut again for a destination rank. *)
From S2P Require Import Prelude PagedKv GenerationControl Safetensors TrainDisk SafetensorsSpec.
Open Scope nat_scope.
Open Scope list_scope.
Open Scope m_scope.

(** Half-open ranges of head indices. *)
Record Range := mk_range { rg_start : nat; rg_end : nat }.
Definition range_len (r : Range) : nat := rg_end r - rg_start r.

Record PrefixShard := mk_shard {
  sh_rank : nat;
  sh_world : nat;
  sh_kv_heads : option nat;
  sh_linear_key_heads : option nat;
  sh_linear_value_heads : option nat
}.
Definition default_shard : PrefixShard := mk_shard 0 1 None None None.

(** [n.is_multiple_of(d)] *)
Definition is_multiple_of (n d : nat) : bool := if decide (d = 0) then bool_decide (n = 0) else bool_decide (n mod d = 0).

Definition shard_heads (s : PrefixShard) (global : option nat) (local : nat) : Gen (nat * Range) :=
  match global with
  | None => Ok (local, mk_range 0 local)
  | Some global =>
      if decide (sh_world s = 0 ∨ sh_world s ≤ sh_rank s ∨ global = 0 ∨ local = 0) then Err "invalid prefix shard topology"
      else
        do? range :=
          if bool_decide (sh_world s ≤ global) && is_multiple_of global (sh_world s) then
            let n := global / sh_world s in Ok (mk_range (sh_rank s * n) ((sh_rank s + 1) * n))
          else if bool_decide (global < sh_world s) && is_multiple_of (sh_world s) global then
            let start := sh_rank s / (sh_world s / global) in Ok (mk_range start (start + 1))
          else Err "prefix heads do not partition or replicate across TP ranks" in
        if decide (range_len range ≠ local) then Err "local prefix head count differs from global topology"
        else Ok (global, range)
  end.

(** Tensors of four dimensions on a device, host data, and the receiver of a handoff. *)
Class TransferTensors `{CheckpointData} := {
  Tensor4 : Type;
  tensor_dims4 : Tensor4 → nat * nat * nat * nat;
  tensor_dtype : Tensor4 → DType;
  tensor_ordinal : Tensor4 → Fallible Z;
  slice_heads : nat → nat → Tensor4 → Tensor4;
  cat_heads : list Tensor4 → Tensor4;
  into_data : Tensor4 → Fallible TensorData;
  from_data : TensorData → DType → Tensor4;
  receive : nat → Z → Range → nat * nat * nat * nat → DType → Fallible Tensor4
}.

(** [DType::size], and the types of prefix tensors. *)
Definition dtype_size (d : DType) : nat :=
  match d with
  | F64 | I64 => 8
  | F32 | I32 => 4
  | F16 | BF16 => 2
  | U8 => 1
  | OtherType text => if String.eqb text "Flex32" then 4 else 0
  end.
Definition float_dtype (d : DType) : bool :=
  match d with
  | F16 | BF16 | F32 | F64 => true
  | OtherType text => String.eqb text "Flex32"
  | _ => false
  end.

Section Transfer.
Context `{TransferTensors}.

Inductive Payload :=
| OnDevice (t : Tensor4)
| OnHost (d : TensorData)
| Remote (fragment : nat) (producer : Z).

Notation Shape4 := (nat * nat * nat * nat)%type.
Definition sh_batch (s : Shape4) : nat := s.1.1.1.
Definition sh_heads (s : Shape4) : nat := s.1.1.2.
Definition sh_rows (s : Shape4) : nat := s.1.2.
Definition sh_width (s : Shape4) : nat := s.2.

Record Fragment := mk_fragment {
  fr_global_heads : nat;
  fr_start : nat;
  fr_shape : Shape4;
  fr_dtype : DType;
  fr_payload : Payload
}.

(** Children are a [BTreeMap]: a list in the order of the names. *)
Inductive PrefixTensors := mk_tensors {
  pt_position : nat;
  pt_schema : string;
  pt_tensors : gmap string (list Fragment);
  pt_children : list (string * PrefixTensors);
  pt_scalars : gmap string nat
}.
Implicit Types p : PrefixTensors.

Definition set_tensors x p : PrefixTensors := mk_tensors (pt_position p) (pt_schema p) x (pt_children p) (pt_scalars p).
Definition set_children x p : PrefixTensors := mk_tensors (pt_position p) (pt_schema p) (pt_tensors p) x (pt_scalars p).
Definition set_scalars x p : PrefixTensors := mk_tensors (pt_position p) (pt_schema p) (pt_tensors p) (pt_children p) x.

Definition new_tensors (schema : string) (position : nat) : PrefixTensors := mk_tensors position schema ∅ [] ∅.

Definition set_scalar (name : string) (value : nat) p : Gen PrefixTensors :=
  if decide (name = EmptyString ∨ is_Some (pt_scalars p !! name)) then Err "invalid or duplicate prefix scalar"
  else Ok (set_scalars (<[name := value]> (pt_scalars p)) p).
Definition scalar (name : string) p : option nat := pt_scalars p !! name.
Definition scalars p : nat := size (pt_scalars p).

(** ** Children *)
Fixpoint child_lookup {V} (name : string) (l : list (string * V)) : option V :=
  match l with
  | [] => None
  | (n, c) :: l => if String.eqb n name then Some c else child_lookup name l
  end.

(** Insertion in the order of the names; an equal name is replaced. *)
Fixpoint child_insert {V} (name : string) (v : V) (l : list (string * V)) : list (string * V) :=
  match l with
  | [] => [(name, v)]
  | (n, c) :: rest =>
      if String.eqb n name then (name, v) :: rest
      else if name_leb name n then (name, v) :: l
      else (n, c) :: child_insert name v rest
  end.

Definition add_child (name : string) (child : PrefixTensors) p : Gen PrefixTensors :=
  match child_lookup name (pt_children p) with
  | Some _ => Err "duplicate prefix child"
  | None => Ok (set_children (child_insert name child (pt_children p)) p)
  end.
Definition prefix_child (name : string) p : Gen PrefixTensors := ok_or (child_lookup name (pt_children p)) ("missing prefix child " +:+ name).
Definition prefix_children p : nat := length (pt_children p).
Definition has_child (name : string) p : bool := bool_decide (is_Some (child_lookup name (pt_children p))).

Definition validate_tensors (schema : string) (position_limit names : nat) p : Gen unit :=
  if decide (pt_schema p ≠ schema ∨ pt_position p = 0 ∨ position_limit < pt_position p ∨ size (pt_tensors p) ≠ names)
  then Err "prefix tensor schema/position/component count differs" else Ok tt.

(** ** Fragments *)

(** [sort_by_key(|f| f.start)] *)
Definition fragment_le : relation Fragment := λ a b, fr_start a ≤ fr_start b.
#[export] Instance fragment_le_dec : RelDecision fragment_le.
Proof. intros a b. unfold fragment_le. apply _. Defined.

(** The loop over the fragments present: [None] when the new one is a replica. *)
Fixpoint compare_fragments (fragment : Fragment) (present : list Fragment) : Gen (option Fragment) :=
  match present with
  | [] => Ok (Some fragment)
  | old :: rest =>
      if decide (fr_global_heads old ≠ fr_global_heads fragment ∨ fr_dtype old ≠ fr_dtype fragment ∨
        sh_batch (fr_shape old) ≠ sh_batch (fr_shape fragment) ∨ sh_rows (fr_shape old) ≠ sh_rows (fr_shape fragment) ∨
        sh_width (fr_shape old) ≠ sh_width (fr_shape fragment))
      then Err "prefix tensor fragments disagree on global geometry or dtype"
      else if decide (fr_start old = fr_start fragment ∧ sh_heads (fr_shape old) = sh_heads (fr_shape fragment)) then Ok None
      else if decide (fr_start old < fr_start fragment + sh_heads (fr_shape fragment) ∧
        fr_start fragment < fr_start old + sh_heads (fr_shape old))
      then Err "partially overlapping prefix tensor shards"
      else compare_fragments fragment rest
  end.

(** [checked_add(..).is_none_or(|end| end > limit)] *)
Definition beyond (limit : nat) (finish : option nat) : bool :=
  match finish with None => true | Some finish => bool_decide (limit < finish) end.

(** [entry(name).or_default()] leaves an empty list behind when the fragment is refused. *)
Definition tensors_insert (name : string) (fragment : Fragment) : M PrefixTensors GenerationError unit :=
  let s := fr_shape fragment in
  if decide (name = EmptyString ∨ sh_batch s ≠ 1 ∨ sh_heads s = 0 ∨ sh_rows s = 0 ∨ sh_width s = 0 ∨
    beyond (fr_global_heads fragment) (usize_add (fr_start fragment) (sh_heads s)) = true)
  then mthrow "invalid prefix tensor fragment geometry"
  else
    let! p := mget in
    let present := default [] (pt_tensors p !! name) in
    mmodify (set_tensors (<[name := present]> (pt_tensors p))) ;;;
    let! added := mlift (compare_fragments fragment present) in
    match added with
    | None => mret tt
    | Some fragment => mmodify (λ p, set_tensors (<[name := merge_sort fragment_le (present ++ [fragment])]> (pt_tensors p)) p)
    end.

Definition push_tensor (name : string) (tensor : Tensor4) (heads : nat * Range) : M PrefixTensors GenerationError unit :=
  if decide (sh_heads (tensor_dims4 tensor) ≠ range_len heads.2) then mthrow "prefix tensor head span differs"
  else tensors_insert name (mk_fragment heads.1 (rg_start heads.2) (tensor_dims4 tensor) (tensor_dtype tensor) (OnDevice tensor)).

Definition insert_all (l : list (string * list Fragment)) : M PrefixTensors GenerationError unit :=
  mfor l (λ entry, mfor entry.2 (tensors_insert entry.1)).

(** The tensors first, then the children one by one. *)
Fixpoint merge_tensors (other : PrefixTensors) {struct other} : M PrefixTensors GenerationError unit :=
  let! p := mget in
  if decide (pt_position p ≠ pt_position other ∨ pt_schema p ≠ pt_schema other ∨ pt_scalars p ≠ pt_scalars other)
  then mthrow "prefix rank schema/position/scalar state differs"
  else
    insert_all (name_iter (pt_tensors other)) ;;;
    (fix merge_children (l : list (string * PrefixTensors)) : M PrefixTensors GenerationError unit :=
      match l with
      | [] => mret tt
      | (name, child) :: rest =>
          let! p := mget in
          match child_lookup name (pt_children p) with
          | Some existing =>
              let '(r, existing) := merge_tensors child existing in
              mmodify (λ p, set_children (child_insert name existing (pt_children p)) p) ;;;
              mlift r
          | None => mmodify (λ p, set_children (child_insert name child (pt_children p)) p)
          end ;;;
          merge_children rest
      end) (pt_children other).

(** ** A destination's heads *)

(** The piece of one fragment, from [lo] to [hi]. *)
Definition fragment_piece (fragment : Fragment) (lo hi : nat) (shape : Shape4) (dtype : DType) : Gen Tensor4 :=
  let piece := (1, hi - lo, sh_rows shape, sh_width shape) in
  match fr_payload fragment with
  | OnDevice tensor => Ok (slice_heads lo hi tensor)
  | OnHost data =>
      do? stride := ok_or (n ← usize_mul (sh_rows shape) (sh_width shape); usize_mul n (dtype_size dtype))
        "prefix tensor byte stride overflow" in
      do? from := expect Overflow (usize_mul lo stride) in
      do? to := expect Overflow (usize_mul hi stride) in
      do? bytes := expect OutOfBounds (slice from to (data_bytes data)) in
      do? data := expect Expect (from_bytes_vec bytes [1; hi - lo; sh_rows shape; sh_width shape] dtype) in
      Ok (from_data data dtype)
  | Remote index producer => lift (receive index producer (mk_range lo hi) piece dtype)
  end.

Fixpoint tensor_pieces (name : string) (shape : Shape4) (dtype : DType) (heads : nat * Range) (fragments : list Fragment)
    (cursor : nat) : Gen (list Tensor4 * nat) :=
  match fragments with
  | [] => Ok ([], cursor)
  | fragment :: rest =>
      if decide (fr_global_heads fragment ≠ heads.1 ∨ fr_dtype fragment ≠ dtype ∨
        sh_rows (fr_shape fragment) ≠ sh_rows shape ∨ sh_width (fr_shape fragment) ≠ sh_width shape)
      then Err ("prefix tensor " +:+ name +:+ " geometry/dtype differs")
      else
        let start := Nat.max (fr_start fragment) (rg_start heads.2) in
        let finish := Nat.min (fr_start fragment + sh_heads (fr_shape fragment)) (rg_end heads.2) in
        if decide (finish ≤ start) then tensor_pieces name shape dtype heads rest cursor
        else if decide (start ≠ cursor) then Err ("missing head span in prefix tensor " +:+ name)
        else
          do? piece := fragment_piece fragment (start - fr_start fragment) (finish - fr_start fragment) shape dtype in
          do? more := tensor_pieces name shape dtype heads rest finish in
          Ok (piece :: more.1, more.2)
  end.

Definition prefix_tensor (name : string) (shape : Shape4) (dtype : DType) (heads : nat * Range) p : Gen Tensor4 :=
  do? fragments := ok_or (pt_tensors p !! name) ("missing prefix tensor " +:+ name) in
  if decide (sh_batch shape ≠ 1 ∨ range_len heads.2 ≠ sh_heads shape ∨ heads.1 < rg_end heads.2)
  then Err "invalid destination prefix shard"
  else
    do? result := tensor_pieces name shape dtype heads fragments (rg_start heads.2) in
    if decide (result.2 ≠ rg_end heads.2 ∨ result.1 = []) then Err ("incomplete prefix tensor " +:+ name)
    else match result.1 with
      | [piece] => Ok piece
      | pieces => Ok (cat_heads pieces)
      end.

(** ** Host records *)
Record HostFragment := mk_host_fragment { hf_name : string; hf_global_heads : nat; hf_start : nat; hf_data : TensorData }.

Inductive HostPrefix := mk_host {
  hp_version : N;
  hp_model_id : string;
  hp_schema : string;
  hp_position : nat;
  hp_fragments : list HostFragment;
  hp_children : list (string * HostPrefix);
  hp_scalars : gmap string nat
}.

Definition host_data (part : Fragment) : Gen TensorData :=
  match fr_payload part with
  | OnDevice t => lift (into_data t)
  | OnHost data => Ok data
  | Remote _ _ => Err "remote prefix payload must be received before host serialization"
  end.

Fixpoint host_fragments (l : list (string * Fragment)) : Gen (list HostFragment) :=
  match l with
  | [] => Ok []
  | (name, part) :: rest =>
      do? data := host_data part in
      do? more := host_fragments rest in
      Ok (mk_host_fragment name (fr_global_heads part) (fr_start part) data :: more)
  end.

(** The nested loops over names and parts. *)
Definition named_parts p : list (string * Fragment) :=
  concat ((λ entry : string * list Fragment, (λ part, (entry.1, part)) <$> entry.2) <$> name_iter (pt_tensors p)).

Fixpoint host_record (model_id : string) p {struct p} : Gen HostPrefix :=
  do? fragments := host_fragments (named_parts p) in
  do? children := (fix records (l : list (string * PrefixTensors)) : Gen (list (string * HostPrefix)) :=
    match l with
    | [] => Ok []
    | (name, child) :: rest =>
        do? record := host_record model_id child in
        do? more := records rest in
        Ok ((name, record) :: more)
    end) (pt_children p) in
  Ok (mk_host (if decide (pt_scalars p = ∅) then 1%N else 2%N) model_id (pt_schema p) (pt_position p) fragments children (pt_scalars p)).

(** A shape of exactly four dimensions, with the bytes it needs. *)
Definition shape_of_data (data : TensorData) : option Shape4 :=
  match data_shape data with [a; b; c; d] => Some (a, b, c, d) | _ => None end.
Definition shape_bytes (dtype : DType) (s : Shape4) : option nat :=
  n ← usize_mul (dtype_size dtype) (sh_batch s); n ← usize_mul n (sh_heads s); n ← usize_mul n (sh_rows s); usize_mul n (sh_width s).

Definition insert_host (fragment : HostFragment) : M PrefixTensors GenerationError unit :=
  let data := hf_data fragment in
  match shape_of_data data with
  | None => mthrow "could not convert slice to array"
  | Some shape =>
      if decide (float_dtype (data_dtype data) = false ∨ shape_bytes (data_dtype data) shape ≠ Some (length (data_bytes data)))
      then mthrow "prefix transfer tensor byte length or dtype differs"
      else tensors_insert (hf_name fragment) (mk_fragment (hf_global_heads fragment) (hf_start fragment) shape (data_dtype data) (OnHost data))
  end.

(** Scalars are inserted in the order of their names. *)
Fixpoint set_all_scalars (l : list (string * nat)) p : Gen PrefixTensors :=
  match l with
  | [] => Ok p
  | (name, value) :: rest => do? p := set_scalar name value p in set_all_scalars rest p
  end.

Fixpoint from_host_record (model_id : string) (host : HostPrefix) {struct host} : Gen PrefixTensors :=
  if decide ((hp_version host ≠ 1%N ∧ hp_version host ≠ 2%N) ∨ (hp_version host = 1%N ∧ hp_scalars host ≠ ∅) ∨
    hp_model_id host ≠ model_id ∨ model_id = EmptyString)
  then Err "prefix transfer identity/version differs"
  else
    do? result := set_all_scalars (name_iter (hp_scalars host)) (new_tensors (hp_schema host) (hp_position host)) in
    do? result := (fix children (l : list (string * HostPrefix)) (result : PrefixTensors) : Gen PrefixTensors :=
      match l with
      | [] => Ok result
      | (name, child) :: rest =>
          do? child := from_host_record model_id child in
          do? result := add_child name child result in
          children rest result
      end) (hp_children host) result in
    match mfor (hp_fragments host) insert_host result with
    | (Ok _, result) => Ok result
    | (Err e, _) => Err e
    | (Panic q, _) => Panic q
    end.

(** ** Device manifests *)
Record ManifestFragment := mk_manifest_fragment {
  mf_name : string; mf_id : nat; mf_producer : Z; mf_global_heads : nat; mf_start : nat; mf_shape : Shape4; mf_dtype : DType
}.
Inductive PrefixManifest := mk_manifest {
  pm_schema : string;
  pm_position : nat;
  pm_fragments : list ManifestFragment;
  pm_children : list (string * PrefixManifest);
  pm_scalars : gmap string nat
}.

Fixpoint manifest_fragments (l : list (string * Fragment)) (tensors : list Tensor4) : Gen (list ManifestFragment * list Tensor4) :=
  match l with
  | [] => Ok ([], tensors)
  | (name, part) :: rest =>
      match fr_payload part with
      | OnDevice tensor =>
          do? ordinal := lift (tensor_ordinal tensor) in
          do? more := manifest_fragments rest (tensors ++ [tensor]) in
          Ok (mk_manifest_fragment name (length tensors) ordinal (fr_global_heads part) (fr_start part) (fr_shape part) (fr_dtype part)
            :: more.1, more.2)
      | _ => Err "GPU handoff requires resident device tensors"
      end
  end.

Fixpoint device_manifest (tensors : list Tensor4) p {struct p} : Gen (PrefixManifest * list Tensor4) :=
  do? parts := manifest_fragments (named_parts p) tensors in
  do? children := (fix manifests (l : list (string * PrefixTensors)) (tensors : list Tensor4) :
      Gen (list (string * PrefixManifest) * list Tensor4) :=
    match l with
    | [] => Ok ([], tensors)
    | (name, child) :: rest =>
        do? manifest := device_manifest tensors child in
        do? more := manifests rest manifest.2 in
        Ok ((name, manifest.1) :: more.1, more.2)
    end) (pt_children p) parts.2 in
  Ok (mk_manifest (pt_schema p) (pt_position p) parts.1 children.1 (pt_scalars p), children.2).

Definition insert_remote (part : ManifestFragment) : M PrefixTensors GenerationError unit :=
  if decide (float_dtype (mf_dtype part) = false ∨ shape_bytes (mf_dtype part) (mf_shape part) = None)
  then mthrow "GPU prefix manifest dtype/size differs"
  else tensors_insert (mf_name part)
    (mk_fragment (mf_global_heads part) (mf_start part) (mf_shape part) (mf_dtype part) (Remote (mf_id part) (mf_producer part))).

Fixpoint from_manifest (manifest : PrefixManifest) {struct manifest} : Gen PrefixTensors :=
  do? result := set_all_scalars (name_iter (pm_scalars manifest)) (new_tensors (pm_schema manifest) (pm_position manifest)) in
  match mfor (pm_fragments manifest) insert_remote result with
  | (Ok _, result) =>
      (fix children (l : list (string * PrefixManifest)) (result : PrefixTensors) : Gen PrefixTensors :=
        match l with
        | [] => Ok result
        | (name, child) :: rest =>
            do? child := from_manifest child in
            do? result := add_child name child result in
            children rest result
        end) (pm_children manifest) result
  | (Err e, _) => Err e
  | (Panic q, _) => Panic q
  end.
End Transfer.

(** ** Cutting prefixes again

    What a prefix tensor holds, whichever ranks it came from and whichever rank asks
    for it: the heads of the whole tensor, in order. *)

(** The elements from [lo] to [hi]. *)
Definition span {A} (lo hi : nat) (l : list A) : list A := take (hi - lo) (drop lo l).

Lemma span_length {A} lo hi (l : list A) : hi ≤ length l → length (span lo hi l) = hi - lo.
Proof. intros. unfold span. rewrite length_take, length_drop. lia. Qed.

Lemma span_span {A} a b lo hi (l : list A) : hi ≤ b - a → span lo hi (span a b l) = span (a + lo) (a + hi) l.
Proof.
  intros Hhi. unfold span. rewrite skipn_firstn_comm, take_take, drop_drop.
  replace (a + hi - (a + lo)) with (hi - lo) by lia. f_equal. lia.
Qed.

Lemma span_app {A} a b c (l : list A) : a ≤ b → b ≤ c → span a b l ++ span b c l = span a c l.
Proof.
  intros Hab Hbc. unfold span. rewrite <- (take_take_drop (drop a l) (b - a) (c - b)) || idtac.
  replace (c - a) with ((b - a) + (c - b)) by lia. rewrite <- take_take_drop, drop_drop. do 3 f_equal. lia.
Qed.

(** *** Sizes *)
Lemma usize_mul_ok a b : (N.of_nat (a * b) ≤ usize_max)%N → usize_mul a b = Some (a * b).
Proof. intros. by apply usize_mul_Some. Qed.

Lemma float_size dtype : float_dtype dtype = true → 0 < dtype_size dtype.
Proof. destruct dtype; simpl; try done; try lia. intros ->. lia. Qed.

Lemma shape_bytes_Some dtype heads rows width n : 0 < dtype_size dtype → shape_bytes dtype (1, heads, rows, width) = Some n →
  n = heads * (rows * width * dtype_size dtype) ∧ (N.of_nat n ≤ usize_max)%N.
Proof.
  intros Hd. unfold shape_bytes. intros Hn. apply bind_Some in Hn as (n1 & H1 & Hn). apply bind_Some in Hn as (n2 & H2 & Hn).
  apply bind_Some in Hn as (n3 & H3 & Hn). apply usize_mul_Some in H1 as [-> _], H2 as [-> _], H3 as [-> _], Hn as [-> Hmax].
  cbn [sh_batch sh_heads sh_rows sh_width fst snd] in *. split; [lia|done].
Qed.

(** *** The tensors *)

(** A tensor is its heads; slices and concatenations are those of the heads; host data
    is cut like the tensor it was read from; a receiver sends what it is asked for. *)
Class TransferLaws `{TransferTensors} := {
  Plane : Type;
  planes : Tensor4 → list Plane;
  data_planes : TensorData → list Plane;
  remote_planes : nat → Z → list Plane;
  xl_dims t : sh_heads (tensor_dims4 t) = length (planes t);
  xl_slice lo hi t : lo ≤ hi → hi ≤ length (planes t) → planes (slice_heads lo hi t) = span lo hi (planes t);
  xl_cat l : l ≠ [] → planes (cat_heads l) = concat (planes <$> l);
  xl_data t d : into_data t = inr d → data_planes d = planes t ∧ data_dtype d = tensor_dtype t ∧
    shape_of_data d = Some (tensor_dims4 t) ∧ shape_bytes (tensor_dtype t) (tensor_dims4 t) = Some (length (data_bytes d));
  xl_host d lo hi heads rows width bytes : lo < hi → hi ≤ heads → shape_of_data d = Some (1, heads, rows, width) →
    float_dtype (data_dtype d) = true → length (data_bytes d) = heads * (rows * width * dtype_size (data_dtype d)) →
    slice (lo * (rows * width * dtype_size (data_dtype d))) (hi * (rows * width * dtype_size (data_dtype d))) (data_bytes d) = Some bytes →
    ∃ d', from_bytes_vec bytes [1; hi - lo; rows; width] (data_dtype d) = Some d' ∧
      planes (from_data d' (data_dtype d)) = span lo hi (data_planes d);
  xl_remote index producer lo hi rows width dtype t : receive index producer (mk_range lo hi) (1, hi - lo, rows, width) dtype = inr t →
    planes t = span lo hi (remote_planes index producer)
}.

Section Spec.
Context `{TransferLaws}.
Implicit Types p : PrefixTensors.

(** *** Fragments of one tensor *)

Definition payload_planes (x : Payload) : list Plane :=
  match x with OnDevice t => planes t | OnHost d => data_planes d | Remote index producer => remote_planes index producer end.

Definition fr_end (f : Fragment) : nat := fr_start f + sh_heads (fr_shape f).

Section Whole.
(** The whole tensor: its heads, and the shape of one. *)
Context (G : list Plane) (rows width : nat) (dtype : DType).

Record fragment_of (f : Fragment) : Prop := {
  fo_global : fr_global_heads f = length G;
  fo_shape : fr_shape f = (1, sh_heads (fr_shape f), rows, width);
  fo_positive : 0 < sh_heads (fr_shape f);
  fo_within : fr_end f ≤ length G;
  fo_dtype : fr_dtype f = dtype;
  fo_planes : payload_planes (fr_payload f) = span (fr_start f) (fr_end f) G;
  fo_device t : fr_payload f = OnDevice t → tensor_dims4 t = fr_shape f ∧ tensor_dtype t = dtype;
  fo_host d : fr_payload f = OnHost d → shape_of_data d = Some (fr_shape f) ∧ data_dtype d = dtype ∧ float_dtype dtype = true ∧
    shape_bytes dtype (fr_shape f) = Some (length (data_bytes d))
}.

Lemma fragment_span f lo hi : fragment_of f → lo ≤ hi → hi ≤ sh_heads (fr_shape f) →
  span lo hi (payload_planes (fr_payload f)) = span (fr_start f + lo) (fr_start f + hi) G.
Proof. intros Hf Hlo Hhi. rewrite (fo_planes _ Hf). apply span_span. unfold fr_end. lia. Qed.

(** Host data is cut by bytes. *)
Lemma host_piece f d lo hi : fragment_of f → fr_payload f = OnHost d → lo < hi → hi ≤ sh_heads (fr_shape f) →
  ∃ t, fragment_piece f lo hi (1, hi - lo, rows, width) dtype = Ok t ∧ planes t = span lo hi (data_planes d).
Proof.
  intros Hf Ep Hlo Hhi. destruct (fo_host _ Hf d Ep) as (Hs & <- & Hfl & Hb). rewrite (fo_shape _ Hf) in Hs, Hb.
  apply shape_bytes_Some in Hb as (Hlen & Hmax); [|by apply float_size]. unfold fragment_piece. rewrite Ep. cbn [sh_rows sh_width fst snd].
  set (sz := dtype_size (data_dtype d)) in *. set (stride := rows * width * sz) in *.
  pose proof (float_size _ Hfl) as Hsz. fold sz in Hsz.
  assert (stride ≤ length (data_bytes d)) by nia. assert (rows * width ≤ stride) by (unfold stride; nia).
  assert (hi * stride ≤ length (data_bytes d)) as Hhib by nia. assert (lo * stride ≤ hi * stride) by nia.
  cbv zeta. rewrite (usize_mul_ok rows width) by (unfold usize_max in *; lia). cbn [mbind option_bind].
  rewrite (usize_mul_ok (rows * width) sz) by (unfold usize_max in *; lia). fold stride. cbn [ok_or res_bind].
  rewrite (usize_mul_ok lo stride), (usize_mul_ok hi stride) by (unfold usize_max in *; lia). cbn [expect res_bind].
  destruct (slice (lo * stride) (hi * stride) (data_bytes d)) as [bytes|] eqn:Esl.
  2: { exfalso. revert Esl. unfold slice. rewrite decide_True by lia. done. }
  destruct (xl_host d lo hi _ _ _ bytes Hlo Hhi Hs Hfl Hlen Esl) as (d' & Hd' & Hpl). cbn [expect res_bind]. rewrite Hd'. cbn [expect res_bind].
  eauto.
Qed.

(** A piece of a fragment is the heads it is asked for. *)
Lemma piece_planes f lo hi t : fragment_of f → lo < hi → hi ≤ sh_heads (fr_shape f) →
  fragment_piece f lo hi (1, hi - lo, rows, width) dtype = Ok t → planes t = span (fr_start f + lo) (fr_start f + hi) G.
Proof.
  intros Hf Hlo Hhi Ht. rewrite <- fragment_span by (done || lia).
  pose proof (fo_planes _ Hf) as Hpl. destruct (fr_payload f) as [t'|d|index producer] eqn:Ep; simpl in *.
  - unfold fragment_piece in Ht. rewrite Ep in Ht. injection Ht as <-. apply xl_slice; [lia|].
    rewrite Hpl, span_length; unfold fr_end; [lia|apply (fo_within _ Hf)].
  - destruct (host_piece f d lo hi Hf Ep Hlo Hhi) as (t' & Ht' & Hpl'). rewrite Ht in Ht'. by injection Ht' as ->.
  - unfold fragment_piece in Ht. rewrite Ep in Ht. destruct (receive _ _ _ _ _) as [e|t'] eqn:Er; [done|].
    injection Ht as <-. by eapply xl_remote.
Qed.

(** What the loop over the fragments gathers. *)
Lemma pieces_planes name shape heads fragments : Forall fragment_of fragments → sh_rows shape = rows → sh_width shape = width →
  heads.1 = length G → ∀ cursor ps c, tensor_pieces name shape dtype heads fragments cursor = Ok (ps, c) →
  cursor ≤ c ∧ concat (planes <$> ps) = span cursor c G.
Proof.
  intros Hall Hrows Hwidth Hg. induction Hall as [|f fragments Hf Hall IH]; intros cursor ps c; cbn [tensor_pieces].
  { intros [= <- <-]. split; [done|]. unfold span. by rewrite Nat.sub_diag. }
  case_decide; [done|]. cbv zeta. case_decide as Hle; [by apply IH|]. case_decide as Hc; [done|].
  set (start := Nat.max _ _) in *. set (finish := Nat.min _ _) in *.
  destruct (fragment_piece _ _ _ _ _) as [t|e|q] eqn:Ep; simpl; [|done..].
  destruct (tensor_pieces _ _ _ _ _ finish) as [[ps' c']|e|q] eqn:Er; simpl; [|done..]. intros [= <- <-].
  destruct (IH _ _ _ Er) as [Hlt Hcat]. split; [lia|]. cbn [fmap list_fmap concat]. rewrite Hcat.
  assert (planes t = span start finish G) as ->.
  { assert (fragment_piece f (start - fr_start f) (finish - fr_start f) (1, finish - fr_start f - (start - fr_start f), rows, width) dtype = Ok t) as Ep'.
    { revert Ep. unfold fragment_piece. cbn [sh_rows sh_width fst snd]. by rewrite Hrows, Hwidth. }
    apply piece_planes in Ep'; [|done|lia|lia].
    rewrite Ep'. f_equal; lia. }
  subst cursor. apply span_app; lia.
Qed.

(** *** Where the loop succeeds *)

(** The fragments are in order and do not overlap. *)
Inductive in_order : list Fragment → Prop :=
| ord_nil : in_order []
| ord_cons f l : Forall (λ g, fr_end f ≤ fr_start g) l → in_order l → in_order (f :: l).

Definition local_payload (f : Fragment) : Prop := ∀ index producer, fr_payload f ≠ Remote index producer.

Lemma piece_exists f lo hi : fragment_of f → local_payload f → lo < hi → hi ≤ sh_heads (fr_shape f) →
  ∃ t, fragment_piece f lo hi (1, hi - lo, rows, width) dtype = Ok t.
Proof.
  intros Hf Hl Hlo Hhi. destruct (fr_payload f) as [t|d|index producer] eqn:Ep; [| |by destruct (Hl _ _ Ep)].
  - unfold fragment_piece. rewrite Ep. by eexists.
  - destruct (host_piece f d lo hi) as (t & Ht & _); eauto.
Qed.

Lemma pieces_cover name shape heads fragments : Forall fragment_of fragments → Forall local_payload fragments → in_order fragments →
  sh_rows shape = rows → sh_width shape = width → heads.1 = length G →
  ∀ cursor, rg_start heads.2 ≤ cursor ≤ rg_end heads.2 →
  Forall (λ f, cursor = rg_start heads.2 ∨ cursor ≤ fr_start f) fragments →
  (∀ h, cursor ≤ h < rg_end heads.2 → ∃ f, f ∈ fragments ∧ fr_start f ≤ h < fr_end f) →
  ∃ ps, tensor_pieces name shape dtype heads fragments cursor = Ok (ps, rg_end heads.2) ∧ (cursor < rg_end heads.2 → ps ≠ []).
Proof.
  intros Hall Hloc Hord Hrows Hwidth Hg. induction Hall as [|f fragments Hf Hall IH]; intros cursor Hcur Hpos Hcov; cbn [tensor_pieces].
  { assert (¬ cursor < rg_end heads.2). { intros Hlt. destruct (Hcov cursor) as (f & Hf & _); [lia|by apply elem_of_nil in Hf]. }
    exists []. split; [|lia]. do 2 f_equal. lia. }
  inversion_clear Hloc as [|? ? Hlf Hloc']. inversion_clear Hord as [|? ? Hafter Hord']. inversion_clear Hpos as [|? ? Hpf Hpos'].
  assert (fr_shape f = (1, sh_heads (fr_shape f), rows, width)) as Hsh by apply (fo_shape _ Hf).
  rewrite decide_False by (rewrite (fo_global _ Hf), (fo_dtype _ Hf), Hsh; simpl; naive_solver). cbv zeta.
  pose proof (fo_positive _ Hf) as Hp. fold (fr_end f).
  assert (fr_start f < fr_end f) as Hlt by (unfold fr_end; lia).
  case_decide as Hle.
  - apply IH; [done..|]. intros h Hh. destruct (Hcov h Hh) as (g & [->|Hg']%elem_of_cons & Hin); [lia|by exists g].
  - assert (Nat.max (fr_start f) (rg_start heads.2) = cursor) as Hstart.
    { destruct (decide (fr_start f ≤ cursor)) as [|Hgt]; [lia|]. exfalso.
      destruct (Hcov cursor) as (g & [->|Hg']%elem_of_cons & Hin); [lia..|].
      rewrite Forall_forall in Hafter. specialize (Hafter g Hg'). lia. }
    rewrite Hstart. rewrite decide_False by (intros Hne; by apply Hne). set (finish := Nat.min _ _) in *.
    destruct (piece_exists f (cursor - fr_start f) (finish - fr_start f)) as (t & Ht); [done..|lia|unfold fr_end in *; lia|].
    assert (fragment_piece f (cursor - fr_start f) (finish - fr_start f) shape dtype = Ok t) as ->.
    { revert Ht. unfold fragment_piece. cbn [sh_rows sh_width fst snd]. by rewrite Hrows, Hwidth. }
    cbn [res_bind]. destruct (IH Hloc' Hord' finish) as (ps & -> & _).
    + lia.
    + rewrite Forall_forall in Hafter |- *. intros g Hg'. specialize (Hafter g Hg'). right. lia.
    + intros h Hh. destruct (Hcov h) as (g & [->|Hg']%elem_of_cons & Hin); [lia|lia|by exists g].
    + cbn [res_bind fst snd]. eexists. split; [done|]. done.
Qed.
End Whole.
End Spec.
