(* ===== verification/PrefixReshard.v ===== *)
(** * From one set of ranks to another

    Every rank pushes its heads under the names of the model, the prefixes are merged,
    and any rank of any other set of ranks is given its heads of the whole tensors. *)
From S2P Require Import Prelude PagedKv GenerationControl TrainDisk Safetensors SafetensorsSpec.
From S2P Require Import PrefixTransfer TrainerExamples.
Open Scope nat_scope.
Open Scope list_scope.
Open Scope m_scope.

Section Reshard.
Context `{TransferLaws}.
Implicit Types p : PrefixTensors.

(** A whole tensor, and how many of its heads every rank keeps. *)
Record Whole := mk_whole { wh_planes : list Plane; wh_rows : nat; wh_width : nat; wh_dtype : DType; wh_local : nat }.
Implicit Types w : Whole.

Record whole_ok w : Prop := {
  wo_usize : (N.of_nat (length (wh_planes w)) ≤ usize_max)%N;
  wo_rows : 0 < wh_rows w;
  wo_width : 0 < wh_width w;
  wo_local : 0 < wh_local w;
  wo_float : float_dtype (wh_dtype w) = true
}.

Definition on_grid n (f : Fragment) : Prop := sh_heads (fr_shape f) = n ∧ ∃ k, fr_start f = k * n.
Record part_of w (f : Fragment) : Prop := {
  po_fragment : fragment_of (wh_planes w) (wh_rows w) (wh_width w) (wh_dtype w) f;
  po_local : local_payload f;
  po_grid : on_grid (wh_local w) f
}.
Definition held w (fs : list Fragment) : Prop := Forall (part_of w) fs ∧ in_order fs.
Definition covers (fs : list Fragment) h : Prop := ∃ f, f ∈ fs ∧ fr_start f ≤ h < fr_end f.

Lemma grid_disjoint n f g : 0 < n → on_grid n f → on_grid n g → fr_start f < fr_start g → fr_end f ≤ fr_start g.
Proof. unfold fr_end. intros Hn [Hf [k Hk]] [_ [j Hj]]. rewrite Hk, Hj, Hf. intros Hlt. assert (k < j) by nia. nia. Qed.

#[local] Instance fragment_le_trans : Transitive fragment_le.
Proof. intros a b c. unfold fragment_le. lia. Qed.
#[local] Instance fragment_le_total : Total fragment_le.
Proof. intros a b. unfold fragment_le. lia. Qed.

Lemma in_order_sorted w l : whole_ok w → Forall (part_of w) l → NoDup (fr_start <$> l) → StronglySorted fragment_le l → in_order l.
Proof.
  intros Hw Hall. induction Hall as [|f l Hf Hall IH]; cbn [fmap list_fmap]; intros Hnd Hs; [constructor|].
  apply NoDup_cons in Hnd as [Hnin Hnd]. inversion_clear Hs as [|? ? Hs' Hle]. constructor; [|by apply IH].
  rewrite Forall_forall in *. intros g Hg. specialize (Hle g Hg). unfold fragment_le in Hle.
  apply (grid_disjoint (wh_local w)); [apply Hw|apply Hf|by apply Hall|].
  assert (fr_start f ≠ fr_start g); [|lia]. intros Heq. apply Hnin. rewrite Heq. by apply list_elem_of_fmap_2.
Qed.

Lemma in_order_starts w l : Forall (part_of w) l → in_order l → NoDup (fr_start <$> l).
Proof.
  intros Hall Hord. induction Hord as [|f l Hf Hord IH]; cbn [fmap list_fmap]; [constructor|].
  inversion_clear Hall as [|? ? Hp Hall']. constructor; [|by apply IH].
  intros (g & Heq & Hg)%list_elem_of_fmap. rewrite Forall_forall in Hf. specialize (Hf g Hg).
  pose proof (fo_positive _ _ _ _ _ (po_fragment _ _ Hp)). unfold fr_end in Hf. lia.
Qed.

(** A fragment that is on the grid is new or a replica: there is no partial overlap. *)
Lemma compare_held w f fs : whole_ok w → part_of w f → Forall (part_of w) fs →
  (compare_fragments f fs = Ok None ∧ ∃ g, g ∈ fs ∧ fr_start g = fr_start f) ∨
  (compare_fragments f fs = Ok (Some f) ∧ ∀ g, g ∈ fs → fr_start g ≠ fr_start f).
Proof.
  intros Hw Hf Hall. pose proof Hf as [Hff _ Hgrid]. induction Hall as [|g fs Hg Hall IH]; cbn [compare_fragments].
  { right. split; [done|]. by intros g ?%elem_of_nil. }
  pose proof Hg as [Hgf _ Hggrid].
  rewrite decide_False by (rewrite (fo_global _ _ _ _ _ Hgf), (fo_global _ _ _ _ _ Hff), (fo_dtype _ _ _ _ _ Hgf), (fo_dtype _ _ _ _ _ Hff),
    (fo_shape _ _ _ _ _ Hgf), (fo_shape _ _ _ _ _ Hff); simpl; naive_solver).
  pose proof (grid_disjoint (wh_local w) f g (wo_local _ Hw) Hgrid Hggrid) as Hfg.
  pose proof (grid_disjoint (wh_local w) g f (wo_local _ Hw) Hggrid Hgrid) as Hgf2.
  assert (sh_heads (fr_shape g) = sh_heads (fr_shape f)) as Hsame by (rewrite (proj1 Hgrid); apply Hggrid).
  unfold fr_end in *. case_decide as Heq.
  - left. split; [done|]. exists g. split; [left|]. apply Heq.
  - rewrite decide_False by (intros [??]; destruct (Nat.lt_trichotomy (fr_start f) (fr_start g)) as [?|[?|?]];
      [specialize (Hfg ltac:(done)); lia|by apply Heq; split|specialize (Hgf2 ltac:(done)); lia]).
    destruct IH as [(-> & g' & Hg' & Hs)|(-> & Hs)].
    + left. split; [done|]. exists g'. split; [by right|done].
    + right. split; [done|]. intros g' [->|Hg']%elem_of_cons; [|by apply Hs]. intros Heq'. apply Heq. done.
Qed.

(** Inserting a part of a whole tensor adds its heads. *)
Lemma insert_part w name f p : whole_ok w → part_of w f → name ≠ EmptyString → held w (default [] (pt_tensors p !! name)) →
  ∃ fs, tensors_insert name f p = (Ok tt, set_tensors (<[name := fs]> (pt_tensors p)) p) ∧ held w fs ∧
    ∀ h, covers fs h ↔ covers (default [] (pt_tensors p !! name)) h ∨ fr_start f ≤ h < fr_end f.
Proof.
  intros Hw Hf Hname [Hall Hord]. pose proof Hf as [Hff Hfl Hgrid]. set (present := default [] _) in *.
  assert (fr_end f ≤ length (wh_planes w)) as Hend by apply Hff.
  pose proof (wo_usize _ Hw) as Hmax. pose proof (fo_positive _ _ _ _ _ Hff) as Hpos.
  assert (tensors_insert name f p = (
    let! added := mlift (compare_fragments f present) in
    match added with
    | None => mret tt
    | Some fragment => mmodify (λ p, set_tensors (<[name := merge_sort fragment_le (present ++ [fragment])]> (pt_tensors p)) p)
    end) (set_tensors (<[name := present]> (pt_tensors p)) p)) as ->.
  { unfold tensors_insert. rewrite decide_False.
    - done.
    - rewrite (fo_global _ _ _ _ _ Hff), (fo_shape _ _ _ _ _ Hff). cbn [sh_batch sh_heads sh_rows sh_width fst snd].
      pose proof (wo_rows _ Hw). pose proof (wo_width _ Hw). unfold fr_end in Hend.
      unfold usize_add. rewrite decide_True by lia. cbn [beyond]. rewrite bool_decide_eq_true.
      intros [?|[?|[?|[?|[?|?]]]]]; try done; lia. }
  destruct (compare_held w f present Hw Hf Hall) as [(-> & g & Hg & Hs)|(-> & Hnew)].
  - exists present. split; [done|]. split; [done|]. intros h. split; [by left|]. intros [?|Hin]; [done|]. exists g. split; [done|].
    rewrite Forall_forall in Hall. destruct (Hall g Hg) as [_ _ [Hn _]]. unfold fr_end in *. rewrite Hn, <- (proj1 Hgrid), Hs. lia.
  - exists (merge_sort fragment_le (present ++ [f])). split.
    { unfold mbind', mlift, mmodify. unfold set_tensors. simpl. do 2 f_equal. by rewrite insert_insert_eq. }
    assert (merge_sort fragment_le (present ++ [f]) ≡ₚ f :: present) as Hperm.
    { rewrite merge_sort_Permutation. apply Permutation_app_comm. }
    assert (Forall (part_of w) (merge_sort fragment_le (present ++ [f]))) as Hall' by (rewrite Hperm; by constructor).
    split; [split; [done|]|].
    + apply (in_order_sorted w); [done..| |].
      * rewrite Hperm. cbn [fmap list_fmap]. constructor; [|by apply (in_order_starts w)].
        intros (g & Heq & Hg)%list_elem_of_fmap. by apply (Hnew g).
      * apply (StronglySorted_merge_sort _).
    + intros h. unfold covers. setoid_rewrite Hperm. setoid_rewrite elem_of_cons. naive_solver.
Qed.
(** ** Merging prefixes *)
Context (wholes : gmap string Whole).

Definition same_meta p p' : Prop :=
  pt_position p = pt_position p' ∧ pt_schema p = pt_schema p' ∧ pt_scalars p = pt_scalars p' ∧ pt_children p = pt_children p'.
Record holds p : Prop := {
  ho_children : pt_children p = [];
  ho_scalars : pt_scalars p !! EmptyString = None;
  ho_tensors name fs : pt_tensors p !! name = Some fs → name ≠ EmptyString ∧ ∃ w, wholes !! name = Some w ∧ whole_ok w ∧ held w fs
}.
Definition heads_of p name h : Prop := covers (default [] (pt_tensors p !! name)) h.

Lemma same_meta_trans p p' p'' : same_meta p p' → same_meta p' p'' → same_meta p p''.
Proof. unfold same_meta. naive_solver congruence. Qed.

Lemma covers_nil h : ¬ covers [] h.
Proof. intros (f & Hf & _). by apply elem_of_nil in Hf. Qed.

Lemma held_lookup p name w : holds p → wholes !! name = Some w → held w (default [] (pt_tensors p !! name)).
Proof.
  intros Hp Hw. destruct (pt_tensors p !! name) as [fs|] eqn:Ef; simpl; [|by repeat constructor].
  destruct (ho_tensors _ Hp _ _ Ef) as (_ & w' & Hw' & _ & Hh). rewrite Hw in Hw'. by injection Hw' as <-.
Qed.

(** One insertion into a prefix that holds parts of the whole tensors. *)
Lemma insert_holds w name f p : holds p → wholes !! name = Some w → whole_ok w → part_of w f → name ≠ EmptyString →
  ∃ p', tensors_insert name f p = (Ok tt, p') ∧ same_meta p p' ∧ holds p' ∧
    ∀ n h, heads_of p' n h ↔ heads_of p n h ∨ (n = name ∧ fr_start f ≤ h < fr_end f).
Proof.
  intros Hp Hw Hok Hf Hname. destruct (insert_part w name f p Hok Hf Hname (held_lookup _ _ _ Hp Hw)) as (fs & Heq & Hheld & Hcov).
  eexists. split; [exact Heq|]. split; [done|]. split.
  - split; [apply Hp|apply Hp|]. intros n fs'. cbn [pt_tensors set_tensors]. rewrite lookup_insert. case_decide as Hn.
    + intros [= <-]. subst n. eauto 6.
    + apply Hp.
  - intros n h. unfold heads_of. cbn [pt_tensors set_tensors]. rewrite lookup_insert. case_decide as Hn.
    + subst n. simpl. rewrite Hcov. naive_solver.
    + naive_solver.
Qed.

Lemma insert_list_holds w name fs : ∀ p, holds p → wholes !! name = Some w → whole_ok w → Forall (part_of w) fs → name ≠ EmptyString →
  ∃ p', mfor fs (tensors_insert name) p = (Ok tt, p') ∧ same_meta p p' ∧ holds p' ∧
    ∀ n h, heads_of p' n h ↔ heads_of p n h ∨ (n = name ∧ covers fs h).
Proof.
  induction fs as [|f fs IH]; intros p Hp Hw Hok Hall Hname; cbn [mfor].
  { exists p. split; [done|]. split; [done|]. split; [done|]. intros n h. pose proof (covers_nil h). tauto. }
  inversion_clear Hall as [|? ? Hf Hall']. destruct (insert_holds w name f p) as (p1 & Heq & Hm & Hp1 & H1h); [done..|].
  destruct (IH p1) as (p' & Heq' & Hm' & Hp' & Hh); [done..|]. exists p'. split; [by rewrite (bind_ok _ _ _ _ _ Heq)|].
  split; [by eapply same_meta_trans|]. split; [done|]. intros n h. rewrite Hh, H1h. unfold covers. setoid_rewrite elem_of_cons. naive_solver.
Qed.

Lemma insert_all_holds entries : ∀ p, holds p →
  Forall (λ e : string * list Fragment, e.1 ≠ EmptyString ∧ ∃ w, wholes !! e.1 = Some w ∧ whole_ok w ∧ Forall (part_of w) e.2) entries →
  ∃ p', insert_all entries p = (Ok tt, p') ∧ same_meta p p' ∧ holds p' ∧
    ∀ n h, heads_of p' n h ↔ heads_of p n h ∨ ∃ fs, (n, fs) ∈ entries ∧ covers fs h.
Proof.
  unfold insert_all. induction entries as [|[name fs] entries IH]; intros p Hp Hall; cbn [mfor].
  { exists p. split; [done|]. split; [done|]. split; [done|]. intros n h. split; [by left|]. intros [?|(fs & Hfs & _)]; [done|].
    by apply elem_of_nil in Hfs. }
  apply Forall_cons in Hall as [(Hname & w & Hw & Hok & Hfs) Hall'].
  cbn [fst snd] in *.
  destruct (insert_list_holds w name fs p) as (p1 & Heq & Hm & Hp1 & H1h); [done..|].
  destruct (IH p1) as (p' & Heq' & Hm' & Hp' & Hh); [done..|]. exists p'. split; [by rewrite (bind_ok _ _ _ _ _ Heq)|].
  split; [by eapply same_meta_trans|]. split; [done|]. intros n h. rewrite Hh, H1h. setoid_rewrite elem_of_cons.
  split; [intros [[?|[-> ?]]|(fs' & ? & ?)]; eauto 6|]. intros [?|(fs' & [[= -> ->]|?] & ?)]; eauto 6.
Qed.

Lemma name_iter_elem {V} (m : gmap string V) name v : (name, v) ∈ name_iter m ↔ m !! name = Some v.
Proof. unfold name_iter. rewrite merge_sort_Permutation. apply elem_of_map_to_list. Qed.

(** Merging keeps what both prefixes hold. *)
Lemma merge_holds p other : holds p → holds other →
  pt_position p = pt_position other → pt_schema p = pt_schema other → pt_scalars p = pt_scalars other →
  ∃ p', merge_tensors other p = (Ok tt, p') ∧ same_meta p p' ∧ holds p' ∧
    ∀ n h, heads_of p' n h ↔ heads_of p n h ∨ heads_of other n h.
Proof.
  intros Hp Ho H1p H2s H3c. destruct (insert_all_holds (name_iter (pt_tensors other)) p Hp) as (p' & Heq & Hm & Hp' & Hh).
  { apply Forall_forall. intros [name fs] Hin. apply name_iter_elem in Hin.
    destruct (ho_tensors _ Ho _ _ Hin) as (Hname & w & Hw & Hok & Hheld & _). eauto. }
  exists p'. split; [|split; [done|split; [done|]]].
  - destruct other as [pos sch ts cs sc]. pose proof (ho_children _ Ho) as Hc. cbn [pt_children pt_position pt_schema pt_scalars pt_tensors] in *. subst cs.
    cbn [merge_tensors]. rewrite (bind_ok _ _ _ p p) by done. cbn [pt_position pt_schema pt_scalars pt_tensors].
    rewrite decide_False by naive_solver. by rewrite (bind_ok _ _ _ _ _ Heq).
  - intros n h. rewrite Hh. unfold heads_of at 3. setoid_rewrite name_iter_elem. split; (intros [?|Hx]; [by left|right]).
    + destruct Hx as (fs & -> & ?). done.
    + destruct (pt_tensors other !! n) as [fs|]; [eauto|]. by apply covers_nil in Hx.
Qed.

(** All the ranks, one after the other. *)
Fixpoint merge_ranks (ranks : list PrefixTensors) : M PrefixTensors GenerationError unit :=
  match ranks with [] => mret tt | other :: ranks => merge_tensors other ;;; merge_ranks ranks end.

Lemma merge_ranks_holds ranks : ∀ p, holds p → Forall holds ranks →
  Forall (λ other, pt_position p = pt_position other ∧ pt_schema p = pt_schema other ∧ pt_scalars p = pt_scalars other) ranks →
  ∃ p', merge_ranks ranks p = (Ok tt, p') ∧ same_meta p p' ∧ holds p' ∧
    ∀ n h, heads_of p' n h ↔ ∃ q, q ∈ p :: ranks ∧ heads_of q n h.
Proof.
  induction ranks as [|other ranks IH]; intros p Hp Hall Hmeta; cbn [merge_ranks].
  { exists p. split; [done|]. split; [done|]. split; [done|]. intros n h. setoid_rewrite list_elem_of_singleton. naive_solver. }
  apply Forall_cons in Hall as [Ho Hall']. apply Forall_cons in Hmeta as [(Hpo & Hs & Hc) Hmeta'].
  cbn beta in *.
  destruct (merge_holds p other) as (p1 & Heq & Hm & Hp1 & H1h); [done..|].
  destruct (IH p1) as (p' & Heq' & Hm' & Hp' & Hh); [done..| |].
  { destruct Hm as (<- & <- & <- & _). done. }
  exists p'. split; [by rewrite (bind_ok _ _ _ _ _ Heq)|]. split; [by eapply same_meta_trans|]. split; [done|].
  intros n h. rewrite Hh. setoid_rewrite elem_of_cons. split.
  - intros (q & [->|Hq] & Hx); [|by exists q; rewrite ?elem_of_cons; auto].
    apply H1h in Hx as [?|?]; [exists p|exists other]; rewrite ?elem_of_cons; auto.
  - intros (q & Hq & Hx). rewrite ?elem_of_cons in Hq. destruct Hq as [->|[->|Hq]]; [exists p1|exists p1|by exists q; auto];
      (split; [by left|apply H1h; auto]).
Qed.

(** ** A destination *)

(** Any range of heads that are all held is cut out of the whole tensor. *)
Lemma held_tensor p name w heads n : holds p → wholes !! name = Some w → whole_ok w → heads.1 = length (wh_planes w) →
  rg_start heads.2 < rg_end heads.2 → rg_end heads.2 ≤ length (wh_planes w) → range_len heads.2 = n →
  (∀ h, rg_start heads.2 ≤ h < rg_end heads.2 → heads_of p name h) →
  ∃ t, prefix_tensor name (1, n, wh_rows w, wh_width w) (wh_dtype w) heads p = Ok t ∧
    planes t = span (rg_start heads.2) (rg_end heads.2) (wh_planes w).
Proof.
  intros Hp Hw Hok Hg Hlt Hle Hn Hcov. unfold prefix_tensor, heads_of in *.
  destruct (pt_tensors p !! name) as [fs|] eqn:Ef.
  2: { exfalso. destruct (Hcov (rg_start heads.2)) as (f & Hf & _); [lia|by apply elem_of_nil in Hf]. }
  destruct (ho_tensors _ Hp _ _ Ef) as (_ & w' & Hw' & _ & Hheld). rewrite Hw in Hw'. injection Hw' as <-. destruct Hheld as [Hall Hord].
  cbn [ok_or res_bind default] in *. rewrite decide_False by (cbn [sh_batch sh_heads fst snd]; rewrite Hg; lia).
  destruct (pieces_cover (wh_planes w) (wh_rows w) (wh_width w) (wh_dtype w) name (1, n, wh_rows w, wh_width w) heads fs)
    with (cursor := rg_start heads.2) as (ps & Heq & Hne).
  - eapply Forall_impl; [exact Hall|]. by intros f [].
  - eapply Forall_impl; [exact Hall|]. by intros f [].
  - done.
  - done.
  - done.
  - done.
  - lia.
  - apply Forall_forall. auto.
  - done.
  - apply pieces_planes with (G := wh_planes w) (rows := wh_rows w) (width := wh_width w) in Heq as Hpl; [|eapply Forall_impl; [exact Hall|]; by intros f []|done..].
    rewrite Heq. cbn [res_bind fst snd]. rewrite decide_False by (intros [?|?]; [done|by apply Hne]).
    destruct ps as [|t [|t2 ps]]; [by destruct Hne| |].
    + exists t. split; [done|]. destruct Hpl as [_ Hpl]. simpl in Hpl. by rewrite app_nil_r in Hpl.
    + exists (cat_heads (t :: t2 :: ps)). split; [done|]. rewrite xl_cat by done. apply Hpl.
Qed.

(** ** Host records *)

Lemma set_all_scalars_ok l : ∀ p, NoDup l.*1 → Forall (λ e, e.1 ≠ EmptyString ∧ pt_scalars p !! e.1 = None) l →
  set_all_scalars l p = Ok (set_scalars (list_to_map l ∪ pt_scalars p) p).
Proof.
  induction l as [|[name v] l IH]; intros p Hnd Hall; cbn [set_all_scalars].
  { f_equal. unfold set_scalars. destruct p. simpl. by rewrite (left_id_L ∅ (∪)). }
  apply Forall_cons in Hall as [(Hname & Hnone) Hall]. cbn [fmap list_fmap fst snd] in *. apply NoDup_cons in Hnd as [Hnin Hnd].
  unfold set_scalar at 1. rewrite decide_False by (intros [?|[? Hs]]; [done|by rewrite Hnone in Hs]). cbn [res_bind].
  rewrite IH; [|done|].
  - f_equal. unfold set_scalars. cbn [pt_scalars pt_position pt_schema pt_tensors pt_children]. f_equal. cbn [list_to_map fst snd].
    assert ((list_to_map l : gmap string nat) !! name = None) as Hl by (by apply not_elem_of_list_to_map_1).
    rewrite list_to_map_cons, <- insert_union_l. by rewrite insert_union_r by done.
  - apply Forall_forall. intros [n v'] Hin. rewrite Forall_forall in Hall. destruct (Hall _ Hin) as [? ?]. split; [done|].
    cbn [pt_scalars set_scalars fst]. rewrite lookup_insert_ne; [done|]. intros ->. apply Hnin. by apply (list_elem_of_fmap_2 fst) in Hin.
Qed.

Lemma name_iter_fst {V} (m : gmap string V) : NoDup (name_iter m).*1 ∧ list_to_map (name_iter m) = m.
Proof.
  unfold name_iter. assert (merge_sort name_le (map_to_list m) ≡ₚ map_to_list m) as Hp by apply merge_sort_Permutation.
  assert (NoDup (merge_sort name_le (map_to_list m)).*1) as Hnd by (rewrite Hp; apply NoDup_fst_map_to_list).
  split; [done|]. rewrite (list_to_map_proper _ (map_to_list m)) by done. apply list_to_map_to_list.
Qed.

Lemma host_fragments_inv l : ∀ hs, host_fragments l = Ok hs →
  Forall2 (λ e h, hf_name h = e.1 ∧ hf_global_heads h = fr_global_heads e.2 ∧ hf_start h = fr_start e.2 ∧ host_data e.2 = Ok (hf_data h)) l hs.
Proof.
  induction l as [|[name part] l IH]; intros hs; cbn [host_fragments]; [intros [= <-]; constructor|].
  destruct (host_data part) as [d|e|q] eqn:Ed; simpl; [|done..]. destruct (host_fragments l) as [more|e|q]; simpl; [|done..].
  intros [= <-]. constructor; [done|by apply IH].
Qed.

(** What is read back of a part is the same part, on the host. *)
Lemma insert_host_part w name f h p : holds p → wholes !! name = Some w → whole_ok w → part_of w f → name ≠ EmptyString →
  hf_name h = name → hf_global_heads h = fr_global_heads f → hf_start h = fr_start f → host_data f = Ok (hf_data h) →
  ∃ p', insert_host h p = (Ok tt, p') ∧ same_meta p p' ∧ holds p' ∧ ∀ n i, heads_of p' n i ↔ heads_of p n i ∨ (n = name ∧ fr_start f ≤ i < fr_end f).
Proof.
  intros Hp Hw Hok Hf Hname Hn Hgl Hst Hd. pose proof Hf as [Hff Hfl Hgrid].
  assert (shape_of_data (hf_data h) = Some (fr_shape f) ∧ data_dtype (hf_data h) = wh_dtype w ∧
    shape_bytes (wh_dtype w) (fr_shape f) = Some (length (data_bytes (hf_data h))) ∧ data_planes (hf_data h) = payload_planes (fr_payload f)) as (Hs & Hdt & Hb & Hpl).
  { unfold host_data in Hd. destruct (fr_payload f) as [t|d|index producer] eqn:Ep; [| |done].
    - unfold lift in Hd. destruct (into_data t) as [e|d] eqn:Ed; [done|]. injection Hd as <-.
      destruct (fo_device _ _ _ _ _ Hff t Ep) as [<- <-]. destruct (xl_data t d Ed) as (? & ? & ? & ?). done.
    - injection Hd as <-. destruct (fo_host _ _ _ _ _ Hff d Ep) as (? & ? & ? & ?). done. }
  unfold insert_host. rewrite Hs, Hdt, Hn, Hgl, Hst. rewrite decide_False by (rewrite (wo_float _ Hok), Hb; naive_solver).
  apply (insert_holds w name (mk_fragment (fr_global_heads f) (fr_start f) (fr_shape f) (wh_dtype w) (OnHost (hf_data h))) p Hp Hw Hok); [|done].
  split; [|by intros ? ?|exact Hgrid]. destruct Hff. split; try done.
  - cbn [fr_payload payload_planes]. by rewrite Hpl.
  - cbn [fr_payload]. intros d [= <-]. rewrite (wo_float _ Hok). done.
Qed.

Lemma insert_hosts l : ∀ hs p, holds p →
  Forall2 (λ e h, hf_name h = e.1 ∧ hf_global_heads h = fr_global_heads e.2 ∧ hf_start h = fr_start e.2 ∧ host_data e.2 = Ok (hf_data h)) l hs →
  Forall (λ e : string * Fragment, e.1 ≠ EmptyString ∧ ∃ w, wholes !! e.1 = Some w ∧ whole_ok w ∧ part_of w e.2) l →
  ∃ p', mfor hs insert_host p = (Ok tt, p') ∧ same_meta p p' ∧ holds p' ∧
    ∀ n i, heads_of p' n i ↔ heads_of p n i ∨ ∃ f, (n, f) ∈ l ∧ fr_start f ≤ i < fr_end f.
Proof.
  induction l as [|[name f] l IH]; intros hs p Hp Hzip Hall.
  { apply Forall2_nil_inv_l in Hzip as ->. exists p. split; [done|]. split; [done|]. split; [done|].
    intros n i. split; [by left|]. intros [?|(f & Hf & _)]; [done|by apply elem_of_nil in Hf]. }
  apply Forall2_cons_inv_l in Hzip as (h & hs' & (Hn & Hgl & Hst & Hd) & Hzip & ->).
  apply Forall_cons in Hall as [(Hname & w & Hw & Hok & Hf) Hall]. cbn [fst snd] in *. cbn [mfor].
  destruct (insert_host_part w name f h p) as (p1 & Heq & Hm & Hp1 & H1h); [done..|].
  destruct (IH hs' p1 Hp1 Hzip Hall) as (p' & Heq' & Hm' & Hp' & Hh). exists p'. split; [by rewrite (bind_ok _ _ _ _ _ Heq)|].
  split; [by eapply same_meta_trans|]. split; [done|]. intros n i. rewrite Hh, H1h. setoid_rewrite elem_of_cons.
  split; [intros [[?|[-> ?]]|(f' & ? & ?)]; eauto 6|]. intros [?|(f' & [[= -> ->]|?] & ?)]; eauto 6.
Qed.

Lemma named_parts_elem p name f : (name, f) ∈ named_parts p ↔ ∃ fs, pt_tensors p !! name = Some fs ∧ f ∈ fs.
Proof.
  unfold named_parts. rewrite list_elem_of_In, in_concat. setoid_rewrite <- list_elem_of_In. split.
  - intros (l & Hl & Hin). apply list_elem_of_fmap in Hl as ([n fs] & -> & Hin'). apply name_iter_elem in Hin'.
    apply list_elem_of_fmap in Hin as (g & [= -> ->] & Hg). eauto.
  - intros (fs & Hfs & Hf). apply name_iter_elem in Hfs. exists ((λ part, (name, part)) <$> fs). split.
    + apply (list_elem_of_fmap_2 (λ entry : string * list Fragment, (λ part, (entry.1, part)) <$> entry.2)) in Hfs. done.
    + by apply (list_elem_of_fmap_2 (λ part, (name, part))) in Hf.
Qed.

(** A prefix that goes through a host record holds what it held. *)
Lemma host_holds model p host : holds p → model ≠ EmptyString → host_record model p = Ok host →
  ∃ p', from_host_record model host = Ok p' ∧ same_meta p p' ∧ holds p' ∧ ∀ n h, heads_of p' n h ↔ heads_of p n h.
Proof.
  intros Hp Hmodel Hrec. destruct p as [pos sch ts cs sc] eqn:Ep. rewrite <- Ep in *. pose proof (ho_children _ Hp) as Hc.
  assert (∃ fragments, host_fragments (named_parts p) = Ok fragments ∧
    host = mk_host (if decide (sc = ∅) then 1%N else 2%N) model sch pos fragments [] sc) as (fragments & Hfr & ->).
  { rewrite Ep in Hc, Hrec |- *. cbn [pt_children] in Hc. subst cs. cbn [host_record] in Hrec.
    destruct (host_fragments _) as [fragments|e|q]; [|done..]. simpl in Hrec. injection Hrec as <-. eauto. }
  pose proof (ho_scalars _ Hp) as Hsc. rewrite Ep in Hsc. cbn [pt_scalars] in Hsc.
  cbn [from_host_record hp_version hp_scalars hp_model_id hp_schema hp_position hp_children hp_fragments].
  rewrite decide_False by (case_decide; naive_solver). destruct (name_iter_fst sc) as [Hnd Hmap].
  rewrite set_all_scalars_ok; [|done|].
  2: { apply Forall_forall. intros [n v] Hin. apply name_iter_elem in Hin. split; [|by apply lookup_empty]. cbn [fst]. intros ->. by rewrite Hsc in Hin. }
  cbn [res_bind]. rewrite Hmap. set (p0 := set_scalars _ _).
  assert (holds p0) as Hp0.
  { split; [done| |].
    - unfold p0. cbn [pt_scalars set_scalars new_tensors]. by rewrite (right_id_L ∅ (∪)).
    - intros name fs. unfold p0. cbn [pt_tensors set_scalars new_tensors]. by rewrite lookup_empty. }
  destruct (insert_hosts (named_parts p) fragments p0 Hp0 (host_fragments_inv _ _ Hfr)) as (p' & Heq & Hm & Hp' & Hh).
  { apply Forall_forall. intros [n f] Hin. apply named_parts_elem in Hin as (fs & Hfs & Hf).
    destruct (ho_tensors _ Hp _ _ Hfs) as (Hn & w & Hw & Hok & [Hall _]). rewrite Forall_forall in Hall. split; [done|]. exists w. auto. }
  rewrite Heq. exists p'. split; [done|]. split; [|split; [done|]].
  - apply same_meta_trans with p0; [|done]. rewrite Ep in Hc |- *. unfold same_meta, p0.
    cbn [pt_position pt_schema pt_scalars pt_children set_scalars new_tensors] in *. by rewrite (right_id_L ∅ (∪)), Hc.
  - intros n h. rewrite Hh. setoid_rewrite named_parts_elem. unfold heads_of. cbn [pt_tensors p0 set_scalars new_tensors]. rewrite lookup_empty.
    split.
    + intros [Hx|(f & (fs & -> & Hf) & Hin)]; [by apply covers_nil in Hx|]. exists f. done.
    + intros (f & Hf & Hin). right. exists f. split; [|done]. destruct (pt_tensors p !! n) as [fs|]; [eauto|by apply elem_of_nil in Hf].
Qed.
End Reshard.

(** ** Ranks

    The heads a rank owns, what every rank exports, and the claims: whatever set of
    ranks produced a prefix, any rank of any other set gets its heads of the whole
    tensors, directly or through a host record. *)

(** *** Topology *)
Definition rank_shard (rank world : nat) : PrefixShard := mk_shard rank world None None None.

Lemma multiple_div n d : d ≠ 0 → is_multiple_of n d = true → n = d * (n / d).
Proof.
  intros Hd. unfold is_multiple_of. rewrite decide_False by done. rewrite bool_decide_eq_true. intros Hm.
  pose proof (Nat.div_mod_eq n d). lia.
Qed.

(** A rank owns one block of [local] heads. *)
Lemma shard_heads_block s g local heads : shard_heads s (Some g) local = Ok heads →
  heads.1 = g ∧ 0 < local ∧ ∃ k, rg_start heads.2 = k * local ∧ rg_end heads.2 = (k + 1) * local ∧ rg_end heads.2 ≤ g.
Proof.
  unfold shard_heads. destruct (decide _) as [|Hz]; [done|]. assert (sh_world s ≠ 0 ∧ sh_rank s < sh_world s ∧ g ≠ 0 ∧ local ≠ 0) as (Hw & Hr & Hg & Hl) by lia.
  destruct (bool_decide (sh_world s ≤ g) && is_multiple_of g (sh_world s)) eqn:E1.
  - apply andb_true_iff in E1 as [Hle Hm]. apply bool_decide_eq_true in Hle. apply multiple_div in Hm; [|done]. set (n := g / sh_world s) in *. cbn [res_bind].
    destruct (decide (range_len _ ≠ local)) as [|Hlen]; [done|]. apply dec_stable in Hlen. intros [= <-]. unfold range_len in Hlen. cbn [rg_start rg_end fst snd] in *.
    assert (n = local) as <- by lia. split; [done|]. split; [lia|]. exists (sh_rank s). split; [done|]. split; [done|]. nia.
  - destruct (bool_decide (g < sh_world s) && is_multiple_of (sh_world s) g) eqn:E2; [|done].
    apply andb_true_iff in E2 as [Hlt Hm]. apply bool_decide_eq_true in Hlt. apply multiple_div in Hm; [|done]. set (n := sh_world s / g) in *. cbn [res_bind].
    destruct (decide (range_len _ ≠ local)) as [|Hlen]; [done|]. apply dec_stable in Hlen. intros [= <-]. unfold range_len in Hlen. cbn [rg_start rg_end fst snd] in *.
    assert (local = 1) as -> by lia. split; [done|]. split; [lia|]. exists (sh_rank s / n). split; [lia|]. split; [lia|].
    assert (sh_rank s / n < g); [|lia]. apply Nat.Div0.div_lt_upper_bound. nia.
Qed.

(** All the ranks of a world own all the heads between them. *)
Lemma shard_heads_cover world g local heads0 : shard_heads (rank_shard 0 world) (Some g) local = Ok heads0 → ∀ h, h < g →
  ∃ rank heads, rank < world ∧ shard_heads (rank_shard rank world) (Some g) local = Ok heads ∧ rg_start heads.2 ≤ h < rg_end heads.2.
Proof.
  unfold shard_heads. cbn [rank_shard sh_rank sh_world]. destruct (decide _) as [|Hz]; [done|]. intros Hok h Hh.
  assert (world ≠ 0 ∧ g ≠ 0 ∧ local ≠ 0) as (Hw & Hg & Hl) by lia.
  destruct (bool_decide (world ≤ g) && is_multiple_of g world) eqn:E1.
  - apply andb_true_iff in E1 as [Hle Hm]. apply bool_decide_eq_true in Hle. apply multiple_div in Hm; [|done]. set (n := g / world) in *. cbn [res_bind] in *.
    destruct (decide (range_len _ ≠ local)) as [|Hlen] in Hok; [done|]. apply dec_stable in Hlen. unfold range_len in Hlen. cbn [rg_start rg_end fst snd] in *.
    assert (n = local) as Hn by lia. assert (n ≠ 0) by lia.
    pose proof (Nat.div_mod_eq h n). pose proof (Nat.mod_upper_bound h n ltac:(done)). assert (h / n < world) as Hrank by (apply Nat.Div0.div_lt_upper_bound; nia).
    exists (h / n). rewrite decide_False by lia. rewrite decide_False by (unfold range_len; cbn [rg_start rg_end]; nia).
    eexists. split; [done|]. split; [done|]. cbn [rg_start rg_end fst snd]. nia.
  - destruct (bool_decide (g < world) && is_multiple_of world g) eqn:E2; [|done].
    apply andb_true_iff in E2 as [Hlt Hm]. apply bool_decide_eq_true in Hlt. apply multiple_div in Hm; [|done]. set (n := world / g) in *. cbn [res_bind] in *.
    destruct (decide (range_len _ ≠ local)) as [|Hlen] in Hok; [done|]. apply dec_stable in Hlen. unfold range_len in Hlen. cbn [rg_start rg_end fst snd] in *. assert (n ≠ 0) by nia.
    exists (h * n). rewrite decide_False by nia. rewrite Nat.div_mul by done. rewrite decide_False by (unfold range_len; cbn [rg_start rg_end]; lia).
    eexists. split; [nia|]. split; [done|]. cbn [rg_start rg_end fst snd]. lia.
Qed.

Lemma Forall2_in_r {A B} (P : A → B → Prop) l k y : Forall2 P l k → y ∈ k → ∃ x, x ∈ l ∧ P x y.
Proof.
  induction 1 as [|x' y' l k Hxy Hl IH]; [by intros ?%elem_of_nil|]. intros [->|Hy]%elem_of_cons; [exists x'; by split; [left|]|].
  destruct (IH Hy) as (x & ? & ?). exists x. split; [by right|done].
Qed.

Lemma Forall2_in_l {A B} (P : A → B → Prop) l k x : Forall2 P l k → x ∈ l → ∃ y, y ∈ k ∧ P x y.
Proof.
  induction 1 as [|x' y' l k Hxy Hl IH]; [by intros ?%elem_of_nil|]. intros [->|Hy]%elem_of_cons; [exists y'; by split; [left|]|].
  destruct (IH Hy) as (y & ? & ?). exists y. split; [by right|done].
Qed.

Section Ranks.
Context `{TransferLaws}.
Implicit Types p : PrefixTensors.

(** *** What the ranks export *)

(** A rank pushes its heads of every whole tensor; the prefixes of all ranks are merged
    into the first. *)
Definition push_rank (tensors : nat → string → Tensor4) (world rank : nat) (whole : list (string * Whole)) : M PrefixTensors GenerationError unit :=
  mfor whole (λ e,
    let! heads := mlift (shard_heads (rank_shard rank world) (Some (length (wh_planes e.2))) (wh_local e.2)) in
    push_tensor e.1 (tensors rank e.1) heads).
Definition ran {S A} (m : res GenerationError A * S) : Gen S :=
  match m with (Ok _, s) => Ok s | (Err e, _) => Err e | (Panic q, _) => Panic q end.
Fixpoint export_ranks tensors world (ranks : list nat) (whole : list (string * Whole)) (p : PrefixTensors) : Gen (list PrefixTensors) :=
  match ranks with
  | [] => Ok []
  | rank :: ranks =>
      do? first := ran (push_rank tensors world rank whole p) in
      do? rest := export_ranks tensors world ranks whole p in
      Ok (first :: rest)
  end.
Definition gathered tensors world whole (p : PrefixTensors) : Gen PrefixTensors :=
  do? ranks := export_ranks tensors world (seq 0 world) whole p in
  match ranks with [] => Err "no rank" | first :: rest => ran (merge_ranks rest first) end.

(** Rank [rank] of [world] has its heads of the whole tensors. *)
Definition sharded (tensors : nat → string → Tensor4) (world rank : nat) (whole : list (string * Whole)) : Prop :=
  Forall (λ e : string * Whole, ∃ heads, shard_heads (rank_shard rank world) (Some (length (wh_planes e.2))) (wh_local e.2) = Ok heads ∧
    tensor_dims4 (tensors rank e.1) = (1, wh_local e.2, wh_rows e.2, wh_width e.2) ∧ tensor_dtype (tensors rank e.1) = wh_dtype e.2 ∧
    planes (tensors rank e.1) = span (rg_start heads.2) (rg_end heads.2) (wh_planes e.2)) whole.
Definition names_ok (whole : list (string * Whole)) : Prop := NoDup whole.*1 ∧ Forall (λ e, e.1 ≠ EmptyString ∧ whole_ok e.2) whole.

Lemma push_rank_holds tensors world rank (wholes : gmap string Whole) whole : ∀ p, holds wholes p →
  Forall (λ e, e.1 ≠ EmptyString ∧ whole_ok e.2) whole → (∀ name w, (name, w) ∈ whole → wholes !! name = Some w) → sharded tensors world rank whole →
  ∃ p', push_rank tensors world rank whole p = (Ok tt, p') ∧ same_meta p p' ∧ holds wholes p' ∧
    ∀ n h, heads_of p' n h ↔ heads_of p n h ∨ ∃ w heads, (n, w) ∈ whole ∧
      shard_heads (rank_shard rank world) (Some (length (wh_planes w))) (wh_local w) = Ok heads ∧ rg_start heads.2 ≤ h < rg_end heads.2.
Proof.
  unfold push_rank, sharded. induction whole as [|[name w] whole IH]; intros p Hp Hok Hin Hsh; cbn [mfor].
  { exists p. split; [done|]. split; [done|]. split; [done|]. intros n h. split; [by left|]. intros [?|(w & heads & Hw & _)]; [done|by apply elem_of_nil in Hw]. }
  apply Forall_cons in Hok as [[Hname Hw] Hok]. apply Forall_cons in Hsh as [(heads & Hheads & Hdims & Hdt & Hpl) Hsh]. cbn [fst snd] in *.
  destruct (shard_heads_block _ _ _ _ Hheads) as (Hg & Hl & k & Hs & He & Hle).
  set (f := mk_fragment heads.1 (rg_start heads.2) (tensor_dims4 (tensors rank name)) (tensor_dtype (tensors rank name)) (OnDevice (tensors rank name))).
  assert (part_of w f) as Hf.
  { assert (fr_end f = rg_end heads.2) as Hend by (unfold fr_end, f; cbn [fr_start fr_shape]; rewrite Hdims; cbn [sh_heads fst snd]; lia).
    split; [|by intros ? ?|].
    - split; try (rewrite ?Hend; cbn [f fr_global_heads fr_start fr_shape fr_dtype fr_payload payload_planes]; rewrite ?Hdims; done).
      intros t [= <-]. by rewrite <- Hdt.
    - split; cbn [f fr_shape fr_start]; [by rewrite Hdims|by exists k]. }
  destruct (insert_holds wholes w name f p) as (p1 & Heq & Hm & Hp1 & H1h); [done|by apply Hin; left|done..|].
  destruct (IH p1) as (p' & Heq' & Hm' & Hp' & Hh); [done|done|by intros; apply Hin; right|done|].
  exists p'. split.
  - rewrite (bind_ok _ _ p tt p1); [done|]. unfold mbind' at 1, mlift. rewrite Hheads. unfold push_tensor. rewrite decide_False; [exact Heq|].
    unfold range_len. rewrite Hdims. cbn [sh_heads fst snd]. lia.
  - split; [by eapply same_meta_trans|]. split; [done|]. intros n h. rewrite Hh, H1h.
    assert (fr_start f ≤ h < fr_end f ↔ rg_start heads.2 ≤ h < rg_end heads.2) as Hspan.
    { unfold fr_end, f. cbn [fr_start fr_shape]. rewrite Hdims. cbn [sh_heads fst snd]. lia. }
    rewrite Hspan. split.
    + intros [[?|[-> ?]]|(w' & heads' & ? & ? & ?)]; [by left|right; exists w, heads; split; [left|done]|right; exists w', heads'; split; [by right|done]].
    + intros [?|(w' & heads' & [[= -> ->]|?]%elem_of_cons & Hheads' & ?)]; [by left; left| |right; eauto].
      rewrite Hheads in Hheads'. injection Hheads' as <-. left. by right.
Qed.

Lemma export_ranks_holds tensors world (wholes : gmap string Whole) whole p ranks : holds wholes p →
  Forall (λ e, e.1 ≠ EmptyString ∧ whole_ok e.2) whole → (∀ name w, (name, w) ∈ whole → wholes !! name = Some w) →
  Forall (λ rank, sharded tensors world rank whole) ranks →
  ∃ ps, export_ranks tensors world ranks whole p = Ok ps ∧ Forall2 (λ rank q, same_meta p q ∧ holds wholes q ∧
    ∀ n w heads h, (n, w) ∈ whole → shard_heads (rank_shard rank world) (Some (length (wh_planes w))) (wh_local w) = Ok heads →
      rg_start heads.2 ≤ h < rg_end heads.2 → heads_of q n h) ranks ps.
Proof.
  intros Hp Hok Hin. induction 1 as [|rank ranks Hr Hall IH]; cbn [export_ranks]; [by exists []|].
  destruct (push_rank_holds tensors world rank wholes whole p Hp Hok Hin Hr) as (q & -> & Hm & Hq & Hh). cbn [ran res_bind].
  destruct IH as (ps & -> & Hps). cbn [res_bind]. exists (q :: ps). split; [done|]. constructor; [|done].
  split; [done|]. split; [done|]. intros n w heads h Hw Hheads Hin'. apply Hh. right. eauto.
Qed.

(** The prefixes of a whole world hold every head. *)
Lemma gathered_holds tensors world whole schema position : 0 < world → names_ok whole →
  (∀ rank, rank < world → sharded tensors world rank whole) →
  ∃ p, gathered tensors world whole (new_tensors schema position) = Ok p ∧ holds (list_to_map whole) p ∧
    ∀ name w h, (name, w) ∈ whole → h < length (wh_planes w) → heads_of p name h.
Proof.
  intros Hworld [Hnd Hok] Hsh. set (wholes := list_to_map whole : gmap string Whole).
  assert (∀ name w, (name, w) ∈ whole → wholes !! name = Some w) as Hin by (intros; by apply elem_of_list_to_map_1).
  assert (holds wholes (new_tensors schema position)) as Hnew by (split; [done..|]; intros name fs; cbn [pt_tensors new_tensors]; by rewrite lookup_empty).
  destruct (export_ranks_holds tensors world wholes whole (new_tensors schema position) (seq 0 world) Hnew Hok Hin) as (ps & Heq & Hps).
  { apply Forall_forall. intros rank Hrank%elem_of_seq. apply Hsh. lia. }
  unfold gathered. rewrite Heq. cbn [res_bind]. destruct world as [|world]; [lia|]. cbn [seq] in *.
  apply Forall2_cons_inv_l in Hps as (first & rest & Hfirst & Hrest & ->).
  destruct (merge_ranks_holds wholes rest first) as (p & -> & Hm & Hp & Hh).
  - apply Hfirst.
  - apply Forall_forall. intros q Hq. destruct (Forall2_in_r _ _ _ _ Hrest Hq) as (r & _ & _ & ? & _). done.
  - apply Forall_forall. intros q Hq. destruct (Forall2_in_r _ _ _ _ Hrest Hq) as (r & _ & (Q1 & Q2 & Q3 & _) & _).
    destruct Hfirst as ((F1 & F2 & F3 & _) & _). by rewrite <- F1, <- F2, <- F3, Q1, Q2, Q3.
  - exists p. split; [done|]. split; [done|]. intros name w h Hw Hlt. apply Hh.
    assert (sharded tensors (S world) 0 whole) as H0' by (apply Hsh; lia). unfold sharded in H0'. rewrite Forall_forall in H0'.
    destruct (H0' _ Hw) as (heads0 & Hh0 & _). cbn [fst snd] in Hh0.
    destruct (shard_heads_cover _ _ _ _ Hh0 h Hlt) as (rank & heads & Hrank & Hheads & Hspan).
    destruct rank as [|rank].
    + exists first. split; [by left|]. destruct Hfirst as (_ & _ & Hf). by eapply Hf.
    + assert (S rank ∈ seq 1 world) as Hr by (apply elem_of_seq; lia).
      destruct (Forall2_in_l _ _ _ _ Hrest Hr) as (q & Hq & _ & _ & Hf). exists q. split; [by right|]. by eapply Hf.
Qed.

(** Any shard of any world owns heads that are all held. *)
Lemma held_shard p whole name w shard local heads : names_ok whole → holds (list_to_map whole) p →
  (∀ name w h, (name, w) ∈ whole → h < length (wh_planes w) → heads_of p name h) →
  (name, w) ∈ whole → shard_heads shard (Some (length (wh_planes w))) local = Ok heads →
  ∃ t, prefix_tensor name (1, local, wh_rows w, wh_width w) (wh_dtype w) heads p = Ok t ∧
    planes t = span (rg_start heads.2) (rg_end heads.2) (wh_planes w).
Proof.
  intros [Hnd Hok] Hp Hcov Hw Hheads. destruct (shard_heads_block _ _ _ _ Hheads) as (Hg & Hl & k & Hs & He & Hle).
  rewrite Forall_forall in Hok.
  apply (held_tensor (list_to_map whole)); [done|by apply elem_of_list_to_map_1|by apply (Hok (name, w))|done|lia|done|unfold range_len; lia|].
  intros h Hh. apply (Hcov name w h); [done|lia].
Qed.

(** Claim C16. A prefix exported by any number of ranks serves any other number: each rank
    pushes the heads [PrefixShard::heads] gives it, the prefixes are merged without an
    error, and whatever rank of whatever world asks for the heads it owns is given exactly
    these heads of the whole tensor, in order. *)
Theorem resharded_prefix_exact tensors world whole schema position : 0 < world → names_ok whole →
  (∀ rank, rank < world → sharded tensors world rank whole) →
  ∃ p, gathered tensors world whole (new_tensors schema position) = Ok p ∧
    ∀ name w shard local heads, (name, w) ∈ whole → shard_heads shard (Some (length (wh_planes w))) local = Ok heads →
      ∃ t, prefix_tensor name (1, local, wh_rows w, wh_width w) (wh_dtype w) heads p = Ok t ∧
        planes t = span (rg_start heads.2) (rg_end heads.2) (wh_planes w).
Proof.
  intros Hworld Hnames Hsh. destruct (gathered_holds tensors world whole schema position Hworld Hnames Hsh) as (p & -> & Hp & Hcov).
  exists p. split; [done|]. intros. by eapply held_shard.
Qed.

(** Claim C21. The host record of a prefix is the prefix: when the merged prefix of a world
    can be recorded, the record is accepted under the same model name, and what is read
    back gives every rank of every world the same heads of the whole tensors. *)
Theorem host_prefix_roundtrip tensors world whole schema position model p host : 0 < world → names_ok whole →
  (∀ rank, rank < world → sharded tensors world rank whole) → model ≠ EmptyString →
  gathered tensors world whole (new_tensors schema position) = Ok p → host_record model p = Ok host →
  ∃ p', from_host_record model host = Ok p' ∧ pt_position p' = pt_position p ∧ pt_schema p' = pt_schema p ∧ pt_scalars p' = pt_scalars p ∧
    ∀ name w shard local heads, (name, w) ∈ whole → shard_heads shard (Some (length (wh_planes w))) local = Ok heads →
      ∃ t, prefix_tensor name (1, local, wh_rows w, wh_width w) (wh_dtype w) heads p' = Ok t ∧
        planes t = span (rg_start heads.2) (rg_end heads.2) (wh_planes w).
Proof.
  intros Hworld Hnames Hsh Hmodel Hgat Hrec. destruct (gathered_holds tensors world whole schema position Hworld Hnames Hsh) as (p1 & Hg1 & Hp & Hcov).
  rewrite Hgat in Hg1. injection Hg1 as <-. destruct (host_holds (list_to_map whole) model p host Hp Hmodel Hrec) as (p' & -> & Hm & Hp' & Hh).
  exists p'. split; [done|]. destruct Hm as (<- & <- & <- & _). do 3 (split; [done|]).
  intros name w shard local heads Hw Hheads. eapply held_shard; [done|done| |done|done].
  intros. apply Hh. by eapply Hcov.
Qed.
End Ranks.
