(* ===== verification/Rope.v ===== *)
(** * Rotary histories

    src/src/llama/rope.rs, the part that computes on the host: with dynamic scaling the
    rotary frequencies of a token depend on the longest sequence seen when it was
    processed.  A cache remembers these lengths, run-length encoded, so that it can be
    cut, continued and moved to another process. *)
From S2P Require Import Prelude Float Numerics PagedKv GenerationControl Safetensors PrefixTransfer.
Open Scope nat_scope.
Open Scope list_scope.
Open Scope m_scope.

(** [initial] is zero without dynamic scaling; a span ends at a position (excluded) and
    has one length, or zero when every token had the length of its own position. *)
Record RotaryHistory := mk_history { rh_initial : nat; rh_spans : list (nat * nat) }.
Record RotaryDelta := mk_delta { rd_initial : nat; rd_lengths : list nat }.
Definition default_history : RotaryHistory := mk_history 0 [].
#[export] Instance RotaryHistory_eq_dec : EqDecision RotaryHistory.
Proof. solve_decision. Defined.

Definition is_dynamic (h : RotaryHistory) : bool := bool_decide (rh_initial h ≠ 0).

(** ** Validation *)
Fixpoint validate_spans (initial begin : nat) (spans : list (nat * nat)) : Gen nat :=
  match spans with
  | [] => Ok begin
  | (finish, length) :: spans =>
      if decide (initial = 0 ∨ finish ≤ begin ∨ (length ≠ 0 ∧ (length < initial ∨ length < finish)) ∨ (length = 0 ∧ begin < initial))
      then Err "invalid rotary history interval"
      else validate_spans initial finish spans
  end.

Definition validate_history (position : nat) (h : RotaryHistory) : Gen unit :=
  do? begin := validate_spans (rh_initial h) 0 (rh_spans h) in
  if decide ((rh_initial h = 0 ∧ rh_spans h ≠ []) ∨ (rh_initial h ≠ 0 ∧ begin ≠ position))
  then Err "rotary history and completed token position differ" else Ok tt.

(** ** The length at a position *)
Fixpoint find_span (position : nat) (spans : list (nat * nat)) : option nat :=
  match spans with
  | [] => None
  | (finish, length) :: spans => if decide (position ≤ finish) then Some (if decide (length = 0) then position else length) else find_span position spans
  end.

Definition history_at (h : RotaryHistory) (position : nat) : option nat :=
  if decide (rh_initial h = 0) then Some 0
  else if decide (position = 0) then Some (rh_initial h)
  else find_span position (rh_spans h).

(** ** Growing and cutting *)
Definition set_spans x (h : RotaryHistory) : RotaryHistory := mk_history (rh_initial h) x.

(** The last span grows when it has the same length, else a span is added. *)
Fixpoint push_span (finish stored : nat) (spans : list (nat * nat)) : list (nat * nat) :=
  match spans with
  | [] => [(finish, stored)]
  | [(last_end, last_length)] =>
      if decide (last_length = stored) then [(finish, last_length)] else [(last_end, last_length); (finish, stored)]
  | span :: spans => span :: push_span finish stored spans
  end.

Definition spans_end (spans : list (nat * nat)) : nat := default 0 (fst <$> last spans).

Definition append_length (initial finish length : nat) (h : RotaryHistory) : Gen RotaryHistory :=
  if decide (initial = 0) then
    if decide (rh_initial h ≠ 0 ∨ length ≠ 0) then Err "rotary cache policy differs" else Ok h
  else
    let begin := spans_end (rh_spans h) in
    if decide ((rh_initial h ≠ 0 ∧ rh_initial h ≠ initial) ∨ finish ≤ begin ∨ length < initial ∨ length < finish)
    then Err "rotary history append is inconsistent"
    else
      let stored := if decide (initial ≤ begin ∧ finish = begin + 1 ∧ length = finish) then 0 else length in
      Ok (mk_history initial (push_span finish stored (rh_spans h))).

(** [partition_point], [truncate(index + 1)] and the new end of the last span. *)
Fixpoint cut_spans (position : nat) (spans : list (nat * nat)) : option (list (nat * nat)) :=
  match spans with
  | [] => None
  | (finish, length) :: spans =>
      if decide (finish < position) then (λ rest, (finish, length) :: rest) <$> cut_spans position spans
      else Some [(position, length)]
  end.

Definition truncate_history (position : nat) (h : RotaryHistory) : Gen RotaryHistory :=
  if decide (rh_initial h = 0) then Ok h
  else if decide (position = 0) then Ok (set_spans [] h)
  else match cut_spans position (rh_spans h) with
    | None => Err "rotary rollback exceeds retained history"
    | Some spans => Ok (set_spans spans h)
    end.

(** ** Deltas *)
Fixpoint collect_lengths (h : RotaryHistory) (positions : list nat) : Gen (list nat) :=
  match positions with
  | [] => Ok []
  | p :: positions =>
      do? length := ok_or (history_at h p) "rotary delta exceeds retained history" in
      do? lengths := collect_lengths h positions in
      Ok (length :: lengths)
  end.

(** The lengths of the positions after [start], up to [finish]. *)
Definition delta (start finish : nat) (h : RotaryHistory) : Gen RotaryDelta :=
  do? lengths := collect_lengths h (seq (start + 1) (finish - start)) in
  Ok (mk_delta (rh_initial h) lengths).

Definition delta_append (d : RotaryDelta) (position offset : nat) (h : RotaryHistory) : Gen RotaryHistory :=
  do? length := ok_or (rd_lengths d !! offset) "missing rotary delta token" in
  do? _ := validate_history position h in
  if decide (position ≠ 0 ∧ rh_initial h ≠ rd_initial d) then Err "rotary delta destination policy differs"
  else
    do? finish := expect Overflow (usize_add position 1) in
    append_length (rd_initial d) finish length h.

(** ** Scalars of a prefix *)
Definition scalar_prefix (layer : nat) : string := "rotary/" +:+ pretty layer +:+ "/".
Definition end_name (index : nat) : string := pretty index +:+ "/end".
Definition length_name (index : nat) : string := pretty index +:+ "/length".

Section Transferred.
Context `{TransferTensors}.

Fixpoint export_spans (layer index : nat) (spans : list (nat * nat)) (tensors : PrefixTensors) : Gen PrefixTensors :=
  match spans with
  | [] => Ok tensors
  | (finish, length) :: spans =>
      do? tensors := set_scalar (scalar_prefix layer +:+ end_name index) finish tensors in
      do? tensors := set_scalar (scalar_prefix layer +:+ length_name index) length tensors in
      export_spans layer (S index) spans tensors
  end.

Definition export_history (layer : nat) (h : RotaryHistory) (tensors : PrefixTensors) : Gen PrefixTensors :=
  do? tensors := set_scalar (scalar_prefix layer +:+ "initial") (rh_initial h) tensors in
  do? tensors := set_scalar (scalar_prefix layer +:+ "spans") (length (rh_spans h)) tensors in
  export_spans layer 0 (rh_spans h) tensors.

Definition layer_scalar (tensors : PrefixTensors) (layer : nat) (suffix : string) : Gen nat :=
  ok_or (scalar (scalar_prefix layer +:+ suffix) tensors) "missing transferred rotary metadata".

Fixpoint import_spans (tensors : PrefixTensors) (layer : nat) (indices : list nat) : Gen (list (nat * nat)) :=
  match indices with
  | [] => Ok []
  | index :: indices =>
      do? finish := layer_scalar tensors layer (end_name index) in
      do? length := layer_scalar tensors layer (length_name index) in
      do? spans := import_spans tensors layer indices in
      Ok ((finish, length) :: spans)
  end.

(** The history, and how many scalars it took. *)
Definition import_history (tensors : PrefixTensors) (layer : nat) : Gen (RotaryHistory * nat) :=
  do? initial := layer_scalar tensors layer "initial" in
  do? count := layer_scalar tensors layer "spans" in
  if decide (pt_position tensors < count ∨ scalars tensors / 2 < count) then Err "transferred rotary interval count differs"
  else
    do? spans := import_spans tensors layer (seq 0 count) in
    let history := mk_history initial spans in
    do? _ := validate_history (pt_position tensors) history in
    Ok (history, 2 + 2 * count).
End Transferred.

(** ** States *)

(** [f64::powf] and [f32::powf]. *)
Class Powers := { powf64 : f64 → f64 → f64; powf32 : f32 → f32 → f32 }.

Inductive RopeScaling :=
| Static
| Dynamic (factor : f64) (original_length : nat)
| Long (original_length : nat) (inverse_long : list f32).

Inductive RopeParameters := mk_rope {
  theta : f32;
  inverse_frequencies : list f32;
  attention_factor : f64;
  scaling : RopeScaling;
  per_layer : list RopeParameters
}.

(** The length cached behind the lock; the state of a layer. *)
Record RotaryState := mk_rotary { rs_parameters : RopeParameters; cached_length : nat }.
Definition set_cached_length x (s : RotaryState) : RotaryState := mk_rotary (rs_parameters s) x.

Definition for_layer (p : RopeParameters) (index : nat) : Gen RopeParameters :=
  if decide (per_layer p = []) then Ok p else expect OutOfBounds (per_layer p !! index).

Definition initial_cached_length (p : RopeParameters) : nat :=
  match scaling p with Dynamic _ original_length => original_length | _ => 0 end.

Definition state_at (p : RopeParameters) (cached : nat) : option RotaryState :=
  let valid := match scaling p with Dynamic _ original_length => bool_decide (original_length ≤ cached) | _ => bool_decide (cached = 0) end in
  if valid then Some (mk_rotary p cached) else None.

Definition rope_state (p : RopeParameters) : Gen RotaryState := expect Expect (state_at p (initial_cached_length p)).
Definition runtime_state (p : RopeParameters) : Gen (option RotaryState) :=
  match scaling p with Static => Ok None | _ => do? s := rope_state p in Ok (Some s) end.

Definition fresh (s : RotaryState) : Gen RotaryState := rope_state (rs_parameters s).

(** The cached length after a sequence of [sequence_length] tokens. *)
Definition next_cached (original_length cached sequence_length : nat) : nat :=
  let cached := if decide (cached < sequence_length) then sequence_length else cached in
  if decide (sequence_length < original_length ∧ original_length < cached) then original_length else cached.

Section Frequencies.
Context `{Powers}.

Definition usize_f64 (n : nat) : f64 := f64_of_Z (Z.of_nat n).
Definition usize_f32 (n : nat) : f32 := f32_of_Z (Z.of_nat n).

Definition dynamic_frequencies (p : RopeParameters) (factor : f64) (original_length cached : nat) : list f32 :=
  let dim := usize_f64 (2 * length (inverse_frequencies p)) in
  let scale := f64_sub (f64_div (f64_mul factor (usize_f64 cached)) (usize_f64 original_length)) (f64_sub factor one) in
  let base := as_f32 (f64_mul (as_f64 (theta p)) (powf64 scale (f64_div dim (f64_sub dim (f64_of_Z 2))))) in
  (λ i, f32_div (f32_of_Z 1) (powf32 base (f32_div (usize_f32 (2 * i)) (as_f32 dim)))) <$> seq 0 (length (inverse_frequencies p)).

(** [frequencies] moves the cached length. *)
Definition frequencies (sequence_length : nat) (s : RotaryState) : list f32 * RotaryState :=
  let p := rs_parameters s in
  match scaling p with
  | Static => (inverse_frequencies p, s)
  | Long original_length inverse_long =>
      (if decide (original_length < sequence_length) then inverse_long else inverse_frequencies p, s)
  | Dynamic factor original_length =>
      let cached := next_cached original_length (cached_length s) sequence_length in
      (if decide (cached = original_length) then inverse_frequencies p else dynamic_frequencies p factor original_length cached,
       set_cached_length cached s)
  end.

(** The context a batch's new tokens get on pages: their cached length, or the end. *)
Definition paged_context (s : RotaryState) (previous : option nat) (finish : nat) : Gen nat :=
  match scaling (rs_parameters s) with
  | Dynamic _ _ =>
      do? state := expect Expect (state_at (rs_parameters s) (default (initial_cached_length (rs_parameters s)) previous)) in
      Ok (cached_length (frequencies finish state).2)
  | _ => do? _ := fresh s in Ok finish
  end.
End Frequencies.

(** [RotaryHistory::commit] *)
Definition commit_history (s : RotaryState) (finish : nat) (h : RotaryHistory) : Gen RotaryHistory :=
  append_length (initial_cached_length (rs_parameters s)) finish (cached_length s) h.

(** The state that continues a cache at [position]. *)
Definition for_cache (s : RotaryState) (h : RotaryHistory) (position : nat) : Gen RotaryState :=
  do? _ := validate_history position h in
  let initial := initial_cached_length (rs_parameters s) in
  if decide (initial = 0 ∧ rh_initial h = 0) then fresh s
  else if decide (position = 0 ∧ rh_initial h = 0) then fresh s
  else if decide (rh_initial h ≠ initial) then Err "cache rotary history is missing or belongs to another policy"
  else ok_or (history_at h position ≫= state_at (rs_parameters s)) "invalid rotary continuation length".
