(* ===== verification/RopeSpec.v ===== *)
(** * What a rotary history records

    A valid history of [n] tokens is a list of [n] lengths.  Growing, cutting, deltas,
    export and import are the operations of that list. *)
From S2P Require Import Prelude Float PagedKv GenerationControl Safetensors PrefixTransfer Rope.
From S2P Require Import TrainDataSpec.
Open Scope nat_scope.
Open Scope list_scope.
Open Scope m_scope.

(** ** The list of a history *)
Definition span_value (length p : nat) : nat := if decide (length = 0) then p else length.
Fixpoint span_lengths (begin : nat) (spans : list (nat * nat)) : list nat :=
  match spans with
  | [] => []
  | (finish, length) :: spans => (span_value length <$> seq (begin + 1) (finish - begin)) ++ span_lengths finish spans
  end.
Definition history_lengths (h : RotaryHistory) : list nat := span_lengths 0 (rh_spans h).

(** [spans] describe the tokens from [begin] to [finish]. *)
Inductive spans_ok (initial : nat) : nat → list (nat * nat) → nat → Prop :=
| so_nil begin : spans_ok initial begin [] begin
| so_cons begin last length spans finish :
    begin < last → (length = 0 → initial ≤ begin) → (length ≠ 0 → initial ≤ length ∧ last ≤ length) →
    spans_ok initial last spans finish → spans_ok initial begin ((last, length) :: spans) finish.

Lemma validate_spans_ok initial spans : initial ≠ 0 → ∀ begin finish,
  validate_spans initial begin spans = Ok finish ↔ spans_ok initial begin spans finish.
Proof.
  intros Hi. induction spans as [|[e l] spans IH]; intros begin finish; cbn [validate_spans].
  - split; [intros [= ->]; constructor|]. by inversion 1.
  - case_decide as Hbad.
    + split; [done|]. inversion 1; subst. destruct (decide (l = 0)); lia.
    + rewrite IH. split.
      * intros Hs. constructor; [lia..|done].
      * by inversion 1.
Qed.

Lemma valid_dynamic pos h : rh_initial h ≠ 0 → validate_history pos h = Ok tt ↔ spans_ok (rh_initial h) 0 (rh_spans h) pos.
Proof.
  intros Hi. unfold validate_history. split.
  - destruct (validate_spans _ _ _) as [b|e|q] eqn:Eb; cbn [res_bind]; [|done..]. case_decide as Hd; [done|]. intros _.
    apply validate_spans_ok in Eb; [|done]. assert (b = pos) as -> by tauto || lia. done.
  - intros Hs. apply validate_spans_ok in Hs; [|done]. rewrite Hs. cbn [res_bind]. by rewrite decide_False by lia.
Qed.

Lemma valid_static pos h : rh_initial h = 0 → validate_history pos h = Ok tt ↔ rh_spans h = [].
Proof.
  intros Hi. unfold validate_history. rewrite Hi. destruct (rh_spans h) as [|[e l] spans]; cbn [validate_spans res_bind].
  - rewrite decide_False by naive_solver. done.
  - rewrite decide_True by lia. done.
Qed.

Lemma spans_ok_le initial begin spans finish : spans_ok initial begin spans finish → begin ≤ finish.
Proof. induction 1; lia. Qed.

Lemma span_lengths_length initial begin spans finish : spans_ok initial begin spans finish → length (span_lengths begin spans) = finish - begin.
Proof.
  induction 1 as [|begin e l spans finish Hlt Hz Hl Hs IH]; cbn [span_lengths]; [simpl; lia|].
  rewrite length_app, length_fmap, length_seq, IH. apply spans_ok_le in Hs. lia.
Qed.

(** Looking a position up is looking the list up. *)
Lemma find_span_lookup initial begin spans finish p : spans_ok initial begin spans finish → begin < p →
  find_span p spans = span_lengths begin spans !! (p - begin - 1).
Proof.
  induction 1 as [|begin e l spans finish Hlt Hz Hl Hs IH]; intros Hp; cbn [find_span span_lengths]; [done|].
  rewrite lookup_app, list_lookup_fmap. case_decide as He.
  - rewrite lookup_seq_lt by lia. cbn [fmap option_fmap option_map]. unfold span_value. do 2 f_equal. case_decide; f_equal; lia.
  - rewrite lookup_seq_ge by lia. cbn [fmap option_fmap option_map]. rewrite length_fmap, length_seq, IH by lia. f_equal. lia.
Qed.

(** Every length is that of the token's sequence at least. *)
Lemma span_lengths_bound initial begin spans finish i x : spans_ok initial begin spans finish →
  span_lengths begin spans !! i = Some x → initial ≤ x ∧ begin + i + 1 ≤ x.
Proof.
  intros Hs. revert i. induction Hs as [|begin e l spans finish Hlt Hz Hl Hs IH]; intros i; cbn [span_lengths]; [done|].
  rewrite lookup_app_Some. intros [Hx|[Hlen Hx]].
  - rewrite list_lookup_fmap in Hx. destruct (decide (i < e - begin)) as [Hi|Hi].
    + rewrite lookup_seq_lt in Hx by lia. injection Hx as <-. unfold span_value. case_decide; lia.
    + by rewrite lookup_seq_ge in Hx by lia.
  - rewrite length_fmap, length_seq in *. apply IH in Hx. lia.
Qed.

Definition history_ok (pos : nat) (h : RotaryHistory) : Prop := validate_history pos h = Ok tt.
Definition dynamic_at (pos : nat) (h : RotaryHistory) : Prop := rh_initial h ≠ 0 ∧ history_ok pos h.

Lemma dynamic_length pos h : dynamic_at pos h → length (history_lengths h) = pos.
Proof.
  intros [Hi Hv]. apply valid_dynamic in Hv; [|done]. unfold history_lengths. rewrite (span_lengths_length _ _ _ _ Hv). lia.
Qed.

Lemma dynamic_lookup pos h p : dynamic_at pos h → history_at h (S p) = history_lengths h !! p.
Proof.
  intros [Hi Hv]. apply valid_dynamic in Hv; [|done]. unfold history_at. rewrite decide_False by done.
  rewrite decide_False by lia. rewrite (find_span_lookup _ _ _ _ _ Hv) by lia. f_equal. lia.
Qed.

Lemma dynamic_bound pos h i x : dynamic_at pos h → history_lengths h !! i = Some x → rh_initial h ≤ x ∧ i + 1 ≤ x.
Proof. intros [Hi Hv]. apply valid_dynamic in Hv; [|done]. intros Hx. pose proof (span_lengths_bound _ _ _ _ _ _ Hv Hx). lia. Qed.

(** ** Growing *)
Lemma fmap_span_value length a n : length ≠ 0 → span_value length <$> seq a n = replicate n length.
Proof.
  intros Hl. revert a. induction n as [|n IH]; intros a; [done|]. cbn [seq fmap list_fmap replicate]. f_equal; [|apply IH].
  unfold span_value. by rewrite decide_False.
Qed.

Lemma spans_end_ok initial spans : ∀ begin finish, spans_ok initial begin spans finish → default begin (fst <$> last spans) = finish.
Proof.
  induction spans as [|[e l] spans IH]; intros begin finish Hs; inversion Hs as [|? ? ? ? ? ? ? ? Hrest]; subst; [done|].
  destruct spans as [|span spans]; [by inversion Hrest; subst|]. rewrite last_cons_cons.
  assert (is_Some (last (span :: spans))) as [x Hx] by (apply last_is_Some; done).
  specialize (IH e finish ltac:(done)). rewrite Hx in IH |- *. done.
Qed.

Lemma push_span_lengths initial finish stored spans : ∀ begin middle, spans_ok initial begin spans middle → middle < finish →
  (stored = 0 → initial ≤ middle) → (stored ≠ 0 → initial ≤ stored ∧ finish ≤ stored) →
  spans_ok initial begin (push_span finish stored spans) finish ∧
  span_lengths begin (push_span finish stored spans) = span_lengths begin spans ++ (span_value stored <$> seq (middle + 1) (finish - middle)).
Proof.
  induction spans as [|[e l] spans IH]; intros begin middle Hs Hlt Hz Hl.
  - inversion Hs; subst. cbn [push_span span_lengths]. split; [by apply so_cons; [| | |apply so_nil]|by rewrite app_nil_r].
  - inversion Hs as [|? ? ? ? ? Hbe Hlz Hll Hrest]; subst. cbn [push_span]. destruct spans as [|span spans].
    + inversion Hrest; subst. case_decide as Heq.
      * subst l. cbn [span_lengths]. split; [constructor; [lia| | |constructor]; intros; [by apply Hlz|by apply Hl]|].
        rewrite !app_nil_r. replace (finish - begin) with ((middle - begin) + (finish - middle)) by lia.
        rewrite seq_app, fmap_app. do 3 f_equal. lia.
      * cbn [span_lengths]. split; [|by rewrite !app_nil_r].
        apply so_cons; [done..|]. apply so_cons; [done..|apply so_nil].
    + destruct (IH e middle Hrest Hlt Hz Hl) as [Hok Heq]. split; [by constructor|].
      cbn [span_lengths]. rewrite <- app_assoc. f_equal. exact Heq.
Qed.

(** A valid history accepts a longer sequence, and records its length for every new token. *)
Lemma append_length_ok pos h initial finish length : history_ok pos h → (rh_initial h = 0 → pos = 0) → (rh_initial h ≠ 0 → rh_initial h = initial) →
  initial ≠ 0 → pos < finish → initial ≤ length → finish ≤ length →
  ∃ h', append_length initial finish length h = Ok h' ∧ rh_initial h' = initial ∧ dynamic_at finish h' ∧
    history_lengths h' = history_lengths h ++ replicate (finish - pos) length.
Proof.
  intros Hv Hz Hinit Hi Hlt Hil Hfl. assert (spans_ok initial 0 (rh_spans h) pos) as Hs.
  { destruct (decide (rh_initial h = 0)) as [H0|H0].
    - rewrite (Hz H0) in *. apply valid_static in Hv; [|done]. rewrite Hv. constructor.
    - rewrite <- (Hinit H0). by apply valid_dynamic. }
  pose proof (spans_end_ok _ _ _ _ Hs) as Hend. unfold append_length. rewrite decide_False by done. cbv zeta. unfold spans_end. rewrite Hend.
  rewrite decide_False by lia. set (stored := if decide _ then 0 else length).
  destruct (push_span_lengths initial finish stored (rh_spans h) 0 pos Hs Hlt) as [Hok Heq].
  { unfold stored. case_decide; lia. }
  { unfold stored. case_decide; lia. }
  eexists. split; [done|]. split; [done|]. split.
  { split; [done|]. apply valid_dynamic; done. }
  unfold history_lengths. cbn [rh_spans]. rewrite Heq. f_equal. unfold stored. case_decide as Hc.
  - destruct Hc as (_ & -> & ->). replace (pos + 1 - pos) with 1 by lia. done.
  - apply fmap_span_value. lia.
Qed.

(** ** Cutting *)
Lemma cut_spans_ok initial position spans : ∀ begin finish, spans_ok initial begin spans finish → begin < position ≤ finish →
  ∃ spans', cut_spans position spans = Some spans' ∧ spans_ok initial begin spans' position ∧
    span_lengths begin spans' = take (position - begin) (span_lengths begin spans).
Proof.
  induction spans as [|[e l] spans IH]; intros begin finish Hs Hp; inversion Hs as [|? ? ? ? ? Hbe Hlz Hll Hrest]; subst; [lia|]. cbn [cut_spans].
  case_decide as He.
  - destruct (IH e finish Hrest) as (spans' & -> & Hok & Heq); [lia|]. eexists. split; [done|]. split; [by constructor|].
    cbn [span_lengths]. rewrite take_app_ge by (rewrite length_fmap, length_seq; lia). rewrite Heq, length_fmap, length_seq. do 2 f_equal. lia.
  - eexists. split; [done|]. split; [constructor; [lia|done| |constructor]; intros; specialize (Hll ltac:(done)); lia|].
    cbn [span_lengths]. rewrite app_nil_r, take_app_le by (rewrite length_fmap, length_seq; lia).
    rewrite <- fmap_take, take_seq. do 2 f_equal. lia.
Qed.

Lemma truncate_ok pos h position : dynamic_at pos h → position ≤ pos →
  ∃ h', truncate_history position h = Ok h' ∧ rh_initial h' = rh_initial h ∧ dynamic_at position h' ∧
    history_lengths h' = take position (history_lengths h).
Proof.
  intros [Hi Hv] Hp. unfold truncate_history. rewrite decide_False by done. case_decide as Hz.
  - subst position. eexists. split; [done|]. split; [done|]. split; [|done]. split; [done|]. apply valid_dynamic; [done|constructor].
  - apply valid_dynamic in Hv; [|done]. destruct (cut_spans_ok _ position _ _ _ Hv) as (spans & -> & Hok & Heq); [lia|].
    eexists. split; [done|]. split; [done|]. split; [split; [done|by apply valid_dynamic]|].
    unfold history_lengths. cbn [rh_spans set_spans]. rewrite Heq. f_equal. lia.
Qed.

(** ** Deltas *)
Lemma collect_lengths_ok pos h start n : dynamic_at pos h → start + n ≤ pos →
  collect_lengths h (seq (start + 1) n) = Ok (take n (drop start (history_lengths h))).
Proof.
  intros Hd. revert start. induction n as [|n IH]; intros start Hn; [done|]. cbn [seq collect_lengths].
  rewrite Nat.add_1_r, (dynamic_lookup pos) by done.
  destruct (lookup_lt_is_Some_2 (history_lengths h) start) as [x Hx]; [rewrite (dynamic_length pos) by done; lia|].
  rewrite Hx. cbn [ok_or res_bind]. replace (S (S start)) with (S start + 1) by lia. rewrite IH by lia. cbn [res_bind].
  by rewrite (drop_S _ x start).
Qed.

(** The delta appended token by token. *)
Fixpoint replay (d : RotaryDelta) (position offset count : nat) (h : RotaryHistory) : Gen RotaryHistory :=
  match count with
  | 0 => Ok h
  | S count => do? h := delta_append d position offset h in replay d (S position) (S offset) count h
  end.

Lemma replay_ok d finish position offset count : ∀ h, history_ok position h → (rh_initial h = 0 → position = 0) →
  (rh_initial h ≠ 0 → rh_initial h = rd_initial d) → rd_initial d ≠ 0 → position + count ≤ finish → (N.of_nat finish ≤ usize_max)%N →
  (∀ i, i < count → ∃ x, rd_lengths d !! (offset + i) = Some x ∧ rd_initial d ≤ x ∧ position + i + 1 ≤ x) →
  ∃ h', replay d position offset count h = Ok h' ∧ history_ok (position + count) h' ∧ (0 < count ∨ rh_initial h = rd_initial d → rh_initial h' = rd_initial d) ∧
    history_lengths h' = history_lengths h ++ take count (drop offset (rd_lengths d)).
Proof.
  revert position offset. induction count as [|count IH]; intros position offset h Hv Hz Hin Hi Hle Hmax Hl; cbn [replay].
  { exists h. split; [done|]. split; [by rewrite Nat.add_0_r|]. split; [intros [?|?]; [lia|done]|]. by rewrite take_0, app_nil_r. }
  destruct (Hl 0) as (x & Hx & Hix & Hpx); [lia|]. rewrite Nat.add_0_r in Hx.
  destruct (append_length_ok position h (rd_initial d) (position + 1) x) as (h1 & Heq & Hi1 & Hd1 & Hl1); [done..|lia|lia|lia|].
  assert (delta_append d position offset h = Ok h1) as ->.
  { unfold delta_append. rewrite Hx. cbn [ok_or res_bind]. unfold history_ok in Hv. rewrite Hv. cbn [res_bind].
    rewrite decide_False. 2: { intros [Hp Hne]. destruct (decide (rh_initial h = 0)); [by apply Hp, Hz|by apply Hne, Hin]. }
    unfold usize_add. rewrite decide_True by lia. cbn [expect res_bind]. exact Heq. }
  cbn [res_bind]. destruct (IH (S position) (S offset) h1) as (h' & -> & Hok & Hdyn & Hlen).
  - rewrite <- Nat.add_1_r. apply Hd1.
  - rewrite Hi1. done.
  - done.
  - done.
  - lia.
  - done.
  - intros i Hlt. destruct (Hl (S i)) as (y & Hy & ? & ?); [lia|]. exists y. replace (S offset + i) with (offset + S i) by lia. split; [done|lia].
  - replace (position + S count) with (S position + count) by lia. exists h'. split; [done|]. split; [done|]. split.
    + intros _. apply Hdyn. by right.
    + rewrite Hlen, Hl1, <- app_assoc. f_equal. rewrite (drop_S _ x offset) by done. cbn [take]. f_equal.
      replace (position + 1 - position) with 1 by lia. done.
Qed.

(** A delta captured from a valid history, appended where it starts, gives the lengths
    of the tokens it covers. *)
Lemma delta_replayed pos h start finish h0 : dynamic_at pos h → start ≤ finish ≤ pos → (N.of_nat pos ≤ usize_max)%N →
  history_ok start h0 → (rh_initial h0 = rh_initial h ∨ (rh_initial h0 = 0 ∧ start = 0)) →
  ∃ d h', delta start finish h = Ok d ∧ replay d start 0 (finish - start) h0 = Ok h' ∧ history_ok finish h' ∧
    history_lengths h' = history_lengths h0 ++ take (finish - start) (drop start (history_lengths h)) ∧
    (start < finish ∨ rh_initial h0 = rh_initial h → rh_initial h' = rh_initial h).
Proof.
  intros Hd Hle Hmax Hv Hi. pose proof Hd as [Hne _]. pose proof (dynamic_length _ _ Hd) as Hlen.
  unfold delta. rewrite (collect_lengths_ok pos) by (done || lia). cbn [res_bind].
  set (d := mk_delta _ _). destruct (replay_ok d pos start 0 (finish - start) h0) as (h' & Heq & Hok & Hin & Hl); try (done || lia).
  - intros H0. destruct Hi as [Hi|[? _]]; done.
  - intros i Hlt. unfold d. cbn [rd_lengths rd_initial]. rewrite Nat.add_0_l, lookup_take, lookup_drop. rewrite decide_True by done.
    destruct (lookup_lt_is_Some_2 (history_lengths h) (start + i)) as [x Hx]; [lia|]. exists x. split; [done|].
    pose proof (dynamic_bound _ _ _ _ Hd Hx). lia.
  - exists d, h'. split; [done|]. split; [done|]. replace (start + (finish - start)) with finish in Hok by lia. split; [done|]. split.
    + rewrite Hl, drop_0. unfold d. cbn [rd_lengths]. by rewrite take_take, Nat.min_id.
    + intros Hx. apply Hin. destruct Hx; [left; lia|by right].
Qed.

(** ** Continuing a cache *)
Section Continue.
Context `{Powers}.

Definition dynamic_length_of (s : RotaryState) : nat := initial_cached_length (rs_parameters s).

(** The length the last token was processed with, or the initial one. *)
Definition last_length (initial : nat) (lengths : list nat) : nat := default initial (last lengths).

Lemma history_last pos h : dynamic_at pos h → history_at h pos = Some (last_length (rh_initial h) (history_lengths h)).
Proof.
  intros Hd. pose proof (dynamic_length _ _ Hd) as Hl. pose proof Hd as [Hi _]. destruct pos as [|pos].
  - unfold history_at. rewrite decide_False by done. rewrite decide_True by done. f_equal. unfold last_length.
    by rewrite (nil_length_inv _ Hl).
  - rewrite (dynamic_lookup _ _ _ Hd). unfold last_length. rewrite last_lookup, Hl. simpl.
    destruct (lookup_lt_is_Some_2 (history_lengths h) pos) as [x Hx]; [lia|]. by rewrite Hx.
Qed.

Lemma next_cached_bounds original cached n : original ≤ cached → original ≤ next_cached original cached n ∧ n ≤ next_cached original cached n.
Proof. unfold next_cached. intros. repeat case_decide; lia. Qed.

(** A layer that rotates [n] tokens after [pos]: the state of the cache, the
    frequencies, the commit. *)
Definition rotate (s : RotaryState) (pos n : nat) (h : RotaryHistory) : Gen (RotaryState * RotaryHistory) :=
  do? state := for_cache s h pos in
  let state := (frequencies (pos + n) state).2 in
  do? h := commit_history state (pos + n) h in
  Ok (state, h).

Lemma rotate_ok factor original s pos n h : scaling (rs_parameters s) = Dynamic factor original → original ≠ 0 → 0 < n →
  history_ok pos h → (rh_initial h = 0 ∧ pos = 0) ∨ rh_initial h = original →
  ∃ state h', rotate s pos n h = Ok (state, h') ∧ rh_initial h' = original ∧ dynamic_at (pos + n) h' ∧
    cached_length state = next_cached original (last_length original (history_lengths h)) (pos + n) ∧
    history_lengths h' = history_lengths h ++ replicate n (cached_length state).
Proof.
  intros Hs Ho Hn Hv Hi. assert (dynamic_length_of s = original) as Hdl by (unfold dynamic_length_of, initial_cached_length; by rewrite Hs).
  assert (∃ cached, for_cache s h pos = Ok (mk_rotary (rs_parameters s) cached) ∧ original ≤ cached ∧
    cached = last_length original (history_lengths h)) as (cached & Hst & Hc & Hlast).
  { unfold for_cache. unfold history_ok in Hv. rewrite Hv. cbn [res_bind]. fold (dynamic_length_of s). rewrite Hdl. rewrite decide_False by tauto.
    destruct (decide (rh_initial h = 0)) as [H0|H0].
    - destruct Hi as [[_ ->]|Hi]; [|congruence]. rewrite decide_True by done. exists original. unfold fresh, rope_state, state_at, initial_cached_length.
      rewrite Hs. rewrite bool_decide_true by done. cbn. split; [done|]. split; [done|].
      assert (rh_spans h = []) as Hnil by (by apply (valid_static 0)). unfold history_lengths. by rewrite Hnil.
    - destruct Hi as [[? _]|Hi]; [done|]. rewrite decide_False by tauto. rewrite decide_False by congruence.
      assert (dynamic_at pos h) as Hd by done. rewrite (history_last _ _ Hd), Hi. cbn [mbind option_bind].
      assert (original ≤ last_length original (history_lengths h)) as Hle.
      { unfold last_length. destruct (last (history_lengths h)) as [x|] eqn:El; [|done]. simpl. rewrite last_lookup in El.
        apply (dynamic_bound _ _ _ _ Hd) in El. lia. }
      unfold state_at. rewrite Hs. rewrite bool_decide_true by done. cbn [ok_or]. eauto. }
  unfold rotate. rewrite Hst. cbn [res_bind]. unfold frequencies at 1 2. cbn [rs_parameters cached_length]. rewrite Hs.
  cbn [snd set_cached_length rs_parameters]. set (next := next_cached original cached (pos + n)).
  pose proof (next_cached_bounds original cached (pos + n) Hc) as [Hno Hnn]. fold next in Hno, Hnn.
  unfold commit_history, set_cached_length. cbn [rs_parameters cached_length]. unfold dynamic_length_of in Hdl. rewrite Hdl.
  destruct (append_length_ok pos h original (pos + n) next) as (h' & -> & Hi' & Hd' & Hl'); [done|..].
  - intros H0. destruct Hi as [[_ ?]|Hi]; [done|congruence].
  - intros H0. destruct Hi as [[? _]|Hi]; [done|congruence].
  - done.
  - lia.
  - done.
  - done.
  - cbn [res_bind]. eexists _, h'. split; [done|]. split; [done|]. split; [done|]. cbn [cached_length]. split; [by rewrite <- Hlast|].
    rewrite Hl'. do 2 f_equal. lia.
Qed.

(** The context of a batch on pages is the length the cache would record. *)
Lemma paged_context_ok factor original s previous finish : scaling (rs_parameters s) = Dynamic factor original →
  original ≤ default original previous → paged_context s previous finish = Ok (next_cached original (default original previous) finish).
Proof.
  intros Hs Hc. unfold paged_context. rewrite Hs. unfold initial_cached_length. rewrite Hs. unfold state_at. rewrite Hs.
  rewrite bool_decide_true by done. cbn [expect res_bind]. unfold frequencies. cbn [rs_parameters]. by rewrite Hs.
Qed.
End Continue.

(** ** Rotary histories in a prefix

    The scalars of one layer have names of their own, so the histories of all layers of
    a prefix come back from its scalars. *)

(** *** Names *)
Notation slash := (Ascii.Ascii true true true true false true false false).
Fixpoint no_slash (s : string) : Prop :=
  match s with
  | EmptyString => True
  | String c s => c ≠ slash ∧ no_slash s
  end.

Lemma slash_inj s t a b : no_slash s → no_slash t → s +:+ String slash a = t +:+ String slash b → s = t ∧ a = b.
Proof.
  revert t. induction s as [|c s IH]; intros [|c' t]; simpl; intros Hs Ht Heq; injection Heq.
  - by intros ->.
  - intros _ <-. by destruct Ht.
  - intros _ ->. by destruct Hs.
  - intros Hr ->. destruct (IH t) as [-> ->]; naive_solver.
Qed.

Lemma no_slash_prefix s t a : no_slash t → s +:+ String slash a = t → False.
Proof.
  revert t. induction s as [|c s IH]; intros [|c' t]; simpl; intros Ht Heq; try done.
  - injection Heq as <- _. by destruct Ht.
  - injection Heq as _ Heq. destruct Ht. by eapply IH.
Qed.

Lemma pretty_char_slash x : pretty_N_char x ≠ slash.
Proof. unfold pretty_N_char. by repeat case_match. Qed.

Lemma pretty_go_no_slash x : ∀ s, no_slash s → no_slash (pretty_N_go x s).
Proof.
  induction (N.lt_wf_0 x) as [x _ IH]. intros s Hs. destruct (decide (0 < x)%N) as [Hx|Hx].
  - rewrite pretty_N_go_step by done. apply IH; [by apply N.div_lt|]. split; [apply pretty_char_slash|done].
  - assert (x = 0%N) as -> by lia. by rewrite pretty_N_go_0.
Qed.

Lemma pretty_nat_no_slash (n : nat) : no_slash (pretty n).
Proof.
  unfold pretty, pretty_nat, pretty, pretty_N. case_decide; [|by apply pretty_go_no_slash]. split; [|done]. by intros [=].
Qed.

Lemma scalar_prefix_inj i j a b : scalar_prefix i +:+ a = scalar_prefix j +:+ b → i = j ∧ a = b.
Proof.
  unfold scalar_prefix. rewrite !string_app_assoc. intros Heq. apply (inj (String.app "rotary/")) in Heq.
  apply slash_inj in Heq as [Heq ->]; [|apply pretty_nat_no_slash..]. split; [by apply (inj pretty)|done].
Qed.

(** The four kinds of names of a layer differ. *)
Inductive suffix := InitialName | SpansName | EndName (index : nat) | LengthName (index : nat).
Definition suffix_text (x : suffix) : string :=
  match x with InitialName => "initial" | SpansName => "spans" | EndName i => end_name i | LengthName i => length_name i end.

Lemma suffix_inj x y : suffix_text x = suffix_text y → x = y.
Proof.
  destruct x as [| |i|i], y as [| |j|j]; cbn [suffix_text]; unfold end_name, length_name; intros Heq; try done; try discriminate Heq;
    try (exfalso; eapply no_slash_prefix; [|exact Heq]; by repeat (split; [done|]));
    try (exfalso; eapply no_slash_prefix; [|exact (eq_sym Heq)]; by repeat (split; [done|]));
    (apply slash_inj in Heq as [Heq Htail]; [|apply pretty_nat_no_slash..]); try done; f_equal; by apply (inj pretty).
Qed.

Section Transferred.
Context `{TransferTensors}.
Implicit Types t : PrefixTensors.

(** *** Writing *)

(** [t'] is [t] with the scalars of [layer] that [f] gives. *)
Record extends (layer : nat) (f : suffix → option nat) (n : nat) t t' : Prop := {
  ex_position : pt_position t' = pt_position t;
  ex_schema : pt_schema t' = pt_schema t;
  ex_tensors : pt_tensors t' = pt_tensors t;
  ex_children : pt_children t' = pt_children t;
  ex_count : scalars t' = scalars t + n;
  ex_new x v : f x = Some v → scalar (scalar_prefix layer +:+ suffix_text x) t' = Some v;
  ex_old name : (∀ x, is_Some (f x) → name ≠ scalar_prefix layer +:+ suffix_text x) → scalar name t' = scalar name t
}.

Definition one_scalar (x : suffix) (v : nat) : suffix → option nat := λ y, if decide (suffix_text y = suffix_text x) then Some v else None.

Lemma set_scalar_extends layer x v t : scalar (scalar_prefix layer +:+ suffix_text x) t = None →
  ∃ t', set_scalar (scalar_prefix layer +:+ suffix_text x) v t = Ok t' ∧ extends layer (one_scalar x v) 1 t t'.
Proof.
  unfold scalar. intros Hn. unfold set_scalar. rewrite decide_False by (intros [?|[? Hs]]; [done|by rewrite Hn in Hs]).
  eexists. split; [done|]. split; try done; cbn [pt_scalars set_scalars scalar scalars].
  - unfold scalars. cbn [pt_scalars set_scalars]. rewrite map_size_insert_None by done. lia.
  - intros y w. unfold one_scalar. case_decide as Hy; [|done]. intros [= <-]. rewrite Hy. unfold scalar. cbn. by rewrite lookup_insert_eq.
  - intros name Hname. unfold scalar. cbn. rewrite lookup_insert_ne; [done|]. intros <-. apply (Hname x); [|done].
    unfold one_scalar. rewrite decide_True by done. by eexists.
Qed.

(** The scalars of the spans from [index] on. *)
Definition span_scalars (index : nat) (spans : list (nat * nat)) (x : suffix) : option nat :=
  match x with
  | EndName i => if decide (index ≤ i) then fst <$> spans !! (i - index) else None
  | LengthName i => if decide (index ≤ i) then snd <$> spans !! (i - index) else None
  | _ => None
  end.
Definition history_scalars (h : RotaryHistory) (x : suffix) : option nat :=
  match x with
  | InitialName => Some (rh_initial h)
  | SpansName => Some (length (rh_spans h))
  | _ => span_scalars 0 (rh_spans h) x
  end.

Lemma extends_trans layer f g fg n m t t1 t2 : extends layer f n t t1 → extends layer g m t1 t2 →
  (∀ x v, fg x = Some v → g x = Some v ∨ (g x = None ∧ f x = Some v)) → (∀ x, is_Some (f x) ∨ is_Some (g x) → is_Some (fg x)) →
  extends layer fg (n + m) t t2.
Proof.
  intros E1 E2 Hfg Hall. destruct E1, E2. split; try congruence.
  - lia.
  - intros x v Hx. destruct (Hfg x v Hx) as [Hg|[Hg Hf]]; [by auto|]. rewrite ex_old1; [by auto|].
    intros y [w Hy] Heq. apply scalar_prefix_inj in Heq as [_ Heq]. apply suffix_inj in Heq as <-. by rewrite Hg in Hy.
  - intros name Hname. rewrite ex_old1 by eauto. apply ex_old0. eauto.
Qed.

Lemma export_spans_extends layer spans : ∀ index t, (∀ x, is_Some (span_scalars index spans x) → scalar (scalar_prefix layer +:+ suffix_text x) t = None) →
  ∃ t', export_spans layer index spans t = Ok t' ∧ extends layer (span_scalars index spans) (2 * length spans) t t'.
Proof.
  induction spans as [|[e l] spans IH]; intros index t Hfree; cbn [export_spans].
  { exists t. split; [done|]. split; try done. intros x v. destruct x; simpl; try done; by case_decide. }
  destruct (set_scalar_extends layer (EndName index) e t) as (t1 & Heq & E1).
  { apply Hfree. simpl. rewrite decide_True by lia. rewrite Nat.sub_diag. by eexists. }
  cbn [suffix_text] in Heq. rewrite Heq. cbn [res_bind].
  destruct (set_scalar_extends layer (LengthName index) l t1) as (t2 & Heq2 & E2).
  { rewrite (ex_old _ _ _ _ _ E1).
    - apply Hfree. simpl. rewrite decide_True by lia. rewrite Nat.sub_diag. by eexists.
    - intros x [v Hx] Hne. unfold one_scalar in Hx. case_decide as Hd; [|done]. rewrite Hd in Hne. apply scalar_prefix_inj in Hne as [_ Hne].
      by apply suffix_inj in Hne. }
  cbn [suffix_text] in Heq2. rewrite Heq2. cbn [res_bind].
  assert (extends layer (span_scalars index [(e, l)]) 2 t t2) as E12.
  { eapply (extends_trans layer _ _ _ 1 1); [exact E1|exact E2| |].
    - intros [| |i|i] v; cbn [span_scalars]; try done; unfold one_scalar; case_decide; try done;
        (destruct (i - index) eqn:Ei; [|done]); assert (i = index) as -> by lia; intros [= <-].
      + right. by rewrite decide_False, decide_True by (done || (intros Hx; by apply (suffix_inj (EndName _) (LengthName _)) in Hx)).
      + left. by rewrite decide_True.
    - intros x [[v Hx]|[v Hx]]; unfold one_scalar in Hx; case_decide as Hd; try done; apply suffix_inj in Hd as ->; simpl;
        rewrite decide_True by lia; rewrite Nat.sub_diag; by eexists. }
  destruct (IH (S index) t2) as (t3 & -> & E3).
  { intros x [v Hx]. rewrite (ex_old _ _ _ _ _ E12).
    - apply Hfree. destruct x as [| |i|i]; cbn [span_scalars] in *; try done; (case_decide; [|done]); rewrite decide_True by lia;
        replace (i - index) with (S (i - S index)) by lia; simpl; eauto.
    - intros y [w Hy] Hne. apply scalar_prefix_inj in Hne as [_ Hne]. apply suffix_inj in Hne as <-.
      destruct x as [| |i|i]; cbn [span_scalars] in *; try done; (case_decide; [|done]); (case_decide; [|done]); destruct (i - index) eqn:Ei; try done; lia. }
  exists t3. split; [done|]. replace (2 * length ((e, l) :: spans)) with (2 + 2 * length spans) by (simpl; lia).
  eapply extends_trans; [exact E12|exact E3| |].
  - intros [| |i|i] v; cbn [span_scalars]; try done; (case_decide; [|done]); (destruct (i - index) as [|k] eqn:Ei; simpl; intros Hv;
      [right; split; [by rewrite decide_False by lia|done]|left; rewrite decide_True by lia; by replace (i - S index) with k by lia]).
  - intros [| |i|i]; cbn [span_scalars]; intros [[v Hv]|[v Hv]]; try done; repeat case_decide; try done; try lia;
      destruct (i - index) as [|k] eqn:Ei; simpl in *; try done; try lia; eauto; replace (i - S index) with k in Hv by lia; eauto.
Qed.

Definition free_layer (layer : nat) t : Prop := ∀ x, scalar (scalar_prefix layer +:+ suffix_text x) t = None.

Lemma export_history_extends layer h t : free_layer layer t →
  ∃ t', export_history layer h t = Ok t' ∧ extends layer (history_scalars h) (2 + 2 * length (rh_spans h)) t t'.
Proof.
  intros Hfree. unfold export_history.
  destruct (set_scalar_extends layer InitialName (rh_initial h) t (Hfree _)) as (t1 & Heq & E1). cbn [suffix_text] in Heq. rewrite Heq. cbn [res_bind].
  destruct (set_scalar_extends layer SpansName (length (rh_spans h)) t1) as (t2 & Heq2 & E2).
  { rewrite (ex_old _ _ _ _ _ E1); [apply Hfree|]. intros x [v Hx] Hne. unfold one_scalar in Hx. case_decide as Hd; [|done].
    rewrite Hd in Hne. by apply scalar_prefix_inj in Hne as [_ Hne]. }
  cbn [suffix_text] in Heq2. rewrite Heq2. cbn [res_bind].
  set (two := λ x, match x with InitialName => Some (rh_initial h) | SpansName => Some (length (rh_spans h)) | _ => None end).
  assert (extends layer two 2 t t2) as E12.
  { eapply (extends_trans layer _ _ _ 1 1); [exact E1|exact E2| |].
    - intros [| |i|i] v; simpl; try done; intros [= <-]; unfold one_scalar; [right|left; by rewrite decide_True].
      by rewrite decide_False, decide_True by done.
    - intros x [[v Hx]|[v Hx]]; unfold one_scalar in Hx; case_decide as Hd; try done; apply suffix_inj in Hd as ->; by eexists. }
  destruct (export_spans_extends layer (rh_spans h) 0 t2) as (t3 & -> & E3).
  { intros x [v Hx]. rewrite (ex_old _ _ _ _ _ E12); [apply Hfree|]. intros y [w Hy] Hne. apply scalar_prefix_inj in Hne as [_ Hne].
    apply suffix_inj in Hne as <-. by destruct x. }
  exists t3. split; [done|]. eapply extends_trans; [exact E12|exact E3| |].
  - intros [| |i|i] v Hx; [right|right|left|left]; done.
  - intros [| |i|i]; cbn [history_scalars two span_scalars]; try by eexists. all: intros [[? ?]|?]; done.
Qed.

(** *** Reading *)
Lemma import_spans_ok t layer spans : ∀ index,
  (∀ x v, span_scalars index spans x = Some v → scalar (scalar_prefix layer +:+ suffix_text x) t = Some v) →
  import_spans t layer (seq index (length spans)) = Ok spans.
Proof.
  induction spans as [|[e l] spans IH]; intros index Hall; [done|]. cbn [length seq import_spans]. unfold layer_scalar.
  pose proof (Hall (EndName index) e) as He. pose proof (Hall (LengthName index) l) as Hl. cbn [suffix_text span_scalars] in He, Hl.
  rewrite decide_True, Nat.sub_diag in He, Hl by lia. rewrite (He eq_refl). cbn [ok_or res_bind]. rewrite (Hl eq_refl).
  cbn [ok_or res_bind]. rewrite IH; [done|]. intros x v Hx. apply Hall.
  destruct x as [| |i|i]; cbn [span_scalars] in *; try done; (case_decide; [|done]); rewrite decide_True by lia;
    replace (i - index) with (S (i - S index)) by lia; done.
Qed.

Lemma spans_ok_count initial begin spans finish : spans_ok initial begin spans finish → length spans ≤ finish - begin.
Proof. induction 1 as [|? ? ? ? ? ? ? ? Hs]; simpl; [lia|]. apply spans_ok_le in Hs. lia. Qed.

Lemma import_history_ok t layer h : history_ok (pt_position t) h → 2 + 2 * length (rh_spans h) ≤ scalars t →
  (∀ x v, history_scalars h x = Some v → scalar (scalar_prefix layer +:+ suffix_text x) t = Some v) →
  import_history t layer = Ok (h, 2 + 2 * length (rh_spans h)).
Proof.
  intros Hv Hn Hall. unfold import_history, layer_scalar. 
  pose proof (Hall InitialName _ eq_refl) as Hi. pose proof (Hall SpansName _ eq_refl) as Hs. cbn [suffix_text] in Hi, Hs.
  rewrite Hi. cbn [ok_or res_bind]. rewrite Hs. cbn [ok_or res_bind].
  assert (length (rh_spans h) ≤ pt_position t) as Hc.
  { destruct (decide (rh_initial h = 0)) as [H0'|H0'].
    - apply valid_static in Hv; [|done]. rewrite Hv. simpl. lia.
    - apply valid_dynamic in Hv; [|done]. apply spans_ok_count in Hv. lia. }
  assert (length (rh_spans h) ≤ scalars t / 2) by (apply Nat.div_le_lower_bound; lia).
  rewrite decide_False by lia. rewrite import_spans_ok.
  2: { intros x v Hx. apply Hall. by destruct x. }
  cbn [res_bind]. destruct h as [initial spans]. cbn [rh_initial rh_spans] in *. unfold history_ok in Hv. by rewrite Hv.
Qed.

(** *** All layers *)
Fixpoint export_histories (layer : nat) (hs : list RotaryHistory) t : Gen PrefixTensors :=
  match hs with
  | [] => Ok t
  | h :: hs => do? t := export_history layer h t in export_histories (S layer) hs t
  end.
Definition history_fields (hs : list RotaryHistory) : nat := sum_list ((λ h, 2 + 2 * length (rh_spans h)) <$> hs).

Lemma export_histories_extends hs : ∀ layer t, (∀ i, layer ≤ i → free_layer i t) →
  ∃ t', export_histories layer hs t = Ok t' ∧ pt_position t' = pt_position t ∧ pt_schema t' = pt_schema t ∧
    pt_tensors t' = pt_tensors t ∧ pt_children t' = pt_children t ∧ scalars t' = scalars t + history_fields hs ∧
    (∀ i h x v, hs !! i = Some h → history_scalars h x = Some v → scalar (scalar_prefix (layer + i) +:+ suffix_text x) t' = Some v) ∧
    (∀ name, (∀ i x, layer ≤ i → name ≠ scalar_prefix i +:+ suffix_text x) → scalar name t' = scalar name t).
Proof.
  induction hs as [|h hs IH]; intros layer t Hfree; cbn [export_histories].
  { exists t. unfold history_fields. simpl. rewrite Nat.add_0_r. split_and!; done. }
  destruct (export_history_extends layer h t) as (t1 & -> & E); [apply Hfree; lia|]. cbn [res_bind].
  destruct (IH (S layer) t1) as (t' & -> & Hp & Hs & Ht & Hc & Hn & Hnew & Hold).
  { intros i Hi x. rewrite (ex_old _ _ _ _ _ E); [apply Hfree; lia|]. intros y _ Hne. apply scalar_prefix_inj in Hne as [-> _]. lia. }
  exists t'. split; [done|]. rewrite Hp, Hs, Ht, Hc, Hn, (ex_position _ _ _ _ _ E), (ex_schema _ _ _ _ _ E), (ex_tensors _ _ _ _ _ E),
    (ex_children _ _ _ _ _ E), (ex_count _ _ _ _ _ E). unfold history_fields. cbn [fmap list_fmap sum_list].
  split_and!; try done; [simpl; lia| |].
  - intros [|i] h' x v Hi Hx.
    + injection Hi as <-. rewrite Nat.add_0_r, Hold; [by apply (ex_new _ _ _ _ _ E)|].
      intros j y Hj Hne. apply scalar_prefix_inj in Hne as [-> _]. lia.
    + replace (layer + S i) with (S layer + i) by lia. by eapply Hnew.
  - intros name Hname. rewrite Hold by (intros; apply Hname; lia). apply (ex_old _ _ _ _ _ E). intros; by apply Hname.
Qed.

(** Claim C22. The rotary histories of all layers survive a transfer: exported into a
    prefix that has no scalars they are all written, under names that never collide, and
    importing any layer gives its history back with the number of scalars it took, which
    together are all the scalars of the prefix. *)
Theorem rotary_histories_roundtrip hs schema position : Forall (history_ok position) hs →
  ∃ t, export_histories 0 hs (new_tensors schema position) = Ok t ∧ scalars t = history_fields hs ∧
    ∀ layer h, hs !! layer = Some h → import_history t layer = Ok (h, 2 + 2 * length (rh_spans h)).
Proof.
  intros Hv. destruct (export_histories_extends hs 0 (new_tensors schema position)) as (t & Heq & Hp & _ & _ & _ & Hn & Hnew & _).
  { intros i _ x. unfold scalar. cbn [new_tensors pt_scalars]. by rewrite lookup_empty. }
  exists t. split; [done|]. assert (scalars t = history_fields hs) as Hcount by (rewrite Hn; unfold scalars; cbn; by rewrite map_size_empty).
  split; [done|]. intros layer h Hh. apply import_history_ok.
  - rewrite Hp. rewrite Forall_lookup in Hv. by eapply Hv.
  - rewrite Hcount. unfold history_fields. apply list_elem_of_lookup_2 in Hh.
    apply (list_elem_of_fmap_2 (λ h, 2 + 2 * length (rh_spans h))) in Hh. exact (sum_list_with_in _ id _ Hh).
  - intros x v Hx. by eapply (Hnew layer).
Qed.
End Transferred.
