(* ===== verification/PagedRotary.v ===== *)
(** * Rotary contexts of paged caches

    src/src/paged_engine/rotary.rs: the length every cached token was rotated with,
    kept per request for recomputation and per physical slot for shared prefixes.
    A batch's new contexts are prepared before the forward and published when its
    accepted tokens are known. *)
From S2P Require Import Prelude Float PagedKv GenerationControl ContinuousBatch Rope.
Open Scope nat_scope.
Open Scope list_scope.
Open Scope m_scope.

Record PendingRow := mk_pending {
  pr_id : RequestId;
  pr_start : nat;
  pr_pages : list KvPageId;
  pr_contexts : list (list nat)
}.

Record PagedRotaryCache := mk_paged_rotary {
  rc_block_size : nat;
  rc_slots : list (list nat);
  rc_requests : gmap RequestId (list (list nat));
  rc_pending : gmap N (list PendingRow)
}.
Definition set_slots x (c : PagedRotaryCache) : PagedRotaryCache := mk_paged_rotary (rc_block_size c) x (rc_requests c) (rc_pending c).
Definition set_rotary_requests x (c : PagedRotaryCache) : PagedRotaryCache := mk_paged_rotary (rc_block_size c) (rc_slots c) x (rc_pending c).
Definition set_rotary_pending x (c : PagedRotaryCache) : PagedRotaryCache := mk_paged_rotary (rc_block_size c) (rc_slots c) (rc_requests c) x.

Notation RotM := (M PagedRotaryCache GenerationError).

Section Rotary.
Context `{Powers}.

Definition new_rotary (states : list (option RotaryState)) (pages block_size : nat) : PagedRotaryCache :=
  mk_paged_rotary block_size ((λ state : option RotaryState, if state then replicate (pages * block_size) 0 else []) <$> states) ∅ ∅.

(** [pages[position / block_size] * block_size + position % block_size]; [None] when the
    page table is too short. *)
Definition slot_of (block_size : nat) (pages : list KvPageId) (position : nat) : option nat :=
  (λ page, N.to_nat page * block_size + position mod block_size) <$> pages !! (position / block_size).

(** ** Preparing *)

(** The [while] loop: [count] contexts of a shared prefix, from [slots]. *)
Fixpoint fill_history (block_size : nat) (slots : list nat) (pages : list KvPageId) (count : nat) (history : list nat) : Gen (list nat) :=
  match count with
  | 0 => Ok history
  | S count =>
      if decide (block_size = 0) then Panic DivByZero
      else
        do? slot := ok_or (slot_of block_size pages (length history)) "rotary prefix has no physical page" in
        do? context := expect OutOfBounds (slots !! slot) in
        if decide (context = 0) then Err "shared prefix has no committed rotary history"
        else fill_history block_size slots pages count (history ++ [context])
  end.

(** [resize] of a vector. *)
Definition resize_to (n value : nat) (l : list nat) : list nat := take n l ++ replicate (n - length l) value.

(** One layer of one row: its history up to the end of the batch, and the contexts of
    the new tokens, which [paged_table] turns into a table. *)
Definition prepare_layer (c : PagedRotaryCache) (layer : nat) (state : RotaryState) (row : ScheduledSequence) : Gen (list nat * list nat) :=
  let start := row_start_position row in
  let finish := start + length (row_token_ids row) in
  let history := default [] (rc_requests c !! row_request_id row ≫= λ layers, layers !! layer) in
  do? slots := (if decide (length history < start) then expect OutOfBounds (rc_slots c !! layer) else Ok []) in
  do? history := fill_history (rc_block_size c) slots (row_block_table row) (start - length history) history in
  do? history := (if decide (length history < finish) then
      do? context := paged_context state (last history) finish in Ok (resize_to finish context history)
    else Ok history) in
  do? contexts := expect OutOfBounds (slice start finish history) in
  Ok (history, contexts).

(** The layers of a row: their histories, and the tables of the layers that have one. *)
Fixpoint prepare_layers (c : PagedRotaryCache) (layer : nat) (states : list (option RotaryState)) (row : ScheduledSequence) :
    Gen (list (list nat) * list (option (nat * list nat))) :=
  match states with
  | [] => Ok ([], [])
  | None :: states =>
      do? rest := prepare_layers c (S layer) states row in
      Ok ([] :: rest.1, None :: rest.2)
  | Some state :: states =>
      do? here := prepare_layer c layer state row in
      do? rest := prepare_layers c (S layer) states row in
      Ok (here.1 :: rest.1, Some (row_start_position row, here.2) :: rest.2)
  end.

Fixpoint prepare_rows (c : PagedRotaryCache) (states : list (option RotaryState)) (rows : list ScheduledSequence) :
    Gen (list PendingRow * list (list (option (nat * list nat)))) :=
  match rows with
  | [] => Ok ([], [])
  | row :: rows =>
      do? here := prepare_layers c 0 states row in
      do? rest := prepare_rows c states rows in
      Ok (mk_pending (row_request_id row) (row_start_position row) (row_block_table row) here.1 :: rest.1, here.2 :: rest.2)
  end.

(** The tables of one layer, row by row. *)
Definition layer_tables (tables : list (list (option (nat * list nat)))) (layer : nat) : list (nat * list nat) :=
  omap (λ row : list (option (nat * list nat)), mjoin (row !! layer)) tables.

(** The starts and contexts of every layer's table; [None] for a layer without one. *)
Definition prepare (states : list (option RotaryState)) (batch : ScheduledBatch) : RotM (list (option (list (nat * list nat)))) :=
  let! c := mget in
  let! result := mlift (prepare_rows c states (batch_sequences batch)) in
  (if existsb (λ state : option RotaryState, bool_decide (is_Some state)) states
   then mmodify (set_rotary_pending (<[batch_id batch := result.1]> (rc_pending c))) else mret tt) ;;;
  mret ((λ layer, match layer_tables result.2 layer with [] => None | tables => Some tables end) <$> seq 0 (length states)).

(** ** Publishing *)

(** [copy_from_slice] of the first [finish] contexts into a history that is long enough. *)
Definition publish_history (finish : nat) (contexts history : list nat) : option (list nat) :=
  let history := if decide (length history < finish) then resize_to finish 0 history else history in
  if decide (finish ≤ length contexts) then Some (take finish contexts ++ drop finish history) else None.

(** The slots of the positions, in order. *)
Fixpoint publish_slots (block_size : nat) (pages : list KvPageId) (contexts : list nat) (positions : list nat) (slots : list nat) : option (list nat) :=
  match positions with
  | [] => Some slots
  | position :: positions =>
      slot ← slot_of block_size pages position;
      context ← contexts !! position;
      if decide (slot < length slots) then publish_slots block_size pages contexts positions (<[slot := context]> slots) else None
  end.

Definition commit_layer (row : PendingRow) (count layer : nat) (contexts : list nat) : RotM unit :=
  if decide (contexts = []) then mret tt
  else
    let finish := pr_start row + count in
    let! c := mget in
    let! layers := mexpect OutOfBounds (rc_requests c !! pr_id row) in
    let! history := mexpect OutOfBounds (layers !! layer) in
    let! history := mexpect OutOfBounds (publish_history finish contexts history) in
    mmodify (set_rotary_requests (<[pr_id row := <[layer := history]> layers]> (rc_requests c))) ;;;
    let! slots := mexpect OutOfBounds (rc_slots c !! layer) in
    (if decide (rc_block_size c = 0 ∧ 0 < count) then mpanic DivByZero else mret tt) ;;;
    let! slots := mexpect OutOfBounds (publish_slots (rc_block_size c) (pr_pages row) contexts (seq (pr_start row) count) slots) in
    mmodify (λ c, set_slots (<[layer := slots]> (rc_slots c)) c).

Fixpoint commit_layers (row : PendingRow) (count layer : nat) (contexts : list (list nat)) : RotM unit :=
  match contexts with
  | [] => mret tt
  | here :: contexts => commit_layer row count layer here ;;; commit_layers row count (S layer) contexts
  end.

(** [entry(id).or_insert_with] *)
Definition enter_request (id : RequestId) : RotM unit :=
  mmodify (λ c, match rc_requests c !! id with
    | Some _ => c
    | None => set_rotary_requests (<[id := replicate (length (rc_slots c)) []]> (rc_requests c)) c
    end).

Definition commit_row (entry : PendingRow * nat) : RotM unit :=
  enter_request (pr_id entry.1) ;;; commit_layers entry.1 entry.2 0 (pr_contexts entry.1).

Definition commit_rotary (batch : ScheduledBatch) (counts : list nat) : RotM unit :=
  if decide (length counts ≠ batch_size batch ∨
    Exists (λ e : nat * ScheduledSequence, length (row_token_ids e.2) < e.1) (zip counts (batch_sequences batch)))
  then mthrow "rotary commit counts differ from the executed batch"
  else
    let! c := mget in
    match rc_pending c !! batch_id batch with
    | None => mret tt
    | Some pending =>
        mmodify (set_rotary_pending (delete (batch_id batch) (rc_pending c))) ;;;
        mfor (zip pending counts) commit_row
    end.

Definition rollback_rotary (batch : N) : RotM unit := mmodify (λ c, set_rotary_pending (delete batch (rc_pending c)) c).
Definition forget_rotary (request : RequestId) : RotM unit := mmodify (λ c, set_rotary_requests (delete request (rc_requests c)) c).
End Rotary.
