(* ===== verification/PagedRotarySpec.v ===== *)
(** * Paged rotary contexts are those of a contiguous cache

    Whatever part of a batch is accepted, the contexts a request keeps are the lengths
    a contiguous cache records when it rotates the same tokens and is cut where the
    batch was. *)
From S2P Require Import Prelude Float PagedKv GenerationControl ContinuousBatch Rope RopeSpec PagedRotary.
Open Scope nat_scope.
Open Scope list_scope.
Open Scope m_scope.

(** ** Lists *)
Lemma resize_extend n v l : length l ≤ n → resize_to n v l = l ++ replicate (n - length l) v.
Proof. intros Hl. unfold resize_to. by rewrite take_ge. Qed.

Lemma publish_history_ok finish contexts history : finish ≤ length contexts →
  publish_history finish contexts history = Some (take finish contexts ++ drop finish history).
Proof.
  intros Hf. unfold publish_history. cbv zeta. rewrite (decide_True (P := finish ≤ length contexts)) by done. case_decide as Hl; [|done].
  rewrite resize_extend by lia. do 2 f_equal. rewrite drop_ge, drop_ge; [done|lia|rewrite length_app, length_replicate; lia].
Qed.

Section Spec.
Context `{Powers}.
Implicit Types c : PagedRotaryCache.

(** ** Well-formed caches *)
Record rotary_wf (states : list (option RotaryState)) (slots : nat) c : Prop := {
  rw_block : 0 < rc_block_size c;
  rw_slots : Forall2 (λ (state : option RotaryState) l, is_Some state → length l = slots) states (rc_slots c);
  rw_requests id layers : rc_requests c !! id = Some layers → length layers = length states
}.

(** Where a page table puts a position: offset [position % block_size] of its page. *)
Definition slot_at (block_size : nat) (pages : list KvPageId) (position slot : nat) : Prop :=
  ∃ page, pages !! (position / block_size) = Some page ∧ slot = N.to_nat page * block_size + position mod block_size.
Lemma slot_of_at block_size pages position slot : slot_of block_size pages position = Some slot ↔ slot_at block_size pages position slot.
Proof. unfold slot_of, slot_at. rewrite fmap_Some. done. Qed.

(** The pages of a row hold its tokens. *)
Definition row_paged (block_size slots : nat) (row : ScheduledSequence) : Prop :=
  ∀ position, position < row_start_position row + length (row_token_ids row) →
    ∃ slot, slot_of block_size (row_block_table row) position = Some slot ∧ slot < slots.

Lemma new_rotary_wf states pages block_size : 0 < block_size → rotary_wf states (pages * block_size) (new_rotary states pages block_size).
Proof.
  intros Hb. split; [done| |by intros ? ?].
  unfold new_rotary. cbn [rc_slots]. apply Forall2_fmap_r, Forall_Forall2_diag, Forall_forall. intros [state|] _; [intros _|by intros [? ?]].
  apply length_replicate.
Qed.

(** ** One layer *)

(** What a request's layer has before a row: its history, then what the pages hold. *)
Definition request_history c (layer : nat) (id : RequestId) : list nat := default [] (rc_requests c !! id ≫= λ layers, layers !! layer).
Definition base_history c layer (row : ScheduledSequence) : Gen (list nat) :=
  let history := request_history c layer (row_request_id row) in
  do? slots := (if decide (length history < row_start_position row) then expect OutOfBounds (rc_slots c !! layer) else Ok []) in
  fill_history (rc_block_size c) slots (row_block_table row) (row_start_position row - length history) history.

Lemma fill_history_prefix block_size slots pages count : ∀ history base, fill_history block_size slots pages count history = Ok base →
  length base = length history + count ∧ take (length history) base = history.
Proof.
  induction count as [|count IH]; intros history base; cbn [fill_history].
  { intros [= <-]. split; [lia|]. by rewrite take_ge. }
  case_decide; [done|]. destruct (slot_of _ _ _) as [slot|]; cbn [ok_or res_bind]; [|done].
  destruct (slots !! slot) as [context|]; cbn [expect res_bind]; [|done]. case_decide; [done|]. intros Hf.
  apply IH in Hf as [Hl Ht]. rewrite length_app in *. simpl in *. split; [lia|].
  apply (f_equal (take (length history))) in Ht.
  rewrite take_take, take_app_length in Ht. by replace (length history `min` (length history + 1)) with (length history) in Ht by lia.
Qed.

Lemma fill_history_lookup block_size slots pages count : ∀ history base, fill_history block_size slots pages count history = Ok base →
  ∀ p, length history ≤ p < length history + count → base !! p = (slot ← slot_of block_size pages p; slots !! slot).
Proof.
  induction count as [|count IH]; intros history base; [lia|]. cbn [fill_history].
  case_decide; [done|]. destruct (slot_of _ _ _) as [slot|] eqn:Es; cbn [ok_or res_bind]; [|done].
  destruct (slots !! slot) as [context|] eqn:Ec; cbn [expect res_bind]; [|done]. case_decide; [done|]. intros Hf p Hp.
  destruct (decide (p = length history)) as [->|Hne].
  - apply fill_history_prefix in Hf as [_ Ht]. rewrite Es. cbn [mbind option_bind]. rewrite Ec.
    rewrite <- (lookup_take_lt base (length (history ++ [context]))) by (rewrite length_app; simpl; lia). rewrite Ht. by apply list_lookup_middle.
  - apply (IH _ _ Hf). rewrite length_app. simpl. lia.
Qed.

(** What a row finds of its past: its request's own history and, past its end, what the
    slots of its pages hold. *)
Definition past_length c (layer : nat) (row : ScheduledSequence) : nat :=
  Nat.max (length (request_history c layer (row_request_id row))) (row_start_position row).
Definition past_context c (layer : nat) (row : ScheduledSequence) (position : nat) : option nat :=
  let own := request_history c layer (row_request_id row) in
  if decide (position < length own) then own !! position
  else
    slots ← rc_slots c !! layer;
    page ← row_block_table row !! (position / rc_block_size c);
    slots !! (N.to_nat page * rc_block_size c + position mod rc_block_size c).

Lemma base_history_spec c layer row base : base_history c layer row = Ok base →
  length base = Nat.max (length (request_history c layer (row_request_id row))) (row_start_position row) ∧
  take (length (request_history c layer (row_request_id row))) base = request_history c layer (row_request_id row).
Proof.
  unfold base_history. cbv zeta. set (history := request_history _ _ _). intros Hb. apply res_bind_Ok in Hb as (slots & _ & Hf).
  apply fill_history_prefix in Hf as [Hl Ht]. split; [lia|done].
Qed.
Lemma base_history_past c layer row base past : base_history c layer row = Ok base → length past = past_length c layer row →
  (∀ p, p < length past → past !! p = past_context c layer row p) → past = base.
Proof.
  intros Hb Hlen Hpast. pose proof (base_history_spec _ _ _ _ Hb) as [Hl Ht]. unfold past_length in Hlen.
  apply list_eq_same_length with (length past); [congruence|done|]. intros p x y Hp Hx Hy. rewrite Hpast in Hx by done. unfold past_context in Hx.
  unfold base_history in Hb. cbv zeta in Hb, Hx. set (own := request_history _ _ _) in *. case_decide as Ho.
  - rewrite <- Ht, lookup_take_lt in Hx by done. congruence.
  - apply res_bind_Ok in Hb as (slots & Hs & Hf). rewrite decide_True in Hs by lia. destruct (rc_slots c !! layer) as [slots'|]; [|done].
    cbn [expect] in Hs. injection Hs as ->. cbn [mbind option_bind] in Hx.
    rewrite (fill_history_lookup _ _ _ _ _ _ Hf) in Hy by lia. unfold slot_of in Hy. destruct (_ !! _); cbn in *; congruence.
Qed.

(** The history up to [finish]: one context for all the tokens that are new. *)
Definition extend_history (state : RotaryState) (finish : nat) (base : list nat) : Gen (list nat) :=
  if decide (length base < finish) then
    do? context := paged_context state (last base) finish in Ok (base ++ replicate (finish - length base) context)
  else Ok base.

Lemma prepare_layer_spec c layer state row history contexts : prepare_layer c layer state row = Ok (history, contexts) →
  ∃ base, base_history c layer row = Ok base ∧ extend_history state (row_start_position row + length (row_token_ids row)) base = Ok history ∧
    contexts = take (length (row_token_ids row)) (drop (row_start_position row) history) ∧
    row_start_position row + length (row_token_ids row) ≤ length history.
Proof.
  unfold prepare_layer. cbv zeta. intros Hp. apply res_bind_Ok in Hp as (slots & Hs & Hp). apply res_bind_Ok in Hp as (base & Hb & Hp).
  apply res_bind_Ok in Hp as (history' & Hh & Hp). apply res_bind_Ok in Hp as (contexts' & Hc & [= <- <-]).
  exists base. split; [|split; [|unfold slice in Hc; case_decide as Hr; [|done]; injection Hc as <-; split; [|lia]]].
  - unfold base_history. cbv zeta. unfold request_history. rewrite Hs. exact Hb.
  - unfold extend_history. case_decide; [|done]. apply res_bind_Ok in Hh as (x & -> & Hh). cbn [res_bind].
    by rewrite resize_extend in Hh by lia.
  - by replace (row_start_position row + length (row_token_ids row) - row_start_position row) with (length (row_token_ids row)) by lia.
Qed.

Lemma extend_history_prefix state finish base history : extend_history state finish base = Ok history →
  finish ≤ length history ∧ length base ≤ length history ∧ take (length base) history = base.
Proof.
  unfold extend_history. case_decide as Hl.
  - intros Hh. apply res_bind_Ok in Hh as (x & _ & [= <-]). rewrite length_app, length_replicate, take_app_length. split_and!; [lia|lia|done].
  - intros [= <-]. split_and!; [lia|lia|]. by rewrite take_ge.
Qed.

(** ** Preparing a row *)
Lemma prepare_layers_spec c row states : ∀ layer contexts tables, prepare_layers c layer states row = Ok (contexts, tables) →
  length contexts = length states ∧ length tables = length states ∧
  ∀ j, match states !! j with
       | Some (Some state) => ∃ history new, prepare_layer c (layer + j) state row = Ok (history, new) ∧
           contexts !! j = Some history ∧ tables !! j = Some (Some (row_start_position row, new))
       | Some None => contexts !! j = Some [] ∧ tables !! j = Some None
       | None => True
       end.
Proof.
  induction states as [|[state|] states IH]; intros layer contexts tables; cbn [prepare_layers].
  - intros [= <- <-]. split_and!; [done..|]. by intros j.
  - intros Hp. apply res_bind_Ok in Hp as ([history new] & Hh & Hp). apply res_bind_Ok in Hp as ([cs ts] & Hr & [= <- <-]).
    apply IH in Hr as (H1 & H2 & Hj). simpl. split_and!; [lia|lia|]. intros [|j]; simpl.
    + rewrite Nat.add_0_r. eauto.
    + specialize (Hj j). by replace (layer + S j) with (S layer + j) by lia.
  - intros Hp. apply res_bind_Ok in Hp as ([cs ts] & Hr & [= <- <-]).
    apply IH in Hr as (H1 & H2 & Hj). simpl. split_and!; [lia|lia|]. intros [|j]; simpl; [done|].
    specialize (Hj j). by replace (layer + S j) with (S layer + j) by lia.
Qed.

Lemma prepare_rows_spec c states rows : ∀ pending tables, prepare_rows c states rows = Ok (pending, tables) →
  length tables = length rows ∧ Forall2 (λ row p, pr_id p = row_request_id row ∧ pr_start p = row_start_position row ∧ pr_pages p = row_block_table row ∧
    ∃ ts, prepare_layers c 0 states row = Ok (pr_contexts p, ts)) rows pending ∧
  ∀ i row ts, rows !! i = Some row → tables !! i = Some ts → ∃ contexts, prepare_layers c 0 states row = Ok (contexts, ts).
Proof.
  induction rows as [|row rows IH]; intros pending tables; cbn [prepare_rows].
  - intros [= <- <-]. split_and!; [done|constructor|]. by intros i.
  - intros Hp. apply res_bind_Ok in Hp as ([contexts ts] & Hh & Hp). apply res_bind_Ok in Hp as ([ps tss] & Hr & [= <- <-]).
    apply IH in Hr as (Hl & Hall & Hi). split_and!; [simpl; lia| |].
    + constructor; [|done]. cbn. eauto.
    + intros [|i] row' ts'; simpl; [|by apply Hi]. intros [= <-] [= <-]. eauto.
Qed.

(** ** Publishing a row *)
Lemma publish_slots_ok block_size pages contexts positions : ∀ slots,
  (∀ p, p ∈ positions → p < length contexts ∧ ∃ slot, slot_of block_size pages p = Some slot ∧ slot < length slots) →
  ∃ slots', publish_slots block_size pages contexts positions slots = Some slots' ∧ length slots' = length slots.
Proof.
  induction positions as [|p positions IH]; intros slots Hall; cbn [publish_slots]; [eauto|].
  destruct (Hall p) as (Hlt & slot & -> & Hs); [left|]. cbn [mbind option_bind].
  destruct (lookup_lt_is_Some_2 contexts p Hlt) as [x ->]. cbn [mbind option_bind]. rewrite decide_True by done.
  destruct (IH (<[slot := x]> slots)) as (slots' & -> & Hl').
  - intros q Hq. rewrite length_insert. apply Hall. by right.
  - exists slots'. by rewrite length_insert in Hl'.
Qed.

(** The slots that are written hold the contexts; the others are as they were. *)
Lemma publish_slots_lookup block_size pages contexts positions : ∀ slots slots', NoDup positions →
  (∀ p q slot, slot_of block_size pages p = Some slot → slot_of block_size pages q = Some slot → p = q) →
  publish_slots block_size pages contexts positions slots = Some slots' →
  ∀ slot, slots' !! slot = slots !! slot ∧ (∀ p, p ∈ positions → slot_of block_size pages p ≠ Some slot) ∨
    ∃ p, p ∈ positions ∧ slot_of block_size pages p = Some slot ∧ slots' !! slot = contexts !! p.
Proof.
  intros slots slots' Hnd Hinj. revert slots. induction positions as [|p positions IH]; intros slots; cbn [publish_slots].
  { intros [= <-] slot. left. split; [done|]. by intros p ?%elem_of_nil. }
  apply NoDup_cons in Hnd as [Hnin Hnd]. intros Hp slot. apply bind_Some in Hp as (slot0 & Hs0 & Hp). apply bind_Some in Hp as (x & Hx & Hp).
  case_decide as Hlt; [|done]. destruct (IH Hnd _ Hp slot) as [[Heq Hno]|(q & Hq & Hsq & Heq)].
  - destruct (decide (slot = slot0)) as [->|Hne].
    + right. exists p. split; [left|]. split; [done|]. by rewrite Heq, list_lookup_insert_eq by done.
    + left. rewrite Heq, list_lookup_insert_ne by done. split; [done|]. intros q [->|Hq]%elem_of_cons; [rewrite Hs0; congruence|by apply Hno].
  - right. exists q. split; [by right|done].
Qed.
(** What one layer of a committed row becomes. *)
Definition published (finish : nat) (contexts old : list nat) : list nat := take finish contexts ++ drop finish old.
Definition layer_ready (row : PendingRow) (count block_size : nat) (contexts slots : list nat) : Prop :=
  contexts ≠ [] → pr_start row + count ≤ length contexts ∧
    ∀ p, p < pr_start row + count → ∃ slot, slot_of block_size (pr_pages row) p = Some slot ∧ slot < length slots.

Lemma commit_layer_ok row count layer contexts c layers old slots : rc_block_size c ≠ 0 → contexts ≠ [] →
  rc_requests c !! pr_id row = Some layers → layers !! layer = Some old → rc_slots c !! layer = Some slots →
  layer_ready row count (rc_block_size c) contexts slots →
  ∃ slots', publish_slots (rc_block_size c) (pr_pages row) contexts (seq (pr_start row) count) slots = Some slots' ∧ length slots' = length slots ∧
    commit_layer row count layer contexts c = (Ok tt, mk_paged_rotary (rc_block_size c) (<[layer := slots']> (rc_slots c))
      (<[pr_id row := <[layer := published (pr_start row + count) contexts old]> layers]> (rc_requests c)) (rc_pending c)).
Proof.
  intros Hb Hne Hr Hl Hs Hready. destruct (Hready Hne) as [Hlen Hslots].
  destruct (publish_slots_ok (rc_block_size c) (pr_pages row) contexts (seq (pr_start row) count) slots) as (slots' & Hp & Hl').
  { intros p Hp%elem_of_seq. split; [lia|]. apply Hslots. lia. }
  exists slots'. split; [done|]. split; [done|]. unfold commit_layer. rewrite decide_False by done.
  unfold mbind', mexpect, mget, mret, mmodify. rewrite Hr, Hl, (publish_history_ok _ _ _ Hlen). cbn [set_rotary_requests rc_slots]. rewrite Hs.
  rewrite decide_False by tauto. by rewrite Hp.
Qed.

Lemma commit_layers_ok row count contexts : ∀ layer c layers, rc_block_size c ≠ 0 → rc_requests c !! pr_id row = Some layers →
  length layers = layer + length contexts → length (rc_slots c) = layer + length contexts →
  (∀ j x slots, contexts !! j = Some x → rc_slots c !! (layer + j) = Some slots → layer_ready row count (rc_block_size c) x slots) →
  ∃ c' layers', commit_layers row count layer contexts c = (Ok tt, c') ∧ rc_block_size c' = rc_block_size c ∧ rc_pending c' = rc_pending c ∧
    rc_requests c' = <[pr_id row := layers']> (rc_requests c) ∧ length layers' = length layers ∧ length (rc_slots c') = length (rc_slots c) ∧
    (∀ k, k < layer → layers' !! k = layers !! k ∧ rc_slots c' !! k = rc_slots c !! k) ∧
    ∀ j x, contexts !! j = Some x →
      layers' !! (layer + j) = (if decide (x = []) then layers !! (layer + j) else published (pr_start row + count) x <$> layers !! (layer + j)) ∧
      ∀ slots, rc_slots c !! (layer + j) = Some slots → ∃ slots', rc_slots c' !! (layer + j) = Some slots' ∧ length slots' = length slots ∧
        if decide (x = []) then slots' = slots
        else publish_slots (rc_block_size c) (pr_pages row) x (seq (pr_start row) count) slots = Some slots'.
Proof.
  induction contexts as [|x contexts IH]; intros layer c layers Hb Hr Hl Hs Hready; cbn [commit_layers].
  { exists c, layers. do 7 (split; [by rewrite ?insert_id|]). intros j x Hx. rewrite lookup_nil in Hx. discriminate Hx. }
  cbn [length] in *.
  assert (∃ c1 layers1, commit_layer row count layer x c = (Ok tt, c1) ∧ rc_block_size c1 = rc_block_size c ∧ rc_pending c1 = rc_pending c ∧
    rc_requests c1 = <[pr_id row := layers1]> (rc_requests c) ∧ length layers1 = length layers ∧ length (rc_slots c1) = length (rc_slots c) ∧
    (∀ k, k ≠ layer → layers1 !! k = layers !! k ∧ rc_slots c1 !! k = rc_slots c !! k) ∧
    layers1 !! layer = (if decide (x = []) then layers !! layer else published (pr_start row + count) x <$> layers !! layer) ∧
    ∀ slots, rc_slots c !! layer = Some slots → ∃ slots', rc_slots c1 !! layer = Some slots' ∧ length slots' = length slots ∧
        if decide (x = []) then slots' = slots
        else publish_slots (rc_block_size c) (pr_pages row) x (seq (pr_start row) count) slots = Some slots')
    as (c1 & layers1 & Heq & Hb1 & Hp1 & Hr1 & Hl1 & Hs1 & Hk1 & Hx1 & Hsl1).
  { destruct (decide (x = [])) as [->|Hne].
    - exists c, layers. split; [done|]. split; [done|]. split; [done|]. split; [by rewrite insert_id|]. do 4 (split; [done|]). intros slots Hsl. exists slots. done.
    - destruct (lookup_lt_is_Some_2 layers layer) as [old Hold]; [lia|]. destruct (lookup_lt_is_Some_2 (rc_slots c) layer) as [slots Hsl]; [lia|].
      destruct (commit_layer_ok row count layer x c layers old slots) as (slots' & Hpub & Hlen & Heq); try done.
      { apply (Hready 0); [done|]. by rewrite Nat.add_0_r. }
      eexists _, (<[layer := published (pr_start row + count) x old]> layers). split; [exact Heq|].
      cbn [rc_block_size rc_pending rc_requests rc_slots]. rewrite !length_insert. do 5 (split; [done|]). split; [|split].
      + intros k Hk. by rewrite !list_lookup_insert_ne by done.
      + rewrite Hold. by rewrite list_lookup_insert_eq by lia.
      + intros slots0 Hs0. rewrite Hsl in Hs0. injection Hs0 as <-. exists slots'. by rewrite list_lookup_insert_eq by lia. }
  destruct (IH (S layer) c1 layers1) as (c' & layers' & Heq' & Hb' & Hp' & Hr' & Hl' & Hs' & Hk' & Hj').
  - by rewrite Hb1.
  - by rewrite Hr1, lookup_insert_eq.
  - lia.
  - lia.
  - intros j y slots Hy Hsl. rewrite Hb1. apply (Hready (S j)); [done|]. replace (layer + S j) with (S layer + j) by lia.
    rewrite <- (proj2 (Hk1 (S layer + j) ltac:(lia))). done.
  - exists c', layers'. split; [by rewrite (bind_ok _ _ _ _ _ Heq)|]. split; [congruence|]. split; [congruence|].
    split; [by rewrite Hr', Hr1, insert_insert_eq|]. split; [lia|]. split; [lia|]. split.
    + intros k Hk. destruct (Hk' k ltac:(lia)) as [-> ->]. apply Hk1. lia.
    + intros [|j] y; cbn [lookup list_lookup].
      * intros [= <-]. rewrite Nat.add_0_r. destruct (Hk' layer ltac:(lia)) as [-> ->]. done.
      * intros Hy. replace (layer + S j) with (S layer + j) by lia. destruct (Hj' j y Hy) as [-> Hsl].
        destruct (Hk1 (S layer + j) ltac:(lia)) as [-> Hsame]. split; [done|]. rewrite Hsame, Hb1 in Hsl. done.
Qed.
Lemma slot_of_inj block_size pages p q slot : 0 < block_size → NoDup pages →
  slot_of block_size pages p = Some slot → slot_of block_size pages q = Some slot → p = q.
Proof.
  intros Hb Hnd Hp Hq. unfold slot_of in *. apply fmap_Some in Hp as (x & Hx & ->), Hq as (y & Hy & Heq).
  pose proof (Nat.mod_upper_bound p block_size ltac:(lia)). pose proof (Nat.mod_upper_bound q block_size ltac:(lia)).
  assert (N.to_nat x = N.to_nat y ∧ p mod block_size = q mod block_size) as [Hxy Hm].
  { assert (N.to_nat x = N.to_nat y) by nia. split; [done|]. nia. }
  assert (p / block_size = q / block_size) as Hd.
  { apply (NoDup_lookup _ _ _ x Hnd); [done|]. rewrite Hy. f_equal. lia. }
  rewrite (Nat.div_mod_eq p block_size), (Nat.div_mod_eq q block_size). congruence.
Qed.

(** A pending row that fits its pages, and was prepared for at least [count] tokens. *)
Record row_ready (states : list (option RotaryState)) (block_size slots : nat) (p : PendingRow) (count : nat) : Prop := {
  rr_length : length (pr_contexts p) = length states;
  rr_static j : states !! j = Some None → pr_contexts p !! j = Some [];
  rr_history j state history : states !! j = Some (Some state) → pr_contexts p !! j = Some history → pr_start p + count ≤ length history;
  rr_pages position : position < pr_start p + count → ∃ slot, slot_of block_size (pr_pages p) position = Some slot ∧ slot < slots;
  rr_distinct : NoDup (pr_pages p)
}.

(** The slots of a layer after the rows of [entries] are published. *)
Definition written (block_size : nat) (entries : list (PendingRow * nat)) (layer slot : nat) (value : option nat) : Prop :=
  ∃ p count position history, (p, count) ∈ entries ∧ pr_start p ≤ position < pr_start p + count ∧
    slot_of block_size (pr_pages p) position = Some slot ∧ pr_contexts p !! layer = Some history ∧ value = history !! position.
Definition untouched (block_size : nat) (entries : list (PendingRow * nat)) (slot : nat) : Prop :=
  ∀ p count position, (p, count) ∈ entries → pr_start p ≤ position < pr_start p + count → slot_of block_size (pr_pages p) position ≠ Some slot.
Definition slots_after (states : list (option RotaryState)) entries c c' : Prop :=
  ∀ layer state slots slot, states !! layer = Some (Some state) → rc_slots c !! layer = Some slots → ∃ slots', rc_slots c' !! layer = Some slots' ∧
    (slots' !! slot = slots !! slot ∧ untouched (rc_block_size c) entries slot ∨ written (rc_block_size c) entries layer slot (slots' !! slot)).

Lemma commit_row_ok states slots c p count : rotary_wf states slots c → row_ready states (rc_block_size c) slots p count →
  ∃ c', commit_row (p, count) c = (Ok tt, c') ∧ rotary_wf states slots c' ∧ rc_block_size c' = rc_block_size c ∧ rc_pending c' = rc_pending c ∧
    (∀ id, id ≠ pr_id p → rc_requests c' !! id = rc_requests c !! id) ∧
    (∀ j state history, states !! j = Some (Some state) → pr_contexts p !! j = Some history →
      request_history c' j (pr_id p) = published (pr_start p + count) history (request_history c j (pr_id p))) ∧
    slots_after states [(p, count)] c c'.
Proof.
  intros [Hb Hsl Hreq] Hready. pose proof (Forall2_length _ _ _ Hsl) as Hlen.
  set (layers := default (replicate (length (rc_slots c)) []) (rc_requests c !! pr_id p)).
  set (c1 := match rc_requests c !! pr_id p with Some _ => c | None => set_rotary_requests (<[pr_id p := layers]> (rc_requests c)) c end).
  assert (enter_request (pr_id p) c = (Ok tt, c1)) as Henter.
  { unfold enter_request, mmodify, c1, layers. by destruct (rc_requests c !! pr_id p). }
  assert (rc_requests c1 = <[pr_id p := layers]> (rc_requests c)) as Hr1.
  { unfold c1, layers. destruct (rc_requests c !! pr_id p) as [l|] eqn:El; simpl; [by rewrite insert_id|done]. }
  assert (rc_slots c1 = rc_slots c ∧ rc_block_size c1 = rc_block_size c ∧ rc_pending c1 = rc_pending c) as (Hs1 & Hb1 & Hp1).
  { unfold c1. by destruct (rc_requests c !! pr_id p). }
  assert (length layers = length states) as Hll.
  { unfold layers. destruct (rc_requests c !! pr_id p) as [l|] eqn:El; simpl; [by eapply Hreq|]. by rewrite length_replicate. }
  assert (∀ j, j < length states → default [] (layers !! j) = request_history c j (pr_id p)) as Hhist.
  { intros j Hj. unfold layers, request_history. destruct (rc_requests c !! pr_id p) as [l|]; simpl; [done|].
    by rewrite lookup_replicate_2 by lia. }
  pose proof (rr_length _ _ _ _ _ Hready) as Hcl.
  destruct (commit_layers_ok p count (pr_contexts p) 0 c1 layers) as (c' & layers' & Heq & Hb' & Hp' & Hr' & Hl' & Hs' & _ & Hj).
  - lia.
  - by rewrite Hr1, lookup_insert_eq.
  - simpl. lia.
  - rewrite Hs1. simpl. lia.
  - intros j x sl Hx Hslj Hne. rewrite Hs1 in Hslj. simpl in Hslj. destruct (Forall2_lookup_r _ _ _ _ _ Hsl Hslj) as (state & Hst & Hstl).
    destruct state as [state|]; [|by rewrite (rr_static _ _ _ _ _ Hready j Hst) in Hx; injection Hx as <-].
    split; [by eapply rr_history|]. rewrite (Hstl ltac:(by eexists)), Hb1. apply (rr_pages _ _ _ _ _ Hready).
  - exists c'. split; [unfold commit_row; cbn [fst snd]; by rewrite (bind_ok _ _ _ _ _ Henter)|].
    assert (∀ j, j < length states → ∃ x, pr_contexts p !! j = Some x) as Hcx by (intros; apply lookup_lt_is_Some_2; lia).
    split; [split|].
    + by rewrite Hb', Hb1.
    + apply Forall2_same_length_lookup_2; [rewrite Hs1 in Hs'; lia|]. intros j state sl Hst Hslj Hsome.
      assert (j < length states) as Hjlt by (by apply lookup_lt_Some in Hst). destruct (Hcx j Hjlt) as [x Hx].
      destruct (lookup_lt_is_Some_2 (rc_slots c) j) as [sl0 Hsl0]; [lia|]. destruct (Hj j x Hx) as [_ Hj2]. rewrite Hs1 in Hj2.
      destruct (Hj2 sl0 Hsl0) as (sl' & Hsl' & Hlsl & _). simpl in Hsl'. rewrite Hslj in Hsl'. injection Hsl' as ->. rewrite Hlsl.
      destruct (Forall2_lookup_lr _ _ _ _ _ _ Hsl Hst Hsl0); done.
    + intros id ls. rewrite Hr', Hr1, insert_insert_eq, lookup_insert. case_decide; [intros [= <-]; lia|apply Hreq].
    + split; [by rewrite Hb'|]. split; [by rewrite Hp'|]. split; [|split].
      * intros id Hne. by rewrite Hr', Hr1, insert_insert_eq, lookup_insert_ne.
      * intros j state history Hst Hx. assert (j < length states) as Hjlt by (by apply lookup_lt_Some in Hst).
        unfold request_history at 1. rewrite Hr', lookup_insert_eq. cbn [mbind option_bind]. destruct (Hj j history Hx) as [Hl _]. simpl in Hl. rewrite Hl.
        rewrite <- Hhist by done. destruct (lookup_lt_is_Some_2 layers j) as [old Hold]; [lia|]. rewrite Hold. case_decide as Hn; [|done].
        subst history. pose proof (rr_history _ _ _ _ _ Hready j state [] Hst Hx) as Hf. simpl in Hf.
        assert (pr_start p + count = 0) as -> by lia. unfold published. done.
      * intros layer state sl slot Hst Hslj. assert (layer < length states) as Hjlt by (by apply lookup_lt_Some in Hst).
        destruct (Hcx layer Hjlt) as [x Hx]. destruct (Hj layer x Hx) as [_ Hj2]. rewrite Hs1 in Hj2. destruct (Hj2 sl Hslj) as (sl' & Hsl' & _ & Hpub).
        exists sl'. split; [done|]. rewrite Hb1 in Hpub.
        assert (publish_slots (rc_block_size c) (pr_pages p) x (seq (pr_start p) count) sl = Some sl') as Hpub'.
        { case_decide as Hn; [|done]. subst x sl'. pose proof (rr_history _ _ _ _ _ Hready layer state [] Hst Hx) as Hf. simpl in Hf.
          assert (count = 0) as -> by lia. done. }
        destruct (publish_slots_lookup _ _ _ _ _ _ (NoDup_seq _ _) (λ a b q, slot_of_inj _ _ a b q Hb (rr_distinct _ _ _ _ _ Hready)) Hpub' slot)
          as [[Hsame Hno]|(q & Hq & Hsq & Hv)].
        -- left. split; [done|]. intros p0 count0 position [= -> ->]%list_elem_of_singleton Hpos. apply Hno, elem_of_seq. lia.
        -- right. exists p, count, q, x. apply elem_of_seq in Hq. split; [by left|]. split; [lia|done].
Qed.
Lemma slots_after_cons states e entries c c1 c2 : rc_block_size c1 = rc_block_size c →
  slots_after states [e] c c1 → slots_after states entries c1 c2 → slots_after states (e :: entries) c c2.
Proof.
  intros Hb H1s H2s layer state slots slot Hst Hsl. destruct (H1s layer state slots slot Hst Hsl) as (slots1 & Hsl1 & Hcase1).
  destruct (H2s layer state slots1 slot Hst Hsl1) as (slots2 & Hsl2 & Hcase2). exists slots2. split; [done|]. rewrite Hb in Hcase2.
  destruct Hcase2 as [[Hsame Hno]|(p & count & q & x & Hin & ? & ? & ? & Hv)].
  - rewrite Hsame. destruct Hcase1 as [[Hsame1 Hno1]|(p & count & q & x & Hin & ? & ? & ? & Hv)].
    + left. split; [done|]. intros p count q [<-|Hin]%elem_of_cons; [apply Hno1; by left|by apply Hno].
    + right. exists p, count, q, x. apply list_elem_of_singleton in Hin as ->. split; [by left|done].
  - right. exists p, count, q, x. split; [by right|done].
Qed.

Lemma commit_rows_ok states slots entries : ∀ c, rotary_wf states slots c →
  Forall (λ e : PendingRow * nat, row_ready states (rc_block_size c) slots e.1 e.2) entries → NoDup ((λ e : PendingRow * nat, pr_id e.1) <$> entries) →
  ∃ c', mfor entries commit_row c = (Ok tt, c') ∧ rotary_wf states slots c' ∧ rc_block_size c' = rc_block_size c ∧ rc_pending c' = rc_pending c ∧
    (∀ id, id ∉ (λ e : PendingRow * nat, pr_id e.1) <$> entries → rc_requests c' !! id = rc_requests c !! id) ∧
    (∀ p count j state history, (p, count) ∈ entries → states !! j = Some (Some state) → pr_contexts p !! j = Some history →
      request_history c' j (pr_id p) = published (pr_start p + count) history (request_history c j (pr_id p))) ∧
    slots_after states entries c c'.
Proof.
  induction entries as [|[p count] entries IH]; intros c Hwf Hall Hnd; cbn [mfor].
  { exists c. do 4 (split; [done|]). split; [done|]. split; [by intros ? ? ? ? ? ?%elem_of_nil|].
    intros layer state sl slot _ Hsl. exists sl. split; [done|]. left. split; [done|]. by intros ? ? ? ?%elem_of_nil. }
  apply Forall_cons in Hall as [Hp Hall]. cbn [fmap list_fmap fst snd] in *. apply NoDup_cons in Hnd as [Hnin Hnd].
  destruct (commit_row_ok states slots c p count Hwf Hp) as (c1 & Heq & Hwf1 & Hb1 & Hp1 & Hfr1 & Hh1 & Hs1).
  destruct (IH c1) as (c' & Heq' & Hwf' & Hb' & Hp' & Hfr' & Hh' & Hs'); [done|by rewrite Hb1|done|].
  exists c'. split; [by rewrite (bind_ok _ _ _ _ _ Heq)|]. split; [done|]. split; [congruence|]. split; [congruence|].
  split; [|split; [|by eapply slots_after_cons]].
  - intros id Hid. apply not_elem_of_cons in Hid as [Hne Hid]. by rewrite Hfr', Hfr1.
  - intros p' count' j state history [[= -> ->]|Hin]%elem_of_cons Hst Hx.
    + rewrite <- (Hh1 j state history Hst Hx). unfold request_history. by rewrite Hfr'.
    + rewrite (Hh' _ _ _ _ _ Hin Hst Hx). f_equal. unfold request_history. rewrite Hfr1; [done|].
      intros Heqid. apply Hnin. rewrite <- Heqid. by apply (list_elem_of_fmap_2 (λ e : PendingRow * nat, pr_id e.1)) in Hin.
Qed.

(** ** Prepare, then commit *)

(** The batches a scheduler builds: requests are distinct, their pages distinct and
    long enough. *)
Record batch_paged (block_size slots : nat) (batch : ScheduledBatch) : Prop := {
  bp_requests : NoDup (row_request_id <$> batch_sequences batch);
  bp_tables row : row ∈ batch_sequences batch → NoDup (row_block_table row);
  bp_pages row : row ∈ batch_sequences batch → row_paged block_size slots row;
  (* no two rows write the same slot *)
  bp_apart i i' row row' p p' slot : batch_sequences batch !! i = Some row → batch_sequences batch !! i' = Some row' →
    row_start_position row ≤ p < row_start_position row + length (row_token_ids row) →
    row_start_position row' ≤ p' < row_start_position row' + length (row_token_ids row') →
    slot_at block_size (row_block_table row) p slot → slot_at block_size (row_block_table row') p' slot → i = i'
}.
Definition counts_ok (batch : ScheduledBatch) (counts : list nat) : Prop :=
  Forall2 (λ count row, count ≤ length (row_token_ids row)) counts (batch_sequences batch).

Lemma prepare_ok_inv states batch c tables c1 : prepare states batch c = (Ok tables, c1) →
  ∃ pending ts, prepare_rows c states (batch_sequences batch) = Ok (pending, ts) ∧
    tables = (λ layer, match layer_tables ts layer with [] => None | tables => Some tables end) <$> seq 0 (length states) ∧
    c1 = (if existsb (λ state : option RotaryState, bool_decide (is_Some state)) states
          then set_rotary_pending (<[batch_id batch := pending]> (rc_pending c)) c else c).
Proof.
  unfold prepare, mbind', mget, mlift. destruct (prepare_rows _ _ _) as [[pending ts]|e|q]; [|done..]. cbn [fst snd].
  intros Hp. exists pending, ts. split; [done|]. by destruct (existsb _ _); injection Hp as <- <-.
Qed.

(** The table of a layer has the rows in order. *)
Lemma layer_tables_lookup ts layer : (∀ i row, ts !! i = Some row → ∃ t, row !! layer = Some (Some t)) →
  ∀ i row t, ts !! i = Some row → row !! layer = Some (Some t) → layer_tables ts layer !! i = Some t.
Proof.
  unfold layer_tables. induction ts as [|row0 ts IH]; intros Hall i row t; [done|]. destruct (Hall 0 row0 eq_refl) as [t0 Ht0].
  cbn [omap list_omap]. rewrite Ht0. simpl. destruct i as [|i]; simpl.
  - intros [= <-] Ht. rewrite Ht0 in Ht. by injection Ht as ->.
  - apply IH. intros j row' Hj. by apply (Hall (S j)).
Qed.

(** What a batch leaves behind: rows that are ready, and the tables of their layers. *)
Lemma prepared_rows states slots c batch pending ts counts : rotary_wf states slots c → batch_paged (rc_block_size c) slots batch → counts_ok batch counts →
  prepare_rows c states (batch_sequences batch) = Ok (pending, ts) →
  Forall (λ e : PendingRow * nat, row_ready states (rc_block_size c) slots e.1 e.2) (zip pending counts) ∧
  (λ e : PendingRow * nat, pr_id e.1) <$> zip pending counts = row_request_id <$> batch_sequences batch.
Proof.
  intros Hwf Hpaged Hcounts Hp. apply prepare_rows_spec in Hp as (_ & Hall & _).
  assert (∀ row, row ∈ batch_sequences batch → NoDup (row_block_table row) ∧ row_paged (rc_block_size c) slots row) as Hrows.
  { intros row Hrow. split; [by eapply bp_tables|by eapply bp_pages]. }
  unfold counts_ok in Hcounts. clear Hpaged. revert counts Hcounts.
  induction Hall as [|row p rows ps (Hid & Hst & Hpg & pts & Hlay) Hall IH]; intros counts Hcounts.
  { apply Forall2_nil_inv_r in Hcounts as ->. split; [constructor|done]. }
  apply Forall2_cons_inv_r in Hcounts as (count & counts' & Hc & Hcounts & ->). cbn [zip_with fmap list_fmap].
  destruct (IH ltac:(intros; apply Hrows; by right) counts' Hcounts) as [IH1 IH2].
  destruct (Hrows row ltac:(left)) as [Hnd Hpaged]. apply prepare_layers_spec in Hlay as (Hl & _ & Hj).
  split; [|cbn [fst]; by rewrite Hid, <- IH2].
  constructor; [|done]. cbn [fst snd]. split.
  - done.
  - intros j Hn. specialize (Hj j). rewrite Hn in Hj. apply Hj.
  - intros j state history Hs Hx. specialize (Hj j). rewrite Hs in Hj. destruct Hj as (history' & new & Hprep & Hx' & _).
    rewrite Hx in Hx'. injection Hx' as <-. apply prepare_layer_spec in Hprep as (base & _ & _ & _ & Hle). lia.
  - intros position Hpos. rewrite Hpg. apply Hpaged. lia.
  - by rewrite Hpg.
Qed.

(** The slots of a layer after a commit: the accepted positions hold the contexts that
    were prepared, and no other slot changes. *)
Definition slots_committed (state : RotaryState) (batch : ScheduledBatch) (counts : list nat) c c2 (layer : nat) : Prop :=
  ∃ before after, rc_slots c !! layer = Some before ∧ rc_slots c2 !! layer = Some after ∧
    (∀ i row count base history p slot, batch_sequences batch !! i = Some row → counts !! i = Some count →
      base_history c layer row = Ok base → extend_history state (row_start_position row + length (row_token_ids row)) base = Ok history →
      row_start_position row ≤ p < row_start_position row + count → slot_at (rc_block_size c) (row_block_table row) p slot → after !! slot = history !! p) ∧
    ∀ slot, (∀ i row count p, batch_sequences batch !! i = Some row → counts !! i = Some count →
      row_start_position row ≤ p < row_start_position row + count → ¬ slot_at (rc_block_size c) (row_block_table row) p slot) → after !! slot = before !! slot.

Lemma committed_slots states slots c batch counts pending ts c2 j state : rotary_wf states slots c → batch_paged (rc_block_size c) slots batch →
  counts_ok batch counts → prepare_rows c states (batch_sequences batch) = Ok (pending, ts) → slots_after states (zip pending counts) c c2 →
  states !! j = Some (Some state) → slots_committed state batch counts c c2 j.
Proof.
  intros Hwf Hpaged Hcounts Hp Hafter Hst. apply prepare_rows_spec in Hp as (_ & Hall & _).
  destruct (Forall2_lookup_l _ _ _ _ _ (rw_slots _ _ _ Hwf) Hst) as (before & Hbefore & _).
  destruct (Hafter j state before 0 Hst Hbefore) as (after & Hafter1 & _). exists before, after. do 2 (split; [done|]).
  assert (∀ slot, after !! slot = before !! slot ∧ untouched (rc_block_size c) (zip pending counts) slot ∨
    written (rc_block_size c) (zip pending counts) j slot (after !! slot)) as Hcase.
  { intros slot. destruct (Hafter j state before slot Hst Hbefore) as (after' & Ha & Hc). rewrite Hafter1 in Ha. by injection Ha as <-. }
  (* the entry of a row *)
  assert (∀ i row count, batch_sequences batch !! i = Some row → counts !! i = Some count → ∃ p, (p, count) ∈ zip pending counts ∧
    pr_start p = row_start_position row ∧ pr_pages p = row_block_table row) as Hentry.
  { intros i row count Hrow Hcount. destruct (Forall2_lookup_l _ _ _ _ _ Hall Hrow) as (p & Hpi & _ & Hs & Hpg & _).
    exists p. split; [|done]. apply elem_of_lookup_zip_with. by exists i, p, count. }
  assert (∀ slot value, written (rc_block_size c) (zip pending counts) j slot value → ∃ i row count p base history,
    batch_sequences batch !! i = Some row ∧ counts !! i = Some count ∧ row_start_position row ≤ p < row_start_position row + count ∧
    slot_at (rc_block_size c) (row_block_table row) p slot ∧ base_history c j row = Ok base ∧
    extend_history state (row_start_position row + length (row_token_ids row)) base = Ok history ∧ value = history !! p) as Hwritten.
  { intros slot value (p & count & q & history & Hin & Hq & Hsl & Hh & Hv). apply elem_of_lookup_zip_with in Hin as (i & p' & count' & [= <- <-] & Hpi & Hci).
    destruct (Forall2_lookup_r _ _ _ _ _ Hall Hpi) as (row & Hrow & _ & Hs & Hpg & pts & Hlay).
    apply prepare_layers_spec in Hlay as (_ & _ & Hj). specialize (Hj j). rewrite Hst in Hj. destruct Hj as (history' & new & Hpl & Hcx & _).
    rewrite Hh in Hcx. injection Hcx as <-. apply prepare_layer_spec in Hpl as (base & Hb & He & _).
    rewrite Hs in Hq. rewrite Hpg in Hsl. apply slot_of_at in Hsl. by exists i, row, count, q, base, history. }
  split.
  - intros i row count base history p slot Hrow Hcount Hb He Hpos Hslot.
    destruct (Hcase slot) as [[_ Hun]|(i' & row' & count' & p' & base' & history' & Hrow' & Hcount' & Hpos' & Hslot' & Hb' & He' & ->)%Hwritten].
    { destruct (Hentry i row count Hrow Hcount) as (e & Hin & Hs & Hpg). rewrite <- Hs in Hpos. exfalso. apply (Hun e count p Hin Hpos).
      apply slot_of_at. by rewrite Hpg. }
    pose proof (Forall2_lookup_lr _ _ _ _ _ _ Hcounts Hcount Hrow) as Hle. pose proof (Forall2_lookup_lr _ _ _ _ _ _ Hcounts Hcount' Hrow') as Hle'.
    assert (i = i') as <- by (apply (bp_apart _ _ _ Hpaged i i' row row' p p' slot); [done|done|simpl in *; lia..|done|done]).
    rewrite Hrow in Hrow'. injection Hrow' as <-. rewrite Hb in Hb'. injection Hb' as <-. rewrite He in He'. injection He' as <-. f_equal.
    apply slot_of_at in Hslot, Hslot'. eapply slot_of_inj; [apply (rw_block _ _ _ Hwf)|apply (bp_tables _ _ _ Hpaged)|done|done]. by eapply list_elem_of_lookup_2.
  - intros slot Hno. destruct (Hcase slot) as [[Hsame _]|(i & row & count & p & _ & _ & Hrow & Hcount & Hpos & Hslot & _)%Hwritten]; [done|].
    by destruct (Hno i row count p Hrow Hcount Hpos).
Qed.

(** Preparing a batch and publishing the accepted tokens. *)
Lemma prepare_commit_ok states slots c batch counts tables c1 : rotary_wf states slots c → batch_paged (rc_block_size c) slots batch →
  counts_ok batch counts → Exists is_Some states → prepare states batch c = (Ok tables, c1) →
  ∃ c2, commit_rotary batch counts c1 = (Ok tt, c2) ∧ rotary_wf states slots c2 ∧ rc_block_size c2 = rc_block_size c ∧
    rc_pending c2 = delete (batch_id batch) (rc_pending c) ∧
    (∀ id, id ∉ row_request_id <$> batch_sequences batch → rc_requests c2 !! id = rc_requests c !! id) ∧
    (∀ i row count j state, batch_sequences batch !! i = Some row → counts !! i = Some count → states !! j = Some (Some state) →
      ∃ base history, base_history c j row = Ok base ∧
        extend_history state (row_start_position row + length (row_token_ids row)) base = Ok history ∧
        request_history c2 j (row_request_id row) = published (row_start_position row + count) history (request_history c j (row_request_id row)) ∧
        ∃ layer, tables !! j = Some (Some layer) ∧
          layer !! i = Some (row_start_position row, take (length (row_token_ids row)) (drop (row_start_position row) history))) ∧
    ∀ j state, states !! j = Some (Some state) → slots_committed state batch counts c c2 j.
Proof.
  intros Hwf Hpaged Hcounts Hsome Hprep. apply prepare_ok_inv in Hprep as (pending & ts & Hrows & -> & ->).
  destruct (prepared_rows states slots c batch pending ts counts Hwf Hpaged Hcounts Hrows) as [Hready Hids].
  assert (existsb (λ state : option RotaryState, bool_decide (is_Some state)) states = true) as ->.
  { apply existsb_exists. apply Exists_exists in Hsome as (state & Hin & Hs). exists state. split; [by apply list_elem_of_In|by apply bool_decide_eq_true]. }
  set (c1 := set_rotary_pending _ c). set (c0 := set_rotary_pending (delete (batch_id batch) (rc_pending c)) c).
  destruct (commit_rows_ok states slots (zip pending counts) c0) as (c2 & Heq & Hwf2 & Hb2 & Hp2 & Hfr & Hh & Hs).
  - destruct Hwf. by split.
  - done.
  - rewrite Hids. apply Hpaged.
  - exists c2. split.
    { unfold commit_rotary. rewrite decide_False.
      - unfold mbind' at 1, mget. unfold c1 at 1. cbn [rc_pending set_rotary_pending]. rewrite lookup_insert_eq. rewrite (bind_ok _ _ _ tt c0); [done|].
        unfold mmodify, c0, c1, set_rotary_pending. cbn. by rewrite delete_insert_eq.
      - intros [Hne|Hex]; [by rewrite (Forall2_length _ _ _ Hcounts) in Hne|].
        apply Exists_exists in Hex as ([count row] & Hin & Hlt). apply elem_of_lookup_zip_with in Hin as (k & a & b & [= <- <-] & Ha & Hb).
        pose proof (Forall2_lookup_lr _ _ _ _ _ _ Hcounts Ha Hb) as Hle. simpl in *. lia. }
    split; [done|]. split; [done|]. split; [by rewrite Hp2|]. split; [by intros id Hid; rewrite Hfr by (by rewrite Hids)|].
    split; [|intros j state Hj; by eapply committed_slots].
    intros i row count j state Hrow Hcount Hst. pose proof Hrows as (Htl & Hall & Hts)%prepare_rows_spec.
    destruct (Forall2_lookup_l _ _ _ _ _ Hall Hrow) as (p & Hpi & Hid & Hstart & _ & pts & Hlay).
    destruct (lookup_lt_is_Some_2 ts i) as [row_ts Hti]; [rewrite Htl; by apply lookup_lt_Some in Hrow|].
    destruct (Hts i row row_ts Hrow Hti) as (contexts & Hlay'). rewrite Hlay in Hlay'. injection Hlay' as <- <-.
    pose proof (prepare_layers_spec _ _ _ _ _ _ Hlay) as (_ & _ & Hj). specialize (Hj j). rewrite Hst in Hj.
    destruct Hj as (history & new & Hpl & Hcx & Htx). apply prepare_layer_spec in Hpl as (base & Hbase & Hext & -> & _).
    exists base, history. split; [done|]. split; [done|]. split.
    + rewrite <- Hid, <- Hstart. apply (Hh p count j state history); [|done|done].
      apply elem_of_lookup_zip_with. eauto 10.
    + exists (layer_tables ts j). assert (layer_tables ts j !! i = Some (row_start_position row, take (length (row_token_ids row)) (drop (row_start_position row) history))) as Hlt.
      { eapply layer_tables_lookup; [|exact Hti|exact Htx]. intros i' ts' Hi'.
        destruct (lookup_lt_is_Some_2 (batch_sequences batch) i') as [row' Hrow']; [rewrite <- Htl; by apply lookup_lt_Some in Hi'|].
        destruct (Hts i' row' ts' Hrow' Hi') as (cx & Hl'). apply prepare_layers_spec in Hl' as (_ & _ & Hj'). specialize (Hj' j). rewrite Hst in Hj'.
        destruct Hj' as (? & ? & _ & _ & ?). eauto. }
      split; [|done]. rewrite list_lookup_fmap, lookup_seq_lt by (by apply lookup_lt_Some in Hst). simpl.
      by destruct (layer_tables ts j).
Qed.
(** ** The contiguous cache *)

(** A contiguous cache that rotates the tokens from [pos] to [finish] and is then cut
    at [keep]. *)
Definition rotated (state : RotaryState) (pos finish : nat) (h : RotaryHistory) : Gen RotaryHistory :=
  if decide (pos < finish) then do? r := rotate state pos (finish - pos) h in Ok r.2 else Ok h.
Definition contiguous (state : RotaryState) (pos finish keep : nat) (h : RotaryHistory) : Gen RotaryHistory :=
  do? h := rotated state pos finish h in truncate_history keep h.

(** A history of [n] tokens under a policy; a cache that has seen none may have no policy yet. *)
Definition under_policy (original n : nat) (h : RotaryHistory) : Prop :=
  history_ok n h ∧ (rh_initial h = original ∨ (rh_initial h = 0 ∧ n = 0)).

Lemma last_length_le original n h : original ≠ 0 → under_policy original n h → original ≤ last_length original (history_lengths h).
Proof.
  intros Ho [Hv Hi]. unfold last_length. destruct (last (history_lengths h)) as [x|] eqn:El; [|done]. simpl. rewrite last_lookup in El.
  destruct Hi as [Hi|[Hi Hn]].
  - apply (dynamic_bound n h) in El; [lia|]. split; [by rewrite Hi|done].
  - subst n. apply valid_static in Hv; [|done]. unfold history_lengths in El. by rewrite Hv in El.
Qed.

Lemma rotated_extends factor original state n finish h history : scaling (rs_parameters state) = Dynamic factor original → original ≠ 0 →
  under_policy original n h → length (history_lengths h) = n → extend_history state finish (history_lengths h) = Ok history →
  ∃ h', rotated state n finish h = Ok h' ∧ history_lengths h' = history ∧ under_policy original (Nat.max n finish) h' ∧
    (n < finish → rh_initial h' = original).
Proof.
  intros Hs Ho Hp Hn Hext. pose proof (last_length_le _ _ _ Ho Hp) as Hle. destruct Hp as [Hv Hi]. unfold extend_history in Hext. rewrite Hn in Hext. unfold rotated.
  destruct (decide (n < finish)) as [Hlt|Hge].
  - apply res_bind_Ok in Hext as (x & Hx & [= <-]). rewrite (paged_context_ok factor original) in Hx by done. injection Hx as <-.
    destruct (rotate_ok factor original state n (finish - n) h) as (st & h' & -> & Hi' & Hd & Hc & Hl); [done|done|lia|done|destruct Hi; auto|].
    cbn [res_bind snd]. exists h'. split; [done|]. replace (n + (finish - n)) with finish in * by lia. split; [by rewrite Hl, Hc|].
    split; [|done]. replace (n `max` finish) with finish by lia. split; [apply Hd|by left].
  - injection Hext as <-. exists h. split; [done|]. split; [done|]. split; [|lia]. replace (n `max` finish) with n by lia. by split.
Qed.

Lemma truncate_policy original n keep h : original ≠ 0 → under_policy original n h → keep ≤ n → length (history_lengths h) = n →
  ∃ h', truncate_history keep h = Ok h' ∧ under_policy original keep h' ∧ history_lengths h' = take keep (history_lengths h).
Proof.
  intros Ho [Hv Hi] Hk Hn. destruct Hi as [Hi|[Hi ->]].
  - destruct (truncate_ok n h keep) as (h' & Heq & Hi' & Hd & Hl); [split; [by rewrite Hi|done]|done|].
    exists h'. split; [done|]. split; [|done]. split; [apply Hd|left; congruence].
  - assert (keep = 0) as -> by lia. exists h. unfold truncate_history. rewrite decide_True by done. split; [done|]. split; [by split; [|right]|].
    by rewrite take_ge by lia.
Qed.

Lemma extend_history_length state finish base history n : extend_history state finish base = Ok history → length base = n →
  length history = Nat.max n finish.
Proof.
  unfold extend_history. intros He <-. case_decide.
  - apply res_bind_Ok in He as (x & _ & [= <-]). rewrite length_app, length_replicate. lia.
  - injection He as <-. lia.
Qed.

(** Publishing [count] tokens of a row over its request's history is cutting the new one. *)
Lemma published_cut c layer row count state base history : count ≤ length (row_token_ids row) → base_history c layer row = Ok base →
  extend_history state (row_start_position row + length (row_token_ids row)) base = Ok history →
  published (row_start_position row + count) history (request_history c layer (row_request_id row)) =
    take (Nat.max (past_length c layer row) (row_start_position row + count)) history.
Proof.
  intros Hle Hbase Hext. destruct (base_history_spec _ _ _ _ Hbase) as [Hblen Hbpre]. unfold past_length.
  pose proof (extend_history_prefix _ _ _ _ Hext) as (_ & _ & Hpre). unfold published. set (own := request_history c layer (row_request_id row)) in *.
  set (start := row_start_position row) in *. destruct (decide (length own ≤ start + count)) as [Hc|Hc].
  - rewrite drop_ge, app_nil_r by done. f_equal. lia.
  - replace (length own `max` start `max` (start + count)) with (length base) by lia. rewrite Hpre.
    rewrite take_ge in Hbpre by lia. rewrite <- Hbpre. transitivity (take (start + count) base ++ drop (start + count) base); [|apply take_drop].
    f_equal. replace (take (start + count) base) with (take (start + count) (take (length base) history)) by (by rewrite Hpre).
    rewrite take_take, Nat.min_l; [done|]. rewrite Hbpre. lia.
Qed.

(** Claim C18. The contexts of a paged batch are those of contiguous caches.  Let the past
    of a row be its request's own history and, past its end, the contexts in the slots its
    page table gives those positions (a shared prefix).  For a contiguous cache whose
    lengths are that past, the tables of the prepared batch are the lengths that cache
    records when it rotates the same tokens.  After any part of the batch is accepted, the
    request keeps exactly what that cache keeps when it is cut there, the slot of every
    accepted position holds that cache's length, and no other slot changes; requests of
    other batches keep their histories. *)
Theorem paged_rotary_is_contiguous states slots c batch counts tables c1 : rotary_wf states slots c → batch_paged (rc_block_size c) slots batch →
  counts_ok batch counts → Exists is_Some states → prepare states batch c = (Ok tables, c1) →
  ∃ c2, commit_rotary batch counts c1 = (Ok tt, c2) ∧ rotary_wf states slots c2 ∧
    (∀ id, id ∉ row_request_id <$> batch_sequences batch → rc_requests c2 !! id = rc_requests c !! id) ∧
    (∀ j state, states !! j = Some (Some state) → ∃ before after, rc_slots c !! j = Some before ∧ rc_slots c2 !! j = Some after ∧
      ∀ slot, (∀ i row count p, batch_sequences batch !! i = Some row → counts !! i = Some count →
        row_start_position row ≤ p < row_start_position row + count → ¬ slot_at (rc_block_size c) (row_block_table row) p slot) → after !! slot = before !! slot) ∧
    ∀ i row count j state factor original, batch_sequences batch !! i = Some row → counts !! i = Some count →
      states !! j = Some (Some state) → scaling (rs_parameters state) = Dynamic factor original → original ≠ 0 →
      let start := row_start_position row in
      let finish := start + length (row_token_ids row) in
      let past := past_length c j row in
      let keep := Nat.max past (start + count) in
      ∀ h, length (history_lengths h) = past → (∀ p, p < past → history_lengths h !! p = past_context c j row p) → under_policy original past h →
        ∃ h' h'' layer after, rotated state past finish h = Ok h' ∧
          tables !! j = Some (Some layer) ∧
          layer !! i = Some (start, take (length (row_token_ids row)) (drop start (history_lengths h'))) ∧
          contiguous state past finish keep h = Ok h'' ∧
          request_history c2 j (row_request_id row) = history_lengths h'' ∧ under_policy original keep h'' ∧
          rc_slots c2 !! j = Some after ∧
          ∀ p, start ≤ p < start + count → ∃ slot, slot_at (rc_block_size c) (row_block_table row) p slot ∧
            after !! slot = history_lengths h'' !! p ∧ is_Some (after !! slot).
Proof.
  intros Hwf Hpaged Hcounts Hsome Hprep.
  destruct (prepare_commit_ok states slots c batch counts tables c1 Hwf Hpaged Hcounts Hsome Hprep) as (c2 & Heq & Hwf2 & _ & _ & Hfr & Hrows & Hslots).
  exists c2. split; [done|]. split; [done|]. split; [done|]. split.
  { intros j state Hst. destruct (Hslots j state Hst) as (before & after & ? & ? & _ & ?). by exists before, after. }
  intros i row count j state factor original Hrow Hcount Hst Hsc Ho start finish past keep h Hpl Hpast Hpol.
  destruct (Hrows i row count j state Hrow Hcount Hst) as (base & history & Hbase & Hext & Hreq & layer & Htab & Hlayer).
  destruct (Hslots j state Hst) as (_ & after & _ & Hafter & Hwrote & _).
  assert (history_lengths h = base) as Hh by (apply (base_history_past c j row); [done|done|by rewrite Hpl]).
  assert (count ≤ length (row_token_ids row)) as Hle by exact (Forall2_lookup_lr _ _ _ _ _ _ Hcounts Hcount Hrow).
  pose proof Hext as Hext'. rewrite <- Hh in Hext.
  destruct (rotated_extends factor original state past finish h history Hsc Ho Hpol Hpl Hext) as (h' & Hrot & Hl' & Hpol' & _).
  destruct (truncate_policy original (Nat.max past finish) keep h' Ho Hpol') as (h'' & Htr & Hpol'' & Hl'');
    [unfold keep, finish; lia|rewrite Hl'; exact (extend_history_length _ _ _ _ _ Hext Hpl)|].
  exists h', h'', layer, after. split; [done|]. split; [done|]. split; [by rewrite Hl'|].
  split; [unfold contiguous; rewrite Hrot; exact Htr|]. split; [|split; [done|split; [done|]]].
  - rewrite Hreq, Hl'', Hl'. exact (published_cut c j row count state base history Hle Hbase Hext').
  - intros p Hp. destruct (bp_pages _ _ _ Hpaged row) with (position := p) as (slot & Hslot%slot_of_at & _); [by eapply list_elem_of_lookup_2|unfold start in Hp; lia|].
    assert (after !! slot = history !! p) as Hv by (eapply Hwrote; [exact Hrow|exact Hcount|exact Hbase|exact Hext'|exact Hp|exact Hslot]).
    exists slot. split; [done|]. rewrite Hl'', lookup_take_lt by (unfold keep; lia). rewrite Hl', Hv. split; [done|].
    apply lookup_lt_is_Some_2. apply extend_history_prefix in Hext as [Hfin _]. unfold finish, start in *. lia.
Qed.
End Spec.
