(* ===== verification/RotaryExamples.v ===== *)
(** * Prefix transfer: a concrete device

    Tensors are lists of heads, a head is its bytes; the laws hold, and two ranks' prefix
    is cut for one rank and for four. *)
From S2P Require Import Prelude PagedKv GenerationControl TrainDisk Safetensors SafetensorsSpec.
From S2P Require Import TrainerExamples PrefixTransfer PrefixReshard Float ContinuousBatch Rope RopeSpec.
From S2P Require Import PagedRotary PagedRotarySpec.
Open Scope nat_scope.
Open Scope list_scope.
Open Scope m_scope.

(** [n] byte_chunks of [size] bytes. *)
Definition byte_chunks (n size : nat) (bytes : Bytes) : list Bytes := (λ i, take size (drop (i * size) bytes)) <$> seq 0 n.

Lemma byte_chunks_lookup n size bytes i : byte_chunks n size bytes !! i = if decide (i < n) then Some (take size (drop (i * size) bytes)) else None.
Proof.
  unfold byte_chunks. rewrite list_lookup_fmap. case_decide as Hi.
  - by rewrite lookup_seq_lt by done.
  - by rewrite lookup_seq_ge by lia.
Qed.

Lemma byte_chunks_count n size bytes : length (byte_chunks n size bytes) = n.
Proof. unfold byte_chunks. by rewrite length_fmap, length_seq. Qed.

Lemma byte_chunks_span n size bytes lo hi : hi ≤ n → byte_chunks (hi - lo) size (take (hi * size - lo * size) (drop (lo * size) bytes)) = span lo hi (byte_chunks n size bytes).
Proof.
  intros Hhi. apply list_eq. intros i. unfold span. rewrite lookup_take, lookup_drop, !byte_chunks_lookup.
  case_decide as Hi; [|done]. rewrite decide_True by lia. f_equal.
  rewrite skipn_firstn_comm, take_take, drop_drop. f_equal; [nia|]. f_equal. lia.
Qed.

Lemma chunks_of_heads size heads : Forall (λ b, length b = size) heads → byte_chunks (length heads) size (concat heads) = heads.
Proof.
  intros Hall. apply list_eq. intros i. rewrite byte_chunks_lookup. case_decide as Hi; [|by rewrite lookup_ge_None_2 by lia].
  revert i Hi. induction Hall as [|b heads Hb Hall IH]; intros i Hi; [simpl in Hi; lia|]. cbn [concat]. destruct i as [|i].
  - simpl. f_equal. rewrite drop_0, <- Hb. apply take_app_length.
  - simpl. rewrite <- IH by (simpl in Hi; lia). f_equal. f_equal. rewrite <- Hb at 1. rewrite <- drop_drop. f_equal. apply drop_app_length.
Qed.

Record ToyTensor := mk_toy { tt_heads : list Bytes; tt_rows : nat; tt_width : nat; tt_dtype : DType }.
Definition toy_dims (t : ToyTensor) : nat * nat * nat * nat := (1, length (tt_heads t), tt_rows t, tt_width t).
Definition toy_stride rows width dtype : nat := rows * width * dtype_size dtype.
Definition toy_data (t : ToyTensor) : Fallible (Bytes * list nat * DType) :=
  if decide (Forall (λ b, length b = toy_stride (tt_rows t) (tt_width t) (tt_dtype t)) (tt_heads t) ∧
    shape_bytes (tt_dtype t) (toy_dims t) = Some (length (concat (tt_heads t))))
  then inr (concat (tt_heads t), [1; length (tt_heads t); tt_rows t; tt_width t], tt_dtype t) else inl "data"%string.
Definition toy_heads (d : Bytes * list nat * DType) : list Bytes :=
  match d.1.2 with [_; heads; rows; width] => byte_chunks heads (toy_stride rows width d.2) d.1.1 | _ => [] end.

#[export] Instance toy_transfer : TransferTensors := {|
  Tensor4 := ToyTensor;
  tensor_dims4 := toy_dims;
  tensor_dtype := tt_dtype;
  tensor_ordinal _ := inr 0%Z;
  slice_heads lo hi t := mk_toy (span lo hi (tt_heads t)) (tt_rows t) (tt_width t) (tt_dtype t);
  cat_heads l := mk_toy (concat (tt_heads <$> l)) (default 0 (tt_rows <$> head l)) (default 0 (tt_width <$> head l)) (default F32 (tt_dtype <$> head l));
  into_data := toy_data;
  from_data (d : @TensorData toy_checkpoint) dtype := match d.1.2 with
    | [_; heads; rows; width] => mk_toy (toy_heads d) rows width dtype
    | _ => mk_toy [] 0 0 dtype
    end;
  receive index producer heads shape dtype := inr (mk_toy (span (rg_start heads) (rg_end heads) []) 0 0 dtype)
|}.

#[export] Instance toy_transfer_laws : TransferLaws.
Proof.
  refine (@Build_TransferLaws toy_checkpoint toy_transfer Bytes tt_heads toy_heads (λ _ _, []) _ _ _ _ _ _).
  - done.
  - done.
  - done.
  - intros t d. cbn [into_data toy_transfer]. unfold toy_data. case_decide as Hok; [|done]. intros [= <-]. destruct Hok as [Hall Hb].
    split; [|done]. unfold toy_heads. cbn [fst snd]. by apply chunks_of_heads.
  - intros [[b s] dt] lo hi heads rows width bytes Hlo Hhi Hs Hf Hlen Hsl. cbn [data_bytes data_dtype toy_checkpoint fst snd] in *.
    eexists. split; [done|]. cbn [from_data toy_transfer fst snd]. unfold toy_heads at 1. cbn [fst snd tt_heads].
    unfold shape_of_data in Hs. cbn [data_shape toy_checkpoint fst snd] in Hs. destruct s as [|? [|? [|? [|? [|]]]]]; try done. injection Hs as -> -> -> ->.
    unfold toy_heads. cbn [fst snd]. unfold slice in Hsl. case_decide; [|done]. injection Hsl as <-. by apply byte_chunks_span.
  - intros index producer lo hi rows width dtype t. by intros [= <-].
Defined.

(** Four heads of one F16 number; two ranks hold two each. *)
Definition toy_head (b : Byte.byte) : Bytes := [b; Byte.x00].
Definition toy_layer : Whole := mk_whole (toy_head <$> [Byte.x01; Byte.x02; Byte.x03; Byte.x04]) 1 1 F16 2.
Definition toy_whole : list (string * Whole) := [("layer.0.k"%string, toy_layer)].
Definition toy_tensors : nat → string → Tensor4 := λ rank _, mk_toy (span (rank * 2) (rank * 2 + 2) (wh_planes toy_layer)) 1 1 F16.

Lemma toy_names : names_ok toy_whole.
Proof.
  split; [apply NoDup_singleton|]. apply Forall_singleton. split; [done|]. split; try (cbn; lia); done.
Qed.

Lemma toy_sharded rank : rank < 2 → sharded toy_tensors 2 rank toy_whole.
Proof.
  intros Hr. apply Forall_singleton. destruct rank as [|[|rank]]; [| |lia]; eexists; (split; [vm_compute; reflexivity|done]).
Qed.

(** What one rank of one and what the last of four ranks get from it. *)
Definition toy_get (shard : PrefixShard) (local : nat) (p : PrefixTensors) : Gen (list Bytes) :=
  do? heads := shard_heads shard (Some 4) local in
  do? t := prefix_tensor "layer.0.k" (1, local, 1, 1) F16 heads p in Ok (tt_heads t).
Definition toy_gathered : Gen PrefixTensors := gathered toy_tensors 2 toy_whole (new_tensors "llama" 7).
Definition toy_model : string := "llama".

Example one_rank_of_two : (do? p := toy_gathered in toy_get (rank_shard 0 1) 4 p) = Ok (wh_planes toy_layer).
Proof. vm_compute. reflexivity. Qed.
Example fourth_rank_of_two : (do? p := toy_gathered in toy_get (rank_shard 3 4) 1 p) = Ok [toy_head Byte.x04].
Proof. vm_compute. reflexivity. Qed.
(** Replicas: eight ranks of four heads, one head each, are merged once. *)
Example replicas_of_eight : (do? heads := shard_heads (rank_shard 5 8) (Some 4) 1 in Ok (rg_start heads.2, rg_end heads.2)) = Ok (2, 3).
Proof. vm_compute. reflexivity. Qed.
(** The record of the merged prefix read back on another process. *)
Example host_copy : (do? p := toy_gathered in do? host := host_record toy_model p in do? p := from_host_record toy_model host in
  toy_get (rank_shard 1 4) 1 p) = Ok [toy_head Byte.x02].
Proof. vm_compute. reflexivity. Qed.

Lemma resharded_prefix_exact_witness : ∃ p, toy_gathered = Ok p ∧
  ∃ t, prefix_tensor "layer.0.k" (1, 1, 1, 1) F16 (4, mk_range 3 4) p = Ok t ∧ tt_heads t = [toy_head Byte.x04].
Proof.
  destruct (resharded_prefix_exact toy_tensors 2 toy_whole "llama" 7) as (p & Hp & Hall); [lia|apply toy_names|apply toy_sharded|].
  exists p. split; [exact Hp|]. destruct (Hall "layer.0.k"%string toy_layer (rank_shard 3 4) 1 (4, mk_range 3 4)) as (t & Ht & Hpl);
    [by left|reflexivity|]. exists t. split; [exact Ht|exact Hpl].
Defined.

Lemma toy_recorded : res_is_ok (do? p := toy_gathered in host_record toy_model p) = true.
Proof. vm_compute. reflexivity. Qed.

Lemma toy_recorded_ok : ∃ p host, toy_gathered = Ok p ∧ host_record toy_model p = Ok host.
Proof.
  pose proof toy_recorded as Hok. destruct (res_bind _ _) as [host|e|q] eqn:Eh in Hok; [|done..].
  apply res_bind_Ok in Eh as (p & ? & ?). eauto.
Qed.

Lemma host_prefix_roundtrip_witness : ∃ p host p', toy_gathered = Ok p ∧ host_record toy_model p = Ok host ∧ from_host_record toy_model host = Ok p' ∧
  ∃ t, prefix_tensor "layer.0.k" (1, 1, 1, 1) F16 (4, mk_range 1 2) p' = Ok t ∧ tt_heads t = [toy_head Byte.x02].
Proof.
  destruct toy_recorded_ok as (p & host & Ep & Eh).
  destruct (host_prefix_roundtrip toy_tensors 2 toy_whole "llama" 7 toy_model p host) as (p' & Hp' & _ & _ & _ & Hall);
    [lia|apply toy_names|apply toy_sharded|discriminate|exact Ep|exact Eh|].
  exists p, host, p'. do 3 (split; [done|]).
  destruct (Hall "layer.0.k"%string toy_layer (rank_shard 1 4) 1 (4, mk_range 1 2)) as (t & Ht & Hpl); [by left|reflexivity|].
  exists t. split; [exact Ht|exact Hpl].
Defined.

(** ** Rotary histories: concrete runs

    The scenario of the repository's own test of paged rotary contexts, a transfer of two
    layers' histories, and instances of the claims. *)

#[export] Instance toy_powers : Powers := {| powf64 x y := f64_mul x y; powf32 x y := f32_mul x y |}.

(** Dynamic scaling of a model trained on four tokens. *)
Definition toy_rope : RopeParameters := mk_rope (f32_of_Z 10000) [f32_of_Z 1] one (Dynamic (f64_of_Z 2) 4) [].
Definition toy_state : RotaryState := mk_rotary toy_rope 4.
Definition toy_states : list (option RotaryState) := [Some toy_state].

Definition toy_batch (id : N) (request : RequestId) (start count : nat) : ScheduledBatch :=
  mk_batch id Verify [mk_row request (replicate count 1%Z) start (start + count) [0; 1; 2]%N id].

(** Prepare a batch and publish [count] of its tokens. *)
Definition run_rotary (batch : ScheduledBatch) (count : nat) : M PagedRotaryCache GenerationError unit :=
  prepare toy_states batch ;;; commit_rotary batch [count].

Definition toy_scenario : M PagedRotaryCache GenerationError unit :=
  run_rotary (toy_batch 1 1 0 3) 3 ;;;
  run_rotary (toy_batch 2 1 3 5) 2 ;;;
  prepare toy_states (toy_batch 3 1 5 4) ;;; rollback_rotary 3 ;;;
  run_rotary (toy_batch 4 2 4 1) 1 ;;;
  run_rotary (toy_batch 5 1 0 2) 2 ;;;
  run_rotary (toy_batch 6 1 5 1) 1.

Definition toy_cache : PagedRotaryCache := new_rotary toy_states 3 4.

Example scenario_runs : (toy_scenario toy_cache).1 = Ok tt.
Proof. vm_compute. reflexivity. Qed.
Example scenario_first : rc_requests (toy_scenario toy_cache).2 !! 1%N = Some [[4; 4; 4; 8; 8; 8]].
Proof. vm_compute. reflexivity. Qed.
Example scenario_shared : rc_requests (toy_scenario toy_cache).2 !! 2%N = Some [[4; 4; 4; 8; 8]].
Proof. vm_compute. reflexivity. Qed.

(** The state before request 2 shares the pages of request 1: its tokens 3 and 4 were
    accepted from a speculative batch of five. *)
Definition toy_five : PagedRotaryCache := ((run_rotary (toy_batch 1 1 0 3) 3 ;;; run_rotary (toy_batch 2 1 3 5) 2) toy_cache).2.

Lemma toy_paged id request start count : start + count ≤ 12 → batch_paged 4 12 (toy_batch id request start count).
Proof.
  intros Hle. split.
  - apply NoDup_singleton.
  - intros row ->%list_elem_of_singleton. cbn. repeat constructor; set_solver.
  - intros row ->%list_elem_of_singleton p. cbn [row_start_position row_token_ids row_block_table toy_batch]. rewrite length_replicate. intros Hp.
    assert (p < 12) as Hlt by lia. clear Hle Hp. do 12 (destruct p as [|p]; [eexists; split; [reflexivity|cbn; lia]|]). lia.
  - by intros [|i] [|i'].
Qed.

(** Request 2 has no history of its own: its four tokens are read from the pages. *)
Lemma paged_rotary_is_contiguous_witness :
  rotary_wf toy_states 12 toy_five ∧ request_history toy_five 0 2 = [] ∧
  (prepare toy_states (toy_batch 4 2 4 1) toy_five).1 = Ok [Some [(4, [8])]] ∧
  ∃ c2, (commit_rotary (toy_batch 4 2 4 1) [1] (prepare toy_states (toy_batch 4 2 4 1) toy_five).2) = (Ok tt, c2) ∧
    request_history c2 0 2 = [4; 4; 4; 8; 8] ∧ ∃ after, rc_slots c2 !! 0 = Some after ∧ after !! 4 = Some 8.
Proof.
  assert (rotary_wf toy_states 12 toy_five) as Hwf.
  { split.
    - vm_compute. lia.
    - assert (rc_slots toy_five = [[4; 4; 4; 8; 8; 0; 0; 0; 0; 0; 0; 0]]) as -> by (vm_compute; reflexivity). repeat constructor.
    - intros id layers Hl. assert (rc_requests toy_five = {[1%N := [[4; 4; 4; 8; 8]]]}) as Hr by (vm_compute; reflexivity).
      rewrite Hr in Hl. apply lookup_singleton_Some in Hl as [_ <-]. reflexivity. }
  split; [exact Hwf|]. split; [vm_compute; reflexivity|].
  assert ((prepare toy_states (toy_batch 4 2 4 1) toy_five).1 = Ok [Some [(4, [8])]]) as Hp by (vm_compute; reflexivity).
  split; [exact Hp|].
  destruct (paged_rotary_is_contiguous toy_states 12 toy_five (toy_batch 4 2 4 1) [1] [Some [(4, [8])]]
    (prepare toy_states (toy_batch 4 2 4 1) toy_five).2) as (c2 & Heq & _ & _ & _ & Hrows).
  - exact Hwf.
  - apply (toy_paged 4 2 4 1). lia.
  - constructor; [cbn; lia|constructor].
  - constructor. by eexists.
  - rewrite <- Hp. apply surjective_pairing.
  - exists c2. split; [exact Heq|].
    destruct (Hrows 0 _ 1 0 toy_state (f64_of_Z 2) 4 eq_refl eq_refl eq_refl eq_refl ltac:(lia) (mk_history 4 [(3, 4); (4, 8)]))
      as (h' & h'' & layer & after & _ & _ & _ & Hc & Hr & _ & Ha & Hslots).
    { vm_compute. reflexivity. }
    { intros p Hlt. assert (p < 4) as Hlt' by (vm_compute in Hlt; lia). clear Hlt. do 4 (destruct p as [|p]; [vm_compute; reflexivity|]). lia. }
    { split; [reflexivity|left; reflexivity]. }
    vm_compute in Hc. injection Hc as <-. split; [exact Hr|]. exists after. split; [exact Ha|].
    destruct (Hslots 4) as (slot & (page & Hpg & ->) & Hv & _); [cbn; lia|]. vm_compute in Hpg. injection Hpg as <-. vm_compute in Hv. vm_compute. exact Hv.
Defined.

(** Two layers, one of them without dynamic scaling, through the scalars of a prefix. *)
Definition toy_histories : list RotaryHistory := [mk_history 4 [(4, 4); (6, 0); (8, 10)]; default_history].

Example transferred_history : (do? t := export_histories 0 toy_histories (new_tensors "dense-kv-v2" 8) in import_history t 0) =
  Ok (mk_history 4 [(4, 4); (6, 0); (8, 10)], 8).
Proof. vm_compute. reflexivity. Qed.

Lemma rotary_histories_roundtrip_witness : ∃ t, export_histories 0 toy_histories (new_tensors "dense-kv-v2" 8) = Ok t ∧
  import_history t 0 = Ok (mk_history 4 [(4, 4); (6, 0); (8, 10)], 8).
Proof.
  destruct (rotary_histories_roundtrip toy_histories "dense-kv-v2" 8) as (t & Ht & _ & Hall).
  - repeat constructor; reflexivity.
  - exists t. split; [exact Ht|]. exact (Hall 0 _ eq_refl).
Defined.
