(* ===== verification/PagedEngine.v ===== *)
(** * The paged Llama engine

    src/src/paged_engine.rs, [PagedLlamaEngine]: the checks around one forward of a
    scheduled batch over physical K/V pools, with the metadata
    src/src/paged_attention.rs uploads for it and the assertions of the paged forward
    of src/src/llama.rs.  The kernels themselves and the tensors are parameters. *)
From S2P Require Import Prelude Float PagedKv GenerationControl Safetensors ContinuousBatch Rope PagedRotary.
Open Scope nat_scope.
Open Scope list_scope.
Open Scope m_scope.

Record PackedLlamaGeometry := mk_geometry {
  num_layers : nat;
  num_query_heads : nat;
  num_kv_heads : nat;
  head_dimension : nat;
  geometry_vocab_size : nat;
  geometry_max_sequence_length : nat;
  geometry_dtype : DType
}.

(** ** The metadata of a batch *)

(** What is uploaded for one forward; the device copies hold these values. *)
Record PagedAttentionBatch := mk_attention_batch {
  pb_block_table : list N;
  pb_start_positions : list nat;
  pb_context_lengths : list nat;
  pb_batch : nat;
  pb_sequence : nat;
  pb_table_stride : nat;
  pb_block_size : nat;
  pb_max_context : nat
}.

Fixpoint upload_rows (block_size sequence stride row : nat) (starts contexts : list nat) (max_context : nat) : Gen nat :=
  match starts, contexts with
  | start :: starts, context :: contexts =>
      if decide (context ≠ start + sequence) then
        Err ("paged row " +:+ pretty (N.of_nat row) +:+ ": context " +:+ pretty (N.of_nat context) +:+ " must equal start " +:+
             pretty (N.of_nat start) +:+ " + " +:+ pretty (N.of_nat sequence) +:+ " new tokens")
      else if decide (stride < div_ceil context block_size) then
        Err ("paged row " +:+ pretty (N.of_nat row) +:+ ": context " +:+ pretty (N.of_nat context) +:+ " needs more than " +:+
             pretty (N.of_nat stride) +:+ " pages")
      else upload_rows block_size sequence stride (S row) starts contexts (Nat.max max_context context)
  | _, _ => Ok max_context
  end.

Definition upload (table : list N) (stride : nat) (starts contexts : list nat) (block_size sequence : nat) :
    Gen PagedAttentionBatch :=
  let batch := length starts in
  if decide (batch = 0 ∨ sequence = 0 ∨ block_size = 0 ∨ stride = 0) then Err "paged attention batch dimensions must be non-zero"
  else if decide (length contexts ≠ batch ∨ length table ≠ batch * stride) then
    Err "paged attention metadata lengths do not match the batch"
  else
    do? max_context := upload_rows block_size sequence stride 0 starts contexts 0 in
    Ok (mk_attention_batch table starts contexts batch sequence stride block_size max_context).

(** ** The model on the device *)

(** The tables of a layer whose rotary frequencies are dynamic: a start and the
    contexts of its new tokens, row by row. *)
Notation RotaryTables := (list (option (list (nat * list nat)))) (only parsing).

(** A packed model with its pools and tensors: [forward_layers] are the embedding, the
    layers, the norm and the head, which write the new keys and values into the pools;
    [None] is a panic.  [argmax_rows] and [cast_rows] read a matrix back, [to_vec]
    decodes it. *)
Class PagedModel `{Powers} := {
  model_geometry : PackedLlamaGeometry;
  paged_rotary_states : list (option RotaryState);
  PagedPools : Type;
  PagedTensor : Type;
  PagedMatrix : Type;
  MatrixData : Type;
  empty_pools : PagedKvCacheConfig → PagedPools;
  forward_layers : list Z → PagedPools → PagedAttentionBatch → bool → RotaryTables →
    option PagedTensor * PagedPools;
  tensor_shape : PagedTensor → nat * nat * nat;
  reshape_rows : PagedTensor → nat → nat → option PagedMatrix;
  matrix_shape : PagedMatrix → nat * nat;
  argmax_rows : PagedMatrix → Fallible (list Z);
  cast_rows : PagedMatrix → Fallible MatrixData;
  to_vec : MatrixData → Fallible (list f32);
  table_alloc : nat → bool
}.

Section Engine.
Context `{PagedModel}.

Record PagedLlamaEngine := mk_engine {
  en_pools : PagedPools;
  en_kv : PagedKvCacheConfig;
  en_geometry : PackedLlamaGeometry;
  en_rotary : PagedRotaryCache
}.
Definition set_en_pools x (e : PagedLlamaEngine) : PagedLlamaEngine := mk_engine x (en_kv e) (en_geometry e) (en_rotary e).
Definition set_en_rotary x (e : PagedLlamaEngine) : PagedLlamaEngine := mk_engine (en_pools e) (en_kv e) (en_geometry e) x.
Notation EM := (M PagedLlamaEngine GenerationError).

Definition debug_dtype (d : DType) : string :=
  match d with
  | F32 => "F32" | F16 => "F16" | BF16 => "BF16" | F64 => "F64" | I64 => "I64" | I32 => "I32" | U8 => "U8"
  | OtherType text => text
  end.

Definition pool_indexable (kv : PagedKvCacheConfig) (g : PackedLlamaGeometry) : bool :=
  match (a ← usize_mul (num_pages kv) (num_kv_heads g); b ← usize_mul a (block_size kv); usize_mul b (head_dimension g)) with
  | Some value => bool_decide (N.of_nat value ≤ u32_max)%N
  | None => false
  end.

Definition new_engine (kv : PagedKvCacheConfig) : Gen PagedLlamaEngine :=
  do? _ := validate_config kv in
  let g := model_geometry in
  if decide (geometry_max_sequence_length g < max_sequence_length kv) then
    Err ("paged KV max_sequence_length " +:+ pretty (N.of_nat (max_sequence_length kv)) +:+ " exceeds model capacity " +:+
         pretty (N.of_nat (geometry_max_sequence_length g)))
  else if decide (geometry_dtype g ∈ [F32; F16; BF16]) then
    if pool_indexable kv g then
      Ok (mk_engine (empty_pools kv) kv g (new_rotary paged_rotary_states (num_pages kv) (block_size kv)))
    else Err "paged KV pool exceeds u32 indexing"
  else Err ("paged inference does not support model dtype " +:+ debug_dtype (geometry_dtype g)).

(** A product of [usize] factors, left to right. *)
Fixpoint usize_product (acc : nat) (factors : list nat) : Gen nat :=
  match factors with
  | [] => Ok acc
  | x :: factors => do? acc := expect Overflow (usize_mul acc x) in usize_product acc factors
  end.

Definition pool_bytes (e : PagedLlamaEngine) : Gen nat :=
  usize_product 2 [num_layers (en_geometry e); num_pages (en_kv e); num_kv_heads (en_geometry e); block_size (en_kv e);
    head_dimension (en_geometry e); if decide (geometry_dtype (en_geometry e) = F32) then 4 else 2].

(** ** One forward *)

Definition outside_vocabulary (vocab : nat) (token : Z) : bool :=
  bool_decide (token < 0)%Z || bool_decide (Z.of_nat vocab ≤ token)%Z.
Definition token_error (vocab : nat) (token : Z) : GenerationError :=
  "token " +:+ pretty token +:+ " is outside vocabulary [0, " +:+ pretty (N.of_nat vocab) +:+ ")".

Definition to_u32 (value : nat) : Gen nat :=
  if decide (N.of_nat value ≤ u32_max)%N then Ok value else Err "paged position exceeds u32".

(** The starts and contexts of the rows. *)
Fixpoint checked_rows (vocab sequence : nat) (rows : list ScheduledSequence) : Gen (list nat * list nat) :=
  match rows with
  | [] => Ok ([], [])
  | row :: rows =>
      if decide (length (row_token_ids row) ≠ sequence) then Err "every row of a paged batch must append the same token count"
      else
        match List.find (outside_vocabulary vocab) (row_token_ids row) with
        | Some token => Err (token_error vocab token)
        | None =>
            do? start := to_u32 (row_start_position row) in
            do? context := to_u32 (row_context_length row) in
            do? rest := checked_rows vocab sequence rows in
            Ok (start :: rest.1, context :: rest.2)
        end
  end.

(** The assertions of [forward_paged_ruda], and the layers. *)
Definition forward_paged_ruda (tokens : list Z) (pools : PagedPools) (batch : PagedAttentionBatch) (all_positions : bool)
    (tables : RotaryTables) : option PagedTensor * PagedPools :=
  if decide (length tables = num_layers model_geometry ∧ length tokens = pb_batch batch * pb_sequence batch ∧
             pb_max_context batch ≤ geometry_max_sequence_length model_geometry)
  then forward_layers tokens pools batch all_positions tables
  else (None, pools).

Definition on_rotary {A} (m : RotM A) : EM A := λ e,
  let out := m (en_rotary e) in (out.1, set_en_rotary out.2 e).

Definition execute_positions (batch : ScheduledBatch) (all_positions : bool) : EM PagedTensor :=
  let rows := batch_size batch in
  let sequence := next_n batch in
  if decide (rows = 0 ∨ sequence = 0) then mthrow "scheduled batch is empty"
  else
    let! e := mget in
    let! positions := mlift (checked_rows (geometry_vocab_size (en_geometry e)) sequence (batch_sequences batch)) in
    let! table := mlift (flattened_block_table table_alloc batch) in
    if existsb (λ page, bool_decide (num_pages (en_kv e) ≤ N.to_nat page)) table.1 then
      mthrow "block table references a missing page"
    else
      (if decide (num_layers (en_geometry e) = 0) then mpanic OutOfBounds else mret tt) ;;;
      let! metadata := mlift (upload table.1 table.2 positions.1 positions.2 (block_size (en_kv e)) sequence) in
      let! tables := on_rotary (prepare paged_rotary_states batch) in
      let! e := mget in
      let out := forward_paged_ruda (token_matrix batch) (en_pools e) metadata all_positions tables in
      mmodify (set_en_pools out.2) ;;;
      mexpect Foreign out.1.

Definition engine_commit (batch : ScheduledBatch) (counts : list nat) : EM unit := on_rotary (commit_rotary batch counts).
Definition engine_fail (batch_id : N) : EM unit := on_rotary (rollback_rotary batch_id).
Definition engine_forget (request : RequestId) : EM unit := on_rotary (forget_rotary request).

(** The logits of the last tokens, one row per sequence. *)
Definition engine_execute (batch : ScheduledBatch) : EM PagedMatrix :=
  let! logits := execute_positions batch false in
  mexpect Foreign (reshape_rows logits (tensor_shape logits).1.1 (tensor_shape logits).2).
End Engine.
