(* ===== verification/PagedEngineSpec.v ===== *)
(** * What one paged forward does

    The metadata of [execute_positions] describes the scheduled rows: every position
    reads and writes the slot its page table gives it.  [PagedModelLaws] is what the
    engine relies on of the kernels: from slots that hold the rows' tokens, a forward
    writes the new ones and returns the logits of a decoder that reads the history. *)
From S2P Require Import Prelude Float PagedKv PagedKvInv ContinuousBatch ContinuousBatchInv.
From S2P Require Import ContinuousBatchLoop ContinuousBatchCalls PagedContents PagedMapped.
From S2P Require Import GenerationControl BatchSampling Safetensors Rope PagedRotary PagedEngine.
Open Scope nat_scope.
Open Scope list_scope.
Open Scope m_scope.

(** ** The block table *)
Lemma write_row_lookup table base pages table' : ∀ column, write_row table base column pages = Some table' →
  length table' = length table ∧ ∀ i, table' !! i = if decide (base + column ≤ i < base + column + length pages)
    then pages !! (i - base - column) else table !! i.
Proof.
  revert table. induction pages as [|page pages IH]; intros table column; simpl.
  { intros [= <-]. split; [done|]. intros i. by rewrite decide_False by lia. }
  case_decide as Hb; [|done]. intros (Hlen & Hi)%IH. rewrite length_insert in Hlen. split; [done|]. intros i. rewrite Hi.
  destruct (decide (i = base + column)) as [->|Hne].
  - rewrite decide_False, decide_True by lia. rewrite list_lookup_insert_eq by lia. by replace (base + column - base - column) with 0 by lia.
  - rewrite list_lookup_insert_ne by lia. destruct (decide (base + (column + 1) ≤ i < base + (column + 1) + length pages)).
    + rewrite decide_True by lia. by replace (i - base - column) with (S (i - base - (column + 1))) by lia.
    + by rewrite decide_False by lia.
Qed.

Lemma write_rows_lookup stride rows table' : Forall (λ row, length (row_block_table row) ≤ stride) rows →
  ∀ table base, write_rows table stride base rows = Some table' → length table' = length table ∧
  (∀ i, i < base * stride → table' !! i = table !! i) ∧
  ∀ i row a page, rows !! i = Some row → row_block_table row !! a = Some page → table' !! ((base + i) * stride + a) = Some page.
Proof.
  induction 1 as [|row rows Hrow Hrows IH]; intros table base; simpl; [by intros [= <-]|].
  intros (table1 & H1 & (Hlen & Hold & Hnew)%IH)%bind_Some. apply write_row_lookup in H1 as [Hlen1 Hi1].
  split; [lia|]. split.
  - intros i Hi. rewrite Hold, Hi1 by lia. by rewrite decide_False by lia.
  - intros [|i] row' a page Hrow' Ha; simpl in Hrow'.
    + injection Hrow' as <-. pose proof (lookup_lt_Some _ _ _ Ha). rewrite Hold, Hi1 by lia.
      rewrite decide_True by lia. rewrite <- Ha. f_equal. lia.
    + rewrite <- (Hnew i row' a page) by done. f_equal. lia.
Qed.

(** Row [i] of the table starts with the block table of row [i]. *)
Lemma block_table_lookup alloc b table stride : flattened_block_table alloc b = Ok (table, stride) →
  length table = batch_size b * stride ∧
  ∀ i row a page, batch_sequences b !! i = Some row → row_block_table row !! a = Some page →
    a < stride ∧ table !! (i * stride + a) = Some page.
Proof.
  unfold flattened_block_table. case_decide; [done|].
  destruct (usize_mul _ _) as [n|] eqn:En; simpl; [|done]. apply usize_mul_Some in En as [-> _].
  destruct (alloc _); [|done]. destruct (write_rows _ _ _ _) as [table'|] eqn:Ew; [|done]. intros [= <- <-].
  assert (Forall (λ row, length (row_block_table row) ≤ max_list (map (λ row, length (row_block_table row)) (batch_sequences b))) (batch_sequences b)) as Hall.
  { apply Forall_forall. intros row Hin. eapply (max_list_elem_of_le (length (row_block_table row))). by apply (list_elem_of_fmap_2 (λ row, length (row_block_table row))). }
  apply write_rows_lookup in Ew as (Hlen & _ & Hrow); [|done]. rewrite length_replicate in Hlen. split; [done|].
  intros i row a page Hi Ha. split; [|by apply (Hrow i row a page)].
  rewrite Forall_forall in Hall. specialize (Hall row ltac:(by eapply list_elem_of_lookup_2)). simpl in Hall. apply lookup_lt_Some in Ha. lia.
Qed.

(** ** The checks *)
Lemma checked_rows_ok vocab sequence rows : ∀ starts contexts, checked_rows vocab sequence rows = Ok (starts, contexts) →
  starts = row_start_position <$> rows ∧ contexts = row_context_length <$> rows ∧
  Forall (λ row, length (row_token_ids row) = sequence) rows ∧
  Forall (λ row, Forall (λ t, 0 ≤ t < Z.of_nat vocab)%Z (row_token_ids row)) rows.
Proof.
  induction rows as [|row rows IH]; intros starts contexts; simpl; [by intros [= <- <-]|].
  case_decide as Hlen; [done|]. destruct (List.find _ _) eqn:Ef; [done|]. unfold to_u32.
  case_decide; [|done]. simpl. case_decide; [|done]. simpl.
  destruct (checked_rows vocab sequence rows) as [[starts' contexts']|e|p]; [|done..]. simpl. intros [= <- <-].
  destruct (IH _ _ eq_refl) as (-> & -> & Hl & Ht). split_and!; [done..| |]; (constructor; [|done]); [lia|].
  apply Forall_forall. intros t Hin%list_elem_of_In. pose proof (find_none _ _ Ef t Hin) as Ho.
  unfold outside_vocabulary in Ho. apply orb_false_iff in Ho as [H1%bool_decide_eq_false H2%bool_decide_eq_false]. lia.
Qed.

Lemma upload_ok table stride starts contexts bs sequence b : upload table stride starts contexts bs sequence = Ok b →
  ∃ max_context, b = mk_attention_batch table starts contexts (length starts) sequence stride bs max_context.
Proof.
  unfold upload. case_decide; [done|]. case_decide; [done|].
  destruct (upload_rows _ _ _ _ _ _ _) as [mx|e|p]; [|done..]. intros [= <-]. by exists mx.
Qed.

(** ** Static rotary frequencies *)
Section Static.
Context `{Powers}.

Lemma prepare_layers_static c states row : Forall (λ state, state = None) states → ∀ layer,
  prepare_layers c layer states row = Ok ((λ _, []) <$> states, (λ _, None) <$> states).
Proof.
  induction 1 as [|state states -> _ IH]; intros layer; [done|]. cbn [prepare_layers]. by rewrite IH.
Qed.

Lemma prepare_rows_static c states rows : Forall (λ state, state = None) states →
  ∃ pending, prepare_rows c states rows = Ok (pending, (λ _, (λ _, None) <$> states) <$> rows).
Proof.
  intros Hst. induction rows as [|row rows [pending IH]]; [by exists []|]. cbn [prepare_rows].
  rewrite prepare_layers_static by done. simpl. rewrite IH. simpl. by eexists.
Qed.

Lemma layer_tables_static (states : list (option RotaryState)) (rows : list ScheduledSequence) layer :
  layer_tables ((λ _, (λ _, None) <$> states) <$> rows) layer = [].
Proof.
  unfold layer_tables. induction rows as [|row rows IH]; [done|]. simpl.
  replace (mjoin _) with (@None (nat * list nat)); [done|]. rewrite list_lookup_fmap. by destruct (states !! layer).
Qed.

Lemma prepare_static states batch c : Forall (λ state, state = None) states →
  prepare states batch c = (Ok (replicate (length states) None), c).
Proof.
  intros Hst. unfold prepare, mbind', mget, mlift. cbn [fst snd].
  destruct (prepare_rows_static c states (batch_sequences batch) Hst) as [pending ->]. cbn [fst snd].
  assert (existsb (λ state : option RotaryState, bool_decide (is_Some state)) states = false) as ->.
  { apply not_true_iff_false. intros (state & Hin%list_elem_of_In & Hs%bool_decide_eq_true)%existsb_exists.
    rewrite Forall_forall in Hst. rewrite (Hst _ Hin) in Hs. by destruct Hs. }
  unfold mret. do 2 f_equal. apply list_eq. intros i. rewrite list_lookup_fmap.
  destruct (decide (i < length states)) as [Hi|Hi].
  - rewrite lookup_seq_lt by done. simpl. rewrite layer_tables_static. symmetry. by apply lookup_replicate_2.
  - rewrite !lookup_ge_None_2; [done|..]; rewrite ?length_replicate, ?length_seq; lia.
Qed.
End Static.

(** ** The memory a forward reads and writes *)
Notation Slots := (N → nat → option (list Z)).

(** The page of a position of row [i]. *)
Definition page_at (b : PagedAttentionBatch) (i position : nat) : option N :=
  if decide (position / pb_block_size b < pb_table_stride b)
  then pb_block_table b !! (i * pb_table_stride b + position / pb_block_size b) else None.

(** Slot [o] of page [p] is read for position [j] of row [i], or written by its new
    token [j]. *)
Definition old_slot (b : PagedAttentionBatch) (i j : nat) (p : N) (o : nat) : Prop :=
  ∃ start, pb_start_positions b !! i = Some start ∧ j < start ∧ page_at b i j = Some p ∧ j mod pb_block_size b = o.
Definition new_slot (b : PagedAttentionBatch) (i j : nat) (p : N) (o : nat) : Prop :=
  ∃ start, pb_start_positions b !! i = Some start ∧ j < pb_sequence b ∧ page_at b i (start + j) = Some p ∧
    (start + j) mod pb_block_size b = o.

(** The cached positions of row [i] hold the tokens [hist i] starts with, and no new
    slot is used twice or read. *)
Record batch_ready (mem : Slots) (b : PagedAttentionBatch) (hist : nat → list Z) : Prop := {
  rd_length : ∀ i start, pb_start_positions b !! i = Some start → start ≤ length (hist i);
  rd_cached : ∀ i start j, pb_start_positions b !! i = Some start → j < start →
    ∃ p, page_at b i j = Some p ∧ mem p (j mod pb_block_size b) = Some (take (S j) (hist i));
  rd_room : ∀ i start j, pb_start_positions b !! i = Some start → j < pb_sequence b → is_Some (page_at b i (start + j));
  rd_once : ∀ i i' j j' p o, new_slot b i j p o → new_slot b i' j' p o → i = i' ∧ j = j';
  rd_apart : ∀ i i' j j' p o, new_slot b i j p o → ¬ old_slot b i' j' p o
}.

(** The tokens of row [i] up to its new token [j]. *)
Definition upto (b : PagedAttentionBatch) (hist : nat → list Z) (tokens : list Z) (i j : nat) : list Z :=
  take (default 0 (pb_start_positions b !! i)) (hist i) ++ take (S j) (drop (i * pb_sequence b) tokens).

(** The positions a forward returns logits for. *)
Definition kept_positions (b : PagedAttentionBatch) (all_positions : bool) : nat := if all_positions then pb_sequence b else 1.

Record batch_done (mem mem' : Slots) (b : PagedAttentionBatch) (hist : nat → list Z) (tokens : list Z) : Prop := {
  dn_written : ∀ i j p o, new_slot b i j p o → mem' p o = Some (upto b hist tokens i j);
  dn_frame : ∀ p o, (∀ i j, ¬ new_slot b i j p o) → mem' p o = mem p o
}.

(** [L] gives the logits after a history; its rows have a largest value. *)
Class PagedModelLaws `{PagedModel} (L : list Z → list f32) := {
  slots : PagedPools → Slots;
  tensor_rows : PagedTensor → list (list f32);
  matrix_rows : PagedMatrix → list (list f32);
  law_static : Forall (λ state, state = None) paged_rotary_states;
  law_width history : length (L history) = geometry_vocab_size model_geometry;
  law_numbers history : ∃ token, row_greedy_token (L history) 0 = Ok token;
  law_forward tokens pools b all_positions tables out pools' hist :
    forward_layers tokens pools b all_positions tables = (Some out, pools') →
    length tokens = pb_batch b * pb_sequence b → length (pb_start_positions b) = pb_batch b → 0 < pb_sequence b →
    batch_ready (slots pools) b hist →
    batch_done (slots pools) (slots pools') b hist tokens ∧
    tensor_shape out = (pb_batch b, kept_positions b all_positions, geometry_vocab_size model_geometry) ∧
    tensor_rows out = mjoin ((λ i, (λ j, L (upto b hist tokens i j)) <$>
      (if all_positions then seq 0 (pb_sequence b) else [pb_sequence b - 1])) <$> seq 0 (pb_batch b));
  law_reshape t rows columns m : reshape_rows t rows columns = Some m →
    rows = (tensor_shape t).1.1 * (tensor_shape t).1.2 → columns = (tensor_shape t).2 →
    matrix_shape m = (rows, columns) ∧ matrix_rows m = tensor_rows t;
  law_argmax m indices : argmax_rows m = inr indices → length indices = length (matrix_rows m) ∧
    ∀ i row token, matrix_rows m !! i = Some row → row_greedy_token row 0 = Ok token → indices !! i = Some token;
  law_values m data values : cast_rows m = inr data → to_vec data = inr values → values = concat (matrix_rows m)
}.

(** ** A forward of the batch in flight *)
Section Execute.
Context `{DefaultHasher} `{PagedModelLaws}.
Context {TokenSampler : Type} (bs : nat) (U : list Z → Prop) (HU : collision_free bs U).
Notation Sched := (@ContinuousBatchScheduler TokenSampler).
Context (h : RequestId → list Z) (s : Sched) (b : ScheduledBatch) (mem : Slots).
Context (Hwf : sched_wf s) (Hflight : in_flight s = Some b) (Hm : mapped bs U mem h s).
Notation rows := (batch_sequences b).
Notation n := (next_n b).

(** The metadata of the batch. *)
Context (table : list N) (stride : nat) (mx : nat) (alloc : nat → bool).
Context (Htable : flattened_block_table alloc b = Ok (table, stride)).
Notation meta := (mk_attention_batch table (row_start_position <$> rows) (row_context_length <$> rows) (length rows) n stride bs mx).
Notation hist := (λ i, default [] ((λ row, h (row_request_id row)) <$> rows !! i)).

Lemma bs_positive : 0 < bs.
Proof. exact (bs_pos bs U mem h s Hwf Hm). Qed.

(** A position the row has a page for. *)
Lemma page_at_row i row position : rows !! i = Some row → position / bs < length (row_block_table row) →
  page_at meta i position = row_block_table row !! (position / bs).
Proof.
  intros Hi Hp. unfold page_at. simpl. destruct (lookup_lt_is_Some_2 _ _ Hp) as [p Hpage].
  destruct (proj2 (block_table_lookup _ _ _ _ Htable) i row _ p Hi Hpage) as [Hs Ht].
  rewrite decide_True by done. by rewrite Ht, Hpage.
Qed.

Lemma row_has_page i row position : rows !! i = Some row → position < row_start_position row + n →
  position / bs < length (row_block_table row).
Proof.
  intros Hi Hp. destruct (flight_row s b row Hwf Hflight) as (r & q & Hri); [by eapply list_elem_of_lookup_2|].
  rewrite (ri_pages _ _ _ _ _ Hri), (size_bs bs U mem h s Hm). pose proof bs_positive.
  apply div_ceil_lt; [done|]. pose proof (Nat.div_mod_eq position bs). nia.
Qed.

Lemma start_of i start : (row_start_position <$> rows) !! i = Some start → ∃ row, rows !! i = Some row ∧ start = row_start_position row.
Proof. rewrite list_lookup_fmap. intros (row & Hi & ->)%fmap_Some. by exists row. Qed.

Lemma new_slot_row i j p o : new_slot meta i j p o ↔ ∃ row, rows !! i = Some row ∧ row_slot bs row n p o j.
Proof.
  unfold new_slot, row_slot. simpl. split.
  - intros (start & (row & Hi & ->)%start_of & Hj & Hp & Ho). exists row. split; [done|].
    split; [done|]. split; [|done]. rewrite <- (page_at_row i row) by (first [done|eapply row_has_page; [done|lia]]). done.
  - intros (row & Hi & Hj & Hp & Ho). exists (row_start_position row). rewrite list_lookup_fmap, Hi. split_and!; [done..| |done].
    rewrite (page_at_row i row) by (first [done|eapply row_has_page; [done|lia]]). done.
Qed.

(** The batch in flight is ready for a forward. *)
Lemma flight_ready : batch_ready mem meta hist.
Proof.
  assert (∀ i row, rows !! i = Some row → ∃ q, sequences (kv_cache s) !! row_request_id row = Some q ∧
    committed_tokens q = row_start_position row ∧ row_block_table row `prefix_of` pages q ∧
    sequence_filled bs mem h (row_request_id row) q) as Hrow.
  { intros i row Hi. destruct (flight_row s b row Hwf Hflight) as (r & q & [_ Hq Hc Hpre _ _ _ _ _ _ _]); [by eapply list_elem_of_lookup_2|].
    exists q. split_and!; [done..|]. by apply (fi_sequence _ _ _ _ _ (proj1 (proj2 (mp_sound _ _ _ _ _ Hm)))). }
  split.
  - intros i start (row & Hi & ->)%start_of. destruct (Hrow i row Hi) as (q & _ & Hc & _ & [Hl _ _ _]). rewrite Hi. simpl. lia.
  - intros i start j (row & Hi & ->)%start_of Hj. destruct (Hrow i row Hi) as (q & _ & Hc & Hpre & [_ Hin _ _]).
    destruct (Hin j) as (p & Hp & Hslot); [lia|]. exists p. rewrite Hi. simpl. split; [|done].
    assert (j / bs < length (row_block_table row)) as Hlt by (eapply row_has_page; [done|lia]).
    rewrite (page_at_row i row) by done. destruct (lookup_lt_is_Some_2 _ _ Hlt) as [p' Hp'].
    rewrite Hp'. pose proof (prefix_lookup_Some _ _ _ _ Hp' Hpre). congruence.
  - intros i start j (row & Hi & ->)%start_of Hj. simpl in Hj.
    assert ((row_start_position row + j) / bs < length (row_block_table row)) as Hlt by (eapply row_has_page; [done|lia]).
    rewrite (page_at_row i row) by done. by apply lookup_lt_is_Some_2.
  - intros i i' j j' p o (row & Hi & Hs)%new_slot_row (row' & Hi' & Hs')%new_slot_row.
    destruct (written_once bs U mem h s b Hwf Hflight Hm row row' p o j j') as [<- <-]; [by eapply list_elem_of_lookup_2..|done|done|].
    split; [|done]. pose proof (sw_flight _ Hwf) as Hfl. rewrite Hflight in Hfl. destruct Hfl as ([Hnd _ _ _ _] & _).
    eapply (NoDup_lookup (map row_request_id rows) i i' (row_request_id row)); [done|..]; rewrite list_lookup_fmap; [by rewrite Hi|by rewrite Hi'].
  - intros i i' j j' p o (row & Hi & Hs)%new_slot_row (start & (row' & Hi' & ->)%start_of & Hj' & Hp & Ho). simpl in *.
    rewrite (page_at_row i' row') in Hp by (first [done|eapply row_has_page; [done|lia]]).
    destruct (Hrow i' row' Hi') as (q & Hq & Hc & Hpre & _).
    eapply (committed_untouched bs U mem h s b Hwf Hflight Hm _ q j' p row j Hq); [lia|by eapply prefix_lookup_Some|by eapply list_elem_of_lookup_2|].
    by rewrite Ho.
Qed.

(** The tokens of a row up to its new token [j], and the logits after them. *)
Definition row_upto (row : ScheduledSequence) (j : nat) : list Z :=
  take (row_start_position row) (h (row_request_id row)) ++ take (S j) (row_token_ids row).
Definition row_logits (all_positions : bool) (row : ScheduledSequence) : list (list f32) :=
  (λ j, L (row_upto row j)) <$> (if all_positions then seq 0 n else [n - 1]).

Lemma row_width row : row ∈ rows → length (row_token_ids row) = n ∧ 0 < n.
Proof.
  intros Hin. destruct (flight_row s b row Hwf Hflight Hin) as (r & q & [_ _ _ _ _ _ Hw Hn _ _ _]). done.
Qed.

Lemma upto_row i row j : rows !! i = Some row → j < n → upto meta hist (token_matrix b) i j = row_upto row j.
Proof.
  intros Hi Hj. unfold upto, row_upto. simpl. rewrite list_lookup_fmap, Hi. simpl. f_equal.
  assert (Forall (λ l, length l = n) (map row_token_ids rows)) as Hall.
  { apply Forall_forall. intros l (row' & -> & Hin)%list_elem_of_fmap. by apply row_width. }
  destruct (rows_lookup n (map row_token_ids rows) i (row_token_ids row) Hall) as [Hr _]; [by rewrite list_lookup_fmap, Hi|].
  fold (token_matrix b) in Hr. rewrite <- Hr, take_take. f_equal. lia.
Qed.

Lemma done_forwarded mem' : batch_done mem mem' meta hist (token_matrix b) → forwarded bs mem mem' h n rows.
Proof.
  intros [Hw Hf]. split.
  - intros row p o j [i Hi]%list_elem_of_lookup Hs. rewrite (Hw i j p o) by (apply new_slot_row; by exists row).
    by rewrite (upto_row i row j) by (done || apply Hs).
  - intros p o Hn. apply Hf. intros i j (row & Hi & Hs)%new_slot_row. apply (Hn row j); [by eapply list_elem_of_lookup_2|done].
Qed.

Lemma done_logits (all_positions : bool) : rows ≠ [] →
  mjoin ((λ i, (λ j, L (upto meta hist (token_matrix b) i j)) <$> (if all_positions then seq 0 n else [n - 1])) <$> seq 0 (length rows)) =
  mjoin (row_logits all_positions <$> rows).
Proof.
  intros Hne. f_equal. apply list_eq. intros i. rewrite !list_lookup_fmap.
  destruct (rows !! i) as [row|] eqn:Hi; simpl.
  - rewrite lookup_seq_lt by (by eapply lookup_lt_Some). simpl. unfold row_logits. f_equal. apply list_fmap_ext. intros k j Hk. f_equal.
    apply upto_row; [done|]. destruct (row_width row) as [_ Hn]; [by eapply list_elem_of_lookup_2|].
    destruct all_positions; [apply lookup_seq in Hk; lia|]. apply list_elem_of_lookup_2, list_elem_of_singleton in Hk. lia.
  - rewrite lookup_seq_ge by (by apply lookup_ge_None). done.
Qed.
End Execute.

Lemma execute_spec `{DefaultHasher} `{PagedModelLaws} {TokenSampler : Type} bs U h (s : @ContinuousBatchScheduler TokenSampler) b
    (all_positions : bool) (e : PagedLlamaEngine) :
  block_size (en_kv e) = bs → en_geometry e = model_geometry → sched_wf s → in_flight s = Some b →
  mapped bs U (slots (en_pools e)) h s →
  match execute_positions b all_positions e with
  | (Ok logits, e') => en_kv e' = en_kv e ∧ en_geometry e' = en_geometry e ∧
      forwarded bs (slots (en_pools e)) (slots (en_pools e')) h (next_n b) (batch_sequences b) ∧
      tensor_shape logits = (batch_size b, if all_positions then next_n b else 1, geometry_vocab_size model_geometry) ∧
      tensor_rows logits = mjoin (row_logits (L:=L) h b all_positions <$> batch_sequences b)
  | (Err _, e') => e' = e
  | (Panic _, _) => True
  end.
Proof.
  intros Hbs Hg Hwf Hb Hm. unfold execute_positions. case_decide as Hempty; [done|].
  unfold mbind' at 1, mget at 1. unfold mbind' at 1, mlift at 1.
  destruct (checked_rows _ _ _) as [[starts contexts]|x|p] eqn:Ec; [|done..].
  unfold mbind' at 1, mlift at 1. destruct (flattened_block_table _ _) as [[table stride]|x|p] eqn:Et; [|done..].
  cbn [fst snd]. destruct (existsb _ _); [done|]. unfold mbind' at 1. case_decide; [done|]. unfold mret at 1.
  unfold mbind' at 1, mlift at 1. destruct (upload _ _ _ _ _ _) as [meta|x|p] eqn:Eu; [|done..].
  unfold mbind' at 1, on_rotary at 1. rewrite prepare_static by apply law_static. cbn [fst snd].
  unfold mbind' at 1, mget at 1. unfold mbind' at 1, mmodify at 1. cbn [fst snd].
  replace (en_pools (set_en_rotary (en_rotary e) e)) with (en_pools e) by done. unfold forward_paged_ruda.
  case_decide as Ha; [|done].
  apply checked_rows_ok in Ec as (-> & -> & Hl & _). apply upload_ok in Eu as [mx ->]. rewrite length_fmap, Hbs in *.
  destruct (forward_layers _ _ _ _ _) as [[logits|] pools'] eqn:Ef; [|done]. cbn [fst snd mexpect]. unfold mret.
  pose proof (flight_ready bs U h s b (slots (en_pools e)) Hwf Hb Hm table stride mx table_alloc Et) as Hready.
  apply Decidable.not_or in Hempty as [Hrows Hn]. unfold batch_size in Hrows.
  destruct (law_forward _ _ _ _ _ _ _ _ Ef (proj1 (proj2 Ha)) ltac:(simpl; by rewrite length_fmap) ltac:(simpl; lia) Hready) as (Hd & Hs & Hr).
  split_and!; [done|done| |exact Hs|].
  - eapply done_forwarded; [exact Hwf|exact Hb|exact Hm|exact Et|exact Hd].
  - rewrite Hr. eapply done_logits; [exact Hwf|exact Hb|by destruct (batch_sequences b)].
Qed.
