(* ===== verification/PagedRunner.v ===== *)
(** * The continuous batch runner

    src/src/paged_engine.rs, [ContinuousBatchRunner]: the scheduler and the paged
    engine together.  A step schedules a batch, runs it, selects and commits its
    tokens; a batch that fails is rolled back on both sides before the error is
    returned. *)
From S2P Require Import Prelude Float PagedKv GenerationControl Sampling ContinuousBatch BatchSampling Rope PagedRotary PagedEngine.
Open Scope nat_scope.
Open Scope list_scope.
Open Scope m_scope.

(** [f64::ln] *)
Class Logarithm := ln : f64 → f64.

Section Runner.
Context `{DefaultHasher} `{Exponential, Randomness, Logarithm} `{PagedModel}.
Notation Sched := (@ContinuousBatchScheduler TokenSampler).

Record BatchStepReport := mk_report {
  sr_batch_id : N;
  sr_kind : ScheduledBatchKind;
  sr_rows : nat;
  sr_processed_tokens : nat;
  sr_selected : list (RequestId * Z)
}.

Record ContinuousBatchRunner := mk_runner {
  ru_scheduler : Sched;
  ru_engine : PagedLlamaEngine;
  selected_log_probs : list (RequestId * f32);
  appended_ranges : list (RequestId * nat * nat)
}.
Definition set_ru_scheduler x (r : ContinuousBatchRunner) : ContinuousBatchRunner := mk_runner x (ru_engine r) (selected_log_probs r) (appended_ranges r).
Definition set_ru_engine x (r : ContinuousBatchRunner) : ContinuousBatchRunner := mk_runner (ru_scheduler r) x (selected_log_probs r) (appended_ranges r).
Definition set_log_probs x (r : ContinuousBatchRunner) : ContinuousBatchRunner := mk_runner (ru_scheduler r) (ru_engine r) x (appended_ranges r).
Definition set_ranges x (r : ContinuousBatchRunner) : ContinuousBatchRunner := mk_runner (ru_scheduler r) (ru_engine r) (selected_log_probs r) x.
Notation RM := (M ContinuousBatchRunner GenerationError).

Definition scheduling {A} (m : M Sched ContinuousBatchError A) : RM A := λ r,
  let out := m (ru_scheduler r) in (out.1, set_ru_scheduler out.2 r).
Definition running {A} (m : M PagedLlamaEngine GenerationError A) : RM A := λ r,
  let out := m (ru_engine r) in (out.1, set_ru_engine out.2 r).

Definition new_runner (batching : ContinuousBatchConfig) (kv : PagedKvCacheConfig) : Gen ContinuousBatchRunner :=
  do? engine := new_engine kv in
  do? scheduler := new_paged batching kv in
  Ok (mk_runner scheduler engine [] []).

(** ** Requests *)
Definition validate_prompt (prompt eos : list Z) : RM unit :=
  let! r := mget in
  let vocabulary := geometry_vocab_size (en_geometry (ru_engine r)) in
  match List.find (outside_vocabulary vocabulary) (prompt ++ eos) with
  | Some token => mthrow (token_error vocabulary token)
  | None => mret tt
  end.

Definition runner_submit (prompt : list Z) (g : GreedyGenerationConfig) : RM RequestId :=
  validate_prompt prompt (eos_token_ids g) ;;; scheduling (submit prompt g).
Definition runner_submit_sampled (prompt : list Z) (g : SamplingGenerationConfig) : RM RequestId :=
  validate_prompt prompt (sg_eos_token_ids g) ;;; scheduling (submit_sampled prompt g).
Definition runner_submit_with_options (prompt : list Z) (g : SamplingGenerationConfig) (options : SamplingOptions) :
    RM RequestId :=
  validate_prompt prompt (sg_eos_token_ids g) ;;; scheduling (submit_sampled_with_options prompt g options).

Definition runner_set_prefix_caching (enabled : bool) : RM unit :=
  scheduling (scheduler_set_prefix_caching enabled).
Definition runner_set_speculative (config : option SpeculativeConfig) : RM unit :=
  scheduling (set_speculative_decoding config).

Definition runner_cancel (id : RequestId) : RM (list Z) :=
  let! request := scheduling (cancel id) in
  running (engine_forget id) ;;;
  mret (match request with Some request => cg_generated_token_ids request | None => [] end).

Definition runner_pop_finished : RM (option FinishedGeneration) := scheduling pop_finished.
Definition runner_snapshot (r : ContinuousBatchRunner) : PagedBatchSnapshot := paged_snapshot (ru_scheduler r).

(** ** Selecting a batch's tokens *)

(** [pair_rows] *)
Definition pair_rows (batch : ScheduledBatch) (tokens : list Z) : list (RequestId * Z) :=
  omap (λ e : ScheduledSequence * Z, if decide (0 ≤ e.2)%Z then Some (row_request_id e.1, e.2) else None)
    (zip (batch_sequences batch) tokens).

(** [read_indices], after the argmax. *)
Fixpoint index_tokens (indices : list Z) : Gen (list Z) :=
  match indices with
  | [] => Ok []
  | index :: indices =>
      if decide (- (i32_max + 1) ≤ index ≤ i32_max)%Z then
        do? rest := index_tokens indices in Ok (index :: rest)
      else Err "argmax index exceeds i32"
  end.
Definition read_indices (logits : PagedMatrix) : Gen (list Z) :=
  do? indices := map_err (λ e, "cannot read paged argmax: " +:+ e) (lift (argmax_rows logits)) in index_tokens indices.

Definition read_values (logits : PagedMatrix) : Gen (list f32) :=
  do? data := map_err (λ e, "cannot read paged logits: " +:+ e) (lift (cast_rows logits)) in
  map_err (λ e, "cannot decode paged logits: " +:+ e) (lift (to_vec data)).

(** [chunks_exact] *)
Fixpoint chunks_exact {A} (fuel size : nat) (l : list A) : list (list A) :=
  match fuel with
  | O => []
  | S fuel => if decide (size ≤ length l) then take size l :: chunks_exact fuel size (drop size l) else []
  end.

(** The log probability of a token at temperature one. *)
Definition log_prob (logits : list f32) (token : Z) : Gen f32 :=
  let maximum := as_f64 (fold_left float_max logits neg_infinity) in
  let total := f64_sum ((λ value, exp (f64_sub (as_f64 value) maximum)) <$> logits) in
  do? value := expect OutOfBounds (logits !! Z.to_nat token) in
  Ok (as_f32 (f64_sub (f64_sub (as_f64 value) maximum) (ln total))).

Fixpoint log_probs (entries : list (ScheduledSequence * Z * list f32)) : Gen (list (RequestId * f32)) :=
  match entries with
  | [] => Ok []
  | (row, token, logits) :: entries =>
      if decide (0 ≤ token)%Z then
        do? value := log_prob logits token in
        do? rest := log_probs entries in
        Ok ((row_request_id row, value) :: rest)
      else log_probs entries
  end.

Definition run_verify (batch : ScheduledBatch) : RM (list (RequestId * Z)) :=
  let! logits := running (execute_positions batch true) in
  let '(rows, width, vocabulary) := tensor_shape logits in
  if decide (rows ≠ batch_size batch ∨ width ≠ next_n batch) then mthrow "paged verify returned the wrong shape"
  else
    let! matrix := mexpect Foreign (reshape_rows logits (rows * width) vocabulary) in
    let! argmax := mlift (read_indices matrix) in
    let! appended := scheduling (complete_verify_batch (batch_id batch) argmax) in
    mret (mjoin ((λ e : RequestId * list Z, pair e.1 <$> e.2) <$> appended)).

Definition run_selected (batch : ScheduledBatch) (logits : PagedMatrix) : RM (list (RequestId * Z) * list (RequestId * f32)) :=
  let vocabulary := (matrix_shape logits).2 in
  let! values := mlift (read_values logits) in
  let! r := mget in
  let! selection := mlift (select_batch_tokens (ru_scheduler r) (batch_id batch) values vocabulary) in
  let! tokens := scheduling (complete_selected_batch selection) in
  let! probs := mlift (log_probs (zip (zip (batch_sequences batch) tokens) (chunks_exact (length values) vocabulary values))) in
  mret (pair_rows batch tokens, probs).

Definition run_batch (batch : ScheduledBatch) : RM (list (RequestId * Z) * list (RequestId * f32)) :=
  if decide (batch_kind batch = Verify) then
    let! selected := run_verify batch in mret (selected, [])
  else
    let! logits := running (engine_execute batch) in
    if decide ((matrix_shape logits).1 ≠ batch_size batch) then mthrow "paged forward returned the wrong row count"
    else
      let! r := mget in
      let! sampled := mlift (batch_requires_logits (ru_scheduler r) (batch_id batch)) in
      if sampled : bool then run_selected batch logits
      else
        let! argmax := mlift (read_indices logits) in
        let! tokens := scheduling (complete_greedy_batch (batch_id batch) argmax) in
        mret (pair_rows batch tokens, []).

(** ** A step *)

(** The input tokens each row committed. *)
Definition commit_counts (batch : ScheduledBatch) (selected : list (RequestId * Z)) : list nat :=
  (λ row, if decide (batch_kind batch = Verify)
          then length (filter (λ e : RequestId * Z, e.1 = row_request_id row) selected)
          else length (row_token_ids row)) <$> batch_sequences batch.

Definition range_of (entry : ScheduledSequence * nat) : RM (RequestId * nat * nat) :=
  let! finish := mexpect Overflow (usize_add (row_start_position entry.1) entry.2) in
  mret (row_request_id entry.1, row_start_position entry.1, finish).

(** A request that is no longer active is forgotten. *)
Definition forget_finished (row : ScheduledSequence) : RM unit :=
  let! r := mget in
  match generated_tokens (ru_scheduler r) (row_request_id row) with
  | None => running (engine_forget (row_request_id row))
  | Some _ => mret tt
  end.

Definition roll_back {A} (batch : ScheduledBatch) (error : GenerationError) : RM A :=
  running (engine_fail (batch_id batch)) ;;;
  scheduling (fail_batch (batch_id batch)) ;;;
  mthrow error.

Definition commit_step (batch : ScheduledBatch) (selected : list (RequestId * Z)) (probs : list (RequestId * f32)) :
    RM BatchStepReport :=
  let counts := commit_counts batch selected in
  running (engine_commit batch counts) ;;;
  mmodify (set_log_probs probs) ;;;
  let! ranges := mmap (zip (batch_sequences batch) counts) range_of in
  mmodify (set_ranges ranges) ;;;
  mfor (batch_sequences batch) forget_finished ;;;
  let! processed := mexpect Overflow (usize_mul (batch_size batch) (next_n batch)) in
  mret (mk_report (batch_id batch) (batch_kind batch) (batch_size batch) processed selected).

Definition runner_step : RM (option BatchStepReport) :=
  mmodify (set_log_probs []) ;;;
  mmodify (set_ranges []) ;;;
  let! scheduled := scheduling schedule in
  match scheduled with
  | None => mret None
  | Some batch =>
      let! out := mcatch (run_batch batch) (roll_back batch) in
      let! report := commit_step batch out.1 out.2 in
      mret (Some report)
  end.

(** ** Running to the end *)

(** [while let Some(done) = pop_finished()] *)
Fixpoint drain_finished (fuel : nat) (finished : list FinishedGeneration) : RM (list FinishedGeneration) :=
  match fuel with
  | O => mpanic OutOfFuel
  | S fuel =>
      let! f := runner_pop_finished in
      match f with
      | Some f => drain_finished fuel (finished ++ [f])
      | None => mret finished
      end
  end.

Definition drain (finished : list FinishedGeneration) : RM (list FinishedGeneration) :=
  let! r := mget in drain_finished (S (length (ContinuousBatch.finished (ru_scheduler r)))) finished.

Definition stalled (b : ContinuousBatchSnapshot) : GenerationError :=
  "continuous batch stalled: " +:+ pretty (N.of_nat (bs_pending_requests b)) +:+ " pending and " +:+
  pretty (N.of_nat (bs_active_requests b)) +:+ " active requests, " +:+ pretty (N.of_nat (bs_free_kv_pages b)) +:+
  " of " +:+ pretty (N.of_nat (bs_total_kv_pages b)) +:+ " KV pages free".

Fixpoint run_until_idle (fuel : nat) (finished : list FinishedGeneration) : RM (list FinishedGeneration) :=
  match fuel with
  | O => mpanic OutOfFuel
  | S fuel =>
      let! progressed := runner_step in
      let! finished := drain finished in
      match progressed with
      | Some _ => run_until_idle fuel finished
      | None =>
          let! r := mget in
          let b := batch_snapshot (ru_scheduler r) in
          if decide (bs_pending_requests b = 0 ∧ bs_active_requests b = 0) then mret finished
          else mthrow (stalled b)
      end
  end.
End Runner.
