(* ===== verification/PagedRunnerSpec.v ===== *)
(** * What the paged runner generates

    The scheduler, the page tables and the physical memory together: every generation
    the runner finishes has the tokens that decoding its prompt alone, with its own
    sampler, would give.  [runner_ok] is the invariant that ties the requests to what
    was submitted, and the slots of their pages to their histories. *)
From S2P Require Import Prelude Float PagedKv PagedKvPool PagedKvInv PagedKvOps PagedContents PagedMapped.
From S2P Require Import ContinuousBatch ContinuousBatchInv ContinuousBatchSchedule ContinuousBatchLoop.
From S2P Require Import ContinuousBatchOps ContinuousBatchVerify ContinuousBatchCalls ContinuousBatchSpec.
From S2P Require Import ContinuousBatchModes GenerationControl Sampling SamplingSpec BatchSampling.
From S2P Require Import BatchDecoding BatchSamplingSpec Safetensors Rope PagedRotary PagedEngine.
From S2P Require Import PagedEngineSpec PagedRunner.
Open Scope nat_scope.
Open Scope list_scope.
Open Scope m_scope.

(** ** The scheduler under a batch

    Whatever the logits, a completion that answers leaves the scheduler well-formed, and
    one that refuses leaves it alone. *)
Section Completions.
Context `{DefaultHasher} `{Exponential, Randomness, Logarithm}.
Notation Sched := (@ContinuousBatchScheduler TokenSampler).
Context (s : Sched) (b : ScheduledBatch) (Hwf : sched_wf s) (Hflight : in_flight s = Some b).

Lemma greedy_answers argmax x s' : batch_kind b ≠ Verify → complete_greedy_batch (batch_id b) argmax s = (x, s') →
  match x with Ok _ => sched_wf s' | Err _ => s' = s | Panic _ => True end.
Proof.
  intros Hk. unfold complete_greedy_batch. unfold mbind' at 1, mget at 1. unfold mbind' at 1, mlift at 1.
  destruct (in_flight_batch _ _) as [b'|e|p]; [|by intros [= <- <-]..]. case_decide; [by intros [= <- <-]|]. cbv zeta.
  unfold mbind' at 1, mlift at 1. destruct (batch_requires_logits _ _) as [[|]|y|p]; try by intros [= <- <-].
  set (chosen := zip_with _ _ _). pose proof (complete_batch_wp (batch_id b) chosen s Hwf ltac:(intros b1 Hb1; congruence)) as Hw.
  unfold wp in Hw. unfold mbind'. destruct (complete_batch _ _ s) as [[u|y|p] s1]; simpl in Hw; intros [= <- <-]; [by destruct Hw..|done].
Qed.

Lemma greedy_refused argmax x s' : batch_kind b ≠ Verify → complete_greedy_batch (batch_id b) argmax s = (Err x, s') → s' = s.
Proof. intros Hk Heq. exact (greedy_answers argmax (Err x) s' Hk Heq). Qed.

Lemma verify_answers argmax x s' : complete_verify_batch (batch_id b) argmax s = (x, s') →
  match x with Ok _ => sched_wf s' | Err _ => s' = s | Panic _ => True end.
Proof.
  intros Heq. pose proof (complete_verify_batch_wp (batch_id b) argmax s Hwf) as Hw. unfold wp in Hw.
  rewrite Heq in Hw. destruct x; by destruct Hw.
Qed.

Lemma verify_refused argmax x s' : complete_verify_batch (batch_id b) argmax s = (Err x, s') → s' = s.
Proof. intros Heq. exact (verify_answers argmax (Err x) s' Heq). Qed.

Lemma selected_answers values vocabulary selection x s' : batch_kind b ≠ Verify →
  select_batch_tokens s (batch_id b) values vocabulary = Ok selection → complete_selected_batch selection s = (x, s') →
  match x with Ok _ => sched_wf s' | Err _ => s' = s | Panic _ => True end.
Proof.
  intros Hk Hsel Heq. pose proof (select_batch_tokens_spec s (batch_id b) values vocabulary Hwf) as Hspec. rewrite Hsel in Hspec.
  destruct Hspec as (b' & Hb' & _ & Hid & _ & _ & Hs). simplify_eq.
  assert (NoDup (map row_request_id (batch_sequences b))) as Hnd.
  { pose proof (sw_flight _ Hwf) as Hfl. rewrite Hflight in Hfl. by destruct Hfl as ([? _ _ _ _] & _). }
  pose proof (complete_selected_wp s selection b Hwf Hflight Hk Hid (selected_nodup _ _ _ _ _ _ _ _ Hs Hnd)) as Hw.
  unfold wp in Hw. rewrite Heq in Hw. destruct x; [|by destruct Hw|done]. by destruct Hw as (_ & ? & _).
Qed.

Lemma selected_refused values vocabulary selection x s' : batch_kind b ≠ Verify →
  select_batch_tokens s (batch_id b) values vocabulary = Ok selection → complete_selected_batch selection s = (Err x, s') → s' = s.
Proof. intros Hk Hsel Heq. exact (selected_answers values vocabulary selection (Err x) s' Hk Hsel Heq). Qed.

Lemma log_probs_total entries x : log_probs entries ≠ Err x.
Proof.
  induction entries as [|[[row token] logits] entries IH]; [done|]. cbn [log_probs]. case_decide; [|done].
  unfold log_prob. destruct (logits !! Z.to_nat token); [|done]. simpl. by destruct (log_probs entries).
Qed.
End Completions.

Section Spec.
Context `{DefaultHasher} `{Exponential, Randomness, Logarithm} `{PagedModelLaws}.
Context (bs : nat) (U : list Z → Prop) (HU : collision_free bs U).
Notation Sched := (@ContinuousBatchScheduler TokenSampler).
Notation Log := (gmap N (list Z * GreedyGenerationConfig * option TokenSampler)).
Implicit Types ru : ContinuousBatchRunner.

Record runner_ok (log : Log) ru : Prop := {
  ro_wf : sched_wf (ru_scheduler ru);
  ro_told : told (model_pick L) log (ru_scheduler ru);
  ro_mapped : ∃ h, mapped bs U (slots (en_pools (ru_engine ru))) h (ru_scheduler ru);
  ro_block : block_size (en_kv (ru_engine ru)) = bs;
  ro_geometry : en_geometry (ru_engine ru) = model_geometry
}.

(** ** The logits of a batch *)
Section Logits.
Context (h : RequestId → list Z) (s : Sched) (b : ScheduledBatch) (mem : N → nat → option (list Z)).
Context (Hwf : sched_wf s) (Hflight : in_flight s = Some b) (Hm : mapped bs U mem h s).
Notation rows := (batch_sequences b).

Lemma last_logits : mjoin (row_logits (L:=L) h b false <$> rows) = (λ row, L (row_upto h row (next_n b - 1))) <$> rows.
Proof. induction rows as [|row l IH]; [done|]. simpl. by f_equal. Qed.

Lemma sampled_logits i row r : batch_kind b ≠ Verify → rows !! i = Some row → active s !! row_request_id row = Some r →
  length (rq_history r) ≤ row_context_length row →
  mjoin (row_logits (L:=L) h b false <$> rows) !! i = Some (L (rq_history r)).
Proof.
  intros Hk Hi Hr Hlen. rewrite last_logits, list_lookup_fmap, Hi. simpl. do 2 f_equal.
  destruct (flight_row s b row Hwf Hflight) as (r' & q & Hri); [by eapply list_elem_of_lookup_2|].
  pose proof (ri_active _ _ _ _ _ Hri). assert (r' = r) as -> by congruence.
  destruct (row_continues _ _ _ _ _ Hri Hk) as [Hle Htk]. unfold row_upto. rewrite (mp_active _ _ _ _ _ Hm _ _ Hr).
  pose proof (ri_width _ _ _ _ _ Hri). pose proof (ri_some _ _ _ _ _ Hri). pose proof (ri_context _ _ _ _ _ Hri).
  rewrite (take_ge (row_token_ids row)), Htk by lia. apply take_ge. lia.
Qed.

Lemma length_row_logits all_positions row : length (row_logits (L:=L) h b all_positions row) = if all_positions then next_n b else 1.
Proof. unfold row_logits. rewrite length_fmap. destruct all_positions; [by rewrite length_seq|done]. Qed.

Lemma join_concat {A} (l : list (list A)) : mjoin l = concat l.
Proof. induction l as [|x l IH]; [done|]. simpl. by f_equal. Qed.

Lemma drafted_logits i row r j : batch_kind b = Verify → rows !! i = Some row → active s !! row_request_id row = Some r →
  j < next_n b →
  mjoin (row_logits (L:=L) h b true <$> rows) !! (i * next_n b + j) = Some (L (rq_history r ++ take j (tail (row_token_ids row)))).
Proof.
  intros Hk Hi Hr Hj. rewrite join_concat.
  destruct (rows_lookup (next_n b) (row_logits (L:=L) h b true <$> rows) i (row_logits (L:=L) h b true row)) as [Hrow _].
  { apply Forall_fmap, Forall_true. intros x. apply (length_row_logits true). }
  { by rewrite list_lookup_fmap, Hi. }
  rewrite <- lookup_drop, <- (lookup_take_lt _ (next_n b)) by done. rewrite Hrow. unfold row_logits.
  rewrite list_lookup_fmap, lookup_seq_lt by done. simpl. do 2 f_equal.
  destruct (flight_row s b row Hwf Hflight) as (r' & q & Hri); [by eapply list_elem_of_lookup_2|].
  pose proof (ri_active _ _ _ _ _ Hri). assert (r' = r) as -> by congruence. unfold row_upto.
  rewrite (mp_active _ _ _ _ _ Hm _ _ Hr). by apply (row_verifies _ _ _ _ _ j Hri).
Qed.
End Logits.

Lemma read_indices_ok m indices : read_indices m = Ok indices → argmax_rows m = inr indices.
Proof.
  unfold read_indices. destruct (argmax_rows m) as [e|l]; [done|]. simpl. intros Hi. f_equal. revert indices Hi.
  induction l as [|x l IH]; intros indices; simpl; [by intros [= <-]|]. case_decide; [|done].
  destruct (index_tokens l) as [rest|e|p]; [|done..]. intros [= <-]. by rewrite (IH rest).
Qed.

Lemma argmax_lookup m indices i history : read_indices m = Ok indices → matrix_rows m !! i = Some (L history) →
  indices !! i = Some (greedy_model L history).
Proof.
  intros Hr%read_indices_ok Hi. destruct (law_argmax _ _ Hr) as [_ Ha]. apply (Ha i (L history)); [done|].
  by apply greedy_model_spec, law_numbers.
Qed.

Lemma values_slice m values i row : read_values m = Ok values → Forall (λ row, length row = geometry_vocab_size model_geometry) (matrix_rows m) →
  matrix_rows m !! i = Some row →
  slice (i * geometry_vocab_size model_geometry) ((i + 1) * geometry_vocab_size model_geometry) values = Some row.
Proof.
  unfold read_values. destruct (cast_rows m) as [e|data] eqn:Ec; [done|]. simpl.
  destruct (to_vec data) as [e|l] eqn:Ev; [done|]. simpl. intros [= <-] Hall Hi. rewrite (law_values _ _ _ Ec Ev).
  destruct (rows_lookup _ _ i row Hall Hi) as [<- Hlen]. unfold slice. rewrite decide_True by lia. do 2 f_equal. lia.
Qed.

(** ** Running the batch in flight *)
Section Batch.
Context (log : Log) (ru : ContinuousBatchRunner) (b : ScheduledBatch).
Context (Hok : runner_ok log ru) (Hflight : in_flight (ru_scheduler ru) = Some b).
Context (Hplain : batch_kind b = Verify → ∀ row r, row ∈ batch_sequences b →
  active (ru_scheduler ru) !! row_request_id row = Some r → rq_sampler r = None).
Notation s := (ru_scheduler ru).
Notation width all_positions := (if all_positions : bool then next_n b else 1).
Notation vocabulary := (geometry_vocab_size model_geometry).

(** After a forward, with the histories it read. *)
Record ran (all_positions : bool) (logits : PagedTensor) (e : PagedLlamaEngine) : Prop := {
  rn_ok : runner_ok log (set_ru_engine e ru);
  rn_shape : tensor_shape logits = (batch_size b, width all_positions, vocabulary);
  rn_memory : ∃ h mem, mapped bs U mem h s ∧ forwarded bs mem (slots (en_pools e)) h (next_n b) (batch_sequences b) ∧
    tensor_rows logits = mjoin (row_logits (L:=L) h b all_positions <$> batch_sequences b)
}.

Lemma execute_ran all_positions : match execute_positions b all_positions (ru_engine ru) with
  | (Ok logits, e) => ran all_positions logits e
  | (Err _, e) => e = ru_engine ru
  | (Panic _, _) => True
  end.
Proof.
  destruct Hok as [Hwf Htold [h Hm] Hbs Hg].
  pose proof (execute_spec bs U h s b all_positions (ru_engine ru) Hbs Hg Hwf Hflight Hm) as Hx.
  destruct (execute_positions b all_positions (ru_engine ru)) as [[logits|x|p] e]; [|done..].
  destruct Hx as (Hkv & Hgeo & Hfw & Hshape & Hrows). split; [|done|by exists h, (slots (en_pools (ru_engine ru)))].
  split; simpl; [done|done| |congruence..]. exists h. eapply mapped_forward; [exact Hwf|exact Hflight|exact Hm|exact Hfw].
Qed.

(** Reading the logits as a matrix. *)
Lemma reshaped all_positions logits e m : ran all_positions logits e →
  reshape_rows logits (batch_size b * width all_positions) vocabulary = Some m →
  matrix_shape m = (batch_size b * width all_positions, vocabulary) ∧ matrix_rows m = tensor_rows logits ∧
  Forall (λ row, length row = vocabulary) (matrix_rows m).
Proof.
  intros [_ Hs (h & mem & _ & _ & Hrows)] Hm. destruct (law_reshape _ _ _ _ Hm) as [Hsh Hmr]; [by rewrite Hs|by rewrite Hs|].
  split; [done|]. split; [done|]. rewrite Hmr, Hrows. apply Forall_forall. intros row. rewrite list_elem_of_join.
  intros (l & Hin & (row' & -> & _)%list_elem_of_fmap). unfold row_logits in Hin. apply list_elem_of_fmap in Hin as (j & -> & _).
  apply law_width.
Qed.

(** The memory after the tokens are committed. *)
Lemma committed_ok all_positions logits e s' : ran all_positions logits e → sched_wf s' → told (model_pick L) log s' →
  (∀ h mem, mapped bs U mem h s → forwarded bs mem (slots (en_pools e)) h (next_n b) (batch_sequences b) →
     ∃ h', mapped bs U (slots (en_pools e)) h' s') →
  runner_ok log (set_ru_scheduler s' (set_ru_engine e ru)).
Proof.
  intros [[_ _ _ Hbs Hg] _ (h & mem & Hm & Hfw & _)] Hwf' Ht' Hmap. split; simpl; [done|done| |done|done]. by eapply Hmap.
Qed.

Lemma greedy_ok logits e m argmax tokens s' : batch_kind b ≠ Verify → ran false logits e →
  reshape_rows logits (batch_size b * 1) vocabulary = Some m → read_indices m = Ok argmax →
  complete_greedy_batch (batch_id b) argmax s = (Ok tokens, s') → histories_in U s' →
  runner_ok log (set_ru_scheduler s' (set_ru_engine e ru)).
Proof.
  intros Hk Hran Hm Hi Hc Hw. destruct (reshaped false logits e m Hran Hm) as (_ & Hmr & _).
  pose proof Hok as [Hwf Ht _ _ _]. pose proof Hran as [_ _ (h & mem & Hmap & _ & Hrows)].
  destruct (greedy_completion L law_numbers log s b argmax tokens s' Hwf Ht Hflight Hk) as (Hwf' & Ht' & Hcb); [|exact Hc|].
  { intros i row r Hi' Hr Hlen. eapply argmax_lookup; [exact Hi|]. rewrite Hmr, Hrows. by eapply sampled_logits. }
  eapply committed_ok; [done..|]. intros h' mem' Hm' Hfw'. eapply mapped_complete; [exact HU|exact Hwf|exact Hflight|exact Hk|exact Hm'|exact Hfw'|exact Hcb|done..|].
  intros id r Hr. by exists r.
Qed.

Lemma selected_ok logits e m values selection tokens s' : batch_kind b ≠ Verify → ran false logits e →
  reshape_rows logits (batch_size b * 1) vocabulary = Some m → read_values m = Ok values →
  select_batch_tokens s (batch_id b) values vocabulary = Ok selection →
  complete_selected_batch selection s = (Ok tokens, s') → histories_in U s' →
  runner_ok log (set_ru_scheduler s' (set_ru_engine e ru)).
Proof.
  intros Hk Hran Hm Hv Hsel Hc Hw. destruct (reshaped false logits e m Hran Hm) as (_ & Hmr & Hall).
  pose proof Hok as [Hwf Ht _ _ _]. pose proof Hran as [_ _ (h & mem & Hmap & _ & Hrows)].
  destruct (selected_completion L log s b values vocabulary selection tokens s' Hwf Ht Hflight Hk Hsel)
    as (Hwf' & Ht' & s1 & Hcb & Hkv & Hpd & _ & Hact); [|exact Hc|].
  { intros i row r Hi' Hr Hlen. eapply values_slice; [exact Hv|done|]. rewrite Hmr, Hrows. by eapply sampled_logits. }
  eapply committed_ok; [done..|]. intros h' mem' Hm' Hfw'.
  eapply mapped_complete; [exact HU|exact Hwf|exact Hflight|exact Hk|exact Hm'|exact Hfw'|exact Hcb|done..].
Qed.

Lemma verified_ok logits e m argmax outs s' : batch_kind b = Verify → ran true logits e →
  reshape_rows logits (batch_size b * next_n b) vocabulary = Some m → read_indices m = Ok argmax →
  complete_verify_batch (batch_id b) argmax s = (Ok outs, s') → histories_in U s' →
  runner_ok log (set_ru_scheduler s' (set_ru_engine e ru)).
Proof.
  intros Hk Hran Hm Hi Hc Hw. destruct (reshaped true logits e m Hran Hm) as (_ & Hmr & _).
  pose proof Hok as [Hwf Ht _ _ _]. pose proof Hran as [_ _ (h & mem & Hmap & _ & Hrows)].
  pose proof (complete_verify_batch_wp (batch_id b) argmax s Hwf) as Hcv. unfold wp in Hcv.
  rewrite Hc in Hcv. simpl in Hcv. destruct Hcv as (Hwf' & b' & Hb' & _ & _ & _ & Hall). simplify_eq.
  eapply committed_ok; [done|done| |].
  - eapply told_verified; [apply law_numbers|exact Hwf|exact Ht|exact Hflight|exact Hk|by apply Hplain| |exact Hall].
    intros b' i row r j Hb1 Hi1 Hr1 Hj1. assert (b' = b) as -> by congruence. eapply argmax_lookup; [exact Hi|]. rewrite Hmr, Hrows.
    eapply drafted_logits; [exact Hwf|exact Hflight|exact Hmap|done..].
  - intros h' mem' Hm' Hfw'. eapply mapped_verify; [exact HU|exact Hwf|exact Hflight|exact Hm'|exact Hfw'|exact Hc|done].
Qed.

(** What a run of the batch leaves. *)
Definition leaves {A} (out : Gen A * ContinuousBatchRunner) : Prop :=
  match out with
  | (Ok _, ru') => histories_in U (ru_scheduler ru') → runner_ok log ru'
  | (Err _, ru') => ru_scheduler ru' = s ∧ runner_ok log ru'
  | (Panic _, _) => True
  end.

Lemma run_verify_leaves : batch_kind b = Verify → leaves (run_verify b ru).
Proof.
  intros Hk. unfold run_verify. unfold mbind' at 1, running at 1. pose proof (execute_ran true) as Hx.
  destruct (execute_positions b true (ru_engine ru)) as [[logits|x|p] e]; cbn [fst snd]; [|subst e; split; [done|by destruct Hok; split]|done].
  rewrite (rn_shape _ _ _ Hx). cbv iota beta zeta. case_decide; [split; [done|apply Hx]|].
  unfold mbind' at 1, mexpect. destruct (reshape_rows _ _ _) as [m|] eqn:Em; [|done]. cbn [mret]. unfold mret at 1.
  unfold mbind' at 1, mlift at 1. destruct (read_indices m) as [argmax|x|p] eqn:Ei; [|split; [done|apply Hx]|done].
  unfold mbind' at 1, scheduling at 1. cbn [ru_scheduler set_ru_engine].
  destruct (complete_verify_batch (batch_id b) argmax s) as [[outs|x|p] s'] eqn:Ec; cbn [fst snd]; [| |done].
  - intros Hw. exact (verified_ok logits e m argmax outs s' Hk Hx Em Ei Ec Hw).
  - eapply verify_refused in Ec as ->; [|exact (ro_wf _ _ Hok)]. split; [done|]. apply Hx.
Qed.

Lemma run_selected_leaves logits e m : batch_kind b ≠ Verify → ran false logits e →
  reshape_rows logits (batch_size b * 1) vocabulary = Some m → (matrix_shape m).2 = vocabulary →
  leaves (run_selected b m (set_ru_engine e ru)).
Proof.
  intros Hk Hx Em Hs. unfold run_selected. rewrite Hs. cbv zeta.
  unfold mbind' at 1, mlift at 1. destruct (read_values m) as [values|x|p] eqn:Ev; [|split; [done|apply Hx]|done].
  unfold mbind' at 1, mget at 1. unfold mbind' at 1, mlift at 1. cbn [ru_scheduler set_ru_engine].
  destruct (select_batch_tokens _ _ _ _) as [selection|x|p] eqn:Es; [|split; [done|apply Hx]|done].
  unfold mbind' at 1, scheduling at 1. cbn [ru_scheduler set_ru_engine].
  destruct (complete_selected_batch selection s) as [[tokens|x|p] s'] eqn:Ec; cbn [fst snd]; [| |done].
  - unfold mbind', mlift. pose proof (log_probs_total (zip (zip (batch_sequences b) tokens) (chunks_exact (length values) vocabulary values))) as Hl.
    destruct (log_probs _) as [probs|x|p]; [|by destruct (Hl x)|done].
    intros Hw. exact (selected_ok logits e m values selection tokens s' Hk Hx Em Ev Es Ec Hw).
  - eapply selected_refused in Ec as ->; [|first [exact (ro_wf _ _ Hok)|done]..]. split; [done|]. apply Hx.
Qed.

Lemma engine_ran : match engine_execute b (ru_engine ru) with
  | (Ok m, e) => ∃ logits, ran false logits e ∧ reshape_rows logits (batch_size b * 1) vocabulary = Some m
  | (Err _, e) => e = ru_engine ru
  | (Panic _, _) => True
  end.
Proof.
  unfold engine_execute, mbind'. pose proof (execute_ran false) as Hx.
  destruct (execute_positions b false (ru_engine ru)) as [[logits|x|p] e]; [|done..].
  rewrite (rn_shape _ _ _ Hx). cbn [fst snd]. unfold mexpect. destruct (reshape_rows _ _ _) as [m|] eqn:Em; [|done].
  exists logits. by rewrite Nat.mul_1_r.
Qed.

Lemma run_batch_leaves : leaves (run_batch b ru).
Proof.
  unfold run_batch. case_decide as Hk.
  { pose proof (run_verify_leaves Hk) as Hl. unfold mbind'. by destruct (run_verify b ru) as [[selected|x|p] ru']. }
  unfold mbind' at 1, running at 1. pose proof engine_ran as He.
  destruct (engine_execute b (ru_engine ru)) as [[m|x|p] e]; cbn [fst snd]; [|subst e; split; [done|by destruct Hok; split]|done].
  destruct He as (logits & Hx & Em). destruct (reshaped false logits e m Hx Em) as (Hs & _ & _).
  case_decide; [split; [done|apply Hx]|]. unfold mbind' at 1, mget at 1. unfold mbind' at 1, mlift at 1.
  destruct (batch_requires_logits _ _) as [[|]|x|p]; [| |split; [done|apply Hx]|done].
  { apply (run_selected_leaves logits e m Hk Hx Em). by rewrite Hs. }
  unfold mbind' at 1, mlift at 1. destruct (read_indices m) as [argmax|x|p] eqn:Ei; [|split; [done|apply Hx]|done].
  unfold mbind' at 1, scheduling at 1. cbn [ru_scheduler set_ru_engine].
  destruct (complete_greedy_batch (batch_id b) argmax s) as [[tokens|x|p] s'] eqn:Ec; cbn [fst snd]; [| |done].
  - intros Hw. exact (greedy_ok logits e m argmax tokens s' Hk Hx Em Ei Ec Hw).
  - eapply greedy_refused in Ec as ->; [|first [exact (ro_wf _ _ Hok)|done]..]. split; [done|]. apply Hx.
Qed.
End Batch.

(** ** A step *)

(** Steps that change neither the scheduler nor the pools. *)
Record rotates ru ru' : Prop := {
  rt_scheduler : ru_scheduler ru' = ru_scheduler ru;
  rt_pools : en_pools (ru_engine ru') = en_pools (ru_engine ru);
  rt_kv : en_kv (ru_engine ru') = en_kv (ru_engine ru);
  rt_geometry : en_geometry (ru_engine ru') = en_geometry (ru_engine ru)
}.
#[local] Instance rotates_preorder : PreOrder rotates.
Proof. split; [by split|]. intros r1 r2 r3 [] []. split; congruence. Qed.

Lemma rotates_ok log ru ru' : rotates ru ru' → runner_ok log ru → runner_ok log ru'.
Proof. intros [Hs Hp Hk Hg] [Hwf Ht Hm Hb Hgeo]. split; rewrite ?Hs, ?Hp, ?Hk, ?Hg; done. Qed.

Notation rotating := (keeping (λ _, True) rotates).
Lemma rotating_running {A} (m : RotM A) : rotating (running (on_rotary m) : M ContinuousBatchRunner GenerationError A).
Proof. intros ru _. unfold running, on_rotary. simpl. by destruct (m _).1. Qed.
Lemma rotating_modify f : (∀ ru, rotates ru (f ru)) → rotating (mmodify f : M ContinuousBatchRunner GenerationError unit).
Proof. intros Hf. apply keeping_modify. intros ru _. by split. Qed.
#[local] Hint Extern 1 (keeping _ rotates (running _)) => apply rotating_running : keep.
#[local] Hint Extern 0 (keeping _ rotates (mmodify _)) => apply rotating_modify; intros []; by split : keep.

Lemma rotating_forget row : rotating (forget_finished row).
Proof. unfold forget_finished, engine_forget. keep. Qed.
Lemma rotating_range entry : rotating (range_of entry).
Proof. unfold range_of. keep. Qed.
#[local] Hint Resolve rotating_forget rotating_range : keep.
Lemma rotating_commit batch selected probs : rotating (commit_step batch selected probs).
Proof. unfold commit_step, engine_commit. keep. Qed.

(** A call of the scheduler that neither submits nor completes. *)
Lemma quiet_ok {A} (op : M Sched ContinuousBatchError A) log ru r s' :
  (∀ mem h, (∀ id, U (h id)) → keeping (planned bs U mem h (λ _, 0)) unrelated op) →
  op (ru_scheduler ru) = (r, s') → (∀ p, r ≠ Panic p) → sched_wf s' → follows (ru_scheduler ru) s' →
  runner_ok log ru → runner_ok log (set_ru_scheduler s' ru).
Proof.
  intros Hop Heq Hnp Hwf' Hf [Hwf Ht [h Hm] Hb Hg]. split; simpl; [done|by eapply told_follows| |done|done].
  exists h. eapply mapped_steady; [apply Hop; by apply (mp_known _ _ _ _ _ Hm)|exact Heq|exact Hnp|apply Hf|exact Hm].
Qed.

Lemma roll_back_ok {A} log ru b x : runner_ok log ru →
  match roll_back (A:=A) b x ru with (Panic _, _) => True | (Ok _, _) => False | (Err _, ru') => runner_ok log ru' end.
Proof.
  intros Hok. unfold roll_back, engine_fail. unfold mbind' at 1.
  pose proof (rotating_running (rollback_rotary (batch_id b)) ru I) as Hr.
  destruct (running _ ru) as [[[]|y|p] ru1] eqn:Erun; [|by unfold running, on_rotary in Erun; simpl in Erun|done].
  destruct Hr as [_ Hr]. pose proof (rotates_ok _ _ _ Hr Hok) as Hok1. clear Hok Hr Erun. pose proof (ro_wf _ _ Hok1) as Hwf.
  pose proof (fail_batch_wp (batch_id b) (ru_scheduler ru1) Hwf) as Hw. unfold wp in Hw. unfold mbind', scheduling.
  destruct (fail_batch (batch_id b) (ru_scheduler ru1)) as [[[]|y|p] s'] eqn:Ef; cbn [fst snd] in *; simpl in Hw; [| |done].
  - destruct Hw as (Hwf' & b' & _ & _ & Hfail). unfold mthrow.
    eapply quiet_ok; [intros; by apply steady_fail|exact Ef|done|done|by eapply fail_batch_follows|done].
  - destruct Hw as [-> _]. by eapply rotates_ok; [|exact Hok1].
Qed.

Lemma runner_step_ok log ru : runner_ok log ru →
  match runner_step ru with
  | (Panic _, _) => True
  | (_, ru') => ¬ exhausted (ru_scheduler ru') → histories_in U (ru_scheduler ru') → runner_ok log ru'
  end.
Proof.
  intros Hok. unfold runner_step. unfold mbind' at 1, mmodify at 1. unfold mbind' at 1, mmodify at 1.
  set (ru0 := set_ranges [] (set_log_probs [] ru)).
  assert (runner_ok log ru0) as Hok0 by (by eapply rotates_ok; [|exact Hok]). clearbody ru0. clear Hok ru.
  pose proof (ro_wf _ _ Hok0) as Hwf. pose proof (exec_follows Schedule (ru_scheduler ru0) Hwf I) as Hfo.
  pose proof (sched_exec_wf Schedule (ru_scheduler ru0) Hwf I) as Hwf1. pose proof (schedule_wp (ru_scheduler ru0) Hwf) as Hw.
  unfold wp in Hfo, Hwf1, Hw. simpl in Hfo, Hwf1. unfold void_s, mbind' in Hfo, Hwf1.
  unfold mbind' at 1, scheduling at 1.
  destruct (schedule (ru_scheduler ru0)) as [[ob|x|p] s1] eqn:Es; cbn [fst snd] in *; [| |done].
  2:{ intros Hx _. simpl in Hx. destruct Hfo as [Hfo|]; [|done]. destruct Hwf1 as [Hwf1|[_ [_ ?]]]; [|done].
      eapply quiet_ok; [intros; by apply steady_schedule|exact Es|done|done|done|done]. }
  simpl in Hfo, Hwf1, Hw. destruct Hw as (_ & Hfl & _).
  assert (runner_ok log (set_ru_scheduler s1 ru0)) as Hok1.
  { eapply quiet_ok; [intros; by apply steady_schedule|exact Es|done|done|done|done]. }
  destruct ob as [b|]; [|intros _ _; exact Hok1]. 
  assert (leaves log (set_ru_scheduler s1 ru0) (run_batch b (set_ru_scheduler s1 ru0))) as Hl.
  { apply run_batch_leaves; [done|done|]. intros Hk row r Hin Hr. eapply verified_plain; [exact Es|done..]. }
  unfold mbind' at 1, mcatch.
  destruct (run_batch b (set_ru_scheduler s1 ru0)) as [[out|x|p] ru2] eqn:Er; simpl in Hl; [| |done].
  - pose proof (rotating_commit b out.1 out.2 ru2 I) as Hc. unfold mbind'.
    destruct (commit_step b out.1 out.2 ru2) as [[report|x|p] ru3]; [| |done]; destruct Hc as [_ Hc]; unfold mret; simpl;
      intros _ Hin; (eapply rotates_ok; [exact Hc|]); apply Hl; by rewrite <- (rt_scheduler _ _ Hc).
  - destruct Hl as [_ Hok2]. pose proof (roll_back_ok (A:=list (RequestId * Z) * list (RequestId * f32)) log ru2 b x Hok2) as Hb.
    destruct (roll_back b x ru2) as [[out|y|p] ru3]; [done|by intros _ _|done].
Qed.

(** ** The public calls *)
Inductive runner_op :=
| RunSubmit (prompt : list Z) (g : GreedyGenerationConfig)
| RunSubmitSampled (prompt : list Z) (g : SamplingGenerationConfig) (options : SamplingOptions)
| RunStep
| RunCancel (id : RequestId)
| RunPopFinished
| RunSetPrefixCaching (enabled : bool)
| RunSetSpeculative (config : option SpeculativeConfig).

Notation RM := (M ContinuousBatchRunner GenerationError).
Definition void_r {A} (m : RM A) : RM unit := m ;;; mret tt.

Definition runner_exec (op : runner_op) : RM unit :=
  match op with
  | RunSubmit prompt g => void_r (runner_submit prompt g)
  | RunSubmitSampled prompt g options => void_r (runner_submit_with_options prompt g options)
  | RunStep => void_r runner_step
  | RunCancel id => void_r (runner_cancel id)
  | RunPopFinished => void_r runner_pop_finished
  | RunSetPrefixCaching enabled => runner_set_prefix_caching enabled
  | RunSetSpeculative config => runner_set_speculative config
  end.

(** What a call that returned adds to the log of submissions. *)
Definition recorded (op : runner_op) ru (out : Gen unit) (log : Log) : Log :=
  let id := next_request (ru_scheduler ru) in
  match op, out with
  | RunSubmit prompt g, Ok _ => <[id := (prompt, g, None)]> log
  | RunSubmitSampled prompt g options, Ok _ =>
      match new_with_options (sg_sampling g) options with
      | Ok sampler => <[id := (prompt, mk_generation (sg_max_new_tokens g) (sg_eos_token_ids g), Some sampler)]> log
      | _ => log
      end
  | _, _ => log
  end.

(** The states a new runner reaches, with what was submitted on the way, while no call
    panics, the 64-bit reservation ids last and the histories stay in [U]. *)
Inductive runner_reachable (c : ContinuousBatchConfig) (k : PagedKvCacheConfig) : Log → ContinuousBatchRunner → Prop :=
| runner_start ru : new_runner c k = Ok ru → runner_reachable c k ∅ ru
| runner_next log ru op out ru' : runner_reachable c k log ru → runner_exec op ru = (out, ru') → (∀ p, out ≠ Panic p) →
    ¬ exhausted (ru_scheduler ru') → histories_in U (ru_scheduler ru') →
    runner_reachable c k (recorded op ru out log) ru'.

Lemma new_runner_ok c k ru : (N.of_nat (max_sequence_length k) ≤ usize_max)%N → block_size k = bs →
  new_runner c k = Ok ru → runner_ok ∅ ru.
Proof.
  intros Hmax Hbs. unfold new_runner, new_engine. destruct (validate_config k); simpl; [|done..].
  case_decide; [done|]. case_decide; [|done]. destruct (pool_indexable _ _); [|done]. simpl.
  destruct (new_paged c k) as [s|x|p] eqn:Es; [|done..]. intros [= <-].
  assert (ContinuousBatchCalls.fresh c k s) as Hfresh by (by apply fresh_paged). pose proof (fresh_wf c k s Hmax Hfresh) as Hwf.
  destruct (fresh_empty c k s Hfresh) as (Hp & Ha & Hf & _).
  split; simpl; [done| | |done|done].
  - split; rewrite ?Hp, ?Ha, ?Hf; (by intros ? ? ?%lookup_empty_Some) || (by intros ? ?%elem_of_nil).
  - exists (λ _, []). split; rewrite ?Ha, ?Hp; [intros _; apply HU| |by intros ? ? ?%lookup_empty_Some|by intros ? ?%elem_of_nil].
    split; [apply (st_kv _ (sw_static _ Hwf))|]. revert Es. unfold new_paged, new_scheduler, with_options.
    destruct (validate_batch_config c); simpl; [|done..]. unfold new. destruct (validate_config k); simpl; [|done..]. intros [= <-]. simpl.
    split; [split; simpl|].
    + done.
    + by intros ? ? ?%lookup_empty_Some.
    + by intros ? ? ? ?%lookup_empty_Some.
    + unfold blocks_filled, bl. simpl. by intros p blk [? _]%lookup_replicate_1.
Qed.

Lemma submitted_ok log ru prompt g sampler x s' : runner_ok log ru →
  submit_with_sampler prompt g sampler (ru_scheduler ru) = (Ok x, s') → histories_in U s' →
  runner_ok (<[next_request (ru_scheduler ru) := (prompt, g, sampler)]> log) (set_ru_scheduler s' ru).
Proof.
  intros [Hwf Ht [h Hm] Hb Hg] Heq Hin. pose proof (submit_wp prompt g sampler _ Hwf) as Hw. unfold wp in Hw. rewrite Heq in Hw.
  destruct Hw as [Hwf' _]. split; simpl; [done|by eapply decode_told_submit| |done|done]. eapply mapped_submit; [exact Hwf|exact Hin|exact Heq|exact Hm].
Qed.

(** A call of the scheduler that is quiet, as a call of the runner. *)
Lemma scheduling_ok {A} (op : M Sched ContinuousBatchError A) sop log ru :
  (∀ mem h, (∀ id, U (h id)) → keeping (planned bs U mem h (λ _, 0)) unrelated op) →
  (∀ s, sched_exec sop s = void_s op s) → quiet sop → runner_ok log ru →
  match scheduling op ru with
  | (Panic _, _) => True
  | (_, ru') => ¬ exhausted (ru_scheduler ru') → runner_ok log ru'
  end.
Proof.
  intros Hop Hsop Hquiet Hok. pose proof (ro_wf _ _ Hok) as Hwf. pose proof (exec_follows sop (ru_scheduler ru) Hwf Hquiet) as Hfo.
  assert (proper (ru_scheduler ru) sop) as Hpr by (by destruct sop).
  pose proof (sched_exec_wf sop (ru_scheduler ru) Hwf Hpr) as Hwf1. unfold wp in Hfo, Hwf1. rewrite Hsop in *.
  unfold void_s, mbind' in Hfo, Hwf1. unfold scheduling.
  destruct (op (ru_scheduler ru)) as [[a|x|p] s'] eqn:Eop; simpl in *; [| |done].
  - intros _. by eapply quiet_ok.
  - intros Hx. destruct Hfo as [Hfo|]; [|done]. destruct Hwf1 as [Hwf1|[_ [_ ?]]]; [|done]. by eapply quiet_ok.
Qed.

Lemma submit_call_ok log ru prompt eos g sampler out ru' : runner_ok log ru →
  void_r (validate_prompt prompt eos ;;; scheduling (submit_with_sampler prompt g sampler)) ru = (out, ru') →
  (∀ p, out ≠ Panic p) → histories_in U (ru_scheduler ru') →
  runner_ok (match out with Ok _ => <[next_request (ru_scheduler ru) := (prompt, g, sampler)]> log | _ => log end) ru'.
Proof.
  intros Hok. unfold void_r, validate_prompt. unfold mbind' at 1 2 3, mget at 1.
  destruct (List.find _ _); [by intros [= <- <-]|]. unfold mret at 1, scheduling.
  destruct (submit_with_sampler prompt g sampler (ru_scheduler ru)) as [[x|x|p] s'] eqn:Es; cbn [fst snd].
  - unfold mret. intros [= <- <-] _ Hin. by eapply submitted_ok.
  - intros [= <- <-] _ _. pose proof (submit_wp prompt g sampler _ (ro_wf _ _ Hok)) as Hw. unfold wp in Hw. rewrite Es in Hw.
    simpl in Hw. subst s'. by eapply rotates_ok; [|exact Hok].
  - intros [= <- <-] Hnp. by destruct (Hnp p).
Qed.

Lemma void_unit (op : M Sched ContinuousBatchError unit) s : op s = void_s op s.
Proof. unfold void_s, mbind', mret. by destruct (op s) as [[[]|x|p] s']. Qed.

Lemma void_outcome {A} (m : RM A) ru out ru' : void_r m ru = (out, ru') → (∀ p, out ≠ Panic p) →
  ∃ x, m ru = (x, ru') ∧ ∀ p, x ≠ Panic p.
Proof.
  unfold void_r, mbind', mret. destruct (m ru) as [[a|x|p] ru1]; intros [= <- <-] Hnp; [by exists (Ok a)|by exists (Err x)|by destruct (Hnp p)].
Qed.

Lemma runner_call_ok op log ru out ru' : runner_ok log ru → runner_exec op ru = (out, ru') → (∀ p, out ≠ Panic p) →
  ¬ exhausted (ru_scheduler ru') → histories_in U (ru_scheduler ru') → runner_ok (recorded op ru out log) ru'.
Proof.
  intros Hok Heq Hnp Hx Hin. destruct op; simpl in *.
  - exact (submit_call_ok log ru prompt (eos_token_ids g) g None out ru' Hok Heq Hnp Hin).
  - unfold runner_submit_with_options, submit_sampled_with_options in Heq.
    destruct (new_with_options (sg_sampling g) options) as [sampler|x|p] eqn:En.
    + pose proof (submit_call_ok log ru prompt (sg_eos_token_ids g) _ (Some sampler) out ru' Hok Heq Hnp Hin) as Hs. by destruct out.
    + assert (ru' = ru ∨ ru' = set_ru_scheduler (ru_scheduler ru) ru) as Hru.
      { revert Heq. unfold void_r, validate_prompt. unfold mbind' at 1 2 3, mget at 1. destruct (List.find _ _); intros [= _ <-]; [by left|by right]. }
      assert (runner_ok log ru') as Hok' by (destruct Hru as [->| ->]; [done|by eapply rotates_ok; [|exact Hok]]). by destruct out.
    + revert Heq. unfold void_r, validate_prompt. unfold mbind' at 1 2 3, mget at 1. destruct (List.find _ _); [by intros [= <- <-]|].
      intros [= <- <-]. by destruct (Hnp p).
  - destruct (void_outcome _ _ _ _ Heq Hnp) as (x & Hm & Hxp). pose proof (runner_step_ok log ru Hok) as Hs. rewrite Hm in Hs.
    destruct x as [a|e|p]; [by apply Hs..|by destruct (Hxp p)].
  - destruct (void_outcome _ _ _ _ Heq Hnp) as (x & Hm & Hxp). revert Hm. unfold runner_cancel. unfold mbind' at 1.
    pose proof (scheduling_ok (cancel id) (Cancel id) log ru ltac:(intros; by apply steady_cancel) ltac:(done) I Hok) as Hs.
    destruct (scheduling (cancel id) ru) as [[request|e|p] ru1]; [| |by intros [= <- <-]; destruct (Hxp p)].
    + pose proof (rotating_running (forget_rotary id) ru1 I) as Hr. unfold mbind', engine_forget.
      destruct (running (on_rotary (forget_rotary id)) ru1) as [[[]|e|p] ru2]; [| |by intros [= <- <-]; destruct (Hxp p)];
        destruct Hr as [_ Hr]; unfold mret; intros [= <- <-]; (eapply rotates_ok; [exact Hr|]); apply Hs; by rewrite <- (rt_scheduler _ _ Hr).
    + intros [= <- <-]. by apply Hs.
  - destruct (void_outcome _ _ _ _ Heq Hnp) as (x & Hm & Hxp).
    pose proof (scheduling_ok pop_finished PopFinished log ru ltac:(intros; by apply steady_pop) ltac:(done) I Hok) as Hs.
    unfold runner_pop_finished in Hm. rewrite Hm in Hs. destruct x as [a|e|p]; [by apply Hs..|by destruct (Hxp p)].
  - pose proof (scheduling_ok (scheduler_set_prefix_caching enabled) (SetCaching enabled) log ru ltac:(intros; by apply steady_caching)
      (void_unit _) I Hok) as Hs. unfold runner_set_prefix_caching in Heq. rewrite Heq in Hs. destruct out as [a|e|p]; [by apply Hs..|by destruct (Hnp p)].
  - pose proof (scheduling_ok (set_speculative_decoding config) (SetSpeculative config) log ru ltac:(intros; by apply steady_speculative)
      (void_unit _) I Hok) as Hs. unfold runner_set_speculative in Heq. rewrite Heq in Hs. destruct out as [a|e|p]; [by apply Hs..|by destruct (Hnp p)].
Qed.

Lemma runner_reachable_ok c k log ru : (N.of_nat (max_sequence_length k) ≤ usize_max)%N → block_size k = bs →
  runner_reachable c k log ru → runner_ok log ru.
Proof.
  intros Hmax Hbs. induction 1 as [ru Hru|log ru op out ru' _ IH Heq Hnp Hx Hin]; [by eapply new_runner_ok|by eapply runner_call_ok].
Qed.
End Spec.

(** ** Runs that fail

    With any model, whatever its rotary frequencies and its kernels do. *)
Section Failing.
Context `{DefaultHasher} `{Exponential, Randomness, Logarithm} `{PagedModel}.
Notation Sched := (@ContinuousBatchScheduler TokenSampler).
Notation RM := (M ContinuousBatchRunner GenerationError).
Implicit Types ru : ContinuousBatchRunner.

(** A rotary cache without what was prepared for batch [id]. *)
Definition dropped (id : N) (c : PagedRotaryCache) : PagedRotaryCache := set_rotary_pending (delete id (rc_pending c)) c.

(** Runners with the same rotary contexts, but for what is prepared for batch [id]. *)
Definition same_rotary (id : N) ru ru' : Prop :=
  dropped id (en_rotary (ru_engine ru')) = dropped id (en_rotary (ru_engine ru)).

Lemma prepare_drops states batch c : dropped (batch_id batch) (prepare states batch c).2 = dropped (batch_id batch) c.
Proof.
  unfold prepare, mbind', mget, mlift. cbn [fst snd]. destruct (prepare_rows _ _ _); [|done..]. cbn [fst snd].
  destruct (existsb _ _); [|done]. unfold dropped. simpl. by rewrite delete_insert_eq.
Qed.

Lemma execute_drops batch all_positions e : let e' := (execute_positions batch all_positions e).2 in
  dropped (batch_id batch) (en_rotary e') = dropped (batch_id batch) (en_rotary e).
Proof.
  unfold execute_positions. case_decide; [done|]. unfold mbind' at 1, mget at 1. unfold mbind' at 1, mlift at 1.
  destruct (checked_rows _ _ _); [|done..]. unfold mbind' at 1, mlift at 1. destruct (flattened_block_table _ _); [|done..].
  destruct (existsb _ _); [done|]. unfold mbind' at 1. case_decide; [done|]. unfold mret at 1.
  unfold mbind' at 1, mlift at 1. destruct (upload _ _ _ _ _ _); [|done..]. unfold mbind' at 1, on_rotary at 1.
  pose proof (prepare_drops paged_rotary_states batch (en_rotary e)) as Hp.
  destruct (prepare _ _ _) as [[tables|x|p] c]; [|done..]. cbn [fst snd] in *. unfold mbind', mget, mmodify, mexpect.
  by destruct (forward_paged_ruda _ _ _ _ _).1.
Qed.

Lemma engine_execute_drops batch e :
  dropped (batch_id batch) (en_rotary (engine_execute batch e).2) = dropped (batch_id batch) (en_rotary e).
Proof.
  unfold engine_execute, mbind'. pose proof (execute_drops batch false e) as Hd. cbv zeta in Hd.
  destruct (execute_positions batch false e) as [[logits|x|p] e']; [|done..]. unfold mexpect. by destruct (reshape_rows _ _ _).
Qed.

(** What a run leaves of a well-formed scheduler: the same when it fails. *)
Definition run_leaves {A} (id : N) ru (out : Gen A * ContinuousBatchRunner) : Prop :=
  match out with
  | (Ok _, ru') => sched_wf (ru_scheduler ru')
  | (Err _, ru') => ru_scheduler ru' = ru_scheduler ru ∧ same_rotary id ru ru' ∧
      selected_log_probs ru' = selected_log_probs ru ∧ appended_ranges ru' = appended_ranges ru
  | (Panic _, _) => True
  end.

Lemma run_selected_safe b m ru : sched_wf (ru_scheduler ru) → in_flight (ru_scheduler ru) = Some b → batch_kind b ≠ Verify →
  run_leaves (batch_id b) ru (run_selected b m ru).
Proof.
  intros Hwf Hb Hk. unfold run_selected. unfold mbind' at 1, mlift at 1. destruct (read_values m) as [values|x|p]; [|done..].
  unfold mbind' at 1, mget at 1. unfold mbind' at 1, mlift at 1.
  destruct (select_batch_tokens _ _ _ _) as [selection|x|p] eqn:Es; [|done..]. unfold mbind' at 1, scheduling at 1.
  destruct (complete_selected_batch selection (ru_scheduler ru)) as [x s'] eqn:Ec.
  pose proof (selected_answers _ b Hwf Hb values _ selection x s' Hk Es Ec) as Ha.
  destruct x as [tokens|x|p]; cbn [fst snd]; [|subst s'; by destruct ru|done].
  unfold mbind', mlift. pose proof (log_probs_total (zip (zip (batch_sequences b) tokens) (chunks_exact (length values) (matrix_shape m).2 values))) as Hl.
  destruct (log_probs _) as [probs|x|p]; [done|by destruct (Hl x)|done].
Qed.

Lemma run_batch_safe b ru : sched_wf (ru_scheduler ru) → in_flight (ru_scheduler ru) = Some b →
  run_leaves (batch_id b) ru (run_batch b ru).
Proof.
  intros Hwf Hb. unfold run_batch. case_decide as Hk.
  - unfold run_verify. unfold mbind' at 1 2, running at 1. pose proof (execute_drops b true (ru_engine ru)) as Hd. cbv zeta in Hd.
    destruct (execute_positions b true (ru_engine ru)) as [[logits|x|p] e]; cbn [fst snd] in *; [|done..].
    destruct (tensor_shape logits) as [[rows width] vocabulary]. case_decide; [done|]. unfold mbind' at 1, mexpect.
    destruct (reshape_rows _ _ _) as [m|]; [|done]. unfold mret at 1, mbind' at 1, mlift at 1.
    destruct (read_indices m) as [argmax|x|p]; [|done..]. unfold mbind' at 1, scheduling at 1. cbn [ru_scheduler set_ru_engine].
    destruct (complete_verify_batch (batch_id b) argmax (ru_scheduler ru)) as [x s'] eqn:Ec.
    pose proof (verify_answers _ b Hwf argmax x s' Ec) as Ha. destruct x; cbn [fst snd]; [done|by subst s'|done].
  - unfold mbind' at 1, running at 1. pose proof (engine_execute_drops b (ru_engine ru)) as Hd.
    destruct (engine_execute b (ru_engine ru)) as [[m|x|p] e]; cbn [fst snd] in *; [|done..]. case_decide; [done|].
    unfold mbind' at 1, mget at 1. unfold mbind' at 1, mlift at 1.
    destruct (batch_requires_logits _ _) as [[|]|x|p]; [|..|done]; [| |done].
    { pose proof (run_selected_safe b m (set_ru_engine e ru) Hwf Hb Hk) as Hr. unfold run_leaves in *.
      destruct (run_selected b m (set_ru_engine e ru)) as [[out|x|p] ru']; [done| |done].
      destruct Hr as (? & Hro & ? & ?). split_and!; [done| |done..]. unfold same_rotary in *. by rewrite Hro. }
    unfold mbind' at 1, mlift at 1. destruct (read_indices m) as [argmax|x|p]; [|done..].
    unfold mbind' at 1, scheduling at 1. cbn [ru_scheduler set_ru_engine].
    destruct (complete_greedy_batch (batch_id b) argmax (ru_scheduler ru)) as [x s'] eqn:Ec.
    pose proof (greedy_answers _ b Hwf Hb argmax x s' Hk Ec) as Ha. destruct x; cbn [fst snd]; [done|by subst s'|done].
Qed.

(** The step of a batch whose run fails. *)
Lemma failed_run ru b s1 x ru2 : sched_wf (ru_scheduler ru) → schedule (ru_scheduler ru) = (Ok (Some b), s1) →
  run_batch b (set_ru_scheduler s1 (set_ranges [] (set_log_probs [] ru))) = (Err x, ru2) →
  match runner_step ru with
  | (Ok _, _) => False
  | (Err y, ru') => y = x ∧ failed_batch s1 b (ru_scheduler ru') ∧
      finished (ru_scheduler ru') = finished (ru_scheduler ru) ∧
      en_rotary (ru_engine ru') = dropped (batch_id b) (en_rotary (ru_engine ru)) ∧
      selected_log_probs ru' = [] ∧ appended_ranges ru' = []
  | (Panic p, _) => p = Overflow
  end.
Proof.
  intros Hwf Hs Hrun. pose proof (schedule_wp (ru_scheduler ru) Hwf) as Hw. unfold wp in Hw. rewrite Hs in Hw. simpl in Hw.
  destruct Hw as (Hwf1 & Hfl & _ & _ & _ & _ & _ & Hfin).
  set (ru1 := set_ru_scheduler s1 (set_ranges [] (set_log_probs [] ru))) in *.
  pose proof (run_batch_safe b ru1 Hwf1 Hfl) as Hl. rewrite Hrun in Hl. destruct Hl as (Hsame & Hrot & Hlp & Har).
  unfold runner_step. unfold mbind' at 1 2 3, mmodify at 1 2, scheduling at 1. cbn [ru_scheduler set_ranges set_log_probs].
  rewrite Hs. cbn [fst snd]. fold ru1. unfold mbind' at 1, mcatch. rewrite Hrun.
  unfold roll_back, engine_fail, running, on_rotary. unfold mbind' at 1, rollback_rotary, mmodify. cbn [fst snd].
  unfold mbind' at 1, scheduling. cbn [ru_scheduler set_ru_engine]. rewrite Hsame.
  pose proof (fail_batch_wp (batch_id b) s1 Hwf1) as Hf. unfold wp in Hf. change (ru_scheduler ru1) with s1.
  destruct (fail_batch (batch_id b) s1) as [[[]|y|p] s2]; cbn [fst snd] in *; simpl in Hf.
  - destruct Hf as (_ & b' & Hb' & _ & Hfail). assert (b' = b) as -> by congruence. unfold mthrow. split; [done|]. split; [done|].
    split; [simpl; pose proof (se_finished _ _ (proj1 (proj2 Hfail))) as Hf2; simpl in Hf2; congruence|]. split; [exact Hrot|done].
  - destruct Hf as [_ Hn]. by destruct (Hn b Hfl).
  - exact Hf.
Qed.

(** ** The scheduler of a runner stays well-formed *)
Definition stays_wf {A} (out : Gen A * ContinuousBatchRunner) : Prop :=
  match out with
  | (Panic _, _) => True
  | (_, ru') => ¬ exhausted (ru_scheduler ru') → sched_wf (ru_scheduler ru')
  end.

Lemma step_stays_wf ru : sched_wf (ru_scheduler ru) → stays_wf (runner_step ru).
Proof.
  intros Hwf. unfold runner_step. unfold mbind' at 1 2 3, mmodify at 1 2, scheduling at 1. cbn [ru_scheduler set_ranges set_log_probs].
  pose proof (schedule_wp (ru_scheduler ru) Hwf) as Hw. unfold wp in Hw.
  destruct (schedule (ru_scheduler ru)) as [[[b|]|x|p] s1]; cbn [fst snd] in *; simpl in Hw; [|by intros _; apply Hw| |done].
  2:{ intros Hx. destruct Hw as [[? _]|[_ ?]]; done. }
  destruct Hw as (Hwf1 & Hfl & _). set (ru1 := set_ru_scheduler s1 _).
  pose proof (run_batch_safe b ru1 Hwf1 Hfl) as Hl. unfold mbind' at 1, mcatch.
  destruct (run_batch b ru1) as [[out|x|p] ru2]; simpl in Hl; [| |done].
  - pose proof (rotating_commit b out.1 out.2 ru2 I) as Hc. unfold mbind'.
    destruct (commit_step b out.1 out.2 ru2) as [[report|x|p] ru3]; [| |done]; destruct Hc as [_ Hc]; unfold mret; simpl;
      intros _; by rewrite (rt_scheduler _ _ Hc).
  - destruct Hl as (Hsame & _). unfold roll_back, engine_fail, running, on_rotary. unfold mbind' at 1, rollback_rotary, mmodify. cbn [fst snd].
    unfold mbind' at 1, scheduling. cbn [ru_scheduler set_ru_engine]. rewrite Hsame.
    pose proof (fail_batch_wp (batch_id b) s1 Hwf1) as Hf. unfold wp in Hf. change (ru_scheduler ru1) with s1.
    destruct (fail_batch (batch_id b) s1) as [[[]|y|p] s2]; cbn [fst snd] in *; simpl in Hf; [by intros _; apply Hf| |done].
    simpl. intros _. by destruct Hf as [-> _].
Qed.

Lemma scheduling_stays_wf {A} (op : M Sched ContinuousBatchError A) sop ru : (∀ s, sched_exec sop s = void_s op s) →
  (∀ s, proper s sop) → sched_wf (ru_scheduler ru) → stays_wf (scheduling op ru).
Proof.
  intros Hsop Hpr Hwf. pose proof (sched_exec_wf sop (ru_scheduler ru) Hwf (Hpr _)) as Hw. unfold wp in Hw. rewrite Hsop in Hw.
  unfold void_s, mbind' in Hw. unfold scheduling. destruct (op (ru_scheduler ru)) as [[a|x|p] s']; simpl in *; [by intros _| |done].
  intros Hx. by destruct Hw as [?|(_ & _ & ?)].
Qed.

Lemma void_stays_wf {A} (m : RM A) ru : stays_wf (m ru) → stays_wf (void_r m ru).
Proof. unfold void_r, mbind', mret. by destruct (m ru) as [[a|x|p] ru']. Qed.

(** A submission that the runner passes on. *)
Lemma submission_stays_wf prompt eos (m : M Sched ContinuousBatchError RequestId) ru :
  (∀ s, sched_wf s → match m s with (Panic _, _) => True | (_, s') => sched_wf s' end) →
  sched_wf (ru_scheduler ru) → stays_wf ((validate_prompt prompt eos ;;; scheduling m) ru).
Proof.
  intros Hm Hwf. unfold validate_prompt, scheduling. unfold mbind' at 1 2, mget at 1.
  destruct (List.find _ _); [by intros _|]. unfold mret. specialize (Hm _ Hwf).
  destruct (m (ru_scheduler ru)) as [[a|x|p] s']; simpl; [by intros _..|done].
Qed.

Lemma submit_keeps prompt g sampler s : sched_wf s →
  match submit_with_sampler (TokenSampler:=TokenSampler) prompt g sampler s with (Panic _, _) => True | (_, s') => sched_wf s' end.
Proof.
  intros Hwf. pose proof (submit_wp prompt g sampler s Hwf) as Hw. unfold wp in Hw.
  destruct (submit_with_sampler prompt g sampler s) as [[a|x|p] s']; simpl in Hw; [by destruct Hw|by subst|done].
Qed.

Lemma exec_stays_wf op ru : sched_wf (ru_scheduler ru) → stays_wf (runner_exec op ru).
Proof.
  intros Hwf. destruct op; simpl; try apply void_stays_wf.
  - apply submission_stays_wf; [|done]. intros s Hs. by apply submit_keeps.
  - apply submission_stays_wf; [|done]. intros s Hs. unfold submit_sampled_with_options, mbind', mlift.
    destruct (new_with_options _ _); [|done..]. by apply submit_keeps.
  - by apply step_stays_wf.
  - unfold runner_cancel, mbind'. pose proof (scheduling_stays_wf (cancel id) (Cancel id) ru (λ _, eq_refl) (λ _, I) Hwf) as Hs.
    destruct (scheduling (cancel id) ru) as [[request|x|p] ru']; simpl in *; [|done..]. exact Hs.
  - exact (scheduling_stays_wf pop_finished PopFinished ru (λ _, eq_refl) (λ _, I) Hwf).
  - exact (scheduling_stays_wf _ (SetCaching enabled) ru (void_unit _) (λ _, I) Hwf).
  - exact (scheduling_stays_wf _ (SetSpeculative config) ru (void_unit _) (λ _, I) Hwf).
Qed.

Lemma runner_reachable_wf U c k log ru : (N.of_nat (max_sequence_length k) ≤ usize_max)%N →
  runner_reachable U c k log ru → sched_wf (ru_scheduler ru).
Proof.
  intros Hmax. induction 1 as [ru Hru|log ru op out ru' _ IH Heq Hnp Hx _].
  - revert Hru. unfold new_runner. destruct (new_engine k); simpl; [|done..].
    destruct (new_paged c k) as [s|x|p] eqn:Es; simpl; [|done..]. intros [= <-]. simpl. by eapply fresh_wf, fresh_paged.
  - pose proof (exec_stays_wf op ru IH) as Hs. rewrite Heq in Hs. destruct out as [a|x|p]; [by apply Hs..|by destruct (Hnp p)].
Qed.

End Failing.

(** ** The theorems *)
Section Claims.
Context `{DefaultHasher} `{Exponential, Randomness, Logarithm} `{PagedModelLaws}.
Context (U : list Z → Prop) (c : ContinuousBatchConfig) (k : PagedKvCacheConfig).
Notation Log := (gmap N (list Z * GreedyGenerationConfig * option TokenSampler)).

(** Claim C2.  The paged engine is invisible to a model with static rotary frequencies.
    Let no layer have a rotary state that depends on the length ([law_static]: with
    dynamic frequencies chunks and shared prefixes do change the rotations), and let no
    two of the histories the runner reaches share a chain hash ([collision_free] on the
    set [U] that holds them).  Then every generation the runner finishes has the prompt
    submitted under its id and exactly the tokens that decoding that prompt alone with its
    own sampler (or the largest logit) gives -- although its keys and values went through the slots of
    shared physical pages, were taken from the prefix cache, dropped on preemption and
    recomputed, written in chunks, or written for drafts that were then rejected. *)
Theorem paged_runner_equals_decoding (log : Log) ru f :
  collision_free (block_size k) U → (N.of_nat (max_sequence_length k) ≤ usize_max)%N →
  runner_reachable U c k log ru → f ∈ finished (ru_scheduler ru) →
  ∃ g sampler, log !! fg_request_id f = Some (fg_prompt_token_ids f, g, sampler) ∧
    decode (model_pick L) (list_to_set (eos_token_ids g)) (max_new_tokens g) (fg_prompt_token_ids f) [] sampler =
      Ok (fg_generated_token_ids f).
Proof.
  intros HU Hmax Hr Hf. pose proof (runner_reachable_ok (block_size k) U HU c k log ru Hmax eq_refl Hr) as Hok.
  by apply (td_finished _ _ _ (ro_told _ _ _ _ Hok)).
Qed.

End Claims.

(** Claim C17.  A batch that fails is undone.  Whatever the model and its rotary
    frequencies, when the forward, the reading of its logits or the selection of its
    tokens fails, the step returns that error with no batch in flight: every request of
    the batch is back in the phase it was scheduled from, its reserved pages are released
    and what was committed of its sequence is what it was, no other request or result
    changed, and the rotary contexts of slots and requests are those of before the step,
    with nothing prepared for the batch left. *)
Theorem failed_run_is_rolled_back `{DefaultHasher} `{Exponential, Randomness, Logarithm} `{PagedModel}
    (U : list Z → Prop) (c : ContinuousBatchConfig) (k : PagedKvCacheConfig) log ru b s1 x ru2 :
  (N.of_nat (max_sequence_length k) ≤ usize_max)%N → runner_reachable U c k log ru →
  schedule (ru_scheduler ru) = (Ok (Some b), s1) →
  run_batch b (set_ru_scheduler s1 (set_ranges [] (set_log_probs [] ru))) = (Err x, ru2) →
  match runner_step ru with
  | (Ok _, _) => False
  | (Err y, ru') => y = x ∧ failed_batch s1 b (ru_scheduler ru') ∧
      finished (ru_scheduler ru') = finished (ru_scheduler ru) ∧
      en_rotary (ru_engine ru') = dropped (batch_id b) (en_rotary (ru_engine ru)) ∧
      selected_log_probs ru' = [] ∧ appended_ranges ru' = []
  | (Panic p, _) => p = Overflow
  end.
Proof. intros Hmax Hr. apply failed_run. by eapply runner_reachable_wf. Qed.
