(* ===== verification/PagedRunnerExamples.v ===== *)
(** * The paged runner on concrete data

    A model whose pools record the tokens each slot was computed from, a hasher without
    collisions, and the instances of the runner's theorems on a run with the prefix cache,
    speculation, a sampled request and more requests than pages. *)
From S2P Require Import Prelude Float PagedKv PagedContents PagedMapped ContinuousBatch.
From S2P Require Import ContinuousBatchSchedule ContinuousBatchOps ContinuousBatchCalls GenerationControl.
From S2P Require Import Sampling BatchSampling BatchDecoding BatchSamplingSpec FencedBatch BatchExamples.
From S2P Require Import Safetensors Rope RotaryExamples PagedRotary PagedEngine PagedEngineSpec.
From S2P Require Import PagedRunner PagedRunnerSpec.
Open Scope nat_scope.
Open Scope list_scope.
Open Scope m_scope.

(** ** A hasher without collisions *)
#[local] Instance exact_hasher : DefaultHasher := {|
  hasher := list (N + list Z);
  hasher_new := [];
  hash_u64 h n := h ++ [inl n];
  hash_i32_slice h l := h ++ [inr l];
  hasher_finish h := (CHAIN_ROOT + Npos (encode h))%N
|}.

Lemma exact_chain parent parent' t t' : chain parent t = chain parent' t' → parent = parent' ∧ t = t'.
Proof.
  unfold chain. simpl. intros Hc. assert (encode [inl parent; inr t] = encode [inl parent'; inr t']) as He by lia.
  apply (inj encode) in He. by injection He.
Qed.

Lemma exact_root parent t : chain parent t ≠ CHAIN_ROOT.
Proof. unfold chain. simpl. lia. Qed.

Lemma chained_cases bs pre hash : chained bs pre hash →
  pre = [] ∧ hash = CHAIN_ROOT ∨ ∃ pre0 parent t, pre = pre0 ++ t ∧ hash = chain parent t ∧ chained bs pre0 parent.
Proof. intros [|pre0 parent t Hc Hl]; [by left|right]. by exists pre0, parent, t. Qed.

Lemma exact_collision_free bs : collision_free bs (λ _, True).
Proof.
  split; [done|done|]. intros pre pre' hash _ _ Hc. revert pre'.
  induction Hc as [|pre parent t Hc IH Hl]; intros pre' [[-> Hx]|(pre0 & parent0 & t0 & -> & Hx & Hc0)]%chained_cases; [done| | |].
  - by destruct (exact_root parent0 t0).
  - by destruct (exact_root parent t).
  - apply exact_chain in Hx as [-> ->]. by rewrite (IH pre0).
Qed.

(** ** A model whose pools remember *)
Section Model.
Context `{Powers}.
Context (L : list Z → list f32) (geometry : PackedLlamaGeometry) (L_width : ∀ h, length (L h) = geometry_vocab_size geometry).
Context (L_numbers : ∀ h, ∃ token, row_greedy_token (L h) 0 = Ok token).
(** The rotary frequencies, and the error of every argmax. *)
Context (rotary : list (option RotaryState)) (rotary_static : Forall (λ state, state = None) rotary).
Context (fault : option GenerationError).

Notation Pools := (gmap (N * nat) (list Z)).

(** The tokens before a row, from the slot of its last cached one. *)
Definition recalled (pools : Pools) (b : PagedAttentionBatch) (i : nat) : list Z :=
  match default 0 (pb_start_positions b !! i) with
  | O => []
  | S last => default [] (page ← page_at b i last; pools !! (page, last mod pb_block_size b))
  end.

Definition remembered (pools : Pools) (b : PagedAttentionBatch) (tokens : list Z) (i j : nat) : list Z :=
  recalled pools b i ++ take (S j) (drop (i * pb_sequence b) tokens).

Definition new_entry (pools : Pools) (b : PagedAttentionBatch) (tokens : list Z) (i j : nat) : option (N * nat * list Z) :=
  let position := default 0 (pb_start_positions b !! i) + j in
  page ← page_at b i position; Some (page, position mod pb_block_size b, remembered pools b tokens i j).

Definition new_entries (pools : Pools) (b : PagedAttentionBatch) (tokens : list Z) : list (N * nat * list Z) :=
  mjoin ((λ i, omap (new_entry pools b tokens i) (seq 0 (pb_sequence b))) <$> seq 0 (pb_batch b)).

#[local] Instance remembering : PagedModel := {|
  model_geometry := geometry;
  paged_rotary_states := rotary;
  PagedPools := Pools;
  PagedTensor := nat * nat * nat * list (list f32);
  PagedMatrix := nat * nat * list (list f32);
  MatrixData := list (list f32);
  empty_pools _ := ∅;
  forward_layers tokens pools b all_positions _ :=
    (Some (pb_batch b, kept_positions b all_positions, geometry_vocab_size geometry,
       mjoin ((λ i, (λ j, L (remembered pools b tokens i j)) <$>
         (if all_positions : bool then seq 0 (pb_sequence b) else [pb_sequence b - 1])) <$> seq 0 (pb_batch b))),
     list_to_map (new_entries pools b tokens) ∪ pools);
  tensor_shape t := t.1;
  reshape_rows t rows columns := Some (rows, columns, t.2);
  matrix_shape m := m.1;
  argmax_rows m := match fault with
    | Some e => inl e
    | None => inr ((λ row, match row_greedy_token row 0 with Ok token => token | _ => 0%Z end) <$> m.2)
    end;
  cast_rows m := inr m.2;
  to_vec d := inr (concat d);
  table_alloc _ := true
|}.

Lemma recalled_history pools b hist i start : batch_ready (λ p o, (pools : Pools) !! (p, o)) b hist →
  pb_start_positions b !! i = Some start → recalled pools b i = take start (hist i).
Proof.
  intros Hr Hs. unfold recalled. rewrite Hs. simpl. destruct start as [|last]; [done|].
  destruct (rd_cached _ _ _ Hr i (S last) last Hs) as (p & -> & Hp); [lia|]. simpl. by rewrite Hp.
Qed.

Lemma remembered_upto pools b hist tokens i j : batch_ready (λ p o, (pools : Pools) !! (p, o)) b hist →
  is_Some (pb_start_positions b !! i) → remembered pools b tokens i j = upto b hist tokens i j.
Proof.
  intros Hr [start Hs]. unfold remembered, upto. by rewrite (recalled_history _ _ _ _ _ Hr Hs), Hs.
Qed.

Lemma elem_of_entries pools b hist tokens p o v : batch_ready (λ p o, (pools : Pools) !! (p, o)) b hist →
  length (pb_start_positions b) = pb_batch b →
  (p, o, v) ∈ new_entries pools b tokens ↔ ∃ i j, new_slot b i j p o ∧ v = upto b hist tokens i j.
Proof.
  intros Hr Hlen. unfold new_entries. rewrite list_elem_of_join. split.
  - intros (l & Hin & (i & -> & Hi%elem_of_seq)%list_elem_of_fmap). apply list_elem_of_omap in Hin as (j & Hj%elem_of_seq & He).
    destruct (lookup_lt_is_Some_2 (pb_start_positions b) i) as [start Hs]; [lia|]. unfold new_entry in He. rewrite Hs in He. simpl in He.
    destruct (page_at b i (start + j)) as [page|] eqn:Hp; [|done]. injection He as <- <- <-. exists i, j.
    split; [exists start; split_and!; [done|lia|done..]|]. apply remembered_upto; [done|by eexists].
  - intros (i & j & (start & Hs & Hj & Hp & Ho) & ->). exists (omap (new_entry pools b tokens i) (seq 0 (pb_sequence b))).
    split; [|apply list_elem_of_fmap; exists i; split; [done|]; apply elem_of_seq; apply lookup_lt_Some in Hs; lia].
    apply list_elem_of_omap. exists j. split; [apply elem_of_seq; lia|]. unfold new_entry. rewrite Hs. simpl. rewrite Hp. simpl.
    by rewrite (remembered_upto _ _ _ _ _ _ Hr) by (by eexists); rewrite Ho.
Qed.

#[local] Instance remembering_laws : PagedModelLaws L.
Proof.
  refine {| slots := λ (pools : PagedPools) p o, (pools : Pools) !! (p, o); tensor_rows := snd; matrix_rows := snd |}; simpl.
  - exact rotary_static.
  - exact L_width.
  - exact L_numbers.
  - intros tokens pools b all_positions tables out pools' hist [= <- <-] _ Hlen Hpos Hr. split; [split|split; [done|]].
    + intros i j p o Hs. apply lookup_union_Some_l, elem_of_list_to_map_1'.
      * intros v (i' & j' & Hs' & ->)%(elem_of_entries _ _ hist); [|done..]. by destruct (rd_once _ _ _ Hr _ _ _ _ _ _ Hs Hs') as [<- <-].
      * apply (elem_of_entries _ _ hist); [done..|]. by exists i, j.
    + intros p o Hn. rewrite lookup_union_r; [done|]. apply not_elem_of_list_to_map_1. intros ([[p' o'] v] & He & Hin)%list_elem_of_fmap.
      simpl in He. injection He as <- <-. apply (elem_of_entries _ _ hist) in Hin as (i & j & Hs & _); [|done..]. by apply (Hn i j).
    + simpl. f_equal. apply list_fmap_ext. intros k i Hk%lookup_seq. apply list_fmap_ext. intros k' j _. f_equal.
      apply remembered_upto; [done|]. apply lookup_lt_is_Some_2. lia.
  - by intros t rows columns m [= <-].
  - destruct fault; [done|]. intros m indices [= <-]. split; [by rewrite length_fmap|]. intros i row token Hi Ht. rewrite list_lookup_fmap, Hi. simpl.
    by rewrite Ht.
  - by intros m data values [= <-] [= <-].
Qed.
End Model.

(** ** A run *)
#[local] Existing Instances toy_exp toy_random.
#[local] Instance toy_ln : Logarithm := λ x, x.

Definition toy_geometry : PackedLlamaGeometry := mk_geometry 1 2 1 4 4 32 F32.

Lemma toy_numbers h : ∃ token, row_greedy_token (toy_logits h) 0 = Ok token.
Proof.
  unfold toy_logits. set (top := ((default 0 (last h) + 1) mod 4)%Z).
  assert (top = 0 ∨ top = 1 ∨ top = 2 ∨ top = 3)%Z as Ht by (pose proof (Z.mod_pos_bound (default 0 (last h) + 1) 4)%Z; unfold top; lia).
  clearbody top. destruct Ht as [->|[->|[->| ->]]]; eexists; vm_compute; reflexivity.
Qed.
Definition toy_runner_batching : ContinuousBatchConfig := mk_batch_config 3 6.
Definition toy_runner_pool : PagedKvCacheConfig := mk_config 2 7 16.

Notation RunLog := (gmap N (list Z * GreedyGenerationConfig * option TokenSampler)).

Section Drive.
Context (rotary : list (option RotaryState)) (fault : option GenerationError).
#[local] Instance toy_paged : PagedModel := remembering toy_logits toy_geometry rotary fault.

Fixpoint run_drive (ops : list runner_op) (st : RunLog * ContinuousBatchRunner) : option (RunLog * ContinuousBatchRunner) :=
  match ops with
  | [] => Some st
  | op :: rest =>
      match runner_exec op st.2 with
      | (Panic _, _) => None
      | (out, ru) =>
          if decide (u64_max ≤ next_reservation (kv_cache (ru_scheduler ru)))%N then None
          else run_drive rest (recorded op st.2 out st.1, ru)
      end
  end.

Lemma run_drive_reachable c k ops st st' : runner_reachable (λ _, True) c k st.1 st.2 → run_drive ops st = Some st' →
  runner_reachable (λ _, True) c k st'.1 st'.2.
Proof.
  revert st. induction ops as [|op ops IH]; intros st Hr Heq; simpl in Heq; [by simplify_eq|].
  destruct (runner_exec op st.2) as [out ru] eqn:Ex. assert (∀ p, out ≠ Panic p) as Hp by (by intros p ->).
  assert (¬ exhausted (ru_scheduler ru) ∧ run_drive ops (recorded op st.2 out st.1, ru) = Some st') as [Hn Hd]
    by (destruct out; [..|done]; by case_decide).
  eapply IH; [|exact Hd]. by eapply runner_next.
Qed.

Definition toy_run (ops : list runner_op) : option (RunLog * ContinuousBatchRunner) :=
  match new_runner toy_runner_batching toy_runner_pool with Ok ru => run_drive ops (∅, ru) | _ => None end.

Definition toy_end (ops : list runner_op) : RunLog * ContinuousBatchRunner :=
  match toy_run ops with
  | Some st => st
  | None => (∅, mk_runner (FencedBatch.gt_scheduler lost) (mk_engine (∅ : PagedPools) toy_runner_pool toy_geometry (new_rotary [] 0 0)) [] [])
  end.

Lemma toy_end_reachable ops : (if toy_run ops then true else false) = true →
  runner_reachable (λ _, True) toy_runner_batching toy_runner_pool (toy_end ops).1 (toy_end ops).2.
Proof.
  unfold toy_end. destruct (toy_run ops) as [st|] eqn:E; [|done]. intros _. unfold toy_run in E.
  destruct (new_runner toy_runner_batching toy_runner_pool) as [ru|e|p] eqn:En; [|done..]. eapply run_drive_reachable; [|exact E]. by apply runner_start.
Qed.
End Drive.

Definition toy_runner_calls : list runner_op :=
  [RunSetPrefixCaching true; RunSetSpeculative (Some (mk_speculative 2 2));
   RunSubmit [1; 2; 3; 0; 1]%Z (mk_generation 5 []);
   RunSubmit [1; 2; 3; 0; 3]%Z (mk_generation 4 []);
   RunSubmitSampled [2; 1]%Z (mk_sampling_generation 4 [] (mk_sampling one 0 one (Some 3%N))) default_options].

(** Two greedy requests, one sampled, and a repeated prompt. *)
Definition toy_ops : list runner_op :=
  toy_runner_calls ++ replicate 3 RunStep ++ RunSubmit [1; 2; 3; 0; 3]%Z (mk_generation 4 []) :: replicate 12 RunStep.
Definition toy_done := toy_end [None] None toy_ops.

(** One request was preempted, four tokens came from the prefix cache and two drafts were
    accepted on the way. *)
Example toy_done_results : let s := ru_scheduler toy_done.2 in
  (map fg_generated_token_ids (finished s), preemptions s, reused_tokens (kv_cache s), accepted_draft_tokens s) =
  ([[1; 1; 1; 1; 1]; [0; 1; 1; 1]; [0; 1; 1; 1]; [1; 2; 3; 0]]%Z, 1%N, 4%N, 2%N).
Proof. vm_compute. reflexivity. Qed.

(** ** The theorems, there *)
Lemma toy_rotary : Forall (λ state : option RotaryState, state = None) [None].
Proof. by repeat constructor. Qed.

Lemma toy_fits : (N.of_nat (max_sequence_length toy_runner_pool) ≤ usize_max)%N.
Proof. vm_compute. discriminate. Qed.

Section Running.
#[local] Instance running_model : PagedModel := remembering toy_logits toy_geometry [None] None.
#[local] Instance running_laws : PagedModelLaws toy_logits := remembering_laws toy_logits toy_geometry toy_width toy_numbers [None] toy_rotary None.

Lemma toy_done_reachable : runner_reachable (λ _, True) toy_runner_batching toy_runner_pool toy_done.1 toy_done.2.
Proof. apply toy_end_reachable. vm_compute. reflexivity. Qed.

Definition toy_finished : FinishedGeneration := mk_finished 3 [2; 1]%Z [1; 2; 3; 0]%Z false.

Lemma toy_finished_in : toy_finished ∈ finished (ru_scheduler toy_done.2).
Proof. apply (list_elem_of_lookup_2 _ 3). vm_compute. reflexivity. Qed.

Example paged_runner_equals_decoding_witness :
  collision_free (block_size toy_runner_pool) (λ _, True) ∧
  runner_reachable (λ _, True) toy_runner_batching toy_runner_pool toy_done.1 toy_done.2 ∧
  toy_finished ∈ finished (ru_scheduler toy_done.2) ∧
  ∃ g sampler, toy_done.1 !! fg_request_id toy_finished = Some (fg_prompt_token_ids toy_finished, g, sampler) ∧
    decode (model_pick toy_logits) (list_to_set (eos_token_ids g)) (max_new_tokens g) (fg_prompt_token_ids toy_finished) [] sampler =
      Ok (fg_generated_token_ids toy_finished).
Proof.
  split; [apply exact_collision_free|]. split; [exact toy_done_reachable|]. split; [exact toy_finished_in|].
  exact (paged_runner_equals_decoding (λ _, True) toy_runner_batching toy_runner_pool toy_done.1 toy_done.2 toy_finished
    (exact_collision_free _) toy_fits toy_done_reachable toy_finished_in).
Defined.
End Running.

(** A device that is lost when the argmax is read, with dynamic rotary frequencies. *)
Section Losing.
#[local] Instance losing_model : PagedModel := remembering toy_logits toy_geometry toy_states (Some "device lost").

Definition losing := toy_end toy_states (Some "device lost") [RunSubmit [1; 2; 3]%Z (mk_generation 2 [])].

Lemma losing_reachable : runner_reachable (λ _, True) toy_runner_batching toy_runner_pool losing.1 losing.2.
Proof. apply toy_end_reachable. vm_compute. reflexivity. Qed.

Definition losing_batch : ScheduledBatch := mk_batch 1 Prefill [mk_row 1 [1; 2; 3]%Z 0 3 [0; 1]%N 1].

(** The state a step of the runner schedules from. *)
Definition losing_start (s1 : @ContinuousBatchScheduler TokenSampler) : ContinuousBatchRunner :=
  set_ru_scheduler s1 (set_ranges [] (set_log_probs [] losing.2)).

(** When the argmax fails, contexts are prepared for the batch. *)
Lemma losing_schedules : ∃ s1, schedule (ru_scheduler losing.2) = (Ok (Some losing_batch), s1) ∧
  ∃ ru2, run_batch losing_batch (losing_start s1) = (Err "cannot read paged argmax: device lost", ru2) ∧
    rc_pending (en_rotary (ru_engine ru2)) !! 1%N = Some [mk_pending 1 0 [0; 1]%N [[4; 4; 4]]].
Proof.
  destruct (schedule (ru_scheduler losing.2)) as [out s1] eqn:Es. exists s1.
  assert (out = Ok (Some losing_batch) ∧ (run_batch losing_batch (losing_start s1)).1 = Err "cannot read paged argmax: device lost" ∧
    rc_pending (en_rotary (ru_engine (run_batch losing_batch (losing_start s1)).2)) !! 1%N = Some [mk_pending 1 0 [0; 1]%N [[4; 4; 4]]])
    as (-> & Hrun & Hp).
  { replace s1 with (schedule (ru_scheduler losing.2)).2 by (by rewrite Es).
    replace out with (schedule (ru_scheduler losing.2)).1 by (by rewrite Es). split_and!; vm_compute; reflexivity. }
  split; [done|]. destruct (run_batch losing_batch (losing_start s1)) as [x ru2]. exists ru2. simpl in *. by rewrite Hrun.
Qed.

Example failed_run_is_rolled_back_witness : ∃ s1, schedule (ru_scheduler losing.2) = (Ok (Some losing_batch), s1) ∧
  match runner_step losing.2 with
  | (Ok _, _) => False
  | (Err y, ru') => y = "cannot read paged argmax: device lost" ∧ failed_batch s1 losing_batch (ru_scheduler ru') ∧
      finished (ru_scheduler ru') = finished (ru_scheduler losing.2) ∧
      en_rotary (ru_engine ru') = dropped (batch_id losing_batch) (en_rotary (ru_engine losing.2)) ∧
      selected_log_probs ru' = [] ∧ appended_ranges ru' = []
  | (Panic p, _) => p = Overflow
  end.
Proof.
  destruct losing_schedules as (s1 & Hs & ru2 & Hrun & _). exists s1. split; [exact Hs|].
  exact (failed_run_is_rolled_back (λ _, True) toy_runner_batching toy_runner_pool losing.1 losing.2 losing_batch s1
    "cannot read paged argmax: device lost" ru2 toy_fits losing_reachable Hs Hrun).
Defined.
End Losing.
